(* ===== verification/_CoqProject ===== *)
-Q . S2P
Prelude.v
Strconv.v
Bitmap.v
ByteRanges.v
Heap.v
MinMax.v
Circular.v
Lists.v
Lcs.v
Myers.v
Boolexpr.v
Dates.v
DateRanges.v
Vms.v
VmsPool.v
Ratecontrol.v
Download.v
Streaming.v
Cache.v
Syncsort.v
Edit.v
Fifo.v
Pubsub.v
Groups.v
Errors.v
Text.v
Cloudpath.v
Cloudmatch.v
Flags.v
DateText.v
Iso8601.v
Schedule.v
Repeats.v
Subcmd.v
Envfile.v
Textutil.v
Scanner.v
Linewrap.v
Keys.v
Checkpoint.v
Filewalk.v
Codec.v
Diskusage.v
Cachefs.v
Goroutines.v
Expect.v
