(* ===== verification/Prelude.v ===== *)
(** * A verification of cloudengio/go.pkgs

    The repository is a collection of Go packages: containers and algorithms
    (algo), dates and schedules (datetime), command-line support (cmdutil), files
    (file), errors, synchronisation (sync), texts (text), paths (path) and the
    management of virtual machines (vms), beside clients of cloud services and
    operating-system glue.  This library models the packages with logic of their
    own, one file per component, and proves them correct.  Source paths below
    are relative to src/.

    ** How Go is modelled

    This file holds what the components share.  A Go expression is a [res]: a
    value, a panic, or [NoFuel] for a loop whose fuel did not suffice; [let!] is
    its sequencing.  Every access to a slice is checked ([zget], [zput],
    [zslice]), so "does not panic" is part of what the theorems say.  Integers
    are [Z] with their width written out where it matters ([int64], the masks of
    the packed dates, the words of a bitmap).  Texts are lists of runes, or of
    bytes where the code looks at bytes (Text, Codec, Keys).  Loops are fixpoints
    over a list, a count or fuel; where there is fuel a theorem shows that what
    the operation passes is enough: the length of the slice plus one for the
    loops of a heap and a bitmap, the number of days left for the iterators of
    dates, the number of tokens for the parser, the number of cached responses
    for the streaming downloader, the retries a backoff has left for the retry
    loop, the length of the text or of the list of lines for the parsers of
    Iso8601, Textutil and Goroutines, the depth of a tree of commands for Subcmd,
    the diagonals of the edit path for Myers, the number of actions to come for
    Repeats, and the entries of a directory for Checkpoint.  Iterators
    ([iter.Seq]) are functions that call [yield] with the caller's state
    threaded through.  Pointers that alias are indices into an explicit store
    (Lists, Subcmd), slices that alias are addresses of arrays (Keys).
    Goroutines are program counters with their local variables; channels, locks
    and selects are steps of a labelled machine, and theorems quantify over all
    schedules.  The results of calls that leave the program (instances of a
    virtual machine, servers, files, handlers, clocks, contexts) are choices of
    the schedule or parameters with their documented contract.

    Parameters stand for code that is not in the repository, with what the code
    relies on as named hypotheses or classes: the functions of package unicode
    (Flags, DateText, Envfile), floating-point parsing and scaling (Iso8601), the
    parsers of flags (Subcmd), regular expressions (Textutil, Expect), the zones
    of locations (Repeats), [sort.Slice] (the class [SortSlice]), the order in
    which a directory or a Go map is listed (Checkpoint, Keys), the decoders of
    YAML and JSON (Keys), the encoding of times (Codec), the group of flights of
    golang.org/x/sync (Cachefs), files outside of a directory (Checkpoint),
    [url.Parse] (Cloudmatch), SHA-1 (Diskusage).  Scanner is the standard library's
    [bufio.Scanner] over lines, with its limit of 64 KiB.

    ** The files

    - Strconv: strconv's formatting and parsing of 64-bit integers; Text: what
      package strings does, over lists of runes.
    - Bitmap: algo/container/bitmap.  [T] and its iterators are compared with
      the list of set bits, [Contiguous] with the first clear bit after its
      start; JSON round trips.
    - ByteRanges: file/largefile/byte_ranges.go over Bitmap: blocks of a file and
      those that are done.  A history of operations refines a set of block
      numbers, and the ranges partition the content.
    - Heap and MinMax: algo/container/heap: [Heap], [T] and [MinMax]: heap order,
      multiset and callbacks after every operation.  The class [StrictWeak] is
      what the heap asks of [Less]; Streaming, Syncsort and Repeats instantiate it.
    - Circular and Lists: algo/container/circular and list, refinements of plain
      lists; the linked lists live in a store of items.
    - Lcs and Myers: algo/lcs: the dynamic-programming algorithm finds all the
      longest common subsequences and a shortest edit script; the algorithm of
      Myers in linear space finds a subsequence as long.
    - Boolexpr: cmdutil/boolexpr: tokenizer, parser, builder and evaluator;
      parsing is total and evaluation agrees with the boolean reading of
      expressions that do not mix operators on one level.
    - Dates and DateRanges: datetime: packed dates and ranges of them against the
      Gregorian calendar; merging of lists of dates and ranges is exact, and the
      constrained iterators yield maximal runs.  DateText: their parsers and
      printers; Iso8601: ISO 8601 periods.
    - Schedule and Repeats: datetime/schedule: the days of an annual schedule and
      the order in which the actions of a day and their repetitions are due.
    - Vms and VmsPool: vms and vms/vmspool.  [InstanceLaws] is the contract of an
      instance; [CleanupVM] is proved against it.  The pool's threads interleave
      at each lock, channel operation and instance call: it keeps its size, cleans
      every instance once, and accounts for all of them when closed.
    - Ratecontrol: algo/ratecontrol.  The class [Backoff] with [BackoffLaws] is
      what a backoff promises: it grants its retries and then reports that it is
      done; waits grow as configured.  The [Controller] never grants more
      than one request a tick beyond its burst.
    - Download, Streaming and Cache: file/largefile.  Download holds the retry
      loop of one byte range, proved against [BackoffLaws].  Streaming holds the
      concurrent downloader: the reader receives the content in order under every
      schedule.  Cache holds the local cache, which refines a list of optional
      bytes, and the caching downloader's iterations.
    - Filewalk: file/filewalk: the concurrent walk makes the calls of the recursive
      one, interleaved.  Checkpoint: file/checkpoint against a list of
      checkpoints.  Cachefs: file/cachefs: results are fresh and reads are shared.
      Codec: the binary encodings of file and file/filewalk and the decoders of
      algo/codec.  Diskusage: units and block sizes, and the shards of path.
    - Syncsort: sync/syncsort: the sequencer delivers in the order of numbering
      and can always complete.
    - Fifo and Pubsub: sync/patterns: the ring buffer refines a queue that drops
      its oldest element; the publish/subscribe on top of it never panics, and
      no subscriber holds up a publisher.
    - Groups: sync/ctxsync and sync/errgroup under every interleaving.  Errors:
      the trees of errors of package errors, [Squash] and the searches in them.
    - Edit: text/edit: [Do] equals a reference that looks at every position of
      the content on its own.  Textutil and Linewrap: text/textutil and
      text/linewrap.  Scanner: the lines of a text, shared by Linewrap and
      Goroutines.
    - Cloudpath and Cloudmatch: path/cloudpath: paths as lists of components and
      the matchers of names of cloud services.
    - Flags, Subcmd, Envfile, Keys and Expect: cmdutil: values of flags, the
      dispatch of command lines to the command that their arguments select,
      environment files, the key store and expectations on lines.  Goroutines: debug/goroutines: the text of stacks.

    ** Interfaces

    Heap's [StrictWeak] connects it with its users; [SortSlice] of this file is
    what sorting promises to Schedule, Checkpoint and Keys; Ratecontrol's
    [BackoffLaws] connects the backoffs with the retry loop of Download; Vms'
    [InstanceLaws] connects the instances with [CleanupVM]; [ZoneLaw] is what
    Repeats asks of a location, [FlightLaws] what Cachefs asks of a group of
    flights, around which [SingleFlight.Do] of Groups makes its second attempt; [refines] of Fifo connects the ring buffer with
    Pubsub; the theorems on Bitmap are what ByteRanges and Cache are built on, and
    those on Dates what DateRanges, DateText and Schedule are built on.

    ** Conditions and what they exclude

    Where the code departs from its documentation the theorems carry the
    condition under which it is right and a lemma next to them shows what
    happens otherwise: a last replacement by nothing is not applied
    ([Edit.empty_replacement_last]), a retry can be forgotten
    ([Streaming.retry_forgotten]), an unaligned read returns bytes that were never
    cached ([Cache.unaligned_read_uncached]), the sequencer spins when its
    input ends with an item missing ([Syncsort.order_spins]), heapifying short
    slices does not end ([MinMax.heapify_short_never_ends]), an error tree without
    errors cannot be squashed ([Errors.Squash_empty_panics]), a nested [Go] can
    block for ever ([Groups.nested_go_stuck]), comparing a path with a
    prefix below it panics ([Cloudpath.HasPrefix_below_panics]), and so do matching
    the global endpoint of S3 ([Cloudmatch.s3_global_endpoint_panics]) and parsing a
    date with a numeric month ([DateText.numeric_month_panics]), commands without flags dereference nil
    ([Subcmd.without_flags_panics]), dynamic ranges leave their year
    ([Schedule.dynamic_outside_year]), repetitions of less than a second never end
    ([Repeats.half_second_never_ends]), nine-digit checkpoints sort first
    ([Checkpoint.nine_digits_sort_first]), an error of the directory loops
    ([Checkpoint.read_error_loops]) and a label with a separator loses the
    checkpoints that are compacted ([Checkpoint.separator_loses]), noon is read as
    the hour 24 ([DateText.noon_pm]), text after a line of 64 KiB is not wrapped
    ([Linewrap.long_line_lost]), the order of a map decides between equal keys
    ([Keys.map_order_matters]), a cancelled walk leaves goroutines behind
    ([Filewalk.Walk_leaves_goroutines]), truncated data panics
    ([Codec.truncated_infos]), and exact multiples of a block are rounded up
    ([Diskusage.exact_multiples]).

    ** Not modelled

    Clients of cloud services (aws, google) and tables (geospatial); the docker
    command line, file-system, process, network, logging, tracing and
    keychain-plugin glue (os, net, io, security, logging, cicd, the rest of file
    and debug): what it does is what the libraries it calls do.  The operands of
    file/matcher and the struct tags of cmdutil/flags find the methods and fields
    of their values by reflection; cmdyaml, cmdjson and the YAML form of command
    trees wrap decoders that are not in the repository.  The crawler of
    file/crawl connects a downloader and extractors of the user by channels and
    keeps no state of its own.  Test support.  Of the modelled components:
    floating-point formatting, templates and the printing of edit scripts; the
    aliasing of slices outside Keys, such as the slice of hooks that callers of
    Subcmd share with it; fairness of schedules, so that liveness is that a
    result can be reached or that a step is enabled.  Logging, metrics and the
    contents of error messages are left out throughout; an error is the value the
    code compares or wraps. *)

From stdpp Require Import base list option numbers sorting.
From Stdlib Require Import ZArith Lia.

Declare Scope go_scope.
Delimit Scope go_scope with go.
Open Scope go_scope.

(** ** Outcomes

    A Go expression yields a value, panics (an index out of range, a nil
    dereference, a negative shift count), or, for a loop translated with fuel,
    has not finished within it.  [NoFuel] is an artefact of the translation:
    each component proves that the fuel it passes is never exhausted. *)
Inductive res (A : Type) : Type :=
| Ok (a : A)
| Panic
| NoFuel.
Arguments Ok {A} a.
Arguments Panic {A}.
Arguments NoFuel {A}.

Definition rbind {A B} (m : res A) (f : A -> res B) : res B :=
  match m with Ok a => f a | Panic => Panic | NoFuel => NoFuel end.

Notation "'let!' x ':=' m 'in' k" := (rbind m (fun x => k))
  (at level 10, x pattern, m at level 100, k at level 200,
   format "'[v' 'let!'  x  ':='  m  'in' '/' k ']'") : go_scope.
Notation "m ;; k" := (rbind m (fun _ : unit => k))
  (at level 100, k at level 200, right associativity) : go_scope.

(** A checked access: the option of a lookup becomes a panic. *)
Definition checked {A} (o : option A) : res A :=
  match o with Some a => Ok a | None => Panic end.

Lemma bind_Ok {A B} (m : res A) (f : A -> res B) (b : B) :
  rbind m f = Ok b <-> exists a, m = Ok a /\ f a = Ok b.
Proof. destruct m; cbn; naive_solver. Qed.

Lemma checked_Ok {A} (o : option A) (a : A) : checked o = Ok a <-> o = Some a.
Proof. destruct o; cbn; naive_solver. Qed.

(** ** Slices indexed by Go's [int] *)

Definition len {A} (l : list A) : Z := Z.of_nat (length l).

(** [l[i]]: [None] stands for the run-time panic. *)
Definition zget {A} (l : list A) (i : Z) : option A :=
  if (0 <=? i)%Z then l !! Z.to_nat i else None.

(** [l[i] = x], on an index that has been checked. *)
Definition zset {A} (l : list A) (i : Z) (x : A) : list A :=
  if (0 <=? i)%Z then <[Z.to_nat i := x]> l else l.

(** [l[i] = x] with its bounds check. *)
Definition zput {A} (l : list A) (i : Z) (x : A) : res (list A) :=
  if ((0 <=? i) && (i <? len l))%Z then Ok (zset l i x) else Panic.

(** [l[lo:hi]], for a slice whose capacity is its length. *)
Definition zslice {A} (l : list A) (lo hi : Z) : res (list A) :=
  if ((0 <=? lo) && (lo <=? hi) && (hi <=? len l))%Z
  then Ok (take (Z.to_nat (hi - lo)) (drop (Z.to_nat lo) l)) else Panic.

Lemma len_nonneg {A} (l : list A) : (0 <= len l)%Z.
Proof. unfold len. lia. Qed.

Lemma len_nil {A} : len (@nil A) = 0%Z.
Proof. reflexivity. Qed.

Lemma len_cons {A} (x : A) l : len (x :: l) = (len l + 1)%Z.
Proof. unfold len. cbn. lia. Qed.

Lemma len_app {A} (l k : list A) : len (l ++ k) = (len l + len k)%Z.
Proof. unfold len. rewrite length_app. lia. Qed.

Lemma len_replicate {A} n (x : A) : len (replicate n x) = Z.of_nat n.
Proof. unfold len. by rewrite length_replicate. Qed.

Lemma len_zset {A} (l : list A) i x : len (zset l i x) = len l.
Proof. unfold len, zset. case_match; [by rewrite length_insert | done]. Qed.

Lemma zget_Some {A} (l : list A) i x :
  zget l i = Some x <-> (0 <= i)%Z /\ l !! Z.to_nat i = Some x.
Proof. unfold zget. destruct (Z.leb_spec 0 i); naive_solver lia. Qed.

Lemma zget_is_Some {A} (l : list A) i :
  (0 <= i < len l)%Z -> exists x, zget l i = Some x.
Proof.
  intros Hi. unfold zget, len in *. rewrite (proj2 (Z.leb_le 0 i)) by lia.
  apply lookup_lt_is_Some_2. lia.
Qed.

Lemma zget_lt {A} (l : list A) i x : zget l i = Some x -> (0 <= i < len l)%Z.
Proof.
  intros [? H]%zget_Some. apply lookup_lt_Some in H. unfold len. lia.
Qed.

Lemma zget_None {A} (l : list A) i :
  zget l i = None <-> ~ (0 <= i < len l)%Z.
Proof.
  split.
  - intros HN Hi. destruct (zget_is_Some l i Hi). congruence.
  - intros Hi. destruct (zget l i) eqn:E; [|done]. by apply zget_lt in E.
Qed.

Lemma zget_zset_eq {A} (l : list A) i x :
  (0 <= i < len l)%Z -> zget (zset l i x) i = Some x.
Proof.
  intros Hi. unfold zget, zset, len in *. rewrite (proj2 (Z.leb_le 0 i)) by lia.
  apply list_lookup_insert_eq. lia.
Qed.

Lemma zget_zset_ne {A} (l : list A) i j x :
  i <> j -> zget (zset l i x) j = zget l j.
Proof.
  intros Hij. unfold zget, zset.
  destruct (Z.leb_spec 0 i), (Z.leb_spec 0 j); try done.
  apply list_lookup_insert_ne. lia.
Qed.

Lemma zget_nil {A} i : zget (@nil A) i = None.
Proof. apply (proj2 (zget_None _ _)). unfold len. cbn. lia. Qed.

Lemma zput_Ok {A} (l : list A) i x :
  (0 <= i < len l)%Z -> zput l i x = Ok (zset l i x).
Proof.
  intros Hi. unfold zput.
  rewrite (proj2 (Z.leb_le 0 i)), (proj2 (Z.ltb_lt i (len l))) by lia. done.
Qed.

Lemma zget_app_l {A} (l k : list A) i :
  (i < len l)%Z -> zget (l ++ k) i = zget l i.
Proof.
  intros Hi. unfold zget, len in *. destruct (Z.leb_spec 0 i); [|done].
  apply lookup_app_l. lia.
Qed.

Lemma zget_replicate {A} n (x : A) i :
  (0 <= i < Z.of_nat n)%Z -> zget (replicate n x) i = Some x.
Proof.
  intros Hi. unfold zget. rewrite (proj2 (Z.leb_le 0 i)) by lia.
  apply lookup_replicate. split; [done|lia].
Qed.

Lemma zslice_Ok {A} (l : list A) lo hi : (0 <= lo <= hi)%Z -> (hi <= len l)%Z ->
  zslice l lo hi = Ok (take (Z.to_nat (hi - lo)) (drop (Z.to_nat lo) l)).
Proof.
  intros Hlo Hhi. unfold zslice.
  by rewrite (proj2 (Z.leb_le 0 lo)), (proj2 (Z.leb_le lo hi)), (proj2 (Z.leb_le hi (len l))) by lia.
Qed.

(** ** Counting over a list that changes at one index *)

Lemma sum_insert {A} (f : A -> nat) l t q r : l !! t = Some q ->
  sum_list_with f (<[t:=r]> l) + f q = sum_list_with f l + f r.
Proof.
  revert t. induction l as [|x l IH]; intros [|t] Ht; try discriminate.
  - injection Ht as ->. cbn. lia.
  - specialize (IH t Ht). change (<[S t:=r]> (x :: l)) with (x :: <[t:=r]> l). cbn [sum_list_with]. lia.
Qed.

Lemma sum_lookup {A} (f : A -> nat) l t q : l !! t = Some q -> f q <= sum_list_with f l.
Proof.
  revert t. induction l as [|x l IH]; intros [|t] H; try discriminate; cbn in *; [injection H as ->; lia|].
  specialize (IH t H). lia.
Qed.

(** ** Permutations by counting

    Two lists are permutations of each other when every element occurs as often
    in one as in the other; occurrences are sums, which [lia] computes with. *)

Definition same (j x : Z) : nat := if decide (x = j) then 1 else 0.
Definition occ (j : Z) (l : list Z) : nat := sum_list_with (same j) l.

Lemma occ_nil j : occ j [] = 0.
Proof. done. Qed.

Lemma occ_cons j x l : occ j (x :: l) = same j x + occ j l.
Proof. done. Qed.

Lemma occ_app j l k : occ j (l ++ k) = occ j l + occ j k.
Proof. apply sum_list_with_app. Qed.

Lemma occ_elem j l : 0 < occ j l <-> j ∈ l.
Proof.
  induction l as [|x l IH]; [by unfold occ; cbn; rewrite elem_of_nil; lia|]. rewrite occ_cons, elem_of_cons, <- IH.
  unfold same. destruct (decide (x = j)) as [->|]; [split; [by left|lia]|]. split; [right; lia|]. intros [?|?]; [congruence|lia].
Qed.

Lemma occ_NoDup j l : NoDup l -> occ j l <= 1.
Proof.
  induction 1 as [|x l Hx _ IH]; [unfold occ; cbn; lia|]. rewrite occ_cons. unfold same.
  destruct (decide (x = j)) as [->|]; [|lia]. rewrite <- occ_elem in Hx. lia.
Qed.

Lemma occ_perm l k : l ≡ₚ k <-> forall j, occ j l = occ j k.
Proof.
  split; [intros Hp j; unfold occ; by rewrite Hp|].
  revert k. induction l as [|x l IH]; intros k Hk.
  - destruct k as [|y k]; [done|]. specialize (Hk y). rewrite occ_cons in Hk. unfold same, occ in Hk.
    rewrite decide_True in Hk by done. cbn in Hk. lia.
  - assert (x ∈ k) as (k' & Hk')%elem_of_Permutation.
    { apply occ_elem. rewrite <- Hk, occ_cons. unfold same. rewrite decide_True by done. lia. }
    rewrite Hk'. f_equiv. apply IH. intros j. specialize (Hk j).
    assert (occ j k = occ j (x :: k')) as E by (unfold occ; by rewrite Hk').
    rewrite E, !occ_cons in Hk. lia.
Qed.

(** Prove a permutation from the permutations in the context. *)
Ltac count_perm :=
  apply occ_perm; let j := fresh "j" in intros j;
  repeat match goal with
  | H : Permutation (A:=Z) _ _ |- _ => rewrite occ_perm in H; specialize (H j)
  end;
  repeat (rewrite ?occ_app, ?occ_nil in *; progress rewrite ?occ_cons in *); rewrite ?occ_app, ?occ_nil in *; lia.

(** ** Stable sorting

    What [sort.SliceStable] leaves in the slice: among the results of stable
    sorting algorithms there is only this one when [less] is a strict weak
    order. *)

Section stable_sort.
Context {A : Type} (less : A -> A -> bool).

Fixpoint insert_stable (x : A) (l : list A) : list A :=
  match l with
  | [] => [x]
  | y :: l => if less y x then y :: insert_stable x l else x :: y :: l
  end.

Definition SliceStable (l : list A) : list A := foldr insert_stable [] l.

Lemma insert_stable_perm x l : insert_stable x l ≡ₚ x :: l.
Proof.
  induction l as [|y l IH]; [done|]. cbn. destruct (less y x); [|done]. rewrite IH. apply perm_swap.
Qed.

Lemma SliceStable_perm l : SliceStable l ≡ₚ l.
Proof. induction l as [|x l IH]; [done|]. cbn. by rewrite insert_stable_perm, IH. Qed.

(** Elements that compare equal keep their order. *)
Lemma SliceStable_filter (P : A -> Prop) `{!forall x, Decision (P x)} l :
  (forall x y, P x -> P y -> less x y = false) -> filter P (SliceStable l) = filter P l.
Proof.
  intros HP. induction l as [|x l IH]; [done|]. cbn [SliceStable foldr].
  assert (forall k, filter P (insert_stable x k) = filter P (x :: k)) as Hins.
  { induction k as [|y k IHk]; [done|]. cbn [insert_stable]. destruct (less y x) eqn:E; [|done].
    rewrite !filter_cons, IHk, filter_cons. destruct (decide (P y)), (decide (P x)); try done.
    by rewrite HP in E. }
  rewrite Hins, !filter_cons. fold (SliceStable l). by rewrite IH.
Qed.

Lemma SliceStable_sorted l :
  (forall x y, less x y = true -> less y x = false) ->
  (forall x y z, less y x = false -> less z y = false -> less z x = false) ->
  StronglySorted (fun x y => less y x = false) (SliceStable l).
Proof.
  intros Hasym Htrans. induction l as [|x l IH]; [constructor|]. cbn. fold (SliceStable l).
  induction IH as [|y k Hk IHk Hall]; [by repeat constructor|]. cbn. destruct (less y x) eqn:E.
  - constructor; [done|]. rewrite insert_stable_perm. constructor; [by apply Hasym|done].
  - constructor; [by constructor|]. constructor; [done|]. eapply Forall_impl; [done|]. cbn. eauto.
Qed.
End stable_sort.

(** What [sort.Slice] promises: a permutation in order, where the order of
    elements that compare equal is left open. *)
Class SortSlice {A} (sort : (A -> A -> bool) -> list A -> list A) : Prop := {
  sort_perm : forall less l, sort less l ≡ₚ l;
  sort_ordered : forall less l, (forall x y, less x y = true -> less y x = false) ->
    (forall x y z, less y x = false -> less z y = false -> less z x = false) ->
    StronglySorted (fun x y => less y x = false) (sort less l);
}.

#[export] Instance SliceStable_sorts {A} : SortSlice (A := A) (fun less => SliceStable less).
Proof. split; [intros; apply SliceStable_perm|intros less l H1 H2; by apply SliceStable_sorted]. Qed.

(** ** Machine integers *)

Definition uint64_ok (w : Z) : Prop := (0 <= w < 2 ^ 64)%Z.

(** Conversion of an exact result to a signed 64-bit [int]. *)
Definition int64 (z : Z) : Z := ((z + 2 ^ 63) mod 2 ^ 64 - 2 ^ 63)%Z.

Definition int64_ok (z : Z) : Prop := (- 2 ^ 63 <= z < 2 ^ 63)%Z.

Lemma int64_id z : int64_ok z -> int64 z = z.
Proof. unfold int64_ok, int64. intros. rewrite Z.mod_small; lia. Qed.

Lemma int64_range z : int64_ok (int64 z).
Proof. unfold int64_ok, int64. pose proof (Z.mod_pos_bound (z + 2 ^ 63) (2 ^ 64)). lia. Qed.

(** Integer division and remainder of Go's [int]: truncated, a panic on a zero
    divisor, and -2^63 / -1 wraps. *)
Definition go_quot (a b : Z) : res Z := if (b =? 0)%Z then Panic else Ok (int64 (Z.quot a b)).
Definition go_rem (a b : Z) : res Z := if (b =? 0)%Z then Panic else Ok (Z.rem a b).

Lemma go_quot_pos a b : (0 <= a < 2 ^ 63)%Z -> (0 < b)%Z -> go_quot a b = Ok (a / b)%Z.
Proof.
  intros Ha Hb. unfold go_quot. rewrite (proj2 (Z.eqb_neq b 0)) by lia.
  rewrite Z.quot_div_nonneg by lia. pose proof (Z.div_pos a b).
  rewrite int64_id; [done|]. unfold int64_ok. split; [lia|].
  apply Z.div_lt_upper_bound; nia.
Qed.

Lemma go_rem_pos a b : (0 <= a)%Z -> (0 < b)%Z -> go_rem a b = Ok (a mod b)%Z.
Proof.
  intros Ha Hb. unfold go_rem. rewrite (proj2 (Z.eqb_neq b 0)) by lia.
  by rewrite Z.rem_mod_nonneg by lia.
Qed.

(** ** Iterators

    Go's [iter.Seq[A]] is a function that calls [yield] on each element until
    [yield] returns false.  The caller's state [S] is threaded explicitly. *)
Definition seq_iter (A : Type) : Type :=
  forall S : Type, (A -> S -> res (bool * S)) -> S -> res S.

(** Ranging over a list: the reference an iterator is compared with.  It stops
    as soon as [yield] returns false, as a [break] does. *)
Fixpoint range_list {A S} (l : list A) (yield : A -> S -> res (bool * S)) (s : S) : res S :=
  match l with
  | [] => Ok s
  | a :: l => let! (more, s') := yield a s in if more then range_list l yield s' else Ok s'
  end.

(** A consumer that collects every element. *)
Definition collect {A} (a : A) (acc : list A) : res (bool * list A) := Ok (true, acc ++ [a]).

Lemma range_list_collect {A} (l acc : list A) : range_list l collect acc = Ok (acc ++ l).
Proof.
  revert acc. induction l as [|a l IH]; intros acc; cbn; [by rewrite app_nil_r|].
  rewrite IH. by rewrite <- app_assoc.
Qed.

(** ** Automation *)

Create HintDb go discriminated.
Create Rewrite HintDb go_len.
#[export] Hint Resolve len_nonneg : go.
#[export] Hint Rewrite @len_nil @len_cons @len_app @len_replicate @len_zset : go_len.

(** Arithmetic with quotients and remainders by constants. *)
Ltac div_lia := Z.to_euclidean_division_equations; lia.

(** Turn the boolean comparisons of the goal and of the hypotheses into
    propositions [lia] understands. *)
Ltac bool_to_prop :=
  repeat match goal with
  | H : andb _ _ = true |- _ => apply andb_true_iff in H; destruct H
  | H : orb _ _ = false |- _ => apply orb_false_iff in H; destruct H
  | H : orb _ _ = true |- _ => apply orb_true_iff in H
  | H : andb _ _ = false |- _ => apply andb_false_iff in H
  | H : negb _ = true |- _ => apply negb_true_iff in H
  | H : negb _ = false |- _ => apply negb_false_iff in H
  | H : Z.leb _ _ = true |- _ => apply Z.leb_le in H
  | H : Z.leb _ _ = false |- _ => apply Z.leb_gt in H
  | H : Z.ltb _ _ = true |- _ => apply Z.ltb_lt in H
  | H : Z.ltb _ _ = false |- _ => apply Z.ltb_ge in H
  | H : Z.eqb _ _ = true |- _ => apply Z.eqb_eq in H
  | H : Z.eqb _ _ = false |- _ => apply Z.eqb_neq in H
  | H : Nat.ltb _ _ = true |- _ => apply Nat.ltb_lt in H
  | H : Nat.ltb _ _ = false |- _ => apply Nat.ltb_ge in H
  | H : Nat.leb _ _ = true |- _ => apply Nat.leb_le in H
  | H : Nat.leb _ _ = false |- _ => apply Nat.leb_gt in H
  | H : Nat.eqb _ _ = true |- _ => apply Nat.eqb_eq in H
  | H : Nat.eqb _ _ = false |- _ => apply Nat.eqb_neq in H
  end.

(** Case analysis on the first boolean test of the goal that holds no other
    test. *)
Ltac test_case :=
  match goal with
  | |- context [if ?b then _ else _] =>
      lazymatch b with
      | context [if _ then _ else _] => fail
      | _ => destruct b eqn:?; bool_to_prop
      end
  end.

(** Invert a successful monadic run into its steps. *)
Ltac res_inv :=
  repeat match goal with
  | H : rbind _ _ = Ok _ |- _ =>
      apply bind_Ok in H; let x := fresh "v" in destruct H as [x [? H]]
  | H : checked _ = Ok _ |- _ => apply checked_Ok in H
  | H : Ok _ = Ok _ |- _ => injection H; clear H; intros; subst
  | H : Panic = Ok _ |- _ => discriminate H
  | H : NoFuel = Ok _ |- _ => discriminate H
  end.
