(* ===== verification/Strconv.v ===== *)
(** * Numbers as text (Go's strconv)

    The conversions of Go's standard library the modelled packages call:
    [FormatUint], [FormatInt], [ParseUint] and [ParseInt] at 64 bits, with the
    two errors the parsers report, and their round trips. *)

From stdpp Require Import base list option numbers strings.
From Stdlib Require Import ZArith Lia Ascii String.
From S2P Require Import Prelude.

Open Scope string_scope.
Open Scope Z_scope.

Inductive num_error := ErrSyntax | ErrRange.

#[export] Instance num_error_dec : EqDecision num_error.
Proof. solve_decision. Defined.

(** The digits of bases up to 36, lower case as Go prints them. *)
Definition digit (d : Z) : ascii :=
  ascii_of_N (Z.to_N (if d <? 10 then 48 + d else 87 + d)).

Fixpoint digits (fuel : nat) (base v : Z) : string :=
  match fuel with
  | O => EmptyString
  | S fuel =>
      if v <? base then String (digit v) EmptyString
      else digits fuel base (v / base) +:+ String (digit (v mod base)) EmptyString
  end.

(** A 64-bit value has at most 64 digits in any base. *)
Definition FormatUint (v base : Z) : string := digits 64 base v.

Definition FormatInt (v base : Z) : string :=
  if v <? 0 then String "-" (FormatUint (- v) base) else FormatUint v base.

(** The value of a digit character of the given base. *)
Definition digit_value (base : Z) (c : ascii) : option Z :=
  let n := Z.of_N (N_of_ascii c) in
  let d := if (48 <=? n) && (n <=? 57) then n - 48
           else if (97 <=? n) && (n <=? 122) then n - 87
           else if (65 <=? n) && (n <=? 90) then n - 55 else base in
  if d <? base then Some d else None.

Fixpoint parse_digits (base acc : Z) (s : string) : Z + num_error :=
  match s with
  | EmptyString => inl acc
  | String c s =>
      match digit_value base c with
      | None => inr ErrSyntax
      | Some d =>
          if 2 ^ 64 <=? acc * base + d then inr ErrRange
          else parse_digits base (acc * base + d) s
      end
  end.

Definition ParseUint (s : string) (base : Z) : Z + num_error :=
  match s with EmptyString => inr ErrSyntax | _ => parse_digits base 0 s end.

(** [ParseInt] at 64 bits, base 2 to 36: an optional sign, then digits. *)
Definition ParseInt (s : string) (base : Z) : Z + num_error :=
  let signed (neg : bool) (rest : string) :=
    match ParseUint rest base with
    | inr e => inr e
    | inl u =>
        if neg then if 2 ^ 63 <? u then inr ErrRange else inl (- u)
        else if 2 ^ 63 <=? u then inr ErrRange else inl u
    end in
  match s with
  | String "-" rest => signed true rest
  | String "+" rest => signed false rest
  | _ => signed false s
  end.

(** ** Round trips *)

Lemma digit_value_digit base d :
  2 <= base <= 36 -> 0 <= d < base -> digit_value base (digit d) = Some d.
Proof.
  intros Hb Hd. unfold digit_value, digit. rewrite N_ascii_embedding.
  2: { destruct (d <? 10); lia. }
  destruct (Z.ltb_spec d 10); rewrite Z2N.id by lia; repeat test_case; try lia; f_equal; lia.
Qed.

Lemma parse_digits_app base s1 s2 acc :
  parse_digits base acc (s1 +:+ s2) =
  match parse_digits base acc s1 with inl a => parse_digits base a s2 | inr e => inr e end.
Proof.
  revert acc. induction s1 as [|c s1 IH]; intros acc; [done|].
  change (String c s1 +:+ s2) with (String c (s1 +:+ s2)). cbn [parse_digits].
  destruct (digit_value base c); [|done]. destruct (_ <=? _); [done|]. apply IH.
Qed.

Lemma digits_S fuel base v :
  digits (S fuel) base v = if v <? base then String (digit v) EmptyString
    else digits fuel base (v / base) +:+ String (digit (v mod base)) EmptyString.
Proof. reflexivity. Qed.

Lemma parse_digits_digits base fuel v :
  2 <= base <= 36 -> 0 <= v < 2 ^ 64 -> v < base ^ Z.of_nat fuel ->
  parse_digits base 0 (digits fuel base v) = inl v.
Proof.
  intros Hb. revert v. induction fuel as [|fuel IH]; intros v Hv Hf.
  { cbn in *. f_equal. lia. }
  rewrite digits_S. destruct (Z.ltb_spec v base) as [Hlt|Hge].
  - cbn [parse_digits]. rewrite digit_value_digit by lia.
    rewrite (proj2 (Z.leb_gt _ _)) by lia. f_equal.
  - pose proof (Z.div_mod v base). pose proof (Z.mod_pos_bound v base).
    rewrite Nat2Z.inj_succ, Z.pow_succ_r in Hf by lia.
    assert (0 <= v / base <= v) by (split; [apply Z.div_pos|apply Z.div_le_upper_bound]; nia).
    assert (v / base < base ^ Z.of_nat fuel) by (apply Z.div_lt_upper_bound; lia).
    rewrite parse_digits_app, IH by lia. cbn [parse_digits].
    rewrite digit_value_digit by lia.
    replace (v / base * base + v mod base) with v by lia.
    by rewrite (proj2 (Z.leb_gt _ _)) by lia.
Qed.

Lemma digits_nonempty base fuel v : digits (S fuel) base v <> EmptyString.
Proof. rewrite digits_S. case_match; [done|]. by destruct (digits fuel base _). Qed.

Lemma ParseUint_FormatUint base v :
  2 <= base <= 36 -> uint64_ok v -> ParseUint (FormatUint v base) base = inl v.
Proof.
  unfold uint64_ok. intros Hb Hv. unfold ParseUint.
  destruct (FormatUint v base) eqn:E; [by apply digits_nonempty in E|]. rewrite <- E.
  apply parse_digits_digits; [done|lia|].
  apply Z.lt_le_trans with (2 ^ 64); [lia|]. apply Z.pow_le_mono_l. lia.
Qed.

(** No number begins with a sign. *)
Lemma digits_head base fuel v :
  2 <= base <= 36 -> 0 <= v ->
  exists d s, 0 <= d < base /\ digits (S fuel) base v = String (digit d) s.
Proof.
  intros Hb. revert v. induction fuel as [|fuel IH]; intros v Hv; rewrite digits_S.
  - destruct (Z.ltb_spec v base); [by eexists _, _|]. cbn. pose proof (Z.mod_pos_bound v base).
    eexists _, _. split; [|done]. lia.
  - destruct (Z.ltb_spec v base); [by eexists _, _|].
    destruct (IH (v / base)) as (d & s & Hd & ->); [apply Z.div_pos; lia|]. by eexists _, _.
Qed.

Lemma digit_not_sign d : 0 <= d < 36 -> digit d <> "-"%char /\ digit d <> "+"%char.
Proof.
  intros Hd. split; intros E; apply (f_equal N_of_ascii) in E; unfold digit in E;
    rewrite N_ascii_embedding in E by (destruct (d <? 10); lia);
    destruct (Z.ltb_spec d 10); cbn in E; lia.
Qed.

Lemma ParseInt_unsigned s base :
  (forall c r, s = String c r -> c <> "-"%char /\ c <> "+"%char) ->
  ParseInt s base =
    match ParseUint s base with
    | inr e => inr e
    | inl u => if 2 ^ 63 <=? u then inr ErrRange else inl u
    end.
Proof.
  intros Hs. unfold ParseInt. destruct s as [|c r]; [done|].
  destruct (Hs c r eq_refl) as [H1 H2].
  destruct c as [[] [] [] [] [] [] [] []]; try done; congruence.
Qed.

Lemma ParseInt_minus s base :
  ParseInt (String "-" s) base =
    match ParseUint s base with
    | inr e => inr e
    | inl u => if 2 ^ 63 <? u then inr ErrRange else inl (- u)
    end.
Proof. reflexivity. Qed.

Lemma ParseInt_FormatInt base v :
  2 <= base <= 36 -> int64_ok v -> ParseInt (FormatInt v base) base = inl v.
Proof.
  unfold int64_ok. intros Hb Hv. unfold FormatInt. destruct (Z.ltb_spec v 0).
  - rewrite ParseInt_minus, ParseUint_FormatUint by (unfold uint64_ok; lia).
    rewrite (proj2 (Z.ltb_ge (2 ^ 63) (- v))) by lia. f_equal. lia.
  - rewrite ParseInt_unsigned.
    + rewrite ParseUint_FormatUint by (unfold uint64_ok; lia).
      by rewrite (proj2 (Z.leb_gt (2 ^ 63) v)) by lia.
    + intros c r E. destruct (digits_head base 63 v) as (d & s & Hd & E'); [lia..|].
      unfold FormatUint in E. rewrite E' in E. injection E as <- _. apply digit_not_sign. lia.
Qed.
