(* ===== verification/Bitmap.v ===== *)
(** * Bitmaps (algo/container/bitmap)

    [bitmap.T], a set of bits held in a slice of [uint64] words, its iterators,
    its JSON form and [bitmap.Contiguous], which follows the tail of a
    contiguous range of set bits and notifies listeners by closing a
    channel. *)

From stdpp Require Import base list option numbers gmap strings.
From Stdlib Require Import ZArith Lia.
From S2P Require Import Prelude.
From S2P Require Import Strconv.

Open Scope list_scope.
Open Scope Z_scope.
Open Scope go_scope.

(** ** The words *)

(** [type T []uint64]; a nil slice and an empty one behave alike here. *)
Definition T : Type := list Z.

Definition T_ok (b : T) : Prop := Forall uint64_ok b.

Definition MaxUint64 : Z := 2 ^ 64 - 1.

(** [New]: [make] zeroes the words. *)
Definition New (size : Z) : T :=
  if size <=? 0 then [] else replicate (Z.to_nat (Z.quot (size + 63) 64)) 0.

(** [1 << (i % 64)] at type uint64; a negative shift count panics. *)
Definition mask (i : Z) : res Z :=
  let s := Z.rem i 64 in if s <? 0 then Panic else Ok (Z.shiftl 1 s).

Definition SetUnsafe (b : T) (i : Z) : res T :=
  let! m := mask i in
  let! w := checked (zget b (Z.quot i 64)) in
  zput b (Z.quot i 64) (Z.lor w m).

Definition Set_ (b : T) (i : Z) : res T :=
  if (i <? 0) || (len b * 64 <=? i) then Ok b else SetUnsafe b i.

Definition ClearUnsafe (b : T) (i : Z) : res T :=
  let! m := mask i in
  let! w := checked (zget b (Z.quot i 64)) in
  zput b (Z.quot i 64) (Z.ldiff w m).

Definition Clear (b : T) (i : Z) : res T :=
  if (i <? 0) || (len b * 64 <=? i) then Ok b else ClearUnsafe b i.

Definition IsSetUnsafe (b : T) (i : Z) : res bool :=
  let! m := mask i in
  let! w := checked (zget b (Z.quot i 64)) in
  Ok (negb (Z.land w m =? 0)).

Definition IsSet (b : T) (i : Z) : res bool :=
  if (i <? 0) || (len b * 64 <=? i) then Ok false else IsSetUnsafe b i.

(** The loop shared by [NextSet] ([skip] is 0, [want] is true) and [NextClear]
    ([skip] is MaxUint64, [want] is false): whole words equal to [skip] are
    stepped over when the index is at a word boundary. *)
Fixpoint scan_loop (skip : Z) (want : bool) (fuel : nat) (b : T) (last nb : Z) : res Z :=
  match fuel with
  | O => NoFuel
  | S fuel =>
      if nb <? last then
        let! w := checked (zget b (Z.quot nb 64)) in
        if (Z.rem nb 64 =? 0) && (w =? skip) then scan_loop skip want fuel b last (nb + 64)
        else
          let! set := IsSetUnsafe b nb in
          if Bool.eqb set want then Ok nb else scan_loop skip want fuel b last (nb + 1)
      else Ok (-1)
  end.

(** One iteration per index is enough. *)
Definition scan_fuel (start last : Z) : nat := S (Z.to_nat (last - start)).

Definition NextSet (b : T) (start size : Z) : res Z :=
  let last := Z.min (len b * 64) size in
  if (start <? 0) || (last <=? start) then Ok (-1)
  else scan_loop 0 true (scan_fuel start last) b last start.

Definition NextClear (b : T) (start size : Z) : res Z :=
  let last := Z.min (len b * 64) size in
  if (start <? 0) || (last <=? start) then Ok (-1)
  else scan_loop MaxUint64 false (scan_fuel start last) b last start.

(** The range loop of [AllSet] and [AllClear], over either [next]. *)
Fixpoint all_loop (next : Z -> res Z) (fuel : nat) (n : Z)
    {St : Type} (yield : Z -> St -> res (bool * St)) (s : St) : res St :=
  match fuel with
  | O => NoFuel
  | S fuel =>
      if 0 <=? n then
        let! (more, s') := yield n s in
        if more then let! n' := next (n + 1) in all_loop next fuel n' yield s'
        else Ok s'
      else Ok s
  end.

Definition all_fuel (b : T) : nat := S (Z.to_nat (len b * 64)).

Definition AllSet (b : T) (start size : Z) : seq_iter Z := fun S yield s =>
  let! n := NextSet b start size in
  all_loop (fun n => NextSet b n size) (all_fuel b) n yield s.

Definition AllClear (b : T) (start size : Z) : seq_iter Z := fun S yield s =>
  let! n := NextClear b start size in
  all_loop (fun n => NextClear b n size) (all_fuel b) n yield s.

(** ** What the bits mean *)

(** Bit [i] of the bitmap; bits outside the words read as clear. *)
Definition bit (b : T) (i : Z) : bool :=
  match zget b (i / 64) with Some w => Z.testbit w (i mod 64) | None => false end.

Definition in_range (b : T) (i : Z) : Prop := 0 <= i < len b * 64.

Lemma mask_Ok i : 0 <= i -> mask i = Ok (Z.shiftl 1 (i mod 64)).
Proof.
  intros. unfold mask. rewrite Z.rem_mod_nonneg by lia.
  pose proof (Z.mod_pos_bound i 64). rewrite (proj2 (Z.ltb_ge (i mod 64) 0)) by lia. done.
Qed.

Lemma in_range_word (b : T) i :
  in_range b i -> 0 <= i / 64 < len b /\ 0 <= i mod 64 < 64.
Proof.
  unfold in_range. intros. pose proof (Z.mod_pos_bound i 64).
  split; [split; [apply Z.div_pos | apply Z.div_lt_upper_bound]|]; lia.
Qed.

Lemma land_mask_testbit w s :
  0 <= s -> negb (Z.land w (Z.shiftl 1 s) =? 0) = Z.testbit w s.
Proof.
  intros Hs. rewrite Z.shiftl_1_l.
  destruct (Z.testbit w s) eqn:E; [apply negb_true_iff | apply negb_false_iff].
  - apply Z.eqb_neq. intros H0. apply (f_equal (fun z => Z.testbit z s)) in H0.
    rewrite Z.land_spec, Z.pow2_bits_true, E, Z.bits_0 in H0 by lia. done.
  - apply Z.eqb_eq, Z.bits_inj'. intros n Hn. rewrite Z.land_spec, Z.bits_0.
    destruct (decide (n = s)) as [->|]; [by rewrite E|].
    rewrite Z.pow2_bits_false by done. apply andb_false_r.
Qed.

Lemma IsSetUnsafe_bit b i : in_range b i -> IsSetUnsafe b i = Ok (bit b i).
Proof.
  intros Hi. destruct (in_range_word b i Hi) as [Hw Hs]. unfold in_range in Hi.
  unfold IsSetUnsafe, bit. rewrite mask_Ok, Z.quot_div_nonneg by lia.
  destruct (zget_is_Some b (i / 64) Hw) as [w Ew]. rewrite Ew. cbn.
  by rewrite land_mask_testbit by lia.
Qed.

(** Writing a word back changes the bits of that word only. *)
Lemma bit_zset b k w j :
  0 <= k < len b -> 0 <= j ->
  bit (zset b k w) j = if j / 64 =? k then Z.testbit w (j mod 64) else bit b j.
Proof.
  intros Hk Hj. unfold bit. destruct (Z.eqb_spec (j / 64) k) as [<-|Hne].
  - by rewrite zget_zset_eq.
  - by rewrite zget_zset_ne by congruence.
Qed.

Lemma same_word i j : i / 64 = j / 64 -> i mod 64 = j mod 64 -> i = j.
Proof. intros. rewrite (Z.div_mod i 64), (Z.div_mod j 64) by lia. lia. Qed.

Lemma zset_ok b k w : T_ok b -> uint64_ok w -> T_ok (zset b k w).
Proof.
  intros Hb Hw. unfold zset. case_match; [|done]. by apply Forall_insert.
Qed.

Lemma zget_ok b k w : T_ok b -> zget b k = Some w -> uint64_ok w.
Proof. intros Hb [_ ?]%zget_Some. eapply Forall_lookup_1; eauto. Qed.

Lemma uint64_ok_bits w :
  uint64_ok w <-> 0 <= w /\ forall n, 64 <= n -> Z.testbit w n = false.
Proof.
  unfold uint64_ok. split.
  - intros Hw. split; [lia|]. intros n Hn. rewrite <- (Z.mod_small w (2 ^ 64)) by lia.
    by rewrite Z.mod_pow2_bits_high by lia.
  - intros [H0 Hb]. split; [done|].
    enough (w = w mod 2 ^ 64) as -> by (apply Z.mod_pos_bound; lia).
    apply Z.bits_inj'. intros n Hn. destruct (Z.lt_ge_cases n 64).
    + by rewrite Z.mod_pow2_bits_low.
    + rewrite Z.mod_pow2_bits_high by lia. by apply Hb.
Qed.

(** ** Set and Clear *)

Lemma testbit_mask i n :
  0 <= n -> Z.testbit (Z.shiftl 1 (i mod 64)) n = (n =? i mod 64).
Proof.
  intros Hn. pose proof (Z.mod_pos_bound i 64).
  rewrite Z.shiftl_1_l, Z.pow2_bits_eqb, Z.eqb_sym by lia. done.
Qed.

(** The effect of writing a word that differs from the old one in bit [i]. *)
Lemma bit_update b i w w' v :
  in_range b i -> zget b (i / 64) = Some w ->
  (forall n, 0 <= n -> Z.testbit w' n = if n =? i mod 64 then v else Z.testbit w n) ->
  forall j, bit (zset b (i / 64) w') j = if j =? i then v else bit b j.
Proof.
  intros Hi Ew Hw' j. destruct (in_range_word b i Hi) as [Hk Hs].
  destruct (Z.lt_ge_cases j 0) as [Hj|Hj].
  { destruct (Z.eqb_spec j i) as [->|_]; [unfold in_range in Hi; lia|].
    unfold bit. rewrite zget_zset_ne; [done|].
    pose proof (Z.div_lt_upper_bound j 64 0). lia. }
  rewrite bit_zset by lia. pose proof (Z.mod_pos_bound j 64).
  destruct (Z.eqb_spec (j / 64) (i / 64)) as [Eq|Ne].
  - rewrite Hw' by lia. unfold bit. rewrite Eq, Ew.
    destruct (Z.eqb_spec (j mod 64) (i mod 64)), (Z.eqb_spec j i); try done.
    + exfalso. eauto using same_word.
    + congruence.
  - destruct (Z.eqb_spec j i); [congruence|done].
Qed.

Lemma SetUnsafe_spec b i :
  T_ok b -> in_range b i ->
  exists b', SetUnsafe b i = Ok b' /\ T_ok b' /\ len b' = len b /\
    forall j, bit b' j = if j =? i then true else bit b j.
Proof.
  intros Hb Hi. destruct (in_range_word b i Hi) as [Hk Hs]. unfold in_range in Hi.
  unfold SetUnsafe. rewrite mask_Ok, Z.quot_div_nonneg by lia.
  destruct (zget_is_Some b _ Hk) as [w Ew]. rewrite Ew. cbn. rewrite zput_Ok by done.
  eexists. split; [done|]. pose proof (zget_ok _ _ _ Hb Ew) as [Hw0 Hw]%uint64_ok_bits.
  repeat split.
  - apply zset_ok, uint64_ok_bits; [done|]. split.
    + apply Z.lor_nonneg. split; [done|]. apply Z.shiftl_nonneg. lia.
    + intros n Hn. rewrite Z.lor_spec, Hw, testbit_mask by lia. apply Z.eqb_neq. lia.
  - apply len_zset.
  - apply bit_update with w; [done..|]. intros n Hn.
    rewrite Z.lor_spec, testbit_mask by lia. case_match; [apply orb_true_r|apply orb_false_r].
Qed.

Lemma ClearUnsafe_spec b i :
  T_ok b -> in_range b i ->
  exists b', ClearUnsafe b i = Ok b' /\ T_ok b' /\ len b' = len b /\
    forall j, bit b' j = if j =? i then false else bit b j.
Proof.
  intros Hb Hi. destruct (in_range_word b i Hi) as [Hk Hs]. unfold in_range in Hi.
  unfold ClearUnsafe. rewrite mask_Ok, Z.quot_div_nonneg by lia.
  destruct (zget_is_Some b _ Hk) as [w Ew]. rewrite Ew. cbn. rewrite zput_Ok by done.
  eexists. split; [done|]. pose proof (zget_ok _ _ _ Hb Ew) as [Hw0 Hw]%uint64_ok_bits.
  repeat split.
  - apply zset_ok, uint64_ok_bits; [done|]. split.
    + apply Z.ldiff_nonneg. by left.
    + intros n Hn. by rewrite Z.ldiff_spec, Hw by lia.
  - apply len_zset.
  - apply bit_update with w; [done..|]. intros n Hn.
    rewrite Z.ldiff_spec, testbit_mask by lia. case_match; [apply andb_false_r|apply andb_true_r].
Qed.

Lemma out_of_range b i :
  (i <? 0) || (len b * 64 <=? i) = true <-> ~ in_range b i.
Proof.
  unfold in_range. destruct (Z.ltb_spec i 0), (Z.leb_spec (len b * 64) i); cbn; split; try done; lia.
Qed.

Lemma out_of_range_dec b i :
  {in_range b i} + {~ in_range b i}.
Proof.
  destruct ((i <? 0) || (len b * 64 <=? i)) eqn:E; [right|left].
  - by apply out_of_range.
  - unfold in_range. bool_to_prop. lia.
Defined.

#[export] Instance in_range_decision b i : Decision (in_range b i) := out_of_range_dec b i.

(** Reading back what [Set] and [Clear] wrote, in and out of range. *)
Lemma Set_spec b i :
  T_ok b ->
  exists b', Set_ b i = Ok b' /\ T_ok b' /\ len b' = len b /\
    forall j, bit b' j = if decide (j = i /\ in_range b i) then true else bit b j.
Proof.
  intros Hb. unfold Set_. destruct (decide (in_range b i)) as [Hi|Hi].
  - destruct (SetUnsafe_spec b i Hb Hi) as (b' & E & ? & ? & Hbit).
    destruct (_ || _) eqn:Eo; [by apply out_of_range in Eo|].
    exists b'. repeat split; try done. intros j. rewrite Hbit.
    case_decide; destruct (Z.eqb_spec j i); naive_solver.
  - rewrite (proj2 (out_of_range b i) Hi). exists b. repeat split; try done.
    intros j. case_decide; naive_solver.
Qed.

Lemma Clear_spec b i :
  T_ok b ->
  exists b', Clear b i = Ok b' /\ T_ok b' /\ len b' = len b /\
    forall j, bit b' j = if decide (j = i /\ in_range b i) then false else bit b j.
Proof.
  intros Hb. unfold Clear. destruct (decide (in_range b i)) as [Hi|Hi].
  - destruct (ClearUnsafe_spec b i Hb Hi) as (b' & E & ? & ? & Hbit).
    destruct (_ || _) eqn:Eo; [by apply out_of_range in Eo|].
    exists b'. repeat split; try done. intros j. rewrite Hbit.
    case_decide; destruct (Z.eqb_spec j i); naive_solver.
  - rewrite (proj2 (out_of_range b i) Hi). exists b. repeat split; try done.
    intros j. case_decide; naive_solver.
Qed.

Lemma IsSet_bit b i : IsSet b i = Ok (bit b i).
Proof.
  unfold IsSet. destruct (decide (in_range b i)) as [Hi|Hi].
  - destruct (_ || _) eqn:Eo; [by apply out_of_range in Eo|]. by apply IsSetUnsafe_bit.
  - rewrite (proj2 (out_of_range b i) Hi). unfold bit.
    rewrite (proj2 (zget_None b (i / 64))); [done|]. intros Hk. apply Hi. unfold in_range.
    pose proof (Z.div_mod i 64). pose proof (Z.mod_pos_bound i 64). lia.
Qed.

Lemma len_New size : 0 < size -> len (New size) = (size + 63) / 64.
Proof.
  intros. unfold New. rewrite (proj2 (Z.leb_gt size 0)) by lia.
  rewrite len_replicate, Z.quot_div_nonneg by lia. apply Z2Nat.id, Z.div_pos; lia.
Qed.

(** [New] covers its size, every bit clear. *)
Lemma New_spec size :
  T_ok (New size) /\ (forall j, bit (New size) j = false) /\
  (0 < size -> size <= len (New size) * 64 < size + 64).
Proof.
  repeat split.
  - unfold New. case_match; [constructor|]. apply Forall_replicate. by split.
  - intros j. unfold New. case_match; [unfold bit; by rewrite zget_nil|].
    unfold bit. destruct (zget _ _) as [w|] eqn:E; [|done].
    apply zget_Some in E as [_ [-> _]%lookup_replicate]. apply Z.bits_0.
  - rewrite len_New by done. pose proof (Z.div_mod (size + 63) 64).
    pose proof (Z.mod_pos_bound (size + 63) 64). lia.
  - rewrite len_New by done. pose proof (Z.div_mod (size + 63) 64).
    pose proof (Z.mod_pos_bound (size + 63) 64). lia.
Qed.

(** ** NextSet and NextClear *)

(** [r] is the first index of [[nb, last)] whose bit is [want], or -1. *)
Definition next_spec (b : T) (want : bool) (nb last r : Z) : Prop :=
  (r = -1 /\ forall j, nb <= j < last -> bit b j = negb want) \/
  (nb <= r < last /\ bit b r = want /\ forall j, nb <= j < r -> bit b j = negb want).

Lemma next_spec_step b want nb nb' last r :
  nb <= nb' -> (forall j, nb <= j < nb' -> bit b j = negb want) ->
  next_spec b want nb' last r -> next_spec b want nb last r.
Proof.
  intros Hle Hskip [[-> H]|(Hr & Hb & H)]; [left|right].
  - split; [done|]. intros j Hj. destruct (Z.lt_ge_cases j nb'); [apply Hskip|apply H]; lia.
  - split_and!; [lia|lia|done|]. intros j Hj.
    destruct (Z.lt_ge_cases j nb'); [apply Hskip|apply H]; lia.
Qed.

Lemma word_bits b nb w j :
  0 <= nb -> nb mod 64 = 0 -> zget b (nb / 64) = Some w -> nb <= j < nb + 64 ->
  bit b j = Z.testbit w (j - nb).
Proof.
  intros H0 Hm Hw Hj. pose proof (Z.div_mod nb 64). unfold bit.
  assert (j / 64 = nb / 64) as -> by (symmetry; apply Z.div_unique with (j - nb); lia).
  assert (j mod 64 = j - nb) as -> by (symmetry; apply Z.mod_unique with (nb / 64); lia).
  by rewrite Hw.
Qed.

Lemma scan_loop_spec skip want b last :
  (forall n, 0 <= n < 64 -> Z.testbit skip n = negb want) -> last <= len b * 64 ->
  forall fuel nb, 0 <= nb -> (Z.to_nat (last - nb) < fuel)%nat ->
  exists r, scan_loop skip want fuel b last nb = Ok r /\ next_spec b want nb last r.
Proof.
  intros Hskip Hlast. induction fuel as [|fuel IH]; intros nb Hnb Hfuel; [lia|].
  cbn [scan_loop]. destruct (Z.ltb_spec nb last) as [Hlt|Hge].
  2: { exists (-1). split; [done|]. left. split; [done|lia]. }
  assert (Hr : in_range b nb) by (unfold in_range; lia).
  destruct (in_range_word b nb Hr) as [Hk _].
  rewrite Z.quot_div_nonneg, Z.rem_mod_nonneg by lia.
  destruct (zget_is_Some b _ Hk) as [w Ew]. rewrite Ew. cbn [checked rbind].
  destruct ((nb mod 64 =? 0) && (w =? skip)) eqn:E; bool_to_prop; subst.
  - destruct (IH (nb + 64)) as (r & -> & Hs); [lia..|]. exists r. split; [done|].
    eapply next_spec_step; [| |exact Hs]; [lia|]. intros j Hj.
    rewrite (word_bits b nb skip) by done. apply Hskip. lia.
  - clear E. rewrite IsSetUnsafe_bit by done. cbn [rbind].
    destruct (Bool.eqb (bit b nb) want) eqn:Ebit.
    + apply Bool.eqb_prop in Ebit. exists nb. split; [done|]. right. split_and!; [lia|lia|done|lia].
    + destruct (IH (nb + 1)) as (r & -> & Hs); [lia..|]. exists r. split; [done|].
      eapply next_spec_step; [| |exact Hs]; [lia|]. intros j Hj.
      assert (j = nb) as -> by lia. by destruct (bit b nb), want.
Qed.

Lemma skip_zero n : 0 <= n < 64 -> Z.testbit 0 n = negb true.
Proof. intros. apply Z.bits_0. Qed.

Lemma skip_max n : 0 <= n < 64 -> Z.testbit MaxUint64 n = negb false.
Proof. intros. change MaxUint64 with (Z.ones 64). by apply Z.ones_spec_low. Qed.

(** The index that bounds a search: neither past the size given nor past the
    words of the bitmap. *)
Definition limit (b : T) (size : Z) : Z := Z.min (len b * 64) size.

Lemma next_out_of_bounds b want start size :
  (start <? 0) || (limit b size <=? start) = true -> 0 <= start ->
  next_spec b want start (limit b size) (-1).
Proof. intros Ho Hs. bool_to_prop. left. split; [done|]. destruct Ho; bool_to_prop; lia. Qed.

Lemma NextSet_spec b start size :
  0 <= start -> exists r, NextSet b start size = Ok r /\ next_spec b true start (limit b size) r.
Proof.
  intros Hs. unfold NextSet. fold (limit b size). destruct (_ || _) eqn:Eo.
  - exists (-1). auto using next_out_of_bounds.
  - apply scan_loop_spec; [exact skip_zero|unfold limit; lia|done|unfold scan_fuel; lia].
Qed.

Lemma NextClear_spec b start size :
  0 <= start -> exists r, NextClear b start size = Ok r /\ next_spec b false start (limit b size) r.
Proof.
  intros Hs. unfold NextClear. fold (limit b size). destruct (_ || _) eqn:Eo.
  - exists (-1). auto using next_out_of_bounds.
  - apply scan_loop_spec; [exact skip_max|unfold limit; lia|done|unfold scan_fuel; lia].
Qed.

Lemma Next_negative b start size :
  start < 0 -> NextSet b start size = Ok (-1) /\ NextClear b start size = Ok (-1).
Proof.
  intros. unfold NextSet, NextClear. by rewrite (proj2 (Z.ltb_lt start 0)).
Qed.

(** ** AllSet and AllClear *)

(** The indices an iterator must produce, in order. *)
Definition indices (b : T) (want : bool) (start last : Z) : list Z :=
  filter (fun j => bit b j = want) (seqZ start (last - start)).

Lemma filter_none b want start n :
  (forall j, start <= j < start + n -> bit b j = negb want) ->
  filter (fun j => bit b j = want) (seqZ start n) = [].
Proof.
  intros H. destruct (filter _ _) as [|x l] eqn:E; [done|exfalso].
  assert (Hx : x ∈ filter (fun j => bit b j = want) (seqZ start n)) by (rewrite E; left).
  apply list_elem_of_filter in Hx as [Hx [Hin1 Hin2]%elem_of_seqZ].
  rewrite H in Hx by lia. by destruct want.
Qed.

Lemma indices_next b want start last r :
  0 <= start -> next_spec b want start last r ->
  indices b want start last = if 0 <=? r then r :: indices b want (r + 1) last else [].
Proof.
  intros H0 [[-> H]|(Hr & Hb & H)]; unfold indices; cbn.
  - apply filter_none. intros. apply H. lia.
  - replace (last - start) with ((r - start) + (last - r)) by lia.
    rewrite seqZ_app, filter_app, filter_none by (lia || (intros; apply H; lia)).
    replace (start + (r - start)) with r by lia. rewrite seqZ_cons by lia.
    rewrite filter_cons_True by done.
    replace (last - (r + 1)) with (Z.pred (last - r)) by lia.
    by rewrite (proj2 (Z.leb_le 0 r)) by lia.
Qed.

Section all.
Context (b : T) (want : bool) (size : Z) (next : Z -> res Z).
Context (Hnext : forall n, 0 <= n -> exists r,
  next n = Ok r /\ next_spec b want n (limit b size) r).

(** The range loop produces the indices in order, whatever the consumer does
    and wherever it stops. *)
Lemma all_loop_range {S} (yield : Z -> S -> res (bool * S)) :
  forall fuel start n s,
  0 <= start -> (Z.to_nat (limit b size - start) < fuel)%nat ->
  next_spec b want start (limit b size) n ->
  all_loop next fuel n yield s = range_list (indices b want start (limit b size)) yield s.
Proof.
  induction fuel as [|fuel IH]; intros start n s H0 Hf Hn; [lia|].
  rewrite (indices_next _ _ _ _ _ H0 Hn). cbn [all_loop].
  destruct (Z.leb_spec 0 n) as [Hn0|]; [|done]. cbn [range_list].
  destruct (yield n s) as [[[] s']| |]; cbn [rbind]; try done.
  destruct (Hnext (n + 1)) as (r & -> & Hr); [lia|]. cbn [rbind].
  destruct Hn as [[-> _]|(Hn & _)]; [lia|]. apply IH; [lia|lia|done].
Qed.
End all.

Lemma AllSet_range b start size {S} (yield : Z -> S -> res (bool * S)) s :
  0 <= start ->
  AllSet b start size S yield s = range_list (indices b true start (limit b size)) yield s.
Proof.
  intros H0. unfold AllSet. destruct (NextSet_spec b start size H0) as (r & -> & Hr). cbn [rbind].
  apply all_loop_range; [|done|unfold all_fuel, limit; lia|done].
  intros. by apply NextSet_spec.
Qed.

Lemma AllClear_range b start size {S} (yield : Z -> S -> res (bool * S)) s :
  0 <= start ->
  AllClear b start size S yield s = range_list (indices b false start (limit b size)) yield s.
Proof.
  intros H0. unfold AllClear. destruct (NextClear_spec b start size H0) as (r & -> & Hr). cbn [rbind].
  apply all_loop_range; [|done|unfold all_fuel, limit; lia|done].
  intros. by apply NextClear_spec.
Qed.

(** ** Contiguous *)

(** The channels of the program: which identifiers have been handed out by
    [make] and which have been closed.  Closing twice panics. *)
Record chans := Chans { next_chan : nat; closed : gset nat }.

Definition make_chan (w : chans) : nat * chans :=
  (next_chan w, Chans (S (next_chan w)) (closed w)).

Definition close_chan (w : chans) (c : nat) : res chans :=
  if decide (c ∈ closed w) then Panic else Ok (Chans (next_chan w) ({[c]} ∪ closed w)).

(** [Contiguous] without its [bits] field.  [bits] shares its backing array with
    the bitmap the caller passed, so every method takes and returns those words
    explicitly; [ch] is a nil channel or an identifier. *)
Record Contiguous := MkContiguous {
  last : Z;
  start : Z;
  firstClear : Z;
  ch : option nat;
}.

(** [extend] from index [nb]; the loop only changes [firstClear]. *)
Fixpoint extend_loop (fuel : nat) (bm : T) (last nb fc : Z) : res Z :=
  match fuel with
  | O => NoFuel
  | S fuel =>
      if nb <=? last then
        let! set := IsSetUnsafe bm nb in
        if set then extend_loop fuel bm last (nb + 1) (fc + 1) else Ok fc
      else Ok fc
  end.

Definition extend (bm : T) (c : Contiguous) (from : Z) : res Contiguous :=
  let! fc := extend_loop (S (Z.to_nat (last c + 1 - from))) bm (last c) from (firstClear c) in
  Ok (MkContiguous (last c) (start c) fc (ch c)).

(** A nil pointer is [None]. *)
Definition newContiguous (bm : T) (start size : Z) : res (option Contiguous) :=
  if (size <=? 0) || (start <? 0) || (size <? start) then Ok None
  else
    let! c := extend bm (MkContiguous (Z.min (len bm * 64) size - 1) start start None) start in
    Ok (Some c).

Definition NewContiguous (start size : Z) : res (T * option Contiguous) :=
  let bm := New size in let! c := newContiguous bm start size in Ok (bm, c).

Definition NewContiguousWithBitmap (bm : T) (start size : Z) : res (option Contiguous) :=
  if len bm * 64 <? size then Ok None else newContiguous bm start size.

Definition Notify (c : Contiguous) (w : chans) : res (nat * Contiguous * chans) :=
  match ch c with
  | Some id => Ok (id, c, w)
  | None =>
      let (id, w) := make_chan w in
      let c := MkContiguous (last c) (start c) (firstClear c) (Some id) in
      if last c <? firstClear c then let! w := close_chan w id in Ok (id, c, w)
      else Ok (id, c, w)
  end.

(** The receiver, its words and the channels after [Set]. *)
Definition Contiguous_Set (bm : T) (c : Contiguous) (w : chans) (i : Z)
    : res (T * Contiguous * chans) :=
  if (i <? 0) || (last c <? i) then Ok (bm, c, w)
  else
    let! bm := SetUnsafe bm i in
    if negb (i =? firstClear c) then Ok (bm, c, w)
    else
      let! c := extend bm c (firstClear c) in
      match ch c with
      | None => Ok (bm, c, w)
      | Some id =>
          if firstClear c <=? start c then Ok (bm, c, w)
          else
            let! w := close_chan w id in
            Ok (bm, MkContiguous (last c) (start c) (firstClear c) None, w)
      end.

Definition Tail (c : Contiguous) : Z :=
  if firstClear c <=? start c then -1 else firstClear c - 1.

(** The tracked range: [firstClear] is the first clear bit at or after
    [start], or one past [last]. *)
Definition contig_ok (bm : T) (c : Contiguous) : Prop :=
  T_ok bm /\ 0 <= start c <= firstClear c /\ firstClear c <= last c + 1 /\
  last c < len bm * 64 /\
  (forall j, start c <= j < firstClear c -> bit bm j = true) /\
  (firstClear c <= last c -> bit bm (firstClear c) = false).

(** A channel handed to listeners is open exactly while the range can grow. *)
Definition chan_ok (c : Contiguous) (w : chans) : Prop :=
  (forall id, id ∈ closed w -> (id < next_chan w)%nat) /\
  forall id, ch c = Some id ->
    (id < next_chan w)%nat /\ (id ∈ closed w <-> last c < firstClear c).

Lemma extend_loop_spec bm last :
  last < len bm * 64 ->
  forall fuel nb, 0 <= nb <= last + 1 -> (Z.to_nat (last + 1 - nb) < fuel)%nat ->
  exists fc, (forall d, extend_loop fuel bm last nb (nb + d) = Ok (fc + d)) /\ nb <= fc <= last + 1 /\
    (forall j, nb <= j < fc -> bit bm j = true) /\
    (fc <= last -> bit bm fc = false).
Proof.
  intros Hlast. induction fuel as [|fuel IH]; intros nb Hnb Hf; [lia|]. cbn [extend_loop].
  destruct (Z.leb_spec nb last) as [Hle|Hgt].
  2: { exists nb. split_and!; [done|lia..]. }
  rewrite IsSetUnsafe_bit by (unfold in_range; lia). cbn [rbind].
  destruct (bit bm nb) eqn:Eb.
  - destruct (IH (nb + 1)) as (fc & E & Hfc & Hset & Hcl); [lia..|].
    exists fc. split_and!; try done; try lia.
    + intros d. rewrite <- E. f_equal. lia.
    + intros j Hj. destruct (decide (j = nb)) as [->|]; [done|]. apply Hset. lia.
  - exists nb. split_and!; try done; lia.
Qed.

Lemma extend_spec bm c :
  T_ok bm -> 0 <= start c <= firstClear c -> firstClear c <= last c + 1 ->
  last c < len bm * 64 ->
  (forall j, start c <= j < firstClear c -> bit bm j = true) ->
  exists c', extend bm c (firstClear c) = Ok c' /\ contig_ok bm c' /\
    last c' = last c /\ start c' = start c /\ ch c' = ch c /\
    firstClear c <= firstClear c' /\
    (bit bm (firstClear c) = true -> firstClear c <= last c -> firstClear c < firstClear c').
Proof.
  intros Hb Hs Hf Hl Hset. unfold extend.
  destruct (extend_loop_spec bm (last c) Hl (S (Z.to_nat (last c + 1 - firstClear c)))
    (firstClear c)) as (fc & E & Hfc & Hset' & Hcl); [lia..|].
  specialize (E 0). rewrite !Z.add_0_r in E. rewrite E. cbn [rbind].
  eexists. split; [done|]. split_and!; cbn; try done; try lia.
  - split_and!; cbn; try done; try lia. intros j Hj.
    destruct (Z.lt_ge_cases j (firstClear c)); [apply Hset|apply Hset']; lia.
  - intros Hbit Hle. destruct (decide (fc = firstClear c)) as [->|]; [|lia].
    rewrite Hcl in Hbit by lia. done.
Qed.

Lemma newContiguous_spec bm start0 size :
  T_ok bm -> 0 <= start0 <= size -> 0 < size <= len bm * 64 ->
  exists c, newContiguous bm start0 size = Ok (Some c) /\ contig_ok bm c /\
    start c = start0 /\ last c = size - 1 /\ ch c = None.
Proof.
  intros Hb Hs Hz. unfold newContiguous.
  rewrite (proj2 (Z.leb_gt size 0)), (proj2 (Z.ltb_ge start0 0)), (proj2 (Z.ltb_ge size start0)) by lia.
  cbn [orb]. rewrite Z.min_r by lia.
  destruct (extend_spec bm (MkContiguous (size - 1) start0 start0 None)) as (c & E & Hok & El & Es & Ec & _);
    cbn; [done|lia..|]. cbn in *. rewrite E. cbn. exists c. split_and!; done.
Qed.

(** Setting a bit of the range other than [firstClear] keeps the range. *)
Lemma contig_ok_set bm bm' c i :
  contig_ok bm c -> T_ok bm' -> len bm' = len bm -> i <> firstClear c ->
  (forall j, bit bm' j = if j =? i then true else bit bm j) -> contig_ok bm' c.
Proof.
  intros (_ & Hs & Hf & Hl & Hset & Hcl) Hb' Hlen Hne Hbit. rewrite <- Hlen in Hl.
  split_and!; try done; try lia.
  - intros j Hj. rewrite Hbit. case_match; [done|]. by apply Hset.
  - intros Hle. rewrite Hbit, (proj2 (Z.eqb_neq _ _)) by congruence. by apply Hcl.
Qed.

(** What one call of [Set] may do to the receiver and the channels. *)
Record set_effect (bm : T) (c : Contiguous) (w : chans) (i : Z)
    (bm' : T) (c' : Contiguous) (w' : chans) : Prop := {
  se_contig : contig_ok bm' c';
  se_chan : chan_ok c' w';
  se_len : len bm' = len bm;
  se_range : last c' = last c /\ start c' = start c /\ firstClear c <= firstClear c';
  se_bits : forall j, bit bm' j = if decide (j = i /\ 0 <= i <= last c) then true else bit bm j;
  se_notify : forall id, ch c = Some id -> firstClear c <= last c ->
    (id ∈ closed w' <-> firstClear c < firstClear c');
  se_others : forall id, ch c <> Some id -> id ∈ closed w' <-> id ∈ closed w;
}.

Lemma set_effect_still bm c w i bm' :
  contig_ok bm' c -> chan_ok c w -> len bm' = len bm ->
  (forall j, bit bm' j = if decide (j = i /\ 0 <= i <= last c) then true else bit bm j) ->
  set_effect bm c w i bm' c w.
Proof.
  intros Hc Hw Hlen Hbit. constructor; try done.
  intros id Hid Hle. destruct Hw as [_ Hw]. destruct (Hw id Hid) as [_ ->]. lia.
Qed.

Lemma chan_ok_ext c c' w :
  chan_ok c w -> ch c' = ch c -> (ch c = None \/ (last c' < firstClear c' <-> last c < firstClear c)) ->
  chan_ok c' w.
Proof.
  intros [H1 H2] Ec Hiff. split; [done|]. rewrite Ec. intros id Hid.
  destruct (H2 id Hid) as [? ->]. destruct Hiff; [congruence|]. naive_solver.
Qed.

(** Closing the listeners' channel after the range has grown. *)
Lemma close_effect bm c w i bm' c1 id :
  chan_ok c w -> contig_ok bm' c1 -> len bm' = len bm ->
  last c1 = last c -> start c1 = start c -> firstClear c < firstClear c1 -> firstClear c <= last c ->
  ch c = Some id ->
  (forall j, bit bm' j = if decide (j = i /\ 0 <= i <= last c) then true else bit bm j) ->
  exists w', close_chan w id = Ok w' /\
    set_effect bm c w i bm' (MkContiguous (last c1) (start c1) (firstClear c1) None) w'.
Proof.
  intros [Hw1 Hw2] Hc Hlen El Es Hlt Hle Hid Hbit. destruct (Hw2 id Hid) as [Hn Hop].
  unfold close_chan. rewrite decide_False by (rewrite Hop; lia).
  eexists. split; [done|]. constructor; cbn; try done.
  - split; cbn; [|done]. intros id'. rewrite elem_of_union, elem_of_singleton.
    intros [->|?]; auto.
  - lia.
  - intros id' Hid' _. assert (id' = id) as -> by congruence. set_solver.
  - intros id' Hid'. rewrite elem_of_union, elem_of_singleton. naive_solver.
Qed.

(** One call of [Set]: bit [i] is set if it is in range, the invariants hold
    again, and the listeners' channel is closed exactly when the range grew. *)
Lemma Contiguous_Set_step bm c w i :
  contig_ok bm c -> chan_ok c w ->
  exists bm' c' w', Contiguous_Set bm c w i = Ok (bm', c', w') /\
    set_effect bm c w i bm' c' w'.
Proof.
  intros Hc Hw. pose proof Hc as (Hb & Hs & Hf & Hl & Hset & Hcl). unfold Contiguous_Set.
  destruct (_ || _) eqn:Eo.
  { exists bm, c, w. split; [done|]. apply set_effect_still; try done.
    intros j. case_decide; [|done]. apply orb_true_iff in Eo as [?|?]; bool_to_prop; lia. }
  bool_to_prop. destruct (SetUnsafe_spec bm i Hb) as (bm' & -> & Hb' & Hlen & Hbit);
    [unfold in_range; lia|]. cbn [rbind].
  assert (Hbit' : forall j, bit bm' j = if decide (j = i /\ 0 <= i <= last c) then true else bit bm j).
  { intros j. rewrite Hbit. case_decide; destruct (Z.eqb_spec j i); naive_solver lia. }
  destruct (Z.eqb_spec i (firstClear c)) as [->|Hne]; cbn [negb].
  2: { exists bm', c, w. split; [done|]. apply set_effect_still; try done.
       by apply contig_ok_set with bm i. }
  destruct (extend_spec bm' c) as (c1 & -> & Hc1 & El & Es & Ec & Hle & Hlt);
    [done|lia|lia|lia|intros j Hj; rewrite Hbit; case_match; [done|by apply Hset]|].
  cbn [rbind]. specialize (Hlt ltac:(by rewrite Hbit, Z.eqb_refl) ltac:(lia)).
  rewrite Ec. destruct (ch c) as [id|] eqn:Eid.
  - rewrite (proj2 (Z.leb_gt _ _)) by lia.
    destruct (close_effect bm c w (firstClear c) bm' c1 id) as (w' & -> & He); try done.
    cbn [rbind]. by do 3 eexists.
  - exists bm', c1, w. split; [done|]. constructor; try done.
    + apply chan_ok_ext with c; [done|congruence|by left].
    + intros id Hid. congruence.
Qed.

(** [Notify] hands out an open channel while the range can grow and a closed
    one when it has reached the end; repeated calls share it. *)
Lemma Notify_step bm c w :
  contig_ok bm c -> chan_ok c w ->
  exists id c' w', Notify c w = Ok (id, c', w') /\ contig_ok bm c' /\ chan_ok c' w' /\
    ch c' = Some id /\ (id ∈ closed w' <-> last c < firstClear c) /\
    Notify c' w' = Ok (id, c', w').
Proof.
  intros Hc [Hw1 Hw2]. unfold Notify. destruct (ch c) as [id|] eqn:Eid.
  - exists id, c, w. destruct (Hw2 id eq_refl). rewrite ?Eid. split_and!; try done.
    split; [done|]. rewrite Eid. done.
  - cbn. assert (Hnew : next_chan w ∉ closed w) by (intros ?%Hw1; lia).
    destruct (Z.ltb_spec (last c) (firstClear c)) as [Hlt|Hge]; cbn.
    + unfold close_chan. cbn. rewrite decide_False by done. cbn.
      do 3 eexists. split; [done|]. split_and!; cbn; try done; try set_solver.
      split; cbn; [intros id; rewrite elem_of_union, elem_of_singleton; intros [->|?%Hw1]; lia|].
      intros ? [= <-]. split; [lia|set_solver].
    + do 3 eexists. split; [done|]. split_and!; cbn; try done; try lia.
      * split; cbn; [intros id ?%Hw1; lia|]. intros ? [= <-]. split; [lia|]. split; [done|lia].
      * split; [done|lia].
Qed.

(** The tail is the last index of the run of set bits that begins at
    [start]. *)
Lemma Tail_spec bm c :
  contig_ok bm c ->
  (Tail c = -1 /\ (start c <= last c -> bit bm (start c) = false)) \/
  (start c <= Tail c <= last c /\ (forall j, start c <= j <= Tail c -> bit bm j = true) /\
   (Tail c < last c -> bit bm (Tail c + 1) = false)).
Proof.
  intros (_ & Hs & Hf & Hl & Hset & Hcl). unfold Tail.
  destruct (Z.leb_spec (firstClear c) (start c)) as [Hle|Hgt].
  - left. split; [done|]. intros H. assert (start c = firstClear c) as E by lia.
    rewrite E in *. by apply Hcl.
  - right. split_and!; try lia.
    + intros j Hj. apply Hset. lia.
    + intros H. replace (firstClear c - 1 + 1) with (firstClear c) by lia. apply Hcl. lia.
Qed.

(** ** Histories of a Contiguous *)

(** The state a [Contiguous] and its listeners share. *)
Definition cstate : Type := T * Contiguous * chans.

Inductive cop := OpSet (i : Z) | OpNotify.

Definition cstep (s : cstate) (o : cop) : res cstate :=
  let '(bm, c, w) := s in
  match o with
  | OpSet i => Contiguous_Set bm c w i
  | OpNotify => let! (_, c', w') := Notify c w in Ok (bm, c', w')
  end.

Fixpoint cruns (s : cstate) (l : list cop) : res cstate :=
  match l with
  | [] => Ok s
  | o :: l => let! s' := cstep s o in cruns s' l
  end.

Definition cstate_ok (s : cstate) : Prop :=
  let '(bm, c, w) := s in contig_ok bm c /\ chan_ok c w.

(** The bits a history of operations has set, on top of those of [bm]. *)
Definition bits_after (bm : T) (last : Z) (l : list cop) (j : Z) : Prop :=
  bit bm j = true \/ (OpSet j ∈ l /\ 0 <= j <= last).

Lemma cstep_ok bm c w o :
  cstate_ok (bm, c, w) ->
  exists bm' c' w', cstep (bm, c, w) o = Ok (bm', c', w') /\ cstate_ok (bm', c', w') /\
    last c' = last c /\ start c' = start c /\ firstClear c <= firstClear c' /\
    forall j, bit bm' j = true <-> bits_after bm (last c) [o] j.
Proof.
  intros [Hc Hw]. destruct o as [i|]; cbn [cstep].
  - destruct (Contiguous_Set_step bm c w i Hc Hw) as (bm' & c' & w' & -> & E).
    destruct (se_range _ _ _ _ _ _ _ E) as (El & Es & Ef).
    exists bm', c', w'. split_and!; try done.
    + split; [apply (se_contig _ _ _ _ _ _ _ E)|apply (se_chan _ _ _ _ _ _ _ E)].
    + intros j. rewrite (se_bits _ _ _ _ _ _ _ E). unfold bits_after.
      rewrite list_elem_of_singleton. case_decide; naive_solver.
  - destruct (Notify_step bm c w Hc Hw) as (id & c' & w' & E & Hc' & Hw' & _).
    rewrite E. cbn. exists bm, c', w'. split_and!; try done.
    4: { intros j. unfold bits_after. rewrite list_elem_of_singleton. naive_solver. }
    all: revert E; unfold Notify, close_chan; repeat (case_match; cbn); intros [= <- <- <-]; cbn; lia.
Qed.

Lemma cruns_ok l : forall bm c w,
  cstate_ok (bm, c, w) ->
  exists bm' c' w', cruns (bm, c, w) l = Ok (bm', c', w') /\ cstate_ok (bm', c', w') /\
    last c' = last c /\ start c' = start c /\ firstClear c <= firstClear c' /\
    forall j, bit bm' j = true <-> bits_after bm (last c) l j.
Proof.
  induction l as [|o l IH]; intros bm c w Hok.
  - exists bm, c, w. split_and!; try done. intros j. unfold bits_after. set_solver.
  - destruct (cstep_ok bm c w o Hok) as (bm1 & c1 & w1 & E1 & Hok1 & El1 & Es1 & Ef1 & Hb1).
    destruct (IH bm1 c1 w1 Hok1) as (bm2 & c2 & w2 & E2 & Hok2 & El2 & Es2 & Ef2 & Hb2).
    exists bm2, c2, w2. cbn [cruns]. rewrite E1. cbn [rbind]. split_and!; try done; try congruence; [lia|].
    intros j. rewrite Hb2. unfold bits_after. rewrite Hb1. unfold bits_after. rewrite El1.
    set_solver.
Qed.

Lemma cstate_init bm start0 size :
  T_ok bm -> 0 <= start0 <= size -> 0 < size <= len bm * 64 ->
  exists c, newContiguous bm start0 size = Ok (Some c) /\ cstate_ok (bm, c, Chans 0 ∅) /\
    start c = start0 /\ last c = size - 1.
Proof.
  intros Hb Hs Hz. destruct (newContiguous_spec bm start0 size Hb Hs Hz) as (c & E & Hok & ? & ? & Ec).
  exists c. split_and!; try done. split; [done|]. split; cbn; [set_solver|]. rewrite Ec. done.
Qed.

(** ** JSON *)

(** The double quote. *)
Definition quote : string := String (Ascii.ascii_of_nat 34) EmptyString.

(** The body of the loop of [MarshalJSON] from word [i] of [n]: each word in
    hexadecimal between quotes, a comma after all but the last. *)
Fixpoint marshal_words (n i : Z) (b : T) : string :=
  match b with
  | [] => EmptyString
  | v :: b =>
      quote +:+ FormatUint v 16 +:+ quote +:+ (if i <? n - 1 then "," else EmptyString) +:+ marshal_words n (i + 1) b
  end.

Definition MarshalJSON (b : T) : string := "[" +:+ marshal_words (len b) 0 b +:+ "]".

Inductive json_error := JsonError | NumError (e : num_error).

Section json.
(** encoding/json's [Unmarshal] into a [[]string]. *)
Context (json_unmarshal : string -> option (list string)).

(** The loop that parses [vals[i:]] into the freshly made words. *)
Fixpoint unmarshal_words (b : T) (i : Z) (vals : list string) : T * option json_error :=
  match vals with
  | [] => (b, None)
  | v :: vals =>
      match ParseUint v 16 with
      | inr e => (b, Some (NumError e))
      | inl num => unmarshal_words (zset b i num) (i + 1) vals
      end
  end.

(** The receiver after the call, and the error. *)
Definition UnmarshalJSON (b : T) (data : string) : T * option json_error :=
  match json_unmarshal data with
  | None => (b, Some JsonError)
  | Some vals =>
      if len vals =? 0 then (b, None)
      else unmarshal_words (replicate (length vals) 0) 0 vals
  end.

Lemma unmarshal_words_format (pre rest : T) :
  T_ok rest ->
  unmarshal_words (pre ++ replicate (length rest) 0) (len pre) ((fun v => FormatUint v 16) <$> rest)
  = (pre ++ rest, None).
Proof.
  intros Hok. revert pre. induction Hok as [|v rest Hv Hok IH]; intros pre; [done|].
  cbn [fmap list_fmap unmarshal_words length]. rewrite ParseUint_FormatUint by (done || lia).
  replace (zset (pre ++ replicate (S (length rest)) 0) (len pre) v)
    with ((pre ++ [v]) ++ replicate (length rest) 0).
  - replace (len pre + 1) with (len (pre ++ [v])) by (rewrite len_app; done).
    rewrite IH. by rewrite <- app_assoc.
  - unfold zset, len. rewrite (proj2 (Z.leb_le _ _)) by lia.
    rewrite Nat2Z.id, insert_app_r_alt by lia. rewrite Nat.sub_diag. cbn.
    by rewrite <- app_assoc.
Qed.

Lemma UnmarshalJSON_words b0 b data :
  json_unmarshal data = Some ((fun v => FormatUint v 16) <$> b) -> T_ok b ->
  UnmarshalJSON b0 data = (if len b =? 0 then b0 else b, None).
Proof.
  intros Hj Hok. unfold UnmarshalJSON. rewrite Hj. unfold len at 1. rewrite length_fmap.
  fold (len b). destruct (len b =? 0); [done|].
  exact (unmarshal_words_format [] b Hok).
Qed.
End json.

(** A decoder for the arrays of plain strings [MarshalJSON] writes: the
    substrings between quotes, in order. *)
Fixpoint quoted_strings (inside : bool) (cur s : string) : list string :=
  match s with
  | EmptyString => []
  | String c s =>
      if decide (String c EmptyString = quote)
      then if inside then cur :: quoted_strings false EmptyString s else quoted_strings true EmptyString s
      else if inside then quoted_strings true (cur +:+ String c EmptyString) s
      else quoted_strings false cur s
  end.

Definition quoted_json (s : string) : option (list string) :=
  Some (quoted_strings false EmptyString s).

Fixpoint no_quote (s : string) : Prop :=
  match s with
  | EmptyString => True
  | String c s => String c EmptyString <> quote /\ no_quote s
  end.

Lemma no_quote_app s1 s2 : no_quote s1 -> no_quote s2 -> no_quote (s1 +:+ s2).
Proof.
  induction s1 as [|c s1 IH]; [done|]. intros [? ?] ?.
  change (String c s1 +:+ s2) with (String c (s1 +:+ s2)). split; [done|]. by apply IH.
Qed.

Lemma no_quote_digit d : 0 <= d < 16 -> no_quote (String (digit d) EmptyString).
Proof.
  intros Hd. split; [|done]. intros [= E]. apply (f_equal Ascii.N_of_ascii) in E.
  unfold digit in E. rewrite Ascii.N_ascii_embedding in E by (destruct (d <? 10); lia).
  destruct (Z.ltb_spec d 10); vm_compute (Ascii.N_of_ascii _) in E; lia.
Qed.

Lemma no_quote_digits fuel v : 0 <= v -> no_quote (digits fuel 16 v).
Proof.
  revert v. induction fuel as [|fuel IH]; intros v Hv; [done|]. rewrite digits_S.
  pose proof (Z.mod_pos_bound v 16). destruct (Z.ltb_spec v 16).
  - apply no_quote_digit. lia.
  - apply no_quote_app; [apply IH, Z.div_pos; lia|apply no_quote_digit; lia].
Qed.

Lemma string_app_assoc (s1 s2 s3 : string) : (s1 +:+ s2) +:+ s3 = s1 +:+ (s2 +:+ s3).
Proof. induction s1 as [|c s1 IH]; [done|]. exact (f_equal (String c) IH). Qed.

Lemma string_app_nil (s : string) : s +:+ EmptyString = s.
Proof. induction s as [|c s IH]; [done|]. exact (f_equal (String c) IH). Qed.

Lemma quoted_inside s cur rest :
  no_quote s ->
  quoted_strings true cur (s +:+ (quote +:+ rest)) = (cur +:+ s) :: quoted_strings false EmptyString rest.
Proof.
  revert cur. induction s as [|c s IH]; intros cur.
  - intros _. rewrite string_app_nil. reflexivity.
  - intros [Hc Hs].
    change (String c s +:+ (quote +:+ rest)) with (String c (s +:+ (quote +:+ rest))).
    cbn [quoted_strings]. rewrite decide_False by done. rewrite IH by done.
    by rewrite string_app_assoc.
Qed.

Lemma quoted_words n b i :
  T_ok b -> quoted_strings false EmptyString (marshal_words n i b +:+ "]") = (fun v => FormatUint v 16) <$> b.
Proof.
  intros Hb. revert i. induction Hb as [|v b Hv Hb IH]; intros i; [reflexivity|].
  cbn [marshal_words]. rewrite !string_app_assoc.
  transitivity (quoted_strings true EmptyString
    (FormatUint v 16 +:+ (quote +:+ ((if i <? n - 1 then "," else EmptyString) +:+ (marshal_words n (i + 1) b +:+ "]"))))).
  { reflexivity. }
  rewrite quoted_inside by (apply no_quote_digits; unfold uint64_ok in Hv; lia).
  cbn [fmap list_fmap]. f_equal. rewrite <- (IH (i + 1)). by case_match.
Qed.

(** It decodes what [MarshalJSON] writes. *)
Lemma quoted_json_marshal b :
  T_ok b -> quoted_json (MarshalJSON b) = Some ((fun v => FormatUint v 16) <$> b).
Proof. intros Hb. unfold quoted_json. f_equal. exact (quoted_words (len b) b 0 Hb). Qed.

(** ** Properties *)

(** [NextSet] and [NextClear] terminate without panicking for every bitmap,
    start and size, and return the first set (clear) index at or after [start]
    and below both the size and the end of the bitmap, or -1 when there is none
    or [start] is negative; the word-skipping fast path changes nothing. *)
Theorem NextSet_NextClear_first (b : T) (start size : Z) :
  exists r1 r2, NextSet b start size = Ok r1 /\ NextClear b start size = Ok r2 /\
    if start <? 0 then r1 = -1 /\ r2 = -1
    else next_spec b true start (limit b size) r1 /\ next_spec b false start (limit b size) r2.
Proof.
  destruct (Z.ltb_spec start 0) as [Hneg|Hpos].
  - destruct (Next_negative b start size Hneg) as [-> ->]. by exists (-1), (-1).
  - destruct (NextSet_spec b start size Hpos) as (r1 & -> & H1).
    destruct (NextClear_spec b start size Hpos) as (r2 & -> & H2). by exists r1, r2.
Qed.

(** The iterators [AllSet] and [AllClear] behave, for every consumer and
    wherever it breaks off, as a loop over the ascending list of exactly the
    set (clear) indices from [start] up to the size. *)
Theorem AllSet_AllClear_range (b : T) (start size : Z) (H0 : 0 <= start) :
  forall S (yield : Z -> S -> res (bool * S)) (s : S),
    AllSet b start size S yield s = range_list (indices b true start (limit b size)) yield s /\
    AllClear b start size S yield s = range_list (indices b false start (limit b size)) yield s.
Proof. intros S yield s. split; [by apply AllSet_range|by apply AllClear_range]. Qed.

Lemma AllSet_AllClear_range_witness :
  0 <= 1 /\
  AllSet [5; 2 ^ 63] 1 200 (list Z) collect [] = Ok [2; 127] /\
  range_list (indices [5; 2 ^ 63] true 1 (limit [5; 2 ^ 63] 200)) collect [] = Ok [2; 127].
Proof.
  split; [lia|]. split.
  - rewrite (proj1 (AllSet_AllClear_range [5; 2 ^ 63] 1 200 ltac:(lia) (list Z) collect [])).
    vm_compute. reflexivity.
  - vm_compute. reflexivity.
Defined.

(** C10: a [Contiguous] made over any bitmap survives every history of [Set] and
    [Notify] calls without a panic (in particular no channel is closed twice).
    Afterwards exactly the bits of the history are set, [Tail] is the end of
    the run of set bits from [start], a listener's channel is closed exactly
    when nothing is left to extend, and the next [Set] closes an open channel
    exactly when it moves the tail. *)
Theorem Contiguous_history (bm : T) (start0 size : Z)
    (Hbm : T_ok bm) (Hstart : 0 <= start0 <= size) (Hsize : 0 < size <= len bm * 64) :
  exists c0, NewContiguousWithBitmap bm start0 size = Ok (Some c0) /\
  forall l, exists bm' c w, cruns (bm, c0, Chans 0 ∅) l = Ok (bm', c, w) /\
    (forall j, bit bm' j = true <-> bits_after bm (size - 1) l j) /\
    ((Tail c = -1 /\ (start0 < size -> bit bm' start0 = false)) \/
     (start0 <= Tail c < size /\ (forall j, start0 <= j <= Tail c -> bit bm' j = true) /\
      (Tail c < size - 1 -> bit bm' (Tail c + 1) = false))) /\
    (forall id, ch c = Some id ->
      (id ∈ closed w <-> Tail c = size - 1 \/ start0 = size) /\
      forall i, exists bm2 c2 w2, cstep (bm', c, w) (OpSet i) = Ok (bm2, c2, w2) /\
        (id ∈ closed w2 /\ id ∉ closed w <-> Tail c2 <> Tail c)).
Proof.
  unfold NewContiguousWithBitmap. rewrite (proj2 (Z.ltb_ge _ _)) by lia.
  destruct (cstate_init bm start0 size Hbm Hstart Hsize) as (c0 & E0 & Hok0 & Es0 & El0).
  exists c0. split; [done|]. intros l.
  destruct (cruns_ok l bm c0 (Chans 0 ∅) Hok0) as (bm' & c & w & E & Hok & El & Es & Ef & Hb).
  exists bm', c, w. pose proof Hok as [Hc Hw]. pose proof Hc as (_ & Hs & Hf & _ & _).
  split_and!; [done|by rewrite <- El0| |].
  { destruct (Tail_spec bm' c Hc) as [[Ht Hcl]|(Ht & Hset & Hcl)]; [left|right].
    - split; [done|]. intros. rewrite <- Es0, <- Es. apply Hcl. lia.
    - split_and!; [lia|lia| |].
      + intros j Hj. apply Hset. lia.
      + intros. apply Hcl. lia. }
  intros id Hid. destruct Hw as [Hw1 Hw2]. destruct (Hw2 id Hid) as [_ Hcl].
  assert (HT : forall c', start c <= firstClear c' -> start c' = start c ->
    Tail c' = if firstClear c' <=? start c then -1 else firstClear c' - 1)
    by (intros c' _ Ec; unfold Tail; by rewrite Ec).
  split.
  { rewrite Hcl, HT by (lia || done). destruct (Z.leb_spec (firstClear c) (start c)); lia. }
  intros i. destruct (Contiguous_Set_step bm' c w i Hc (conj Hw1 Hw2)) as (bm2 & c2 & w2 & E2 & Heff).
  exists bm2, c2, w2. split; [exact E2|]. destruct (se_range _ _ _ _ _ _ _ Heff) as (El2 & Es2 & Ef2).
  pose proof (se_contig _ _ _ _ _ _ _ Heff) as (_ & Hs2 & Hf2 & _).
  rewrite !HT by (lia || done).
  destruct (Z.le_gt_cases (firstClear c) (last c)) as [Hle|Hgt].
  - rewrite (se_notify _ _ _ _ _ _ _ Heff id Hid Hle), Hcl.
    destruct (Z.leb_spec (firstClear c) (start c)), (Z.leb_spec (firstClear c2) (start c)); lia.
  - assert (firstClear c2 = firstClear c) as -> by lia.
    split; [|done]. intros [_ Hn]. rewrite Hcl in Hn. lia.
Qed.

Lemma Contiguous_history_witness :
  0 <= 0 <= 3 /\ 0 < 3 <= len [5] * 64 /\
  exists c0, NewContiguousWithBitmap [5] 0 3 = Ok (Some c0) /\
    exists bm' c w, cruns ([5], c0, Chans 0 ∅) [OpNotify; OpSet 1] = Ok (bm', c, w).
Proof.
  assert (Hok : T_ok [5]) by (repeat constructor; vm_compute; congruence).
  split; [lia|]. split; [vm_compute; split; congruence|].
  destruct (Contiguous_history [5] 0 3 Hok) as (c0 & E & H); [lia|vm_compute; split; congruence|].
  exists c0. split; [exact E|]. destruct (H [OpNotify; OpSet 1]) as (bm' & c & w & E' & _).
  exists bm', c, w. exact E'.
Defined.

(** A bitmap written by [MarshalJSON] is read back word for word by
    [UnmarshalJSON], provided encoding/json decodes the text of an array of
    hexadecimal strings to those strings; an empty array leaves the receiver
    as it was. *)
Theorem JSON_roundtrip (json_unmarshal : string -> option (list string)) (b0 b : T)
    (Hjson : json_unmarshal (MarshalJSON b) = Some ((fun v => FormatUint v 16) <$> b))
    (Hb : T_ok b) :
  UnmarshalJSON json_unmarshal b0 (MarshalJSON b) = (if len b =? 0 then b0 else b, None).
Proof. by apply UnmarshalJSON_words. Qed.

Lemma JSON_roundtrip_witness :
  quoted_json (MarshalJSON [255; 0]) = Some ((fun v => FormatUint v 16) <$> [255; 0]) /\
  T_ok [255; 0] /\
  UnmarshalJSON quoted_json [] (MarshalJSON [255; 0]) = ([255; 0], None).
Proof.
  assert (Hok : T_ok [255; 0]) by (repeat constructor; vm_compute; congruence).
  split; [exact (quoted_json_marshal _ Hok)|]. split; [exact Hok|].
  exact (JSON_roundtrip quoted_json [] [255; 0] (quoted_json_marshal _ Hok) Hok).
Defined.
