(* ===== verification/ByteRanges.v ===== *)
(** * Byte ranges of a large file (file/largefile)

    A file is divided into blocks of equal size, the last one possibly short,
    and a bitmap records which blocks have been processed.  [ByteRanges] also
    follows the contiguous head of the file with a [bitmap.Contiguous] over the
    same words. *)

From stdpp Require Import base list option numbers gmap strings.
From Stdlib Require Import ZArith Lia Ascii String.
From S2P Require Import Prelude.
From S2P Require Import Strconv.
From S2P Require Bitmap.

Open Scope list_scope.
Open Scope Z_scope.
Open Scope go_scope.

(** ** Blocks and ranges (large_file.go) *)

Record ByteRange := MkByteRange { From : Z; To : Z }.

Definition ByteRange_Size (br : ByteRange) : Z :=
  if (From br <? 0) || (To br <? From br) then 0 else int64 (To br - From br + 1).

Definition ByteRange_String (br : ByteRange) : string :=
  "[" +:+ FormatInt (From br) 10 +:+ ":" +:+ FormatInt (To br) 10 +:+ "]".

Definition NumBlocks (contentSize blockSize : Z) : res Z :=
  let! nb := go_quot contentSize blockSize in
  let! r := go_rem contentSize blockSize in
  Ok (if r =? 0 then nb else int64 (nb + 1)).

Definition RangeForIndex (index contentSize blockSize : Z) : ByteRange :=
  if (index <? 0) || (contentSize <=? 0) || (blockSize <=? 0) then MkByteRange (-1) (-1)
  else
    let from := int64 (index * blockSize) in
    let to := int64 (Z.min (int64 (from + blockSize)) contentSize - 1) in
    MkByteRange from to.

(** The body of the loop of [Ranges] for block [i]. *)
Definition range_block (from to blockSize i : Z) : ByteRange :=
  let start := int64 (from + int64 (i * blockSize)) in
  let end_ := int64 (Z.min (int64 (start + blockSize)) (int64 (to + 1)) - 1) in
  MkByteRange start end_.

Definition Ranges (from to blockSize : Z) : seq_iter ByteRange := fun S yield s =>
  let size := int64 (int64 (to - from) + 1) in
  if blockSize <=? 0 then Ok s
  else
    let! nb := NumBlocks size blockSize in
    range_list (range_block from to blockSize <$> seqZ 0 nb) yield s.

(** ** byteRanges *)

Record byteRanges := MkByteRanges {
  contentSize : Z;
  bitmapSize : Z;
  blockSize : Z;
  bitmap : Bitmap.T;
}.

Definition newByteRanges (contentSize blockSize : Z) : res byteRanges :=
  let! nb := NumBlocks contentSize blockSize in
  Ok (MkByteRanges contentSize nb blockSize (Bitmap.New nb)).

(** The index that continues the search, and the range written to [*nbr]. *)
Definition next_range (br : byteRanges) (i : Z) : Z * option ByteRange :=
  if i <? 0 then (-1, None) else (i + 1, Some (RangeForIndex i (contentSize br) (blockSize br))).

Definition NextClear (br : byteRanges) (start : Z) : res (Z * option ByteRange) :=
  let! i := Bitmap.NextClear (bitmap br) start (bitmapSize br) in Ok (next_range br i).

Definition NextSet (br : byteRanges) (start : Z) : res (Z * option ByteRange) :=
  let! i := Bitmap.NextSet (bitmap br) start (bitmapSize br) in Ok (next_range br i).

Definition Block (br : byteRanges) (pos : Z) : res Z :=
  if (pos <? 0) || (contentSize br <=? pos) then Ok (-1)
  else
    let! blockIndex := go_quot pos (blockSize br) in
    if (blockIndex <? 0) || (bitmapSize br <=? blockIndex) then Ok (-1) else Ok blockIndex.

Definition with_bitmap (br : byteRanges) (b : Bitmap.T) : byteRanges :=
  MkByteRanges (contentSize br) (bitmapSize br) (blockSize br) b.

Definition byteRanges_Set (br : byteRanges) (pos : Z) : res byteRanges :=
  let! blockIndex := Block br pos in
  if 0 <=? blockIndex
  then let! b := Bitmap.SetUnsafe (bitmap br) blockIndex in Ok (with_bitmap br b)
  else Ok br.

Definition byteRanges_clear (br : byteRanges) (pos : Z) : res byteRanges :=
  let! blockIndex := Block br pos in
  if 0 <=? blockIndex
  then let! b := Bitmap.Clear (bitmap br) blockIndex in Ok (with_bitmap br b)
  else Ok br.

Definition IsSet (br : byteRanges) (pos : Z) : res bool :=
  let! blockIndex := Block br pos in
  if 0 <=? blockIndex then Bitmap.IsSetUnsafe (bitmap br) blockIndex else Ok false.

Definition IsClear (br : byteRanges) (pos : Z) : res bool :=
  let! blockIndex := Block br pos in
  if 0 <=? blockIndex
  then let! set := Bitmap.IsSet (bitmap br) blockIndex in Ok (negb set)
  else Ok false.

(** ** ByteRanges *)

(** The embedded [byteRanges] and the pointer to the [Contiguous], whose [bits]
    are the words of the embedded bitmap: they share one backing array.  The
    mutex makes each method one step. *)
Record ByteRanges := MkBR { ranges : byteRanges; contiguous : option Bitmap.Contiguous }.

Definition NewByteRanges (contentSize blockSize : Z) : res ByteRanges :=
  let! br := newByteRanges contentSize blockSize in
  let! c := Bitmap.NewContiguousWithBitmap (bitmap br) 0 (bitmapSize br) in
  Ok (MkBR br c).

(** A method call on a nil [Contiguous] panics when it reads a field. *)
Definition Set_ (br : ByteRanges) (w : Bitmap.chans) (pos : Z) : res (ByteRanges * Bitmap.chans) :=
  let! blockIndex := Block (ranges br) pos in
  if 0 <=? blockIndex then
    let! c := checked (contiguous br) in
    let! (b, c, w) := Bitmap.Contiguous_Set (bitmap (ranges br)) c w blockIndex in
    Ok (MkBR (with_bitmap (ranges br) b) (Some c), w)
  else Ok (br, w).

Definition Notify (br : ByteRanges) (w : Bitmap.chans) : res (nat * ByteRanges * Bitmap.chans) :=
  let! c := checked (contiguous br) in
  let! (id, c, w) := Bitmap.Notify c w in
  Ok (id, MkBR (ranges br) (Some c), w).

Definition Tail (br : ByteRanges) : res (option ByteRange) :=
  let! c := checked (contiguous br) in
  let blk := Bitmap.Tail c in
  if blk <? 0 then Ok None
  else
    let to := int64 (Z.min (int64 (int64 (blk + 1) * blockSize (ranges br)))
                           (contentSize (ranges br)) - 1) in
    Ok (Some (MkByteRange 0 to)).

Definition range_iter (br : byteRanges) (all : seq_iter Z) : seq_iter ByteRange :=
  fun S yield s =>
    all S (fun i s => yield (RangeForIndex i (contentSize br) (blockSize br)) s) s.

Definition AllClear (br : ByteRanges) (start : Z) : seq_iter ByteRange :=
  range_iter (ranges br) (Bitmap.AllClear (bitmap (ranges br)) start (bitmapSize (ranges br))).

Definition AllSet (br : ByteRanges) (start : Z) : seq_iter ByteRange :=
  range_iter (ranges br) (Bitmap.AllSet (bitmap (ranges br)) start (bitmapSize (ranges br))).

(** [ByteRangesTracker] embeds [byteRanges] alone. *)
Definition NewByteRangesTracker (contentSize blockSize : Z) : res byteRanges :=
  newByteRanges contentSize blockSize.

Definition Tracker_Clear (br : byteRanges) (pos : Z) : res byteRanges := byteRanges_clear br pos.

(** ** The block arithmetic *)

(** Positive sizes whose sum fits an int64, so that the end of the last block is
    computed without wrapping. *)
Definition sizes_ok (cs bs : Z) : Prop := 0 < cs /\ 0 < bs /\ cs + bs < 2 ^ 63.

Definition nblocks (cs bs : Z) : Z := (cs + bs - 1) / bs.

Lemma nblocks_bounds cs bs :
  sizes_ok cs bs -> 0 < nblocks cs bs /\ (nblocks cs bs - 1) * bs < cs <= nblocks cs bs * bs.
Proof.
  intros (Hc & Hb & _). unfold nblocks. pose proof (Z.div_mod (cs + bs - 1) bs).
  pose proof (Z.mod_pos_bound (cs + bs - 1) bs). split; [apply Z.div_str_pos|]; nia.
Qed.

Lemma NumBlocks_spec cs bs : sizes_ok cs bs -> NumBlocks cs bs = Ok (nblocks cs bs).
Proof.
  intros Hok. pose proof Hok as (Hc & Hb & Hs).
  pose proof (Z.div_mod cs bs ltac:(lia)). pose proof (Z.mod_pos_bound cs bs ltac:(lia)).
  pose proof (Z.div_pos cs bs ltac:(lia) ltac:(lia)).
  unfold NumBlocks. rewrite go_quot_pos, go_rem_pos by lia. cbn [rbind].
  f_equal. unfold nblocks. destruct (Z.eqb_spec (cs mod bs) 0) as [E|E].
  - apply Z.div_unique with (bs - 1); lia.
  - rewrite int64_id by (unfold int64_ok; nia).
    apply Z.div_unique with (cs mod bs - 1); lia.
Qed.

(** The unwrapped ends of block [i]. *)
Definition range_of (cs bs i : Z) : ByteRange := MkByteRange (i * bs) (Z.min (i * bs + bs) cs - 1).

Lemma RangeForIndex_spec cs bs i :
  sizes_ok cs bs -> 0 <= i < nblocks cs bs -> RangeForIndex i cs bs = range_of cs bs i.
Proof.
  intros Hok Hi. pose proof Hok as (Hc & Hb & Hs). pose proof (nblocks_bounds cs bs Hok) as [_ Hn].
  assert (0 <= i * bs < cs) by nia.
  unfold RangeForIndex. rewrite (proj2 (Z.ltb_ge i 0)), (proj2 (Z.leb_gt cs 0)), (proj2 (Z.leb_gt bs 0)) by lia.
  cbn [orb]. rewrite (int64_id (i * bs)), (int64_id (i * bs + bs)), int64_id
    by (unfold int64_ok; lia). done.
Qed.

Lemma range_of_pos cs bs i pos :
  sizes_ok cs bs -> 0 <= i < nblocks cs bs ->
  (From (range_of cs bs i) <= pos <= To (range_of cs bs i) <-> 0 <= pos < cs /\ pos / bs = i).
Proof.
  intros Hok Hi. pose proof Hok as (Hc & Hb & Hs). pose proof (nblocks_bounds cs bs Hok) as [_ Hn].
  cbn. split.
  - intros Hp. split; [nia|]. symmetry. apply Z.div_unique with (pos - i * bs); lia.
  - intros [Hp <-]. pose proof (Z.div_mod pos bs). pose proof (Z.mod_pos_bound pos bs). lia.
Qed.

Lemma block_bounds cs bs pos :
  sizes_ok cs bs -> 0 <= pos < cs -> 0 <= pos / bs < nblocks cs bs.
Proof.
  intros Hok Hp. pose proof Hok as (Hc & Hb & Hs). pose proof (nblocks_bounds cs bs Hok) as [_ Hn].
  split; [apply Z.div_pos; lia|]. apply Z.div_lt_upper_bound; nia.
Qed.

(** ** The state of a byteRanges *)

Definition ranges_ok (br : byteRanges) : Prop :=
  sizes_ok (contentSize br) (blockSize br) /\
  bitmapSize br = nblocks (contentSize br) (blockSize br) /\
  Bitmap.T_ok (bitmap br) /\ bitmapSize br <= len (bitmap br) * 64.

Lemma newByteRanges_spec cs bs :
  sizes_ok cs bs ->
  newByteRanges cs bs = Ok (MkByteRanges cs (nblocks cs bs) bs (Bitmap.New (nblocks cs bs))) /\
  ranges_ok (MkByteRanges cs (nblocks cs bs) bs (Bitmap.New (nblocks cs bs))).
Proof.
  intros Hok. unfold newByteRanges. rewrite NumBlocks_spec by done. split; [done|].
  destruct (Bitmap.New_spec (nblocks cs bs)) as (? & _ & ?).
  pose proof (nblocks_bounds cs bs Hok). repeat split; cbn; try done; try apply Hok. lia.
Qed.

Lemma Block_spec br pos :
  ranges_ok br ->
  Block br pos = Ok (if (0 <=? pos) && (pos <? contentSize br) then pos / blockSize br else -1).
Proof.
  intros (Hok & Hn & _). pose proof Hok as (Hc & Hb & Hs). unfold Block.
  destruct (Z.ltb_spec pos 0), (Z.leb_spec (contentSize br) pos); cbn [orb].
  1-3: repeat test_case; bool_to_prop; try done; lia.
  rewrite (proj2 (Z.leb_le 0 pos)), (proj2 (Z.ltb_lt pos _)) by lia. cbn [andb].
  rewrite go_quot_pos by lia. cbn [rbind].
  pose proof (block_bounds _ _ pos Hok ltac:(lia)).
  rewrite (proj2 (Z.ltb_ge _ 0)), (proj2 (Z.leb_gt (bitmapSize br) _)) by lia. done.
Qed.

(** Block of a position inside the content; its bit is in range. *)
Lemma Block_inside br pos :
  ranges_ok br -> 0 <= pos < contentSize br ->
  Block br pos = Ok (pos / blockSize br) /\ 0 <= pos / blockSize br < bitmapSize br /\
  Bitmap.in_range (bitmap br) (pos / blockSize br).
Proof.
  intros Hok Hp. rewrite Block_spec by done.
  rewrite (proj2 (Z.leb_le 0 pos)), (proj2 (Z.ltb_lt pos _)) by lia. cbn [andb].
  destruct Hok as (Hs & Hn & _ & Hl). pose proof (block_bounds _ _ pos Hs Hp).
  split_and!; try done; try lia; unfold Bitmap.in_range; lia.
Qed.

Lemma Block_outside br pos :
  ranges_ok br -> ~ 0 <= pos < contentSize br -> Block br pos = Ok (-1).
Proof.
  intros Hok Hp. rewrite Block_spec by done.
  destruct (Z.leb_spec 0 pos), (Z.ltb_spec pos (contentSize br)); try done. lia.
Qed.

Lemma next_range_spec br want start i :
  ranges_ok br -> 0 <= start ->
  Bitmap.next_spec (bitmap br) want start (Bitmap.limit (bitmap br) (bitmapSize br)) i ->
  next_range br i =
    if i <? 0 then (-1, None)
    else (i + 1, Some (range_of (contentSize br) (blockSize br) i)).
Proof.
  intros (Hok & Hn & _ & Hl) H0 Hi. unfold next_range.
  destruct Hi as [[-> _]|(Hi & _)]; [done|]. unfold Bitmap.limit in Hi.
  rewrite RangeForIndex_spec by (done || lia). done.
Qed.

(** ** Histories of a ByteRanges *)

Inductive brop := BSet (pos : Z) | BNotify.

Definition brstep (s : ByteRanges * Bitmap.chans) (o : brop) : res (ByteRanges * Bitmap.chans) :=
  let '(br, w) := s in
  match o with
  | BSet pos => Set_ br w pos
  | BNotify => let! (_, br, w) := Notify br w in Ok (br, w)
  end.

Fixpoint brruns (s : ByteRanges * Bitmap.chans) (l : list brop) : res (ByteRanges * Bitmap.chans) :=
  match l with
  | [] => Ok s
  | o :: l => let! s' := brstep s o in brruns s' l
  end.

(** The bitmap operation behind one of [ByteRanges]'s. *)
Definition block_op (cs bs : Z) (o : brop) : option Bitmap.cop :=
  match o with
  | BSet p => if (0 <=? p) && (p <? cs) then Some (Bitmap.OpSet (p / bs)) else None
  | BNotify => Some Bitmap.OpNotify
  end.

(** A position is covered when some position of its block has been set. *)
Definition covered (cs bs : Z) (l : list brop) (pos : Z) : Prop :=
  0 <= pos < cs /\ exists p, BSet p ∈ l /\ 0 <= p < cs /\ p / bs = pos / bs.

Definition shape_ok (br : byteRanges) : Prop :=
  sizes_ok (contentSize br) (blockSize br) /\ bitmapSize br = nblocks (contentSize br) (blockSize br).

Lemma Block_shape br b pos : Block (with_bitmap br b) pos = Block br pos.
Proof. reflexivity. Qed.

Lemma brruns_cruns br :
  ranges_ok br -> forall l bm c w,
  brruns (MkBR (with_bitmap br bm) (Some c), w) l =
  let! (bm', c', w') := Bitmap.cruns (bm, c, w) (omap (block_op (contentSize br) (blockSize br)) l) in
  Ok (MkBR (with_bitmap br bm') (Some c'), w').
Proof.
  intros Hok. induction l as [|o l IH]; intros bm c w; [done|]. cbn [brruns].
  destruct o as [p|]; cbn [brstep omap list_omap block_op].
  - unfold Set_. cbn [ranges contiguous checked]. rewrite Block_shape, Block_spec by done. cbn [rbind].
    destruct ((0 <=? p) && (p <? contentSize br)) eqn:E; cbn [Z.leb Z.compare rbind]; [|apply IH].
    bool_to_prop. destruct (Block_inside br p Hok) as (_ & [Hb _] & _); [lia|].
    rewrite (proj2 (Z.leb_le 0 _)) by done. cbn [rbind Bitmap.cruns Bitmap.cstep bitmap with_bitmap].
    destruct (Bitmap.Contiguous_Set bm c w _) as [[[bm' c'] w']| |]; cbn [rbind]; [|done..].
    rewrite <- IH. done.
  - unfold Notify. cbn [ranges contiguous checked rbind Bitmap.cruns Bitmap.cstep].
    destruct (Bitmap.Notify c w) as [[[id c'] w']| |]; cbn [rbind]; [|done..].
    rewrite <- IH. done.
Qed.

Lemma block_ops_set cs bs (l : list brop) j :
  Bitmap.OpSet j ∈ omap (block_op cs bs) l <-> exists p, BSet p ∈ l /\ 0 <= p < cs /\ p / bs = j.
Proof.
  rewrite list_elem_of_omap. split.
  - intros ([p|] & Hin & E); cbn in E; [|done].
    destruct (_ && _) eqn:Er; [|done]. injection E as <-. bool_to_prop. eauto.
  - intros (p & Hin & Hp & <-). exists (BSet p). split; [done|]. cbn.
    by rewrite (proj2 (Z.leb_le 0 p)), (proj2 (Z.ltb_lt p cs)) by lia.
Qed.

(** What a history of calls leaves behind: the words record exactly the blocks
    of the positions set, and the invariants of the bitmap hold. *)
Lemma brruns_spec cs bs :
  sizes_ok cs bs ->
  exists br0, NewByteRanges cs bs = Ok br0 /\
  forall l, exists b c w,
    brruns (br0, Bitmap.Chans 0 ∅) l =
      Ok (MkBR (MkByteRanges cs (nblocks cs bs) bs b) (Some c), w) /\
    ranges_ok (MkByteRanges cs (nblocks cs bs) bs b) /\
    Bitmap.contig_ok b c /\ Bitmap.last c = nblocks cs bs - 1 /\ Bitmap.start c = 0 /\
    forall j, Bitmap.bit b j = true <-> 0 <= j < nblocks cs bs /\
      exists p, BSet p ∈ l /\ 0 <= p < cs /\ p / bs = j.
Proof.
  intros Hs. destruct (newByteRanges_spec cs bs Hs) as [E Hok].
  pose proof Hok as (_ & _ & Hb & Hl). cbn in Hb, Hl. pose proof (nblocks_bounds cs bs Hs) as [Hpos _].
  set (b0 := Bitmap.New (nblocks cs bs)) in *.
  destruct (Bitmap.cstate_init b0 0 (nblocks cs bs) Hb) as (c0 & Ec & Hc0 & Es0 & El0); [lia..|].
  exists (MkBR (MkByteRanges cs (nblocks cs bs) bs b0) (Some c0)).
  unfold NewByteRanges, Bitmap.NewContiguousWithBitmap. rewrite E. cbn [rbind bitmap bitmapSize].
  rewrite (proj2 (Z.ltb_ge _ _)), Ec by lia. split; [done|]. intros l.
  set (br := MkByteRanges cs (nblocks cs bs) bs b0) in *.
  destruct (Bitmap.cruns_ok (omap (block_op cs bs) l) b0 c0 (Bitmap.Chans 0 ∅) Hc0)
    as (b & c & w & Er & [Hc Hw] & El & Es & _ & Hbits).
  exists b, c, w. split_and!; try congruence; try done.
  - change br with (with_bitmap br b0). rewrite (brruns_cruns br Hok). cbn [contentSize blockSize br].
    rewrite Er. done.
  - destruct Hc as (HTb & _ & _ & Hlast & _). rewrite El, El0 in Hlast.
    repeat split; cbn; try done; try apply Hs. lia.
  - intros j. rewrite Hbits. unfold Bitmap.bits_after. rewrite block_ops_set, El0.
    destruct (Bitmap.New_spec (nblocks cs bs)) as (_ & Hz & _). fold b0 in Hz. rewrite Hz.
    split; [intros [?|[? ?]]; [done|]|intros [? ?]; right]; split; try done; lia.
Qed.

Lemma covered_bit cs bs b (l : list brop) pos :
  sizes_ok cs bs -> 0 <= pos < cs ->
  (forall j, Bitmap.bit b j = true <-> 0 <= j < nblocks cs bs /\
      exists p, BSet p ∈ l /\ 0 <= p < cs /\ p / bs = j) ->
  (Bitmap.bit b (pos / bs) = true <-> covered cs bs l pos).
Proof.
  intros Hs Hp Hb. rewrite Hb. pose proof (block_bounds cs bs pos Hs Hp).
  unfold covered. naive_solver.
Qed.

(** ** Reading a byteRanges *)

Lemma IsSet_spec br pos :
  ranges_ok br ->
  IsSet br pos = Ok ((0 <=? pos) && (pos <? contentSize br) && Bitmap.bit (bitmap br) (pos / blockSize br)) /\
  IsClear br pos = Ok ((0 <=? pos) && (pos <? contentSize br) && negb (Bitmap.bit (bitmap br) (pos / blockSize br))).
Proof.
  intros Hok. unfold IsSet, IsClear. rewrite Block_spec by done. cbn [rbind].
  destruct ((0 <=? pos) && (pos <? contentSize br)) eqn:E; cbn [andb]; [|done].
  bool_to_prop. destruct (Block_inside br pos Hok) as (_ & [Hlo _] & Hr); [lia|].
  rewrite (proj2 (Z.leb_le 0 _)), Bitmap.IsSet_bit, Bitmap.IsSetUnsafe_bit by done. done.
Qed.

Lemma range_list_map {A B S} (f : A -> B) l (yield : B -> S -> res (bool * S)) s :
  range_list (f <$> l) yield s = range_list l (fun a s => yield (f a) s) s.
Proof.
  revert s. induction l as [|a l IH]; intros s; cbn; [done|].
  destruct (yield (f a) s) as [[[] ?]| |]; cbn; auto.
Qed.

Lemma range_list_ext {A S} (f g : A -> S -> res (bool * S)) l s :
  (forall a s, a ∈ l -> f a s = g a s) -> range_list l f s = range_list l g s.
Proof.
  revert s. induction l as [|a l IH]; intros s H; cbn; [done|].
  rewrite H by set_solver. destruct (g a s) as [[[] ?]| |]; cbn; auto.
  apply IH. set_solver.
Qed.

(** The indices the iterators of a [byteRanges] visit, as blocks. *)
Definition blocks (br : byteRanges) (want : bool) (start : Z) : list Z :=
  Bitmap.indices (bitmap br) want start (bitmapSize br).

Lemma blocks_elem br want start i :
  i ∈ blocks br want start <->
  start <= i < bitmapSize br /\ Bitmap.bit (bitmap br) i = want.
Proof.
  unfold blocks, Bitmap.indices. rewrite list_elem_of_filter, elem_of_seqZ.
  split; intros [? ?]; split; try done; lia.
Qed.

Lemma iter_ranges br want start {S} (yield : ByteRange -> S -> res (bool * S)) s :
  ranges_ok br -> 0 <= start ->
  range_list (Bitmap.indices (bitmap br) want start (Bitmap.limit (bitmap br) (bitmapSize br)))
    (fun i s => yield (RangeForIndex i (contentSize br) (blockSize br)) s) s
  = range_list (range_of (contentSize br) (blockSize br) <$> blocks br want start) yield s.
Proof.
  intros (Hs & Hn & _ & Hl) Hst. unfold Bitmap.limit. rewrite Z.min_r by lia.
  rewrite range_list_map. apply range_list_ext. intros i s' Hi.
  apply blocks_elem in Hi as [? _]. rewrite RangeForIndex_spec by (done || lia). done.
Qed.

Lemma Ranges_content cs bs {S} (yield : ByteRange -> S -> res (bool * S)) s :
  sizes_ok cs bs ->
  Ranges 0 (cs - 1) bs S yield s = range_list (range_of cs bs <$> seqZ 0 (nblocks cs bs)) yield s.
Proof.
  intros Hs. pose proof Hs as (Hc & Hb & Hsum). unfold Ranges.
  rewrite (proj2 (Z.leb_gt bs 0)), Z.sub_0_r by lia.
  rewrite (int64_id (cs - 1)), int64_id by (unfold int64_ok; lia).
  replace (cs - 1 + 1) with cs by lia. rewrite NumBlocks_spec by done. cbn [rbind].
  rewrite !range_list_map. apply range_list_ext. intros i s' Hi. apply elem_of_seqZ in Hi.
  pose proof (nblocks_bounds cs bs Hs) as [_ Hn].
  assert (0 <= i * bs < cs) by nia. unfold range_block, range_of.
  rewrite (int64_id (i * bs)), Z.add_0_l, (int64_id (i * bs)), (int64_id (i * bs + bs)),
    (int64_id (cs - 1 + 1)), int64_id by (unfold int64_ok; lia).
  replace (cs - 1 + 1) with cs by lia. done.
Qed.

(** [Tail] in terms of covered positions. *)
Lemma Tail_covered cs bs b c (l : list brop) :
  sizes_ok cs bs -> Bitmap.contig_ok b c -> Bitmap.last c = nblocks cs bs - 1 -> Bitmap.start c = 0 ->
  (forall pos, 0 <= pos < cs -> Bitmap.bit b (pos / bs) = true <-> covered cs bs l pos) ->
  let br := MkBR (MkByteRanges cs (nblocks cs bs) bs b) (Some c) in
  (Tail br = Ok None /\ ~ covered cs bs l 0) \/
  exists to, Tail br = Ok (Some (MkByteRange 0 to)) /\ 0 <= to < cs /\
    (forall pos, 0 <= pos <= to -> covered cs bs l pos) /\
    (to < cs - 1 -> ~ covered cs bs l (to + 1)).
Proof.
  intros Hs Hc El Es Hcov. cbn zeta.
  pose proof Hs as (Hcs & Hbs & Hsum). pose proof (nblocks_bounds cs bs Hs) as [Hpos Hn].
  unfold Tail. cbn [contiguous checked rbind ranges].
  destruct (Bitmap.Tail_spec b c Hc) as [[-> Hcl]|(Ht & Hset & Hcl)]; rewrite ?Es, ?El in *.
  + left. split; [done|]. rewrite <- Hcov by lia. rewrite Z.div_0_l by lia.
    by rewrite Hcl by lia.
  + right. set (t := Bitmap.Tail c) in *. rewrite (proj2 (Z.ltb_ge t 0)) by lia.
    cbn [blockSize contentSize]. assert (0 <= t * bs < cs) by nia.
    rewrite (int64_id (t + 1)), (int64_id ((t + 1) * bs)), int64_id by (unfold int64_ok; nia).
    eexists. split; [done|]. split_and!; [nia|nia| |].
    * intros pos Hp. apply Hcov; [lia|]. apply Hset. split; [apply Z.div_pos; lia|].
      enough (pos / bs < t + 1) by lia. apply Z.div_lt_upper_bound; nia.
    * intros Hlt. assert (Z.min ((t + 1) * bs) cs = (t + 1) * bs) as Hm by lia. rewrite Hm in *.
      replace ((t + 1) * bs - 1 + 1) with ((t + 1) * bs) by lia.
      rewrite <- Hcov by lia. rewrite Z.div_mul by lia. rewrite Hcl by nia. done.
Qed.

(** ** JSON *)

Inductive json_error :=
| JsonError
| InvalidFields
| InvalidContentSize (e : num_error)
| InvalidBitmap (e : Bitmap.json_error).

(** What [strconv.ParseInt] returns beside its error. *)
Definition ParseInt_on_error (s : string) (e : num_error) : Z :=
  match e with
  | ErrSyntax => 0
  | ErrRange => match s with String "-"%char _ => - 2 ^ 63 | _ => 2 ^ 63 - 1 end
  end.

Section json.
(** encoding/json on the anonymous struct of content size, block size and raw
    ranges, and on the [[]string] of the bitmap. *)
Context (json_marshal : string * Z * string -> string).
Context (json_unmarshal : string -> option (string * Z * string)).
Context (json_unmarshal_strings : string -> option (list string)).

Definition byteRanges_MarshalJSON (br : byteRanges) : string :=
  json_marshal (FormatInt (contentSize br) 10, blockSize br, Bitmap.MarshalJSON (bitmap br)).

(** The receiver after the call and the error; fields already assigned keep
    their new values on an error. *)
Definition byteRanges_UnmarshalJSON (br : byteRanges) (data : string)
    : res (byteRanges * option json_error) :=
  match json_unmarshal data with
  | None => Ok (br, Some JsonError)
  | Some (cs, bs, raw) =>
      if (String.eqb cs EmptyString) || (bs <=? 0) || (String.eqb raw EmptyString)
      then Ok (br, Some InvalidFields)
      else
        match ParseInt cs 10 with
        | inr e =>
            Ok (MkByteRanges (ParseInt_on_error cs e) (bitmapSize br) (blockSize br) (bitmap br),
                Some (InvalidContentSize e))
        | inl size =>
            let! nb := NumBlocks size bs in
            let '(b, err) := Bitmap.UnmarshalJSON json_unmarshal_strings (bitmap br) raw in
            Ok (MkByteRanges size nb bs b, InvalidBitmap <$> err)
        end
  end.

Definition MarshalJSON (br : ByteRanges) : string := byteRanges_MarshalJSON (ranges br).

Definition UnmarshalJSON (br : ByteRanges) (data : string) : res (ByteRanges * option json_error) :=
  let! (r, err) := byteRanges_UnmarshalJSON (ranges br) data in
  match err with
  | Some e => Ok (MkBR r (contiguous br), Some e)
  | None =>
      let! c := Bitmap.NewContiguousWithBitmap (bitmap r) 0 (bitmapSize r) in
      Ok (MkBR r c, None)
  end.

Lemma byteRanges_roundtrip br0 br :
  ranges_ok br ->
  (forall t, json_unmarshal (json_marshal t) = Some t) ->
  json_unmarshal_strings (Bitmap.MarshalJSON (bitmap br)) =
    Some ((fun v => FormatUint v 16) <$> bitmap br) ->
  byteRanges_UnmarshalJSON br0 (byteRanges_MarshalJSON br) = Ok (br, None).
Proof.
  intros (Hs & Hn & Hb & Hl) Hj Hjs. pose proof Hs as (Hcs & Hbs & Hsum).
  pose proof (nblocks_bounds _ _ Hs) as [Hpos _].
  unfold byteRanges_UnmarshalJSON, byteRanges_MarshalJSON. rewrite Hj.
  destruct (String.eqb_spec (FormatInt (contentSize br) 10) EmptyString) as [E|_].
  { exfalso. unfold FormatInt in E. rewrite (proj2 (Z.ltb_ge _ 0)) in E by lia.
    by apply digits_nonempty in E. }
  rewrite (proj2 (Z.leb_gt (blockSize br) 0)) by lia. cbn [orb].
  destruct (String.eqb_spec (Bitmap.MarshalJSON (bitmap br)) EmptyString) as [E|_]; [done|].
  rewrite ParseInt_FormatInt by (lia || (unfold int64_ok; lia)).
  rewrite NumBlocks_spec by done. cbn [rbind].
  rewrite (Bitmap.UnmarshalJSON_words _ _ (bitmap br)) by done.
  rewrite (proj2 (Z.eqb_neq (len _) 0)) by lia. rewrite <- Hn. by destruct br.
Qed.
End json.

(** The words determine the tracked range. *)
Lemma contig_unique b c c' :
  Bitmap.contig_ok b c -> Bitmap.contig_ok b c' ->
  Bitmap.start c' = Bitmap.start c -> Bitmap.last c' = Bitmap.last c ->
  Bitmap.firstClear c' = Bitmap.firstClear c.
Proof.
  intros (_ & H1 & H2 & _ & H3 & H4) (_ & H1' & H2' & _ & H3' & H4') Es El.
  rewrite Es, El in *.
  destruct (Z.lt_trichotomy (Bitmap.firstClear c') (Bitmap.firstClear c)) as [Hlt|[?|Hlt]]; [|done|].
  - specialize (H4' ltac:(lia)). rewrite H3 in H4' by lia. done.
  - specialize (H4 ltac:(lia)). rewrite H3' in H4 by lia. done.
Qed.

(** A decodable text for the JSON struct, for instantiating the hypotheses on
    encoding/json: the binary digits of its code. *)
Fixpoint positive_text (p : positive) : string :=
  match p with
  | xH => EmptyString
  | xO p => String "0" (positive_text p)
  | xI p => String "1" (positive_text p)
  end.

Fixpoint text_positive (s : string) : positive :=
  match s with
  | EmptyString => xH
  | String c s => if decide (c = "1"%char) then xI (text_positive s) else xO (text_positive s)
  end.

Definition struct_text (t : string * Z * string) : string := positive_text (encode t).
Definition text_struct (s : string) : option (string * Z * string) := decode (text_positive s).

Lemma text_struct_text t : text_struct (struct_text t) = Some t.
Proof.
  unfold text_struct, struct_text.
  assert (forall p, text_positive (positive_text p) = p) as ->.
  { induction p as [p IH|p IH|]; cbn [positive_text text_positive];
      [rewrite decide_True by done|rewrite decide_False by done|]; by rewrite ?IH. }
  apply decode_encode.
Qed.

(** ** Properties *)

(** The blocks partition the content.  For positive sizes that do not
    overflow, [NumBlocks] is the rounded-up quotient, [Ranges] produces the
    ranges of the block indices in order (for every consumer), each range
    starts where the previous one ended and none is empty or longer than the
    block size, and a position of the content lies in the range of block
    [pos / blockSize] and in no other. *)
Theorem blocks_partition_content (cs bs : Z) (Hs : sizes_ok cs bs) :
  NumBlocks cs bs = Ok (nblocks cs bs) /\ nblocks cs bs = (cs + bs - 1) / bs /\
  (forall S (yield : ByteRange -> S -> res (bool * S)) s, Ranges 0 (cs - 1) bs S yield s =
     range_list ((fun i => RangeForIndex i cs bs) <$> seqZ 0 (nblocks cs bs)) yield s) /\
  (forall i, 0 <= i < nblocks cs bs ->
     let r := RangeForIndex i cs bs in
     From r = (if i =? 0 then 0 else To (RangeForIndex (i - 1) cs bs) + 1) /\
     0 < ByteRange_Size r <= bs /\ (i < nblocks cs bs - 1 -> ByteRange_Size r = bs) /\
     (i = nblocks cs bs - 1 -> To r = cs - 1)) /\
  (forall i pos, 0 <= i < nblocks cs bs ->
     (From (RangeForIndex i cs bs) <= pos <= To (RangeForIndex i cs bs) <->
      0 <= pos < cs /\ pos / bs = i)).
Proof.
  pose proof Hs as (Hc & Hb & Hsum). pose proof (nblocks_bounds cs bs Hs) as [Hpos Hn].
  split_and!; [by apply NumBlocks_spec|done| | |].
  - intros S yield s. rewrite Ranges_content, !range_list_map by done. apply range_list_ext.
    intros i s' Hi. apply elem_of_seqZ in Hi. by rewrite RangeForIndex_spec by (done || lia).
  - intros i Hi. cbn zeta. rewrite (RangeForIndex_spec cs bs i) by done.
    assert (0 <= i * bs < cs) by nia.
    assert (Hend : i < nblocks cs bs - 1 -> i * bs + bs <= cs) by nia.
    unfold ByteRange_Size. cbn [From To range_of].
    rewrite (proj2 (Z.ltb_ge (i * bs) 0)), (proj2 (Z.ltb_ge _ (i * bs))) by lia. cbn [orb].
    rewrite int64_id by (unfold int64_ok; lia). split_and!; try lia.
    destruct (Z.eqb_spec i 0) as [->|]; [done|].
    rewrite RangeForIndex_spec by (done || lia). cbn. nia.
  - intros i pos Hi. rewrite RangeForIndex_spec by done. by apply range_of_pos.
Qed.

Lemma blocks_partition_content_witness :
  sizes_ok 1010 100 /\ NumBlocks 1010 100 = Ok 11 /\
  RangeForIndex 10 1010 100 = MkByteRange 1000 1009.
Proof.
  assert (Hs : sizes_ok 1010 100) by (unfold sizes_ok; lia).
  split; [exact Hs|]. split; [|vm_compute; reflexivity].
  rewrite (proj1 (blocks_partition_content 1010 100 Hs)). vm_compute. reflexivity.
Defined.

(** C1: [ByteRanges] over its whole life.  After any sequence of [Set] and
    [Notify] calls, none of which panics, a position reads as set exactly when
    some position of its block was set, [AllClear] and [AllSet] produce, for
    every consumer, the ranges of exactly the blocks without (with) a set
    position in ascending order, and [Tail] is the longest prefix of the
    content that is entirely covered. *)
Theorem ByteRanges_history (cs bs : Z) (Hs : sizes_ok cs bs) :
  exists br0, NewByteRanges cs bs = Ok br0 /\
  forall l, exists br w, brruns (br0, Bitmap.Chans 0 ∅) l = Ok (br, w) /\
    (forall pos, exists b, IsSet (ranges br) pos = Ok b /\ (b = true <-> covered cs bs l pos)) /\
    (forall pos, exists b, IsClear (ranges br) pos = Ok b /\
       (b = true <-> 0 <= pos < cs /\ ~ covered cs bs l pos)) /\
    (forall start S (yield : ByteRange -> S -> res (bool * S)) s, 0 <= start ->
       AllClear br start S yield s = range_list (range_of cs bs <$> blocks (ranges br) false start) yield s /\
       AllSet br start S yield s = range_list (range_of cs bs <$> blocks (ranges br) true start) yield s) /\
    (forall want start i, i ∈ blocks (ranges br) want start <->
       start <= i < nblocks cs bs /\ Bitmap.bit (bitmap (ranges br)) i = want) /\
    (forall pos, 0 <= pos < cs ->
       (Bitmap.bit (bitmap (ranges br)) (pos / bs) = true <-> covered cs bs l pos)) /\
    ((Tail br = Ok None /\ ~ covered cs bs l 0) \/
     exists to, Tail br = Ok (Some (MkByteRange 0 to)) /\ 0 <= to < cs /\
       (forall pos, 0 <= pos <= to -> covered cs bs l pos) /\
       (to < cs - 1 -> ~ covered cs bs l (to + 1))).
Proof.
  destruct (brruns_spec cs bs Hs) as (br0 & E0 & H). exists br0. split; [done|]. intros l.
  destruct (H l) as (b & c & w & E & Hok & Hc & El & Es & Hbits).
  eexists _, w. split; [exact E|]. cbn [ranges].
  set (br := MkByteRanges cs (nblocks cs bs) bs b) in *.
  assert (Hcov : forall pos, 0 <= pos < cs -> Bitmap.bit b (pos / bs) = true <-> covered cs bs l pos)
    by (intros; by apply covered_bit).
  pose proof Hs as (Hcs & Hbs & Hsum). pose proof (nblocks_bounds cs bs Hs) as [Hpos Hn].
  assert (Hin : forall pos, (0 <=? pos) && (pos <? cs) = true <-> 0 <= pos < cs)
    by (intros; rewrite andb_true_iff, Z.leb_le, Z.ltb_lt; lia).
  split_and!.
  - intros pos. eexists. split; [apply (IsSet_spec br pos Hok)|]. rewrite andb_true_iff. cbn [contentSize blockSize bitmap br].
    rewrite Hin. split; [intros [? ?]; by apply Hcov|].
    intros Hp. pose proof Hp as [? _]. split; [done|by apply Hcov].
  - intros pos. eexists. split; [apply (IsSet_spec br pos Hok)|]. rewrite andb_true_iff, negb_true_iff, <- not_true_iff_false.
    cbn [contentSize blockSize bitmap br]. rewrite Hin. 
    split; intros [Hp Hb]; (split; [done|]); revert Hb; by rewrite Hcov.
  - intros start S yield s H0. unfold AllClear, AllSet, range_iter. cbn [ranges].
    rewrite Bitmap.AllClear_range, Bitmap.AllSet_range by done.
    split; by apply (iter_ranges br).
  - intros want start i. apply (blocks_elem br).
  - done.
  - by apply Tail_covered.
Qed.

Lemma ByteRanges_history_witness :
  sizes_ok 250 100 /\
  exists br0, NewByteRanges 250 100 = Ok br0 /\
  exists br w, brruns (br0, Bitmap.Chans 0 ∅) [BNotify; BSet 150; BSet 99] = Ok (br, w) /\
    Tail br = Ok (Some (MkByteRange 0 199)).
Proof.
  assert (Hs : sizes_ok 250 100) by (unfold sizes_ok; lia).
  split; [exact Hs|]. destruct (ByteRanges_history 250 100 Hs) as (br0 & E & H).
  exists br0. split; [exact E|].
  destruct (H [BNotify; BSet 150; BSet 99]) as (br & w & Er & _). exists br, w.
  split; [exact Er|]. vm_compute in E. injection E as <-. vm_compute in Er. injection Er as <- <-.
  vm_compute. reflexivity.
Defined.

(** A [ByteRanges] in any state it can reach, marshalled to JSON and
    unmarshalled into any other, is restored: the same sizes and bits and the
    same tracked tail; only the listeners' channel is not carried over.
    encoding/json is assumed to decode what it encodes. *)
Theorem ByteRanges_JSON_roundtrip
    (json_marshal : string * Z * string -> string)
    (json_unmarshal : string -> option (string * Z * string))
    (json_unmarshal_strings : string -> option (list string))
    (Hjson : forall t, json_unmarshal (json_marshal t) = Some t)
    (Hstrings : forall b, Bitmap.T_ok b ->
       json_unmarshal_strings (Bitmap.MarshalJSON b) = Some ((fun v => FormatUint v 16) <$> b))
    (cs bs : Z) (Hs : sizes_ok cs bs) (old : ByteRanges) :
  exists br0, NewByteRanges cs bs = Ok br0 /\
  forall l, exists br w br', brruns (br0, Bitmap.Chans 0 ∅) l = Ok (br, w) /\
    UnmarshalJSON json_unmarshal json_unmarshal_strings old (MarshalJSON json_marshal br) = Ok (br', None) /\
    ranges br' = ranges br /\ Tail br' = Tail br /\
    exists c, contiguous br' = Some c /\ Bitmap.ch c = None.
Proof.
  destruct (brruns_spec cs bs Hs) as (br0 & E0 & H). exists br0. split; [done|]. intros l.
  destruct (H l) as (b & c & w & E & Hok & Hc & El & Es & _).
  pose proof Hok as (_ & _ & Hb & Hl). cbn in Hb, Hl. pose proof (nblocks_bounds cs bs Hs) as [Hpos _].
  destruct (Bitmap.newContiguous_spec b 0 (nblocks cs bs) Hb) as (c' & Ec & Hc' & Es' & El' & Ech); [lia..|].
  eexists _, w, _. split; [exact E|]. unfold UnmarshalJSON, MarshalJSON.
  rewrite byteRanges_roundtrip by (done || by apply Hstrings). cbn [rbind ranges bitmap bitmapSize].
  unfold Bitmap.NewContiguousWithBitmap. rewrite (proj2 (Z.ltb_ge _ _)), Ec by lia.
  split; [done|]. split; [done|]. split; [|eauto].
  unfold Tail, Bitmap.Tail. cbn [contiguous checked rbind ranges].
  by rewrite (contig_unique b c c'), Es, Es' by congruence.
Qed.

Lemma ByteRanges_JSON_roundtrip_witness :
  (forall t, text_struct (struct_text t) = Some t) /\ sizes_ok 250 100 /\
  exists br0, NewByteRanges 250 100 = Ok br0 /\
  exists br w br', brruns (br0, Bitmap.Chans 0 ∅) [BSet 150] = Ok (br, w) /\
    UnmarshalJSON text_struct Bitmap.quoted_json br0 (MarshalJSON struct_text br) = Ok (br', None).
Proof.
  assert (Hs : sizes_ok 250 100) by (unfold sizes_ok; lia).
  split; [exact text_struct_text|]. split; [exact Hs|].
  exists (MkBR (MkByteRanges 250 3 100 [0]) (Some (Bitmap.MkContiguous 2 0 0 None))).
  split; [vm_compute; reflexivity|].
  destruct (ByteRanges_JSON_roundtrip struct_text text_struct Bitmap.quoted_json
    text_struct_text Bitmap.quoted_json_marshal 250 100 Hs
    (MkBR (MkByteRanges 250 3 100 [0]) (Some (Bitmap.MkContiguous 2 0 0 None)))) as (br0 & E & H).
  vm_compute in E. injection E as <-. destruct (H [BSet 150]) as (br & w & br' & Er & Eu & _).
  exists br, w, br'. split; [exact Er|exact Eu].
Defined.

(** For an empty file [NewByteRanges] succeeds but stores a nil
    [Contiguous], so [Tail] and [Notify] panic whatever was called before,
    although every other method works. *)
Theorem empty_content_panics (bs : Z) (Hbs : 0 < bs) (w : Bitmap.chans) :
  exists br, NewByteRanges 0 bs = Ok br /\ contiguous br = None /\
    Tail br = Panic /\ Notify br w = Panic /\
    forall pos, Set_ br w pos = Ok (br, w) /\ IsSet (ranges br) pos = Ok false.
Proof.
  exists (MkBR (MkByteRanges 0 0 bs []) None).
  assert (Hn : NewByteRanges 0 bs = Ok (MkBR (MkByteRanges 0 0 bs []) None)).
  { unfold NewByteRanges, newByteRanges, NumBlocks, go_quot, go_rem.
    rewrite (proj2 (Z.eqb_neq bs 0)) by lia. cbn [rbind].
    rewrite Z.quot_0_l, Z.rem_0_l by lia. done. }
  split_and!; try done. intros pos. unfold Set_, IsSet.
  assert (Block (MkByteRanges 0 0 bs []) pos = Ok (-1)) as Hblk.
  { unfold Block. cbn [contentSize]. destruct (Z.ltb_spec pos 0), (Z.leb_spec 0 pos); done || lia. }
  cbn [ranges]. rewrite Hblk. done.
Qed.

Lemma empty_content_panics_witness :
  0 < 100 /\ exists br, NewByteRanges 0 100 = Ok br /\ Tail br = Panic.
Proof.
  split; [lia|]. destruct (empty_content_panics 100 ltac:(lia) (Bitmap.Chans 0 ∅)) as (br & E & _ & Ht & _).
  exists br. split; [exact E|exact Ht].
Defined.
