(* ===== verification/Heap.v ===== *)
(** * Binary heaps (algo/container/heap: heap.go, generic.go, options.go)

    [Heap[T]], a slice ordered by its elements' own [Less], and [T[K,V]], keys
    and values in two parallel slices with a callback on every move.  The sift
    loops are proved once, for [Heap]; [T] is shown to refine [Heap] over the
    zipped key/value pairs. *)

From stdpp Require Import base list option numbers sorting.
From Stdlib Require Import ZArith Lia.
From S2P Require Import Prelude.

Open Scope list_scope.
Open Scope nat_scope.
Open Scope go_scope.

(** ** Orders *)

(** What the heap needs of [Less]: a strict weak order. *)
Class StrictWeak {A} (lt : A -> A -> bool) : Prop := {
  sw_asym : forall x y, lt x y = true -> lt y x = false;
  sw_trans : forall x y z, lt x y = false -> lt y z = false -> lt x z = false;
}.

#[export] Instance Z_ltb_weak : StrictWeak Z.ltb.
Proof. split; intros; bool_to_prop; apply Z.ltb_ge; lia. Qed.

(** Reversing the order, or ordering by a key, keeps it strict and weak. *)
#[export] Instance flip_weak {A} (lt : A -> A -> bool) : StrictWeak lt -> StrictWeak (flip lt).
Proof. intros [H1 H2]. unfold flip. split; eauto. Qed.

#[export] Instance on_weak {A B} (f : B -> A) (lt : A -> A -> bool) :
  StrictWeak lt -> StrictWeak (fun x y => lt (f x) (f y)).
Proof. intros [H1 H2]. split; eauto. Qed.

(** ** Heap[T] (generic.go)

    Indices are natural numbers, as those the loops compute are; the guard
    [j1 < 0] of [down] only fires when an [int] overflows, which a slice index
    cannot make it do. *)

Definition parent (i : nat) : nat := (i - 1) / 2.

Section generic.
Context {A : Type} (Less : A -> A -> bool).

Definition less (h : list A) (i j : nat) : res bool :=
  let! x := checked (h !! i) in
  let! y := checked (h !! j) in
  Ok (Less x y).

Definition swap (h : list A) (i j : nat) : res (list A) :=
  let! x := checked (h !! i) in
  let! y := checked (h !! j) in
  Ok (<[j := x]> (<[i := y]> h)).

Fixpoint up_loop (fuel : nat) (h : list A) (j : nat) : res (list A) :=
  match fuel with
  | 0 => NoFuel
  | S fuel =>
      let i := parent j in
      if i =? j then Ok h
      else
        let! lt := less h j i in
        if negb lt then Ok h
        else let! h := swap h i j in up_loop fuel h i
  end.

Definition up (h : list A) (j : nat) : res (list A) := up_loop (S j) h j.

Fixpoint down_loop (fuel : nat) (h : list A) (i n : nat) : res (list A * nat) :=
  match fuel with
  | 0 => NoFuel
  | S fuel =>
      let j1 := 2 * i + 1 in
      if n <=? j1 then Ok (h, i)
      else
        let j2 := j1 + 1 in
        let! rt := if j2 <? n then less h j2 j1 else Ok false in
        let j := if rt then j2 else j1 in
        let! lt := less h j i in
        if negb lt then Ok (h, i)
        else let! h := swap h i j in down_loop fuel h j n
  end.

Definition down (h : list A) (i0 n : nat) : res (list A * bool) :=
  let! (h, i) := down_loop (S n) h i0 n in Ok (h, i0 <? i).

(** The loop [for i := n/2 - 1; i >= 0; i--], from [k] iterations left. *)
Fixpoint init_loop (k : nat) (h : list A) (n : nat) : res (list A) :=
  match k with
  | 0 => Ok h
  | S i => let! (h, _) := down h i n in init_loop i h n
  end.

Definition Init (h : list A) : res (list A) := init_loop (length h / 2) h (length h).

Definition pop (h : list A) : res (list A * A) :=
  match length h with
  | 0 => Panic
  | S n => let! x := checked (h !! n) in Ok (take n h, x)
  end.

Definition Push (h : list A) (x : A) : res (list A) := up (h ++ [x]) (length (h ++ [x]) - 1).

Definition Pop (h : list A) : res (list A * A) :=
  match length h with
  | 0 => Panic
  | S n =>
      let! h := swap h 0 n in
      let! (h, _) := down h 0 n in
      pop h
  end.

Definition Remove (h : list A) (i : nat) : res (list A * A) :=
  match length h with
  | 0 => Panic
  | S n =>
      if negb (n =? i) then
        let! h := swap h i n in
        let! (h, moved) := down h i n in
        let! h := if moved then Ok h else up h i in
        pop h
      else pop h
  end.

Definition Fix (h : list A) (i : nat) : res (list A) :=
  let! (h, moved) := down h i (length h) in
  if moved then Ok h else up h i.
End generic.

(** ** The heap order *)

Section order.
Context {A : Type} (Less : A -> A -> bool) `{!StrictWeak Less}.
Implicit Types h : list A.

(** The element at [c] is not less than the one at [p]. *)
Definition geq h (c p : nat) : Prop :=
  forall x y, h !! c = Some x -> h !! p = Some y -> Less x y = false.

(** Every element of the first [n] whose parent is at [lo] or after is not
    less than its parent. *)
Definition heap_from (lo : nat) h (n : nat) : Prop :=
  forall c, 0 < c < n -> lo <= parent c -> geq h c (parent c).

Definition is_heap h : Prop := heap_from 0 h (length h).

Lemma geq_trans h a b c : b < length h -> geq h a b -> geq h b c -> geq h a c.
Proof.
  intros Hb Hab Hbc x z Hx Hz. destruct (lookup_lt_is_Some_2 h b Hb) as [y Hy].
  eapply sw_trans; eauto.
Qed.

Lemma less_Ok h i j :
  i < length h -> j < length h ->
  exists b, less Less h i j = Ok b /\
    (b = true -> geq h j i) /\ (b = false -> geq h i j).
Proof.
  intros Hi Hj. destruct (lookup_lt_is_Some_2 h i Hi) as [x Hx].
  destruct (lookup_lt_is_Some_2 h j Hj) as [y Hy].
  unfold less. rewrite Hx, Hy. exists (Less x y). split; [done|]. unfold geq.
  split; intros E x' y' Hx' Hy'; simplify_eq; [by apply sw_asym|done].
Qed.

(** The transposition of two indices. *)
Definition tr (i j k : nat) : nat := if k =? i then j else if k =? j then i else k.

Lemma swap_Ok h i j :
  i < length h -> j < length h ->
  exists h', swap h i j = Ok h' /\ h' ≡ₚ h /\ length h' = length h /\
    forall k, h' !! k = h !! tr i j k.
Proof.
  intros Hi Hj. destruct (lookup_lt_is_Some_2 h i Hi) as [x Hx].
  destruct (lookup_lt_is_Some_2 h j Hj) as [y Hy].
  unfold swap. rewrite Hx, Hy. eexists. split; [done|].
  assert (Hl : forall k, <[j := x]> (<[i := y]> h) !! k = h !! tr i j k).
  { intros k. unfold tr. destruct (Nat.eqb_spec k i) as [->|Hki].
    - destruct (decide (i = j)) as [->|Hij].
      + rewrite list_lookup_insert_eq by (rewrite length_insert; done). congruence.
      + rewrite list_lookup_insert_ne, list_lookup_insert_eq by done. done.
    - destruct (Nat.eqb_spec k j) as [->|Hkj].
      + rewrite list_lookup_insert_eq by (rewrite length_insert; done). done.
      + rewrite !list_lookup_insert_ne by done. done. }
  split_and!; [by apply Permutation_insert_swap|by rewrite !length_insert|done].
Qed.

Lemma geq_swap h h' i j c p :
  (forall k, h' !! k = h !! tr i j k) -> geq h (tr i j c) (tr i j p) -> geq h' c p.
Proof. intros Hl Hg x y. rewrite !Hl. apply Hg. Qed.

(** Facts about parents and transpositions that close the arithmetic side of
    the sifting lemmas. *)
Lemma tr_l i j : tr i j i = j.
Proof. unfold tr. by rewrite Nat.eqb_refl. Qed.

Lemma tr_r i j : tr i j j = i.
Proof. unfold tr. destruct (Nat.eqb_spec j i) as [->|]; [done|]. by rewrite Nat.eqb_refl. Qed.

Lemma tr_ne i j k : k <> i -> k <> j -> tr i j k = k.
Proof. intros. unfold tr. by rewrite (proj2 (Nat.eqb_neq k i)), (proj2 (Nat.eqb_neq k j)). Qed.

Lemma parent_lt i : 0 < i -> parent i < i.
Proof.
  unfold parent. pose proof (Nat.div_mod_eq (i - 1) 2). lia.
Qed.

Lemma children i c : 0 < c -> (parent c = i <-> c = 2 * i + 1 \/ c = 2 * i + 2).
Proof.
  unfold parent. pose proof (Nat.div_mod_eq (c - 1) 2).
  pose proof (Nat.mod_upper_bound (c - 1) 2). lia.
Qed.

Lemma parent_0 : parent 0 = 0.
Proof. reflexivity. Qed.

(** ** Sifting up *)

(** Only the edge from [j] to its parent may be out of order, and the children
    of [j] are in order with that parent. *)
Definition up_inv h (n j : nat) : Prop :=
  (forall c, 0 < c < n -> c <> j -> geq h c (parent c)) /\
  (forall c, 0 < c < n -> parent c = j -> 0 < j -> geq h c (parent j)).

Lemma up_step h h' n j :
  n <= length h -> 0 < j < n -> up_inv h n j -> geq h (parent j) j ->
  (forall k, h' !! k = h !! tr (parent j) j k) ->
  up_inv h' n (parent j).
Proof.
  intros Hn Hj [He Hg] Hlt Hl. pose proof (parent_lt j ltac:(lia)) as Hp.
  split; intros c Hc; pose proof (parent_lt c ltac:(lia)) as Hpc.
  - intros Hne. eapply geq_swap; [exact Hl|]. destruct (decide (c = j)) as [->|Hcj].
    { by rewrite tr_l, tr_r. }
    rewrite (tr_ne _ _ c) by done. destruct (decide (parent c = j)) as [E|Hpj].
    { rewrite E, tr_r. apply Hg; [done|done|lia]. }
    destruct (decide (parent c = parent j)) as [E|Hpp].
    { rewrite E, tr_l. apply geq_trans with (parent j); [lia| |done].
      rewrite <- E. by apply He. }
    rewrite tr_ne by done. by apply He.
  - intros Hpc' H0. eapply geq_swap; [exact Hl|].
    pose proof (parent_lt (parent j) H0).
    rewrite (tr_ne _ _ (parent (parent j))) by lia.
    destruct (decide (c = j)) as [->|Hcj].
    { rewrite tr_r. apply He; lia. }
    rewrite tr_ne by lia. apply geq_trans with (parent j); [lia| |apply He; lia].
    rewrite <- Hpc'. by apply He.
Qed.

Lemma up_loop_spec fuel : forall h n j,
  j < fuel -> j < n <= length h -> up_inv h n j ->
  exists h', up_loop Less fuel h j = Ok h' /\ h' ≡ₚ h /\ heap_from 0 h' n /\
    forall k, n <= k -> h' !! k = h !! k.
Proof.
  induction fuel as [|fuel IH]; intros h n j Hf Hj Hinv; [lia|]. cbn [up_loop].
  destruct (Nat.eqb_spec (parent j) j) as [E|Hne].
  { assert (j = 0) as -> by (destruct j; [done|pose proof (parent_lt (S j)); lia]).
    exists h. split_and!; try done. intros c Hc _. apply Hinv; lia. }
  assert (0 < j) by (destruct j; [done|lia]). pose proof (parent_lt j ltac:(done)).
  destruct (less_Ok h j (parent j)) as (b & -> & Ht & Hff); [lia..|]. cbn [rbind].
  destruct b; cbn [negb].
  - destruct (swap_Ok h (parent j) j) as (h1 & -> & Hperm & Hlen & Hl); [lia..|]. cbn [rbind].
    destruct (IH h1 n (parent j)) as (h2 & -> & Hp2 & Hh2 & Hk2); [lia|lia| |].
    { apply (up_step h); [lia|lia|done|by apply Ht|done]. }
    exists h2. split_and!; [done|by rewrite Hp2|done|]. intros k Hk.
    rewrite Hk2, Hl, tr_ne by lia. done.
  - exists h. split_and!; try done. intros c Hc _.
    destruct (decide (c = j)) as [->|]; [by apply Hff|]. by apply Hinv.
Qed.

(** ** Sifting down *)

(** Only edges that touch [i] may be out of order, and the children of [i] are
    in order with its parent. *)
Definition hole lo h (n i : nat) : Prop :=
  (forall c, 0 < c < n -> lo <= parent c -> parent c <> i -> c <> i -> geq h c (parent c)) /\
  (forall c, 0 < c < n -> parent c = i -> 0 < i -> lo <= parent i -> geq h c (parent i)).

Definition top_ok lo h (i : nat) : Prop := 0 < i -> lo <= parent i -> geq h i (parent i).

Lemma down_step lo h h' n i j :
  n <= length h -> 0 < j < n -> lo <= i -> parent j = i -> hole lo h n i ->
  geq h i j -> (forall c, 0 < c < n -> parent c = i -> geq h c j) ->
  (forall k, h' !! k = h !! tr i j k) ->
  hole lo h' n j /\ top_ok lo h' j /\ top_ok lo h' i.
Proof.
  intros Hn Hj Hlo Hpj [He Hg] Hlt Hsib Hl.
  pose proof (parent_lt j ltac:(lia)) as Hij. rewrite Hpj in Hij.
  split_and!; [split| |].
  - intros c Hc Hloc Hpc Hcj. pose proof (parent_lt c ltac:(lia)).
    eapply geq_swap; [exact Hl|]. destruct (decide (c = i)) as [->|Hci].
    { rewrite tr_l, tr_ne by lia. apply Hg; [lia|done|lia|done]. }
    rewrite (tr_ne _ _ c) by done. destruct (decide (parent c = i)) as [E|Hpi].
    { rewrite E, tr_l. by apply Hsib. }
    rewrite tr_ne by done. by apply He.
  - intros c Hc Hpc _ Hlop. pose proof (parent_lt c ltac:(lia)).
    eapply geq_swap; [exact Hl|]. rewrite Hpj, tr_l, tr_ne by lia.
    rewrite <- Hpc. apply He; lia.
  - intros _ _. eapply geq_swap; [exact Hl|]. by rewrite Hpj, tr_l, tr_r.
  - intros H0 Hloi. pose proof (parent_lt i H0). eapply geq_swap; [exact Hl|].
    rewrite tr_l, tr_ne by lia. apply Hg; [lia|done|done|done].
Qed.

(** The child the loop compares with [i], and what choosing it establishes. *)
Lemma choose_child h i n :
  n <= length h -> 2 * i + 1 < n ->
  exists b, (if 2 * i + 1 + 1 <? n then less Less h (2 * i + 1 + 1) (2 * i + 1) else Ok false) = Ok b /\
    let j := if b then 2 * i + 1 + 1 else 2 * i + 1 in
    0 < j < n /\ parent j = i /\ forall c, 0 < c < n -> parent c = i -> geq h c j.
Proof.
  intros Hn Hj.
  assert (Hrefl : forall k, geq h k k).
  { intros k x y Hx Hy. assert (y = x) as -> by congruence.
    destruct (Less x x) eqn:E; [|done]. by rewrite (sw_asym x x E) in E. }
  destruct (Nat.ltb_spec (2 * i + 1 + 1) n) as [H2|H2].
  - destruct (less_Ok h (2 * i + 1 + 1) (2 * i + 1)) as (b & -> & Ht & Hf); [lia..|].
    exists b. split; [done|]. destruct b; cbn zeta; (split_and!; [lia|lia|apply children; lia|]);
      intros c Hc [->| ->]%children; try lia; try apply Hrefl; rewrite <- ?Nat.add_assoc in *; auto.
  - exists false. split; [done|]. split_and!; [lia|lia|apply children; lia|].
    intros c Hc [->| ->]%children; try lia. apply Hrefl.
Qed.

Lemma down_loop_spec lo fuel : forall h n i,
  n - i < fuel -> n <= length h -> lo <= i -> hole lo h n i ->
  exists h' i', down_loop Less fuel h i n = Ok (h', i') /\ h' ≡ₚ h /\ i <= i' /\
    (forall k, n <= k -> h' !! k = h !! k) /\
    ((i' = i /\ h' = h /\ forall c, 0 < c < n -> parent c = i -> geq h c i) \/
     (i < i' /\ heap_from lo h' n)).
Proof.
  induction fuel as [|fuel IH]; intros h n i Hf Hn Hlo Hhole; [lia|]. cbn [down_loop].
  destruct (Nat.leb_spec n (2 * i + 1)) as [Hle|Hlt].
  { exists h, i. split_and!; try done. left. split_and!; try done.
    intros c Hc [->| ->]%children; lia. }
  destruct (choose_child h i n Hn Hlt) as (b & Eb & Hj & Hpj & Hsib). rewrite Eb. cbn [rbind].
  set (j := if b then 2 * i + 1 + 1 else 2 * i + 1) in *.
  pose proof (parent_lt j ltac:(lia)) as Hij. rewrite Hpj in Hij.
  destruct (less_Ok h j i) as (lt & -> & Ht & Hff); [lia..|]. cbn [rbind].
  destruct lt; cbn [negb].
  - destruct (swap_Ok h i j) as (h1 & -> & Hperm & Hlen & Hl); [lia..|]. cbn [rbind].
    destruct (down_step lo h h1 n i j) as (Hh1 & Htop & _); try done; [by apply Ht|].
    destruct (IH h1 n j) as (h2 & i2 & -> & Hp2 & Hi2 & Hk2 & Hcase); [lia..|done|].
    exists h2, i2. split_and!; [done|by rewrite Hp2|lia| |].
    + intros k Hk. rewrite Hk2, Hl, tr_ne by lia. done.
    + right. split; [lia|]. destruct Hcase as [(-> & -> & Hch)|[_ ?]]; [|done].
      intros c Hc Hloc. destruct (decide (parent c = j)) as [E|]; [rewrite E; by apply Hch|].
      destruct (decide (c = j)) as [->|]; [apply Htop; lia|]. by apply Hh1.
  - exists h, i. split_and!; try done. left. split_and!; try done.
    intros c Hc Hpc. apply geq_trans with j; [lia|by apply Hsib|by apply Hff].
Qed.

Lemma down_spec lo h n i :
  n <= length h -> lo <= i -> hole lo h n i ->
  exists h' moved, down Less h i n = Ok (h', moved) /\ h' ≡ₚ h /\
    (forall k, n <= k -> h' !! k = h !! k) /\
    (moved = true -> heap_from lo h' n) /\
    (moved = false -> h' = h /\ forall c, 0 < c < n -> parent c = i -> geq h c i) /\
    (top_ok lo h i -> heap_from lo h' n).
Proof.
  intros Hn Hlo Hh. unfold down.
  destruct (down_loop_spec lo (S n) h n i) as (h' & i' & -> & Hp & Hi & Hk & Hcase); [lia..|done|].
  cbn [rbind]. exists h', (i <? i'). split; [done|]. split_and!; try done.
  - intros Hlt. bool_to_prop. destruct Hcase as [(-> & _)|[_ ?]]; [lia|done].
  - intros Hge. bool_to_prop. destruct Hcase as [(-> & -> & ?)|[? _]]; [done|lia].
  - intros Htop. destruct Hcase as [(-> & -> & Hch)|[_ ?]]; [|done].
    intros c Hc Hloc. destruct (decide (parent c = i)) as [E|]; [rewrite E; by apply Hch|].
    destruct (decide (c = i)) as [->|]; [apply Htop; lia|]. by apply Hh.
Qed.

(** Restoring the order around one position: down, then up if nothing moved. *)
Lemma refix_spec h n i :
  i < n <= length h -> hole 0 h n i ->
  exists h1 moved h', down Less h i n = Ok (h1, moved) /\
    (if moved then Ok h1 else up Less h1 i) = Ok h' /\ h' ≡ₚ h /\ heap_from 0 h' n /\
    forall k, n <= k -> h' !! k = h !! k.
Proof.
  intros Hn Hh. destruct (down_spec 0 h n i) as (h1 & moved & Ed & Hp & Hk & Ht & Hf & _); [lia..|done|].
  destruct moved.
  - exists h1, true, h1. split_and!; auto.
  - destruct (Hf eq_refl) as [-> Hch].
    destruct (up_loop_spec (S i) h n i) as (h' & E & Hp' & Hh' & Hk'); [lia|lia| |].
    { destruct Hh as [He Hg]. split.
      - intros c Hc Hne. destruct (decide (parent c = i)) as [E|]; [rewrite E; by apply Hch|].
        apply He; [done|lia|done|done].
      - intros c Hc Hpc H0. apply Hg; [done|done|done|lia]. }
    exists h, false, h'. split_and!; try done; by unfold up.
Qed.

(** Changing one element of a heap leaves a hole there. *)
Lemma hole_replace h h' n i :
  n <= length h -> i < n -> heap_from 0 h n ->
  (forall k, k < n -> k <> i -> h' !! k = h !! k) -> hole 0 h' n i.
Proof.
  intros Hn Hi Hh Hk.
  assert (Hext : forall c p, c < n -> p < n -> c <> i -> p <> i -> geq h c p -> geq h' c p).
  { intros c p ? ? ? ? Hg x y. rewrite !Hk by done. apply Hg. }
  split; intros c Hc; pose proof (parent_lt c ltac:(lia)).
  - intros _ Hpc Hci. apply Hext; try done; [lia|lia|]. apply Hh; lia.
  - intros Hpc H0 _. pose proof (parent_lt i H0). apply Hext; [lia..|].
    apply geq_trans with i; [lia|rewrite <- Hpc; apply Hh; lia|apply Hh; lia].
Qed.

Lemma heap_top h n k :
  n <= length h -> heap_from 0 h n -> k < n -> geq h k 0.
Proof.
  intros Hn Hh. induction k as [k IH] using (well_founded_induction lt_wf). intros Hk.
  destruct (decide (k = 0)) as [->|].
  - intros x y Hx Hy. assert (y = x) as -> by congruence.
    destruct (Less x x) eqn:E; [|done]. by rewrite (sw_asym x x E) in E.
  - pose proof (parent_lt k ltac:(lia)).
    apply geq_trans with (parent k); [lia|apply Hh; lia|apply IH; lia].
Qed.

Lemma heap_from_ext lo h h' n :
  (forall k, k < n -> h' !! k = h !! k) -> heap_from lo h n -> heap_from lo h' n.
Proof.
  intros Hk Hh c Hc Hlo x y. pose proof (parent_lt c ltac:(lia)).
  rewrite !Hk by lia. by apply Hh.
Qed.

(** Dropping the last element. *)
Lemma pop_spec h n :
  length h = S n -> exists x, h !! n = Some x /\ pop h = Ok (take n h, x) /\ h = take n h ++ [x].
Proof.
  intros Hlen. destruct (lookup_lt_is_Some_2 h n) as [x Hx]; [lia|].
  exists x. unfold pop. rewrite Hlen, Hx. split_and!; try done.
  rewrite <- (take_S_r h n x Hx). rewrite take_ge; [done|lia].
Qed.

Lemma pop_heap h n : length h = S n -> heap_from 0 h n -> is_heap (take n h).
Proof.
  intros Hlen Hh. unfold is_heap. rewrite length_take, Nat.min_l by lia.
  apply heap_from_ext with h; [|done]. intros k Hk. by apply lookup_take_lt.
Qed.

(** ** The operations *)

Lemma is_heap_perm h h' n :
  h' ≡ₚ h -> length h = n -> heap_from 0 h' n -> is_heap h'.
Proof. intros Hp <- Hh. unfold is_heap. by rewrite (Permutation_length Hp). Qed.

Lemma Init_spec h : exists h', Init Less h = Ok h' /\ h' ≡ₚ h /\ is_heap h'.
Proof.
  unfold Init. set (n := length h).
  assert (Hgen : forall k h1, length h1 = n -> heap_from k h1 n ->
    exists h', init_loop Less k h1 n = Ok h' /\ h' ≡ₚ h1 /\ heap_from 0 h' n).
  { induction k as [|i IH]; intros h1 Hlen Hh; [by exists h1|]. cbn [init_loop].
    destruct (down_spec i h1 n i) as (h2 & b & -> & Hp & _ & _ & _ & Htop); [lia..| |].
    { split; [intros c Hc Hlo Hne _; apply Hh; [done|lia]|].
      intros c Hc Hpc H0 Hlo. pose proof (parent_lt i H0). lia. }
    cbn [rbind]. destruct (IH h2) as (h' & -> & Hp' & Hh').
    - by rewrite Hp.
    - apply Htop. intros H0 Hlo. pose proof (parent_lt i H0). lia.
    - exists h'. split_and!; [done|by rewrite Hp'|done]. }
  destruct (Hgen (n / 2) h) as (h' & E & Hp & Hh); [done| |].
  { intros c Hc Hlo. exfalso. unfold parent in Hlo.
    pose proof (Nat.div_mod_eq (c - 1) 2). pose proof (Nat.div_mod_eq n 2).
    pose proof (Nat.mod_upper_bound n 2). lia. }
  exists h'. split_and!; [done|done|by apply is_heap_perm with h n].
Qed.

Lemma Push_spec h x :
  is_heap h -> exists h', Push Less h x = Ok h' /\ h' ≡ₚ x :: h /\ is_heap h'.
Proof.
  intros Hh. unfold Push, up. rewrite length_app. cbn [length].
  replace (length h + 1 - 1) with (length h) by lia.
  destruct (up_loop_spec (S (length h)) (h ++ [x]) (S (length h)) (length h))
    as (h' & -> & Hp & Hh' & _); [lia|rewrite length_app; cbn; lia| |].
  { split; intros c Hc; pose proof (parent_lt c ltac:(lia)).
    - intros Hne y z. rewrite !lookup_app_l by lia. apply Hh; lia.
    - intros. lia. }
  exists h'. split_and!; [done|by rewrite Hp, Permutation_app_comm|].
  apply is_heap_perm with (h ++ [x]) (S (length h)); [done|rewrite length_app; cbn; lia|done].
Qed.

(** [Remove] and [Pop] after their swap: the element is last, the rest is a
    heap with a hole at [i]. *)
Lemma remove_tail h i n x :
  is_heap h -> length h = S n -> i < n -> h !! i = Some x ->
  exists h1, swap h i n = Ok h1 /\ length h1 = S n /\ h1 ≡ₚ h /\ hole 0 h1 n i /\ h1 !! n = Some x.
Proof.
  intros Hh Hlen Hi Hx. destruct (swap_Ok h i n) as (h1 & -> & Hp & Hl1 & Hl); [lia..|].
  exists h1. split_and!; [done|lia|done| |].
  - apply hole_replace with h; [lia|lia| |].
    + intros c Hc _. apply Hh; [unfold is_heap in *; lia|lia].
    + intros k Hk Hne. rewrite Hl, tr_ne by lia. done.
  - by rewrite Hl, tr_r.
Qed.

Lemma Remove_spec h i x :
  is_heap h -> h !! i = Some x ->
  exists h', Remove Less h i = Ok (h', x) /\ x :: h' ≡ₚ h /\ is_heap h'.
Proof.
  intros Hh Hx. pose proof (lookup_lt_Some _ _ _ Hx) as Hi. unfold Remove.
  destruct (length h) as [|n] eqn:Hlen; [lia|].
  destruct (Nat.eqb_spec n i) as [->|Hne]; cbn [negb].
  - destruct (pop_spec h i Hlen) as (y & Hy & -> & Hsplit). assert (y = x) as -> by congruence.
    exists (take i h). split_and!; [done| |].
    + rewrite Hsplit at 2. by rewrite Permutation_app_comm.
    + apply pop_heap; [done|]. intros c Hc _. apply Hh; lia.
  - destruct (remove_tail h i n x Hh Hlen) as (h1 & -> & Hl1 & Hp1 & Hhole & Hx1); [lia|done|].
    cbn [rbind]. destruct (refix_spec h1 n i) as (h2 & b & h3 & -> & Eif & Hp3 & Hh3 & Hk3); [lia|done|].
    cbn [rbind]. rewrite Eif. cbn [rbind].
    assert (Hl3 : length h3 = S n) by (rewrite Hp3; done).
    destruct (pop_spec h3 n Hl3) as (y & Hy & -> & Hsplit).
    assert (y = x) as -> by (rewrite Hk3 in Hy by lia; congruence).
    exists (take n h3). split_and!; [done| |by apply pop_heap].
    rewrite <- Hp1, <- Hp3. rewrite Hsplit at 2. by rewrite Permutation_app_comm.
Qed.

Lemma Pop_spec h x :
  is_heap h -> h !! 0 = Some x ->
  exists h', Pop Less h = Ok (h', x) /\ x :: h' ≡ₚ h /\ is_heap h' /\
    forall y, y ∈ h' -> Less y x = false.
Proof.
  intros Hh Hx. pose proof (lookup_lt_Some _ _ _ Hx) as Hi. unfold Pop.
  destruct (length h) as [|n] eqn:Hlen; [lia|].
  assert (Htop : forall y, y ∈ h -> Less y x = false).
  { intros y (k & Hk)%list_elem_of_lookup. pose proof (lookup_lt_Some _ _ _ Hk).
    apply (heap_top h (length h) k); try done; lia. }
  assert (Hpre : exists h1, swap h 0 n = Ok h1 /\ length h1 = S n /\ h1 ≡ₚ h /\ hole 0 h1 n 0 /\ h1 !! n = Some x).
  { destruct n as [|n]; [|apply remove_tail; auto with lia].
    destruct (swap_Ok h 0 0) as (h1 & -> & Hp & Hl1 & Hl); [lia..|]. exists h1.
    split_and!; [done|lia|done| |by rewrite Hl]. split; intros; lia. }
  destruct Hpre as (h1 & -> & Hl1 & Hp1 & Hhole & Hx1). cbn [rbind].
  destruct (down_spec 0 h1 n 0) as (h2 & b & -> & Hp2 & Hk2 & _ & _ & Hh2); [lia..|done|]. cbn [rbind].
  assert (Hl2 : length h2 = S n) by (rewrite Hp2; done).
  destruct (pop_spec h2 n Hl2) as (y & Hy & -> & Hsplit).
  assert (y = x) as -> by (rewrite Hk2 in Hy by lia; congruence).
  assert (Hperm : x :: take n h2 ≡ₚ h)
    by (rewrite <- Hp1, <- Hp2; rewrite Hsplit at 2; by rewrite Permutation_app_comm).
  exists (take n h2). split_and!; [done|done| |].
  - apply pop_heap; [done|]. apply Hh2. intros H0; lia.
  - intros y Hyin. apply Htop. rewrite <- Hperm. by right.
Qed.

Lemma Fix_spec h0 h i x :
  is_heap h0 -> i < length h0 -> h = <[i := x]> h0 ->
  exists h', Fix Less h i = Ok h' /\ h' ≡ₚ h /\ is_heap h'.
Proof.
  intros Hh Hi ->. unfold Fix. rewrite length_insert.
  destruct (refix_spec (<[i := x]> h0) (length h0) i) as (h1 & b & h' & -> & E & Hp & Hh' & _);
    [rewrite length_insert; lia| |].
  { apply hole_replace with h0; [done|done|done|]. intros k _ Hne. by rewrite list_lookup_insert_ne. }
  cbn [rbind]. exists h'. split_and!; [done|done|].
  apply is_heap_perm with (<[i := x]> h0) (length h0); [done|apply length_insert|done].
Qed.
End order.

(** ** T[K,V] (heap.go, options.go) *)

(** A call of the callback: the two values that moved and where they are. *)
Definition call (V : Type) : Type := V * V * nat * nat.

Section kv.
Context {K V : Type} (ltb : K -> K -> bool).

(** [callback] is true when the heap was given one; [calls] are the calls made
    so far, the only way a callback can observe the heap. *)
Record T := MkT {
  Keys : list K;
  Vals : list V;
  max : bool;
  callback : bool;
  calls : list (call V);
}.

(** [options]: a nil slice is [None]; [sliceCap] only sets a capacity. *)
Record options := MkOptions {
  sliceCap : nat;
  keys : option (list K);
  vals : option (list V);
  ocallback : bool;
}.

Inductive Option_ :=
| WithSliceCap (n : nat)
| WithData (keys : list K) (vals : list V)
| WithCallback.

(** Applying one option. *)
Definition apply_option (o : options) (opt : Option_) : res options :=
  match opt with
  | WithSliceCap n => Ok (MkOptions n (keys o) (vals o) (ocallback o))
  | WithData ks vs =>
      if negb (length ks =? length vs) then Panic
      else Ok (MkOptions (sliceCap o) (Some ks) (Some vs) (ocallback o))
  | WithCallback => Ok (MkOptions (sliceCap o) (keys o) (vals o) true)
  end.

Fixpoint apply_options (o : options) (opts : list Option_) : res options :=
  match opts with
  | [] => Ok o
  | opt :: opts => let! o := apply_option o opt in apply_options o opts
  end.

Definition t_less (h : T) (i j : nat) : res bool :=
  let! ki := checked (Keys h !! i) in
  let! kj := checked (Keys h !! j) in
  Ok (if max h then ltb kj ki else ltb ki kj).

Definition t_swap (h : T) (i j : nat) : res T :=
  let! ks := swap (Keys h) i j in
  let! vs := swap (Vals h) i j in
  if callback h then
    let! iv := checked (vs !! i) in
    let! jv := checked (vs !! j) in
    Ok (MkT ks vs (max h) true (calls h ++ [(iv, jv, i, j)]))
  else Ok (MkT ks vs (max h) false (calls h)).

Fixpoint siftUp_loop (fuel : nat) (h : T) (i : nat) : res T :=
  match fuel with
  | 0 => NoFuel
  | S fuel =>
      let p := parent i in
      if p =? i then Ok h
      else
        let! lt := t_less h i p in
        if negb lt then Ok h
        else let! h := t_swap h p i in siftUp_loop fuel h p
  end.

Definition siftUp (h : T) (from : nat) : res T := siftUp_loop (S from) h from.

Fixpoint siftDown_loop (fuel : nat) (h : T) (p limit : nat) : res (T * nat) :=
  match fuel with
  | 0 => NoFuel
  | S fuel =>
      let c := 2 * p + 1 in
      if limit <=? c then Ok (h, p)
      else
        let r := c + 1 in
        let! rt := if r <? limit then t_less h r c else Ok false in
        let c := if rt then r else c in
        let! lt := t_less h c p in
        if negb lt then Ok (h, p)
        else let! h := t_swap h p c in siftDown_loop fuel h c limit
  end.

Definition siftDown (h : T) (parent limit : nat) : res (T * bool) :=
  let! (h, p) := siftDown_loop (S limit) h parent limit in Ok (h, parent <? p).

Fixpoint heapify_loop (k : nat) (h : T) (n : nat) : res T :=
  match k with
  | 0 => Ok h
  | S i => let! (h, _) := siftDown h i n in heapify_loop i h n
  end.

Definition heapify (h : T) : res T := heapify_loop (length (Keys h) / 2) h (length (Keys h)).

Definition newT (maxv : bool) (opts : list Option_) : res T :=
  let! o := apply_options (MkOptions 0 None None false) opts in
  match keys o, vals o with
  | Some ks, Some vs => heapify (MkT ks vs maxv (ocallback o) [])
  | _, _ => Ok (MkT [] [] maxv (ocallback o) [])
  end.

Definition NewMin (opts : list Option_) : res T := newT false opts.
Definition NewMax (opts : list Option_) : res T := newT true opts.

Definition t_Push (h : T) (k : K) (v : V) : res T :=
  let h := MkT (Keys h ++ [k]) (Vals h ++ [v]) (max h) (callback h) (calls h) in
  siftUp h (length (Keys h) - 1).

(** [h.Keys, h.Vals = h.Keys[:n], h.Vals[:n]]. *)
Definition t_truncate (h : T) (n : nat) : res T :=
  if (n <=? length (Keys h)) && (n <=? length (Vals h))
  then Ok (MkT (take n (Keys h)) (take n (Vals h)) (max h) (callback h) (calls h))
  else Panic.

Definition t_Pop (h : T) : res (T * (K * V)) :=
  let! k := checked (Keys h !! 0) in
  let! v := checked (Vals h !! 0) in
  let n := length (Keys h) - 1 in
  let! h := t_swap h 0 n in
  let! (h, _) := siftDown h 0 n in
  let! h := t_truncate h n in
  Ok (h, (k, v)).

Definition t_Remove (h : T) (i : nat) : res (T * (K * V)) :=
  match length (Keys h) with
  | 0 => Panic
  | S n =>
      let! h :=
        if negb (n =? i) then
          let! h := t_swap h i n in
          let! (h, moved) := siftDown h i n in
          if moved then Ok h else siftUp h i
        else Ok h in
      let! k := checked (Keys h !! n) in
      let! v := checked (Vals h !! n) in
      let! h := t_truncate h n in
      Ok (h, (k, v))
  end.

Definition t_Update (h : T) (pos : nat) (k : K) (v : V) : res T :=
  let! _ := checked (Keys h !! pos) in
  let! _ := checked (Vals h !! pos) in
  let h := MkT (<[pos := k]> (Keys h)) (<[pos := v]> (Vals h)) (max h) (callback h) (calls h) in
  let! (h, moved) := siftDown h pos (length (Keys h)) in
  if moved then Ok h else siftUp h pos.
End kv.
Arguments T : clear implicits.
Arguments options : clear implicits.
Arguments Option_ : clear implicits.

(** ** T refines Heap over pairs *)

Section refine.
Context {K V : Type} (ltb : K -> K -> bool).
Implicit Types t : T K V.

(** The elements of a [T]: its keys zipped with its values. *)
Definition view t : list (K * V) := zip (Keys t) (Vals t).

Definition t_ok t : Prop := length (Keys t) = length (Vals t).

(** The order a heap keeps on its pairs. *)
Definition kless (mx : bool) (x y : K * V) : bool := if mx then ltb y.1 x.1 else ltb x.1 y.1.

#[export] Instance kless_weak mx : StrictWeak ltb -> StrictWeak (kless mx).
Proof.
  intros H. unfold kless. destruct mx.
  - exact (on_weak fst (flip ltb) (flip_weak ltb H)).
  - exact (on_weak fst ltb H).
Qed.

(** A client's table of positions gives every value its index. *)
Definition accurate (pos : V -> nat) (vs : list V) : Prop :=
  forall i v, vs !! i = Some v -> pos v = i.

(** The table after the assignments a callback makes: [pos[iv] = i; pos[jv] = j]. *)
Definition apply_call `{EqDecision V} (pos : V -> nat) (c : call V) : V -> nat :=
  let '(iv, jv, i, j) := c in
  fun v => if decide (v = jv) then j else if decide (v = iv) then i else pos v.

Definition replay `{EqDecision V} (pos : V -> nat) (l : list (call V)) : V -> nat :=
  foldl apply_call pos l.

Context `{EqDecision V}.

(** From [t] to [t'] by sifting: the fixed fields are kept and the calls made in
    between keep a client's table accurate. *)
Record moved_to t t' : Prop := {
  mt_ok : t_ok t';
  mt_max : max t' = max t;
  mt_callback : callback t' = callback t;
  mt_calls : exists l, calls t' = calls t ++ l /\
    (callback t = true -> forall pos, accurate pos (Vals t) -> accurate (replay pos l) (Vals t'));
}.

Lemma moved_refl t : t_ok t -> moved_to t t.
Proof. intros. split; try done. exists []. by rewrite app_nil_r. Qed.

Lemma moved_trans t1 t2 t3 : moved_to t1 t2 -> moved_to t2 t3 -> moved_to t1 t3.
Proof.
  intros [o1 m1 c1 (l1 & e1 & p1)] [o2 m2 c2 (l2 & e2 & p2)].
  split; [done|congruence|congruence|]. exists (l1 ++ l2). split.
  - rewrite e2, e1. by rewrite app_assoc.
  - intros Hc pos Hp. unfold replay in *. rewrite foldl_app. apply p2; [congruence|]. by apply p1.
Qed.

(** Lockstep of a run over pairs and a run over a [T]. *)
Definition sim {A B} (R : A -> B -> Prop) (r : res A) (rt : res B) : Prop :=
  match r, rt with
  | Ok a, Ok b => R a b
  | Panic, Panic | NoFuel, NoFuel => True
  | _, _ => False
  end.

Lemma sim_bind {A B A' B'} (R : A -> B -> Prop) (R' : A' -> B' -> Prop) r rt f g :
  sim R r rt -> (forall a b, R a b -> sim R' (f a) (g b)) -> sim R' (rbind r f) (rbind rt g).
Proof. destruct r, rt; cbn; auto; done. Qed.

Lemma sim_Ok {A B} (R : A -> B -> Prop) r rt a : sim R r rt -> r = Ok a -> exists b, rt = Ok b /\ R a b.
Proof. intros Hs ->. destruct rt; cbn in Hs; [eauto|done..]. Qed.

(** The states related to a given starting point. *)
Definition rel t0 (h : list (K * V)) t : Prop := view t = h /\ moved_to t0 t.

Lemma lookup_view t i :
  t_ok t ->
  (view t !! i = None /\ Keys t !! i = None /\ Vals t !! i = None) \/
  exists k v, view t !! i = Some (k, v) /\ Keys t !! i = Some k /\ Vals t !! i = Some v.
Proof.
  intros Hok. unfold view. rewrite lookup_zip_with.
  destruct (Keys t !! i) as [k|] eqn:Ek, (Vals t !! i) as [v|] eqn:Ev; cbn; eauto 10.
  - apply lookup_ge_None in Ev. apply lookup_lt_Some in Ek. unfold t_ok in Hok. lia.
  - apply lookup_ge_None in Ek. apply lookup_lt_Some in Ev. unfold t_ok in Hok. lia.
Qed.

Lemma sim_less t i j :
  t_ok t -> t_less ltb t i j = less (kless (max t)) (view t) i j.
Proof.
  intros Hok. unfold t_less, less.
  destruct (lookup_view t i Hok) as [(-> & -> & _)|(ki & vi & -> & -> & _)]; [done|].
  destruct (lookup_view t j Hok) as [(-> & -> & _)|(kj & vj & -> & -> & _)]; done.
Qed.

Lemma zip_insert (ks : list K) (vs : list V) i k v :
  zip (<[i := k]> ks) (<[i := v]> vs) = <[i := (k, v)]> (zip ks vs).
Proof. revert vs i. induction ks as [|k' ks IH]; intros [|v' vs] [|i]; cbn; f_equal; auto. Qed.

Lemma accurate_swap pos (vs : list V) i j vi vj :
  accurate pos vs -> vs !! i = Some vi -> vs !! j = Some vj ->
  accurate (apply_call pos (vj, vi, i, j)) (<[j := vi]> (<[i := vj]> vs)).
Proof.
  intros Hp Hi Hj k v Hk. cbn.
  assert (Hlen : i < length vs /\ j < length vs) by (split; by eapply lookup_lt_Some).
  destruct (decide (k = j)) as [->|Hkj].
  { rewrite list_lookup_insert_eq in Hk by (rewrite length_insert; lia). by simplify_eq; rewrite decide_True. }
  rewrite list_lookup_insert_ne in Hk by done. destruct (decide (k = i)) as [->|Hki].
  { rewrite list_lookup_insert_eq in Hk by lia. simplify_eq.
    destruct (decide (v = vi)) as [->|]; [|by rewrite decide_True].
    pose proof (Hp i vi Hi). pose proof (Hp j vi Hj). congruence. }
  rewrite list_lookup_insert_ne in Hk by done.
  rewrite (decide_False (P := v = vi)), (decide_False (P := v = vj)).
  - by apply Hp.
  - intros ->. apply Hp in Hk, Hj. congruence.
  - intros ->. apply Hp in Hk, Hi. congruence.
Qed.

Lemma swap_lookup {A} (h : list A) i j x y :
  h !! i = Some x -> h !! j = Some y ->
  swap h i j = Ok (<[j := x]> (<[i := y]> h)) /\
  <[j := x]> (<[i := y]> h) !! i = Some y /\ <[j := x]> (<[i := y]> h) !! j = Some x.
Proof.
  intros Hx Hy. unfold swap. rewrite Hx, Hy. pose proof (lookup_lt_Some _ _ _ Hx).
  pose proof (lookup_lt_Some _ _ _ Hy). split; [done|]. split.
  - destruct (decide (i = j)) as [->|].
    + rewrite list_lookup_insert_eq by (rewrite length_insert; lia). congruence.
    + rewrite list_lookup_insert_ne, list_lookup_insert_eq by (done || lia). done.
  - by rewrite list_lookup_insert_eq by (rewrite length_insert; lia).
Qed.

Lemma sim_swap t0 t i j :
  moved_to t0 t -> sim (rel t0) (swap (view t) i j) (t_swap t i j).
Proof.
  intros Hm. pose proof (mt_ok _ _ Hm) as Hok. unfold t_swap.
  destruct (lookup_view t i Hok) as [(Ev & Ek & _)|(ki & vi & Ei & Eki & Evi)].
  { unfold swap. rewrite Ev, Ek. done. }
  destruct (lookup_view t j Hok) as [(Ev & Ek & _)|(kj & vj & Ej & Ekj & Evj)].
  { unfold swap. rewrite Ei, Ev, Eki, Ek. done. }
  destruct (swap_lookup _ _ _ _ _ Ei Ej) as (-> & _).
  destruct (swap_lookup _ _ _ _ _ Eki Ekj) as (-> & _).
  destruct (swap_lookup _ _ _ _ _ Evi Evj) as (-> & E1 & E2). cbn [rbind].
  rewrite E1, E2. cbn [checked rbind].
  set (ks := <[j := ki]> (<[i := kj]> (Keys t))). set (vs := <[j := vi]> (<[i := vj]> (Vals t))).
  assert (Hview : zip ks vs = <[j := (ki, vi)]> (<[i := (kj, vj)]> (view t)))
    by (unfold ks, vs; by rewrite !zip_insert).
  assert (Hlen : length ks = length vs) by (unfold ks, vs; by rewrite !length_insert).
  destruct (callback t) eqn:Ec; (split; [exact Hview|]); apply (moved_trans t0 t); try done; split; try done; cbn.
  - exists [(vj, vi, i, j)]. split; [done|]. intros _ pos Hp. by apply accurate_swap.
  - exists []. rewrite app_nil_r. split; [done|]. congruence.
Qed.

Lemma sim_up t0 fuel : forall t i,
  moved_to t0 t ->
  sim (rel t0) (up_loop (kless (max t0)) fuel (view t) i) (siftUp_loop ltb fuel t i).
Proof.
  induction fuel as [|fuel IH]; intros t i Hm; [done|]. cbn [up_loop siftUp_loop].
  destruct (parent i =? i); [done|]. rewrite sim_less by apply Hm. rewrite (mt_max _ _ Hm).
  destruct (less _ (view t) i (parent i)) as [[]| |]; cbn [rbind negb]; try done.
  apply (sim_bind (rel t0)); [by apply sim_swap|]. intros h t' [<- Hm']. by apply IH.
Qed.

Lemma sim_down t0 fuel : forall t i n,
  moved_to t0 t ->
  sim (fun a b => rel t0 a.1 b.1 /\ a.2 = b.2)
    (down_loop (kless (max t0)) fuel (view t) i n) (siftDown_loop ltb fuel t i n).
Proof.
  induction fuel as [|fuel IH]; intros t i n Hm; [done|]. cbn [down_loop siftDown_loop].
  destruct (n <=? 2 * i + 1); [done|]. rewrite !sim_less by apply Hm. rewrite (mt_max _ _ Hm).
  destruct (if _ <? _ then _ else _) as [b| |]; cbn [rbind]; try done.
  rewrite sim_less by apply Hm. rewrite (mt_max _ _ Hm).
  destruct (less _ (view t) _ i) as [[]| |]; cbn [rbind negb]; try done.
  apply (sim_bind (rel t0)); [by apply sim_swap|]. intros h t' [<- Hm']. by apply IH.
Qed.

Lemma sim_siftDown t0 t i n :
  moved_to t0 t ->
  sim (fun a b => rel t0 a.1 b.1 /\ a.2 = b.2)
    (down (kless (max t0)) (view t) i n) (siftDown ltb t i n).
Proof.
  intros Hm. unfold down, siftDown. eapply sim_bind; [by apply sim_down|].
  intros [h p] [t' p'] [Hr E]. cbn in *. by subst.
Qed.

Lemma sim_siftUp t0 t i :
  moved_to t0 t -> sim (rel t0) (up (kless (max t0)) (view t) i) (siftUp ltb t i).
Proof. intros Hm. by apply sim_up. Qed.

(** ** The operations of T *)

Lemma swap_length {A} (h h' : list A) i j : swap h i j = Ok h' -> length h' = length h.
Proof. unfold swap. intros E. res_inv. by rewrite !length_insert. Qed.

Lemma down_length {A} (lt : A -> A -> bool) h i n h' b :
  down lt h i n = Ok (h', b) -> length h' = length h.
Proof.
  assert (Hl : forall fuel h i h' i', down_loop lt fuel h i n = Ok (h', i') -> length h' = length h).
  { clear. induction fuel as [|fuel IH]; intros h i h' i'; cbn [down_loop]; [done|].
    destruct (n <=? 2 * i + 1); [by intros [= -> ->]|].
    destruct (if _ <? _ then _ else _) as [rt| |]; cbn [rbind]; try done.
    destruct (less lt h _ i) as [[]| |]; cbn [rbind negb]; try done; [|by intros [= -> ->]].
    destruct (swap h i _) as [h1| |] eqn:E; cbn [rbind]; try done.
    intros ->%IH. by apply swap_length in E. }
  unfold down. intros E. res_inv. destruct v as [h1 i1]. injection E as <- <-. eauto.
Qed.

Lemma length_view t : t_ok t -> length (view t) = length (Keys t).
Proof. intros Hok. unfold view. rewrite length_zip_with, Nat.min_l; [done|]. unfold t_ok in Hok. lia. Qed.

Lemma view_take t n : zip (take n (Keys t)) (take n (Vals t)) = take n (view t).
Proof.
  unfold view. generalize (Keys t) (Vals t). clear. induction n as [|n IH]; intros ks vs; [done|].
  destruct ks as [|k ks], vs as [|v vs]; try done. cbn. f_equal. apply IH.
Qed.

Lemma t_truncate_spec t0 t n :
  moved_to t0 t -> n <= length (Keys t) ->
  exists t', t_truncate t n = Ok t' /\ rel t0 (take n (view t)) t'.
Proof.
  intros Hm Hn. pose proof (mt_ok _ _ Hm) as Hok. unfold t_ok in Hok. unfold t_truncate.
  rewrite (proj2 (Nat.leb_le n (length (Keys t)))), (proj2 (Nat.leb_le n (length (Vals t)))) by lia.
  eexists. split; [done|]. split; [apply view_take|].
  apply (moved_trans t0 t); [done|]. split; cbn; try done.
  - unfold t_ok. cbn. rewrite !length_take. lia.
  - exists []. rewrite app_nil_r. split; [done|]. intros _ pos Hp i v Hi.
    apply lookup_take_Some in Hi as [Hi _]. by apply Hp.
Qed.

(** [pop] on pairs and truncation of the two slices. *)
Lemma sim_pop t0 t n :
  moved_to t0 t -> length (view t) = S n ->
  sim (fun a b => rel t0 a.1 b) (pop (view t)) (t_truncate t n).
Proof.
  intros Hm Hlen. destruct (pop_spec (view t) n Hlen) as (x & _ & -> & _).
  destruct (t_truncate_spec t0 t n Hm) as (t' & -> & Hr); [|done].
  rewrite length_view in Hlen by apply Hm. lia.
Qed.

Lemma sim_Pop t :
  t_ok t -> sim (fun a b => rel t a.1 b.1) (Pop (kless (max t)) (view t)) (t_Pop ltb t).
Proof.
  intros Hok. pose proof (length_view t Hok) as Hlen. unfold Pop, t_Pop. rewrite Hlen.
  destruct (lookup_view t 0 Hok) as [(Ev & Ek & _)|(k & v & Ev & Ek & Evv)].
  { rewrite Ek. apply lookup_ge_None in Ek. by destruct (length (Keys t)); [|lia]. }
  rewrite Ek, Evv. cbn [checked rbind]. pose proof (lookup_lt_Some _ _ _ Ek).
  destruct (length (Keys t)) as [|n]; [lia|]. rewrite Nat.sub_succ, Nat.sub_0_r.
  pose proof (sim_swap t t 0 n (moved_refl t Hok)) as Hs.
  destruct (swap (view t) 0 n) as [h1| |] eqn:E1, (t_swap t 0 n) as [t1| |]; try done.
  destruct Hs as [Hv1 Hm1]. cbn [rbind]. rewrite <- Hv1.
  pose proof (sim_siftDown t t1 0 n Hm1) as Hd.
  destruct (down _ (view t1) 0 n) as [[h2 b]| |] eqn:E2, (siftDown ltb t1 0 n) as [[t2 b']| |]; try done.
  destruct Hd as [[Hv2 Hm2] _]. cbn [rbind fst snd] in *. rewrite <- Hv2.
  apply down_length in E2. apply swap_length in E1. rewrite <- Hv1 in E1.
  assert (Hl2 : length (view t2) = S n) by congruence.
  pose proof (sim_pop t t2 n Hm2 Hl2) as Hp.
  destruct (pop (view t2)), (t_truncate t2 n); try done.
Qed.

Lemma up_length {A} (lt : A -> A -> bool) h j h' : up lt h j = Ok h' -> length h' = length h.
Proof.
  unfold up. generalize (S j). intros fuel. revert h j.
  induction fuel as [|fuel IH]; intros h j; cbn [up_loop]; [done|].
  destruct (_ =? _); [by intros [= ->]|].
  destruct (less lt h _ _) as [[]| |]; cbn [rbind negb]; try done; [|by intros [= ->]].
  destruct (swap h _ _) as [h1| |] eqn:E; cbn [rbind]; try done.
  intros ->%IH. by apply swap_length in E.
Qed.

(** Reading the last pair and truncating. *)
Definition take_last (t : T K V) (n : nat) : res (T K V * (K * V)) :=
  let! k := checked (Keys t !! n) in
  let! v := checked (Vals t !! n) in
  let! t := t_truncate t n in
  Ok (t, (k, v)).

Lemma sim_take_last t0 t n :
  moved_to t0 t -> length (view t) = S n ->
  sim (fun a b => rel t0 a.1 b.1 /\ a.2 = b.2) (pop (view t)) (take_last t n).
Proof.
  intros Hm Hlen. destruct (pop_spec (view t) n Hlen) as (x & Hx & -> & _). unfold take_last.
  destruct (lookup_view t n (mt_ok _ _ Hm)) as [(Ev & _)|(k & v & Ev & -> & ->)]; [congruence|].
  cbn [checked rbind]. destruct (t_truncate_spec t0 t n Hm) as (t' & -> & Hr).
  { rewrite length_view in Hlen by apply Hm. lia. }
  cbn. split; [done|congruence].
Qed.

Lemma sim_Remove t i :
  t_ok t ->
  sim (fun a b => rel t a.1 b.1 /\ a.2 = b.2) (Remove (kless (max t)) (view t) i) (t_Remove ltb t i).
Proof.
  intros Hok. pose proof (length_view t Hok) as Hlen. unfold Remove, t_Remove. rewrite Hlen.
  destruct (length (Keys t)) as [|n]; [done|].
  destruct (negb (n =? i)); cbn [rbind].
  2: { exact (sim_take_last t t n (moved_refl t Hok) Hlen). }
  pose proof (sim_swap t t i n (moved_refl t Hok)) as Hs.
  destruct (swap (view t) i n) as [h1| |] eqn:E1, (t_swap t i n) as [t1| |]; try done.
  destruct Hs as [Hv1 Hm1]. cbn [rbind]. rewrite <- Hv1.
  pose proof (sim_siftDown t t1 i n Hm1) as Hd.
  destruct (down _ (view t1) i n) as [[h2 b]| |] eqn:E2, (siftDown ltb t1 i n) as [[t2 b']| |]; try done.
  destruct Hd as [[Hv2 Hm2] Eb]. cbn [rbind fst snd] in *. subst b'. rewrite <- Hv2.
  apply down_length in E2. apply swap_length in E1. rewrite <- Hv1 in E1.
  destruct b; cbn [rbind].
  { exact (sim_take_last t t2 n Hm2 ltac:(congruence)). }
  pose proof (sim_siftUp t t2 i Hm2) as Hu.
  destruct (up _ (view t2) i) as [h3| |] eqn:E3, (siftUp ltb t2 i) as [t3| |]; try done.
  destruct Hu as [Hv3 Hm3]. cbn [rbind]. rewrite <- Hv3. apply up_length in E3.
  exact (sim_take_last t t3 n Hm3 ltac:(congruence)).
Qed.

Lemma sim_Fix t i :
  t_ok t ->
  sim (rel t) (Fix (kless (max t)) (view t) i)
    (let! (h, moved) := siftDown ltb t i (length (Keys t)) in if moved then Ok h else siftUp ltb h i).
Proof.
  intros Hok. unfold Fix. rewrite (length_view t Hok).
  eapply sim_bind; [apply sim_siftDown; by apply moved_refl|].
  intros [h b] [t' b'] [[Hv Hm] E]. cbn in *. subst. destruct b'; [done|]. by apply sim_siftUp.
Qed.

Lemma sim_init_loop t0 n k : forall t,
  moved_to t0 t ->
  sim (rel t0) (init_loop (kless (max t0)) k (view t) n) (heapify_loop ltb k t n).
Proof.
  induction k as [|i IH]; intros t Hm; [done|]. cbn [init_loop heapify_loop].
  eapply sim_bind; [by apply sim_siftDown|]. intros [h b] [t' b'] [Hr E]. cbn in *.
  destruct Hr as [<- Hm']. by apply IH.
Qed.

Lemma sim_heapify t :
  t_ok t -> sim (rel t) (Init (kless (max t)) (view t)) (heapify ltb t).
Proof.
  intros Hok. unfold Init, heapify. rewrite (length_view t Hok).
  apply sim_init_loop. by apply moved_refl.
Qed.

(** A well-formed heap: parallel slices in heap order. *)
Definition T_wf t : Prop := t_ok t /\ is_heap (kless (max t)) (view t).

Context `{!StrictWeak ltb}.

Lemma wf_moved t0 t : moved_to t0 t -> is_heap (kless (max t0)) (view t) -> T_wf t.
Proof. intros Hm Hh. split; [apply Hm|]. by rewrite (mt_max _ _ Hm). Qed.

(** The state [Push] sifts from: the new pair appended. *)
Definition appended t (k : K) (v : V) : T K V :=
  MkT (Keys t ++ [k]) (Vals t ++ [v]) (max t) (callback t) (calls t).

(** The state [Update] sifts from: the pair at [pos] replaced. *)
Definition replaced t (pos : nat) (k : K) (v : V) : T K V :=
  MkT (<[pos := k]> (Keys t)) (<[pos := v]> (Vals t)) (max t) (callback t) (calls t).

Lemma t_Push_spec t k v :
  T_wf t -> exists t', t_Push ltb t k v = Ok t' /\ T_wf t' /\ view t' ≡ₚ (k, v) :: view t /\
    moved_to (appended t k v) t'.
Proof.
  intros [Hok Hh]. destruct (Push_spec (kless (max t)) (view t) (k, v) Hh) as (h' & E & Hp & Hh').
  assert (Hok' : t_ok (appended t k v)) by (unfold t_ok in *; cbn; rewrite !length_app; cbn; lia).
  assert (Hv : view (appended t k v) = view t ++ [(k, v)]).
  { unfold view. cbn. by rewrite zip_with_app. }
  unfold Push in E. rewrite <- Hv in E.
  destruct (sim_Ok _ _ _ _ (sim_siftUp _ (appended t k v) (length (view (appended t k v)) - 1)
    (moved_refl _ Hok')) E) as (t' & E' & Hv' & Hm').
  exists t'. split_and!; [|apply (wf_moved _ _ Hm'); by rewrite Hv'|by rewrite Hv'|done].
  unfold t_Push. fold (appended t k v). rewrite (length_view _ Hok') in E'. exact E'.
Qed.

Lemma t_Pop_spec t k v :
  T_wf t -> Keys t !! 0 = Some k -> Vals t !! 0 = Some v ->
  exists t', t_Pop ltb t = Ok (t', (k, v)) /\ T_wf t' /\ (k, v) :: view t' ≡ₚ view t /\
    moved_to t t' /\ forall y, y ∈ view t' -> kless (max t) y (k, v) = false.
Proof.
  intros [Hok Hh] Hk Hv.
  destruct (lookup_view t 0 Hok) as [(_ & ? & _)|(k' & v' & Ev & ? & ?)]; [congruence|].
  assert (k' = k) as -> by congruence. assert (v' = v) as -> by congruence.
  destruct (Pop_spec (kless (max t)) (view t) (k, v) Hh Ev) as (h' & E & Hp & Hh' & Hmin).
  destruct (sim_Ok _ _ _ _ (sim_Pop t Hok) E) as ([t' [k1 v1]] & E' & Hv' & Hm'). cbn in *.
  assert ((k1, v1) = (k, v)) as Ekv.
  { unfold t_Pop in E'. rewrite Hk, Hv in E'. cbn in E'.
    destruct (t_swap t 0 _) as [t1| |]; cbn in E'; try done.
    destruct (siftDown ltb t1 0 _) as [[t2 b]| |]; cbn in E'; try done.
    destruct (t_truncate t2 _); cbn in E'; try done. by injection E' as _ -> ->. }
  rewrite Ekv in E'. exists t'. rewrite Hv'.
  split_and!; try done. apply (wf_moved _ _ Hm'). by rewrite Hv'.
Qed.

Lemma t_Remove_spec t i k v :
  T_wf t -> Keys t !! i = Some k -> Vals t !! i = Some v ->
  exists t', t_Remove ltb t i = Ok (t', (k, v)) /\ T_wf t' /\ (k, v) :: view t' ≡ₚ view t /\ moved_to t t'.
Proof.
  intros [Hok Hh] Hk Hv.
  destruct (lookup_view t i Hok) as [(_ & ? & _)|(k' & v' & Ev & ? & ?)]; [congruence|].
  assert (k' = k) as -> by congruence. assert (v' = v) as -> by congruence.
  destruct (Remove_spec (kless (max t)) (view t) i (k, v) Hh Ev) as (h' & E & Hp & Hh').
  destruct (sim_Ok _ _ _ _ (sim_Remove t i Hok) E) as ([t' kv] & E' & [Hv' Hm'] & Ekv). cbn in *.
  subst kv. exists t'. rewrite Hv'. split_and!; try done. apply (wf_moved _ _ Hm'). by rewrite Hv'.
Qed.

Lemma t_Update_spec t pos k v :
  T_wf t -> pos < length (Keys t) ->
  exists t', t_Update ltb t pos k v = Ok t' /\ T_wf t' /\ view t' ≡ₚ <[pos := (k, v)]> (view t) /\
    moved_to (replaced t pos k v) t'.
Proof.
  intros [Hok Hh] Hpos.
  assert (Hok' : t_ok (replaced t pos k v)) by (unfold t_ok in *; cbn; by rewrite !length_insert).
  assert (Hv : view (replaced t pos k v) = <[pos := (k, v)]> (view t)) by apply zip_insert.
  destruct (Fix_spec (kless (max t)) (view t) (view (replaced t pos k v)) pos (k, v) Hh) as (h' & E & Hp & Hh');
    [by rewrite length_view|exact Hv|].
  destruct (sim_Ok _ _ _ _ (sim_Fix (replaced t pos k v) pos Hok') E) as (t' & E' & Hv' & Hm').
  exists t'. split_and!; [|apply (wf_moved _ _ Hm'); by rewrite Hv'|by rewrite Hv', <- Hv|done].
  unfold t_Update. destruct (lookup_view t pos Hok) as [(_ & Ek & _)|(k' & v' & _ & -> & ->)].
  { apply lookup_ge_None in Ek. lia. }
  exact E'.
Qed.

Lemma heapify_spec t :
  t_ok t -> exists t', heapify ltb t = Ok t' /\ T_wf t' /\ view t' ≡ₚ view t /\ moved_to t t'.
Proof.
  intros Hok. destruct (Init_spec (kless (max t)) (view t)) as (h' & E & Hp & Hh').
  destruct (sim_Ok _ _ _ _ (sim_heapify t Hok) E) as (t' & E' & Hv' & Hm').
  exists t'. rewrite Hv'. split_and!; try done. apply (wf_moved _ _ Hm'). by rewrite Hv'.
Qed.
End refine.

Lemma newT_data {K V} (ltb : K -> K -> bool) mx (ks : list K) (vs : list V) :
  newT ltb mx [WithData ks vs] =
    if length ks =? length vs then heapify ltb (MkT ks vs mx false []) else Panic.
Proof. unfold newT. cbn. by destruct (length ks =? length vs). Qed.

(** ** Properties *)

(** The generic heap.  For any strict weak order, [Init] orders any slice,
    and on a heap every operation terminates without a panic exactly where the
    index exists, keeps the heap order and the multiset of elements, [Pop]
    returns an element no other is less than, [Remove] the one at its index,
    and [Fix] restores the order after one element was replaced. *)
Theorem Heap_operations {A} (Less : A -> A -> bool) (Horder : StrictWeak Less) :
  (forall l, exists h, Init Less l = Ok h /\ h ≡ₚ l /\ is_heap Less h) /\
  forall h, is_heap Less h ->
    (forall x, exists h', Push Less h x = Ok h' /\ h' ≡ₚ x :: h /\ is_heap Less h') /\
    (if decide (h = []) then Pop Less h = Panic
     else exists x h', Pop Less h = Ok (h', x) /\ x :: h' ≡ₚ h /\ is_heap Less h' /\
       forall y, y ∈ h' -> Less y x = false) /\
    (forall i, match h !! i with
       | None => Remove Less h i = Panic
       | Some x => exists h', Remove Less h i = Ok (h', x) /\ x :: h' ≡ₚ h /\ is_heap Less h'
       end) /\
    (forall i x, i < length h ->
       exists h', Fix Less (<[i := x]> h) i = Ok h' /\ h' ≡ₚ <[i := x]> h /\ is_heap Less h').
Proof.
  split; [apply Init_spec; apply _|]. intros h Hh. split_and!.
  - intros x. by apply Push_spec.
  - destruct (decide (h = [])) as [->|Hne]; [done|]. destruct h as [|x h]; [done|].
    destruct (Pop_spec Less (x :: h) x Hh eq_refl) as (h' & ? & ? & ? & ?). eauto 10.
  - intros i. destruct (h !! i) as [x|] eqn:E; [by apply Remove_spec|].
    unfold Remove. apply lookup_ge_None in E. destruct (length h) as [|n] eqn:Hl; [done|].
    rewrite (proj2 (Nat.eqb_neq n i)) by lia. cbn [negb]. unfold swap.
    by rewrite (proj2 (lookup_ge_None h i)) by lia.
  - intros i x Hi. by apply (Fix_spec Less h _ i x).
Qed.

Lemma Heap_operations_witness :
  StrictWeak Z.ltb /\
  (exists h, Init Z.ltb [5%Z; 3%Z; 4%Z; 1%Z] = Ok h /\ h ≡ₚ [5%Z; 3%Z; 4%Z; 1%Z] /\ is_heap Z.ltb h) /\
  Pop Z.ltb [1%Z; 3%Z; 4%Z; 5%Z] = Ok ([3%Z; 5%Z; 4%Z], 1%Z).
Proof.
  split; [apply _|]. split; [|vm_compute; reflexivity].
  exact (proj1 (Heap_operations Z.ltb Z_ltb_weak) [5%Z; 3%Z; 4%Z; 1%Z]).
Defined.

(** C13: the keyed heap.  [NewMin] and [NewMax] over parallel slices give a heap
    of the zipped pairs; on such a heap [Push], [Pop], [Remove] and [Update]
    succeed wherever the element exists, keep the slices parallel and in heap
    order, and change the multiset of pairs by exactly the pair added, removed
    or replaced; [Pop] returns a pair whose key is extreme. *)
Theorem T_operations {K V} `{EqDecision V} (ltb : K -> K -> bool) (Horder : StrictWeak ltb) :
  (forall mx (ks : list K) (vs : list V), length ks = length vs ->
     exists t, newT ltb mx [WithData ks vs] = Ok t /\ T_wf ltb t /\ max t = mx /\ view t ≡ₚ zip ks vs) /\
  (forall mx (ks : list K) (vs : list V), length ks <> length vs -> newT ltb mx [WithData ks vs] = Panic) /\
  forall t : T K V, T_wf ltb t ->
    (forall k v, exists t', t_Push ltb t k v = Ok t' /\ T_wf ltb t' /\ view t' ≡ₚ (k, v) :: view t) /\
    (forall k v, view t !! 0 = Some (k, v) ->
       exists t', t_Pop ltb t = Ok (t', (k, v)) /\ T_wf ltb t' /\ (k, v) :: view t' ≡ₚ view t /\
         forall y, y ∈ view t' -> kless ltb (max t) y (k, v) = false) /\
    (forall i k v, view t !! i = Some (k, v) ->
       exists t', t_Remove ltb t i = Ok (t', (k, v)) /\ T_wf ltb t' /\ (k, v) :: view t' ≡ₚ view t) /\
    (forall i k v, i < length (view t) ->
       exists t', t_Update ltb t i k v = Ok t' /\ T_wf ltb t' /\ view t' ≡ₚ <[i := (k, v)]> (view t)) /\
    (view t = [] -> t_Pop ltb t = Panic).
Proof.
  split_and!.
  - intros mx ks vs Hlen. rewrite newT_data, (proj2 (Nat.eqb_eq _ _) Hlen).
    destruct (heapify_spec ltb (MkT ks vs mx false []) Hlen) as (t & E & Hwf & Hp & Hm).
    exists t. split_and!; try done. apply Hm.
  - intros mx ks vs Hlen. by rewrite newT_data, (proj2 (Nat.eqb_neq _ _) Hlen).
  - intros t Hwf. pose proof Hwf as [Hok _].
    assert (Hview : forall i k v, view t !! i = Some (k, v) -> Keys t !! i = Some k /\ Vals t !! i = Some v).
    { intros i k v E. destruct (lookup_view t i Hok) as [(? & _)|(? & ? & E' & ? & ?)]; [congruence|].
      rewrite E in E'. by injection E' as <- <-. }
    split_and!.
    + intros k v. destruct (t_Push_spec ltb t k v Hwf) as (t' & ? & ? & ? & _). eauto.
    + intros k v [? ?]%Hview. destruct (t_Pop_spec ltb t k v) as (t' & ? & ? & ? & _ & ?); eauto 10.
    + intros i k v [? ?]%Hview. destruct (t_Remove_spec ltb t i k v) as (t' & ? & ? & ? & _); eauto 10.
    + intros i k v Hi. rewrite length_view in Hi by done.
      destruct (t_Update_spec ltb t i k v Hwf Hi) as (t' & ? & ? & ? & _). eauto.
    + intros Hnil. pose proof (length_view t Hok) as Hl. rewrite Hnil in Hl. unfold t_Pop.
      destruct (Keys t); [done|discriminate].
Qed.

Lemma T_operations_witness :
  StrictWeak Z.ltb /\
  exists t, newT (V := nat) Z.ltb true [WithData [3%Z; 9%Z; 4%Z] [0; 1; 2]] = Ok t /\ T_wf Z.ltb t.
Proof.
  split; [apply _|].
  destruct (proj1 (T_operations (V := nat) Z.ltb Z_ltb_weak) true [3%Z; 9%Z; 4%Z] [0; 1; 2] eq_refl)
    as (t & E & Hwf & _).
  exists t. split; [exact E|exact Hwf].
Defined.

(** The pairs popped until the heap of [n] elements is empty. *)
Fixpoint pop_all {K V} (ltb : K -> K -> bool) (n : nat) (t : T K V) : res (list (K * V)) :=
  match n with
  | 0 => Ok []
  | S n => let! (t, kv) := t_Pop ltb t in let! l := pop_all ltb n t in Ok (kv :: l)
  end.

Lemma pop_all_spec {K V} `{EqDecision V} (ltb : K -> K -> bool) `{!StrictWeak ltb} n : forall t : T K V,
  T_wf ltb t -> length (view t) = n ->
  exists l, pop_all ltb n t = Ok l /\ l ≡ₚ view t /\
    StronglySorted (fun x y => kless ltb (max t) y x = false) l.
Proof.
  induction n as [|n IH]; intros t Hwf Hn.
  - exists []. split_and!; [done| |constructor]. by rewrite (nil_length_inv _ Hn).
  - pose proof Hwf as [Hok _]. destruct (lookup_view t 0 Hok) as [(E & _)|(k & v & _ & Ek & Ev)].
    { apply lookup_ge_None in E. lia. }
    destruct (t_Pop_spec ltb t k v Hwf Ek Ev) as (t' & E & Hwf' & Hp & Hm & Hmin).
    cbn [pop_all]. rewrite E. cbn [rbind].
    assert (Hn' : length (view t') = n) by (apply Permutation_length in Hp; cbn in Hp; lia).
    destruct (IH t' Hwf' Hn') as (l & -> & Hpl & Hs). cbn [rbind]. rewrite (mt_max _ _ Hm) in Hs.
    exists ((k, v) :: l). split_and!; [done|by rewrite Hpl|]. constructor; [done|].
    apply Forall_forall. intros y Hy. apply Hmin. by rewrite <- Hpl.
Qed.

(** Heap sort.  Building a heap from any parallel keys and values and
    popping it empty returns all the pairs, sorted by key: ascending for
    [NewMin], descending for [NewMax]. *)
Theorem heap_sorts {K V} `{EqDecision V} (ltb : K -> K -> bool) (Horder : StrictWeak ltb)
    (mx : bool) (ks : list K) (vs : list V) (Hlen : length ks = length vs) :
  exists t l, newT ltb mx [WithData ks vs] = Ok t /\ pop_all ltb (length ks) t = Ok l /\
    l ≡ₚ zip ks vs /\ StronglySorted (fun x y => kless ltb mx y x = false) l.
Proof.
  rewrite newT_data, (proj2 (Nat.eqb_eq _ _) Hlen).
  destruct (heapify_spec ltb (MkT ks vs mx false []) Hlen) as (t & E & Hwf & Hp & Hm).
  pose proof (mt_max _ _ Hm) as Emx. cbn in Emx. rewrite E, <- Emx.
  assert (Hl : length (view t) = length ks).
  { rewrite (Permutation_length Hp). by rewrite (length_view (MkT ks vs mx false [])). }
  destruct (pop_all_spec ltb (length ks) t Hwf Hl) as (l & El & Hpl & Hs).
  exists t, l. split_and!; try done. by rewrite Hpl, Hp.
Qed.

Lemma heap_sorts_witness :
  length [3%Z; 9%Z; 4%Z] = length [0; 1; 2] /\
  exists t l, newT Z.ltb false [WithData [3%Z; 9%Z; 4%Z] [0; 1; 2]] = Ok t /\
    pop_all Z.ltb 3 t = Ok l /\ l = [(3%Z, 0); (4%Z, 2); (9%Z, 1)].
Proof.
  split; [reflexivity|].
  destruct (heap_sorts (V := nat) Z.ltb Z_ltb_weak false [3%Z; 9%Z; 4%Z] [0; 1; 2] eq_refl)
    as (t & l & E & El & _).
  exists t, l. split; [exact E|]. split; [exact El|].
  vm_compute in E. injection E as <-. vm_compute in El. injection El as <-. reflexivity.
Defined.

(** The callback is enough to track positions.  If a client's table maps
    every value to its index and applies [pos[iv] = i; pos[jv] = j] for each
    call it receives, the table is again exact after [Pop], [Remove] and
    [Update] (which stores the same value with a new key), and after [Push] of
    a new value entered at the end. *)
Theorem callback_tracks_positions {K V} `{EqDecision V} (ltb : K -> K -> bool) (Horder : StrictWeak ltb)
    (t : T K V) (pos : V -> nat)
    (Hwf : T_wf ltb t) (Hcb : callback t = true) (Hpos : accurate pos (Vals t)) :
  (forall k v, v ∉ Vals t -> exists t' l, t_Push ltb t k v = Ok t' /\ calls t' = calls t ++ l /\
     accurate (replay (fun w => if decide (w = v) then length (Vals t) else pos w) l) (Vals t')) /\
  (view t <> [] -> exists t' l kv, t_Pop ltb t = Ok (t', kv) /\ calls t' = calls t ++ l /\
     accurate (replay pos l) (Vals t')) /\
  (forall i, i < length (view t) -> exists t' l kv, t_Remove ltb t i = Ok (t', kv) /\ calls t' = calls t ++ l /\
     accurate (replay pos l) (Vals t')) /\
  (forall i k v, Vals t !! i = Some v -> exists t' l, t_Update ltb t i k v = Ok t' /\ calls t' = calls t ++ l /\
     accurate (replay pos l) (Vals t')).
Proof.
  pose proof Hwf as [Hok _].
  assert (Hin : forall i, i < length (view t) -> exists k v, Keys t !! i = Some k /\ Vals t !! i = Some v).
  { intros i Hi. destruct (lookup_view t i Hok) as [(E & _)|(k & v & _ & ? & ?)]; [|eauto].
    apply lookup_ge_None in E. lia. }
  split_and!.
  - intros k v Hv. destruct (t_Push_spec ltb t k v Hwf) as (t' & E & _ & _ & Hm).
    destruct (mt_calls _ _ Hm) as (l & El & Ht). exists t', l. split_and!; [done|done|].
    apply Ht; [done|]. cbn. intros i w Hw. destruct (decide (i < length (Vals t))) as [Hi|Hi].
    + rewrite lookup_app_l in Hw by done. rewrite decide_False; [by apply Hpos|].
      intros ->. apply Hv. by eapply list_elem_of_lookup_2.
    + rewrite lookup_app_r in Hw by lia.
      apply list_lookup_singleton_Some in Hw as [? <-]. rewrite decide_True by done. lia.
  - intros Hne. destruct (Hin 0) as (k & v & Hk & Hv); [destruct (view t); [done|cbn; lia]|].
    destruct (t_Pop_spec ltb t k v Hwf Hk Hv) as (t' & E & _ & _ & Hm & _).
    destruct (mt_calls _ _ Hm) as (l & El & Ht). exists t', l, (k, v). split_and!; [done|done|by apply Ht].
  - intros i Hi. destruct (Hin i Hi) as (k & v & Hk & Hv).
    destruct (t_Remove_spec ltb t i k v Hwf Hk Hv) as (t' & E & _ & _ & Hm).
    destruct (mt_calls _ _ Hm) as (l & El & Ht). exists t', l, (k, v). split_and!; [done|done|by apply Ht].
  - intros i k v Hv. pose proof (lookup_lt_Some _ _ _ Hv) as Hi. unfold t_ok in Hok.
    destruct (t_Update_spec ltb t i k v Hwf) as (t' & E & _ & _ & Hm); [lia|].
    destruct (mt_calls _ _ Hm) as (l & El & Ht). exists t', l. split_and!; [done|done|].
    apply Ht; [done|]. cbn. by rewrite list_insert_id.
Qed.

Lemma callback_tracks_positions_witness :
  let t := MkT [1%Z; 5%Z; 3%Z] [10; 11; 12] false true [] in
  T_wf Z.ltb t /\ callback t = true /\ accurate (fun v => v - 10) (Vals t) /\
  exists t' l kv, t_Pop Z.ltb t = Ok (t', kv) /\ calls t' = l /\
    accurate (replay (fun v => v - 10) l) (Vals t').
Proof.
  cbn zeta. set (t := MkT [1%Z; 5%Z; 3%Z] [10; 11; 12] false true []).
  assert (Hwf : T_wf Z.ltb t).
  { split; [reflexivity|]. intros c Hc _ x y Hx Hy. cbn in Hc.
    destruct c as [|[|[|c]]]; [lia| | |lia]; vm_compute in Hx, Hy; injection Hx as <-;
      injection Hy as <-; reflexivity. }
  assert (Hacc : accurate (fun v => v - 10) (Vals t)).
  { intros i v Hi. destruct i as [|[|[|i]]]; cbn in Hi; simplify_eq; reflexivity. }
  split; [exact Hwf|]. split; [reflexivity|]. split; [exact Hacc|].
  destruct (callback_tracks_positions Z.ltb Z_ltb_weak t _ Hwf eq_refl Hacc) as (_ & Hpop & _).
  destruct Hpop as (t' & l & kv & E & El & Ha); [discriminate|].
  exists t', l, kv. split; [exact E|]. split; [exact El|exact Ha].
Defined.
