(* ===== verification/MinMax.v ===== *)
(** * The min-max heap (algo/container/heap/minmax.go)

    [MinMax] keeps a symmetric min-max heap in two parallel slices whose first
    slot is a dummy.  Slots [2g+1] and [2g+2] are the ends of an interval, and
    the intervals of [2g+1] and [2g+2] lie within that of [g]: the left ends are
    a min-heap, the right ends a max-heap.  [ltb] is the [<] of the key type;
    the other comparisons are derived from it, as they are for Go's ordered
    types apart from NaN. *)

From stdpp Require Import base list option numbers gmap sorting.
From Stdlib Require Import ZArith Lia ZifyNat.
From S2P Require Import Prelude.
From S2P Require Heap.

Open Scope list_scope.
Open Scope go_scope.

Section minmax.
Context {K V : Type} (ltb : K -> K -> bool).

Record MinMax := MkMinMax {
  Keys : list K;
  Vals : list V;
  callback : bool;                    (* a callback is set *)
  calls : list (Heap.call V);         (* its calls so far *)
}.

Implicit Types h : MinMax.

Definition gtb (a b : K) : bool := ltb b a.
Definition leb (a b : K) : bool := negb (ltb b a).
Definition geb (a b : K) : bool := negb (ltb a b).

Definition key (h : MinMax) (i : nat) : res K := checked (Keys h !! i).

(** [h.Keys[i] op h.Keys[j]]. *)
Definition cmp (op : K -> K -> bool) h (i j : nat) : res bool :=
  let! a := key h i in let! b := key h j in Ok (op a b).

(** [cond && h.Keys[i] op h.Keys[j]]. *)
Definition and_cmp (cond : bool) (op : K -> K -> bool) h (i j : nat) : res bool :=
  if cond then cmp op h i j else Ok false.

Definition swap h (i j : nat) : res MinMax :=
  let! ks := Heap.swap (Keys h) i j in
  let! vs := Heap.swap (Vals h) i j in
  if callback h then
    let! iv := checked (vs !! i) in
    let! jv := checked (vs !! j) in
    Ok (MkMinMax ks vs true (calls h ++ [(iv, jv, i, j)]))
  else Ok (MkMinMax ks vs false (calls h)).

(** Go's [(i - 3) / 4] truncates: it is 0 for the first three slots, never
    negative, so that the test of [siftUp] against 0 never ends its loop. *)
Fixpoint siftUp_loop (fuel : nat) h (i : nat) : res MinMax :=
  match fuel with
  | 0 => NoFuel
  | S fuel =>
      let gp := (i - 3) / 4 in
      let lnode := 2 * gp + 1 in
      let rnode := lnode + 1 in
      let! lt := cmp ltb h i lnode in
      if lt then let! h := swap h lnode i in siftUp_loop fuel h lnode
      else
        let! gt := cmp gtb h i rnode in
        if gt then let! h := swap h rnode i in siftUp_loop fuel h rnode
        else Ok h
  end.

Definition siftUp h (i : nat) : res MinMax := siftUp_loop (S (S i)) h i.

(** The heap and the slot the key has come to. *)
Fixpoint siftDownMin_loop (fuel : nat) h (i last : nat) : res (MinMax * nat) :=
  match fuel with
  | 0 => NoFuel
  | S fuel =>
      let minMinTree := 2 * i + 1 in
      if last <? minMinTree then Ok (h, i)
      else
        let maxMinTree := minMinTree + 1 in
        let maxMaxTree := minMinTree + 3 in
        let! le := and_cmp ((maxMinTree <=? last) && (maxMaxTree <=? last)) leb h maxMaxTree maxMinTree in
        let maxIdx := if le then maxMaxTree else maxMinTree in
        let! gt := and_cmp (maxMinTree <=? last) gtb h i maxIdx in
        if gt then let! h := swap h i maxIdx in siftDownMin_loop fuel h i last
        else
          let minMaxTree := minMinTree + 2 in
          let! le := and_cmp (minMaxTree <=? last) leb h minMaxTree minMinTree in
          let minIdx := if le then minMaxTree else minMinTree in
          let! lt := cmp ltb h minIdx i in
          if lt then let! h := swap h i minIdx in siftDownMin_loop fuel h minIdx last
          else Ok (h, i)
  end.

(** Two rounds for each level suffice. *)
Definition siftDownMin h (i last : nat) : res (MinMax * bool) :=
  let! (h, j) := siftDownMin_loop (2 * (last + 2)) h i last in Ok (h, i <? j).

Fixpoint siftDownMax_loop (fuel : nat) h (i last : nat) : res (MinMax * nat) :=
  match fuel with
  | 0 => NoFuel
  | S fuel =>
      let minMinTree := (2 * Z.of_nat i - 1)%Z in
      if (Z.of_nat last <? minMinTree)%Z || (minMinTree <? 0)%Z then Ok (h, i)
      else
        let minMinTree := Z.to_nat minMinTree in
        let minMaxTree := minMinTree + 2 in
        let! ge := and_cmp (minMaxTree <=? last) geb h minMaxTree minMinTree in
        let minIdx := if ge then minMaxTree else minMinTree in
        let! lt := cmp ltb h i minIdx in
        if lt then let! h := swap h i minIdx in siftDownMax_loop fuel h i last
        else
          let maxIdx := 2 * i in
          if last <? maxIdx then Ok (h, i)
          else
            let maxMaxTree := maxIdx + 2 in
            let! gt := and_cmp (maxMaxTree <=? last) gtb h maxMaxTree maxIdx in
            let maxIdx := if gt then maxMaxTree else maxIdx in
            let! lt := cmp ltb h i maxIdx in
            if lt then let! h := swap h i maxIdx in siftDownMax_loop fuel h maxIdx last
            else Ok (h, i)
  end.

Definition siftDownMax h (i last : nat) : res (MinMax * bool) :=
  let! (h, j) := siftDownMax_loop (2 * (last + 2)) h i last in Ok (h, i <? j).

Definition Len h : Z := (len (Keys h) - 1)%Z.

Definition adjustSiblings h (i : nat) : res (MinMax * nat) :=
  let! lt := and_cmp ((2 <=? i) && (i mod 2 =? 0)) ltb h i (i - 1) in
  if lt then let! h := swap h i (i - 1) in Ok (h, i - 1) else Ok (h, i).

Definition Push h (k : K) (v : V) : res MinMax :=
  let n := length (Keys h) in
  let h := MkMinMax (Keys h ++ [k]) (Vals h ++ [v]) (callback h) (calls h) in
  if n =? 1 then
    Ok (if callback h then MkMinMax (Keys h) (Vals h) true (calls h ++ [(v, v, 1, 1)]) else h)
  else let! (h, i) := adjustSiblings h n in siftUp h i.

Definition updateMin h (i last : nat) : res MinMax :=
  let! gt := and_cmp (i + 1 <=? last) gtb h i (i + 1) in
  if gt then
    let! h := swap h i (i + 1) in
    let! h := siftUp h (i + 1) in
    let! (h, _) := siftDownMin h i last in Ok h
  else
    let! (h, moved) := siftDownMin h i last in
    if moved then Ok h else siftUp h i.

Definition updateMax h (i last : nat) : res MinMax :=
  let! lt := cmp ltb h i (i - 1) in
  if lt then
    let! h := swap h i (i - 1) in
    let! h := siftUp h (i - 1) in
    let! (h, _) := siftDownMax h i last in Ok h
  else
    let! (h, moved) := siftDownMax h i last in
    if moved then Ok h else siftUp h i.

(** [h.Keys[:n]], [h.Vals[:n]]. *)
Definition truncate h (n : nat) : MinMax := MkMinMax (take n (Keys h)) (take n (Vals h)) (callback h) (calls h).

(** [Remove]: [None] stands for the zero key and value of an index that is not
    in the heap; a negative index panics. *)
Definition Remove h (pos : Z) : res (MinMax * option (K * V)) :=
  let n := length (Keys h) - 1 in
  if (Z.of_nat n <? pos)%Z || (pos =? 0)%Z then Ok (h, None)
  else if (pos <? 0)%Z then Panic
  else
    let i := Z.to_nat pos in
    let! k := key h i in
    let! v := checked (Vals h !! i) in
    let! h :=
      (if i <? n then
         let! h := swap h i n in
         if 2 <? n then (if i mod 2 =? 1 then updateMin h i (n - 1) else updateMax h i (n - 1)) else Ok h
       else Ok h) in
    Ok (truncate h n, Some (k, v)).

Definition Update h (pos : Z) (k : K) (v : V) : res MinMax :=
  let n := length (Keys h) in
  if (pos =? 0)%Z || (Z.of_nat n <=? pos)%Z then Ok h
  else if (pos <? 0)%Z then Panic
  else
    let i := Z.to_nat pos in
    let h := MkMinMax (<[i:=k]> (Keys h)) (<[i:=v]> (Vals h)) (callback h) (calls h) in
    if n =? 2 then Ok h
    else if i mod 2 =? 1 then updateMin h i (n - 1) else updateMax h i (n - 1).

(** A slice of an empty heap has one slot: [Keys[1]] panics. *)
Definition PopMin h : res (MinMax * (K * V)) :=
  let i := length (Keys h) - 1 in
  let! k := key h 1 in
  let! v := checked (Vals h !! 1) in
  let! h := swap h 1 i in
  let! (h, _) := siftDownMin h 1 (i - 1) in
  Ok (truncate h i, (k, v)).

Definition PopMax h : res (MinMax * (K * V)) :=
  let i := length (Keys h) - 1 in
  if i =? 1 then
    let! k := key h 1 in
    let! v := checked (Vals h !! 1) in
    Ok (truncate h 1, (k, v))
  else
    let! k := key h 2 in
    let! v := checked (Vals h !! 2) in
    let! h := swap h 2 i in
    let! (h, _) := siftDownMax h 2 (i - 1) in
    Ok (truncate h i, (k, v)).

Definition PushMaxN h (k : K) (v : V) (n : Z) : res MinMax :=
  let l := length (Keys h) in
  if (Z.of_nat l <? n + 1)%Z then Push h k v
  else
    let! less := (if 1 <? l then let! m := key h 1 in Ok (ltb k m) else Ok false) in
    if less then Ok h
    else let! (h, _) := PopMin h in Push h k v.

Definition PushMinN h (k : K) (v : V) (n : Z) : res MinMax :=
  let l := length (Keys h) in
  if (Z.of_nat l <? n + 1)%Z then Push h k v
  else
    let! m := key h (if l =? 2 then 1 else 2) in
    if gtb k m then Ok h
    else let! (h, _) := PopMax h in Push h k v.

(** The first loop of [heapify] counts the levels; on fewer than two slots it
    does not end. *)
Fixpoint levels (fuel nn li : nat) : res nat :=
  match fuel with
  | 0 => NoFuel
  | S fuel => let nn := nn / 2 in if nn =? 1 then Ok li else levels fuel nn (li + 1)
  end.

(** The second orders the siblings of the last level, from the even slot [i];
    [c] bounds how many there are. *)
Fixpoint leaves (c : nat) h (i n : nat) : res MinMax :=
  match c with
  | 0 => Ok h
  | S c =>
      if i <? n then
        let! lt := cmp ltb h i (i - 1) in
        let! h := (if lt then swap h i (i - 1) else Ok h) in
        leaves c h (i + 2) n
      else Ok h
  end.

(** The third goes down from slot [i] to the first. *)
Fixpoint nodes (i : nat) h (last : nat) : res MinMax :=
  match i with
  | 0 => Ok h
  | S j =>
      if i mod 2 =? 1 then
        let! gt := and_cmp (i + 1 <=? last) gtb h i (i + 1) in
        let! h := (if gt then swap h i (i + 1) else Ok h) in
        let! (h, _) := siftDownMin h i last in
        nodes j h last
      else
        let! (h, _) := siftDownMax h i last in
        nodes j h last
  end.

Definition heapify h : res MinMax :=
  let n := length (Keys h) in
  let! li := levels n n 1 in
  let! h := leaves n h (2 ^ li) n in
  nodes (2 ^ li - 1) h (n - 1).

(** [zk] and [zv] are the zero key and value of the dummy slot;
    [make([]K, 1, cap)] panics when the capacity is less than one. *)
Definition NewMinMax (zk : K) (zv : V) (opts : list (Heap.Option_ K V)) : res MinMax :=
  let! o := Heap.apply_options (Heap.MkOptions 1 None None false) opts in
  match Heap.keys o, Heap.vals o with
  | Some ks, Some vs => heapify (MkMinMax ks vs (Heap.ocallback o) [])
  | _, _ =>
      if Heap.sliceCap o <? 1 then Panic
      else Ok (MkMinMax [zk] [zv] (Heap.ocallback o) [])
  end.
End minmax.

(** ** The order of the slots

    What the heap keeps is a relation between slots: [shape n a b] says that
    with [n] slots in use the key of [a] is at most that of [b].  The proofs are
    about the keys' ranks, integers that compare as the keys do. *)

(** The intervals within that of [g]. *)
Definition kid (g c : nat) : Prop := c = 2 * g + 1 \/ c = 2 * g + 2.

Inductive shape (n : nat) : nat -> nat -> Prop :=
| sh_pair g : 2 * g + 2 < n -> shape n (2 * g + 1) (2 * g + 2)
| sh_left g c : kid g c -> 2 * c + 1 < n -> shape n (2 * g + 1) (2 * c + 1)
| sh_right g c : kid g c -> 2 * c + 2 < n -> shape n (2 * c + 2) (2 * g + 2)
| sh_last g c : kid g c -> 2 * c + 2 = n -> shape n (2 * c + 1) (2 * g + 2).

Lemma succ_left n g b : shape n (2 * g + 1) b ->
  (b = 2 * g + 2 /\ b < n) \/ (b = 4 * g + 3 /\ b < n) \/ (b = 4 * g + 5 /\ b < n) \/
  (2 * g + 2 = n /\ exists p, kid p g /\ b = 2 * p + 2).
Proof.
  intros H. inversion H as [g' Hn Ea Eb|g' c Hk Hn Ea Eb|g' c Hk Hn Ea Eb|g' c Hk Hn Ea Eb]; unfold kid in *; [lia|lia|lia|].
  do 3 right. split; [lia|]. exists g'. lia.
Qed.

Lemma pred_left n g a : shape n a (2 * g + 1) -> exists p, kid p g /\ 2 * g + 1 < n /\ a = 2 * p + 1.
Proof. intros H. inversion H as [g' Hn Ea Eb|g' c Hk Hn Ea Eb|g' c Hk Hn Ea Eb|g' c Hk Hn Ea Eb]; unfold kid in *; try lia. exists g'. lia. Qed.

Lemma succ_right n g b : shape n (2 * g + 2) b -> exists p, kid p g /\ 2 * g + 2 < n /\ b = 2 * p + 2.
Proof. intros H. inversion H as [g' Hn Ea Eb|g' c Hk Hn Ea Eb|g' c Hk Hn Ea Eb|g' c Hk Hn Ea Eb]; unfold kid in *; try lia. exists g'. lia. Qed.

Lemma pred_right n g a : shape n a (2 * g + 2) ->
  (a = 2 * g + 1 /\ 2 * g + 2 < n) \/ (a = 4 * g + 4 /\ a < n) \/ (a = 4 * g + 6 /\ a < n) \/
  (a = 4 * g + 3 /\ a + 1 = n) \/ (a = 4 * g + 5 /\ a + 1 = n).
Proof. intros H. inversion H as [g' Hn Ea Eb|g' c Hk Hn Ea Eb|g' c Hk Hn Ea Eb|g' c Hk Hn Ea Eb]; unfold kid in *; lia. Qed.

Lemma shape_bounds n a b : shape n a b -> 1 <= a < n /\ 1 <= b < n /\ a <> b.
Proof. intros []; unfold kid in *; lia. Qed.

Lemma parity i : 1 <= i -> exists g, i = 2 * g + 1 \/ i = 2 * g + 2.
Proof. intros. exists ((i - 1) / 2). lia. Qed.

#[local] Notation "x <=: y" := (Z.le x y) (at level 70).
#[local] Notation "x <: y" := (Z.lt x y) (at level 70).

Definition rel : Type := nat -> nat -> Prop.
Implicit Types z : nat -> Z.
Implicit Types R : rel.

(** The constraints between slots from [k0] on. *)
Definition within (k0 n : nat) : rel := fun a b => shape n a b /\ k0 <= a /\ k0 <= b.

Definition ordered R z : Prop := forall a b, R a b -> (z a <=: z b).

(** Only the constraints of slot [i] may fail; what they imply together holds. *)
Record hole R z (i : nat) : Prop := {
  h_other : forall a b, R a b -> a <> i -> b <> i -> (z a <=: z b);
  h_around : forall a b, R a i -> R i b -> (z a <=: z b);
}.

Definition above R z (i : nat) : Prop := forall a, R a i -> (z a <=: z i).
Definition below R z (i : nat) : Prop := forall b, R i b -> (z i <=: z b).

Lemma hole_ordered R z i : hole R z i -> above R z i -> below R z i -> ordered R z.
Proof.
  intros [H _] Ha Hb a b HR. destruct (Nat.eq_dec a i) as [->|]; [by apply Hb|].
  destruct (Nat.eq_dec b i) as [->|]; [by apply Ha|]. by apply H.
Qed.

(** Replacing the key of one slot. *)
Lemma ordered_hole R z z' i : ordered R z -> (forall a, R a i \/ R i a -> a <> i) -> (forall a, a <> i -> z' a = z a) -> hole R z' i.
Proof.
  intros Ho Hirr Hz. split.
  - intros a b HR Ha Hb. rewrite !Hz by done. by apply Ho.
  - intros a b Ha Hb. rewrite !Hz by auto. etrans; [apply Ho, Ha|apply Ho, Hb].
Qed.

(** The keys after an exchange. *)
Definition sw z (i j : nat) : nat -> Z := fun a => if a =? i then z j else if a =? j then z i else z a.

Lemma sw_l z i j : sw z i j i = z j.
Proof. unfold sw. by rewrite Nat.eqb_refl. Qed.

Lemma sw_r z i j : sw z i j j = z i.
Proof. unfold sw. destruct (Nat.eqb_spec j i) as [->|]; [done|]. by rewrite Nat.eqb_refl. Qed.

Lemma sw_comm z i j a : sw z i j a = sw z j i a.
Proof. unfold sw. destruct (Nat.eqb_spec a i) as [E1|E1], (Nat.eqb_spec a j) as [E2|E2]; congruence. Qed.

Lemma sw_ne z i j a : a <> i -> a <> j -> sw z i j a = z a.
Proof. intros. unfold sw. by rewrite (proj2 (Nat.eqb_neq a i)), (proj2 (Nat.eqb_neq a j)). Qed.

(** Exchanging the hole's slot with [j] when [j]'s key suits the slot's other
    neighbours moves the hole to [j]. *)
Lemma hole_exchange R z i j : hole R z i -> (forall a, R a a -> False) ->
  (forall b, R i b -> b <> j -> (z j <=: z b)) -> (forall a, R a i -> a <> j -> (z a <=: z j)) ->
  (forall a b, R a j -> R j b -> a <> i -> b <> i -> (z a <=: z b)) ->
  i <> j -> hole R (sw z i j) j.
Proof.
  intros [H1 H2] Hirr Hb Ha Hj Hne. split.
  - intros a b HR Haj Hbj. destruct (Nat.eq_dec a i) as [->|Hai], (Nat.eq_dec b i) as [->|Hbi].
    + by destruct (Hirr _ HR).
    + rewrite sw_l, sw_ne by done. by apply Hb.
    + rewrite sw_l, sw_ne by done. by apply Ha.
    + rewrite !sw_ne by done. by apply H1.
  - intros a b HRa HRb.
    assert (a <> j /\ b <> j) as [Haj Hbj] by (split; intros ->; eauto).
    destruct (Nat.eq_dec a i) as [->|Hai], (Nat.eq_dec b i) as [->|Hbi].
    + done.
    + rewrite sw_l, sw_ne by done. by apply H1.
    + rewrite sw_l, sw_ne by done. by apply H1.
    + rewrite !sw_ne by done. by apply Hj.
Qed.

Lemma pair_at n g a b : a = 2 * g + 1 -> b = 2 * g + 2 -> b < n -> shape n a b.
Proof. intros -> -> ?. by constructor. Qed.
Lemma left_at n g c a b : kid g c -> a = 2 * g + 1 -> b = 2 * c + 1 -> b < n -> shape n a b.
Proof. intros ? -> -> ?. by constructor. Qed.
Lemma right_at n g c a b : kid g c -> a = 2 * c + 2 -> b = 2 * g + 2 -> a < n -> shape n a b.
Proof. intros ? -> -> ?. by constructor. Qed.
Lemma last_at n g c a b : kid g c -> a = 2 * c + 1 -> b = 2 * g + 2 -> a + 1 = n -> shape n a b.
Proof. intros ? -> -> ?. constructor; [done|lia]. Qed.

Lemma within_irr k0 n a : within k0 n a a -> False.
Proof. intros [H%shape_bounds _]. lia. Qed.

(** *** Going down on the left

    [i] is the left end of [g]; the right ends that it is constrained by are
    not below it. *)

Definition right_ok k0 n z g : Prop :=
  forall b, within k0 n (2 * g + 1) b -> b mod 2 = 0 -> (z (2 * g + 1) <=: z b).

Lemma pair_within k0 n g : k0 <= 2 * g + 1 -> 2 * g + 2 < n -> within k0 n (2 * g + 1) (2 * g + 2).
Proof. intros. split; [by constructor|lia]. Qed.

(** The key is larger than the smaller right end [m] among those within [g]. *)
Lemma min_right k0 n z g m : k0 <= 2 * g + 1 -> hole (within k0 n) z (2 * g + 1) -> right_ok k0 n z g ->
  m = 4 * g + 4 \/ m = 4 * g + 6 -> m < n -> (z m <: z (2 * g + 1)) ->
  let z' := sw z (2 * g + 1) m in
  hole (within k0 n) z' (2 * g + 1) /\ above (within k0 n) z' (2 * g + 1) /\ right_ok k0 n z' g.
Proof.
  intros Hk [H1 H2] Hr Hm Hn Hlt z'. pose proof (Hr _ (pair_within k0 n g Hk ltac:(lia)) ltac:(lia)) as Hg.
  assert (within k0 n (m - 1) m) as Hpair.
  { split; [|lia]. destruct Hm; [apply (pair_at n (2 * g + 1))|apply (pair_at n (2 * g + 2))]; lia. }
  assert (within k0 n (2 * g + 1) (m - 1)) as Hl.
  { split; [|lia]. destruct Hm; [apply (left_at n g (2 * g + 1))|apply (left_at n g (2 * g + 2))]; unfold kid; lia. }
  assert (within k0 n m (2 * g + 2)) as Hup.
  { split; [|lia]. destruct Hm; [apply (right_at n g (2 * g + 1))|apply (right_at n g (2 * g + 2))]; unfold kid; lia. }
  pose proof (H1 _ _ Hpair ltac:(lia) ltac:(lia)) as Hp. pose proof (H1 _ _ Hup ltac:(lia) ltac:(lia)) as Hu.
  split_and!.
  - split.
    + intros a b HR Ha Hb. unfold z'. destruct (Nat.eq_dec a m) as [->|Ham].
      * assert (b = 2 * g + 2) as ->.
        { destruct HR as [HR _]. replace m with (2 * ((m - 2) / 2) + 2) in HR by lia.
          apply succ_right in HR as (p & Hkid & _ & ->). unfold kid in Hkid. lia. }
        rewrite sw_r, sw_ne by lia. lia.
      * destruct (Nat.eq_dec b m) as [->|Hbm]; [rewrite sw_r, sw_ne by lia; pose proof (H1 _ _ HR Ha ltac:(lia)); lia|].
        rewrite !sw_ne by lia. by apply H1.
    + intros a b HRa HRb. pose proof (H2 _ _ HRa HRb). destruct HRa as [(p & Hkid & _ & ->)%pred_left _].
      destruct HRb as [HRb _]. apply succ_left in HRb. unfold z'.
      rewrite !sw_ne; unfold kid in *; lia.
  - intros a HR. pose proof (H2 _ _ HR Hl). unfold z'. rewrite sw_l.
    destruct HR as [(p & Hkid & _ & ->)%pred_left _]. unfold kid in *. rewrite sw_ne by lia. lia.
  - intros b [HR _] Hb. apply succ_left in HR as [[-> ?]|[[-> ?]|[[-> ?]|[? _]]]]; [|lia..].
    unfold z'. rewrite sw_l, sw_ne by lia. lia.
Qed.

(** The smaller left end [j] among those within [g] is below the key. *)
Lemma min_left k0 n z g j : k0 <= 2 * g + 1 -> hole (within k0 n) z (2 * g + 1) -> right_ok k0 n z g ->
  j = 4 * g + 3 \/ j = 4 * g + 5 -> j < n -> (z j <: z (2 * g + 1)) ->
  (forall j2, j2 = 4 * g + 3 \/ j2 = 4 * g + 5 -> j2 < n -> (z j <=: z j2)) ->
  (forall m, m = 4 * g + 4 \/ m = 4 * g + 6 -> m < n -> (z (2 * g + 1) <=: z m)) ->
  let z' := sw z (2 * g + 1) j in
  hole (within k0 n) z' j /\ above (within k0 n) z' j /\ right_ok k0 n z' ((j - 1) / 2).
Proof.
  intros Hk Hh Hr Hj Hn Hlt Hmin Hmax z'. pose proof (Hr _ (pair_within k0 n g Hk ltac:(lia)) ltac:(lia)) as Hg. pose proof Hh as [H1 H2].
  assert (within k0 n (2 * g + 1) j) as Hl.
  { split; [|lia]. destruct Hj; [apply (left_at n g (2 * g + 1))|apply (left_at n g (2 * g + 2))]; unfold kid; lia. }
  assert (forall a, within k0 n a j -> a = 2 * g + 1) as Hpred.
  { intros a [HR _]. replace j with (2 * ((j - 1) / 2) + 1) in HR by lia.
    apply pred_left in HR as (p & Hkid & _ & ->). unfold kid in Hkid. lia. }
  split_and!.
  - apply hole_exchange; try done; [apply within_irr|..|lia].
    + intros b HR Hb. destruct HR as [HR _]. apply succ_left in HR as [[-> ?]|[[-> ?]|[[-> ?]|[? _]]]]; [lia|apply Hmin; lia..|lia].
    + intros a HR Ha. by apply H2.
    + intros a b HRa HRb Ha. by apply Hpred in HRa.
  - intros a HR. rewrite (Hpred a HR). unfold z'. rewrite sw_l, sw_r. lia.
  - intros b [HR _] Hb. apply succ_left in HR. replace (2 * ((j - 1) / 2) + 1) with j by lia. unfold z'. rewrite sw_r.
    destruct HR as [[-> ?]|[[-> ?]|[[-> ?]|[? (p & Hp & ->)]]]]; [|lia..|].
    + rewrite sw_ne by lia. apply Hmax; lia.
    + assert (p = g) as -> by (unfold kid in *; lia). rewrite sw_ne by lia. done.
Qed.

(** Otherwise the key is in its place, as far as what is above it goes. *)
Lemma min_done k0 n z g : right_ok k0 n z g ->
  (forall j2, j2 = 4 * g + 3 \/ j2 = 4 * g + 5 -> j2 < n -> (z (2 * g + 1) <=: z j2)) ->
  below (within k0 n) z (2 * g + 1).
Proof.
  intros Hr Hmin b HR. destruct (Nat.eq_dec (b mod 2) 0) as [Hb|Hb]; [by apply Hr|].
  destruct HR as [HR _]. apply succ_left in HR as [[-> ?]|[[-> ?]|[[-> ?]|[? (p & Hkid & ->)]]]]; [lia|apply Hmin; lia..|lia].
Qed.

(** *** Going down on the right

    [i] is the right end of [g]; its left end, if it counts, is not above it. *)

Definition left_ok k0 z g : Prop := k0 <= 2 * g + 1 -> (z (2 * g + 1) <=: z (2 * g + 2)).

Lemma kid_left k0 n g m : k0 <= 2 * g + 1 -> m = 4 * g + 3 \/ m = 4 * g + 5 -> m < n -> within k0 n (2 * g + 1) m.
Proof.
  intros Hk Hm Hn. split; [|lia].
  destruct Hm; [apply (left_at n g (2 * g + 1))|apply (left_at n g (2 * g + 2))]; unfold kid; lia.
Qed.

Lemma kid_right k0 n g j : k0 <= 2 * g + 2 -> j = 4 * g + 4 \/ j = 4 * g + 6 -> j < n -> within k0 n j (2 * g + 2).
Proof.
  intros Hk Hm Hn. split; [|lia].
  destruct Hm; [apply (right_at n g (2 * g + 1))|apply (right_at n g (2 * g + 2))]; unfold kid; lia.
Qed.

Lemma kid_last k0 n g m : k0 <= 2 * g + 2 -> m = 4 * g + 3 \/ m = 4 * g + 5 -> m + 1 = n -> within k0 n m (2 * g + 2).
Proof.
  intros Hk Hm Hn. split; [|lia].
  destruct Hm; [apply (last_at n g (2 * g + 1))|apply (last_at n g (2 * g + 2))]; unfold kid; lia.
Qed.

Lemma kid_pair k0 n g m : k0 <= 2 * g + 2 -> m = 4 * g + 3 \/ m = 4 * g + 5 -> m + 1 < n -> within k0 n m (m + 1).
Proof.
  intros Hk Hm Hn. split; [|lia].
  destruct Hm; [apply (pair_at n (2 * g + 1))|apply (pair_at n (2 * g + 2))]; lia.
Qed.

(** The key is smaller than the larger left end [m] among those within [g]. *)
Lemma max_left k0 n z g m : k0 <= 2 * g + 2 -> hole (within k0 n) z (2 * g + 2) -> left_ok k0 z g ->
  m = 4 * g + 3 \/ m = 4 * g + 5 -> m < n -> (z (2 * g + 2) <: z m) ->
  let z' := sw z (2 * g + 2) m in
  hole (within k0 n) z' (2 * g + 2) /\ below (within k0 n) z' (2 * g + 2) /\ left_ok k0 z' g.
Proof.
  intros Hk [H1 H2] Hl Hm Hn Hlt z'.
  assert (forall a, within k0 n a m -> a = 2 * g + 1 /\ k0 <= a) as Hpred.
  { intros a (HR & Ha & _). replace m with (2 * ((m - 1) / 2) + 1) in HR by lia.
    apply pred_left in HR as (p & Hkid & _ & ->). unfold kid in Hkid. lia. }
  split_and!.
  - split.
    + intros a b HR Ha Hb. unfold z'. destruct (Nat.eq_dec a m) as [->|Ham].
      * pose proof (H1 _ _ HR Ha Hb). rewrite sw_r, sw_ne; [lia|done|].
        intros ->. by apply within_irr in HR.
      * destruct (Nat.eq_dec b m) as [->|Hbm]; [|rewrite !sw_ne by lia; by apply H1].
        destruct (Hpred a HR) as [-> Hka]. rewrite sw_r, sw_ne by lia. by apply Hl.
    + intros a b HRa HRb. pose proof (H2 _ _ HRa HRb) as Hab. unfold z'.
      assert (b <> m /\ b <> 2 * g + 2) as [Hbm Hb].
      { split; [|intros ->; by apply within_irr in HRb]. intros ->. apply Hpred in HRb. lia. }
      rewrite (sw_ne _ _ _ b) by done. destruct (Nat.eq_dec a m) as [->|Ham]; [rewrite sw_r; lia|].
      rewrite sw_ne; [done|intros ->; by apply within_irr in HRa|done].
  - intros b HR. unfold z'. rewrite sw_l. assert (b <> m /\ b <> 2 * g + 2) as [Hbm Hb].
    { split; [|intros ->; by apply within_irr in HR]. intros ->. apply Hpred in HR. lia. }
    rewrite sw_ne by done. destruct (Nat.eq_dec (m + 1) n) as [Hlast|Hnl].
    + apply H2; [by apply kid_last|done].
    + pose proof (H1 m (m + 1) (kid_pair k0 n g m Hk Hm ltac:(lia)) ltac:(lia) ltac:(lia)).
      pose proof (H2 (m + 1) b (kid_right k0 n g (m + 1) Hk ltac:(lia) ltac:(lia)) HR). lia.
  - intros Hk2. unfold z'. rewrite sw_l, sw_ne by lia. apply H1; [by apply kid_left|lia|lia].
Qed.

(** The larger right end [j] among those within [g] is above the key. *)
Lemma max_right k0 n z g j : k0 <= 2 * g + 2 -> hole (within k0 n) z (2 * g + 2) -> left_ok k0 z g ->
  j = 4 * g + 4 \/ j = 4 * g + 6 -> j < n -> (z (2 * g + 2) <: z j) ->
  (forall j2, j2 = 4 * g + 4 \/ j2 = 4 * g + 6 -> j2 < n -> (z j2 <=: z j)) ->
  (forall m, m = 4 * g + 3 \/ m = 4 * g + 5 -> m < n -> (z m <=: z (2 * g + 2))) ->
  let z' := sw z (2 * g + 2) j in
  hole (within k0 n) z' j /\ below (within k0 n) z' j /\ left_ok k0 z' ((j - 2) / 2).
Proof.
  intros Hk Hh Hl Hj Hn Hlt Hmax Hmin z'. pose proof Hh as [H1 H2].
  pose proof (kid_right _ _ _ _ Hk Hj Hn) as Hup.
  assert (forall b, within k0 n j b -> b = 2 * g + 2) as Hsucc.
  { intros b [HR _]. replace j with (2 * ((j - 2) / 2) + 2) in HR by lia.
    apply succ_right in HR as (p & Hkid & _ & ->). unfold kid in Hkid. lia. }
  split_and!.
  - apply hole_exchange; try done; [apply within_irr|..|lia].
    + intros b HR Hb. by apply H2.
    + intros a (HR & Ha & _) Hne. apply pred_right in HR as [[-> ?]|[[-> ?]|[[-> ?]|[[-> ?]|[-> ?]]]]].
      * specialize (Hl Ha). lia.
      * apply Hmax; lia.
      * apply Hmax; lia.
      * specialize (Hmin (4 * g + 3) ltac:(lia) ltac:(lia)). lia.
      * specialize (Hmin (4 * g + 5) ltac:(lia) ltac:(lia)). lia.
    + intros a b HRa HRb _ Hb. by apply Hsucc in HRb.
  - intros b HR. rewrite (Hsucc b HR). unfold z'. rewrite sw_l, sw_r. lia.
  - intros H. replace (2 * ((j - 2) / 2) + 2) with j by lia. unfold z'. rewrite sw_r, sw_ne by lia.
    replace (2 * ((j - 2) / 2) + 1) with (j - 1) in * by lia. apply Hmin; lia.
Qed.

Lemma max_done k0 n z g : left_ok k0 z g ->
  (forall j2, j2 = 4 * g + 4 \/ j2 = 4 * g + 6 -> j2 < n -> (z j2 <=: z (2 * g + 2))) ->
  (forall m, m = 4 * g + 3 \/ m = 4 * g + 5 -> m < n -> (z m <=: z (2 * g + 2))) ->
  above (within k0 n) z (2 * g + 2).
Proof.
  intros Hl Hmax Hmin a (HR & Ha & _). apply pred_right in HR as [[-> ?]|[[-> ?]|[[-> ?]|[[-> ?]|[-> ?]]]]];
    [by apply Hl|apply Hmax; lia..|apply Hmin; lia|apply Hmin; lia].
Qed.

(** *** Going up

    While a key rises some constraints below it may be out of force: [X] says
    which. *)

Definition but (n : nat) (X : rel) : rel := fun a b => shape n a b /\ ~ X a b.

Record rising n (X : rel) z (i : nat) : Prop := {
  u_hole : hole (but n X) z i;
  u_below : forall b, but n X i b -> i < b -> (z i <=: z b);
  u_above : forall a, but n X a i -> i < a \/ a + 1 = i -> (z a <=: z i);
  u_X : forall a b, X a b -> (i < a /\ i < b) \/ (a + 1 = i /\ i mod 2 = 0 /\ i < b);
}.

Lemma but_irr n X a : but n X a a -> False.
Proof. intros [H%shape_bounds _]. lia. Qed.

(** Exchanging along a constraint. *)
Lemma hole_across R z i j : hole R z i -> (forall a, R a a -> False) -> i <> j ->
  (forall b, R i b -> b <> j -> (z j <=: z b)) -> (forall a, R a i -> a <> j -> (z a <=: z j)) ->
  (forall a, R a j -> a <> j) -> (forall b, R j b -> b <> j) -> hole R (sw z i j) j.
Proof.
  intros Hh Hirr Hne Hb Ha Hja Hjb. apply hole_exchange; try done. intros a b HRa HRb Hai Hbi.
  etrans; apply (h_other _ _ _ Hh); eauto.
Qed.

Section rise.
Context (n : nat) (X : rel) (z : nat -> Z) (i c gp : nat).
Context (Hr : rising n X z i) (Hkid : kid gp c) (Hi : i = 2 * c + 1 \/ i = 2 * c + 2) (Hn : i < n).

Lemma not_X a b : a = i \/ b = i \/ a <= 2 * gp + 2 \/ b <= 2 * gp + 2 -> ~ X a b.
Proof. intros H HX. pose proof (u_X _ _ _ _ Hr _ _ HX). unfold kid in *. lia. Qed.

Lemma rise_left : (z i <: z (2 * gp + 1)) -> i = 2 * c + 1 /\ rising n X (sw z i (2 * gp + 1)) (2 * gp + 1).
Proof.
  intros Hlt. pose proof (u_hole _ _ _ _ Hr) as Hh. pose proof Hh as [H1 H2].
  assert (i = 2 * c + 1) as Ei.
  { destruct Hi as [?|Ei]; [done|]. exfalso.
    assert (but n X (2 * c + 1) i) as Hp by (split; [apply (pair_at n c); lia|apply not_X; lia]).
    assert (but n X (2 * gp + 1) (2 * c + 1)) as Hl by (split; [apply (left_at n gp c); [done|lia..]|apply not_X; lia]).
    pose proof (u_above _ _ _ _ Hr _ Hp ltac:(lia)). pose proof (H1 _ _ Hl). unfold kid in *. lia. }
  split; [done|].
  assert (but n X (2 * gp + 1) i) as Hl by (split; [apply (left_at n gp c); [done|lia..]|apply not_X; lia]).
  constructor.
  - apply hole_across; try done; [apply but_irr|unfold kid in *; lia|..].
    + intros b HR _. by apply H2.
    + intros a [HR _] Hne. rewrite Ei in HR. apply pred_left in HR as (p & Hp & _ & ->). unfold kid in *. lia.
    + intros a HR ->. by apply but_irr in HR.
    + intros b HR ->. by apply but_irr in HR.
  - intros b HR Hb. rewrite sw_r. destruct (Nat.eq_dec b i) as [->|Hne]; [rewrite sw_l; lia|].
    rewrite sw_ne by lia. pose proof (H1 _ _ HR ltac:(unfold kid in *; lia) Hne). lia.
  - intros a [HR _] Ha. apply pred_left in HR as (p & Hp & _ & ->). unfold kid in *. lia.
  - intros a b HX. pose proof (u_X _ _ _ _ Hr _ _ HX). unfold kid in *. lia.
Qed.

Lemma rise_right : (z (2 * gp + 2) <: z i) -> (i = 2 * c + 2 \/ i + 1 = n) /\ rising n X (sw z i (2 * gp + 2)) (2 * gp + 2).
Proof.
  intros Hlt. pose proof (u_hole _ _ _ _ Hr) as Hh. pose proof Hh as [H1 H2].
  assert (i = 2 * c + 2 \/ i + 1 = n) as Ei.
  { destruct Hi as [Ei|?]; [|by left]. right. destruct (Nat.eq_dec (i + 1) n) as [?|Hs]; [done|]. exfalso.
    assert (but n X i (i + 1)) as Hp by (split; [apply (pair_at n c); lia|apply not_X; lia]).
    assert (but n X (i + 1) (2 * gp + 2)) as Hl by (split; [apply (right_at n gp c); [done|lia..]|apply not_X; lia]).
    pose proof (u_below _ _ _ _ Hr _ Hp ltac:(lia)). pose proof (H1 _ _ Hl). unfold kid in *. lia. }
  split; [done|].
  assert (but n X i (2 * gp + 2)) as Hu.
  { split; [|apply not_X; lia]. destruct Hi; [apply (last_at n gp c); [done|lia..]|apply (right_at n gp c); [done|lia..]]. }
  constructor.
  - apply hole_across; try done; [apply but_irr|unfold kid in *; lia|..].
    + intros b [HR _] Hne. exfalso. destruct Hi as [E|E]; rewrite E in HR.
      * apply succ_left in HR as [[? ?]|[[? ?]|[[? ?]|[? (p & Hp & ->)]]]]; unfold kid in *; lia.
      * apply succ_right in HR as (p & Hp & _ & ->). unfold kid in *; lia.
    + intros a HR _. by apply H2.
    + intros a HR ->. by apply but_irr in HR.
    + intros b HR ->. by apply but_irr in HR.
  - intros b [HR _] Hb. apply succ_right in HR as (p & Hp & _ & ->). unfold kid in *. lia.
  - intros a HR Ha. rewrite sw_r. destruct (Nat.eq_dec a i) as [->|Hne]; [rewrite sw_l; lia|].
    rewrite sw_ne by (try done; lia). pose proof (H1 _ _ HR Hne ltac:(unfold kid in *; lia)). lia.
  - intros a b HX. pose proof (u_X _ _ _ _ Hr _ _ HX). unfold kid in *. lia.
Qed.

Lemma rise_done : (z (2 * gp + 1) <=: z i) -> (z i <=: z (2 * gp + 2)) -> ordered (but n X) z.
Proof.
  intros Hl Hu. eapply hole_ordered; [apply Hr|..].
  - intros a HR. pose proof HR as [Hs _]. destruct Hi as [E|E]; rewrite E in Hs.
    + apply pred_left in Hs as (p & Hp & _ & ->). replace (2 * p + 1) with (2 * gp + 1) by (unfold kid in *; lia). done.
    + apply (u_above _ _ _ _ Hr _ HR). apply pred_right in Hs. lia.
  - intros b HR. pose proof HR as [Hs _]. destruct Hi as [E|E]; rewrite E in Hs.
    + apply succ_left in Hs as [[? ?]|[[? ?]|[[? ?]|[? (p & Hp & ->)]]]]; [apply (u_below _ _ _ _ Hr _ HR); lia..|].
      replace (2 * p + 2) with (2 * gp + 2) by (unfold kid in *; lia). done.
    + apply succ_right in Hs as (p & Hp & _ & ->). replace (2 * p + 2) with (2 * gp + 2) by (unfold kid in *; lia). done.
Qed.
End rise.

(** At the top there is nothing to rise above. *)
Lemma rise_top n X z i : rising n X z i -> i = 1 \/ i = 2 -> ordered (but n X) z.
Proof.
  intros Hr Hi. eapply hole_ordered; [apply Hr|..].
  - intros a HR. pose proof HR as [Hs _]. apply (u_above _ _ _ _ Hr _ HR). destruct Hi as [->| ->].
    + apply (pred_left n 0) in Hs as (p & Hp & _). unfold kid in *. lia.
    + apply (pred_right n 0) in Hs. lia.
  - intros b HR. pose proof HR as [Hs _]. apply (u_below _ _ _ _ Hr _ HR). destruct Hi as [->| ->].
    + apply (succ_left n 0) in Hs as [[? ?]|[[? ?]|[[? ?]|[? (p & Hp & ->)]]]]; unfold kid in *; lia.
    + apply (succ_right n 0) in Hs as (p & Hp & _). unfold kid in *. lia.
Qed.

(** These predicates only look at the values of [z]. *)
#[local] Abbreviation pw := (pointwise_relation nat (@eq Z)).

#[local] Instance ordered_proper R : Proper (pw ==> iff) (ordered R).
Proof. intros z z' E. unfold ordered. by setoid_rewrite E. Qed.
#[local] Instance hole_proper R : Proper (pw ==> eq ==> iff) (hole R).
Proof. intros z z' E i ? <-. split; intros [H1 H2]; split; intros a b; [rewrite <- !E|rewrite <- !E|rewrite !E|rewrite !E]; auto. Qed.
#[local] Instance above_proper R : Proper (pw ==> eq ==> iff) (above R).
Proof. intros z z' E i ? <-. unfold above. by setoid_rewrite E. Qed.
#[local] Instance below_proper R : Proper (pw ==> eq ==> iff) (below R).
Proof. intros z z' E i ? <-. unfold below. by setoid_rewrite E. Qed.
#[local] Instance right_ok_proper k0 n : Proper (pw ==> eq ==> iff) (right_ok k0 n).
Proof. intros z z' E i ? <-. unfold right_ok. by setoid_rewrite E. Qed.
#[local] Instance left_ok_proper k0 : Proper (pw ==> eq ==> iff) (left_ok k0).
Proof. intros z z' E i ? <-. unfold left_ok. by rewrite !E. Qed.
#[local] Instance rising_proper n X : Proper (pw ==> eq ==> iff) (rising n X).
Proof.
  intros z z' E i ? <-. split; intros [H1 H2 H3 H4]; constructor; try done; try (by rewrite <- E); try (by rewrite E);
    intros; [rewrite <- !E|rewrite <- !E|rewrite !E|rewrite !E]; auto.
Qed.

(** ** Ranks *)

Section ranks.
Context {K : Type} (ltb : K -> K -> bool) `{!Heap.StrictWeak ltb}.

(** How many of [S] are less than [x]. *)
Definition rank (S : list K) (x : K) : Z := len (filter (fun y => ltb y x = true) S).

Lemma filter_grows {A} (P Q : A -> Prop) `{!forall x, Decision (P x)} `{!forall x, Decision (Q x)} l :
  (forall x, P x -> Q x) -> len (filter P l) <=: len (filter Q l) /\
  (forall x, x ∈ l -> Q x -> ~ P x -> len (filter P l) <: len (filter Q l)).
Proof.
  intros HPQ. induction l as [|y l [IH1 IH2]]; [split; [done|]; by intros x ?%elem_of_nil|].
  rewrite !filter_cons. split.
  - destruct (decide (P y)), (decide (Q y)); rewrite ?len_cons; try lia. by destruct n; auto.
  - intros x Hx HQ HP. apply elem_of_cons in Hx as [->|Hx].
    + rewrite decide_False, decide_True by done. rewrite len_cons. lia.
    + specialize (IH2 x Hx HQ HP). destruct (decide (P y)), (decide (Q y)); rewrite ?len_cons; try lia.
      by destruct n; auto.
Qed.

(** The ranks compare as the keys do. *)
Lemma ltb_rank S x y : x ∈ S -> y ∈ S -> ltb x y = (rank S x <? rank S y)%Z.
Proof.
  intros Hx Hy. unfold rank. destruct (ltb x y) eqn:E; symmetry.
  - apply Z.ltb_lt. destruct (filter_grows (fun w => ltb w x = true) (fun w => ltb w y = true) S) as [_ Hs].
    + intros w Hw. destruct (ltb w y) eqn:Ewy; [done|].
      pose proof (Heap.sw_trans _ _ _ Ewy (Heap.sw_asym _ _ E)). congruence.
    + apply (Hs x Hx E). destruct (ltb x x) eqn:Exx; [|done]. pose proof (Heap.sw_asym _ _ Exx). congruence.
  - apply Z.ltb_ge. apply filter_grows. intros w Hw. destruct (ltb w x) eqn:Ewx; [done|].
    pose proof (Heap.sw_trans _ _ _ Ewx E). congruence.
Qed.
End ranks.

(** ** The loops

    [S] holds every key there is; [z h] are the ranks by slot. *)

Section loops.
Context {K V : Type} (ltb : K -> K -> bool) `{!Heap.StrictWeak ltb} (S : list K).
Implicit Types h : MinMax (K:=K) (V:=V).

Definition z h (i : nat) : Z := match Keys h !! i with Some k => rank ltb S k | None => 0%Z end.

Definition view h : list (K * V) := zip (Keys h) (Vals h).

Definition wf h : Prop := length (Keys h) = length (Vals h) /\ Forall (fun k => k ∈ S) (Keys h).

(** From [h] to [h'] by exchanging slots from 1 to before [n]. *)
Record moved (n : nat) h h' : Prop := {
  m_wf : wf h';
  m_len : length (Keys h') = length (Keys h);
  m_callback : callback h' = callback h;
  m_perm : view h' ≡ₚ view h;
  m_out : forall a, a = 0 \/ n <= a -> view h' !! a = view h !! a;
}.

Lemma mm_moved_refl n h : wf h -> moved n h h.
Proof. by constructor. Qed.

Lemma mm_moved_trans n h1 h2 h3 : moved n h1 h2 -> moved n h2 h3 -> moved n h1 h3.
Proof.
  intros [A1 A2 A3 A4 A5] [B1 B2 B3 B4 B5]. constructor; [done|congruence|congruence|by etrans|].
  intros a Ha. rewrite B5 by done. by apply A5.
Qed.

Lemma view_length h : wf h -> length (view h) = length (Keys h).
Proof. intros [Hl _]. unfold view. rewrite length_zip_with. lia. Qed.

Lemma view_Keys h : wf h -> Keys h = (view h).*1.
Proof. intros [Hl _]. unfold view. rewrite fst_zip; [done|lia]. Qed.

Lemma key_spec h i : wf h -> i < length (Keys h) -> exists k, Keys h !! i = Some k /\ k ∈ S /\ z h i = rank ltb S k.
Proof.
  intros [_ Hf] Hi. destruct (lookup_lt_is_Some_2 (Keys h) i Hi) as [k Hk]. exists k. split_and!; [done| |].
  - by eapply Forall_lookup_1 in Hf.
  - unfold z. by rewrite Hk.
Qed.

Lemma cmp_spec h i j : wf h -> i < length (Keys h) -> j < length (Keys h) ->
  cmp ltb h i j = Ok (z h i <? z h j)%Z /\ cmp (gtb ltb) h i j = Ok (z h j <? z h i)%Z /\
  cmp (leb ltb) h i j = Ok (z h i <=? z h j)%Z /\ cmp (geb ltb) h i j = Ok (z h j <=? z h i)%Z.
Proof.
  intros Hw Hi Hj. destruct (key_spec h i Hw Hi) as (x & Ex & Hx & ->). destruct (key_spec h j Hw Hj) as (y & Ey & Hy & ->).
  unfold cmp, key. rewrite Ex, Ey. cbn. unfold gtb, leb, geb.
  rewrite (ltb_rank ltb S x y), (ltb_rank ltb S y x), !Z.leb_antisym by done. done.
Qed.

Lemma and_cmp_spec (c : bool) h i j : wf h -> (c = true -> i < length (Keys h) /\ j < length (Keys h)) ->
  and_cmp c (gtb ltb) h i j = Ok (c && (z h j <? z h i)%Z) /\ and_cmp c (leb ltb) h i j = Ok (c && (z h i <=? z h j)%Z) /\
  and_cmp c (geb ltb) h i j = Ok (c && (z h j <=? z h i)%Z) /\ and_cmp c ltb h i j = Ok (c && (z h i <? z h j)%Z).
Proof.
  intros Hw Hc. unfold and_cmp. destruct c; [|done]. destruct (Hc eq_refl) as [Hi Hj].
  destruct (cmp_spec h i j Hw Hi Hj) as (-> & -> & -> & ->). done.
Qed.

Lemma swap_at n h i j : wf h -> 1 <= i < n -> 1 <= j < n -> n <= length (Keys h) ->
  exists h', swap h i j = Ok h' /\ moved n h h' /\ view h' !! j = view h !! i /\ forall a, z h' a = sw (z h) i j a.
Proof.
  intros Hw Hi Hj Hn. pose proof Hw as [Hl Hf]. pose proof (view_length h Hw) as Hvl.
  destruct (lookup_lt_is_Some_2 (Keys h) i) as [ki Hki]; [lia|]. destruct (lookup_lt_is_Some_2 (Keys h) j) as [kj Hkj]; [lia|].
  destruct (lookup_lt_is_Some_2 (Vals h) i) as [vi Hvi]; [lia|]. destruct (lookup_lt_is_Some_2 (Vals h) j) as [vj Hvj]; [lia|].
  set (ks := <[j:=ki]> (<[i:=kj]> (Keys h))). set (vs := <[j:=vi]> (<[i:=vj]> (Vals h))).
  assert (exists cs, swap h i j = Ok (MkMinMax ks vs (callback h) cs)) as [cs Es].
  { unfold swap, Heap.swap. rewrite Hki, Hkj, Hvi, Hvj. cbn. fold ks vs. destruct (callback h); [|by eexists].
    destruct (lookup_lt_is_Some_2 vs i) as [a ->]; [unfold vs; rewrite !length_insert; lia|].
    destruct (lookup_lt_is_Some_2 vs j) as [b ->]; [unfold vs; rewrite !length_insert; lia|]. by eexists. }
  exists (MkMinMax ks vs (callback h) cs). split; [done|].
  destruct (Heap.swap_Ok (view h) i j) as (v' & Ev & Hp & Hvl' & Hlk); [lia|lia|].
  assert (v' = zip ks vs) as ->.
  { unfold Heap.swap, view in Ev. rewrite !lookup_zip_with, Hki, Hkj, Hvi, Hvj in Ev. cbn in Ev. injection Ev as <-.
    unfold ks, vs. by rewrite !Heap.zip_insert. }
  assert (forall a, a <> i -> a <> j -> zip ks vs !! a = view h !! a) as Hout.
  { intros a Hai Haj. rewrite Hlk. unfold Heap.tr. by rewrite (proj2 (Nat.eqb_neq a i)), (proj2 (Nat.eqb_neq a j)). }
  split; [constructor|split]; cbn; try done.
  - unfold wf. cbn. unfold ks, vs. rewrite !length_insert. split; [done|].
    assert (ki ∈ S /\ kj ∈ S) as [? ?] by (rewrite Forall_lookup in Hf; eauto). by repeat apply Forall_insert.
  - unfold ks. by rewrite !length_insert.
  - intros a Ha. apply Hout; lia.
  - rewrite Hlk. by rewrite Heap.tr_r.
  - intros a. unfold z, sw. cbn. unfold ks. destruct (Nat.eqb_spec a i) as [->|Hai].
    + rewrite Hkj. destruct (decide (i = j)) as [->|Hij].
      * rewrite list_lookup_insert_eq by (rewrite length_insert; lia). congruence.
      * rewrite list_lookup_insert_ne, list_lookup_insert_eq by (done || lia). done.
    + destruct (Nat.eqb_spec a j) as [->|Haj]; [rewrite list_lookup_insert_eq by (rewrite length_insert; lia); by rewrite Hki|].
      by rewrite !list_lookup_insert_ne by done.
Qed.

Lemma swap_spec n h i j : wf h -> 1 <= i < n -> 1 <= j < n -> n <= length (Keys h) ->
  exists h', swap h i j = Ok h' /\ moved n h h' /\ forall a, z h' a = sw (z h) i j a.
Proof. intros. destruct (swap_at n h i j) as (h' & E & Hm & _ & Hz); eauto. Qed.

(** *** siftUp *)

Lemma siftUp_loop_spec n X c fuel : forall h i, wf h -> n <= length (Keys h) -> 3 <= n -> 1 <= i < n -> i < fuel ->
  rising n X (z h) i -> (c = true -> i mod 2 = 0 \/ i + 1 < n) ->
  exists h', siftUp_loop ltb fuel h i = Ok h' /\ moved n h h' /\ ordered (but n X) (z h') /\
    (c = true -> forall a, i < a \/ a mod 2 <> i mod 2 -> z h' a = z h a).
Proof.
  induction fuel as [|fuel IH]; intros h i Hw Hlen H3 Hi Hf Hr Hc; [lia|]. cbn [siftUp_loop].
  set (gp := (i - 3) / 4). replace (2 * gp + 1 + 1) with (2 * gp + 2) by lia.
  assert (2 * gp + 2 < n) as Hgp by lia.
  destruct (cmp_spec h i (2 * gp + 1) Hw) as (-> & _); [lia..|]. cbn [rbind].
  destruct (cmp_spec h i (2 * gp + 2) Hw) as (_ & -> & _); [lia..|]. cbn [rbind].
  destruct (decide (i <= 2)) as [Htop|Hdeep].
  - assert (ordered (but n X) (z h)) as Ho by (eapply rise_top; [done|lia]).
    assert (gp = 0) as -> by lia. assert ((z h 1 <= z h 2)%Z) as H12.
    { apply Ho. split; [apply (pair_at n 0); lia|]. intros HX. pose proof (u_X _ _ _ _ Hr _ _ HX). lia. }
    assert (i = 1 \/ i = 2) as Hi12 by lia.
    replace (z h i <? z h (2 * 0 + 1))%Z with false by (symmetry; apply Z.ltb_ge; cbn; destruct Hi12 as [->| ->]; lia).
    replace (z h (2 * 0 + 2) <? z h i)%Z with false by (symmetry; apply Z.ltb_ge; cbn; destruct Hi12 as [->| ->]; lia).
    exists h. by split_and!.
  - destruct (parity i) as [cc Hcc]; [lia|]. assert (kid gp cc) as Hkid by (unfold kid; lia).
    destruct (Z.ltb_spec (z h i) (z h (2 * gp + 1))) as [Hlt|Hge].
    + destruct (rise_left n X (z h) i cc gp Hr Hkid Hcc ltac:(lia) Hlt) as [Ei Hr'].
      destruct (swap_spec n h (2 * gp + 1) i Hw) as (h1 & -> & Hm & Hz); [lia..|]. cbn [rbind].
      assert (pointwise_relation nat eq (z h1) (sw (z h) i (2 * gp + 1))) as Hz' by (intros a; rewrite Hz; apply sw_comm).
      destruct (IH h1 (2 * gp + 1)) as (h2 & E & Hm2 & Ho & Hfr); [apply Hm|rewrite (m_len _ _ _ Hm); lia|lia|lia|lia|by rewrite Hz'|lia|].
      exists h2. split_and!; [done|by eapply mm_moved_trans|done|]. intros Hct a Ha. rewrite Hfr, Hz' by (done || lia).
      apply sw_ne; lia.
    + destruct (Z.ltb_spec (z h (2 * gp + 2)) (z h i)) as [Hlt|Hge2].
      * destruct (rise_right n X (z h) i cc gp Hr Hkid Hcc ltac:(lia) Hlt) as [Ei Hr'].
        destruct (swap_spec n h (2 * gp + 2) i Hw) as (h1 & -> & Hm & Hz); [lia..|]. cbn [rbind].
        assert (pointwise_relation nat eq (z h1) (sw (z h) i (2 * gp + 2))) as Hz' by (intros a; rewrite Hz; apply sw_comm).
        destruct (IH h1 (2 * gp + 2)) as (h2 & E & Hm2 & Ho & Hfr); [apply Hm|rewrite (m_len _ _ _ Hm); lia|lia|lia|lia|by rewrite Hz'|lia|].
        exists h2. split_and!; [done|by eapply mm_moved_trans|done|]. intros Hct a Ha. specialize (Hc Hct).
        rewrite Hfr, Hz' by (done || lia). apply sw_ne; lia.
      * exists h. split_and!; try done. apply (rise_done n X (z h) i cc gp); done || lia.
Qed.

(** *** siftDownMin *)

(** The index the code picks of two, of which only the first need exist. *)
Lemma pick (c : bool) (a b n : nat) (f : nat -> Z) (t : bool) : a < n -> (c = true <-> b < n) ->
  (c = true -> t = true -> (f b <= f a)%Z) -> (c = true -> t = false -> (f a <= f b)%Z) ->
  let m := if c && t then b else a in
  (m = a \/ m = b) /\ m < n /\ forall m2, m2 = a \/ m2 = b -> m2 < n -> (f m <= f m2)%Z.
Proof.
  intros Ha Hc Ht Hf m. unfold m. destruct c, t; cbn.
  - split_and!; [by right|by apply Hc|]. intros m2 [->| ->] _; [by apply Ht|done].
  - split_and!; [by left|done|]. intros m2 [->| ->] _; [done|by apply Hf].
  - split_and!; [by left|done|]. intros m2 [->| ->] Hm; [done|]. apply Hc in Hm. done.
  - split_and!; [by left|done|]. intros m2 [->| ->] Hm; [done|]. apply Hc in Hm. done.
Qed.

Lemma siftDownMin_loop_spec k0 last fuel : forall h g (d : bool),
  wf h -> (last + 1) <= length (Keys h) -> k0 <= (2 * g + 1) -> (2 * g + 1) < (last + 1) -> hole (within k0 (last + 1)) (z h) (2 * g + 1) -> right_ok k0 (last + 1) (z h) g ->
  (d = true -> forall m, m = 4 * g + 4 \/ m = 4 * g + 6 -> m < (last + 1) -> (z h (2 * g + 1) <= z h m)%Z) ->
  2 * ((last + 1) - (2 * g + 1)) + (if d then 0 else 1) <= fuel ->
  exists h' j, siftDownMin_loop ltb fuel h (2 * g + 1) last = Ok (h', j) /\ moved (last + 1) h h' /\ (2 * g + 1) <= j < (last + 1) /\ j mod 2 = 1 /\
    hole (within k0 (last + 1)) (z h') j /\ below (within k0 (last + 1)) (z h') j /\
    ((2 * g + 1) < j \/ above (within k0 (last + 1)) (z h) (2 * g + 1) -> above (within k0 (last + 1)) (z h') j).
Proof.
  induction fuel as [|fuel IH]; intros h g d Hw Hlen Hk Hi Hh Hr Hd Hf; [destruct d; lia|]. cbn [siftDownMin_loop].
  destruct (Nat.ltb_spec last (2 * (2 * g + 1) + 1)) as [Hno|Hkids].
  - exists h, (2 * g + 1). split_and!; try done; [lia| |by intros [?|?]; [lia|]].
    apply min_done; [done|]. intros; lia.
  - replace (2 * (2 * g + 1) + 1) with (4 * g + 3) in * by lia. replace (4 * g + 3 + 1) with (4 * g + 4) by lia.
    replace (4 * g + 3 + 3) with (4 * g + 6) by lia. replace (4 * g + 3 + 2) with (4 * g + 5) by lia.
    destruct (and_cmp_spec ((4 * g + 4 <=? last) && (4 * g + 6 <=? last)) h (4 * g + 6) (4 * g + 4) Hw) as (_ & -> & _).
    { intros [H1 H2]%andb_true_iff. bool_to_prop. lia. }
    cbn [rbind]. set (le := _ && (_ <=? _)%Z). set (m := if le then 4 * g + 6 else 4 * g + 4).
    assert (m = 4 * g + 4 \/ m = 4 * g + 6) as Hm by (unfold m; destruct le; lia).
    assert (4 * g + 4 < (last + 1) -> m < (last + 1) /\ forall m2, m2 = 4 * g + 4 \/ m2 = 4 * g + 6 -> m2 < (last + 1) -> (z h m <= z h m2)%Z) as Hpick.
    { intros H4. destruct (pick (4 * g + 6 <=? last) (4 * g + 4) (4 * g + 6) (last + 1) (z h) (z h (4 * g + 6) <=? z h (4 * g + 4))%Z) as (_ & Hp1 & Hp2).
      - done.
      - rewrite Nat.leb_le. lia.
      - intros _ ?. by apply Z.leb_le.
      - intros _ ?%Z.leb_gt. lia.
      - unfold m, le. rewrite (proj2 (Nat.leb_le (4 * g + 4) last)) by lia. cbn [andb]. by split. }
    destruct (and_cmp_spec (4 * g + 4 <=? last) h (2 * g + 1) m Hw) as (-> & _).
    { intros H1. bool_to_prop. destruct (Hpick ltac:(lia)). lia. }
    cbn [rbind]. destruct ((4 * g + 4 <=? last) && (z h m <? z h (2 * g + 1))%Z) eqn:Egt.
    + apply andb_true_iff in Egt as [E1 E2]. bool_to_prop. destruct (Hpick ltac:(lia)) as [Hmn Hmin].
      assert (d = false) as -> by (destruct d; [specialize (Hd eq_refl m Hm Hmn); lia|done]).
      destruct (min_right k0 (last + 1) (z h) g m Hk Hh Hr Hm Hmn E2) as (Hh' & Ha' & Hr').
      destruct (swap_spec (last + 1) h (2 * g + 1) m Hw) as (h1 & -> & Hmv & Hz); [lia|lia|lia|]. cbn [rbind].
      destruct (IH h1 g true) as (h' & j & E & Hm2 & Hj & Hj2 & Hh2 & Hb2 & Ha2); try done.
      * apply Hmv.
      * rewrite (m_len _ _ _ Hmv). done.
      * by rewrite (Hz : pw (z h1) _).
      * by rewrite (Hz : pw (z h1) _).
      * intros _ m2 Hm2 Hm2n. rewrite !Hz, sw_l. destruct (Nat.eq_dec m2 m) as [->|Hne]; [rewrite sw_r; lia|].
        rewrite sw_ne by (lia). by apply Hmin.
      * lia.
      * exists h', j. split_and!; try done; try lia; [by eapply mm_moved_trans|].
        intros _. apply Ha2. right. by rewrite (Hz : pw (z h1) _).
    + assert (forall m2, m2 = 4 * g + 4 \/ m2 = 4 * g + 6 -> m2 < (last + 1) -> (z h (2 * g + 1) <= z h m2)%Z) as Hright.
      { intros m2 Hm2 Hm2n. destruct (Hpick ltac:(lia)) as [_ Hmin]. specialize (Hmin m2 Hm2 Hm2n).
        rewrite (proj2 (Nat.leb_le (4 * g + 4) last)) in Egt by lia. cbn [andb] in Egt. apply Z.ltb_ge in Egt. lia. }
      destruct (and_cmp_spec (4 * g + 5 <=? last) h (4 * g + 5) (4 * g + 3) Hw) as (_ & -> & _).
      { intros ?. bool_to_prop. lia. }
      cbn [rbind]. set (j := if _ && _ then 4 * g + 5 else 4 * g + 3).
      destruct (pick (4 * g + 5 <=? last) (4 * g + 3) (4 * g + 5) (last + 1) (z h) (z h (4 * g + 5) <=? z h (4 * g + 3))%Z) as (Hj & Hjn & Hmin).
      { lia. } { rewrite Nat.leb_le. lia. } { intros _ ?. by apply Z.leb_le. } { intros _ ?%Z.leb_gt. lia. }
      fold j in Hj, Hjn, Hmin. destruct (cmp_spec h j (2 * g + 1) Hw) as (-> & _); [lia|lia|]. cbn [rbind].
      destruct (Z.ltb_spec (z h j) (z h (2 * g + 1))) as [Hlt|Hge].
      * destruct (min_left k0 (last + 1) (z h) g j Hk Hh Hr Hj Hjn Hlt Hmin Hright) as (Hh' & Ha' & Hr').
        destruct (swap_spec (last + 1) h (2 * g + 1) j Hw) as (h1 & -> & Hmv & Hz); [lia|lia|lia|]. cbn [rbind].
        assert (j = 2 * ((j - 1) / 2) + 1) as Ej by lia.
        destruct (IH h1 ((j - 1) / 2) false) as (h' & j' & E & Hm2 & Hj' & Hj2 & Hh2 & Hb2 & Ha2); try done; rewrite <- ?Ej.
        -- apply Hmv.
        -- rewrite (m_len _ _ _ Hmv). done.
        -- lia.
        -- lia.
        -- by rewrite (Hz : pw (z h1) _).
        -- by rewrite (Hz : pw (z h1) _).
        -- lia.
        -- rewrite <- Ej in *. exists h', j'. split_and!; try done; try lia; [by eapply mm_moved_trans|].
           intros _. apply Ha2. right. by rewrite (Hz : pw (z h1) _).
      * exists h, (2 * g + 1). split_and!; try done; [lia| |by intros [?|?]; [lia|]].
        apply min_done; [done|]. intros j2 Hj2 Hn2. specialize (Hmin j2 Hj2 Hn2). lia.
Qed.

(** *** siftDownMax *)

Lemma siftDownMax_loop_spec k0 last fuel : forall h g (d : bool),
  wf h -> last + 1 <= length (Keys h) -> k0 <= 2 * g + 2 -> 2 * g + 2 < last + 1 ->
  hole (within k0 (last + 1)) (z h) (2 * g + 2) -> left_ok k0 (z h) g ->
  (d = true -> forall m, m = 4 * g + 3 \/ m = 4 * g + 5 -> m < last + 1 -> (z h m <= z h (2 * g + 2))%Z) ->
  2 * (last + 1 - (2 * g + 2)) + (if d then 0 else 1) <= fuel ->
  exists h' j, siftDownMax_loop ltb fuel h (2 * g + 2) last = Ok (h', j) /\ moved (last + 1) h h' /\
    2 * g + 2 <= j < last + 1 /\ j mod 2 = 0 /\
    hole (within k0 (last + 1)) (z h') j /\ above (within k0 (last + 1)) (z h') j /\
    (2 * g + 2 < j \/ below (within k0 (last + 1)) (z h) (2 * g + 2) -> below (within k0 (last + 1)) (z h') j).
Proof.
  induction fuel as [|fuel IH]; intros h g d Hw Hlen Hk Hi Hh Hl Hd Hf; [destruct d; lia|]. cbn [siftDownMax_loop].
  rewrite (proj2 (Z.ltb_ge _ 0)), orb_false_r by lia.
  destruct (Z.ltb_spec (Z.of_nat last) (2 * Z.of_nat (2 * g + 2) - 1)%Z) as [Hno|Hkids].
  - exists h, (2 * g + 2). split_and!; try done; [lia| |by intros [?|?]; [lia|]].
    apply max_done; [done|intros; lia..].
  - replace (Z.to_nat (2 * Z.of_nat (2 * g + 2) - 1)) with (4 * g + 3) by lia.
    replace (2 * (2 * g + 2)) with (4 * g + 4) by lia.
    replace (4 * g + 3 + 2) with (4 * g + 5) by lia. replace (4 * g + 4 + 2) with (4 * g + 6) by lia.
    destruct (and_cmp_spec (4 * g + 5 <=? last) h (4 * g + 5) (4 * g + 3) Hw) as (_ & _ & -> & _).
    { intros ?. bool_to_prop. lia. }
    cbn [rbind]. set (m := if _ && _ then 4 * g + 5 else 4 * g + 3).
    destruct (pick (4 * g + 5 <=? last) (4 * g + 3) (4 * g + 5) (last + 1) (fun a => - z h a)%Z (z h (4 * g + 3) <=? z h (4 * g + 5))%Z) as (Hm & Hmn & Hmax).
    { lia. } { rewrite Nat.leb_le. lia. } { intros _ ?%Z.leb_le. lia. } { intros _ ?%Z.leb_gt. lia. }
    fold m in Hm, Hmn, Hmax. destruct (cmp_spec h (2 * g + 2) m Hw) as (-> & _); [lia|lia|]. cbn [rbind].
    destruct (Z.ltb_spec (z h (2 * g + 2)) (z h m)) as [Hlt|Hge].
    + assert (d = false) as -> by (destruct d; [specialize (Hd eq_refl m Hm Hmn); lia|done]).
      destruct (max_left k0 (last + 1) (z h) g m Hk Hh Hl Hm Hmn Hlt) as (Hh' & Hb' & Hl').
      destruct (swap_spec (last + 1) h (2 * g + 2) m Hw) as (h1 & -> & Hmv & Hz); [lia|lia|lia|]. cbn [rbind].
      destruct (IH h1 g true) as (h' & j & E & Hm2 & Hj & Hj2 & Hh2 & Hb2 & Ha2); try done.
      * apply Hmv.
      * rewrite (m_len _ _ _ Hmv). done.
      * by rewrite (Hz : pw (z h1) _).
      * by rewrite (Hz : pw (z h1) _).
      * intros _ m2 Hm2 Hm2n. rewrite !Hz, sw_l. destruct (Nat.eq_dec m2 m) as [->|Hne]; [rewrite sw_r; lia|].
        rewrite sw_ne by lia. specialize (Hmax m2 Hm2 Hm2n). lia.
      * lia.
      * exists h', j. split_and!; try done; try lia; [by eapply mm_moved_trans|].
        intros _. apply Ha2. right. by rewrite (Hz : pw (z h1) _).
    + assert (forall m2, m2 = 4 * g + 3 \/ m2 = 4 * g + 5 -> m2 < last + 1 -> (z h m2 <= z h (2 * g + 2))%Z) as Hleft.
      { intros m2 Hm2 Hm2n. specialize (Hmax m2 Hm2 Hm2n). lia. }
      destruct (Nat.ltb_spec last (4 * g + 4)) as [Hnr|Hright].
      { exists h, (2 * g + 2). split_and!; try done; [lia| |by intros [?|?]; [lia|]]. apply max_done; [done|intros; lia|done]. }
      destruct (and_cmp_spec (4 * g + 6 <=? last) h (4 * g + 6) (4 * g + 4) Hw) as (-> & _).
      { intros ?. bool_to_prop. lia. }
      cbn [rbind]. set (j := if _ && _ then 4 * g + 6 else 4 * g + 4).
      destruct (pick (4 * g + 6 <=? last) (4 * g + 4) (4 * g + 6) (last + 1) (fun a => - z h a)%Z (z h (4 * g + 4) <? z h (4 * g + 6))%Z) as (Hj & Hjn & Hmax2).
      { lia. } { rewrite Nat.leb_le. lia. } { intros _ ?%Z.ltb_lt. lia. } { intros _ ?%Z.ltb_ge. lia. }
      fold j in Hj, Hjn, Hmax2. destruct (cmp_spec h (2 * g + 2) j Hw) as (-> & _); [lia|lia|]. cbn [rbind].
      assert (forall j2, j2 = 4 * g + 4 \/ j2 = 4 * g + 6 -> j2 < last + 1 -> (z h j2 <= z h j)%Z) as Hlargest.
      { intros j2 Hj2 Hn2. specialize (Hmax2 j2 Hj2 Hn2). lia. }
      destruct (Z.ltb_spec (z h (2 * g + 2)) (z h j)) as [Hlt|Hge2].
      * destruct (max_right k0 (last + 1) (z h) g j Hk Hh Hl Hj Hjn Hlt Hlargest Hleft) as (Hh' & Hb' & Hl').
        destruct (swap_spec (last + 1) h (2 * g + 2) j Hw) as (h1 & -> & Hmv & Hz); [lia|lia|lia|]. cbn [rbind].
        assert (j = 2 * ((j - 2) / 2) + 2) as Ej by lia.
        destruct (IH h1 ((j - 2) / 2) false) as (h' & j' & E & Hm2 & Hj' & Hj2 & Hh2 & Hb2 & Ha2); try done; rewrite <- ?Ej.
        -- apply Hmv.
        -- rewrite (m_len _ _ _ Hmv). done.
        -- lia.
        -- lia.
        -- by rewrite (Hz : pw (z h1) _).
        -- by rewrite (Hz : pw (z h1) _).
        -- lia.
        -- rewrite <- Ej in *. exists h', j'. split_and!; try done; try lia; [by eapply mm_moved_trans|].
           intros _. apply Ha2. right. by rewrite (Hz : pw (z h1) _).
      * exists h, (2 * g + 2). split_and!; try done; [lia| |by intros [?|?]; [lia|]].
        apply max_done; [done| |done]. intros j2 Hj2 Hn2. specialize (Hlargest j2 Hj2 Hn2). lia.
Qed.

(** ** The operations on one slot *)

Definition none : rel := fun _ _ => False.

Lemma but_none n a b : but n none a b <-> within 0 n a b.
Proof. unfold but, within, none. split; intros [? ?]; (split; [done|]); [lia|tauto]. Qed.

Lemma ordered_none n f : ordered (but n none) f <-> ordered (within 0 n) f.
Proof. unfold ordered. by setoid_rewrite but_none. Qed.

Lemma hole_none n f i : hole (within 0 n) f i -> hole (but n none) f i.
Proof. intros [H1 H2]. split; intros a b; rewrite !but_none; auto. Qed.

Lemma siftUp_spec n X h i (c : bool) : wf h -> n <= length (Keys h) -> 3 <= n -> 1 <= i < n ->
  rising n X (z h) i -> (c = true -> i mod 2 = 0 \/ i + 1 < n) ->
  exists h', siftUp ltb h i = Ok h' /\ moved n h h' /\ ordered (but n X) (z h') /\
    (c = true -> forall a, i < a \/ a mod 2 <> i mod 2 -> z h' a = z h a).
Proof. intros. apply siftUp_loop_spec; auto. Qed.

(** A key of which only the slots above are wrong. *)
Lemma siftUp_final n h i : wf h -> n <= length (Keys h) -> 3 <= n -> 1 <= i < n -> hole (within 0 n) (z h) i ->
  (forall b, within 0 n i b -> i < b -> (z h i <= z h b)%Z) ->
  (forall a, within 0 n a i -> i < a \/ a + 1 = i -> (z h a <= z h i)%Z) ->
  exists h', siftUp ltb h i = Ok h' /\ moved n h h' /\ ordered (within 0 n) (z h').
Proof.
  intros Hw Hn H3 Hi Hh Hb Ha. destruct (siftUp_spec n none h i false) as (h' & E & Hm & Ho & _); try done.
  - constructor; [by apply hole_none|..]; intros *; rewrite ?but_none; auto. intros [].
  - exists h'. split_and!; try done. by apply ordered_none.
Qed.

Lemma siftDownMin_spec k0 last h g : wf h -> last + 1 <= length (Keys h) -> k0 <= 2 * g + 1 -> 2 * g + 1 < last + 1 ->
  hole (within k0 (last + 1)) (z h) (2 * g + 1) -> right_ok k0 (last + 1) (z h) g ->
  exists h' j, siftDownMin ltb h (2 * g + 1) last = Ok (h', 2 * g + 1 <? j) /\ moved (last + 1) h h' /\
    2 * g + 1 <= j < last + 1 /\
    hole (within k0 (last + 1)) (z h') j /\ below (within k0 (last + 1)) (z h') j /\
    (2 * g + 1 < j \/ above (within k0 (last + 1)) (z h) (2 * g + 1) -> above (within k0 (last + 1)) (z h') j).
Proof.
  intros. destruct (siftDownMin_loop_spec k0 last (2 * (last + 2)) h g false) as (h' & j & E & ? & ? & ? & ? & ? & ?); try done; [lia|].
  exists h', j. unfold siftDownMin. by rewrite E.
Qed.

Lemma siftDownMax_spec k0 last h g : wf h -> last + 1 <= length (Keys h) -> k0 <= 2 * g + 2 -> 2 * g + 2 < last + 1 ->
  hole (within k0 (last + 1)) (z h) (2 * g + 2) -> left_ok k0 (z h) g ->
  exists h' j, siftDownMax ltb h (2 * g + 2) last = Ok (h', 2 * g + 2 <? j) /\ moved (last + 1) h h' /\
    2 * g + 2 <= j < last + 1 /\
    hole (within k0 (last + 1)) (z h') j /\ above (within k0 (last + 1)) (z h') j /\
    (2 * g + 2 < j \/ below (within k0 (last + 1)) (z h) (2 * g + 2) -> below (within k0 (last + 1)) (z h') j).
Proof.
  intros. destruct (siftDownMax_loop_spec k0 last (2 * (last + 2)) h g false) as (h' & j & E & ? & ? & ? & ? & ? & ?); try done; [lia|].
  exists h', j. unfold siftDownMax. by rewrite E.
Qed.

(** Going down from a slot whose constraints towards the top hold. *)
Lemma siftDownMin_final k0 last h g : wf h -> last + 1 <= length (Keys h) -> k0 <= 2 * g + 1 -> 2 * g + 1 < last + 1 ->
  hole (within k0 (last + 1)) (z h) (2 * g + 1) -> right_ok k0 (last + 1) (z h) g -> above (within k0 (last + 1)) (z h) (2 * g + 1) ->
  exists h' b, siftDownMin ltb h (2 * g + 1) last = Ok (h', b) /\ moved (last + 1) h h' /\ ordered (within k0 (last + 1)) (z h').
Proof.
  intros Hw Hl Hk Hi Hh Hr Ha. destruct (siftDownMin_spec k0 last h g Hw Hl Hk Hi Hh Hr) as (h' & j & E & Hm & Hj & Hh' & Hb & Ha').
  exists h', (2 * g + 1 <? j). split_and!; try done. eapply hole_ordered; [done|apply Ha'; by right|done].
Qed.

Lemma siftDownMax_final k0 last h g : wf h -> last + 1 <= length (Keys h) -> k0 <= 2 * g + 2 -> 2 * g + 2 < last + 1 ->
  hole (within k0 (last + 1)) (z h) (2 * g + 2) -> left_ok k0 (z h) g -> below (within k0 (last + 1)) (z h) (2 * g + 2) ->
  exists h' b, siftDownMax ltb h (2 * g + 2) last = Ok (h', b) /\ moved (last + 1) h h' /\ ordered (within k0 (last + 1)) (z h').
Proof.
  intros Hw Hl Hk Hi Hh Hr Ha. destruct (siftDownMax_spec k0 last h g Hw Hl Hk Hi Hh Hr) as (h' & j & E & Hm & Hj & Hh' & Hb & Ha').
  exists h', (2 * g + 2 <? j). split_and!; try done. eapply hole_ordered; [done|done|apply Ha'; by right].
Qed.

Section update.
Context (last g : nat) (h : MinMax (K:=K) (V:=V)).
Context (Hw : wf h) (Hlen : last + 1 <= length (Keys h)) (H3 : 2 <= last).

(** The left end [i] of [g] was larger than the right one: after the exchange
    the right end rises, and the constraints of [i] with the left ends below it
    are out of force. *)
Lemma exchange_left h1 : 2 * g + 2 < last + 1 -> hole (within 0 (last + 1)) (z h) (2 * g + 1) ->
  (z h (2 * g + 2) < z h (2 * g + 1))%Z -> pw (z h1) (sw (z h) (2 * g + 1) (2 * g + 2)) ->
  let X := fun a b => a = 2 * g + 1 /\ b mod 2 = 1 /\ 2 * g + 2 < b in
  rising (last + 1) X (z h1) (2 * g + 2).
Proof.
  intros Hg [H1 H2] Hlt Hz X. rewrite Hz.
  assert (forall b, within 0 (last + 1) (2 * g + 2) b -> b <> 2 * g + 1 /\ b <> 2 * g + 2 /\ b < 2 * g + 2) as Hsucc.
  { intros b [HR _]. apply succ_right in HR as (p & Hp & _ & ->). unfold kid in Hp. lia. }
  assert (forall a, within 0 (last + 1) a (2 * g + 2) -> a <> 2 * g + 1 -> a <> 2 * g + 2 /\ (z h a <= z h (2 * g + 2))%Z) as Hpred.
  { intros a HR Ha. assert (a <> 2 * g + 2) by (intros ->; by apply within_irr in HR). split; [done|]. apply H1; [done|done|lia]. }
  pose proof (pair_within 0 (last + 1) g ltac:(lia) Hg) as Hpair.
  assert (forall a b, but (last + 1) X a b -> within 0 (last + 1) a b) as Hbut by (intros a b [? _]; split; [done|lia]).
  constructor.
  - split.
    + intros a b HR Ha Hb. pose proof (Hbut _ _ HR) as HW. destruct (Nat.eq_dec a (2 * g + 1)) as [->|Hai].
      * exfalso. destruct HR as [HR HX]. apply succ_left in HR as [[-> ?]|[[-> ?]|[[-> ?]|[? _]]]]; [lia| | |lia];
          apply HX; unfold X; lia.
      * destruct (Nat.eq_dec b (2 * g + 1)) as [->|Hbi]; [rewrite sw_l, sw_ne by done; by apply H2|].
        rewrite !sw_ne by done. by apply H1.
    + intros a b HRa HRb. apply Hbut in HRa, HRb. destruct (Hsucc b HRb) as (Hb1 & Hb2 & _). rewrite (sw_ne _ _ _ b) by done.
      pose proof (H1 _ _ HRb ltac:(lia) Hb1). destruct (Nat.eq_dec a (2 * g + 1)) as [->|Ha]; [by rewrite sw_l|].
      destruct (Hpred a HRa Ha). rewrite sw_ne by done. lia.
  - intros b HR Hb. apply Hbut, Hsucc in HR. lia.
  - intros a HR _. apply Hbut in HR. rewrite sw_r. destruct (Nat.eq_dec a (2 * g + 1)) as [->|Ha]; [rewrite sw_l; lia|].
    destruct (Hpred a HR Ha). rewrite sw_ne by done. lia.
  - intros a b (-> & ? & ?). lia.
Qed.

Lemma updateMin_spec : 2 * g + 1 < last + 1 -> hole (within 0 (last + 1)) (z h) (2 * g + 1) ->
  exists h', updateMin ltb h (2 * g + 1) last = Ok h' /\ moved (last + 1) h h' /\ ordered (within 0 (last + 1)) (z h').
Proof.
  intros Hg Hh. unfold updateMin. replace (2 * g + 1 + 1) with (2 * g + 2) by lia.
  destruct (and_cmp_spec (2 * g + 2 <=? last) h (2 * g + 1) (2 * g + 2) Hw) as (-> & _).
  { intros ?. bool_to_prop. lia. }
  cbn [rbind]. destruct (_ && _) eqn:Egt; bool_to_prop.
  - destruct (swap_spec (last + 1) h (2 * g + 1) (2 * g + 2) Hw) as (h1 & -> & Hm1 & Hz); [lia|lia|lia|]. cbn [rbind].
    set (X := fun a b => a = 2 * g + 1 /\ b mod 2 = 1 /\ 2 * g + 2 < b).
    assert (rising (last + 1) X (z h1) (2 * g + 2)) as Hr by (apply exchange_left; [lia|done|done|exact Hz]).
    destruct (siftUp_spec (last + 1) X h1 (2 * g + 2) true) as (h2 & -> & Hm2 & Ho & Hfr);
      [apply Hm1|rewrite (m_len _ _ _ Hm1); lia|lia|lia|done|lia|]. cbn [rbind].
    assert (forall a b, within 0 (last + 1) a b -> a <> 2 * g + 1 \/ b mod 2 = 0 -> but (last + 1) X a b) as Hbut.
    { intros a b [HR _] Hab. split; [done|]. unfold X. lia. }
    destruct (siftDownMin_final 0 last h2 g) as (h3 & b & -> & Hm3 & Ho3).
    + apply Hm2.
    + rewrite (m_len _ _ _ Hm2), (m_len _ _ _ Hm1). lia.
    + lia.
    + lia.
    + split.
      * intros a b HR Ha _. apply Ho, Hbut; auto.
      * intros a b HRa HRb. destruct (Nat.eq_dec (b mod 2) 0) as [Hb|Hb].
        { assert (a <> 2 * g + 1) by (intros ->; by apply within_irr in HRa).
          etrans; apply Ho, Hbut; [apply HRa| |apply HRb|]; auto. }
        pose proof (h_around _ _ _ Hh _ _ HRa HRb) as Hab. destruct HRa as [HRa _], HRb as [HRb _].
        apply pred_left in HRa as (p & Hp & _ & ->). apply succ_left in HRb.
        rewrite !Hfr by (done || lia). rewrite !Hz, !sw_ne; unfold kid in *; lia.
    + intros b HR Hb. apply Ho, Hbut; auto.
    + intros a HR. apply Ho, Hbut; [done|]. left. intros ->. by apply within_irr in HR.
    + exists h3. split_and!; try done. eapply mm_moved_trans; [done|]. by eapply mm_moved_trans.
  - destruct (Nat.eq_dec (2 * g + 1) last) as [Elast|Hsib].
    + assert (siftDownMin ltb h (2 * g + 1) last = Ok (h, false)) as ->.
      { unfold siftDownMin. replace (2 * (last + 2)) with (Datatypes.S (2 * last + 3)) by lia. cbn [siftDownMin_loop].
        rewrite (proj2 (Nat.ltb_lt _ _)) by lia. cbn [rbind]. by rewrite Nat.ltb_irrefl. }
      cbn [rbind]. apply siftUp_final; try done; [lia|lia|..].
      * intros b [HR _] Hb. apply succ_left in HR as [[-> ?]|[[-> ?]|[[-> ?]|[? (p & Hp & ->)]]]]; unfold kid in *; lia.
      * intros a [HR _] Ha. apply pred_left in HR as (p & Hp & _ & ->). unfold kid in *; lia.
    + destruct (siftDownMin_spec 0 last h g) as (h1 & j & -> & Hm & Hj & Hh1 & Hb & Ha); try done; [lia| |].
      { intros b [HR _] Hbe. apply succ_left in HR as [[-> ?]|[[-> ?]|[[-> ?]|[? _]]]]; [|lia..].
        destruct Egt as [E|E]; bool_to_prop; lia. }
      cbn [rbind]. destruct (Nat.ltb_spec (2 * g + 1) j) as [Hmv|Hst].
      * exists h1. split_and!; try done. eapply hole_ordered; [done|apply Ha; by left|done].
      * assert (j = 2 * g + 1) as -> by lia.
        destruct (siftUp_final (last + 1) h1 (2 * g + 1)) as (h2 & E & Hm2 & Ho); try done;
          [apply Hm|rewrite (m_len _ _ _ Hm); lia|lia|lia| | |].
        -- intros b HR _. by apply Hb.
        -- intros a [HR _] Hai. apply pred_left in HR as (p & Hp & _ & ->). unfold kid in *; lia.
        -- exists h2. split_and!; try done. by eapply mm_moved_trans.
Qed.

(** The right end was smaller than the left one: after the exchange the left
    end rises, and the constraints on [2 * g + 2] from below are out of force. *)
Lemma exchange_right h1 : 2 * g + 2 < last + 1 -> hole (within 0 (last + 1)) (z h) (2 * g + 2) ->
  (z h (2 * g + 2) < z h (2 * g + 1))%Z -> pw (z h1) (sw (z h) (2 * g + 2) (2 * g + 1)) ->
  rising (last + 1) (fun a b => b = 2 * g + 2 /\ 2 * g + 2 < a) (z h1) (2 * g + 1).
Proof.
  intros Hg [H1 H2] Hlt Hz. rewrite Hz. set (X := fun a b => b = 2 * g + 2 /\ 2 * g + 2 < a).
  pose proof (pair_within 0 (last + 1) g ltac:(lia) Hg) as Hpair.
  assert (forall a b, but (last + 1) X a b -> within 0 (last + 1) a b) as Hbut by (intros a b [? _]; split; [done|lia]).
  assert (forall a, within 0 (last + 1) a (2 * g + 1) -> a < 2 * g + 1 /\ a mod 2 = 1) as Hpred.
  { intros a [HR _]. apply pred_left in HR as (p & Hp & _ & ->). unfold kid in Hp. lia. }
  assert (forall b, within 0 (last + 1) (2 * g + 1) b -> b <> 2 * g + 2 -> b <> 2 * g + 1 /\ (z h (2 * g + 1) <= z h b)%Z) as Hsucc.
  { intros b HR Hb. assert (b <> 2 * g + 1) by (intros ->; by apply within_irr in HR). split; [done|]. apply H1; [done|lia|done]. }
  constructor.
  - split.
    + intros a b HR Ha Hb. pose proof (Hbut _ _ HR) as HW. destruct (Nat.eq_dec b (2 * g + 2)) as [->|Hbi].
      * exfalso. destruct HR as [HR HX]. apply HX. split; [done|]. apply pred_right in HR. lia.
      * destruct (Nat.eq_dec a (2 * g + 2)) as [->|Hai]; [rewrite sw_l, sw_ne by done; by apply H2|].
        rewrite !sw_ne by done. by apply H1.
    + intros a b HRa HRb. apply Hbut in HRa, HRb. destruct (Hpred a HRa). rewrite (sw_ne _ _ _ a) by lia.
      pose proof (H1 _ _ HRa ltac:(lia) ltac:(lia)). destruct (Nat.eq_dec b (2 * g + 2)) as [->|Hb]; [by rewrite sw_l|].
      destruct (Hsucc b HRb Hb). rewrite sw_ne by done. lia.
  - intros b HR _. apply Hbut in HR. rewrite sw_r. destruct (Nat.eq_dec b (2 * g + 2)) as [->|Hb]; [rewrite sw_l; lia|].
    destruct (Hsucc b HR Hb). rewrite sw_ne by done. lia.
  - intros a HR Ha. apply Hbut, Hpred in HR. lia.
  - intros a b (-> & ?). lia.
Qed.

Lemma updateMax_spec : 2 * g + 2 < last + 1 -> hole (within 0 (last + 1)) (z h) (2 * g + 2) ->
  exists h', updateMax ltb h (2 * g + 2) last = Ok h' /\ moved (last + 1) h h' /\ ordered (within 0 (last + 1)) (z h').
Proof.
  intros Hg Hh. unfold updateMax. replace (2 * g + 2 - 1) with (2 * g + 1) by lia.
  destruct (cmp_spec h (2 * g + 2) (2 * g + 1) Hw) as (-> & _); [lia..|]. cbn [rbind].
  destruct (Z.ltb_spec (z h (2 * g + 2)) (z h (2 * g + 1))) as [Hlt|Hge].
  - destruct (swap_spec (last + 1) h (2 * g + 2) (2 * g + 1) Hw) as (h1 & -> & Hm1 & Hz); [lia|lia|lia|]. cbn [rbind].
    set (X := fun a b => b = 2 * g + 2 /\ 2 * g + 2 < a).
    assert (rising (last + 1) X (z h1) (2 * g + 1)) as Hr by (apply exchange_right; [lia|done|done|exact Hz]).
    destruct (siftUp_spec (last + 1) X h1 (2 * g + 1) true) as (h2 & -> & Hm2 & Ho & Hfr);
      [apply Hm1|rewrite (m_len _ _ _ Hm1); lia|lia|lia|done|lia|]. cbn [rbind].
    assert (forall a b, within 0 (last + 1) a b -> b <> 2 * g + 2 \/ a < 2 * g + 2 -> but (last + 1) X a b) as Hbut.
    { intros a b [HR _] Hab. split; [done|]. unfold X. lia. }
    assert (within 0 (last + 1) (2 * g + 1) (2 * g + 2)) as Hpair by (apply pair_within; lia).
    destruct (siftDownMax_final 0 last h2 g) as (h3 & b & -> & Hm3 & Ho3).
    + apply Hm2.
    + rewrite (m_len _ _ _ Hm2), (m_len _ _ _ Hm1). lia.
    + lia.
    + lia.
    + split.
      * intros a b HR _ Hb. apply Ho, Hbut; auto.
      * intros a b HRa HRb. assert (b <> 2 * g + 2) as Hb by (intros ->; by apply within_irr in HRb).
        destruct (Nat.lt_ge_cases a (2 * g + 2)) as [Ha|Ha]; [etrans; apply Ho, Hbut; [apply HRa| |apply HRb|]; auto|].
        pose proof (h_around _ _ _ Hh _ _ HRa HRb) as Hab.
        assert (a <> 2 * g + 2) as Ha' by (intros ->; by apply within_irr in HRa). destruct HRb as [HRb _].
        apply succ_right in HRb as (p & Hp & _ & ->). rewrite !Hfr by (done || lia). rewrite !Hz, !sw_ne; unfold kid in *; lia.
    + intros _. apply Ho, Hbut; [done|lia].
    + intros b HR. apply Ho, Hbut; [done|]. left. intros ->. by apply within_irr in HR.
    + exists h3. split_and!; try done. eapply mm_moved_trans; [done|]. by eapply mm_moved_trans.
  - destruct (siftDownMax_spec 0 last h g) as (h1 & j & -> & Hm & Hj & Hh1 & Ha & Hb);
      [done|done|lia|lia|done|by intros _|].
    cbn [rbind]. destruct (Nat.ltb_spec (2 * g + 2) j) as [Hmv|Hst].
    + exists h1. split_and!; try done. eapply hole_ordered; [done|done|apply Hb; by left].
    + assert (j = 2 * g + 2) as -> by lia.
      destruct (siftUp_final (last + 1) h1 (2 * g + 2)) as (h2 & E & Hm2 & Ho);
        [apply Hm|rewrite (m_len _ _ _ Hm); lia|lia|lia|done| |intros a HR _; by apply Ha|].
      * intros b [HR _] Hbi. apply succ_right in HR as (p & Hp & _ & ->). unfold kid in *; lia.
      * exists h2. split_and!; try done. by eapply mm_moved_trans.
Qed.
End update.

(** *** The number of slots changes *)

Lemma slots_S n a b : shape (n + 1) a b -> a < n -> b < n -> shape n a b.
Proof. intros [] ? ?; constructor; unfold kid in *; (done || lia). Qed.

Lemma slots_through n a b : 2 <= n -> shape (n + 1) a n -> shape (n + 1) n b -> shape n a b.
Proof.
  intros H2 Ha Hb. destruct (parity n) as [c [E|E]]; [lia|..].
  - rewrite E in Ha, Hb. apply pred_left in Ha as (p & Hp & _ & ->).
    apply succ_left in Hb as [[? ?]|[[? ?]|[[? ?]|[_ (q & Hq & ->)]]]]; [lia..|].
    assert (q = p) as -> by (unfold kid in *; lia). constructor. unfold kid in *. lia.
  - rewrite E in Ha, Hb. apply succ_right in Hb as (p & Hp & _ & ->).
    apply pred_right in Ha as [[-> ?]|[[? ?]|[[? ?]|[[? ?]|[? ?]]]]]; [|lia..]. by constructor.
Qed.

(** A new slot is a hole. *)
Lemma hole_push n (f f' : nat -> Z) : 2 <= n -> ordered (within 0 n) f -> (forall a, a < n -> f' a = f a) -> hole (within 0 (n + 1)) f' n.
Proof.
  intros H2 Ho Hf. assert (forall a b, shape n a b -> (f' a <=: f' b)) as Ho'.
  { intros a b HR. destruct (shape_bounds _ _ _ HR) as (? & ? & _). rewrite !Hf by lia. apply Ho. split; [done|lia]. }
  split.
  - intros a b [HR _] Ha Hb. destruct (shape_bounds _ _ _ HR) as (? & ? & _). apply Ho', slots_S; done || lia.
  - intros a b [HRa _] [HRb _]. by apply Ho', slots_through.
Qed.

(** Without the last slot the constraints through it become direct. *)
Lemma ordered_shrink n (f : nat -> Z) : ordered (within 0 (n + 1)) f -> ordered (within 0 n) f.
Proof.
  intros Ho a b [HR _]. assert (forall a b, shape (n + 1) a b -> (f a <=: f b)) as Ho' by (intros; apply Ho; split; [done|lia]).
  destruct HR as [g Hn|g c Hk Hn|g c Hk Hn|g c Hk Hn]; [apply Ho'; constructor; done || lia..|].
  etrans; apply Ho'; [apply (sh_pair _ c); lia|apply (sh_right _ g c); [done|lia]].
Qed.

Lemma hole_change k0 n (f f' : nat -> Z) i : ordered (within k0 n) f -> (forall a, a < n -> a <> i -> f' a = f a) -> hole (within k0 n) f' i.
Proof.
  intros Ho Hf. split.
  - intros a b HR Ha Hb. pose proof HR as [Hs _]. destruct (shape_bounds _ _ _ Hs) as (? & ? & _). rewrite !Hf by (done || lia). by apply Ho.
  - intros a b HRa HRb. pose proof HRa as [Hsa _]. pose proof HRb as [Hsb _].
    destruct (shape_bounds _ _ _ Hsa) as (? & ? & ?), (shape_bounds _ _ _ Hsb) as (? & ? & ?).
    rewrite !Hf by (done || lia). etrans; by apply Ho.
Qed.

Lemma ordered_ext n (f f' : nat -> Z) : (forall a, a < n -> f' a = f a) -> ordered (within 0 n) f -> ordered (within 0 n) f'.
Proof.
  intros Hf Ho a b HR. pose proof HR as [Hs _]. destruct (shape_bounds _ _ _ Hs) as (? & ? & _). rewrite !Hf by lia. by apply Ho.
Qed.

Lemma ordered_few n (f : nat -> Z) : n <= 2 -> ordered (within 0 n) f.
Proof. intros Hn a b [HR _]. apply shape_bounds in HR. lia. Qed.

(** The ends of the first interval are the extremes. *)
Lemma min_at_1 n (f : nat -> Z) : ordered (within 0 n) f -> forall a, 1 <= a < n -> (f 1 <=: f a).
Proof.
  intros Ho a. induction (lt_wf a) as [a _ IH]. intros Ha. destruct (parity a) as [g [->| ->]]; [lia|..].
  - destruct (decide (g = 0)) as [->|]; [done|]. destruct (parity g) as [p Hp]; [lia|].
    etrans; [apply (IH (2 * p + 1)); lia|]. apply Ho. split; [apply (sh_left _ p g); [done|lia]|lia].
  - etrans; [apply (IH (2 * g + 1)); lia|]. apply Ho. split; [constructor; lia|lia].
Qed.

Lemma max_at_2 n (f : nat -> Z) : ordered (within 0 n) f -> 2 < n -> forall a, 1 <= a < n -> (f a <=: f 2).
Proof.
  intros Ho H2. assert (forall g, 2 * g + 2 < n -> (f (2 * g + 2) <=: f 2)) as He.
  { intros g. induction (lt_wf g) as [g _ IH]. intros Hg. destruct (decide (g = 0)) as [->|]; [done|].
    destruct (parity g) as [p Hp]; [lia|]. etrans; [|apply (IH p); lia].
    apply Ho. split; [apply (sh_right _ p g); [done|lia]|lia]. }
  intros a Ha. destruct (parity a) as [g [->| ->]]; [lia|..|apply He; lia].
  destruct (decide (2 * g + 2 < n)) as [Hn|Hn].
  - etrans; [|by apply (He g)]. apply Ho. split; [by constructor|lia].
  - destruct (parity g) as [p Hp]; [lia|]. etrans; [|apply (He p); lia].
    apply Ho. split; [apply (sh_last _ p g); [done|lia]|lia].
Qed.

(** *** Push *)

Definition pushed h (k : K) (v : V) : MinMax := MkMinMax (Keys h ++ [k]) (Vals h ++ [v]) (callback h) (calls h).

Lemma pushed_wf h k v : wf h -> k ∈ S -> wf (pushed h k v).
Proof.
  intros [Hl Hf] Hk. split; cbn; [rewrite !length_app; cbn; lia|]. apply Forall_app. split; [done|by constructor].
Qed.

Lemma z_pushed h k v a : a < length (Keys h) -> z (pushed h k v) a = z h a.
Proof. intros Ha. unfold z, pushed. cbn. by rewrite lookup_app_l. Qed.

Lemma mm_Push_spec h k v : let n := length (Keys h) in wf h -> k ∈ S -> 1 <= n -> ordered (within 0 n) (z h) ->
  exists h', Push ltb h k v = Ok h' /\ moved (n + 1) (pushed h k v) h' /\ ordered (within 0 (n + 1)) (z h').
Proof.
  intros n Hw Hk Hn Ho. pose proof (pushed_wf h k v Hw Hk) as Hw0. unfold Push. fold n. fold (pushed h k v). set (h0 := pushed h k v) in *.
  assert (length (Keys h0) = n + 1) as Hl by (cbn; rewrite length_app; done).
  destruct (Nat.eqb_spec n 1) as [E1|E1].
  - eexists. split; [done|]. split; [|apply ordered_few; lia]. cbn. destruct Hw0. destruct (callback h) eqn:Ec; by constructor.
  - assert (forall a, a < n -> z h0 a = z h a) as Hz0 by (intros; by apply z_pushed).
    pose proof (hole_push n (z h) (z h0) ltac:(lia) Ho Hz0) as Hh. unfold adjustSiblings.
    destruct (and_cmp_spec ((2 <=? n) && (n mod 2 =? 0)) h0 n (n - 1) Hw0) as (_ & _ & _ & ->); [lia|]. cbn [rbind].
    destruct (_ && _) eqn:Elt; bool_to_prop.
    + destruct (swap_spec (n + 1) h0 n (n - 1) Hw0) as (h1 & -> & Hm & Hz); [lia|lia|lia|]. cbn [rbind].
      assert (exists c, n = 2 * c + 2) as [c Ec] by (exists ((n - 2) / 2); lia). replace (n - 1) with (2 * c + 1) in * by lia.
      destruct (siftUp_final (n + 1) h1 (2 * c + 1)) as (h2 & E & Hm2 & Ho2);
        [apply Hm|rewrite (m_len _ _ _ Hm); lia|lia|lia| | | |exists h2; split_and!; try done; by eapply mm_moved_trans].
      * rewrite (Hz : pw (z h1) _). apply hole_across; [done|apply within_irr|lia|..].
        -- intros b HR _. apply (h_around _ _ _ Hh); [|done]. split; [rewrite Ec; constructor; lia|lia].
        -- intros a [HR _] Ha. rewrite Ec in HR. apply pred_right in HR. lia.
        -- intros a HR ->. by apply within_irr in HR.
        -- intros b HR ->. by apply within_irr in HR.
      * intros b [HR _] Hb. apply succ_left in HR as [[-> ?]|[[? ?]|[[? ?]|[? _]]]]; [|lia..].
        rewrite !Hz, sw_r. replace (2 * c + 2) with n by lia. rewrite sw_l. lia.
      * intros a [HR _] Ha. apply pred_left in HR as (p & Hp & _ & ->). unfold kid in *. lia.
    + destruct (siftUp_final (n + 1) h0 n) as (h2 & E & Hm2 & Ho2); [done|lia|lia|lia|done| | |by exists h2].
      * intros b [HR%shape_bounds _] Hb. lia.
      * intros a [HR _] Ha. pose proof (shape_bounds _ _ _ HR). assert (a = n - 1) as -> by lia.
        destruct (parity n) as [c [Ec|Ec]]; [lia|..].
        -- rewrite Ec in HR. apply pred_left in HR as (p & Hp & _ & ?). unfold kid in *. lia.
        -- destruct Elt as [Elt|Elt]; bool_to_prop; [destruct Elt; bool_to_prop|]; lia.
Qed.

(** *** Removing a slot *)

(** [h'] is [h] without the entry [p]. *)
Record drops h h' (p : K * V) : Prop := {
  d_wf : wf h';
  d_len : length (Keys h') + 1 = length (Keys h);
  d_callback : callback h' = callback h;
  d_ordered : ordered (within 0 (length (Keys h'))) (z h');
  d_perm : 2 <= length (Keys h) -> exists h2, view h2 ≡ₚ view h /\ view h2 !! 0 = view h !! 0 /\ view h2 = view h' ++ [p];
}.

Lemma take_zip {A B} n (l : list A) (k : list B) : take n (zip l k) = zip (take n l) (take n k).
Proof. revert l k. induction n as [|n IH]; intros [|x l] [|y k]; cbn; try done. by rewrite IH. Qed.

Lemma drops_intro h h2 i p : wf h -> length (Keys h) = i + 1 -> moved (i + 1) h h2 -> view h2 !! i = Some p ->
  ordered (within 0 i) (z h2) -> drops h (truncate h2 i) p.
Proof.
  intros Hw Hn Hm Hp Ho. pose proof (m_len _ _ _ Hm) as Hl. destruct (m_wf _ _ _ Hm) as [Hl2 Hf2].
  assert (length (Keys (truncate h2 i)) = i) as Hi by (cbn; rewrite length_take; lia).
  constructor; rewrite ?Hi.
  - split; cbn; [rewrite !length_take; lia|by apply Forall_take].
  - lia.
  - apply Hm.
  - apply ordered_ext with (z h2); [|done]. intros a Ha. unfold z. cbn. by rewrite lookup_take_lt by lia.
  - intros _. exists h2. split_and!; [apply Hm|apply (m_out _ _ _ Hm); by left|].
    assert (view (truncate h2 i) = take i (view h2)) as -> by (unfold view; cbn; by rewrite take_zip).
    rewrite <- take_S_r by done. rewrite take_ge; [done|]. rewrite view_length by apply Hm. lia.
Qed.

Lemma view_lookup h i : wf h -> i < length (Keys h) -> exists k v, Keys h !! i = Some k /\ Vals h !! i = Some v /\ view h !! i = Some (k, v).
Proof.
  intros [Hl _] Hi. destruct (lookup_lt_is_Some_2 (Keys h) i) as [k Hk]; [lia|]. destruct (lookup_lt_is_Some_2 (Vals h) i) as [v Hv]; [lia|].
  exists k, v. split_and!; try done. unfold view. by rewrite lookup_zip_with, Hk, Hv.
Qed.

Lemma siftDown_short h i last : last < 2 -> (i = 1 -> siftDownMin ltb h i last = Ok (h, false) \/ 3 <= last) /\
  (i = 2 -> siftDownMax ltb h i last = Ok (h, false)).
Proof.
  intros Hl. replace last with (match last with 0 => 0 | _ => 1 end) by (destruct last as [|[|]]; [done|done|lia]).
  split; intros ->; [left|]; by destruct last.
Qed.

Lemma PopMin_spec h : let n := length (Keys h) in wf h -> 2 <= n -> ordered (within 0 n) (z h) ->
  exists h' p, PopMin ltb h = Ok (h', p) /\ view h !! 1 = Some p /\ drops h h' p.
Proof.
  intros n Hw Hn Ho. unfold PopMin. fold n. destruct (view_lookup h 1 Hw) as (k & v & Ek & Ev & Ep); [lia|].
  unfold key. rewrite Ek, Ev. cbn [rbind checked]. set (i := n - 1). assert (n = i + 1) as En by lia.
  destruct (swap_at n h 1 i Hw) as (h1 & -> & Hm & Hvi & Hz); [lia|lia|lia|]. cbn [rbind]. rewrite Ep in Hvi.
  assert (exists h2 b, siftDownMin ltb h1 1 (i - 1) = Ok (h2, b) /\ moved i h1 h2 /\ ordered (within 0 i) (z h2)) as (h2 & b & -> & Hm2 & Ho2).
  { destruct (decide (i < 3)) as [Hs|Hs].
    - destruct (siftDown_short h1 1 (i - 1)) as [H1 _]; [lia|]. destruct (H1 eq_refl) as [->|?]; [|lia].
      exists h1, false. split_and!; [done|apply mm_moved_refl, Hm|]. destruct (decide (i <= 2)); [by apply ordered_few|lia].
    - pose proof (ordered_shrink i (z h)) as Hsh. rewrite <- En in Hsh. specialize (Hsh Ho).
      pose proof (siftDownMin_final 0 (i - 1) h1 0) as Hd. replace (i - 1 + 1) with i in Hd by lia.
        apply Hd; [apply Hm|rewrite (m_len _ _ _ Hm); lia|lia|lia|..].
      + apply hole_change with (z h); [done|]. intros a Ha Ha1. rewrite Hz. apply sw_ne; lia.
      + intros b [HR _] Hb. apply (succ_left _ 0) in HR as [[-> ?]|[[? ?]|[[? ?]|[? _]]]]; [|lia..].
        rewrite !Hz. change (2 * 0 + 1) with 1. change (2 * 0 + 2) with 2. rewrite sw_l, sw_ne by lia. apply (max_at_2 n); [done|lia|lia].
      + intros a [HR _]. apply (pred_left _ 0) in HR as (p & Hp & _). unfold kid in *. lia. }
  cbn [rbind]. exists (truncate h2 i), (k, v). split_and!; [done|done|]. apply drops_intro; try done.
  - rewrite <- En. eapply mm_moved_trans; [done|]. destruct Hm2. constructor; auto. intros a Ha. apply m_out0. lia.
  - rewrite (m_out _ _ _ Hm2) by lia. done.
Qed.

Lemma PopMax_spec h : let n := length (Keys h) in wf h -> 2 <= n -> ordered (within 0 n) (z h) ->
  exists h' p, PopMax ltb h = Ok (h', p) /\ view h !! (if n =? 2 then 1 else 2) = Some p /\ drops h h' p.
Proof.
  intros n Hw Hn Ho. unfold PopMax. fold n. destruct (Nat.eqb_spec (n - 1) 1) as [E1|E1].
  - destruct (view_lookup h 1 Hw) as (k & v & Ek & Ev & Ep); [lia|]. unfold key. rewrite Ek, Ev. cbn [rbind checked].
    replace (n =? 2) with true by (symmetry; apply Nat.eqb_eq; lia). exists (truncate h 1), (k, v). split_and!; [done|done|].
    apply drops_intro; [done|lia|by apply mm_moved_refl|done|apply ordered_few; lia].
  - rewrite (proj2 (Nat.eqb_neq n 2)) by lia. destruct (view_lookup h 2 Hw) as (k & v & Ek & Ev & Ep); [lia|].
    unfold key. rewrite Ek, Ev. cbn [rbind checked]. set (i := n - 1) in *. assert (n = i + 1) as En by lia.
    destruct (swap_at n h 2 i Hw) as (h1 & -> & Hm & Hvi & Hz); [lia|lia|lia|]. cbn [rbind]. rewrite Ep in Hvi.
    assert (exists h2 b, siftDownMax ltb h1 2 (i - 1) = Ok (h2, b) /\ moved i h1 h2 /\ ordered (within 0 i) (z h2)) as (h2 & b & -> & Hm2 & Ho2).
    { destruct (decide (i <= 2)) as [Hs|Hs].
      - destruct (siftDown_short h1 2 (i - 1)) as [_ ->]; [lia| |done].
        exists h1, false. split_and!; [done|apply mm_moved_refl, Hm|by apply ordered_few].
      - pose proof (ordered_shrink i (z h)) as Hsh. rewrite <- En in Hsh. specialize (Hsh Ho).
        pose proof (siftDownMax_final 0 (i - 1) h1 0) as Hd. replace (i - 1 + 1) with i in Hd by lia.
        apply Hd; [apply Hm|rewrite (m_len _ _ _ Hm); lia|lia|lia|..].
        + apply hole_change with (z h); [done|]. intros a Ha Ha1. rewrite Hz. apply sw_ne; lia.
        + intros _. rewrite !Hz. change (2 * 0 + 1) with 1. change (2 * 0 + 2) with 2. rewrite sw_l, sw_ne by lia. apply (min_at_1 n); [done|lia].
        + intros a [HR _]. apply (succ_right _ 0) in HR as (p & Hp & _). unfold kid in *. lia. }
    cbn [rbind]. exists (truncate h2 i), (k, v). split_and!; [done|done|]. apply drops_intro; try done.
    + rewrite <- En. eapply mm_moved_trans; [done|]. destruct Hm2. constructor; auto. intros a Ha. apply m_out0. lia.
    + rewrite (m_out _ _ _ Hm2) by lia. done.
Qed.

(** *** Remove and Update *)

(** Whatever the key at slot [i] of [h1] has become. *)
Lemma update_spec n (f : nat -> Z) h1 i : wf h1 -> n <= length (Keys h1) -> 3 <= n -> 1 <= i < n -> ordered (within 0 n) f ->
  (forall a, a < n -> a <> i -> z h1 a = f a) ->
  exists h2, (if i mod 2 =? 1 then updateMin ltb h1 i (n - 1) else updateMax ltb h1 i (n - 1)) = Ok h2 /\
    moved n h1 h2 /\ ordered (within 0 n) (z h2).
Proof.
  intros Hw Hn H3 Hi Ho Hf. pose proof (hole_change 0 n f (z h1) i Ho Hf) as Hh. destruct (parity i) as [g [E|E]]; [lia|..].
  - rewrite (proj2 (Nat.eqb_eq _ _)) by lia. subst i. pose proof (updateMin_spec (n - 1) g h1 Hw) as Hu.
    replace (n - 1 + 1) with n in Hu by lia. apply Hu; done || lia.
  - rewrite (proj2 (Nat.eqb_neq _ _)) by lia. subst i. pose proof (updateMax_spec (n - 1) g h1 Hw) as Hu.
    replace (n - 1 + 1) with n in Hu by lia. apply Hu; done || lia.
Qed.

Lemma mm_Remove_spec h (i : nat) : let n := length (Keys h) in wf h -> 1 <= i < n -> ordered (within 0 n) (z h) ->
  exists h' p, Remove ltb h (Z.of_nat i) = Ok (h', Some p) /\ view h !! i = Some p /\ drops h h' p.
Proof.
  intros n Hw Hi Ho. unfold Remove. fold n. set (m := n - 1). assert (n = m + 1) as En by lia.
  rewrite (proj2 (Z.ltb_ge _ _)), (proj2 (Z.eqb_neq _ _)), (proj2 (Z.ltb_ge _ 0%Z)), Nat2Z.id by lia. cbn [orb].
  destruct (view_lookup h i Hw) as (k & v & Ek & Ev & Ep); [lia|]. unfold key. rewrite Ek, Ev. cbn [rbind checked].
  pose proof (ordered_shrink m (z h)) as Hsh. rewrite <- En in Hsh. specialize (Hsh Ho).
  destruct (Nat.ltb_spec i m) as [Him|Him].
  - destruct (swap_at n h i m Hw) as (h1 & -> & Hm & Hvi & Hz); [lia|lia|lia|]. cbn [rbind]. rewrite Ep in Hvi.
    assert (exists h2, (if 2 <? m then if i mod 2 =? 1 then updateMin ltb h1 i (m - 1) else updateMax ltb h1 i (m - 1) else Ok h1) = Ok h2 /\
      moved m h1 h2 /\ ordered (within 0 m) (z h2)) as (h2 & -> & Hm2 & Ho2).
    { destruct (Nat.ltb_spec 2 m) as [H2|H2].
      - apply (update_spec m (z h)); [apply Hm|rewrite (m_len _ _ _ Hm); lia|lia|lia|done|].
        intros a Ha Hai. rewrite Hz. apply sw_ne; lia.
      - exists h1. split_and!; [done|apply mm_moved_refl, Hm|by apply ordered_few]. }
    cbn [rbind]. exists (truncate h2 m), (k, v). split_and!; [done|done|]. apply drops_intro; try done.
    + rewrite <- En. eapply mm_moved_trans; [done|]. destruct Hm2. constructor; auto. intros a Ha. apply m_out0. lia.
    + rewrite (m_out _ _ _ Hm2) by lia. done.
  - cbn [rbind]. exists (truncate h m), (k, v). split_and!; [done|done|]. assert (i = m) as -> by lia.
    by apply drops_intro.
Qed.

Lemma Update_spec h (i : nat) k v : let n := length (Keys h) in let h0 := MkMinMax (<[i:=k]> (Keys h)) (<[i:=v]> (Vals h)) (callback h) (calls h) in
  wf h -> k ∈ S -> 1 <= i < n -> ordered (within 0 n) (z h) ->
  exists h', Update ltb h (Z.of_nat i) k v = Ok h' /\ moved n h0 h' /\ ordered (within 0 n) (z h') /\ view h0 = <[i:=(k, v)]> (view h).
Proof.
  intros n h0 Hw Hk Hi Ho. unfold Update. fold n.
  rewrite (proj2 (Z.eqb_neq _ _)), (proj2 (Z.leb_gt _ _)), (proj2 (Z.ltb_ge _ 0%Z)), Nat2Z.id by lia. cbn [orb]. fold h0.
  assert (wf h0) as Hw0. { destruct Hw as [Hl Hf]. split; cbn; [by rewrite !length_insert|by apply Forall_insert]. }
  assert (view h0 = <[i:=(k, v)]> (view h)) as Hv by (unfold view; cbn; by rewrite Heap.zip_insert).
  assert (length (Keys h0) = n) as Hl by (cbn; by rewrite length_insert).
  destruct (Nat.eqb_spec n 2) as [E2|E2].
  - exists h0. split_and!; [done|by apply mm_moved_refl|apply ordered_few; lia|done].
  - destruct (update_spec n (z h) h0 i) as (h2 & E & Hm & Ho2); [done|lia|lia|done|done| |by exists h2].
    intros a Ha Hai. unfold z. cbn. by rewrite list_lookup_insert_ne.
Qed.

(** *** heapify *)

Lemma levels_ends fuel : forall nn li, 2 <= nn -> nn <= fuel -> exists e, levels fuel nn li = Ok (li + e) /\ 2 * 2 ^ e <= nn < 4 * 2 ^ e.
Proof.
  induction fuel as [|fuel IH]; intros nn li H2 Hf; [lia|]. cbn [levels]. destruct (Nat.eqb_spec (nn / 2) 1) as [E|E].
  - exists 0. rewrite Nat.add_0_r. split; [done|]. cbn. lia.
  - destruct (IH (nn / 2) (li + 1)) as (e & -> & Hb); [lia|lia|]. exists (e + 1). rewrite Nat.pow_add_r. cbn. split; [f_equal; lia|lia].
Qed.

(** On a slice of fewer than two slots the loop of [heapify] does not end. *)
Lemma levels_diverges fuel : forall nn li, nn <= 1 -> levels fuel nn li = NoFuel.
Proof.
  induction fuel as [|fuel IH]; intros nn li Hn; [done|]. cbn [levels]. rewrite (proj2 (Nat.eqb_neq (nn / 2) 1)) by lia.
  apply IH. lia.
Qed.

Lemma leaves_spec n c : forall h i lo, wf h -> n <= length (Keys h) -> 2 <= i -> i mod 2 = 0 -> n <= i + 2 * c -> lo mod 2 = 0 ->
  (forall j, lo <= j < i -> j mod 2 = 0 -> j < n -> z h (j - 1) <=: z h j) ->
  exists h', leaves ltb c h i n = Ok h' /\ moved n h h' /\ forall j, lo <= j -> j mod 2 = 0 -> j < n -> z h' (j - 1) <=: z h' j.
Proof.
  induction c as [|c IH]; intros h i lo Hw Hn H2 Hev Hc Hlo Hj; cbn [leaves].
  - exists h. split_and!; [done|by apply mm_moved_refl|]. intros; apply Hj; lia.
  - destruct (Nat.ltb_spec i n) as [Hin|Hin]; [|exists h; split_and!; [done|by apply mm_moved_refl|intros; apply Hj; lia]].
    destruct (cmp_spec h i (i - 1) Hw) as (-> & _); [lia..|]. cbn [rbind].
    assert (exists h1, (if (z h i <? z h (i - 1))%Z then swap h i (i - 1) else Ok h) = Ok h1 /\ moved n h h1 /\
      z h1 (i - 1) <=: z h1 i /\ forall a, a < i - 1 -> z h1 a = z h a) as (h1 & -> & Hm & Hp & Hz).
    { destruct (Z.ltb_spec (z h i) (z h (i - 1))) as [Hlt|Hge].
      - destruct (swap_spec n h i (i - 1) Hw) as (h1 & -> & Hm & Hz); [lia|lia|lia|]. exists h1. split_and!; [done|done| |].
        + rewrite !Hz, sw_l, sw_r. lia.
        + intros a Ha. rewrite Hz. apply sw_ne; lia.
      - exists h. split_and!; [done|by apply mm_moved_refl|done|done]. }
    cbn [rbind]. destruct (IH h1 (i + 2) lo) as (h2 & E & Hm2 & Hall); [apply Hm|rewrite (m_len _ _ _ Hm); lia|lia|lia|lia|done| |].
    + intros j Hj1 Hj2 Hj3. destruct (decide (j < i)) as [Hji|Hji]; [rewrite !Hz by lia; apply Hj; lia|].
      assert (j = i) as -> by lia. done.
    + exists h2. split_and!; [done|by eapply mm_moved_trans|done].
Qed.

(** The slot before the ordered ones comes into its place. *)
Lemma node_left last g h : wf h -> last + 1 <= length (Keys h) -> 2 * g + 1 <= last -> ordered (within (2 * g + 2) (last + 1)) (z h) ->
  exists h' b, (let! gt := and_cmp (2 * g + 1 + 1 <=? last) (gtb ltb) h (2 * g + 1) (2 * g + 1 + 1) in
      let! h := (if gt then swap h (2 * g + 1) (2 * g + 1 + 1) else Ok h) in siftDownMin ltb h (2 * g + 1) last) = Ok (h', b) /\
    moved (last + 1) h h' /\ ordered (within (2 * g + 1) (last + 1)) (z h').
Proof.
  intros Hw Hn Hi Ho. replace (2 * g + 1 + 1) with (2 * g + 2) by lia.
  destruct (and_cmp_spec (2 * g + 2 <=? last) h (2 * g + 1) (2 * g + 2) Hw) as (-> & _).
  { intros ?. bool_to_prop. lia. }
  cbn [rbind]. set (gt := _ && _).
  assert (exists h1, (if gt then swap h (2 * g + 1) (2 * g + 2) else Ok h) = Ok h1 /\ moved (last + 1) h h1 /\
    (2 * g + 2 <= last -> z h1 (2 * g + 1) <=: z h1 (2 * g + 2)) /\ z h (2 * g + 2) <=: z h1 (2 * g + 2) /\
    forall a, a <> 2 * g + 1 -> a <> 2 * g + 2 -> z h1 a = z h a) as (h1 & -> & Hm & Hp & Hup & Hz).
  { unfold gt. destruct (_ && _) eqn:E; bool_to_prop.
    - destruct (swap_spec (last + 1) h (2 * g + 1) (2 * g + 2) Hw) as (h1 & -> & Hm & Hz); [lia|lia|lia|]. exists h1.
      split_and!; [done|done|..]; intros; rewrite ?Hz, ?sw_l, ?sw_r; [lia|lia|]. by apply sw_ne.
    - exists h. split_and!; [done|by apply mm_moved_refl| |done|done]. intros ?. destruct E as [E|E]; bool_to_prop; lia. }
  cbn [rbind]. assert (forall a b, within (2 * g + 1) (last + 1) a b -> a <> 2 * g + 1 -> b <> 2 * g + 1 -> z h1 a <=: z h1 b) as Ho1.
  { intros a b (HR & Ha & Hb) Hna Hnb. assert (z h a <=: z h b) as Hab by (apply Ho; split; [done|lia]).
    destruct (Nat.eq_dec a (2 * g + 2)) as [->|Ha2].
    - apply succ_right in HR as (p & Hpk & _ & ->). unfold kid in *. lia.
    - rewrite (Hz a) by done. destruct (Nat.eq_dec b (2 * g + 2)) as [->|Hb2]; [lia|]. by rewrite Hz. }
  destruct (siftDownMin_final (2 * g + 1) last h1 g) as (h2 & b & E & Hm2 & Ho2);
    [apply Hm|rewrite (m_len _ _ _ Hm); lia|lia|lia| | | |exists h2, b; split_and!; [done|by eapply mm_moved_trans|done]].
  - split; [done|]. intros a b (HR & Ha & _). apply pred_left in HR as (p & Hpk & _ & ->). unfold kid in *. lia.
  - intros b (HR & _ & Hb) Hbe. apply succ_left in HR as [[-> ?]|[[? ?]|[[? ?]|[? (p & Hpk & ->)]]]]; [apply Hp; lia|unfold kid in *; lia..].
  - intros a (HR & Ha & _). apply pred_left in HR as (p & Hpk & _ & ->). unfold kid in *. lia.
Qed.

Lemma node_right last g h : wf h -> last + 1 <= length (Keys h) -> 2 * g + 2 <= last -> ordered (within (2 * g + 3) (last + 1)) (z h) ->
  exists h' b, siftDownMax ltb h (2 * g + 2) last = Ok (h', b) /\ moved (last + 1) h h' /\ ordered (within (2 * g + 2) (last + 1)) (z h').
Proof.
  intros Hw Hn Hi Ho. apply siftDownMax_final; [done|done|lia|lia|..].
  - split.
    + intros a b (HR & Ha & Hb) Hna Hnb. apply Ho. split; [done|lia].
    + intros a b _ (HR & _ & Hb). apply succ_right in HR as (p & Hpk & _ & ->). unfold kid in *. lia.
  - intros Hk2. lia.
  - intros b (HR & _ & Hb). apply succ_right in HR as (p & Hpk & _ & ->). unfold kid in *. lia.
Qed.

Lemma nodes_spec last i : forall h, wf h -> last + 1 <= length (Keys h) -> i <= last -> ordered (within (i + 1) (last + 1)) (z h) ->
  exists h', nodes ltb i h last = Ok h' /\ moved (last + 1) h h' /\ ordered (within 0 (last + 1)) (z h').
Proof.
  induction i as [|i IH]; intros h Hw Hn Hi Ho; cbn [nodes].
  - exists h. split_and!; [done|by apply mm_moved_refl|]. intros a b [HR _]. apply Ho. split; [done|]. apply shape_bounds in HR. lia.
  - destruct (parity (Datatypes.S i)) as [g [E|E]]; [lia|..].
    + rewrite (proj2 (Nat.eqb_eq _ _)) by lia. rewrite E in *. destruct (node_left last g h) as (h1 & b & E1 & Hm & Ho1);
        [done|done|done|by replace (2 * g + 2) with (2 * g + 1 + 1) by lia|].
      destruct (IH h1) as (h2 & E2 & Hm2 & Ho2); [apply Hm|rewrite (m_len _ _ _ Hm); lia|lia|by replace (i + 1) with (2 * g + 1) by lia|].
      exists h2. split_and!; [|by eapply mm_moved_trans|done]. clear IH.
      destruct (and_cmp _ _ _ _ _) as [gt| |]; cbn [rbind] in *; [|done|done].
      destruct (if gt then _ else _) as [h3| |]; cbn [rbind] in *; [|done|done]. rewrite E1. done.
    + rewrite (proj2 (Nat.eqb_neq _ _)) by lia. rewrite E in *. destruct (node_right last g h) as (h1 & b & -> & Hm & Ho1);
        [done|done|done|by replace (2 * g + 3) with (2 * g + 2 + 1) by lia|]. cbn [rbind].
      destruct (IH h1) as (h2 & E2 & Hm2 & Ho2); [apply Hm|rewrite (m_len _ _ _ Hm); lia|lia|by replace (i + 1) with (2 * g + 2) by lia|].
      exists h2. split_and!; [done|by eapply mm_moved_trans|done].
Qed.

Lemma mm_heapify_spec h : let n := length (Keys h) in wf h -> 2 <= n ->
  exists h', heapify ltb h = Ok h' /\ moved n h h' /\ ordered (within 0 n) (z h').
Proof.
  intros n Hw Hn. unfold heapify. fold n. destruct (levels_ends n n 1 Hn) as (e & -> & He); [done|]. cbn [rbind].
  replace (2 ^ (1 + e)) with (2 * 2 ^ e) by (by rewrite Nat.pow_add_r). set (w := 2 ^ e) in *.
  assert (1 <= w) as Hw1 by (unfold w; pose proof (Nat.pow_nonzero 2 e); lia).
  destruct (leaves_spec n n h (2 * w) (2 * w)) as (h1 & -> & Hm & Hl); [done|done|lia|lia|lia|lia|lia|]. cbn [rbind].
  pose proof (nodes_spec (n - 1) (2 * w - 1) h1) as Hs. replace (n - 1 + 1) with n in Hs by lia. replace (2 * w - 1 + 1) with (2 * w) in Hs by lia.
  destruct Hs as (h2 & E & Hm2 & Ho); [apply Hm|rewrite (m_len _ _ _ Hm); done|lia| |].
  - intros a b (HR & Ha & Hb). destruct HR as [g Hg|g c Hk Hg|g c Hk Hg|g c Hk Hg]; [|unfold kid in *; lia..].
    specialize (Hl (2 * g + 2) ltac:(lia) ltac:(lia) Hg). replace (2 * g + 2 - 1) with (2 * g + 1) in Hl by lia. done.
  - exists h2. split_and!; [done|by eapply mm_moved_trans|done].
Qed.
End loops.

(** ** What the heap promises *)

Section contract.
Context {K V : Type} (ltb : K -> K -> bool) `{!Heap.StrictWeak ltb}.
Implicit Types h : MinMax (K:=K) (V:=V).

(** The entries, without the dummy. *)
Definition items h : list (K * V) := tail (view h).

Record heap_ok h : Prop := {
  ok_parallel : length (Keys h) = length (Vals h);
  ok_dummy : 1 <= length (Keys h);
  ok_order : forall a b x y, shape (length (Keys h)) a b -> Keys h !! a = Some x -> Keys h !! b = Some y -> ltb y x = false;
}.

Lemma self_wf h S : length (Keys h) = length (Vals h) -> Keys h ⊆ S -> wf S h.
Proof. intros Hl HS. split; [done|]. apply Forall_forall. intros x Hx. apply HS, Hx. Qed.

Lemma ok_iff S h : wf S h -> 1 <= length (Keys h) -> (heap_ok h <-> ordered (within 0 (length (Keys h))) (z ltb S h)).
Proof.
  intros Hw Hn. assert (forall a b x y, Keys h !! a = Some x -> Keys h !! b = Some y -> (ltb y x = false <-> z ltb S h a <=: z ltb S h b)) as Hz.
  { intros a b x y Ha Hb. unfold z. rewrite Ha, Hb. destruct Hw as [_ Hf]. rewrite Forall_lookup in Hf.
    rewrite (ltb_rank ltb S y x) by eauto. by rewrite Z.ltb_ge. }
  split.
  - intros [_ _ Ho] a b [HR _]. destruct (shape_bounds _ _ _ HR) as (Ha & Hb & _).
    destruct (lookup_lt_is_Some_2 (Keys h) a) as [x Hx]; [lia|]. destruct (lookup_lt_is_Some_2 (Keys h) b) as [y Hy]; [lia|].
    apply (Hz a b x y Hx Hy). eauto.
  - intros Ho. constructor; [apply Hw|done|]. intros a b x y HR Hx Hy. apply (Hz a b x y Hx Hy), Ho. split; [done|lia].
Qed.

Lemma tail_perm {A} (l k : list A) : l ≡ₚ k -> l !! 0 = k !! 0 -> tail l ≡ₚ tail k.
Proof.
  intros HP H0. destruct l as [|x l], k as [|y k]; cbn in *; simplify_eq; [done|]. by apply Permutation.Permutation_cons_inv in HP.
Qed.

Lemma moved_items S n h h' : moved S n h h' -> items h' ≡ₚ items h.
Proof. intros Hm. apply tail_perm; [apply Hm|]. apply (m_out _ _ _ _ Hm). by left. Qed.

Lemma items_lookup h i p : length (Keys h) = length (Vals h) -> items h !! i = Some p -> i + 1 < length (Keys h) /\ view h !! (i + 1) = Some p.
Proof.
  intros Hl Hp. unfold items in Hp. rewrite lookup_tail in Hp. rewrite Nat.add_1_r. split; [|done].
  apply lookup_lt_Some in Hp. unfold view in Hp. rewrite length_zip_with in Hp. lia.
Qed.

Lemma items_nonempty h : heap_ok h -> items h <> [] -> 2 <= length (Keys h).
Proof.
  intros [Hl H1 _] Hne. destruct (decide (2 <= length (Keys h))) as [?|Hs]; [done|]. destruct Hne. unfold items, view.
  destruct (Keys h) as [|k [|]], (Vals h) as [|v [|]]; cbn in *; done || lia.
Qed.

Lemma drops_ok S h h' p : 2 <= length (Keys h) -> wf S h -> drops ltb S h h' p -> heap_ok h' /\ items h ≡ₚ p :: items h'.
Proof.
  intros Hn Hw [Hw' Hl Hc Ho Hp]. split; [apply (ok_iff S); [done|lia|done]|]. destruct (Hp Hn) as (h2 & HP & H0 & E).
  assert (items h ≡ₚ tail (view h2)) as -> by (symmetry; apply tail_perm; done).
  rewrite E. unfold items. pose proof (view_length S h' Hw') as Hlv. destruct (view h') as [|q l]; cbn in *; [lia|].
  symmetry. apply Permutation_cons_append.
Qed.

(** Any slot of the heap against the first two. *)
Lemma items_extreme h q : heap_ok h -> q ∈ items h ->
  (forall k, Keys h !! 1 = Some k -> ltb q.1 k = false) /\
  (forall k, Keys h !! (if length (Keys h) =? 2 then 1 else 2) = Some k -> ltb k q.1 = false).
Proof.
  intros Hok Hq. pose proof Hok as [Hl H1 _]. assert (wf (Keys h) h) as Hw by (by apply self_wf).
  pose proof (proj1 (ok_iff _ h Hw H1) Hok) as Ho. apply list_elem_of_lookup in Hq as [i Hq].
  destruct (items_lookup h i q Hl Hq) as [Hi Hv].
  destruct (view_lookup (Keys h) h (i + 1) Hw Hi) as (kq & vq & Ekq & _ & Eq). assert (q = (kq, vq)) as -> by congruence. cbn.
  assert (kq ∈ Keys h) as Hin by (by eapply list_elem_of_lookup_2).
  split; intros k Hk; assert (k ∈ Keys h) as Hkin by (by eapply list_elem_of_lookup_2);
    rewrite (ltb_rank ltb (Keys h)) by done; apply Z.ltb_ge.
  - pose proof (min_at_1 _ _ Ho (i + 1) ltac:(lia)) as Hm. unfold z in Hm. by rewrite Hk, Ekq in Hm.
  - destruct (Nat.eqb_spec (length (Keys h)) 2) as [E2|E2].
    + assert (i + 1 = 1) as E1 by lia. rewrite E1 in Ekq. simplify_eq. done.
    + pose proof (max_at_2 _ _ Ho ltac:(lia) (i + 1) ltac:(lia)) as Hm. unfold z in Hm. by rewrite Hk, Ekq in Hm.
Qed.

Lemma heapify_ok h : length (Keys h) = length (Vals h) -> 2 <= length (Keys h) ->
  exists h', heapify ltb h = Ok h' /\ heap_ok h' /\ items h' ≡ₚ items h.
Proof.
  intros Hl Hn. destruct (mm_heapify_spec ltb (Keys h) h) as (h' & E & Hm & Ho); [by apply self_wf|done|]. exists h'. split_and!; [done| |by eapply moved_items].
  pose proof (m_len _ _ _ _ Hm) as Hlen. apply (ok_iff (Keys h)); [apply Hm|lia|by rewrite Hlen].
Qed.

Lemma Push_ok h k v : heap_ok h -> exists h', Push ltb h k v = Ok h' /\ heap_ok h' /\ items h' ≡ₚ (k, v) :: items h.
Proof.
  intros Hok. pose proof Hok as [Hl H1 _]. set (S := Keys h ++ [k]). assert (wf S h) as Hw by (apply self_wf; [done|unfold S; set_solver]).
  destruct (mm_Push_spec ltb S h k v Hw) as (h' & E & Hm & Ho); [unfold S; set_solver|done|by apply ok_iff|].
  pose proof (m_len _ _ _ _ Hm) as Hlen. cbn in Hlen. rewrite length_app in Hlen. cbn in Hlen.
  exists h'. split_and!; [done|apply (ok_iff S); [apply Hm|lia|by rewrite Hlen]|].
  rewrite (moved_items _ _ _ _ Hm). unfold items, view, pushed. cbn. rewrite zip_with_app by done. cbn.
  destruct (Keys h) as [|x ks], (Vals h) as [|y vs]; cbn in *; try lia. symmetry. apply Permutation_cons_append.
Qed.

Lemma Remove_ok h i p : heap_ok h -> items h !! i = Some p ->
  exists h', Remove ltb h (Z.of_nat i + 1) = Ok (h', Some p) /\ heap_ok h' /\ items h ≡ₚ p :: items h'.
Proof.
  intros Hok Hp. pose proof Hok as [Hl H1 _]. assert (wf (Keys h) h) as Hw by (by apply self_wf).
  destruct (items_lookup h i p Hl Hp) as [Hi Hv].
  destruct (mm_Remove_spec ltb (Keys h) h (i + 1) Hw) as (h' & q & E & Hq & Hd); [lia|by apply ok_iff|].
  assert (q = p) as -> by congruence. exists h'. split; [by replace (Z.of_nat i + 1)%Z with (Z.of_nat (i + 1)) by lia|].
  apply (drops_ok (Keys h)); done || lia.
Qed.

Lemma Update_ok h i p k v : heap_ok h -> items h !! i = Some p ->
  exists h', Update ltb h (Z.of_nat i + 1) k v = Ok h' /\ heap_ok h' /\ items h' ≡ₚ <[i:=(k, v)]> (items h).
Proof.
  intros Hok Hp. pose proof Hok as [Hl H1 _]. set (S := Keys h ++ [k]). assert (wf S h) as Hw by (apply self_wf; [done|unfold S; set_solver]).
  destruct (items_lookup h i p Hl Hp) as [Hi Hv].
  destruct (Update_spec ltb S h (i + 1) k v Hw) as (h' & E & Hm & Ho & Hview); [unfold S; set_solver|lia|by apply ok_iff|].
  pose proof (m_len _ _ _ _ Hm) as Hlen. cbn in Hlen. rewrite length_insert in Hlen.
  exists h'. split_and!; [by replace (Z.of_nat i + 1)%Z with (Z.of_nat (i + 1)) by lia|apply (ok_iff S); [apply Hm|lia|by rewrite Hlen]|].
  rewrite (moved_items _ _ _ _ Hm). unfold items. rewrite Hview, Nat.add_1_r. by destruct (view h).
Qed.

Lemma PopMin_ok h : heap_ok h -> items h <> [] ->
  exists h' p, PopMin ltb h = Ok (h', p) /\ heap_ok h' /\ items h ≡ₚ p :: items h' /\ Keys h !! 1 = Some p.1.
Proof.
  intros Hok Hne. pose proof Hok as [Hl H1 _]. assert (wf (Keys h) h) as Hw by (by apply self_wf).
  pose proof (items_nonempty h Hok Hne) as Hn. destruct (PopMin_spec ltb (Keys h) h Hw Hn) as (h' & p & E & Hp & Hd); [by apply ok_iff|].
  exists h', p. split; [done|]. destruct (view_lookup (Keys h) h 1 Hw Hn) as (k & v & Ek & _ & Ep). assert (p = (k, v)) as -> by congruence.
  destruct (drops_ok (Keys h) h h' (k, v)) as [? ?]; done.
Qed.

Lemma PopMax_ok h : heap_ok h -> items h <> [] ->
  exists h' p, PopMax ltb h = Ok (h', p) /\ heap_ok h' /\ items h ≡ₚ p :: items h' /\
    Keys h !! (if length (Keys h) =? 2 then 1 else 2) = Some p.1.
Proof.
  intros Hok Hne. pose proof Hok as [Hl H1 _]. assert (wf (Keys h) h) as Hw by (by apply self_wf).
  pose proof (items_nonempty h Hok Hne) as Hn. destruct (PopMax_spec ltb (Keys h) h Hw Hn) as (h' & p & E & Hp & Hd); [by apply ok_iff|].
  exists h', p. split; [done|]. destruct (drops_ok (Keys h) h h' p) as [? ?]; try done. split_and!; [done|done|].
  destruct (view_lookup (Keys h) h (if length (Keys h) =? 2 then 1 else 2) Hw) as (k & v & Ek & _ & Ep); [destruct (Nat.eqb_spec (length (Keys h)) 2); lia|].
  assert (p = (k, v)) as -> by congruence. done.
Qed.
End contract.

(** ** Keeping the largest or the smallest

    [PushMaxN] and [PushMinN] over a list of entries.  [beats a b] says that
    [b] may be kept out when [a] is in. *)
Section bounded.
Context {K V : Type} (ltb : K -> K -> bool) `{!Heap.StrictWeak ltb}.
Implicit Types h : MinMax (K:=K) (V:=V).

Definition PushMaxN_all (n : Z) h (l : list (K * V)) : res (MinMax (K:=K) (V:=V)) :=
  foldl (fun m p => let! h := m in PushMaxN ltb h p.1 p.2 n) (Ok h) l.

Definition PushMinN_all (n : Z) h (l : list (K * V)) : res (MinMax (K:=K) (V:=V)) :=
  foldl (fun m p => let! h := m in PushMinN ltb h p.1 p.2 n) (Ok h) l.

(** [h] holds the [n] entries of [l] that are best, [rest] the others. *)
Record best (beats : K -> K -> Prop) (n : nat) h (l rest : list (K * V)) : Prop := {
  b_ok : heap_ok ltb h;
  b_perm : items h ++ rest ≡ₚ l;
  b_size : length (items h) <= n /\ (rest <> [] -> length (items h) = n);
  b_beats : forall p q, p ∈ items h -> q ∈ rest -> beats p.1 q.1;
}.

Lemma length_items h : heap_ok ltb h -> length (items h) + 1 = length (Keys h).
Proof.
  intros [Hl H1 _]. unfold items, view. destruct (Keys h), (Vals h); cbn in *; rewrite ?length_zip_with; lia.
Qed.

Lemma perm_swap_in {A} (ih ih' rest l : list A) p m : ih ≡ₚ m :: ih' -> ih ++ rest ≡ₚ l -> (p :: ih') ++ m :: rest ≡ₚ l ++ [p].
Proof. intros H1 H2. rewrite <- H2, H1. cbn. rewrite <- Permutation_cons_append, <- Permutation_middle. cbn. apply Permutation_swap. Qed.

Definition not_less (a b : K) : Prop := ltb a b = false.
Definition not_more (a b : K) : Prop := ltb b a = false.

Lemma best_push beats n h l rest p h' : best beats n h l rest -> length (items h) < n -> heap_ok ltb h' -> items h' ≡ₚ p :: items h ->
  best beats n h' (l ++ [p]) rest.
Proof.
  intros [Hok HP [Hs Hr] Hb] Hn Hok' HP'. assert (rest = []) as -> by (destruct rest; [done|]; specialize (Hr ltac:(done)); lia).
  rewrite app_nil_r in HP. constructor; [done|..].
  - rewrite app_nil_r, HP', HP. apply Permutation_cons_append.
  - split; [|done]. rewrite HP'. cbn. lia.
  - intros q r _ Hr'. by apply elem_of_nil in Hr'.
Qed.

Lemma best_skip (beats : K -> K -> Prop) n h l rest p : best beats n h l rest -> n <= length (items h) -> (forall q, q ∈ items h -> beats q.1 p.1) ->
  best beats n h (l ++ [p]) (p :: rest).
Proof.
  intros [Hok HP [Hs Hr] Hb] Hn Hp. constructor; [done|..].
  - rewrite <- HP. rewrite <- Permutation_middle. apply Permutation_cons_append.
  - lia.
  - intros q r Hq [->|Hr']%elem_of_cons; auto.
Qed.

Lemma best_replace (beats : K -> K -> Prop) n h h1 h2 l rest p m : best beats n h l rest -> n <= length (items h) ->
  heap_ok ltb h2 -> items h ≡ₚ m :: items h1 -> items h2 ≡ₚ p :: items h1 ->
  beats p.1 m.1 -> (forall q, q ∈ items h -> beats q.1 m.1) -> (forall a b c, beats a b -> beats b c -> beats a c) ->
  best beats n h2 (l ++ [p]) (m :: rest).
Proof.
  intros [Hok HP [Hs Hr] Hb] Hn Hok2 H1 H2 Hpm Hqm Htr. constructor; [done|..].
  - rewrite H2. by eapply perm_swap_in.
  - rewrite H2. rewrite H1 in Hs, Hn. cbn in *. lia.
  - assert (forall q, q ∈ items h1 -> q ∈ items h) as Hsub by (intros q Hq; rewrite H1; by apply elem_of_list_further || set_solver).
    assert (m ∈ items h) as Hm by (rewrite H1; set_solver). intros q r Hq Hr'. rewrite H2 in Hq.
    apply elem_of_cons in Hq as [->|Hq], Hr' as [->|Hr']; [done|eapply Htr; [done|by apply Hb]|auto|auto].
Qed.

Lemma PushMaxN_step n h l rest p : 1 <= n -> best not_less n h l rest ->
  exists h' rest', PushMaxN ltb h p.1 p.2 (Z.of_nat n) = Ok h' /\ best not_less n h' (l ++ [p]) rest'.
Proof.
  intros Hn Hb. pose proof (b_ok _ _ _ _ _ Hb) as Hok. pose proof (length_items h Hok) as Hl. unfold PushMaxN. destruct p as [k v]. cbn [fst snd].
  destruct (Z.ltb_spec (Z.of_nat (length (Keys h))) (Z.of_nat n + 1)) as [Hlt|Hge].
  - destruct (Push_ok ltb h k v Hok) as (h' & -> & Hok' & HP). exists h', rest. split; [done|]. eapply best_push; try done. lia.
  - assert (items h <> []) as Hne by (intros E; rewrite E in Hl; cbn in Hl; lia).
    destruct (PopMin_ok ltb h Hok Hne) as (h1 & m & E & Hok1 & HP & Hk). rewrite (proj2 (Nat.ltb_lt 1 _)) by lia.
    unfold key. rewrite Hk. cbn [rbind checked]. assert (forall q, q ∈ items h -> ltb q.1 m.1 = false) as Hmin.
    { intros q Hq. destruct (items_extreme ltb h q Hok Hq) as [Hx _]. by apply Hx. }
    destruct (ltb k m.1) eqn:Ekm.
    + exists h, ((k, v) :: rest). split; [done|]. apply best_skip; [done|lia|]. intros q Hq. unfold not_less. cbn.
      eapply Heap.sw_trans; [by apply Hmin|by apply Heap.sw_asym].
    + rewrite E. cbn [rbind]. destruct (Push_ok ltb h1 k v Hok1) as (h2 & -> & Hok2 & HP2). exists h2, (m :: rest). split; [done|].
      eapply best_replace; try done; [lia|]. intros a b c. apply Heap.sw_trans.
Qed.

Lemma PushMinN_step n h l rest p : 1 <= n -> best not_more n h l rest ->
  exists h' rest', PushMinN ltb h p.1 p.2 (Z.of_nat n) = Ok h' /\ best not_more n h' (l ++ [p]) rest'.
Proof.
  intros Hn Hb. pose proof (b_ok _ _ _ _ _ Hb) as Hok. pose proof (length_items h Hok) as Hl. unfold PushMinN. destruct p as [k v]. cbn [fst snd].
  destruct (Z.ltb_spec (Z.of_nat (length (Keys h))) (Z.of_nat n + 1)) as [Hlt|Hge].
  - destruct (Push_ok ltb h k v Hok) as (h' & -> & Hok' & HP). exists h', rest. split; [done|]. eapply best_push; try done. lia.
  - assert (items h <> []) as Hne by (intros E; rewrite E in Hl; cbn in Hl; lia).
    destruct (PopMax_ok ltb h Hok Hne) as (h1 & m & E & Hok1 & HP & Hk).
    unfold key. rewrite Hk. cbn [rbind checked]. assert (forall q, q ∈ items h -> ltb m.1 q.1 = false) as Hmax.
    { intros q Hq. destruct (items_extreme ltb h q Hok Hq) as [_ Hx]. by apply Hx. }
    unfold gtb. destruct (ltb m.1 k) eqn:Ekm.
    + exists h, ((k, v) :: rest). split; [done|]. apply best_skip; [done|lia|]. intros q Hq. unfold not_more. cbn.
      eapply Heap.sw_trans; [by apply Heap.sw_asym|by apply Hmax].
    + rewrite E. cbn [rbind]. destruct (Push_ok ltb h1 k v Hok1) as (h2 & -> & Hok2 & HP2). exists h2, (m :: rest). split; [done|].
      eapply best_replace; try done; [lia|]. unfold not_more. intros a b c Hab Hbc. eapply Heap.sw_trans; done.
Qed.

Lemma best_all (beats : K -> K -> Prop) (push : MinMax (K:=K) (V:=V) -> K * V -> res MinMax) n :
  (forall h l rest p, best beats n h l rest -> exists h' rest', push h p = Ok h' /\ best beats n h' (l ++ [p]) rest') ->
  forall l2 h l rest, best beats n h l rest ->
  exists h' rest', foldl (fun m p => let! h := m in push h p) (Ok h) l2 = Ok h' /\ best beats n h' (l ++ l2) rest'.
Proof.
  intros Hstep l2. induction l2 as [|p l2 IH]; intros h l rest Hb; cbn; [exists h, rest; by rewrite app_nil_r|].
  destruct (Hstep h l rest p Hb) as (h1 & rest1 & -> & Hb1). destruct (IH h1 _ rest1 Hb1) as (h2 & rest2 & E & Hb2).
  exists h2, rest2. split; [done|]. by rewrite <- app_assoc in Hb2.
Qed.

Lemma new_ok (zk : K) (zv : V) c cs : heap_ok ltb (MkMinMax [zk] [zv] c cs).
Proof. constructor; cbn; [done|done|]. intros a b x y HR. apply shape_bounds in HR. lia. Qed.
End bounded.

(** C33: the min-max heap.  On parallel slices with a dummy first slot,
    [NewMinMax] orders any two or more slots; [Push], [Remove], [Update], [PopMin]
    and [PopMax] end without a panic wherever the entry they name is there, keep
    the interval order, and change the multiset of entries by exactly the entry
    named.  [PopMin] returns an entry with a least key, [PopMax] one with a
    greatest. *)
Theorem MinMax_operations {K V} (ltb : K -> K -> bool) (Horder : Heap.StrictWeak ltb) (zk : K) (zv : V) :
  NewMinMax ltb zk zv [] = Ok (MkMinMax [zk] [zv] false []) /\ heap_ok ltb (MkMinMax [zk] [zv] false []) /\
  (forall ks vs, length ks = length vs -> 2 <= length ks ->
     exists h, NewMinMax ltb zk zv [Heap.WithData ks vs] = Ok h /\ heap_ok ltb h /\ items h ≡ₚ tail (zip ks vs)) /\
  forall h : MinMax (K:=K) (V:=V), heap_ok ltb h ->
  (forall k v, exists h', Push ltb h k v = Ok h' /\ heap_ok ltb h' /\ items h' ≡ₚ (k, v) :: items h) /\
  (forall i p, items h !! i = Some p ->
     exists h', Remove ltb h (Z.of_nat i + 1) = Ok (h', Some p) /\ heap_ok ltb h' /\ items h ≡ₚ p :: items h') /\
  (forall i p k v, items h !! i = Some p ->
     exists h', Update ltb h (Z.of_nat i + 1) k v = Ok h' /\ heap_ok ltb h' /\ items h' ≡ₚ <[i:=(k, v)]> (items h)) /\
  (items h <> [] -> exists h' p, PopMin ltb h = Ok (h', p) /\ heap_ok ltb h' /\ items h ≡ₚ p :: items h' /\
     Forall (fun q => ltb q.1 p.1 = false) (items h)) /\
  (items h <> [] -> exists h' p, PopMax ltb h = Ok (h', p) /\ heap_ok ltb h' /\ items h ≡ₚ p :: items h' /\
     Forall (fun q => ltb p.1 q.1 = false) (items h)).
Proof.
  split_and!; [done|apply new_ok|..].
  - intros ks vs Hl Hn. destruct (heapify_ok ltb (MkMinMax ks vs false []) Hl Hn) as (h & E & Hok & HP).
    exists h. split_and!; [|done|done]. unfold NewMinMax. cbn. by rewrite Hl, Nat.eqb_refl.
  - intros h Hok. split_and!.
    + intros k v. by apply Push_ok.
    + intros i p. by apply Remove_ok.
    + intros i p k v. by apply Update_ok.
    + intros Hne. destruct (PopMin_ok ltb h Hok Hne) as (h' & p & E & Hok' & HP & Hk). exists h', p. split_and!; try done.
      apply Forall_forall. intros q Hq. destruct (items_extreme ltb h q Hok Hq) as [Hx _]. by apply Hx.
    + intros Hne. destruct (PopMax_ok ltb h Hok Hne) as (h' & p & E & Hok' & HP & Hk). exists h', p. split_and!; try done.
      apply Forall_forall. intros q Hq. destruct (items_extreme ltb h q Hok Hq) as [_ Hx]. by apply Hx.
Qed.

Lemma MinMax_operations_witness :
  let h := MkMinMax [0; 1; 9; 3; 7]%Z [tt; tt; tt; tt; tt] true [] in
  Heap.StrictWeak Z.ltb /\ exists h' p, PopMax Z.ltb h = Ok (h', p) /\ heap_ok Z.ltb h' /\ items h ≡ₚ p :: items h' /\
    Forall (fun q => Z.ltb p.1 q.1 = false) (items h).
Proof.
  intros h. split; [apply Heap.Z_ltb_weak|].
  destruct (MinMax_operations Z.ltb Heap.Z_ltb_weak 0%Z tt) as (_ & _ & _ & H). destruct (H h) as (_ & _ & _ & _ & Hx); [|by apply Hx].
  constructor; cbn; [done|lia|]. intros a b x y HR Hx Hy. apply Z.ltb_ge. inversion HR as [g Hg|g c Hk Hg|g c Hk Hg|g c Hk Hg]; unfold kid in *; subst.
  - destruct g as [|[|]]; cbn in *; simplify_eq; lia.
  - destruct g as [|[|]], c as [|[|]]; cbn in *; simplify_eq; lia.
  - destruct g as [|[|]], c as [|[|]]; cbn in *; simplify_eq; lia.
  - destruct g as [|[|]], c as [|[|[|]]]; cbn in *; simplify_eq; lia.
Defined.

(** The bounded pushes.  From an empty heap, [PushMaxN] of any entries with a
    bound [n] of at least one keeps [n] of them (all, when there are fewer), and
    no key kept is less than a key turned away; [PushMinN] keeps [n] of which none
    is greater than a key turned away.  Nothing is lost otherwise, and the heap
    keeps its order. *)
Theorem PushN_keeps_the_extremes {K V} (ltb : K -> K -> bool) (Horder : Heap.StrictWeak ltb) (zk : K) (zv : V) (c : bool)
    (n : nat) (l : list (K * V)) :
  1 <= n ->
  (exists h rest, PushMaxN_all ltb (Z.of_nat n) (MkMinMax [zk] [zv] c []) l = Ok h /\ heap_ok ltb h /\
     items h ++ rest ≡ₚ l /\ length (items h) = n `min` length l /\
     forall p q, p ∈ items h -> q ∈ rest -> ltb p.1 q.1 = false) /\
  (exists h rest, PushMinN_all ltb (Z.of_nat n) (MkMinMax [zk] [zv] c []) l = Ok h /\ heap_ok ltb h /\
     items h ++ rest ≡ₚ l /\ length (items h) = n `min` length l /\
     forall p q, p ∈ items h -> q ∈ rest -> ltb q.1 p.1 = false).
Proof.
  intros Hn. assert (forall beats, best ltb beats n (MkMinMax [zk] [zv] c []) [] []) as H0.
  { intros beats. constructor; [apply new_ok|done|split; [cbn; lia|done]|]. intros p q Hp. by apply elem_of_nil in Hp. }
  assert (forall beats h rest, best ltb beats n h l rest -> length (items h) = n `min` length l) as Hlen.
  { intros beats h rest [_ HP [Hs Hr] _]. rewrite <- HP, length_app. destruct rest as [|]; cbn; [lia|]. specialize (Hr ltac:(done)). lia. }
  split.
  - destruct (best_all ltb (not_less ltb) (fun h (p : K * V) => PushMaxN ltb h p.1 p.2 (Z.of_nat n)) n) with (l2 := l) (2 := H0 (not_less ltb)) as (h & rest & E & Hb).
    { intros. by eapply PushMaxN_step. }
    exists h, rest. split; [exact E|]. split_and!; [apply Hb|apply Hb|by eapply Hlen|apply Hb].
  - destruct (best_all ltb (not_more ltb) (fun h (p : K * V) => PushMinN ltb h p.1 p.2 (Z.of_nat n)) n) with (l2 := l) (2 := H0 (not_more ltb)) as (h & rest & E & Hb).
    { intros. by eapply PushMinN_step. }
    exists h, rest. split; [exact E|]. split_and!; [apply Hb|apply Hb|by eapply Hlen|apply Hb].
Qed.

Lemma PushN_keeps_the_extremes_witness :
  exists h rest, PushMaxN_all Z.ltb 2 (MkMinMax [0%Z] [tt] false []) [(5, tt); (1, tt); (7, tt)]%Z = Ok h /\ heap_ok Z.ltb h /\
    items h ++ rest ≡ₚ [(5, tt); (1, tt); (7, tt)]%Z /\ length (items h) = 2 /\ forall p q, p ∈ items h -> q ∈ rest -> (p.1 <? q.1)%Z = false.
Proof.
  destruct (PushN_keeps_the_extremes Z.ltb Heap.Z_ltb_weak 0%Z tt false 2 [(5, tt); (1, tt); (7, tt)]%Z) as [H _]; [lia|]. exact H.
Defined.

(** On a slice of fewer than two slots [heapify] does not end, whatever the fuel. *)
Lemma heapify_short_never_ends {K V} (h : MinMax (K:=K) (V:=V)) : length (Keys h) <= 1 -> forall fuel, levels fuel (length (Keys h)) 1 = NoFuel.
Proof. intros H fuel. by apply levels_diverges. Qed.

(** Popping an empty heap panics, and so does a bounded push with a bound that
    is not positive. *)
Lemma empty_panics {K V} (ltb : K -> K -> bool) (zk k : K) (zv v : V) c n : (n <= 0)%Z ->
  let h := MkMinMax [zk] [zv] c [] in
  PopMin ltb h = Panic /\ PopMax ltb h = Panic /\ PushMaxN ltb h k v n = Panic /\ PushMinN ltb h k v n = Panic.
Proof.
  intros Hn h. split_and!; [done|done|..]; unfold PushMaxN, PushMinN; cbn [Keys h length]; rewrite (proj2 (Z.ltb_ge _ _)) by lia; done.
Qed.
