(* ===== verification/Circular.v ===== *)
(** * The circular buffer (algo/container/circular)

    [Buffer] holds a queue in a slice that wraps around and grows as needed; it
    refines the queue as a plain list. *)

From stdpp Require Import base list option numbers.
From Stdlib Require Import ZArith Lia.
From S2P Require Import Prelude.

Open Scope list_scope.
Open Scope Z_scope.
Open Scope go_scope.

(** ** Slices of a slice, and copy *)

Section slices.
Context {A : Type}.

(** [copy(dst[off:], src)]: the new contents of [dst] and the count copied. *)
Definition copy_to (dst : list A) (off : Z) (src : list A) : res (list A * Z) :=
  if (0 <=? off) && (off <=? len dst) then
    let n := Z.min (len dst - off) (len src) in
    Ok (take (Z.to_nat off) dst ++ take (Z.to_nat n) src ++ drop (Z.to_nat (off + n)) dst, n)
  else Panic.

(** [l[lo:]]. *)
Definition slice_from (l : list A) (lo : Z) : res (list A) := zslice l lo (len l).

Definition make (zero : A) (n : Z) : res (list A) :=
  if n <? 0 then Panic else Ok (replicate (Z.to_nat n) zero).

Lemma len_take (l : list A) n : 0 <= n <= len l -> len (take (Z.to_nat n) l) = n.
Proof. intros. unfold len in *. rewrite length_take. lia. Qed.

Lemma len_drop (l : list A) n : 0 <= n <= len l -> len (drop (Z.to_nat n) l) = len l - n.
Proof. intros. unfold len in *. rewrite length_drop. lia. Qed.

Lemma slice_from_Ok l lo : 0 <= lo <= len l -> slice_from l lo = Ok (drop (Z.to_nat lo) l).
Proof.
  intros Hlo. unfold slice_from, zslice.
  rewrite (proj2 (Z.leb_le 0 lo)), (proj2 (Z.leb_le lo (len l))), (proj2 (Z.leb_le _ _) (Z.le_refl _)) by lia.
  cbn [andb]. f_equal. rewrite take_ge; [done|]. rewrite length_drop. unfold len in *. lia.
Qed.

Lemma copy_to_Ok dst off src :
  0 <= off <= len dst -> off + len src <= len dst ->
  copy_to dst off src =
    Ok (take (Z.to_nat off) dst ++ src ++ drop (Z.to_nat (off + len src)) dst, len src).
Proof.
  intros Hoff Hlen. unfold copy_to. rewrite (proj2 (Z.leb_le 0 off)), (proj2 (Z.leb_le off (len dst))) by lia.
  cbn [andb]. rewrite Z.min_r by lia. rewrite (take_ge src); [done|]. unfold len. lia.
Qed.

(** A copy that fills the destination to its end. *)
Lemma copy_to_full dst off src :
  0 <= off <= len dst -> len dst <= off + len src ->
  copy_to dst off src =
    Ok (take (Z.to_nat off) dst ++ take (Z.to_nat (len dst - off)) src, len dst - off).
Proof.
  intros Hoff Hlen. unfold copy_to. rewrite (proj2 (Z.leb_le 0 off)), (proj2 (Z.leb_le off (len dst))) by lia.
  cbn [andb]. rewrite Z.min_l by lia. rewrite (drop_ge dst), app_nil_r; [done|]. unfold len in *. lia.
Qed.

Lemma copy_to_nil dst : copy_to dst 0 [] = Ok (dst, 0).
Proof.
  rewrite copy_to_Ok by (unfold len; cbn; lia). change (len (@nil A)) with 0.
  change (Z.to_nat (0 + 0)) with 0%nat. change (Z.to_nat 0) with 0%nat.
  by rewrite take_0, drop_0.
Qed.

Lemma copy_to_bounds dst off src :
  0 <= off <= len dst ->
  exists d c, copy_to dst off src = Ok (d, c) /\ len d = len dst /\ 0 <= c /\ off + c <= len dst.
Proof.
  intros Hoff. pose proof (len_nonneg src). destruct (Z.le_ge_cases (off + len src) (len dst)).
  - rewrite copy_to_Ok by lia. eexists _, _. split; [done|].
    rewrite !len_app, len_take, len_drop by lia. lia.
  - rewrite copy_to_full by lia. eexists _, _. split; [done|].
    rewrite len_app, !len_take by lia. lia.
Qed.

(** Cutting a concatenation at its seam. *)
Lemma take_seam (a b : list A) k : k = len a -> take (Z.to_nat k) (a ++ b) = a.
Proof. intros ->. unfold len. rewrite Nat2Z.id. apply take_app_length. Qed.

Lemma drop_seam (a b : list A) k : k = len a -> drop (Z.to_nat k) (a ++ b) = b.
Proof. intros ->. unfold len. rewrite Nat2Z.id. apply drop_app_length. Qed.

Lemma length_pos (l : list A) : 0 < len l <-> l <> [].
Proof. destruct l; rewrite ?len_nil, ?len_cons; [done|]. pose proof (len_nonneg l). split; [done|lia]. Qed.

(** Any list can be cut after [k] elements. *)
Lemma split_at (l : list A) k : 0 <= k <= len l -> exists a b, l = a ++ b /\ len a = k /\ len b = len l - k.
Proof.
  intros Hk. exists (take (Z.to_nat k) l), (drop (Z.to_nat k) l).
  by rewrite take_drop, len_take, len_drop by lia.
Qed.

Lemma make_Ok (zero : A) n : 0 <= n -> make zero n = Ok (replicate (Z.to_nat n) zero).
Proof. intros. unfold make. by rewrite (proj2 (Z.ltb_ge n 0)) by lia. Qed.
End slices.

(** ** Buffer *)

Section buffer.
Context {A : Type} (zero : A).

Record Buffer := MkBuffer {
  storage : list A;
  used : Z;
  head : Z;
  tail : Z;
}.

Definition NewBuffer (size : Z) : res Buffer :=
  let size := if size =? 0 then 1 else size in
  let! s := make zero size in
  Ok (MkBuffer s 0 0 0).

Definition Len (b : Buffer) : Z := used b.

(** The slices are used to their whole length, which is their capacity. *)
Definition Cap (b : Buffer) : Z := len (storage b).

(** The copy of the contents to the front of a fresh slice of [size] elements,
    common to [grow] and [Compact]. *)
Definition relocate (b : Buffer) (size : Z) : res Buffer :=
  let! n := make zero size in
  if head b <=? tail b then
    let! src := zslice (storage b) (head b) (tail b + 1) in
    let! (n, c) := copy_to n 0 src in
    Ok (MkBuffer n (used b) 0 (c - 1))
  else
    let! src := slice_from (storage b) (head b) in
    let! (n, c) := copy_to n 0 src in
    let! src := zslice (storage b) 0 (tail b + 1) in
    let! (n, c2) := copy_to n c src in
    Ok (MkBuffer n (used b) 0 (c + c2 - 1)).

Definition grow (b : Buffer) (size : Z) : res Buffer := relocate b size.

Definition Append (b : Buffer) (v : list A) : res Buffer :=
  let total := used b + len v in
  let! b := if len (storage b) <? total then grow b total else Ok b in
  let! b :=
    if used b =? 0 then
      let! (s, c) := copy_to (storage b) 0 v in
      Ok (MkBuffer s (used b) 0 (c - 1))
    else if head b <=? tail b then
      let! (s, c) := copy_to (storage b) (tail b + 1) v in
      let! rest := slice_from v c in
      let! (s, _) := copy_to s 0 rest in
      let! t := go_rem (tail b + len v) (len s) in
      Ok (MkBuffer s (used b) (head b) t)
    else
      let! (s, _) := copy_to (storage b) (tail b + 1) v in
      Ok (MkBuffer s (used b) (head b) (tail b + len v)) in
  Ok (MkBuffer (storage b) (used b + len v) (head b) (tail b)).

Definition Head (b : Buffer) (n : Z) : res (Buffer * list A) :=
  if (n =? 0) || (used b =? 0) then Ok (b, [])
  else
    let n := if used b <? n then used b else n in
    let! o := make zero n in
    if head b <? tail b then
      let! src := slice_from (storage b) (head b) in
      let! (o, _) := copy_to o 0 src in
      Ok (MkBuffer (storage b) (used b - n) (head b + n) (tail b), o)
    else
      let! src := slice_from (storage b) (head b) in
      let! (o, c) := copy_to o 0 src in
      let! (o, _) := copy_to o c (storage b) in
      let! h := go_rem (head b + n) (len (storage b)) in
      Ok (MkBuffer (storage b) (used b - n) h (tail b), o).

Definition Compact (b : Buffer) : res Buffer :=
  if used b =? 0 then
    let! s := make zero 1 in Ok (MkBuffer s (used b) 0 0)
  else relocate b (used b).

(** ** The queue a buffer holds *)

Inductive holds (b : Buffer) (l : list A) : Prop :=
| holds_empty :
    0 < len (storage b) -> used b = 0 -> l = [] ->
    0 <= head b <= len (storage b) -> -1 <= tail b < len (storage b) -> holds b l
| holds_straight :
    used b = len l -> 0 <= head b <= tail b -> tail b < len (storage b) ->
    l = take (Z.to_nat (tail b + 1 - head b)) (drop (Z.to_nat (head b)) (storage b)) -> holds b l
| holds_wrapped :
    used b = len l -> 0 <= tail b < head b -> head b < len (storage b) ->
    l = drop (Z.to_nat (head b)) (storage b) ++ take (Z.to_nat (tail b + 1)) (storage b) -> holds b l.

(** The sizes that go with each shape. *)
Lemma straight_len b l :
  0 <= head b <= tail b -> tail b < len (storage b) ->
  l = take (Z.to_nat (tail b + 1 - head b)) (drop (Z.to_nat (head b)) (storage b)) ->
  len l = tail b + 1 - head b.
Proof. intros H1 H2 ->. rewrite len_take; [done|]. rewrite len_drop by lia. lia. Qed.

Lemma wrapped_len b l :
  0 <= tail b < head b -> head b < len (storage b) ->
  l = drop (Z.to_nat (head b)) (storage b) ++ take (Z.to_nat (tail b + 1)) (storage b) ->
  len l = len (storage b) - head b + tail b + 1.
Proof. intros H1 H2 ->. rewrite len_app, len_drop, len_take by lia. lia. Qed.

Lemma make_len n : 0 <= n -> exists s, make zero n = Ok s /\ len s = n.
Proof. intros. rewrite make_Ok by done. eexists. split; [done|]. rewrite len_replicate. lia. Qed.

Lemma drop_replicate_Z (n k : Z) :
  0 <= k <= n -> drop (Z.to_nat k) (replicate (Z.to_nat n) zero) = replicate (Z.to_nat (n - k)) zero.
Proof. intros. rewrite drop_replicate. f_equal. lia. Qed.

(** Moving the contents to the front of a slice they fit in. *)
Lemma relocate_spec b l size :
  holds b l -> 0 < used b -> used b <= size ->
  relocate b size = Ok (MkBuffer (l ++ replicate (Z.to_nat (size - used b)) zero) (used b) 0 (used b - 1)).
Proof.
  intros Hb Hu Hsz. pose proof (len_nonneg l). unfold relocate. rewrite make_Ok by lia. cbn [rbind].
  destruct Hb as [|Eu H1 H2 El|Eu H1 H2 El].
  - lia.
  - rewrite (proj2 (Z.leb_le (head b) (tail b))) by lia.
    rewrite zslice_Ok by lia. cbn [rbind]. rewrite <- El.
    rewrite copy_to_Ok by (rewrite len_replicate; lia). cbn [rbind]. rewrite Z.add_0_l, <- Eu.
    change (Z.to_nat 0) with 0%nat. rewrite take_0, app_nil_l. by rewrite drop_replicate_Z by lia.
  - pose proof (wrapped_len b l H1 H2 El) as Hl.
    rewrite (proj2 (Z.leb_gt (head b) (tail b))) by lia.
    rewrite slice_from_Ok by lia. cbn [rbind].
    rewrite copy_to_Ok by (rewrite ?len_replicate, ?len_drop by lia; lia). cbn [rbind].
    rewrite zslice_Ok by lia. cbn [rbind]. rewrite len_drop, Z.add_0_l by lia.
    rewrite Z.sub_0_r. change (Z.to_nat 0) with 0%nat. rewrite !take_0, drop_0, app_nil_l.
    set (hd := drop (Z.to_nat (head b)) (storage b)) in *. set (tl := take (Z.to_nat (tail b + 1)) (storage b)) in *.
    assert (Ehd : len hd = len (storage b) - head b) by (apply len_drop; lia).
    assert (Etl : len tl = tail b + 1) by (apply len_take; lia).
    rewrite drop_replicate_Z by lia.
    rewrite copy_to_Ok by (rewrite ?len_app, ?len_replicate; lia). cbn [rbind].
    rewrite take_app_le by (unfold len in *; lia). rewrite take_ge by (unfold len in *; lia).
    rewrite drop_app_ge by (unfold len in *; lia).
    replace (Z.to_nat (len (storage b) - head b + len tl) - length hd)%nat with (Z.to_nat (len tl)) by (unfold len in *; lia).
    rewrite drop_replicate_Z by lia. rewrite El, <- app_assoc. do 2 f_equal; [|lia].
    do 2 f_equal. f_equal. lia.
Qed.

Lemma relocate_empty b size :
  holds b [] -> used b = 0 -> 0 < size ->
  exists b', relocate b size = Ok b' /\ len (storage b') = size /\ used b' = 0 /\ head b' = 0 /\ -1 <= tail b' < size.
Proof.
  intros Hb Hu Hsz.
  assert (HR : 0 < len (storage b) /\ 0 <= head b <= len (storage b) /\ -1 <= tail b < len (storage b)).
  { destruct Hb as [|Eu|Eu]; [done| |]; rewrite Hu in Eu.
    - pose proof (straight_len b [] ltac:(done) ltac:(done) ltac:(done)). rewrite len_nil in *. lia.
    - pose proof (wrapped_len b [] ltac:(done) ltac:(done) ltac:(done)). rewrite len_nil in *. lia. }
  destruct HR as (Hn & Hh & Ht). unfold relocate. destruct (make_len size ltac:(lia)) as (s0 & -> & Hs0). cbn [rbind].
  destruct (Z.leb_spec (head b) (tail b)).
  - rewrite zslice_Ok by lia. cbn [rbind].
    destruct (copy_to_bounds s0 0 (take (Z.to_nat (tail b + 1 - head b)) (drop (Z.to_nat (head b)) (storage b))))
      as (d & c & -> & Hd & Hc & Hc'); [lia|]. cbn [rbind]. eexists. split; [done|]. cbn. lia.
  - rewrite slice_from_Ok by lia. cbn [rbind].
    destruct (copy_to_bounds s0 0 (drop (Z.to_nat (head b)) (storage b))) as (d & c & -> & Hd & Hc & Hc'); [lia|].
    cbn [rbind]. rewrite zslice_Ok by lia. cbn [rbind].
    destruct (copy_to_bounds d c (take (Z.to_nat (tail b + 1 - 0)) (drop (Z.to_nat 0) (storage b))))
      as (d2 & c2 & -> & Hd2 & Hc2 & Hc2'); [lia|]. cbn [rbind]. eexists. split; [done|]. cbn. lia.
Qed.

(** The two shapes as concatenations. *)
Lemma straight_split b l :
  0 <= head b <= tail b -> tail b < len (storage b) ->
  l = take (Z.to_nat (tail b + 1 - head b)) (drop (Z.to_nat (head b)) (storage b)) ->
  exists pre post, storage b = pre ++ l ++ post /\ len pre = head b /\ tail b = len pre + len l - 1.
Proof.
  intros H1 H2 El. pose proof (straight_len b l H1 H2 El).
  exists (take (Z.to_nat (head b)) (storage b)),
    (drop (Z.to_nat (tail b + 1 - head b)) (drop (Z.to_nat (head b)) (storage b))).
  rewrite El at 1. rewrite !take_drop. split; [done|]. rewrite len_take by lia. lia.
Qed.

Lemma straight_intro b pre l post :
  storage b = pre ++ l ++ post -> head b = len pre -> tail b = len pre + len l - 1 ->
  used b = len l -> l <> [] -> holds b l.
Proof.
  intros Es Eh Et Eu Hl%length_pos. pose proof (len_nonneg pre). pose proof (len_nonneg post).
  apply holds_straight; [done|lia|rewrite Es, !len_app; lia|].
  rewrite Es, Eh, drop_seam by done. rewrite take_seam; [done|lia].
Qed.

Lemma wrapped_split b l :
  0 <= tail b < head b -> head b < len (storage b) ->
  l = drop (Z.to_nat (head b)) (storage b) ++ take (Z.to_nat (tail b + 1)) (storage b) ->
  exists l1 l2 gap, storage b = l2 ++ gap ++ l1 /\ l = l1 ++ l2 /\ tail b = len l2 - 1 /\
    head b = len l2 + len gap /\ 0 < len l1 /\ 0 < len l2.
Proof.
  intros H1 H2 El. destruct (split_at (storage b) (head b)) as (a & l1 & Es & Ea & El1); [lia|].
  destruct (split_at a (tail b + 1)) as (l2 & gap & -> & El2 & Eg); [lia|].
  exists l1, l2, gap. rewrite <- app_assoc in Es. rewrite Es in El.
  rewrite take_seam in El by lia. rewrite (app_assoc l2), drop_seam in El by done.
  split_and!; [done|done|lia|lia|lia|lia].
Qed.

Lemma wrapped_intro b l1 l2 gap :
  storage b = l2 ++ gap ++ l1 -> tail b = len l2 - 1 -> head b = len l2 + len gap ->
  used b = len l1 + len l2 -> l1 <> [] -> l2 <> [] -> holds b (l1 ++ l2).
Proof.
  intros Es Et Eh Eu Hl1%length_pos Hl2%length_pos. pose proof (len_nonneg gap).
  apply holds_wrapped; [rewrite len_app; lia|lia|rewrite Es, !len_app; lia|].
  rewrite Es, take_seam by lia. rewrite (app_assoc l2), drop_seam; [done|]. rewrite len_app. lia.
Qed.

(** ** The operations *)

Lemma Append_straight b l v pre post :
  storage b = pre ++ l ++ post -> head b = len pre -> tail b = len pre + len l - 1 ->
  used b = len l -> l <> [] -> len l + len v <= len (storage b) ->
  exists s t, (let! (s, c) := copy_to (storage b) (tail b + 1) v in
      let! rest := slice_from v c in
      let! (s, _) := copy_to s 0 rest in
      let! t := go_rem (tail b + len v) (len s) in
      Ok (MkBuffer s (used b) (head b) t)) = Ok (MkBuffer s (used b) (head b) t) /\
    holds (MkBuffer s (used b + len v) (head b) t) (l ++ v).
Proof.
  intros Es Eh Et Eu Hne Hfit. pose proof (proj2 (length_pos l) Hne).
  pose proof (len_nonneg pre). pose proof (len_nonneg post). pose proof (len_nonneg v).
  assert (HN : len (storage b) = len pre + len l + len post) by (rewrite Es, !len_app; lia).
  destruct (Z.le_gt_cases (len v) (len post)) as [Hv|Hv].
  - destruct (split_at post (len v)) as (p1 & p2 & -> & Ep1 & _); [lia|].
    rewrite copy_to_Ok by lia. cbn [rbind]. rewrite slice_from_Ok by lia. cbn [rbind].
    replace (drop (Z.to_nat (len v)) v) with (@nil A).
    2: { symmetry. apply drop_ge. unfold len. lia. }
    rewrite copy_to_nil. cbn [rbind].
    assert (E : take (Z.to_nat (tail b + 1)) (storage b) ++ v ++ drop (Z.to_nat (tail b + 1 + len v)) (storage b)
      = pre ++ (l ++ v) ++ p2).
    { rewrite Es. rewrite (app_assoc pre l), take_seam by (rewrite len_app; lia).
      rewrite (app_assoc (pre ++ l) p1), drop_seam by (rewrite !len_app; lia). by rewrite <- !app_assoc. }
    rewrite E. rewrite !len_app in HN. pose proof (len_nonneg p2). unfold go_rem.
    rewrite (proj2 (Z.eqb_neq _ 0)) by (rewrite !len_app; lia). cbn [rbind].
    rewrite Z.rem_small by (rewrite !len_app; lia).
    eexists _, _. split; [done|]. apply straight_intro with pre p2; cbn; rewrite ?len_app; try done; [lia|lia|].
    intros Hnil. apply app_eq_nil in Hnil as [? _]. done.
  - destruct (split_at v (len post)) as (v1 & v2 & -> & Ev1 & Ev2); [lia|].
    rewrite copy_to_full by lia. cbn [rbind]. rewrite HN.
    replace (len pre + len l + len post - (tail b + 1)) with (len v1) by lia.
    rewrite slice_from_Ok by (rewrite len_app; lia). cbn [rbind]. rewrite take_seam, drop_seam by done.
    rewrite Es, (app_assoc pre l), take_seam by (rewrite len_app; lia).
    rewrite !len_app in *. destruct (split_at pre (len v2)) as (q1 & q2 & -> & Eq1 & Eq2); [lia|].
    rewrite !len_app in *. pose proof (len_nonneg v1). pose proof (len_nonneg v2).
    rewrite copy_to_Ok by (rewrite ?len_app; lia). cbn [rbind].
    change (Z.to_nat 0) with 0%nat. rewrite take_0, app_nil_l, Z.add_0_l.
    rewrite <- !app_assoc, drop_seam by done. unfold go_rem.
    rewrite (proj2 (Z.eqb_neq _ 0)) by (rewrite !len_app; lia). cbn [rbind].
    rewrite Z.rem_mod_nonneg by (rewrite ?len_app; lia). rewrite !len_app.
    replace ((tail b + (len v1 + len v2)) mod (len v2 + (len q2 + (len l + len v1)))) with (len v2 - 1).
    2: { apply Z.mod_unique with 1; lia. }
    eexists _, _. split; [done|].
    replace (l ++ v1 ++ v2) with ((l ++ v1) ++ v2) by by rewrite app_assoc.
    apply wrapped_intro with q2; cbn; rewrite ?len_app; try done; try lia.
    + intros Hnil. apply app_eq_nil in Hnil as [? _]. done.
    + apply length_pos. lia.
Qed.

(** What [Append] does once there is room. *)
Definition append_room (b : Buffer) (v : list A) : res Buffer :=
  if used b =? 0 then
    let! (s, c) := copy_to (storage b) 0 v in
    Ok (MkBuffer s (used b) 0 (c - 1))
  else if head b <=? tail b then
    let! (s, c) := copy_to (storage b) (tail b + 1) v in
    let! rest := slice_from v c in
    let! (s, _) := copy_to s 0 rest in
    let! t := go_rem (tail b + len v) (len s) in
    Ok (MkBuffer s (used b) (head b) t)
  else
    let! (s, _) := copy_to (storage b) (tail b + 1) v in
    Ok (MkBuffer s (used b) (head b) (tail b + len v)).

Lemma append_room_empty b v :
  used b = 0 -> 0 < len (storage b) -> len v <= len (storage b) ->
  exists b', append_room b v = Ok b' /\ used b' = 0 /\
    holds (MkBuffer (storage b') (len v) (head b') (tail b')) v.
Proof.
  intros Eu Hn Hv. pose proof (len_nonneg v). unfold append_room. rewrite Eu. cbn [Z.eqb].
  rewrite copy_to_Ok by lia. cbn [rbind]. eexists. split; [done|]. split; [done|]. cbn.
  change (Z.to_nat 0) with 0%nat. rewrite take_0, app_nil_l.
  destruct (decide (v = [])) as [->|Hne].
  - apply holds_empty; cbn; change (len []) with 0; change (Z.to_nat (0 + 0)) with 0%nat; rewrite ?drop_0; done || lia.
  - apply straight_intro with [] (drop (Z.to_nat (0 + len v)) (storage b)); cbn; done || (change (len []) with 0; lia).
Qed.

Lemma append_room_full b l v :
  holds b l -> used b <> 0 -> used b + len v <= len (storage b) ->
  exists b', append_room b v = Ok b' /\ used b' = used b /\
    holds (MkBuffer (storage b') (used b + len v) (head b') (tail b')) (l ++ v).
Proof.
  intros Hb Hu Hfit. unfold append_room. rewrite (proj2 (Z.eqb_neq _ 0)) by done.
  destruct Hb as [|Eu H1 H2 El|Eu H1 H2 El]; [done| |].
  - rewrite (proj2 (Z.leb_le (head b) (tail b))) by lia.
    destruct (straight_split b l H1 H2 El) as (pre & post & Es & Eh & Et).
    destruct (Append_straight b l v pre post) as (s & t & -> & Hh); try done; [|lia|by eexists].
    intros ->. change (len []) with 0 in Eu. done.
  - rewrite (proj2 (Z.leb_gt (head b) (tail b))) by lia.
    destruct (wrapped_split b l H1 H2 El) as (l1 & l2 & gap & Es & -> & Et & Eh & Hl1 & Hl2).
    rewrite len_app in Eu. rewrite Es, !len_app in Hfit. pose proof (len_nonneg v).
    destruct (split_at gap (len v)) as (g1 & g2 & -> & Eg1 & Eg2); [lia|].
    rewrite Es. rewrite copy_to_Ok by (rewrite !len_app in *; lia). cbn [rbind].
    rewrite take_seam by lia. rewrite <- app_assoc, (app_assoc l2 g1), drop_seam by (rewrite len_app; lia).
    eexists. split; [done|]. split; [done|]. cbn.
    replace ((l1 ++ l2) ++ v) with (l1 ++ (l2 ++ v)) by by rewrite app_assoc.
    rewrite len_app in Eh.
    apply wrapped_intro with g2; cbn; rewrite ?len_app, <- ?app_assoc; try done; try lia.
    + by apply length_pos.
    + apply length_pos. rewrite len_app. lia.
Qed.

Lemma Append_spec b l v :
  holds b l -> exists b', Append b v = Ok b' /\ holds b' (l ++ v).
Proof.
  intros Hb. pose proof (len_nonneg l). pose proof (len_nonneg v).
  assert (Hul : used b = len l) by (destruct Hb as [? ? ->| |]; done).
  assert (HR : exists b1, (if len (storage b) <? used b + len v then grow b (used b + len v) else Ok b) = Ok b1 /\
    holds b1 l /\ used b1 = used b /\ 0 < len (storage b1) /\ used b + len v <= len (storage b1)).
  { destruct (Z.ltb_spec (len (storage b)) (used b + len v)) as [Hlt|Hge].
    - pose proof (len_nonneg (storage b)). unfold grow. destruct (Z.eq_dec (used b) 0) as [E|Hne].
      + assert (l = []) as -> by (destruct l; [done|]; rewrite len_cons in *; pose proof (len_nonneg l); lia).
        destruct (relocate_empty b (used b + len v) Hb E) as (b1 & -> & Hs & Hu & Hh & Ht); [lia|].
        exists b1. split_and!; try done; try lia. apply holds_empty; done || lia.
      + rewrite (relocate_spec b l) by (done || lia). eexists. split; [done|].
        cbn. rewrite len_app, len_replicate. split_and!; try lia.
        eapply straight_intro with [] _; cbn; [done|done|change (len []) with 0; lia|done|].
        intros ->. by change (len []) with 0 in *.
    - exists b. split_and!; try done. destruct Hb; [done|lia..]. }
  destruct HR as (b1 & E1 & Hb1 & Hu1 & Hn1 & Hfit). unfold Append. rewrite E1. cbn [rbind].
  fold (append_room b1 v). destruct (Z.eq_dec (used b1) 0) as [E0|Hne].
  - assert (l = []) as -> by (destruct l; [done|]; rewrite len_cons in *; pose proof (len_nonneg l); lia).
    destruct (append_room_empty b1 v E0) as (b2 & -> & Eu2 & Hh); [lia..|]. cbn [rbind].
    eexists. split; [done|]. by rewrite Eu2.
  - destruct (append_room_full b1 l v Hb1 Hne) as (b2 & -> & Eu2 & Hh); [lia|]. cbn [rbind].
    eexists. split; [done|]. by rewrite Eu2.
Qed.

Lemma Compact_spec b l :
  holds b l -> exists b', Compact b = Ok b' /\ holds b' l /\ Cap b' = Z.max 1 (len l).
Proof.
  intros Hb. pose proof (len_nonneg l).
  assert (Hul : used b = len l) by (destruct Hb as [? ? ->| |]; done). unfold Compact.
  destruct (Z.eqb_spec (used b) 0) as [E|Hne].
  - assert (l = []) as -> by (destruct l; [done|]; rewrite len_cons in *; pose proof (len_nonneg l); lia).
    eexists. split; [done|]. split; [|done]. apply holds_empty; cbn; done || (unfold len; cbn; lia).
  - rewrite (relocate_spec b l) by (done || lia). eexists. split; [done|].
    replace (used b - used b) with 0 by lia. change (Z.to_nat 0) with 0%nat. cbn [replicate].
    split; [|unfold Cap; cbn; rewrite app_nil_r; lia].
    eapply straight_intro with [] []; cbn; [done|done|change (len []) with 0; lia|done|].
    intros ->. by change (len []) with 0 in *.
Qed.

(** The second branch of [Head]: [n] elements copied from [head] on, wrapping
    to the front of the storage. *)
Definition take_around (b : Buffer) (n : Z) : res (Buffer * list A) :=
  let! o := make zero n in
  let! src := slice_from (storage b) (head b) in
  let! (o, c) := copy_to o 0 src in
  let! (o, _) := copy_to o c (storage b) in
  let! h := go_rem (head b + n) (len (storage b)) in
  Ok (MkBuffer (storage b) (used b - n) h (tail b), o).

(** Its result, from the elements before ([a]) and after ([f]) the seam. *)
Lemma take_around_spec b n pre a post front f rest :
  storage b = pre ++ a ++ post -> head b = len pre -> storage b = front ++ rest ->
  0 < n -> n = len a + len front -> (front = [] \/ post = []) -> f = a ++ front ->
  take_around b n =
    Ok (MkBuffer (storage b) (used b - n) ((head b + n) mod len (storage b)) (tail b), f).
Proof.
  intros Es Eh Er Hn En Hor ->. unfold take_around.
  pose proof (len_nonneg pre). pose proof (len_nonneg a). pose proof (len_nonneg post).
  pose proof (len_nonneg front). pose proof (len_nonneg rest).
  assert (HN : len (storage b) = len pre + len a + len post) by (rewrite Es, !len_app; lia).
  assert (HN' : len (storage b) = len front + len rest) by (rewrite Er, !len_app; lia).
  rewrite make_Ok by lia. cbn [rbind]. rewrite slice_from_Ok by lia. cbn [rbind].
  rewrite Es at 1. rewrite drop_seam by done.
  assert (exists o c, copy_to (replicate (Z.to_nat n) zero) 0 (a ++ post) = Ok (o, c) /\
    exists t, o = a ++ t /\ len t = len front /\ c = len a) as (o & c & -> & t & -> & Et & ->).
  { destruct Hor as [-> | ->].
    - change (len []) with 0 in En. rewrite copy_to_full by (rewrite len_replicate, ?len_app; lia).
      rewrite len_replicate, Z.sub_0_r. change (Z.to_nat 0) with 0%nat.
      eexists _, _. split; [done|]. exists []. rewrite take_0, app_nil_l, app_nil_r, take_seam by lia.
      split_and!; [done|done|lia].
    - rewrite app_nil_r, copy_to_Ok by (rewrite len_replicate; lia). eexists _, _. split; [done|].
      change (Z.to_nat 0) with 0%nat. rewrite take_0, app_nil_l, drop_replicate_Z by lia.
      eexists. split; [done|]. rewrite len_replicate. lia. }
  cbn [rbind]. rewrite copy_to_full by (rewrite ?len_app; lia). cbn [rbind].
  rewrite len_app, take_seam by done.
  replace (take (Z.to_nat (len a + len t - len a)) (storage b)) with front
    by (rewrite Er, take_seam; [done|lia]).
  unfold go_rem. rewrite (proj2 (Z.eqb_neq _ 0)) by lia. cbn [rbind].
  by rewrite Z.rem_mod_nonneg by lia.
Qed.

Lemma holds_drained b h :
  0 < len (storage b) -> 0 <= h <= len (storage b) -> -1 <= tail b < len (storage b) ->
  holds (MkBuffer (storage b) 0 h (tail b)) [].
Proof. intros. by apply holds_empty. Qed.

Lemma Head_wrapped b l1 l2 gap n o rest :
  storage b = l2 ++ gap ++ l1 -> tail b = len l2 - 1 -> head b = len l2 + len gap ->
  used b = len l1 + len l2 -> 0 < len l1 -> 0 < len l2 ->
  l1 ++ l2 = o ++ rest -> len o = n -> 0 < n ->
  exists b', take_around b n = Ok (b', o) /\ holds b' rest.
Proof.
  intros Es Et Eh Eu Hl1 Hl2 El Eo Hn. pose proof (len_nonneg gap). pose proof (len_nonneg rest).
  assert (HN : len (storage b) = len l2 + len gap + len l1) by (rewrite Es, !len_app; lia).
  apply app_eq_app in El as (k & [[-> ->]|[-> ->]]); rewrite len_app in *.
  - (* o is a prefix of l1 *)
    rewrite (take_around_spec b n (l2 ++ gap) o k [] o (storage b)); try done;
      [|rewrite Es; by rewrite !app_assoc|rewrite len_app; lia|change (len []) with 0; lia|by left|by rewrite app_nil_r].
    eexists. split; [done|]. pose proof (len_nonneg k). destruct (decide (k = [])) as [->|Hk].
    + change (len []) with 0 in *. replace ((head b + n) mod len (storage b)) with 0
        by (replace (head b + n) with (len (storage b)) by lia; by rewrite Z.mod_same by lia).
      rewrite app_nil_l. apply straight_intro with [] (gap ++ o); cbn; try (change (len []) with 0); try lia.
      * by rewrite Es, app_nil_r.
      * by apply length_pos.
    + pose proof (proj2 (length_pos k) Hk). rewrite Z.mod_small by lia.
      apply wrapped_intro with (gap ++ o); cbn; rewrite ?len_app; try done; try lia.
      * rewrite Es. by rewrite <- !app_assoc.
      * by apply length_pos.
  - (* o takes l1 and the front of l2 *)
    rewrite (take_around_spec b n ((k ++ rest) ++ gap) l1 [] k (l1 ++ k) (rest ++ gap ++ l1)); try done.
    + eexists. split; [done|]. pose proof (len_nonneg k).
      replace ((head b + n) mod len (storage b)) with (len k) by (apply Z.mod_unique with 1; lia).
      destruct (decide (rest = [])) as [->|Hr].
      * change (len []) with 0 in *. replace (used b - n) with 0 by lia.
        apply holds_drained; lia.
      * apply straight_intro with k (gap ++ l1); cbn; try done; try lia. rewrite Es. by rewrite <- !app_assoc.
    + rewrite Es, app_nil_r. by rewrite !app_assoc.
    + rewrite !len_app. lia.
    + rewrite Es. by rewrite <- !app_assoc.
    + by right.
Qed.

Lemma Head_straight b pre l post n o rest :
  storage b = pre ++ l ++ post -> head b = len pre -> tail b = len pre + len l - 1 ->
  used b = len l -> l = o ++ rest -> len o = n -> 0 < n ->
  exists b', (if head b <? tail b then
      let! o := make zero n in
      let! src := slice_from (storage b) (head b) in
      let! (o, _) := copy_to o 0 src in
      Ok (MkBuffer (storage b) (used b - n) (head b + n) (tail b), o)
    else take_around b n) = Ok (b', o) /\ holds b' rest.
Proof.
  intros Es Eh Et Eu -> Eo Hn. rewrite len_app in *. pose proof (len_nonneg pre).
  pose proof (len_nonneg post). pose proof (len_nonneg rest).
  assert (HN : len (storage b) = len pre + len o + len rest + len post) by (rewrite Es, !len_app; lia).
  destruct (Z.ltb_spec (head b) (tail b)) as [Hlt|Hge].
  - rewrite make_Ok by lia. cbn [rbind]. rewrite slice_from_Ok by lia. cbn [rbind].
    replace (drop (Z.to_nat (head b)) (storage b)) with ((o ++ rest) ++ post)
      by (rewrite Es, drop_seam; done).
    rewrite copy_to_full by (rewrite len_replicate, ?len_app; lia). cbn [rbind].
    rewrite len_replicate, Z.sub_0_r. change (Z.to_nat 0) with 0%nat. rewrite take_0, app_nil_l.
    rewrite <- app_assoc, take_seam by lia. eexists. split; [done|].
    destruct (decide (rest = [])) as [->|Hr].
    + change (len []) with 0 in *. replace (used b - n) with 0 by lia. apply holds_drained; lia.
    + apply straight_intro with (pre ++ o) post; cbn; rewrite ?len_app; try done; try lia.
      rewrite Es. by rewrite <- !app_assoc.
  - assert (len rest = 0) as Hr by lia.
    assert (rest = []) as -> by (destruct rest; [done|]; rewrite len_cons in Hr; pose proof (len_nonneg rest); lia).
    rewrite app_nil_r in Es.
    rewrite (take_around_spec b n pre o post [] o (storage b)); try done;
      [|change (len []) with 0; lia|by left|by rewrite app_nil_r].
    eexists. split; [done|]. replace (used b - n) with 0 by lia.
    pose proof (Z.mod_pos_bound (head b + n) (len (storage b))). apply holds_drained; lia.
Qed.

(** The branches of [Head] with the allocation inside each. *)
Lemma Head_branches b n :
  0 <= n ->
  (let! o := make zero n in
   if head b <? tail b then
     let! src := slice_from (storage b) (head b) in
     let! (o, _) := copy_to o 0 src in
     Ok (MkBuffer (storage b) (used b - n) (head b + n) (tail b), o)
   else
     let! src := slice_from (storage b) (head b) in
     let! (o, c) := copy_to o 0 src in
     let! (o, _) := copy_to o c (storage b) in
     let! h := go_rem (head b + n) (len (storage b)) in
     Ok (MkBuffer (storage b) (used b - n) h (tail b), o)) =
  if head b <? tail b then
    let! o := make zero n in
    let! src := slice_from (storage b) (head b) in
    let! (o, _) := copy_to o 0 src in
    Ok (MkBuffer (storage b) (used b - n) (head b + n) (tail b), o)
  else take_around b n.
Proof. intros. unfold take_around. rewrite make_Ok by done. by destruct (head b <? tail b). Qed.

Lemma Head_spec b l n :
  holds b l -> 0 <= n ->
  exists b', Head b n = Ok (b', take (Z.to_nat n) l) /\ holds b' (drop (Z.to_nat n) l).
Proof.
  intros Hb Hn. assert (Hul : used b = len l) by (destruct Hb as [? ? ->| |]; done).
  pose proof (len_nonneg l). unfold Head.
  destruct (Z.eqb_spec n 0) as [->|Hn0]; cbn [orb]; [by exists b|].
  destruct (Z.eqb_spec (used b) 0) as [Hu0|Hu0].
  { assert (l = []) as -> by (destruct l; [done|]; rewrite len_cons in *; pose proof (len_nonneg l); lia).
    exists b. by rewrite take_nil, drop_nil. }
  set (n' := if used b <? n then used b else n).
  assert (Hn' : n' = Z.min n (len l)) by (unfold n'; destruct (Z.ltb_spec (used b) n); lia).
  clearbody n'. set (o := take (Z.to_nat n) l). set (rest := drop (Z.to_nat n) l).
  assert (El : l = o ++ rest) by (symmetry; apply take_drop).
  assert (Eo : len o = n') by (unfold o, len in *; rewrite length_take; lia).
  rewrite Head_branches by lia. destruct Hb as [|Eu H1 H2 Ed|Eu H1 H2 Ed]; [lia| |].
  - destruct (straight_split b l H1 H2 Ed) as (pre & post & Es & Eh & Et).
    apply (Head_straight b pre l post n' o rest); done || lia.
  - destruct (wrapped_split b l H1 H2 Ed) as (l1 & l2 & gap & Es & E & Et & Eh & Hl1 & Hl2).
    rewrite (proj2 (Z.ltb_ge (head b) (tail b))) by lia.
    apply (Head_wrapped b l1 l2 gap n' o rest); try done; try lia; [rewrite Eu, E, len_app; lia|congruence].
Qed.

Lemma NewBuffer_spec size :
  0 <= size -> exists b, NewBuffer size = Ok b /\ holds b [] /\ Cap b = Z.max 1 size.
Proof.
  intros Hs. unfold NewBuffer. destruct (Z.eqb_spec size 0) as [->|Hne].
  - eexists. split; [done|]. split; [|done]. apply holds_empty; cbn; done || (unfold len; cbn; lia).
  - rewrite make_Ok by lia. cbn [rbind]. eexists. split; [done|].
    unfold Cap. cbn. rewrite len_replicate. split; [|lia].
    apply holds_empty; cbn; rewrite ?len_replicate; done || lia.
Qed.
End buffer.

(** ** Properties *)

(** The operations of a queue and their effect on the list it holds. *)
Inductive qop (A : Type) := QAppend (v : list A) | QHead (n : Z) | QCompact.
Arguments QAppend {A} v.
Arguments QHead {A} n.
Arguments QCompact {A}.

Definition qstep {A} (zero : A) (b : Buffer) (o : qop A) : res (Buffer * list A) :=
  match o with
  | QAppend v => let! b := Append zero b v in Ok (b, [])
  | QHead n => Head zero b n
  | QCompact => let! b := Compact zero b in Ok (b, [])
  end.

(** The abstract queue: its contents after the operation and what is returned. *)
Definition qspec {A} (l : list A) (o : qop A) : list A * list A :=
  match o with
  | QAppend v => (l ++ v, [])
  | QHead n => (drop (Z.to_nat n) l, take (Z.to_nat n) l)
  | QCompact => (l, [])
  end.

Definition qop_ok {A} (o : qop A) : Prop := match o with QHead n => 0 <= n | _ => True end.

(** Running a list of operations, with everything they return. *)
Fixpoint qruns {A} (zero : A) (b : Buffer) (ops : list (qop A)) : res (Buffer * list (list A)) :=
  match ops with
  | [] => Ok (b, [])
  | o :: ops =>
      let! (b, r) := qstep zero b o in
      let! (b, rs) := qruns zero b ops in Ok (b, r :: rs)
  end.

Fixpoint qspecs {A} (l : list A) (ops : list (qop A)) : list A * list (list A) :=
  match ops with
  | [] => (l, [])
  | o :: ops => let (l, r) := qspec l o in let (l, rs) := qspecs l ops in (l, r :: rs)
  end.

Lemma qstep_spec {A} (zero : A) b l o :
  holds b l -> qop_ok o ->
  exists b', qstep zero b o = Ok (b', (qspec l o).2) /\ holds b' (qspec l o).1.
Proof.
  intros Hb Ho. destruct o as [v|n|]; cbn.
  - destruct (Append_spec zero b l v Hb) as (b' & -> & Hb'). by exists b'.
  - by apply Head_spec.
  - destruct (Compact_spec zero b l Hb) as (b' & -> & Hb' & _). by exists b'.
Qed.

(** C17: the circular buffer refines a queue.  Starting from [NewBuffer] of any
    size, every sequence of [Append], [Head] and [Compact] calls runs without a
    panic and returns, call by call, what the same calls on a plain list
    return; the buffer then holds the list's contents, [Len] is its length, and
    [Compact] leaves exactly the storage the contents need (at least one). *)
Theorem Buffer_refines_queue {A} (zero : A) (size : Z) (ops : list (qop A))
    (Hsize : 0 <= size) (Hops : Forall qop_ok ops) :
  exists b0 b, NewBuffer zero size = Ok b0 /\ Cap b0 = Z.max 1 size /\
    qruns zero b0 ops = Ok (b, (qspecs [] ops).2) /\ holds b (qspecs [] ops).1 /\
    Len b = len (qspecs [] ops).1 /\
    exists b', Compact zero b = Ok b' /\ holds b' (qspecs [] ops).1 /\
      Cap b' = Z.max 1 (len (qspecs [] ops).1).
Proof.
  destruct (NewBuffer_spec zero size Hsize) as (b0 & E0 & Hb0 & Hc0). exists b0.
  assert (Hgen : forall l b, holds b l -> exists b', qruns zero b ops = Ok (b', (qspecs l ops).2) /\
    holds b' (qspecs l ops).1).
  { clear E0 Hb0 Hc0. induction Hops as [|o ops Ho Hops' IH]; intros l b Hb; [by exists b|].
    cbn. destruct (qstep_spec zero b l o Hb Ho) as (b1 & -> & Hb1). cbn.
    destruct (qspec l o) as [l1 r1]. cbn in *. destruct (IH l1 b1 Hb1) as (b2 & -> & Hb2). cbn.
    destruct (qspecs l1 ops) as [l2 rs]. by exists b2. }
  destruct (Hgen [] b0 Hb0) as (b & E & Hb). exists b. split_and!; try done.
  - unfold Len. destruct Hb as [? ? ->| |]; done.
  - by apply Compact_spec.
Qed.

Lemma Buffer_refines_queue_witness :
  0 <= 2 /\ Forall qop_ok [QAppend [1; 2; 3]; QHead 2; QAppend [4; 5]; QHead 9] /\
  exists b0 b, NewBuffer 0 2 = Ok b0 /\
    qruns 0 b0 [QAppend [1; 2; 3]; QHead 2; QAppend [4; 5]; QHead 9] = Ok (b, [[]; [1; 2]; []; [3; 4; 5]]).
Proof.
  assert (Hops : Forall qop_ok [QAppend [1; 2; 3]; QHead 2; QAppend [4; 5]; QHead 9])
    by (repeat constructor; cbn; lia).
  split; [lia|]. split; [exact Hops|].
  destruct (Buffer_refines_queue 0 2 _ ltac:(lia) Hops) as (b0 & b & E0 & _ & E & _).
  exists b0, b. split; [exact E0|exact E].
Defined.
