(* ===== verification/Lists.v ===== *)
(** * Linked lists (algo/container/list)

    [Double] and [Single] are rings of heap-allocated items through a sentinel.
    The items live in an explicit store, so that the identifiers handed out by
    [Append] and [Prepend] alias the list as they do in the code. *)

From stdpp Require Import base list option numbers gmap.
From Stdlib Require Import ZArith Lia.
From S2P Require Import Prelude.

Open Scope list_scope.
Open Scope Z_scope.
Open Scope go_scope.

(** Addresses of items; the sentinel, embedded in the list, is at 0. *)
Abbreviation loc := nat.
Definition sentinel : loc := 0%nat.

(** ** Paths

    A ring is a path of items from the sentinel back to it, where [R] says which
    pointers join two neighbours. *)
Fixpoint path (R : loc -> loc -> Prop) (l : list loc) : Prop :=
  match l with
  | a :: (b :: _) as t => R a b /\ path R t
  | _ => True
  end.

Lemma path_app R l1 a l2 : path R (l1 ++ a :: l2) <-> path R (l1 ++ [a]) /\ path R (a :: l2).
Proof.
  induction l1 as [|b l1 IH]; cbn [app]; [cbn; tauto|].
  destruct l1 as [|c l1]; cbn [app path] in *; [tauto|]. rewrite IH. tauto.
Qed.

(** Edges that leave no changed source and enter no changed target survive. *)
Lemma path_frame (R R' : loc -> loc -> Prop) l :
  path R l ->
  (forall a b, a ∈ removelast l -> b ∈ List.tl l -> R a b -> R' a b) ->
  path R' l.
Proof.
  induction l as [|a l IH]; [done|]. destruct l as [|b l]; [done|].
  intros [H Hp] HR. split; [apply HR; [cbn; left|cbn; left|done]|].
  apply IH; [done|]. intros x y Hx Hy. apply HR.
  - change (removelast (a :: b :: l)) with (a :: removelast (b :: l)). by right.
  - cbn in *. by right.
Qed.

(** Sources and targets of a path are distinct in a ring. *)
Definition ring_ok (r : list loc) : Prop := NoDup (removelast r) /\ NoDup (List.tl r).

Lemma removelast_app_cons (l1 : list loc) a l2 : removelast (l1 ++ a :: l2) = l1 ++ removelast (a :: l2).
Proof. by apply List.removelast_app. Qed.

Lemma tl_app_cons (l1 : list loc) a l2 : List.tl (l1 ++ a :: l2) = List.tl (l1 ++ [a]) ++ l2.
Proof. destruct l1; cbn; [done|]. by rewrite <- app_assoc. Qed.

Lemma path_insert (R R' : loc -> loc -> Prop) l1 a n b l2 :
  ring_ok (l1 ++ a :: b :: l2) ->
  path R (l1 ++ a :: b :: l2) ->
  R' a n -> R' n b ->
  (forall x y, x <> a -> y <> b -> R x y -> R' x y) ->
  path R' (l1 ++ a :: n :: b :: l2).
Proof.
  intros [Hs Ht] [H1 [_ H2]]%path_app Hn1 Hn2 Hf.
  rewrite removelast_app_cons in Hs. rewrite tl_app_cons in Ht.
  apply NoDup_app in Hs as (_ & Hs1 & Hs2). apply NoDup_app in Ht as (_ & Ht1 & Ht2).
  change (removelast (a :: b :: l2)) with (a :: removelast (b :: l2)) in Hs1, Hs2.
  apply NoDup_cons in Hs2 as [Hs2 _]. apply NoDup_cons in Ht2 as [Ht2 _].
  apply path_app. split.
  - apply (path_frame R); [done|]. intros x y Hx Hy. apply Hf.
    + rewrite removelast_app_cons, app_nil_r in Hx. intros ->. apply (Hs1 a Hx). left.
    + intros ->. apply (Ht1 b Hy). left.
  - split; [done|]. split; [done|]. apply (path_frame R); [done|].
    intros x y Hx Hy. apply Hf; intros ->; [done|]. by apply Ht2.
Qed.

Lemma path_remove (R R' : loc -> loc -> Prop) l1 a n b l2 :
  ring_ok (l1 ++ a :: n :: b :: l2) ->
  path R (l1 ++ a :: n :: b :: l2) ->
  R' a b ->
  (forall x y, x <> a -> x <> n -> y <> b -> y <> n -> R x y -> R' x y) ->
  path R' (l1 ++ a :: b :: l2).
Proof.
  intros [Hs Ht] [H1 [_ [_ H2]]]%path_app Hab Hf.
  rewrite removelast_app_cons in Hs. rewrite tl_app_cons in Ht.
  apply NoDup_app in Hs as (_ & Hs1 & Hs2). apply NoDup_app in Ht as (_ & Ht1 & Ht2).
  change (removelast (a :: n :: b :: l2)) with (a :: n :: removelast (b :: l2)) in Hs1, Hs2.
  apply NoDup_cons in Hs2 as [Hs2 Hs3]. apply NoDup_cons in Hs3 as [Hs3 _].
  apply NoDup_cons in Ht2 as [Ht2 Ht3]. apply NoDup_cons in Ht3 as [Ht3 _].
  apply path_app. split.
  - apply (path_frame R); [done|]. intros x y Hx Hy.
    rewrite removelast_app_cons, app_nil_r in Hx.
    apply Hf; intros ->.
    + apply (Hs1 a Hx). left.
    + apply (Hs1 n Hx). right. left.
    + apply (Ht1 b Hy). right. left.
    + apply (Ht1 n Hy). left.
  - split; [done|]. apply (path_frame R); [done|]. intros x y Hx Hy.
    apply Hf; intros ->; [|done|done|].
    + apply Hs2. by right.
    + apply Ht2. by right.
Qed.

(** ** Double *)

Section double.
Context {A : Type} (zero : A).

Record ditem := MkD { dnext : option loc; dprev : option loc; dval : A }.

(** [*it = doubleItem[T]{}]. *)
Definition dzero : ditem := MkD None None zero.

(** The items reachable through the list or through an identifier, the next
    free address, and [len]. *)
Record Double := MkDouble { dheap : gmap loc ditem; dfresh : loc; dlen : Z }.

(** Dereferencing: a nil pointer panics. *)
Definition dload (dl : Double) (p : option loc) : res ditem :=
  let! a := checked p in checked (dheap dl !! a).

Definition dstore (dl : Double) (p : option loc) (it : ditem) : res Double :=
  let! a := checked p in
  let! _ := checked (dheap dl !! a) in
  Ok (MkDouble (<[a := it]> (dheap dl)) (dfresh dl) (dlen dl)).

Definition set_next (dl : Double) (p q : option loc) : res Double :=
  let! it := dload dl p in dstore dl p (MkD q (dprev it) (dval it)).

Definition set_prev (dl : Double) (p q : option loc) : res Double :=
  let! it := dload dl p in dstore dl p (MkD (dnext it) q (dval it)).

Definition d_Reset (dl : Double) : res Double :=
  let dl := MkDouble (dheap dl) (dfresh dl) 0 in
  let! dl := set_next dl (Some sentinel) (Some sentinel) in
  set_prev dl (Some sentinel) (Some sentinel).

(** A list value with its zeroed sentinel, then [Reset]. *)
Definition NewDouble : res Double := d_Reset (MkDouble {[sentinel := dzero]} 1%nat 0).

Definition d_Len (dl : Double) : Z := dlen dl.

(** [Forward] and [Reverse] follow [next] or [prev] until the sentinel. *)
Fixpoint d_walk (fuel : nat) (dir : ditem -> option loc) (dl : Double) (n : option loc)
    {S} (yield : A -> S -> res (bool * S)) (s : S) : res S :=
  match fuel with
  | O => NoFuel
  | Datatypes.S fuel =>
      if decide (n = Some sentinel) then Ok s
      else
        let! it := dload dl n in
        let! (more, s) := yield (dval it) s in
        if more then d_walk fuel dir dl (dir it) yield s else Ok s
  end.

Definition d_fuel (dl : Double) : nat := S (Z.to_nat (dlen dl)).

Definition d_Forward (dl : Double) : seq_iter A := fun S yield s =>
  let! it := dload dl (Some sentinel) in d_walk (d_fuel dl) dnext dl (dnext it) yield s.

Definition d_Reverse (dl : Double) : seq_iter A := fun S yield s =>
  let! it := dload dl (Some sentinel) in d_walk (d_fuel dl) dprev dl (dprev it) yield s.

Definition d_insertAfterItem (dl : Double) (val : A) (it : option loc) : res (Double * loc) :=
  let! item := dload dl it in
  let n := dfresh dl in
  let dl := MkDouble (<[n := MkD (dnext item) it val]> (dheap dl)) (S n) (dlen dl) in
  let! dl := set_next dl it (Some n) in
  let! dl := set_prev dl (dnext item) (Some n) in
  Ok (MkDouble (dheap dl) (dfresh dl) (dlen dl + 1), n).

Definition d_Head (dl : Double) : res A :=
  let! s := dload dl (Some sentinel) in
  if dlen dl =? 0 then Ok (dval s) else let! it := dload dl (dnext s) in Ok (dval it).

Definition d_Tail (dl : Double) : res A :=
  let! s := dload dl (Some sentinel) in
  if dlen dl =? 0 then Ok (dval s) else let! it := dload dl (dprev s) in Ok (dval it).

Definition d_Append (dl : Double) (val : A) : res (Double * loc) :=
  let! s := dload dl (Some sentinel) in d_insertAfterItem dl val (dprev s).

Definition d_Prepend (dl : Double) (val : A) : res (Double * loc) :=
  d_insertAfterItem dl val (Some sentinel).

Definition d_removeItem (dl : Double) (it : option loc) : res Double :=
  let dl := MkDouble (dheap dl) (dfresh dl) (dlen dl - 1) in
  let! item := dload dl it in
  let! dl := set_next dl (dprev item) (dnext item) in
  let! dl := set_prev dl (dnext item) (dprev item) in
  dstore dl it dzero.

Definition d_RemoveItem (dl : Double) (id : loc) : res Double := d_removeItem dl (Some id).

(** The loop of [Remove] and [RemoveReverse]: it only stops at a nil pointer or
    at a match. *)
Fixpoint d_find (fuel : nat) (dir : ditem -> option loc) (dl : Double) (n : option loc)
    (val : A) (cmp : A -> A -> bool) : res Double :=
  match fuel with
  | O => NoFuel
  | S fuel =>
      if decide (n = None) then Ok dl
      else
        let! it := dload dl n in
        if cmp (dval it) val then d_removeItem dl n
        else d_find fuel dir dl (dir it) val cmp
  end.

Definition d_Remove (fuel : nat) (dl : Double) (val : A) (cmp : A -> A -> bool) : res Double :=
  let! s := dload dl (Some sentinel) in d_find fuel dnext dl (dnext s) val cmp.

Definition d_RemoveReverse (fuel : nat) (dl : Double) (val : A) (cmp : A -> A -> bool) : res Double :=
  let! s := dload dl (Some sentinel) in d_find fuel dprev dl (dprev s) val cmp.

(** ** The list a ring holds *)

(** [a] points forward to [b] and [b] back to [a]. *)
Definition linked (h : gmap loc ditem) (a b : loc) : Prop :=
  (dnext <$> h !! a) = Some (Some b) /\ (dprev <$> h !! b) = Some (Some a).

(** The ring through [ids] holds the values [l]. *)
Record rings (dl : Double) (ids : list loc) (l : list A) : Prop := {
  r_path : path (linked (dheap dl)) (sentinel :: ids ++ [sentinel]);
  r_nodup : NoDup (sentinel :: ids);
  r_vals : Forall2 (fun i v => (dval <$> dheap dl !! i) = Some v) ids l;
  r_zero : (dval <$> dheap dl !! sentinel) = Some zero;
  r_fresh : forall a, (dfresh dl <= a)%nat -> dheap dl !! a = None;
  r_len : dlen dl = len l;
}.

(** The ring of a sentinel and distinct items has distinct sources and targets. *)
Lemma ring_ok_sentinel ids : NoDup (sentinel :: ids) -> ring_ok (sentinel :: ids ++ [sentinel]).
Proof.
  intros [Hs H]%NoDup_cons. split.
  - change (sentinel :: ids ++ [sentinel]) with ((sentinel :: ids) ++ [sentinel]).
    rewrite List.removelast_last. by constructor.
  - cbn. apply NoDup_app. repeat split; [done| |apply NoDup_singleton].
    intros x Hx ->%list_elem_of_singleton. done.
Qed.

(** What an assignment to one field changes. *)
Lemma set_next_spec dl a q :
  is_Some (dheap dl !! a) ->
  exists dl', set_next dl (Some a) q = Ok dl' /\ dfresh dl' = dfresh dl /\ dlen dl' = dlen dl /\
    (forall x, (dnext <$> dheap dl' !! x) = if decide (x = a) then Some q else dnext <$> dheap dl !! x) /\
    (forall x, (dprev <$> dheap dl' !! x) = dprev <$> dheap dl !! x) /\
    (forall x, (dval <$> dheap dl' !! x) = dval <$> dheap dl !! x).
Proof.
  intros [it Hit]. unfold set_next, dload, dstore. cbn. rewrite Hit. cbn. rewrite ?Hit. cbn.
  eexists. repeat split; intros x; cbn; destruct (decide (x = a)) as [->|Hx];
    rewrite ?lookup_insert_eq, ?lookup_insert_ne, ?Hit by done; done.
Qed.

Lemma set_prev_spec dl a q :
  is_Some (dheap dl !! a) ->
  exists dl', set_prev dl (Some a) q = Ok dl' /\ dfresh dl' = dfresh dl /\ dlen dl' = dlen dl /\
    (forall x, (dprev <$> dheap dl' !! x) = if decide (x = a) then Some q else dprev <$> dheap dl !! x) /\
    (forall x, (dnext <$> dheap dl' !! x) = dnext <$> dheap dl !! x) /\
    (forall x, (dval <$> dheap dl' !! x) = dval <$> dheap dl !! x).
Proof.
  intros [it Hit]. unfold set_prev, dload, dstore. cbn. rewrite Hit. cbn. rewrite ?Hit. cbn.
  eexists. repeat split; intros x; cbn; destruct (decide (x = a)) as [->|Hx];
    rewrite ?lookup_insert_eq, ?lookup_insert_ne, ?Hit by done; done.
Qed.

Lemma fmap_is_Some_field {B} (f : ditem -> B) (h : gmap loc ditem) (a : loc) v : (f <$> h !! a) = Some v -> is_Some (h !! a).
Proof. destruct (h !! a); naive_solver. Qed.

Lemma field_is_Some {B C} (f : ditem -> B) (g : ditem -> C) (h h' : gmap loc ditem) (a : loc) :
  (forall x, (f <$> h' !! x) = f <$> h !! x) -> is_Some (h !! a) -> is_Some (h' !! a).
Proof. intros Hf [it Hit]. specialize (Hf a). rewrite Hit in Hf. by eapply fmap_is_Some_field. Qed.

Lemma Forall2_dval (h h' : gmap loc ditem) ids (l : list A) :
  (forall i, i ∈ ids -> (dval <$> h' !! i) = dval <$> h !! i) ->
  Forall2 (fun i v => (dval <$> h !! i) = Some v) ids l ->
  Forall2 (fun i v => (dval <$> h' !! i) = Some v) ids l.
Proof.
  intros Hf H. induction H as [|i v ids l Hi H IH]; [done|]. constructor.
  - rewrite Hf by left. done.
  - apply IH. intros j Hj. apply Hf. by right.
Qed.

(** Every position of a ring: what precedes and what follows it. *)
Lemma ring_split ids1 ids2 :
  exists p a b q, sentinel :: ids1 = p ++ [a] /\ ids2 ++ [sentinel] = b :: q.
Proof.
  destruct (List.exists_last (l := sentinel :: ids1)) as (p & a & Hp); [done|].
  destruct ids2 as [|b q]; [exists p, a, sentinel, []|exists p, a, b, (q ++ [sentinel])]; by split.
Qed.

Section ring_facts.
Context (dl : Double) (ids : list loc) (l : list A) (Hr : rings dl ids l).

Lemma rings_in x : x ∈ sentinel :: ids -> is_Some (dheap dl !! x).
Proof.
  intros [->|Hx]%elem_of_cons; [by eapply fmap_is_Some_field, (r_zero _ _ _ Hr)|].
  apply list_elem_of_lookup in Hx as [i Hi].
  destruct (Forall2_lookup_l _ _ _ _ _ (r_vals _ _ _ Hr) Hi) as (v & _ & Hv).
  by eapply fmap_is_Some_field.
Qed.

Lemma rings_fresh x : x ∈ sentinel :: ids -> (x < dfresh dl)%nat.
Proof.
  intros Hx%rings_in. destruct (decide (x < dfresh dl)%nat) as [|Hn]; [done|].
  rewrite (r_fresh _ _ _ Hr) in Hx by lia. by destruct Hx.
Qed.

Lemma rings_length : length ids = length l.
Proof. apply (Forall2_length _ _ _ (r_vals _ _ _ Hr)). Qed.

(** The neighbours of a position. *)
Lemma rings_linked p a b q : sentinel :: ids ++ [sentinel] = p ++ a :: b :: q ->
  linked (dheap dl) a b /\ a ∈ sentinel :: ids /\ b ∈ sentinel :: ids.
Proof.
  intros E. pose proof (r_path _ _ _ Hr) as Hp. rewrite E in Hp.
  apply path_app in Hp as [_ [Hab _]]. split; [done|].
  assert (forall x, x ∈ sentinel :: ids ++ [sentinel] -> x ∈ sentinel :: ids) as Hin by set_solver.
  split; apply Hin; rewrite E; set_solver.
Qed.
End ring_facts.

Lemma insert_field {B} (f : ditem -> B) (h : gmap loc ditem) n it x :
  (f <$> <[n := it]> h !! x) = if decide (x = n) then Some (f it) else f <$> h !! x.
Proof. case_decide; [subst; by rewrite lookup_insert_eq|by rewrite lookup_insert_ne]. Qed.

Lemma field_None {B} (f : ditem -> B) (h : gmap loc ditem) (x : loc) : (f <$> h !! x) = None <-> h !! x = None.
Proof. destruct (h !! x); naive_solver. Qed.

Lemma NoDup_cons_middle (s n : loc) ids1 ids2 :
  (forall x, x ∈ s :: ids1 ++ ids2 -> x <> n) -> NoDup (s :: ids1 ++ ids2) -> NoDup (s :: ids1 ++ n :: ids2).
Proof.
  intros Hn Hd. rewrite <- (Permutation_middle ids1 ids2 n), (Permutation_swap n s). constructor; [|done].
  intros Hin. by apply (Hn n Hin).
Qed.

Lemma Forall2_app_middle {B C} (R : B -> C -> Prop) l1 l2 k1 k2 x y :
  length l1 = length k1 -> R x y -> Forall2 R (l1 ++ l2) (k1 ++ k2) -> Forall2 R (l1 ++ x :: l2) (k1 ++ y :: k2).
Proof. intros Hl Hx [H1 H2]%Forall2_app_inv; [|done]. apply Forall2_app; [done|by constructor]. Qed.

(** [insertAfterItem] on the last item of [ids1]. *)
Lemma insert_spec dl ids1 ids2 l1 l2 val p a :
  rings dl (ids1 ++ ids2) (l1 ++ l2) -> length ids1 = length l1 -> sentinel :: ids1 = p ++ [a] ->
  exists dl', d_insertAfterItem dl val (Some a) = Ok (dl', dfresh dl) /\
    rings dl' (ids1 ++ dfresh dl :: ids2) (l1 ++ val :: l2).
Proof.
  intros Hr Hl Hp. destruct (ring_split ids1 ids2) as (p' & a' & b & q & Ep & Eq).
  assert (p' = p /\ a' = a) as [-> ->] by (apply app_inj_tail; congruence).
  assert (sentinel :: (ids1 ++ ids2) ++ [sentinel] = p ++ a :: b :: q) as Er.
  { rewrite <- app_assoc, app_comm_cons, Ep, Eq, <- app_assoc. done. }
  destruct (rings_linked _ _ _ Hr _ _ _ _ Er) as ([Hab Hba] & Ha & Hb).
  set (n := dfresh dl). assert (forall x, x ∈ sentinel :: ids1 ++ ids2 -> x <> n) as Hn.
  { intros x Hx. pose proof (rings_fresh _ _ _ Hr x Hx). subst n. lia. }
  pose proof (rings_in _ _ _ Hr a Ha) as [it Hit].
  unfold d_insertAfterItem, dload. cbn [checked rbind]. rewrite Hit. cbn [checked rbind].
  change (dfresh dl) with n. cbv zeta.
  assert (dnext it = Some b) as -> by (rewrite Hit in Hab; cbn in Hab; congruence).
  match goal with |- context [set_next ?d _ _] => set (dl1 := d) end.
  destruct (set_next_spec dl1 a (Some n)) as (dl2 & -> & F2 & L2 & N2 & P2 & V2).
  { cbn. rewrite lookup_insert_ne by (apply not_eq_sym; auto). eauto. }
  cbn [rbind]. destruct (set_prev_spec dl2 b (Some n)) as (dl3 & -> & F3 & L3 & P3 & N3 & V3).
  { apply (field_is_Some _ dval _ _ _ V2). cbn. rewrite lookup_insert_ne by (apply not_eq_sym; auto).
    by apply (rings_in _ _ _ Hr). }
  cbn [rbind]. eexists. split; [done|].
  assert (forall x, (dnext <$> dheap dl3 !! x) =
    if decide (x = a) then Some (Some n) else if decide (x = n) then Some (Some b) else dnext <$> dheap dl !! x) as N.
  { intros x. rewrite N3, N2. cbn. by rewrite insert_field. }
  assert (forall x, (dprev <$> dheap dl3 !! x) =
    if decide (x = b) then Some (Some n) else if decide (x = n) then Some (Some a) else dprev <$> dheap dl !! x) as P.
  { intros x. rewrite P3, P2. cbn. by rewrite insert_field. }
  assert (forall x, (dval <$> dheap dl3 !! x) =
    if decide (x = n) then Some val else dval <$> dheap dl !! x) as V.
  { intros x. rewrite V3, V2. cbn. by rewrite insert_field. }
  pose proof (r_fresh _ _ _ Hr n (le_n n)) as Hnone.
  pose proof (rings_fresh _ _ _ Hr a Ha) as Han. change (dfresh dl) with n in Han.
  pose proof (r_fresh _ _ _ Hr) as Hfr. change (dfresh dl) with n in Hfr. clearbody n. clear N2 P2 V2 N3 P3 V3.
  constructor; cbn [dheap dfresh dlen].
  - replace (sentinel :: (ids1 ++ n :: ids2) ++ [sentinel]) with (p ++ a :: n :: b :: q)
      by (rewrite <- app_assoc, app_comm_cons, Ep, <- app_assoc; cbn; by rewrite Eq).
    apply (path_insert (linked (dheap dl))).
    + rewrite <- Er. apply ring_ok_sentinel, (r_nodup _ _ _ Hr).
    + rewrite <- Er. apply (r_path _ _ _ Hr).
    + split; [by rewrite N, decide_True|]. rewrite P, decide_False, decide_True; auto.
      intros ->. by apply (Hn b).
    + split; [|by rewrite P, decide_True]. rewrite N, decide_False, decide_True; auto.
      intros ->. by apply (Hn a).
    + intros x y Hx Hy [Hnx Hpy]. split.
      * rewrite N, decide_False by done. case_decide; [|done]. subst x. by rewrite Hnone in Hnx.
      * rewrite P, decide_False by done. case_decide; [|done]. subst y. by rewrite Hnone in Hpy.
  - apply NoDup_cons_middle; [done|apply (r_nodup _ _ _ Hr)].
  - apply Forall2_app_middle; [done| |].
    + by rewrite V, decide_True.
    + apply (Forall2_dval (dheap dl)); [|apply (r_vals _ _ _ Hr)].
      intros i Hi. rewrite V, decide_False; [done|]. apply Hn. by right.
  - rewrite V, decide_False; [apply (r_zero _ _ _ Hr)|]. apply Hn. left.
  - intros x Hx. rewrite F3, F2 in Hx. cbn in Hx.
    apply (field_None dnext). rewrite N, decide_False, decide_False by (intros ->; lia).
    apply field_None, Hfr. lia.
  - rewrite L3, L2. cbn. rewrite (r_len _ _ _ Hr). autorewrite with go_len. lia.
Qed.

(** [removeItem] on an item whose neighbours are in the store. *)
Lemma removeItem_fields dl n a b :
  (dnext <$> dheap dl !! n) = Some (Some b) -> (dprev <$> dheap dl !! n) = Some (Some a) ->
  is_Some (dheap dl !! a) -> is_Some (dheap dl !! b) ->
  exists dl', d_removeItem dl (Some n) = Ok dl' /\ dfresh dl' = dfresh dl /\ dlen dl' = dlen dl - 1 /\
    (forall x, x <> n -> (dnext <$> dheap dl' !! x) = if decide (x = a) then Some (Some b) else dnext <$> dheap dl !! x) /\
    (forall x, x <> n -> (dprev <$> dheap dl' !! x) = if decide (x = b) then Some (Some a) else dprev <$> dheap dl !! x) /\
    (forall x, x <> n -> (dval <$> dheap dl' !! x) = dval <$> dheap dl !! x) /\
    dheap dl' !! n = Some dzero.
Proof.
  intros Hn Hp Ha Hb. destruct (dheap dl !! n) as [it|] eqn:Hit; [|done]. cbn in Hn, Hp.
  injection Hn as Hn. injection Hp as Hp.
  unfold d_removeItem, dload. cbn [checked rbind]. cbv zeta. cbn [dheap]. rewrite Hit. cbn [checked rbind].
  rewrite Hn, Hp. match goal with |- context [set_next ?d _ _] => set (dl1 := d) end.
  destruct (set_next_spec dl1 a (Some b)) as (dl2 & -> & F2 & L2 & N2 & P2 & V2); [done|].
  cbn [rbind]. destruct (set_prev_spec dl2 b (Some a)) as (dl3 & -> & F3 & L3 & P3 & N3 & V3).
  { by apply (field_is_Some _ dval _ _ _ V2). }
  cbn [rbind]. assert (is_Some (dheap dl3 !! n)) as [it3 Hit3].
  { apply (field_is_Some _ dval _ _ _ V3), (field_is_Some _ dval _ _ _ V2). cbn. eauto. }
  unfold dstore. cbn [checked rbind]. rewrite Hit3. cbn [checked rbind]. eexists. split; [done|].
  cbn [dheap dfresh dlen]. repeat split.
  - by rewrite F3, F2.
  - by rewrite L3, L2.
  - intros x Hx. rewrite lookup_insert_ne by done. rewrite N3, N2. done.
  - intros x Hx. rewrite lookup_insert_ne by done. rewrite P3, P2. done.
  - intros x Hx. rewrite lookup_insert_ne by done. rewrite V3, V2. done.
  - by rewrite lookup_insert_eq.
Qed.

Lemma remove_spec dl ids1 n ids2 l1 v l2 :
  rings dl (ids1 ++ n :: ids2) (l1 ++ v :: l2) -> length ids1 = length l1 ->
  exists dl', d_removeItem dl (Some n) = Ok dl' /\ dheap dl' !! n = Some dzero /\
    dfresh dl' = dfresh dl /\ rings dl' (ids1 ++ ids2) (l1 ++ l2).
Proof.
  intros Hr Hl. destruct (ring_split ids1 ids2) as (p & a & b & q & Ep & Eq).
  assert (sentinel :: (ids1 ++ n :: ids2) ++ [sentinel] = p ++ a :: n :: b :: q) as Er.
  { rewrite <- app_assoc, app_comm_cons, Ep, <- app_assoc. cbn. by rewrite Eq. }
  destruct (rings_linked _ _ _ Hr _ _ _ _ Er) as ([_ Hna] & Ha & _).
  destruct (rings_linked _ _ _ Hr (p ++ [a]) n b q) as ([Hnb _] & _ & Hb).
  { by rewrite Er, <- app_assoc. }
  destruct (removeItem_fields dl n a b Hnb Hna (rings_in _ _ _ Hr a Ha) (rings_in _ _ _ Hr b Hb))
    as (dl' & -> & F & L & N & P & V & Z).
  exists dl'. split; [done|]. split; [done|]. split; [done|].
  assert (NoDup (n :: sentinel :: ids1 ++ ids2)) as [Hn Hd]%NoDup_cons.
  { pose proof (r_nodup _ _ _ Hr) as H.
    by rewrite <- (Permutation_middle ids1 ids2 n), (Permutation_swap n sentinel) in H. }
  assert (forall x, x ∈ sentinel :: ids1 ++ ids2 -> x <> n) as Hn'. { intros x Hx ->. done. }
  assert (a <> n /\ b <> n) as [Han Hbn].
  { split; apply Hn'.
    - assert (a ∈ sentinel :: ids1) by (rewrite Ep; set_solver). set_solver.
    - assert (b ∈ ids2 ++ [sentinel]) by (rewrite Eq; set_solver). set_solver. }
  constructor.
  - replace (sentinel :: (ids1 ++ ids2) ++ [sentinel]) with (p ++ a :: b :: q)
      by (rewrite <- app_assoc, Eq, app_comm_cons, Ep, <- app_assoc; done).
    apply (path_remove (linked (dheap dl)) _ _ _ n).
    + rewrite <- Er. apply ring_ok_sentinel, (r_nodup _ _ _ Hr).
    + rewrite <- Er. apply (r_path _ _ _ Hr).
    + split; [rewrite N by done|rewrite P by done]; by rewrite decide_True.
    + intros x y Hx Hxn Hy Hyn [Hnx Hpy]. split; [rewrite N by done|rewrite P by done]; by rewrite decide_False.
  - done.
  - destruct (Forall2_app_inv _ _ _ _ _ Hl (r_vals _ _ _ Hr)) as [H1 H2].
    inversion_clear H2. apply (Forall2_dval (dheap dl)); [|by apply Forall2_app].
    intros i Hi. apply V, Hn'. by right.
  - rewrite V by (apply Hn'; left). apply (r_zero _ _ _ Hr).
  - intros x Hx. rewrite F in Hx. apply (field_None dval). rewrite V.
    + by apply field_None, (r_fresh _ _ _ Hr).
    + intros ->. pose proof (r_fresh _ _ _ Hr n Hx) as E. by rewrite E in Hnb.
  - rewrite L, (r_len _ _ _ Hr). autorewrite with go_len. lia.
Qed.


(** What a traversal in one direction follows. *)
Definition edge (dir : ditem -> option loc) (h : gmap loc ditem) (a b : loc) : Prop :=
  (dir <$> h !! a) = Some (Some b).

Lemma path_mono (R R' : loc -> loc -> Prop) l : (forall a b, R a b -> R' a b) -> path R l -> path R' l.
Proof. intros HR Hp. apply (path_frame R); auto. Qed.

Lemma path_rev (R : loc -> loc -> Prop) l : path R l -> path (fun a b => R b a) (rev l).
Proof.
  induction l as [|a l IH]; [done|]. destruct l as [|b l]; [done|]. intros [Hab Hp].
  cbn [rev]. rewrite <- app_assoc. cbn [app]. apply path_app. split; [by apply IH|]. by split.
Qed.

Lemma rings_forward dl ids l : rings dl ids l -> path (edge dnext (dheap dl)) (sentinel :: ids ++ [sentinel]).
Proof. intros Hr. apply (path_mono (linked (dheap dl))); [|apply (r_path _ _ _ Hr)]. by intros a b [? ?]. Qed.

Lemma rings_reverse dl ids l : rings dl ids l -> path (edge dprev (dheap dl)) (sentinel :: rev ids ++ [sentinel]).
Proof.
  intros Hr. apply (path_mono (fun a b => linked (dheap dl) b a)); [by intros a b [? ?]|].
  pose proof (path_rev _ _ (r_path _ _ _ Hr)) as H. cbn [rev] in H. rewrite rev_app_distr in H. done.
Qed.

Section traversal.
Context (dl : Double) (dir : ditem -> option loc).

(** [ids] is what remains to be visited after [a]. *)
Record visits (a : loc) (ids : list loc) (l : list A) : Prop := {
  v_path : path (edge dir (dheap dl)) (a :: ids ++ [sentinel]);
  v_sentinel : sentinel ∉ ids;
  v_vals : Forall2 (fun i v => (dval <$> dheap dl !! i) = Some v) ids l;
}.

Lemma visits_load a ids l : visits a ids l ->
  exists it, dheap dl !! a = Some it /\ dir it = Some (hd sentinel ids).
Proof.
  intros [Hp _ _]. destruct ids as [|b ids]; destruct Hp as [H _]; unfold edge in H;
    destruct (dheap dl !! a) as [it|]; cbn in H; try done; injection H; eauto.
Qed.

Lemma visits_cons a n ids l : visits a (n :: ids) l ->
  exists v l', l = v :: l' /\ n <> sentinel /\ visits n ids l' /\ (dval <$> dheap dl !! n) = Some v.
Proof.
  intros [[_ Hp] Hs Hv]. inversion Hv as [|? v ? l' Hv1 Hv2]; subst. apply not_elem_of_cons in Hs as [Hs1 Hs2].
  exists v, l'. repeat split; auto.
Qed.

Lemma walk_spec ids : forall a l S (yield : A -> S -> res (bool * S)) s fuel,
  visits a ids l -> (length ids < fuel)%nat ->
  d_walk fuel dir dl (Some (hd sentinel ids)) yield s = range_list l yield s.
Proof.
  induction ids as [|n ids IH]; intros a l S yield s [|fuel] Hv Hf; cbn in Hf; try lia.
  - destruct Hv as [_ _ Hv]. inversion Hv. cbn [hd d_walk]. by rewrite decide_True.
  - destruct (visits_cons _ _ _ _ Hv) as (v & l' & -> & Hn & Hv' & Hval).
    destruct (visits_load _ _ _ Hv') as (it & Hit & Hd). rewrite Hit in Hval. injection Hval as Hval.
    cbn [hd d_walk range_list]. rewrite decide_False by congruence.
    unfold dload. cbn [checked rbind]. rewrite Hit. cbn [checked rbind]. rewrite Hd, Hval.
    destruct (yield v s) as [[[] s']| |]; cbn [rbind]; [|done..]. apply (IH n); [done|lia].
Qed.

(** The search removes the first match in its direction. *)
Lemma find_spec ids1 : forall a n ids2 l1 v l2 val cmp fuel,
  visits a (ids1 ++ n :: ids2) (l1 ++ v :: l2) -> length ids1 = length l1 ->
  Forall (fun w => cmp w val = false) l1 -> cmp v val = true -> (length ids1 < fuel)%nat ->
  d_find fuel dir dl (Some (hd sentinel (ids1 ++ n :: ids2))) val cmp = d_removeItem dl (Some n).
Proof.
  induction ids1 as [|m ids1 IH]; intros a n ids2 [|w l1] v l2 val cmp [|fuel] Hv Hl Hno Hyes Hf;
    cbn in Hl, Hf; try lia; cbn [app hd] in *;
    destruct (visits_cons _ _ _ _ Hv) as (v' & l' & E & Hn & Hv' & Hval); injection E as <- <-;
    destruct (visits_load _ _ _ Hv') as (it & Hit & Hd); rewrite Hit in Hval; injection Hval as Hval;
    cbn [d_find]; rewrite decide_False by done; unfold dload; cbn [checked rbind];
    rewrite Hit; cbn [checked rbind]; rewrite Hval.
  - by rewrite Hyes.
  - inversion Hno as [|? ? Hw Hno']; subst. rewrite Hw, Hd. apply (IH m _ _ l1 v l2); auto; lia.
Qed.

(** Without a match it comes to the sentinel, which it compares as well. *)
Lemma find_none ids : forall a l val cmp fuel,
  visits a ids l -> Forall (fun w => cmp w val = false) l ->
  d_find (length ids + fuel)%nat dir dl (Some (hd sentinel ids)) val cmp =
  d_find fuel dir dl (Some sentinel) val cmp.
Proof.
  induction ids as [|n ids IH]; intros a l val cmp fuel Hv Hno; [done|].
  destruct (visits_cons _ _ _ _ Hv) as (v & l' & -> & Hn & Hv' & Hval).
  destruct (visits_load _ _ _ Hv') as (it & Hit & Hd). rewrite Hit in Hval. injection Hval as Hval.
  inversion Hno as [|? ? Hw Hno']; subst.
  cbn [length Nat.add hd d_find]. rewrite decide_False by done. unfold dload. cbn [checked rbind].
  rewrite Hit. cbn [checked rbind]. rewrite Hw, Hd. by apply (IH n l').
Qed.
End traversal.

Lemma visits_forward dl ids l : rings dl ids l -> visits dl dnext sentinel ids l.
Proof.
  intros Hr. constructor; [by eapply rings_forward| |apply (r_vals _ _ _ Hr)].
  by pose proof (r_nodup _ _ _ Hr) as [? _]%NoDup_cons.
Qed.

Lemma visits_reverse dl ids l : rings dl ids l -> visits dl dprev sentinel (rev ids) (rev l).
Proof.
  intros Hr. constructor; [by eapply rings_reverse| |].
  - rewrite rev_alt. fold (reverse ids). rewrite elem_of_reverse. by pose proof (r_nodup _ _ _ Hr) as [? _]%NoDup_cons.
  - rewrite !rev_alt. apply Forall2_reverse, (r_vals _ _ _ Hr).
Qed.

(** When nothing matches, not even the sentinel's zero value, the search goes
    round the ring for ever. *)
Lemma find_never dl dir ids0 l0 val cmp :
  visits dl dir sentinel ids0 l0 -> Forall (fun w => cmp w val = false) l0 ->
  (dval <$> dheap dl !! sentinel) = Some zero -> cmp zero val = false ->
  forall fuel a ids l, visits dl dir a ids l -> Forall (fun w => cmp w val = false) l ->
  d_find fuel dir dl (Some (hd sentinel ids)) val cmp = NoFuel.
Proof.
  intros H0 Hno0 Hz Hcz. induction fuel as [|fuel IH]; intros a ids l Hv Hno; [done|].
  cbn [d_find]. rewrite decide_False by done. unfold dload. cbn [checked rbind]. destruct ids as [|n ids].
  - cbn [hd]. destruct (visits_load _ _ _ _ _ H0) as (it & Hit & Hd). rewrite Hit in *.
    injection Hz as Hz. cbn [checked rbind]. rewrite Hz, Hcz, Hd. by apply (IH sentinel ids0 l0).
  - destruct (visits_cons _ _ _ _ _ _ Hv) as (v & l' & -> & Hn & Hv' & Hval).
    destruct (visits_load _ _ _ _ _ Hv') as (it & Hit & Hd). cbn [hd]. rewrite Hit in *.
    injection Hval as Hval. inversion Hno as [|? ? Hw Hno']; subst.
    cbn [checked rbind]. rewrite Hw, Hd. by apply (IH n ids l').
Qed.

(** ** The abstract list

    Identifiers are numbered from 1 in the order in which they are handed out;
    the list holds each identifier with its value. *)
Inductive d_op :=
| DReset
| DAppend (v : A)
| DPrepend (v : A)
| DRemoveItem (id : loc)
| DRemove (v : A) (cmp : A -> A -> bool)
| DRemoveReverse (v : A) (cmp : A -> A -> bool).

(** One call; the identifiers handed out so far are kept in order. *)
Definition d_step (fuel : nat) (st : Double * list loc) (op : d_op) : res (Double * list loc) :=
  let '(dl, out) := st in
  match op with
  | DReset => let! dl := d_Reset dl in Ok (dl, out)
  | DAppend v => let! (dl, id) := d_Append dl v in Ok (dl, out ++ [id])
  | DPrepend v => let! (dl, id) := d_Prepend dl v in Ok (dl, out ++ [id])
  | DRemoveItem id => let! dl := d_RemoveItem dl id in Ok (dl, out)
  | DRemove v cmp => let! dl := d_Remove fuel dl v cmp in Ok (dl, out)
  | DRemoveReverse v cmp => let! dl := d_RemoveReverse fuel dl v cmp in Ok (dl, out)
  end.

Fixpoint d_steps (fuel : nat) (st : Double * list loc) (ops : list d_op) : res (Double * list loc) :=
  match ops with
  | [] => Ok st
  | op :: ops => let! st := d_step fuel st op in d_steps fuel st ops
  end.

Definition d_run (fuel : nat) (ops : list d_op) : res (Double * list loc) :=
  let! dl := NewDouble in d_steps fuel (dl, []) ops.

Fixpoint remove_first {B} (f : B -> bool) (l : list B) : option (list B) :=
  match l with
  | [] => None
  | x :: l => if f x then Some l else (x ::.) <$> remove_first f l
  end.

Record d_abs := DAbs { a_items : list (loc * A); a_out : list loc }.

(** [None]: the operation names an identifier or a value the list does not hold. *)
Definition d_model (m : d_abs) (op : d_op) : option d_abs :=
  let l := a_items m in let id := S (length (a_out m)) in
  match op with
  | DReset => Some (DAbs [] (a_out m))
  | DAppend v => Some (DAbs (l ++ [(id, v)]) (a_out m ++ [id]))
  | DPrepend v => Some (DAbs ((id, v) :: l) (a_out m ++ [id]))
  | DRemoveItem i => (fun l => DAbs l (a_out m)) <$> remove_first (fun p => bool_decide (p.1 = i)) l
  | DRemove v cmp => (fun l => DAbs l (a_out m)) <$> remove_first (fun p => cmp p.2 v) l
  | DRemoveReverse v cmp => (fun l => DAbs (rev l) (a_out m)) <$> remove_first (fun p => cmp p.2 v) (rev l)
  end.

Fixpoint d_models (m : d_abs) (ops : list d_op) : option d_abs :=
  match ops with
  | [] => Some m
  | op :: ops => match d_model m op with Some m => d_models m ops | None => None end
  end.

Lemma remove_first_Some {B} (f : B -> bool) l l' : remove_first f l = Some l' ->
  exists l1 x l2, l = l1 ++ x :: l2 /\ l' = l1 ++ l2 /\ f x = true /\ Forall (fun y => f y = false) l1.
Proof.
  revert l'. induction l as [|y l IH]; intros l'; cbn; [done|]. destruct (f y) eqn:E.
  - intros [= <-]. by exists [], y, l.
  - destruct (remove_first f l) as [l''|]; cbn; [|done]. intros [= <-].
    destruct (IH l'' eq_refl) as (l1 & x & l2 & -> & -> & Hx & Hl1). exists (y :: l1), x, l2. by repeat constructor.
Qed.

(** The list stands for the ring. *)
Record d_rel (dl : Double) (out : list loc) (m : d_abs) : Prop := {
  dr_rings : rings dl (a_items m).*1 (a_items m).*2;
  dr_out : out = a_out m;
  dr_fresh : dfresh dl = S (length out);
  dr_le : (length (a_items m) <= length out)%nat;
}.

Lemma reset_spec dl : is_Some (dheap dl !! sentinel) -> (dval <$> dheap dl !! sentinel) = Some zero ->
  (forall a, (dfresh dl <= a)%nat -> dheap dl !! a = None) ->
  exists dl', d_Reset dl = Ok dl' /\ dfresh dl' = dfresh dl /\ rings dl' [] [].
Proof.
  intros Hs Hz Hfr. unfold d_Reset. cbv zeta.
  match goal with |- context [set_next ?d _ _] => set (dl1 := d) end.
  destruct (set_next_spec dl1 sentinel (Some sentinel)) as (dl2 & -> & F2 & L2 & N2 & P2 & V2); [done|].
  cbn [rbind]. destruct (set_prev_spec dl2 sentinel (Some sentinel)) as (dl3 & -> & F3 & L3 & P3 & N3 & V3).
  { by apply (field_is_Some _ dval _ _ _ V2). }
  exists dl3. split; [done|]. split; [by rewrite F3, F2|]. constructor.
  - split; [|done]. split; [by rewrite N3, N2, decide_True|by rewrite P3, decide_True].
  - constructor; [apply not_elem_of_nil|constructor].
  - constructor.
  - by rewrite V3, V2.
  - intros a Ha. rewrite F3, F2 in Ha. apply (field_None dval). rewrite V3, V2. by apply field_None, Hfr.
  - by rewrite L3, L2.
Qed.

(** [Append] inserts after the last item. *)
Lemma append_spec dl ids l v : rings dl ids l ->
  exists dl', d_Append dl v = Ok (dl', dfresh dl) /\ rings dl' (ids ++ [dfresh dl]) (l ++ [v]).
Proof.
  intros Hr. destruct (ring_split ids []) as (p & a & b & q & Ep & Eq).
  destruct (rings_linked _ _ _ Hr p a b q) as ([_ Hb] & _).
  { by rewrite app_comm_cons, Ep, <- app_assoc, <- Eq. }
  injection Eq as <- _. unfold d_Append, dload. cbn [checked rbind].
  destruct (dheap dl !! sentinel) as [it|] eqn:Hit; [|done]. cbn [checked rbind]. injection Hb as ->.
  apply (insert_spec dl ids [] l [] v p a); rewrite ?app_nil_r; auto. by apply (rings_length _ _ _ Hr).
Qed.

Lemma prepend_spec dl ids l v : rings dl ids l ->
  exists dl', d_Prepend dl v = Ok (dl', dfresh dl) /\ rings dl' (dfresh dl :: ids) (v :: l).
Proof. intros Hr. by apply (insert_spec dl [] ids [] l v []). Qed.

Lemma insert_fresh dl v a dl' n : d_insertAfterItem dl v a = Ok (dl', n) -> dfresh dl' = S (dfresh dl).
Proof.
  unfold d_insertAfterItem, set_next, set_prev, dstore. intros H. res_inv. cbn. done.
Qed.

Lemma rings_sentinel dl ids l : rings dl ids l -> exists it, dheap dl !! sentinel = Some it /\ dval it = zero.
Proof.
  intros Hr. pose proof (r_zero _ _ _ Hr) as H. destruct (dheap dl !! sentinel) as [it|]; [|done].
  injection H as H. eauto.
Qed.

Lemma removed_item_spec dl l1 (x : loc * A) l2 : rings dl (l1 ++ x :: l2).*1 (l1 ++ x :: l2).*2 ->
  exists dl', d_removeItem dl (Some x.1) = Ok dl' /\ dheap dl' !! x.1 = Some dzero /\
    dfresh dl' = dfresh dl /\ rings dl' (l1 ++ l2).*1 (l1 ++ l2).*2.
Proof.
  rewrite !fmap_app. cbn. intros Hr. apply (remove_spec _ _ _ _ _ x.2); [done|]. by rewrite !length_fmap.
Qed.

Lemma Remove_match dl l1 (x : loc * A) l2 v cmp fuel :
  rings dl (l1 ++ x :: l2).*1 (l1 ++ x :: l2).*2 -> Forall (fun p => cmp p.2 v = false) l1 ->
  cmp x.2 v = true -> (length l1 < fuel)%nat -> d_Remove fuel dl v cmp = d_removeItem dl (Some x.1).
Proof.
  intros Hr Hno Hx Hf. pose proof (visits_forward _ _ _ Hr) as Hv. unfold d_Remove, dload. cbn [checked rbind].
  destruct (visits_load _ _ _ _ _ Hv) as (it & -> & Hd). cbn [checked rbind]. rewrite Hd, fmap_app. cbn.
  rewrite !fmap_app in Hv. apply (find_spec dl dnext _ _ _ _ _ _ _ _ _ _ Hv); rewrite ?length_fmap; auto.
  by apply Forall_fmap.
Qed.

Lemma RemoveReverse_match dl l1 (x : loc * A) l2 v cmp fuel l :
  rings dl l.*1 l.*2 -> rev l = l1 ++ x :: l2 -> Forall (fun p => cmp p.2 v = false) l1 ->
  cmp x.2 v = true -> (length l1 < fuel)%nat -> d_RemoveReverse fuel dl v cmp = d_removeItem dl (Some x.1).
Proof.
  intros Hr E Hno Hx Hf. pose proof (visits_reverse _ _ _ Hr) as Hv. unfold d_RemoveReverse, dload. cbn [checked rbind].
  destruct (visits_load _ _ _ _ _ Hv) as (it & -> & Hd). cbn [checked rbind]. rewrite Hd.
  assert (forall B (f : loc * A -> B), rev (f <$> l) = (f <$> l1) ++ f x :: (f <$> l2)) as Er.
  { intros B f. transitivity (f <$> rev l); [symmetry; apply List.map_rev|]. rewrite E. by rewrite fmap_app. }
  rewrite !Er in *. apply (find_spec dl dprev _ _ _ _ _ _ _ _ _ _ Hv); rewrite ?length_fmap; auto.
  by apply Forall_fmap.
Qed.

Lemma step_refines dl out m op m' fuel :
  d_rel dl out m -> d_model m op = Some m' -> (length out < fuel)%nat ->
  exists dl' out', d_step fuel (dl, out) op = Ok (dl', out') /\ d_rel dl' out' m' /\
    (length out' <= S (length out))%nat.
Proof.
  intros [Hr -> Hf Hle] Hm Hfuel. destruct (rings_sentinel _ _ _ Hr) as (it & Hit & Hval).
  destruct op; cbn in Hm |- *.
  - injection Hm as <-. destruct (reset_spec dl) as (dl' & -> & F & Hr'); [eauto|by rewrite Hit; cbn; rewrite Hval|apply (r_fresh _ _ _ Hr)|].
    cbn [rbind]. do 2 eexists. split; [done|]. split; [|lia].
    constructor; cbn; [done|done|by rewrite F|lia].
  - injection Hm as <-. destruct (append_spec _ _ _ v Hr) as (dl' & E & Hr'). rewrite E. cbn [rbind].
    do 2 eexists. split; [done|]. split; [|rewrite length_app; cbn; lia]. rewrite Hf in *.
    constructor; cbn; rewrite ?fmap_app, ?length_app; cbn; [done|done| |lia].
    unfold d_Append in E. res_inv. erewrite insert_fresh by done. lia.
  - injection Hm as <-. destruct (prepend_spec _ _ _ v Hr) as (dl' & E & Hr'). rewrite E. cbn [rbind].
    do 2 eexists. split; [done|]. split; [|rewrite length_app; cbn; lia]. rewrite Hf in *.
    constructor; cbn; rewrite ?length_app; cbn; [done|done| |lia].
    erewrite insert_fresh by done. lia.
  - apply fmap_Some in Hm as (l' & Hm & ->).
    apply remove_first_Some in Hm as (l1 & x & l2 & El & -> & Hx & _). apply bool_decide_eq_true in Hx as <-.
    rewrite El in Hr, Hle. destruct (removed_item_spec _ _ _ _ Hr) as (dl' & E & _ & F & Hr').
    unfold d_RemoveItem. rewrite E. cbn [rbind]. do 2 eexists. split; [done|]. split; [|lia].
    rewrite !length_app in Hle. cbn in Hle.
    constructor; cbn; [done|done|by rewrite F|rewrite length_app; lia].
  - apply fmap_Some in Hm as (l' & Hm & ->).
    apply remove_first_Some in Hm as (l1 & x & l2 & El & -> & Hx & Hno).
    rewrite El in Hr, Hle. rewrite !length_app in Hle. cbn in Hle.
    rewrite (Remove_match _ _ _ _ _ _ _ Hr Hno Hx) by lia.
    destruct (removed_item_spec _ _ _ _ Hr) as (dl' & -> & _ & F & Hr').
    cbn [rbind]. do 2 eexists. split; [done|]. split; [|lia].
    constructor; cbn; [done|done|by rewrite F|rewrite length_app; lia].
  - apply fmap_Some in Hm as (l' & Hm & ->).
    apply remove_first_Some in Hm as (l1 & x & l2 & El & -> & Hx & Hno).
    pose proof (f_equal length El) as Hlen. rewrite length_rev, length_app in Hlen. cbn in Hlen.
    rewrite (RemoveReverse_match _ _ _ _ _ _ _ _ Hr El Hno Hx) by lia.
    assert (a_items m = rev l2 ++ x :: rev l1) as Em.
    { rewrite <- (rev_involutive (a_items m)), El, rev_app_distr. cbn. by rewrite <- app_assoc. }
    rewrite Em in Hr. destruct (removed_item_spec _ _ _ _ Hr) as (dl' & -> & _ & F & Hr').
    cbn [rbind]. do 2 eexists. split; [done|]. split; [|lia].
    constructor; cbn; rewrite ?rev_app_distr; [done|done|by rewrite F|rewrite length_app, !length_rev; lia].
Qed.

Lemma steps_refine fuel ops : forall dl out m m',
  d_rel dl out m -> d_models m ops = Some m' -> (length out + length ops <= fuel)%nat ->
  exists dl' out', d_steps fuel (dl, out) ops = Ok (dl', out') /\ d_rel dl' out' m'.
Proof.
  induction ops as [|op ops IH]; intros dl out m m' Hr Hm Hf; cbn [d_steps d_models length] in *.
  - injection Hm as <-. eauto.
  - destruct (d_model m op) as [m1|] eqn:E; [|done].
    destruct (step_refines _ _ _ _ _ fuel Hr E) as (dl1 & out1 & -> & Hr1 & Hl); [lia|].
    cbn [rbind]. apply (IH _ _ m1); [done|done|lia].
Qed.

Lemma run_refines fuel ops m : d_models (DAbs [] []) ops = Some m -> (length ops <= fuel)%nat ->
  exists dl, d_run fuel ops = Ok (dl, a_out m) /\ d_rel dl (a_out m) m.
Proof.
  intros Hm Hf. unfold d_run, NewDouble.
  match goal with |- context [d_Reset ?d] => set (dl0 := d) end.
  destruct (reset_spec dl0) as (dl & -> & F & Hr).
  - eexists. apply lookup_singleton_eq.
  - cbn [dl0 dheap]. by rewrite (lookup_singleton_eq sentinel dzero).
  - intros a Ha. apply (lookup_singleton_ne sentinel). unfold sentinel. cbn in Ha. lia.
  - cbn [rbind]. destruct (steps_refine fuel ops dl [] (DAbs [] []) m) as (dl' & out' & E & Hr'); auto.
    { constructor; cbn; [done|done|done|lia]. }
    exists dl'. pose proof (dr_out _ _ _ Hr') as ->. by split.
Qed.

Lemma Forward_spec dl ids l S (yield : A -> S -> res (bool * S)) s : rings dl ids l ->
  d_Forward dl S yield s = range_list l yield s.
Proof.
  intros Hr. pose proof (visits_forward _ _ _ Hr) as Hv. unfold d_Forward, dload. cbn [checked rbind].
  destruct (visits_load _ _ _ _ _ Hv) as (it & -> & Hd). cbn [checked rbind]. rewrite Hd.
  apply (walk_spec dl dnext _ sentinel); [done|]. unfold d_fuel.
  rewrite (r_len _ _ _ Hr), (rings_length _ _ _ Hr). unfold len. lia.
Qed.

Lemma Reverse_spec dl ids l S (yield : A -> S -> res (bool * S)) s : rings dl ids l ->
  d_Reverse dl S yield s = range_list (rev l) yield s.
Proof.
  intros Hr. pose proof (visits_reverse _ _ _ Hr) as Hv. unfold d_Reverse, dload. cbn [checked rbind].
  destruct (visits_load _ _ _ _ _ Hv) as (it & -> & Hd). cbn [checked rbind]. rewrite Hd.
  apply (walk_spec dl dprev _ sentinel); [done|]. unfold d_fuel.
  rewrite length_rev, (r_len _ _ _ Hr), (rings_length _ _ _ Hr). unfold len. lia.
Qed.

(** [Head] and [Tail] read the item after the sentinel in their direction. *)
Lemma first_spec dl dir ids l d : dlen dl = len l -> visits dl dir sentinel ids l ->
  (dval <$> dheap dl !! sentinel) = Some zero -> d = dir ->
  (let! s := dload dl (Some sentinel) in
   if dlen dl =? 0 then Ok (dval s) else let! it := dload dl (d s) in Ok (dval it)) = Ok (hd zero l).
Proof.
  intros Hl Hv Hz ->. unfold dload at 1. cbn [checked rbind].
  destruct (visits_load _ _ _ _ _ Hv) as (it & Hit & Hd). rewrite Hit in Hz |- *. injection Hz as Hz.
  cbn [checked rbind]. rewrite Hl, Hd. destruct ids as [|n ids].
  - destruct Hv as [_ _ Hv]. inversion Hv; subst. done.
  - destruct (visits_cons _ _ _ _ _ _ Hv) as (v & l' & -> & _ & _ & Hn). cbn [hd].
    rewrite (proj2 (Z.eqb_neq _ _)) by (rewrite len_cons; pose proof (len_nonneg l'); lia).
    unfold dload. cbn [checked rbind]. destruct (dheap dl !! n) as [it'|]; [|done]. injection Hn as <-. done.
Qed.

Lemma first_node_spec dl ids l : rings dl ids l -> d_Head dl = Ok (hd zero l).
Proof.
  intros Hr. apply (first_spec dl dnext ids l dnext); auto using visits_forward.
  - apply (r_len _ _ _ Hr).
  - apply (r_zero _ _ _ Hr).
Qed.

Lemma last_node_spec dl ids l : rings dl ids l -> d_Tail dl = Ok (List.last l zero).
Proof.
  intros Hr. transitivity (@Ok A (hd zero (rev l))).
  - apply (first_spec dl dprev (rev ids) (rev l) dprev); auto using visits_reverse.
    + rewrite (r_len _ _ _ Hr). unfold len. by rewrite length_rev.
    + apply (r_zero _ _ _ Hr).
  - f_equal. destruct l as [|x l] using rev_ind; [done|]. by rewrite rev_unit, last_last.
Qed.

(** An outcome from which no result can be read. *)
Definition is_panic {B} (r : res B) : Prop := match r with Panic => True | _ => False end.

Lemma remove_sentinel dl ids l dl' : rings dl ids l -> d_removeItem dl (Some sentinel) = Ok dl' ->
  is_panic (d_Forward dl' (list A) collect []).
Proof.
  intros Hr. unfold d_removeItem. intros H. res_inv. unfold dstore in H. res_inv. simplify_eq.
  unfold d_Forward, dload. cbn [checked rbind dheap]. by rewrite lookup_insert_eq.
Qed.

Lemma removeItem_sentinel_Ok dl ids l : rings dl ids l -> exists dl', d_removeItem dl (Some sentinel) = Ok dl'.
Proof.
  intros Hr. destruct (ring_split ids []) as (p & a & b & q & Ep & Eq). injection Eq as <- <-.
  destruct (rings_linked _ _ _ Hr p a sentinel []) as ([_ Hp] & Ha & _).
  { by rewrite app_comm_cons, Ep, <- app_assoc. }
  destruct (ids ++ [sentinel]) as [|c q'] eqn:E; [by destruct ids|].
  destruct (rings_linked _ _ _ Hr [] sentinel c q') as ([Hn _] & _ & Hc); [by rewrite E|].
  destruct (removeItem_fields dl sentinel a c Hn Hp) as (dl' & H & _); eauto using rings_in.
Qed.

(** [Remove] and [RemoveReverse] with no match. *)
Lemma find_absent dl dir ids l ids' l' val cmp fuel : rings dl ids l -> visits dl dir sentinel ids' l' ->
  Forall (fun w => cmp w val = false) l' ->
  let r := let! s := dload dl (Some sentinel) in d_find fuel dir dl (dir s) val cmp in
  (cmp zero val = false -> r = NoFuel) /\
  (cmp zero val = true -> (length ids' < fuel)%nat ->
   exists dl', r = Ok dl' /\ is_panic (d_Forward dl' (list A) collect [])).
Proof.
  intros Hr Hv Hno. cbv zeta. destruct (rings_sentinel _ _ _ Hr) as (it & Hit & Hz).
  destruct (visits_load _ _ _ _ _ Hv) as (it' & Hit' & Hd). rewrite Hit in Hit'. injection Hit' as <-.
  unfold dload at 1 2. cbn [checked rbind]. rewrite Hit. cbn [checked rbind]. rewrite Hd. split.
  - intros Hc. apply (find_never dl dir ids' l') with sentinel l'; auto. apply (r_zero _ _ _ Hr).
  - intros Hc Hf. destruct (removeItem_sentinel_Ok _ _ _ Hr) as (dl' & E). exists dl'.
    split; [|by eapply remove_sentinel].
    replace fuel with (length ids' + S (pred (fuel - length ids')))%nat by lia.
    rewrite (find_none dl dir ids' sentinel l') by done.
    cbn [d_find]. rewrite decide_False by done. unfold dload. cbn [checked rbind]. rewrite Hit.
    cbn [checked rbind]. by rewrite Hz, Hc.
Qed.

(** Any sequence of [Append], [Prepend], [RemoveItem], [Remove],
    [RemoveReverse] and [Reset] on a [Double], every removal naming an identifier
    or a value the list holds, runs without a panic and leaves the list the
    abstract operations describe: [Len], [Head], [Tail] and both iterators
    observe exactly it (a [break] included), the identifiers handed out are the
    ones the abstract list predicts, [Remove] takes the first match and
    [RemoveReverse] the last. *)
Theorem Double_refines_list (ops : list d_op) (m : d_abs) (fuel : nat)
  (Hm : d_models (DAbs [] []) ops = Some m) (Hf : (length ops <= fuel)%nat) :
  exists dl, d_run fuel ops = Ok (dl, a_out m) /\
    d_Len dl = len (a_items m) /\
    d_Head dl = Ok (hd zero (a_items m).*2) /\
    d_Tail dl = Ok (List.last (a_items m).*2 zero) /\
    forall S (yield : A -> S -> res (bool * S)) s,
      d_Forward dl S yield s = range_list (a_items m).*2 yield s /\
      d_Reverse dl S yield s = range_list (rev (a_items m).*2) yield s.
Proof.
  destruct (run_refines fuel ops m Hm Hf) as (dl & E & [Hr _ _ _]). exists dl. split; [done|].
  split; [|split; [by eapply first_node_spec|split; [by eapply last_node_spec|]]].
  - unfold d_Len. rewrite (r_len _ _ _ Hr). unfold len. by rewrite length_fmap.
  - intros S yield s. split; [by eapply Forward_spec|by eapply Reverse_spec].
Qed.

(** [Remove] and [RemoveReverse] of a value that is not in a [Double] go
    wrong, for the loop waits for a nil pointer that a ring does not have: when
    the zero value does not match either, the loop never ends, whatever the fuel;
    when it does, the sentinel itself is unlinked and zeroed, and the next
    iteration over the list dereferences nil. *)
Theorem Double_Remove_absent (ops : list d_op) (m : d_abs) (fuel : nat) (dl : Double) (out : list loc)
  (val : A) (cmp : A -> A -> bool)
  (Hm : d_models (DAbs [] []) ops = Some m) (Hrun : d_run (length ops) ops = Ok (dl, out))
  (Habs : Forall (fun w => cmp w val = false) (a_items m).*2) :
  (cmp zero val = false -> d_Remove fuel dl val cmp = NoFuel /\ d_RemoveReverse fuel dl val cmp = NoFuel) /\
  (cmp zero val = true -> (length (a_items m) < fuel)%nat ->
   exists dl1 dl2, d_Remove fuel dl val cmp = Ok dl1 /\ d_RemoveReverse fuel dl val cmp = Ok dl2 /\
     is_panic (d_Forward dl1 (list A) collect []) /\ is_panic (d_Forward dl2 (list A) collect [])).
Proof.
  destruct (run_refines _ ops m Hm (le_n _)) as (dl' & E & [Hr _ _ _]). rewrite E in Hrun. injection Hrun as -> _.
  pose proof (find_absent dl dnext _ _ _ _ val cmp fuel Hr (visits_forward _ _ _ Hr) Habs) as [F1 F2].
  assert (Forall (fun w => cmp w val = false) (rev (a_items m).*2)) as Hrev.
  { rewrite rev_alt. by apply Forall_reverse. }
  pose proof (find_absent dl dprev _ _ _ _ val cmp fuel Hr (visits_reverse _ _ _ Hr) Hrev) as [R1 R2].
  rewrite length_rev in R2. rewrite !length_fmap in *. split; [by auto|].
  intros Hc Hl. destruct (F2 Hc Hl) as (dl1 & ? & ?), (R2 Hc Hl) as (dl2 & ? & ?). by exists dl1, dl2.
Qed.
End double.

Definition ops_ex : list (d_op (A := Z)) :=
  [DAppend 1; DPrepend 2; DAppend 3; DRemove 1 Z.eqb; DAppend 2; DRemoveReverse 2 Z.eqb; DRemoveItem 3].

Example Double_refines_list_witness :
  d_models (DAbs [] []) ops_ex = Some (DAbs [(2%nat, 2)] [1; 2; 3; 4]%nat) /\
  exists dl, d_run 0 7 ops_ex = Ok (dl, [1; 2; 3; 4]%nat) /\ d_Head dl = Ok 2.
Proof.
  split; [reflexivity|].
  destruct (Double_refines_list 0 ops_ex (DAbs [(2%nat, 2)] [1; 2; 3; 4]%nat) 7 eq_refl ltac:(cbn; lia))
    as (dl & Hr & _ & Hh & _).
  exists dl. split; [exact Hr|exact Hh].
Defined.

Example Double_Remove_absent_witness :
  exists dl out, d_run 0 1 [DAppend 1] = Ok (dl, out) /\
    (forall fuel, d_Remove 0 fuel dl 2 Z.eqb = NoFuel) /\
    (exists dl', d_Remove 0 5 dl 0 Z.eqb = Ok dl' /\ is_panic (d_Forward dl' (list Z) collect [])).
Proof.
  do 2 eexists. split; [vm_compute; reflexivity|]. split.
  - intros fuel. apply (Double_Remove_absent 0 [DAppend 1] (DAbs [(1%nat, 1)] [1%nat]) fuel _ [1%nat] 2 Z.eqb);
      [reflexivity|reflexivity|repeat constructor|reflexivity].
  - destruct (Double_Remove_absent 0 [DAppend 1] (DAbs [(1%nat, 1)] [1%nat]) 5 _ [1%nat] 0 Z.eqb
      eq_refl eq_refl ltac:(repeat constructor)) as [_ H].
    destruct (H eq_refl ltac:(cbn; lia)) as (dl1 & _ & H1 & _ & H2 & _). exists dl1. split; [exact H1|exact H2].
Defined.

(** ** Single *)

Section single.
Context {A : Type} (zero : A).

Record sitem := MkS { snext : option loc; sval : A }.

Definition szero : sitem := MkS None zero.

Record Single := MkSingle { sheap : gmap loc sitem; sfresh : loc; stail : option loc; slen : Z }.

Definition sload (sl : Single) (p : option loc) : res sitem :=
  let! a := checked p in checked (sheap sl !! a).

Definition sstore (sl : Single) (p : option loc) (it : sitem) : res Single :=
  let! a := checked p in
  let! _ := checked (sheap sl !! a) in
  Ok (MkSingle (<[a := it]> (sheap sl)) (sfresh sl) (stail sl) (slen sl)).

Definition s_set_next (sl : Single) (p q : option loc) : res Single :=
  let! it := sload sl p in sstore sl p (MkS q (sval it)).

Definition set_tail (sl : Single) (t : option loc) : Single :=
  MkSingle (sheap sl) (sfresh sl) t (slen sl).

Definition set_len (sl : Single) (n : Z) : Single :=
  MkSingle (sheap sl) (sfresh sl) (stail sl) n.

Definition s_Reset (sl : Single) : res Single :=
  let! sl := s_set_next (set_len sl 0) (Some sentinel) (Some sentinel) in
  Ok (set_tail sl (Some sentinel)).

Definition NewSingle : res Single := s_Reset (MkSingle {[sentinel := szero]} 1%nat None 0).

Definition s_Len (sl : Single) : Z := slen sl.

Fixpoint s_walk (fuel : nat) (sl : Single) (n : option loc)
    {S} (yield : A -> S -> res (bool * S)) (s : S) : res S :=
  match fuel with
  | O => NoFuel
  | Datatypes.S fuel =>
      if decide (n = Some sentinel) then Ok s
      else
        let! it := sload sl n in
        let! (more, s) := yield (sval it) s in
        if more then s_walk fuel sl (snext it) yield s else Ok s
  end.

Definition s_fuel (sl : Single) : nat := S (Z.to_nat (slen sl)).

Definition s_Forward (sl : Single) : seq_iter A := fun S yield s =>
  let! it := sload sl (Some sentinel) in s_walk (s_fuel sl) sl (snext it) yield s.

Definition s_insertAfterItem (sl : Single) (val : A) (it : option loc) : res (Single * loc) :=
  let! item := sload sl it in
  let n := sfresh sl in
  let sl := MkSingle (<[n := MkS (snext item) val]> (sheap sl)) (S n) (stail sl) (slen sl) in
  let! sl := s_set_next sl it (Some n) in
  Ok (set_len sl (slen sl + 1), n).

Definition s_Head (sl : Single) : res A :=
  let! s := sload sl (Some sentinel) in
  if slen sl =? 0 then Ok (sval s) else let! it := sload sl (snext s) in Ok (sval it).

Definition s_Append (sl : Single) (val : A) : res (Single * loc) :=
  let! (sl, n) := s_insertAfterItem sl val (stail sl) in
  Ok (set_tail sl (Some n), n).

Definition s_Prepend (sl : Single) (val : A) : res (Single * loc) :=
  let! (sl, n) := s_insertAfterItem sl val (Some sentinel) in
  Ok (if slen sl =? 1 then set_tail sl (Some n) else sl, n).

Definition s_removeItem (sl : Single) (prev it : option loc) : res Single :=
  let sl := set_len sl (slen sl - 1) in
  let! item := sload sl it in
  let! sl := s_set_next sl prev (snext item) in
  let sl := if decide (stail sl = it) then set_tail sl prev else sl in
  sstore sl it szero.

Fixpoint s_findPrev_loop (fuel : nat) (sl : Single) (prev n it : option loc) : res (option loc) :=
  match fuel with
  | O => NoFuel
  | S fuel =>
      if decide (n = Some sentinel) then Ok None
      else if decide (n = it) then Ok prev
      else let! item := sload sl n in s_findPrev_loop fuel sl n (snext item) it
  end.

Definition s_findPrev (sl : Single) (it : option loc) : res (option loc) :=
  let! s := sload sl (Some sentinel) in
  s_findPrev_loop (s_fuel sl) sl (Some sentinel) (snext s) it.

Definition s_RemoveItem (sl : Single) (id : option loc) : res Single :=
  let! prev := s_findPrev sl id in
  if decide (prev = None) then Ok sl else s_removeItem sl prev id.

Fixpoint s_Remove_loop (fuel : nat) (sl : Single) (prev n : option loc) (val : A) (cmp : A -> A -> bool) : res Single :=
  match fuel with
  | O => NoFuel
  | S fuel =>
      if decide (n = Some sentinel) then Ok sl
      else
        let! item := sload sl n in
        if cmp (sval item) val then s_removeItem sl prev n
        else s_Remove_loop fuel sl n (snext item) val cmp
  end.

Definition s_Remove (sl : Single) (val : A) (cmp : A -> A -> bool) : res Single :=
  let! s := sload sl (Some sentinel) in
  s_Remove_loop (s_fuel sl) sl (Some sentinel) (snext s) val cmp.

(** *** The list a single ring holds *)

Definition snextof (h : gmap loc sitem) (a b : loc) : Prop := (snext <$> h !! a) = Some (Some b).

Record srings (sl : Single) (ids : list loc) (l : list A) : Prop := {
  s_path : path (snextof (sheap sl)) (sentinel :: ids ++ [sentinel]);
  s_nodup : NoDup (sentinel :: ids);
  s_vals : Forall2 (fun i v => (sval <$> sheap sl !! i) = Some v) ids l;
  s_zero : (sval <$> sheap sl !! sentinel) = Some zero;
  s_fresh : forall a, (sfresh sl <= a)%nat -> sheap sl !! a = None;
  s_slen : slen sl = len l;
  s_stail : stail sl = Some (List.last ids sentinel);
}.

Lemma last_prefix (ids p : list loc) a : sentinel :: ids = p ++ [a] -> List.last ids sentinel = a.
Proof.
  intros E. destruct ids as [|i ids] using rev_ind.
  - destruct p as [|? []]; cbn in E |- *; congruence.
  - rewrite last_last. rewrite app_comm_cons in E. by apply app_inj_tail in E as [_ ->].
Qed.

Lemma s_set_next_Ok sl a it q : sheap sl !! a = Some it ->
  s_set_next sl (Some a) q = Ok (MkSingle (<[a := MkS q (sval it)]> (sheap sl)) (sfresh sl) (stail sl) (slen sl)).
Proof. intros H. unfold s_set_next, sload, sstore. cbn. rewrite H. cbn. by rewrite ?H. Qed.

Lemma s_field {B} (f : sitem -> B) (h : gmap loc sitem) n it x :
  (f <$> <[n := it]> h !! x) = if decide (x = n) then Some (f it) else f <$> h !! x.
Proof. case_decide; [subst; by rewrite lookup_insert_eq|by rewrite lookup_insert_ne]. Qed.

Lemma Forall2_sval (h h' : gmap loc sitem) ids (l : list A) :
  (forall i, i ∈ ids -> (sval <$> h' !! i) = sval <$> h !! i) ->
  Forall2 (fun i v => (sval <$> h !! i) = Some v) ids l ->
  Forall2 (fun i v => (sval <$> h' !! i) = Some v) ids l.
Proof.
  intros Hf H. induction H as [|i v ids l Hi H IH]; [done|]. constructor.
  - rewrite Hf by left. done.
  - apply IH. intros j Hj. apply Hf. by right.
Qed.

Section srings_facts.
Context (sl : Single) (ids : list loc) (l : list A) (Hr : srings sl ids l).

Lemma srings_in x : x ∈ sentinel :: ids -> is_Some (sheap sl !! x).
Proof.
  intros [->|Hx]%elem_of_cons.
  - pose proof (s_zero _ _ _ Hr) as H. destruct (sheap sl !! sentinel); naive_solver.
  - apply list_elem_of_lookup in Hx as [i Hi].
    destruct (Forall2_lookup_l _ _ _ _ _ (s_vals _ _ _ Hr) Hi) as (v & _ & Hv).
    destruct (sheap sl !! x); naive_solver.
Qed.

Lemma srings_fresh x : x ∈ sentinel :: ids -> (x < sfresh sl)%nat.
Proof.
  intros Hx%srings_in. destruct (decide (x < sfresh sl)%nat) as [|Hn]; [done|].
  rewrite (s_fresh _ _ _ Hr) in Hx by lia. by destruct Hx.
Qed.

Lemma srings_length : length ids = length l.
Proof. apply (Forall2_length _ _ _ (s_vals _ _ _ Hr)). Qed.

Lemma srings_next p a b q : sentinel :: ids ++ [sentinel] = p ++ a :: b :: q ->
  snextof (sheap sl) a b /\ a ∈ sentinel :: ids /\ b ∈ sentinel :: ids.
Proof.
  intros E. pose proof (s_path _ _ _ Hr) as Hp. rewrite E in Hp.
  apply path_app in Hp as [_ [Hab _]]. split; [done|].
  assert (forall x, x ∈ sentinel :: ids ++ [sentinel] -> x ∈ sentinel :: ids) as Hin by set_solver.
  split; apply Hin; rewrite E; set_solver.
Qed.
End srings_facts.

Lemma s_insert_spec sl ids1 ids2 l1 l2 val p a :
  srings sl (ids1 ++ ids2) (l1 ++ l2) -> length ids1 = length l1 -> sentinel :: ids1 = p ++ [a] ->
  exists sl', s_insertAfterItem sl val (Some a) = Ok (sl', sfresh sl) /\ sfresh sl' = S (sfresh sl) /\
    slen sl' = slen sl + 1 /\ stail sl' = stail sl /\
    srings (set_tail sl' (Some (List.last (ids1 ++ sfresh sl :: ids2) sentinel)))
      (ids1 ++ sfresh sl :: ids2) (l1 ++ val :: l2).
Proof.
  intros Hr Hl Hp. destruct (ring_split ids1 ids2) as (p' & a' & b & q & Ep & Eq).
  assert (p' = p /\ a' = a) as [-> ->] by (apply app_inj_tail; congruence).
  assert (sentinel :: (ids1 ++ ids2) ++ [sentinel] = p ++ a :: b :: q) as Er.
  { rewrite <- app_assoc, app_comm_cons, Ep, Eq, <- app_assoc. done. }
  destruct (srings_next _ _ _ Hr _ _ _ _ Er) as (Hab & Ha & Hb).
  pose proof (srings_in _ _ _ Hr a Ha) as [it Hit].
  pose proof (srings_fresh _ _ _ Hr) as Hlt. pose proof (s_fresh _ _ _ Hr) as Hfr.
  unfold snextof in Hab. rewrite Hit in Hab. injection Hab as Hab.
  unfold s_insertAfterItem, sload. cbn [checked rbind]. rewrite Hit. cbn [checked rbind]. rewrite Hab.
  cbv zeta. set (n := sfresh sl) in *. pose proof (Hlt a Ha) as Han.
  erewrite s_set_next_Ok by (cbn; rewrite lookup_insert_ne by lia; exact Hit).
  cbn [rbind sheap sfresh stail slen]. eexists. do 4 (split; [done|]). clearbody n.
  constructor; cbn [sheap sfresh slen stail set_len set_tail].
  - replace (sentinel :: (ids1 ++ n :: ids2) ++ [sentinel]) with (p ++ a :: n :: b :: q)
      by (rewrite <- app_assoc, app_comm_cons, Ep, <- app_assoc; cbn; by rewrite Eq).
    apply (path_insert (snextof (sheap sl))).
    + rewrite <- Er. apply ring_ok_sentinel, (s_nodup _ _ _ Hr).
    + rewrite <- Er. apply (s_path _ _ _ Hr).
    + unfold snextof. by rewrite s_field, decide_True.
    + unfold snextof. rewrite s_field, decide_False by lia. by rewrite s_field, decide_True.
    + intros x y Hx Hy Hxy. unfold snextof in *. rewrite s_field, decide_False by done.
      rewrite s_field, decide_False; [done|]. intros ->. by rewrite (Hfr n) in Hxy.
  - apply NoDup_cons_middle; [|apply (s_nodup _ _ _ Hr)]. intros x Hx. specialize (Hlt x Hx). lia.
  - apply Forall2_app_middle; [done| |].
    + rewrite s_field, decide_False by lia. by rewrite s_field, decide_True.
    + apply (Forall2_sval (sheap sl)); [|apply (s_vals _ _ _ Hr)].
      intros i Hi. assert (i < n)%nat by (apply Hlt; by right).
      rewrite s_field, s_field. rewrite (decide_False (P := i = n)) by lia.
      case_decide; [subst; by rewrite Hit|done].
  - assert (sentinel < n)%nat by (apply Hlt; left). rewrite s_field, s_field, (decide_False (P := sentinel = n)) by lia.
    pose proof (s_zero _ _ _ Hr) as Hz. case_decide; [subst; by rewrite Hit in Hz|done].
  - intros x Hx. rewrite !lookup_insert_ne by lia. apply Hfr. lia.
  - rewrite (s_slen _ _ _ Hr). autorewrite with go_len. lia.
  - done.
Qed.

Lemma last_app_cons (l1 : list loc) x l2 d : List.last (l1 ++ x :: l2) d = List.last (x :: l2) d.
Proof. induction l1 as [|y l1 IH]; [done|]. rewrite <- IH. by destruct l1. Qed.

Lemma last_cons_in (x : loc) l d : List.last (x :: l) d ∈ x :: l.
Proof. destruct (List.exists_last (l := x :: l)) as (k & z & ->); [done|]. rewrite last_last. set_solver. Qed.

Lemma s_remove_spec sl ids1 n ids2 l1 v l2 p a :
  srings sl (ids1 ++ n :: ids2) (l1 ++ v :: l2) -> length ids1 = length l1 -> sentinel :: ids1 = p ++ [a] ->
  exists sl', s_removeItem sl (Some a) (Some n) = Ok sl' /\ sfresh sl' = sfresh sl /\
    srings sl' (ids1 ++ ids2) (l1 ++ l2).
Proof.
  intros Hr Hl Hp. destruct (ring_split ids1 ids2) as (p' & a' & b & q & Ep & Eq).
  assert (p' = p /\ a' = a) as [-> ->] by (apply app_inj_tail; congruence).
  assert (sentinel :: (ids1 ++ n :: ids2) ++ [sentinel] = p ++ a :: n :: b :: q) as Er.
  { rewrite <- app_assoc, app_comm_cons, Ep, <- app_assoc. cbn. by rewrite Eq. }
  destruct (srings_next _ _ _ Hr _ _ _ _ Er) as (_ & Ha & Hn).
  destruct (srings_next _ _ _ Hr (p ++ [a]) n b q) as (Hnb & _ & _); [by rewrite Er, <- app_assoc|].
  pose proof (srings_in _ _ _ Hr a Ha) as [ita Hita]. pose proof (srings_in _ _ _ Hr n Hn) as [itn Hitn].
  unfold snextof in Hnb. rewrite Hitn in Hnb. injection Hnb as Hnb.
  assert (NoDup (n :: sentinel :: ids1 ++ ids2)) as [Hnn Hd]%NoDup_cons.
  { pose proof (s_nodup _ _ _ Hr) as H.
    by rewrite <- (Permutation_middle ids1 ids2 n), (Permutation_swap n sentinel) in H. }
  assert (forall x, x ∈ sentinel :: ids1 ++ ids2 -> x <> n) as Hn'. { intros x Hx ->. done. }
  assert (a <> n) as Han.
  { apply Hn'. assert (a ∈ sentinel :: ids1) by (rewrite Ep; set_solver). set_solver. }
  unfold s_removeItem, sload. cbn [checked rbind]. cbv zeta. cbn [set_len sheap]. rewrite Hitn. cbn [checked rbind].
  rewrite Hnb. erewrite s_set_next_Ok by (cbn; exact Hita). cbn [rbind sheap sfresh stail slen set_len].
  set (sl1 := if decide _ then _ else _).
  assert (sheap sl1 = <[a := MkS (Some b) (sval ita)]> (sheap sl)) as Hh by (unfold sl1; by case_decide).
  unfold sstore. cbn [checked rbind]. rewrite Hh, lookup_insert_ne, Hitn by done. cbn [checked rbind].
  eexists. split; [done|]. split; [unfold sl1; by case_decide|].
  constructor; cbn [sheap sfresh stail slen].
  - replace (sentinel :: (ids1 ++ ids2) ++ [sentinel]) with (p ++ a :: b :: q)
      by (rewrite <- app_assoc, Eq, app_comm_cons, Ep, <- app_assoc; done).
    apply (path_remove (snextof (sheap sl)) _ _ _ n).
    + rewrite <- Er. apply ring_ok_sentinel, (s_nodup _ _ _ Hr).
    + rewrite <- Er. apply (s_path _ _ _ Hr).
    + unfold snextof. by rewrite s_field, decide_False, s_field, decide_True.
    + intros x y Hx Hxn Hy Hyn Hxy. unfold snextof in *. by rewrite s_field, decide_False, s_field, decide_False.
  - done.
  - destruct (Forall2_app_inv _ _ _ _ _ Hl (s_vals _ _ _ Hr)) as [H1 H2].
    inversion_clear H2. apply (Forall2_sval (sheap sl)); [|by apply Forall2_app].
    intros i Hi. rewrite s_field, decide_False by (apply Hn'; by right). rewrite s_field.
    case_decide; [subst; by rewrite Hita|done].
  - rewrite s_field, decide_False by (apply Hn'; left). rewrite s_field.
    pose proof (s_zero _ _ _ Hr) as Hz. case_decide; [subst; by rewrite Hita in Hz|done].
  - intros x Hx. assert (x <> n /\ x <> a) as [? ?].
    { assert (sfresh sl1 = sfresh sl) as F by (unfold sl1; by case_decide). rewrite F in Hx.
      split; intros ->; pose proof (s_fresh _ _ _ Hr _ Hx); congruence. }
    rewrite !lookup_insert_ne by done. apply (s_fresh _ _ _ Hr). revert Hx. unfold sl1. by case_decide.
  - replace (slen sl1) with (slen sl - 1) by (unfold sl1; by case_decide).
    rewrite (s_slen _ _ _ Hr). autorewrite with go_len. lia.
  - unfold sl1. cbn. rewrite (s_stail _ _ _ Hr).
    destruct ids2 as [|m ids2].
    + rewrite last_last, decide_True by done. cbn. rewrite app_nil_r. f_equal.
      symmetry. by apply (last_prefix _ p).
    + rewrite decide_False.
      * cbn [stail]. rewrite ?(s_stail _ _ _ Hr). f_equal. by rewrite !last_app_cons.
      * intros [= E]. rewrite last_app_cons in E.
        change (List.last (n :: m :: ids2) sentinel) with (List.last (m :: ids2) sentinel) in E.
        pose proof (last_cons_in m ids2 sentinel) as Hin. rewrite E in Hin. by apply (Hn' n); [set_solver|].
Qed.

Record svisits (sl : Single) (a : loc) (l : list (loc * A)) : Prop := {
  sv_path : path (snextof (sheap sl)) (a :: l.*1 ++ [sentinel]);
  sv_sentinel : sentinel ∉ l.*1;
  sv_vals : Forall2 (fun i v => (sval <$> sheap sl !! i) = Some v) l.*1 l.*2;
}.

Lemma svisits_load sl a l : svisits sl a l ->
  exists it, sheap sl !! a = Some it /\ snext it = Some (hd sentinel l.*1).
Proof.
  intros [Hp _ _]. destruct l as [|b l]; destruct Hp as [H _]; unfold snextof in H;
    destruct (sheap sl !! a) as [it|]; cbn in H; try done; injection H; eauto.
Qed.

Lemma svisits_cons sl a x l : svisits sl a (x :: l) ->
  x.1 <> sentinel /\ svisits sl x.1 l /\ exists it, sheap sl !! x.1 = Some it /\ sval it = x.2 /\ snext it = Some (hd sentinel l.*1).
Proof.
  intros [[_ Hp] Hs Hv]. inversion Hv; subst. apply not_elem_of_cons in Hs as [Hs1 Hs2].
  assert (svisits sl x.1 l) as Hv' by (by constructor). repeat split; try done.
  destruct (svisits_load _ _ _ Hv') as (it & Hit & Hd). exists it. rewrite Hit in *. cbn in *. naive_solver.
Qed.

Lemma s_walk_spec sl l : forall a S (yield : A -> S -> res (bool * S)) s fuel,
  svisits sl a l -> (length l < fuel)%nat ->
  s_walk fuel sl (Some (hd sentinel l.*1)) yield s = range_list l.*2 yield s.
Proof.
  induction l as [|x l IH]; intros a S yield s [|fuel] Hv Hf; cbn in Hf; try lia.
  - cbn [fmap list_fmap hd s_walk]. by rewrite decide_True.
  - destruct (svisits_cons _ _ _ _ Hv) as (Hn & Hv' & it & Hit & Hval & Hd).
    cbn [fmap list_fmap hd s_walk range_list]. rewrite decide_False by congruence.
    unfold sload. cbn [checked rbind]. rewrite Hit. cbn [checked rbind]. rewrite Hd, Hval.
    destruct (yield x.2 s) as [[[] s']| |]; cbn [rbind]; [|done..]. apply (IH x.1); [done|lia].
Qed.

(** The item before the first one that satisfies [f]. *)
Fixpoint first_prev (f : loc * A -> bool) (a : loc) (l : list (loc * A)) : option (loc * loc) :=
  match l with
  | [] => None
  | x :: l => if f x then Some (a, x.1) else first_prev f x.1 l
  end.

Lemma findPrev_spec sl id l : forall a fuel, svisits sl a l -> (length l < fuel)%nat ->
  s_findPrev_loop fuel sl (Some a) (Some (hd sentinel l.*1)) (Some id) =
  Ok (fst <$> first_prev (fun p => bool_decide (p.1 = id)) a l).
Proof.
  induction l as [|x l IH]; intros a [|fuel] Hv Hf; cbn in Hf; try lia; cbn [fmap list_fmap hd s_findPrev_loop first_prev].
  - by rewrite decide_True.
  - destruct (svisits_cons _ _ _ _ Hv) as (Hn & Hv' & it & Hit & Hval & Hd).
    rewrite decide_False by congruence. case_bool_decide.
    + by rewrite decide_True by congruence.
    + rewrite decide_False by congruence. unfold sload. cbn [checked rbind]. rewrite Hit. cbn [checked rbind].
      rewrite Hd. apply IH; [done|lia].
Qed.

Lemma Remove_loop_spec sl val cmp l : forall a fuel, svisits sl a l -> (length l < fuel)%nat ->
  s_Remove_loop fuel sl (Some a) (Some (hd sentinel l.*1)) val cmp =
  match first_prev (fun p => cmp p.2 val) a l with
  | Some (prev, n) => s_removeItem sl (Some prev) (Some n)
  | None => Ok sl
  end.
Proof.
  induction l as [|x l IH]; intros a [|fuel] Hv Hf; cbn in Hf; try lia; cbn [fmap list_fmap hd s_Remove_loop first_prev].
  - by rewrite decide_True.
  - destruct (svisits_cons _ _ _ _ Hv) as (Hn & Hv' & it & Hit & Hval & Hd).
    rewrite decide_False by congruence. unfold sload. cbn [checked rbind]. rewrite Hit. cbn [checked rbind].
    rewrite Hval. destruct (cmp x.2 val); [done|]. rewrite Hd. apply IH; [done|lia].
Qed.

Lemma first_prev_spec f l : forall a,
  match remove_first f l with
  | None => first_prev f a l = None
  | Some l' => exists l1 x l2, l = l1 ++ x :: l2 /\ l' = l1 ++ l2 /\ f x = true /\
      first_prev f a l = Some (List.last l1.*1 a, x.1)
  end.
Proof.
  induction l as [|y l IH]; intros a; cbn [remove_first first_prev]; [done|]. destruct (f y) eqn:E.
  - by exists [], y, l.
  - specialize (IH y.1). destruct (remove_first f l) as [l'|]; cbn [fmap option_fmap option_map]; [|done].
    destruct IH as (l1 & x & l2 & -> & -> & Hx & ->). exists (y :: l1), x, l2. do 3 (split; [done|]).
    do 2 f_equal. cbn. destruct (l1.*1) as [|z k] eqn:Ez; [done|]. clear.
    revert z. induction k as [|w k IH]; intros z; [done|]. cbn in *. apply IH.
Qed.

(** *** The abstract list: a removal of what is not there changes nothing *)
Inductive s_op :=
| SReset
| SAppend (v : A)
| SPrepend (v : A)
| SRemoveItem (id : loc)
| SRemove (v : A) (cmp : A -> A -> bool).

Definition s_step (st : Single * list loc) (op : s_op) : res (Single * list loc) :=
  let '(sl, out) := st in
  match op with
  | SReset => let! sl := s_Reset sl in Ok (sl, out)
  | SAppend v => let! (sl, id) := s_Append sl v in Ok (sl, out ++ [id])
  | SPrepend v => let! (sl, id) := s_Prepend sl v in Ok (sl, out ++ [id])
  | SRemoveItem id => let! sl := s_RemoveItem sl (Some id) in Ok (sl, out)
  | SRemove v cmp => let! sl := s_Remove sl v cmp in Ok (sl, out)
  end.

Fixpoint s_steps (st : Single * list loc) (ops : list s_op) : res (Single * list loc) :=
  match ops with
  | [] => Ok st
  | op :: ops => let! st := s_step st op in s_steps st ops
  end.

Definition s_run (ops : list s_op) : res (Single * list loc) :=
  let! sl := NewSingle in s_steps (sl, []) ops.

Definition s_model (m : d_abs (A := A)) (op : s_op) : d_abs :=
  let l := a_items m in let id := S (length (a_out m)) in
  match op with
  | SReset => DAbs [] (a_out m)
  | SAppend v => DAbs (l ++ [(id, v)]) (a_out m ++ [id])
  | SPrepend v => DAbs ((id, v) :: l) (a_out m ++ [id])
  | SRemoveItem i => DAbs (default l (remove_first (fun p => bool_decide (p.1 = i)) l)) (a_out m)
  | SRemove v cmp => DAbs (default l (remove_first (fun p => cmp p.2 v) l)) (a_out m)
  end.

Definition s_models (ops : list s_op) : d_abs := fold_left s_model ops (DAbs [] []).

Record s_rel (sl : Single) (out : list loc) (m : d_abs) : Prop := {
  sr_rings : srings sl (a_items m).*1 (a_items m).*2;
  sr_out : out = a_out m;
  sr_fresh : sfresh sl = S (length out);
}.

Lemma srings_visits sl (l : list (loc * A)) : srings sl l.*1 l.*2 -> svisits sl sentinel l.
Proof.
  intros Hr. constructor; [apply (s_path _ _ _ Hr)| |apply (s_vals _ _ _ Hr)].
  by pose proof (s_nodup _ _ _ Hr) as [? _]%NoDup_cons.
Qed.

Lemma s_fuel_lt sl (l : list (loc * A)) : srings sl l.*1 l.*2 -> (length l < s_fuel sl)%nat.
Proof. intros Hr. unfold s_fuel. rewrite (s_slen _ _ _ Hr). unfold len. rewrite length_fmap. lia. Qed.

(** Removing the first item that satisfies [f] through the item before it. *)
Lemma s_remove_first sl (l : list (loc * A)) f : srings sl l.*1 l.*2 ->
  match first_prev f sentinel l with
  | Some (prev, n) => exists sl', s_removeItem sl (Some prev) (Some n) = Ok sl' /\ sfresh sl' = sfresh sl /\
      exists l', remove_first f l = Some l' /\ srings sl' l'.*1 l'.*2
  | None => remove_first f l = None
  end.
Proof.
  intros Hr. pose proof (first_prev_spec f l sentinel) as H. destruct (remove_first f l) as [l'|]; [|by rewrite H].
  destruct H as (l1 & x & l2 & -> & -> & Hx & ->). rewrite !fmap_app in Hr. cbn in Hr.
  destruct (ring_split l1.*1 []) as (p & a & b & q & Ep & _).
  destruct (s_remove_spec sl _ _ _ _ _ _ p a Hr) as (sl' & E & F & Hr'); [by rewrite !length_fmap|done|].
  rewrite (last_prefix _ _ _ Ep). exists sl'. split; [done|]. split; [done|]. eexists. split; [done|].
  by rewrite !fmap_app.
Qed.

Lemma s_reset_spec sl it : sheap sl !! sentinel = Some it -> sval it = zero ->
  (forall a, (sfresh sl <= a)%nat -> sheap sl !! a = None) ->
  exists sl', s_Reset sl = Ok sl' /\ sfresh sl' = sfresh sl /\ srings sl' [] [].
Proof.
  intros Hs Hz Hfr. unfold s_Reset. erewrite s_set_next_Ok by exact Hs. cbn [rbind].
  eexists. split; [done|]. split; [done|]. constructor; cbn [sheap set_tail sfresh slen stail set_len].
  - split; [|done]. unfold snextof. cbn [app]. rewrite s_field, decide_True by done. done.
  - constructor; [apply not_elem_of_nil|constructor].
  - constructor.
  - rewrite s_field, decide_True by done. cbn. by rewrite Hz.
  - intros a Ha. destruct (decide (a = sentinel)) as [->|]; [rewrite (Hfr sentinel) in Hs by done; done|].
    rewrite lookup_insert_ne by done. auto.
  - done.
  - done.
Qed.

Lemma s_sentinel sl ids l : srings sl ids l -> exists it, sheap sl !! sentinel = Some it /\ sval it = zero.
Proof.
  intros Hr. pose proof (s_zero _ _ _ Hr) as H. destruct (sheap sl !! sentinel) as [it|]; [|done].
  injection H as H. eauto.
Qed.

Lemma set_tail_same sl : set_tail sl (stail sl) = sl.
Proof. by destruct sl. Qed.

Lemma s_step_refines sl out m op : s_rel sl out m ->
  exists sl' out', s_step (sl, out) op = Ok (sl', out') /\ s_rel sl' out' (s_model m op).
Proof.
  intros [Hr -> Hf]. destruct (s_sentinel _ _ _ Hr) as (it & Hit & Hz).
  pose proof (srings_visits _ _ Hr) as Hv. pose proof (s_fuel_lt _ _ Hr) as Hfu.
  destruct (svisits_load _ _ _ Hv) as (it' & Hit' & Hd). rewrite Hit in Hit'. injection Hit' as <-.
  destruct op; cbn [s_step s_model].
  - destruct (s_reset_spec sl it) as (sl' & -> & F & Hr'); [done|done|apply (s_fresh _ _ _ Hr)|].
    cbn [rbind]. do 2 eexists. split; [done|]. constructor; [done|done|by rewrite F].
  - unfold s_Append. rewrite (s_stail _ _ _ Hr).
    destruct (ring_split (a_items m).*1 []) as (p & a & b & q & Ep & _).
    destruct (s_insert_spec sl (a_items m).*1 [] (a_items m).*2 [] v p a) as (sl' & E & F & _ & _ & Hr');
      rewrite ?app_nil_r; [done|by rewrite !length_fmap|done|].
    rewrite (last_prefix _ _ _ Ep), E. cbn [rbind]. rewrite last_last, Hf in *.
    do 2 eexists. split; [done|]. constructor; cbn [a_items a_out]; rewrite ?fmap_app; [done|done|].
    cbn. rewrite F, length_app. cbn. lia.
  - unfold s_Prepend.
    destruct (s_insert_spec sl [] (a_items m).*1 [] (a_items m).*2 v [] sentinel Hr eq_refl eq_refl)
      as (sl' & -> & F & L & T & Hr').
    cbn [rbind]. do 2 eexists. split; [done|]. cbn [app] in Hr'. rewrite Hf in *.
    assert (srings (if slen sl' =? 1 then set_tail sl' (Some (S (length (a_out m)))) else sl')
      (S (length (a_out m)) :: (a_items m).*1) (v :: (a_items m).*2)) as Hr2.
    { rewrite L, (s_slen _ _ _ Hr). destruct (a_items m) as [|x l] eqn:El.
      - done.
      - rewrite (proj2 (Z.eqb_neq _ _)) by (unfold len; cbn; lia).
        rewrite <- (set_tail_same sl'), T, (s_stail _ _ _ Hr). done. }
    constructor; cbn [a_items a_out]; [done|done|]. rewrite length_app. cbn. case_match; cbn; lia.
  - pose proof (s_remove_first sl _ (fun p => bool_decide (p.1 = id)) Hr) as H.
    unfold s_RemoveItem, s_findPrev, sload. cbn [checked rbind]. rewrite Hit. cbn [checked rbind].
    rewrite Hd, (findPrev_spec _ _ _ _ _ Hv Hfu).
    pose proof (first_prev_spec (fun p => bool_decide (p.1 = id)) (a_items m) sentinel) as H2.
    destruct (first_prev _ _ _) as [[prev n]|]; cbn [fmap option_fmap option_map fst rbind].
    + rewrite decide_False by done. destruct H as (sl' & E & F & l' & El & Hr'). rewrite El in H2 |- *.
      destruct H2 as (l1 & x & l2 & _ & _ & Hx%bool_decide_eq_true & [= -> ->]). rewrite <- Hx, E. cbn [rbind].
      do 2 eexists. split; [done|]. constructor; cbn; [done|done|by rewrite F].
    + rewrite H, decide_True by done. do 2 eexists. split; [done|]. by constructor.
  - pose proof (s_remove_first sl _ (fun p => cmp p.2 v) Hr) as H.
    unfold s_Remove, sload. cbn [checked rbind]. rewrite Hit. cbn [checked rbind].
    rewrite Hd, (Remove_loop_spec _ _ _ _ _ _ Hv Hfu).
    destruct (first_prev _ _ _) as [[prev n]|].
    + destruct H as (sl' & -> & F & l' & El & Hr'). rewrite El. cbn [rbind].
      do 2 eexists. split; [done|]. constructor; cbn; [done|done|by rewrite F].
    + rewrite H. do 2 eexists. split; [done|]. by constructor.
Qed.

Lemma s_run_refines ops : exists sl, s_run ops = Ok (sl, a_out (s_models ops)) /\
  s_rel sl (a_out (s_models ops)) (s_models ops).
Proof.
  assert (forall sl out m, s_rel sl out m -> exists sl', s_steps (sl, out) ops = Ok (sl', a_out (fold_left s_model ops m)) /\
    s_rel sl' (a_out (fold_left s_model ops m)) (fold_left s_model ops m)) as H.
  { induction ops as [|op ops IH]; intros sl out m Hr; cbn [s_steps fold_left].
    - exists sl. pose proof (sr_out _ _ _ Hr) as E. by rewrite <- E at 1 2.
    - destruct (s_step_refines _ _ _ op Hr) as (sl1 & out1 & -> & Hr1). cbn [rbind]. by apply (IH _ out1). }
  unfold s_run, NewSingle. match goal with |- context [s_Reset ?d] => set (sl0 := d) end.
  destruct (s_reset_spec sl0 szero) as (sl & -> & F & Hr).
  - apply (lookup_singleton_eq sentinel).
  - done.
  - intros a Ha. apply (lookup_singleton_ne sentinel). unfold sentinel. cbn in Ha. lia.
  - cbn [rbind]. apply H. by constructor.
Qed.

(** Every sequence of operations on a [Single] runs without a panic and
    leaves exactly the list the abstract operations describe: [Append] and
    [Prepend] at either end (also after the list has become empty, so the tail
    pointer is always right), [RemoveItem] of any identifier, one already removed
    or cleared by [Reset] included (it then changes nothing), [Remove] of the
    first match; [Len], [Head] and the iterator observe that list. *)
Theorem Single_refines_list (ops : list s_op) :
  let m := s_models ops in
  exists sl, s_run ops = Ok (sl, a_out m) /\
    s_Len sl = len (a_items m) /\
    s_Head sl = Ok (hd zero (a_items m).*2) /\
    forall S (yield : A -> S -> res (bool * S)) s, s_Forward sl S yield s = range_list (a_items m).*2 yield s.
Proof.
  cbv zeta. destruct (s_run_refines ops) as (sl & E & [Hr _ _]). exists sl. split; [done|].
  destruct (s_sentinel _ _ _ Hr) as (it & Hit & Hz). pose proof (srings_visits _ _ Hr) as Hv.
  destruct (svisits_load _ _ _ Hv) as (it' & Hit' & Hd). rewrite Hit in Hit'. injection Hit' as <-.
  split; [|split].
  - unfold s_Len. rewrite (s_slen _ _ _ Hr). unfold len. by rewrite length_fmap.
  - unfold s_Head, sload. cbn [checked rbind]. rewrite Hit. cbn [checked rbind]. rewrite (s_slen _ _ _ Hr).
    destruct (a_items (s_models ops)) as [|x l]; cbn [fmap list_fmap hd] in *; [by rewrite Hz|].
    rewrite (proj2 (Z.eqb_neq _ _)) by (unfold len; cbn; lia).
    rewrite Hd. cbn [checked rbind]. destruct (svisits_cons _ _ _ _ Hv) as (_ & _ & it2 & -> & <- & _). done.
  - intros S yield s. unfold s_Forward, sload. cbn [checked rbind]. rewrite Hit. cbn [checked rbind]. rewrite Hd.
    apply (s_walk_spec _ _ sentinel); [done|]. by apply s_fuel_lt.
Qed.
End single.
