(* ===== verification/Lcs.v ===== *)
(** * Longest common subsequence and edit scripts (algo/lcs)

    The dynamic-programming implementation [DP] (dp.go): the table of lengths,
    the directions kept from it, and the three walks back through them; and the
    edit scripts of edit.go.  The reference is the definition of a longest common
    subsequence by stdpp's sublist relation. *)

From stdpp Require Import base list option numbers.
From Stdlib Require Import ZArith Lia.
From S2P Require Import Prelude.

Open Scope list_scope.
Open Scope nat_scope.
Open Scope go_scope.

(** ** Tables

    [[][]T], indexed by [x] then [y]. *)
Section table.
Context {A : Type}.

Definition tget (t : list (list A)) (x y : nat) : res A :=
  let! row := checked (t !! x) in checked (row !! y).

Definition tset (t : list (list A)) (x y : nat) (v : A) : res (list (list A)) :=
  let! row := checked (t !! x) in
  let! _ := checked (row !! y) in
  Ok (<[x := <[y := v]> row]> t).

(** [make([][]T, n)] with every row [make([]T, m)]. *)
Definition tmake (n m : nat) (zero : A) : list (list A) := replicate n (replicate m zero).

(** The table has [n] rows of [m]. *)
Definition tshape (t : list (list A)) (n m : nat) : Prop :=
  length t = n /\ Forall (fun row => length row = m) t.

Lemma tmake_shape n m zero : tshape (tmake n m zero) n m.
Proof.
  split; [apply length_replicate|]. apply Forall_replicate. apply length_replicate.
Qed.

Lemma tget_make n m zero x y : x < n -> y < m -> tget (tmake n m zero) x y = Ok zero.
Proof.
  intros Hx Hy. unfold tget, tmake. rewrite lookup_replicate_2 by done. cbn. by rewrite lookup_replicate_2.
Qed.

Lemma tset_Ok t n m x y v : tshape t n m -> x < n -> y < m ->
  exists t', tset t x y v = Ok t' /\ tshape t' n m /\ tget t' x y = Ok v /\
    (forall x' y', (x', y') <> (x, y) -> tget t' x' y' = tget t x' y').
Proof.
  intros [Hl Hr] Hx Hy. unfold tset, tget.
  destruct (lookup_lt_is_Some_2 t x) as [row Hrow]; [lia|]. rewrite Hrow. cbn.
  pose proof (Forall_lookup_1 _ _ _ _ Hr Hrow) as Hm. cbn in Hm.
  destruct (lookup_lt_is_Some_2 row y) as [w Hw]; [lia|]. rewrite Hw. cbn. eexists. split; [done|].
  split; [split|split].
  - by rewrite length_insert.
  - apply Forall_insert; [done|]. by rewrite length_insert.
  - rewrite list_lookup_insert_eq by lia. cbn. by rewrite list_lookup_insert_eq by lia.
  - intros x' y' Hne. destruct (decide (x' = x)) as [->|Hx'].
    + rewrite list_lookup_insert_eq, Hrow by lia. cbn. rewrite list_lookup_insert_ne by congruence. done.
    + by rewrite list_lookup_insert_ne by done.
Qed.
End table.

(** ** DP *)

Definition diagonal : Z := 0.
Definition up : Z := 1.
Definition left : Z := 2.
Definition upAndLeft : Z := 3.

Definition int32 (z : Z) : Z := ((z + 2 ^ 31) mod 2 ^ 32 - 2 ^ 31)%Z.

Inductive EditOp := Insert | Delete | Identical.

#[global] Instance EditOp_eq_dec : EqDecision EditOp.
Proof. solve_decision. Defined.

Record Edit (T : Type) := MkEdit { Op : EditOp; EA : Z; EB : Z; Val : T }.
Arguments MkEdit {T} Op EA EB Val.
Arguments Op {T} e.
Arguments EA {T} e.
Arguments EB {T} e.
Arguments Val {T} e.

Abbreviation EditScript T := (list (Edit T)).

Section dp.
Context {T : Type} `{EqDecision T}.

Record DP := MkDP { dp_a : list T; dp_b : list T; filled : bool; directions : list (list Z) }.

Definition NewDP (a b : list T) : DP :=
  MkDP a b false (tmake (length a + 1) (length b + 1) 0%Z).

(** One cell: [table] and [directions] at [x], [y]. *)
Definition fill_cell (a b : list T) (x y : nat) (st : list (list Z) * list (list Z)) :
    res (list (list Z) * list (list Z)) :=
  let '(table, dirs) := st in
  let! ax := checked (a !! (x - 1)) in
  let! bx := checked (b !! (y - 1)) in
  if decide (ax = bx) then
    let! v := tget table (x - 1) (y - 1) in
    let! table := tset table x y (int32 (v + 1)) in
    let! dirs := tset dirs x y diagonal in
    Ok (table, dirs)
  else
    let! prevLeft := tget table (x - 1) y in
    let! prevUp := tget table x (y - 1) in
    if (prevLeft <? prevUp)%Z then
      let! dirs := tset dirs x y up in
      let! table := tset table x y prevUp in
      Ok (table, dirs)
    else if (prevUp <? prevLeft)%Z then
      let! dirs := tset dirs x y left in
      let! table := tset table x y prevLeft in
      Ok (table, dirs)
    else
      let! dirs := tset dirs x y upAndLeft in
      let! table := tset table x y prevLeft in
      Ok (table, dirs).

(** [for x := from; k more; x++]. *)
Fixpoint fill_row (k : nat) (a b : list T) (x y : nat) st : res (list (list Z) * list (list Z)) :=
  match k with
  | O => Ok st
  | S k => let! st := fill_cell a b x y st in fill_row k a b (S x) y st
  end.

Fixpoint fill_rows (k : nat) (a b : list T) (y : nat) st : res (list (list Z) * list (list Z)) :=
  match k with
  | O => Ok st
  | S k => let! st := fill_row (length a) a b 1 y st in fill_rows k a b (S y) st
  end.

Definition fill (dp : DP) : res DP :=
  if filled dp then Ok dp
  else
    let table := tmake (length (dp_a dp) + 1) (length (dp_b dp) + 1) 0%Z in
    let! (_, dirs) := fill_rows (length (dp_b dp)) (dp_a dp) (dp_b dp) 1 (table, directions dp) in
    Ok (MkDP (dp_a dp) (dp_b dp) true dirs).

(** The recursions below decrease [i + j]; the fuel is one more. *)
Fixpoint backtrack_rec (fuel : nat) (dp : DP) (i j : nat) : res (list T) :=
  match fuel with
  | O => NoFuel
  | S fuel =>
      if (i =? 0) || (j =? 0) then Ok []
      else
        let! dir := tget (directions dp) i j in
        if (dir =? diagonal)%Z then
          let! l := backtrack_rec fuel dp (i - 1) (j - 1) in
          let! v := checked (dp_a dp !! (i - 1)) in
          Ok (l ++ [v])
        else if (dir =? up)%Z || (dir =? upAndLeft)%Z then backtrack_rec fuel dp i (j - 1)
        else backtrack_rec fuel dp (i - 1) j
  end.

Definition backtrack (dp : DP) (i j : nat) : res (list T) := backtrack_rec (S (i + j)) dp i j.

Definition extend (dp : DP) (i : nat) (bt : list (list T)) : res (list (list T)) :=
  let! v := checked (dp_a dp !! i) in
  match bt with
  | [] => Ok [[v]]
  | _ => Ok ((fun p => p ++ [v]) <$> bt)
  end.

Fixpoint backtrackAll_rec (fuel : nat) (dp : DP) (i j : nat) : res (list (list T)) :=
  match fuel with
  | O => NoFuel
  | S fuel =>
      if (i =? 0) || (j =? 0) then Ok []
      else
        let! dir := tget (directions dp) i j in
        if (dir =? diagonal)%Z then
          let! bt := backtrackAll_rec fuel dp (i - 1) (j - 1) in extend dp (i - 1) bt
        else
          let! paths :=
            if (dir =? up)%Z || (dir =? upAndLeft)%Z then backtrackAll_rec fuel dp i (j - 1) else Ok [] in
          if (dir =? left)%Z || (dir =? upAndLeft)%Z then
            let! more := backtrackAll_rec fuel dp (i - 1) j in Ok (paths ++ more)
          else Ok paths
  end.

Definition backtrackAll (dp : DP) (i j : nat) : res (list (list T)) := backtrackAll_rec (S (i + j)) dp i j.

Fixpoint diff_rec (fuel : nat) (dp : DP) (i j : nat) : res (EditScript T) :=
  match fuel with
  | O => NoFuel
  | S fuel =>
      let! dir := tget (directions dp) i j in
      if (0 <? i) && (0 <? j) && (dir =? diagonal)%Z then
        let! es := diff_rec fuel dp (i - 1) (j - 1) in
        let! v := checked (dp_b dp !! (j - 1)) in
        Ok (es ++ [MkEdit Identical (Z.of_nat i - 1) (Z.of_nat j - 1) v])
      else if (0 <? j) && ((i =? 0) || (dir =? up)%Z || (dir =? upAndLeft)%Z) then
        let! es := diff_rec fuel dp i (j - 1) in
        let! v := checked (dp_b dp !! (j - 1)) in
        Ok (es ++ [MkEdit Insert (Z.of_nat i) (Z.of_nat j - 1) v])
      else if (0 <? i) && ((j =? 0) || (dir =? left)%Z) then
        let! es := diff_rec fuel dp (i - 1) j in
        let! v := checked (dp_a dp !! (i - 1)) in
        Ok (es ++ [MkEdit Delete (Z.of_nat i - 1) (Z.of_nat j) v])
      else Ok []
  end.

Definition diff (dp : DP) (i j : nat) : res (EditScript T) := diff_rec (S (i + j)) dp i j.

Definition LCS (dp : DP) : res (DP * list T) :=
  let! dp := fill dp in
  let! l := backtrack dp (length (dp_a dp)) (length (dp_b dp)) in
  Ok (dp, l).

Definition AllLCS (dp : DP) : res (DP * list (list T)) :=
  let! dp := fill dp in
  let! l := backtrackAll dp (length (dp_a dp)) (length (dp_b dp)) in
  Ok (dp, l).

(** A [DP] that was not made by [NewDP] has no directions. *)
Definition SES (dp : DP) : res (DP * EditScript T) :=
  match directions dp with
  | [] => Ok (dp, [])
  | _ =>
      let! dp := fill dp in
      let! es := diff dp (length (dp_a dp)) (length (dp_b dp)) in
      Ok (dp, es)
  end.

(** ** Edit scripts *)

Fixpoint Apply_loop (es : EditScript T) (a b : list T) : res (list T) :=
  match es with
  | [] => Ok b
  | e :: es =>
      match Op e with
      | Insert => Apply_loop es a (b ++ [Val e])
      | Identical => let! v := checked (zget a (EA e)) in Apply_loop es a (b ++ [v])
      | Delete => Apply_loop es a b
      end
  end.

Definition Apply (es : EditScript T) (a : list T) : res (list T) :=
  match es with
  | [] => Ok a
  | _ => Apply_loop es a []
  end.

Definition Reverse (es : EditScript T) : EditScript T :=
  (fun e => match Op e with
            | Identical => MkEdit Insert (EB e) (EA e) (Val e)
            | Delete => MkEdit Insert (EB e) (EA e) (Val e)
            | Insert => MkEdit Delete (EB e) (EA e) (Val e)
            end) <$> es.
End dp.
Arguments DP : clear implicits.

(** ** Common subsequences *)
Section common.
Context {T : Type} `{EqDecision T}.

Definition common (c a b : list T) : Prop := c `sublist_of` a /\ c `sublist_of` b.

Definition is_LCS (c a b : list T) : Prop :=
  common c a b /\ forall c', common c' a b -> length c' <= length c.

(** [n] is the length of the longest common subsequences. *)
Definition lcs_length (n : nat) (a b : list T) : Prop :=
  (exists c, common c a b /\ length c = n) /\ forall c, common c a b -> length c <= n.

Lemma sublist_snoc (c l : list T) x :
  c `sublist_of` l ++ [x] <-> c `sublist_of` l \/ exists c', c = c' ++ [x] /\ c' `sublist_of` l.
Proof.
  split.
  - intros (c1 & c2 & -> & H1 & H2)%sublist_app_r. apply sublist_cons_r in H2 as [H2|(c3 & -> & H2)].
    + apply sublist_nil_r in H2 as ->. rewrite app_nil_r. by left.
    + apply sublist_nil_r in H2 as ->. right. eauto.
  - intros [H|(c' & -> & H)].
    + by apply sublist_inserts_r.
    + by apply sublist_app.
Qed.

Lemma common_nil_l (c b : list T) : common c [] b <-> c = [].
Proof.
  split; [by intros [?%sublist_nil_r _]|]. intros ->. split; [done|apply sublist_nil_l].
Qed.

Lemma common_nil_r (c a : list T) : common c a [] <-> c = [].
Proof.
  split; [by intros [_ ?%sublist_nil_r]|]. intros ->. split; [apply sublist_nil_l|done].
Qed.

Lemma common_skip_l (c a b : list T) x : common c a b -> common c (a ++ [x]) b.
Proof. intros [H1 H2]. split; [apply sublist_snoc; by left|done]. Qed.

Lemma common_skip_r (c a b : list T) y : common c a b -> common c a (b ++ [y]).
Proof. intros [H1 H2]. split; [done|apply sublist_snoc; by left]. Qed.

(** Different last elements: one of the two is not used. *)
Lemma common_ne (c a b : list T) x y : x <> y ->
  common c (a ++ [x]) (b ++ [y]) <-> common c a (b ++ [y]) \/ common c (a ++ [x]) b.
Proof.
  intros Hxy. split.
  - intros [H1 H2]. pose proof H1 as H1'. pose proof H2 as H2'.
    apply sublist_snoc in H1 as [H1|(c1 & -> & H1)]; [by left; split|].
    apply sublist_snoc in H2 as [H2|(c2 & E & H2)]; [by right; split|].
    by apply app_inj_tail in E as [_ ?].
  - intros [H|H]; [by apply common_skip_l|by apply common_skip_r].
Qed.

(** The same last element: using it loses nothing. *)
Lemma common_eq (c a b : list T) x :
  common c (a ++ [x]) (b ++ [x]) <->
  (exists c', c = c' ++ [x] /\ common c' a b) \/ (common c a (b ++ [x]) \/ common c (a ++ [x]) b).
Proof.
  split.
  - intros [H1 H2]. pose proof H1 as H1'. pose proof H2 as H2'.
    apply sublist_snoc in H1 as [H1|(c1 & -> & H1)]; [by right; left; split|].
    apply sublist_snoc in H2 as [H2|(c2 & E & H2)]; [by right; right; split|].
    apply app_inj_tail in E as [-> _]. left. exists c2. by repeat split.
  - intros [(c' & -> & H1 & H2)|[H|H]]; [|by apply common_skip_l|by apply common_skip_r].
    split; by apply sublist_app.
Qed.

Lemma common_bound (c a b : list T) x n : (forall c, common c a b -> length c <= n) ->
  common c (a ++ [x]) b -> length c <= S n.
Proof.
  intros Hn [H1 H2]. apply sublist_snoc in H1 as [H1|(c1 & -> & H1)].
  - assert (length c <= n) by (apply Hn; by split). lia.
  - rewrite length_app. cbn. assert (length c1 <= n); [|lia]. apply Hn. split; [done|].
    etransitivity; [|exact H2]. by apply sublist_inserts_r.
Qed.

Lemma lcs_length_nil_l b : lcs_length 0 (@nil T) b.
Proof. split; [exists []; by rewrite common_nil_l|]. by intros c ->%common_nil_l. Qed.

Lemma lcs_length_nil_r a : lcs_length 0 a (@nil T).
Proof. split; [exists []; by rewrite common_nil_r|]. by intros c ->%common_nil_r. Qed.

Lemma common_sym (c a b : list T) : common c a b <-> common c b a.
Proof. unfold common. tauto. Qed.

Lemma lcs_length_eq n (a b : list T) x : lcs_length n a b -> lcs_length (S n) (a ++ [x]) (b ++ [x]).
Proof.
  intros [(c & Hc & Hl) Hm]. split.
  - exists (c ++ [x]). rewrite length_app, Hl. cbn. split; [|lia]. apply common_eq. eauto.
  - intros c' [(c1 & -> & H)|[H|H]]%common_eq.
    + rewrite length_app. cbn. specialize (Hm c1 H). lia.
    + apply common_sym in H. eapply common_bound; [|exact H]. intros d Hd. by apply Hm, common_sym.
    + eapply common_bound; [|exact H]. done.
Qed.

Lemma lcs_length_ne n1 n2 (a b : list T) x y : x <> y ->
  lcs_length n1 a (b ++ [y]) -> lcs_length n2 (a ++ [x]) b ->
  lcs_length (n1 `max` n2) (a ++ [x]) (b ++ [y]).
Proof.
  intros Hxy [(c1 & Hc1 & Hl1) Hm1] [(c2 & Hc2 & Hl2) Hm2]. split.
  - destruct (decide (n1 <= n2)).
    + exists c2. split; [by apply common_skip_r|lia].
    + exists c1. split; [by apply common_skip_l|lia].
  - intros c [H|H]%(common_ne _ _ _ _ _ Hxy); [specialize (Hm1 _ H)|specialize (Hm2 _ H)]; lia.
Qed.

Lemma lcs_length_unique n m (a b : list T) : lcs_length n a b -> lcs_length m a b -> n = m.
Proof. intros [(c & Hc & <-) Hn] [(d & Hd & <-) Hm]. specialize (Hn _ Hd). specialize (Hm _ Hc). lia. Qed.

Lemma lcs_length_le n (a b : list T) : lcs_length n a b -> n <= length a /\ n <= length b.
Proof. intros [(c & [H1 H2] & <-) _]. split; by apply sublist_length. Qed.

Lemma is_LCS_length c (a b : list T) n : lcs_length n a b -> is_LCS c a b <-> common c a b /\ length c = n.
Proof.
  intros [(d & Hd & Hl) Hm]. split.
  - intros [Hc H]. split; [done|]. specialize (H d Hd). specialize (Hm c Hc). lia.
  - intros [Hc <-]. by split.
Qed.
End common.

(** ** The table *)
Section fill.
Context {T : Type} `{EqDecision T} (a b : list T).

(** [table[x][y]] is the length for the prefixes. *)
Definition tab_ok (tab : list (list Z)) (x y : nat) : Prop :=
  exists n, tget tab x y = Ok (Z.of_nat n) /\ lcs_length n (take x a) (take y b).

(** [directions[x][y]] says which neighbours keep the length. *)
Definition dir_ok (dirs : list (list Z)) (x y : nat) : Prop :=
  exists ax bx d, a !! (x - 1) = Some ax /\ b !! (y - 1) = Some bx /\ tget dirs x y = Ok d /\
    (ax = bx /\ d = diagonal \/
     ax <> bx /\ forall nu nl,
       lcs_length nu (take x a) (take (y - 1) b) -> lcs_length nl (take (x - 1) a) (take y b) ->
       nl < nu /\ d = up \/ nu < nl /\ d = left \/ nu = nl /\ d = upAndLeft).

(** Everything before row position [X] of column [Y] is done. *)
Record fill_inv (X Y : nat) (st : list (list Z) * list (list Z)) : Prop := {
  fi_tab : tshape st.1 (length a + 1) (length b + 1);
  fi_dir : tshape st.2 (length a + 1) (length b + 1);
  fi_tab_ok : forall x y, x <= length a -> y <= length b ->
    x = 0 \/ y = 0 \/ y < Y \/ y = Y /\ x < X -> tab_ok st.1 x y;
  fi_dir_ok : forall x y, 0 < x <= length a -> 0 < y <= length b ->
    y < Y \/ y = Y /\ x < X -> dir_ok st.2 x y;
}.

Lemma take_prev {B} (l : list B) i v : l !! (i - 1) = Some v -> 0 < i -> take i l = take (i - 1) l ++ [v].
Proof.
  intros Hv Hi. replace i with (S (i - 1)) at 1 by lia. by apply take_S_r.
Qed.

Lemma int32_small (n : nat) : (Z.of_nat n < 2 ^ 31)%Z -> int32 (Z.of_nat n) = Z.of_nat n.
Proof. intros H. unfold int32. rewrite Z.mod_small; lia. Qed.

(** Writing a cell keeps what the invariant says of the other cells. *)
Lemma fill_inv_step X Y tab dirs tab' dirs' :
  fill_inv X Y (tab, dirs) -> 0 < Y -> 0 < X ->
  tshape tab' (length a + 1) (length b + 1) -> tshape dirs' (length a + 1) (length b + 1) ->
  (forall x y, (x, y) <> (X, Y) -> tget tab' x y = tget tab x y) ->
  (forall x y, (x, y) <> (X, Y) -> tget dirs' x y = tget dirs x y) ->
  tab_ok tab' X Y -> dir_ok dirs' X Y -> fill_inv (S X) Y (tab', dirs').
Proof.
  intros Hi HY HX St Sd Ht Hd Hok Hdok. constructor; cbn [fst snd]; [done|done| |].
  - intros x y Hx Hy H. destruct (decide ((x, y) = (X, Y))) as [[= -> ->]|Hne]; [done|].
    unfold tab_ok. rewrite Ht by done. apply (fi_tab_ok _ _ _ Hi); [done|done|].
    destruct H as [?|[?|[?|[-> ?]]]]; [lia..|]. assert (x <> X) by congruence. lia.
  - intros x y Hx Hy H. destruct (decide ((x, y) = (X, Y))) as [[= -> ->]|Hne]; [done|].
    unfold dir_ok. rewrite Hd by done. apply (fi_dir_ok _ _ _ Hi); [done|done|].
    destruct H as [?|[-> ?]]; [lia|]. assert (x <> X) by congruence. lia.
Qed.

Lemma fill_cell_spec X Y st : (Z.of_nat (length a) < 2 ^ 31)%Z ->
  0 < X <= length a -> 0 < Y <= length b -> fill_inv X Y st ->
  exists st', fill_cell a b X Y st = Ok st' /\ fill_inv (S X) Y st'.
Proof.
  intros Hlen HX HY Hi. destruct st as [tab dirs].
  destruct (lookup_lt_is_Some_2 a (X - 1)) as [ax Hax]; [lia|].
  destruct (lookup_lt_is_Some_2 b (Y - 1)) as [bx Hbx]; [lia|].
  destruct (fi_tab_ok _ _ _ Hi (X - 1) (Y - 1)) as (nd & Hnd & Ld); [lia..|].
  destruct (fi_tab_ok _ _ _ Hi (X - 1) Y) as (nl & Hnl & Ll); [lia..|].
  destruct (fi_tab_ok _ _ _ Hi X (Y - 1)) as (nu & Hnu & Lu); [lia..|].
  unfold fill_cell. rewrite Hax, Hbx. cbn [checked rbind].
  pose proof (take_prev a X ax Hax ltac:(lia)) as Ea. pose proof (take_prev b Y bx Hbx ltac:(lia)) as Eb.
  (* Both writes succeed, whatever is written. *)
  assert (forall v d, exists tab' dirs',
    tset tab X Y v = Ok tab' /\ tset dirs X Y d = Ok dirs' /\
    (forall n, v = Z.of_nat n -> lcs_length n (take X a) (take Y b) ->
      dir_ok dirs' X Y -> fill_inv (S X) Y (tab', dirs')) /\ tget dirs' X Y = Ok d) as Hset.
  { intros v d.
    destruct (tset_Ok tab _ _ X Y v (fi_tab _ _ _ Hi)) as (tab' & E1 & S1 & G1 & O1); [lia..|].
    destruct (tset_Ok dirs _ _ X Y d (fi_dir _ _ _ Hi)) as (dirs' & E2 & S2 & G2 & O2); [lia..|].
    exists tab', dirs'. do 2 (split; [done|]). split; [|done]. intros n -> Hn Hd.
    apply (fill_inv_step X Y tab dirs); auto; try lia. by exists n. }
  cbn [fst] in *. case_decide as Heq.
  - subst bx. rewrite Hnd. cbn [rbind].
    assert (lcs_length (S nd) (take X a) (take Y b)) as HL by (rewrite Ea, Eb; by apply lcs_length_eq).
    pose proof (lcs_length_le _ _ _ HL) as [HL1 _]. rewrite length_take in HL1.
    replace (Z.of_nat nd + 1)%Z with (Z.of_nat (S nd)) by lia. rewrite int32_small by lia.
    destruct (Hset (Z.of_nat (S nd)) diagonal) as (tab' & dirs' & -> & -> & H & G). cbn [rbind].
    eexists. split; [done|]. apply (H (S nd)); [done|done|].
    exists ax, ax, diagonal. do 3 (split; [done|]). by left.
  - rewrite Hnl, Hnu. cbn [rbind].
    assert (lcs_length (nl `max` nu) (take X a) (take Y b)) as HL.
    { rewrite Eb in Ll. rewrite Ea in Lu. rewrite Ea, Eb. by apply lcs_length_ne. }
    assert (forall d, (nl < nu /\ d = up \/ nu < nl /\ d = left \/ nu = nl /\ d = upAndLeft) ->
      forall dirs', tget dirs' X Y = Ok d -> dir_ok dirs' X Y) as Hdir.
    { intros d Hd dirs' G. exists ax, bx, d. do 3 (split; [done|]). right. split; [done|].
      intros nu' nl' H1 H2. rewrite (lcs_length_unique _ _ _ _ H1 Lu), (lcs_length_unique _ _ _ _ H2 Ll). done. }
    repeat test_case.
    + destruct (Hset (Z.of_nat nu) up) as (tab' & dirs' & -> & -> & H & G). cbn [rbind].
      eexists. split; [done|]. apply (H nu); [done| |apply (Hdir up); [lia|done]].
      by replace (nl `max` nu) with nu in HL by lia.
    + destruct (Hset (Z.of_nat nl) left) as (tab' & dirs' & -> & -> & H & G). cbn [rbind].
      eexists. split; [done|]. apply (H nl); [done| |apply (Hdir left); [lia|done]].
      by replace (nl `max` nu) with nl in HL by lia.
    + destruct (Hset (Z.of_nat nl) upAndLeft) as (tab' & dirs' & -> & -> & H & G). cbn [rbind].
      eexists. split; [done|]. apply (H nl); [done| |apply (Hdir upAndLeft); [lia|done]].
      by replace (nl `max` nu) with nl in HL by lia.
Qed.

Lemma fill_row_spec Y k : forall X st, (Z.of_nat (length a) < 2 ^ 31)%Z ->
  0 < X -> X + k = S (length a) -> 0 < Y <= length b -> fill_inv X Y st ->
  exists st', fill_row k a b X Y st = Ok st' /\ fill_inv (S (length a)) Y st'.
Proof.
  induction k as [|k IH]; intros X st Hlen HX Hk HY Hi; cbn [fill_row].
  - exists st. split; [done|]. by replace (S (length a)) with X by lia.
  - destruct (fill_cell_spec X Y st Hlen ltac:(lia) HY Hi) as (st1 & -> & Hi1). cbn [rbind].
    apply IH; auto; lia.
Qed.

Lemma fill_rows_spec k : forall Y st, (Z.of_nat (length a) < 2 ^ 31)%Z ->
  0 < Y -> Y + k = S (length b) -> fill_inv 1 Y st ->
  exists st', fill_rows k a b Y st = Ok st' /\ fill_inv 1 (S (length b)) st'.
Proof.
  induction k as [|k IH]; intros Y st Hlen HY Hk Hi; cbn [fill_rows].
  - exists st. split; [done|]. by replace (S (length b)) with Y by lia.
  - destruct (fill_row_spec Y (length a) 1 st Hlen) as (st1 & -> & Hi1); [lia..|done|]. cbn [rbind].
    apply IH; [done|lia|lia|]. destruct Hi1 as [S1 S2 H1 H2]. constructor; [done|done| |].
    + intros x y Hx Hy H. apply H1; lia.
    + intros x y Hx Hy H. apply H2; lia.
Qed.

(** What [fill] leaves: a [DP] over [a] and [b] whose directions are right. *)
Record filled_dp (dp : DP T) : Prop := {
  fd_a : dp_a dp = a;
  fd_b : dp_b dp = b;
  fd_filled : filled dp = true;
  fd_shape : tshape (directions dp) (length a + 1) (length b + 1);
  fd_dir : forall x y, 0 < x <= length a -> 0 < y <= length b -> dir_ok (directions dp) x y;
}.

Lemma fill_NewDP : (Z.of_nat (length a) < 2 ^ 31)%Z ->
  exists dp, fill (NewDP a b) = Ok dp /\ filled_dp dp.
Proof.
  intros Hlen. unfold fill, NewDP. cbn [filled dp_a dp_b directions].
  destruct (fill_rows_spec (length b) 1
    (tmake (length a + 1) (length b + 1) 0%Z, tmake (length a + 1) (length b + 1) 0%Z)) as ([tab dirs] & -> & Hi); [done|lia|lia| |].
  - constructor; cbn [fst snd]; try apply tmake_shape; [|intros; lia].
    intros x y Hx Hy H. exists 0. rewrite tget_make by lia. split; [done|].
    assert (x = 0 \/ y = 0) as [->| ->] by lia; [apply lcs_length_nil_l|].
    rewrite (take_0 b). apply lcs_length_nil_r.
  - cbn [rbind]. eexists. split; [done|]. destruct Hi as [_ S2 _ H2]. constructor; cbn; [done..|].
    intros x y Hx Hy. apply H2; lia.
Qed.

Lemma fill_again dp : filled_dp dp -> fill dp = Ok dp.
Proof. intros H. unfold fill. by rewrite (fd_filled _ H). Qed.
End fill.

(** ** The walks back *)
Section walks.
Context {T : Type} `{EqDecision T}.

Lemma lcs_length_exists (a b : list T) : exists n, lcs_length n a b.
Proof.
  remember (length a + length b) as m eqn:E. revert a b E.
  induction m as [m IH] using lt_wf_ind. intros a b ->.
  destruct a as [|x a _] using rev_ind; [exists 0; apply lcs_length_nil_l|].
  destruct b as [|y b _] using rev_ind; [exists 0; apply lcs_length_nil_r|].
  rewrite !length_app in IH. cbn in IH. destruct (decide (x = y)) as [->|Hne].
  - destruct (IH (length a + length b)) with a b as [n Hn]; [lia|done|]. exists (S n). by apply lcs_length_eq.
  - destruct (IH (length a + length (b ++ [y]))) with a (b ++ [y]) as [n1 H1]; [rewrite length_app; cbn; lia|done|].
    destruct (IH (length (a ++ [x]) + length b)) with (a ++ [x]) b as [n2 H2]; [rewrite length_app; cbn; lia|done|].
    eexists. by apply lcs_length_ne.
Qed.

Lemma is_LCS_nil_l c (b : list T) : is_LCS c [] b <-> c = [].
Proof. rewrite (is_LCS_length _ _ _ _ (lcs_length_nil_l b)), common_nil_l. naive_solver. Qed.

Lemma is_LCS_nil_r c (a : list T) : is_LCS c a [] <-> c = [].
Proof. rewrite (is_LCS_length _ _ _ _ (lcs_length_nil_r a)), common_nil_r. naive_solver. Qed.

(** With the same last element, the longest subsequences all end in it. *)
Lemma is_LCS_eq d (a b : list T) x :
  is_LCS d (a ++ [x]) (b ++ [x]) <-> exists c, d = c ++ [x] /\ is_LCS c a b.
Proof.
  destruct (lcs_length_exists a b) as [n Hn]. rewrite (is_LCS_length _ _ _ _ (lcs_length_eq _ _ _ x Hn)).
  setoid_rewrite (is_LCS_length _ _ _ _ Hn). split.
  - intros [[H1 H2] Hl].
    assert (forall c l, c ++ [x] `sublist_of` l -> c `sublist_of` l) as Hsub.
    { intros c l Hc. etransitivity; [|exact Hc]. by apply sublist_inserts_r. }
    apply sublist_snoc in H1 as [H1|(c1 & -> & H1)].
    + apply sublist_snoc in H2 as [H2|(c2 & -> & H2)].
      * exfalso. assert (length d <= n); [|lia]. by apply Hn.
      * exists c2. rewrite length_app in Hl. cbn in Hl. repeat split; auto; lia.
    + exists c1. rewrite length_app in Hl. cbn in Hl. repeat split; auto; [|lia].
      apply sublist_snoc in H2 as [H2|(c2 & E & H2)]; [by apply Hsub|].
      by apply app_inj_tail in E as [-> _].
  - intros (c & -> & Hc & Hl). rewrite length_app. cbn. split; [|lia]. apply common_eq. eauto.
Qed.

(** With different ones, they are those of the neighbours that keep the length. *)
Lemma is_LCS_ne d (a b : list T) x y nu nl : x <> y ->
  lcs_length nu (a ++ [x]) b -> lcs_length nl a (b ++ [y]) ->
  is_LCS d (a ++ [x]) (b ++ [y]) <->
  (nl <= nu /\ is_LCS d (a ++ [x]) b) \/ (nu <= nl /\ is_LCS d a (b ++ [y])).
Proof.
  intros Hxy Hu Hl. rewrite (is_LCS_length _ _ _ _ (lcs_length_ne _ _ _ _ _ _ Hxy Hl Hu)).
  rewrite (is_LCS_length _ _ _ _ Hu), (is_LCS_length _ _ _ _ Hl), (common_ne _ _ _ _ _ Hxy). split.
  - intros [[H|H] E].
    + right. pose proof (proj2 Hl _ H). split; [lia|]. split; [done|lia].
    + left. pose proof (proj2 Hu _ H). split; [lia|]. split; [done|lia].
  - intros [[Hle [H E]]|[Hle [H E]]]; (split; [tauto|lia]).
Qed.

(** One step back from [i], [j]: which neighbours the direction leads to. *)
Inductive step_back (a b : list T) (d : Z) (i j : nat) : Prop :=
| back_diagonal x : d = diagonal -> a !! (i - 1) = Some x -> b !! (j - 1) = Some x ->
    take i a = take (i - 1) a ++ [x] -> take j b = take (j - 1) b ++ [x] -> step_back a b d i j
| back_ne x y nu nl : x <> y -> a !! (i - 1) = Some x -> b !! (j - 1) = Some y ->
    take i a = take (i - 1) a ++ [x] -> take j b = take (j - 1) b ++ [y] ->
    lcs_length nu (take i a) (take (j - 1) b) -> lcs_length nl (take (i - 1) a) (take j b) ->
    nl < nu /\ d = up \/ nu < nl /\ d = left \/ nu = nl /\ d = upAndLeft -> step_back a b d i j.

Lemma step_back_spec a b (dp : DP T) i j : filled_dp a b dp -> 0 < i <= length a -> 0 < j <= length b ->
  exists d, tget (directions dp) i j = Ok d /\ step_back a b d i j.
Proof.
  intros Hd Hi Hj. destruct (fd_dir _ _ _ Hd i j Hi Hj) as (x & y & d & Hx & Hy & E & H).
  exists d. split; [done|].
  pose proof (take_prev a i x Hx ltac:(lia)) as Ea. pose proof (take_prev b j y Hy ltac:(lia)) as Eb.
  destruct H as [[-> ->]|[Hne H]]; [by econstructor|].
  destruct (lcs_length_exists (take i a) (take (j - 1) b)) as [nu Hu].
  destruct (lcs_length_exists (take (i - 1) a) (take j b)) as [nl Hl].
  eapply back_ne; eauto.
Qed.

Lemma take_0_cases (a b : list T) i j : i = 0 \/ j = 0 -> take i a = [] \/ take j b = [].
Proof. intros [->| ->]; [left|right]; apply take_0. Qed.

Lemma is_LCS_nil_cases c (a b : list T) : a = [] \/ b = [] -> is_LCS c a b <-> c = [].
Proof. intros [->| ->]; [apply is_LCS_nil_l|apply is_LCS_nil_r]. Qed.

(** Which recursive call a direction selects. *)
Ltac simpl_dir :=
  cbn [Z.eqb diagonal up left upAndLeft orb andb];
  repeat match goal with
  | |- context [(?x =? ?y)%Z] => change (x =? y)%Z with true || change (x =? y)%Z with false
  end; cbn [orb andb rbind].

Lemma backtrack_spec a b (dp : DP T) fuel : forall i j, filled_dp a b dp -> i <= length a -> j <= length b ->
  i + j < fuel -> exists l, backtrack_rec fuel dp i j = Ok l /\ is_LCS l (take i a) (take j b).
Proof.
  induction fuel as [|fuel IH]; intros i j Hd Hi Hj Hf; [lia|]. cbn [backtrack_rec].
  destruct ((i =? 0) || (j =? 0)) eqn:E0; bool_to_prop.
  - exists []. split; [done|]. apply is_LCS_nil_cases; [|done]. apply take_0_cases. by destruct E0; bool_to_prop; [left|right].
  - destruct (step_back_spec a b dp i j Hd) as (d & -> & Hs); [lia..|]. cbn [rbind].
    destruct Hs as [x -> Hx Hy Ea Eb|x y nu nl Hne Hx Hy Ea Eb Hu Hl Hdir].
    + simpl_dir. destruct (IH (i - 1) (j - 1)) as (l & -> & HL); [done|lia..|]. cbn [rbind].
      rewrite (fd_a _ _ _ Hd), Hx. cbn [checked rbind]. exists (l ++ [x]). split; [done|].
      rewrite Ea, Eb. apply is_LCS_eq. eauto.
    + assert (forall l, (nl <= nu /\ is_LCS l (take i a) (take (j - 1) b)) \/
        (nu <= nl /\ is_LCS l (take (i - 1) a) (take j b)) -> is_LCS l (take i a) (take j b)) as Hn.
      { intros l Hl'. rewrite Ea, Eb in *. by apply (is_LCS_ne _ _ _ _ _ nu nl). }
      destruct Hdir as [[? ->]|[[? ->]|[? ->]]]; simpl_dir.
      * destruct (IH i (j - 1)) as (l & -> & HL); [done|lia..|]. exists l. split; [done|]. apply Hn. left. split; [lia|done].
      * destruct (IH (i - 1) j) as (l & -> & HL); [done|lia..|]. exists l. split; [done|]. apply Hn. right. split; [lia|done].
      * destruct (IH i (j - 1)) as (l & -> & HL); [done|lia..|]. exists l. split; [done|]. apply Hn. left. split; [lia|done].
Qed.

(** [backtrackAll] collects the longest subsequences, but for the empty one. *)
Definition collects (l : list (list T)) (a b : list T) : Prop :=
  forall c, c ∈ l <-> is_LCS c a b /\ c <> [].

Lemma extendAll_spec a b (dp : DP T) i l x : dp_a dp = a -> a !! i = Some x -> collects l (take i a) b ->
  exists l', extend dp i l = Ok l' /\ collects l' (take i a ++ [x]) (b ++ [x]).
Proof.
  intros <- Hx Hl. unfold extend. rewrite Hx. cbn [checked rbind].
  destruct l as [|c0 l].
  - exists [[x]]. split; [done|]. intros c. rewrite is_LCS_eq, list_elem_of_singleton.
    destruct (lcs_length_exists (take i (dp_a dp)) b) as [n Hn].
    pose proof Hn as [(d & Hd & Hdl) _].
    assert (is_LCS d (take i (dp_a dp)) b) as HL by (by apply (is_LCS_length _ _ _ n)).
    destruct (decide (d = [])) as [->|Hne].
    2:{ exfalso. apply (not_elem_of_nil d). by apply Hl. }
    split.
    + intros ->. split; [by exists []; split|done].
    + intros [(c' & -> & Hc') _]. destruct (decide (c' = [])) as [->|Hc]; [done|].
      exfalso. apply (not_elem_of_nil c'). by apply Hl.
  - eexists. split; [done|]. intros c. rewrite is_LCS_eq, list_elem_of_fmap. split.
    + intros (p & -> & Hp). split; [|by destruct p]. exists p. split; [done|]. by apply Hl.
    + intros [(c' & -> & Hc') _]. exists c'. split; [done|]. apply Hl. split; [done|]. intros ->.
      assert (is_LCS c0 (take i (dp_a dp)) b /\ c0 <> []) as [[Hc0 _] Hne] by (apply Hl; left).
      destruct Hc' as [_ H]. specialize (H c0 Hc0). destruct c0; cbn in H; [done|lia].
Qed.

Lemma backtrackAll_spec a b (dp : DP T) fuel : forall i j, filled_dp a b dp -> i <= length a -> j <= length b ->
  i + j < fuel -> exists l, backtrackAll_rec fuel dp i j = Ok l /\ collects l (take i a) (take j b).
Proof.
  induction fuel as [|fuel IH]; intros i j Hd Hi Hj Hf; [lia|]. cbn [backtrackAll_rec].
  destruct ((i =? 0) || (j =? 0)) eqn:E0; bool_to_prop.
  - exists []. split; [done|]. intros c. rewrite is_LCS_nil_cases.
    + split; [by intros ?%not_elem_of_nil|by intros [-> ?]].
    + apply take_0_cases. by destruct E0; bool_to_prop; [left|right].
  - destruct (step_back_spec a b dp i j Hd) as (d & -> & Hs); [lia..|]. cbn [rbind].
    destruct Hs as [x -> Hx Hy Ea Eb|x y nu nl Hne Hx Hy Ea Eb Hu Hl Hdir].
    + simpl_dir. destruct (IH (i - 1) (j - 1)) as (l & -> & HL); [done|lia..|]. cbn [rbind].
      destruct (extendAll_spec a (take (j - 1) b) dp (i - 1) l x (fd_a _ _ _ Hd) Hx HL) as (l' & -> & HL').
      exists l'. split; [done|]. by rewrite Ea, Eb.
    + assert (forall c, is_LCS c (take i a) (take j b) <-> (nl <= nu /\ is_LCS c (take i a) (take (j - 1) b)) \/
        (nu <= nl /\ is_LCS c (take (i - 1) a) (take j b))) as Hn.
      { intros c. rewrite Ea, Eb in *. by apply is_LCS_ne. }
      destruct (IH i (j - 1)) as (lu & Elu & HLu); [done|lia..|].
      destruct (IH (i - 1) j) as (ll & Ell & HLl); [done|lia..|].
      rewrite ?Elu, ?Ell. destruct Hdir as [[? ->]|[[? ->]|[? ->]]]; simpl_dir.
      * exists lu. split; [done|]. intros c. rewrite Hn, (HLu c). naive_solver lia.
      * exists ll. split; [done|]. intros c. rewrite Hn, (HLl c). naive_solver lia.
      * exists (lu ++ ll). split; [done|]. intros c. rewrite Hn, elem_of_app, (HLu c), (HLl c). naive_solver lia.
Qed.

(** ** Scripts

    [script a b i j es]: [es] turns the first [i] elements of [a] into the first
    [j] of [b], with the positions and values the documentation of [Edit]
    describes. *)
Inductive script (a b : list T) : nat -> nat -> EditScript T -> Prop :=
| script_nil : script a b 0 0 []
| script_identical i j es v : script a b i j es -> a !! i = Some v -> b !! j = Some v ->
    script a b (S i) (S j) (es ++ [MkEdit Identical (Z.of_nat i) (Z.of_nat j) v])
| script_insert i j es v : script a b i j es -> b !! j = Some v ->
    script a b i (S j) (es ++ [MkEdit Insert (Z.of_nat i) (Z.of_nat j) v])
| script_delete i j es v : script a b i j es -> a !! i = Some v ->
    script a b (S i) j (es ++ [MkEdit Delete (Z.of_nat i) (Z.of_nat j) v]).

Definition is_identical (e : Edit T) : bool := match Op e with Identical => true | _ => false end.

(** The number of insertions and deletions, and the elements kept. *)
Definition cost (es : EditScript T) : nat := length (filter (fun e => is_identical e = false) es).
Definition kept (es : EditScript T) : list T := Val <$> filter (fun e => is_identical e = true) es.

Lemma cost_app es e : cost (es ++ [e]) = cost es + (if is_identical e then 0 else 1).
Proof.
  unfold cost. rewrite list.filter_app, length_app, list.filter_cons, list.filter_nil. by destruct (is_identical e).
Qed.

Lemma kept_app es e : kept (es ++ [e]) = kept es ++ (if is_identical e then [Val e] else []).
Proof.
  unfold kept. rewrite list.filter_app, fmap_app, list.filter_cons, list.filter_nil. by destruct (is_identical e).
Qed.

Lemma script_cost a b i j es : script a b i j es -> i + j = cost es + 2 * length (kept es).
Proof.
  intros H. induction H; [done| | |]; rewrite cost_app, kept_app, length_app; cbn; lia.
Qed.

Lemma script_kept a b i j es : script a b i j es -> common (kept es) (take i a) (take j b).
Proof.
  intros H. induction H as [|i j es v H IH Ha Hb|i j es v H IH Hb|i j es v H IH Ha].
  - by split.
  - rewrite kept_app, (take_S_r _ _ _ Ha), (take_S_r _ _ _ Hb). cbn. apply common_eq. eauto.
  - rewrite kept_app, app_nil_r, (take_S_r _ _ _ Hb). by apply common_skip_r.
  - rewrite kept_app, app_nil_r, (take_S_r _ _ _ Ha). by apply common_skip_l.
Qed.

Lemma Apply_loop_app (es es' : EditScript T) a acc l : Apply_loop es a acc = Ok l ->
  Apply_loop (es ++ es') a acc = Apply_loop es' a l.
Proof.
  revert acc. induction es as [|e es IH]; intros acc; cbn [app Apply_loop]; [by intros [= ->]|].
  destruct (Op e); [auto|auto|]. intros (v & -> & H)%bind_Ok. cbn [rbind]. auto.
Qed.

Lemma zget_of_nat {B} (l : list B) i : zget l (Z.of_nat i) = l !! i.
Proof. unfold zget. rewrite (proj2 (Z.leb_le 0 _)) by lia. by rewrite Nat2Z.id. Qed.

Lemma script_Apply_loop a b i j es acc : script a b i j es -> Apply_loop es a acc = Ok (acc ++ take j b).
Proof.
  intros H. induction H as [|i j es v H IH Ha Hb|i j es v H IH Hb|i j es v H IH Ha];
    [cbn; by rewrite app_nil_r|..]; rewrite (Apply_loop_app _ _ _ _ _ IH); cbn [Apply_loop Op EA Val].
  - rewrite zget_of_nat, Ha. cbn [checked rbind]. by rewrite (take_S_r _ _ _ Hb), app_assoc.
  - by rewrite (take_S_r _ _ _ Hb), app_assoc.
  - done.
Qed.

Lemma script_Reverse_loop a b i j es c acc : script a b i j es ->
  Apply_loop (Reverse es) c acc = Ok (acc ++ take i a).
Proof.
  intros H. induction H as [|i j es v H IH Ha Hb|i j es v H IH Hb|i j es v H IH Ha];
    [cbn; by rewrite app_nil_r|..]; unfold Reverse in *; rewrite fmap_app, (Apply_loop_app _ _ _ _ _ IH); cbn.
  - by rewrite (take_S_r _ _ _ Ha), app_assoc.
  - done.
  - by rewrite (take_S_r _ _ _ Ha), app_assoc.
Qed.

Lemma script_nil_inv a b i j : script a b i j [] -> i = 0 /\ j = 0.
Proof. intros H. inversion H as [|? ? es ? ? ? ? E|? ? es ? ? ? E|? ? es ? ? ? E]; [done|by destruct es..]. Qed.

Lemma script_Apply a b es : script a b (length a) (length b) es -> Apply es a = Ok b.
Proof.
  intros H. destruct es as [|e es].
  - apply script_nil_inv in H as [Ha%nil_length_inv Hb%nil_length_inv]. by subst.
  - cbn [Apply]. rewrite (script_Apply_loop _ _ _ _ _ [] H). cbn. by rewrite take_ge.
Qed.

Lemma script_Reverse a b es : script a b (length a) (length b) es -> Apply (Reverse es) b = Ok a.
Proof.
  intros H. pose proof (script_Reverse_loop _ _ _ _ _ b [] H) as E. destruct es as [|e es].
  - apply script_nil_inv in H as [Ha%nil_length_inv Hb%nil_length_inv]. by subst.
  - change (Reverse (e :: es)) with (Reverse [e] ++ Reverse es) in *. cbn [Apply Reverse fmap list_fmap app] in *.
    rewrite E. cbn. by rewrite take_ge.
Qed.

(** The three steps of [diff], each on top of the script of its neighbour. *)
Lemma script_identical' a b i j es v : script a b (i - 1) (j - 1) es -> 0 < i -> 0 < j ->
  a !! (i - 1) = Some v -> b !! (j - 1) = Some v ->
  script a b i j (es ++ [MkEdit Identical (Z.of_nat i - 1) (Z.of_nat j - 1) v]).
Proof.
  intros H Hi Hj Ha Hb. destruct i as [|i], j as [|j]; try lia. cbn in *. rewrite ?Nat.sub_0_r in *.
  replace (Z.of_nat (S i) - 1)%Z with (Z.of_nat i) by lia. replace (Z.of_nat (S j) - 1)%Z with (Z.of_nat j) by lia.
  by constructor.
Qed.

Lemma script_insert' a b i j es v : script a b i (j - 1) es -> 0 < j -> b !! (j - 1) = Some v ->
  script a b i j (es ++ [MkEdit Insert (Z.of_nat i) (Z.of_nat j - 1) v]).
Proof.
  intros H Hj Hb. destruct j as [|j]; [lia|]. cbn in *. rewrite ?Nat.sub_0_r in *.
  replace (Z.of_nat (S j) - 1)%Z with (Z.of_nat j) by lia. by constructor.
Qed.

Lemma script_delete' a b i j es v : script a b (i - 1) j es -> 0 < i -> a !! (i - 1) = Some v ->
  script a b i j (es ++ [MkEdit Delete (Z.of_nat i - 1) (Z.of_nat j) v]).
Proof.
  intros H Hi Ha. destruct i as [|i]; [lia|]. cbn in *. rewrite ?Nat.sub_0_r in *.
  replace (Z.of_nat (S i) - 1)%Z with (Z.of_nat i) by lia. by constructor.
Qed.

Lemma kept_other es (e : Edit T) : is_identical e = false -> kept (es ++ [e]) = kept es.
Proof. intros He. by rewrite kept_app, He, app_nil_r. Qed.

Lemma dir_get a b (dp : DP T) i j : filled_dp a b dp -> i <= length a -> j <= length b ->
  exists d, tget (directions dp) i j = Ok d.
Proof.
  intros Hd Hi Hj. destruct (fd_shape _ _ _ Hd) as [Hs1 Hs2]. unfold tget.
  destruct (lookup_lt_is_Some_2 (directions dp) i) as [row Hrow]; [lia|]. rewrite Hrow. cbn.
  pose proof (Forall_lookup_1 _ _ _ _ Hs2 Hrow) as Hm. cbn in Hm.
  destruct (lookup_lt_is_Some_2 row j) as [w ->]; [lia|]. by exists w.
Qed.

Lemma diff_edge a b (dp : DP T) d i j : filled_dp a b dp -> i <= length a -> j <= length b -> i = 0 \/ j = 0 ->
  tget (directions dp) i j = Ok d ->
  forall fuel, i + j < fuel -> exists es, diff_rec fuel dp i j = Ok es /\ script a b i j es /\ kept es = [].
Proof.
  intros Hd Hi Hj H0 Hg fuel. revert d i j Hi Hj H0 Hg.
  induction fuel as [|fuel IH]; intros d i j Hi Hj H0 Hg Hf; [lia|]. cbn [diff_rec]. rewrite Hg. cbn [rbind].
  destruct (decide (j = 0)) as [->|Hj0].
  - rewrite andb_false_r. cbn [Nat.ltb Nat.leb andb]. destruct i as [|i].
    + exists []. split; [done|]. split; [constructor|done].
    + destruct (dir_get a b dp i 0 Hd) as [d' Hd']; [lia|lia|].
      destruct (IH d' i 0) as (es & E & Hs & Hk); [lia|lia|by right|done|lia|].
      destruct (lookup_lt_is_Some_2 a i) as [v Hv]; [lia|].
      change (0 <? S i) with true. change (0 =? 0) with true. cbn [andb orb].
      replace (S i - 1) with i by lia. rewrite E, (fd_a _ _ _ Hd), Hv. cbn [checked rbind].
      eexists. split; [done|]. split; [|by rewrite kept_other].
      apply script_delete'; [by rewrite Nat.sub_succ, Nat.sub_0_r|lia|by rewrite Nat.sub_succ, Nat.sub_0_r].
  - assert (i = 0) as -> by lia. change (0 <? 0) with false. change (0 =? 0) with true.
    rewrite (proj2 (Nat.ltb_lt 0 j)) by lia. cbn [andb orb].
    destruct (dir_get a b dp 0 (j - 1) Hd) as [d' Hd']; [lia|lia|].
    destruct (IH d' 0 (j - 1)) as (es & E & Hs & Hk); [lia|lia|by left|done|lia|].
    destruct (lookup_lt_is_Some_2 b (j - 1)) as [v Hv]; [lia|].
    rewrite E, (fd_b _ _ _ Hd), Hv. cbn [checked rbind].
    eexists. split; [done|]. split; [|by rewrite kept_other]. apply script_insert'; [done|lia|done].
Qed.

Lemma diff_spec a b (dp : DP T) fuel : forall i j, filled_dp a b dp -> i <= length a -> j <= length b ->
  i + j < fuel -> exists es, diff_rec fuel dp i j = Ok es /\ script a b i j es /\
    is_LCS (kept es) (take i a) (take j b).
Proof.
  induction fuel as [|fuel IH]; intros i j Hd Hi Hj Hf; [lia|].
  destruct (decide (i = 0 \/ j = 0)) as [H0|H0].
  - destruct (dir_get a b dp i j Hd Hi Hj) as [d Hg].
    destruct (diff_edge a b dp d i j Hd Hi Hj H0 Hg (S fuel) Hf) as (es & E & Hs & Hk).
    exists es. split; [done|]. split; [done|]. rewrite Hk. apply is_LCS_nil_cases; [by apply take_0_cases|done].
  - cbn [diff_rec]. destruct (step_back_spec a b dp i j Hd) as (d & -> & Hs); [lia..|]. cbn [rbind].
    rewrite (proj2 (Nat.ltb_lt 0 i)), (proj2 (Nat.ltb_lt 0 j)), (proj2 (Nat.eqb_neq i 0)), (proj2 (Nat.eqb_neq j 0)) by lia.
    destruct Hs as [x -> Hx Hy Ea Eb|x y nu nl Hne Hx Hy Ea Eb Hu Hl Hdir].
    + simpl_dir. destruct (IH (i - 1) (j - 1)) as (es & -> & Hs & HL); [done|lia..|]. cbn [rbind].
      rewrite (fd_b _ _ _ Hd), Hy. cbn [checked rbind]. eexists. split; [done|].
      split; [apply script_identical'; auto; lia|]. rewrite kept_app. cbn. rewrite Ea, Eb. apply is_LCS_eq. eauto.
    + assert (forall l, (nl <= nu /\ is_LCS l (take i a) (take (j - 1) b)) \/
        (nu <= nl /\ is_LCS l (take (i - 1) a) (take j b)) -> is_LCS l (take i a) (take j b)) as Hn.
      { intros l Hl'. rewrite Ea, Eb in *. by apply (is_LCS_ne _ _ _ _ _ nu nl). }
      destruct Hdir as [[? ->]|[[? ->]|[? ->]]]; simpl_dir.
      * destruct (IH i (j - 1)) as (es & -> & Hs & HL); [done|lia..|]. cbn [rbind].
        rewrite (fd_b _ _ _ Hd), Hy. cbn [checked rbind]. eexists. split; [done|].
        split; [apply script_insert'; auto; lia|]. rewrite kept_other by done. apply Hn. left. split; [lia|done].
      * destruct (IH (i - 1) j) as (es & -> & Hs & HL); [done|lia..|]. cbn [rbind].
        rewrite (fd_a _ _ _ Hd), Hx. cbn [checked rbind]. eexists. split; [done|].
        split; [apply script_delete'; auto; lia|]. rewrite kept_other by done. apply Hn. right. split; [lia|done].
      * destruct (IH i (j - 1)) as (es & -> & Hs & HL); [done|lia..|]. cbn [rbind].
        rewrite (fd_b _ _ _ Hd), Hy. cbn [checked rbind]. eexists. split; [done|].
        split; [apply script_insert'; auto; lia|]. rewrite kept_other by done. apply Hn. left. split; [lia|done].
Qed.
End walks.

(** ** Properties *)

(** [DP.LCS] terminates without a panic and returns a longest common
    subsequence of its two slices: a common subsequence that no other exceeds in
    length, also when it is called again on the filled table. *)
Theorem LCS_longest {T} `{EqDecision T} (a b : list T) (Hlen : (Z.of_nat (length a) < 2 ^ 31)%Z) :
  exists dp c, LCS (NewDP a b) = Ok (dp, c) /\ is_LCS c a b /\ LCS dp = Ok (dp, c).
Proof.
  destruct (fill_NewDP a b Hlen) as (dp & E & Hd).
  destruct (backtrack_spec a b dp (S (length a + length b)) (length a) (length b)) as (c & Ec & Hc); [done|lia..|].
  rewrite !take_ge in Hc by lia. exists dp, c. unfold LCS, backtrack.
  rewrite E. cbn [rbind]. rewrite (fill_again _ _ _ Hd). cbn [rbind].
  rewrite (fd_a _ _ _ Hd), (fd_b _ _ _ Hd), Ec. done.
Qed.

(** [DP.AllLCS] returns exactly the longest common subsequences: each one is
    in the result, and nothing else is.  When the slices have nothing in common
    the result is empty, without the empty subsequence. *)
Theorem AllLCS_all {T} `{EqDecision T} (a b : list T) (Hlen : (Z.of_nat (length a) < 2 ^ 31)%Z) :
  exists dp l, AllLCS (NewDP a b) = Ok (dp, l) /\ forall c, c ∈ l <-> is_LCS c a b /\ c <> [].
Proof.
  destruct (fill_NewDP a b Hlen) as (dp & E & Hd).
  destruct (backtrackAll_spec a b dp (S (length a + length b)) (length a) (length b)) as (l & El & Hl); [done|lia..|].
  rewrite !take_ge in Hl by lia. exists dp, l. unfold AllLCS, backtrackAll.
  rewrite E. cbn [rbind]. rewrite (fd_a _ _ _ Hd), (fd_b _ _ _ Hd), El. done.
Qed.

(** C31: [DP.SES] returns a shortest edit script: replaying it with [Apply] turns
    the first slice into the second, what it keeps is a longest common
    subsequence, and no script between the two slices has fewer insertions and
    deletions. *)
Theorem SES_shortest {T} `{EqDecision T} (a b : list T) (Hlen : (Z.of_nat (length a) < 2 ^ 31)%Z) :
  exists dp es, SES (NewDP a b) = Ok (dp, es) /\ script a b (length a) (length b) es /\
    Apply es a = Ok b /\ is_LCS (kept es) a b /\
    forall es', script a b (length a) (length b) es' -> cost es <= cost es'.
Proof.
  destruct (fill_NewDP a b Hlen) as (dp & E & Hd).
  destruct (diff_spec a b dp (S (length a + length b)) (length a) (length b)) as (es & Ees & Hs & Hk); [done|lia..|].
  rewrite !take_ge in Hk by lia. exists dp, es. split; [|split; [done|split; [by apply script_Apply|split; [done|]]]].
  - unfold SES. replace (directions (NewDP a b)) with (tmake (length a + 1) (length b + 1) 0%Z) by done.
    rewrite Nat.add_1_r at 1. cbn [tmake replicate]. rewrite E. cbn [rbind]. unfold diff.
    rewrite (fd_a _ _ _ Hd), (fd_b _ _ _ Hd), Ees. done.
  - intros es' Hs'. pose proof (script_cost _ _ _ _ _ Hs) as C1. pose proof (script_cost _ _ _ _ _ Hs') as C2.
    pose proof (script_kept _ _ _ _ _ Hs') as Hc. rewrite !take_ge in Hc by lia.
    pose proof (proj2 Hk _ Hc). lia.
Qed.

(** Any edit script between two slices replays forwards with [Apply], and
    its [Reverse] replays backwards; but [Reverse] turns the identical edits into
    insertions, so reversing twice does not give a script from the first slice
    to the second: it inserts what the first script inserted and drops all the
    rest. *)
Theorem script_replays {T} `{EqDecision T} (a b : list T) (es : EditScript T)
  (Hs : script a b (length a) (length b) es) :
  Apply es a = Ok b /\ Apply (Reverse es) b = Ok a /\
  (es <> [] -> Apply (Reverse (Reverse es)) a = Ok (Val <$> filter (fun e => Op e = Insert) es)).
Proof.
  split; [by apply script_Apply|]. split; [by apply script_Reverse|]. intros Hne. clear Hs.
  assert (forall acc, Apply_loop (Reverse (Reverse es)) a acc = Ok (acc ++ (Val <$> filter (fun e => Op e = Insert) es))) as H.
  { clear Hne. induction es as [|e es IH]; intros acc; [by rewrite app_nil_r|].
    rewrite list.filter_cons. unfold Reverse in *. cbn.
    destruct (Op e) eqn:Ee; cbn; rewrite IH; [by rewrite <- app_assoc|done|done]. }
  destruct es as [|e es]; [done|]. apply H.
Qed.

Example LCS_longest_witness :
  exists dp c, LCS (NewDP [1; 2; 3; 4] [2; 5; 4]) = Ok (dp, c) /\ is_LCS c [1; 2; 3; 4] [2; 5; 4] /\ c = [2; 4].
Proof.
  destruct (LCS_longest [1; 2; 3; 4] [2; 5; 4] ltac:(vm_compute; reflexivity)) as (dp & c & E & H & _).
  exists dp, c. split; [exact E|]. split; [exact H|]. vm_compute in E. injection E as _ <-. reflexivity.
Defined.

Example AllLCS_all_witness :
  exists dp l, AllLCS (NewDP [1; 2; 3] [3; 2; 1]) = Ok (dp, l) /\
    forall c, c ∈ l <-> is_LCS c [1; 2; 3] [3; 2; 1] /\ c <> [].
Proof. exact (AllLCS_all [1; 2; 3] [3; 2; 1] ltac:(vm_compute; reflexivity)). Defined.

Example SES_shortest_witness :
  exists dp es, SES (NewDP [1; 2] [2; 3]) = Ok (dp, es) /\ Apply es [1; 2] = Ok [2; 3] /\
    es = [MkEdit Delete 0 0 1; MkEdit Identical 1 0 2; MkEdit Insert 2 1 3].
Proof.
  destruct (SES_shortest [1; 2] [2; 3] ltac:(vm_compute; reflexivity)) as (dp & es & E & _ & Ha & _).
  exists dp, es. split; [exact E|]. split; [exact Ha|]. vm_compute in E. injection E as _ <-. reflexivity.
Defined.

Example script_replays_witness :
  Apply (Reverse [MkEdit Identical 0 0 7]) [7] = Ok [7] /\
  Apply (Reverse (Reverse [MkEdit Identical 0 0 7])) [7] = Ok [].
Proof.
  destruct (script_replays [7] [7] [MkEdit Identical 0 0 7]) as (_ & H1 & H2).
  - exact (script_identical [7] [7] 0 0 [] 7 (script_nil _ _) eq_refl eq_refl).
  - split; [exact H1|]. apply H2. discriminate.
Defined.
