(* ===== verification/Myers.v ===== *)
(** * The algorithm of Myers (algo/lcs/myers.go)

    [middleSnake] finds the middle of a shortest edit path by searching from both
    ends, furthest-reaching path by diagonal; [myersLCS] and [ses] recurse on its
    two sides.  The slices a[:x], a[x:u] and a[u:] are checked, so are the indices
    into the two arrays of diagonals.  The lengths are converted to int32; the
    sums made of them stay within the length of the arrays. *)

From stdpp Require Import base list option numbers.
From Stdlib Require Import ZArith Lia.
From S2P Require Import Prelude Lcs.

Open Scope list_scope.
Open Scope Z_scope.
Open Scope go_scope.

Section myers.
Context {T : Type} `{EqDecision T}.
Implicit Types a b : list T.

(** Where the path on diagonal [k] starts its snake: one down or one to the right
    of its neighbours'. *)
Definition reach (reached : list Z) (offset d k : Z) : res Z :=
  let! down :=
    (if k =? - d then Ok true
     else if k =? d then Ok false
     else
       let! l := checked (zget reached (offset + k - 1)) in
       let! r := checked (zget reached (offset + k + 1)) in
       Ok (l <? r)) in
  if down then checked (zget reached (offset + k + 1))
  else let! l := checked (zget reached (offset + k - 1)) in Ok (l + 1).

(** [a[x] == b[y]] and [a[na-x-1] == b[nb-y-1]]. *)
Definition same_at a b (x y : Z) : res bool :=
  let! u := checked (zget a x) in
  let! v := checked (zget b y) in
  Ok (bool_decide (u = v)).

Definition same_end a b (na nb x y : Z) : res bool := same_at a b (na - x - 1) (nb - y - 1).

(** The loop along a snake. *)
Fixpoint snake (fuel : nat) (same : Z -> Z -> res bool) (na nb x y : Z) : res (Z * Z) :=
  match fuel with
  | O => NoFuel
  | S fuel =>
      if (x <? na) && (y <? nb) then
        let! eq := same x y in
        if eq then snake fuel same na nb (x + 1) (y + 1) else Ok (x, y)
      else Ok (x, y)
  end.

(** (nd, mx, my, x, y) of a search that was ok. *)
Definition found : Type := Z * Z * Z * Z * Z.

Fixpoint forward_loop (fuel : nat) a b (d : Z) (forward reverse : list Z) (offset k : Z) : res (list Z * option found) :=
  match fuel with
  | O => NoFuel
  | S fuel =>
      if d <? k then Ok (forward, None)
      else
        let na := int32 (len a) in
        let nb := int32 (len b) in
        let delta := na - nb in
        let odd := negb (Z.rem delta 2 =? 0) in
        let! mx := reach forward offset d k in
        let my := mx - k in
        let! (x, y) := snake (S (length a)) (same_at a b) na nb mx my in
        let! forward := zput forward (offset + k) x in
        let! hit :=
          (if odd && (- (d - 1) <=? - (k - delta)) && (- (k - delta) <=? d - 1) then
             let! f := checked (zget forward (offset + k)) in
             let! r := checked (zget reverse (offset - (k - delta))) in
             Ok (na <=? f + r)
           else Ok false) in
        if hit then Ok (forward, Some (2 * d - 1, mx, my, x, y))
        else forward_loop fuel a b d forward reverse offset (k + 2)
  end.

Definition forwardSearch a b d forward reverse offset := forward_loop (Z.to_nat d + 2) a b d forward reverse offset (- d).

Fixpoint reverse_loop (fuel : nat) a b (d : Z) (forward reverse : list Z) (offset k : Z) : res (list Z * option found) :=
  match fuel with
  | O => NoFuel
  | S fuel =>
      if d <? k then Ok (reverse, None)
      else
        let na := int32 (len a) in
        let nb := int32 (len b) in
        let delta := na - nb in
        let even := Z.rem delta 2 =? 0 in
        let! mx := reach reverse offset d k in
        let my := mx - k in
        let! (x, y) := snake (S (length a)) (same_end a b na nb) na nb mx my in
        let! reverse := zput reverse (offset + k) x in
        let! hit :=
          (if even && (- d <=? - (k - delta)) && (- (k - delta) <=? d) then
             let! r := checked (zget reverse (offset + k)) in
             let! f := checked (zget forward (offset - (k - delta))) in
             Ok (na <=? r + f)
           else Ok false) in
        if hit then Ok (reverse, Some (2 * d, na - x, nb - y, na - mx, nb - my))
        else reverse_loop fuel a b d forward reverse offset (k + 2)
  end.

Definition reverseSearch a b d forward reverse offset := reverse_loop (Z.to_nat d + 2) a b d forward reverse offset (- d).

(** The loop over the number of edits; past [halfway] it panics. *)
Fixpoint middle_loop (fuel : nat) a b (forward reverse : list Z) (offset halfway d : Z) : res found :=
  match fuel with
  | O => NoFuel
  | S fuel =>
      if halfway <? d then Panic
      else
        let! (forward, f) := forwardSearch a b d forward reverse offset in
        match f with
        | Some s => Ok s
        | None =>
            let! (reverse, r) := reverseSearch a b d forward reverse offset in
            match r with
            | Some s => Ok s
            | None => middle_loop fuel a b forward reverse offset halfway (d + 1)
            end
        end
  end.

Definition make (n : Z) : res (list Z) := if n <? 0 then Panic else Ok (replicate (Z.to_nat n) 0).

Definition middleSnake a b : res found :=
  let maxe := int32 (len a + len b) in
  let! forward := make (int32 (maxe + 2)) in
  let! reverse := make (int32 (maxe + 2)) in
  let offset := Z.quot (len forward) 2 in
  let halfway := Z.quot maxe 2 in
  let halfway := if negb (Z.rem maxe 2 =? 0) then halfway + 1 else halfway in
  middle_loop (Z.to_nat halfway + 2) a b forward reverse offset halfway 0.

Fixpoint myersLCS_rec (fuel : nat) a b : res (list T) :=
  match fuel with
  | O => NoFuel
  | S fuel =>
      if (len a =? 0) || (len b =? 0) then Ok []
      else
        let! (d, x, y, u, v) := middleSnake a b in
        if 1 <? d then
          let! ax := zslice a 0 x in
          let! bx := zslice b 0 y in
          let! nd := myersLCS_rec fuel ax bx in
          let! mid := zslice a x u in
          let! au := zslice a u (len a) in
          let! bv := zslice b v (len b) in
          let! rest := myersLCS_rec fuel au bv in
          Ok (nd ++ mid ++ rest)
        else if len a <? len b then Ok a else Ok b
  end.

Definition myersLCS a b : res (list T) := myersLCS_rec (S (length a + length b)) a b.

Record Myers := MkMyers { my_a : list T; my_b : list T }.

Definition NewMyers a b : Myers := MkMyers a b.

Definition M_LCS (m : Myers) : res (list T) := myersLCS (my_a m) (my_b m).

(** [edits] from the [i]th of [vals] on. *)
Fixpoint edits_from (i : Z) (vals : list T) (op : EditOp) (cx cy : Z) : EditScript T :=
  match vals with
  | [] => []
  | v :: vals =>
      let atx := match op with Insert => cx | _ => cx + i end in
      MkEdit op atx (cy + i) v :: edits_from (i + 1) vals op cx cy
  end.

Definition edits (vals : list T) (op : EditOp) (cx cy : Z) : EditScript T := edits_from 0 vals op cx cy.

(** [ses]; its index is not used. *)
Fixpoint ses (fuel : nat) a b (na nb cx cy : Z) : res (EditScript T) :=
  match fuel with
  | O => NoFuel
  | S fuel =>
      if (0 <? na) && (0 <? nb) then
        let! (d, x, y, u, v) := middleSnake a b in
        let onx := negb (x =? u) && negb (y =? v) in
        if (1 <? d) || onx then
          let! ax := zslice a 0 x in
          let! bx := zslice b 0 y in
          let! s1 := ses fuel ax bx x y cx cy in
          let! s2 := (if onx then let! mid := zslice a x u in Ok (edits mid Identical (cx + x) (cy + y)) else Ok []) in
          let! au := zslice a u na in
          let! bv := zslice b v nb in
          let! s3 := ses fuel au bv (na - u) (nb - v) (cx + u) (cy + v) in
          Ok (s1 ++ s2 ++ s3)
        else if na <? nb then
          let! l := zslice a 0 na in
          let! rest := zslice b na nb in
          let! s := ses fuel [] rest 0 (nb - na) (cx + na) (cy + na) in
          Ok (edits l Identical cx cy ++ s)
        else if nb <? na then
          let! l := zslice b 0 nb in
          let! rest := zslice a nb na in
          let! s := ses fuel rest [] (na - nb) 0 (cx + nb) (cy + nb) in
          Ok (edits l Identical cx cy ++ s)
        else Ok []
      else if 0 <? na then Ok (edits a Delete cx cy)
      else Ok (edits b Insert cx cy)
  end.

Definition M_SES (m : Myers) : res (EditScript T) :=
  ses (S (S (length (my_a m) + length (my_b m)))) (my_a m) (my_b m) (int32 (len (my_a m))) (int32 (len (my_b m))) 0 0.
End myers.
Arguments Myers : clear implicits.

(** ** The edit graph

    [e x y] is the least number of insertions and deletions on a path from the
    origin to (x, y), where [same x y] opens the diagonal from there; the graph
    goes on outside the box of the two slices, without diagonals. *)

Section grid.
Context (same : nat -> nat -> bool).
Open Scope nat_scope.

Fixpoint e (x : nat) : nat -> nat :=
  match x with
  | 0 => fun y => y
  | S x' => fix ex y := match y with 0 => S x' | S y' => if same x' y' then e x' y' else S (e x' (S y') `min` ex y') end
  end.

Lemma e_0_r x : e x 0 = x.
Proof. by destruct x. Qed.

Lemma e_SS x y : e (S x) (S y) = if same x y then e x y else S (e x (S y) `min` e (S x) y).
Proof. reflexivity. Qed.

(** A step to a neighbour changes the distance by at most one; it does not fall
    along a diagonal. *)
Lemma e_steps n : forall x y, x + y <= n ->
  e (S x) y <= S (e x y) /\ e x y <= S (e (S x) y) /\ e x (S y) <= S (e x y) /\ e x y <= S (e x (S y)).
Proof.
  induction n as [|n IH]; intros x y Hn.
  - assert (x = 0 /\ y = 0) as [-> ->] by lia. cbn. lia.
  - assert (e (S x) y <= S (e x y) /\ e x y <= S (e (S x) y)) as [H1 H2].
    { destruct y as [|y]; [rewrite !e_0_r; lia|]. rewrite e_SS. destruct (IH x y) as (A1 & A2 & A3 & A4); [lia|].
      destruct (same x y); [lia|]. lia. }
    split_and!; [done|done|..].
    + destruct x as [|x]; [cbn; lia|]. rewrite e_SS. destruct (IH x y) as (A1 & A2 & A3 & A4); [lia|]. destruct (same x y); lia.
    + destruct x as [|x]; [cbn; lia|]. rewrite e_SS. destruct (IH x y) as (A1 & A2 & A3 & A4); [lia|]. destruct (same x y); lia.
Qed.

Lemma e_right x y : e (S x) y <= S (e x y) /\ e x y <= S (e (S x) y).
Proof. destruct (e_steps (x + y) x y) as (? & ? & _); [done|]. done. Qed.

Lemma e_down x y : e x (S y) <= S (e x y) /\ e x y <= S (e x (S y)).
Proof. destruct (e_steps (x + y) x y) as (_ & _ & ? & ?); [done|]. done. Qed.

Lemma e_diag x y : e x y <= e (S x) (S y).
Proof. rewrite e_SS. destruct (same x y); [done|]. pose proof (e_right x y). pose proof (e_down x y). lia. Qed.

Lemma e_diags m x y : e x y <= e (x + m) (y + m).
Proof.
  induction m as [|m IH]; [by rewrite !Nat.add_0_r|]. rewrite <- !plus_n_Sm. etrans; [exact IH|apply e_diag].
Qed.

Lemma e_lower x : forall y, x <= y + e x y /\ y <= x + e x y.
Proof.
  induction x as [|x IH]; intros [|y]; [cbn; lia|cbn; lia|rewrite e_0_r; lia|]. pose proof (e_diag x y). specialize (IH y). lia.
Qed.

Lemma e_rights m x y : e (x + m) y <= e x y + m /\ e x y <= e (x + m) y + m.
Proof.
  induction m as [|m IH]; [rewrite Nat.add_0_r; lia|]. rewrite <- plus_n_Sm. pose proof (e_right (x + m) y). lia.
Qed.

Lemma e_downs m x y : e x (y + m) <= e x y + m /\ e x y <= e x (y + m) + m.
Proof.
  induction m as [|m IH]; [rewrite Nat.add_0_r; lia|]. rewrite <- plus_n_Sm. pose proof (e_down x (y + m)). lia.
Qed.

(** A furthest-reaching point of diagonal [k] with at most [d] edits. *)
Definition far (d : nat) (k X : Z) : Prop :=
  exists x y, X = Z.of_nat x /\ k = (Z.of_nat x - Z.of_nat y)%Z /\ e x y <= d /\ d < e (S x) (S y).

Lemma far_max d k X x y : far d k X -> k = (Z.of_nat x - Z.of_nat y)%Z -> e x y <= d -> (Z.of_nat x <= X)%Z.
Proof.
  intros (x1 & y1 & -> & -> & _ & Hgt) Hk He. destruct (decide (x <= x1)); [lia|].
  pose proof (e_diags (x - S x1) (S x1) (S y1)). replace (S x1 + (x - S x1)) with x in * by lia. replace (S y1 + (x - S x1)) with y in * by lia. lia.
Qed.

Lemma far_le d k X x y : far d k X -> k = (Z.of_nat x - Z.of_nat y)%Z -> (Z.of_nat x <= X)%Z -> e x y <= d.
Proof.
  intros (x1 & y1 & -> & -> & Hle & _) Hk Hx. pose proof (e_diags (x1 - x) x y).
  replace (x + (x1 - x)) with x1 in * by lia. replace (y + (x1 - x)) with y1 in * by lia. lia.
Qed.

(** Following matches from where the neighbours' paths lead. *)
Lemma far_next d x0 y0 m :
  (forall i, i < m -> same (x0 + i) (y0 + i) = true) -> same (x0 + m) (y0 + m) = false ->
  e x0 y0 <= S d ->
  (forall x y, (Z.of_nat x - Z.of_nat y = Z.of_nat x0 - Z.of_nat y0 - 1)%Z -> e x y <= d -> x < x0) ->
  (forall x y, (Z.of_nat x - Z.of_nat y = Z.of_nat x0 - Z.of_nat y0 + 1)%Z -> e x y <= d -> x <= x0) ->
  far (S d) (Z.of_nat x0 - Z.of_nat y0) (Z.of_nat (x0 + m)) /\ e (x0 + m) (y0 + m) = e x0 y0.
Proof.
  intros Hm Hend He Hl Hu. assert (e (x0 + m) (y0 + m) = e x0 y0) as E.
  { clear Hend. induction m as [|m IH]; [by rewrite !Nat.add_0_r|]. rewrite <- !plus_n_Sm, e_SS, Hm by lia. apply IH. intros; apply Hm; lia. }
  split; [|done]. exists (x0 + m), (y0 + m). split_and!; [done|lia|lia|]. rewrite e_SS, Hend.
  assert (d < e (x0 + m) (S (y0 + m))) by (apply Nat.lt_nge; intros Hc; apply Hl in Hc; lia).
  assert (d < e (S (x0 + m)) (y0 + m)) by (apply Nat.lt_nge; intros Hc; apply Hu in Hc; lia). lia.
Qed.

Section box.
Context (na nb : nat) (Hbox : forall x y, same x y = true -> x < na /\ y < nb).

Lemma same_out x y : na <= x \/ nb <= y -> same x y = false.
Proof. intros H. destruct (same x y) eqn:Es; [|done]. apply Hbox in Es. lia. Qed.

Lemma e_out_x j : forall y, e (na + j) y = e na y + j.
Proof.
  induction j as [|j IH]; intros y; [by rewrite !Nat.add_0_r|]. rewrite <- plus_n_Sm.
  induction y as [|y IHy]; [rewrite !e_0_r; lia|]. rewrite e_SS, same_out, IH, IHy by lia. pose proof (e_down na y). lia.
Qed.

Lemma e_out_y j : forall x, e x (nb + j) = e x nb + j.
Proof.
  induction j as [|j IH]; intros x; [by rewrite !Nat.add_0_r|]. rewrite <- plus_n_Sm.
  induction x as [|x IHx]; [cbn; lia|]. rewrite e_SS, same_out, IH, IHx by lia. pose proof (e_right x nb). lia.
Qed.

(** A point reached with [d] edits on a diagonal from which [d'] can suffice is
    in the box, when the whole needs [d + d']. *)
Lemma in_box d d' x y : d + d' <= e na nb -> e x y <= d ->
  (Z.of_nat x - Z.of_nat y - (Z.of_nat na - Z.of_nat nb) <= Z.of_nat d')%Z ->
  (Z.of_nat na - Z.of_nat nb - (Z.of_nat x - Z.of_nat y) <= Z.of_nat d')%Z -> x <= na /\ y <= nb.
Proof.
  intros HD He H1 H2. destruct (decide (x <= na)) as [Hx|Hx], (decide (y <= nb)) as [Hy|Hy]; [done|exfalso..].
  - replace y with (nb + (y - nb)) in He by lia. rewrite e_out_y in He. pose proof (e_rights (na - x) x nb) as [Hr _].
    replace (x + (na - x)) with na in Hr by lia. lia.
  - replace x with (na + (x - na)) in He by lia. rewrite e_out_x in He. pose proof (e_downs (nb - y) na y) as [Hr _].
    replace (y + (nb - y)) with nb in Hr by lia. lia.
  - replace x with (na + (x - na)) in He by lia. replace y with (nb + (y - nb)) in He by lia. rewrite e_out_x, e_out_y in He. lia.
Qed.
End box.
End grid.

(** ** The graph of two slices *)

Section graph.
Context {T : Type} `{EqDecision T}.
Implicit Types a b : list T.
Open Scope nat_scope.

Definition same a b (i j : nat) : bool :=
  match a !! i, b !! j with Some u, Some v => bool_decide (u = v) | _, _ => false end.

Definition ed a b : nat -> nat -> nat := e (same a b).

Lemma same_box a b i j : same a b i j = true -> i < length a /\ j < length b.
Proof.
  unfold same. destruct (a !! i) eqn:Ea; [|done]. destruct (b !! j) eqn:Eb; [|done]. intros _.
  split; by eapply lookup_lt_Some.
Qed.

Lemma same_reverse a b i j : i < length a -> j < length b ->
  same (reverse a) (reverse b) i j = same a b (length a - S i) (length b - S j).
Proof. intros Hi Hj. unfold same. by rewrite !reverse_lookup by done. Qed.

(** The distance and the length of the longest common subsequences of two
    prefixes. *)
Lemma ed_lcs a b x : forall y, x <= length a -> y <= length b ->
  exists n, lcs_length n (take x a) (take y b) /\ ed a b x y + 2 * n = x + y.
Proof.
  induction x as [|x IHx]; [intros y; exists 0; split; [apply lcs_length_nil_l|cbn; lia]|].
  induction y as [|y IHy]; intros Hx Hy; [exists 0; split; [apply lcs_length_nil_r|unfold ed; rewrite e_0_r; lia]|].
  destruct (lookup_lt_is_Some_2 a x) as [u Hu]; [lia|]. destruct (lookup_lt_is_Some_2 b y) as [v Hv]; [lia|].
  rewrite (take_S_r _ _ _ Hu), (take_S_r _ _ _ Hv). unfold ed. rewrite e_SS. unfold same at 1. rewrite Hu, Hv.
  destruct (decide (u = v)) as [->|Hne].
  - rewrite bool_decide_true by done. destruct (IHx y) as (n & Hn & En); [lia|lia|]. exists (S n). split; [by apply lcs_length_eq|]. unfold ed in En. lia.
  - rewrite bool_decide_false by done. destruct (IHx (S y)) as (n1 & Hn1 & En1); [lia|lia|]. destruct IHy as (n2 & Hn2 & En2); [lia|lia|].
    rewrite (take_S_r _ _ _ Hv) in Hn1. rewrite (take_S_r _ _ _ Hu) in Hn2. exists (n1 `max` n2). split; [by apply lcs_length_ne|].
    unfold ed in *. lia.
Qed.

Lemma sublist_reverse (c l : list T) : c `sublist_of` l -> reverse c `sublist_of` reverse l.
Proof.
  induction 1 as [|x c l _ IH|x c l _ IH]; [done|..].
  - rewrite !reverse_cons. by apply sublist_app.
  - rewrite reverse_cons. by apply sublist_inserts_r.
Qed.

Lemma lcs_length_reverse n a b : lcs_length n a b -> lcs_length n (reverse a) (reverse b).
Proof.
  intros [(c & [H1 H2] & Hl) Hm]. split.
  - exists (reverse c). split; [split; by apply sublist_reverse|by rewrite length_reverse].
  - intros d [H3%sublist_reverse H4%sublist_reverse]. rewrite !reverse_involutive in *. rewrite <- length_reverse. apply Hm. by split.
Qed.

(** The distance of the point (x, y) from the end. *)
Definition rd a b (x y : nat) : nat := ed (reverse a) (reverse b) (length a - x) (length b - y).

Lemma rd_lcs a b x y : x <= length a -> y <= length b ->
  exists n, lcs_length n (drop x a) (drop y b) /\ rd a b x y + 2 * n = (length a - x) + (length b - y).
Proof.
  intros Hx Hy. destruct (ed_lcs (reverse a) (reverse b) (length a - x) (length b - y)) as (n & Hn & En); [rewrite length_reverse; lia..|].
  exists n. split; [|done]. rewrite !take_reverse in Hn. replace (length a - (length a - x)) with x in Hn by lia.
  replace (length b - (length b - y)) with y in Hn by lia. apply lcs_length_reverse in Hn. by rewrite !reverse_involutive in Hn.
Qed.

Definition dist a b : nat := ed a b (length a) (length b).

Lemma dist_lcs a b : exists n, lcs_length n a b /\ dist a b + 2 * n = length a + length b.
Proof. destruct (ed_lcs a b (length a) (length b)) as (n & Hn & En); [done|done|]. rewrite !take_ge in Hn by done. by exists n. Qed.

Lemma dist_reverse a b : dist (reverse a) (reverse b) = dist a b.
Proof.
  destruct (dist_lcs a b) as (n & Hn & En). destruct (dist_lcs (reverse a) (reverse b)) as (m & Hm & Em).
  apply lcs_length_reverse in Hm. rewrite !reverse_involutive in Hm. rewrite !length_reverse in Em.
  pose proof (lcs_length_unique _ _ _ _ Hn Hm). lia.
Qed.

Lemma rd_0 a b : rd a b 0 0 = dist a b.
Proof. unfold rd. rewrite !Nat.sub_0_r. rewrite <- dist_reverse. unfold dist. by rewrite !length_reverse. Qed.

Lemma rd_ed a b x y : x <= length a -> y <= length b -> rd (reverse a) (reverse b) (length a - x) (length b - y) = ed a b x y.
Proof.
  intros Hx Hy. unfold rd. rewrite !reverse_involutive, !length_reverse. f_equal; lia.
Qed.

Lemma triangle a b x y : x <= length a -> y <= length b -> dist a b <= ed a b x y + rd a b x y.
Proof.
  intros Hx Hy. destruct (dist_lcs a b) as (n & [_ Hn] & En). destruct (ed_lcs a b x y) as (n1 & [(c1 & [A1 A2] & L1) _] & E1); [done|done|].
  destruct (rd_lcs a b x y) as (n2 & [(c2 & [B1 B2] & L2) _] & E2); [done|done|].
  assert (length (c1 ++ c2) <= n) as Hc; [|rewrite length_app in Hc; lia].
  apply Hn. split.
  - rewrite <- (take_drop x a). by apply sublist_app.
  - rewrite <- (take_drop y b). by apply sublist_app.
Qed.

(** On a shortest path every number of edits is met. *)
Lemma on_path a b d : d <= dist a b -> exists x y, x <= length a /\ y <= length b /\ ed a b x y = d /\ rd a b x y = dist a b - d.
Proof.
  intros Hd. assert (forall s x y, x + y <= s -> x <= length a -> y <= length b -> ed a b x y + rd a b x y = dist a b -> d <= ed a b x y ->
    exists x y, x <= length a /\ y <= length b /\ ed a b x y = d /\ rd a b x y = dist a b - d) as H.
  { induction s as [|s IH]; intros x y Hs Hx Hy He Hde.
    - assert (x = 0 /\ y = 0) as [-> ->] by lia. exists 0, 0. cbn in *. split_and!; lia.
    - destruct (decide (ed a b x y = d)) as [Heq|Hne]; [exists x, y; split_and!; try done; lia|].
      assert (forall x' y', x' <= x -> y' <= y -> x' + y' < x + y -> ed a b x' y' + rd a b x' y' <= dist a b -> d <= ed a b x' y' ->
        exists x y, x <= length a /\ y <= length b /\ ed a b x y = d /\ rd a b x y = dist a b - d) as Hgo.
      { intros x' y' Hx' Hy' Hlt Hle Hd'. apply (IH x' y'); try lia. pose proof (triangle a b x' y'). lia. }
      assert (forall x, S x <= length a -> rd a b x y <= S (rd a b (S x) y)) as Hrx.
      { intros x' Hx'. unfold rd. replace (length a - x') with (S (length a - S x')) by lia. apply e_right. }
      assert (forall x y, S y <= length b -> rd a b x y <= S (rd a b x (S y))) as Hry.
      { intros x' y' Hy'. unfold rd. replace (length b - y') with (S (length b - S y')) by lia. apply e_down. }
      destruct x as [|x], y as [|y].
      + cbn in Hne, Hde. lia.
      + apply (Hgo 0 y); try lia; [specialize (Hry 0 y); cbn in *; lia|cbn in *; lia].
      + apply (Hgo x 0); try lia; [specialize (Hrx x); unfold ed in *; rewrite !e_0_r in *; lia|unfold ed in *; rewrite !e_0_r in *; lia].
      + unfold ed in He, Hne, Hde. rewrite e_SS in He, Hne, Hde. destruct (same a b x y) eqn:Es.
        * apply (Hgo x y); [lia|lia|lia| |done]. unfold rd in *.
          replace (length a - x) with (S (length a - S x)) by lia. replace (length b - y) with (S (length b - S y)) by lia.
          unfold ed in *. rewrite e_SS, same_reverse by lia. replace (length a - S (length a - S x)) with x by lia.
          replace (length b - S (length b - S y)) with y by lia. by rewrite Es, He.
        * destruct (decide (e (same a b) x (S y) <= e (same a b) (S x) y)).
          -- apply (Hgo x (S y)); [lia|lia|lia| |unfold ed; lia]. specialize (Hrx x ltac:(lia)). unfold ed. lia.
          -- apply (Hgo (S x) y); [lia|lia|lia| |unfold ed; lia]. specialize (Hry (S x) y ltac:(lia)). unfold ed. lia. }
  apply (H (length a + length b) (length a) (length b)); [done|done|done| |done].
  unfold rd. rewrite !Nat.sub_diag. unfold dist, ed at 2. cbn. lia.
Qed.
End graph.

(** ** One search

    [sm] is the graph the search goes through (that of the slices, or that of
    the reversed slices), [n] the number of cells of the array. *)

Section search.
Context (sm : nat -> nat -> bool) (na nb : nat) (Hbox : forall x y, sm x y = true -> (x < na /\ y < nb)%nat).
Context (same : Z -> Z -> res bool) (Hsame : forall x y, (x < na)%nat -> (y < nb)%nat -> same (Z.of_nat x) (Z.of_nat y) = Ok (sm x y)).
Context (off n : Z).
Implicit Types arr : list Z.

(** The [i]th diagonal of phase [d]. *)
Definition diag (d i : nat) : Z := 2 * Z.of_nat i - Z.of_nat d.

(** The first [c] diagonals of phase [d] hold their furthest-reaching points. *)
Definition holds (d c : nat) arr : Prop :=
  forall i, (i < c)%nat -> exists X, zget arr (off + diag d i) = Some X /\ far sm d (diag d i) X.

Definition before (d : nat) arr : Prop :=
  len arr = n /\ match d with 0%nat => zget arr (off + 1) = Some 0 | S d' => holds d' d arr end.

(** The first point of a snake is next to a point of the phase before. *)
Definition starts (d x0 y0 : nat) : Prop :=
  match d with
  | 0%nat => x0 = 0%nat /\ y0 = 0%nat
  | S d' => (exists x', x0 = S x' /\ (e sm x' y0 <= d')%nat) \/ (exists y', y0 = S y' /\ (e sm x0 y' <= d')%nat)
  end.

Lemma reach_spec d i arr : before d arr -> (i <= d)%nat ->
  exists x0 y0, reach arr off (Z.of_nat d) (diag d i) = Ok (Z.of_nat x0) /\ diag d i = Z.of_nat x0 - Z.of_nat y0 /\
    (e sm x0 y0 <= d)%nat /\ starts d x0 y0 /\
    match d with
    | 0%nat => True
    | S d' => (forall x y, Z.of_nat x - Z.of_nat y = Z.of_nat x0 - Z.of_nat y0 - 1 -> (e sm x y <= d')%nat -> (x < x0)%nat) /\
              (forall x y, Z.of_nat x - Z.of_nat y = Z.of_nat x0 - Z.of_nat y0 + 1 -> (e sm x y <= d')%nat -> (x <= x0)%nat)
    end.
Proof.
  intros [_ Hb] Hi. unfold reach. destruct d as [|d].
  - assert (i = 0)%nat as -> by lia. change (diag 0 0) with 0. rewrite Z.eqb_refl. cbn [rbind]. rewrite Z.add_0_r, Hb.
    exists 0%nat, 0%nat. split_and!; try done.
  - assert (forall x0 y0, diag (S d) i = Z.of_nat x0 - Z.of_nat y0 -> i = 0%nat -> forall x y, Z.of_nat x - Z.of_nat y = Z.of_nat x0 - Z.of_nat y0 - 1 -> (e sm x y <= d)%nat -> False) as Hno1.
    { unfold diag. intros x0 y0 Hk Hi0 x y Hxy He. pose proof (e_lower sm x y). lia. }
    assert (forall x0 y0, diag (S d) i = Z.of_nat x0 - Z.of_nat y0 -> i = S d -> forall x y, Z.of_nat x - Z.of_nat y = Z.of_nat x0 - Z.of_nat y0 + 1 -> (e sm x y <= d)%nat -> False) as Hno2.
    { unfold diag. intros x0 y0 Hk Hi0 x y Hxy He. pose proof (e_lower sm x y). lia. }
    assert (forall X, far sm d (diag d i) X -> exists x0 y0, X = Z.of_nat x0 /\ diag (S d) i = Z.of_nat x0 - Z.of_nat y0 /\
      (e sm x0 y0 <= S d)%nat /\ starts (S d) x0 y0) as Hdown.
    { intros X (x & y & -> & Hk & Hle & _). exists x, (S y). unfold diag in *. split_and!; [done|lia| |right; by exists y]. pose proof (e_down sm x y). lia. }
    assert (forall j X, i = S j -> far sm d (diag d j) X -> exists x0 y0, X + 1 = Z.of_nat x0 /\ diag (S d) i = Z.of_nat x0 - Z.of_nat y0 /\
      (e sm x0 y0 <= S d)%nat /\ starts (S d) x0 y0) as Hright.
    { intros j X -> (x & y & -> & Hk & Hle & _). exists (S x), y. unfold diag in *. split_and!; [lia|lia| |left; by exists x]. pose proof (e_right sm x y). lia. }
    destruct i as [|j].
    + destruct (Hb 0%nat) as (X & HX & HF); [lia|]. replace (diag (S d) 0 =? - Z.of_nat (S d)) with true by (unfold diag; symmetry; apply Z.eqb_eq; lia).
      cbn [rbind]. replace (off + diag (S d) 0 + 1) with (off + diag d 0) by (unfold diag; lia). rewrite HX.
      destruct (Hdown X HF) as (x0 & y0 & -> & Hk & He & Hs). exists x0, y0. split_and!; try done.
      * intros x y Hxy Hle. by destruct (Hno1 x0 y0 Hk eq_refl x y Hxy Hle).
      * intros x y Hxy Hle. pose proof (far_max sm d _ _ x y HF). unfold diag in *. lia.
    + replace (diag (S d) (S j) =? - Z.of_nat (S d)) with false by (unfold diag; symmetry; apply Z.eqb_neq; lia).
      destruct (Hb j) as (X & HX & HF); [lia|]. replace (off + diag (S d) (S j) - 1) with (off + diag d j) by (unfold diag; lia). rewrite HX.
      destruct (Z.eqb_spec (diag (S d) (S j)) (Z.of_nat (S d))) as [Eq|Ne].
      * cbn [rbind checked]. destruct (Hright j X eq_refl HF) as (x0 & y0 & E0 & Hk & He & Hs). exists x0, y0. rewrite E0. split_and!; try done.
        -- intros x y Hxy Hle. pose proof (far_max sm d _ _ x y HF). unfold diag in *. lia.
        -- intros x y Hxy Hle. destruct (Hno2 x0 y0 Hk ltac:(unfold diag in Eq; lia) x y Hxy Hle).
      * destruct (Hb (S j)) as (X2 & HX2 & HF2); [unfold diag in Ne; lia|].
        replace (off + diag (S d) (S j) + 1) with (off + diag d (S j)) by (unfold diag; lia). rewrite HX2. cbn [rbind checked].
        destruct (Z.ltb_spec X X2).
        -- destruct (Hdown X2 HF2) as (x0 & y0 & -> & Hk & He & Hs). exists x0, y0. split_and!; try done.
           ++ intros x y Hxy Hle. pose proof (far_max sm d _ _ x y HF). unfold diag in *. lia.
           ++ intros x y Hxy Hle. pose proof (far_max sm d _ _ x y HF2). unfold diag in *. lia.
        -- destruct (Hright j X eq_refl HF) as (x0 & y0 & E0 & Hk & He & Hs). exists x0, y0. cbn [rbind]. rewrite E0. split_and!; try done.
           ++ intros x y Hxy Hle. pose proof (far_max sm d _ _ x y HF). unfold diag in *. lia.
           ++ intros x y Hxy Hle. pose proof (far_max sm d _ _ x y HF2). unfold diag in *. lia.
Qed.

Lemma snake_spec fuel : forall x y, (na - x < fuel)%nat ->
  exists m, snake fuel same (Z.of_nat na) (Z.of_nat nb) (Z.of_nat x) (Z.of_nat y) = Ok (Z.of_nat (x + m), Z.of_nat (y + m)) /\
    (forall i, (i < m)%nat -> sm (x + i) (y + i) = true) /\ sm (x + m)%nat (y + m)%nat = false.
Proof.
  induction fuel as [|fuel IH]; intros x y Hf.
  - lia.
  - cbn [snake]. destruct (_ && _) eqn:E; bool_to_prop.
    + rewrite Hsame by lia. cbn [rbind]. destruct (sm x y) eqn:Es.
      * destruct (IH (S x) (S y)) as (m & Em & Hm & Hend); [lia|]. exists (S m).
        replace (Z.of_nat x + 1) with (Z.of_nat (S x)) by lia. replace (Z.of_nat y + 1) with (Z.of_nat (S y)) by lia. rewrite Em.
        replace (x + S m)%nat with (S x + m)%nat by lia. replace (y + S m)%nat with (S y + m)%nat by lia. split_and!; [done| |done].
        intros [|i] Hi; [by rewrite !Nat.add_0_r|]. rewrite <- !plus_n_Sm. apply (Hm i). lia.
      * exists 0%nat. rewrite !Nat.add_0_r. split_and!; [done|intros; lia|done].
    + exists 0%nat. rewrite !Nat.add_0_r. split_and!; [done|intros; lia|]. apply (same_out sm na nb Hbox). destruct E as [E|E]; bool_to_prop; lia.
Qed.

(** The snake of diagonal [k] in phase [d]: from (x0, y0), [m] long. *)
Record snaked (d : nat) (k : Z) (x0 y0 m : nat) : Prop := {
  sn_k : k = Z.of_nat x0 - Z.of_nat y0;
  sn_le : (e sm x0 y0 <= d)%nat;
  sn_start : starts d x0 y0;
  sn_same : forall i, (i < m)%nat -> sm (x0 + i)%nat (y0 + i)%nat = true;
  sn_far : far sm d k (Z.of_nat (x0 + m));
  sn_e : e sm (x0 + m) (y0 + m) = e sm x0 y0;
}.

Lemma before_put d i arr X : before d arr -> before d (zset arr (off + diag d i) X).
Proof.
  intros [Hl Hb]. split; [by rewrite len_zset|]. destruct d as [|d].
  - rewrite zget_zset_ne; [done|]. unfold diag. lia.
  - intros j Hj. destruct (Hb j Hj) as (Y & HY & HF). exists Y. rewrite zget_zset_ne; [done|]. unfold diag. lia.
Qed.

Lemma advance d i arr : before d arr -> holds d i arr -> (i <= d)%nat -> Z.of_nat d <= off -> off + Z.of_nat d < n ->
  exists x0 y0 m, reach arr off (Z.of_nat d) (diag d i) = Ok (Z.of_nat x0) /\ Z.of_nat x0 - diag d i = Z.of_nat y0 /\
    snake (S na) same (Z.of_nat na) (Z.of_nat nb) (Z.of_nat x0) (Z.of_nat y0) = Ok (Z.of_nat (x0 + m), Z.of_nat (y0 + m)) /\
    zput arr (off + diag d i) (Z.of_nat (x0 + m)) = Ok (zset arr (off + diag d i) (Z.of_nat (x0 + m))) /\
    snaked d (diag d i) x0 y0 m /\
    before d (zset arr (off + diag d i) (Z.of_nat (x0 + m))) /\ holds d (S i) (zset arr (off + diag d i) (Z.of_nat (x0 + m))) /\
    zget (zset arr (off + diag d i) (Z.of_nat (x0 + m))) (off + diag d i) = Some (Z.of_nat (x0 + m)).
Proof.
  intros Hb Hh Hi H0 Hn. destruct (reach_spec d i arr Hb Hi) as (x0 & y0 & Er & Hk & He & Hs & Hmax).
  destruct (snake_spec (S na) x0 y0) as (m & Em & Hm & Hend); [lia|]. exists x0, y0, m.
  assert (0 <= off + diag d i < len arr) as Hin by (destruct Hb as [-> _]; unfold diag; lia).
  assert (far sm d (diag d i) (Z.of_nat (x0 + m)) /\ e sm (x0 + m) (y0 + m) = e sm x0 y0) as [Hf Hee].
  { destruct d as [|d].
    - destruct Hs as [-> ->]. assert (e sm m m = 0%nat) as E0.
      { change (forall i, (i < m)%nat -> sm i i = true) in Hm. clear -Hm. induction m as [|m IH]; [done|]. rewrite e_SS, (Hm m) by lia. apply IH. intros; apply Hm; lia. }
      change (sm m m = false) in Hend. change (0 + m)%nat with m. rewrite E0. split; [|done]. exists m, m. split_and!; [done|lia|lia|]. rewrite e_SS, Hend. lia.
    - destruct Hmax as [H1 H2]. rewrite Hk. by apply far_next. }
  pose proof (zget_zset_eq arr (off + diag d i) (Z.of_nat (x0 + m)) Hin) as Hget.
  split_and!; [done|lia|done|by apply zput_Ok|by constructor|by apply before_put| |done].
  intros j Hj. destruct (decide (j = i)) as [->|Hne]; [by exists (Z.of_nat (x0 + m))|].
  destruct (Hh j) as (Y & HY & HF); [lia|]. exists Y. rewrite zget_zset_ne; [done|]. unfold diag. lia.
Qed.
End search.

(** ** The two searches meet *)

Section meeting.
Context {T : Type} `{EqDecision T} (a b : list T).
#[local] Abbreviation na := (length a).
#[local] Abbreviation nb := (length b).
#[local] Abbreviation sf := (same a b).
#[local] Abbreviation sr := (same (reverse a) (reverse b)).

Definition delta : Z := Z.of_nat na - Z.of_nat nb.

(** The furthest points of [d] and [d'] edits on a diagonal overlap. *)
Definition meets (d d' : nat) (k : Z) : Prop :=
  exists F R, far sf d k F /\ far sr d' (delta - k) R /\ Z.of_nat na <= F + R.

Definition reached (sm : nat -> nat -> bool) (d : nat) : Prop := forall i, (i <= d)%nat -> exists X, far sm d (diag d i) X.

Lemma far_unique sm d k X Y : far sm d k X -> far sm d k Y -> X = Y.
Proof.
  intros HX HY. pose proof HX as (x & y & -> & Hk & He & _). pose proof HY as (x' & y' & -> & Hk' & He' & _).
  pose proof (far_max _ _ _ _ _ _ HX Hk' He'). pose proof (far_max _ _ _ _ _ _ HY Hk He). lia.
Qed.

Lemma must_meet d d' : reached sf d -> reached sr d' -> dist a b = (d + d')%nat ->
  exists i, (i <= d)%nat /\ - Z.of_nat d' <= delta - diag d i <= Z.of_nat d' /\ meets d d' (diag d i).
Proof.
  intros HF HR HD. destruct (on_path a b d) as (x & y & Hx & Hy & He & Hr); [lia|].
  destruct (ed_lcs a b x y Hx Hy) as (n & Hn & En). apply lcs_length_le in Hn as [Hn1 Hn2]. rewrite length_take in Hn1, Hn2.
  destruct (rd_lcs a b x y Hx Hy) as (n' & Hn' & En'). apply lcs_length_le in Hn' as [Hn1' Hn2']. rewrite length_drop in Hn1', Hn2'.
  exists (x - n)%nat. assert (diag d (x - n) = Z.of_nat x - Z.of_nat y) as Hk by (unfold diag; lia).
  assert (delta - diag d (x - n) = diag d' (na - x - n')) as Hk' by (unfold delta, diag in *; lia).
  split; [lia|]. split; [unfold delta, diag in *; lia|].
  destruct (HF (x - n)%nat) as [F HF']; [lia|]. destruct (HR (na - x - n')%nat) as [R HR']; [lia|].
  exists F, R. rewrite Hk'. split_and!; [done|done|].
  pose proof (far_max _ _ _ _ x y HF' Hk) as H1. pose proof (far_max _ _ _ _ (na - x) (nb - y) HR') as H2.
  unfold ed, rd, ed in *. specialize (H1 ltac:(lia)). specialize (H2 ltac:(unfold delta, diag in *; lia) ltac:(lia)). lia.
Qed.

(** Where they meet for the first time a shortest path passes. *)
Lemma found_middle d d' k x0 y0 m R : snaked sf d k x0 y0 m -> - Z.of_nat d' <= delta - k <= Z.of_nat d' ->
  far sr d' (delta - k) R -> Z.of_nat na <= Z.of_nat (x0 + m) + R -> (d + d' <= dist a b)%nat ->
  (x0 + m <= na)%nat /\ (y0 + m <= nb)%nat /\ ed a b x0 y0 = d /\ rd a b (x0 + m) (y0 + m) = d' /\ dist a b = (d + d')%nat.
Proof.
  intros [Hk Hle Hs Hsame Hfar He] Hd HR Hmeet HD.
  destruct (in_box sf na nb (same_box a b) d d' (x0 + m) (y0 + m)) as [Hx Hy]; [done|lia|unfold delta in *; lia|unfold delta in *; lia|].
  pose proof (triangle a b (x0 + m) (y0 + m) Hx Hy) as Ht.
  assert (rd a b (x0 + m) (y0 + m) <= d')%nat as Hr by (eapply (far_le sr); [exact HR|unfold delta in *; lia|lia]).
  unfold ed in *. split_and!; [done|done|lia|lia|lia].
Qed.

(** The middle of a shortest path of [D] edits: [m] matches from (x, y). *)
Record middle (D x y m : nat) : Prop := {
  mid_D : dist a b = D;
  mid_x : (x + m <= na)%nat;
  mid_y : (y + m <= nb)%nat;
  mid_same : forall i, (i < m)%nat -> sf (x + i) (y + i) = true;
  mid_ed : ed a b x y = Nat.div (D + 1) 2;
  mid_rd : rd a b (x + m) (y + m) = Nat.div D 2;
  mid_0 : D = 0%nat -> (0 < na)%nat -> (0 < m)%nat;
  mid_1 : D = 1%nat -> starts sf 1 x y;
  mid_end : D = 1%nat -> sf (x + m) (y + m) = false;
}.
End meeting.

Lemma not_odd_even z : Z.rem z 2 = 0 -> exists q, z = 2 * q.
Proof. intros Hz. exists (Z.quot z 2). pose proof (Z.quot_rem' z 2). lia. Qed.

Lemma odd_odd z : Z.rem z 2 <> 0 -> exists q, z = 2 * q + 1.
Proof.
  intros Hz. pose proof (Z.quot_rem' z 2). pose proof (Z.rem_bound_abs z 2 ltac:(lia)).
  destruct (decide (Z.rem z 2 = 1)); [exists (Z.quot z 2); lia|]. exists (Z.quot z 2 - 1). lia.
Qed.

Section phases.
Context {T : Type} `{EqDecision T} (a b : list T) (off n : Z).
Context (Ha : len a < 2 ^ 31) (Hb : len b < 2 ^ 31).
#[local] Abbreviation na := (length a).
#[local] Abbreviation nb := (length b).
#[local] Abbreviation sf := (same a b).
#[local] Abbreviation sr := (same (reverse a) (reverse b)).

Lemma int32_len (l : list T) : len l < 2 ^ 31 -> int32 (len l) = Z.of_nat (length l).
Proof. apply int32_small. Qed.

Lemma same_at_Ok x y : (x < na)%nat -> (y < nb)%nat -> same_at a b (Z.of_nat x) (Z.of_nat y) = Ok (sf x y).
Proof.
  intros Hx Hy. unfold same_at, same. rewrite !zget_of_nat. destruct (lookup_lt_is_Some_2 a x Hx) as [u ->].
  by destruct (lookup_lt_is_Some_2 b y Hy) as [v ->].
Qed.

Lemma same_end_Ok x y : (x < na)%nat -> (y < nb)%nat ->
  same_end a b (Z.of_nat na) (Z.of_nat nb) (Z.of_nat x) (Z.of_nat y) = Ok (sr x y).
Proof.
  intros Hx Hy. unfold same_end. replace (Z.of_nat na - Z.of_nat x - 1) with (Z.of_nat (na - S x)) by lia.
  replace (Z.of_nat nb - Z.of_nat y - 1) with (Z.of_nat (nb - S y)) by lia. rewrite same_at_Ok by lia. by rewrite same_reverse.
Qed.

Lemma sr_box x y : sr x y = true -> (x < na /\ y < nb)%nat.
Proof. intros Hs%same_box. by rewrite !length_reverse in Hs. Qed.

Lemma holds_reached sm d arr : holds sm off d (S d) arr -> reached sm d.
Proof. intros Hh i Hi. destruct (Hh i) as (X & _ & HX); [lia|]. by exists X. Qed.

Definition forward_hit (d : nat) (k : Z) (x0 y0 m : nat) : Prop :=
  snaked sf d k x0 y0 m /\ (exists q, delta a b = 2 * q + 1) /\
  exists d' R, d = S d' /\ - Z.of_nat d' <= delta a b - k <= Z.of_nat d' /\ far sr d' (delta a b - k) R /\ Z.of_nat na <= Z.of_nat (x0 + m) + R.

(** No diagonal of the forward phase meets, when it is one that can. *)
Definition forward_misses (d i : nat) : Prop :=
  (exists q, delta a b = 2 * q + 1) -> forall d', d = S d' -> - Z.of_nat d' <= delta a b - diag d i <= Z.of_nat d' -> ~ meets a b d d' (diag d i).

Lemma forward_loop_spec d rv : Z.of_nat d <= off -> off + Z.of_nat d < n -> before sr off n d rv ->
  forall fuel i fw, (S d - i < fuel)%nat -> (i <= S d)%nat -> before sf off n d fw -> holds sf off d i fw -> (forall j, (j < i)%nat -> forward_misses d j) ->
  (exists fw', forward_loop fuel a b (Z.of_nat d) fw rv off (diag d i) = Ok (fw', None) /\ len fw' = n /\ holds sf off d (S d) fw' /\
     forall j, (j <= d)%nat -> forward_misses d j) \/
  (exists fw' k x0 y0 m, forward_loop fuel a b (Z.of_nat d) fw rv off (diag d i) =
     Ok (fw', Some (2 * Z.of_nat d - 1, Z.of_nat x0, Z.of_nat y0, Z.of_nat (x0 + m), Z.of_nat (y0 + m))) /\ forward_hit d k x0 y0 m).
Proof.
  intros H0 Hn Hrv. induction fuel as [|fuel IH]; intros i fw Hf Hi Hbe Hh Hm; [lia|]. cbn [forward_loop].
  destruct (Z.ltb_spec (Z.of_nat d) (diag d i)) as [Hend|Hgo].
  - left. exists fw. assert (i = S d) as -> by (unfold diag in Hend; lia). split_and!; [done|apply Hbe|done|]. intros j Hj. apply Hm. lia.
  - destruct (advance sf na nb (same_box a b) (same_at a b) same_at_Ok off n d i fw Hbe Hh) as (x0 & y0 & m & Er & Ey & E & Hput & Hsn & Hbe' & Hh' & Hget);
      [unfold diag in Hgo; lia|done|done|]. rewrite !int32_len, Er by done. cbn [rbind].
    rewrite Ey, E. cbn [rbind]. rewrite Hput. cbn [rbind]. rewrite Hget. set (fw1 := zset fw _ _) in *. fold (delta a b).
    assert (diag d i + 2 = diag d (S i)) as Hnext by (unfold diag; lia). rewrite Hnext.
    destruct (negb (Z.rem (delta a b) 2 =? 0) && (- (Z.of_nat d - 1) <=? - (diag d i - delta a b)) && (- (diag d i - delta a b) <=? Z.of_nat d - 1)) eqn:Ec; bool_to_prop.
    + cbn [rbind checked]. match goal with Ho : Z.rem _ 2 <> 0 |- _ => pose proof (odd_odd _ Ho) as Hodd end. destruct d as [|d']; [lia|].
      destruct Hrv as [_ Hrv]. pose proof Hodd as [q Hq]. assert (delta a b - diag (S d') i = diag d' (Z.to_nat ((delta a b - diag (S d') i + Z.of_nat d') / 2))) as Hidx.
      { unfold diag in *. div_lia. }
      destruct (Hrv (Z.to_nat ((delta a b - diag (S d') i + Z.of_nat d') / 2))) as (R & HR & Hfar); [unfold diag in *; div_lia|].
      rewrite <- Hidx in HR, Hfar. replace (off - (diag (S d') i - delta a b)) with (off + (delta a b - diag (S d') i)) by lia. rewrite HR. cbn [rbind checked].
      destruct (Z.leb_spec (Z.of_nat na) (Z.of_nat (x0 + m) + R)) as [Hmeet|Hno].
      * right. exists fw1, (diag (S d') i), x0, y0, m. split; [done|]. split_and!; [done|done|]. exists d', R. split_and!; try done; lia.
      * apply IH; [unfold diag in Hgo; lia|unfold diag in Hgo; lia|done|done|]. intros j Hj. destruct (decide (j = i)) as [->|Hne]; [|apply Hm; lia].
        intros _ d2 [= <-] _ (F & R2 & HF & HR2 & Hle). pose proof (far_unique _ _ _ _ _ HF (sn_far _ _ _ _ _ _ Hsn)). pose proof (far_unique _ _ _ _ _ HR2 Hfar). lia.
    + cbn [rbind]. apply IH; [unfold diag in Hgo; lia|unfold diag in Hgo; lia|done|done|]. intros j Hj. destruct (decide (j = i)) as [->|Hne]; [|apply Hm; lia].
      intros [q Hq] d' -> Hd' _. destruct Ec as [Ec|Ec]; bool_to_prop; [destruct Ec as [Ec|Ec]; bool_to_prop|]; [|lia|lia].
      apply not_odd_even in Ec as [q' Hq']. lia.
Qed.

Definition reverse_hit (d : nat) (k : Z) (x0 y0 m : nat) : Prop :=
  snaked sr d k x0 y0 m /\ (exists q, delta a b = 2 * q) /\
  exists F, - Z.of_nat d <= delta a b - k <= Z.of_nat d /\ far sf d (delta a b - k) F /\ Z.of_nat na <= Z.of_nat (x0 + m) + F.

Definition reverse_misses (d i : nat) : Prop :=
  (exists q, delta a b = 2 * q) -> - Z.of_nat d <= delta a b - diag d i <= Z.of_nat d -> ~ meets a b d d (delta a b - diag d i).

Lemma reverse_loop_spec d fw : Z.of_nat d <= off -> off + Z.of_nat d < n -> holds sf off d (S d) fw ->
  forall fuel i rv, (S d - i < fuel)%nat -> (i <= S d)%nat -> before sr off n d rv -> holds sr off d i rv -> (forall j, (j < i)%nat -> reverse_misses d j) ->
  (exists rv', reverse_loop fuel a b (Z.of_nat d) fw rv off (diag d i) = Ok (rv', None) /\ len rv' = n /\ holds sr off d (S d) rv' /\
     forall j, (j <= d)%nat -> reverse_misses d j) \/
  (exists rv' k x0 y0 m, reverse_loop fuel a b (Z.of_nat d) fw rv off (diag d i) =
     Ok (rv', Some (2 * Z.of_nat d, Z.of_nat na - Z.of_nat (x0 + m), Z.of_nat nb - Z.of_nat (y0 + m), Z.of_nat na - Z.of_nat x0, Z.of_nat nb - Z.of_nat y0)) /\
     reverse_hit d k x0 y0 m).
Proof.
  intros H0 Hn Hfw. induction fuel as [|fuel IH]; intros i rv Hf Hi Hbe Hh Hm; [lia|]. cbn [reverse_loop].
  destruct (Z.ltb_spec (Z.of_nat d) (diag d i)) as [Hend|Hgo].
  - left. exists rv. assert (i = S d) as -> by (unfold diag in Hend; lia). split_and!; [done|apply Hbe|done|]. intros j Hj. apply Hm. lia.
  - destruct (advance sr na nb sr_box (same_end a b (Z.of_nat na) (Z.of_nat nb)) same_end_Ok off n d i rv Hbe Hh)
      as (x0 & y0 & m & Er & Ey & E & Hput & Hsn & Hbe' & Hh' & Hget); [unfold diag in Hgo; lia|done|done|].
    rewrite !int32_len, Er by done. cbn [rbind]. rewrite Ey, E. cbn [rbind]. rewrite Hput. cbn [rbind]. rewrite Hget.
    set (rv1 := zset rv _ _) in *. fold (delta a b). assert (diag d i + 2 = diag d (S i)) as Hnext by (unfold diag; lia). rewrite Hnext.
    destruct ((Z.rem (delta a b) 2 =? 0) && (- Z.of_nat d <=? - (diag d i - delta a b)) && (- (diag d i - delta a b) <=? Z.of_nat d)) eqn:Ec; bool_to_prop.
    + cbn [rbind checked]. match goal with Ho : Z.rem _ 2 = 0 |- _ => pose proof (not_odd_even _ Ho) as Heven end.
      pose proof Heven as [q Hq]. assert (delta a b - diag d i = diag d (Z.to_nat ((delta a b - diag d i + Z.of_nat d) / 2))) as Hidx.
      { unfold diag in *. div_lia. }
      destruct (Hfw (Z.to_nat ((delta a b - diag d i + Z.of_nat d) / 2))) as (F & HF & Hfar); [unfold diag in *; div_lia|].
      rewrite <- Hidx in HF, Hfar. replace (off - (diag d i - delta a b)) with (off + (delta a b - diag d i)) by lia. rewrite HF. cbn [rbind checked].
      destruct (Z.leb_spec (Z.of_nat na) (Z.of_nat (x0 + m) + F)) as [Hmeet|Hno].
      * right. exists rv1, (diag d i), x0, y0, m. split; [done|]. split_and!; [done|done|]. exists F. split_and!; try done; lia.
      * apply IH; [unfold diag in Hgo; lia|unfold diag in Hgo; lia|done|done|]. intros j Hj. destruct (decide (j = i)) as [->|Hne]; [|apply Hm; lia].
        intros _ _ (F2 & R & HF2 & HR & Hle). replace (delta a b - (delta a b - diag d i)) with (diag d i) in HR by lia.
        pose proof (far_unique _ _ _ _ _ HR (sn_far _ _ _ _ _ _ Hsn)). pose proof (far_unique _ _ _ _ _ HF2 Hfar). lia.
    + cbn [rbind]. apply IH; [unfold diag in Hgo; lia|unfold diag in Hgo; lia|done|done|]. intros j Hj. destruct (decide (j = i)) as [->|Hne]; [|apply Hm; lia].
      intros [q Hq] Hd' _. destruct Ec as [Ec|Ec]; bool_to_prop; [destruct Ec as [Ec|Ec]; bool_to_prop|]; [|lia|lia].
      apply odd_odd in Ec as [q' Hq']. lia.
Qed.

(** *** The phases *)

Lemma dist_parity : exists q, delta a b = Z.of_nat (dist a b) + 2 * q.
Proof. destruct (dist_lcs a b) as (l & _ & El). exists (Z.of_nat l - Z.of_nat nb). unfold delta. lia. Qed.

Lemma forward_hit_middle d k x0 y0 m : forward_hit d k x0 y0 m -> (2 * d <= dist a b + 1)%nat ->
  middle a b (dist a b) x0 y0 m /\ Z.of_nat (dist a b) = 2 * Z.of_nat d - 1.
Proof.
  intros (Hsn & _ & d' & R & -> & Hd & HR & Hmeet) HD.
  destruct (found_middle a b (S d') d' k x0 y0 m R Hsn Hd HR Hmeet) as (Hx & Hy & He & Hr & HDD); [lia|].
  split; [|lia]. rewrite HDD. constructor; try done.
  - apply Hsn.
  - rewrite He. replace (S d' + d' + 1)%nat with (S d' * 2)%nat by lia. by rewrite Nat.div_mul.
  - rewrite Hr. replace (S d' + d')%nat with (1 + d' * 2)%nat by lia. by rewrite Nat.div_add.
  - intros ?. assert (d' = 0)%nat as -> by lia. apply Hsn.
  - intros ?. destruct (sn_far _ _ _ _ _ _ Hsn) as (x & y & Hxx & Hkk & _ & Hgt). pose proof (sn_k _ _ _ _ _ _ Hsn).
    assert (x = x0 + m /\ y = y0 + m)%nat as [-> ->] by lia. rewrite e_SS in Hgt. destruct (sf _ _); [|done].
    pose proof (sn_e _ _ _ _ _ _ Hsn). pose proof (sn_le _ _ _ _ _ _ Hsn). lia.
Qed.

Lemma reverse_hit_middle d k x0 y0 m : reverse_hit d k x0 y0 m -> (2 * d <= dist a b)%nat -> (0 < na)%nat ->
  middle a b (dist a b) (na - (x0 + m)) (nb - (y0 + m)) m /\ (x0 + m <= na)%nat /\ (y0 + m <= nb)%nat /\ Z.of_nat (dist a b) = 2 * Z.of_nat d.
Proof.
  intros (Hsn & _ & F & Hd & HF & Hmeet) HD Hna.
  destruct (found_middle (reverse a) (reverse b) d d k x0 y0 m F) as (Hx & Hy & He & Hr & HDD).
  - done.
  - unfold delta in *. by rewrite !length_reverse.
  - rewrite !reverse_involutive. unfold delta in *. by rewrite !length_reverse.
  - by rewrite length_reverse.
  - rewrite dist_reverse. lia.
  - rewrite !length_reverse in Hx, Hy. rewrite dist_reverse in HDD. split; [|split_and!; [done|done|lia]].
    assert (rd a b (na - x0) (nb - y0) = d) as Hrd.
    { unfold rd. replace (na - (na - x0))%nat with x0 by lia. by replace (nb - (nb - y0))%nat with y0 by lia. }
    assert (ed a b (na - (x0 + m)) (nb - (y0 + m)) = d) as Hed.
    { rewrite <- rd_ed by lia. replace (na - (na - (x0 + m)))%nat with (x0 + m)%nat by lia. by replace (nb - (nb - (y0 + m)))%nat with (y0 + m)%nat by lia. }
    constructor; rewrite ?HDD; try lia.
    + intros i Hi. pose proof (sn_same _ _ _ _ _ _ Hsn (m - 1 - i)%nat ltac:(lia)) as Hs. rewrite same_reverse in Hs by lia.
      replace (na - S (x0 + (m - 1 - i)))%nat with (na - (x0 + m) + i)%nat in Hs by lia. by replace (nb - S (y0 + (m - 1 - i)))%nat with (nb - (y0 + m) + i)%nat in Hs by lia.
    + rewrite Hed. replace (d + d + 1)%nat with (1 + d * 2)%nat by lia. by rewrite Nat.div_add.
    + replace (na - (x0 + m) + m)%nat with (na - x0)%nat by lia. replace (nb - (y0 + m) + m)%nat with (nb - y0)%nat by lia. rewrite Hrd.
      replace (d + d)%nat with (d * 2)%nat by lia. by rewrite Nat.div_mul.
    + intros Hd0 _. assert (d = 0)%nat as -> by lia. destruct m as [|m]; [|lia]. exfalso. destruct (sn_start _ _ _ _ _ _ Hsn) as [-> ->].
      destruct (sn_far _ _ _ _ _ _ Hsn) as (x & y & Hxx & Hkk & _ & Hgt). pose proof (sn_k _ _ _ _ _ _ Hsn).
      assert (x = 0 /\ y = 0)%nat as [-> ->] by lia. pose proof (e_lower sf na nb) as Hlow. unfold dist, ed in HDD. rewrite HDD in Hlow.
      pose proof (e_diags sr (na - 1) 1 1) as Hdg. replace (1 + (na - 1))%nat with na in Hdg by lia.
      pose proof (dist_reverse a b) as Hdr. unfold dist, ed in Hdr. rewrite !length_reverse in Hdr. replace nb with na in * by lia. lia.
Qed.

Lemma middle_loop_spec halfway fuel : forall d fw rv, (Z.to_nat halfway + 1 - d < fuel)%nat -> Z.of_nat d <= halfway ->
  halfway <= off -> off + halfway < n -> (dist a b <= 2 * Z.to_nat halfway)%nat -> (2 * d <= dist a b + 1)%nat -> (0 < na)%nat ->
  before sf off n d fw -> before sr off n d rv ->
  exists x y m, middle_loop fuel a b fw rv off halfway (Z.of_nat d) =
    Ok (Z.of_nat (dist a b), Z.of_nat x, Z.of_nat y, Z.of_nat (x + m), Z.of_nat (y + m)) /\ middle a b (dist a b) x y m.
Proof.
  induction fuel as [|fuel IH]; intros d fw rv Hf Hd Hoff Hn HD H2d Hna Hbf Hbr; [lia|]. cbn [middle_loop].
  rewrite (proj2 (Z.ltb_ge halfway _)) by lia. unfold forwardSearch. replace (- Z.of_nat d) with (diag d 0) by (unfold diag; lia).
  destruct (forward_loop_spec d rv ltac:(lia) ltac:(lia) Hbr (Z.to_nat (Z.of_nat d) + 2) 0 fw) as [(fw' & -> & Hlf & Hhf & Hmf)|(fw' & k & x0 & y0 & m & -> & Hhit)];
    [lia|lia|done|intros j Hj; lia|intros j Hj; lia| |].
  2: { cbn [rbind]. destruct (forward_hit_middle d k x0 y0 m Hhit H2d) as [Hmid E]. exists x0, y0, m. by rewrite E. }
  cbn [rbind]. assert (2 * d <= dist a b)%nat as H2d'.
  { destruct (decide (2 * d <= dist a b)%nat); [done|exfalso]. destruct d as [|d']; [lia|].
    destruct (must_meet a b (S d') d') as (i & Hi & Hr & Hmeet); [by eapply holds_reached|eapply holds_reached; apply Hbr|lia|].
    destruct dist_parity as [q Hq]. apply (Hmf i Hi) with d'; [exists (q + Z.of_nat d'); lia|done|lia|done]. }
  unfold reverseSearch. replace (- Z.of_nat d) with (diag d 0) by (unfold diag; lia).
  destruct (reverse_loop_spec d fw' ltac:(lia) ltac:(lia) Hhf (Z.to_nat (Z.of_nat d) + 2) 0 rv) as [(rv' & -> & Hlr & Hhr & Hmr)|(rv' & k & x0 & y0 & m & -> & Hhit)];
    [lia|lia|done|intros j Hj; lia|intros j Hj; lia| |].
  2: { cbn [rbind]. destruct (reverse_hit_middle d k x0 y0 m Hhit H2d' Hna) as (Hmid & Hx & Hy & E). exists (na - (x0 + m))%nat, (nb - (y0 + m))%nat, m.
       split; [|done]. rewrite E. repeat (f_equal; try lia). }
  cbn [rbind]. assert (dist a b <> 2 * d)%nat as Hne.
  { intros E2. destruct (must_meet a b d d) as (i & Hi & Hr & Hmeet); [by eapply holds_reached|by eapply holds_reached|lia|].
    destruct dist_parity as [q Hq]. assert (delta a b - diag d i = diag d (Z.to_nat ((delta a b - diag d i + Z.of_nat d) / 2))) as Hidx.
    { unfold diag in *. div_lia. }
    apply (Hmr (Z.to_nat ((delta a b - diag d i + Z.of_nat d) / 2))); [unfold diag in *; div_lia|exists (q + Z.of_nat d); lia|rewrite <- Hidx; unfold diag in *; lia|].
    rewrite <- Hidx. by replace (delta a b - (delta a b - diag d i)) with (diag d i) by lia. }
  replace (Z.of_nat d + 1) with (Z.of_nat (S d)) by lia. apply IH; try done; try lia.
Qed.
End phases.

Section results.
Context {T : Type} `{EqDecision T}.
Implicit Types a b : list T.

Lemma middleSnake_spec a b : len a + len b < 2 ^ 31 - 2 -> (0 < length a)%nat -> (0 < length b)%nat ->
  exists x y m, middleSnake a b = Ok (Z.of_nat (dist a b), Z.of_nat x, Z.of_nat y, Z.of_nat (x + m), Z.of_nat (y + m)) /\ middle a b (dist a b) x y m.
Proof.
  intros Hs Ha Hb. pose proof (len_nonneg a). pose proof (len_nonneg b). unfold middleSnake, len in *. set (maxe := Z.of_nat (length a) + Z.of_nat (length b)) in *.
  assert (int32 maxe = maxe) as -> by (unfold int32; rewrite Z.mod_small by lia; lia).
  assert (int32 (maxe + 2) = maxe + 2) as -> by (unfold int32; rewrite Z.mod_small by lia; lia).
  unfold make. rewrite (proj2 (Z.ltb_ge (maxe + 2) 0)) by lia. cbn [rbind]. fold (len (replicate (Z.to_nat (maxe + 2)) 0)). rewrite len_replicate, Z2Nat.id by lia.
  assert (forall sm off, 0 <= off + 1 < maxe + 2 -> before sm off (maxe + 2) 0 (replicate (Z.to_nat (maxe + 2)) 0)) as Hbefore.
  { intros sm off Hoff. split; [rewrite len_replicate; lia|]. apply zget_replicate. lia. }
  rewrite (Z.quot_div_nonneg (maxe + 2)), (Z.quot_div_nonneg maxe), (Z.rem_mod_nonneg maxe) by lia.
  destruct (dist_lcs a b) as (l & _ & El).
  set (halfway := if negb (maxe mod 2 =? 0) then maxe / 2 + 1 else maxe / 2).
  assert (maxe <= 2 * halfway <= maxe + 1) as Hh by (unfold halfway; destruct (negb (maxe mod 2 =? 0)) eqn:Eodd; bool_to_prop; div_lia).
  apply (middle_loop_spec a b ((maxe + 2) / 2) (maxe + 2) ltac:(unfold len; lia) ltac:(unfold len; lia) halfway _ 0); try apply Hbefore; div_lia.
Qed.

Lemma zslice_nat (l : list T) i j : (i <= j <= length l)%nat -> zslice l (Z.of_nat i) (Z.of_nat j) = Ok (take (j - i) (drop i l)).
Proof. intros Hij. rewrite zslice_Ok by (unfold len; lia). do 3 f_equal; lia. Qed.

Lemma zslice_prefix (l : list T) j : (j <= length l)%nat -> zslice l 0 (Z.of_nat j) = Ok (take j l).
Proof.
  intros Hj. change (zslice l (Z.of_nat 0) (Z.of_nat j) = Ok (take j l)). rewrite zslice_nat by lia. by rewrite Nat.sub_0_r.
Qed.

Lemma zslice_suffix (l : list T) i : (i <= length l)%nat -> zslice l (Z.of_nat i) (len l) = Ok (drop i l).
Proof. intros Hi. unfold len. rewrite zslice_nat by lia. by rewrite take_ge by (rewrite length_drop; lia). Qed.

(** The matches of a snake are the same elements of both slices. *)
Lemma snake_same a b x y m : (forall i, (i < m)%nat -> same a b (x + i) (y + i) = true) -> (x + m <= length a)%nat -> (y + m <= length b)%nat ->
  take m (drop x a) = take m (drop y b).
Proof.
  intros Hs Hx Hy. apply list_eq. intros i. destruct (decide (i < m)%nat) as [Hi|Hi].
  - rewrite !lookup_take_lt, !lookup_drop by done. specialize (Hs i Hi). unfold same in Hs.
    destruct (a !! (x + i)%nat), (b !! (y + i)%nat); try done. by apply bool_decide_eq_true in Hs as ->.
  - rewrite !lookup_ge_None_2; [done|rewrite length_take; lia|rewrite length_take; lia].
Qed.

(** Joining longest common subsequences of the two sides of the middle. *)
Lemma middle_length a b D x y m n1 n2 n : middle a b D x y m -> lcs_length n1 (take x a) (take y b) ->
  lcs_length n2 (drop (x + m) a) (drop (y + m) b) -> lcs_length n a b -> (n1 + m + n2 = n)%nat.
Proof.
  intros [HD Hx Hy _ He Hr _ _ _] H1 H2 Hn. destruct (dist_lcs a b) as (n' & Hn' & En).
  destruct (ed_lcs a b x y) as (n1' & H1' & E1); [lia|lia|]. destruct (rd_lcs a b (x + m) (y + m)) as (n2' & H2' & E2); [lia|lia|].
  rewrite (lcs_length_unique _ _ _ _ Hn Hn'), (lcs_length_unique _ _ _ _ H1 H1'), (lcs_length_unique _ _ _ _ H2 H2').
  assert (Nat.div (D + 1) 2 + Nat.div D 2 = D)%nat; [|lia]. clear. pose proof (Nat.div_mod_eq (D + 1) 2). pose proof (Nat.div_mod_eq D 2).
  pose proof (Nat.mod_upper_bound (D + 1) 2). pose proof (Nat.mod_upper_bound D 2). lia.
Qed.

(** Both sides are smaller than the whole when there are two edits or more. *)
Lemma middle_smaller a b D x y m : middle a b D x y m -> (2 <= D)%nat -> (0 < x + y)%nat /\ (x + m + (y + m) < length a + length b)%nat.
Proof.
  intros [HD Hx Hy _ He Hr _ _ _] H2. assert (1 <= Nat.div (D + 1) 2 /\ 1 <= Nat.div D 2)%nat as [H1 H1'].
  { split; apply Nat.div_le_lower_bound; lia. }
  split.
  - destruct (decide (x + y = 0)%nat); [|lia]. assert (x = 0 /\ y = 0)%nat as [-> ->] by lia. unfold ed in He. cbn [e] in He. lia.
  - destruct (decide (x + m = length a /\ y + m = length b)%nat) as [[Ex Ey]|]; [|lia].
    rewrite Ex, Ey in Hr. unfold rd in Hr. rewrite !Nat.sub_diag in Hr. unfold ed in Hr. cbn [e] in Hr. lia.
Qed.

Lemma small_dist a b : (dist a b <= 1)%nat -> is_LCS (if len a <? len b then a else b) a b.
Proof.
  intros HD. destruct (dist_lcs a b) as (n & Hn & En). pose proof (lcs_length_le _ _ _ Hn). rewrite (is_LCS_length _ _ _ _ Hn).
  destruct Hn as [(c & [Ha Hb] & Hl) _]. unfold len.
  assert (forall l : list T, c `sublist_of` l -> length c = length l -> c = l) as Heq.
  { clear. intros l Hs. induction Hs as [|x c l Hs IH|x c l Hs IH]; cbn; intros Hl; [done|by rewrite IH by lia|].
    apply sublist_length in Hs. lia. }
  destruct (Z.ltb_spec (Z.of_nat (length a)) (Z.of_nat (length b))).
  - assert (c = a) as -> by (apply Heq; [done|lia]). by split.
  - assert (c = b) as -> by (apply Heq; [done|lia]). by split.
Qed.

Lemma myersLCS_spec fuel : forall a b, len a + len b < 2 ^ 31 - 2 -> (length a + length b < fuel)%nat ->
  exists c, myersLCS_rec fuel a b = Ok c /\ is_LCS c a b.
Proof.
  induction fuel as [|fuel IH]; intros a b Hs Hf; [lia|]. cbn [myersLCS_rec]. unfold len in Hs.
  destruct ((len a =? 0) || (len b =? 0)) eqn:E0; bool_to_prop.
  - exists []. split; [done|]. apply is_LCS_nil_cases; [|done]. unfold len in E0. destruct a, b; cbn in *; auto; destruct E0 as [E0|E0]; bool_to_prop; lia.
  - unfold len in *. destruct (middleSnake_spec a b) as (x & y & m & -> & Hmid); [unfold len; lia|lia|lia|]. cbn [rbind].
    pose proof (mid_x _ _ _ _ _ _ Hmid). pose proof (mid_y _ _ _ _ _ _ Hmid).
    destruct (Z.ltb_spec 1 (Z.of_nat (dist a b))) as [HD|HD].
    + destruct (middle_smaller _ _ _ _ _ _ Hmid) as [Hxy Hle]; [lia|].
      rewrite !zslice_prefix by lia. cbn [rbind]. destruct (IH (take x a) (take y b)) as (c1 & -> & Hc1); [unfold len; rewrite !length_take; lia|rewrite !length_take; lia|].
      cbn [rbind]. rewrite zslice_nat by lia. cbn [rbind]. fold (len a) (len b). rewrite !zslice_suffix by lia. cbn [rbind].
      destruct (IH (drop (x + m) a) (drop (y + m) b)) as (c2 & -> & Hc2); [unfold len; rewrite !length_drop; lia|rewrite !length_drop; lia|].
      cbn [rbind]. replace (x + m - x)%nat with m by lia. exists (c1 ++ take m (drop x a) ++ c2). split; [done|].
      destruct (lcs_length_exists a b) as [n Hn]. rewrite (is_LCS_length _ _ _ _ Hn).
      destruct (lcs_length_exists (take x a) (take y b)) as [n1 Hn1], (lcs_length_exists (drop (x + m) a) (drop (y + m) b)) as [n2 Hn2].
      apply (is_LCS_length _ _ _ _ Hn1) in Hc1 as [[A1 B1] L1]. apply (is_LCS_length _ _ _ _ Hn2) in Hc2 as [[A2 B2] L2].
      pose proof (middle_length _ _ _ _ _ _ _ _ _ Hmid Hn1 Hn2 Hn) as Hsum. split.
      * split.
        -- rewrite <- (take_drop x a) at 2. apply sublist_app; [done|]. rewrite <- (take_drop m (drop x a)) at 2. apply sublist_app; [done|]. by rewrite drop_drop.
        -- rewrite (snake_same a b x y m) by (try done; apply Hmid). rewrite <- (take_drop y b) at 2. apply sublist_app; [done|].
           rewrite <- (take_drop m (drop y b)) at 2. apply sublist_app; [done|]. by rewrite drop_drop.
      * rewrite !length_app, length_take, length_drop. lia.
    + pose proof (small_dist a b ltac:(lia)) as Hl. unfold len in Hl. destruct (_ <? _); by eexists.
Qed.

(** *** The edit script

    Myers' deletions carry a position in the second slice that [Apply] does not
    read; [loose] forgets it. *)
Definition loose (e : Edit T) : Edit T := match Op e with Delete => MkEdit Delete (EA e) 0 (Val e) | _ => e end.

(** [es] continues every script that has come to (i, j) to (i', j'). *)
Definition seg a b (i j i' j' : nat) (es : EditScript T) : Prop :=
  exists es1, loose <$> es1 = loose <$> es /\ forall es0, script a b i j es0 -> script a b i' j' (es0 ++ es1).

Lemma seg_nil a b i j : seg a b i j i j [].
Proof. exists []. split; [done|]. intros es0. by rewrite app_nil_r. Qed.

Lemma seg_app a b i j i1 j1 i2 j2 es es' : seg a b i j i1 j1 es -> seg a b i1 j1 i2 j2 es' -> seg a b i j i2 j2 (es ++ es').
Proof.
  intros (l1 & E1 & H1) (l2 & E2 & H2). exists (l1 ++ l2). split; [by rewrite !fmap_app, E1, E2|].
  intros es0 H0. rewrite app_assoc. by apply H2, H1.
Qed.

Lemma seg_cons a b i j i1 j1 i2 j2 e e1 es : loose e = loose e1 -> (forall es0, script a b i j es0 -> script a b i1 j1 (es0 ++ [e1])) ->
  seg a b i1 j1 i2 j2 es -> seg a b i j i2 j2 (e :: es).
Proof. intros He H1. apply (seg_app a b i j i1 j1 i2 j2 [e] es). exists [e1]. cbn. by rewrite He. Qed.

Lemma seg_identical a b i j vals : forall t, (forall p v, vals !! p = Some v -> a !! (i + t + p)%nat = Some v /\ b !! (j + t + p)%nat = Some v) ->
  seg a b (i + t) (j + t) (i + t + length vals) (j + t + length vals) (edits_from (Z.of_nat t) vals Identical (Z.of_nat i) (Z.of_nat j)).
Proof.
  induction vals as [|v vals IH]; intros t Hv; cbn [edits_from length]; [rewrite !Nat.add_0_r; apply seg_nil|].
  destruct (Hv 0%nat v eq_refl) as [Ha Hb]. rewrite Nat.add_0_r in Ha, Hb. eapply seg_cons; [reflexivity|..].
  - intros es0 H0. rewrite <- !Nat2Z.inj_add. by apply script_identical.
  - replace (Z.of_nat t + 1) with (Z.of_nat (S t)) by lia. specialize (IH (S t)).
    replace (i + t + S (length vals))%nat with (i + S t + length vals)%nat by lia. replace (j + t + S (length vals))%nat with (j + S t + length vals)%nat by lia.
    rewrite <- !plus_n_Sm in *. apply IH. intros p w Hp. specialize (Hv (S p) w Hp). by rewrite <- !plus_n_Sm in Hv.
Qed.

Lemma seg_insert a b i j vals : forall t, (forall p v, vals !! p = Some v -> b !! (j + t + p)%nat = Some v) ->
  seg a b i (j + t) i (j + t + length vals) (edits_from (Z.of_nat t) vals Insert (Z.of_nat i) (Z.of_nat j)).
Proof.
  induction vals as [|v vals IH]; intros t Hv; cbn [edits_from length]; [rewrite !Nat.add_0_r; apply seg_nil|].
  pose proof (Hv 0%nat v eq_refl) as Hb. rewrite Nat.add_0_r in Hb. eapply seg_cons; [reflexivity|..].
  - intros es0 H0. rewrite <- !Nat2Z.inj_add. by apply script_insert.
  - replace (Z.of_nat t + 1) with (Z.of_nat (S t)) by lia. specialize (IH (S t)). rewrite <- !plus_n_Sm in *. apply IH.
    intros p w Hp. specialize (Hv (S p) w Hp). by rewrite <- !plus_n_Sm in Hv.
Qed.

Lemma seg_delete a b i j vals : forall t, (forall p v, vals !! p = Some v -> a !! (i + t + p)%nat = Some v) ->
  seg a b (i + t) j (i + t + length vals) j (edits_from (Z.of_nat t) vals Delete (Z.of_nat i) (Z.of_nat j)).
Proof.
  induction vals as [|v vals IH]; intros t Hv; cbn [edits_from length]; [rewrite !Nat.add_0_r; apply seg_nil|].
  pose proof (Hv 0%nat v eq_refl) as Ha. rewrite Nat.add_0_r in Ha.
  eapply (seg_cons _ _ _ _ (S (i + t)) j _ _ _ (MkEdit Delete (Z.of_nat (i + t)) (Z.of_nat j) v)).
  - rewrite Nat2Z.inj_add. reflexivity.
  - intros es0 H0. by apply script_delete.
  - replace (Z.of_nat t + 1) with (Z.of_nat (S t)) by lia. specialize (IH (S t)). rewrite <- !plus_n_Sm in *. apply IH.
    intros p w Hp. specialize (Hv (S p) w Hp). by rewrite <- !plus_n_Sm in Hv.
Qed.

Lemma kept_concat (es es' : EditScript T) : kept (es ++ es') = kept es ++ kept es'.
Proof. unfold kept. by rewrite list.filter_app, fmap_app. Qed.

Lemma kept_edits i (vals : list T) op cx cy : kept (edits_from i vals op cx cy) = match op with Identical => vals | _ => [] end.
Proof.
  revert i. induction vals as [|v vals IH]; intros i; [by destruct op|]. cbn [edits_from].
  match goal with |- kept (?x :: ?l) = _ => change (x :: l) with ([x] ++ l) end. rewrite kept_concat, IH. by destruct op.
Qed.

Lemma kept_loose (es es' : EditScript T) : loose <$> es = loose <$> es' -> kept es = kept es'.
Proof.
  assert (forall l : EditScript T, kept (loose <$> l) = kept l) as Hk.
  { intros l. induction l as [|e l IH]; [done|]. rewrite fmap_cons. change (loose e :: (loose <$> l)) with ([loose e] ++ (loose <$> l)).
    change (e :: l) with ([e] ++ l). rewrite !kept_concat, IH. f_equal. by destruct e as [[]]. }
  intros He. by rewrite <- Hk, He, Hk.
Qed.

Lemma cost_loose (es es' : EditScript T) : loose <$> es = loose <$> es' -> cost es = cost es'.
Proof.
  revert es'. induction es as [|e es IH]; intros [|e' es'] He; try done. injection He as He Hes. unfold cost in *. rewrite !list.filter_cons.
  assert (is_identical e = is_identical e') as Hi by (destruct e as [[]], e' as [[]]; by injection He).
  specialize (IH _ Hes). rewrite Hi. destruct (decide (is_identical e' = false)); cbn; lia.
Qed.

Lemma Apply_loose (es es' : EditScript T) a : loose <$> es = loose <$> es' -> Apply es a = Apply es' a.
Proof.
  intros He. assert (forall acc, Apply_loop es a acc = Apply_loop es' a acc) as Hl.
  { revert es' He. induction es as [|e es IH]; intros [|e' es'] He acc; try done. injection He as He Hes. specialize (IH _ Hes).
    destruct e as [[] ea eb v], e' as [[] ea' eb' v']; try (by injection He); cbn [Apply_loop Op EA Val] in *; injection He; intros; subst; try apply IH.
    destruct (checked (zget a ea')); [cbn [rbind]; apply IH|done|done]. }
  destruct es as [|e es], es' as [|e' es']; try done. apply Hl.
Qed.

(** When one slice is the other with one element more at its end. *)
Lemma one_more a b x y : middle a b 1 x y 0 -> 
  ((length b = S (length a) /\ take (length a) b = a) \/ (length a = S (length b) /\ take (length b) a = b)).
Proof.
  intros [HD Hx Hy _ He Hr _ H1 Hend]. rewrite !Nat.add_0_r in *. specialize (H1 eq_refl). specialize (Hend eq_refl).
  change (Nat.div 1 2) with 0%nat in Hr.
  assert (forall sm i, e sm i i = 0%nat -> forall j, (j < i)%nat -> sm j j = true) as Hall.
  { clear. intros sm i. induction i as [|i IH]; intros He j Hj; [lia|]. rewrite e_SS in He. destruct (sm i i) eqn:Es; [|lia].
    destruct (decide (j = i)) as [->|]; [done|]. apply IH; [done|lia]. }
  assert (x = length a /\ y = length b) as [-> ->].
  { unfold rd, ed in Hr. pose proof (e_lower (same (reverse a) (reverse b)) (length a - x) (length b - y)).
    destruct (decide (x = length a)) as [->|Hne]; [split; [done|lia]|exfalso].
    assert (length b - y = length a - x)%nat as Eq by lia. rewrite Eq in Hr. pose proof (Hall _ _ Hr (length a - S x)%nat ltac:(lia)) as Hs.
    replace (length a - S x)%nat with (length b - S y)%nat in Hs at 2 by lia. rewrite same_reverse in Hs by lia.
    replace (length a - S (length a - S x))%nat with x in Hs by lia. replace (length b - S (length b - S y))%nat with y in Hs by lia. congruence. }
  assert (forall i, (i <= length a)%nat -> (i <= length b)%nat -> e (same a b) i i = 0%nat -> take i a = take i b) as Htake.
  { intros i Hia Hib E. pose proof (snake_same a b 0 0 i) as Hs. cbn in Hs. apply Hs; [by apply Hall|done|done]. }
  destruct H1 as [(x' & Ex & Ee)|(y' & Ey & Ee)].
  - right. pose proof (e_lower (same a b) x' (length b)). assert (x' = length b) as -> by lia. split; [done|].
    rewrite Htake; [by rewrite take_ge|lia|lia|lia].
  - left. pose proof (e_lower (same a b) (length a) y'). assert (y' = length a) as -> by lia. split; [done|].
    rewrite <- Htake; [by rewrite take_ge|lia|lia|lia].
Qed.

(** The part of a slice [ses] works on. *)
Definition window (l : list T) (c n : nat) : list T := take n (drop c l).

Lemma window_length l c n : (c + n <= length l)%nat -> length (window l c n) = n.
Proof. intros Hc. unfold window. rewrite length_take, length_drop. lia. Qed.

Lemma window_lookup l c n p v : window l c n !! p = Some v -> l !! (c + p)%nat = Some v.
Proof. unfold window. intros Hp. pose proof (lookup_lt_Some _ _ _ Hp) as Hl. rewrite length_take in Hl. rewrite lookup_take_lt, lookup_drop in Hp by lia. done. Qed.

Lemma window_take l c n k : (k <= n)%nat -> take k (window l c n) = window l c k.
Proof. intros Hk. unfold window. rewrite take_take. by rewrite Nat.min_l. Qed.

Lemma window_drop l c n k : (k <= n)%nat -> drop k (window l c n) = window l (c + k) (n - k).
Proof. intros Hk. unfold window. by rewrite skipn_firstn_comm, drop_drop. Qed.

Lemma seg_window_identical a b i j k l : window a i k = l -> window b j k = l -> length l = k -> seg a b i j (i + k) (j + k) (edits l Identical (Z.of_nat i) (Z.of_nat j)).
Proof.
  intros Ha Hb <-. pose proof (seg_identical a b i j l 0) as Hs. rewrite !Nat.add_0_r in Hs. apply Hs. intros p v Hp.
  split; eapply window_lookup; [by rewrite Ha|by rewrite Hb].
Qed.

Lemma ses_spec a b fuel : forall cx cy na nb, (cx + na <= length a)%nat -> (cy + nb <= length b)%nat -> (na + nb < fuel)%nat ->
  Z.of_nat na + Z.of_nat nb < 2 ^ 31 - 2 ->
  exists es, ses fuel (window a cx na) (window b cy nb) (Z.of_nat na) (Z.of_nat nb) (Z.of_nat cx) (Z.of_nat cy) = Ok es /\
    seg a b cx cy (cx + na) (cy + nb) es /\ lcs_length (length (kept es)) (window a cx na) (window b cy nb).
Proof.
  induction fuel as [|fuel IH]; intros cx cy na nb Ha Hb Hf Hs; [lia|]. cbn [ses]. set (wa := window a cx na). set (wb := window b cy nb).
  assert (length wa = na) as La by (by apply window_length). assert (length wb = nb) as Lb by (by apply window_length).
  destruct ((0 <? Z.of_nat na) && (0 <? Z.of_nat nb)) eqn:E0; bool_to_prop.
  2: { destruct (Z.ltb_spec 0 (Z.of_nat na)) as [Hna|Hna].
       - assert (nb = 0)%nat as -> by (destruct E0; bool_to_prop; lia). exists (edits wa Delete (Z.of_nat cx) (Z.of_nat cy)). split; [done|]. split.
         + pose proof (seg_delete a b cx cy wa 0) as Hd. rewrite !Nat.add_0_r, La in Hd. rewrite Nat.add_0_r. apply Hd. intros p v. apply window_lookup.
         + unfold edits. rewrite kept_edits. change wb with (@nil T). apply lcs_length_nil_r.
       - assert (na = 0)%nat as -> by lia. exists (edits wb Insert (Z.of_nat cx) (Z.of_nat cy)). split; [done|]. split.
         + pose proof (seg_insert a b cx cy wb 0) as Hd. rewrite !Nat.add_0_r, Lb in Hd. rewrite Nat.add_0_r. apply Hd. intros p v. apply window_lookup.
         + unfold edits. rewrite kept_edits. change wa with (@nil T). apply lcs_length_nil_l. }
  destruct (middleSnake_spec wa wb) as (x & y & m & -> & Hmid); [unfold len; lia|lia|lia|]. cbn [rbind].
  pose proof (mid_x _ _ _ _ _ _ Hmid) as Hx. pose proof (mid_y _ _ _ _ _ _ Hmid) as Hy. rewrite La in Hx. rewrite Lb in Hy.
  set (onx := negb (Z.of_nat x =? Z.of_nat (x + m)) && negb (Z.of_nat y =? Z.of_nat (y + m))).
  assert (onx = negb (m =? 0)%nat) as Honx.
  { unfold onx. destruct (Nat.eqb_spec m 0) as [->|Hm]; [by rewrite !Nat.add_0_r, !Z.eqb_refl|]. by rewrite !(proj2 (Z.eqb_neq _ _)) by lia. }
  destruct (lcs_length_exists wa wb) as [n Hn]. destruct ((1 <? Z.of_nat (dist wa wb)) || onx) eqn:Ec; [apply orb_true_iff in Ec|apply orb_false_iff in Ec as [Ec Em]].
  - assert (x + y < na + nb /\ (na - (x + m)) + (nb - (y + m)) < na + nb)%nat as [Hl1 Hl2].
    { destruct (decide (m = 0)%nat) as [->|]; [|lia]. destruct Ec as [Ec|Ec]; [bool_to_prop|by rewrite Honx in Ec].
      destruct (middle_smaller _ _ _ _ _ _ Hmid); [lia|]. lia. }
    rewrite !zslice_prefix by lia. cbn [rbind]. unfold wa at 1, wb at 1. rewrite !window_take by lia.
    destruct (IH cx cy x y) as (s1 & -> & Hs1 & K1); [lia|lia|lia|lia|]. cbn [rbind].
    assert (window a (cx + x) m = take m (drop x wa) /\ window b (cy + y) m = take m (drop x wa)) as [Wa Wb].
    { rewrite (snake_same wa wb x y m) at 2 by (try apply Hmid; lia). unfold wa, wb. rewrite !window_drop, !window_take by lia. done. }
    assert (exists s2, (if onx then let! mid := zslice wa (Z.of_nat x) (Z.of_nat (x + m)) in Ok (edits mid Identical (Z.of_nat cx + Z.of_nat x) (Z.of_nat cy + Z.of_nat y)) else Ok []) = Ok s2 /\
      seg a b (cx + x) (cy + y) (cx + x + m) (cy + y + m) s2 /\ kept s2 = take m (drop x wa)) as (s2 & -> & Hs2 & K2).
    { rewrite Honx. destruct (Nat.eqb_spec m 0) as [->|Hm]; cbn [negb].
      - exists []. rewrite !Nat.add_0_r. split_and!; [done|apply seg_nil|done].
      - rewrite zslice_nat by lia. cbn [rbind]. replace (x + m - x)%nat with m by lia. rewrite <- !Nat2Z.inj_add. eexists. split; [done|]. split.
        + apply seg_window_identical; [done|done|]. rewrite length_take, length_drop. lia.
        + unfold edits. by rewrite kept_edits. }
    cbn [rbind]. rewrite !zslice_nat by lia. cbn [rbind]. unfold wa at 1, wb at 1. rewrite !window_drop, !window_take by lia.
    rewrite <- !Nat2Z.inj_sub, <- !Nat2Z.inj_add by lia.
    destruct (IH (cx + (x + m))%nat (cy + (y + m))%nat (na - (x + m))%nat (nb - (y + m))%nat) as (s3 & -> & Hs3 & K3); [lia|lia|lia|lia|]. cbn [rbind].
    exists (s1 ++ s2 ++ s3). split; [done|]. split.
    + eapply seg_app; [exact Hs1|]. eapply seg_app; [exact Hs2|]. rewrite <- !Nat.add_assoc.
      replace (cx + na)%nat with (cx + (x + m) + (na - (x + m)))%nat by lia. replace (cy + nb)%nat with (cy + (y + m) + (nb - (y + m)))%nat by lia. exact Hs3.
    + rewrite !kept_concat, !length_app, K2. rewrite <- (window_take a cx na), <- (window_take b cy nb) in K1 by lia.
      rewrite <- (window_drop a cx na), <- (window_drop b cy nb) in K3 by lia.
      pose proof (middle_length _ _ _ _ _ _ _ _ _ Hmid K1 K3 Hn) as Hsum. replace (length (take m (drop x wa))) with m by (rewrite length_take, length_drop; lia).
      by rewrite Nat.add_assoc, Hsum.
  - rewrite Honx in Em. apply negb_false_iff, Nat.eqb_eq in Em. subst m. bool_to_prop.
    assert (dist wa wb = 1)%nat as ED. { pose proof (mid_0 _ _ _ _ _ _ Hmid). lia. }
    rewrite ED in Hmid. destruct (one_more _ _ _ _ Hmid) as [[El Et]|[El Et]]; rewrite ?La, ?Lb in El, Et.
    + rewrite (proj2 (Z.ltb_lt _ _)), zslice_prefix, zslice_nat by lia. cbn [rbind]. rewrite (take_ge wa) by lia.
      unfold wb at 1. rewrite window_drop, window_take by lia. rewrite <- Nat2Z.inj_sub, <- !Nat2Z.inj_add by lia.
      destruct (IH (cx + na)%nat (cy + na)%nat 0%nat (nb - na)%nat) as (s & Es & Hs3 & K3); [lia|lia|lia|lia|].
      change (window a (cx + na) 0) with (@nil T) in *. change (Z.of_nat 0) with 0 in Es. rewrite Es. cbn [rbind]. eexists. split; [done|]. split.
      * eapply seg_app; [apply (seg_window_identical a b cx cy na wa); [done| |done]|].
        -- unfold wb in Et. by rewrite window_take in Et by lia.
        -- rewrite Nat.add_0_r in Hs3. by replace (cy + na + (nb - na))%nat with (cy + nb)%nat in Hs3 by lia.
      * rewrite kept_concat. unfold edits. rewrite kept_edits, length_app. pose proof (lcs_length_le _ _ _ K3) as [Hk _]. cbn in Hk.
        pose proof (small_dist wa wb ltac:(lia)) as Hsm. unfold len in Hsm. rewrite (proj2 (Z.ltb_lt _ _)) in Hsm by lia.
        apply (is_LCS_length _ _ _ _ Hn) in Hsm as [_ <-]. replace (length wa + length (kept s))%nat with (length wa) by lia. exact Hn.
    + rewrite (proj2 (Z.ltb_ge _ _)), (proj2 (Z.ltb_lt _ _)), zslice_prefix, zslice_nat by lia. cbn [rbind]. rewrite (take_ge wb) by lia.
      unfold wa at 1. rewrite window_drop, window_take by lia. rewrite <- Nat2Z.inj_sub, <- !Nat2Z.inj_add by lia.
      destruct (IH (cx + nb)%nat (cy + nb)%nat (na - nb)%nat 0%nat) as (s & Es & Hs3 & K3); [lia|lia|lia|lia|].
      change (window b (cy + nb) 0) with (@nil T) in *. change (Z.of_nat 0) with 0 in Es. rewrite Es. cbn [rbind]. eexists. split; [done|]. split.
      * eapply seg_app; [apply (seg_window_identical a b cx cy nb wb); [|done|done]|].
        -- unfold wa in Et. by rewrite window_take in Et by lia.
        -- rewrite Nat.add_0_r in Hs3. by replace (cx + nb + (na - nb))%nat with (cx + na)%nat in Hs3 by lia.
      * rewrite kept_concat. unfold edits. rewrite kept_edits, length_app. pose proof (lcs_length_le _ _ _ K3) as [_ Hk]. cbn in Hk.
        pose proof (small_dist wa wb ltac:(lia)) as Hsm. unfold len in Hsm. rewrite (proj2 (Z.ltb_ge _ _)) in Hsm by lia.
        apply (is_LCS_length _ _ _ _ Hn) in Hsm as [_ <-]. replace (length wb + length (kept s))%nat with (length wb) by lia. exact Hn.
Qed.
End results.

(** C32: [Myers.LCS] terminates without a panic and returns a longest common
    subsequence, of the same length as that of the dynamic-programming algorithm:
    the two searches meet on a shortest path whenever the lengths fit the int32
    the algorithm works with. *)
Theorem Myers_LCS_longest {T} `{EqDecision T} (a b : list T) (Hlen : len a + len b < 2 ^ 31 - 2) :
  exists c, M_LCS (NewMyers a b) = Ok c /\ is_LCS c a b /\
    forall dp c', LCS (NewDP a b) = Ok (dp, c') -> length c' = length c.
Proof.
  destruct (myersLCS_spec (S (length a + length b)) a b Hlen) as (c & E & Hc); [lia|]. exists c. split_and!; [done|done|].
  intros dp c' E'. pose proof (len_nonneg b). destruct (fill_NewDP a b) as (dp' & Ef & Hd); [unfold len in *; lia|].
  destruct (backtrack_spec a b dp' (S (length a + length b)) (length a) (length b)) as (c2 & Ec & Hc2); [done|lia..|].
  rewrite !take_ge in Hc2 by lia. unfold LCS, backtrack in E'. rewrite Ef in E'. cbn [rbind] in E'.
  rewrite (fd_a _ _ _ Hd), (fd_b _ _ _ Hd), Ec in E'. cbn [rbind] in E'. injection E' as <- <-.
  destruct (lcs_length_exists a b) as [n Hn]. apply (is_LCS_length _ _ _ _ Hn) in Hc as [_ ->]. by apply (is_LCS_length _ _ _ _ Hn) in Hc2 as [_ ->].
Qed.

Lemma Myers_LCS_longest_witness :
  len [1; 2; 3; 1; 2; 2; 1] + len [3; 2; 1; 2; 1; 3] < 2 ^ 31 - 2 /\
  exists c, M_LCS (NewMyers [1; 2; 3; 1; 2; 2; 1] [3; 2; 1; 2; 1; 3]) = Ok c /\ is_LCS c [1; 2; 3; 1; 2; 2; 1] [3; 2; 1; 2; 1; 3] /\ length c = 4%nat.
Proof.
  assert (len [1; 2; 3; 1; 2; 2; 1] + len [3; 2; 1; 2; 1; 3] < 2 ^ 31 - 2) as Hlen by (vm_compute; reflexivity). split; [exact Hlen|].
  destruct (Myers_LCS_longest [1; 2; 3; 1; 2; 2; 1] [3; 2; 1; 2; 1; 3] Hlen) as (c & E & Hc & _). exists c. split; [exact E|]. split; [exact Hc|].
  vm_compute in E. injection E as <-. reflexivity.
Defined.

(** [Myers.SES] terminates without a panic and returns a shortest edit
    script: up to the positions in the second slice that its deletions carry it is
    a script as documented, replaying it with [Apply] turns the first slice into
    the second, what it keeps is a longest common subsequence, and no script has
    fewer insertions and deletions. *)
Theorem Myers_SES_shortest {T} `{EqDecision T} (a b : list T) (Hlen : len a + len b < 2 ^ 31 - 2) :
  exists es es1, M_SES (NewMyers a b) = Ok es /\ loose <$> es1 = loose <$> es /\ script a b (length a) (length b) es1 /\
    Apply es a = Ok b /\ is_LCS (kept es) a b /\
    forall es', script a b (length a) (length b) es' -> (cost es <= cost es')%nat.
Proof.
  pose proof (len_nonneg a). pose proof (len_nonneg b). unfold M_SES. cbn [my_a my_b NewMyers]. rewrite !int32_len by lia. unfold len in *.
  destruct (ses_spec a b (S (S (length a + length b))) 0 0 (length a) (length b)) as (es & E & (es1 & El & Hs) & Hk); [done|done|lia|lia|].
  unfold window in *. cbn [drop] in *. rewrite !take_ge in E, Hk by done. cbn [Nat.add] in *.
  specialize (Hs [] (script_nil a b)). cbn [app] in Hs. exists es, es1. split; [exact E|]. split; [done|]. split; [done|].
  assert (is_LCS (kept es) a b) as Hlcs.
  { apply (is_LCS_length _ _ _ _ Hk). split; [|done]. rewrite <- (kept_loose _ _ El). pose proof (script_kept _ _ _ _ _ Hs) as Hc. by rewrite !take_ge in Hc. }
  split_and!; [by rewrite <- (Apply_loose _ _ a El), (script_Apply _ _ _ Hs)|done|].
  intros es' Hs'. rewrite <- (cost_loose _ _ El). pose proof (script_cost _ _ _ _ _ Hs) as C1. pose proof (script_cost _ _ _ _ _ Hs') as C2.
  pose proof (script_kept _ _ _ _ _ Hs') as Hc. rewrite !take_ge in Hc by lia. pose proof (proj2 Hlcs _ Hc). rewrite <- (kept_loose _ _ El) in *. lia.
Qed.

Lemma Myers_SES_shortest_witness :
  len [1; 2; 3] + len [2; 3; 4] < 2 ^ 31 - 2 /\
  exists es, M_SES (NewMyers [1; 2; 3] [2; 3; 4]) = Ok es /\ Apply es [1; 2; 3] = Ok [2; 3; 4] /\ cost es = 2%nat.
Proof.
  assert (len [1; 2; 3] + len [2; 3; 4] < 2 ^ 31 - 2) as Hlen by (vm_compute; reflexivity). split; [exact Hlen|].
  destruct (Myers_SES_shortest [1; 2; 3] [2; 3; 4] Hlen) as (es & es1 & E & _ & _ & Ha & _). exists es. split; [exact E|]. split; [exact Ha|].
  vm_compute in E. injection E as <-. reflexivity.
Defined.
