(* ===== verification/Boolexpr.v ===== *)
(** * Boolean expressions (cmdutil/boolexpr)

    [Section items]: the expression builder and the evaluator of expression.go;
    the operands are supplied by clients through the [Operand] interface, a
    record of operations here.  [Section tokenizer]: the state machine of
    parser.go over runes, whose character classes (package unicode) are
    parameters.  [Section parser]: operands and values merged into items. *)

From stdpp Require Import base list option numbers gmap.
From Stdlib Require Import ZArith Lia.
From S2P Require Import Prelude.

Open Scope list_scope.
Open Scope Z_scope.
Open Scope go_scope.

(** ** Items *)

Inductive itemType := orOp | andOp | notOp | leftBracket | rightBracket | subExpression | operand.

#[global] Instance itemType_eq_dec : EqDecision itemType.
Proof. solve_decision. Defined.

(** The [Operand] interface. *)
Record Operand (V Ty Err : Type) := MkOperandOps {
  OpT : Type;
  Prepare : OpT -> Err + OpT;
  OpEval : OpT -> V -> bool;
  OpNeeds : OpT -> Ty -> bool;
}.
Arguments OpT {V Ty Err} o.
Arguments Prepare {V Ty Err} o op.
Arguments OpEval {V Ty Err} o op v.
Arguments OpNeeds {V Ty Err} o op ty.

Section items.
Context {V Ty Err : Type} (ops : Operand V Ty Err).

(** The operand of an item is an interface value, which may be nil. *)
Inductive Item := MkItem (typ : itemType) (sub : list Item) (op : option (OpT ops)).

Definition typ (it : Item) : itemType := let 'MkItem t _ _ := it in t.
Definition sub (it : Item) : list Item := let 'MkItem _ s _ := it in s.
Definition op (it : Item) : option (OpT ops) := let 'MkItem _ _ o := it in o.

Definition isOperator (it : Item) : bool := bool_decide (typ it = andOp) || bool_decide (typ it = orOp).
Definition isOperand (it : Item) : bool := bool_decide (typ it = operand) || bool_decide (typ it = subExpression).

Definition OR : Item := MkItem orOp [] None.
Definition AND : Item := MkItem andOp [] None.
Definition NOT : Item := MkItem notOp [] None.
Definition LeftBracket : Item := MkItem leftBracket [] None.
Definition RightBracket : Item := MkItem rightBracket [] None.
Definition NewOperandItem (o : OpT ops) : Item := MkItem operand [] (Some o).

(** The errors of the builder, with the item type they print. *)
Inductive error :=
| MissingLeftOperand (t : itemType)
| MissingPrecedingOperand (t : itemType)
| MisplacedNegation (t : itemType)
| MissingOperator (t : itemType)
| UnbalancedBrackets
| IncompleteExpression
| PrepareError (e : Err).

(** A Go result [(A, error)]. *)
Definition result (A : Type) : Type := error + A.

Definition newOperand (e : list Item) (o : option (OpT ops)) : res (result (list Item)) :=
  let! o := checked o in
  Ok (match Prepare ops o with
      | inl err => inl (PrepareError err)
      | inr o => inr (e ++ [NewOperandItem o])
      end).

Definition newBinaryOp (e : list Item) (cur : Item) : result (list Item) :=
  match last e with
  | None => inl (MissingLeftOperand (typ cur))
  | Some l => if negb (isOperand l) then inl (MissingPrecedingOperand (typ cur)) else inr (e ++ [cur])
  end.

Definition newUnaryOp (e : list Item) (cur : Item) : result (list Item) :=
  match last e with
  | Some l => if negb (isOperator l) then inl (MisplacedNegation (typ l)) else inr (e ++ [cur])
  | None => inr (e ++ [cur])
  end.

Definition beginSubExpression (e : list Item) (cur : Item) : result (list Item) :=
  match last e with
  | Some l => if negb (isOperator l) && negb (bool_decide (typ l = notOp))
              then inl (MissingOperator (typ cur)) else inr e
  | None => inr e
  end.

Definition endSubExpression (e : list Item) (cur : Item) : result (list Item) :=
  match last e with
  | None => inl (MissingLeftOperand (typ cur))
  | Some l => if negb (isOperand l) then inl (MissingPrecedingOperand (typ cur)) else inr e
  end.

(** [newExpression] with the loop's [expr]; the channel is the list of items not
    yet received, returned with the result. *)
Fixpoint newExpression (fuel : nat) (expr input : list Item) : res (result (list Item * list Item)) :=
  match fuel with
  | O => NoFuel
  | S fuel =>
      match input with
      | [] => Ok (inr (expr, []))
      | cur :: input =>
          let next (r : result (list Item)) :=
            match r with inl err => Ok (inl err) | inr expr => newExpression fuel expr input end in
          match typ cur with
          | operand => let! r := newOperand expr (op cur) in next r
          | andOp | orOp => next (newBinaryOp expr cur)
          | notOp => next (newUnaryOp expr cur)
          | leftBracket =>
              match beginSubExpression expr cur with
              | inl err => Ok (inl err)
              | inr expr =>
                  let! r := newExpression fuel [] input in
                  match r with
                  | inl err => Ok (inl err)
                  | inr (s, input) => newExpression fuel (expr ++ [MkItem subExpression s None]) input
                  end
              end
          | rightBracket =>
              Ok (match endSubExpression expr cur with inl err => inl err | inr expr => inr (expr, input) end)
          | subExpression => next (inr expr)
          end
      end
  end.

(** The bracket count of [New]; [None] is unbalanced. *)
Fixpoint balance (items : list Item) (balanced : Z) : option Z :=
  match items with
  | [] => Some balanced
  | it :: items =>
      if decide (typ it = leftBracket) then balance items (balanced + 1)
      else if decide (typ it = rightBracket)
      then if balanced =? 0 then None else balance items (balanced - 1)
      else balance items balanced
  end.

(** Structural on the item, as the Go recursion is. *)
Fixpoint incompleteItem (it : Item) : bool :=
  match it with
  | MkItem operand _ _ => false
  | MkItem subExpression sub _ =>
      match sub with
      | [] => false
      | [it] => incompleteItem it
      | [x; _] => negb (bool_decide (typ x = notOp))
      | _ => false
      end
  | _ => true
  end.

Definition incompleteExpression (items : list Item) : bool :=
  match items with
  | [] => false
  | [it] => incompleteItem it
  | [x; _] => negb (bool_decide (typ x = notOp))
  | _ => false
  end.

(** A [T] is its items. *)
Definition New (items : list Item) : res (result (list Item)) :=
  match items with
  | [] => Ok (inr [])
  | _ =>
      match balance items 0 with
      | Some 0 =>
          let! r := newExpression (S (length items)) [] items in
          Ok (match r with
              | inl err => inl err
              | inr (tree, _) => if incompleteExpression tree then inl IncompleteExpression else inr tree
              end)
      | _ => Ok (inl UnbalancedBrackets)
      end
  end.

(** *** Needs *)
Fixpoint needs_item (want : Ty) (it : Item) : res bool :=
  match it with
  | MkItem operand _ o => let! o := checked o in Ok (OpNeeds ops o want)
  | MkItem subExpression sub _ =>
      (fix needs (items : list Item) : res bool :=
         match items with
         | [] => Ok false
         | it :: items => let! b := needs_item want it in if b then Ok true else needs items
         end) sub
  | _ => Ok false
  end.

Fixpoint needs (want : Ty) (items : list Item) : res bool :=
  match items with
  | [] => Ok false
  | it :: items => let! b := needs_item want it in if b then Ok true else needs want items
  end.

Definition Needs (m : list Item) (want : Ty) : res bool := needs want m.

(** *** Evaluation *)

Record evaluator := MkEv { values : list bool; operators : list itemType }.

Definition pushVal (e : evaluator) (v : bool) : evaluator := MkEv (values e ++ [v]) (operators e).
Definition pushOp (e : evaluator) (it : itemType) : evaluator := MkEv (values e) (operators e ++ [it]).

(** The negation of the only value. *)
Definition eval_not (e : evaluator) : evaluator :=
  match values e, operators e with
  | [v], [notOp] => MkEv [negb v] []
  | _, _ => e
  end.

(** The negation of the right hand side: the last of two or more operators. *)
Definition eval_not_right (e : evaluator) : evaluator :=
  match values e with
  | [v0; v1] =>
      if (2 <=? len (operators e)) && bool_decide (last (operators e) = Some notOp)
      then MkEv [v0; negb v1] (removelast (operators e)) else e
  | _ => e
  end.

(** [operators[0]] applied to both values; the operators are kept. *)
Definition eval_binary (e : evaluator) : evaluator * bool :=
  match values e, operators e with
  | [v0; v1], andOp :: _ => (MkEv [v0 && v1] (operators e), false)
  | [v0; v1], orOp :: _ => (MkEv [v0 || v1] (operators e), v0 || v1)
  | _, _ => (e, false)
  end.

Definition eval (e : evaluator) : evaluator * bool :=
  let e := eval_not e in
  if bool_decide (length (values e) = 2%nat) && negb (bool_decide (operators e = []))
  then eval_binary (eval_not_right e) else (e, false).

(** After the loop of [run]. *)
Definition run_result (e : evaluator) : res bool :=
  match values e with [v] => Ok v | _ => Panic end.

(** [run] on one item gives the value or operator it pushes; a sub expression is
    evaluated by an evaluator of its own. *)
Fixpoint run_item (v : V) (e : evaluator) (it : Item) : res evaluator :=
  match it with
  | MkItem operand _ o => let! o := checked o in Ok (pushVal e (OpEval ops o v))
  | MkItem subExpression sub _ =>
      let! b :=
        (fix run (e : evaluator) (items : list Item) : res bool :=
           match items with
           | [] => run_result e
           | it :: items =>
               let! e := run_item v e it in
               let '(e, done) := eval e in
               if done then Ok true else run e items
           end) (MkEv [] []) sub in
      Ok (pushVal e b)
  | MkItem orOp _ _ => Ok (pushOp e orOp)
  | MkItem andOp _ _ => Ok (pushOp e andOp)
  | MkItem notOp _ _ => Ok (pushOp e notOp)
  | _ => Ok e
  end.

Fixpoint run (v : V) (e : evaluator) (items : list Item) : res bool :=
  match items with
  | [] => run_result e
  | it :: items =>
      let! e := run_item v e it in
      let '(e, done) := eval e in
      if done then Ok true else run v e items
  end.

Definition Eval (m : list Item) (v : V) : res bool :=
  match m with [] => Ok false | _ => run v (MkEv [] []) m end.


(** ** The builder is total

    Each iteration receives an item, so one unit of fuel more than the number of
    items is enough, and any more gives the same. *)

(** Every operand item holds an operand, as those made by [NewOperandItem] do. *)
Definition has_op (it : Item) : Prop := typ it = operand -> is_Some (op it).

Lemma newExpression_rest fuel : forall e input s rest,
  newExpression fuel e input = Ok (inr (s, rest)) -> (length rest <= length input)%nat /\
  (forall P : Item -> Prop, Forall P input -> Forall P rest).
Proof.
  induction fuel as [|fuel IH]; intros e input s rest; cbn [newExpression]; [done|].
  destruct input as [|cur input]; [intros [= <- <-]; auto|]. cbn zeta. intros H.
  assert (forall r : result (list Item),
    match r with inl err => Ok (inl err) | inr expr => newExpression fuel expr input end = Ok (inr (s, rest)) ->
    (length rest <= S (length input))%nat /\ (forall P : Item -> Prop, Forall P (cur :: input) -> Forall P rest)) as Hnext.
  { intros [?|e'] Hr; [done|]. apply IH in Hr as [? Hr]. split; [lia|]. intros P [_ HP]%Forall_cons. auto. }
  destruct (typ cur); try (by eapply Hnext).
  - destruct (beginSubExpression e cur) as [?|e']; [done|].
    apply bind_Ok in H as (r & Hr & H). destruct r as [?|[s1 input1]]; [done|].
    apply IH in Hr as [? Hr]. apply IH in H as [? H]. cbn. split; [lia|]. intros P [_ HP]%Forall_cons. auto.
  - destruct (endSubExpression e cur) as [?|e']; [done|]. injection H as <- <-. cbn. split; [lia|].
    by intros P [_ HP]%Forall_cons.
  - by apply (Hnext (inr e)).
  - apply bind_Ok in H as (r & Hr & H). by eapply Hnext.
Qed.

Lemma newExpression_fuel f1 : forall f2 e input, (length input < f1)%nat -> (length input < f2)%nat ->
  newExpression f1 e input = newExpression f2 e input.
Proof.
  induction f1 as [|f1 IH]; intros [|f2] e input H1 H2; try lia. cbn [newExpression].
  destruct input as [|cur input]; [done|]. cbn in H1, H2. cbn zeta.
  assert (forall e, newExpression f1 e input = newExpression f2 e input) as E by (intros; apply IH; lia).
  destruct (typ cur).
  - destruct (newBinaryOp e cur); auto.
  - destruct (newBinaryOp e cur); auto.
  - destruct (newUnaryOp e cur); auto.
  - destruct (beginSubExpression e cur); [done|]. rewrite <- E.
    destruct (newExpression f1 [] input) as [[?|[s rest]]| |] eqn:Hr; cbn [rbind]; try done.
    apply newExpression_rest in Hr as [? _]. apply IH; lia.
  - done.
  - auto.
  - destruct (newOperand e (op cur)) as [[|]| |]; cbn [rbind]; auto.
Qed.

(** The builder with enough fuel. *)
Definition build (e input : list Item) : res (result (list Item * list Item)) :=
  newExpression (S (length input)) e input.

Lemma build_total input : forall e, Forall has_op input -> exists r, build e input = Ok r.
Proof.
  remember (length input) as n eqn:E. revert input E.
  induction n as [n IH] using lt_wf_ind. intros input -> e Hop.
  unfold build. cbn [newExpression]. destruct input as [|cur input]; [eauto|]. cbn zeta.
  apply Forall_cons in Hop as [Hcur Hop].
  assert (forall e i, (length i <= length input)%nat -> Forall has_op i ->
    exists r, newExpression (length (cur :: input)) e i = Ok r) as Hrec.
  { intros e' i Hi Hf. destruct (IH (length i)) with i e' as [r Hr]; [cbn; lia|done|done|].
    exists r. rewrite <- Hr. apply newExpression_fuel; cbn; lia. }
  destruct (typ cur) eqn:Et.
  - destruct (newBinaryOp e cur); eauto.
  - destruct (newBinaryOp e cur); eauto.
  - destruct (newUnaryOp e cur); eauto.
  - destruct (beginSubExpression e cur); [eauto|].
    destruct (Hrec [] input (le_n _) Hop) as [[err|[s rest]] Hr]; rewrite Hr; cbn [rbind]; [eauto|].
    apply newExpression_rest in Hr as [Hl Hf]. auto.
  - eauto.
  - eauto.
  - unfold newOperand. destruct (Hcur Et) as [o ->]. cbn [checked rbind].
    destruct (Prepare ops o); eauto.
Qed.

(** *** The equations of the builder *)
Lemma build_nil e : build e [] = Ok (inr (e, [])).
Proof. done. Qed.

Lemma build_operand e o o' input : Prepare ops o = inr o' ->
  build e (NewOperandItem o :: input) = build (e ++ [NewOperandItem o']) input.
Proof. intros H. unfold build. cbn [length newExpression typ NewOperandItem op newOperand checked rbind]. by rewrite H. Qed.

Lemma build_not e input : match last e with Some l => isOperator l = true | None => True end ->
  build e (NOT :: input) = build (e ++ [NOT]) input.
Proof.
  intros H. unfold build. cbn [length newExpression typ NOT]. cbn zeta. unfold newUnaryOp.
  destruct (last e); [by rewrite H|done].
Qed.

Lemma build_binary e b input l : typ b = andOp \/ typ b = orOp -> last e = Some l -> isOperand l = true ->
  build e (b :: input) = build (e ++ [b]) input.
Proof.
  intros Hb Hl H. unfold build. cbn [length newExpression]. cbn zeta.
  unfold newBinaryOp. rewrite Hl, H. by destruct Hb as [-> | ->].
Qed.

Lemma build_sub e input s rest :
  match last e with Some l => isOperator l = true \/ typ l = notOp | None => True end ->
  build [] input = Ok (inr (s, rest)) ->
  build e (LeftBracket :: input) = build (e ++ [MkItem subExpression s None]) rest.
Proof.
  intros H Hs. unfold build in *. cbn [length]. remember (S (length input)) as f eqn:Ef.
  cbn [newExpression typ LeftBracket]. cbn zeta.
  assert (beginSubExpression e LeftBracket = inr e) as ->.
  { unfold beginSubExpression. destruct (last e) as [l|]; [|done].
    destruct H as [-> | ->]; [done|]. by rewrite bool_decide_true, andb_false_r. }
  rewrite Hs. cbn [rbind]. apply newExpression_rest in Hs as [? _].
  apply (newExpression_fuel f (S (length rest))); lia.
Qed.

Lemma build_end e input l : last e = Some l -> isOperand l = true ->
  build e (RightBracket :: input) = Ok (inr (e, input)).
Proof.
  intros Hl H. unfold build. cbn [length newExpression typ RightBracket]. unfold endSubExpression.
  by rewrite Hl, H.
Qed.

(** ** Expressions

    A chain is a term and what binary operators join to it; a term is an
    operand or a bracketed chain, with an optional negation. *)
Inductive bop := And | Or.

Inductive term :=
| TOp (neg : bool) (o : OpT ops)
| TSub (neg : bool) (t : term) (rest : list (bop * term)).

Definition term_ind' (P : term -> Prop)
  (HO : forall neg o, P (TOp neg o))
  (HS : forall neg t rest, P t -> Forall (fun bt => P bt.2) rest -> P (TSub neg t rest)) : forall t, P t :=
  fix F (t : term) : P t :=
    match t with
    | TOp neg o => HO neg o
    | TSub neg t rest =>
        HS neg t rest (F t)
          ((fix G (l : list (bop * term)) : Forall (fun bt => P bt.2) l :=
              match l with
              | [] => List.Forall_nil _
              | bt :: l => List.Forall_cons _ _ _ (F bt.2) (G l)
              end) rest)
    end.

Definition bop_item (b : bop) : Item := match b with And => AND | Or => OR end.
Definition neg_item (neg : bool) : list Item := if neg then [NOT] else [].

(** The items a client writes for it. *)
Fixpoint term_tokens (t : term) : list Item :=
  match t with
  | TOp neg o => neg_item neg ++ [NewOperandItem o]
  | TSub neg t rest =>
      neg_item neg ++ LeftBracket :: term_tokens t ++
        concat (map (fun bt : bop * term => let '(b, t) := bt in bop_item b :: term_tokens t) rest) ++ [RightBracket]
  end.

Definition rest_tokens (rest : list (bop * term)) : list Item :=
  concat (map (fun bt : bop * term => let '(b, t) := bt in bop_item b :: term_tokens t) rest).

(** The tree [New] builds of it, where [prep] is what [Prepare] returns. *)
Section prepared.
Context (prep : OpT ops -> OpT ops).

Fixpoint term_items (t : term) : list Item :=
  match t with
  | TOp neg o => neg_item neg ++ [NewOperandItem (prep o)]
  | TSub neg t rest =>
      neg_item neg ++
        [MkItem subExpression (term_items t ++
          concat (map (fun bt : bop * term => let '(b, t) := bt in bop_item b :: term_items t) rest)) None]
  end.

Definition rest_items (rest : list (bop * term)) : list Item :=
  concat (map (fun bt : bop * term => let '(b, t) := bt in bop_item b :: term_items t) rest).

(** [Prepare] succeeds on every operand of a term. *)
Inductive prepares : term -> Prop :=
| prepares_op neg o : Prepare ops o = inr (prep o) -> prepares (TOp neg o)
| prepares_sub neg t rest : prepares t -> Forall (fun bt => prepares bt.2) rest -> prepares (TSub neg t rest).

Definition ready (e : list Item) : Prop := match last e with Some l => isOperator l = true | None => True end.

Lemma term_items_last t e : exists l, last (e ++ term_items t) = Some l /\ isOperand l = true.
Proof. destruct t as [neg o|neg t rest]; cbn [term_items]; rewrite app_assoc, last_snoc; by eexists. Qed.

Lemma bop_typ b : typ (bop_item b) = andOp \/ typ (bop_item b) = orOp.
Proof. destruct b; cbn; auto. Qed.

Lemma ready_bop e b : ready (e ++ [bop_item b]).
Proof. unfold ready. rewrite last_snoc. by destruct b. Qed.

Definition builds (t : term) : Prop := forall e k, ready e ->
  build e (term_tokens t ++ k) = build (e ++ term_items t) k.

Lemma build_rest rest : Forall (fun bt => builds bt.2) rest -> forall e k l,
  last e = Some l -> isOperand l = true -> build e (rest_tokens rest ++ k) = build (e ++ rest_items rest) k.
Proof.
  intros H. induction H as [|[b t] rest Ht H IH]; intros e k l Hl Ho; cbn [rest_tokens rest_items map concat].
  - by rewrite app_nil_r.
  - cbn [app]. rewrite (build_binary e _ _ l (bop_typ b) Hl Ho). rewrite <- (app_assoc (term_tokens t)).
    rewrite Ht by apply ready_bop. destruct (term_items_last t (e ++ [bop_item b])) as (l' & Hl' & Ho').
    rewrite (IH _ _ l' Hl' Ho'). by rewrite <- !app_assoc.
Qed.

Lemma build_term t : prepares t -> builds t.
Proof.
  induction t as [neg o|neg t rest IHt IHrest] using term_ind'; intros Hp e k Hr.
  - inversion Hp as [? ? Ho|]; subst. destruct neg; cbn [term_tokens term_items neg_item app].
    + rewrite build_not by exact Hr. rewrite (build_operand _ _ _ _ Ho). by rewrite <- app_assoc.
    + by rewrite (build_operand _ _ _ _ Ho).
  - inversion Hp as [|? ? ? Ht Hrest]; subst.
    assert (forall k, build [] (term_tokens t ++ rest_tokens rest ++ RightBracket :: k) =
      Ok (inr (term_items t ++ rest_items rest, k))) as Hsub.
    { intros k'. rewrite (IHt Ht []) by done. cbn [app].
      destruct (term_items_last t []) as (l & Hl & Ho). cbn [app] in Hl.
      assert (Forall (fun bt => builds bt.2) rest) as Hb.
      { rewrite Forall_forall in *. auto. }
      rewrite (build_rest rest Hb _ _ l Hl Ho).
      assert (exists l, last (term_items t ++ rest_items rest) = Some l /\ isOperand l = true) as (l' & Hl' & Ho').
      { destruct rest as [|[b u] rest _] using rev_ind; [rewrite app_nil_r; eauto|].
        unfold rest_items. rewrite map_app, concat_app, app_assoc. cbn. rewrite app_nil_r.
        change (bop_item b :: term_items u) with ([bop_item b] ++ term_items u). rewrite app_assoc.
        apply term_items_last. }
      by rewrite (build_end _ _ _ Hl' Ho'). }
    assert (forall e k, match last e with Some l => isOperator l = true \/ typ l = notOp | None => True end ->
      build e (LeftBracket :: (term_tokens t ++ rest_tokens rest ++ [RightBracket]) ++ k) =
      build (e ++ [MkItem subExpression (term_items t ++ rest_items rest) None]) k) as Hbr.
    { intros e' k' He'. rewrite <- !app_assoc. cbn [app]. by rewrite (build_sub _ _ _ _ He' (Hsub k')). }
    cbn [term_tokens term_items]. fold (rest_tokens rest). fold (rest_items rest).
    destruct neg; cbn [neg_item app].
    + rewrite build_not by exact Hr. rewrite Hbr by (rewrite last_snoc; by right). by rewrite <- app_assoc.
    + rewrite Hbr; [done|]. unfold ready in Hr. destruct (last e); auto.
Qed.

Lemma build_chain t rest : prepares t -> Forall (fun bt => prepares bt.2) rest ->
  build [] (term_tokens t ++ rest_tokens rest) = Ok (inr (term_items t ++ rest_items rest, [])).
Proof.
  intros Ht Hrest. rewrite (build_term t Ht []) by done. cbn [app].
  destruct (term_items_last t []) as (l & Hl & Ho). cbn [app] in Hl.
  rewrite <- (app_nil_r (rest_tokens rest)). erewrite build_rest; [by rewrite build_nil| |done|done].
  eapply Forall_impl; [exact Hrest|]. intros [b u]. apply build_term.
Qed.
End prepared.

(** *** The checks of [New] *)

Lemma balance_rest rest n k :
  Forall (fun bt => forall n k, 0 <= n -> balance (term_tokens bt.2 ++ k) n = balance k n) rest -> 0 <= n ->
  balance (rest_tokens rest ++ k) n = balance k n.
Proof.
  intros H Hn. induction H as [|[b t] rest Ht H IH]; [done|]. unfold rest_tokens in *.
  cbn [map concat app]. rewrite <- app_assoc. cbn [balance]. destruct b; cbn [bop_item typ AND OR];
    (rewrite !decide_False by done; by rewrite Ht).
Qed.

Lemma balance_neg neg n k : balance (neg_item neg ++ k) n = balance k n.
Proof. by destruct neg. Qed.

Lemma balance_term t : forall n k, 0 <= n -> balance (term_tokens t ++ k) n = balance k n.
Proof.
  induction t as [neg o|neg t rest IHt IHrest] using term_ind'; intros n k Hn; cbn [term_tokens];
    rewrite <- app_assoc, balance_neg; cbn [app balance typ NewOperandItem LeftBracket].
  - by rewrite !decide_False.
  - rewrite decide_True by done. fold (rest_tokens rest). rewrite <- !app_assoc, IHt by lia.
    rewrite balance_rest by (done || lia). cbn [app balance typ RightBracket].
    rewrite decide_False, decide_True by done. rewrite (proj2 (Z.eqb_neq (n + 1) 0)) by lia. f_equal. lia.
Qed.

Lemma incomplete_term prep t : length (term_items prep t) = 1%nat -> incompleteExpression (term_items prep t) = false.
Proof.
  induction t as [neg o|neg t rest IHt IHrest] using term_ind'; destruct neg; cbn; intros Hl; try done.
  fold (rest_items prep rest).
  destruct (term_items prep t) as [|x l] eqn:Et; [by destruct t as [[]|[]]|].
  destruct l as [|y l].
  - cbn [app]. destruct rest as [|[b u] rest].
    + cbn. rewrite <- IHt by done. done.
    + cbn [rest_items map concat app]. destruct (term_items prep u) eqn:Eu; [by destruct u as [[]|[]]|done].
  - cbn [app]. destruct l as [|z l]; [|done]. cbn [app].
    destruct rest as [|[b u] rest].
    + cbn [rest_items map concat]. destruct t as [[]|[]]; cbn in Et; try done; by injection Et as <- _.
    + done.
Qed.

Lemma incomplete_chain prep t rest : incompleteExpression (term_items prep t ++ rest_items prep rest) = false.
Proof.
  destruct rest as [|[b u] rest].
  - rewrite app_nil_r. destruct t as [[]|[]]; try done; by apply incomplete_term.
  - cbn [rest_items map concat]. assert (exists x l, term_items prep u = x :: l) as (x & l & ->).
    { destruct u as [[]|[]]; cbn; eauto. }
    assert (exists y k, term_items prep t = y :: k) as (y & k & ->) by (destruct t as [[]|[]]; cbn; eauto).
    cbn [app]. destruct k as [|z k]; [done|]. by destruct k.
Qed.

Lemma New_chain prep t rest : prepares prep t -> Forall (fun bt => prepares prep bt.2) rest ->
  New (term_tokens t ++ rest_tokens rest) = Ok (inr (term_items prep t ++ rest_items prep rest)).
Proof.
  intros Ht Hrest. unfold New.
  assert (balance (term_tokens t ++ rest_tokens rest) 0 = Some 0) as ->.
  { rewrite balance_term by lia. rewrite <- (app_nil_r (rest_tokens rest)).
    rewrite balance_rest; [done| |lia]. apply Forall_forall. intros bt _. apply balance_term. }
  fold (build [] (term_tokens t ++ rest_tokens rest)). rewrite (build_chain prep _ _ Ht Hrest). cbn [rbind].
  rewrite incomplete_chain. by destruct t as [[]|[]].
Qed.

(** ** What the evaluator computes *)

Definition bop_type (b : bop) : itemType := match b with And => andOp | Or => orOp end.

(** The first operator of a chain is applied to all of its terms. *)
Definition join (b : option bop) (x : bool) (l : list bool) : bool :=
  match b with
  | None => x
  | Some And => x && forallb id l
  | Some Or => x || existsb id l
  end.

Section semantics.
Context (prep : OpT ops -> OpT ops) (v : V).

Fixpoint value (t : term) : bool :=
  match t with
  | TOp neg o => xorb neg (OpEval ops (prep o) v)
  | TSub neg t rest =>
      xorb neg (join (match rest with [] => None | (b, _) :: _ => Some b end) (value t)
                  (map (fun bt : bop * term => let '(_, t) := bt in value t) rest))
  end.

Definition first_op (rest : list (bop * term)) : option bop :=
  match rest with [] => None | (b, _) :: _ => Some b end.

Definition chain_value (t : term) (rest : list (bop * term)) : bool :=
  join (first_op rest) (value t) (map (fun bt => value bt.2) rest).

Lemma run_item_sub e s : run_item v e (MkItem subExpression s None) =
  let! b := run v (MkEv [] []) s in Ok (pushVal e b).
Proof.
  cbn [run_item]. f_equal. generalize (MkEv [] []). induction s as [|it s IH]; intros e'; [done|].
  cbn [run]. destruct (run_item v e' it) as [e''| |]; [|done..]. cbn [rbind].
  destruct (eval e'') as [e3 []]; [done|]. apply IH.
Qed.

(** A term whose evaluation pushes [value t]. *)
Definition pushes (t : term) : Prop :=
  (forall k, run v (MkEv [] []) (term_items prep t ++ k) = run v (MkEv [value t] []) k) /\
  (forall x b bs k, run v (MkEv [x] (bop_type <$> (b :: bs))) (term_items prep t ++ k) =
     match b with
     | And => run v (MkEv [x && value t] (bop_type <$> (b :: bs))) k
     | Or => if x || value t then Ok true else run v (MkEv [false] (bop_type <$> (b :: bs))) k
     end).

Lemma last_bops b bs : last (bop_type <$> (b :: bs)) <> Some notOp.
Proof. rewrite fmap_last. destruct (last (b :: bs)) as [[]|]; done. Qed.

(** [eval] after a binary operator, a negation or a value. *)
Lemma eval_op x b bs : eval (MkEv [x] (bop_type <$> (b :: bs))) = (MkEv [x] (bop_type <$> (b :: bs)), false).
Proof. unfold eval, eval_not. cbn [values operators]. destruct b, bs; done. Qed.

Lemma eval_neg x b bs : eval (MkEv [x] ((bop_type <$> (b :: bs)) ++ [notOp])) =
  (MkEv [x] ((bop_type <$> (b :: bs)) ++ [notOp]), false).
Proof. unfold eval, eval_not. cbn [values operators]. destruct b, bs; done. Qed.

Lemma eval_val x w b bs : eval (MkEv [x; w] (bop_type <$> (b :: bs))) =
  match b with
  | And => (MkEv [x && w] (bop_type <$> (b :: bs)), false)
  | Or => (MkEv [x || w] (bop_type <$> (b :: bs)), x || w)
  end.
Proof.
  unfold eval. replace (eval_not _) with (MkEv [x; w] (bop_type <$> (b :: bs))) by done.
  rewrite !bool_decide_true by done. cbn [andb negb]. rewrite bool_decide_false by done. cbn [negb andb].
  unfold eval_not_right. cbn [values operators]. rewrite (bool_decide_false (last _ = _)) by apply last_bops.
  rewrite andb_false_r. by destruct b.
Qed.

Lemma eval_neg_val x w b bs : eval (MkEv [x; w] ((bop_type <$> (b :: bs)) ++ [notOp])) =
  eval (MkEv [x; negb w] (bop_type <$> (b :: bs))).
Proof.
  rewrite eval_val. unfold eval. replace (eval_not _) with (MkEv [x; w] ((bop_type <$> (b :: bs)) ++ [notOp])) by done.
  rewrite bool_decide_true by done. rewrite bool_decide_false by done. cbn [negb andb].
  unfold eval_not_right. cbn [values operators]. rewrite last_snoc, bool_decide_true by done.
  rewrite (proj2 (Z.leb_le _ _)) by (rewrite len_app; unfold len; cbn; lia). cbn [andb].
  rewrite List.removelast_last. by destruct b.
Qed.

(** One item whose evaluation yields [w], negated or not. *)
Lemma pushes_item (neg : bool) it w : (forall e, run_item v e it = Ok (pushVal e w)) ->
  (forall k, run v (MkEv [] []) ((neg_item neg ++ [it]) ++ k) = run v (MkEv [xorb neg w] []) k) /\
  (forall x b bs k, run v (MkEv [x] (bop_type <$> (b :: bs))) ((neg_item neg ++ [it]) ++ k) =
     match b with
     | And => run v (MkEv [x && xorb neg w] (bop_type <$> (b :: bs))) k
     | Or => if x || xorb neg w then Ok true else run v (MkEv [false] (bop_type <$> (b :: bs))) k
     end).
Proof.
  intros Hit. split.
  - intros k. destruct neg; cbn [neg_item app run].
    + cbn [run_item rbind NOT]. change (eval (pushOp (MkEv [] []) notOp)) with (MkEv [] [notOp], false).
      cbn [run]. rewrite Hit. cbn [rbind]. by destruct w.
    + rewrite Hit. cbn [rbind]. by destruct w.
  - intros x b bs k. destruct neg; cbn [neg_item app run].
    + cbn [run_item rbind NOT]. unfold pushOp. cbn [values operators]. rewrite eval_neg. cbn [run].
      rewrite Hit. cbn [rbind]. unfold pushVal. cbn [values operators app]. rewrite eval_neg_val, eval_val.
      destruct b; [by destruct w|by destruct x, w].
    + rewrite Hit. cbn [rbind]. unfold pushVal. cbn [values operators app]. rewrite eval_val.
      destruct b; [by destruct w|by destruct x, w].
Qed.

Lemma run_rest rest : Forall (fun bt => pushes bt.2) rest -> forall x bs,
  run v (MkEv [x] (bop_type <$> bs)) (rest_items prep rest) =
  Ok (join (match bs with b :: _ => Some b | [] => first_op rest end) x (map (fun bt => value bt.2) rest)).
Proof.
  intros H. induction H as [|[b t] rest [_ Ht] H IH]; intros x bs.
  - destruct bs as [|[] bs]; cbn; rewrite ?andb_true_r, ?orb_false_r; done.
  - unfold rest_items in *. cbn [map concat app run].
    assert (run_item v (MkEv [x] (bop_type <$> bs)) (bop_item b) = Ok (MkEv [x] (bop_type <$> (bs ++ [b])))) as ->.
    { rewrite fmap_app. by destruct b. }
    cbn [rbind]. destruct (bs ++ [b]) as [|c cs] eqn:Ec; [by destruct bs|]. rewrite eval_op. cbn [rbind].
    rewrite Ht. cbn [snd] in *.
    assert (match bs with b0 :: _ => Some b0 | [] => first_op ((b, t) :: rest) end = Some c) as ->.
    { destruct bs; cbn in *; congruence. }
    destruct c; cbn [join map snd forallb existsb id].
    + rewrite IH. cbn. by rewrite andb_assoc.
    + rewrite orb_assoc. destruct (x || value t) eqn:E; [done|]. rewrite IH. done.
Qed.

Lemma term_pushes t : pushes t.
Proof.
  induction t as [neg o|neg t rest IHt IHrest] using term_ind'; unfold pushes; cbn [term_items value].
  - apply pushes_item. done.
  - apply pushes_item. intros e. rewrite run_item_sub. fold (rest_items prep rest). destruct IHt as [IHt _].
    pose proof (run_rest rest IHrest (value t) []) as E. cbn [fmap list_fmap] in E. rewrite IHt, E. cbn [rbind].
    replace (map (fun '(_, t) => value t) rest) with (map (fun bt => value bt.2) rest) by
      (apply map_ext; by intros []).
    done.
Qed.

Lemma Eval_chain t rest : Eval (term_items prep t ++ rest_items prep rest) v = Ok (chain_value t rest).
Proof.
  assert (run v (MkEv [] []) (term_items prep t ++ rest_items prep rest) = Ok (chain_value t rest)) as E.
  { destruct (term_pushes t) as [-> _]. apply (run_rest rest) with (bs := []).
    apply Forall_forall. intros bt _. apply term_pushes. }
  unfold Eval. rewrite E. by destruct t as [[]|[]].
Qed.

(** *** The usual meaning, in which && binds tighter than || *)
Fixpoint meaning_rest (acc : bool) (rest : list (bop * bool)) : bool :=
  match rest with
  | [] => acc
  | (And, x) :: rest => meaning_rest (acc && x) rest
  | (Or, x) :: rest => acc || meaning_rest x rest
  end.

Fixpoint meaning (t : term) : bool :=
  match t with
  | TOp neg o => xorb neg (OpEval ops (prep o) v)
  | TSub neg t rest =>
      xorb neg (meaning_rest (meaning t) (map (fun bt : bop * term => let '(b, t) := bt in (b, meaning t)) rest))
  end.

Definition chain_meaning (t : term) (rest : list (bop * term)) : bool :=
  meaning_rest (meaning t) (map (fun bt => (bt.1, meaning bt.2)) rest).

Lemma meaning_join b rest : forall x, Forall (fun bx => bx.1 = b) rest ->
  meaning_rest x rest = join (match rest with [] => None | (b, _) :: _ => Some b end) x (map snd rest).
Proof.
  induction rest as [|[c y] rest IH]; intros x H; [done|]. apply Forall_cons in H as [Hc H]. cbn in Hc. subst c.
  cbn [meaning_rest map snd]. specialize (IH (match b with And => x && y | Or => y end) H).
  destruct rest as [|[d z] rest].
  - destruct b; cbn; by rewrite ?andb_true_r, ?orb_false_r.
  - apply Forall_cons in H as [Hd _]. cbn in Hd. subst d.
    destruct b; rewrite IH; cbn; by destruct x, y.
Qed.
End semantics.

(** No level mixes the two operators. *)
Inductive unmixed : term -> Prop :=
| unmixed_op neg o : unmixed (TOp neg o)
| unmixed_sub neg t rest b : unmixed t -> Forall (fun bt => unmixed bt.2) rest ->
    Forall (fun bt => bt.1 = b) rest -> unmixed (TSub neg t rest).

Lemma chain_value_meaning prep v b t rest :
  value prep v t = meaning prep v t -> Forall (fun bt => value prep v bt.2 = meaning prep v bt.2) rest ->
  Forall (fun bt : bop * term => bt.1 = b) rest -> chain_value prep v t rest = chain_meaning prep v t rest.
Proof.
  intros Ht Hrest Hb. unfold chain_value, chain_meaning. rewrite (meaning_join b) by (by apply List.Forall_map).
  rewrite Ht, map_map. cbn. f_equal; [by destruct rest as [|[]]|].
  apply map_ext_in. intros bt Hin. by apply (proj1 (List.Forall_forall _ _) Hrest).
Qed.

Lemma unmixed_value prep v t : unmixed t -> value prep v t = meaning prep v t.
Proof.
  induction t as [neg o|neg t rest IHt IHrest] using term_ind'; intros H; [done|].
  inversion H as [|? ? ? b Ht Hrest Hb]; subst. cbn [value meaning]. f_equal.
  pose proof (chain_value_meaning prep v b t rest (IHt Ht)) as E.
  unfold chain_value, chain_meaning, first_op in E.
  replace (map (fun '(_, t) => value prep v t) rest) with (map (fun bt => value prep v bt.2) rest)
    by (apply map_ext; by intros []).
  replace (map (fun '(b, t) => (b, meaning prep v t)) rest) with (map (fun bt => (bt.1, meaning prep v bt.2)) rest)
    by (apply map_ext; by intros []).
  apply E; [|done]. rewrite Forall_forall in IHrest, Hrest |- *. auto.
Qed.

(** C34: an expression that mixes no operators at any level is accepted by
    [New] from the items a client writes for it, brackets, negations and all,
    and [Eval] computes its boolean meaning over the values of the prepared
    operands, whatever the operands are. *)
Theorem New_Eval_unmixed (prep : OpT ops -> OpT ops) (t : term) (rest : list (bop * term)) (b : bop) (v : V)
  (Ht : prepares prep t) (Hrest : Forall (fun bt => prepares prep bt.2) rest)
  (Hut : unmixed t) (Hur : Forall (fun bt => unmixed bt.2) rest) (Hb : Forall (fun bt => bt.1 = b) rest) :
  exists m, New (term_tokens t ++ rest_tokens rest) = Ok (inr m) /\ Eval m v = Ok (chain_meaning prep v t rest).
Proof.
  eexists. split; [by apply New_chain|]. rewrite Eval_chain. f_equal. apply (chain_value_meaning _ _ b); [| |done].
  - by apply unmixed_value.
  - eapply Forall_impl; [exact Hur|]. intros bt. apply unmixed_value.
Qed.

(** When operators are mixed, [Eval] applies the first operator of the
    level to all its terms, for a binary operator is never removed from the
    evaluator once it was applied: [a && b || c] evaluates to [a && b && c], and
    [a || b && c] to [a || b || c]. *)
Theorem Eval_mixed_operators (prep : OpT ops -> OpT ops) (a b c : OpT ops) (v : V)
  (Hp : Forall (fun o => Prepare ops o = inr (prep o)) [a; b; c]) :
  let holds o := OpEval ops (prep o) v in
  (exists m, New [NewOperandItem a; AND; NewOperandItem b; OR; NewOperandItem c] = Ok (inr m) /\
     Eval m v = Ok (holds a && holds b && holds c)) /\
  (exists m, New [NewOperandItem a; OR; NewOperandItem b; AND; NewOperandItem c] = Ok (inr m) /\
     Eval m v = Ok (holds a || holds b || holds c)).
Proof.
  cbv zeta. rewrite !Forall_cons in Hp. destruct Hp as (Ha & Hb & Hc & _).
  assert (forall b1 b2, Forall (fun bt : bop * term => prepares prep bt.2) [(b1, TOp false b); (b2, TOp false c)]) as Hr.
  { intros b1 b2. repeat constructor; done. }
  pose proof (fun b1 b2 => New_chain prep (TOp false a) [(b1, TOp false b); (b2, TOp false c)]
    (prepares_op _ _ _ Ha) (Hr b1 b2)) as HN.
  split; [exists (term_items prep (TOp false a) ++ rest_items prep [(And, TOp false b); (Or, TOp false c)])
    |exists (term_items prep (TOp false a) ++ rest_items prep [(Or, TOp false b); (And, TOp false c)])];
    (split; [apply (HN And Or) || apply (HN Or And)|]; rewrite Eval_chain; unfold chain_value; cbn; f_equal).
  - by destruct (OpEval ops (prep a) v), (OpEval ops (prep b) v), (OpEval ops (prep c) v).
  - by destruct (OpEval ops (prep a) v), (OpEval ops (prep b) v), (OpEval ops (prep c) v).
Qed.

(** [New] is total: on any items that hold an operand where they should, it
    terminates without a panic, with an expression or an error; and it accepts
    operands with no operator between them, whose evaluation panics. *)
Theorem New_total (items : list Item) (Hop : Forall has_op items) :
  (exists r, New items = Ok r) /\
  forall (a b c a' b' c' : OpT ops) (v : V),
    Prepare ops a = inr a' -> Prepare ops b = inr b' -> Prepare ops c = inr c' ->
    exists m, New [NewOperandItem a; NewOperandItem b; NewOperandItem c] = Ok (inr m) /\ Eval m v = Panic.
Proof.
  split.
  - unfold New. destruct items as [|it items]; [eauto|]. destruct (balance (it :: items) 0) as [[]|]; eauto.
    destruct (build_total (it :: items) [] Hop) as [r E]. unfold build in E. rewrite E. cbn [rbind].
    destruct r as [|[]]; eauto.
  - intros a b c a' b' c' v Ha Hb Hc. unfold New.
    change (balance [NewOperandItem a; NewOperandItem b; NewOperandItem c] 0) with (Some 0).
    fold (build [] [NewOperandItem a; NewOperandItem b; NewOperandItem c]).
    rewrite (build_operand _ _ _ _ Ha), (build_operand _ _ _ _ Hb), (build_operand _ _ _ _ Hc), build_nil.
    cbn. eexists. split; [done|]. done.
Qed.
End items.

(** ** The tokenizer

    Strings are lists of runes, as [range] over a string yields them. *)
Abbreviation rune := Z.

(** ASCII runes the parser looks for. *)
Definition r_space : rune := 32.
Definition r_bang : rune := 33.
Definition r_amp : rune := 38.
Definition r_quote : rune := 39.
Definition r_lparen : rune := 40.
Definition r_rparen : rune := 41.
Definition r_dash : rune := 45.
Definition r_equal : rune := 61.
Definition r_backslash : rune := 92.
Definition r_underscore : rune := 95.
Definition r_bar : rune := 124.

Record token := MkToken {
  text : list rune;
  operator : bool;
  operandName : bool;
  operandValue : bool;
}.

Inductive state :=
| sstart | soperandName | soperatorAnd | soperatorOr | soperandValue | squotedValue | sescapedValue | sescapedRune.

Inductive tokenError :=
| UnexpectedCharacter (r : rune)
| InvalidAnd
| InvalidOr
| ExpectedEqual (seen : list rune) (r : rune)
| IncompleteAnd
| IncompleteOr
| MissingCloseQuote (seen : list rune)
| MissingEscapedRune.

Record tokenizer := MkTokenizer { seen : list rune; tokens : list token }.

Section tokenizer.
(** The classes of package unicode beyond ASCII. *)
Context (other_space other_letter other_number : rune -> bool).

Definition IsSpace (r : rune) : bool :=
  if r <? 128 then (9 <=? r) && (r <=? 13) || (r =? 32) else other_space r.
Definition IsLetter (r : rune) : bool :=
  if r <? 128 then (65 <=? r) && (r <=? 90) || (97 <=? r) && (r <=? 122) else other_letter r.
Definition IsNumber (r : rune) : bool :=
  if r <? 128 then (48 <=? r) && (r <=? 57) else other_number r.

Definition appendOperator (t : tokenizer) (text : list rune) : tokenizer :=
  MkTokenizer (seen t) (tokens t ++ [MkToken text true false false]).
Definition appendOperandName (t : tokenizer) : tokenizer :=
  MkTokenizer [] (tokens t ++ [MkToken (seen t) false true false]).
Definition appendOperandValue (t : tokenizer) : tokenizer :=
  MkTokenizer [] (tokens t ++ [MkToken (seen t) false false true]).
Definition see (t : tokenizer) (r : rune) : tokenizer := MkTokenizer (seen t ++ [r]) (tokens t).

(** Each state's method: the tokenizer it leaves and the next state or an
    error. *)
Definition step_result : Type := tokenizer * (tokenError + state).

Definition start_ (t : tokenizer) (r : rune) : step_result :=
  if IsSpace r then (t, inr sstart)
  else if (r =? r_lparen) || (r =? r_rparen) || (r =? r_bang) then (appendOperator t [r], inr sstart)
  else if r =? r_amp then (t, inr soperatorAnd)
  else if r =? r_bar then (t, inr soperatorOr)
  else if IsLetter r then (see t r, inr soperandName)
  else (t, inl (UnexpectedCharacter r)).

Definition operatorAnd_ (t : tokenizer) (r : rune) : step_result :=
  if r =? r_amp
  then (MkTokenizer [] (tokens t ++ [MkToken [r_amp; r_amp] true false false]), inr sstart)
  else (t, inl InvalidAnd).

Definition operatorOr_ (t : tokenizer) (r : rune) : step_result :=
  if r =? r_bar
  then (MkTokenizer [] (tokens t ++ [MkToken [r_bar; r_bar] true false false]), inr sstart)
  else (t, inl InvalidOr).

Definition operandName_ (t : tokenizer) (r : rune) : step_result :=
  if r =? r_equal then (appendOperandName t, inr soperandValue)
  else if IsLetter r || IsNumber r || (r =? r_dash) || (r =? r_underscore)
  then (see t r, inr soperandName)
  else (t, inl (ExpectedEqual (seen t) r)).

Definition operandValueDone (t : tokenizer) (r : rune) : tokenizer * bool * state :=
  if IsSpace r then (appendOperandValue t, true, sstart)
  else if (r =? r_lparen) || (r =? r_rparen)
  then (appendOperator (appendOperandValue t) [r], true, sstart)
  else if r =? r_amp then (appendOperandValue t, true, soperatorAnd)
  else if r =? r_bar then (appendOperandValue t, true, soperatorOr)
  else (see t r, false, sescapedValue).

Definition operandValue_ (t : tokenizer) (r : rune) : step_result :=
  if r =? r_quote then (t, inr squotedValue)
  else if r =? r_backslash then (t, inr sescapedRune)
  else
    let '(t, done, st) := operandValueDone t r in
    if done : bool then (t, inr st) else (t, inr sescapedValue).

Definition quotedValue_ (t : tokenizer) (r : rune) : step_result :=
  if r =? r_quote then (appendOperandValue t, inr sstart) else (see t r, inr squotedValue).

Definition escapedValue_ (t : tokenizer) (r : rune) : step_result :=
  if r =? r_backslash then (t, inr sescapedRune)
  else
    let '(t, done, st) := operandValueDone t r in
    if done : bool then (t, inr st) else (t, inr sescapedValue).

Definition escapedRune_ (t : tokenizer) (r : rune) : step_result := (see t r, inr sescapedValue).

Definition step (st : state) (t : tokenizer) (r : rune) : step_result :=
  match st with
  | sstart => start_ t r
  | soperatorAnd => operatorAnd_ t r
  | soperatorOr => operatorOr_ t r
  | soperandName => operandName_ t r
  | soperandValue => operandValue_ t r
  | squotedValue => quotedValue_ t r
  | sescapedValue => escapedValue_ t r
  | sescapedRune => escapedRune_ t r
  end.

Fixpoint runStateMachine (st : state) (t : tokenizer) (input : list rune) : step_result :=
  match input with
  | [] => (t, inr st)
  | r :: input =>
      match step st t r with
      | (t, inl err) => (t, inl err)
      | (t, inr st) => runStateMachine st t input
      end
  end.

(** The end of [run]: what the last state still has to append. *)
Definition finish (st : state) (t : tokenizer) : tokenError + list token :=
  match st with
  | sstart => inr (tokens t)
  | soperandName => inr (tokens (appendOperandName t))
  | soperandValue | sescapedValue => inr (tokens (appendOperandValue t))
  | soperatorAnd => inl IncompleteAnd
  | soperatorOr => inl IncompleteOr
  | squotedValue => inl (MissingCloseQuote (seen t))
  | sescapedRune => inl MissingEscapedRune
  end.

Definition tokenize (input : list rune) : tokenError + list token :=
  match runStateMachine sstart (MkTokenizer [] []) input with
  | (_, inl err) => inl err
  | (t, inr st) => finish st t
  end.

(** *** Printing tokens *)
Definition token_String (t : token) : list rune :=
  if operator t then text t ++ [r_space]
  else if operandName t then text t ++ [r_equal]
  else if operandValue t then r_quote :: text t ++ [r_quote; r_space]
  else [].

(** [strings.TrimSpace]. *)
Fixpoint trim_left (s : list rune) : list rune :=
  match s with
  | r :: s' => if IsSpace r then trim_left s' else s
  | [] => []
  end.

Definition TrimSpace (s : list rune) : list rune := rev (trim_left (rev (trim_left s))).

Definition tokenList_String (tl : list token) : list rune :=
  TrimSpace (concat (map token_String tl)).

(** ** The parser *)

(** The text of an operator token. *)
Definition operatorFor {V Ty Err} (ops : Operand V Ty Err) (t : list rune) : Item ops :=
  if bool_decide (t = [r_bar; r_bar]) then OR ops
  else if bool_decide (t = [r_amp; r_amp]) then AND ops
  else if bool_decide (t = [r_bang]) then NOT ops
  else if bool_decide (t = [r_lparen]) then LeftBracket ops
  else if bool_decide (t = [r_rparen]) then RightBracket ops
  else MkItem ops orOp [] None.

Inductive parseError (Err : Type) :=
| TokenError (e : tokenError)
| UnsupportedOperand (name : list rune)
| MissingOperandValue (name : list rune)
| ExprError (e : error (Err := Err)).
Arguments TokenError {Err} e.
Arguments UnsupportedOperand {Err} name.
Arguments MissingOperandValue {Err} name.
Arguments ExprError {Err} e.

Section parser.
Context {V Ty Err : Type} (ops : Operand V Ty Err).

(** [p.ops]: the registered operands. *)
Definition Parser : Type := gmap (list rune) (list rune -> list rune -> OpT ops).

Definition NewParser : Parser := ∅.
Definition RegisterOperand (p : Parser) (name : list rune) f : Parser := <[name := f]> p.
Definition RemoveOperand (p : Parser) (name : list rune) : Parser := delete name p.

Definition operandExists (p : Parser) (name : list rune) : bool := bool_decide (is_Some (p !! name)).

Definition operandFor (p : Parser) (name value : list rune) : parseError Err + Item ops :=
  match p !! name with
  | Some fn => inr (NewOperandItem ops (fn name value))
  | None => inl (UnsupportedOperand name)
  end.

(** The loop of [mergeOperandsAndValues]: a value that follows no name is
    skipped. *)
Fixpoint mergeOperandsAndValues (p : Parser) (tl : list token) (merged : list (Item ops)) :
    parseError Err + list (Item ops) :=
  match tl with
  | [] => inr merged
  | tok :: tl' =>
      if operator tok then mergeOperandsAndValues p tl' (merged ++ [operatorFor ops (text tok)])
      else if operandName tok then
        if negb (operandExists p (text tok)) then inl (UnsupportedOperand (text tok))
        else
          match tl' with
          | [] => inl (MissingOperandValue (text tok))
          | next :: tl'' =>
              if negb (operandValue next) then inl (MissingOperandValue (text tok))
              else
                match operandFor p (text tok) (text next) with
                | inl err => inl err
                | inr it => mergeOperandsAndValues p tl'' (merged ++ [it])
                end
          end
      else mergeOperandsAndValues p tl' merged
  end.

(** A parsed [T] is its items. *)
Definition Parse (p : Parser) (input : list rune) : res (parseError Err + list (Item ops)) :=
  match tokenize input with
  | inl err => Ok (inl (TokenError err))
  | inr toks =>
      match mergeOperandsAndValues p toks [] with
      | inl err => Ok (inl err)
      | inr merged =>
          let! r := New ops merged in
          Ok (match r with inl err => inl (ExprError err) | inr m => inr m end)
      end
  end.
End parser.

(** ** Round trips *)

Definition op_text (t : list rune) : Prop :=
  t = [r_bar; r_bar] \/ t = [r_amp; r_amp] \/ t = [r_bang] \/ t = [r_lparen] \/ t = [r_rparen].

(** A name the tokenizer reads back: a letter, then letters, numbers, - and _. *)
Definition name_ok (n : list rune) : Prop :=
  exists r n', n = r :: n' /\ IsLetter r = true /\ IsSpace r = false /\
    Forall (fun c => IsLetter c || IsNumber c || (c =? r_dash) || (c =? r_underscore) = true) n'.

Definition op_token (t : list rune) : token := MkToken t true false false.
Definition name_token (n : list rune) : token := MkToken n false true false.
Definition value_token (v : list rune) : token := MkToken v false false true.

(** Operators, and names each followed by a value without a quote. *)
Inductive tokens_ok : list token -> Prop :=
| tokens_nil : tokens_ok []
| tokens_op t tl : op_text t -> tokens_ok tl -> tokens_ok (op_token t :: tl)
| tokens_pair n v tl : name_ok n -> Forall (fun r => r <> r_quote) v -> tokens_ok tl ->
    tokens_ok (name_token n :: value_token v :: tl).

Lemma run_app st t s1 s2 : runStateMachine st t (s1 ++ s2) =
  match runStateMachine st t s1 with
  | (t, inl err) => (t, inl err)
  | (t, inr st) => runStateMachine st t s2
  end.
Proof.
  revert st t. induction s1 as [|r s1 IH]; intros st t; cbn; [done|].
  by destruct (step st t r) as [t' [err|st']].
Qed.

Lemma run_space tks : start_ (MkTokenizer [] tks) r_space = (MkTokenizer [] tks, inr sstart).
Proof. done. Qed.

Lemma run_op t tks : op_text t ->
  runStateMachine sstart (MkTokenizer [] tks) t = (MkTokenizer [] (tks ++ [op_token t]), inr sstart).
Proof. intros [-> |[-> |[-> |[-> | ->]]]]; done. Qed.

Lemma letter_not r : IsLetter r = true -> (r =? r_lparen) || (r =? r_rparen) || (r =? r_bang) = false /\
  (r =? r_amp) = false /\ (r =? r_bar) = false /\ (r =? r_equal) = false.
Proof.
  intros H. repeat split; repeat (apply orb_false_iff; split); apply Z.eqb_neq; intros ->; cbn in H; done.
Qed.

Lemma run_name_rest n : forall s tks,
  Forall (fun c => IsLetter c || IsNumber c || (c =? r_dash) || (c =? r_underscore) = true) n ->
  runStateMachine soperandName (MkTokenizer s tks) n = (MkTokenizer (s ++ n) tks, inr soperandName).
Proof.
  induction n as [|c n IH]; intros s tks H; cbn [runStateMachine]; [by rewrite app_nil_r|].
  apply Forall_cons in H as [Hc H]. cbn [step]. unfold operandName_.
  assert ((c =? r_equal) = false) as -> by (apply Z.eqb_neq; intros ->; by cbn in Hc).
  rewrite Hc. unfold see. cbn [seen tokens]. rewrite IH by done. by rewrite <- app_assoc.
Qed.

Lemma run_name n tks : name_ok n ->
  runStateMachine sstart (MkTokenizer [] tks) (n ++ [r_equal]) =
  (MkTokenizer [] (tks ++ [name_token n]), inr soperandValue).
Proof.
  intros (r & n' & -> & Hl & Hs & Hn). destruct (letter_not r Hl) as (H1 & H2 & H3 & _).
  cbn [app runStateMachine step]. unfold start_. rewrite Hs, H1, H2, H3, Hl. unfold see. cbn [seen tokens app].
  rewrite run_app, run_name_rest by done. done.
Qed.

Lemma run_quoted v : forall s tks, Forall (fun r => r <> r_quote) v ->
  runStateMachine squotedValue (MkTokenizer s tks) v = (MkTokenizer (s ++ v) tks, inr squotedValue).
Proof.
  induction v as [|r v IH]; intros s tks H; cbn [runStateMachine]; [by rewrite app_nil_r|].
  apply Forall_cons in H as [Hr H]. cbn [step]. unfold quotedValue_. rewrite (proj2 (Z.eqb_neq _ _) Hr).
  unfold see. cbn [seen tokens]. rewrite IH by done. by rewrite <- app_assoc.
Qed.

Lemma run_value v tks : Forall (fun r => r <> r_quote) v ->
  runStateMachine soperandValue (MkTokenizer [] tks) (r_quote :: v ++ [r_quote]) =
  (MkTokenizer [] (tks ++ [value_token v]), inr sstart).
Proof. intros H. cbn [runStateMachine step]. unfold operandValue_. cbn. by rewrite run_app, run_quoted. Qed.

Lemma run_tokens tl : forall tks, tokens_ok tl ->
  runStateMachine sstart (MkTokenizer [] tks) (concat (map token_String tl)) =
  (MkTokenizer [] (tks ++ tl), inr sstart).
Proof.
  intros tks H. revert tks. induction H as [|t tl Ht H IH|n v tl Hn Hv H IH]; intros tks; cbn [map concat].
  - by rewrite app_nil_r.
  - cbn [token_String operator op_token text]. rewrite <- app_assoc, run_app, run_op by done.
    cbn [app runStateMachine step]. rewrite run_space, IH. by rewrite <- app_assoc.
  - cbn [token_String operator operandName operandValue name_token value_token text].
    rewrite <- app_assoc. rewrite (app_assoc n), run_app, run_name by done.
    change ([r_quote; r_space]) with ([r_quote] ++ [r_space]).
    rewrite app_assoc, app_comm_cons, <- app_assoc, run_app, run_value by done.
    cbn [app runStateMachine step]. rewrite run_space, IH. by rewrite <- !app_assoc.
Qed.

Lemma value_String v : token_String (value_token v) = (r_quote :: v ++ [r_quote]) ++ [r_space].
Proof. cbn. by rewrite <- app_assoc. Qed.

(** A token list ends in a space that trimming removes, and only that one. *)
Lemma concat_tokens tl : tokens_ok tl -> tl <> [] ->
  exists r s c, concat (map token_String tl) = r :: s /\ IsSpace r = false /\
    concat (map token_String tl) = c ++ [r_space] /\ exists c' e, c = c' ++ [e] /\ IsSpace e = false.
Proof.
  intros H. induction H as [|t tl Ht H IH|n v tl Hn Hv H IH]; intros Hne; [done|..].
  - assert (exists r s, token_String (op_token t) = r :: s /\ IsSpace r = false) as (r & s & E & Hr).
    { destruct Ht as [-> |[-> |[-> |[-> | ->]]]]; cbn; eauto. }
    cbn [map concat]. destruct tl as [|y tl].
    + exists r, s, t. cbn [map concat]. rewrite app_nil_r. split; [done|]. split; [done|]. split; [done|].
      destruct Ht as [-> |[-> |[-> |[-> | ->]]]];
        [exists [r_bar], r_bar|exists [r_amp], r_amp|exists [], r_bang|exists [], r_lparen|exists [], r_rparen]; done.
    + destruct IH as (r' & s' & c & _ & _ & E2 & c' & e & -> & He); [done|].
      exists r, (s ++ concat (map token_String (y :: tl))), (token_String (op_token t) ++ c' ++ [e]).
      rewrite E. split; [done|]. split; [done|]. split; [by rewrite E2, <- !app_assoc|].
      exists ((r :: s) ++ c'), e. by rewrite <- app_assoc.
  - destruct Hn as (r & n' & -> & _ & Hr & _). cbn [map concat]. destruct tl as [|y tl].
    + eexists r, _, (token_String (name_token (r :: n')) ++ r_quote :: v ++ [r_quote]).
      split; [done|]. split; [done|]. split; [by rewrite value_String, app_nil_r, app_assoc|].
      exists (token_String (name_token (r :: n')) ++ r_quote :: v), r_quote. split; [by rewrite <- app_assoc|done].
    + destruct IH as (r' & s' & c & _ & _ & E2 & c' & e & -> & He); [done|].
      eexists r, _, (token_String (name_token (r :: n')) ++ token_String (value_token v) ++ c' ++ [e]).
      split; [done|]. split; [done|]. split; [by rewrite E2, <- !app_assoc|].
      exists (token_String (name_token (r :: n')) ++ token_String (value_token v) ++ c'), e. by rewrite <- !app_assoc.
Qed.

Lemma trim_left_nonspace r s : IsSpace r = false -> trim_left (r :: s) = r :: s.
Proof. intros H. cbn. by rewrite H. Qed.

Lemma tokenList_String_trim tl : tokens_ok tl ->
  concat (map token_String tl) = tokenList_String tl ++ match tl with [] => [] | _ => [r_space] end.
Proof.
  intros H. destruct tl as [|t tl]; [done|].
  destruct (concat_tokens _ H) as (r & s & c & E1 & Hr & E2 & c' & e & -> & He); [done|].
  unfold tokenList_String, TrimSpace. rewrite E1, trim_left_nonspace by done. rewrite <- E1, E2.
  rewrite !rev_app_distr. cbn [rev app trim_left]. change (IsSpace r_space) with true. cbn match.
  rewrite He. cbn [rev]. by rewrite rev_involutive.
Qed.

(** Reading the trimmed text stops one space early: an operand value is the only
    state in which it could matter, and its quote has been read. *)
Lemma tokenize_String tl : tokens_ok tl -> tokenize (tokenList_String tl) = inr tl.
Proof.
  intros H. pose proof (run_tokens tl [] H) as Hrun. rewrite (tokenList_String_trim tl H), run_app in Hrun.
  unfold tokenize. destruct (runStateMachine sstart (MkTokenizer [] []) (tokenList_String tl)) as [[s tks] [err|st]].
  - done.
  - destruct tl as [|t0 tl]; [by simplify_eq/=|].
    cbn [runStateMachine] in Hrun.
    destruct st; simplify_eq/=; [done|..];
      unfold appendOperandValue in *; cbn in *; congruence.
Qed.

(** Any value can be written with every rune escaped. *)
Definition escaped (v : list rune) : list rune := concat (map (fun r => [r_backslash; r]) v).

Lemma run_escaped v : forall st s tks, st = soperandValue \/ st = sescapedValue ->
  exists st', runStateMachine st (MkTokenizer s tks) (escaped v) = (MkTokenizer (s ++ v) tks, inr st') /\
    (st' = soperandValue \/ st' = sescapedValue).
Proof.
  induction v as [|r v IH]; intros st s tks Hst; cbn [escaped map concat app runStateMachine].
  - rewrite app_nil_r. eauto.
  - assert (forall t, step st t r_backslash = (t, inr sescapedRune)) as Hb by (intros t; by destruct Hst as [-> | ->]).
    rewrite Hb. cbn [step]. unfold escapedRune_, see. cbn [seen tokens]. replace (s ++ r :: v) with ((s ++ [r]) ++ v) by (by rewrite <- app_assoc).
    apply IH. by right.
Qed.

Section parsing.
Context {V Ty Err : Type} (ops : Operand V Ty Err) (p : Parser ops).

(** What a client types: operators, and registered operands as a name and a
    value without a quote. *)
Inductive typed :=
| TypedOp (t : list rune)
| TypedOperand (name value : list rune).

Definition typed_tokens (x : typed) : list token :=
  match x with
  | TypedOp t => [op_token t]
  | TypedOperand n v => [name_token n; value_token v]
  end.

Inductive typed_ok : typed -> Prop :=
| typed_ok_op t : op_text t -> typed_ok (TypedOp t)
| typed_ok_operand n v : name_ok n -> Forall (fun r => r <> r_quote) v -> is_Some (p !! n) ->
    typed_ok (TypedOperand n v).

(** The items it stands for. *)
Definition typed_items (x : typed) : list (Item ops) :=
  match x with
  | TypedOp t => [operatorFor ops t]
  | TypedOperand n v => match p !! n with Some fn => [NewOperandItem ops (fn n v)] | None => [] end
  end.

Lemma typed_tokens_ok xs : Forall typed_ok xs -> tokens_ok (concat (map typed_tokens xs)).
Proof.
  intros H. induction H as [|x xs Hx H IH]; [constructor|].
  destruct Hx; cbn [map concat typed_tokens app]; by constructor.
Qed.

Lemma merge_typed xs merged : Forall typed_ok xs ->
  mergeOperandsAndValues ops p (concat (map typed_tokens xs)) merged =
  inr (merged ++ concat (map typed_items xs)).
Proof.
  intros H. revert merged. induction H as [|x xs Hx H IH]; intros merged; [cbn; by rewrite app_nil_r|].
  destruct Hx as [t Ht|n v Hn Hv [fn Hfn]]; cbn [map concat typed_tokens typed_items app mergeOperandsAndValues].
  - cbn [operator op_token text]. by rewrite IH, <- app_assoc.
  - cbn [operator operandName operandValue name_token value_token text].
    unfold operandExists, operandFor. rewrite Hfn, bool_decide_true by eauto. cbn [negb].
    by rewrite IH, <- app_assoc.
Qed.

(** The text syntax reaches every expression.  Whatever operators and
    registered operands a client types, with names of letters, digits, - and _
    and values without a quote, the tokenizer reads back the tokens that
    [tokenList.String] prints, and [Parse] returns exactly what [New] returns on
    the corresponding items; a value that does hold a quote can be written with
    its runes escaped. *)
Theorem Parse_printed (xs : list typed) (Hxs : Forall typed_ok xs) :
  let tl := concat (map typed_tokens xs) in
  tokenize (tokenList_String tl) = inr tl /\
  Parse ops p (tokenList_String tl) =
    (let! r := New ops (concat (map typed_items xs)) in
     Ok (match r with inl err => inl (ExprError err) | inr m => inr m end)) /\
  forall n v, name_ok n -> tokenize (n ++ [r_equal] ++ escaped v) = inr [name_token n; value_token v].
Proof.
  cbv zeta. pose proof (tokenize_String _ (typed_tokens_ok _ Hxs)) as E. split; [done|]. split.
  - unfold Parse. rewrite E, (merge_typed _ _ Hxs). done.
  - intros n v Hn. unfold tokenize. rewrite app_assoc, run_app, run_name by done. cbn [app].
    destruct (run_escaped v soperandValue [] [name_token n]) as (st & -> & [-> | ->]); [by left|done..].
Qed.
End parsing.
End tokenizer.

(** *** Witnesses *)

Definition bool_ops : Operand bool unit unit := MkOperandOps bool unit unit bool inr (fun o v => eqb o v) (fun _ _ => true).

Example New_Eval_unmixed_witness :
  exists m, New bool_ops [NewOperandItem bool_ops true; OR bool_ops; NOT bool_ops; LeftBracket bool_ops;
      NewOperandItem bool_ops true; AND bool_ops; NewOperandItem bool_ops false; RightBracket bool_ops] = Ok (inr m) /\
    Eval bool_ops m false = Ok true.
Proof.
  exact (New_Eval_unmixed bool_ops id (TOp bool_ops false true)
    [(Or, TSub bool_ops true (TOp bool_ops false true) [(And, TOp bool_ops false false)])] Or false
    ltac:(by constructor) ltac:(repeat (constructor; cbn; try done))
    ltac:(constructor) ltac:(constructor; [apply (unmixed_sub _ _ _ _ And); repeat constructor|constructor])
    ltac:(by repeat constructor)).
Defined.

Example Eval_mixed_operators_witness :
  exists m, New bool_ops [NewOperandItem bool_ops false; AND bool_ops; NewOperandItem bool_ops true;
      OR bool_ops; NewOperandItem bool_ops true] = Ok (inr m) /\ Eval bool_ops m true = Ok false.
Proof. apply (Eval_mixed_operators bool_ops id false true true true). by repeat constructor. Defined.

Example New_total_witness :
  (exists r, New bool_ops [LeftBracket bool_ops; RightBracket bool_ops] = Ok r) /\
  exists m, New bool_ops (NewOperandItem bool_ops <$> [true; true; true]) = Ok (inr m) /\ Eval bool_ops m true = Panic.
Proof.
  pose proof (New_total bool_ops [LeftBracket bool_ops; RightBracket bool_ops] ltac:(by repeat constructor)) as [H1 H2].
  split; [exact H1|]. by apply (H2 true true true true true true true).
Defined.

(** re='a' && ( re='b' ), with one registered operand. *)
Definition no_class (_ : rune) : bool := false.
Definition re_parser : Parser bool_ops := {[ [114; 101] := fun _ v => bool_decide (v = [97]) ]}.
Definition re_typed : list typed :=
  [TypedOperand [114; 101] [97]; TypedOp [r_amp; r_amp]; TypedOp [r_lparen];
   TypedOperand [114; 101] [98]; TypedOp [r_rparen]].

Lemma re_typed_ok : Forall (typed_ok no_class no_class no_class bool_ops re_parser) re_typed.
Proof.
  assert (forall v, v <> r_quote -> typed_ok no_class no_class no_class bool_ops re_parser (TypedOperand [114; 101] [v])).
  { intros v Hv. constructor; [|by repeat constructor|].
    - exists 114, [101]. by repeat constructor.
    - by exists (fun _ v => bool_decide (v = [97])). }
  unfold re_typed. rewrite !Forall_cons. repeat (apply conj); auto; try (constructor; unfold op_text; tauto); by apply H.
Qed.

Example Parse_printed_witness :
  exists m, Parse no_class no_class no_class bool_ops re_parser
    (tokenList_String no_class (concat (map typed_tokens re_typed))) = Ok (inr m).
Proof.
  destruct (Parse_printed no_class no_class no_class bool_ops re_parser re_typed re_typed_ok) as (_ & E & _).
  eexists. rewrite E. vm_compute. reflexivity.
Defined.
