(* ===== verification/Dates.v ===== *)
(** * Dates (datetime: yearplace.go, dates.go, calendar.go, timeofday.go)

    Months, dates and calendar dates are packed unsigned integers, kept here as
    [Z] with the shifts, masks and conversions of the source.  The reference is
    the proleptic Gregorian calendar: a date is valid when its day exists, and
    [abs] numbers the days of the calendar consecutively. *)

From stdpp Require Import base list option numbers.
From Stdlib Require Import ZArith Lia.
From S2P Require Import Prelude.

Open Scope list_scope.
Open Scope Z_scope.
Open Scope go_scope.

(** Conversions to unsigned integers. *)
Definition u8 (z : Z) : Z := z mod 2 ^ 8.
Definition u16 (z : Z) : Z := z mod 2 ^ 16.
Definition u32 (z : Z) : Z := z mod 2 ^ 32.

(** ** Years and months (yearplace.go) *)

Definition IsLeap (year : Z) : bool :=
  (Z.rem year 4 =? 0) && negb (Z.rem year 100 =? 0) || (Z.rem year 400 =? 0).

Definition DaysInFeb (year : Z) : Z := if IsLeap year then 29 else 28.

Definition DaysInYear (year : Z) : Z := if IsLeap year then 366 else 365.

Definition daysInMonthForYearInit (year month : Z) : Z :=
  if month =? 2 then DaysInFeb year
  else if (month =? 4) || (month =? 6) || (month =? 9) || (month =? 11) then 30 else 31.

(** The tables [init] fills. *)
Definition daysInMonth : list Z := map (fun i => daysInMonthForYearInit 2023 (Z.of_nat i + 1)) (seq 0 12).
Definition daysInMonthLeap : list Z := map (fun i => daysInMonthForYearInit 2024 (Z.of_nat i + 1)) (seq 0 12).

Fixpoint cumulative (sum : Z) (l : list Z) : list Z :=
  match l with [] => [] | d :: l => sum :: cumulative (sum + d) l end.

Definition dayOfYear : list Z := cumulative 0 daysInMonth.
Definition dayOfYearLeap : list Z := cumulative 0 daysInMonthLeap.

Definition daysInMonthForYear (year : Z) : list Z := if IsLeap year then daysInMonthLeap else daysInMonth.

(** [month] is a uint8, so [month-1] wraps. *)
Definition DaysInMonth (year month : Z) : res Z := checked (zget (daysInMonthForYear year) (u8 (month - 1))).

Definition mirrorMonths : list Z := [10; 9; 8; 7; 6; 5; 4; 3; 2; 1; 0; 11].

Definition MirrorMonth (month : Z) : res Z :=
  let! m := checked (zget mirrorMonths (u8 (month - 1))) in Ok (u8 (m + 1)).

(** ** Dates (dates.go) *)

(** A month in the high byte and a day in the low byte. *)
Definition NewDate (month day : Z) : Z := Z.lor (Z.shiftl (Z.land month 255) 8) (u8 (Z.land day 255)).

Definition newDate8 (month day : Z) : Z := Z.lor (Z.shiftl (Z.land month 255) 8) (Z.land day 255).

Definition Date_Month (d : Z) : Z := u8 (Z.shiftr d 8).
Definition Date_Day (d : Z) : Z := Z.land d 255.

Definition Date_Normalize (d year : Z) (firstOfMonth : bool) : res Z :=
  let month := Z.min (Z.max (u8 (Z.shiftr d 8)) 1) 12 in
  let! dm := checked (zget (daysInMonthForYear year) (u8 (month - 1))) in
  let day := u8 (Z.land d 255) in
  let day := if day =? 0 then (if firstOfMonth then 1 else dm) else day in
  Ok (newDate8 month (Z.min day dm)).

Definition calcDayOfYear (month day : Z) (leap : bool) : res Z :=
  let month := u8 (month - 1) in
  if leap then
    let! dm := checked (zget daysInMonthLeap month) in
    let! dy := checked (zget dayOfYearLeap month) in
    Ok (dy + (if dm <? day then dm else day))
  else
    let! dm := checked (zget daysInMonth month) in
    let! dy := checked (zget dayOfYear month) in
    Ok (dy + (if dm <? day then dm else day)).

Definition Date_calcDayOfYear (d : Z) (leap : bool) : res Z :=
  calcDayOfYear (u8 (Z.land (Z.shiftr d 8) 255)) (u8 (Z.land d 255)) leap.

Definition Date_DayOfYear (d year : Z) : res Z := Date_calcDayOfYear d (IsLeap year).

Definition tomorrow (d : Z) (daysInMonth : list Z) : res Z :=
  let day := u8 (Z.land d 255) in
  let month := u8 (Z.shiftr d 8) in
  if (month =? 12) && (day =? 31) then Ok (NewDate 1 1)
  else
    let! dm := checked (zget daysInMonth (u8 (month - 1))) in
    if dm <=? day then Ok (NewDate (u8 (month + 1)) 1) else Ok (NewDate month (u8 (day + 1))).

Definition Date_Tomorrow (d year : Z) : res Z := tomorrow d (daysInMonthForYear year).

Definition yesterday (d : Z) (daysInMonth : list Z) : res Z :=
  let day := u8 (Z.land d 255) in
  let month := u8 (Z.shiftr d 8) in
  if (month =? 1) && (day =? 1) then Ok (NewDate 12 31)
  else if day <=? 1 then
    let! dm := checked (zget daysInMonth (u8 (month - 2))) in Ok (newDate8 (u8 (month - 1)) dm)
  else Ok (newDate8 month (u8 (day - 1))).

Definition Date_Yesterday (d year : Z) : res Z := yesterday d (daysInMonthForYear year).

(** *** Days of a year (yearplace.go) *)

Definition NewYearDay (year day : Z) : Z :=
  let n := DaysInYear year in
  let day := if n <? day then n else day in
  Z.lor (u32 (Z.shiftl (u32 year) 16)) (u32 day).

Definition YearDay_Year (yd : Z) : Z := Z.shiftr yd 16.
Definition YearDay_Day (yd : Z) : Z := Z.land yd 65535.

(** The loop of [dateFromDay] over the months left; the loop's end is
    unreachable. *)
Fixpoint dateFromDay_loop (months : list Z) (month day : Z) : res Z :=
  match months with
  | [] => Panic
  | dm :: months =>
      if day <=? dm then Ok (NewDate (month + 1) day) else dateFromDay_loop months (month + 1) (day - dm)
  end.

Definition dateFromDay (day : Z) (daysInMonth : list Z) : res Z := dateFromDay_loop daysInMonth 0 day.

Definition YearDay_Date (yd : Z) : res Z :=
  let day := YearDay_Day yd in
  if day <=? 0 then Ok (NewDate 1 1)
  else if IsLeap (YearDay_Year yd) then
    if 366 <? day then Ok (NewDate 12 31) else dateFromDay day daysInMonthLeap
  else if 365 <? day then Ok (NewDate 12 31) else dateFromDay day daysInMonth.

Definition Date_YearDay (d year : Z) : res Z :=
  let! n := Date_DayOfYear d year in Ok (NewYearDay year n).

(** ** Calendar dates (calendar.go) *)

(** The year in the top 16 bits. *)
Definition NewCalendarDate (year month day : Z) : Z :=
  Z.lor (Z.lor (u32 (Z.shiftl (u32 (Z.land year 65535)) 16)) (Z.shiftl month 8)) (u32 day).

Definition newCalendarDate8 (year month day : Z) : Z :=
  Z.lor (Z.lor (u32 (Z.shiftl (u32 (Z.land year 65535)) 16)) (Z.shiftl month 8)) (u32 day).

Definition Year (cd : Z) : Z := Z.land (Z.shiftr cd 16) 65535.
Definition year16 (cd : Z) : Z := u16 (Z.land (Z.shiftr cd 16) 65535).
Definition Month (cd : Z) : Z := u8 (Z.land (Z.shiftr cd 8) 255).
Definition Day (cd : Z) : Z := Z.land cd 255.
Definition day8 (cd : Z) : Z := u8 (Z.land cd 255).
Definition Date (cd : Z) : Z := u16 (Z.land cd 65535).

Definition Date_CalendarDate (d year : Z) : Z := NewCalendarDate year (Date_Month d) (Date_Day d).

Definition YearDay_CalendarDate (yd : Z) : res Z :=
  let! date := YearDay_Date yd in Ok (NewCalendarDate (YearDay_Year yd) (Date_Month date) (Date_Day date)).

Definition Normalize (cd : Z) (firstOfMonth : bool) : res Z :=
  let year := Year cd in
  let month := Z.min (Z.max (Month cd) 1) 12 in
  let! dm := checked (zget (daysInMonthForYear year) (u8 (month - 1))) in
  let day := day8 cd in
  let day := if day =? 0 then (if firstOfMonth then 1 else dm) else day in
  Ok (NewCalendarDate year month (Z.min day dm)).

Definition DayOfYear (cd : Z) : res Z :=
  calcDayOfYear (u8 (Z.land (Z.shiftr cd 8) 255)) (u8 (Z.land cd 255)) (IsLeap (Year cd)).

Definition YearDay (cd : Z) : res Z := let! n := DayOfYear cd in Ok (NewYearDay (Year cd) n).

Definition Tomorrow (cd : Z) : res Z :=
  let year := Year cd in
  let month := Month cd in
  let day := Day cd in
  if (month =? 12) && (day =? 31) then Ok (NewCalendarDate (year + 1) 1 1)
  else
    let! dm := DaysInMonth year month in
    if day =? dm then Ok (NewCalendarDate year (u8 (month + 1)) 1)
    else Ok (NewCalendarDate year month (day + 1)).

Definition Yesterday (cd : Z) : res Z :=
  let year := year16 cd in
  let month := Month cd in
  let day := Day cd in
  if (month =? 1) && (day =? 1) then Ok (newCalendarDate8 (u16 (year - 1)) 12 31)
  else if day =? 1 then
    let! dm := DaysInMonth year month in Ok (newCalendarDate8 year (u8 (month - 1)) dm)
  else Ok (newCalendarDate8 year month (u8 (u8 (Z.land day 255) - 1))).

(** ** Times of day (timeofday.go) *)

(** [hour<<16 | minute<<8 | second], an [int] converted to a uint32. *)
Definition NewTimeOfDay (hour minute second : Z) : Z :=
  u32 (Z.lor (Z.lor (Z.shiftl hour 16) (Z.shiftl minute 8)) second).

Definition Hour (t : Z) : Z := Z.shiftr t 16.
Definition Minute (t : Z) : Z := Z.land (Z.shiftr t 8) 255.
Definition Second (t : Z) : Z := Z.land t 255.

Definition TimeOfDay_Normalize (t : Z) : Z :=
  NewTimeOfDay (Z.max (Hour t) 23) (Z.max (Minute t) 59) (Z.max (Second t) 59).

(** ** Packed fields *)

Lemma lor_shiftl hi lo k : 0 <= k -> 0 <= lo < 2 ^ k -> Z.lor (Z.shiftl hi k) lo = hi * 2 ^ k + lo.
Proof.
  intros Hk Hlo. rewrite <- Z.shiftl_mul_pow2 by done.
  assert (Z.land (Z.shiftl hi k) lo = 0) as Hland.
  { apply Z.bits_inj'. intros n Hn. rewrite Z.land_spec, Z.bits_0.
    destruct (Z.lt_ge_cases n k).
    - by rewrite Z.shiftl_spec_low by lia.
    - assert (Z.testbit lo n = false) as ->.
      { destruct (Z.eq_dec lo 0) as [->|]; [apply Z.bits_0|]. apply Z.bits_above_log2; [lia|].
        apply Z.log2_lt_pow2; [lia|]. apply Z.lt_le_trans with (2 ^ k); [lia|]. apply Z.pow_le_mono_r; lia. }
      apply andb_false_r. }
  pose proof (Z.add_lor_land (Z.shiftl hi k) lo). lia.
Qed.

Lemma land_255 z : Z.land z 255 = z mod 256.
Proof. exact (Z.land_ones z 8 ltac:(lia)). Qed.

Lemma land_65535 z : Z.land z 65535 = z mod 65536.
Proof. exact (Z.land_ones z 16 ltac:(lia)). Qed.

Lemma shiftr_8 z : Z.shiftr z 8 = z / 256.
Proof. exact (Z.shiftr_div_pow2 z 8 ltac:(lia)). Qed.

Lemma shiftr_16 z : Z.shiftr z 16 = z / 65536.
Proof. exact (Z.shiftr_div_pow2 z 16 ltac:(lia)). Qed.

Create Rewrite HintDb go_bits.
#[export] Hint Rewrite land_255 land_65535 shiftr_8 shiftr_16 : go_bits.

Lemma NewDate_val m d : 0 <= m < 256 -> 0 <= d < 256 -> NewDate m d = 256 * m + d.
Proof.
  intros Hm Hd. unfold NewDate, u8. autorewrite with go_bits.
  rewrite (Z.mod_small m), (Z.mod_small d), (Z.mod_small d) by lia. rewrite lor_shiftl by lia. lia.
Qed.

Lemma newDate8_val m d : 0 <= m < 256 -> 0 <= d < 256 -> newDate8 m d = 256 * m + d.
Proof.
  intros Hm Hd. unfold newDate8. autorewrite with go_bits.
  rewrite (Z.mod_small m), (Z.mod_small d) by lia. rewrite lor_shiftl by lia. lia.
Qed.

Lemma NewCalendarDate_val y m d : 0 <= y < 65536 -> 0 <= m < 256 -> 0 <= d < 256 ->
  NewCalendarDate y m d = 65536 * y + 256 * m + d.
Proof.
  intros Hy Hm Hd. unfold NewCalendarDate, u32. autorewrite with go_bits.
  rewrite (Z.mod_small y) by lia. rewrite (Z.mod_small y) by lia.
  assert (Z.shiftl y 16 = 65536 * y) as E by (rewrite Z.shiftl_mul_pow2 by lia; lia).
  rewrite (Z.mod_small (Z.shiftl y 16)), (Z.mod_small d) by lia.
  rewrite <- Z.lor_assoc, (lor_shiftl m d 8) by lia. rewrite lor_shiftl by lia. lia.
Qed.

(** The fields of a packed date, and of a packed calendar date. *)
Lemma date_fields m d : 0 <= m < 256 -> 0 <= d < 256 ->
  u8 (Z.shiftr (256 * m + d) 8) = m /\ Z.land (256 * m + d) 255 = d /\ u8 (Z.land (256 * m + d) 255) = d /\
  u8 (Z.land (Z.shiftr (256 * m + d) 8) 255) = m.
Proof.
  intros Hm Hd. unfold u8. autorewrite with go_bits.
  assert ((256 * m + d) / 256 = m) as -> by div_lia. assert ((256 * m + d) mod 256 = d) as -> by div_lia.
  change (2 ^ 8) with 256. repeat split; div_lia.
Qed.

Lemma cd_fields y m d : 0 <= y < 65536 -> 0 <= m < 256 -> 0 <= d < 256 ->
  let cd := 65536 * y + 256 * m + d in
  Year cd = y /\ year16 cd = y /\ Month cd = m /\ Day cd = d /\ day8 cd = d /\ Date cd = 256 * m + d /\
  u8 (Z.land (Z.shiftr cd 8) 255) = m /\ u8 (Z.land cd 255) = d.
Proof.
  intros Hy Hm Hd. cbv zeta. unfold Year, year16, Month, Day, day8, Date, u8, u16. autorewrite with go_bits.
  change (2 ^ 8) with 256. change (2 ^ 16) with 65536. set (cd := 65536 * y + 256 * m + d).
  assert (cd / 65536 = y) as -> by (subst cd; div_lia).
  assert ((cd / 256) mod 256 = m) as ->.
  { assert (cd / 256 = 256 * y + m) as -> by (subst cd; div_lia). div_lia. }
  assert (cd mod 256 = d) as -> by (subst cd; div_lia).
  assert (cd mod 65536 = 256 * m + d) as -> by (subst cd; div_lia).
  repeat split; div_lia.
Qed.

(** ** The calendar *)

Definition dim_table (leap : bool) : list Z := if leap then daysInMonthLeap else daysInMonth.
Definition doy_table (leap : bool) : list Z := if leap then dayOfYearLeap else dayOfYear.

(** The days of a month, and those of the months before it. *)
Definition dim (leap : bool) (m : Z) : Z := default 0 (zget (dim_table leap) (m - 1)).
Definition before_month (leap : bool) (m : Z) : Z := default 0 (zget (doy_table leap) (m - 1)).

Definition year_days (leap : bool) : Z := if leap then 366 else 365.

(** A day that exists. *)
Definition date_ok (leap : bool) (m d : Z) : Prop := 1 <= m <= 12 /\ 1 <= d <= dim leap m.

Definition ordinal (leap : bool) (m d : Z) : Z := before_month leap m + d.

(** Facts about the twelve months are checked by computation. *)
Definition all_months (P : bool -> Z -> bool) : bool :=
  forallb (fun leap => forallb (fun m => P leap (Z.of_nat m)) (seq 1 12)) [true; false].

Lemma all_months_spec P : all_months P = true -> forall leap m, 1 <= m <= 12 -> P leap m = true.
Proof.
  unfold all_months. rewrite forallb_forall. intros H leap m Hm.
  assert (In leap [true; false]) as Hl by (destruct leap; cbn; auto).
  specialize (H leap Hl). rewrite forallb_forall in H. specialize (H (Z.to_nat m)).
  rewrite Z2Nat.id in H by lia. apply H. apply in_seq. lia.
Qed.

Lemma dim_bounds leap m : 1 <= m <= 12 -> 28 <= dim leap m <= 31.
Proof.
  intros Hm. pose proof (all_months_spec (fun leap m => (28 <=? dim leap m) && (dim leap m <=? 31)) eq_refl leap m Hm) as H.
  cbn beta in H. bool_to_prop. lia.
Qed.

Lemma before_month_next leap m : 1 <= m <= 11 -> before_month leap (m + 1) = before_month leap m + dim leap m.
Proof.
  intros Hm. pose proof (all_months_spec (fun leap m => (m =? 12) ||
    (before_month leap (m + 1) =? before_month leap m + dim leap m)) eq_refl leap m ltac:(lia)) as H.
  cbn beta in H. apply orb_true_iff in H as [H|H]; bool_to_prop; lia.
Qed.

Lemma before_month_mono leap m1 m2 : 1 <= m1 -> m1 < m2 -> m2 <= 12 ->
  before_month leap m1 + dim leap m1 <= before_month leap m2.
Proof.
  intros H1 Hlt H2. replace m2 with (m1 + 1 + Z.of_nat (Z.to_nat (m2 - m1 - 1))) in * by lia.
  generalize dependent (Z.to_nat (m2 - m1 - 1)). intros k. induction k as [|k IH]; intros Hlt H2.
  - replace (m1 + 1 + Z.of_nat 0) with (m1 + 1) in * by lia. rewrite before_month_next by lia. lia.
  - replace (m1 + 1 + Z.of_nat (S k)) with (m1 + 1 + Z.of_nat k + 1) in * by lia.
    rewrite before_month_next by lia. specialize (IH ltac:(lia) ltac:(lia)).
    pose proof (dim_bounds leap (m1 + 1 + Z.of_nat k)). lia.
Qed.

Lemma ordinal_first leap : before_month leap 1 = 0.
Proof. by destruct leap. Qed.

Lemma ordinal_last leap : ordinal leap 12 31 = year_days leap.
Proof. by destruct leap. Qed.

Lemma ordinal_lt leap m1 d1 m2 d2 : date_ok leap m1 d1 -> date_ok leap m2 d2 ->
  256 * m1 + d1 < 256 * m2 + d2 <-> ordinal leap m1 d1 < ordinal leap m2 d2.
Proof.
  intros [Hm1 Hd1] [Hm2 Hd2]. pose proof (dim_bounds leap m1 Hm1). pose proof (dim_bounds leap m2 Hm2). unfold ordinal.
  destruct (Z.lt_trichotomy m1 m2) as [Hlt|[->|Hlt]].
  - pose proof (before_month_mono leap m1 m2). lia.
  - lia.
  - pose proof (before_month_mono leap m2 m1). lia.
Qed.

Lemma ordinal_inj leap m1 d1 m2 d2 : date_ok leap m1 d1 -> date_ok leap m2 d2 ->
  ordinal leap m1 d1 = ordinal leap m2 d2 -> m1 = m2 /\ d1 = d2.
Proof.
  intros H1 H2 E. pose proof (ordinal_lt leap m1 d1 m2 d2 H1 H2). pose proof (ordinal_lt leap m2 d2 m1 d1 H2 H1).
  destruct H1 as [Hm1 Hd1], H2 as [Hm2 Hd2].
  pose proof (dim_bounds leap m1 Hm1). pose proof (dim_bounds leap m2 Hm2). lia.
Qed.

Lemma ordinal_bounds leap m d : date_ok leap m d -> 1 <= ordinal leap m d <= year_days leap.
Proof.
  intros [Hm Hd]. rewrite <- ordinal_last. unfold ordinal. destruct (Z.eq_dec m 12) as [->|].
  - assert (dim leap 12 = 31) by (by destruct leap). assert (0 <= before_month leap 12) by (by destruct leap). lia.
  - pose proof (before_month_mono leap m 12). pose proof (dim_bounds leap m Hm).
    destruct (Z.eq_dec m 1) as [->|]; [rewrite ordinal_first in *; lia|].
    pose proof (before_month_mono leap 1 m). rewrite ordinal_first in *. pose proof (dim_bounds leap 1). lia.
Qed.

(** The tables are read where a month exists. *)
Lemma dim_get leap m : 1 <= m <= 12 -> zget (dim_table leap) (u8 (m - 1)) = Some (dim leap m).
Proof.
  intros Hm. unfold u8. rewrite Z.mod_small by lia. unfold dim.
  destruct (zget_is_Some (dim_table leap) (m - 1)) as [x ->]; [|done].
  assert (len (dim_table leap) = 12) by (by destruct leap). lia.
Qed.

Lemma doy_get leap m : 1 <= m <= 12 -> zget (doy_table leap) (u8 (m - 1)) = Some (before_month leap m).
Proof.
  intros Hm. unfold u8. rewrite Z.mod_small by lia. unfold before_month.
  destruct (zget_is_Some (doy_table leap) (m - 1)) as [x ->]; [|done].
  assert (len (doy_table leap) = 12) by (by destruct leap). lia.
Qed.

Lemma daysInMonthForYear_table year : daysInMonthForYear year = dim_table (IsLeap year).
Proof. done. Qed.

Lemma DaysInMonth_spec year m : 1 <= m <= 12 -> DaysInMonth year m = Ok (dim (IsLeap year) m).
Proof. intros Hm. unfold DaysInMonth. rewrite daysInMonthForYear_table, dim_get by done. done. Qed.

Lemma calcDayOfYear_spec leap m d : 1 <= m <= 12 ->
  calcDayOfYear m d leap = Ok (before_month leap m + Z.min d (dim leap m)).
Proof.
  intros Hm. unfold calcDayOfYear. pose proof (dim_get leap m Hm) as H1. pose proof (doy_get leap m Hm) as H2.
  cbv zeta. destruct leap; cbn [dim_table doy_table] in H1, H2; rewrite H1, H2; cbn [checked rbind];
    f_equal; test_case; lia.
Qed.

(** ** Days of a year *)

Definition all_days (P : bool -> Z -> bool) : bool :=
  forallb (fun leap => forallb (fun n => P leap (Z.of_nat n)) (seq 1 (Z.to_nat (year_days leap)))) [true; false].

Lemma all_days_spec P : all_days P = true -> forall leap n, 1 <= n <= year_days leap -> P leap n = true.
Proof.
  unfold all_days. rewrite forallb_forall. intros H leap n Hn.
  assert (In leap [true; false]) as Hl by (destruct leap; cbn; auto).
  specialize (H leap Hl). rewrite forallb_forall in H. specialize (H (Z.to_nat n)).
  rewrite Z2Nat.id in H by lia. apply H. apply in_seq. lia.
Qed.

Definition date_okb (leap : bool) (m d : Z) : bool :=
  (1 <=? m) && (m <=? 12) && (1 <=? d) && (d <=? dim leap m).

Lemma date_okb_true leap m d : date_okb leap m d = true <-> date_ok leap m d.
Proof.
  unfold date_okb, date_ok. rewrite !andb_true_iff, !Z.leb_le. tauto.
Qed.

Lemma dateFromDay_spec leap n : 1 <= n <= year_days leap ->
  exists m d, dateFromDay n (dim_table leap) = Ok (NewDate m d) /\ date_ok leap m d /\ ordinal leap m d = n.
Proof.
  intros Hn. pose proof (all_days_spec (fun leap n => match dateFromDay n (dim_table leap) with
    | Ok x => date_okb leap (x / 256) (x mod 256) && (ordinal leap (x / 256) (x mod 256) =? n) &&
              (0 <=? x) && (x <? 65536)
    | _ => false end) eq_refl leap n Hn) as H.
  cbn beta in H. destruct (dateFromDay n (dim_table leap)) as [x| |]; [|done..].
  apply andb_true_iff in H as [H Hx2]. apply andb_true_iff in H as [H Hx1]. apply andb_true_iff in H as [H1 H2].
  apply date_okb_true in H1. bool_to_prop. exists (x / 256), (x mod 256).
  rewrite NewDate_val by div_lia. split; [f_equal; div_lia|]. done.
Qed.

Lemma IsLeap_days year : DaysInYear year = year_days (IsLeap year).
Proof. done. Qed.

Lemma NewYearDay_fields year day : 0 <= year < 65536 -> 0 <= day <= DaysInYear year ->
  YearDay_Year (NewYearDay year day) = year /\ YearDay_Day (NewYearDay year day) = day.
Proof.
  intros Hy Hd. assert (DaysInYear year <= 366) by (unfold DaysInYear; test_case; lia).
  unfold NewYearDay, YearDay_Year, YearDay_Day, u32. rewrite (proj2 (Z.ltb_ge _ _)) by lia.
  rewrite (Z.mod_small year) by lia.
  assert (Z.shiftl year 16 = 65536 * year) as E by (rewrite Z.shiftl_mul_pow2 by lia; lia).
  rewrite (Z.mod_small (Z.shiftl year 16)), (Z.mod_small day) by lia.
  rewrite lor_shiftl by lia. autorewrite with go_bits. split; div_lia.
Qed.

Lemma YearDay_Date_spec year n : 0 <= year < 65536 -> 1 <= n <= DaysInYear year ->
  exists m d, YearDay_Date (NewYearDay year n) = Ok (NewDate m d) /\
    date_ok (IsLeap year) m d /\ ordinal (IsLeap year) m d = n.
Proof.
  intros Hy Hn. destruct (NewYearDay_fields year n) as [E1 E2]; [done|lia|].
  unfold YearDay_Date. rewrite E1, E2. rewrite (proj2 (Z.leb_gt n 0)) by lia. rewrite IsLeap_days in Hn.
  destruct (dateFromDay_spec (IsLeap year) n Hn) as (m & d & E & H). exists m, d. split; [|done].
  rewrite <- E. destruct (IsLeap year); cbn [year_days dim_table] in *; rewrite (proj2 (Z.ltb_ge _ _)) by lia; done.
Qed.

Lemma date_ok_bytes leap m d : date_ok leap m d -> 1 <= m <= 12 /\ 1 <= d <= 31.
Proof. intros [Hm Hd]. pose proof (dim_bounds leap m Hm). lia. Qed.

Lemma Date_DayOfYear_spec year m d : date_ok (IsLeap year) m d ->
  Date_DayOfYear (NewDate m d) year = Ok (ordinal (IsLeap year) m d).
Proof.
  intros H. destruct (date_ok_bytes _ _ _ H) as [Hm Hd]. rewrite NewDate_val by lia.
  unfold Date_DayOfYear, Date_calcDayOfYear. destruct (date_fields m d) as (_ & _ & -> & ->); [lia..|].
  rewrite calcDayOfYear_spec by lia. destruct H as [_ H]. unfold ordinal. f_equal. lia.
Qed.

(** *** Neighbouring days *)
Definition next_day (leap : bool) (m d : Z) : Z * Z :=
  if (m =? 12) && (d =? 31) then (1, 1) else if d =? dim leap m then (m + 1, 1) else (m, d + 1).

Definition prev_day (leap : bool) (m d : Z) : Z * Z :=
  if (m =? 1) && (d =? 1) then (12, 31) else if d =? 1 then (m - 1, dim leap (m - 1)) else (m, d - 1).

Lemma dim_12 leap : dim leap 12 = 31.
Proof. by destruct leap. Qed.

Lemma dim_1 leap : dim leap 1 = 31.
Proof. by destruct leap. Qed.

Lemma next_day_ok leap m d : date_ok leap m d ->
  let '(m', d') := next_day leap m d in
  date_ok leap m' d' /\ prev_day leap m' d' = (m, d) /\
  (m = 12 /\ d = 31 \/ ordinal leap m' d' = ordinal leap m d + 1).
Proof.
  intros [Hm Hd]. unfold next_day. destruct ((m =? 12) && (d =? 31)) eqn:E1; [|destruct (d =? dim leap m) eqn:E2].
  - bool_to_prop. subst. split; [|split; [done|auto]]. split; [lia|]. rewrite dim_1. lia.
  - apply Z.eqb_eq in E2. assert (m <> 12) by (intros ->; rewrite dim_12 in E2; subst; done).
    pose proof (dim_bounds leap (m + 1)). unfold date_ok, prev_day, ordinal.
    rewrite (proj2 (Z.eqb_neq (m + 1) 1)) by lia. cbn [andb Z.eqb Pos.eqb].
    replace (m + 1 - 1) with m by lia. rewrite before_month_next by lia.
    split; [lia|]. split; [by rewrite E2|]. right. lia.
  - apply Z.eqb_neq in E2. unfold date_ok, prev_day, ordinal.
    rewrite (proj2 (Z.eqb_neq (d + 1) 1)), andb_false_r by lia.
    split; [lia|]. split; [f_equal; lia|]. right. lia.
Qed.

Lemma prev_day_ok leap m d : date_ok leap m d ->
  let '(m', d') := prev_day leap m d in date_ok leap m' d' /\ next_day leap m' d' = (m, d).
Proof.
  intros [Hm Hd]. unfold prev_day. destruct ((m =? 1) && (d =? 1)) eqn:E1; [|destruct (d =? 1) eqn:E2].
  - bool_to_prop. subst. split; [|done]. split; [lia|]. rewrite dim_12. lia.
  - rewrite andb_true_r in E1. bool_to_prop. subst. pose proof (dim_bounds leap (m - 1)). unfold date_ok, next_day.
    rewrite (proj2 (Z.eqb_neq (m - 1) 12)), Z.eqb_refl by lia. cbn [andb]. split; [lia|]. f_equal. lia.
  - apply Z.eqb_neq in E2. unfold date_ok, next_day. split; [lia|].
    rewrite (proj2 (Z.eqb_neq (d - 1) (dim leap m))) by lia.
    assert ((m =? 12) && (d - 1 =? 31) = false) as ->; [|f_equal; lia].
    apply andb_false_iff. destruct (Z.eq_dec m 12) as [->|]; [right; rewrite dim_12 in Hd; apply Z.eqb_neq; lia|].
    left. apply Z.eqb_neq. lia.
Qed.

Lemma Date_Tomorrow_spec year m d : date_ok (IsLeap year) m d ->
  Date_Tomorrow (NewDate m d) year = Ok (NewDate (next_day (IsLeap year) m d).1 (next_day (IsLeap year) m d).2).
Proof.
  intros H. destruct (date_ok_bytes _ _ _ H) as [Hm Hd]. rewrite (NewDate_val m d) by lia.
  unfold Date_Tomorrow, tomorrow. destruct (date_fields m d) as (-> & _ & -> & _); [lia..|].
  rewrite daysInMonthForYear_table, dim_get by lia. unfold next_day. destruct ((m =? 12) && (d =? 31)); [done|].
  cbn [checked rbind]. destruct H as [_ H]. unfold u8. rewrite !Z.mod_small by lia.
  destruct (Z.leb_spec (dim (IsLeap year) m) d), (Z.eqb_spec d (dim (IsLeap year) m)); try lia; done.
Qed.

Lemma Date_Yesterday_spec year m d : date_ok (IsLeap year) m d ->
  Date_Yesterday (NewDate m d) year = Ok (NewDate (prev_day (IsLeap year) m d).1 (prev_day (IsLeap year) m d).2).
Proof.
  intros H. destruct (date_ok_bytes _ _ _ H) as [Hm Hd]. rewrite (NewDate_val m d) by lia.
  unfold Date_Yesterday, yesterday. destruct (date_fields m d) as (-> & _ & -> & _); [lia..|].
  unfold prev_day. destruct ((m =? 1) && (d =? 1)) eqn:E; [done|]. destruct H as [_ H].
  destruct (Z.leb_spec d 1), (Z.eqb_spec d 1); try lia.
  - subst d. rewrite andb_true_r in E. apply Z.eqb_neq in E.
    rewrite daysInMonthForYear_table. replace (m - 2) with (m - 1 - 1) by lia. rewrite dim_get by lia.
    cbn [checked rbind fst snd]. pose proof (dim_bounds (IsLeap year) (m - 1)). unfold u8. rewrite Z.mod_small by lia.
    by rewrite newDate8_val, NewDate_val by lia.
  - cbn [fst snd]. unfold u8. rewrite Z.mod_small by lia. by rewrite newDate8_val, NewDate_val by lia.
Qed.

(** ** The calendar across years *)

(** The days of the years 0 to [y - 1]. *)
Definition before_year (y : Z) : Z := 365 * y + (y + 3) / 4 - (y + 99) / 100 + (y + 399) / 400.

(** The number of a day, counted from the first day of year 0. *)
Definition abs_day (y m d : Z) : Z := before_year y + ordinal (IsLeap y) m d.

(** A packed calendar date that exists. *)
Definition cd_ok (cd y m d : Z) : Prop :=
  0 <= y < 65536 /\ date_ok (IsLeap y) m d /\ cd = 65536 * y + 256 * m + d.

Lemma IsLeap_mod y : 0 <= y -> IsLeap y = (y mod 4 =? 0) && negb (y mod 100 =? 0) || (y mod 400 =? 0).
Proof. intros Hy. unfold IsLeap. by rewrite !Z.rem_mod_nonneg by lia. Qed.

Lemma before_year_next y : 0 <= y -> before_year (y + 1) = before_year y + year_days (IsLeap y).
Proof.
  intros Hy. rewrite IsLeap_mod by done. unfold before_year, year_days.
  destruct (Z.eqb_spec (y mod 4) 0), (Z.eqb_spec (y mod 100) 0), (Z.eqb_spec (y mod 400) 0); cbn; div_lia.
Qed.

Lemma before_year_mono y1 y2 : 0 <= y1 -> y1 < y2 -> before_year y1 + year_days (IsLeap y1) <= before_year y2.
Proof.
  intros H1 H. rewrite <- before_year_next by done. unfold before_year. div_lia.
Qed.

Lemma cd_ok_fields cd y m d : cd_ok cd y m d ->
  Year cd = y /\ year16 cd = y /\ Month cd = m /\ Day cd = d /\ day8 cd = d /\ Date cd = 256 * m + d /\
  u8 (Z.land (Z.shiftr cd 8) 255) = m /\ u8 (Z.land cd 255) = d.
Proof.
  intros (Hy & H & ->). destruct (date_ok_bytes _ _ _ H) as [Hm Hd]. apply cd_fields; lia.
Qed.

Lemma NewCalendarDate_ok y m d : 0 <= y < 65536 -> date_ok (IsLeap y) m d -> cd_ok (NewCalendarDate y m d) y m d.
Proof.
  intros Hy H. destruct (date_ok_bytes _ _ _ H) as [Hm Hd]. repeat split; try lia; try apply H.
  apply NewCalendarDate_val; lia.
Qed.

Lemma cd_ok_inj cd y m d y' m' d' : cd_ok cd y m d -> cd_ok cd y' m' d' -> y = y' /\ m = m' /\ d = d'.
Proof.
  intros H1 H2. pose proof (cd_ok_fields _ _ _ _ H1) as (A1 & _ & A2 & A3 & _).
  pose proof (cd_ok_fields _ _ _ _ H2) as (B1 & _ & B2 & B3 & _). rewrite A1 in B1. rewrite A2 in B2. rewrite A3 in B3. done.
Qed.

(** The order of the packed integers is the order of the calendar. *)
Lemma abs_lt cd1 y1 m1 d1 cd2 y2 m2 d2 : cd_ok cd1 y1 m1 d1 -> cd_ok cd2 y2 m2 d2 ->
  cd1 < cd2 <-> abs_day y1 m1 d1 < abs_day y2 m2 d2.
Proof.
  intros (Hy1 & H1 & ->) (Hy2 & H2 & ->). pose proof (ordinal_bounds _ _ _ H1). pose proof (ordinal_bounds _ _ _ H2).
  destruct (date_ok_bytes _ _ _ H1), (date_ok_bytes _ _ _ H2). unfold abs_day.
  destruct (Z.lt_trichotomy y1 y2) as [Hlt|[->|Hlt]].
  - pose proof (before_year_mono y1 y2). lia.
  - pose proof (ordinal_lt (IsLeap y2) m1 d1 m2 d2 H1 H2). lia.
  - pose proof (before_year_mono y2 y1). lia.
Qed.

Lemma abs_inj cd1 y1 m1 d1 cd2 y2 m2 d2 : cd_ok cd1 y1 m1 d1 -> cd_ok cd2 y2 m2 d2 ->
  abs_day y1 m1 d1 = abs_day y2 m2 d2 -> cd1 = cd2.
Proof.
  intros H1 H2 E. pose proof (abs_lt _ _ _ _ _ _ _ _ H1 H2). pose proof (abs_lt _ _ _ _ _ _ _ _ H2 H1). lia.
Qed.

Lemma Tomorrow_spec cd y m d : cd_ok cd y m d ->
  exists cd', Tomorrow cd = Ok cd' /\
    (m = 12 /\ d = 31 /\ y = 65535 /\ cd' = NewCalendarDate 0 1 1 \/
     exists y' m' d', cd_ok cd' y' m' d' /\ abs_day y' m' d' = abs_day y m d + 1).
Proof.
  intros H. destruct (cd_ok_fields _ _ _ _ H) as (E1 & _ & E2 & E3 & _). destruct H as (Hy & H & _).
  destruct (date_ok_bytes _ _ _ H) as [Hm Hd].
  unfold Tomorrow. rewrite E1, E2, E3. clear E1 E2 E3. pose proof (next_day_ok _ _ _ H) as Hn. unfold next_day in Hn.
  destruct ((m =? 12) && (d =? 31)) eqn:E.
  - bool_to_prop. subst m d. eexists. split; [done|]. destruct (Z.eq_dec y 65535) as [->|Hy']; [left; done|]. right.
    exists (y + 1), 1, 1. split; [apply NewCalendarDate_ok; [lia|]; split; [lia|rewrite dim_1; lia]|].
    unfold abs_day. rewrite before_year_next by lia. rewrite ordinal_last. unfold ordinal. rewrite ordinal_first. lia.
  - rewrite DaysInMonth_spec by done. cbn [rbind].
    destruct (d =? dim (IsLeap y) m) eqn:E'; destruct Hn as (Hok & _ & [[-> ->]|Ho]); try done;
      (eexists; split; [done|]; right; do 3 eexists; split; [apply NewCalendarDate_ok; [done|]|]).
    + assert (m <> 12) by (intros ->; destruct Hok; lia). unfold u8. rewrite Z.mod_small by lia. exact Hok.
    + unfold abs_day, u8. rewrite Z.mod_small by lia. lia.
    + exact Hok.
    + unfold abs_day. lia.
Qed.

(** [Yesterday] takes the length of the wrong month. *)
Lemma Yesterday_spec cd y m d : cd_ok cd y m d ->
  Yesterday cd = Ok (if (m =? 1) && (d =? 1) then NewCalendarDate (u16 (y - 1)) 12 31
                     else if d =? 1 then NewCalendarDate y (m - 1) (dim (IsLeap y) m)
                     else NewCalendarDate y m (d - 1)).
Proof.
  intros H. destruct (cd_ok_fields _ _ _ _ H) as (_ & E1 & E2 & E3 & _). pose proof H as H'. destruct H as (Hy & H & Ecd).
  destruct (date_ok_bytes _ _ _ H) as [Hm Hd]. unfold Yesterday. rewrite E1, E2, E3. clear E1 E2 E3.
  destruct ((m =? 1) && (d =? 1)) eqn:E; [done|]. destruct (d =? 1) eqn:E'.
  - rewrite andb_true_r in E. bool_to_prop. rewrite DaysInMonth_spec by done. cbn [rbind].
    unfold u8. rewrite Z.mod_small by lia. done.
  - bool_to_prop. rewrite land_255. unfold u8. change (2 ^ 8) with 256.
    assert (((d mod 256) mod 256 - 1) mod 256 = d - 1) as -> by div_lia. done.
Qed.

Lemma Normalize_spec cd (first : bool) y m d : 0 <= y < 65536 -> 0 <= m < 256 -> 0 <= d < 256 ->
  cd = 65536 * y + 256 * m + d ->
  let m' := Z.min (Z.max m 1) 12 in
  let n := dim (IsLeap y) m' in
  let d' := if d =? 0 then (if first then 1 else n) else Z.min d n in
  exists cd', Normalize cd first = Ok cd' /\ cd_ok cd' y m' d'.
Proof.
  intros Hy Hm Hd ->. cbv zeta. destruct (cd_fields y m d Hy Hm Hd) as (E1 & _ & E2 & _ & E3 & _).
  unfold Normalize. rewrite E1, E2, E3, daysInMonthForYear_table, dim_get by lia. cbn [checked rbind].
  eexists. split; [done|]. pose proof (dim_bounds (IsLeap y) (Z.min (Z.max m 1) 12)).
  destruct (Z.eqb_spec d 0) as [->|Hd0].
  - replace (Z.min (if first then 1 else dim (IsLeap y) (Z.min (Z.max m 1) 12)) (dim (IsLeap y) (Z.min (Z.max m 1) 12)))
      with (if first then 1 else dim (IsLeap y) (Z.min (Z.max m 1) 12)) by (destruct first; lia).
    apply NewCalendarDate_ok; [done|]. split; [lia|]. destruct first; lia.
  - apply NewCalendarDate_ok; [done|]. split; lia.
Qed.

Lemma Normalize_ok cd first y m d : cd_ok cd y m d -> Normalize cd first = Ok cd.
Proof.
  intros H. pose proof H as (Hy & Hd & ->). destruct (date_ok_bytes _ _ _ Hd) as [Hm Hd'].
  destruct (Normalize_spec _ first y m d Hy ltac:(lia) ltac:(lia) eq_refl) as (cd' & -> & H').
  f_equal. destruct H' as (_ & _ & ->). destruct Hd as [_ Hd].
  replace (Z.min (Z.max m 1) 12) with m by lia. rewrite (proj2 (Z.eqb_neq d 0)) by lia. lia.
Qed.

(** ** Properties *)

(** Within a year, [DayOfYear] and [YearDay.Date] are inverse bijections
    between the dates that exist and the numbers 1 to [DaysInYear]: the number of
    a date counts the days of the months before it, and each number leads back
    to its date. *)
Theorem DayOfYear_bijection (year : Z) (Hy : 0 <= year < 65536) :
  (forall m d, date_ok (IsLeap year) m d ->
     Date_DayOfYear (NewDate m d) year = Ok (ordinal (IsLeap year) m d) /\
     1 <= ordinal (IsLeap year) m d <= DaysInYear year /\
     YearDay_Date (NewYearDay year (ordinal (IsLeap year) m d)) = Ok (NewDate m d)) /\
  (forall n, 1 <= n <= DaysInYear year -> exists m d, date_ok (IsLeap year) m d /\
     YearDay_Date (NewYearDay year n) = Ok (NewDate m d) /\ Date_DayOfYear (NewDate m d) year = Ok n).
Proof.
  split.
  - intros m d H. split; [by apply Date_DayOfYear_spec|]. pose proof (ordinal_bounds _ _ _ H) as Hb.
    split; [done|]. destruct (YearDay_Date_spec year _ Hy Hb) as (m' & d' & -> & H' & E).
    by destruct (ordinal_inj _ _ _ _ _ H' H E) as [-> ->].
  - intros n Hn. destruct (YearDay_Date_spec year n Hy Hn) as (m & d & E & H & Ho).
    exists m, d. split; [done|]. split; [done|]. rewrite Date_DayOfYear_spec by done. by rewrite Ho.
Qed.

(** On the dates of any year, [Date.Tomorrow] and [Date.Yesterday] are
    inverse to each other and move by exactly one day, wrapping between
    December 31 and January 1. *)
Theorem Date_neighbours (year m d : Z) (H : date_ok (IsLeap year) m d) :
  (exists m' d', Date_Tomorrow (NewDate m d) year = Ok (NewDate m' d') /\ date_ok (IsLeap year) m' d' /\
     Date_Yesterday (NewDate m' d') year = Ok (NewDate m d) /\
     (m = 12 /\ d = 31 /\ m' = 1 /\ d' = 1 \/ ordinal (IsLeap year) m' d' = ordinal (IsLeap year) m d + 1)) /\
  (exists m' d', Date_Yesterday (NewDate m d) year = Ok (NewDate m' d') /\ date_ok (IsLeap year) m' d' /\
     Date_Tomorrow (NewDate m' d') year = Ok (NewDate m d)).
Proof.
  split.
  - pose proof (next_day_ok _ _ _ H) as Hn. rewrite (Date_Tomorrow_spec _ _ _ H).
    destruct (next_day (IsLeap year) m d) as [m' d'] eqn:E. destruct Hn as (Hok & Hp & Ho).
    exists m', d'. split; [done|]. split; [done|]. rewrite (Date_Yesterday_spec _ _ _ Hok), Hp. split; [done|].
    destruct Ho as [[-> ->]|Ho]; [|by right]. left. by injection E as <- <-.
  - pose proof (prev_day_ok _ _ _ H) as Hn. rewrite (Date_Yesterday_spec _ _ _ H).
    destruct (prev_day (IsLeap year) m d) as [m' d'] eqn:E. destruct Hn as (Hok & Hp).
    exists m', d'. split; [done|]. split; [done|]. by rewrite (Date_Tomorrow_spec _ _ _ Hok), Hp.
Qed.

(** [CalendarDate.Tomorrow] of every date that exists is the next day of the
    Gregorian calendar, leap years included, and the packed integers are ordered
    as the days are; only the last day of year 65535 wraps, to year 0. *)
Theorem Tomorrow_next_day (y m d : Z) (Hy : 0 <= y < 65536) (H : date_ok (IsLeap y) m d) :
  (exists cd', Tomorrow (NewCalendarDate y m d) = Ok cd' /\
     (m = 12 /\ d = 31 /\ y = 65535 /\ cd' = NewCalendarDate 0 1 1 \/
      exists y' m' d', cd_ok cd' y' m' d' /\ abs_day y' m' d' = abs_day y m d + 1)) /\
  forall y2 m2 d2, 0 <= y2 < 65536 -> date_ok (IsLeap y2) m2 d2 ->
    NewCalendarDate y m d < NewCalendarDate y2 m2 d2 <-> abs_day y m d < abs_day y2 m2 d2.
Proof.
  split; [by apply Tomorrow_spec, NewCalendarDate_ok|].
  intros y2 m2 d2 Hy2 H2. by apply abs_lt; apply NewCalendarDate_ok.
Qed.

(** [CalendarDate.Yesterday] is the previous day within a month and on
    January 1, but on the first of any other month it takes the length of that
    month rather than of the one before: the result is the previous day only for
    August 1. *)
Theorem Yesterday_first_of_month (y m : Z) (Hy : 0 <= y < 65536) (Hm : 2 <= m <= 12) :
  (forall d, 2 <= d <= dim (IsLeap y) m ->
     Yesterday (NewCalendarDate y m d) = Ok (NewCalendarDate y m (d - 1))) /\
  Yesterday (NewCalendarDate y m 1) = Ok (NewCalendarDate y (m - 1) (dim (IsLeap y) m)) /\
  (dim (IsLeap y) m = dim (IsLeap y) (m - 1) <-> m = 8).
Proof.
  pose proof (dim_bounds (IsLeap y) m).
  split; [|split].
  - intros d Hd. rewrite (Yesterday_spec _ y m d); [|apply NewCalendarDate_ok; [done|split; lia]].
    rewrite (proj2 (Z.eqb_neq d 1)), andb_false_r by lia. done.
  - rewrite (Yesterday_spec _ y m 1); [|apply NewCalendarDate_ok; [done|split; lia]].
    by rewrite (proj2 (Z.eqb_neq m 1)) by lia.
  - pose proof (all_months_spec (fun leap m => (m =? 1) || eqb (dim leap m =? dim leap (m - 1)) (m =? 8)) eq_refl
      (IsLeap y) m ltac:(lia)) as E. cbn beta in E.
    rewrite (proj2 (Z.eqb_neq m 1)) in E by lia. apply eqb_prop in E.
    rewrite <- Z.eqb_eq, E, Z.eqb_eq. done.
Qed.

(** The fields of a time of day read back what was packed, but [Normalize]
    takes the larger value where it must take the smaller: every time of day
    that exists is normalized to 23:59:59. *)
Theorem TimeOfDay_Normalize_last_second (h mi s : Z) (Hh : 0 <= h < 24) (Hmi : 0 <= mi < 60) (Hs : 0 <= s < 60) :
  Hour (NewTimeOfDay h mi s) = h /\ Minute (NewTimeOfDay h mi s) = mi /\ Second (NewTimeOfDay h mi s) = s /\
  TimeOfDay_Normalize (NewTimeOfDay h mi s) = NewTimeOfDay 23 59 59.
Proof.
  assert (NewTimeOfDay h mi s = 65536 * h + 256 * mi + s) as E.
  { unfold NewTimeOfDay, u32. rewrite <- Z.lor_assoc, (lor_shiftl mi s 8), lor_shiftl by lia. rewrite Z.mod_small; lia. }
  assert (Hour (NewTimeOfDay h mi s) = h /\ Minute (NewTimeOfDay h mi s) = mi /\ Second (NewTimeOfDay h mi s) = s)
    as (E1 & E2 & E3).
  { rewrite E. unfold Hour, Minute, Second. autorewrite with go_bits.
    assert ((65536 * h + 256 * mi + s) / 256 = 256 * h + mi) as -> by div_lia. repeat split; div_lia. }
  split; [done|]. split; [done|]. split; [done|]. unfold TimeOfDay_Normalize. rewrite E1, E2, E3. f_equal; lia.
Qed.

Example DayOfYear_bijection_witness :
  Date_DayOfYear (NewDate 3 1) 2024 = Ok 61 /\ YearDay_Date (NewYearDay 2024 61) = Ok (NewDate 3 1).
Proof.
  destruct (DayOfYear_bijection 2024 ltac:(lia)) as [H _].
  destruct (H 3 1 ltac:(split; vm_compute; split; discriminate)) as (E1 & _ & E2). split; [exact E1|exact E2].
Defined.

Example Date_neighbours_witness :
  exists m' d', Date_Tomorrow (NewDate 2 29) 2024 = Ok (NewDate m' d') /\ Date_Yesterday (NewDate m' d') 2024 = Ok (NewDate 2 29).
Proof.
  destruct (Date_neighbours 2024 2 29 ltac:(split; vm_compute; split; discriminate)) as [(m' & d' & E1 & _ & E2 & _) _].
  exists m', d'. split; [exact E1|exact E2].
Defined.

Example Tomorrow_next_day_witness :
  exists cd', Tomorrow (NewCalendarDate 2023 12 31) = Ok cd' /\ cd' = NewCalendarDate 2024 1 1.
Proof.
  destruct (Tomorrow_next_day 2023 12 31 ltac:(lia) ltac:(split; vm_compute; split; discriminate)) as [(cd' & E & _) _].
  exists cd'. split; [exact E|]. vm_compute in E. injection E as <-. reflexivity.
Defined.

(** The day before March 1, 2023 is February 31. *)
Example Yesterday_first_of_month_witness :
  Yesterday (NewCalendarDate 2023 3 1) = Ok (NewCalendarDate 2023 2 31) /\
  dim (IsLeap 2023) 3 <> dim (IsLeap 2023) 2.
Proof.
  destruct (Yesterday_first_of_month 2023 3 ltac:(lia) ltac:(lia)) as (_ & E & H).
  split; [exact E|]. intros E'. apply H in E'. discriminate.
Defined.

Example TimeOfDay_Normalize_last_second_witness :
  TimeOfDay_Normalize (NewTimeOfDay 8 30 0) = NewTimeOfDay 23 59 59.
Proof. apply (TimeOfDay_Normalize_last_second 8 30 0); lia. Defined.
