(* ===== verification/DateRanges.v ===== *)
(** * Ranges of dates (datetime: date_range.go, calendar_range.go, constraints.go)

    [DateRange] packs two dates into 32 bits and [CalendarDateRange] two calendar
    dates into 64, with the fields interleaved.  The iterators walk a range with
    [CalendarDate.Tomorrow]; the reference is the list of consecutive days. *)

From stdpp Require Import base list option numbers gmap sorting.
From Stdlib Require Import ZArith Lia.
From S2P Require Import Prelude Dates.

Open Scope list_scope.
Open Scope Z_scope.
Open Scope go_scope.

(** ** DateRange (date_range.go) *)

Definition dr_from (dr : Z) : Z * Z := (u8 (Z.land (Z.shiftr dr 24) 255), u8 (Z.land (Z.shiftr dr 8) 255)).
Definition dr_to (dr : Z) : Z * Z := (u8 (Z.land (Z.shiftr dr 16) 255), u8 (Z.land dr 255)).

Definition dr_fromDate (dr : Z) : Z :=
  newDate8 (u8 (Z.land (Z.shiftr dr 24) 255)) (u8 (Z.land (Z.shiftr dr 8) 255)).
Definition dr_toDate (dr : Z) : Z :=
  newDate8 (u8 (Z.land (Z.shiftr dr 16) 255)) (u8 (Z.land dr 255)).

Definition newDateRange (from to : Z) : Z :=
  let '(fm, fd) := (Date_Month from, Date_Day from) in
  let '(tm, td) := (Date_Month to, Date_Day to) in
  Z.lor (Z.lor (Z.lor (Z.shiftl fm 24) (Z.shiftl tm 16)) (Z.shiftl fd 8)) td.

Definition dr_From (dr year : Z) : Z :=
  let '(fromMonth, fromDay) := dr_from dr in
  if (fromMonth =? 2) && (fromDay =? 29) && negb (IsLeap year)
  then newDate8 fromMonth 28 else newDate8 fromMonth fromDay.

Definition dr_To (dr year : Z) : Z :=
  let '(toMonth, toDay) := dr_to dr in
  if (toMonth =? 2) && (toDay =? 29) && negb (IsLeap year)
  then newDate8 2 28 else newDate8 toMonth toDay.

Definition DateRangeYear : Z := newDateRange (NewDate 1 1) (NewDate 12 31).

Definition NewDateRange (from to : Z) : Z :=
  if to <? from then newDateRange to from else newDateRange from to.

Definition dr_Include (dr d : Z) : bool := (dr_fromDate dr <=? d) && (d <=? dr_toDate dr).

Definition dr_Normalize (dr year : Z) : res Z :=
  let! from := Date_Normalize (dr_From dr year) year true in
  let! to := Date_Normalize (dr_To dr year) year false in
  Ok (newDateRange from to).

Definition dr_Bound (dr year bound : Z) : res Z :=
  let! drn := dr_Normalize dr year in
  let! bn := dr_Normalize bound year in
  let from := Z.max (dr_From drn year) (dr_From bn year) in
  let to := Z.min (dr_To drn year) (dr_To bn year) in
  if to <? from then Ok 0 else Ok (newDateRange from to).

Definition dr_Equal (dr year dr2 : Z) : res bool :=
  let! ndr := dr_Normalize dr year in
  let! ndr2 := dr_Normalize dr2 year in
  Ok ((dr_From ndr year =? dr_From ndr2 year) && (dr_To ndr year =? dr_To ndr2 year)).

(** [slices.Sort] on packed ranges. *)
Fixpoint sort_insert (x : Z) (l : list Z) : list Z :=
  match l with
  | [] => [x]
  | y :: l' => if x <=? y then x :: l else y :: sort_insert x l'
  end.
Definition slices_Sort (l : list Z) : list Z := foldr sort_insert [] l.

(** [DateList.Merge]: the loop after the first date. *)
Fixpoint merge_dates (year prev from to : Z) (dl merged : list Z) : res (list Z) :=
  match dl with
  | [] => Ok (merged ++ [newDateRange from to])
  | d :: dl =>
      let! cur := Date_Normalize d year true in
      if prev =? cur then merge_dates year cur from to dl merged
      else
        let! y := yesterday cur (daysInMonthForYear year) in
        if prev =? y then merge_dates year cur from cur dl merged
        else merge_dates year cur cur cur dl (merged ++ [newDateRange from to])
  end.

(** An empty list panics at [dl[0]]. *)
Definition DateList_Merge (dl : list Z) (year : Z) : res (list Z) :=
  let! d0 := checked (zget dl 0) in
  let! from := Date_Normalize d0 year true in
  merge_dates year from from from (List.tl dl) [].

(** [DateRangeList.Merge]: the loop after the first range; [prev] is
    [drl[i-1]]. *)
Fixpoint merge_ranges (year prev from to : Z) (drl merged : list Z) : res (list Z) :=
  match drl with
  | [] => Ok (merged ++ [newDateRange from to])
  | dr :: drl =>
      let prevTo := dr_To prev year in
      let curFrom := dr_From dr year in
      let! pd := Date_calcDayOfYear prevTo (IsLeap year) in
      let! cd := Date_calcDayOfYear curFrom (IsLeap year) in
      if cd - 1 <=? pd then merge_ranges year dr from (Z.max (dr_To dr year) prevTo) drl merged
      else merge_ranges year dr curFrom (Z.max (dr_To dr year) prevTo) drl (merged ++ [newDateRange from to])
  end.

Definition DateRangeList_Merge (drl : list Z) (year : Z) : res (list Z) :=
  match drl with
  | [] => Ok []
  | dr :: drl => merge_ranges year dr (dr_From dr year) (dr_To dr year) drl []
  end.

Fixpoint month_ranges (year : Z) (months : list Z) : res (list Z) :=
  match months with
  | [] => Ok []
  | m :: months =>
      let! n := DaysInMonth year m in
      let! l := month_ranges year months in
      Ok (newDateRange (newDate8 m 1) (newDate8 m n) :: l)
  end.

Definition DateRangeList_MergeMonths (drl : list Z) (year : Z) (months : list Z) : res (list Z) :=
  let! l := month_ranges year months in
  DateRangeList_Merge (slices_Sort (l ++ drl)) year.

Definition DateList_ExpandMonths (dl : list Z) (year : Z) : res (list Z) :=
  DateRangeList_Merge (map (fun d => newDateRange d d) dl) year.

Fixpoint DateRangeList_Bound (drl : list Z) (year bound : Z) : res (list Z) :=
  match drl with
  | [] => Ok []
  | dr :: drl =>
      let! b := dr_Bound dr year bound in
      let! l := DateRangeList_Bound drl year bound in
      Ok (if b =? 0 then l else b :: l)
  end.

(** [DateRangeList.Equal]: the first pair that differs ends the loop. *)
Fixpoint DateRangeList_Equal_loop (drl : list Z) (year : Z) (dr2 : list Z) : res bool :=
  match drl, dr2 with
  | d :: drl, d2 :: dr2 =>
      let! e := dr_Equal d year d2 in
      if negb e then Ok false else DateRangeList_Equal_loop drl year dr2
  | _, _ => Ok true
  end.

Definition DateRangeList_Equal (drl : list Z) (year : Z) (dr2 : list Z) : res bool :=
  if negb (len drl =? len dr2) then Ok false else DateRangeList_Equal_loop drl year dr2.

(** ** CalendarDateRange (calendar_range.go) *)

Definition cdr_from (cdr : Z) : Z * Z * Z :=
  (u16 (Z.land (Z.shiftr cdr 48) 65535), u8 (Z.land (Z.shiftr cdr 24) 255), u8 (Z.land (Z.shiftr cdr 8) 255)).
Definition cdr_to (cdr : Z) : Z * Z * Z :=
  (u16 (Z.land (Z.shiftr cdr 32) 65535), u8 (Z.land (Z.shiftr cdr 16) 255), u8 (Z.land cdr 255)).

Definition cdr_fromDate (cdr : Z) : Z :=
  newCalendarDate8 (u16 (Z.land (Z.shiftr cdr 48) 65535)) (u8 (Z.land (Z.shiftr cdr 24) 255)) (u8 (Z.land (Z.shiftr cdr 8) 255)).
Definition cdr_toDate (cdr : Z) : Z :=
  newCalendarDate8 (u16 (Z.land (Z.shiftr cdr 32) 65535)) (u8 (Z.land (Z.shiftr cdr 16) 255)) (u8 (Z.land cdr 255)).

Definition newCalendarDateRange (from to : Z) : Z :=
  let '(fy, fm, fd) := (Year from, Month from, Day from) in
  let '(ty, tm, td) := (Year to, Month to, Day to) in
  Z.lor (Z.lor (Z.lor (Z.lor (Z.lor (Z.shiftl fy 48) (Z.shiftl ty 32)) (Z.shiftl fm 24)) (Z.shiftl tm 16)) (Z.shiftl fd 8)) td.

Definition cdr_From (cdr : Z) : Z :=
  let '(fromYear, fromMonth, fromDay) := cdr_from cdr in
  if (fromMonth =? 2) && (fromDay =? 29) && negb (IsLeap fromYear)
  then newCalendarDate8 fromYear fromMonth 28 else newCalendarDate8 fromYear fromMonth fromDay.

Definition cdr_To (cdr : Z) : Z :=
  let '(toYear, toMonth, toDay) := cdr_to cdr in
  if (toMonth =? 2) && (toDay =? 29) && negb (IsLeap toYear)
  then newCalendarDate8 toYear 2 28 else newCalendarDate8 toYear toMonth toDay.

Definition cdr_Include (cdr d : Z) : bool := (cdr_fromDate cdr <=? d) && (d <=? cdr_toDate cdr).

Definition cdr_Bound (cdr bound : Z) : Z :=
  let from := Z.max (cdr_fromDate cdr) (cdr_fromDate bound) in
  let to := Z.min (cdr_toDate cdr) (cdr_toDate bound) in
  if to <? from then 0 else newCalendarDateRange from to.

Definition NewCalendarDateRange (from to : Z) : res Z :=
  let '(from, to) := if to <? from then (to, from) else (from, to) in
  let! from := Normalize from true in
  let! to := Normalize to false in
  Ok (newCalendarDateRange from to).

Definition dr_CalendarDateRange (dr year : Z) : res Z :=
  let! ndr := dr_Normalize dr year in
  NewCalendarDateRange (Date_CalendarDate (dr_From ndr year) year) (Date_CalendarDate (dr_To ndr year) year).

Definition cdr_DateRange (cdr year : Z) : Z :=
  if negb (Year (cdr_From cdr) =? year) || negb (Year (cdr_To cdr) =? year) then 0
  else NewDateRange (Date (cdr_From cdr)) (Date (cdr_To cdr)).

Definition cdr_Truncate (cdr year : Z) : Z :=
  let fy := Year (cdr_From cdr) in
  let ty := Year (cdr_To cdr) in
  if (fy =? year) && (ty =? year) then NewDateRange (Date (cdr_From cdr)) (Date (cdr_To cdr))
  else if (fy =? year) && (ty =? year + 1)
  then NewDateRange (Date (cdr_From cdr)) (Date (NewCalendarDate year 12 31))
  else if (fy =? year - 1) && (ty =? year)
  then NewDateRange (Date (NewCalendarDate year 1 1)) (Date (cdr_To cdr))
  else 0.

Definition CalendarDateRangeList_Bound (l : list Z) (bound : Z) : list Z :=
  filter (fun b => b <> 0) (map (fun dr => cdr_Bound dr bound) l).

(** [CalendarDateList.Merge]. *)
Fixpoint merge_calendar_dates (prev from to : Z) (cdl merged : list Z) : res (list Z) :=
  match cdl with
  | [] => Ok (merged ++ [newCalendarDateRange from to])
  | cd :: cdl =>
      let! cur := Normalize cd true in
      if prev =? cur then merge_calendar_dates cur from to cdl merged
      else
        let! y := Yesterday cur in
        if prev =? y then merge_calendar_dates cur from cur cdl merged
        else merge_calendar_dates cur cur cur cdl (merged ++ [newCalendarDateRange from to])
  end.

Definition CalendarDateList_Merge (cdl : list Z) : res (list Z) :=
  match cdl with
  | [] => Ok []
  | cd :: cdl => let! from := Normalize cd true in merge_calendar_dates from from from cdl []
  end.

(** [CalendarDateRangeList.Merge]: [YearDay] is a uint32, so subtracting one
    from it wraps. *)
Fixpoint merge_calendar_ranges (prev from to : Z) (cdrl merged : list Z) : res (list Z) :=
  match cdrl with
  | [] => Ok (merged ++ [newCalendarDateRange from to])
  | cdr :: cdrl =>
      let prevTo := cdr_To prev in
      let curFrom := cdr_From cdr in
      let! py := YearDay prevTo in
      let! cy := YearDay curFrom in
      let! joined := (if u32 (cy - 1) <=? py then Ok true
                      else let! y := Yesterday curFrom in Ok (y =? prevTo)) in
      if (joined : bool) then merge_calendar_ranges cdr from (Z.max (cdr_To cdr) prevTo) cdrl merged
      else merge_calendar_ranges cdr curFrom (Z.max (cdr_To cdr) prevTo) cdrl
             (merged ++ [newCalendarDateRange from to])
  end.

Definition CalendarDateRangeList_Merge (cdrl : list Z) : res (list Z) :=
  match cdrl with
  | [] => Ok []
  | cdr :: cdrl => merge_calendar_ranges cdr (cdr_From cdr) (cdr_To cdr) cdrl []
  end.

Fixpoint calendar_month_ranges (year : Z) (months : list Z) : res (list Z) :=
  match months with
  | [] => Ok []
  | m :: months =>
      let! n := DaysInMonth year m in
      let! l := calendar_month_ranges year months in
      Ok (newCalendarDateRange (NewCalendarDate year m 1) (NewCalendarDate year m n) :: l)
  end.

Definition CalendarDateRangeList_MergeMonths (cdrl : list Z) (year : Z) (months : list Z) : res (list Z) :=
  let! l := calendar_month_ranges year months in
  CalendarDateRangeList_Merge (slices_Sort (l ++ cdrl)).

(** ** Constraints (constraints.go)

    A [time.Time] at midnight UTC is its year, month and day. *)
Record Constraints := MkConstraints {
  Weekdays : bool;
  Weekends : bool;
  Custom : list Z;
  CustomCalendar : list Z;
  Dynamic : list (Z -> Z);       (** [Evaluate] of each dynamic range *)
}.

(** [time.Weekday]: 0 is Sunday. *)
Definition Weekday (y m d : Z) : Z := (abs_day y m d - 2) mod 7.

Definition Include (dc : Constraints) (y m d : Z) : bool :=
  if negb (bool_decide (Custom dc = [])) then negb (bool_decide (NewDate (u8 m) d ∈ Custom dc))
  else if negb (bool_decide (CustomCalendar dc = [])) then
    negb (bool_decide (NewCalendarDate y (u8 m) d ∈ CustomCalendar dc))
  else if negb (bool_decide (length (Dynamic dc) = 0%nat)) then
    forallb (fun f => negb (cdr_Include (f y) (NewCalendarDate y (u8 m) d))) (Dynamic dc)
  else if Weekdays dc && Weekends dc then true
  else if Weekdays dc then (1 <=? Weekday y m d) && (Weekday y m d <=? 5)
  else if Weekends dc then (Weekday y m d =? 0) || (Weekday y m d =? 6)
  else true.

Definition Empty (dc : Constraints) : bool :=
  negb (Weekdays dc) && negb (Weekends dc) && (len (Custom dc) =? 0) && (len (CustomCalendar dc) =? 0).

(** [dc.Include(time.Date(td.Year(), td.Month(), td.Day(), ...))]. *)
Definition includes (dc : Constraints) (td : Z) : bool := Include dc (Year td) (Month td) (Day td).

(** ** Iterators *)

(** [for td := from; td <= to; td = td.Tomorrow()] around a body. *)
Fixpoint days_loop (fuel : nat) (td to : Z) {S} (body : Z -> S -> res (bool * S)) (s : S) : res S :=
  match fuel with
  | O => NoFuel
  | Datatypes.S fuel =>
      if td <=? to then
        let! (more, s) := body td s in
        if more then let! td := Tomorrow td in days_loop fuel td to body s else Ok s
      else Ok s
  end.

(** Each step moves the packed date forward by at least one. *)
Definition days_fuel (from to : Z) : nat := S (Z.to_nat (to - from + 1)).

Definition Dates (cdr : Z) : seq_iter Z := fun S yield s =>
  days_loop (days_fuel (cdr_From cdr) (cdr_To cdr)) (cdr_From cdr) (cdr_To cdr) yield s.

Definition DatesConstrained (cdr : Z) (dc : Constraints) : seq_iter Z := fun S yield s =>
  days_loop (days_fuel (cdr_From cdr) (cdr_To cdr)) (cdr_From cdr) (cdr_To cdr)
    (fun td s => if negb (includes dc td) then Ok (true, s) else yield td s) s.

Definition Days (cdr : Z) : seq_iter Z := fun S yield s =>
  days_loop (days_fuel (cdr_From cdr) (cdr_To cdr)) (cdr_From cdr) (cdr_To cdr)
    (fun td s => let! n := Date_DayOfYear (Date td) (Year td) in yield (NewYearDay (Year td) n) s) s.

Definition DaysConstrained (cdr : Z) (dc : Constraints) : seq_iter Z := fun S yield s =>
  days_loop (days_fuel (cdr_From cdr) (cdr_To cdr)) (cdr_From cdr) (cdr_To cdr)
    (fun td s => if negb (includes dc td) then Ok (true, s)
                 else let! n := Date_DayOfYear (Date td) (Year td) in yield (NewYearDay (Year td) n) s) s.

(** The variables of [RangesConstrained]: [start], [stop], [inrange], and whether
    the consumer stopped. *)
Record rc_state (S : Type) := MkRC { rc_start : Z; rc_stop : Z; rc_in : bool; rc_done : bool; rc_s : S }.
Arguments MkRC {S} rc_start rc_stop rc_in rc_done rc_s.
Arguments rc_start {S} r.
Arguments rc_stop {S} r.
Arguments rc_in {S} r.
Arguments rc_done {S} r.
Arguments rc_s {S} r.

Definition rc_body (dc : Constraints) {S} (yield : Z -> S -> res (bool * S)) (td : Z) (st : rc_state S) :
    res (bool * rc_state S) :=
  if negb (includes dc td) then
    if rc_in st then
      let! (more, s) := yield (newCalendarDateRange (rc_start st) (rc_stop st)) (rc_s st) in
      if more then Ok (true, MkRC (rc_start st) (rc_stop st) false false s)
      else Ok (false, MkRC (rc_start st) (rc_stop st) true true s)
    else Ok (true, MkRC (rc_start st) (rc_stop st) false false (rc_s st))
  else
    Ok (true, MkRC (if rc_in st then rc_start st else td) td true false (rc_s st)).

Definition RangesConstrained (cdr : Z) (dc : Constraints) : seq_iter Z := fun S yield s =>
  let start := cdr_From cdr in
  let stop := cdr_To cdr in
  let! st := days_loop (days_fuel start stop) start stop (rc_body dc yield)
    (MkRC start stop (includes dc start) false s) in
  if rc_done st then Ok (rc_s st)
  else if rc_in st then
    let! (_, s) := yield (newCalendarDateRange (rc_start st) (rc_stop st)) (rc_s st) in Ok s
  else Ok (rc_s st).

(** The iterators of a [DateRange] are those of its calendar range. *)
Definition dr_Dates (dr year : Z) {S} (yield : Z -> S -> res (bool * S)) (s : S) : res S :=
  let! cdr := dr_CalendarDateRange dr year in Dates cdr S yield s.
Definition dr_DatesConstrained (dr year : Z) (dc : Constraints) {S} (yield : Z -> S -> res (bool * S)) (s : S) : res S :=
  let! cdr := dr_CalendarDateRange dr year in DatesConstrained cdr dc S yield s.
Definition dr_RangesConstrained (dr year : Z) (dc : Constraints) {S} (yield : Z -> S -> res (bool * S)) (s : S) : res S :=
  let! cdr := dr_CalendarDateRange dr year in RangesConstrained cdr dc S yield s.
Definition dr_Days (dr year : Z) {S} (yield : Z -> S -> res (bool * S)) (s : S) : res S :=
  let! cdr := dr_CalendarDateRange dr year in Days cdr S yield s.
Definition dr_DaysConstrained (dr year : Z) (dc : Constraints) {S} (yield : Z -> S -> res (bool * S)) (s : S) : res S :=
  let! cdr := dr_CalendarDateRange dr year in DaysConstrained cdr dc S yield s.

(** ** Packing *)

Ltac pow_consts :=
  change (2 ^ 8) with 256; change (2 ^ 16) with 65536; change (2 ^ 24) with 16777216;
  change (2 ^ 32) with 4294967296; change (2 ^ 48) with 281474976710656.

Lemma Date_fields_ok leap m d : date_ok leap m d -> Date_Month (NewDate m d) = m /\ Date_Day (NewDate m d) = d.
Proof.
  intros H. destruct (date_ok_bytes _ _ _ H). rewrite NewDate_val by lia. unfold Date_Month, Date_Day.
  destruct (date_fields m d) as (-> & -> & _); [lia..|done].
Qed.

(** A date as the ranges hold it. *)
Definition d_ok (leap : bool) (x : Z) : Prop := exists m d, date_ok leap m d /\ x = 256 * m + d.

Definition d_ord (leap : bool) (x : Z) : Z := ordinal leap (x / 256) (x mod 256).

Lemma d_ord_val leap m d : date_ok leap m d -> d_ord leap (256 * m + d) = ordinal leap m d.
Proof. intros H. destruct (date_ok_bytes _ _ _ H). unfold d_ord. f_equal; div_lia. Qed.

Lemma d_ord_lt leap x y : d_ok leap x -> d_ok leap y -> x < y <-> d_ord leap x < d_ord leap y.
Proof. intros (m & d & H & ->) (m' & d' & H' & ->). rewrite !d_ord_val by done. by apply ordinal_lt. Qed.

Lemma d_ord_inj leap x y : d_ok leap x -> d_ok leap y -> d_ord leap x = d_ord leap y -> x = y.
Proof. intros Hx Hy E. pose proof (d_ord_lt leap x y Hx Hy). pose proof (d_ord_lt leap y x Hy Hx). lia. Qed.

Lemma newDateRange_val fm fd tm td : 0 <= fm < 256 -> 0 <= fd < 256 -> 0 <= tm < 256 -> 0 <= td < 256 ->
  newDateRange (256 * fm + fd) (256 * tm + td) = 16777216 * fm + 65536 * tm + 256 * fd + td.
Proof.
  intros H1 H2 H3 H4. unfold newDateRange, Date_Month, Date_Day.
  destruct (date_fields fm fd) as (-> & -> & _); [lia..|]. destruct (date_fields tm td) as (-> & -> & _); [lia..|].
  rewrite <- !Z.lor_assoc. rewrite (lor_shiftl fd td 8), (lor_shiftl tm _ 16), (lor_shiftl fm _ 24) by lia. lia.
Qed.

Lemma dr_fields fm fd tm td : 0 <= fm < 256 -> 0 <= fd < 256 -> 0 <= tm < 256 -> 0 <= td < 256 ->
  let dr := 16777216 * fm + 65536 * tm + 256 * fd + td in
  dr_from dr = (fm, fd) /\ dr_to dr = (tm, td).
Proof.
  intros H1 H2 H3 H4. cbv zeta. unfold dr_from, dr_to, u8. rewrite !land_255, !Z.shiftr_div_pow2 by lia.
  set (dr := 16777216 * fm + 65536 * tm + 256 * fd + td). pow_consts.
  assert ((dr / 16777216) mod 256 = fm) as -> by (subst dr; div_lia).
  assert ((dr / 65536) mod 256 = tm) as -> by (subst dr; div_lia).
  assert ((dr / 256) mod 256 = fd) as -> by (subst dr; div_lia).
  assert (dr mod 256 = td) as -> by (subst dr; div_lia).
  by rewrite !Z.mod_small by lia.
Qed.

(** The range of two dates that exist in a year gives them back. *)
Lemma dr_From_To year x y : d_ok (IsLeap year) x -> d_ok (IsLeap year) y ->
  dr_From (newDateRange x y) year = x /\ dr_To (newDateRange x y) year = y.
Proof.
  intros (m & d & H & ->) (m' & d' & H' & ->).
  destruct (date_ok_bytes _ _ _ H), (date_ok_bytes _ _ _ H').
  rewrite newDateRange_val by lia. unfold dr_From, dr_To.
  destruct (dr_fields m d m' d') as [-> ->]; [lia..|].
  assert (forall m d, date_ok (IsLeap year) m d -> (m =? 2) && (d =? 29) && negb (IsLeap year) = false) as Hfeb.
  { intros m0 d0 [_ Hd]. destruct (Z.eqb_spec m0 2) as [->|]; [|done]. destruct (Z.eqb_spec d0 29) as [->|]; [|done].
    destruct (IsLeap year); [done|]. change (dim false 2) with 28 in Hd. lia. }
  by rewrite !Hfeb, !newDate8_val by (done || lia).
Qed.

Lemma newCalendarDateRange_val fy fm fd ty tm td :
  0 <= fy < 65536 -> 0 <= fm < 256 -> 0 <= fd < 256 -> 0 <= ty < 65536 -> 0 <= tm < 256 -> 0 <= td < 256 ->
  newCalendarDateRange (65536 * fy + 256 * fm + fd) (65536 * ty + 256 * tm + td) =
  281474976710656 * fy + 4294967296 * ty + 16777216 * fm + 65536 * tm + 256 * fd + td.
Proof.
  intros H1 H2 H3 H4 H5 H6. unfold newCalendarDateRange.
  destruct (cd_fields fy fm fd) as (-> & _ & -> & -> & _); [lia..|].
  destruct (cd_fields ty tm td) as (-> & _ & -> & -> & _); [lia..|].
  rewrite <- !Z.lor_assoc.
  rewrite (lor_shiftl fd td 8), (lor_shiftl tm _ 16), (lor_shiftl fm _ 24), (lor_shiftl ty _ 32), (lor_shiftl fy _ 48) by lia. lia.
Qed.

Lemma cdr_fields fy fm fd ty tm td :
  0 <= fy < 65536 -> 0 <= fm < 256 -> 0 <= fd < 256 -> 0 <= ty < 65536 -> 0 <= tm < 256 -> 0 <= td < 256 ->
  let cdr := 281474976710656 * fy + 4294967296 * ty + 16777216 * fm + 65536 * tm + 256 * fd + td in
  cdr_from cdr = (fy, fm, fd) /\ cdr_to cdr = (ty, tm, td).
Proof.
  intros H1 H2 H3 H4 H5 H6. cbv zeta. unfold cdr_from, cdr_to, u8, u16.
  rewrite !land_255, !land_65535, !Z.shiftr_div_pow2 by lia.
  set (cdr := _ + td). pow_consts.
  assert ((cdr / 281474976710656) mod 65536 = fy) as -> by (subst cdr; div_lia).
  assert ((cdr / 4294967296) mod 65536 = ty) as -> by (subst cdr; div_lia).
  assert ((cdr / 16777216) mod 256 = fm) as -> by (subst cdr; div_lia).
  assert ((cdr / 65536) mod 256 = tm) as -> by (subst cdr; div_lia).
  assert ((cdr / 256) mod 256 = fd) as -> by (subst cdr; div_lia).
  assert (cdr mod 256 = td) as -> by (subst cdr; div_lia).
  by rewrite !Z.mod_small by lia.
Qed.

Lemma newCalendarDate8_val y m d : 0 <= y < 65536 -> 0 <= m < 256 -> 0 <= d < 256 ->
  newCalendarDate8 y m d = 65536 * y + 256 * m + d.
Proof. apply NewCalendarDate_val. Qed.

(** A calendar date that exists, without naming its fields. *)
Definition day_ok (cd : Z) : Prop := exists y m d, cd_ok cd y m d.

Definition day_no (cd : Z) : Z := abs_day (Year cd) (Month cd) (Day cd).

Lemma day_no_val cd y m d : cd_ok cd y m d -> day_no cd = abs_day y m d.
Proof. intros H. destruct (cd_ok_fields _ _ _ _ H) as (E1 & _ & E2 & E3 & _). unfold day_no. by rewrite E1, E2, E3. Qed.

Lemma day_no_lt c1 c2 : day_ok c1 -> day_ok c2 -> c1 < c2 <-> day_no c1 < day_no c2.
Proof.
  intros (y & m & d & H) (y' & m' & d' & H'). rewrite (day_no_val _ _ _ _ H), (day_no_val _ _ _ _ H').
  by apply abs_lt.
Qed.

Lemma cdr_From_To from to : day_ok from -> day_ok to ->
  cdr_From (newCalendarDateRange from to) = from /\ cdr_To (newCalendarDateRange from to) = to.
Proof.
  intros (y & m & d & Hy & H & ->) (y' & m' & d' & Hy' & H' & ->).
  destruct (date_ok_bytes _ _ _ H), (date_ok_bytes _ _ _ H').
  rewrite newCalendarDateRange_val by lia. unfold cdr_From, cdr_To.
  destruct (cdr_fields y m d y' m' d') as [-> ->]; [lia..|].
  assert (forall y m d, date_ok (IsLeap y) m d -> (m =? 2) && (d =? 29) && negb (IsLeap y) = false) as Hfeb.
  { intros y0 m0 d0 [_ Hd]. destruct (Z.eqb_spec m0 2) as [->|]; [|done]. destruct (Z.eqb_spec d0 29) as [->|]; [|done].
    destruct (IsLeap y0); [done|]. change (dim false 2) with 28 in Hd. lia. }
  by rewrite !Hfeb, !newCalendarDate8_val by (done || lia).
Qed.

(** ** Walking a range *)

Definition last_day : Z := NewCalendarDate 65535 12 31.

Lemma day_ok_last : day_ok last_day.
Proof. exists 65535, 12, 31. apply NewCalendarDate_ok; [lia|]. split; [lia|]. rewrite dim_12. lia. Qed.

Lemma Tomorrow_day cd : day_ok cd -> cd < last_day ->
  exists cd', Tomorrow cd = Ok cd' /\ day_ok cd' /\ day_no cd' = day_no cd + 1.
Proof.
  intros (y & m & d & H) Hlt. destruct (Tomorrow_spec _ _ _ _ H) as (cd' & E & [(-> & -> & -> & _)|(y' & m' & d' & H' & Ha)]).
  - destruct H as (_ & _ & ->). vm_compute in Hlt. done.
  - exists cd'. split; [done|]. split; [by exists y', m', d'|].
    by rewrite (day_no_val _ _ _ _ H), (day_no_val _ _ _ _ H').
Qed.

(** The consecutive days from [from] to [to], in order. *)
Definition consecutive (from to : Z) (l : list Z) : Prop :=
  Forall2 (fun cd n => day_ok cd /\ day_no cd = n) l (seqZ (day_no from) (day_no to - day_no from + 1)).

Lemma consecutive_cons from to cd' l : day_ok from -> from <= to -> day_ok to ->
  day_no cd' = day_no from + 1 -> consecutive cd' to l -> consecutive from to (from :: l).
Proof.
  intros Hf Hle Ht Hn Hl. unfold consecutive in *. pose proof (day_no_lt to from Ht Hf).
  rewrite seqZ_cons by lia. constructor; [done|]. rewrite Hn in Hl.
  replace (Z.succ (day_no from)) with (day_no from + 1) by lia.
  by replace (Z.pred (day_no to - day_no from + 1)) with (day_no to - (day_no from + 1) + 1) by lia.
Qed.

Lemma days_loop_list fuel : forall from to, day_ok from -> day_ok to -> to < last_day -> day_no from <= day_no to + 1 ->
  (Z.to_nat (to - from + 1) < fuel)%nat ->
  exists l, consecutive from to l /\
    forall S (body : Z -> S -> res (bool * S)) s, days_loop fuel from to body s = range_list l body s.
Proof.
  induction fuel as [|fuel IH]; intros from to Hf Ht Hlast Hle Hfu; [lia|].
  pose proof (day_no_lt to from Ht Hf) as Hlt. destruct (Z.leb_spec from to) as [Hft|Hft].
  - destruct (Tomorrow_day from Hf) as (cd' & E & Hok & Hn); [lia|].
    pose proof (day_no_lt from cd' Hf Hok).
    destruct (IH cd' to Hok Ht Hlast) as (l & Hl & Hrun); [lia|lia|].
    exists (from :: l). split; [by eapply consecutive_cons|].
    intros S body s. cbn [days_loop range_list]. rewrite (proj2 (Z.leb_le _ _)) by done.
    destruct (body from s) as [[[] s']| |]; cbn [rbind]; [|done..]. rewrite E. cbn [rbind]. apply Hrun.
  - exists []. split.
    + unfold consecutive. rewrite seqZ_nil by lia. constructor.
    + intros S body s. cbn [days_loop range_list]. by rewrite (proj2 (Z.leb_gt _ _)).
Qed.

Lemma range_walk from to : day_ok from -> day_ok to -> from <= to -> to < last_day ->
  exists l, consecutive from to l /\
    forall S (body : Z -> S -> res (bool * S)) s,
      days_loop (days_fuel from to) from to body s = range_list l body s.
Proof.
  intros Hf Ht Hle Hlast. pose proof (day_no_lt to from Ht Hf).
  apply days_loop_list; auto; unfold days_fuel; lia.
Qed.

(** Skipping elements and transforming them. *)
Lemma range_list_skip {A S} (p : A -> bool) l (yield : A -> S -> res (bool * S)) s :
  range_list l (fun a s => if negb (p a) then Ok (true, s) else yield a s) s =
  range_list (filter (fun a => p a = true) l) yield s.
Proof.
  revert s. induction l as [|a l IH]; intros s; [done|]. rewrite filter_cons. cbn [range_list].
  destruct (p a); cbn [negb rbind].
  - rewrite decide_True by done. cbn [range_list]. destruct (yield a s) as [[[] s']| |]; cbn [rbind]; auto.
  - rewrite decide_False by done. apply IH.
Qed.

Lemma range_list_map_ok {A B S} (f : A -> res B) (g : A -> B) l (yield : B -> S -> res (bool * S)) s :
  Forall (fun a => f a = Ok (g a)) l ->
  range_list l (fun a s => let! b := f a in yield b s) s = range_list (map g l) yield s.
Proof.
  intros H. revert s. induction H as [|a l Ha H IH]; intros s; cbn [range_list map]; [done|].
  rewrite Ha. cbn [rbind]. destruct (yield (g a) s) as [[[] s']| |]; cbn [rbind]; auto.
Qed.

Lemma consecutive_ok from to l : consecutive from to l -> Forall day_ok l.
Proof.
  unfold consecutive. generalize (seqZ (day_no from) (day_no to - day_no from + 1)). intros ns H.
  induction H as [|x n l ns [Hx _] H IH]; by constructor.
Qed.

(** The year and number of a day. *)
Definition year_day (cd : Z) : Z := NewYearDay (Year cd) (ordinal (IsLeap (Year cd)) (Month cd) (Day cd)).

Lemma Date_DayOfYear_day cd : day_ok cd ->
  Date_DayOfYear (Date cd) (Year cd) = Ok (ordinal (IsLeap (Year cd)) (Month cd) (Day cd)).
Proof.
  intros (y & m & d & H). destruct (cd_ok_fields _ _ _ _ H) as (-> & _ & -> & -> & _ & -> & _).
  destruct H as (_ & H & _). destruct (date_ok_bytes _ _ _ H).
  rewrite <- (NewDate_val m d) by lia. by apply Date_DayOfYear_spec.
Qed.

(** ** Maximal runs

    [runs p l segs]: [segs] are the maximal runs of consecutive elements of [l]
    that satisfy [p]. *)
Inductive runs (p : Z -> bool) : list Z -> list (list Z) -> Prop :=
| runs_nil : runs p [] []
| runs_skip x l segs : p x = false -> runs p l segs -> runs p (x :: l) segs
| runs_run seg l segs : seg <> [] -> Forall (fun x => p x = true) seg ->
    match l with [] => True | x :: _ => p x = false end -> runs p l segs -> runs p (seg ++ l) (seg :: segs).

Definition run_range (seg : list Z) : Z := newCalendarDateRange (hd 0 seg) (List.last seg 0).

(** What [RangesConstrained] does after its loop. *)
Definition rc_finish {S} (yield : Z -> S -> res (bool * S)) (st : rc_state S) : res S :=
  if rc_done st then Ok (rc_s st)
  else if rc_in st then
    let! (_, s) := yield (newCalendarDateRange (rc_start st) (rc_stop st)) (rc_s st) in Ok s
  else Ok (rc_s st).

Lemma rc_loop dc l :
  (exists segs, runs (includes dc) l segs /\ forall S (yield : Z -> S -> res (bool * S)) start stop s,
     (let! st := range_list l (rc_body dc yield) (MkRC start stop false false s) in rc_finish yield st) =
     range_list (map run_range segs) yield s) /\
  forall cur, cur <> [] -> Forall (fun x => includes dc x = true) cur ->
  exists segs, runs (includes dc) (cur ++ l) segs /\ forall S (yield : Z -> S -> res (bool * S)) s,
     (let! st := range_list l (rc_body dc yield) (MkRC (hd 0 cur) (List.last cur 0) true false s) in rc_finish yield st) =
     range_list (map run_range segs) yield s.
Proof.
  induction l as [|x l [IHout IHin]]; split.
  - exists []. split; [constructor|done].
  - intros cur Hne Hcur. exists [cur]. split; [by apply runs_run; try constructor|].
    intros S yield s. cbn [range_list rbind map]. unfold rc_finish. cbn [rc_done rc_in rc_start rc_stop rc_s].
    fold (run_range cur). by destruct (yield (run_range cur) s) as [[[] s']| |].
  - destruct (includes dc x) eqn:E.
    + destruct (IHin [x]) as (segs & Hr & Heq); [done|by repeat constructor|]. exists segs. split; [done|].
      intros S yield start stop s. cbn [range_list]. unfold rc_body at 1. rewrite E. cbn [negb rbind rc_in rc_s]. apply Heq.
    + destruct IHout as (segs & Hr & Heq). exists segs. split; [by constructor|].
      intros S yield start stop s. cbn [range_list]. unfold rc_body at 1. rewrite E. cbn [negb rbind rc_in rc_s]. apply Heq.
  - intros cur Hne Hcur. destruct (includes dc x) eqn:E.
    + destruct (IHin (cur ++ [x])) as (segs & Hr & Heq); [by destruct cur|by apply Forall_app; repeat constructor|].
      exists segs. split; [by rewrite <- app_assoc in Hr|].
      intros S yield s. cbn [range_list]. unfold rc_body at 1. rewrite E. cbn [negb rbind rc_in rc_s rc_start].
      specialize (Heq S yield s). rewrite last_last in Heq. destruct cur; [done|]. exact Heq.
    + destruct IHout as (segs & Hr & Heq). exists (cur :: segs).
      split; [apply runs_run; [done|done|done|by constructor]|].
      intros S yield s. cbn [range_list map]. unfold rc_body at 1. rewrite E.
      cbn [negb rbind rc_in rc_s rc_start rc_stop]. fold (run_range cur).
      destruct (yield (run_range cur) s) as [[[] s']| |]; cbn [rbind]; [apply Heq|done..].
Qed.

Lemma RangesConstrained_runs from to dc : day_ok from -> day_ok to -> from <= to -> to < last_day ->
  exists l segs, consecutive from to l /\ runs (includes dc) l segs /\
    forall S (yield : Z -> S -> res (bool * S)) s,
      RangesConstrained (newCalendarDateRange from to) dc S yield s = range_list (map run_range segs) yield s.
Proof.
  intros Hf Ht Hle Hlast. destruct (range_walk from to Hf Ht Hle Hlast) as (l & Hl & Hrun).
  unfold RangesConstrained. destruct (cdr_From_To from to Hf Ht) as [-> ->].
  assert (exists l', l = from :: l') as [l' ->].
  { unfold consecutive in Hl. pose proof (day_no_lt to from Ht Hf). rewrite seqZ_cons in Hl by lia.
    inversion Hl as [|cd n l' ns [Hcd Hn] Hl']; subst. exists l'. f_equal.
    pose proof (day_no_lt cd from Hcd Hf). pose proof (day_no_lt from cd Hf Hcd). lia. }
  exists (from :: l'). destruct (includes dc from) eqn:E.
  - destruct (proj2 (rc_loop dc l') [from]) as (segs & Hr & Heq); [done|by repeat constructor|].
    exists segs. split; [done|]. split; [exact Hr|]. intros S yield s. cbv zeta. rewrite Hrun. cbn [range_list].
    unfold rc_body at 1. rewrite E. cbn [negb rbind rc_in rc_s rc_start]. apply Heq.
  - destruct (proj1 (rc_loop dc (from :: l'))) as (segs & Hr & Heq).
    exists segs. split; [done|]. split; [exact Hr|]. intros S yield s. cbv zeta. rewrite Hrun. apply Heq.
Qed.

Lemma runs_filter p l segs : runs p l segs -> concat segs = filter (fun x => p x = true) l.
Proof.
  intros H. induction H as [|x l segs Hx H IH|seg l segs Hne Hseg Hl H IH]; [done|..].
  - rewrite filter_cons, decide_False by congruence. done.
  - cbn [concat]. rewrite IH, filter_app. f_equal. clear -Hseg.
    induction Hseg as [|x seg Hx Hseg IH]; [done|]. by rewrite filter_cons, decide_True, <- IH.
Qed.

(** ** Merging *)

(** Some range of the list holds the date. *)
Definition covers (rs : list (Z * Z)) (x : Z) : Prop := exists r, r ∈ rs /\ r.1 <= x <= r.2.

(** Ordered ranges with a day between each and the next. *)
Fixpoint spaced (leap : bool) (rs : list (Z * Z)) : Prop :=
  match rs with
  | r :: (r' :: _) as t => d_ord leap r.2 + 1 < d_ord leap r'.1 /\ spaced leap t
  | _ => True
  end.

Definition pack (r : Z * Z) : Z := newDateRange r.1 r.2.

Definition range_ok (leap : bool) (r : Z * Z) : Prop := d_ok leap r.1 /\ d_ok leap r.2 /\ r.1 <= r.2.

Lemma Date_Normalize_ok year x first : d_ok (IsLeap year) x -> Date_Normalize x year first = Ok x.
Proof.
  intros (m & d & H & ->). destruct (date_ok_bytes _ _ _ H). unfold Date_Normalize.
  destruct (date_fields m d) as (-> & _ & -> & _); [lia..|].
  replace (Z.min (Z.max m 1) 12) with m by lia. rewrite daysInMonthForYear_table, dim_get by lia. cbn [checked rbind].
  rewrite (proj2 (Z.eqb_neq d 0)) by lia. destruct H as [_ H]. rewrite newDate8_val by lia. f_equal. lia.
Qed.

Lemma yesterday_ok year x : d_ok (IsLeap year) x ->
  exists y, yesterday x (daysInMonthForYear year) = Ok y /\ d_ok (IsLeap year) y /\
    (d_ord (IsLeap year) x = 1 \/ d_ord (IsLeap year) y = d_ord (IsLeap year) x - 1).
Proof.
  intros (m & d & H & ->). destruct (date_ok_bytes _ _ _ H).
  pose proof (Date_Yesterday_spec year m d H) as E. rewrite NewDate_val in E by lia. unfold Date_Yesterday in E.
  pose proof (prev_day_ok _ _ _ H) as Hp. destruct (prev_day (IsLeap year) m d) as [m' d'] eqn:Ep.
  destruct Hp as [Hok Hn]. destruct (date_ok_bytes _ _ _ Hok). cbn [fst snd] in E. rewrite NewDate_val in E by lia.
  exists (256 * m' + d'). split; [done|]. split; [by exists m', d'|]. rewrite !d_ord_val by done.
  pose proof (next_day_ok _ _ _ Hok) as Ho. rewrite Hn in Ho. destruct Ho as (_ & _ & [[-> ->]|Ho]); [|lia].
  left. unfold next_day in Hn. cbn in Hn. injection Hn as <- <-. unfold ordinal. by rewrite ordinal_first.
Qed.

Lemma covers_app rs rs' x : covers (rs ++ rs') x <-> covers rs x \/ covers rs' x.
Proof. unfold covers. setoid_rewrite elem_of_app. naive_solver. Qed.

Lemma covers_one from to x : covers [(from, to)] x <-> from <= x <= to.
Proof. unfold covers. setoid_rewrite list_elem_of_singleton. naive_solver. Qed.

Lemma covers_cons r rs x : covers (r :: rs) x <-> r.1 <= x <= r.2 \/ covers rs x.
Proof. unfold covers. setoid_rewrite elem_of_cons. naive_solver. Qed.

Lemma spaced_snoc leap rs r : spaced leap rs ->
  (forall r', last rs = Some r' -> d_ord leap r'.2 + 1 < d_ord leap r.1) -> spaced leap (rs ++ [r]).
Proof.
  induction rs as [|a rs IH]; intros Hs Hr; [done|]. destruct rs as [|b rs].
  - cbn. split; [by apply Hr|done].
  - destruct Hs as [Hab Hs]. cbn [app spaced]. split; [done|]. apply IH; [done|]. intros r' Hr'. apply Hr. done.
Qed.

(** The ranges merged so far, with the current one at the end. *)
Record merged_ok (leap : bool) (rs : list (Z * Z)) (from to : Z) : Prop := {
  mg_ok : Forall (range_ok leap) (rs ++ [(from, to)]);
  mg_spaced : spaced leap (rs ++ [(from, to)]);
}.

(** Closing the current range and opening another one after a gap. *)
Lemma merged_next leap rs from to from' to' : merged_ok leap rs from to ->
  range_ok leap (from', to') -> d_ord leap to + 1 < d_ord leap from' ->
  merged_ok leap (rs ++ [(from, to)]) from' to'.
Proof.
  intros [Hok Hsp] Hr Hgap. constructor; [apply Forall_app; split; [done|by apply Forall_singleton]|].
  apply spaced_snoc; [done|]. intros r'. rewrite last_snoc. by intros [= <-].
Qed.

Lemma spaced_last leap rs r r' : spaced leap (rs ++ [r]) -> r'.1 = r.1 -> spaced leap (rs ++ [r']).
Proof.
  intros Hs E. induction rs as [|a rs IH]; [done|]. destruct rs as [|b rs].
  - cbn in *. rewrite E. done.
  - cbn [app spaced] in *. destruct Hs as [H Hs]. split; [done|]. by apply IH.
Qed.

(** Moving the end of the current range. *)
Lemma merged_extend leap rs from to to' : merged_ok leap rs from to -> d_ok leap to' -> from <= to' ->
  merged_ok leap rs from to'.
Proof.
  intros [Hok Hsp] Ht Hle. apply Forall_app in Hok as [Hok [H1 _]%Forall_cons]. constructor.
  - apply Forall_app. split; [done|]. apply Forall_singleton. split; [apply H1|by split].
  - by apply (spaced_last leap rs (from, to)).
Qed.

Lemma d_ok_ord_pos leap x : d_ok leap x -> 1 <= d_ord leap x.
Proof. intros (m & d & H & ->). rewrite d_ord_val by done. pose proof (ordinal_bounds _ _ _ H). lia. Qed.

(** The days of a range in increasing order; a range of one more day holds one
    more date. *)
Lemma between_next leap to cur x : d_ok leap to -> d_ok leap cur -> d_ok leap x ->
  d_ord leap to = d_ord leap cur - 1 -> x <= cur -> x <= to \/ x = cur.
Proof.
  intros Ht Hc Hx E Hle. destruct (Z.le_gt_cases x to) as [|Hgt]; [by left|]. right.
  apply (d_ord_inj leap); auto. pose proof (d_ord_lt leap to x Ht Hx). pose proof (d_ord_lt leap cur x Hc Hx). lia.
Qed.

Lemma merge_dates_spec year dl : forall from to rs,
  Forall (d_ok (IsLeap year)) dl -> merged_ok (IsLeap year) rs from to ->
  StronglySorted Z.le (to :: dl) ->
  exists rs', merge_dates year to from to dl (map pack rs) = Ok (map pack rs') /\
    Forall (range_ok (IsLeap year)) rs' /\ spaced (IsLeap year) rs' /\
    forall x, d_ok (IsLeap year) x -> covers rs' x <-> covers (rs ++ [(from, to)]) x \/ x ∈ dl.
Proof.
  induction dl as [|cur dl IH]; intros from to rs Hok Hm Hs; cbn [merge_dates].
  - exists (rs ++ [(from, to)]). rewrite map_app. split; [done|]. split; [apply Hm|]. split; [apply Hm|].
    intros x Hx. pose proof (not_elem_of_nil x). tauto.
  - apply Forall_cons in Hok as [Hc Hok]. rewrite (Date_Normalize_ok year cur true Hc). cbn [rbind].
    assert (range_ok (IsLeap year) (from, to)) as Hft by (pose proof (mg_ok _ _ _ _ Hm) as [_ [H _]%Forall_cons]%Forall_app; exact H).
    destruct Hft as (Hf & Ht & Hle). cbn [fst snd] in Hf, Ht, Hle.
    inversion Hs as [|? ? Hs' Hall]; subst. apply List.Forall_cons_iff in Hall as [Htc _].
    destruct (Z.eqb_spec to cur) as [->|Hne].
    + destruct (IH from cur rs Hok Hm Hs') as (rs' & E & H1 & H2 & H3). exists rs'. split; [done|]. split; [done|]. split; [done|].
      intros x Hx. rewrite H3, elem_of_cons, covers_app, covers_one by done. split; [tauto|].
      intros [H|[->|H]]; auto.
    + destruct (yesterday_ok year cur Hc) as (y & -> & Hy & Ey). cbn [rbind].
      pose proof (d_ord_lt _ to cur Ht Hc). pose proof (d_ok_ord_pos _ _ Ht).
      assert (d_ord (IsLeap year) y = d_ord (IsLeap year) cur - 1) as Ey' by lia.
      destruct (Z.eqb_spec to y) as [->|Hny].
      * destruct (IH from cur rs Hok (merged_extend _ _ _ _ cur Hm Hc ltac:(lia)) Hs') as (rs' & E & H1 & H2 & H3).
        exists rs'. split; [done|]. split; [done|]. split; [done|].
        intros x Hx. rewrite H3, elem_of_cons, !covers_app, !covers_one by done. split.
        -- intros [[H'|H']|H']; auto. destruct (between_next _ y cur x Ht Hc Hx Ey' ltac:(lia)) as [| ->]; [|auto].
           left. right. lia.
        -- intros [[H'|H']|[->|H']]; auto; left; right; lia.
      * assert (d_ord (IsLeap year) to + 1 < d_ord (IsLeap year) cur) as Hgap.
        { assert (d_ord (IsLeap year) to <> d_ord (IsLeap year) y); [|lia]. intros E. apply Hny. by apply (d_ord_inj (IsLeap year)). }
        destruct (IH cur cur (rs ++ [(from, to)]) Hok) as (rs' & E & H1 & H2 & H3).
        { apply merged_next; [done|split; [done|split; [done|cbn [fst snd]; lia]]|done]. }
        { done. }
        rewrite map_app in E. exists rs'. split; [exact E|]. split; [done|]. split; [done|].
        intros x Hx. rewrite H3, elem_of_cons, !covers_app, !covers_one by done.
        assert (cur <= x <= cur <-> x = cur) by lia. tauto.
Qed.

Lemma merge_ranges_spec year drl : forall p from to rs,
  Forall (range_ok (IsLeap year)) drl -> merged_ok (IsLeap year) rs from to ->
  d_ok (IsLeap year) p.1 -> p.2 = to ->
  StronglySorted Z.le (from :: map fst drl) -> StronglySorted Z.le (to :: map snd drl) ->
  exists rs', merge_ranges year (pack p) from to (map pack drl) (map pack rs) = Ok (map pack rs') /\
    Forall (range_ok (IsLeap year)) rs' /\ spaced (IsLeap year) rs' /\
    forall x, d_ok (IsLeap year) x -> covers rs' x <-> covers (rs ++ [(from, to)]) x \/ covers drl x.
Proof.
  induction drl as [|[cf ct] drl IH]; intros p from to rs Hok Hm Hp Ep Hsf Hst; cbn [map merge_ranges].
  - exists (rs ++ [(from, to)]). rewrite map_app. split; [done|]. split; [apply Hm|]. split; [apply Hm|].
    intros x Hx. split; [tauto|]. intros [|(r & Hr & _)]; [done|]. by apply not_elem_of_nil in Hr.
  - apply Forall_cons in Hok as [(Hcf & Hct & Hcle) Hok]. cbn [fst snd] in Hcf, Hct, Hcle.
    assert (range_ok (IsLeap year) (from, to)) as Hft by (pose proof (mg_ok _ _ _ _ Hm) as [_ [H _]%Forall_cons]%Forall_app; exact H).
    destruct Hft as (Hf & Ht & Hle). cbn [fst snd] in Hf, Ht, Hle.
    inversion Hsf as [|? ? Hsf' Hallf]; subst. apply List.Forall_cons_iff in Hallf as [Hfc Hallf].
    inversion Hst as [|? ? Hst' Hallt]; subst. apply List.Forall_cons_iff in Hallt as [Htc Hallt].
    cbn [fst snd map] in *. destruct (dr_From_To year p.1 p.2 Hp Ht) as [_ E1].
    destruct (dr_From_To year cf ct Hcf Hct) as [E2 E3].
    change (newDateRange p.1 p.2) with (pack p) in E1. change (newDateRange cf ct) with (pack (cf, ct)) in E2, E3.
    rewrite E1, E2, E3. clear E1 E2 E3.
    assert (forall z, d_ok (IsLeap year) z -> Date_calcDayOfYear z (IsLeap year) = Ok (d_ord (IsLeap year) z)) as Hdoy.
    { intros z (m & d & Hz & ->). rewrite d_ord_val by done. destruct (date_ok_bytes _ _ _ Hz).
      rewrite <- (NewDate_val m d) by lia. by apply Date_DayOfYear_spec. }
    rewrite !Hdoy by done. cbn [rbind]. rewrite (Z.max_l ct) by lia.
    destruct (Z.leb_spec (d_ord (IsLeap year) cf - 1) (d_ord (IsLeap year) p.2)) as [Hj|Hj].
    + destruct (IH (cf, ct) from ct rs Hok (merged_extend _ _ _ _ ct Hm Hct ltac:(lia)) Hcf eq_refl)
        as (rs' & E & H1 & H2 & H3); [inversion Hsf'; by constructor|done|].
      exists rs'. split; [exact E|]. split; [done|]. split; [done|].
      intros x Hx. rewrite H3, covers_cons, !covers_app, !covers_one by done. cbn [fst snd]. split.
      * intros [[H'|H']|H']; auto. destruct (Z.le_gt_cases x p.2); [left; right; lia|]. right. left.
        pose proof (d_ord_lt _ p.2 x Ht Hx). pose proof (d_ord_lt _ x cf Hx Hcf). lia.
      * intros [[H'|H']|[H'|H']]; auto; left; right; lia.
    + destruct (IH (cf, ct) cf ct (rs ++ [(from, p.2)]) Hok) as (rs' & E & H1 & H2 & H3); [|done|done|done|done|].
      { apply merged_next; [done|done|lia]. }
      rewrite map_app in E. exists rs'. split; [exact E|]. split; [done|]. split; [done|].
      intros x Hx. rewrite H3, covers_cons, !covers_app, !covers_one by done. cbn [fst snd]. tauto.
Qed.

(** ** Properties *)

Lemma Forall_filter_keep {A} (P Q : A -> Prop) `{forall x, Decision (Q x)} (l : list A) :
  Forall P l -> Forall P (filter Q l).
Proof. rewrite !Forall_forall. intros HP x [_ Hx]%list_elem_of_filter. auto. Qed.

Lemma Normalize_day cd first : day_ok cd -> Normalize cd first = Ok cd.
Proof. intros (y & m & d & H). by apply (Normalize_ok _ _ y m d). Qed.

(** The iterators over a range of calendar dates visit exactly the days from
    its first to its last, one after the other, across months, leap days and
    years, whatever the consumer does and wherever it stops; the constrained ones
    skip the days the constraints exclude, and [Days] numbers the same days.
    [NewCalendarDateRange] gives the range whichever date comes first.  The last
    day of year 65535 has no successor, so the range must end before it. *)
Theorem Dates_consecutive (from to : Z) (dc : Constraints) (Hf : day_ok from) (Ht : day_ok to)
  (Hle : from <= to) (Hlast : to < last_day) :
  exists cdr l, NewCalendarDateRange from to = Ok cdr /\ NewCalendarDateRange to from = Ok cdr /\
    consecutive from to l /\
    forall S (yield : Z -> S -> res (bool * S)) s,
      Dates cdr S yield s = range_list l yield s /\
      DatesConstrained cdr dc S yield s = range_list (filter (fun d => includes dc d = true) l) yield s /\
      Days cdr S yield s = range_list (map year_day l) yield s /\
      DaysConstrained cdr dc S yield s =
        range_list (map year_day (filter (fun d => includes dc d = true) l)) yield s.
Proof.
  destruct (range_walk from to Hf Ht Hle Hlast) as (l & Hl & Hrun).
  exists (newCalendarDateRange from to), l. unfold NewCalendarDateRange.
  rewrite (proj2 (Z.ltb_ge to from)) by done. rewrite !Normalize_day by done. split; [done|]. split.
  { destruct (Z.ltb_spec from to).
    - by rewrite !Normalize_day.
    - assert (from = to) as -> by lia. by rewrite !Normalize_day. }
  split; [done|]. intros S yield s. unfold Dates, DatesConstrained, Days, DaysConstrained.
  destruct (cdr_From_To from to Hf Ht) as [-> ->]. rewrite !Hrun.
  assert (forall l, Forall day_ok l -> Forall (fun td =>
    (let! n := Date_DayOfYear (Date td) (Year td) in Ok (NewYearDay (Year td) n)) = Ok (year_day td)) l) as Hyd.
  { intros l' H. eapply Forall_impl; [exact H|]. intros td Htd. cbn beta. by rewrite (Date_DayOfYear_day td Htd). }
  assert (forall td (s : S), (let! n := Date_DayOfYear (Date td) (Year td) in yield (NewYearDay (Year td) n) s) =
    let! yd := (let! n := Date_DayOfYear (Date td) (Year td) in Ok (NewYearDay (Year td) n)) in yield yd s) as Hb.
  { intros td s'. by destruct (Date_DayOfYear (Date td) (Year td)). }
  pose proof (consecutive_ok _ _ _ Hl) as Hok.
  split; [done|]. split; [apply range_list_skip|]. split.
  - rewrite <- (range_list_map_ok _ year_day l yield s (Hyd l Hok)). clear -Hb. revert s.
    induction l as [|td l IH]; intros s; cbn [range_list]; [done|]. rewrite Hb.
    match goal with |- rbind ?m _ = _ => destruct m as [[[] s']| |] end; cbn [rbind]; auto.
  - rewrite range_list_skip.
    rewrite <- (range_list_map_ok _ year_day (filter (fun d => includes dc d = true) l) yield s (Hyd _ (Forall_filter_keep _ _ _ Hok))).
    clear -Hb. generalize (filter (fun d => includes dc d = true) l). intros l'. revert s.
    induction l' as [|td l' IH]; intros s; cbn [range_list]; [done|]. rewrite Hb.
    match goal with |- rbind ?m _ = _ => destruct m as [[[] s']| |] end; cbn [rbind]; auto.
Qed.

Lemma day_ok_check y m d : 0 <= y < 65536 -> 1 <= m <= 12 -> 1 <= d <= dim (IsLeap y) m ->
  day_ok (NewCalendarDate y m d).
Proof. intros Hy Hm Hd. exists y, m, d. by apply NewCalendarDate_ok. Qed.

Lemma d_ok_check leap m d : 1 <= m <= 12 -> 1 <= d <= dim leap m -> d_ok leap (NewDate m d).
Proof.
  intros Hm Hd. assert (date_ok leap m d) as H by (by split). destruct (date_ok_bytes _ _ _ H).
  exists m, d. rewrite NewDate_val by lia. done.
Qed.

(** Collecting what an iterator yields. *)
Definition collected {A} (it : seq_iter A) : res (list A) := it (list A) (fun a l => Ok (true, l ++ [a])) [].

Example Dates_consecutive_witness :
  let from := NewCalendarDate 2024 2 28 in
  let to := NewCalendarDate 2024 3 1 in
  exists cdr, NewCalendarDateRange to from = Ok cdr /\
    collected (Dates cdr) = Ok [NewCalendarDate 2024 2 28; NewCalendarDate 2024 2 29; NewCalendarDate 2024 3 1].
Proof.
  intros from to. destruct (Dates_consecutive from to (MkConstraints false false [] [] []))
    as (cdr & l & E & E' & _ & _).
  - apply day_ok_check; vm_compute; (split; congruence).
  - apply day_ok_check; vm_compute; (split; congruence).
  - vm_compute. congruence.
  - vm_compute. congruence.
  - exists cdr. split; [exact E'|]. vm_compute in E. injection E as <-. vm_compute. reflexivity.
Defined.

(** [RangesConstrained] yields exactly the maximal runs of consecutive days
    that the constraints include, each as the range from its first to its last
    day, in order; together the runs hold the included days of the range, and the
    consumer may stop at any of them. *)
Theorem RangesConstrained_maximal_runs (from to : Z) (dc : Constraints) (Hf : day_ok from) (Ht : day_ok to)
  (Hle : from <= to) (Hlast : to < last_day) :
  exists l segs, consecutive from to l /\ runs (includes dc) l segs /\
    concat segs = filter (fun d => includes dc d = true) l /\
    forall S (yield : Z -> S -> res (bool * S)) s,
      RangesConstrained (newCalendarDateRange from to) dc S yield s = range_list (map run_range segs) yield s.
Proof.
  destruct (RangesConstrained_runs from to dc Hf Ht Hle Hlast) as (l & segs & Hl & Hr & Hrun).
  exists l, segs. split; [done|]. split; [done|]. split; [by apply runs_filter|done].
Qed.

(** Two weeks of weekdays. *)
Example RangesConstrained_maximal_runs_witness :
  let from := NewCalendarDate 2024 2 24 in
  let to := NewCalendarDate 2024 3 5 in
  let dc := MkConstraints true false [] [] [] in
  (exists l segs, consecutive from to l /\ runs (includes dc) l segs) /\
  collected (RangesConstrained (newCalendarDateRange from to) dc) =
    Ok [newCalendarDateRange (NewCalendarDate 2024 2 26) (NewCalendarDate 2024 3 1);
        newCalendarDateRange (NewCalendarDate 2024 3 4) (NewCalendarDate 2024 3 5)].
Proof.
  intros from to dc. destruct (RangesConstrained_maximal_runs from to dc) as (l & segs & Hl & Hr & _).
  - apply day_ok_check; vm_compute; (split; congruence).
  - apply day_ok_check; vm_compute; (split; congruence).
  - vm_compute. congruence.
  - vm_compute. congruence.
  - split; [by exists l, segs|]. vm_compute. reflexivity.
Defined.

(** Merging a sorted list of dates that exist in the year gives ranges that
    hold exactly those dates: each range starts no later than it ends, the ranges
    are in order, and no two of them are adjacent or overlap.  An empty list
    panics at its first element. *)
Theorem DateList_Merge_exact (year : Z) (dl : list Z) (Hok : Forall (d_ok (IsLeap year)) dl)
  (Hs : StronglySorted Z.le dl) :
  match dl with
  | [] => DateList_Merge dl year = Panic
  | _ => exists rs, DateList_Merge dl year = Ok (map pack rs) /\
      Forall (range_ok (IsLeap year)) rs /\ spaced (IsLeap year) rs /\
      forall x, d_ok (IsLeap year) x -> covers rs x <-> x ∈ dl
  end.
Proof.
  destruct dl as [|d0 dl]; [done|]. apply Forall_cons in Hok as [H0 Hok].
  destruct (merge_dates_spec year dl d0 d0 [] Hok) as (rs & E & H1 & H2 & H3); [|done|].
  { constructor; [|done]. apply Forall_singleton. split; [done|]. split; [done|cbn [fst snd]; lia]. }
  exists rs. unfold DateList_Merge. change (zget (d0 :: dl) 0) with (Some d0). cbn [checked rbind List.tl].
  rewrite (Date_Normalize_ok year d0 true H0). cbn [rbind]. split; [done|]. split; [done|]. split; [done|].
  intros x Hx. rewrite H3, covers_app, covers_one, elem_of_cons by done.
  assert (covers [] x <-> False) as -> by (unfold covers; split; [intros (r & Hr & _); by apply not_elem_of_nil in Hr|done]).
  assert (d0 <= x <= d0 <-> x = d0) as -> by lia. tauto.
Qed.

Example DateList_Merge_exact_witness :
  let dl := [NewDate 1 30; NewDate 1 31; NewDate 2 1; NewDate 2 1; NewDate 2 29] in
  (exists rs, DateList_Merge dl 2024 = Ok (map pack rs) /\ spaced (IsLeap 2024) rs) /\
  DateList_Merge dl 2024 =
    Ok [newDateRange (NewDate 1 30) (NewDate 2 1); newDateRange (NewDate 2 29) (NewDate 2 29)].
Proof.
  intros dl. split; [|vm_compute; reflexivity].
  assert (Forall (d_ok (IsLeap 2024)) dl) as Hok.
  { repeat (apply Forall_cons; split); [..|apply Forall_nil; done]; apply d_ok_check; vm_compute; (split; congruence). }
  assert (StronglySorted Z.le dl) as Hs.
  { unfold dl. repeat (apply SSorted_cons; [|repeat apply List.Forall_cons; try apply List.Forall_nil; vm_compute; congruence]).
    apply SSorted_nil. }
  destruct (DateList_Merge_exact 2024 dl Hok Hs) as (rs & E & _ & Hsp & _). by exists rs.
Defined.

(** Merging ranges whose first days and whose last days are both in order
    gives ordered ranges, with a day between each and the next, that hold exactly
    the days of the ranges merged.  A range inside an earlier one breaks the
    second condition, and days are lost: the third range below is compared with
    the second and not with what was merged, and Jan 6 to Mar 1 go. *)
Theorem DateRangeList_Merge_exact (year : Z) (rs : list (Z * Z)) (Hok : Forall (range_ok (IsLeap year)) rs)
  (Hf : StronglySorted Z.le (map fst rs)) (Ht : StronglySorted Z.le (map snd rs)) :
  (exists rs', DateRangeList_Merge (map pack rs) year = Ok (map pack rs') /\
     Forall (range_ok (IsLeap year)) rs' /\ spaced (IsLeap year) rs' /\
     forall x, d_ok (IsLeap year) x -> covers rs' x <-> covers rs x) /\
  DateRangeList_Merge [newDateRange (NewDate 1 1) (NewDate 3 1); newDateRange (NewDate 1 2) (NewDate 1 3);
                       newDateRange (NewDate 1 4) (NewDate 1 5)] year =
    Ok [newDateRange (NewDate 1 1) (NewDate 1 5)].
Proof.
  split.
  - destruct rs as [|[f t] rs]; [by exists []|]. apply Forall_cons in Hok as [Hft Hok].
    destruct (merge_ranges_spec year rs (f, t) f t [] Hok) as (rs' & E & H1 & H2 & H3); try done.
    { constructor; [by apply Forall_singleton|done]. }
    { apply Hft. }
    exists rs'. cbn [map]. unfold DateRangeList_Merge.
    destruct (dr_From_To year f t) as [E1 E2]; [apply Hft|apply Hft|].
    change (pack (f, t)) with (newDateRange f t) in *. rewrite E1, E2. split; [exact E|]. split; [done|]. split; [done|].
    intros x Hx. rewrite H3 by done. cbn [app]. by rewrite covers_one, covers_cons.
  - unfold DateRangeList_Merge. cbn [merge_ranges].
    assert (IsLeap year = true \/ IsLeap year = false) as [E|E] by (destruct (IsLeap year); auto);
      unfold dr_From, dr_To; rewrite E; vm_compute; reflexivity.
Qed.

Example DateRangeList_Merge_exact_witness :
  let rs := [(NewDate 1 1, NewDate 1 31); (NewDate 2 1, NewDate 2 5); (NewDate 2 3, NewDate 2 7)] in
  (exists rs', DateRangeList_Merge (map pack rs) 2023 = Ok (map pack rs') /\ spaced (IsLeap 2023) rs') /\
  DateRangeList_Merge (map pack rs) 2023 = Ok [newDateRange (NewDate 1 1) (NewDate 2 7)].
Proof.
  intros rs. split; [|vm_compute; reflexivity].
  destruct (DateRangeList_Merge_exact 2023 rs) as [(rs' & E & _ & Hsp & _) _].
  - repeat (apply Forall_cons; split); [..|apply Forall_nil; done];
      (split; [|split]; [apply d_ok_check; vm_compute; (split; congruence)..|vm_compute; congruence]).
  - unfold rs. cbn [map fst]. repeat (apply SSorted_cons; [|repeat apply List.Forall_cons; try apply List.Forall_nil; vm_compute; congruence]).
    apply SSorted_nil.
  - unfold rs. cbn [map snd]. repeat (apply SSorted_cons; [|repeat apply List.Forall_cons; try apply List.Forall_nil; vm_compute; congruence]).
    apply SSorted_nil.
  - by exists rs'.
Defined.

Lemma DateList_Merge_two year a b : d_ok (IsLeap year) a -> d_ok (IsLeap year) b -> a <> b ->
  DateList_Merge [a; b] year =
    let! y := Date_Yesterday b year in
    Ok (if a =? y then [newDateRange a b] else [newDateRange a a; newDateRange b b]).
Proof.
  intros Ha Hb Hne. unfold DateList_Merge. change (zget [a; b] 0) with (Some a). cbn [checked rbind List.tl merge_dates].
  rewrite !Date_Normalize_ok by done. cbn [rbind]. rewrite (proj2 (Z.eqb_neq a b)) by done.
  unfold Date_Yesterday. destruct (yesterday b (daysInMonthForYear year)); cbn [rbind]; [|done..]. by destruct (a =? a0).
Qed.

Lemma CalendarDateList_Merge_two a b : day_ok a -> day_ok b -> a <> b ->
  CalendarDateList_Merge [a; b] =
    let! y := Yesterday b in
    Ok (if a =? y then [newCalendarDateRange a b] else [newCalendarDateRange a a; newCalendarDateRange b b]).
Proof.
  intros Ha Hb Hne. unfold CalendarDateList_Merge. cbn [merge_calendar_dates].
  rewrite !Normalize_day by done. cbn [rbind]. rewrite (proj2 (Z.eqb_neq a b)) by done.
  destruct (Yesterday b); cbn [rbind]; [|done..]. by destruct (a =? a0).
Qed.

(** The dates of a month's last day and of the next month's first day are
    consecutive, and [DateList.Merge] makes one range of them; as calendar dates
    [CalendarDateList.Merge] leaves them apart, whatever the year, except from
    July to August, since [Yesterday] ends the earlier month on the wrong day.
    Within a month both merge. *)
Theorem CalendarDateList_Merge_months (y m : Z) (Hy : 0 <= y < 65536) (Hm : 1 <= m <= 11) :
  let lst := dim (IsLeap y) m in
  DateList_Merge [NewDate m lst; NewDate (m + 1) 1] y = Ok [newDateRange (NewDate m lst) (NewDate (m + 1) 1)] /\
  CalendarDateList_Merge [NewCalendarDate y m lst; NewCalendarDate y (m + 1) 1] =
    Ok (if m =? 7 then [newCalendarDateRange (NewCalendarDate y m lst) (NewCalendarDate y (m + 1) 1)]
        else [newCalendarDateRange (NewCalendarDate y m lst) (NewCalendarDate y m lst);
              newCalendarDateRange (NewCalendarDate y (m + 1) 1) (NewCalendarDate y (m + 1) 1)]) /\
  forall d, 1 <= d < lst ->
    CalendarDateList_Merge [NewCalendarDate y m d; NewCalendarDate y m (d + 1)] =
      Ok [newCalendarDateRange (NewCalendarDate y m d) (NewCalendarDate y m (d + 1))].
Proof.
  intros lst. pose proof (dim_bounds (IsLeap y) m ltac:(lia)) as Hb. pose proof (dim_bounds (IsLeap y) (m + 1) ltac:(lia)) as Hb'.
  assert (forall d, 1 <= d <= lst -> date_ok (IsLeap y) m d) as H1 by (intros d Hd; split; subst lst; lia).
  assert (date_ok (IsLeap y) (m + 1) 1) as H2 by (split; lia).
  assert (forall m d m' d', date_ok (IsLeap y) m d -> date_ok (IsLeap y) m' d' ->
    (NewCalendarDate y m d = NewCalendarDate y m' d' -> m = m' /\ d = d')) as Hinj.
  { intros a b a' b' Ha Hb'' E. pose proof (NewCalendarDate_ok y a b Hy Ha) as C. rewrite E in C.
    by destruct (cd_ok_inj _ _ _ _ _ _ _ C (NewCalendarDate_ok y a' b' Hy Hb'')) as (_ & -> & ->). }
  split; [|split].
  - rewrite DateList_Merge_two; [|by apply d_ok_check; subst lst; lia|by apply d_ok_check; lia|rewrite !NewDate_val by (subst lst; lia); lia].
    rewrite (Date_Yesterday_spec y (m + 1) 1 H2). unfold prev_day.
    rewrite (proj2 (Z.eqb_neq (m + 1) 1)) by lia. cbn [andb Z.eqb Pos.eqb rbind fst snd].
    replace (m + 1 - 1) with m by lia. fold lst. by rewrite Z.eqb_refl.
  - rewrite CalendarDateList_Merge_two; [|by apply day_ok_check; subst lst; lia|by apply day_ok_check; lia|].
    2:{ intros E. apply Hinj in E as [E _]; [lia|apply H1; subst lst; lia|done]. }
    rewrite (Yesterday_spec _ y (m + 1) 1) by (by apply NewCalendarDate_ok).
    rewrite (proj2 (Z.eqb_neq (m + 1) 1)) by lia. cbn [andb Z.eqb Pos.eqb rbind].
    replace (m + 1 - 1) with m by lia. rewrite !NewCalendarDate_val by (subst lst; lia).
    pose proof (all_months_spec (fun leap m => (m =? 12) || eqb (dim leap m =? dim leap (m + 1)) (m =? 7)) eq_refl
      (IsLeap y) m ltac:(lia)) as E. cbn beta in E. rewrite (proj2 (Z.eqb_neq m 12)) in E by lia. apply eqb_prop in E.
    fold lst in E. rewrite <- E. f_equal.
    destruct (Z.eqb_spec lst (dim (IsLeap y) (m + 1))), (Z.eqb_spec (65536 * y + 256 * m + lst)
      (65536 * y + 256 * m + dim (IsLeap y) (m + 1))); lia || done.
  - intros d Hd. rewrite CalendarDateList_Merge_two; [|by apply day_ok_check; subst lst; lia|by apply day_ok_check; subst lst; lia|].
    2:{ intros E. apply Hinj in E as [_ E]; [lia|apply H1; lia|apply H1; lia]. }
    rewrite (Yesterday_spec _ y m (d + 1)) by (apply NewCalendarDate_ok; [done|apply H1; lia]).
    rewrite (proj2 (Z.eqb_neq (d + 1) 1)), andb_false_r by lia. cbn [rbind].
    replace (d + 1 - 1) with d by lia. by rewrite Z.eqb_refl.
Qed.

Example CalendarDateList_Merge_months_witness :
  CalendarDateList_Merge [NewCalendarDate 2024 2 29; NewCalendarDate 2024 3 1] =
    Ok [newCalendarDateRange (NewCalendarDate 2024 2 29) (NewCalendarDate 2024 2 29);
        newCalendarDateRange (NewCalendarDate 2024 3 1) (NewCalendarDate 2024 3 1)].
Proof. exact (proj1 (proj2 (CalendarDateList_Merge_months 2024 2 ltac:(lia) ltac:(lia)))). Defined.
