(* ===== verification/Vms.v ===== *)
(** * Virtual machine instances (vms: vms.go, vmstestutil/mock.go)

    The states of an instance, the table of transitions, and [CleanupVM], which
    is written against the [Instance] interface: here a type class over the state
    [W] of the implementation and its errors [E].  [InstanceLaws] is the contract
    the comments of the interface give; the mock instance of the repository is
    shown to meet it. *)

From Stdlib Require Import String.
From stdpp Require Import base list option numbers sets.
From Stdlib Require Import ZArith Lia.
From S2P Require Import Prelude.

Open Scope list_scope.

(** ** States and actions *)

Inductive State :=
| StateInitial | StateCloning | StateStarting | StateRunning | StateStopping | StateStopped
| StateSuspending | StateSuspended | StateDeleting | StateDeleted | StateErrorUnknown.

Inductive Action := ActionNone | ActionClone | ActionStart | ActionStop | ActionSuspend | ActionDelete.

#[export] Instance State_eq_dec : EqDecision State.
Proof. solve_decision. Defined.

#[export] Instance Action_eq_dec : EqDecision Action.
Proof. solve_decision. Defined.

Definition State_String (s : State) : string :=
  match s with
  | StateInitial => "Initial"
  | StateCloning => "Cloning"
  | StateStarting => "Starting"
  | StateRunning => "Running"
  | StateStopping => "Stopping"
  | StateStopped => "Stopped"
  | StateSuspending => "Suspending"
  | StateSuspended => "Suspended"
  | StateDeleting => "Deleting"
  | StateDeleted => "Deleted"
  | StateErrorUnknown => "ErrorUnknown"
  end.

Definition Action_String (a : Action) : string :=
  match a with
  | ActionNone => "None"
  | ActionClone => "Clone"
  | ActionStart => "Start"
  | ActionStop => "Stop"
  | ActionSuspend => "Suspend"
  | ActionDelete => "Delete"
  end.

Definition transitionTable (s : State) : list (Action * State) :=
  match s with
  | StateInitial => [(ActionClone, StateCloning); (ActionDelete, StateDeleting)]
  | StateCloning => [(ActionNone, StateCloning)]
  | StateStarting => [(ActionNone, StateStarting)]
  | StateRunning => [(ActionStop, StateStopping); (ActionSuspend, StateSuspending)]
  | StateStopping => [(ActionNone, StateStopping)]
  | StateStopped => [(ActionStart, StateStarting); (ActionDelete, StateDeleting); (ActionStop, StateStopped)]
  | StateSuspending => [(ActionNone, StateSuspending)]
  | StateSuspended => [(ActionStart, StateStarting); (ActionDelete, StateDeleting); (ActionSuspend, StateSuspended)]
  | StateDeleting => [(ActionNone, StateDeleting)]
  | StateDeleted => [(ActionClone, StateCloning)]
  | StateErrorUnknown => [(ActionDelete, StateDeleting)]
  end.

Fixpoint table_lookup (a : Action) (l : list (Action * State)) : option State :=
  match l with
  | [] => None
  | (a', s) :: l => if decide (a = a') then Some s else table_lookup a l
  end.

Definition Transition (s : State) (action : Action) : State * bool :=
  match table_lookup action (transitionTable s) with
  | Some next => (next, true)
  | None => (s, false)
  end.

(** The order is that of the map iteration, any order. *)
Definition ValidActions (s : State) : list Action := map fst (transitionTable s).

Definition Allowed (s : State) (action : Action) : bool := snd (Transition s action).

(** ** The interface *)

(** What [CleanupVM] and the pool call.  [Stop] returns the error of the last
    command and its own. *)
Class Instance (W E : Type) := {
  State_of : W -> State;
  Clone : W -> option E * W;
  Start : W -> option E * W;
  Stop : W -> (option E * option E) * W;
  Suspend : W -> option E * W;
  Delete : W -> option E * W;
}.

(** The contract: what each operation leaves when its table entry allows it.  An
    operation that fails leaves the state it found, the state its comment names,
    or [StateErrorUnknown].  [ok] is what the implementation keeps true. *)
Class InstanceLaws (W E : Type) {I : Instance W E} (ok : W -> Prop) := {
  Clone_law w : ok w -> Allowed (State_of w) ActionClone = true ->
    let '(err, w') := Clone w in ok w' /\
    match err with
    | None => State_of w' = StateStopped
    | Some _ => State_of w' = State_of w \/ State_of w' = StateInitial \/ State_of w' = StateErrorUnknown
    end;
  Start_law w : ok w -> Allowed (State_of w) ActionStart = true ->
    let '(err, w') := Start w in ok w' /\
    match err with
    | None => State_of w' = StateRunning
    | Some _ => State_of w' = StateStopped \/ State_of w' = StateErrorUnknown
    end;
  Stop_law w : ok w -> Allowed (State_of w) ActionStop = true ->
    let '((_, err), w') := Stop w in ok w' /\
    match err with
    | None => State_of w' = StateStopped
    | Some _ => State_of w' = StateStopped \/ State_of w' = StateErrorUnknown
    end;
  Suspend_law w : ok w -> Allowed (State_of w) ActionSuspend = true ->
    let '(err, w') := Suspend w in ok w' /\
    match err with
    | None => State_of w' = StateSuspended
    | Some _ => State_of w' = StateSuspended \/ State_of w' = StateErrorUnknown
    end;
  Delete_law w : ok w -> Allowed (State_of w) ActionDelete = true ->
    let '(err, w') := Delete w in ok w' /\
    match err with
    | None => State_of w' = StateDeleted
    | Some _ => State_of w' = State_of w \/ State_of w' = StateDeleted \/ State_of w' = StateErrorUnknown
    end;
}.

(** ** CleanupVM *)

(** The errors [CleanupVM] builds. *)
Inductive CleanupErr (E : Type) :=
| NotStopped (s : State) (runErr stopErr : option E)
| DeleteFailed (s : State) (err : E)
| NotDeleted (s : State)
| UnexpectedState (s : State).
Arguments NotStopped {E} s runErr stopErr.
Arguments DeleteFailed {E} s err.
Arguments NotDeleted {E} s.
Arguments UnexpectedState {E} s.

(** The case the running state falls through to. *)
Definition cleanup_delete {W E} {I : Instance W E} (s : State) (w : W) : option (CleanupErr E) * W :=
  let '(err, w) := Delete w in
  match err with
  | Some err => (Some (DeleteFailed s err), w)
  | None => if decide (State_of w = StateDeleted) then (None, w) else (Some (NotDeleted (State_of w)), w)
  end.

(** [None] for [inst] is a nil instance. *)
Definition CleanupVM {W E} {I : Instance W E} (inst : option W) : option (CleanupErr E) * option W :=
  match inst with
  | None => (None, None)
  | Some w =>
      let '(r, w) :=
        match State_of w with
        | StateDeleted => (None, w)
        | StateInitial => let '(_, w) := Delete w in (None, w)
        | StateRunning =>
            let '((runErr, stopErr), w) := Stop w in
            if decide (State_of w = StateStopped) then cleanup_delete (State_of w) w
            else (Some (NotStopped (State_of w) runErr stopErr), w)
        | (StateStopped | StateSuspended | StateErrorUnknown) as s => cleanup_delete s w
        | s => (Some (UnexpectedState s), w)
        end in (r, Some w)
  end.

(** ** WaitForStateFunc *)

(** Whether polling is over, and the unexpected state that ended it. *)
Definition WaitForStateFunc {W E} {I : Instance W E} (final : State) (intermediate : list State) (w : W) :
    bool * option State :=
  let got := State_of w in
  if decide (got = final) then (true, None)
  else if decide (intermediate <> [] /\ got ∉ intermediate) then (true, Some got)
  else (false, None).

(** ** The mock instance (vmstestutil/mock.go)

    The context is not cancelled while an operation runs, and [CloneBlock] is
    nil. *)
Record Mock := MkMock {
  id : string;
  state : State;
  cloned : bool;
  deleteCalls : nat;
  CloneErr : option string;
  StartErr : option string;
  StopRunErr : option string;
  StopErr : option string;
  StopState : option State;
  SuspendErr : option string;
  DeleteErr : option string;
}.

Definition NewMock (id : string) : Mock := MkMock id StateInitial false 0 None None None None None None None.

Definition set_state (s : State) (m : Mock) : Mock :=
  MkMock (id m) s (cloned m) (deleteCalls m) (CloneErr m) (StartErr m) (StopRunErr m) (StopErr m) (StopState m)
    (SuspendErr m) (DeleteErr m).

Definition Mock_Clone (m : Mock) : option string * Mock :=
  match CloneErr m with
  | Some e => (Some e, m)
  | None =>
      (None, MkMock (id m) StateStopped true (deleteCalls m) (CloneErr m) (StartErr m) (StopRunErr m) (StopErr m)
               (StopState m) (SuspendErr m) (DeleteErr m))
  end.

Definition Mock_Start (m : Mock) : option string * Mock :=
  match StartErr m with
  | Some e => (Some e, set_state StateErrorUnknown m)
  | None => (None, set_state StateRunning m)
  end.

Definition Mock_Stop (m : Mock) : (option string * option string) * Mock :=
  if decide (state m = StateStopped) then ((None, None), m)
  else if decide (state m <> StateRunning) then ((None, Some ("cannot stop VM in state " ++ State_String (state m))%string), m)
  else match StopErr m with
       | Some e => ((StopRunErr m, Some e), set_state (default StateErrorUnknown (StopState m)) m)
       | None => ((StopRunErr m, None), set_state (default StateStopped (StopState m)) m)
       end.

Definition Mock_Suspend (m : Mock) : option string * Mock :=
  match SuspendErr m with
  | Some e => (Some e, set_state StateErrorUnknown m)
  | None => (None, set_state StateSuspended m)
  end.

Definition count_delete (m : Mock) : Mock :=
  MkMock (id m) (state m) (cloned m) (S (deleteCalls m)) (CloneErr m) (StartErr m) (StopRunErr m) (StopErr m) (StopState m)
    (SuspendErr m) (DeleteErr m).

Definition Mock_Delete (m : Mock) : option string * Mock :=
  let m := count_delete m in
  if negb (Allowed (state m) ActionDelete) then (Some ("cannot delete VM in state " ++ State_String (state m))%string, m)
  else match DeleteErr m with
       | Some e => (Some e, m)
       | None =>
           if decide (state m = StateInitial /\ cloned m = false) then (Some ("mock " ++ id m ++ ": virtual machine not found")%string, m)
           else (None, set_state StateDeleted m)
       end.

#[export] Instance Mock_Instance : Instance Mock string := {
  State_of := state; Clone := Mock_Clone; Start := Mock_Start; Stop := Mock_Stop; Suspend := Mock_Suspend;
  Delete := Mock_Delete;
}.

(** ** Recording the calls *)

(** An instance that also records each action with the state it met. *)
#[export] Instance traced {W E} (I : Instance W E) : Instance (W * list (State * Action)) E := {
  State_of p := State_of p.1;
  Clone p := let '(r, w) := Clone p.1 in (r, (w, p.2 ++ [(State_of p.1, ActionClone)]));
  Start p := let '(r, w) := Start p.1 in (r, (w, p.2 ++ [(State_of p.1, ActionStart)]));
  Stop p := let '(r, w) := Stop p.1 in (r, (w, p.2 ++ [(State_of p.1, ActionStop)]));
  Suspend p := let '(r, w) := Suspend p.1 in (r, (w, p.2 ++ [(State_of p.1, ActionSuspend)]));
  Delete p := let '(r, w) := Delete p.1 in (r, (w, p.2 ++ [(State_of p.1, ActionDelete)]));
}.

(** ** The mock meets the contract *)

(** A mock whose state after [Stop] has not been configured. *)
Definition plain_mock (m : Mock) : Prop := StopState m = None.

#[export] Instance Mock_laws : InstanceLaws Mock string plain_mock.
Proof.
  constructor; intros m Hp Ha; cbn [State_of Mock_Instance] in *; unfold plain_mock in *.
  - cbn [Clone Mock_Instance]. unfold Mock_Clone. destruct (CloneErr m); cbn; auto.
  - cbn [Start Mock_Instance]. unfold Mock_Start. destruct (StartErr m); cbn; auto.
  - cbn [Stop Mock_Instance]. unfold Mock_Stop. rewrite Hp.
    destruct (decide (state m = StateStopped)) as [E|E]; [auto|].
    destruct (decide (state m <> StateRunning)) as [E'|E']; [by destruct (state m)|].
    destruct (StopErr m); cbn; auto.
  - cbn [Suspend Mock_Instance]. unfold Mock_Suspend. destruct (SuspendErr m); cbn; auto.
  - cbn [Delete Mock_Instance]. unfold Mock_Delete. cbn [state count_delete DeleteErr cloned]. rewrite Ha. cbn [negb].
    destruct (DeleteErr m); [cbn; auto|].
    destruct (decide (state m = StateInitial /\ cloned m = false)); cbn; auto.
Qed.

(** ** CleanupVM against the contract *)

Section contract.
Context {W E : Type} {I : Instance W E} (ok : W -> Prop) {L : InstanceLaws W E ok}.

(** What cleaning up an instance found in a state promises. *)
Definition cleanup_promise (s : State) (w : W) (r : option (CleanupErr E)) (w' : W) : Prop :=
  match s with
  | StateDeleted => r = None /\ w' = w
  | StateInitial => r = None /\ w' = (Delete w).2 /\ State_of w' ∈ [StateInitial; StateDeleted; StateErrorUnknown]
  | StateRunning | StateStopped | StateSuspended | StateErrorUnknown =>
      match r with
      | None => State_of w' = StateDeleted
      | Some (NotStopped s' _ stopErr) => s = StateRunning /\ s' = StateErrorUnknown /\ is_Some stopErr
      | Some (DeleteFailed s' _) => s' = (if decide (s = StateRunning) then StateStopped else s)
      | Some _ => False
      end
  | _ => r = Some (UnexpectedState s) /\ w' = w
  end.

Lemma cleanup_delete_spec s w : ok w -> State_of w = s -> Allowed s ActionDelete = true ->
  let '(r, w') := cleanup_delete s w in
  match r with
  | None => State_of w' = StateDeleted
  | Some (DeleteFailed s' _) => s' = s
  | Some _ => False
  end.
Proof.
  intros Hw Hs Ha. unfold cleanup_delete. pose proof (Delete_law w Hw) as HD. rewrite Hs in HD. specialize (HD Ha).
  destruct (Delete w) as [[e|] w']; [done|]. destruct HD as [_ HD]. by destruct (decide _).
Qed.

Lemma cleanup_delete_traced s w tr :
  cleanup_delete (I := traced I) s (w, tr) =
    let '(r, w') := cleanup_delete s w in (r, (w', tr ++ [(State_of w, ActionDelete)])).
Proof.
  unfold cleanup_delete. cbn [Delete State_of traced fst snd]. destruct (Delete w) as [[e|] w']; [done|].
  cbn [fst]. by destruct (decide _).
Qed.

Lemma CleanupVM_promise w : ok w ->
  exists r w', CleanupVM (Some w) = (r, Some w') /\ cleanup_promise (State_of w) w r w'.
Proof.
  intros Hw. unfold CleanupVM. destruct (State_of w) eqn:Es; cbn [cleanup_promise]; try by do 2 eexists.
  - pose proof (Delete_law w Hw) as HD. rewrite Es in HD. specialize (HD eq_refl).
    destruct (Delete w) as [[e|] w'] eqn:Ed; do 2 eexists; (split; [done|]); (split; [done|split; [done|]]);
      set_unfold; naive_solver.
  - pose proof (Stop_law w Hw) as HS. rewrite Es in HS. specialize (HS eq_refl).
    destruct (Stop w) as [[runErr stopErr] w1]. destruct HS as [Hw1 HS].
    destruct (decide (State_of w1 = StateStopped)) as [E1|E1].
    + pose proof (cleanup_delete_spec _ w1 Hw1 E1 eq_refl) as HD. rewrite E1.
      destruct (cleanup_delete StateStopped w1) as [r w2]. do 2 eexists. split; [done|]. by destruct r as [[]|].
    + do 2 eexists. split; [done|]. cbn. destruct stopErr; [|done]. destruct HS as [|HS]; [done|]. by rewrite HS.
  - pose proof (cleanup_delete_spec _ w Hw Es eq_refl) as HD.
    destruct (cleanup_delete StateStopped w) as [r w2]. do 2 eexists. split; [done|]. by destruct r as [[]|].
  - pose proof (cleanup_delete_spec _ w Hw Es eq_refl) as HD.
    destruct (cleanup_delete StateSuspended w) as [r w2]. do 2 eexists. split; [done|]. by destruct r as [[]|].
  - pose proof (cleanup_delete_spec _ w Hw Es eq_refl) as HD.
    destruct (cleanup_delete StateErrorUnknown w) as [r w2]. do 2 eexists. split; [done|]. by destruct r as [[]|].
Qed.

(** The actions it performs, whatever the implementation. *)
Lemma CleanupVM_traced w :
  exists tr, CleanupVM (I := traced I) (Some (w, [])) =
      (let '(r, w') := CleanupVM (Some w) in (r, (fun w' => (w', tr)) <$> w')) /\
    Forall (fun p => Allowed p.1 p.2 = true) tr /\ (length tr <= 2)%nat.
Proof.
  unfold CleanupVM. change (State_of (w, @nil (State * Action))) with (State_of w).
  destruct (State_of w) eqn:Es; rewrite ?cleanup_delete_traced, ?Es; try (exists []; split; [done|split; [constructor|cbn; lia]]).
  - exists [(StateInitial, ActionDelete)]. cbn [Delete traced fst snd app]. rewrite Es. destruct (Delete w).
    split; [done|split; [by repeat constructor|cbn; lia]].
  - cbn [Stop traced fst snd app]. rewrite Es. destruct (Stop w) as [[e1 e2] w1].
    change (State_of (w1, ?l)) with (State_of w1). destruct (decide (State_of w1 = StateStopped)) as [E1|E1].
    + exists [(StateRunning, ActionStop); (StateStopped, ActionDelete)]. rewrite cleanup_delete_traced, E1.
      destruct (cleanup_delete StateStopped w1). split; [done|split; [by repeat constructor|cbn; lia]].
    + exists [(StateRunning, ActionStop)]. split; [done|split; [by repeat constructor|cbn; lia]].
  - exists [(StateStopped, ActionDelete)]. destruct (cleanup_delete _ w). split; [done|split; [by repeat constructor|cbn; lia]].
  - exists [(StateSuspended, ActionDelete)]. destruct (cleanup_delete _ w). split; [done|split; [by repeat constructor|cbn; lia]].
  - exists [(StateErrorUnknown, ActionDelete)]. destruct (cleanup_delete _ w). split; [done|split; [by repeat constructor|cbn; lia]].
Qed.
End contract.

(** ** Properties *)

(** Against any implementation that keeps the contract of [Instance],
    [CleanupVM] returns no error only when the instance ends deleted, or was
    found in its initial state, from which the delete is best effort; it leaves an
    instance found in an intermediate state alone, with an error; when stopping a
    running instance fails it does not delete it.  It calls no operation the
    transition table does not allow in the state it is called in, and at most
    two.  A nil instance is nothing to clean up. *)
Theorem CleanupVM_contract (W E : Type) (I : Instance W E) (ok : W -> Prop) (L : InstanceLaws W E ok)
  (w : W) (Hw : ok w) :
  CleanupVM (None : option W) = (None, None) /\
  (exists r w', CleanupVM (Some w) = (r, Some w') /\ cleanup_promise (State_of w) w r w') /\
  exists tr, CleanupVM (I := traced I) (Some (w, [])) =
      (let '(r, w') := CleanupVM (Some w) in (r, (fun w' => (w', tr)) <$> w')) /\
    Forall (fun p => Allowed p.1 p.2 = true) tr /\ (length tr <= 2)%nat.
Proof. split; [done|]. split; [by apply (CleanupVM_promise ok)|apply CleanupVM_traced]. Qed.

Example CleanupVM_contract_witness :
  let m := (Mock_Start (Mock_Clone (NewMock "vm")).2).2 in
  (exists r w', CleanupVM (Some m) = (r, Some w') /\ cleanup_promise (State_of m) m r w') /\
  (let '(r, m') := CleanupVM (Some m) in (r, state <$> m')) = (None, Some StateDeleted).
Proof.
  intros m. split; [|reflexivity].
  exact (proj1 (proj2 (CleanupVM_contract Mock string _ plain_mock _ m eq_refl))).
Defined.
