(* ===== verification/VmsPool.v ===== *)
(** * A pool of virtual machines (vms/vmspool: pool.go, events.go)

    The pool's goroutines as threads that interleave at every lock, channel
    operation and call of an instance: each thread is a program counter with its
    local variables, and [exec] performs one step of one thread.  What an
    operation of an instance returns, when a context is cancelled and when a
    timer fires are choices of the schedule, so every theorem holds for every
    backend.  [suspendable] is the [Suspendable] method of the instances.

    The last fields of the state are a record of the run that no step reads:
    what the callers hold, what has become of each instance, and how many slots
    were given up. *)

From stdpp Require Import base list option numbers gmap sets fin_sets functions.
From Stdlib Require Import ZArith Lia.
From S2P Require Import Prelude.

Open Scope list_scope.

Inductive EventKind :=
| EventAcquireWaiting | EventVMDequeued | EventAcquired | EventAcquireFailed | EventAttemptToUseClosedPool
| EventRelease | EventReleased | EventVMCreateStarted | EventVMCreated | EventVMCreateFailed
| EventReplenishStarted | EventReplenished | EventReplenishFailed | EventStartPoolFull
| EventOrphanedVMDeleted | EventAcquiredVMRetained.

(** ** Options *)

Definition StagingBehaviourRunning : Z := 0.
Definition StagingBehaviourSuspended : Z := 1.
Definition StagingBehaviourStopped : Z := 2.

Record options := MkOptions { size : Z; stagingBehaviour : Z; deleteAcquiredOnClose : bool }.

Definition DefaultPoolSize : Z := 2.

Definition WithSize (sz : Z) (o : options) : options :=
  MkOptions (if (sz <=? 0)%Z then DefaultPoolSize else sz) (stagingBehaviour o) (deleteAcquiredOnClose o).

Definition WithStagingBehaviour (behaviour : Z) (o : options) : options :=
  MkOptions (size o) behaviour (deleteAcquiredOnClose o).

Definition WithDeleteAcquiredOnClose (v : bool) (o : options) : options :=
  MkOptions (size o) (stagingBehaviour o) v.

(** The defaults of [New], then the options in order. *)
Definition new_options (opts : list (options -> options)) : options :=
  fold_left (fun o opt => opt o) opts (MkOptions DefaultPoolSize StagingBehaviourRunning true).

(** ** Threads *)

(** Who runs [createVMWithRetry]: [Start] itself, a goroutine of [fill], or one of
    [requestReplenish]. *)
Inductive src := Foreground | Filler | Replenisher.

(** Where [cleanupVM] was called. *)
Inductive cont := KCreate | KAttempt (s : src) | KSend (s : src) | KAcqClosed | KAcqStart | KDelete (b : bool) | KDrain.

Inductive pc :=
(* the goroutine of attemptCreateVM, which runs createVM *)
| CNew | CTrack (i : nat) | CClone (i : nat) | CStage (i : nat) | CStart (i : nat) | CSuspendFlag (i : nat)
| CSuspend (i : nat) | CDiscard (i : nat) | CDone (r : option nat) | CJoined
(* cleanupVM: before the claim, and cleaning up *)
| Clean (i : nat) (k : cont) | Cleaning (i : nat) (k : cont)
(* createVMWithRetry and attemptCreateVM *)
| TBegin (s : src) | TWait (s : src) (c : nat) | TRetry (s : src) | TSend (s : src) (i : nat) | TEnd (ok : bool)
(* Start and fill *)
| StartCheck | StartInit | StartFill | StartEnd (ok : bool)
| FSpawn (n : nat) (cs : list nat) (bad : bool) | FWait (cs : list nat) (bad : bool) | FEnd
(* Acquire *)
| AIsClosed | ASelect | AClosed (i : nat) | ALock (i : nat) | AIsStopped (i : nat) | AStart (i : nat)
| ARunning (i : nat) | AReturn (i : nat) | AReplenish | AEnd (r : option nat)
(* StopAndRelease and Delete *)
| SStop (i : nat) | SFlag (i : nat) | SReplenish (i : nat) | SEnd
| DRead (i : nat) | DReplenish (b : bool) | DEnd
(* Close, and the goroutines of its sweep *)
| XLock | XSetClosed | XCancel | XDone | XWait | XDrain | XSweep | XJoin | XEnd
| WClaim (i : nat) | WCleaning (i : nat) | WTrack (i : nat) | WEnd.

(** ** State *)

Record pool := MkPool {
  ready : list nat;               (** the channel, oldest first *)
  live : gset nat;
  closed : bool;
  started : bool;                 (** replenishCancel is not nil *)
  cancelled : bool;               (** replenishCtx is done *)
  done : bool;                    (** the channel done is closed *)
  opMutex : bool;                 (** held *)
  insts : nat;                    (** instances the provider has returned *)
  stopped : nat -> bool;
  acquired : nat -> bool;
  threads : list pc;
  events : list EventKind;        (** notified, oldest first *)
  start_called : bool;
  idle : list nat;                (** held by a caller, with no call in progress *)
  cleaned : list nat;             (** CleanupVM has returned nil *)
  failed : list nat;              (** CleanupVM has returned an error, the claim was not returned *)
  retracked : list nat;           (** Close has returned the claim *)
  lost : nat;                     (** slots given up *)
  phase : nat;                    (** of Close: 1 once it has swept, 2 once it has returned *)
}.

Definition New : pool :=
  MkPool [] ∅ false false false false false 0 (fun _ => false) (fun _ => false) [] [] false [] [] [] [] 0 0.

Definition set_ready (x : list nat) (p : pool) : pool :=
  MkPool x (live p) (closed p) (started p) (cancelled p) (done p) (opMutex p) (insts p) (stopped p) (acquired p)
    (threads p) (events p) (start_called p) (idle p) (cleaned p) (failed p) (retracked p) (lost p) (phase p).
Definition set_live (x : gset nat) (p : pool) : pool :=
  MkPool (ready p) x (closed p) (started p) (cancelled p) (done p) (opMutex p) (insts p) (stopped p) (acquired p)
    (threads p) (events p) (start_called p) (idle p) (cleaned p) (failed p) (retracked p) (lost p) (phase p).
Definition set_closed (p : pool) : pool :=
  MkPool (ready p) (live p) true (started p) (cancelled p) (done p) (opMutex p) (insts p) (stopped p) (acquired p)
    (threads p) (events p) (start_called p) (idle p) (cleaned p) (failed p) (retracked p) (lost p) (phase p).
Definition set_started (p : pool) : pool :=
  MkPool (ready p) (live p) (closed p) true (cancelled p) (done p) (opMutex p) (insts p) (stopped p) (acquired p)
    (threads p) (events p) (start_called p) (idle p) (cleaned p) (failed p) (retracked p) (lost p) (phase p).
Definition set_cancelled (p : pool) : pool :=
  MkPool (ready p) (live p) (closed p) (started p) true (done p) (opMutex p) (insts p) (stopped p) (acquired p)
    (threads p) (events p) (start_called p) (idle p) (cleaned p) (failed p) (retracked p) (lost p) (phase p).
Definition set_done (p : pool) : pool :=
  MkPool (ready p) (live p) (closed p) (started p) (cancelled p) true (opMutex p) (insts p) (stopped p) (acquired p)
    (threads p) (events p) (start_called p) (idle p) (cleaned p) (failed p) (retracked p) (lost p) (phase p).
Definition set_mutex (x : bool) (p : pool) : pool :=
  MkPool (ready p) (live p) (closed p) (started p) (cancelled p) (done p) x (insts p) (stopped p) (acquired p)
    (threads p) (events p) (start_called p) (idle p) (cleaned p) (failed p) (retracked p) (lost p) (phase p).
Definition set_insts (x : nat) (p : pool) : pool :=
  MkPool (ready p) (live p) (closed p) (started p) (cancelled p) (done p) (opMutex p) x (stopped p) (acquired p)
    (threads p) (events p) (start_called p) (idle p) (cleaned p) (failed p) (retracked p) (lost p) (phase p).
Definition setStopped (i : nat) (x : bool) (p : pool) : pool :=
  MkPool (ready p) (live p) (closed p) (started p) (cancelled p) (done p) (opMutex p) (insts p) (<[i:=x]> (stopped p)) (acquired p)
    (threads p) (events p) (start_called p) (idle p) (cleaned p) (failed p) (retracked p) (lost p) (phase p).
Definition set_acquired (i : nat) (p : pool) : pool :=
  MkPool (ready p) (live p) (closed p) (started p) (cancelled p) (done p) (opMutex p) (insts p) (stopped p) (<[i:=true]> (acquired p))
    (threads p) (events p) (start_called p) (idle p) (cleaned p) (failed p) (retracked p) (lost p) (phase p).
Definition set_threads (x : list pc) (p : pool) : pool :=
  MkPool (ready p) (live p) (closed p) (started p) (cancelled p) (done p) (opMutex p) (insts p) (stopped p) (acquired p)
    x (events p) (start_called p) (idle p) (cleaned p) (failed p) (retracked p) (lost p) (phase p).
Definition notify (k : EventKind) (p : pool) : pool :=
  MkPool (ready p) (live p) (closed p) (started p) (cancelled p) (done p) (opMutex p) (insts p) (stopped p) (acquired p)
    (threads p) (events p ++ [k]) (start_called p) (idle p) (cleaned p) (failed p) (retracked p) (lost p) (phase p).
Definition set_start_called (p : pool) : pool :=
  MkPool (ready p) (live p) (closed p) (started p) (cancelled p) (done p) (opMutex p) (insts p) (stopped p) (acquired p)
    (threads p) (events p) true (idle p) (cleaned p) (failed p) (retracked p) (lost p) (phase p).
Definition set_idle (x : list nat) (p : pool) : pool :=
  MkPool (ready p) (live p) (closed p) (started p) (cancelled p) (done p) (opMutex p) (insts p) (stopped p) (acquired p)
    (threads p) (events p) (start_called p) x (cleaned p) (failed p) (retracked p) (lost p) (phase p).
Definition record_cleanup (i : nat) (ok : bool) (p : pool) : pool :=
  MkPool (ready p) (live p) (closed p) (started p) (cancelled p) (done p) (opMutex p) (insts p) (stopped p) (acquired p)
    (threads p) (events p) (start_called p) (idle p) (if ok then i :: cleaned p else cleaned p)
    (if ok then failed p else i :: failed p) (retracked p) (lost p) (phase p).
Definition record_retracked (i : nat) (p : pool) : pool :=
  MkPool (ready p) (live p) (closed p) (started p) (cancelled p) (done p) (opMutex p) (insts p) (stopped p) (acquired p)
    (threads p) (events p) (start_called p) (idle p) (cleaned p) (failed p) (i :: retracked p) (lost p) (phase p).
Definition lose (n : nat) (p : pool) : pool :=
  MkPool (ready p) (live p) (closed p) (started p) (cancelled p) (done p) (opMutex p) (insts p) (stopped p) (acquired p)
    (threads p) (events p) (start_called p) (idle p) (cleaned p) (failed p) (retracked p) (n + lost p) (phase p).
Definition set_phase (x : nat) (p : pool) : pool :=
  MkPool (ready p) (live p) (closed p) (started p) (cancelled p) (done p) (opMutex p) (insts p) (stopped p) (acquired p)
    (threads p) (events p) (start_called p) (idle p) (cleaned p) (failed p) (retracked p) (lost p) x.

(** [track], and what a [claim] that wins does to the live set. *)
Definition track (i : nat) (p : pool) : pool := set_live ({[i]} ∪ live p) p.
Definition claim (i : nat) (p : pool) : pool := set_live (live p ∖ {[i]}) p.

(** Moving a thread to its next program counter, and starting a goroutine. *)
Definition goto (t : nat) (q : pc) (p : pool) : pool := set_threads (<[t:=q]> (threads p)) p.
Definition spawn (q : pc) (p : pool) : pool := set_threads (threads p ++ [q]) p.

(** ** Steps *)

(** How a step goes: the operation succeeds, it fails, the context is done, the
    timer has fired. *)
Inductive choice := Okay | Err | CtxDone | Timer.

Definition is_live (i : nat) (p : pool) : bool := bool_decide (i ∈ live p).

(** [requestReplenish], which holds [mu] throughout.  On a closed pool the slot is
    given up. *)
Definition requestReplenish (p : pool) : pool :=
  if closed p then lose 1 p
  else spawn (TBegin Replenisher) (notify EventReplenishStarted p).

(** The goroutines of the wait group. *)
Definition src_wg (s : src) : bool := match s with Replenisher => true | _ => false end.
Definition in_wg (q : pc) : bool :=
  match q with
  | CNew | CTrack _ | CClone _ | CStage _ | CStart _ | CSuspendFlag _ | CSuspend _ | CDiscard _
  | Clean _ KCreate | Cleaning _ KCreate | FSpawn _ _ _ | FWait _ _ => true
  | TBegin s | TWait s _ | TRetry s | TSend s _
  | Clean _ (KAttempt s) | Clean _ (KSend s) | Cleaning _ (KAttempt s) | Cleaning _ (KSend s) => src_wg s
  | _ => false
  end.

(** The slots a caller of [createVMWithRetry] will fill: [fill] goes on to start
    the other creations. *)
Definition src_slots (o : options) (s : src) : nat :=
  match s with Foreground => Z.to_nat (size o) | _ => 1 end.

Section steps.
Context (suspendable : nat -> bool) (o : options).

(** [createVMWithRetry] has returned. *)
Definition finish (t : nat) (s : src) (ok : bool) (p : pool) : pool :=
  match s with
  | Foreground => goto t (if ok then StartFill else StartEnd false) p
  | Filler => goto t (TEnd ok) p
  | Replenisher => goto t (TEnd ok) (notify (if ok then EventReplenished else EventReplenishFailed) p)
  end.

(** What follows a call of [cleanupVM]. *)
Definition resume (t : nat) (k : cont) (p : pool) : pool :=
  match k with
  | KCreate => goto t (CDone None) (notify EventVMCreateFailed p)
  | KAttempt s | KSend s => goto t (TRetry s) p
  | KAcqClosed => goto t (AEnd None) (notify EventAttemptToUseClosedPool p)
  | KAcqStart => goto t AReplenish p
  | KDelete b => goto t (DReplenish b) p
  | KDrain => goto t XDrain p
  end.

(** The goroutine of [attemptCreateVM]: [createVMAndNotify], [createVM] and
    [discardIfClosed]. *)
Definition step_create (t : nat) (q : pc) (c : choice) (p : pool) : option pool :=
  match q, c with
  | CNew, Okay => Some (goto t (CTrack (insts p)) (set_insts (S (insts p)) (notify EventVMCreateStarted p)))
  | CNew, Err => Some (goto t (CDone None) (notify EventVMCreateFailed (notify EventVMCreateStarted p)))
  | CTrack i, _ => Some (goto t (CClone i) (track i p))
  | CClone i, Okay =>
      Some (goto t (if (stagingBehaviour o =? StagingBehaviourStopped)%Z
                       || negb (suspendable i) && (stagingBehaviour o =? StagingBehaviourSuspended)%Z
                    then CStage i else CStart i) p)
  | CClone i, Err => Some (goto t (Clean i KCreate) p)
  | CStage i, _ => Some (goto t (CDiscard i) (setStopped i true p))
  | CStart i, Okay =>
      Some (goto t (if (stagingBehaviour o =? StagingBehaviourRunning)%Z || negb (suspendable i)
                    then CDiscard i else CSuspendFlag i) p)
  | CStart i, Err => Some (goto t (Clean i KCreate) p)
  | CSuspendFlag i, _ => Some (goto t (CSuspend i) (setStopped i true p))
  | CSuspend i, Okay => Some (goto t (CDiscard i) p)
  | CSuspend i, Err => Some (goto t (Clean i KCreate) p)
  | CDiscard i, _ =>
      Some (if closed p then goto t (Clean i KCreate) p
            else goto t (CDone (Some i)) (notify EventVMCreated p))
  | _, _ => None
  end.

(** [cleanupVM]: the claim, then [vms.CleanupVM]. *)
Definition step_cleanup (t : nat) (q : pc) (c : choice) (p : pool) : option pool :=
  match q, c with
  | Clean i k, _ =>
      Some (if is_live i p then goto t (Cleaning i k) (claim i p) else resume t k p)
  | Cleaning i k, Okay => Some (resume t k (record_cleanup i true p))
  | Cleaning i k, Err => Some (resume t k (record_cleanup i false p))
  | _, _ => None
  end.

(** The context of a creation is done: the caller's for [Start], which may be
    cancelled at any time, and otherwise the one [Close] cancels. *)
Definition ctx_may (s : src) (p : pool) : bool := match s with Foreground => true | _ => cancelled p end.

Definition spawn_attempt (t : nat) (s : src) (p : pool) : pool :=
  spawn CNew (goto t (TWait s (length (threads p))) p).

(** [createVMWithRetry] over [attemptCreateVM]. *)
Definition step_task (t : nat) (q : pc) (c : choice) (p : pool) : option pool :=
  match q, c with
  | TBegin s, _ => Some (spawn_attempt t s p)
  | TWait s a, Okay =>
      match threads p !! a with
      | Some (CDone (Some i)) => Some (goto t (TSend s i) (goto a CJoined p))
      | Some (CDone None) => Some (goto t (TRetry s) (goto a CJoined p))
      | _ => None
      end
  | TWait s a, (CtxDone | Timer) =>
      if match c with CtxDone => ctx_may s p | _ => true end then
        match threads p !! a with
        | Some (CDone (Some i)) => Some (goto t (Clean i (KAttempt s)) (goto a CJoined p))
        | Some (CDone None) => Some (goto t (TRetry s) (goto a CJoined p))
        | _ => Some (goto t (TRetry s) p)
        end
      else None
  | TRetry s, Okay => Some (spawn_attempt t s p)
  | TRetry s, Err => Some (finish t s false (lose (src_slots o s) p))
  | TSend s i, Okay =>
      if (length (ready p) <? Z.to_nat (size o))%nat then Some (finish t s true (set_ready (ready p ++ [i]) p)) else None
  | TSend s i, CtxDone => if ctx_may s p then Some (goto t (Clean i (KSend s)) p) else None
  | _, _ => None
  end.

Definition ended (p : pool) (a : nat) : bool := match threads p !! a with Some (TEnd _) => true | _ => false end.
Definition ended_ok (p : pool) (a : nat) : bool := match threads p !! a with Some (TEnd ok) => ok | _ => false end.

(** [Start] and [fill]. *)
Definition step_start (t : nat) (q : pc) (c : choice) (p : pool) : option pool :=
  match q with
  | StartCheck => Some (if started p then goto t (StartEnd false) (lose (Z.to_nat (size o)) p) else goto t StartInit p)
  | StartInit => Some (goto t (TBegin Foreground) (set_started p))
  | StartFill => Some (spawn (FSpawn (Z.to_nat (size o) - 1) [] false) (goto t (StartEnd true) p))
  | FSpawn (S n) cs bad =>
      Some (if cancelled p then goto t (FSpawn n cs true) (lose 1 p)
            else spawn (TBegin Filler) (goto t (FSpawn n (cs ++ [length (threads p)]) bad) p))
  | FSpawn O cs bad => Some (goto t (FWait cs bad) p)
  | FWait cs bad =>
      if forallb (ended p) cs
      then Some (goto t FEnd (if negb bad && forallb (ended_ok p) cs then notify EventStartPoolFull p else p)) else None
  | _ => None
  end.

(** [Acquire]. *)
Definition step_acquire (t : nat) (q : pc) (c : choice) (p : pool) : option pool :=
  match q, c with
  | AIsClosed, _ =>
      Some (if closed p then goto t (AEnd None) (notify EventAttemptToUseClosedPool p)
            else goto t ASelect (notify EventAcquireWaiting p))
  | ASelect, CtxDone => Some (goto t (AEnd None) (notify EventAcquireFailed p))
  | ASelect, Err => if done p then Some (goto t (AEnd None) (notify EventAttemptToUseClosedPool p)) else None
  | ASelect, Okay => match ready p with i :: r => Some (goto t (AClosed i) (set_ready r p)) | [] => None end
  | AClosed i, _ =>
      Some (if closed p then goto t (Clean i KAcqClosed) (lose 1 p) else goto t (ALock i) (notify EventVMDequeued p))
  | ALock i, _ => if opMutex p then None else Some (goto t (AIsStopped i) (set_mutex true p))
  | AIsStopped i, _ => Some (goto t (if stopped p i then AStart i else AReturn i) p)
  | AStart i, Okay => Some (goto t (ARunning i) p)
  | AStart i, Err => Some (goto t (Clean i KAcqStart) p)
  | AReplenish, _ => Some (set_mutex false (notify EventAcquireFailed (goto t (AEnd None) (requestReplenish p))))
  | ARunning i, _ => Some (goto t (AReturn i) (setStopped i false p))
  | AReturn i, _ =>
      Some (set_mutex false (set_idle (i :: idle p) (notify EventAcquired (goto t (AEnd (Some i)) (set_acquired i p)))))
  | _, _ => None
  end.

(** [StopAndRelease] and [Delete]. *)
Definition step_vm (t : nat) (q : pc) (c : choice) (p : pool) : option pool :=
  match q, c with
  | SStop i, Okay => Some (goto t (SFlag i) p)
  | SStop i, Err => Some (set_idle (i :: idle p) (goto t SEnd p))
  | SFlag i, _ =>
      Some (if stopped p i then set_idle (i :: idle p) (goto t SEnd p)
            else goto t (SReplenish i) (setStopped i true p))
  | SReplenish i, _ => Some (set_idle (i :: idle p) (goto t SEnd (requestReplenish p)))
  | DRead i, _ => Some (goto t (Clean i (KDelete (negb (stopped p i)))) p)
  | DReplenish b, _ => Some (notify EventReleased (goto t DEnd (if b then requestReplenish p else p)))
  | _, _ => None
  end.

(** The loop of the sweep over [tracked]: each instance is retained or given a
    goroutine. *)
Fixpoint sweep (l : list nat) (p : pool) : pool :=
  match l with
  | [] => p
  | i :: l =>
      if acquired p i && negb (deleteAcquiredOnClose o) then sweep l (notify EventAcquiredVMRetained p)
      else sweep l (spawn (WClaim i) p)
  end.

(** The goroutines of the sweep's [errgroup], which only the [Close] that closed
    the pool starts. *)
Definition in_sweep (q : pc) : bool :=
  match q with WClaim _ | WCleaning _ | WTrack _ => true | _ => false end.

(** [Close].  It holds [opMutex] from its first step to its last. *)
Definition step_close (t : nat) (q : pc) (c : choice) (p : pool) : option pool :=
  match q, c with
  | XLock, _ => if opMutex p then None else Some (goto t XSetClosed (set_mutex true p))
  | XSetClosed, _ => Some (if closed p then set_mutex false (goto t XEnd p) else goto t XCancel (set_closed p))
  | XCancel, _ => Some (goto t XDone (if started p then set_cancelled p else p))
  | XDone, _ => Some (goto t XWait (set_done p))
  | XWait, CtxDone => Some (goto t XDrain p)
  | XWait, _ => if existsb in_wg (threads p) then None else Some (goto t XDrain p)
  | XDrain, _ =>
      Some (match ready p with
            | i :: r => goto t (Clean i KDrain) (lose 1 (set_ready r p))
            | [] => goto t XSweep p
            end)
  | XSweep, _ => Some (set_phase 1 (goto t XJoin (sweep (elements (live p)) p)))
  | XJoin, _ => if existsb in_sweep (threads p) then None else Some (set_phase 2 (set_mutex false (goto t XEnd p)))
  | WClaim i, _ =>
      Some (if is_live i p then goto t (WCleaning i) (claim i p) else goto t WEnd p)
  | WCleaning i, Okay => Some (goto t WEnd (notify EventOrphanedVMDeleted (record_cleanup i true p)))
  | WCleaning i, Err => Some (goto t (WTrack i) p)
  | WTrack i, _ => Some (goto t WEnd (record_retracked i (track i p)))
  | _, _ => None
  end.

(** A step of a thread. *)
Definition step (t : nat) (c : choice) (p : pool) : option pool :=
  match threads p !! t with
  | None => None
  | Some q =>
      match q with
      | CNew | CTrack _ | CClone _ | CStage _ | CStart _ | CSuspendFlag _ | CSuspend _ | CDiscard _ | CDone _ | CJoined =>
          step_create t q c p
      | Clean _ _ | Cleaning _ _ => step_cleanup t q c p
      | TBegin _ | TWait _ _ | TRetry _ | TSend _ _ | TEnd _ => step_task t q c p
      | StartCheck | StartInit | StartFill | StartEnd _ | FSpawn _ _ _ | FWait _ _ | FEnd => step_start t q c p
      | AIsClosed | ASelect | AClosed _ | ALock _ | AIsStopped _ | AStart _ | ARunning _ | AReturn _ | AReplenish | AEnd _ =>
          step_acquire t q c p
      | SStop _ | SFlag _ | SReplenish _ | SEnd | DRead _ | DReplenish _ | DEnd => step_vm t q c p
      | XLock | XSetClosed | XCancel | XDone | XWait | XDrain | XSweep | XJoin | XEnd
      | WClaim _ | WCleaning _ | WTrack _ | WEnd => step_close t q c p
      end
  end.

(** What happens to the pool: a call, in a goroutine of its own, or a step. *)
Inductive event := CallStart | CallAcquire | CallStop (i : nat) | CallDelete (i : nat) | CallClose | Step (t : nat) (c : choice).

(** A handle exists once its instance has been acquired. *)
Definition exec (e : event) (p : pool) : option pool :=
  match e with
  | CallStart => Some (set_start_called (spawn StartCheck p))
  | CallAcquire => Some (spawn AIsClosed p)
  | CallStop i =>
      if acquired p i then Some (spawn (SStop i) (set_idle (filter (fun j => j <> i) (idle p)) p)) else None
  | CallDelete i =>
      if acquired p i
      then Some (notify EventRelease (spawn (DRead i) (set_idle (filter (fun j => j <> i) (idle p)) p))) else None
  | CallClose => Some (spawn XLock p)
  | Step t c => step t c p
  end.

Fixpoint run (es : list event) (p : pool) : option pool :=
  match es with [] => Some p | e :: es => p' ← exec e p; run es p' end.

(** What the comments ask of the callers: [Start] once, and on a handle one call
    at a time, none after [Delete]. *)
Definition disciplined (p : pool) (e : event) : bool :=
  match e with
  | CallStart => negb (start_called p)
  | CallStop i | CallDelete i => bool_decide (i ∈ idle p)
  | _ => true
  end.

(** The states reached, by any callers and by disciplined ones. *)
Inductive reach : pool -> Prop :=
| reach_new : reach New
| reach_exec p e p' : reach p -> exec e p = Some p' -> reach p'.

Inductive reach_disciplined : pool -> Prop :=
| rd_new : reach_disciplined New
| rd_exec p e p' : reach_disciplined p -> disciplined p e = true -> exec e p = Some p' -> reach_disciplined p'.
End steps.

(** ** Counting *)

(** The sum of a measure over the threads. *)
Definition total (f : pc -> nat) (p : pool) : nat := sum_list_with f (threads p).

Definition one (i j : nat) : nat := if decide (i = j) then 1 else 0.
Definition count (i : nat) (l : list nat) : nat := sum_list_with (one i) l.
Definition bit (b : bool) : nat := if b then 1 else 0.

Lemma bit_le b : bit b <= 1.
Proof. destruct b; cbn; lia. Qed.

Lemma bit_decide (P : Prop) `{Decision P} : P <-> bit (bool_decide P) = 1.
Proof.
  split.
  - intros HP. by rewrite bool_decide_eq_true_2.
  - intros E. destruct (bool_decide P) eqn:Eb; [by apply bool_decide_eq_true in Eb|done].
Qed.

Lemma one_eq i : one i i = 1.
Proof. unfold one. by rewrite decide_True. Qed.

Lemma one_ne i j : i <> j -> one i j = 0.
Proof. intros. unfold one. by rewrite decide_False. Qed.

Lemma sum_zero {A} (f : A -> nat) l : (forall x, x ∈ l -> f x = 0) -> sum_list_with f l = 0.
Proof.
  induction l as [|x l IH]; intros H; [done|]. cbn. rewrite H, IH; [done| |set_solver]. intros. apply H. set_solver.
Qed.

Lemma sum_positive {A} (f : A -> nat) l : 0 < sum_list_with f l -> exists x, x ∈ l /\ 0 < f x.
Proof.
  induction l as [|x l IH]; cbn; intros H; [lia|]. destruct (decide (0 < f x)); [exists x; set_solver|].
  destruct IH as (y & Hy & Hf); [lia|]. exists y. set_solver.
Qed.

Lemma count_cons i j l : count i (j :: l) = one i j + count i l.
Proof. done. Qed.

Lemma count_nil i : count i [] = 0.
Proof. done. Qed.

Lemma count_app i l k : count i (l ++ k) = count i l + count i k.
Proof. apply sum_list_with_app. Qed.

Lemma count_notin i l : i ∉ l -> count i l = 0.
Proof. intros H. apply sum_zero. intros x Hx. apply one_ne. by intros ->. Qed.

Lemma count_in i l : i ∈ l <-> 1 <= count i l.
Proof.
  split.
  - unfold count. induction 1 as [|? ? ? H IH]; cbn [sum_list_with]; [rewrite one_eq; lia|lia].
  - intros H. destruct (decide (i ∈ l)) as [|Hn]; [done|]. apply count_notin in Hn. lia.
Qed.

Lemma sum_filter_ne (f : nat -> nat) i l :
  sum_list_with f (filter (fun j => j <> i) l) + count i l * f i = sum_list_with f l.
Proof.
  induction l as [|x l IH]; [done|]. rewrite filter_cons. cbn [sum_list_with count]. unfold count in *. cbn [sum_list_with].
  destruct (decide (x <> i)) as [H|H]; cbn [sum_list_with].
  - rewrite one_ne by done. lia.
  - assert (x = i) as -> by (destruct (decide (x = i)); tauto). rewrite one_eq. lia.
Qed.

(** The fields of a state built by the setters. *)
Ltac fields :=
  cbn [ready live closed started cancelled done opMutex insts stopped acquired threads events start_called idle cleaned
       failed retracked lost phase set_ready set_live set_closed set_started set_cancelled set_done set_mutex set_insts
       track claim setStopped set_acquired set_threads notify set_start_called set_idle record_cleanup record_retracked lose set_phase
       goto spawn spawn_attempt resume finish] in *.

(** The cases of one step: the thread and its choice, then the tests. *)
Ltac step_cases H :=
  unfold exec, step in H;
  repeat (case_match; try discriminate H);
  unfold step_create, step_cleanup, step_task, step_start, step_acquire, step_vm, step_close, requestReplenish in H;
  repeat (case_match; try discriminate H);
  try (injection H as <-); simplify_eq.

(** The sums over an updated list of threads, as equations. *)
Ltac sums :=
  unfold total in *; fields;
  repeat match goal with
  | |- context [sum_list_with ?f (?l ++ _)] => rewrite !sum_list_with_app
  end.

(** ** Every instance is in one place

    Alive and unclaimed, claimed by exactly one thread, or cleaned up. *)
Definition holding (i : nat) (q : pc) : nat :=
  match q with
  | CTrack j | Cleaning j _ | WCleaning j | WTrack j => one i j
  | _ => 0
  end.

Definition places (i : nat) (p : pool) : nat :=
  bit (is_live i p) + total (holding i) p + count i (cleaned p) + count i (failed p).

Lemma sweep_spec o l : forall p, exists k es,
  sweep o l p = MkPool (ready p) (live p) (closed p) (started p) (cancelled p) (done p) (opMutex p) (insts p) (stopped p)
    (acquired p) (threads p ++ map WClaim k) es (start_called p) (idle p) (cleaned p) (failed p) (retracked p) (lost p)
    (phase p) /\
  forall i, i ∈ l -> i ∈ k \/ acquired p i = true /\ deleteAcquiredOnClose o = false.
Proof.
  induction l as [|i l IH]; intros p; cbn [sweep].
  - exists [], (events p). rewrite app_nil_r. split; [by destruct p|]. intros i Hi. by apply not_elem_of_nil in Hi.
  - destruct (acquired p i && negb (deleteAcquiredOnClose o)) eqn:E.
    + destruct (IH (notify EventAcquiredVMRetained p)) as (k & es & -> & Hk). exists k, es. split; [done|].
      intros j [->|Hj]%elem_of_cons; [|by apply Hk]. right. bool_to_prop. done.
    + destruct (IH (spawn (WClaim i) p)) as (k & es & -> & Hk). exists (i :: k), es. fields. split.
      * by rewrite <- app_assoc.
      * intros j [->|Hj]%elem_of_cons; [left; set_solver|]. destruct (Hk j Hj); [left; set_solver|by right].
Qed.

Lemma sum_WClaim f k : (forall i, f (WClaim i) = 0) -> sum_list_with f (map WClaim k) = 0.
Proof. intros H. apply sum_zero. intros x (i & -> & _)%list_elem_of_fmap. apply H. Qed.

Lemma live_add i j p : i ∉ live p -> bit (bool_decide (j ∈ {[i]} ∪ live p)) = one j i + bit (is_live j p).
Proof.
  intros H. unfold is_live, one. destruct (decide (j = i)) as [->|Hn].
  - rewrite bool_decide_eq_true_2, bool_decide_eq_false_2 by set_solver. done.
  - rewrite (bool_decide_ext (j ∈ {[i]} ∪ live p) (j ∈ live p)) by set_solver. done.
Qed.

Lemma live_del i j p : is_live i p = true ->
  bit (bool_decide (j ∈ live p ∖ {[i]})) + one j i = bit (is_live j p).
Proof.
  intros H%bool_decide_eq_true. unfold is_live, one. destruct (decide (j = i)) as [->|Hn].
  - rewrite bool_decide_eq_false_2, bool_decide_eq_true_2 by set_solver. done.
  - rewrite (bool_decide_ext (j ∈ live p ∖ {[i]}) (j ∈ live p)) by set_solver. cbn. lia.
Qed.

Lemma not_live i p : bit (is_live i p) = 0 -> i ∉ live p.
Proof. unfold is_live. destruct (bool_decide (i ∈ live p)) eqn:E; [done|]. by apply bool_decide_eq_false in E. Qed.

(** A measure of the threads after some of them have moved and goroutines have
    started: an equation for each move. *)
Ltac thread_sums f :=
  unfold total in *; fields;
  repeat match goal with
  | H : ready ?p = _ |- context [ready ?p] => rewrite H
  | H : closed ?p = _ |- context [closed ?p] => rewrite H
  end;
  repeat match goal with
  | H : ?l !! ?t = Some ?q |- context [<[?t:=?r]> (?l ++ ?k)] =>
      rewrite (insert_app_l l k t r) by (by eapply lookup_lt_Some)
  | H : ?l !! ?t = Some ?q, H' : ?l !! ?a = Some _ |- context [<[?t:=?r]> (<[?a:=?r']> ?l)] =>
      lazymatch goal with
      | _ : <[a:=r']> l !! t = Some q |- _ => fail
      | _ => assert (<[a:=r']> l !! t = Some q) by (rewrite list_lookup_insert_ne; [done|intros ->; congruence])
      end
  end;
  rewrite ?sum_list_with_app;
  repeat match goal with
  | H : ?l !! ?t = Some ?q |- context [sum_list_with f (<[?t:=?r]> ?l)] =>
      let s := fresh "s" in let E := fresh "E" in
      pose proof (sum_insert f l t q r H) as E;
      set (s := sum_list_with f (<[t:=r]> l)) in *; clearbody s
  | H : ?l !! ?t = Some ?q, _ : context [sum_list_with f (<[?t:=?r]> ?l)] |- _ =>
      let s := fresh "s" in let E := fresh "E" in
      pose proof (sum_insert f l t q r H) as E;
      set (s := sum_list_with f (<[t:=r]> l)) in *; clearbody s
  end; rewrite ?count_app, ?count_cons, ?count_nil in *; cbn [sum_list_with] in *.

(** Every way [cleanupVM] and [createVMWithRetry] continue. *)
Ltac continuations :=
  repeat match goal with
  | |- context [resume _ ?k _] => is_var k; destruct k
  | |- context [finish _ ?s _ _] => is_var s; destruct s
  end.

Lemma held_not_live p i t q : places i p = bit (bool_decide (i < insts p)) -> threads p !! t = Some q ->
  holding i q = 1 -> i ∉ live p.
Proof.
  intros Hp Ht Hq. pose proof (sum_lookup (holding i) _ _ _ Ht). pose proof (bit_le (bool_decide (i < insts p))).
  apply not_live. unfold places, total in Hp. lia.
Qed.

Lemma places_step suspendable o p e p' : (forall i, places i p = bit (bool_decide (i < insts p))) ->
  exec suspendable o e p = Some p' -> forall i, places i p' = bit (bool_decide (i < insts p')).
Proof.
  intros Hp He i. pose proof (Hp i) as Hi. unfold places in *. step_cases He.
  all: continuations; try (thread_sums (holding i); unfold is_live in *; fields; cbn [holding] in *; lia).
  - (* a new instance *)
    thread_sums (holding i). unfold is_live in *. fields. cbn [holding] in *. unfold one in *. revert Hi.
    destruct (decide (i = insts p)) as [->|Hne].
    + rewrite (bool_decide_eq_false_2 (insts p < insts p)), (bool_decide_eq_true_2 (insts p < S (insts p))) by lia. cbn. lia.
    + rewrite (bool_decide_ext (i < S (insts p)) (i < insts p)) by lia. lia.
  - (* track *)
    assert (i0 ∉ live p) as Hn by (eapply held_not_live; [apply Hp|done|apply one_eq]).
    thread_sums (holding i). unfold is_live in *. fields. rewrite live_add by done. unfold is_live. cbn [holding] in *. lia.
  - (* claim *)
    match goal with H : is_live _ _ = true |- _ => pose proof (live_del i0 i p H) end. thread_sums (holding i). unfold is_live in *. fields. cbn [holding] in *. lia.
  - (* sweep *)
    destruct (sweep_spec o (elements (live p)) p) as (k & es & -> & _).
    thread_sums (holding i). rewrite sum_WClaim by done. unfold is_live in *. fields. cbn [holding] in *. lia.
  - match goal with H : is_live _ _ = true |- _ => pose proof (live_del i0 i p H) end. thread_sums (holding i). unfold is_live in *. fields. cbn [holding] in *. lia.
  - assert (i0 ∉ live p) as Hn by (eapply held_not_live; [apply Hp|done|apply one_eq]).
    thread_sums (holding i). unfold is_live in *. fields. rewrite live_add by done. unfold is_live. cbn [holding] in *. lia.
Qed.

(** ** Slots

    A slot is a VM in the channel, one being created or replaced, one on its way
    to a caller, or one a caller holds running. *)
Definition held (stp : nat -> bool) (i : nat) : nat := if stp i then 0 else 1.

Definition slot (n : nat) (stp : nat -> bool) (q : pc) : nat :=
  let of_src s := match s with Foreground => n | _ => 1 end in
  match q with
  | Clean _ k | Cleaning _ k =>
      match k with KAttempt s | KSend s => of_src s | KAcqStart => 1 | KDelete b => bit b | _ => 0 end
  | TBegin s | TWait s _ | TRetry s | TSend s _ => of_src s
  | StartCheck | StartInit => n
  | StartFill => n - 1
  | FSpawn m _ _ => m
  | AClosed _ | ALock _ | AIsStopped _ | AStart _ | ARunning _ | AReplenish => 1
  | AReturn i | SStop i | SFlag i | DRead i => held stp i
  | SReplenish i => 1 + held stp i
  | DReplenish b => bit b
  | _ => 0
  end.

Definition pool_size (o : options) : nat := Z.to_nat (size o).

Definition slots (o : options) (p : pool) : nat :=
  length (ready p) + total (slot (pool_size o) (stopped p)) p + sum_list_with (held (stopped p)) (idle p).

(** The slots [Start] is asked to fill. *)
Definition allotted (o : options) (p : pool) : nat := if start_called p then pool_size o else 0.

(** The one thread or list that has an instance for its own. *)
Definition own (i : nat) (q : pc) : nat :=
  match q with
  | CTrack j | CClone j | CStage j | CStart j | CSuspendFlag j | CSuspend j | CDiscard j | CDone (Some j)
  | TSend _ j | AClosed j | ALock j | AIsStopped j | AStart j | ARunning j | AReturn j
  | SStop j | SFlag j | SReplenish j | DRead j => one i j
  | _ => 0
  end.

Definition owners (i : nat) (p : pool) : nat := count i (ready p) + count i (idle p) + total (own i) p.

Lemma count_filter_ne i j l : count j l = 1 ->
  count i (filter (fun k => k <> j) l) + one i j = count i l.
Proof. intros H. pose proof (sum_filter_ne (one i) j l) as E. rewrite H in E. unfold count in *. lia. Qed.

Lemma owners_step suspendable o p e p' :
  (forall i, owners i p <= bit (bool_decide (i < insts p))) -> disciplined p e = true ->
  exec suspendable o e p = Some p' -> forall i, owners i p' <= bit (bool_decide (i < insts p')).
Proof.
  intros Hp Hd He i. pose proof (Hp i) as Hi. unfold owners in *. step_cases He.
  all: continuations; try (thread_sums (own i); cbn [own] in *; lia).
  1,2: pose proof Hd as Hin%bool_decide_eq_true%count_in; pose proof (Hp i0) as Hi0; unfold total in *;
    pose proof (bit_le (bool_decide (i0 < insts p)));
    pose proof (count_filter_ne i i0 (idle p) ltac:(lia)); thread_sums (own i); cbn [own] in *; lia.
  - thread_sums (own i). cbn [own] in *. unfold one in *. revert Hi. destruct (decide (i = insts p)) as [->|Hne].
    + rewrite (bool_decide_eq_false_2 (insts p < insts p)), (bool_decide_eq_true_2 (insts p < S (insts p))) by lia. cbn. lia.
    + rewrite (bool_decide_ext (i < S (insts p)) (i < insts p)) by lia. lia.
  - destruct (sweep_spec o (elements (live p)) p) as (k & es & -> & _).
    thread_sums (own i). rewrite sum_WClaim by done. cbn [own] in *. lia.
Qed.

Section stopped.
Context (n : nat).

Lemma slot_stopped stp i b q : own i q = 0 -> slot n (<[i:=b]> stp) q = slot n stp q.
Proof.
  assert (forall j, one i j = 0 -> held (<[i:=b]> stp) j = held stp j) as Hj.
  { intros j Hj. unfold one in Hj. destruct (decide (i = j)); [done|]. unfold held. by rewrite fn_lookup_insert_ne. }
  destruct q; cbn [own slot]; try done; intros H; by rewrite Hj.
Qed.

(** Setting the flag of an instance that a thread owns. *)
Lemma sum_stopped stp i b l t q r : l !! t = Some q -> own i q = 1 -> sum_list_with (own i) l <= 1 ->
  sum_list_with (slot n (<[i:=b]> stp)) (<[t:=r]> l) + slot n stp q =
  sum_list_with (slot n stp) l + slot n (<[i:=b]> stp) r.
Proof.
  revert t. induction l as [|x l IH]; intros [|t] Ht Hq Hl; try discriminate; cbn [sum_list_with] in Hl.
  - injection Ht as ->. change (<[0:=r]> (q :: l)) with (r :: l). cbn [sum_list_with].
    assert (sum_list_with (slot n (<[i:=b]> stp)) l = sum_list_with (slot n stp) l); [|lia].
    assert (sum_list_with (own i) l = 0) as H0 by lia. clear -H0. induction l as [|y l IH]; [done|].
    cbn [sum_list_with] in *. rewrite slot_stopped, IH by lia. done.
  - change (<[S t:=r]> (x :: l)) with (x :: <[t:=r]> l). cbn [sum_list_with].
    pose proof (sum_lookup (own i) l t q Ht). specialize (IH t Ht Hq ltac:(lia)). rewrite slot_stopped by lia. lia.
Qed.

Lemma held_stopped stp i b l : count i l = 0 -> sum_list_with (held (<[i:=b]> stp)) l = sum_list_with (held stp) l.
Proof.
  induction l as [|x l IH]; [done|]. rewrite count_cons. intros H. cbn [sum_list_with]. rewrite IH by lia. f_equal.
  unfold held. unfold one in H. destruct (decide (i = x)); [lia|]. by rewrite fn_lookup_insert_ne.
Qed.
End stopped.

(** A step that leaves the flags alone. *)
Ltac slot_case p o :=
  thread_sums (slot (pool_size o) (stopped p));
  cbn [slot bit src_slots sum_list_with] in *; rewrite ?length_app in *; cbn [length] in *;
  unfold allotted, pool_size in *; fields.

(** A step of an owner that sets the flag of its instance. *)
Ltac stopped_case p o Hown :=
  match goal with
  | |- context [goto ?t ?r (setStopped ?i ?b p)] =>
      match goal with
      | H : threads p !! t = Some ?q |- _ =>
          let Ho := fresh in
          pose proof (Hown i) as Ho; unfold owners, total in Ho;
          pose proof (sum_lookup (own i) _ _ _ H) as Hq; cbn [own] in Hq; rewrite one_eq in Hq;
          pose proof (sum_stopped (pool_size o) (stopped p) i b _ t q r H (one_eq i) ltac:(lia));
          pose proof (held_stopped (stopped p) i b (idle p) ltac:(lia));
          unfold total in *; fields; cbn [slot] in *; unfold allotted in *; fields
      end
  end.

Lemma idle_filter p i stp : owners i p <= 1 -> bool_decide (i ∈ idle p) = true ->
  sum_list_with (held stp) (filter (fun j => j <> i) (idle p)) + held stp i = sum_list_with (held stp) (idle p).
Proof.
  intros Ho Hi%bool_decide_eq_true%count_in. pose proof (sum_filter_ne (held stp) i (idle p)).
  unfold owners in Ho. assert (count i (idle p) = 1) as E by lia. rewrite E in *. lia.
Qed.

Lemma slots_step suspendable o p e p' : 1 <= pool_size o ->
  (forall i, owners i p <= 1) -> disciplined p e = true ->
  slots o p + lost p = allotted o p -> exec suspendable o e p = Some p' -> slots o p' + lost p' = allotted o p'.
Proof.
  intros Hn Hown Hd Hp He. unfold slots in *. step_cases He.
  all: continuations; try (slot_case p o; lia).
  - (* Start *)
    unfold disciplined in Hd. apply negb_true_iff in Hd. slot_case p o. rewrite Hd in *. lia.
  - pose proof (idle_filter _ _ (stopped p) (Hown i) Hd). slot_case p o. lia.
  - pose proof (idle_filter _ _ (stopped p) (Hown i) Hd). slot_case p o. lia.
  - stopped_case p o Hown. lia.
  - stopped_case p o Hown. lia.
  - slot_case p o. unfold held in *. case_match; [done|]. lia.
  - stopped_case p o Hown. unfold held in *. rewrite fn_lookup_insert in *. lia.
  - stopped_case p o Hown. unfold held in *. rewrite fn_lookup_insert in *.
    match goal with H : stopped p i = false |- _ => rewrite H in * end. lia.
  - slot_case p o. unfold held in *. destruct (stopped p i); cbn [negb bit] in *; lia.
  - destruct (sweep_spec o (elements (live p)) p) as (k & es & -> & _).
    slot_case p o. rewrite sum_WClaim by done. lia.
Qed.

(** ** Close *)

(** The [Close] that closed the pool, before its sweep and after it. *)
Definition closing (q : pc) : nat :=
  match q with
  | XCancel | XDone | XWait | XDrain | XSweep | Clean _ KDrain | Cleaning _ KDrain => 1
  | _ => 0
  end.
Definition joining (q : pc) : nat := match q with XJoin => 1 | _ => 0 end.
Definition sweeping (q : pc) : nat := bit (in_sweep q).

(** The goroutine that is creating an instance, and that will claim it. *)
Definition creating (i : nat) (q : pc) : nat :=
  match q with
  | CClone j | CStage j | CStart j | CSuspendFlag j | CSuspend j | CDiscard j | Clean j KCreate => one i j
  | _ => 0
  end.

(** A goroutine that will try to claim it. *)
Definition pending (i : nat) (q : pc) : nat :=
  match q with WClaim j => one i j | _ => creating i q end.

Definition swept (p : pool) : nat := bit (1 <=? phase p).

Record close_ok (o : options) (p : pool) : Prop := {
  co_once : total closing p + swept p = bit (closed p);
  co_join : total joining p <= swept p;
  co_phase : phase p <= 2;
  co_sweep : phase p <> 1 -> total sweeping p = 0;
  co_live : 1 <= phase p -> forall i, i ∈ live p ->
    acquired p i = true /\ deleteAcquiredOnClose o = false \/ i ∈ retracked p \/ 1 <= total (pending i) p;
}.

Lemma close_once_step suspendable o p e p' : close_ok o p -> exec suspendable o e p = Some p' ->
  total closing p' + swept p' = bit (closed p') /\ total joining p' <= swept p' /\ phase p' <= 2.
Proof.
  intros Hp He. pose proof (co_once _ _ Hp) as H1. pose proof (co_join _ _ Hp) as H2. pose proof (co_phase _ _ Hp) as H3.
  clear Hp. unfold swept in *. step_cases He.
  all: continuations; try (split; [|split]; [thread_sums closing|thread_sums joining|fields]; cbn [closing joining bit] in *; lia).
  - match goal with H : threads p !! _ = Some _ |- _ => pose proof (sum_lookup closing _ _ _ H) as Hc end.
    cbn [closing] in Hc. pose proof (bit_le (closed p)). unfold total in *.
    destruct (sweep_spec o (elements (live p)) p) as (k & es & -> & _).
    split; [|split]; [thread_sums closing|thread_sums joining|fields; lia];
      rewrite sum_WClaim by done; cbn [closing joining Nat.leb bit] in *; lia.
  - match goal with H : threads p !! _ = Some _ |- _ => pose proof (sum_lookup joining _ _ _ H) as Hj end.
    cbn [joining] in Hj. unfold total in *. pose proof (bit_le (1 <=? phase p)).
    split; [|split]; [thread_sums closing|thread_sums joining|fields; lia];
      cbn [closing joining Nat.leb bit] in *; lia.
Qed.

Lemma no_sweep l : existsb in_sweep l = false -> sum_list_with sweeping l = 0.
Proof.
  induction l as [|q l IH]; [done|]. cbn [existsb sum_list_with]. intros [Hq Hl]%orb_false_iff.
  unfold sweeping at 1. by rewrite Hq, IH.
Qed.

Lemma close_sweep_step suspendable o p e p' : close_ok o p -> exec suspendable o e p = Some p' ->
  phase p' <> 1 -> total sweeping p' = 0.
Proof.
  intros Hp He. pose proof (co_sweep _ _ Hp) as H1. clear Hp. step_cases He.
  all: continuations; try (thread_sums sweeping; cbn [sweeping in_sweep bit] in *; lia).
  intros _. match goal with H : existsb _ _ = false |- _ => apply no_sweep in H end.
  thread_sums sweeping. cbn [sweeping in_sweep bit] in *. lia.
Qed.

Lemma is_live_false i p : is_live i p = false -> i ∈ live p -> False.
Proof. by intros ?%bool_decide_eq_false. Qed.

(** An instance that stays alive, and what becomes of the goroutine that would
    claim it. *)
Ltac pending_case Hlive Hph i Hi :=
  specialize (Hlive Hph i Hi) as [[? ?]|[?|?]]; [by left|by right; left|right; right];
  thread_sums (pending i); cbn [pending creating] in *.

Lemma close_live_step suspendable o p e p' : close_ok o p -> exec suspendable o e p = Some p' ->
  1 <= phase p' -> forall i, i ∈ live p' ->
    acquired p' i = true /\ deleteAcquiredOnClose o = false \/ i ∈ retracked p' \/ 1 <= total (pending i) p'.
Proof.
  intros Hp He Hph i. pose proof (co_live _ _ Hp) as Hlive.
  assert (1 <= phase p -> closed p = true) as Hclosed.
  { intros H. pose proof (co_once _ _ Hp) as H1. unfold swept in H1. rewrite (proj2 (Nat.leb_le 1 (phase p)) H) in H1.
    destruct (closed p); [done|cbn in H1; lia]. }
  pose proof (co_join _ _ Hp) as Hjoin. clear Hp. step_cases He.
  all: continuations; fields.
  all: try (intros Hi; pending_case Hlive Hph i Hi; lia).
  - (* tracked: being created *)
    intros [->%elem_of_singleton|Hi]%elem_of_union; [|pending_case Hlive Hph i Hi; lia].
    right; right. thread_sums (pending i0). cbn [pending creating] in *. rewrite one_eq in *. lia.
  - intros [Hi Hne]%elem_of_difference. pending_case Hlive Hph i Hi.
    assert (one i i0 = 0) by (apply one_ne; set_solver). destruct k; lia.
  - intros Hi. assert (one i i0 = 0) by (apply one_ne; intros ->; by eapply is_live_false).
    pending_case Hlive Hph i Hi. lia.
  - intros Hi. specialize (Hlive Hph i Hi) as [[Ha ?]|[?|?]]; [left|by right; left|right; right].
    + split; [|done]. destruct (decide (i0 = i)) as [->|]; [by rewrite fn_lookup_insert|by rewrite fn_lookup_insert_ne].
    + thread_sums (pending i). cbn [pending creating] in *. lia.
  - destruct (sweep_spec o (elements (live p)) p) as (k & es & -> & Hk). fields. intros Hi.
    destruct (Hk i) as [Hin|?]; [by apply elem_of_elements| |by left].
    right; right. thread_sums (pending i). cbn [pending creating] in *.
    assert (1 <= sum_list_with (pending i) (map WClaim k)); [|lia].
    clear -Hin. induction k as [|j k IH]; [by apply not_elem_of_nil in Hin|]. cbn [map sum_list_with pending].
    apply elem_of_cons in Hin as [->|Hin]; [rewrite one_eq; lia|]. specialize (IH Hin). lia.
  - intros Hi. match goal with H : threads p !! _ = Some _ |- _ => pose proof (sum_lookup joining _ _ _ H) as Hj end.
    cbn [joining] in Hj. unfold swept in Hjoin. unfold total in *.
    assert (1 <= phase p) as Hph1 by (destruct (Nat.leb_spec 1 (phase p)); [done|cbn in Hjoin; lia]).
    pending_case Hlive Hph1 i Hi. lia.
  - intros [Hi Hne]%elem_of_difference. pending_case Hlive Hph i Hi.
    assert (one i i0 = 0) by (apply one_ne; set_solver). lia.
  - intros Hi. assert (one i i0 = 0) by (apply one_ne; intros ->; by eapply is_live_false).
    pending_case Hlive Hph i Hi. lia.
  - intros [->%elem_of_singleton|Hi]%elem_of_union; [right; left; set_solver|].
    specialize (Hlive Hph i Hi) as [[? ?]|[?|?]]; [by left|right; left; set_solver|right; right].
    thread_sums (pending i). cbn [pending creating] in *. lia.
Qed.

Lemma close_ok_reach suspendable o p : reach suspendable o p -> close_ok o p.
Proof.
  induction 1 as [|p e p' Hr IH He].
  - constructor; try done; cbn; try lia.
  - destruct (close_once_step _ _ _ _ _ IH He) as (? & ? & ?). constructor; try done.
    + by eapply close_sweep_step.
    + by eapply close_live_step.
Qed.

Lemma places_reach suspendable o p : reach suspendable o p -> forall i, places i p = bit (bool_decide (i < insts p)).
Proof.
  induction 1 as [|p e p' Hr IH He].
  - intros i. cbn. unfold is_live. cbn. rewrite !bool_decide_eq_false_2 by (set_solver || lia). done.
  - by eapply places_step.
Qed.

Lemma slots_reach suspendable o p : 1 <= pool_size o -> reach_disciplined suspendable o p ->
  (forall i, owners i p <= bit (bool_decide (i < insts p))) /\ slots o p + lost p = allotted o p.
Proof.
  intros Ho. induction 1 as [|p e p' Hr [IH1 IH2] Hd He].
  - split; [intros i; cbn; lia|done].
  - split; [by eapply owners_step|]. eapply slots_step; [done| |done..].
    intros i. pose proof (IH1 i). pose proof (bit_le (bool_decide (i < insts p))). lia.
Qed.

(** ** Running a schedule *)

Lemma run_reach suspendable o es : forall p p', reach suspendable o p -> run suspendable o es p = Some p' ->
  reach suspendable o p'.
Proof.
  induction es as [|e es IH]; intros p p' Hr H; cbn [run] in H; [by injection H as <-|].
  destruct (exec suspendable o e p) as [p1|] eqn:E; [|done]. eapply IH; [|exact H]. by eapply reach_exec.
Qed.

(** The schedule's calls are disciplined. *)
Fixpoint run_disciplined (suspendable : nat -> bool) (o : options) (es : list event) (p : pool) : bool :=
  match es with
  | [] => true
  | e :: es =>
      disciplined p e &&
      match exec suspendable o e p with Some p' => run_disciplined suspendable o es p' | None => false end
  end.

Lemma run_reach_disciplined suspendable o es : forall p p', reach_disciplined suspendable o p ->
  run_disciplined suspendable o es p = true -> run suspendable o es p = Some p' -> reach_disciplined suspendable o p'.
Proof.
  induction es as [|e es IH]; intros p p' Hr Hd H; cbn [run run_disciplined] in *; [by injection H as <-|].
  apply andb_true_iff in Hd as [Hd1 Hd]. destruct (exec suspendable o e p) as [p1|] eqn:E; [|done].
  eapply IH; [|exact Hd|exact H]. by eapply rd_exec.
Qed.

Definition is_option (opt : options -> options) : Prop :=
  (exists sz, opt = WithSize sz) \/ (exists b, opt = WithStagingBehaviour b) \/ (exists v, opt = WithDeleteAcquiredOnClose v).

Lemma new_options_size opts : Forall is_option opts -> 1 <= pool_size (new_options opts).
Proof.
  intros H. unfold new_options.
  assert (1 <= pool_size (MkOptions DefaultPoolSize StagingBehaviourRunning true)) as Hd by (unfold pool_size, DefaultPoolSize; cbn [size]; lia).
  revert Hd. generalize (MkOptions DefaultPoolSize StagingBehaviourRunning true).
  induction H as [|opt opts Hopt _ IH]; intros o Ho; [done|]. cbn [fold_left]. apply IH.
  destruct Hopt as [[sz ->]|[[b ->]|[v ->]]]; unfold pool_size in *; cbn [size WithSize WithStagingBehaviour WithDeleteAcquiredOnClose]; [|done..].
  destruct (Z.leb_spec sz 0); unfold DefaultPoolSize; lia.
Qed.

Lemma count_NoDup l : (forall i, count i l <= 1) -> NoDup l.
Proof.
  induction l as [|x l IH]; intros H; constructor.
  - intros Hx%count_in. specialize (H x). rewrite count_cons, one_eq in H. lia.
  - apply IH. intros i. specialize (H i). rewrite count_cons in H. lia.
Qed.

Lemma sum_two (f : pc -> nat) l : forall t1 t2 q1 q2, t1 <> t2 -> l !! t1 = Some q1 -> l !! t2 = Some q2 ->
  f q1 + f q2 <= sum_list_with f l.
Proof.
  induction l as [|x l IH]; intros t1 t2 q1 q2 Hne H1 H2; [done|].
  destruct t1 as [|t1], t2 as [|t2]; [done|..]; cbn [sum_list_with].
  - injection H1 as ->. pose proof (sum_lookup f l t2 q2 H2). lia.
  - injection H2 as ->. pose proof (sum_lookup f l t1 q1 H1). lia.
  - specialize (IH t1 t2 q1 q2 ltac:(lia) H1 H2). lia.
Qed.

(** ** Properties *)

(** C16: whatever the backend, the contexts and the timers do, and however the
    goroutines interleave, the pool neither grows nor silently shrinks: when
    [Start] is called once, and each VM is used by one call at a time with no
    call after [Delete], the VMs in the channel, those being created or replaced,
    those on their way to a caller, and those callers hold running, together with
    the slots given up, are exactly the size of the pool.  So a VM that has been
    created never waits for room in the channel, and no VM is handed to two
    callers. *)
Theorem Pool_keeps_size (suspendable : nat -> bool) (opts : list (options -> options)) (p : pool)
  (Hopts : Forall is_option opts) (Hr : reach_disciplined suspendable (new_options opts) p) :
  let o := new_options opts in
  slots o p + lost p = allotted o p /\
  length (ready p) + sum_list_with (held (stopped p)) (idle p) <= pool_size o /\
  (forall t s i, threads p !! t = Some (TSend s i) -> is_Some (exec suspendable o (Step t Okay) p)) /\
  NoDup (ready p ++ idle p).
Proof.
  intros o. pose proof (new_options_size _ Hopts) as Hsz. destruct (slots_reach _ _ _ Hsz Hr) as [Hown Hslots].
  assert (allotted o p <= pool_size o) as Ha by (unfold allotted; destruct (start_called p); lia).
  fold o in Hslots, Hsz. split; [done|]. unfold slots in Hslots. split; [lia|]. split.
  - intros t s i Ht. pose proof (sum_lookup (slot (pool_size o) (stopped p)) _ _ _ Ht) as Hs. unfold total in Hslots.
    assert (1 <= slot (pool_size o) (stopped p) (TSend s i)) by (destruct s; cbn; lia).
    cbn [exec]. unfold step. rewrite Ht. cbn [step_task].
    rewrite (proj2 (Nat.ltb_lt (length (ready p)) (Z.to_nat (size o)))) by (unfold pool_size in *; lia). done.
  - apply count_NoDup. intros i. rewrite count_app. specialize (Hown i). unfold owners in Hown.
    pose proof (bit_le (bool_decide (i < insts p))). lia.
Qed.

(** The claim on an instance is exclusive: at most one goroutine is ever
    cleaning it up, none is while it is unclaimed, and it is cleaned up to the end
    at most once; no instance is dropped, since each one the provider has
    returned is unclaimed, with the one goroutine that holds it, or has been
    cleaned up.  This needs nothing of the callers. *)
Theorem Pool_cleans_once (suspendable : nat -> bool) (o : options) (p : pool) (Hr : reach suspendable o p) :
  NoDup (cleaned p ++ failed p) /\
  (forall i, i ∈ live p -> (i ∉ cleaned p) /\ (i ∉ failed p) /\ forall t q, threads p !! t = Some q -> holding i q = 0) /\
  (forall i t1 t2 q1 q2, threads p !! t1 = Some q1 -> threads p !! t2 = Some q2 ->
     holding i q1 = 1 -> holding i q2 = 1 -> t1 = t2) /\
  forall i, (i < insts p) <->
    (i ∈ live p) \/ (i ∈ cleaned p) \/ (i ∈ failed p) \/ (exists t q, threads p !! t = Some q /\ holding i q = 1).
Proof.
  pose proof (places_reach _ _ _ Hr) as Hp. unfold places, total in Hp.
  assert (forall i, bit (is_live i p) + sum_list_with (holding i) (threads p) + count i (cleaned p) + count i (failed p) <= 1)
    as Hle by (intros i; rewrite Hp; apply bit_le).
  split; [apply count_NoDup; intros i; rewrite count_app; specialize (Hle i); lia|]. split; [|split].
  - intros i Hi. specialize (Hle i). unfold is_live in Hle. rewrite bool_decide_eq_true_2 in Hle by done. cbn [bit] in Hle.
    split; [|split]; [rewrite count_in; lia..|]. intros t q Hq. pose proof (sum_lookup (holding i) _ _ _ Hq). lia.
  - intros i t1 t2 q1 q2 H1 H2 Hq1 Hq2. destruct (decide (t1 = t2)) as [|Hne]; [done|].
    pose proof (sum_two (holding i) _ _ _ _ _ Hne H1 H2). specialize (Hle i). lia.
  - intros i. specialize (Hp i). rewrite !count_in. unfold is_live in Hp.
    assert ((exists t q, threads p !! t = Some q /\ holding i q = 1) <-> 1 <= sum_list_with (holding i) (threads p)) as ->.
    { split.
      - intros (t & q & Hq & Hh). pose proof (sum_lookup (holding i) _ _ _ Hq). lia.
      - intros Hs. destruct (sum_positive (holding i) (threads p)) as (q & [t Ht]%list_elem_of_lookup & Hq); [lia|].
        exists t, q. split; [done|]. destruct q; cbn in *; unfold one in *; try lia; case_decide; lia. }
    assert ((i ∈ live p) <-> bit (bool_decide (i ∈ live p)) = 1) as -> by apply bit_decide.
    assert ((i < insts p) <-> bit (bool_decide (i < insts p)) = 1) as -> by apply bit_decide.
    rewrite <- Hp. pose proof (Hle i) as Hi. unfold is_live in Hi. lia.
Qed.

(** Once [Close] has returned the pool is closed, and every VM the provider
    has returned is accounted for: deleted; its cleanup failed; held by the
    goroutine that is cleaning it up, or that has just been given it; or still
    alive for one of three reasons: its caller keeps it because
    [WithDeleteAcquiredOnClose(false)] was used, [Close] could not delete it and
    has returned its claim, or its creation has outlived [Close], and that
    goroutine finds the pool closed. *)
Theorem Close_accounts_for_VMs (suspendable : nat -> bool) (o : options) (p : pool) (Hr : reach suspendable o p)
  (Hclosed : phase p = 2) :
  closed p = true /\
  forall i, i < insts p ->
    i ∈ cleaned p \/ i ∈ failed p \/ (exists t q, threads p !! t = Some q /\ holding i q = 1) \/
    i ∈ live p /\
      (acquired p i = true /\ deleteAcquiredOnClose o = false \/ i ∈ retracked p \/
       exists t q, threads p !! t = Some q /\ creating i q = 1).
Proof.
  pose proof (close_ok_reach _ _ _ Hr) as Hc. pose proof (places_reach _ _ _ Hr) as Hp. split.
  - pose proof (co_once _ _ Hc) as H. unfold swept in H. rewrite Hclosed in H. cbn in H.
    destruct (closed p); [done|cbn in H; lia].
  - intros i Hi. specialize (Hp i). unfold places, total in Hp. rewrite (bool_decide_eq_true_2 (i < insts p)) in Hp by done. cbn [bit] in Hp.
    destruct (decide (1 <= count i (cleaned p))) as [?%count_in|]; [by left|].
    destruct (decide (1 <= count i (failed p))) as [?%count_in|]; [by right; left|]. right; right.
    destruct (sum_list_with (holding i) (threads p)) eqn:Es.
    + right. assert (i ∈ live p) as Hl.
      { unfold is_live in Hp. destruct (bool_decide (i ∈ live p)) eqn:E; [by apply bool_decide_eq_true in E|cbn in Hp; lia]. }
      split; [done|]. destruct (co_live _ _ Hc ltac:(lia) i Hl) as [|[|H]]; [by left|by right; left|right; right].
      pose proof (co_sweep _ _ Hc ltac:(lia)) as Hs. unfold total in *.
      destruct (sum_positive (pending i) (threads p)) as (q & [t Ht]%list_elem_of_lookup & Hq); [lia|].
      exists t, q. split; [done|]. pose proof (sum_lookup sweeping _ _ _ Ht) as Hsq.
      destruct q; cbn in *; try lia; unfold one in *; repeat case_match; try lia; case_decide; lia.
    + left. destruct (sum_positive (holding i) (threads p)) as (q & [t Ht]%list_elem_of_lookup & Hq); [lia|].
      exists t, q. split; [done|]. destruct q; cbn in *; unfold one in *; try lia; case_decide; lia.
Qed.

(** ** Schedules *)

(** One instance created by [Start] in a pool of one, from an empty pool: the
    threads are [Start], the creation and the rest of [fill]. *)
Definition start_one : list event :=
  [CallStart; Step 0 Okay; Step 0 Okay; Step 0 Okay; Step 1 Okay; Step 1 Okay; Step 1 Okay; Step 1 Okay; Step 1 Okay;
   Step 0 Okay; Step 0 Okay; Step 0 Okay; Step 2 Okay; Step 2 Okay].

(** Its acquisition by thread 3, up to the lock. *)
Definition dequeue_one : list event := [CallAcquire; Step 3 Okay; Step 3 Okay; Step 3 Okay].

Definition take_lock : list event := [Step 3 Okay; Step 3 Okay; Step 3 Okay].

(** [Close] in thread [t] with one goroutine of its sweep in thread [w]. *)
Definition close_sweeping (t w : nat) : list event :=
  [CallClose; Step t Okay; Step t Okay; Step t Okay; Step t Okay; Step t Okay; Step t Okay; Step t Okay;
   Step w Okay; Step w Okay; Step t Okay].

Definition running_one : options := new_options [WithSize 1].

Definition may_suspend : nat -> bool := fun _ => true.

Example Pool_keeps_size_witness :
  exists p, run may_suspend running_one (start_one ++ dequeue_one ++ take_lock ++
      [CallStop 0; Step 4 Okay; Step 4 Okay; Step 4 Okay; Step 5 Okay; CallDelete 0; Step 7 Okay]) New = Some p /\
    slots running_one p + lost p = allotted running_one p /\ allotted running_one p = 1.
Proof.
  eexists. split; [vm_compute; reflexivity|]. split; [|reflexivity].
  refine (proj1 (Pool_keeps_size may_suspend [WithSize 1] _ _ _)).
  - apply Forall_singleton. left. by exists 1%Z.
  - eapply (run_reach_disciplined _ _ (start_one ++ dequeue_one ++ take_lock ++
      [CallStop 0; Step 4 Okay; Step 4 Okay; Step 4 Okay; Step 5 Okay; CallDelete 0; Step 7 Okay]) New);
      [apply rd_new|vm_compute; reflexivity|vm_compute; reflexivity].
Defined.

Example Pool_cleans_once_witness :
  exists p, run may_suspend running_one (start_one ++ dequeue_one ++ take_lock ++ close_sweeping 4 5) New = Some p /\
    NoDup (cleaned p ++ failed p) /\ cleaned p = [0].
Proof.
  eexists. split; [vm_compute; reflexivity|]. split; [|reflexivity].
  refine (proj1 (Pool_cleans_once may_suspend running_one _ _)).
  eapply (run_reach _ _ (start_one ++ dequeue_one ++ take_lock ++ close_sweeping 4 5) New);
    [apply reach_new|vm_compute; reflexivity].
Defined.

Example Close_accounts_for_VMs_witness :
  exists p, run may_suspend running_one (start_one ++ dequeue_one ++ take_lock ++ close_sweeping 4 5) New = Some p /\
    phase p = 2 /\ closed p = true /\ live p = ∅.
Proof.
  eexists. split; [vm_compute; reflexivity|]. split; [reflexivity|]. split; [|reflexivity].
  refine (proj1 (Close_accounts_for_VMs may_suspend running_one _ _ _)); [|reflexivity].
  eapply (run_reach _ _ (start_one ++ dequeue_one ++ take_lock ++ close_sweeping 4 5) New);
    [apply reach_new|vm_compute; reflexivity].
Defined.

(** Three interleavings the locks do not exclude.  An [Acquire] that has
    taken a VM from the channel when [Close] runs returns that VM, without an
    error, after [Close] has deleted it.  [StopAndRelease] and [Delete] of one VM
    at the same time both ask for a replacement: in a pool of one, a second VM
    waits for room in the channel.  And when [Close] does not wait for a creation
    and fails to delete its VM, the creating goroutine can try to claim the VM
    while [Close] still has the claim: [Close] then returns the claim, all
    goroutines have ended, and the VM stays alive. *)
Theorem Pool_races :
  (exists p, run may_suspend running_one (start_one ++ dequeue_one ++ close_sweeping 4 5 ++ take_lock) New = Some p /\
     threads p !! 3 = Some (AEnd (Some 0)) /\ closed p = true /\ 0 ∈ cleaned p) /\
  (exists p, run may_suspend running_one (start_one ++ dequeue_one ++ take_lock ++
       [CallStop 0; CallDelete 0; Step 4 Okay; Step 5 Okay; Step 4 Okay; Step 4 Okay; Step 5 Okay; Step 5 Okay; Step 5 Okay;
        Step 6 Okay; Step 8 Okay; Step 8 Okay; Step 8 Okay; Step 8 Okay; Step 8 Okay; Step 6 Okay; Step 6 Okay;
        Step 7 Okay; Step 9 Okay; Step 9 Okay; Step 9 Okay; Step 9 Okay; Step 9 Okay; Step 7 Okay]) New = Some p /\
     ready p = [1] /\ threads p !! 7 = Some (TSend Replenisher 2) /\ slots running_one p = 2) /\
  exists p, run may_suspend running_one
      [CallStart; Step 0 Okay; Step 0 Okay; Step 0 Okay; Step 1 Okay; Step 1 Okay; Step 1 Okay;
       CallClose; Step 2 Okay; Step 2 Okay; Step 2 Okay; Step 2 Okay; Step 2 CtxDone; Step 2 Okay; Step 2 Okay;
       Step 3 Okay; Step 3 Err; Step 1 Okay; Step 1 Okay; Step 1 Okay; Step 3 Okay; Step 2 Okay;
       Step 0 Okay; Step 0 Err] New = Some p /\
    phase p = 2 /\ threads p = [StartEnd false; CJoined; XEnd; WEnd] /\ live p = {[0]} /\ acquired p 0 = false.
Proof.
  split; [|split].
  - eexists. split; [vm_compute; reflexivity|]. split; [reflexivity|]. split; [reflexivity|]. cbn [cleaned]. set_solver.
  - eexists. split; [vm_compute; reflexivity|]. by split.
  - eexists. split; [vm_compute; reflexivity|]. by split.
Qed.
