(* ===== verification/Ratecontrol.v ===== *)
(** * Rate control and backoff (algo/ratecontrol)

    The backoff algorithms and their interface, the configuration that creates
    them, the spin detector, and the token bucket of the [Controller].  A
    duration is an [int64] of nanoseconds. *)

From stdpp Require Import base list option numbers gmap.
From Stdlib Require Import ZArith Lia.
From S2P Require Import Prelude.

Open Scope list_scope.
Open Scope Z_scope.
Open Scope go_scope.

(** ** Backoff (backoff.go) *)

(** What one call sees of the world: whether its select takes the [ctx.Done]
    case, the random source, whose [Int63n] is a number of [[0, n)], and the time;
    and the call's second argument, as an implementation can tell it apart: nil or
    some unknown value, or a [RetryResponse] with the duration it asks for. *)
Record env := MkEnv { cancelled : bool; int63n : Z -> Z; now : Z; response_ : option (option Z) }.

Definition env_ok (e : env) : Prop := forall n, 0 < n -> 0 <= int63n e n < n.

(** What a call of [Wait] returns, with the delay of the timer it created. *)
Inductive wait_result :=
| Terminate                    (* true, nil *)
| Cancelled (delay : Z)        (* true, ctx.Err() *)
| Waited (delay : Z)           (* false, nil *)
| BadArgument.                 (* true, an error about the second argument *)

(** The channel [Next] returns: closed, or a timer's, or one that is ready. *)
Inductive next_chan := Closed | Timer (delay : Z) | Ready.

Class Backoff (B : Type) := {
  Wait : env -> B -> B * wait_result;
  Next : env -> B -> B * next_chan;
  Done : B -> bool;
  Retries : B -> Z;
}.

Definition DefaultBackoffInterval : Z := 1000000000.
Definition DefaultBackoffSteps : Z := 10.

Record ExponentialBackoff := MkEB { steps : Z; retries : Z; nextDelay : Z; done : bool }.

Definition NewExponentialBackoff (initial n : Z) : ExponentialBackoff :=
  MkEB (if n <=? 0 then DefaultBackoffSteps else n) 0
       (if initial <=? 0 then DefaultBackoffInterval else initial) false.

(** [if eb.nextDelay < 1<<62 { eb.nextDelay *= 2 }; eb.retries++] *)
Definition next_retry (eb : ExponentialBackoff) : ExponentialBackoff :=
  MkEB (steps eb) (int64 (retries eb + 1))
       (if nextDelay eb <? 2 ^ 62 then int64 (nextDelay eb * 2) else nextDelay eb) (done eb).

Definition set_done (eb : ExponentialBackoff) : ExponentialBackoff :=
  MkEB (steps eb) (retries eb) (nextDelay eb) true.

Definition exponential_Wait (e : env) (eb : ExponentialBackoff) : ExponentialBackoff * wait_result :=
  if steps eb <=? retries eb then (set_done eb, Terminate)
  else if cancelled e then (eb, Cancelled (nextDelay eb))
  else (next_retry eb, Waited (nextDelay eb)).

Definition exponential_Next (e : env) (eb : ExponentialBackoff) : ExponentialBackoff * next_chan :=
  if steps eb <=? retries eb then (set_done eb, Closed)
  else (next_retry eb, Timer (nextDelay eb)).

#[export] Instance ExponentialBackoff_Backoff : Backoff ExponentialBackoff := {
  Wait := exponential_Wait; Next := exponential_Next; Done := done; Retries := retries }.

Inductive NoBackoff := MkNoBackoff.

#[export] Instance NoBackoff_Backoff : Backoff NoBackoff := {
  Wait e nb := (nb, Waited 0); Next e nb := (nb, Ready); Done nb := false; Retries nb := 0 }.

(** [ExponentialBackoffOffset] embeds [ExponentialBackoff]. *)
Record ExponentialBackoffOffset := MkEBO { embedded : ExponentialBackoff }.

Definition NewExponentialBackoffOffset (initial n : Z) : ExponentialBackoffOffset :=
  MkEBO (NewExponentialBackoff initial n).

Definition randomOffset (e : env) (limit : Z) : Z :=
  let offset := int63n e limit in if offset =? 0 then 1 else offset.

Definition offset_Wait (e : env) (eo : ExponentialBackoffOffset) : ExponentialBackoffOffset * wait_result :=
  let eb := embedded eo in
  if steps eb <=? retries eb then (MkEBO (set_done eb), Terminate)
  else if (retries eb =? 0) && (0 <? nextDelay eb) then
    let delay := randomOffset e (nextDelay eb) in
    if cancelled e then (eo, Cancelled delay) else (MkEBO (next_retry eb), Waited delay)
  else let '(eb, r) := exponential_Wait e eb in (MkEBO eb, r).

Definition offset_Next (e : env) (eo : ExponentialBackoffOffset) : ExponentialBackoffOffset * next_chan :=
  let eb := embedded eo in
  if (retries eb =? 0) && (retries eb <? steps eb) && (0 <? nextDelay eb)
  then (MkEBO (next_retry eb), Timer (randomOffset e (nextDelay eb)))
  else let '(eb, r) := exponential_Next e eb in (MkEBO eb, r).

#[export] Instance ExponentialBackoffOffset_Backoff : Backoff ExponentialBackoffOffset := {
  Wait := offset_Wait; Next := offset_Next;
  Done eo := done (embedded eo); Retries eo := retries (embedded eo) }.

(** A value of the interface type. *)
Record backoff_value := MkBackoff {
  bo_type : Type; bo_methods : Backoff bo_type; bo_value : bo_type }.
Arguments MkBackoff {_ _} _.

(** ** Configuration (ratecontrol_config.go) *)

Record ExponentialBackoffConfig := MkEBC { InitialDelay : Z; Steps : Z; RandomizeStart : bool }.

Definition NewBackoff (ebc : ExponentialBackoffConfig) : backoff_value :=
  if (0 <? InitialDelay ebc) && (0 <? Steps ebc) then
    if RandomizeStart ebc
    then MkBackoff (NewExponentialBackoffOffset (InitialDelay ebc) (Steps ebc))
    else MkBackoff (NewExponentialBackoff (InitialDelay ebc) (Steps ebc))
  else MkBackoff MkNoBackoff.

Definition MaxInt64 : Z := 2 ^ 63 - 1.

(** The loop of [TotalTimeout], from [k] iterations left. *)
Fixpoint timeout_loop (k : nat) (total delay : Z) : Z :=
  match k with
  | O => total
  | S k =>
      let total := int64 (total + delay) in
      if total <? 0 then MaxInt64
      else
        let delay := int64 (delay * 2) in
        timeout_loop k total (if delay <? 0 then MaxInt64 else delay)
  end.

Definition TotalTimeout (ebc : ExponentialBackoffConfig) : Z :=
  if (InitialDelay ebc <=? 0) || (Steps ebc <=? 0) then 0
  else timeout_loop (Z.to_nat (Steps ebc)) 0 (InitialDelay ebc).

(** ** Options (options.go) *)

Record options := MkOptions {
  noRateControl : bool;
  reqsInterval : Z;
  reqsPerTick : Z;
  bytesInterval : Z;
  opt_bytesPerTick : Z;
  opt_backoff : option (unit -> backoff_value);
}.

Definition DefaultTickInterval : Z := 1000000000.
Definition DefaultRequestsPerTick : Z := 1.
Definition DefaultBytesPerTick : Z := 1024 * 1024.

Definition Option_ : Type := options -> options.

Definition WithRequestsPerTick (tickInterval rpt : Z) : Option_ := fun o =>
  MkOptions (noRateControl o)
    (if tickInterval <=? 0 then DefaultTickInterval else tickInterval)
    (if rpt <=? 0 then DefaultRequestsPerTick else rpt)
    (bytesInterval o) (opt_bytesPerTick o) (opt_backoff o).

Definition WithBytesPerTick (tickInterval bpt : Z) : Option_ := fun o =>
  MkOptions (noRateControl o) (reqsInterval o) (reqsPerTick o)
    (if tickInterval <=? 0 then DefaultTickInterval else tickInterval)
    (if bpt <=? 0 then DefaultBytesPerTick else bpt) (opt_backoff o).

Definition WithBackoff (backoff : unit -> backoff_value) : Option_ := fun o =>
  MkOptions (noRateControl o) (reqsInterval o) (reqsPerTick o) (bytesInterval o)
    (opt_bytesPerTick o) (Some backoff).

Definition WithExponentialBackoff (first n : Z) (randomizedOffset : bool) : Option_ :=
  let first := if first <=? 0 then DefaultBackoffInterval else first in
  let n := if n <=? 0 then DefaultBackoffSteps else n in
  if randomizedOffset
  then WithBackoff (fun _ => MkBackoff (NewExponentialBackoffOffset first n))
  else WithBackoff (fun _ => MkBackoff (NewExponentialBackoff first n)).

Definition WithNoRateControl : Option_ := fun o =>
  MkOptions true (reqsInterval o) (reqsPerTick o) (bytesInterval o) (opt_bytesPerTick o) (opt_backoff o).

Definition no_options : options := MkOptions false 0 0 0 0 None.

Definition apply_options (opts : list Option_) : options := foldl (fun o fn => fn o) no_options opts.

Definition BackoffOption (ebc : ExponentialBackoffConfig) : Option_ :=
  WithExponentialBackoff (InitialDelay ebc) (Steps ebc) (RandomizeStart ebc).

(** [Controller.Backoff] *)
Definition Controller_Backoff (o : options) : backoff_value :=
  if noRateControl o then MkBackoff MkNoBackoff
  else match opt_backoff o with
       | Some f => f tt
       | None => MkBackoff MkNoBackoff
       end.

Record RateConfig := MkRate { Tick_ : Z; RequestsPerTick : Z; BytesPerTick : Z }.

Record ControllerConfig := MkCC { Rate : RateConfig; Exponential : ExponentialBackoffConfig }.

(** The options [NewController] passes to [New]. *)
Definition NewController (rc : ControllerConfig) : options :=
  apply_options (
    (if 0 <? BytesPerTick (Rate rc) then [WithBytesPerTick (Tick_ (Rate rc)) (BytesPerTick (Rate rc))] else []) ++
    (if 0 <? RequestsPerTick (Rate rc) then [WithRequestsPerTick (Tick_ (Rate rc)) (RequestsPerTick (Rate rc))] else []) ++
    (if 0 <? InitialDelay (Exponential rc) then [BackoffOption (Exponential rc)] else [])).

(** ** SpinDetector (spin.go) *)

Record SpinDetector := MkSpin { max_ : Z; count : Z; expiration : Z; period : Z }.

Definition NewSpinDetector (maxIterations p : Z) (e : env) : SpinDetector :=
  MkSpin maxIterations 0 (now e + p) p.

(** [Tick] up to the lock: the atomic increment.  [None]: it goes on to take
    the lock. *)
Definition tick_add (s : SpinDetector) : SpinDetector * option bool :=
  if (max_ s <=? 0) || (period s <=? 0) then (s, Some false)
  else
    let c := int64 (count s + 1) in
    (MkSpin (max_ s) c (expiration s) (period s), if c <? max_ s then Some false else None).

(** [Tick] under the lock. *)
Definition tick_locked (s : SpinDetector) (e : env) : SpinDetector * bool :=
  (MkSpin (max_ s) 0 (now e + period s) (period s), now e <? expiration s).

Definition Tick (s : SpinDetector) (e : env) : SpinDetector * bool :=
  match tick_add s with
  | (s, Some b) => (s, b)
  | (s, None) => tick_locked s e
  end.

Record BackoffOnSpin (B : Type) := MkBOS { detector : SpinDetector; inner : B }.
Arguments MkBOS {B} _ _.
Arguments detector {B} _.
Arguments inner {B} _.

Section on_spin.
Context {B : Type} `{!Backoff B}.

Definition NewBackoffOnSpin (maxIterations p : Z) (backoff : B) (e : env) : BackoffOnSpin B :=
  MkBOS (NewSpinDetector maxIterations p e) backoff.

Definition spin_Wait (e : env) (b : BackoffOnSpin B) : BackoffOnSpin B * wait_result :=
  let '(d, spinning) := Tick (detector b) e in
  if spinning then let '(i, r) := Wait e (inner b) in (MkBOS d i, r)
  else (MkBOS d (inner b), Waited 0).

Definition spin_Next (e : env) (b : BackoffOnSpin B) : BackoffOnSpin B * next_chan :=
  let '(d, spinning) := Tick (detector b) e in
  if spinning then let '(i, r) := Next e (inner b) in (MkBOS d i, r)
  else (MkBOS d (inner b), Ready).

#[export] Instance BackoffOnSpin_Backoff : Backoff (BackoffOnSpin B) := {
  Wait := spin_Wait; Next := spin_Next;
  Done b := Done (inner b); Retries b := Retries (inner b) }.
End on_spin.

(** ** Controller (ratecontrol.go)

    The fields the goroutines share: the tokens of the buffered channel
    [reqsTokens], whose capacity is [reqsPerTick]; the tick each ticker's
    channel may hold; the byte counter; the channel [bytesReset], by number,
    and the channels that have been closed. *)
Record Controller := MkController {
  opts : options;
  reqsTokens : Z;
  reqsTick : bool;
  bytesTick : bool;
  bytesPerTick : Z;
  bytesReset : nat;
  resets_closed : gset nat;
  stopped : bool;
}.

(** [None]: [time.NewTicker] panics on an interval that is not positive. *)
Definition New (opt_list : list Option_) : option Controller :=
  let o := apply_options opt_list in
  if (0 <? opt_bytesPerTick o) && (bytesInterval o <=? 0) then None
  else Some (MkController o (if 0 <? reqsPerTick o then reqsPerTick o else 0)
               false false 0 0 ∅ false).

Definition remaining (current allowed : Z) : bool := (allowed =? 0) || (current <? allowed).

Definition with_tokens (c : Controller) (t : Z) : Controller :=
  MkController (opts c) t (reqsTick c) (bytesTick c) (bytesPerTick c) (bytesReset c) (resets_closed c) (stopped c).
Definition with_reqsTick (c : Controller) (b : bool) : Controller :=
  MkController (opts c) (reqsTokens c) b (bytesTick c) (bytesPerTick c) (bytesReset c) (resets_closed c) (stopped c).
Definition with_bytes (c : Controller) (tick : bool) (n : Z) : Controller :=
  MkController (opts c) (reqsTokens c) (reqsTick c) tick n (bytesReset c) (resets_closed c) (stopped c).
Definition with_reset (c : Controller) (ch : nat) (cl : gset nat) : Controller :=
  MkController (opts c) (reqsTokens c) (reqsTick c) (bytesTick c) (bytesPerTick c) ch cl (stopped c).
Definition stop (c : Controller) : Controller :=
  MkController (opts c) (reqsTokens c) (reqsTick c) (bytesTick c) (bytesPerTick c) (bytesReset c) (resets_closed c) true.

(** A non-blocking send to [reqsTokens]. *)
Definition offer_token (c : Controller) : Controller :=
  if reqsTokens c <? reqsPerTick (opts c) then with_tokens c (reqsTokens c + 1) else c.

(** The points of [Wait] and [waitBytesPerTick] between their atomic steps. *)
Inductive wait_pc :=
| WStart
| WBytes                (* holding a token *)
| WSnapshot             (* the counter has reached the limit *)
| WBlocked (ch : nat)   (* in the select *)
| WWon                  (* the counter is reset, the channel not yet replaced *)
| WClose (old : nat)    (* the channel is replaced, the old one not yet closed *)
| WError                (* about to give the token back *)
| WReturned (ok : bool).

(** The case a select takes. *)
Inductive select_case := SCtx | SStop | SRecv | SReset.

(** One atomic step of a goroutine in [Wait]; [None] when it is blocked. *)
Definition wait_step (sel : select_case) (c : Controller) (pc : wait_pc) : option (Controller * wait_pc) :=
  match pc with
  | WStart =>
      if noRateControl (opts c) then Some (c, WReturned true)
      else if 0 <? reqsPerTick (opts c) then
        match sel with
        | SCtx => Some (c, WReturned false)
        | SStop => if stopped c then Some (c, WReturned false) else None
        | SRecv => if 0 <? reqsTokens c then Some (with_tokens c (reqsTokens c - 1), WBytes) else None
        | SReset => None
        end
      else Some (c, WBytes)
  | WBytes =>
      if remaining (bytesPerTick c) (opt_bytesPerTick (opts c)) then Some (c, WReturned true)
      else Some (c, WSnapshot)
  | WSnapshot => Some (c, WBlocked (bytesReset c))
  | WBlocked ch =>
      match sel with
      | SCtx => Some (c, WError)
      | SStop => if stopped c then Some (c, WError) else None
      | SRecv => if bytesTick c then Some (with_bytes c false 0, WWon) else None
      | SReset => if decide (ch ∈ resets_closed c) then Some (c, WReturned true) else None
      end
  | WWon => Some (with_reset c (S (bytesReset c)) (resets_closed c), WClose (bytesReset c))
  | WClose old => Some (with_reset c (bytesReset c) ({[old]} ∪ resets_closed c), WReturned true)
  | WError =>
      Some (if 0 <? reqsPerTick (opts c) then offer_token c else c, WReturned false)
  | WReturned _ => None
  end.

Definition BytesTransferred (c : Controller) (nBytes : Z) : Controller :=
  if opt_bytesPerTick (opts c) =? 0 then c
  else with_bytes c (bytesTick c) (int64 (bytesPerTick c + nBytes)).

(** What can happen: a goroutine calls [Wait], or takes its next step; a ticker
    fires; the filling goroutine receives the tick; bytes are reported; [Stop]. *)
Inductive action :=
| AWait
| AStep (t : nat) (sel : select_case)
| ATick
| AFill
| AByteTick
| ABytes (n : Z)
| AStop.

Definition exec (s : Controller * list wait_pc) (a : action) : option (Controller * list wait_pc) :=
  let '(c, ts) := s in
  match a with
  | AWait => Some (c, ts ++ [WStart])
  | AStep t sel =>
      pc ← ts !! t; '(c, pc) ← wait_step sel c pc; Some (c, <[t := pc]> ts)
  | ATick =>
      if (0 <? reqsPerTick (opts c)) && negb (stopped c) then Some (with_reqsTick c true, ts) else None
  | AFill => if reqsTick c then Some (offer_token (with_reqsTick c false), ts) else None
  | AByteTick =>
      if (0 <? opt_bytesPerTick (opts c)) && negb (stopped c)
      then Some (with_bytes c true (bytesPerTick c), ts) else None
  | ABytes n => Some (BytesTransferred c n, ts)
  | AStop => Some (stop c, ts)
  end.

Fixpoint run (s : Controller * list wait_pc) (l : list action) : option (Controller * list wait_pc) :=
  match l with
  | [] => Some s
  | a :: l => s ← exec s a; run s l
  end.

(** ** What a user of a backoff may rely on

    [budget] is the number of retries still to be granted.  An implementation
    grants one on every call of [Wait] that is not cancelled while it has any
    left, and reports the limit once it has none. *)
Class BackoffLaws (B : Type) `{!Backoff B} := {
  good : B -> Prop;
  budget : B -> nat;
  Wait_law : forall e b, good b ->
    let '(b', r) := Wait e b in
    good b' /\
    match r with
    | Waited _ => budget b = S (budget b') /\ Retries b' = Retries b + 1
    | Terminate => budget b = O /\ budget b' = O /\ Retries b' = Retries b
    | Cancelled _ | BadArgument => budget b' = budget b /\ Retries b' = Retries b
    end;
  Wait_grants : forall e b, good b -> cancelled e = false -> is_Some (response_ e) -> budget b <> O ->
    exists b' d, Wait e b = (b', Waited d);
}.

(** ** The delays of a backoff *)

(** The delays of [k] retries from delay [d]: each doubles as long as the double
    is an [int64]. *)
Fixpoint delays (k : nat) (d : Z) : list Z :=
  match k with
  | O => []
  | S k => d :: delays k (if d * 2 <? 2 ^ 63 then d * 2 else d)
  end.

Definition sum_delays (l : list Z) : Z := foldr Z.add 0 l.

Inductive call := CWait (e : env) | CNext (e : env).
Inductive call_result := RWait (r : wait_result) | RNext (c : next_chan).

Definition call_on {B} `{!Backoff B} (b : B) (c : call) : B * call_result :=
  match c with
  | CWait e => let '(b, r) := Wait e b in (b, RWait r)
  | CNext e => let '(b, r) := Next e b in (b, RNext r)
  end.

Fixpoint calls {B} `{!Backoff B} (b : B) (cs : list call) : B * list call_result :=
  match cs with
  | [] => (b, [])
  | c :: cs => let '(b, r) := call_on b c in let '(b, rs) := calls b cs in (b, r :: rs)
  end.

(** What a sequence of calls should return when the delays left are [ds]; the
    first one is taken through [pick]. *)
Fixpoint expected (pick : env -> Z -> Z) (ds : list Z) (cs : list call) : list call_result :=
  match cs with
  | [] => []
  | CWait e :: cs =>
      match ds with
      | [] => RWait Terminate :: expected pick [] cs
      | d :: ds' =>
          if cancelled e then RWait (Cancelled (pick e d)) :: expected pick ds cs
          else RWait (Waited (pick e d)) :: expected (fun _ d => d) ds' cs
      end
  | CNext e :: cs =>
      match ds with
      | [] => RNext Closed :: expected pick [] cs
      | d :: ds' => RNext (Timer (pick e d)) :: expected (fun _ d => d) ds' cs
      end
  end.

Definition exact : env -> Z -> Z := fun _ d => d.

Definition is_retry (r : call_result) : bool :=
  match r with RWait (Waited _) | RNext (Timer _) => true | _ => false end.
Definition is_limit (r : call_result) : bool :=
  match r with RWait Terminate | RNext Closed => true | _ => false end.

Definition eb_ok (eb : ExponentialBackoff) : Prop :=
  0 < steps eb < 2 ^ 63 /\ 0 <= retries eb <= steps eb /\ 0 < nextDelay eb < 2 ^ 63.

Definition left_ (eb : ExponentialBackoff) : nat := Z.to_nat (steps eb - retries eb).

Lemma left_0 eb : eb_ok eb -> (steps eb <=? retries eb) = true -> left_ eb = O.
Proof. unfold eb_ok, left_. intros. bool_to_prop. lia. Qed.

(** A retry that is granted takes the first of the delays left. *)
Lemma next_retry_spec eb : eb_ok eb -> (steps eb <=? retries eb) = false ->
  eb_ok (next_retry eb) /\ steps (next_retry eb) = steps eb /\ retries (next_retry eb) = retries eb + 1 /\
  done (next_retry eb) = done eb /\
  delays (left_ eb) (nextDelay eb) = nextDelay eb :: delays (left_ (next_retry eb)) (nextDelay (next_retry eb)).
Proof.
  intros (Hs & Hr & Hd) Hle. bool_to_prop.
  assert (Er : int64 (retries eb + 1) = retries eb + 1) by (apply int64_id; unfold int64_ok; lia).
  assert (En : nextDelay (next_retry eb) = if nextDelay eb * 2 <? 2 ^ 63 then nextDelay eb * 2 else nextDelay eb).
  { cbn. destruct (Z.ltb_spec (nextDelay eb) (2 ^ 62)), (Z.ltb_spec (nextDelay eb * 2) (2 ^ 63)); try lia; try done.
    apply int64_id. unfold int64_ok. lia. }
  split_and!; try done.
  - unfold eb_ok. rewrite En. cbn. rewrite Er.
    split_and!; try lia; destruct (Z.ltb_spec (nextDelay eb * 2) (2 ^ 63)); lia.
  - rewrite En. unfold left_. cbn [next_retry steps retries]. rewrite Er.
    replace (Z.to_nat (steps eb - retries eb)) with (S (Z.to_nat (steps eb - (retries eb + 1)))) by lia. done.
Qed.

Fixpoint count_retries (rs : list call_result) : Z :=
  match rs with [] => 0 | r :: rs => Z.b2z (is_retry r) + count_retries rs end.

Section follows.
Context {B : Type} `{!Backoff B} (get : B -> ExponentialBackoff).

Definition delays_left (b : B) : list Z := delays (left_ (get b)) (nextDelay (get b)).

(** What the calls return and leave behind, from any state of the backoff. *)
Definition follows (pick : env -> Z -> Z) (b : B) (cs : list call) : Prop :=
  exists b' rs, calls b cs = (b', rs) /\ rs = expected pick (delays_left b) cs /\
    Retries b' = Retries b + count_retries rs /\ Done b' = orb (Done b) (existsb is_limit rs).

Lemma follows_nil pick b : follows pick b [].
Proof. exists b, []. split_and!; try done; cbn; [lia|by rewrite orb_false_r]. Qed.

Lemma follows_cons pick pick' b c b1 r cs :
  call_on b c = (b1, r) -> follows pick' b1 cs ->
  expected pick (delays_left b) (c :: cs) = r :: expected pick' (delays_left b1) cs ->
  Retries b1 = Retries b + Z.b2z (is_retry r) -> Done b1 = orb (Done b) (is_limit r) ->
  follows pick b (c :: cs).
Proof.
  intros Ec (b' & rs & E & -> & Hr & Hd) Ee Hr1 Hd1. eexists _, _. cbn [calls]. rewrite Ec, E, Ee.
  split_and!; [done|done|cbn [count_retries]; lia|]. cbn [existsb]. by rewrite Hd, Hd1, orb_assoc.
Qed.
End follows.

Lemma exponential_follows cs : forall eb, eb_ok eb -> follows (fun eb => eb) exact eb cs.
Proof.
  induction cs as [|c cs IH]; intros eb Hok; [apply follows_nil|].
  destruct (steps eb <=? retries eb) eqn:E.
  - assert (Hl : delays_left (fun eb => eb) eb = []) by (unfold delays_left; by rewrite left_0).
    destruct c as [e|e]; (eapply follows_cons; [cbn; unfold exponential_Wait, exponential_Next; by rewrite E|by apply (IH (set_done eb))|..]).
    all: cbn; rewrite ?orb_true_r; try done; try lia.
    all: change (delays_left (fun eb => eb) (set_done eb)) with (delays_left (fun eb => eb) eb); by rewrite Hl.
  - destruct (next_retry_spec eb Hok E) as (Hok' & _ & Er & Ed & El).
    destruct c as [e|e]; [destruct (cancelled e) eqn:Ec|].
    all: eapply follows_cons; [cbn; unfold exponential_Wait, exponential_Next; rewrite E, ?Ec; done|by apply IH|..].
    all: unfold delays_left; rewrite ?El; cbn; rewrite ?Ec, ?orb_false_r; try done; lia.
Qed.

Lemma offset_exact cs eo : eb_ok (embedded eo) -> 0 < retries (embedded eo) ->
  follows embedded exact eo cs.
Proof.
  revert eo. induction cs as [|c cs IH]; intros eo Hok H0; [apply follows_nil|].
  pose proof (proj2 (Z.eqb_neq (retries (embedded eo)) 0) ltac:(lia)) as Hne.
  destruct (steps (embedded eo) <=? retries (embedded eo)) eqn:E.
  - assert (Hl : delays_left embedded eo = []) by (unfold delays_left; by rewrite left_0).
    destruct c as [e|e]; (eapply follows_cons;
      [cbn; unfold offset_Wait, offset_Next, exponential_Next; by rewrite ?Hne, ?E
      |by apply (IH (MkEBO (set_done (embedded eo))))|..]).
    all: cbn; rewrite ?orb_true_r; try done; try lia.
    all: change (delays_left embedded (MkEBO (set_done (embedded eo)))) with (delays_left embedded eo); by rewrite Hl.
  - destruct (next_retry_spec _ Hok E) as (Hok' & _ & Er & Ed & El).
    destruct c as [e|e]; [destruct (cancelled e) eqn:Ec|].
    all: eapply follows_cons; [cbn; unfold offset_Wait, offset_Next, exponential_Wait, exponential_Next; rewrite ?Hne, ?E, ?Ec; cbn; done|apply IH; cbn [embedded]; try done; lia|..].
    all: unfold delays_left; cbn [embedded]; rewrite ?El; cbn; rewrite ?Ec, ?orb_false_r; try done; lia.
Qed.

Lemma offset_follows cs eo : eb_ok (embedded eo) -> retries (embedded eo) = 0 ->
  follows embedded randomOffset eo cs.
Proof.
  revert eo. induction cs as [|c cs IH]; intros eo Hok H0; [apply follows_nil|].
  pose proof (proj2 (Z.eqb_eq (retries (embedded eo)) 0) H0) as He.
  pose proof Hok as (Hs & _ & Hd). pose proof (proj2 (Z.ltb_lt 0 _) (proj1 Hd)) as Hdl.
  pose proof (proj2 (Z.ltb_lt (retries (embedded eo)) (steps (embedded eo))) ltac:(lia)) as Hlt.
  pose proof (proj2 (Z.leb_gt (steps (embedded eo)) (retries (embedded eo))) ltac:(lia)) as Hle.
  destruct (next_retry_spec _ Hok Hle) as (Hok' & _ & Er & Ed & El).
  destruct c as [e|e]; [destruct (cancelled e) eqn:Ec|].
  all: eapply follows_cons; [cbn; unfold offset_Wait, offset_Next; rewrite He, ?Hle, ?Hlt, Hdl, ?Ec; cbn; done
    |(by apply IH) || (apply (offset_exact cs); cbn [embedded]; [done|lia])|..].
  all: unfold delays_left; cbn [embedded]; rewrite ?El; cbn; rewrite ?Ec, ?orb_false_r; try done; lia.
Qed.

Lemma NewExponentialBackoff_ok initial n : int64_ok initial -> int64_ok n ->
  let eb := NewExponentialBackoff initial n in
  eb_ok eb /\ retries eb = 0 /\ left_ eb = Z.to_nat (steps eb).
Proof.
  unfold int64_ok, eb_ok, left_, NewExponentialBackoff, DefaultBackoffSteps, DefaultBackoffInterval.
  intros Hi Hn. cbn. destruct (Z.leb_spec n 0), (Z.leb_spec initial 0); split_and!; lia.
Qed.

Lemma delays_bounds k d : 0 < d < 2 ^ 63 -> Forall (fun x => d <= x < 2 ^ 63) (delays k d).
Proof.
  revert d. induction k as [|k IH]; intros d Hd; constructor; [lia|].
  destruct (Z.ltb_spec (d * 2) (2 ^ 63)); [|by apply IH].
  eapply Forall_impl; [apply IH; lia|]. cbn. lia.
Qed.

Lemma randomOffset_bounds e d : env_ok e -> 0 < d -> 0 < randomOffset e d <= d.
Proof.
  intros He Hd. specialize (He d Hd). unfold randomOffset.
  destruct (Z.eqb_spec (int63n e d) 0); lia.
Qed.

#[export] Program Instance ExponentialBackoff_Laws : BackoffLaws ExponentialBackoff := {
  good := eb_ok; budget := left_ }.
Next Obligation.
  intros e eb Hok. cbn. unfold exponential_Wait. destruct (steps eb <=? retries eb) eqn:E; [|destruct (cancelled e)].
  - split; [exact Hok|]. split_and!; [by apply left_0|by apply left_0|done].
  - done.
  - destruct (next_retry_spec eb Hok E) as (Hok' & Es & Er & _ & _). split; [done|].
    bool_to_prop. destruct Hok as (? & ? & _). unfold left_. rewrite Es, Er. cbn [Retries ExponentialBackoff_Backoff]. lia.
Qed.
Next Obligation.
  intros e eb Hok Hc _ Hb. cbn. unfold exponential_Wait, left_ in *.
  rewrite (proj2 (Z.leb_gt _ _)), Hc by lia. eauto.
Qed.

#[export] Program Instance ExponentialBackoffOffset_Laws : BackoffLaws ExponentialBackoffOffset := {
  good eo := eb_ok (embedded eo); budget eo := left_ (embedded eo) }.
Next Obligation.
  intros e [eb] Hok. cbn in *. unfold offset_Wait, exponential_Wait. cbn [embedded].
  destruct (steps eb <=? retries eb) eqn:E.
  - split; [exact Hok|]. split_and!; [by apply left_0|by apply left_0|done].
  - destruct (next_retry_spec eb Hok E) as (Hok' & Es & Er & _ & _). pose proof Hok as (? & ? & _).
    bool_to_prop. destruct (_ && _), (cancelled e); cbn [embedded]; (split; [assumption|]); try (by split).
    all: unfold left_; rewrite ?Es, ?Er; lia.
Qed.
Next Obligation.
  intros e [eb] Hok Hc _ Hb. cbn in *. unfold offset_Wait, exponential_Wait, left_ in *. cbn [embedded].
  rewrite (proj2 (Z.leb_gt _ _)), Hc by lia. case_match; eauto.
Qed.

(** ** The total timeout *)

Lemma sum_delays_nonneg l : Forall (fun x => 0 < x) l -> 0 <= sum_delays l.
Proof. unfold sum_delays. induction 1; cbn; lia. Qed.

Lemma delays_pos k d : 0 < d < 2 ^ 63 -> Forall (fun x => 0 < x) (delays k d).
Proof. intros Hd. eapply Forall_impl; [by apply delays_bounds|]. cbn. lia. Qed.

Lemma int64_carry a : 2 ^ 63 <= a < 2 ^ 64 -> int64 a < 0.
Proof.
  intros Ha. unfold int64. replace (a + 2 ^ 63) with (a - 2 ^ 63 + 1 * 2 ^ 64) by lia.
  rewrite Z.mod_add, Z.mod_small by lia. lia.
Qed.

Lemma timeout_loop_spec k : forall total d, 0 <= total < 2 ^ 63 -> 0 < d < 2 ^ 63 ->
  timeout_loop k total d = Z.min MaxInt64 (total + sum_delays (delays k d)).
Proof.
  unfold MaxInt64. induction k as [|k IH]; intros total d Ht Hd; cbn [timeout_loop delays sum_delays foldr]; [lia|].
  set (d' := if d * 2 <? 2 ^ 63 then d * 2 else d).
  assert (0 < d' < 2 ^ 63) as Hd' by (unfold d'; destruct (Z.ltb_spec (d * 2) (2 ^ 63)); lia).
  pose proof (sum_delays_nonneg _ (delays_pos k d' Hd')) as Hs.
  destruct (Z.lt_ge_cases (total + d) (2 ^ 63)) as [Hlt|Hge].
  2:{ rewrite (proj2 (Z.ltb_lt _ 0)) by (apply int64_carry; lia). unfold MaxInt64, sum_delays in *. lia. }
  rewrite int64_id, (proj2 (Z.ltb_ge _ 0)) by (unfold int64_ok; lia).
  destruct (Z.lt_ge_cases (d * 2) (2 ^ 63)) as [Hlt2|Hge2].
  - rewrite (int64_id (d * 2)), (proj2 (Z.ltb_ge (d * 2) 0)) by (unfold int64_ok; lia).
    unfold d' in *. rewrite (proj2 (Z.ltb_lt (d * 2) _)) in * by lia.
    rewrite IH by lia. unfold sum_delays. lia.
  - rewrite (proj2 (Z.ltb_lt (int64 (d * 2)) 0)) by (apply int64_carry; lia).
    destruct k as [|k]; [cbn; lia|]. cbn [timeout_loop delays].
    rewrite (proj2 (Z.ltb_lt _ 0)) by (apply int64_carry; unfold MaxInt64; lia).
    unfold d' in *. rewrite (proj2 (Z.ltb_ge (d * 2) _)) in * by lia.
    cbn [sum_delays foldr delays] in *. rewrite (proj2 (Z.ltb_ge (d * 2) _)) in Hs by lia.
    pose proof (sum_delays_nonneg _ (delays_pos k d Hd')). unfold sum_delays in *.
    rewrite (proj2 (Z.ltb_ge (d * 2) _)) by lia. unfold MaxInt64. lia.
Qed.

(** ** The spin detector *)

Fixpoint ticks (s : SpinDetector) (es : list env) : SpinDetector * list bool :=
  match es with
  | [] => (s, [])
  | e :: es => let '(s, b) := Tick s e in let '(s, bs) := ticks s es in (s, b :: bs)
  end.

(** A window: all ticks before the [max]-th return false, and that one whether
    it came before the expiration; then a new window starts. *)
Lemma ticks_window s es e : 0 < max_ s < 2 ^ 63 -> 0 < period s -> 0 <= count s ->
  count s + len es = max_ s - 1 ->
  ticks s (es ++ [e]) =
    (MkSpin (max_ s) 0 (now e + period s) (period s), replicate (length es) false ++ [now e <? expiration s]).
Proof.
  revert s. induction es as [|e1 es IH]; intros s Hm Hp Hc Hl; cbn [app ticks length replicate].
  - rewrite len_nil in Hl. unfold Tick, tick_add.
    rewrite (proj2 (Z.leb_gt (max_ s) 0)), (proj2 (Z.leb_gt (period s) 0)) by lia. cbn [orb].
    rewrite int64_id, (proj2 (Z.ltb_ge _ (max_ s))) by (unfold int64_ok; lia). done.
  - rewrite len_cons in Hl. pose proof (len_nonneg es). unfold Tick, tick_add.
    rewrite (proj2 (Z.leb_gt (max_ s) 0)), (proj2 (Z.leb_gt (period s) 0)) by lia. cbn [orb].
    rewrite int64_id, (proj2 (Z.ltb_lt _ (max_ s))) by (unfold int64_ok; lia).
    by rewrite (IH (MkSpin (max_ s) (count s + 1) (expiration s) (period s))) by (cbn; lia).
Qed.

(** Two goroutines that both pass the threshold, long after the window expired:
    the second to take the lock reports a spin, because the first has just moved
    the expiration. *)
Lemma tick_race (e : env) :
  now e = 100 ->
  let s := MkSpin 2 1 10 10 in            (* one tick since time 0 *)
  let '(s, a) := tick_add s in let '(s, b) := tick_add s in
  a = None /\ b = None /\
  (tick_locked s e).2 = false /\ (tick_locked (tick_locked s e).1 e).2 = true.
Proof. intros He. cbn. by rewrite He. Qed.

(** ** The token bucket *)

Definition inflight (pc : wait_pc) : nat :=
  match pc with WStart | WReturned _ => 0 | _ => 1 end.
Definition granted (pc : wait_pc) : nat := match pc with WReturned true => 1 | _ => 0 end.
Definition is_tick (a : action) : nat := match a with ATick => 1 | _ => 0 end.

(** A goroutine parked on a channel is on the current one, or its channel is
    closed, or the goroutine that won the tick is about to close it. *)
Definition woken (c : Controller) (ts : list wait_pc) (ch : nat) : Prop :=
  (ch = bytesReset c \/ ch ∈ resets_closed c) \/ exists t, ts !! t = Some (WClose ch).

Definition bucket_ok (n : nat) (s : Controller * list wait_pc) : Prop :=
  let '(c, ts) := s in
  0 < reqsPerTick (opts c) /\ noRateControl (opts c) = false /\
  0 <= reqsTokens c <= reqsPerTick (opts c) /\
  reqsTokens c + Z.b2z (reqsTick c) + Z.of_nat (sum_list_with inflight ts) + Z.of_nat (sum_list_with granted ts)
    <= reqsPerTick (opts c) + Z.of_nat n.

Definition parked_ok (s : Controller * list wait_pc) : Prop :=
  let '(c, ts) := s in forall t ch, ts !! t = Some (WBlocked ch) -> woken c ts ch.

Lemma sum_snoc {A} (f : A -> nat) l x : sum_list_with f (l ++ [x]) = (sum_list_with f l + f x)%nat.
Proof. rewrite sum_list_with_app. cbn. lia. Qed.

Lemma exec_opts s a s' : exec s a = Some s' -> opts s'.1 = opts s.1.
Proof.
  destruct s as [c ts], a; cbn; unfold BytesTransferred, offer_token; intros H;
    try (repeat case_match; by simplify_option_eq).
  destruct (ts !! t) as [pc|] eqn:Ht; [|done]. cbn in H.
  destruct (wait_step sel c pc) as [[c' pc']|] eqn:E; [|done]. cbn in H. simplify_eq. cbn.
  destruct pc, sel; cbn in E; unfold offer_token in E; repeat case_match; by simplify_eq.
Qed.

Lemma wait_step_bucket n c ts t pc sel c' pc' :
  bucket_ok n (c, ts) -> ts !! t = Some pc -> wait_step sel c pc = Some (c', pc') ->
  bucket_ok n (c', <[t := pc']> ts).
Proof.
  intros (HR & Hno & Htok & Hsum) Ht E.
  pose proof (sum_insert inflight ts t pc pc' Ht). pose proof (sum_insert granted ts t pc pc' Ht).
  unfold bucket_ok.
  destruct pc, sel; cbn in E; unfold offer_token in E; repeat case_match; simplify_eq; cbn in *; bool_to_prop;
    split_and!; try done; try lia; congruence.
Qed.

Lemma exec_bucket n s a s' : bucket_ok n s -> exec s a = Some s' -> bucket_ok (n + is_tick a) s'.
Proof.
  destruct s as [c ts]. intros Hok H.
  destruct a; cbn [exec is_tick] in *; rewrite ?Nat.add_0_r.
  - simplify_eq. destruct Hok as (? & ? & ? & ?). cbn. rewrite !sum_snoc. cbn. split_and!; try done; lia.
  - destruct (ts !! t) as [pc|] eqn:Ht; [|done]. cbn in H.
    destruct (wait_step sel c pc) as [[c' pc']|] eqn:E; [|done]. cbn in H. simplify_eq.
    by eapply wait_step_bucket.
  - case_match; simplify_eq. destruct Hok as (? & ? & ? & Hs). cbn in *. split_and!; try done; try lia.
    destruct (reqsTick c); cbn in Hs; lia.
  - destruct (reqsTick c) eqn:Et; [|done]. simplify_eq. destruct Hok as (? & ? & ? & Hs). rewrite Et in Hs.
    unfold offer_token. cbn in *. case_match; cbn; bool_to_prop; split_and!; try done; lia.
  - case_match; simplify_eq. exact Hok.
  - simplify_eq. unfold BytesTransferred. by case_match.
  - simplify_eq. exact Hok.
Qed.

(** What a step does to the channels: it parks on the current one, replaces it,
    or closes one. *)
Lemma wait_step_woken c ts t pc sel c' pc' ch :
  ts !! t = Some pc -> wait_step sel c pc = Some (c', pc') ->
  woken c ts ch -> woken c' (<[t := pc']> ts) ch.
Proof.
  intros Ht E Hw. assert (t < length ts)%nat as Hlt by by eapply lookup_lt_Some.
  assert (bytesReset c' = bytesReset c \/ pc' = WClose (bytesReset c)) as Hr.
  { destruct pc, sel; cbn in E; unfold offer_token in E; repeat case_match; simplify_eq; auto. }
  assert (resets_closed c ⊆ resets_closed c') as Hc.
  { destruct pc, sel; cbn in E; unfold offer_token in E; repeat case_match; simplify_eq; cbn; set_solver. }
  destruct Hw as [[->|Hin]|(t' & Ht')].
  - destruct Hr as [E'| ->]; [left; left; congruence|right]. exists t. by apply list_lookup_insert_eq.
  - left. right. set_solver.
  - destruct (decide (t' = t)) as [->|Hne].
    + replace pc with (WClose ch) in E by congruence. left; right.
      destruct sel; cbn in E; simplify_eq; cbn; set_solver.
    + right. exists t'. by rewrite list_lookup_insert_ne.
Qed.

Lemma wait_step_parks sel c pc c' ch : wait_step sel c pc = Some (c', WBlocked ch) -> ch = bytesReset c'.
Proof. destruct pc, sel; cbn; intros E; repeat case_match; by simplify_eq. Qed.

Lemma exec_parked s a s' : parked_ok s -> exec s a = Some s' -> parked_ok s'.
Proof.
  destruct s as [c ts]. intros Hok H. unfold parked_ok in *.
  destruct a; cbn [exec] in *.
  - simplify_eq. intros t ch [[_ Ht]|[-> Ht]]%lookup_snoc_Some; [|done].
    destruct (Hok t ch Ht) as [?|[t' Ht']]; [by left|right]. exists t'. by apply lookup_app_l_Some.
  - destruct (ts !! t) as [pc|] eqn:Ht; [|done]. cbn in H.
    destruct (wait_step sel c pc) as [[c' pc']|] eqn:E; [|done]. cbn in H. simplify_eq.
    intros t2 ch [(<- & -> & _)|[_ Ht2]]%list_lookup_insert_Some.
    + left; left. by eapply wait_step_parks.
    + eapply wait_step_woken; eauto.
  - case_match; simplify_eq. exact Hok.
  - case_match; simplify_eq. unfold offer_token. case_match; exact Hok.
  - case_match; simplify_eq. exact Hok.
  - simplify_eq. unfold BytesTransferred. by case_match.
  - simplify_eq. exact Hok.
Qed.

Definition tick_count (l : list action) : nat := sum_list_with is_tick l.

Lemma run_bucket_ok l : forall n s s', bucket_ok n s -> parked_ok s -> run s l = Some s' ->
  bucket_ok (n + tick_count l) s' /\ parked_ok s' /\ opts s'.1 = opts s.1.
Proof.
  induction l as [|a l IH]; intros n s s' Hb Hp H; cbn in H.
  - simplify_eq. cbn. by rewrite Nat.add_0_r.
  - destruct (exec s a) as [s1|] eqn:E; [|done]. cbn in H.
    destruct (IH (n + is_tick a)%nat s1 s') as (Hb' & Hp' & Ho); [by eapply exec_bucket|by eapply exec_parked|done|].
    unfold tick_count in *. cbn [sum_list_with]. rewrite Nat.add_assoc.
    split_and!; [done|done|]. rewrite Ho. by eapply exec_opts.
Qed.

(** ** Properties *)

(** The retries of a backoff.  For any initial delay and number of steps,
    any sequence of calls of [Wait] and [Next], each cancelled or not, returns
    what the schedule of delays prescribes: the first [steps] calls that are
    not cancelled are granted the delays in turn, a cancelled [Wait] uses none
    up, and every later call reports the limit; [Retries] counts the granted
    ones and [Done] tells whether the limit was reported.  The delays start at
    the initial one, double while the double fits an int64 and never overflow;
    the offset variant replaces only the first, by a random one in (0, d]. *)
Theorem Backoff_schedule (initial n : Z) (cs : list call) (Hi : int64_ok initial) (Hn : int64_ok n) :
  let eb := NewExponentialBackoff initial n in
  let ds := delays (Z.to_nat (steps eb)) (nextDelay eb) in
  Forall (fun d => nextDelay eb <= d < 2 ^ 63) ds /\ len ds = steps eb /\ 0 < nextDelay eb /\
  (forall eb' rs, calls eb cs = (eb', rs) ->
     rs = expected exact ds cs /\ Retries eb' = count_retries rs /\ Done eb' = existsb is_limit rs) /\
  (forall eo' rs, calls (NewExponentialBackoffOffset initial n) cs = (eo', rs) ->
     rs = expected randomOffset ds cs /\ Retries eo' = count_retries rs /\ Done eo' = existsb is_limit rs) /\
  (forall e d, env_ok e -> d ∈ ds -> 0 < randomOffset e d <= d).
Proof.
  destruct (NewExponentialBackoff_ok initial n Hi Hn) as (Hok & Hr & Hl). cbn zeta.
  set (eb := NewExponentialBackoff initial n) in *. pose proof Hok as (Hs & _ & Hd).
  split_and!; [by apply delays_bounds| |lia| | |].
  - assert (forall k d, len (delays k d) = Z.of_nat k) as ->; [|lia].
    induction k as [|k IH]; intros d; cbn [delays]; [done|]. rewrite len_cons, IH. lia.
  - intros eb' rs E. destruct (exponential_follows cs eb Hok) as (b & rs' & E' & -> & Hr' & Hd').
    rewrite E in E'. injection E' as -> ->. unfold delays_left in *. rewrite Hl in *. cbn in Hr', Hd'.
    split_and!; [done|cbn; lia|done].
  - intros eo' rs E. destruct (offset_follows cs (NewExponentialBackoffOffset initial n) Hok Hr) as (b & rs' & E' & -> & Hr' & Hd').
    rewrite E in E'. injection E' as -> ->. unfold delays_left in *. cbn [embedded NewExponentialBackoffOffset] in *.
    fold eb in Hr', Hd' |- *. rewrite Hl in *. cbn in Hr', Hd'.
    split_and!; [done|cbn; lia|done].
  - intros e d He Hin. apply randomOffset_bounds; [done|].
    pose proof (proj1 (Forall_forall _ _) (delays_pos (Z.to_nat (steps eb)) _ Hd) d Hin). done.
Qed.

Definition steady : env := MkEnv false (fun n => n - 1) 0 None.
Definition interrupted : env := MkEnv true (fun _ => 0) 0 None.

Lemma Backoff_schedule_witness :
  int64_ok (2 ^ 61) /\ int64_ok 3 /\
  (calls (NewExponentialBackoff (2 ^ 61) 3) [CWait steady; CWait interrupted; CNext steady; CWait steady; CWait steady]).2 =
    [RWait (Waited (2 ^ 61)); RWait (Cancelled (2 ^ 62)); RNext (Timer (2 ^ 62)); RWait (Waited (2 ^ 62)); RWait Terminate].
Proof.
  assert (H1 : int64_ok (2 ^ 61)) by (unfold int64_ok; lia). assert (H2 : int64_ok 3) by (unfold int64_ok; lia).
  split; [exact H1|]. split; [exact H2|].
  destruct (Backoff_schedule (2 ^ 61) 3 [CWait steady; CWait interrupted; CNext steady; CWait steady; CWait steady] H1 H2)
    as (_ & _ & _ & H & _).
  destruct (calls _ _) as [b rs] eqn:E. destruct (H b rs eq_refl) as [-> _]. vm_compute. reflexivity.
Defined.

(** [TotalTimeout] is the time an exponential backoff with that
    configuration waits in all: the sum of the delays of all its steps, or the
    largest duration when that sum does not fit, although the loop of
    [TotalTimeout] keeps doubling where the backoff stops.  The additions of
    the loop overflow at most once and are detected. *)
Theorem TotalTimeout_sum (initial n : Z) (randomize : bool) (Hi : int64_ok initial) (Hn : int64_ok n) :
  TotalTimeout (MkEBC initial n randomize) =
  if (0 <? initial) && (0 <? n)
  then Z.min MaxInt64 (sum_delays (delays (Z.to_nat n) initial)) else 0.
Proof.
  unfold TotalTimeout. cbn. unfold int64_ok in *.
  destruct (Z.leb_spec initial 0), (Z.leb_spec n 0), (Z.ltb_spec 0 initial), (Z.ltb_spec 0 n); cbn; try lia.
  rewrite timeout_loop_spec by lia. done.
Qed.

Lemma TotalTimeout_sum_witness :
  int64_ok (2 ^ 60) /\ int64_ok 3 /\ int64_ok 4 /\
  TotalTimeout (MkEBC (2 ^ 60) 3 false) = 7 * 2 ^ 60 /\ TotalTimeout (MkEBC (2 ^ 60) 4 false) = 2 ^ 63 - 1.
Proof.
  assert (H1 : int64_ok (2 ^ 60)) by (unfold int64_ok; lia). assert (H2 : int64_ok 3) by (unfold int64_ok; lia).
  assert (H3 : int64_ok 4) by (unfold int64_ok; lia).
  split_and!; [exact H1|exact H2|exact H3| |].
  - rewrite (TotalTimeout_sum (2 ^ 60) 3 false H1 H2). vm_compute. reflexivity.
  - rewrite (TotalTimeout_sum (2 ^ 60) 4 false H1 H3). vm_compute. reflexivity.
Defined.

(** C40: the [Controller] never lets more requests through than its rate: in
    any interleaving of goroutines in [Wait], of the tickers, of the goroutine
    that fills the token channel, of [BytesTransferred] and of [Stop], the
    number of [Wait] calls that returned nil is at most the burst
    [reqsPerTick] plus the number of ticks, and the channel never exceeds its
    capacity.  No goroutine that waits for the byte counter is stranded: its
    channel is the one the next tick closes, or is closed, or is about to be. *)
Theorem Controller_rate (os : list Option_) (c0 : Controller) (l : list action) (c : Controller) (ts : list wait_pc)
    (Hnew : New os = Some c0) (Hreqs : 0 < reqsPerTick (opts c0)) (Hrate : noRateControl (opts c0) = false)
    (Hrun : run (c0, []) l = Some (c, ts)) :
  Z.of_nat (sum_list_with granted ts) <= reqsPerTick (opts c0) + Z.of_nat (tick_count l) /\
  0 <= reqsTokens c <= reqsPerTick (opts c0) /\
  (forall t ch, ts !! t = Some (WBlocked ch) -> woken c ts ch).
Proof.
  assert (Hb : bucket_ok 0 (c0, [])).
  { unfold New in Hnew. case_match; [done|]. simplify_eq. cbn in *.
    rewrite (proj2 (Z.ltb_lt 0 _)) by done. split_and!; try done; lia. }
  destruct (run_bucket_ok l 0 (c0, []) (c, ts) Hb) as ((_ & _ & Htok & Hs) & Hp & Ho); [intros t ch; cbn; by rewrite lookup_nil|done|].
  cbn in Ho. rewrite Ho in *. split_and!; try done; try lia. destruct (reqsTick c); cbn in Hs; lia.
Qed.

Definition rate_trace : list action :=
  [AWait; AStep 0 SRecv; AStep 0 SRecv; AWait; AStep 1 SRecv; ATick; ATick; AFill; AWait; AStep 2 SRecv; AStep 2 SRecv].

Lemma Controller_rate_witness :
  exists c0, New [WithRequestsPerTick 1000 2] = Some c0 /\ 0 < reqsPerTick (opts c0) /\
    noRateControl (opts c0) = false /\
  exists c ts, run (c0, []) rate_trace = Some (c, ts) /\ ts !! 2%nat = Some (WReturned true) /\
    Z.of_nat (sum_list_with granted ts) <= reqsPerTick (opts c0) + Z.of_nat (tick_count rate_trace).
Proof.
  destruct (New [WithRequestsPerTick 1000 2]) as [c0|] eqn:E; [|vm_compute in E; discriminate E].
  exists c0. split; [reflexivity|]. pose proof E as E'. vm_compute in E'. injection E' as E'.
  assert (H1 : 0 < reqsPerTick (opts c0)) by (rewrite <- E'; vm_compute; reflexivity).
  assert (H2 : noRateControl (opts c0) = false) by (rewrite <- E'; vm_compute; reflexivity).
  split; [exact H1|]. split; [exact H2|].
  destruct (run (c0, []) rate_trace) as [[c ts]|] eqn:R; [|rewrite <- E' in R; vm_compute in R; discriminate R].
  exists c, ts. split; [reflexivity|]. split.
  - rewrite <- E' in R. vm_compute in R. injection R as _ <-. reflexivity.
  - exact (proj1 (Controller_rate _ c0 rate_trace c ts E H1 H2 R)).
Defined.
