(* ===== verification/Download.v ===== *)
(** * Fetching byte ranges (file/largefile: downloader.go, large_file.go)

    The statistics both downloaders keep, the [backoff] that honours the
    duration a server asks for, and [get] and [handleGet], which fetch one byte
    range with retries.  The retry loop is verified against any backoff that
    keeps the contract [BackoffLaws]. *)

From stdpp Require Import base list option numbers gmap.
From Stdlib Require Import ZArith Lia.
From Stdlib Require Import Init.Byte.
From S2P Require Import Prelude ByteRanges Ratecontrol.

Open Scope list_scope.
Open Scope Z_scope.
Open Scope go_scope.

(** ** Statistics *)

Record DownloadStats := MkStats {
  CachedOrStreamedBytes : Z;
  CachedOrStreamedBlocks : Z;
  CacheErrors : Z;
  DownloadedBytes : Z;
  DownloadedBlocks : Z;
  DownloadSize : Z;
  DownloadBlocks : Z;
  DownloadRetries : Z;
  DownloadErrors : Z;
  Iterations : Z;
}.

Definition updateAfterIteration (ds nds : DownloadStats) : DownloadStats := {|
  CachedOrStreamedBytes := int64 (CachedOrStreamedBytes ds + CachedOrStreamedBytes nds);
  CachedOrStreamedBlocks := int64 (CachedOrStreamedBlocks ds + CachedOrStreamedBlocks nds);
  CacheErrors := int64 (CacheErrors ds + CacheErrors nds);
  DownloadedBytes := int64 (DownloadedBytes ds + DownloadedBytes nds);
  DownloadedBlocks := int64 (DownloadedBlocks ds + DownloadedBlocks nds);
  DownloadRetries := int64 (DownloadRetries ds + DownloadRetries nds);
  DownloadErrors := int64 (DownloadErrors ds + DownloadErrors nds);
  DownloadSize := DownloadSize nds;
  DownloadBlocks := DownloadBlocks nds;
  Iterations := int64 (Iterations ds + 1);
|}.

(** The progress channel: nil, or what it holds and how many more values a send
    can put in it without blocking. *)
Record progressTracker := MkTracker { stats : DownloadStats; progress_ch : option (nat * list DownloadStats) }.

Definition send (pt : progressTracker) : progressTracker :=
  match progress_ch pt with
  | Some (S room, sent) => MkTracker (stats pt) (Some (room, sent ++ [stats pt]))
  | _ => pt
  end.

Definition with_stats (pt : progressTracker) (s : DownloadStats) : progressTracker := MkTracker s (progress_ch pt).

Definition add_streamed (s : DownloadStats) (bytes blocks : Z) : DownloadStats :=
  MkStats (int64 (CachedOrStreamedBytes s + bytes)) (int64 (CachedOrStreamedBlocks s + blocks)) (CacheErrors s)
    (DownloadedBytes s) (DownloadedBlocks s) (DownloadSize s) (DownloadBlocks s) (DownloadRetries s)
    (DownloadErrors s) (Iterations s).

Definition add_downloaded (s : DownloadStats) (blocks size : Z) : DownloadStats :=
  MkStats (CachedOrStreamedBytes s) (CachedOrStreamedBlocks s) (CacheErrors s)
    (int64 (DownloadedBytes s + size)) (int64 (DownloadedBlocks s + blocks)) (DownloadSize s) (DownloadBlocks s)
    (DownloadRetries s) (DownloadErrors s) (Iterations s).

Definition add_errors (s : DownloadStats) (cache retries errors : Z) : DownloadStats :=
  MkStats (CachedOrStreamedBytes s) (CachedOrStreamedBlocks s) (int64 (CacheErrors s + cache))
    (DownloadedBytes s) (DownloadedBlocks s) (DownloadSize s) (DownloadBlocks s)
    (int64 (DownloadRetries s + retries)) (int64 (DownloadErrors s + errors)) (Iterations s).

Definition incrementCacheOrStream (pt : progressTracker) (bytes blocks : Z) : progressTracker :=
  send (with_stats pt (add_streamed (stats pt) bytes blocks)).
Definition incrementDownload (pt : progressTracker) (blocks size : Z) : progressTracker :=
  send (with_stats pt (add_downloaded (stats pt) blocks size)).
Definition incrementRetries (pt : progressTracker) (n : Z) : progressTracker :=
  send (with_stats pt (add_errors (stats pt) 0 n 0)).
Definition incrementDownloadErrors (pt : progressTracker) : progressTracker :=
  send (with_stats pt (add_errors (stats pt) 0 0 1)).
Definition incrementCacheErrors (pt : progressTracker) : progressTracker :=
  send (with_stats pt (add_errors (stats pt) 1 0 0)).

(** The tracker and the block size [newDownloader] starts with. *)
Definition newDownloader (size blockSize : Z) (ch : option (nat * list DownloadStats)) : res (progressTracker * Z) :=
  let blockSize := if blockSize <=? 0 then 4096 else blockSize in
  let! nb := NumBlocks size blockSize in
  Ok (MkTracker (MkStats 0 0 0 0 0 size (int64 nb) 0 0 0) ch, blockSize).

(** ** The backoff of this package (large_file.go) *)

Record backoff := MkBackoff_ { exponential : ExponentialBackoff; steps : Z; retries : Z; done : bool }.

Definition NewBackoff (initial n : Z) : backoff :=
  MkBackoff_ (NewExponentialBackoff initial n) n 0 false.

Definition backoff_Retries (b : backoff) : Z := int64 (retries b + Ratecontrol.retries (exponential b)).

Definition backoff_Wait (e : env) (b : backoff) : backoff * wait_result :=
  if steps b <=? backoff_Retries b then (MkBackoff_ (exponential b) (steps b) (retries b) true, Terminate)
  else
    match response_ e with
    | None => (b, BadArgument)
    | Some None =>
        let '(x, r) := exponential_Wait e (exponential b) in
        (MkBackoff_ x (steps b) (retries b) (done b), r)
    | Some (Some duration) =>
        if cancelled e then (b, Cancelled duration)
        else (MkBackoff_ (exponential b) (steps b) (int64 (retries b + 1)) (done b), Waited duration)
    end.

Definition backoff_Next (e : env) (b : backoff) : backoff * next_chan :=
  if steps b <=? backoff_Retries b then (MkBackoff_ (exponential b) (steps b) (retries b) true, Closed)
  else
    let '(x, r) := exponential_Next e (exponential b) in
    (MkBackoff_ x (steps b) (retries b) (done b), r).

#[export] Instance backoff_Backoff : Backoff backoff := {
  Wait := backoff_Wait; Next := backoff_Next;
  Done b := done b || Ratecontrol.done (exponential b);
  Retries := backoff_Retries }.

(** ** get and handleGet *)

(** What one call of the file's [GetReader] gives: a reader, or an error with a
    [RetryResponse] (nil, or whether the error is retryable). *)
Inductive get_reader (R : Type) :=
| GotReader (rd : R)
| ReaderError (retry : option bool).
Arguments GotReader {R} rd.
Arguments ReaderError {R} retry.

Inductive get_result (R : Type) :=
| GetReader (rd : R)
| GaveUp (n : Z)              (* application backoff giving up after n retries *)
| FailedToGet.                (* failed to get byte range *)
Arguments GetReader {R} rd.
Arguments GaveUp {R} n.
Arguments FailedToGet {R}.

Section get.
Context {R B : Type} `{!Backoff B}.
(** The outcome of each attempt in turn, and what the wait after it sees. *)
Context (attempt : nat -> get_reader R) (world : nat -> env).

(** The loop from attempt [i]. *)
Fixpoint get_loop (fuel i : nat) (b : B) (pt : progressTracker) : res (get_result R * progressTracker * nat) :=
  match fuel with
  | O => NoFuel
  | S fuel =>
      match attempt i with
      | GotReader rd => Ok (GetReader rd, pt, S i)
      | ReaderError (Some true) =>
          match Wait (world i) b with
          | (b, Waited _) => get_loop fuel (S i) b (incrementRetries pt 1)
          | (b, _) => Ok (GaveUp (Retries b), pt, S i)
          end
      | ReaderError _ => Ok (FailedToGet, incrementDownloadErrors pt, S i)
      end
  end.

Definition get (fuel : nat) (b : B) (pt : progressTracker) : res (get_result R * progressTracker * nat) :=
  get_loop fuel 0 b pt.
End get.

Record response := MkResponse { data : list byte; range : ByteRange }.
Record request := MkRequest { req_range : ByteRange }.

(** The errors of this package; [IsInternal] is [errors.Is(err, ErrInternalError)]. *)
Inductive err :=
| ErrContext                      (* cancelled, or past its deadline *)
| ErrGet                          (* from get *)
| ErrCopy
| ErrShortCopy (copied : Z)
| ErrFirstResponse (from : Z)
| ErrOutOfOrder (expected from : Z)
| ErrShortWrite
| ErrPipe
| ErrHash
| ErrCache.

Definition IsInternal (e : err) : bool :=
  match e with ErrFirstResponse _ | ErrOutOfOrder _ _ | ErrShortWrite | ErrCache => true | _ => false end.

(** What a fetcher obtains for a request, up to the reader: nothing from the
    rate controller or [get], or the bytes read and whether [io.Copy] failed. *)
Inductive fetched := NotFetched (e : err) | Fetched (bytes : list byte) (copy_failed : bool).

Section handleGet.
Context {S : Type} (progress : S -> progressTracker) (set_progress : S -> progressTracker -> S).
Context (handler : response -> S -> res (S * option err)).

Definition handleGet (req : request) (f : fetched) (s : S) : res (S * option err) :=
  match f with
  | NotFetched e => Ok (s, Some e)
  | Fetched bytes failed =>
      let s := set_progress s (incrementDownload (progress s) 1 (len bytes)) in
      if failed then Ok (s, Some ErrCopy)
      else if negb (len bytes =? ByteRange_Size (req_range req)) then Ok (s, Some (ErrShortCopy (len bytes)))
      else handler (MkResponse bytes (req_range req)) s
  end.
End handleGet.

(** ** The backoff keeps the contract *)

Definition backoff_ok (b : backoff) : Prop :=
  eb_ok (exponential b) /\ 0 <= retries b < 2 ^ 63 /\ (0 < steps b -> Ratecontrol.steps (exponential b) = steps b) /\
  0 <= steps b < 2 ^ 63 /\ retries b + Ratecontrol.retries (exponential b) <= steps b.

Definition backoff_left (b : backoff) : nat :=
  Z.to_nat (steps b - (retries b + Ratecontrol.retries (exponential b))).

Lemma backoff_Retries_id b : backoff_ok b -> backoff_Retries b = retries b + Ratecontrol.retries (exponential b).
Proof. intros ((_ & ? & _) & ? & _ & ? & ?). apply int64_id. unfold int64_ok. lia. Qed.

Lemma backoff_retry b : backoff_ok b -> (steps b <=? backoff_Retries b) = false ->
  (Ratecontrol.steps (exponential b) <=? Ratecontrol.retries (exponential b)) = false /\
  let x := next_retry (exponential b) in
  let b' := MkBackoff_ x (steps b) (retries b) (done b) in
  let b'' := MkBackoff_ (exponential b) (steps b) (int64 (retries b + 1)) (done b) in
  backoff_ok b' /\ backoff_left b = S (backoff_left b') /\ backoff_Retries b' = backoff_Retries b + 1 /\
  backoff_ok b'' /\ backoff_left b = S (backoff_left b'') /\ backoff_Retries b'' = backoff_Retries b + 1.
Proof.
  intros Hok E. pose proof Hok as (He & Hr & Hs & Hs' & Hle). pose proof He as (_ & He' & _).
  rewrite backoff_Retries_id in E by done. bool_to_prop. specialize (Hs ltac:(lia)).
  assert (Hlt : (Ratecontrol.steps (exponential b) <=? Ratecontrol.retries (exponential b)) = false)
    by (apply Z.leb_gt; lia). split; [done|].
  destruct (next_retry_spec _ He Hlt) as (He1 & Es1 & Er1 & _ & _). cbn zeta.
  assert (int64 (retries b + 1) = retries b + 1) as Ei by (apply int64_id; unfold int64_ok; lia).
  assert (backoff_ok (MkBackoff_ (next_retry (exponential b)) (steps b) (retries b) (done b))) as H1.
  { unfold backoff_ok. cbn [exponential steps retries]. rewrite Es1, Er1. split_and!; try done; lia. }
  assert (backoff_ok (MkBackoff_ (exponential b) (steps b) (int64 (retries b + 1)) (done b))) as H2.
  { unfold backoff_ok. cbn [exponential steps retries]. rewrite Ei. split_and!; try done; lia. }
  rewrite !backoff_Retries_id by done. unfold backoff_left. cbn [exponential steps retries].
  rewrite Er1. rewrite Ei in H2 |- *. split_and!; try done; lia.
Qed.

#[export] Program Instance backoff_Laws : BackoffLaws backoff := { good := backoff_ok; budget := backoff_left }.
Next Obligation.
  intros e b Hok. change (Wait e b) with (backoff_Wait e b). cbn [Retries backoff_Backoff]. unfold backoff_Wait.
  destruct (steps b <=? backoff_Retries b) eqn:E.
  - split; [exact Hok|]. pose proof Hok as (_ & _ & _ & _ & Hle). rewrite backoff_Retries_id in E by done.
    bool_to_prop. unfold backoff_left. cbn [exponential steps retries]. split_and!; [lia|lia|done].
  - destruct (backoff_retry b Hok E) as (Hlt & H1 & L1 & R1 & H2 & L2 & R2).
    destruct (response_ e) as [[d|]|]; [destruct (cancelled e); done| |done].
    unfold exponential_Wait. rewrite Hlt. destruct (cancelled e); [by destruct b|done].
Qed.
Next Obligation.
  intros e b Hok Hc [v Hv] Hb. change (Wait e b) with (backoff_Wait e b). unfold backoff_Wait.
  assert (E : (steps b <=? backoff_Retries b) = false).
  { rewrite backoff_Retries_id by done. apply Z.leb_gt. unfold backoff_left in Hb. lia. }
  rewrite E, Hv. destruct (backoff_retry b Hok E) as (Hlt & _). unfold exponential_Wait. rewrite Hlt, Hc.
  destruct v; eauto.
Qed.

Lemma NewBackoff_ok initial n : int64_ok initial -> 0 <= n < 2 ^ 63 ->
  backoff_ok (NewBackoff initial n) /\ backoff_left (NewBackoff initial n) = Z.to_nat n.
Proof.
  intros Hi Hn. destruct (NewExponentialBackoff_ok initial n Hi) as (Hok & Hr & _); [unfold int64_ok; lia|].
  unfold backoff_ok, backoff_left. cbn [NewBackoff exponential steps retries]. rewrite Hr. split_and!; try done; try lia.
  intros. cbn. by rewrite (proj2 (Z.leb_gt n 0)) by lia.
Qed.

(** ** The retry loop *)

Section get_bounded.
Context {R B : Type} `{!Backoff B, !BackoffLaws B}.
Context (attempt : nat -> get_reader R) (world : nat -> env).
(** [Wait] is given the [RetryResponse] of the failed attempt. *)
Context (Hresponse : forall i, attempt i = ReaderError (Some true) -> is_Some (response_ (world i))).

(** What the loop returns after [n] attempts, when the first was [i]. *)
Definition outcome (i : nat) (b : B) (r : get_result R) (n : nat) : Prop :=
  (i < n <= i + S (budget b))%nat /\
  (forall j, i <= j < n - 1 -> attempt j = ReaderError (Some true))%nat /\
  match r with
  | GetReader rd => attempt (n - 1)%nat = GotReader rd
  | FailedToGet => attempt (n - 1)%nat = ReaderError None \/ attempt (n - 1)%nat = ReaderError (Some false)
  | GaveUp k =>
      attempt (n - 1)%nat = ReaderError (Some true) /\ k = Retries b + Z.of_nat (n - 1 - i) /\
      (cancelled (world (n - 1)%nat) = true \/ n = (i + S (budget b))%nat)
  end.

Lemma get_loop_spec fuel : forall i b pt, good b -> (budget b < fuel)%nat ->
  exists r pt' n, get_loop attempt world fuel i b pt = Ok (r, pt', n) /\ outcome i b r n.
Proof.
  induction fuel as [|fuel IH]; intros i b pt Hg Hf; [lia|]. cbn [get_loop].
  destruct (attempt i) as [rd|[[]|]] eqn:Ea.
  1,3,4: do 3 eexists; (split; [reflexivity|]); unfold outcome; rewrite Nat.sub_succ, Nat.sub_0_r;
    split_and!; try lia; try (intros j Hj; lia); auto.
  pose proof (Wait_law (world i) b Hg) as Hw. pose proof (Wait_grants (world i) b Hg) as Hgr.
  specialize (Hresponse i Ea). destruct (Wait (world i) b) as [b' w].
  assert ((exists d, w = Waited d) \/ ~ exists d, w = Waited d) as [[d ->]|Hno] by (destruct w; naive_solver).
  - destruct Hw as (Hg' & Em & Er).
    destruct (IH (S i) b' (incrementRetries pt 1) Hg' ltac:(lia)) as (r & pt' & n & -> & (Hn & Hall & Hr)).
    do 3 eexists. split; [reflexivity|]. unfold outcome. split_and!; try lia.
    + intros j Hj. destruct (decide (j = i)) as [->|]; [done|apply Hall; lia].
    + destruct r; try done. destruct Hr as (Hr1 & -> & Hr3). split_and!; [done|lia|].
      destruct Hr3; [by left|right; lia].
  - assert (Retries b' = Retries b /\ (cancelled (world i) = true \/ budget b = O)) as [Er Hor].
    { split; [destruct w; naive_solver|].
      destruct (cancelled (world i)), (decide (budget b = O)); auto.
      destruct (Hgr eq_refl Hresponse) as (? & d & [= _ ->]); [done|]. destruct Hno; eauto. }
    assert (outcome i b (GaveUp (Retries b')) (S i)) as Ho.
    { unfold outcome. rewrite Nat.sub_succ, Nat.sub_0_r, Nat.sub_diag, Er.
      split_and!; try lia; try done; destruct Hor; [by left|right; lia]. }
    destruct w; try (destruct Hno; by eauto); eauto 10.
Qed.
End get_bounded.

(** With [NoBackoff], which the default rate controller hands out, the loop has
    no bound: a server that keeps answering with retryable errors is asked again
    and again, without a delay. *)
Lemma get_NoBackoff {R} (attempt : nat -> get_reader R) (world : nat -> env) :
  (forall i, attempt i = ReaderError (Some true)) ->
  forall fuel i pt, get_loop attempt world fuel i MkNoBackoff pt = NoFuel.
Proof. intros Ha. induction fuel as [|fuel IH]; intros i pt; cbn; [done|]. rewrite Ha. cbn. apply IH. Qed.

(** ** Properties *)

(** C39: [get] returns.  Against any backoff that keeps the contract, whatever
    the file's reader answers and whenever the context is cancelled, the loop
    ends after at most one attempt more than the retries the backoff has to
    grant; every attempt but the last failed with a retryable error; the result
    is the reader of the last attempt, or its error when that is not retryable,
    or a report with the exact number of retries when the context was cancelled
    or the backoff ran out. *)
Theorem get_returns {R B : Type} `{!Backoff B, !BackoffLaws B}
    (attempt : nat -> get_reader R) (world : nat -> env) (b : B) (pt : progressTracker) (fuel : nat)
    (Hresponse : forall i, attempt i = ReaderError (Some true) -> is_Some (response_ (world i)))
    (Hgood : good b) (Hfuel : (budget b < fuel)%nat) :
  exists r pt' n, get attempt world fuel b pt = Ok (r, pt', n) /\
    (0 < n <= S (budget b))%nat /\
    (forall j, (j < n - 1)%nat -> attempt j = ReaderError (Some true)) /\
    match r with
    | GetReader rd => attempt (n - 1)%nat = GotReader rd
    | FailedToGet => attempt (n - 1)%nat = ReaderError None \/ attempt (n - 1)%nat = ReaderError (Some false)
    | GaveUp k =>
        attempt (n - 1)%nat = ReaderError (Some true) /\ k = Retries b + Z.of_nat (n - 1) /\
        (cancelled (world (n - 1)%nat) = true \/ n = S (budget b))
    end.
Proof.
  destruct (get_loop_spec attempt world Hresponse fuel 0 b pt Hgood Hfuel) as (r & pt' & n & E & (Hn & Hall & Hr)).
  exists r, pt', n. split_and!; [done|lia|lia| |].
  - intros j Hj. apply Hall. lia.
  - destruct r; try done. by rewrite Nat.sub_0_r in Hr.
Qed.

(** The backoff of the package with two steps, against a server that first asks
    for a delay, then fails, then fails again. *)
Definition two_steps : backoff := NewBackoff 1000 2.
Definition asks (i : nat) : env := MkEnv false (fun _ => 0) 0 (Some (if Nat.eqb i 0 then Some 500 else None)).

Lemma get_returns_witness :
  good two_steps /\ budget two_steps = 2%nat /\
  exists r pt' n,
    get (R := unit) (fun _ => ReaderError (Some true)) asks 3 two_steps (MkTracker (MkStats 0 0 0 0 0 0 0 0 0 0) None) = Ok (r, pt', n) /\
    (n <= 3)%nat /\ r = GaveUp 2.
Proof.
  assert (H1 : int64_ok 1000) by (unfold int64_ok; lia). assert (H2 : 0 <= 2 < 2 ^ 63) by lia.
  destruct (NewBackoff_ok 1000 2 H1 H2) as [Hok Hl].
  assert (Hg : @good backoff backoff_Backoff backoff_Laws two_steps) by exact Hok.
  split; [exact Hg|]. split; [exact Hl|].
  assert (Hr : forall i, @ReaderError unit (Some true) = ReaderError (Some true) -> is_Some (response_ (asks i)))
    by (intros i _; eexists; reflexivity).
  assert (Hf : (budget two_steps < 3)%nat) by (cbn [budget backoff_Laws two_steps]; unfold two_steps; rewrite Hl; lia).
  destruct (@get_returns unit backoff backoff_Backoff backoff_Laws (fun _ => ReaderError (Some true)) asks two_steps
    (MkTracker (MkStats 0 0 0 0 0 0 0 0 0 0) None) 3 Hr Hg Hf)
    as (r & pt' & n & E & Hn & _).
  exists r, pt', n. split; [exact E|]. split; [cbn [budget backoff_Laws] in Hn; unfold two_steps in Hn; rewrite Hl in Hn; lia|].
  vm_compute in E. injection E as <- _ _. reflexivity.
Defined.
