(* ===== verification/Streaming.v ===== *)
(** * The streaming downloader (file/largefile/streaming_downloader.go)

    Concurrent fetchers obtain the blocks of a file in any order; the downloader
    writes them to a pipe in order, keeping those that are early in a heap, and
    re-issues the requests that failed when it is asked to wait for completion.
    The first part models the handling of one response, the second the
    generator, the fetchers and the reader as a step relation. *)

From stdpp Require Import base list option numbers gmap sorting.
From Stdlib Require Import ZArith Lia.
From Stdlib Require Import Init.Byte.
From Stdlib Require Strings.Byte.
From S2P Require Import Prelude.
From S2P Require Bitmap.
From S2P Require Heap.
From S2P Require Import ByteRanges Ratecontrol Download.

Open Scope list_scope.
Open Scope Z_scope.
Open Scope go_scope.

#[export] Instance byte_eq_dec : EqDecision byte := Byte.byte_eq_dec.

(** ** The state of the stream *)

Definition Less (a b : response) : bool := From (range a) <? From (range b).

(** The pipe: what its reader has taken, and how many bytes it will still take
    before it closes its end ([None]: it reads to the end). *)
Record pipe := MkPipe { taken : list byte; room : option nat }.

(** The bytes written and whether the write failed. *)
Definition pipe_Write (p : pipe) (b : list byte) : pipe * Z * bool :=
  match room p with
  | None => (MkPipe (taken p ++ b) None, len b, false)
  | Some k =>
      if (length b <=? k)%nat then (MkPipe (taken p ++ b) (Some (k - length b)%nat), len b, false)
      else (MkPipe (taken p ++ take k b) (Some O), Z.of_nat k, true)
  end.

Section stream.
(** The optional hash; [None] is an error of its [Write]. *)
Context {H : Type} (hash_write : H -> list byte -> option H).

(** The fields of [StreamingDownloader] that [mu] protects, the pipe, the hash
    and the channels of [outstanding]. *)
Record stream := MkStream {
  outstanding : ByteRanges;
  world : Bitmap.chans;
  heap : list response;
  tracking : ByteRange;
  outOfOrder : Z;
  maxHeapSize : Z;
  pipeWr : pipe;
  hash : option H;
  progress : progressTracker;
}.

Definition with_outstanding (s : stream) (o : ByteRanges) (w : Bitmap.chans) : stream :=
  MkStream o w (heap s) (tracking s) (outOfOrder s) (maxHeapSize s) (pipeWr s) (hash s) (progress s).
Definition with_heap (s : stream) (h : list response) : stream :=
  MkStream (outstanding s) (world s) h (tracking s) (outOfOrder s) (maxHeapSize s) (pipeWr s) (hash s) (progress s).
Definition with_tracking (s : stream) (r : ByteRange) : stream :=
  MkStream (outstanding s) (world s) (heap s) r (outOfOrder s) (maxHeapSize s) (pipeWr s) (hash s) (progress s).
Definition with_counts (s : stream) (n m : Z) : stream :=
  MkStream (outstanding s) (world s) (heap s) (tracking s) n m (pipeWr s) (hash s) (progress s).
Definition with_pipe (s : stream) (p : pipe) : stream :=
  MkStream (outstanding s) (world s) (heap s) (tracking s) (outOfOrder s) (maxHeapSize s) p (hash s) (progress s).
Definition with_hash (s : stream) (h : option H) : stream :=
  MkStream (outstanding s) (world s) (heap s) (tracking s) (outOfOrder s) (maxHeapSize s) (pipeWr s) h (progress s).
Definition with_progress (s : stream) (p : progressTracker) : stream :=
  MkStream (outstanding s) (world s) (heap s) (tracking s) (outOfOrder s) (maxHeapSize s) (pipeWr s) (hash s) p.

Definition NewStream (size blockSize : Z) (p : pipe) (h : option H) (ch : option (nat * list DownloadStats)) : res stream :=
  let! (pt, blockSize) := newDownloader size blockSize ch in
  let! o := NewByteRanges size blockSize in
  Ok (MkStream o (Bitmap.Chans 0 ∅) [] (MkByteRange (-1) (-1)) 0 0 p h pt).

(** ** Responses *)

Definition write_hash (s : stream) (b : list byte) : option stream :=
  match hash s with
  | None => Some s
  | Some h => h ← hash_write h b; Some (with_hash s (Some h))
  end.

Definition writeToPipeLocked (resp : response) (s : stream) : res (stream * option err) :=
  let from := From (range resp) in
  if (From (tracking s) =? -1) && negb (from =? 0) then Ok (s, Some (ErrFirstResponse from))
  else
    let next := int64 (To (tracking s) + 1) in
    if negb (from =? next) then Ok (s, Some (ErrOutOfOrder next from))
    else
      let s := with_tracking s (range resp) in
      let '(p, n, failed) := pipe_Write (pipeWr s) (data resp) in
      let s := with_pipe s p in
      if failed then Ok (s, Some ErrPipe)
      else if n <? len (data resp) then Ok (s, Some ErrShortWrite)
      else
        match write_hash s (data resp) with
        | None => Ok (s, Some ErrHash)
        | Some s =>
            let! (o, w) := Set_ (outstanding s) (world s) from in
            let s := with_outstanding s o w in
            Ok (with_progress s (incrementCacheOrStream (progress s) n 1), None)
        end.

Definition pushLocked (resp : response) (s : stream) : res stream :=
  let! h := Heap.Push Less (heap s) resp in
  let s := with_heap s h in
  Ok (with_counts s (int64 (outOfOrder s + 1)) (Z.max (maxHeapSize s) (len h))).

Fixpoint drain_loop (fuel : nat) (nextOffset : Z) (s : stream) : res (stream * option err) :=
  match fuel with
  | O => NoFuel
  | S fuel =>
      if 0 <? len (heap s) then
        let! (h, head) := Heap.Pop Less (heap s) in
        let s := with_heap s h in
        if nextOffset =? From (range head) then
          let! (s, e) := writeToPipeLocked head s in
          match e with
          | Some e => Ok (s, Some e)
          | None => drain_loop fuel (int64 (To (range head) + 1)) s
          end
        else let! s := pushLocked head s in Ok (s, None)
      else Ok (s, None)
  end.

Definition drainCacheLocked (nextOffset : Z) (s : stream) : res (stream * option err) :=
  drain_loop (S (length (heap s))) nextOffset s.

Definition handleResponse (resp : response) (s : stream) : res (stream * option err) :=
  let! lastWritten := Tail (outstanding s) in
  let lastTo := match lastWritten with Some r => To r | None => -1 end in
  if negb (From (range resp) =? int64 (lastTo + 1)) then
    let! s := pushLocked resp s in Ok (s, None)
  else
    let! (s, e) := writeToPipeLocked resp s in
    match e with
    | Some e => Ok (s, Some e)
    | None => drainCacheLocked (int64 (To (range resp) + 1)) s
    end.

(** A sequence of responses, up to the first error. *)
Fixpoint handle_all (rs : list response) (s : stream) : res (stream * option err) :=
  match rs with
  | [] => Ok (s, None)
  | r :: rs =>
      let! (s, e) := handleResponse r s in
      match e with Some e => Ok (s, Some e) | None => handle_all rs s end
  end.
End stream.
Arguments stream : clear implicits.
Arguments MkStream {H} _ _ _ _ _ _ _ _ _.
Arguments NewStream {H} _ _ _ _ _.

(** ** Retries

    [retryTracker] embeds a [ByteRangesTracker], nil unless the downloader waits
    for completion; its channels are numbered apart from those of [outstanding]. *)
Record retryTracker := MkRetry {
  rt_ranges : option byteRanges;
  rt_ch : option nat;
  rt_pending : bool;
  rt_world : Bitmap.chans;
}.

Definition kickLocked (rt : retryTracker) : res retryTracker :=
  match rt_ch rt with
  | None => Ok rt
  | Some c => let! w := Bitmap.close_chan (rt_world rt) c in Ok (MkRetry (rt_ranges rt) None (rt_pending rt) w)
  end.

Definition set (rt : retryTracker) (from : Z) : res retryTracker :=
  let! br := checked (rt_ranges rt) in
  let! br := byteRanges_Set br from in
  kickLocked (MkRetry (Some br) (rt_ch rt) true (rt_world rt)).

Definition notify (rt : retryTracker) : res (nat * retryTracker) :=
  if rt_pending rt then
    let '(c, w) := Bitmap.make_chan (rt_world rt) in
    let! w := Bitmap.close_chan w c in
    Ok (c, MkRetry (rt_ranges rt) (rt_ch rt) false w)
  else
    match rt_ch rt with
    | Some c => Ok (c, rt)
    | None =>
        let '(c, w) := Bitmap.make_chan (rt_world rt) in
        Ok (c, MkRetry (rt_ranges rt) (Some c) false w)
    end.

Definition nextSetAndClear (rt : retryTracker) (start : Z) : res (Z * option ByteRange * retryTracker) :=
  let! br := checked (rt_ranges rt) in
  let! (n, r) := NextSet br start in
  match r with
  | None => Ok (n, None, rt)
  | Some r =>
      let! br := byteRanges_clear br (From r) in
      Ok (n, Some r, MkRetry (Some br) (rt_ch rt) (rt_pending rt) (rt_world rt))
  end.

(** ** The goroutines *)

(** The points of [generator] and [reissue]: searching from a block, sending a
    request, and the two channels of the select evaluated one after the other
    before a ready case is taken. *)
Inductive gen_pc :=
| GPrime (n : Z)
| GSend (n : Z) (br : ByteRange)
| GSelect
| GNotified (c1 : nat)
| GWait (c1 c2 : nat)
| GReissue (n : Z)
| GResend (n : Z) (br : ByteRange)
| GDone (e : option err).

(** A fetcher, with the errors it has collected. *)
Inductive fetch_pc :=
| FIdle (errs : list err)
| FGot (req : request) (errs : list err)
| FDone (e : list err).

Inductive action :=
| AGen                                    (* the next step of the generator *)
| AGenOutstanding                         (* its select takes the case of outstanding *)
| AGenRetry                               (* ... of the retry tracker *)
| AGenDone                                (* ... of ctx.Done *)
| ARecv (t : nat)                         (* a fetcher receives from the request channel *)
| AFetched (t : nat) (f : fetched)        (* a fetcher handles what it obtained *)
| AFetcherDone (t : nat)                  (* a fetcher sees ctx.Done *)
| ACancel.                                (* the caller cancels the context *)

Section system.
Context {H : Type} (hash_write : H -> list byte -> option H).
(** The size of the content, the concurrency and [waitForCompletion]. *)
Context (size : Z) (concurrency : nat) (wait : bool).

Record sys := MkSys {
  str : stream H;
  retry : retryTracker;
  requestCh : list request;
  gen : gen_pc;
  fetchers : list fetch_pc;
  ctx_done : bool;
}.

Definition with_gen (s : sys) (g : gen_pc) : sys :=
  MkSys (str s) (retry s) (requestCh s) g (fetchers s) (ctx_done s).
Definition with_requests (s : sys) (l : list request) : sys :=
  MkSys (str s) (retry s) l (gen s) (fetchers s) (ctx_done s).
Definition with_retry (s : sys) (rt : retryTracker) : sys :=
  MkSys (str s) rt (requestCh s) (gen s) (fetchers s) (ctx_done s).
Definition with_str (s : sys) (x : stream H) : sys :=
  MkSys x (retry s) (requestCh s) (gen s) (fetchers s) (ctx_done s).
Definition with_fetcher (s : sys) (t : nat) (f : fetch_pc) : sys :=
  MkSys (str s) (retry s) (requestCh s) (gen s) (<[t := f]> (fetchers s)) (ctx_done s).
Definition cancel (s : sys) : sys :=
  MkSys (str s) (retry s) (requestCh s) (gen s) (fetchers s) true.

(** A goroutine of the group that returns an error cancels the context. *)
Definition gen_returns (s : sys) (e : option err) : sys :=
  let s := with_gen s (GDone e) in match e with Some _ => cancel s | None => s end.
Definition fetcher_returns (s : sys) (t : nat) (errs : list err) : sys :=
  let s := with_fetcher s t (FDone errs) in match errs with [] => s | _ => cancel s end.

(** The generator's next step, outside of a select. *)
Definition gen_step (s : sys) : option (res sys) :=
  match gen s with
  | GPrime n =>
      Some (let! (n, br) := NextClear (ranges (outstanding (str s))) n in
            match br with
            | Some br => Ok (with_gen s (GSend n br))
            | None => Ok (if wait then with_gen s GSelect else gen_returns s None)
            end)
  | GSend n br =>
      if (length (requestCh s) <? concurrency)%nat
      then Some (Ok (with_gen (with_requests s (requestCh s ++ [MkRequest br])) (GPrime n))) else None
  | GSelect =>
      Some (let! (c1, o, w) := Notify (outstanding (str s)) (world (str s)) in
            Ok (with_gen (with_str s (with_outstanding (str s) o w)) (GNotified c1)))
  | GNotified c1 =>
      Some (let! (c2, rt) := notify (retry s) in Ok (with_gen (with_retry s rt) (GWait c1 c2)))
  | GReissue n =>
      Some (let! (n, br, rt) := nextSetAndClear (retry s) n in
            match br with
            | Some br => Ok (with_gen (with_retry s rt) (GResend n br))
            | None => Ok (with_gen (with_retry s rt) GSelect)
            end)
  | GResend n br =>
      if (length (requestCh s) <? concurrency)%nat
      then Some (Ok (with_gen (with_requests s (requestCh s ++ [MkRequest br])) (GReissue n))) else None
  | GWait _ _ | GDone _ => None
  end.

Definition gen_outstanding (s : sys) : option (res sys) :=
  match gen s with
  | GWait c1 _ =>
      if decide (c1 ∈ Bitmap.closed (world (str s))) then
        Some (let! tail := Tail (outstanding (str s)) in
              match tail with
              | Some r => Ok (if int64 (To r + 1) =? size then gen_returns s None else with_gen s GSelect)
              | None => Ok (with_gen s GSelect)
              end)
      else None
  | _ => None
  end.

Definition gen_retry (s : sys) : option (res sys) :=
  match gen s with
  | GWait _ c2 =>
      if decide (c2 ∈ Bitmap.closed (rt_world (retry s))) then
        Some (let! br := checked (rt_ranges (retry s)) in
              let! idx := Block br (Z.max (From (tracking (str s))) 0) in
              Ok (with_gen s (GReissue idx)))
      else None
  | _ => None
  end.

Definition gen_done (s : sys) : option (res sys) :=
  if ctx_done s then
    match gen s with
    | GSend _ _ | GWait _ _ => Some (Ok (gen_returns s (Some ErrContext)))
    | GResend _ _ => Some (Ok (with_gen s GSelect))
    | _ => None
    end
  else None.

Definition recv (s : sys) (t : nat) : option (res sys) :=
  match fetchers s !! t with
  | Some (FIdle errs) =>
      match requestCh s with
      | r :: l => Some (Ok (with_fetcher (with_requests s l) t (FGot r errs)))
      | [] =>
          match gen s with
          | GDone _ => Some (Ok (fetcher_returns s t errs))
          | _ => None
          end
      end
  | _ => None
  end.

(** What [fetcher] and [retryError] do with the error of a request. *)
Definition fetch_error (s : sys) (t : nat) (req : request) (errs : list err) (e : err) : res sys :=
  if (match e with ErrContext => true | _ => IsInternal e end) then Ok (fetcher_returns s t [e])
  else if negb wait then Ok (with_fetcher s t (FIdle (errs ++ [e])))
  else let! rt := set (retry s) (From (req_range req)) in
       Ok (with_fetcher (with_retry s rt) t (FIdle errs)).

Definition fetch (s : sys) (t : nat) (f : fetched) : option (res sys) :=
  match fetchers s !! t with
  | Some (FGot req errs) =>
      Some (let! (x, e) := handleGet progress with_progress (handleResponse hash_write) req f (str s) in
            match e with
            | None => Ok (with_fetcher (with_str s x) t (FIdle errs))
            | Some e => fetch_error (with_str s x) t req errs e
            end)
  | _ => None
  end.

Definition step (s : sys) (a : action) : option (res sys) :=
  match a with
  | AGen => gen_step s
  | AGenOutstanding => gen_outstanding s
  | AGenRetry => gen_retry s
  | AGenDone => gen_done s
  | ARecv t => recv s t
  | AFetched t f => fetch s t f
  | AFetcherDone t =>
      if ctx_done s then
        match fetchers s !! t with
        | Some (FIdle _) => Some (Ok (fetcher_returns s t [ErrContext]))
        | _ => None
        end
      else None
  | ACancel => Some (Ok (cancel s))
  end.

Fixpoint run (s : sys) (l : list action) : option (res sys) :=
  match l with
  | [] => Some (Ok s)
  | a :: l =>
      match step s a with
      | Some (Ok s) => run s l
      | r => r
      end
  end.

(** [Run] starts the generator and the fetchers. *)
Definition start (blockSize : Z) (p : pipe) (h : option H) (ch : option (nat * list DownloadStats)) : res sys :=
  let! x := NewStream size blockSize p h ch in
  let blockSize := if blockSize <=? 0 then 4096 else blockSize in
  let! tr := if wait then let! br := NewByteRangesTracker size blockSize in Ok (Some br) else Ok None in
  Ok (MkSys x (MkRetry tr None false (Bitmap.Chans 0 ∅)) [] (GPrime 0) (replicate concurrency (FIdle [])) false).

(** [g.Wait] returns nil: every goroutine has returned without an error. *)
Definition succeeded (s : sys) : bool :=
  match gen s with
  | GDone None => forallb (fun f => match f with FDone [] => true | _ => false end) (fetchers s)
  | _ => false
  end.
End system.
Arguments sys : clear implicits.

(** ** A head of set blocks *)

Section tracked.
Context (cs bs : Z) (Hs : sizes_ok cs bs).

(** The state of a [ByteRanges] whose first [t] blocks are set and no other. *)
Definition tracked (t : Z) (br : ByteRanges) (w : Bitmap.chans) : Prop :=
  0 <= t <= nblocks cs bs /\
  exists b c, br = MkBR (MkByteRanges cs (nblocks cs bs) bs b) (Some c) /\
    ranges_ok (MkByteRanges cs (nblocks cs bs) bs b) /\
    Bitmap.contig_ok b c /\ Bitmap.chan_ok c w /\ Bitmap.start c = 0 /\
    Bitmap.last c = nblocks cs bs - 1 /\ Bitmap.firstClear c = t /\
    forall j, Bitmap.bit b j = true <-> 0 <= j < t.

(** The end of the first [t] blocks. *)
Definition end_of (t : Z) : Z := Z.min (t * bs) cs.

Lemma end_of_bounds t : 0 <= t <= nblocks cs bs -> 0 <= end_of t <= cs /\ (t < nblocks cs bs -> end_of t = t * bs /\ t * bs < cs).
Proof.
  intros Ht. pose proof Hs as (Hc & Hb & _). pose proof (nblocks_bounds cs bs Hs) as [_ Hn].
  unfold end_of. split; [nia|]. intros. assert (t * bs < cs) by nia. lia.
Qed.

Lemma end_of_next t : 0 <= t < nblocks cs bs -> end_of (t + 1) = To (range_of cs bs t) + 1.
Proof. intros Ht. unfold end_of. cbn. lia. Qed.

Lemma end_of_total : end_of (nblocks cs bs) = cs.
Proof. pose proof (nblocks_bounds cs bs Hs) as [_ Hn]. unfold end_of. lia. Qed.

Lemma end_of_0 : end_of 0 = 0.
Proof. pose proof Hs as (Hc & _). unfold end_of. lia. Qed.

Lemma end_of_int64 t : 0 <= t <= nblocks cs bs -> int64_ok (end_of t) /\ int64 (end_of t - 1 + 1) = end_of t.
Proof.
  intros Ht. destruct (end_of_bounds t Ht) as [? _]. pose proof Hs as (? & ? & ?).
  assert (int64_ok (end_of t)) by (unfold int64_ok; lia). split; [done|].
  replace (end_of t - 1 + 1) with (end_of t) by lia. by apply int64_id.
Qed.

Lemma new_tracked : exists br, NewByteRanges cs bs = Ok br /\ tracked 0 br (Bitmap.Chans 0 ∅).
Proof.
  destruct (brruns_spec cs bs Hs) as (br0 & E & Hh).
  destruct (newByteRanges_spec cs bs Hs) as [En Hok]. pose proof Hok as (_ & _ & Hb & Hl). cbn in Hb, Hl.
  pose proof (nblocks_bounds cs bs Hs) as [Hpos _].
  destruct (Bitmap.cstate_init (Bitmap.New (nblocks cs bs)) 0 (nblocks cs bs) Hb) as (c0 & Ec & Hc0 & Es0 & El0); [lia..|].
  destruct (Bitmap.New_spec (nblocks cs bs)) as (_ & Hz & _).
  eexists. split.
  { unfold NewByteRanges, Bitmap.NewContiguousWithBitmap. rewrite En. cbn [rbind bitmap bitmapSize].
    rewrite (proj2 (Z.ltb_ge _ _)), Ec by lia. done. }
  split; [lia|]. eexists _, _. split; [done|]. destruct Hc0 as [Hc0 Hw]. split_and!; try done.
  - pose proof Hc0 as (_ & Hr & _ & _ & Hset & _). rewrite Es0 in *.
    destruct (decide (Bitmap.firstClear c0 = 0)); [done|]. specialize (Hset 0 ltac:(lia)). by rewrite Hz in Hset.
  - intros j. rewrite Hz. split; [done|lia].
Qed.

Lemma Tail_tracked t br w : tracked t br w ->
  Tail br = Ok (if t =? 0 then None else Some (MkByteRange 0 (end_of t - 1))).
Proof.
  intros (Ht & b & c & -> & _ & Hc & _ & Es & El & Ef & _). unfold Tail. cbn [contiguous checked rbind ranges].
  pose proof Hs as (Hcs & Hb & Hsum). pose proof (nblocks_bounds cs bs Hs) as [Hpos Hn].
  unfold Bitmap.Tail. rewrite Ef, Es. cbn [contentSize blockSize].
  destruct (Z.leb_spec t 0), (Z.eqb_spec t 0); try lia; [done|].
  rewrite (proj2 (Z.ltb_ge (t - 1) 0)) by lia. replace (t - 1 + 1) with t by lia.
  destruct (end_of_bounds t Ht) as [? _]. unfold end_of in *.
  rewrite (int64_id t), (int64_id (t * bs)), int64_id by (unfold int64_ok; nia). done.
Qed.

(** Setting the next block extends the head by one. *)
Lemma Set_tracked t br w : tracked t br w -> t < nblocks cs bs ->
  exists br' w', Set_ br w (end_of t) = Ok (br', w') /\ tracked (t + 1) br' w'.
Proof.
  intros (Ht & b & c & -> & Hok & Hc & Hw & Es & El & Ef & Hbit) Hlt.
  pose proof Hs as (Hcs & Hb & Hsum). destruct (end_of_bounds t Ht) as [_ He]. destruct (He Hlt) as [-> Hin].
  destruct (Block_inside _ (t * bs) Hok) as (Hblk & Hrange & _); [cbn; nia|]. cbn [contentSize blockSize] in Hblk.
  rewrite Z.div_mul in Hblk by lia. unfold Set_. cbn [ranges contiguous]. rewrite Hblk. cbn [rbind].
  rewrite (proj2 (Z.leb_le 0 t)) by lia. cbn [checked rbind bitmap].
  destruct (Bitmap.Contiguous_Set_step b c w t Hc Hw) as (b' & c' & w' & E & Heff). rewrite E. cbn [rbind].
  destruct Heff as [Hc' Hw' Hlen [El' [Es' Hf']] Hbits _ _].
  eexists _, w'. split; [done|]. split; [lia|]. exists b', c'.
  assert (Hbit' : forall j, Bitmap.bit b' j = true <-> 0 <= j < t + 1).
  { intros j. rewrite Hbits, El. destruct (decide _); [split; [lia|done]|]. rewrite Hbit. lia. }
  split_and!; try done; try lia.
  - destruct Hok as (? & ? & _ & Hl). split_and!; try done; [apply Hc'|cbn in *; lia].
  - pose proof Hc' as (_ & Hr & Hle & _ & Hset & Hcl). rewrite Es', Es, El', El in *.
    destruct (Z.lt_trichotomy (Bitmap.firstClear c') (t + 1)) as [Hl|[?|Hl]]; [|done|].
    + specialize (Hcl ltac:(lia)). apply not_true_iff_false in Hcl. rewrite Hbit' in Hcl. lia.
    + specialize (Hset (t + 1) ltac:(lia)). apply Hbit' in Hset. lia.
Qed.

Lemma NextClear_tracked t br w n : tracked t br w -> t <= n <= nblocks cs bs ->
  NextClear (ranges br) n = Ok (if n <? nblocks cs bs then (n + 1, Some (range_of cs bs n)) else (-1, None)).
Proof.
  intros (Ht & b & c & -> & Hok & Hc & _ & Es & El & Ef & Hbit) Hn. unfold NextClear. cbn [ranges bitmap bitmapSize].
  destruct (Bitmap.NextClear_spec b n (nblocks cs bs) ltac:(lia)) as (i & -> & Hi). cbn [rbind].
  rewrite (next_range_spec (MkByteRanges cs (nblocks cs bs) bs b) false n i Hok) by (done || lia).
  destruct Hok as (_ & _ & _ & Hl). cbn in Hl. unfold Bitmap.next_spec, Bitmap.limit in Hi. rewrite Z.min_r in Hi by lia.
  assert (Hclear : forall j, n <= j -> Bitmap.bit b j = false).
  { intros j Hj. apply not_true_iff_false. rewrite Hbit. lia. }
  destruct (Z.ltb_spec n (nblocks cs bs)).
  - destruct Hi as [[-> Hall]|(Hi & _ & Hall)].
    + specialize (Hall n ltac:(lia)). by rewrite Hclear in Hall by lia.
    + assert (i = n) as ->.
      { destruct (decide (i = n)); [done|]. specialize (Hall n ltac:(lia)). by rewrite Hclear in Hall by lia. }
      rewrite (proj2 (Z.ltb_ge n 0)) by lia. done.
  - destruct Hi as [[-> _]|(Hi & _)]; [done|lia].
Qed.

Lemma Notify_tracked t br w : tracked t br w ->
  exists id br' w', Notify br w = Ok (id, br', w') /\ tracked t br' w' /\ ranges br' = ranges br /\
    (id ∈ Bitmap.closed w' <-> t = nblocks cs bs).
Proof.
  intros (Ht & b & c & -> & Hok & Hc & Hw & Es & El & Ef & Hbit). unfold Notify. cbn [contiguous checked rbind].
  destruct (Bitmap.Notify_step b c w Hc Hw) as (id & c' & w' & E & Hc' & Hw' & Hid & Hcl & _).
  rewrite E. cbn [rbind]. eexists id, _, w'. split; [done|].
  assert (Bitmap.start c' = 0 /\ Bitmap.last c' = nblocks cs bs - 1 /\ Bitmap.firstClear c' = t) as (? & ? & ?).
  { unfold Bitmap.Notify in E. destruct (Bitmap.ch c); [by simplify_eq|]. cbn in E.
    destruct (_ <? _); [|by simplify_eq]. res_inv. by simplify_eq. }
  split; [split; [done|]; exists b, c'; by split_and!|]. split; [done|]. rewrite Hcl, El, Ef. lia.
Qed.
End tracked.

(** ** What the stream holds *)

#[export] Instance Less_weak : Heap.StrictWeak Less := Heap.on_weak (fun r => From (range r)) Z.ltb Heap.Z_ltb_weak.

Section correct.
Context (cs bs : Z) (Hs : sizes_ok cs bs).
Context (content : list byte) (Hcontent : len content = cs).
(** The hash: writing to it never fails, and adds to the running hash. *)
Context {H : Type} (hash_write : H -> list byte -> option H) (absorb : H -> list byte -> H).
Context (Hwrite : forall h b, hash_write h b = Some (absorb h b)).
Context (Hnil : forall h, absorb h [] = h) (Happ : forall h a b, absorb h (a ++ b) = absorb (absorb h a) b).

Local Abbreviation nb := (nblocks cs bs).
Local Abbreviation endb := (end_of cs bs).

Definition prefix (t : Z) : list byte := take (Z.to_nat (endb t)) content.
Definition block (j : Z) : list byte := take (Z.to_nat (endb (j + 1) - endb j)) (drop (Z.to_nat (endb j)) content).

Definition block_of (r : response) : Z := From (range r) / bs.

(** A response with the bytes of its block. *)
Definition honest (r : response) : Prop :=
  0 <= block_of r < nb /\ range r = range_of cs bs (block_of r) /\ data r = block (block_of r).

Definition tracking_of (t : Z) : ByteRange := if t =? 0 then MkByteRange (-1) (-1) else range_of cs bs (t - 1).

(** After [t] blocks in order. *)
Record core_ok (h0 : option H) (t : Z) (s : stream H) : Prop := {
  co_tracked : tracked cs bs t (outstanding s) (world s);
  co_tracking : tracking s = tracking_of t;
  co_pipe : pipeWr s = MkPipe (prefix t) None;
  co_hash : hash s = (fun h => absorb h (prefix t)) <$> h0;
  co_bytes : CachedOrStreamedBytes (stats (progress s)) = endb t;
  co_blocks : CachedOrStreamedBlocks (stats (progress s)) = t;
}.

(** The heap holds distinct blocks from [lo] on. *)
Definition heap_ok (lo : Z) (h : list response) : Prop :=
  Heap.is_heap Less h /\ NoDup (block_of <$> h) /\ Forall (fun r => honest r /\ lo <= block_of r) h.

Definition heap_blocks (s : stream H) : list Z := block_of <$> heap s.

Lemma co_range h0 t s : core_ok h0 t s -> 0 <= t <= nb.
Proof. intros [[? _] _ _ _ _ _]. done. Qed.

Lemma prefix_next t : 0 <= t < nb -> prefix (t + 1) = prefix t ++ block t.
Proof.
  intros Ht. unfold prefix, block. rewrite take_take_drop. f_equal.
  destruct (end_of_bounds cs bs Hs t ltac:(lia)) as [? Hb]. destruct (Hb ltac:(lia)) as [? ?].
  rewrite (end_of_next cs bs t) in * by lia. cbn. unfold end_of in *. nia.
Qed.

Lemma len_block t : 0 <= t < nb -> len (block t) = endb (t + 1) - endb t /\ endb t < endb (t + 1).
Proof.
  intros Ht. destruct (end_of_bounds cs bs Hs t ltac:(lia)) as [? Hb]. destruct (Hb ltac:(lia)) as [E ?].
  destruct (end_of_bounds cs bs Hs (t + 1) ltac:(lia)) as [? _].
  assert (endb t < endb (t + 1)) by (rewrite E; unfold end_of; pose proof Hs as (? & ? & ?); nia).
  split; [|done]. unfold block, len in *. rewrite length_take, length_drop. lia.
Qed.

Lemma core_init p h0 ch br :
  NewByteRanges cs bs = Ok br -> p = MkPipe [] None ->
  exists s, NewStream cs bs p h0 ch = Ok s /\ core_ok h0 0 s /\ heap s = [] /\ outOfOrder s = 0 /\ maxHeapSize s = 0.
Proof.
  intros E ->. unfold NewStream, newDownloader. pose proof Hs as (_ & Hb & _). rewrite (proj2 (Z.leb_gt bs 0)) by lia.
  rewrite NumBlocks_spec by done. cbn [rbind]. rewrite E. cbn [rbind]. eexists. split; [done|].
  split; [|done]. destruct (new_tracked cs bs Hs) as (br' & E' & Ht). assert (br' = br) as -> by congruence.
  constructor; cbn; try done; rewrite ?(end_of_0 cs bs Hs); try done.
  - unfold prefix. by rewrite (end_of_0 cs bs Hs).
  - unfold prefix. rewrite (end_of_0 cs bs Hs). cbn. destruct h0; cbn; [by rewrite Hnil|done].
Qed.

Lemma tracking_next t : 0 <= t <= nb -> int64 (To (tracking_of t) + 1) = endb t.
Proof.
  intros Ht. unfold tracking_of. destruct (Z.eqb_spec t 0) as [->|]; [by rewrite (end_of_0 cs bs Hs)|].
  rewrite <- (proj2 (end_of_int64 cs bs Hs t Ht)). f_equal.
  replace t with (t - 1 + 1) at 2 by lia. rewrite end_of_next by lia. lia.
Qed.

Lemma write_hash_spec (s : stream H) b :
  write_hash hash_write s b = Some (with_hash s ((fun h => absorb h b) <$> hash s)).
Proof. unfold write_hash. destruct s as [? ? ? ? ? ? ? [h|] ?]; cbn; [by rewrite Hwrite|done]. Qed.

Lemma stats_incr pt a b : stats (incrementCacheOrStream pt a b) = add_streamed (stats pt) a b.
Proof. unfold incrementCacheOrStream, send. cbn. by destruct (progress_ch pt) as [[[] ?]|]. Qed.

(** Writing the next block. *)
Lemma write_spec h0 t s r : core_ok h0 t s -> honest r -> block_of r = t ->
  exists s', writeToPipeLocked hash_write r s = Ok (s', None) /\ core_ok h0 (t + 1) s' /\
    heap s' = heap s /\ outOfOrder s' = outOfOrder s /\ maxHeapSize s' = maxHeapSize s.
Proof.
  intros Hc (Hj & Er & Ed) Et. rewrite Et in *. pose proof Hc as [Htr Etk Ep Eh Eb En].
  destruct (end_of_bounds cs bs Hs t ltac:(lia)) as [Hend Hlt]. destruct (Hlt ltac:(lia)) as [Eend _].
  assert (Ef : From (range r) = endb t) by (rewrite Er, Eend; done).
  pose proof Hs as (_ & Hbs & _).
  unfold writeToPipeLocked. rewrite Etk, Ef, tracking_next by lia. rewrite Z.eqb_refl. cbn [negb].
  assert ((From (tracking_of t) =? -1) && negb (endb t =? 0) = false) as ->.
  { unfold tracking_of. destruct (Z.eqb_spec t 0) as [->|]; [by rewrite (end_of_0 cs bs Hs)|].
    cbn. rewrite (proj2 (Z.eqb_neq _ (-1))) by nia. done. }
  cbn [pipeWr with_tracking with_pipe]. rewrite Ep. unfold pipe_Write. cbn [room taken].
  rewrite Z.ltb_irrefl, write_hash_spec. cbn [hash outstanding world with_tracking with_pipe with_hash].
  destruct (Set_tracked cs bs Hs t (outstanding s) (world s) Htr ltac:(lia)) as (br' & w' & -> & Htr').
  cbn [rbind]. eexists. split; [done|]. split; [|done].
  destruct (len_block t ltac:(lia)) as [Hlen _]. destruct (end_of_int64 cs bs Hs (t + 1) ltac:(lia)) as [Hi _].
  assert (Hnb : nb <= cs) by (pose proof (nblocks_bounds cs bs Hs); nia).
  constructor; cbn; rewrite ?stats_incr; cbn; rewrite ?Ed, ?prefix_next by lia; try done.
  - unfold tracking_of. rewrite (proj2 (Z.eqb_neq (t + 1) 0)), Er by lia. f_equal. lia.
  - rewrite Eh. destruct h0; cbn; [by rewrite Happ|done].
  - rewrite Eb, Hlen. replace (endb t + _) with (endb (t + 1)) by lia. by apply int64_id.
  - rewrite En. apply int64_id. pose proof Hs as (? & ? & ?). unfold int64_ok. lia.
Qed.
Lemma core_heap h0 t s h : core_ok h0 t s -> core_ok h0 t (with_heap s h).
Proof. by intros []. Qed.

Lemma heap_ok_perm lo lo' h h' : Heap.is_heap Less h' -> h' ≡ₚ h -> heap_ok lo h ->
  Forall (fun r => lo' <= block_of r) h' -> heap_ok lo' h'.
Proof.
  intros Hh Hp (_ & Hnd & Hall) Hlo. split_and!; [done|by rewrite Hp|].
  rewrite <- Hp in Hall. apply Forall_and. split; [|done]. eapply Forall_impl; [exact Hall|]. by intros r [? _].
Qed.

Lemma push_spec h0 t lo s r : core_ok h0 t s -> heap_ok lo (heap s) -> honest r -> lo <= block_of r ->
  block_of r ∉ heap_blocks s ->
  exists s', pushLocked r s = Ok s' /\ core_ok h0 t s' /\ heap_ok lo (heap s') /\ heap s' ≡ₚ r :: heap s /\
    outOfOrder s' = int64 (outOfOrder s + 1) /\ maxHeapSize s' = Z.max (maxHeapSize s) (len (heap s')).
Proof.
  intros Hc (Hh & Hnd & Hall) Hr Hlo Hnin. destruct (Heap.Push_spec Less (heap s) r Hh) as (h' & E & Hp & Hh').
  unfold pushLocked. rewrite E. cbn [rbind]. eexists. split; [done|]. split_and!; [by destruct Hc| |exact Hp|done|done].
  split_and!; cbn; [exact Hh'|rewrite Hp; by constructor..].
Qed.

Lemma honest_from r : honest r -> From (range r) = block_of r * bs.
Proof. intros (_ & Er & _). by rewrite Er at 1. Qed.

Lemma honest_to r : honest r -> int64 (To (range r) + 1) = endb (block_of r + 1).
Proof.
  intros (Hj & -> & _). rewrite <- (proj2 (end_of_int64 cs bs Hs (block_of r + 1) ltac:(lia))). f_equal.
  rewrite end_of_next by lia. lia.
Qed.

(** The early responses that have become due are written, in order. *)
Lemma drain_spec h0 fuel : forall t s, (length (heap s) < fuel)%nat -> core_ok h0 t s -> heap_ok t (heap s) ->
  exists s' t', drain_loop hash_write fuel (endb t) s = Ok (s', None) /\ t <= t' /\ core_ok h0 t' s' /\
    heap_ok (t' + 1) (heap s') /\ heap_blocks s' ++ seqZ t (t' - t) ≡ₚ heap_blocks s.
Proof.
  induction fuel as [|fuel IH]; intros t s Hf Hc Hh; [lia|]. cbn [drain_loop].
  destruct (heap s) as [|x l] eqn:Eh.
  - cbn. exists s, t. rewrite Z.sub_diag. unfold heap_blocks. rewrite Eh.
    destruct Hh as (Hh & _ & _). split_and!; try done.
    split; [exact Hh|by split; constructor].
  - rewrite len_cons. rewrite (proj2 (Z.ltb_lt 0 _)) by (pose proof (len_nonneg l); lia).
    pose proof Hh as (Hheap & Hnd & Hall).
    destruct (Heap.Pop_spec Less (x :: l) x Hheap eq_refl) as (h' & E & Hp & Hh' & Hmin). rewrite E. cbn [rbind].
    pose proof (Forall_inv Hall) as [Hx Hxt]. pose proof Hx as (Hxr & _).
    destruct (end_of_bounds cs bs Hs t (co_range _ _ _ Hc)) as [_ He]. destruct (He ltac:(lia)) as [Ee _].
    rewrite (honest_from x Hx), Ee. pose proof Hs as (_ & Hbs & _).
    assert (Hrest : heap_ok t h').
    { apply (Permutation_cons_inv (l := h') (l' := l)) in Hp as Hpl. inversion Hnd; subst.
      split_and!; [done|by rewrite Hpl|]. rewrite Hpl. by apply Forall_inv_tail in Hall. }
    assert (Hx' : block_of x ∉ block_of <$> h').
    { rewrite <- Hp in Hnd. by inversion Hnd. }
    assert (Hbl : block_of x :: (block_of <$> h') ≡ₚ heap_blocks s).
    { unfold heap_blocks. rewrite Eh, <- Hp. done. }
    destruct (Z.eqb_spec (t * bs) (block_of x * bs)) as [Eq|Hne].
    + assert (Et : block_of x = t) by nia.
      destruct (write_spec h0 t (with_heap s h') x (core_heap _ _ _ _ Hc) Hx Et) as (s1 & -> & Hc1 & Eh1 & _). cbn [rbind].
      cbn [heap with_heap] in Eh1. rewrite honest_to, Et by done.
      destruct (IH (t + 1) s1) as (s' & t' & -> & Hle & Hc' & Hh1 & Hp1); [|done| |].
      * rewrite Eh1. apply Permutation_length in Hp. cbn in *. lia.
      * rewrite Eh1. destruct Hrest as (? & ? & Hall'). split_and!; try done.
        apply Forall_forall. intros y Hy. rewrite Forall_forall in Hall'. destruct (Hall' y Hy) as [? ?].
        split; [done|]. enough (block_of y <> t) by lia. intros Ey. apply Hx'. rewrite Et, <- Ey. apply list_elem_of_fmap. eauto.
      * exists s', t'. split_and!; try done; [lia|]. rewrite <- Hbl, Et.
        replace (t' - t) with (Z.succ (t' - (t + 1))) by lia. rewrite seqZ_cons by lia.
        replace (Z.succ t) with (t + 1) by lia. replace (Z.pred (Z.succ (t' - (t + 1)))) with (t' - (t + 1)) by lia.
        rewrite <- Permutation_middle. apply Permutation_cons; [done|].
        unfold heap_blocks in Hp1 at 2. rewrite Eh1 in Hp1. exact Hp1.
    + assert (Hgt : t + 1 <= block_of x) by nia.
      assert (Hrest' : heap_ok (t + 1) h').
      { destruct Hrest as (? & ? & Hall'). split_and!; try done. apply Forall_forall. intros y Hy.
        rewrite Forall_forall in Hall'. destruct (Hall' y Hy) as [Hy1 Hy2]. split; [done|].
        specialize (Hmin y Hy). unfold Less in Hmin. bool_to_prop. rewrite !honest_from in Hmin by done. nia. }
      destruct (push_spec h0 t (t + 1) (with_heap s h') x (core_heap _ _ _ _ Hc) Hrest' Hx Hgt Hx') as (s' & -> & Hc' & Hh1 & Hp1 & _).
      cbn [rbind]. exists s', t. split_and!; try done. rewrite Z.sub_diag. cbn. rewrite app_nil_r, <- Hbl.
      unfold heap_blocks. by rewrite Hp1.
Qed.

(** One response, for a block that has not been seen. *)
Definition stream_ok (h0 : option H) (t : Z) (s : stream H) : Prop := core_ok h0 t s /\ heap_ok (t + 1) (heap s).

Lemma handle_spec h0 t s r : stream_ok h0 t s -> honest r -> t <= block_of r -> block_of r ∉ heap_blocks s ->
  exists s' t', handleResponse hash_write r s = Ok (s', None) /\ t <= t' /\ stream_ok h0 t' s' /\
    heap_blocks s' ++ seqZ t (t' - t) ≡ₚ block_of r :: heap_blocks s.
Proof.
  intros [Hc Hh] Hr Hge Hnin. unfold handleResponse. pose proof Hr as (Hj & _).
  rewrite (Tail_tracked cs bs Hs t _ (world s)) by apply Hc. cbn [rbind].
  assert (int64 (match (if t =? 0 then None else Some (MkByteRange 0 (endb t - 1))) with Some r => To r | None => -1 end + 1) = endb t) as ->.
  { destruct (Z.eqb_spec t 0) as [->|]; [by rewrite (end_of_0 cs bs Hs)|]. cbn.
    apply (end_of_int64 cs bs Hs). by apply (co_range h0 t s). }
  destruct (end_of_bounds cs bs Hs t (co_range _ _ _ Hc)) as [_ He]. destruct (He ltac:(lia)) as [Ee _].
  rewrite honest_from, Ee by done. pose proof Hs as (_ & Hbs & _).
  destruct (Z.eqb_spec (block_of r * bs) (t * bs)) as [Eq|Hne]; cbn [negb].
  - assert (Et : block_of r = t) by nia.
    destruct (write_spec h0 t s r Hc Hr Et) as (s1 & -> & Hc1 & Eh1 & _). cbn [rbind].
    rewrite honest_to, Et by done. unfold drainCacheLocked.
    destruct (drain_spec h0 (S (length (heap s1))) (t + 1) s1) as (s' & t' & -> & Hle & Hc' & Hh' & Hp); [lia|done|by rewrite Eh1|].
    exists s', t'. split_and!; try done; [lia|].
    replace (t' - t) with (Z.succ (t' - (t + 1))) by lia. rewrite seqZ_cons by lia.
    replace (Z.succ t) with (t + 1) by lia. replace (Z.pred (Z.succ (t' - (t + 1)))) with (t' - (t + 1)) by lia.
    rewrite <- Permutation_middle. apply Permutation_cons; [done|].
    unfold heap_blocks in Hp at 2. rewrite Eh1 in Hp. exact Hp.
  - destruct (push_spec h0 t (t + 1) s r Hc Hh Hr ltac:(nia) Hnin) as (s' & -> & Hc' & Hh' & Hp & _).
    cbn [rbind]. exists s', t. split_and!; try done. rewrite Z.sub_diag. cbn. rewrite app_nil_r.
    unfold heap_blocks. by rewrite Hp.
Qed.
Lemma handle_all_spec h0 rs : forall t s, stream_ok h0 t s -> Forall honest rs -> NoDup (block_of <$> rs) ->
  (forall j, j ∈ block_of <$> rs -> t <= j /\ j ∉ heap_blocks s) ->
  exists s' t', handle_all hash_write rs s = Ok (s', None) /\ t <= t' /\ stream_ok h0 t' s' /\
    heap_blocks s' ++ seqZ t (t' - t) ≡ₚ (block_of <$> rs) ++ heap_blocks s.
Proof.
  induction rs as [|r rs IH]; intros t s Hst Hall Hnd Hnew; cbn [handle_all].
  - exists s, t. rewrite Z.sub_diag. cbn. rewrite app_nil_r. by split_and!.
  - apply Forall_cons in Hall as [Hr Hall]. rewrite fmap_cons in Hnd, Hnew |- *. apply NoDup_cons in Hnd as [Hnin Hnd].
    destruct (Hnew (block_of r)) as [Hge Hnh]; [by left|].
    destruct (handle_spec h0 t s r Hst Hr Hge Hnh) as (s1 & t1 & -> & Hle & Hst1 & Hp1). cbn [rbind].
    destruct (IH t1 s1) as (s' & t' & -> & Hle' & Hst' & Hp'); try done.
    { intros j Hj. destruct (Hnew j) as [Hj1 Hj2]; [by right|].
      assert (j ∉ heap_blocks s1 ++ seqZ t (t1 - t)) as Hn.
      { rewrite Hp1. intros [->|?]%elem_of_cons; done. }
      apply not_elem_of_app in Hn as [? Hn]. split; [|done]. rewrite elem_of_seqZ in Hn. lia. }
    exists s', t'. split_and!; try done; [lia|].
    replace (t' - t) with ((t1 - t) + (t' - t1)) by lia. rewrite seqZ_app by lia.
    replace (t + (t1 - t)) with t1 by lia.
    rewrite (Permutation_app_comm (seqZ t _)), app_assoc, Hp'. cbn [app].
    rewrite <- app_assoc, Hp1. by rewrite <- Permutation_middle.
Qed.

(** Nothing is missing when every block has been seen. *)
Lemma prefix_all : prefix nb = content.
Proof.
  unfold prefix. rewrite (end_of_total cs bs Hs). apply take_ge. unfold len in Hcontent. lia.
Qed.
End correct.

(** ** The retry tracker *)

Section retries.
Context (cs bs : Z) (Hs : sizes_ok cs bs) (wait : bool).

Local Abbreviation nb := (nblocks cs bs).

Record retry_ok (rt : retryTracker) : Prop := {
  ro_ranges : match rt_ranges rt with
              | Some br => wait = true /\ ranges_ok br /\ contentSize br = cs /\ blockSize br = bs
              | None => wait = false
              end;
  ro_closed : forall c, c ∈ Bitmap.closed (rt_world rt) -> (c < Bitmap.next_chan (rt_world rt))%nat;
  ro_ch : forall c, rt_ch rt = Some c ->
            (c ∉ Bitmap.closed (rt_world rt)) /\ (c < Bitmap.next_chan (rt_world rt))%nat;
}.

(** The blocks to be requested again. *)
Definition retry_blocks (rt : retryTracker) : list Z :=
  match rt_ranges rt with
  | Some br => filter (fun j => Bitmap.bit (bitmap br) j = true) (seqZ 0 nb)
  | None => []
  end.

Lemma bit_filter_flip (b b' : Bitmap.T) (i : Z) : 0 <= i < nb -> Bitmap.bit b i = false -> Bitmap.bit b' i = true ->
  (forall j, j <> i -> Bitmap.bit b' j = Bitmap.bit b j) ->
  filter (fun j => Bitmap.bit b' j = true) (seqZ 0 nb) ≡ₚ i :: filter (fun j => Bitmap.bit b j = true) (seqZ 0 nb).
Proof.
  intros Hi Hb Hb' Hj. apply NoDup_Permutation.
  - apply NoDup_filter, NoDup_seqZ.
  - constructor; [|apply NoDup_filter, NoDup_seqZ]. rewrite list_elem_of_filter, Hb. naive_solver.
  - intros j. rewrite elem_of_cons, !list_elem_of_filter, elem_of_seqZ. destruct (decide (j = i)) as [->|Hne].
    + rewrite Hb'. split; [by left|]. intros _. split; [done|lia].
    + rewrite Hj by done. naive_solver.
Qed.

Lemma retry_shape rt br : retry_ok rt -> rt_ranges rt = Some br ->
  ranges_ok br /\ contentSize br = cs /\ blockSize br = bs /\ bitmapSize br = nb.
Proof.
  intros [Hr _ _] E. rewrite E in Hr. destruct Hr as (_ & Hok & <- & <-). pose proof Hok as (_ & -> & _). done.
Qed.

(** The block of the start of a block. *)
Lemma Block_start br j : ranges_ok br -> contentSize br = cs -> blockSize br = bs -> 0 <= j < nb ->
  Block br (j * bs) = Ok j /\ Bitmap.in_range (bitmap br) j.
Proof.
  intros Hok Ec Eb Hj. pose proof Hs as (Hcs & Hbs & _). destruct (end_of_bounds cs bs Hs j ltac:(lia)) as [_ He].
  destruct (He ltac:(lia)) as [_ ?]. destruct (Block_inside br (j * bs) Hok) as (E & _ & Hr); [rewrite Ec; nia|].
  rewrite Eb, Z.div_mul in * by lia. done.
Qed.

Lemma kick_spec rt : retry_ok rt ->
  exists rt', kickLocked rt = Ok rt' /\ retry_ok rt' /\ rt_ranges rt' = rt_ranges rt.
Proof.
  intros Hok. pose proof Hok as [Hr Hcl Hch]. unfold kickLocked. destruct (rt_ch rt) as [c|] eqn:Ec; [|by exists rt].
  destruct (Hch c eq_refl) as [Hn Hlt]. unfold Bitmap.close_chan. rewrite decide_False by done. cbn [rbind].
  eexists. split; [done|]. split; [|done]. split; cbn; [done| |done].
  intros c'. rewrite elem_of_union, elem_of_singleton. intros [->|?]; auto.
Qed.

Lemma set_spec rt j : retry_ok rt -> wait = true -> 0 <= j < nb -> j ∉ retry_blocks rt ->
  exists rt', set rt (j * bs) = Ok rt' /\ retry_ok rt' /\ retry_blocks rt' ≡ₚ j :: retry_blocks rt.
Proof.
  intros Hok Hw Hj Hn. unfold set. destruct (rt_ranges rt) as [br|] eqn:Er; [|destruct Hok as [Hr _ _]; rewrite Er in Hr; congruence].
  destruct (retry_shape rt br Hok Er) as (Hbr & Ec & Eb & En). cbn [checked rbind]. unfold byteRanges_Set.
  destruct (Block_start br j Hbr Ec Eb Hj) as [-> Hin]. cbn [rbind]. rewrite (proj2 (Z.leb_le 0 j)) by lia.
  pose proof Hbr as (Hsz & Hnb & Hb & Hl).
  destruct (Bitmap.SetUnsafe_spec (bitmap br) j Hb Hin) as (b' & -> & Hb' & Hlen & Hbit). cbn [rbind].
  set (br' := with_bitmap br b'). destruct Hok as [Hr Hcl Hch].
  assert (Hok' : retry_ok (MkRetry (Some br') (rt_ch rt) true (rt_world rt))).
  { split; cbn; [|done|done]. rewrite Er in Hr. destruct Hr as (_ & _ & ? & ?).
    split_and!; try done. unfold ranges_ok. cbn. rewrite Hlen. by split_and!. }
  destruct (kick_spec _ Hok') as (rt' & -> & Hok'' & E'). exists rt'. split_and!; try done.
  unfold retry_blocks in *. rewrite E', Er in *. cbn [br' with_bitmap bitmap rt_ranges]. apply bit_filter_flip; try done.
  - apply not_true_iff_false. intros Hb1. apply Hn. rewrite list_elem_of_filter, elem_of_seqZ. split; [done|lia].
  - by rewrite Hbit, Z.eqb_refl.
  - intros k Hk. by rewrite Hbit, (proj2 (Z.eqb_neq k j)).
Qed.

Lemma next_clear_spec rt start : retry_ok rt -> wait = true -> 0 <= start ->
  nextSetAndClear rt start = Ok (-1, None, rt) \/
  exists j rt', nextSetAndClear rt start = Ok (j + 1, Some (range_of cs bs j), rt') /\ retry_ok rt' /\
    start <= j < nb /\ retry_blocks rt ≡ₚ j :: retry_blocks rt'.
Proof.
  intros Hok Hw Hst. unfold nextSetAndClear. destruct (rt_ranges rt) as [br|] eqn:Er; [|destruct Hok as [Hr _ _]; rewrite Er in Hr; congruence].
  destruct (retry_shape rt br Hok Er) as (Hbr & Ec & Eb & En). cbn [checked rbind]. unfold NextSet.
  destruct (Bitmap.NextSet_spec (bitmap br) start (bitmapSize br) Hst) as (i & -> & Hi). cbn [rbind].
  rewrite (next_range_spec br true start i Hbr Hst Hi). pose proof Hbr as (Hsz & Hnb & Hb & Hl).
  destruct Hi as [[-> _]|(Hi & Hbi & _)]; [by left|right]. unfold Bitmap.limit in Hi.
  rewrite (proj2 (Z.ltb_ge i 0)), Ec, Eb by lia. unfold byteRanges_clear. cbn [From range_of].
  destruct (Block_start br i Hbr Ec Eb ltac:(lia)) as [-> Hin]. cbn [rbind]. rewrite (proj2 (Z.leb_le 0 i)) by lia.
  destruct (Bitmap.Clear_spec (bitmap br) i Hb) as (b' & -> & Hb' & Hlen & Hbit). cbn [rbind].
  eexists i, _. split; [done|]. destruct Hok as [Hr Hcl Hch]. split_and!; try lia.
  - split; cbn; [|done|done]. rewrite Er in Hr. destruct Hr as (_ & _ & ? & ?).
    split_and!; try done. unfold ranges_ok. cbn. rewrite Hlen. by split_and!.
  - unfold retry_blocks. rewrite Er. cbn [rt_ranges with_bitmap bitmap]. apply bit_filter_flip; try done; try lia.
    + rewrite Hbit, decide_True by done. done.
    + intros k Hk. rewrite Hbit, decide_False by naive_solver. done.
Qed.

Lemma notify_spec rt : retry_ok rt ->
  exists c rt', notify rt = Ok (c, rt') /\ retry_ok rt' /\ rt_ranges rt' = rt_ranges rt.
Proof.
  intros Hok. pose proof Hok as [Hr Hcl Hch]. unfold notify, Bitmap.make_chan. destruct (rt_pending rt).
  - unfold Bitmap.close_chan. cbn. rewrite decide_False by (intros ?%Hcl; lia). cbn [rbind].
    eexists _, _. split; [done|]. split; [|done]. split; cbn; [done| |].
    + intros c. rewrite elem_of_union, elem_of_singleton. intros [->|?%Hcl]; lia.
    + intros c Hc. destruct (Hch c Hc) as [Hn ?]. rewrite elem_of_union, elem_of_singleton. split; [|lia].
      intros [->|?]; [lia|done].
  - destruct (rt_ch rt) as [c|] eqn:Ec; [by exists c, rt|]. eexists _, _. split; [done|]. split; [|done].
    split; cbn; [done|intros c ?%Hcl; lia|]. intros c [= <-]. split; [|lia]. intros ?%Hcl. lia.
Qed.
End retries.

(** ** Where every block is *)

Section invariant.
Context (cs bs : Z) (Hs : sizes_ok cs bs).
Context (content : list byte) (Hcontent : len content = cs).
Context {H : Type} (hash_write : H -> list byte -> option H) (absorb : H -> list byte -> H).
Context (Hwrite : forall h b, hash_write h b = Some (absorb h b)).
Context (Hnil : forall h, absorb h [] = h) (Happ : forall h a b, absorb h (a ++ b) = absorb (absorb h a) b).
Context (h0 : option H) (concurrency : nat) (wait : bool).

Local Abbreviation nb := (nblocks cs bs).
Local Abbreviation ok := (stream_ok cs bs content absorb h0).

Definition start_block (br : ByteRange) : Z := From br / bs.
Definition range_ok (br : ByteRange) : Prop := exists j, 0 <= j < nb /\ br = range_of cs bs j.
Definition req_block (r : request) : Z := start_block (req_range r).

(** The blocks the generator has still to send. *)
Definition todo (g : gen_pc) : list Z :=
  match g with
  | GPrime n => seqZ n (nb - n)
  | GSend n br => start_block br :: seqZ n (nb - n)
  | GResend _ br => [start_block br]
  | _ => []
  end.

Definition holding (f : fetch_pc) : list Z := match f with FGot r _ => [req_block r] | _ => [] end.
Definition fetching (fs : list fetch_pc) : list Z := concat (holding <$> fs).
Definition errs_of (f : fetch_pc) : list err := match f with FIdle e | FGot _ e | FDone e => e end.

Definition gen_ok (t : Z) (g : gen_pc) : Prop :=
  match g with
  | GPrime n => 0 <= n <= nb
  | GSend n br => 0 < n <= nb /\ br = range_of cs bs (n - 1)
  | GReissue n => wait = true /\ 0 <= n
  | GResend n br => wait = true /\ 0 <= n /\ range_ok br
  | GDone None => wait = true -> t = nb
  | GDone (Some _) => True
  | _ => wait = true
  end.

(** A goroutine has failed, or will report an error. *)
Definition failing (s : sys H) : Prop :=
  (exists e, gen s = GDone (Some e)) \/ exists t f, fetchers s !! t = Some f /\ errs_of f <> [].

Definition blocks_of (s : sys H) : list Z :=
  todo (gen s) ++ (req_block <$> requestCh s) ++ fetching (fetchers s) ++
  retry_blocks cs bs (retry s) ++ heap_blocks bs (str s).

(** [t] blocks have been streamed; [lost] are those whose requests were dropped. *)
Record sys_ok (t : Z) (lost : list Z) (s : sys H) : Prop := {
  so_stream : ok t (str s);
  so_blocks : blocks_of s ++ seqZ 0 t ++ lost ≡ₚ seqZ 0 nb;
  so_retry : retry_ok cs bs wait (retry s);
  so_gen : gen_ok t (gen s);
  so_reqs : Forall (fun r => range_ok (req_range r)) (requestCh s);
  so_fetch : forall i r e, fetchers s !! i = Some (FGot r e) -> range_ok (req_range r);
  so_lost : lost = [] \/ failing s \/ wait = true;
  so_done : forall i, fetchers s !! i = Some (FDone []) -> requestCh s = [] /\ exists e, gen s = GDone e;
}.

Lemma start_block_range j : 0 <= j < nb -> start_block (range_of cs bs j) = j.
Proof. intros Hj. unfold start_block. cbn. pose proof Hs as (_ & ? & _). apply Z.div_mul. lia. Qed.

Lemma fetching_insert (fs : list fetch_pc) i f f' : fs !! i = Some f ->
  fetching (<[i := f']> fs) ++ holding f ≡ₚ fetching fs ++ holding f'.
Proof.
  unfold fetching. revert i. induction fs as [|x fs IH]; intros [|i] Hi; try discriminate.
  - injection Hi as ->. cbn. count_perm.
  - specialize (IH i Hi). change (<[S i := f']> (x :: fs)) with (x :: <[i := f']> fs).
    cbn [fmap list_fmap concat] in *. count_perm.
Qed.

Lemma failing_insert (fs : list fetch_pc) i f f' : fs !! i = Some f -> errs_of f = [] \/ errs_of f' <> [] ->
  (exists t g, fs !! t = Some g /\ errs_of g <> []) ->
  exists t g, <[i := f']> fs !! t = Some g /\ errs_of g <> [].
Proof.
  intros Hi Hor (t & g & Ht & Hg). pose proof (lookup_lt_Some _ _ _ Hi).
  destruct (decide (t = i)) as [->|Hne].
  - exists i, f'. rewrite list_lookup_insert_eq by done. split; [done|]. destruct Hor; [congruence|done].
  - exists t, g. by rewrite list_lookup_insert_ne.
Qed.

(** The blocks not yet requested have not been streamed. *)
Lemma prime_bound t lost s : sys_ok t lost s -> forall n, gen s = GPrime n -> t <= n.
Proof.
  intros [Hst Hb _ Hg _ _ _ _] n E. rewrite E in Hg. cbn in Hg. unfold blocks_of in Hb. rewrite E in Hb. cbn [todo] in Hb.
  destruct (Z.le_gt_cases t n) as [?|Hgt]; [done|]. exfalso.
  pose proof (co_range _ _ _ _ _ _ _ (proj1 Hst)).
  pose proof (NoDup_seqZ 0 nb) as Hnd. rewrite <- Hb in Hnd.
  rewrite <- (app_assoc (seqZ n _)) in Hnd. apply NoDup_app in Hnd as (_ & Hd & _).
  apply (Hd n); [rewrite elem_of_seqZ; lia|]. rewrite !elem_of_app, elem_of_seqZ. right; left. lia.
Qed.
Lemma no_done t lost s : sys_ok t lost s -> (forall e, gen s <> GDone e) -> forall i, fetchers s !! i <> Some (FDone []).
Proof. intros Hok Hg i Hi. destruct (so_done _ _ _ Hok i Hi) as (_ & e & He). by apply (Hg e). Qed.

(** A step of the generator: the fetchers are untouched, and the blocks it
    handles go from one place to another. *)
Lemma gen_frame t lost lost' s s' : sys_ok t lost s -> (forall e, gen s <> GDone e) ->
  fetchers s' = fetchers s -> ok t (str s') -> heap (str s') = heap (str s) ->
  retry_ok cs bs wait (retry s') -> gen_ok t (gen s') ->
  Forall (fun r => range_ok (req_range r)) (requestCh s') ->
  todo (gen s') ++ (req_block <$> requestCh s') ++ retry_blocks cs bs (retry s') ++ lost' ≡ₚ
    todo (gen s) ++ (req_block <$> requestCh s) ++ retry_blocks cs bs (retry s) ++ lost ->
  lost' = [] \/ failing s' \/ wait = true -> sys_ok t lost' s'.
Proof.
  intros Hok Hg Ef Hst Eh Hr Hg' Hreq Hp Hl. pose proof (no_done t lost s Hok Hg) as Hnd.
  destruct Hok as [_ Hb _ _ _ Hf _ _]. constructor; try done.
  - unfold blocks_of, heap_blocks in *. rewrite Ef, Eh. count_perm.
  - by rewrite Ef.
  - intros i Hi. rewrite Ef in Hi. by apply Hnd in Hi.
Qed.

Lemma lost_kept t lost s s' : sys_ok t lost s -> (forall e, gen s <> GDone e) -> fetchers s' = fetchers s ->
  lost = [] \/ failing s' \/ wait = true.
Proof.
  intros Hok Hg Ef. destruct (so_lost _ _ _ Hok) as [?|[[[e He]|Hf]|?]]; [auto|by apply Hg in He| |auto].
  right; left; right. by rewrite Ef.
Qed.

Lemma stream_still t s o w : ok t s -> tracked cs bs t o w -> ok t (with_outstanding s o w).
Proof. intros [[] ?] Ht. split; [|done]. by constructor. Qed.

(** Apply [gen_frame] to a step that loses no block. *)
Ltac frame_gen Eg :=
  eapply gen_frame; try done; try (by rewrite Eg); try (by eapply lost_kept; rewrite ?Eg); try (by apply stream_still);
  cbn; try (intros; congruence); try (intros; lia).

Lemma gen_step_ok t lost s r : sys_ok t lost s -> gen_step concurrency wait s = Some r ->
  exists s', r = Ok s' /\ sys_ok t lost s'.
Proof.
  intros Hok E. pose proof Hok as [Hst Hb Hr Hg Hreq _ _ _]. pose proof (proj1 Hst) as Hc. destruct Hc as [Htr _ _ _ _ _].
  unfold gen_step in E. destruct (gen s) as [n|n br| |c1|c1 c2|n|n br|e] eqn:Eg; try discriminate.
  - (* searching *)
    injection E as <-. pose proof (prime_bound t lost s Hok n Eg) as Hn. cbn in Hg.
    rewrite (NextClear_tracked cs bs t _ (world (str s))) by (done || lia). cbn [rbind].
    destruct (Z.ltb_spec n nb) as [Hlt|Hge].
    + eexists. split; [done|]. frame_gen Eg.
      * cbn. split; [lia|]. f_equal. lia.
      * cbn. rewrite Eg. cbn [todo]. rewrite start_block_range by lia.
        replace (nb - n) with (Z.succ (nb - (n + 1))) by lia. rewrite (seqZ_cons n) by lia.
        replace (Z.succ n) with (n + 1) by lia. replace (Z.pred (Z.succ (nb - (n + 1)))) with (nb - (n + 1)) by lia. done.
    + assert (n = nb) as -> by lia.
      destruct (Sumbool.sumbool_of_bool wait) as [Ew|Ew]; rewrite Ew; eexists; (split; [done|]);
        frame_gen Eg; rewrite Eg; cbn [todo]; by rewrite Z.sub_diag.
  - (* sending *)
    destruct (_ <? _)%nat; [|done]. injection E as <-. destruct Hg as [Hn ->]. eexists. split; [done|].
    frame_gen Eg.
    + cbn. apply Forall_app. split; [done|]. repeat constructor. exists (n - 1). split; [lia|done].
    + cbn. rewrite Eg, fmap_app. cbn [todo fmap list_fmap]. unfold req_block. cbn [req_range]. count_perm.
  - (* the channel of outstanding *)
    injection E as <-. destruct (Notify_tracked cs bs t _ _ Htr) as (id & o & w & -> & Htr' & _ & _). cbn [rbind].
    eexists. split; [done|]. frame_gen Eg; by rewrite Eg.
  - (* the channel of the tracker *)
    injection E as <-. destruct (notify_spec cs bs wait (retry s) Hr) as (c & rt & -> & Hr' & Er'). cbn [rbind].
    eexists. split; [done|]. frame_gen Eg.
    rewrite Eg. unfold retry_blocks. by rewrite Er'.
  - (* reissuing *)
    injection E as <-. destruct Hg as [Hw Hn].
    destruct (next_clear_spec cs bs Hs wait (retry s) n Hr Hw Hn) as [->|(j & rt & -> & Hr' & Hj & Hp)]; cbn [rbind].
    + eexists. split; [done|]. frame_gen Eg; by rewrite Eg.
    + eexists. split; [done|]. frame_gen Eg.
      * cbn. split_and!; [done|lia|]. exists j. split; [lia|done].
      * cbn. rewrite Eg, start_block_range by lia. cbn [todo]. count_perm.
  - (* sending again *)
    destruct (_ <? _)%nat; [|done]. injection E as <-. destruct Hg as (Hw & Hn & Hrng). eexists. split; [done|].
    frame_gen Eg.
    + cbn. apply Forall_app. split; [done|]. by repeat constructor.
    + cbn. rewrite Eg, fmap_app. cbn [todo fmap list_fmap]. unfold req_block. cbn [req_range]. count_perm.
Qed.
Lemma end_of_complete t : 0 <= t <= nb -> end_of cs bs t = cs -> t = nb.
Proof.
  intros Ht E. destruct (end_of_bounds cs bs Hs t Ht) as [_ He].
  destruct (decide (t = nb)); [done|]. destruct (He ltac:(lia)). lia.
Qed.

Lemma gen_outstanding_ok t lost s r : sys_ok t lost s -> gen_outstanding cs s = Some r ->
  exists s', r = Ok s' /\ sys_ok t lost s'.
Proof.
  intros Hok E. pose proof Hok as [Hst _ Hr Hg Hreq _ _ _]. pose proof (co_range _ _ _ _ _ _ _ (proj1 Hst)) as Ht.
  pose proof (proj1 Hst) as [Htr _ _ _ _ _]. unfold gen_outstanding in E.
  destruct (gen s) as [| | | |c1 c2| | |] eqn:Eg; try discriminate. destruct (decide _) as [_|]; [|done]. injection E as <-.
  rewrite (Tail_tracked cs bs Hs t _ (world (str s))) by done. cbn [rbind].
  destruct (Z.eqb_spec t 0) as [->|Hne].
  - eexists. split; [done|]. frame_gen Eg.
  - cbn [To]. rewrite (proj2 (end_of_int64 cs bs Hs t Ht)).
    destruct (Z.eqb_spec (end_of cs bs t) cs) as [Ee|_]; eexists; (split; [done|]); frame_gen Eg; try (by rewrite Eg).
    intros _. by apply end_of_complete.
Qed.

Lemma gen_retry_ok t lost s r : sys_ok t lost s -> gen_retry s = Some r ->
  exists s', r = Ok s' /\ sys_ok t lost s'.
Proof.
  intros Hok E. pose proof Hok as [Hst _ Hr Hg Hreq _ _ _]. pose proof (co_range _ _ _ _ _ _ _ (proj1 Hst)) as Ht.
  pose proof (proj1 Hst) as [_ Htk _ _ _ _]. unfold gen_retry in E.
  destruct (gen s) as [| | | |c1 c2| | |] eqn:Eg; try discriminate. destruct (decide _) as [_|]; [|done]. injection E as <-.
  cbn in Hg. destruct (rt_ranges (retry s)) as [br|] eqn:Er; [|destruct Hr as [Hr _ _]; rewrite Er in Hr; congruence].
  destruct (retry_shape cs bs Hs wait _ br Hr Er) as (Hbr & Ec & Eb & _). cbn [checked rbind].
  destruct (Block_inside br (Z.max (From (tracking (str s))) 0) Hbr) as (-> & Hidx & _).
  { rewrite Htk, Ec. unfold tracking_of. pose proof Hs as (? & ? & _). destruct (Z.eqb_spec t 0); cbn; [lia|].
    destruct (end_of_bounds cs bs Hs (t - 1) ltac:(lia)) as [_ He]. destruct (He ltac:(lia)). nia. }
  cbn [rbind]. eexists. split; [done|]. frame_gen Eg. split; [done|lia].
Qed.

Lemma gen_done_ok t lost s r : sys_ok t lost s -> gen_done s = Some r ->
  exists s' lost', r = Ok s' /\ sys_ok t lost' s'.
Proof.
  intros Hok E. pose proof Hok as [Hst _ Hr Hg Hreq _ _ _]. unfold gen_done in E. destruct (ctx_done s); [|done].
  destruct (gen s) as [|n br| | |c1 c2| |n br|] eqn:Eg; try discriminate; injection E as <-.
  - eexists _, (todo (gen s) ++ lost). split; [done|].
    frame_gen Eg; [rewrite Eg; count_perm|right; left; left; eexists; reflexivity].
  - eexists _, lost. split; [done|]. frame_gen Eg.
  - eexists _, (todo (gen s) ++ lost). destruct Hg as (Hw & _). split; [done|].
    frame_gen Eg; [rewrite Eg; cbn; count_perm|auto].
Qed.

(** A step of one fetcher. *)
Lemma fetch_frame t t' lost lost' s s' i f f' : sys_ok t lost s ->
  fetchers s !! i = Some f -> fetchers s' = <[i := f']> (fetchers s) -> gen s' = gen s ->
  t <= t' -> ok t' (str s') -> retry_ok cs bs wait (retry s') ->
  (requestCh s' = requestCh s \/ exists r, requestCh s = r :: requestCh s') ->
  holding f' ++ (req_block <$> requestCh s') ++ retry_blocks cs bs (retry s') ++ heap_blocks bs (str s') ++ seqZ 0 t' ++ lost' ≡ₚ
    holding f ++ (req_block <$> requestCh s) ++ retry_blocks cs bs (retry s) ++ heap_blocks bs (str s) ++ seqZ 0 t ++ lost ->
  (forall r e, f' = FGot r e -> range_ok (req_range r)) ->
  errs_of f = [] \/ errs_of f' <> [] ->
  lost' = lost \/ errs_of f' <> [] \/ wait = true ->
  (f' = FDone [] -> requestCh s' = [] /\ exists e, gen s = GDone e) ->
  sys_ok t' lost' s'.
Proof.
  intros Hok Hi Ef Eg Ht Hst Hr Hreq Hp Hgot Herr Hlost Hdone. destruct Hok as [_ Hb _ Hg Hrq Hf Hl Hd].
  pose proof (lookup_lt_Some _ _ _ Hi) as Hlt. constructor; try done.
  - unfold blocks_of in *. rewrite Ef, Eg. pose proof (fetching_insert (fetchers s) i f f' Hi) as Hfi. count_perm.
  - rewrite Eg. destruct (gen s) as [| | | | | | |[]]; try done. cbn in *. intros Hw. specialize (Hg Hw).
    pose proof (co_range _ _ _ _ _ _ _ (proj1 Hst)). lia.
  - destruct Hreq as [->|[r E]]; [done|]. rewrite E in Hrq. by inversion Hrq.
  - intros k r e. rewrite Ef. intros [(<- & -> & _)|[_ Hk]]%list_lookup_insert_Some; [by eapply Hgot|by eapply Hf].
  - destruct (decide (errs_of f' = [])) as [E0|Hne].
    + destruct Hlost as [->|[?|?]]; [|done|auto]. destruct Hl as [?|[[[e He]|Hx]|?]]; [auto|..|auto]; right; left.
      * left. exists e. by rewrite Eg.
      * right. rewrite Ef. by apply (failing_insert _ _ f).
    + right; left; right. exists i, f'. by rewrite Ef, list_lookup_insert_eq.
  - intros k. rewrite Ef. intros [(<- & -> & _)|[_ Hk]]%list_lookup_insert_Some; [rewrite Eg; by apply Hdone|].
    destruct (Hd k Hk) as [E0 He]. rewrite Eg. split; [|done]. destruct Hreq as [->|[r E]]; [done|]. by rewrite E0 in E.
Qed.

Lemma recv_ok t lost s i r : sys_ok t lost s -> recv s i = Some r -> exists s', r = Ok s' /\ sys_ok t lost s'.
Proof.
  intros Hok E. unfold recv in E. destruct (fetchers s !! i) as [[errs| |]|] eqn:Hi; try discriminate.
  pose proof Hok as [Hst _ Hr _ Hreq _ _ _]. destruct (requestCh s) as [|q l] eqn:Eq.
  - destruct (gen s) as [| | | | | | |e] eqn:Eg; try discriminate. injection E as <-. eexists. split; [done|].
    unfold fetcher_returns. eapply (fetch_frame t t lost lost s _ i (FIdle errs) (FDone errs)); try done; try (by destruct errs); auto.
    + destruct errs; cbn; auto.
    + destruct errs; cbn; auto.
    + intros _. split; [by destruct errs|by eexists].
  - injection E as <-. eexists. split; [done|].
    eapply (fetch_frame t t lost lost s _ i (FIdle errs) (FGot q errs)); try done; auto.
    + right. by exists q.
    + cbn. rewrite Eq. cbn. count_perm.
    + intros r' e' [= <- <-]. by inversion Hreq.
    + destruct errs; cbn; auto.
Qed.
(** The block a fetcher works on is nowhere else. *)
Lemma held_fresh t lost s i r e : sys_ok t lost s -> fetchers s !! i = Some (FGot r e) ->
  range_ok (req_range r) /\ t <= req_block r /\ (req_block r ∉ heap_blocks bs (str s)) /\
  (req_block r ∉ retry_blocks cs bs (retry s)).
Proof.
  intros Hok Hi. pose proof (so_fetch _ _ _ Hok i r e Hi) as Hrng.
  pose proof (so_blocks _ _ _ Hok) as Hb. unfold blocks_of in Hb. rewrite occ_perm in Hb. specialize (Hb (req_block r)).
  pose proof (fetching_insert (fetchers s) i _ (FDone []) Hi) as Hfi. rewrite occ_perm in Hfi. specialize (Hfi (req_block r)).
  rewrite !occ_app in *. cbn [holding] in Hfi. rewrite occ_cons, occ_nil in Hfi. unfold same in Hfi.
  rewrite decide_True in Hfi by done. pose proof (occ_NoDup (req_block r) (seqZ 0 nb) (NoDup_seqZ _ _)).
  split_and!; [done|..].
  - destruct (Z.le_gt_cases t (req_block r)) as [?|Hgt]; [done|]. exfalso.
    destruct Hrng as (j & Hj & Er). unfold req_block in *. rewrite Er, start_block_range in * by lia.
    assert (0 < occ j (seqZ 0 t))%nat by (apply occ_elem, elem_of_seqZ; lia). lia.
  - rewrite <- occ_elem. lia.
  - rewrite <- occ_elem. lia.
Qed.

(** The bytes of a range of the content, and a file whose reader gives them
    whenever it gives as many bytes as it was asked for. *)
Definition slice (br : ByteRange) : list byte :=
  take (Z.to_nat (To br - From br + 1)) (drop (Z.to_nat (From br)) content).

Definition honest_action (s : sys H) (a : action) : bool :=
  match a with
  | AFetched i (Fetched b _) =>
      match fetchers s !! i with
      | Some (FGot r _) =>
          if len b =? ByteRange_Size (req_range r) then bool_decide (b = slice (req_range r)) else true
      | _ => true
      end
  | _ => true
  end.

Lemma slice_block j : 0 <= j < nb -> slice (range_of cs bs j) = block cs bs content j.
Proof.
  intros Hj. unfold slice, block. destruct (end_of_bounds cs bs Hs j ltac:(lia)) as [_ He]. destruct (He ltac:(lia)) as [-> _].
  rewrite end_of_next by lia. cbn [From To range_of]. f_equal. lia.
Qed.

Lemma stream_progress t x p : ok t x -> CachedOrStreamedBytes (stats p) = CachedOrStreamedBytes (stats (progress x)) ->
  CachedOrStreamedBlocks (stats p) = CachedOrStreamedBlocks (stats (progress x)) -> ok t (with_progress x p).
Proof. intros [[] ?] E1 E2. split; [|done]. constructor; cbn; congruence. Qed.

(** A fetch that fails, for whatever reason, before the response is handled. *)
Lemma fetch_fails t lost s i req errs x e : sys_ok t lost s -> fetchers s !! i = Some (FGot req errs) ->
  ok t x -> heap x = heap (str s) ->
  exists s' lost', fetch_error wait (with_str s x) i req errs e = Ok s' /\ sys_ok t lost' s'.
Proof.
  intros Hok Hi Hx Eh. destruct (held_fresh t lost s i req errs Hok Hi) as ((j & Hj & Er) & _ & _ & Hn).
  pose proof Hok as [_ _ Hr _ _ _ _ _]. unfold fetch_error.
  assert (Eb : req_block req = j) by (unfold req_block; rewrite Er; by apply start_block_range).
  assert (Ehb : heap_blocks bs x = heap_blocks bs (str s)) by (unfold heap_blocks; by rewrite Eh).
  destruct (match e with ErrContext => true | _ => IsInternal e end).
  - eexists _, (j :: lost). split; [reflexivity|].
    eapply (fetch_frame t t lost (j :: lost) s _ i _ (FDone [e])); try done; auto.
    + cbn. rewrite Ehb, Eb. count_perm.
  - destruct (Sumbool.sumbool_of_bool wait) as [Ew|Ew]; rewrite Ew; cbn [negb].
    + rewrite Eb in Hn. rewrite Er. cbn [From range_of retry with_str].
      destruct (set_spec cs bs Hs wait (retry s) j Hr Ew Hj Hn) as (rt & -> & Hr' & Hp). cbn [rbind].
      eexists _, lost. split; [reflexivity|].
      eapply (fetch_frame t t lost lost s _ i _ (FIdle errs)); try done; auto.
      * cbn. rewrite Ehb, Eb. count_perm.
      * destruct errs; cbn; auto.
    + eexists _, (j :: lost). split; [reflexivity|].
      eapply (fetch_frame t t lost (j :: lost) s _ i _ (FIdle (errs ++ [e]))); try done; auto.
      * cbn. rewrite Ehb, Eb. count_perm.
      * right. cbn. by destruct errs.
      * right; left. cbn. by destruct errs.
Qed.

Lemma fetch_ok t lost s i f r : sys_ok t lost s -> honest_action s (AFetched i f) = true ->
  fetch hash_write wait s i f = Some r -> exists s' t' lost', r = Ok s' /\ t <= t' /\ sys_ok t' lost' s'.
Proof.
  intros Hok Hh E. unfold fetch in E. unfold honest_action in Hh.
  destruct (fetchers s !! i) as [[|req errs|]|] eqn:Hi; try discriminate. injection E as <-.
  destruct (held_fresh t lost s i req errs Hok Hi) as ((j & Hj & Er) & Hle & Hnh & Hnr).
  assert (Eb : req_block req = j) by (unfold req_block; rewrite Er; by apply start_block_range).
  pose proof Hok as [Hst _ Hr _ _ _ _ _]. unfold handleGet.
  destruct f as [e|b failed].
  { cbn [rbind]. destruct (fetch_fails t lost s i req errs (str s) e Hok Hi Hst eq_refl) as (s' & lost' & -> & Hok').
    exists s', t, lost'. split_and!; [done|lia|done]. }
  set (x := with_progress (str s) (incrementDownload (progress (str s)) 1 (len b))).
  assert (Hx : ok t x).
  { apply stream_progress; [done|..]; unfold incrementDownload, send; cbn; by destruct (progress_ch _) as [[[] ?]|]. }
  destruct failed.
  { cbn [rbind]. destruct (fetch_fails t lost s i req errs x ErrCopy Hok Hi Hx eq_refl) as (s' & lost' & -> & Hok').
    exists s', t, lost'. split_and!; [done|lia|done]. }
  destruct (len b =? ByteRange_Size (req_range req)) eqn:El; cbn [negb].
  2: { cbn [rbind]. destruct (fetch_fails t lost s i req errs x (ErrShortCopy (len b)) Hok Hi Hx eq_refl) as (s' & lost' & -> & Hok').
    exists s', t, lost'. split_and!; [done|lia|done]. }
  apply bool_decide_eq_true in Hh. rewrite Er, slice_block in Hh by done.
  assert (Hbl : block_of bs (MkResponse b (req_range req)) = j) by exact Eb.
  destruct (handle_spec cs bs Hs content Hcontent hash_write absorb Hwrite Happ h0 t x (MkResponse b (req_range req)))
    as (x' & t' & -> & Hle' & Hst' & Hp); [done| | |by rewrite Hbl, <- Eb|].
  { unfold honest. rewrite Hbl. split_and!; [lia|lia|done|exact Hh]. }
  { rewrite Hbl. lia. }
  cbn [rbind]. eexists _, t', lost. split; [reflexivity|]. split; [done|].
  eapply (fetch_frame t t' lost lost s _ i _ (FIdle errs)); try done; auto.
  - cbn [holding fetchers with_fetcher requestCh with_str retry str]. rewrite Hbl in Hp.
    assert (Eseq : seqZ 0 t' = seqZ 0 t ++ seqZ t (t' - t)).
    { pose proof (co_range _ _ _ _ _ _ _ (proj1 Hst)). rewrite <- (Z.add_0_l t) at 2. rewrite <- seqZ_app by lia. f_equal. lia. }
    rewrite Eseq, Eb. change (heap_blocks bs x) with (heap_blocks bs (str s)) in Hp. count_perm.
  - destruct errs; cbn; auto.
Qed.
Lemma done_frame t lost s i errs : sys_ok t lost s -> fetchers s !! i = Some (FIdle errs) ->
  sys_ok t lost (fetcher_returns s i [ErrContext]).
Proof.
  intros Hok Hi. pose proof Hok as [Hst _ Hr _ _ _ _ _].
  eapply (fetch_frame t t lost lost s _ i (FIdle errs) (FDone [ErrContext])); try done; auto.
Qed.

Lemma cancel_ok t lost s : sys_ok t lost s -> sys_ok t lost (cancel s).
Proof. intros []. by constructor. Qed.

Lemma step_ok t lost s a r : sys_ok t lost s -> honest_action s a = true ->
  step hash_write cs concurrency wait s a = Some r ->
  exists s' t' lost', r = Ok s' /\ t <= t' /\ sys_ok t' lost' s'.
Proof.
  intros Hok Hh E. destruct a as [| | | |i|i f|i|]; cbn [step] in E.
  - destruct (gen_step_ok t lost s r Hok E) as (s' & -> & ?). exists s', t, lost. by split_and!.
  - destruct (gen_outstanding_ok t lost s r Hok E) as (s' & -> & ?). exists s', t, lost. by split_and!.
  - destruct (gen_retry_ok t lost s r Hok E) as (s' & -> & ?). exists s', t, lost. by split_and!.
  - destruct (gen_done_ok t lost s r Hok E) as (s' & lost' & -> & ?). exists s', t, lost'. by split_and!.
  - destruct (recv_ok t lost s i r Hok E) as (s' & -> & ?). exists s', t, lost. by split_and!.
  - by eapply fetch_ok.
  - destruct (ctx_done s); [|done]. destruct (fetchers s !! i) as [[errs| |]|] eqn:Hi; try discriminate.
    injection E as <-. eexists _, t, lost. split; [reflexivity|]. split; [lia|]. by apply (done_frame t lost s i errs).
  - injection E as <-. eexists _, t, lost. split; [reflexivity|]. split; [lia|]. by apply cancel_ok.
Qed.

Lemma step_fetchers s a s' : step hash_write cs concurrency wait s a = Some (Ok s') ->
  length (fetchers s') = length (fetchers s).
Proof.
  intros E. destruct a; cbn [step] in E;
    unfold gen_step, gen_outstanding, gen_retry, gen_done, recv, fetch, fetch_error, gen_returns, fetcher_returns in E;
    repeat (case_match; simplify_eq); res_inv; repeat (case_match; simplify_eq); res_inv; cbn; rewrite ?length_insert; try done.
  all: repeat (simplify_eq || case_match); cbn; by rewrite ?length_insert.
Qed.

Fixpoint honest_run (s : sys H) (l : list action) : bool :=
  match l with
  | [] => true
  | a :: l =>
      honest_action s a &&
      match step hash_write cs concurrency wait s a with Some (Ok s) => honest_run s l | _ => true end
  end.

Lemma run_ok l : forall t lost s r, sys_ok t lost s -> honest_run s l = true ->
  run hash_write cs concurrency wait s l = Some r ->
  exists s' t' lost', r = Ok s' /\ sys_ok t' lost' s' /\ length (fetchers s') = length (fetchers s).
Proof.
  induction l as [|a l IH]; intros t lost s r Hok Hh E; cbn in *; [injection E as <-; by exists s, t, lost|].
  apply andb_true_iff in Hh as [Ha Hh]. destruct (step hash_write cs concurrency wait s a) as [q|] eqn:Es; [|done].
  destruct (step_ok t lost s a q Hok Ha Es) as (s1 & t1 & lost1 & -> & _ & Hok1). apply step_fetchers in Es.
  destruct (IH t1 lost1 s1 r Hok1 Hh E) as (s' & t' & lost' & -> & Hok' & El).
  exists s', t', lost'. split_and!; [done|done|congruence].
Qed.

Lemma start_ok ch : exists s0, start cs concurrency wait bs (MkPipe [] None) h0 ch = Ok s0 /\
  sys_ok 0 [] s0 /\ fetchers s0 = replicate concurrency (FIdle []).
Proof.
  destruct (new_tracked cs bs Hs) as (br & E & _).
  destruct (core_init cs bs Hs content absorb Hnil (MkPipe [] None) h0 ch br E eq_refl) as (x & Ex & Hc & Eh & _).
  destruct (newByteRanges_spec cs bs Hs) as [Et Hbr]. set (tr := MkByteRanges cs nb bs (Bitmap.New nb)) in *.
  destruct (Bitmap.New_spec nb) as (_ & Hz & _). pose proof Hs as (_ & Hb & _).
  set (rt := MkRetry (if wait then Some tr else None) None false (Bitmap.Chans 0 ∅)).
  assert (Hr : retry_ok cs bs wait rt /\ retry_blocks cs bs rt = []).
  { unfold rt. destruct (Sumbool.sumbool_of_bool wait) as [Ew|Ew]; rewrite Ew; (split; [by split; cbn; try set_solver|]); try done.
    unfold retry_blocks. cbn [rt_ranges bitmap tr]. apply elem_of_nil_inv. intros j. rewrite list_elem_of_filter, Hz. naive_solver. }
  exists (MkSys x rt [] (GPrime 0) (replicate concurrency (FIdle [])) false). split_and!; [|..|done].
  { unfold start. rewrite Ex. cbn [rbind]. rewrite (proj2 (Z.leb_gt bs 0)) by lia. unfold NewByteRangesTracker, rt.
    destruct wait; [rewrite Et|]; done. }
  destruct Hr as [Hr Erb]. pose proof (nblocks_bounds cs bs Hs) as [Hpos _].
  assert (Hnone : forall i f, replicate concurrency (FIdle []) !! i = Some f -> f = FIdle []).
  { intros i f [? _]%lookup_replicate. done. }
  constructor; cbn; try done.
  - split; [done|]. rewrite Eh. split; [intros c Hc'; cbn in Hc'; lia|by split; constructor].
  - unfold blocks_of, heap_blocks. cbn [todo gen requestCh fetchers retry str fmap list_fmap].
    rewrite Erb, Eh, Z.sub_0_r. cbn [fmap list_fmap app].
    assert (concat (holding <$> replicate concurrency (FIdle [])) = []) as ->; [|by rewrite !app_nil_r].
    induction concurrency as [|c IH]; [done|]. cbn in *. apply IH. intros i f Hi. by apply (Hnone (S i)).
  - lia.
  - intros i r e Hi. by apply Hnone in Hi.
  - by left.
  - intros i Hi. by apply Hnone in Hi.
Qed.

(** When every goroutine has returned without an error, nothing is missing. *)
Lemma succeeded_all t lost s : (0 < concurrency)%nat -> sys_ok t lost s -> length (fetchers s) = concurrency ->
  succeeded s = true -> t = nb.
Proof.
  intros Hconc Hok Hlen Hsucc. unfold succeeded in Hsucc.
  destruct (gen s) as [| | | | | | |[|]] eqn:Eg; try discriminate.
  pose proof Hok as [[Hc Hh] Hb Hr Hg _ _ Hl Hd]. rewrite Eg in Hg. cbn in Hg.
  destruct (Sumbool.sumbool_of_bool wait) as [Ew|Ew]; [by apply Hg|].
  rewrite forallb_forall in Hsucc.
  assert (Hall : forall i f, fetchers s !! i = Some f -> f = FDone []).
  { intros i f Hi. specialize (Hsucc f). destruct f as [| |[]]; try done.
    all: exfalso; discriminate Hsucc; by apply list_elem_of_In, list_elem_of_lookup; eauto. }
  assert (lost = []) as ->.
  { destruct Hl as [?|[[[e He]|(i & f & Hi & Hf)]|?]]; try congruence. by rewrite (Hall i f Hi) in Hf. }
  assert (requestCh s = []) as Ereq.
  { destruct (lookup_lt_is_Some_2 (fetchers s) 0) as [f Hf]; [lia|]. apply (Hd 0%nat). by rewrite Hf, (Hall _ _ Hf). }
  assert (fetching (fetchers s) = []) as Ef.
  { unfold fetching. clear -Hall. induction (fetchers s) as [|f fs IH]; [done|]. cbn. rewrite (Hall 0%nat f eq_refl). cbn.
    apply IH. intros i g Hi. by apply (Hall (S i)). }
  assert (retry_blocks cs bs (retry s) = []) as Er.
  { unfold retry_blocks. destruct Hr as [Hr _ _]. destruct (rt_ranges (retry s)); [destruct Hr; congruence|done]. }
  unfold blocks_of in Hb. rewrite Eg, Ereq, Ef, Er in Hb. cbn in Hb. rewrite app_nil_r in Hb.
  pose proof (co_range _ _ _ _ _ _ _ Hc) as Ht. destruct (decide (t = nb)) as [?|Hne]; [done|]. exfalso.
  assert (t ∈ seqZ 0 nb) as Hin by (apply elem_of_seqZ; lia). rewrite <- Hb, elem_of_app, elem_of_seqZ in Hin.
  destruct Hin as [(r & Etr & Hin)%list_elem_of_fmap|?]; [|lia].
  destruct Hh as (_ & _ & Hhall). rewrite Forall_forall in Hhall. destruct (Hhall r Hin). lia.
Qed.
End invariant.

(** ** Properties of the stream *)

(** C2: the downloader reorders correctly.  Let the blocks of any file arrive in
    any order, each at most once and with its own bytes.  Then no response is
    answered with an error, and afterwards the pipe's reader has been given, in
    order and with nothing missing or repeated, exactly the blocks before the
    first one that has not arrived; the heap keeps exactly the others that have;
    the hash and the statistics are those of the bytes streamed; and when all
    blocks have arrived that is the whole content. *)
Theorem stream_in_order (cs bs : Z) (content : list byte) {H : Type}
    (hash_write : H -> list byte -> option H) (absorb : H -> list byte -> H)
    (h0 : option H) (ch : option (nat * list DownloadStats)) (rs : list response)
    (Hs : sizes_ok cs bs) (Hcontent : len content = cs)
    (Hwrite : forall h b, hash_write h b = Some (absorb h b))
    (Hnil : forall h, absorb h [] = h) (Happ : forall h a b, absorb h (a ++ b) = absorb (absorb h a) b)
    (Hhonest : Forall (honest cs bs content) rs) (Honce : NoDup (block_of bs <$> rs)) :
  exists s0 s t, NewStream cs bs (MkPipe [] None) h0 ch = Ok s0 /\ handle_all hash_write rs s0 = Ok (s, None) /\
    0 <= t <= nblocks cs bs /\
    (forall j, 0 <= j < t -> (j ∈ block_of bs <$> rs)) /\ (t ∉ block_of bs <$> rs) /\
    taken (pipeWr s) = take (Z.to_nat (Z.min (t * bs) cs)) content /\
    (block_of bs <$> heap s) ++ seqZ 0 t ≡ₚ block_of bs <$> rs /\
    hash s = (fun h => absorb h (taken (pipeWr s))) <$> h0 /\
    CachedOrStreamedBytes (stats (progress s)) = len (taken (pipeWr s)) /\
    CachedOrStreamedBlocks (stats (progress s)) = t /\
    (len rs = nblocks cs bs -> taken (pipeWr s) = content /\ heap s = []).
Proof.
  destruct (new_tracked cs bs Hs) as (br & E & _).
  destruct (core_init cs bs Hs content absorb Hnil (MkPipe [] None) h0 ch br E eq_refl) as (s0 & E0 & Hc0 & Eh0 & _).
  destruct (handle_all_spec cs bs Hs content Hcontent hash_write absorb Hwrite Happ h0 rs 0 s0) as (s & t & E1 & Ht & [Hc Hh] & Hp); try done.
  { split; [done|]. rewrite Eh0. split; [intros c Hc; cbn in Hc; lia|by split; constructor]. }
  { intros j (r & -> & Hr)%list_elem_of_fmap. rewrite Forall_forall in Hhonest.
    destruct (Hhonest r Hr) as (? & _). unfold heap_blocks. rewrite Eh0. split; [lia|set_solver]. }
  exists s0, s, t. pose proof (co_range _ _ _ _ _ _ _ Hc) as Hr.
  unfold heap_blocks in Hp. rewrite Eh0, Z.sub_0_r in Hp. cbn in Hp. rewrite app_nil_r in Hp.
  assert (Hnt : t ∉ block_of bs <$> rs).
  { rewrite <- Hp, elem_of_app, elem_of_seqZ. intros [(r & -> & Hin)%list_elem_of_fmap|?]; [|lia].
    destruct Hh as (_ & _ & Hall). rewrite Forall_forall in Hall. destruct (Hall r Hin). lia. }
  assert (Hlen : len (prefix cs bs content t) = end_of cs bs t).
  { unfold prefix, len in *. rewrite length_take. destruct (end_of_bounds cs bs Hs t Hr). lia. }
  split_and!; try done; try lia.
  - intros j Hj. rewrite <- Hp, elem_of_app, elem_of_seqZ. right. lia.
  - by rewrite (co_pipe _ _ _ _ _ _ _ Hc).
  - by rewrite (co_hash _ _ _ _ _ _ _ Hc), (co_pipe _ _ _ _ _ _ _ Hc).
  - rewrite (co_bytes _ _ _ _ _ _ _ Hc), (co_pipe _ _ _ _ _ _ _ Hc). by cbn [taken]; rewrite Hlen.
  - apply (co_blocks _ _ _ _ _ _ _ Hc).
  - intros Hall.
    assert (t = nblocks cs bs) as ->.
    { destruct (decide (t = nblocks cs bs)); [done|]. exfalso.
      assert (block_of bs <$> rs ⊆+ seqZ 0 t ++ seqZ (t + 1) (nblocks cs bs - t - 1)) as Hsub%submseteq_length.
      { apply NoDup_submseteq; [done|]. intros j Hj. rewrite elem_of_app, !elem_of_seqZ.
        pose proof Hj as (r & Ej & Hin)%list_elem_of_fmap. rewrite Forall_forall in Hhonest. destruct (Hhonest r Hin) as (Hb & _).
        assert (j <> t) by congruence. lia. }
      rewrite length_app, !length_seqZ, length_fmap in Hsub. unfold len in Hall. lia. }
    rewrite (co_pipe _ _ _ _ _ _ _ Hc). split; [by apply prefix_all|].
    apply Permutation_length in Hp. rewrite length_app, length_seqZ, !length_fmap in Hp. unfold len in Hall.
    apply length_zero_iff_nil. lia.
Qed.

(** Five bytes in blocks of two; the last block arrives first. *)
Definition five : list byte := [x61; x62; x63; x64; x65].
Definition arrival : list response :=
  [MkResponse [x65] (MkByteRange 4 4); MkResponse [x61; x62] (MkByteRange 0 1); MkResponse [x63; x64] (MkByteRange 2 3)].
Definition append_hash (h b : list byte) : option (list byte) := Some (h ++ b).

Lemma stream_in_order_witness :
  sizes_ok 5 2 /\ Forall (honest 5 2 five) arrival /\ NoDup (block_of 2 <$> arrival) /\
  exists s0 s, NewStream 5 2 (MkPipe [] None) (Some []) None = Ok s0 /\
    handle_all append_hash arrival s0 = Ok (s, None) /\ taken (pipeWr s) = five /\ heap s = [] /\ hash s = Some five.
Proof.
  assert (Hs : sizes_ok 5 2) by (unfold sizes_ok; lia).
  assert (Hh : Forall (honest 5 2 five) arrival).
  { repeat constructor; vm_compute; congruence. }
  assert (Hn : NoDup (block_of 2 <$> arrival)) by (change (block_of 2 <$> arrival) with [2; 0; 1]; repeat constructor; set_solver).
  split; [exact Hs|]. split; [exact Hh|]. split; [exact Hn|].
  destruct (stream_in_order 5 2 five append_hash app (Some []) None arrival Hs eq_refl
    (fun h b => eq_refl) (fun h => app_nil_r h) (fun h a b => app_assoc h a b) Hh Hn)
    as (s0 & s & t & E0 & E & _ & _ & _ & _ & _ & Ehash & _ & _ & Hall).
  destruct (Hall eq_refl) as [Et Eh]. rewrite Et in Ehash.
  exists s0, s. split; [exact E0|]. split; [exact E|]. split; [exact Et|]. split; [exact Eh|exact Ehash].
Defined.

(** [OutOfOrder] is documented as the number of out-of-order responses.  Here
    one response is early, but draining the heap pushes it back and counts it
    again. *)
Lemma outOfOrder_counts_twice :
  (let! s := NewStream 5 2 (MkPipe [] None) (@None (list byte)) None in
   let! (s, e) := handle_all append_hash arrival s in
   Ok (e, outOfOrder s, maxHeapSize s)) = Ok (None, 2, 1).
Proof. vm_compute. reflexivity. Qed.

(** C3: a streaming download is safe, with or without [waitForCompletion].  In
    every interleaving of the generator, the fetchers, the failures of requests
    and their retries, and cancellation, with a file that gives the right bytes
    whenever it gives as many as asked, nothing panics and the pipe's reader has
    always been given a prefix of the content made of whole blocks; and when
    [Run] returns without an error, the whole content, whose hash is then that
    of the content. *)
Theorem download_safe (cs bs : Z) (content : list byte) {H : Type}
    (hash_write : H -> list byte -> option H) (absorb : H -> list byte -> H)
    (h0 : option H) (ch : option (nat * list DownloadStats)) (concurrency : nat) (wait : bool) (l : list action)
    (Hs : sizes_ok cs bs) (Hcontent : len content = cs) (Hconc : (0 < concurrency)%nat)
    (Hwrite : forall h b, hash_write h b = Some (absorb h b))
    (Hnil : forall h, absorb h [] = h) (Happ : forall h a b, absorb h (a ++ b) = absorb (absorb h a) b) :
  exists s0, start cs concurrency wait bs (MkPipe [] None) h0 ch = Ok s0 /\
  forall r, honest_run cs content hash_write concurrency wait s0 l = true ->
    run hash_write cs concurrency wait s0 l = Some r ->
    exists s t, r = Ok s /\ 0 <= t <= nblocks cs bs /\
      taken (pipeWr (str s)) = take (Z.to_nat (Z.min (t * bs) cs)) content /\
      (succeeded s = true ->
         taken (pipeWr (str s)) = content /\ hash (str s) = (fun h => absorb h content) <$> h0).
Proof.
  destruct (start_ok cs bs Hs content Hcontent hash_write absorb Hwrite Hnil Happ h0 concurrency wait ch) as (s0 & E0 & Hok & Ef).
  exists s0. split; [done|]. intros r Hh E.
  destruct (run_ok cs bs Hs content Hcontent hash_write absorb Hwrite Happ h0 concurrency wait l 0 [] s0 r Hok Hh E)
    as (s & t & lost & -> & Hok' & Hlen).
  pose proof (so_stream _ _ _ _ _ _ _ _ _ Hok') as [Hc _].
  exists s, t. split_and!; try done.
  - apply (co_range _ _ _ _ _ _ _ Hc).
  - apply (co_range _ _ _ _ _ _ _ Hc).
  - by rewrite (co_pipe _ _ _ _ _ _ _ Hc).
  - rewrite Ef, length_replicate in Hlen. intros Hsucc.
    assert (t = nblocks cs bs) as -> by (eapply succeeded_all; eauto).
    rewrite (co_pipe _ _ _ _ _ _ _ Hc), (co_hash _ _ _ _ _ _ _ Hc). cbn [taken].
    by rewrite (prefix_all cs bs Hs content Hcontent).
Qed.

(** Two fetchers; the request for the last block fails once and is re-issued. *)
Definition retried : list action :=
  [AGen; AGen; AGen; AGen; ARecv 0; ARecv 1; AGen; AGen; AGen;
   AFetched 1 (Fetched [x63; x64] false); ARecv 1; AFetched 1 (NotFetched ErrGet); AGen; AGen; AGenRetry; AGen; AGen; AGen;
   ARecv 1; AFetched 1 (Fetched [x65] false); AGen; AGen; AFetched 0 (Fetched [x61; x62] false); AGenOutstanding;
   ARecv 0; ARecv 1].

(** The outcome of a run of these two fetchers over the five bytes. *)
Definition outcome_of (l : list action) : res (bool * (option (sys (list byte)))) :=
  let! s0 := start 5 2 true 2 (MkPipe [] None) (Some []) None in
  Ok (honest_run 5 five append_hash 2 true s0 l,
      match run append_hash 5 2 true s0 l with Some (Ok s) => Some s | _ => None end).

Definition observe (o : res (bool * option (sys (list byte)))) : option (bool * bool * list byte) :=
  match o with Ok (h, Some s) => Some (h, succeeded s, taken (pipeWr (str s))) | _ => None end.

Lemma download_safe_witness :
  sizes_ok 5 2 /\ len five = 5 /\ (0 < 2)%nat /\ observe (outcome_of retried) = Some (true, true, five) /\
  exists s0, start 5 2 true 2 (MkPipe [] None) (Some []) None = Ok s0 /\
  forall r, honest_run 5 five append_hash 2 true s0 retried = true ->
    run append_hash 5 2 true s0 retried = Some r -> exists s, r = Ok s.
Proof.
  assert (Hs : sizes_ok 5 2) by (unfold sizes_ok; lia). assert (Hc : (0 < 2)%nat) by lia.
  split; [exact Hs|]. split; [reflexivity|]. split; [exact Hc|]. split; [vm_compute; reflexivity|].
  destruct (download_safe 5 2 five append_hash app (Some []) None 2 true retried Hs eq_refl Hc
    (fun h b => eq_refl) (fun h => app_nil_r h) (fun h a b => app_assoc h a b)) as (s0 & E & Hr).
  exists s0. split; [exact E|]. intros r H1 H2. destruct (Hr r H1 H2) as (s & t & Es & _). exists s. exact Es.
Defined.

(** The generator has evaluated the channels of its select, and with them reset
    the tracker's pending flag, when the head of the file arrives: both cases
    are ready and it takes the one of [outstanding]. *)
Definition missed : list action :=
  [AGen; AGen; AGen; AGen; ARecv 0; ARecv 1; AGen; AGen; AGen;
   AFetched 1 (NotFetched ErrGet); ARecv 1; AFetched 1 (Fetched [x65] false); AGen; AGen;
   AFetched 0 (Fetched [x61; x62] false); AGenOutstanding; AGen; AGen].

Definition stuck (s : sys (list byte)) : Prop :=
  forall a, a <> ACancel -> step append_hash 5 2 true s a = None.

(** A retry can be forgotten.  There is a run with [waitForCompletion], over
    an honest file, whose only failure is one retryable error, that ends with
    the failed block recorded in the tracker, every fetcher idle, the generator
    waiting on two channels that nobody will close and the rest of the content
    undelivered: nothing but a cancellation can happen any more. *)
Theorem retry_forgotten :
  exists s, outcome_of missed = Ok (true, Some s) /\ stuck s /\ ctx_done s = false /\
    retry_blocks 5 2 (retry s) = [1] /\ (block_of 2 <$> heap (str s)) = [2] /\
    taken (pipeWr (str s)) = [x61; x62].
Proof.
  destruct (outcome_of missed) as [[h [s|]]| |] eqn:E; vm_compute in E; try discriminate E.
  injection E as <- <-. eexists. split; [reflexivity|]. split; [|split_and!; vm_compute; reflexivity].
  intros [| | | |[|[|t]]|[|[|t]] f|[|[|t]]|] Ha; try (vm_compute; reflexivity). by destruct Ha.
Qed.
