(* ===== verification/Cache.v ===== *)
(** * The local cache and the caching downloader (file/largefile: local_cache.go,
    caching_downloader.go)

    A [LocalDownloadCache] keeps the blocks of a file in a data file and, in an
    index file, which blocks it has.  Both files are byte lists; each operation
    is given the failures the operating system answers it with. *)

From stdpp Require Import base list option numbers gmap.
From Stdlib Require Import ZArith Lia.
From Stdlib Require Import Init.Byte.
From S2P Require Import Prelude.
From S2P Require Bitmap.
From S2P Require Import ByteRanges Download.

Open Scope list_scope.
Open Scope Z_scope.
Open Scope go_scope.

(** ** Files *)

(** [WriteAt] of an [os.File]: bytes past the end are filled with zeroes. *)
Definition file_WriteAt (f b : list byte) (off : Z) : list byte :=
  let f := f ++ replicate (Z.to_nat (off - len f)) x00 in
  take (Z.to_nat off) f ++ b ++ drop (Z.to_nat (off + len b)) f.

(** [ReadAt]: the bytes there are, and whether the end came first. *)
Definition file_ReadAt (f : list byte) (size off : Z) : list byte * bool :=
  let b := take (Z.to_nat size) (drop (Z.to_nat off) f) in (b, len b <? size).

(** What fails in one call: the write or read of the data file, which otherwise
    may be short, its sync, the save of the index. *)
Record io := MkIO { io_err : bool; io_short : option Z; sync_err : bool; save_err : bool }.

Definition no_failure : io := MkIO false None false false.

(** ** LocalDownloadCache *)

Inductive cache_err :=
| InvalidOffset
| InvalidBlockSize
| UncachedRange
| InternalCache.

(** The fields are set by [NewLocalDownloadCache] and never nil. *)
Record cache := MkCache {
  file : list byte;
  index : ByteRanges;
  index_world : Bitmap.chans;
  lastTailByteRange : Z;
  lastBlockSize : Z;
  lastBlockOffset : Z;
}.

Definition contentLength (c : cache) : Z := contentSize (ranges (index c)).
Definition block_size (c : cache) : Z := blockSize (ranges (index c)).

(** [NewLocalDownloadCache] once the index has been loaded. *)
Definition NewLocalDownloadCache (f : list byte) (idx : ByteRanges) (w : Bitmap.chans) : res cache :=
  let cs := contentSize (ranges idx) in
  let bs := blockSize (ranges idx) in
  let! size := go_rem cs bs in
  let offset := int64 (cs - size) in
  Ok (if size =? 0 then MkCache f idx w 0 bs (int64 (offset - bs)) else MkCache f idx w 0 size offset).

Definition NextOutstanding (c : cache) (start : Z) : res (Z * option ByteRange) := NextClear (ranges (index c)) start.
Definition NextCached (c : cache) (start : Z) : res (Z * option ByteRange) := NextSet (ranges (index c)) start.

Definition Complete (c : cache) : res bool :=
  let! (i, _) := NextClear (ranges (index c)) 0 in Ok (i =? -1).

Fixpoint cached_loop (fuel : nat) (c : cache) (start bytes blocks : Z) : res (Z * Z) :=
  match fuel with
  | O => NoFuel
  | S fuel =>
      let! (n, br) := NextSet (ranges (index c)) start in
      match br with
      | Some br => cached_loop fuel c n (int64 (bytes + ByteRange_Size br)) (int64 (blocks + 1))
      | None => Ok (bytes, blocks)
      end
  end.

Definition CachedBytesAndBlocks (c : cache) : res (Z * Z) :=
  cached_loop (S (Z.to_nat (bitmapSize (ranges (index c))))) c 0 0 0.

Definition validateOffsetAndSize (c : cache) (off size : Z) : res (option cache_err) :=
  if (off <? 0) || (lastBlockOffset c <? off) then Ok (Some InvalidOffset)
  else
    let! r := go_rem off (block_size c) in
    if negb (r =? 0) then Ok (Some InvalidOffset)
    else if block_size c <? size then Ok (Some InvalidBlockSize)
    else if off =? lastBlockOffset c then
      Ok (if negb (size =? lastBlockSize c) then Some InvalidBlockSize else None)
    else Ok (if negb (size =? block_size c) then Some InvalidBlockSize else None).

Definition with_file (c : cache) (f : list byte) : cache :=
  MkCache f (index c) (index_world c) (lastTailByteRange c) (lastBlockSize c) (lastBlockOffset c).
Definition with_index (c : cache) (idx : ByteRanges) (w : Bitmap.chans) : cache :=
  MkCache (file c) idx w (lastTailByteRange c) (lastBlockSize c) (lastBlockOffset c).
Definition with_tail (c : cache) (t : Z) : cache :=
  MkCache (file c) (index c) (index_world c) t (lastBlockSize c) (lastBlockOffset c).

(** The cache afterwards, the number of bytes and the error. *)
Definition WriteAt (c : cache) (data : list byte) (off : Z) (f : io) : res (cache * Z * option cache_err) :=
  let! e := validateOffsetAndSize c off (len data) in
  match e with
  | Some e => Ok (c, 0, Some e)
  | None =>
      if io_err f then Ok (c, 0, Some InternalCache)
      else
        let n := match io_short f with Some n => n | None => len data end in
        let c := with_file c (file_WriteAt (file c) (take (Z.to_nat n) data) off) in
        if negb (n =? len data) then Ok (c, n, Some InternalCache)
        else if sync_err f then Ok (c, 0, Some InternalCache)
        else
          let! (idx, w) := Set_ (index c) (index_world c) off in
          let c := with_index c idx w in
          if save_err f then Ok (c, 0, Some InternalCache) else Ok (c, n, None)
  end.

Definition validateOffset (c : cache) (off size : Z) : option cache_err :=
  if (off <? 0) || (contentLength c <=? off) then Some InvalidOffset
  else if contentLength c <? int64 (off + size) then Some InvalidBlockSize
  else None.

Fixpoint cached_check (fuel : nat) (c : cache) (i limit : Z) : res (option cache_err) :=
  match fuel with
  | O => NoFuel
  | S fuel =>
      if i <? limit then
        let! clear := IsClear (ranges (index c)) i in
        if clear then Ok (Some UncachedRange) else cached_check fuel c (int64 (i + block_size c)) limit
      else Ok None
  end.

Definition validateCachedLocked (c : cache) (off size : Z) : res (option cache_err) :=
  cached_check (S (Z.to_nat size)) c off (int64 (off + size)).

(** The bytes placed in the buffer of the given length, with the count and the
    error. *)
Definition ReadAt (c : cache) (size off : Z) (f : io) : res (list byte * Z * option cache_err) :=
  match validateOffset c off size with
  | Some e => Ok ([], 0, Some e)
  | None =>
      let! e := validateCachedLocked c off size in
      match e with
      | Some e => Ok ([], 0, Some e)
      | None =>
          if io_err f then Ok ([], 0, Some InternalCache)
          else
            let '(b, eof) := file_ReadAt (file c) size off in
            if eof then Ok (b, 0, Some InternalCache) else Ok (b, len b, None)
      end
  end.

(** [Tail] up to the select: the tail when it has grown, else the channel to
    wait on; and the rest once the channel is closed. *)
Definition tail_start (c : cache) : res (cache * (ByteRange + nat)) :=
  let! tail := Tail (index c) in
  match tail with
  | Some t =>
      if lastTailByteRange c <? To t then Ok (with_tail c (To t), inl t)
      else let! (id, idx, w) := Notify (index c) (index_world c) in Ok (with_index c idx w, inr id)
  | None => let! (id, idx, w) := Notify (index c) (index_world c) in Ok (with_index c idx w, inr id)
  end.

Definition tail_resume (c : cache) : res (cache * ByteRange) :=
  let! tail := Tail (index c) in
  let t := match tail with Some t => t | None => MkByteRange 0 0 end in
  Ok (with_tail c (To t), t).

(** ** The caching downloader *)

Record DownloadStatus := MkStatus { download_stats : DownloadStats; Resumable : bool; Complete_ : bool }.

(** The status one iteration ends with: the statistics of the progress tracker,
    whether the cache is complete and the error of the goroutines. *)
Definition runOnce (st : DownloadStats) (complete : bool) (e : option err) : DownloadStatus :=
  let resumable := match e with None => false | Some e => negb (IsInternal e) end in
  MkStatus st resumable (complete && match e with None => true | Some _ => false end).

(** What each iteration leaves: the progress tracker's statistics (which every
    iteration adds to), whether the cache is complete, the error, and whether
    the context is then done. *)
Record iteration := MkIter { it_stats : DownloadStats; it_complete : bool; it_err : option err; it_ctx : bool }.

Definition finalize (st : DownloadStatus) (state : DownloadStats) (e : option err) : DownloadStatus * option err :=
  (MkStatus state (Resumable st) (Complete_ st), e).

Fixpoint run_loop (wait : bool) (its : list iteration) (finalStats : DownloadStats) : res (DownloadStatus * option err) :=
  match its with
  | [] => NoFuel
  | it :: its =>
      let st := runOnce (it_stats it) (it_complete it) (it_err it) in
      let next := updateAfterIteration finalStats (it_stats it) in
      match it_err it with
      | None =>
          if Complete_ st then Ok (finalize st next None)
          else if negb wait then Ok (finalize st next None)
          else if it_ctx it then Ok (finalize st next (Some ErrContext))
          else run_loop wait its next
      | Some e =>
          if negb wait then Ok (finalize st next (Some e))
          else if it_ctx it then Ok (finalize st next (Some ErrContext))
          else run_loop wait its next
      end
  end.

Definition no_stats : DownloadStats := MkStats 0 0 0 0 0 0 0 0 0 0.

(** [Run] over the iterations it makes. *)
Definition Run (wait : bool) (its : list iteration) : res (DownloadStatus * option err) := run_loop wait its no_stats.

(** [handleResponse]: the error is internal whatever the cache returned. *)
Definition cache_handleResponse (r : response) (f : io) (s : cache * progressTracker) : res (cache * progressTracker * option err) :=
  let '(c, pt) := s in
  let! (c, n, e) := WriteAt c (data r) (From (range r)) f in
  match e with
  | Some _ => Ok (c, incrementCacheErrors pt, Some ErrCache)
  | None => Ok (c, incrementCacheOrStream pt n 1, None)
  end.

(** ** The specification: which bytes the cache has *)

Abbreviation spec := (list (option byte)).

Inductive op := OWrite (data : list byte) (off : Z) | ORead (size off : Z).
Inductive result := Wrote (n : Z) | Bytes (b : list byte) | Error (e : cache_err).

Definition splice {A} (l k : list A) (off : Z) : list A :=
  take (Z.to_nat off) l ++ k ++ drop (Z.to_nat (off + len k)) l.

Section spec.
Context (cs bs : Z).

Definition spec_op (s : spec) (o : op) : spec * result :=
  match o with
  | OWrite data off =>
      if negb ((0 <=? off) && (off <? cs) && (off mod bs =? 0)) then (s, Error InvalidOffset)
      else if negb (len data =? Z.min bs (cs - off)) then (s, Error InvalidBlockSize)
      else (splice s (Some <$> data) off, Wrote (len data))
  | ORead size off =>
      if negb ((0 <=? off) && (off <? cs)) then (s, Error InvalidOffset)
      else if cs <? off + size then (s, Error InvalidBlockSize)
      else match mapM id (take (Z.to_nat size) (drop (Z.to_nat off) s)) with
           | Some b => (s, Bytes b)
           | None => (s, Error UncachedRange)
           end
  end.

Fixpoint spec_ops (s : spec) (l : list op) : list result :=
  match l with
  | [] => []
  | o :: l => let '(s, r) := spec_op s o in r :: spec_ops s l
  end.

(** The calls of a client whose files never fail. *)
Definition cache_op (c : cache) (o : op) : res (cache * result) :=
  match o with
  | OWrite data off =>
      let! (c, n, e) := WriteAt c data off no_failure in
      Ok (c, match e with Some e => Error e | None => Wrote n end)
  | ORead size off =>
      let! (b, n, e) := ReadAt c size off no_failure in
      Ok (c, match e with Some e => Error e | None => Bytes b end)
  end.

Fixpoint cache_ops (c : cache) (l : list op) : res (list result) :=
  match l with
  | [] => Ok []
  | o :: l => let! (c, r) := cache_op c o in let! rs := cache_ops c l in Ok (r :: rs)
  end.

(** A read starts at a block; a buffer's length is an [int]. *)
Definition op_ok (o : op) : Prop :=
  match o with
  | OWrite data off => int64_ok off
  | ORead size off => 0 <= size /\ off mod bs = 0 /\ off + size < 2 ^ 63
  end.

Record cache_ok (c : cache) (s : spec) : Prop := {
  ca_index : exists b cc, index c = MkBR (MkByteRanges cs (nblocks cs bs) bs b) (Some cc) /\
     ranges_ok (MkByteRanges cs (nblocks cs bs) bs b) /\ Bitmap.contig_ok b cc /\
     Bitmap.chan_ok cc (index_world c) /\ Bitmap.start cc = 0 /\ Bitmap.last cc = nblocks cs bs - 1 /\
     forall p, 0 <= p < cs ->
       s !! Z.to_nat p = Some (if Bitmap.bit b (p / bs) then file c !! Z.to_nat p else None);
  ca_last : lastBlockOffset c = (nblocks cs bs - 1) * bs /\ lastBlockSize c = cs - (nblocks cs bs - 1) * bs;
  ca_file : len (file c) = cs;
  ca_spec : len s = cs;
}.

Context (Hs : sizes_ok cs bs).

Lemma len_splice {A} (l k : list A) off : 0 <= off -> off + len k <= len l -> len (splice l k off) = len l.
Proof. intros. unfold splice, len in *. rewrite !length_app, length_take, length_drop. lia. Qed.

Lemma splice_lookup {A} (l k : list A) off p : 0 <= off -> off + len k <= len l -> 0 <= p ->
  splice l k off !! Z.to_nat p =
    if (off <=? p) && (p <? off + len k) then k !! Z.to_nat (p - off) else l !! Z.to_nat p.
Proof.
  intros Ho Hl Hp. unfold splice, len in *.
  destruct (Z.leb_spec off p); cbn [andb].
  - rewrite lookup_app_r by (rewrite length_take; lia). rewrite length_take.
    replace (Z.to_nat p - Z.to_nat off `min` length l)%nat with (Z.to_nat (p - off)) by lia.
    destruct (Z.ltb_spec p (off + Z.of_nat (length k))).
    + by rewrite lookup_app_l by lia.
    + rewrite lookup_app_r, lookup_drop by lia. f_equal. lia.
  - rewrite lookup_app_l by (rewrite length_take; lia). apply lookup_take_lt. lia.
Qed.

Lemma file_WriteAt_splice f b off : 0 <= off -> off + len b <= len f -> file_WriteAt f b off = splice f b off.
Proof.
  intros Ho Hl. unfold file_WriteAt. replace (Z.to_nat (off - len f)) with O by (unfold len in *; lia).
  cbn. by rewrite app_nil_r.
Qed.

Lemma fresh_ok f br : NewByteRanges cs bs = Ok br -> len f = cs ->
  exists c, NewLocalDownloadCache f br (Bitmap.Chans 0 ∅) = Ok c /\ cache_ok c (replicate (Z.to_nat cs) None).
Proof.
  intros E Hf. pose proof Hs as (Hcs & Hbs & Hsum). pose proof (nblocks_bounds cs bs Hs) as [Hpos Hn].
  destruct (newByteRanges_spec cs bs Hs) as [En Hok]. pose proof Hok as (_ & _ & Hb & Hl). cbn in Hb, Hl.
  destruct (Bitmap.cstate_init (Bitmap.New (nblocks cs bs)) 0 (nblocks cs bs) Hb) as (c0 & Ec & [Hc0 Hw0] & Es0 & El0); [lia..|].
  unfold NewByteRanges, Bitmap.NewContiguousWithBitmap in E. rewrite En in E. cbn [rbind bitmap bitmapSize] in E.
  rewrite (proj2 (Z.ltb_ge _ _)), Ec in E by lia. cbn in E. injection E as <-.
  destruct (Bitmap.New_spec (nblocks cs bs)) as (_ & Hz & _).
  unfold NewLocalDownloadCache. cbn [ranges contentSize blockSize]. rewrite go_rem_pos by lia. cbn [rbind].
  pose proof (Z.div_mod cs bs ltac:(lia)) as Hdm. pose proof (Z.mod_pos_bound cs bs ltac:(lia)) as Hm.
  rewrite (int64_id (cs - cs mod bs)) by (unfold int64_ok; lia).
  set (br := MkBR _ _). set (lb := (nblocks cs bs - 1) * bs).
  assert (0 <= lb < cs) by (unfold lb; nia).
  assert ((if cs mod bs =? 0 then MkCache f br (Bitmap.Chans 0 ∅) 0 bs (int64 (cs - cs mod bs - bs))
      else MkCache f br (Bitmap.Chans 0 ∅) 0 (cs mod bs) (cs - cs mod bs)) = MkCache f br (Bitmap.Chans 0 ∅) 0 (cs - lb) lb) as ->.
  { destruct (Z.eqb_spec (cs mod bs) 0) as [E0|E0].
    - assert (nblocks cs bs = cs / bs) as Enb by nia. assert (cs - bs = lb) as El by (unfold lb; nia).
      rewrite E0, Z.sub_0_r, El, int64_id by (unfold int64_ok; lia). f_equal. lia.
    - assert (nblocks cs bs = cs / bs + 1) as Enb by nia. f_equal; unfold lb; nia. }
  eexists. split; [done|]. constructor; [|done|done|unfold len; rewrite length_replicate; lia].
  exists (Bitmap.New (nblocks cs bs)), c0. split_and!; try done. intros p Hp. rewrite Hz.
  by apply lookup_replicate_2; lia.
Qed.

(** ** Writing *)

Lemma valid_spec c s off size : cache_ok c s -> int64_ok off ->
  validateOffsetAndSize c off size = Ok
    (if negb ((0 <=? off) && (off <? cs) && (off mod bs =? 0)) then Some InvalidOffset
     else if negb (size =? Z.min bs (cs - off)) then Some InvalidBlockSize else None).
Proof.
  intros [(b & cc & Ei & _) [Elo Els] _ _] Hoff. unfold validateOffsetAndSize, block_size. rewrite Ei, Elo, Els.
  cbn [ranges blockSize]. pose proof Hs as (Hcs & Hbs & Hsum). pose proof (nblocks_bounds cs bs Hs) as [Hpos Hn].
  destruct (Z.ltb_spec off 0) as [?|H0]; cbn [orb]; [by rewrite (proj2 (Z.leb_gt 0 off)) by lia|].
  rewrite (proj2 (Z.leb_le 0 off)) by lia. cbn [andb].
  pose proof (Z.div_mod off bs ltac:(lia)) as Hdm. pose proof (Z.mod_pos_bound off bs ltac:(lia)) as Hm.
  destruct (Z.ltb_spec ((nblocks cs bs - 1) * bs) off) as [Hgt|Hle].
  - destruct (Z.ltb_spec off cs), (Z.eqb_spec (off mod bs) 0); cbn; try done. exfalso.
    rewrite e, Z.add_0_r in Hdm. assert (nblocks cs bs <= off / bs) by nia. nia.
  - rewrite (proj2 (Z.ltb_lt off cs)) by nia. cbn [andb]. unfold int64_ok in Hoff. rewrite go_rem_pos by lia. cbn [rbind].
    destruct (Z.eqb_spec (off mod bs) 0) as [E0|]; cbn [negb]; [|done].
    destruct (Z.eqb_spec off ((nblocks cs bs - 1) * bs)) as [->|Hne].
    + rewrite Z.min_r by nia. destruct (Z.ltb_spec bs size); destruct (Z.eqb_spec size (cs - (nblocks cs bs - 1) * bs)); cbn; try done.
      exfalso. nia.
    + rewrite E0, Z.add_0_r in Hdm. assert (off / bs < nblocks cs bs - 1) by nia.
      assert (off + bs <= cs) by nia. rewrite Z.min_l by lia.
      destruct (Z.ltb_spec bs size), (Z.eqb_spec size bs); cbn; try done. lia.
Qed.

Lemma write_ok c s data off : cache_ok c s -> int64_ok off ->
  exists c', cache_op c (OWrite data off) = Ok (c', (spec_op s (OWrite data off)).2) /\
    cache_ok c' (spec_op s (OWrite data off)).1.
Proof.
  intros Hok Hoff. cbn [cache_op spec_op]. unfold WriteAt. rewrite (valid_spec c s off (len data) Hok Hoff).
  destruct (negb ((0 <=? off) && (off <? cs) && (off mod bs =? 0))) eqn:Ev; [by exists c|].
  destruct (negb (len data =? Z.min bs (cs - off))) eqn:Esz; [by exists c|].
  cbn [rbind no_failure io_err io_short sync_err save_err]. rewrite Z.eqb_refl. cbn [negb].
  apply negb_false_iff, Z.eqb_eq in Esz as Elen. apply negb_false_iff, andb_true_iff in Ev as [[H0 H1]%andb_true_iff Hal].
  apply Z.leb_le in H0. apply Z.ltb_lt in H1. apply Z.eqb_eq in Hal.
  pose proof Hs as (Hcs & Hbs & Hsum). pose proof (len_nonneg data).
  destruct Hok as [(b & cc & Ei & Hr & Hc & Hw & Es0 & El0 & Hsp) Hlast Hf Hlen].
  assert (Elf : len (Some <$> data) = len data) by (unfold len; by rewrite length_fmap).
  rewrite take_ge by (unfold len; lia). rewrite file_WriteAt_splice by lia.
  cbn [index index_world with_file]. rewrite Ei. unfold Set_. cbn [ranges contiguous].
  destruct (Block_inside _ off Hr) as (-> & Hrange & _); [cbn; lia|]. cbn [contentSize blockSize bitmapSize rbind] in *.
  rewrite (proj2 (Z.leb_le 0 (off / bs))) by lia. cbn [checked rbind bitmap].
  destruct (Bitmap.Contiguous_Set_step b cc (index_world c) (off / bs) Hc Hw) as (b' & c' & w' & E & Heff).
  rewrite E. cbn [rbind]. destruct Heff as [Hc' Hw' Hlb [El' [Es' _]] Hbits _ _].
  eexists. split; [done|]. cbn [fst]. constructor; cbn [index index_world file lastBlockOffset lastBlockSize with_index with_file].
  - exists b', c'. split_and!; try done; try congruence.
    + destruct Hr as (? & ? & _ & Hl). split_and!; try done; [apply Hc'|cbn in *; lia].
    + intros p Hp. rewrite !splice_lookup by lia.
      rewrite Elf.
      pose proof (Z.div_mod off bs ltac:(lia)) as Hdm. rewrite Hal, Z.add_0_r in Hdm.
      rewrite Hbits, El0.
      assert ((off <=? p) && (p <? off + len data) = true <-> p / bs = off / bs) as Hin.
      { rewrite andb_true_iff, Z.leb_le, Z.ltb_lt, Elen. pose proof (Z.div_mod p bs ltac:(lia)). pose proof (Z.mod_pos_bound p bs ltac:(lia)).
        split; [intros; nia|intros Ed; rewrite Ed in *; lia]. }
      destruct ((off <=? p) && (p <? off + len data)) eqn:Ep.
      * rewrite decide_True by (split; [by apply Hin|lia]). rewrite list_lookup_fmap. bool_to_prop.
        destruct (data !! Z.to_nat (p - off)) eqn:Ed; [done|]. apply lookup_ge_None in Ed. unfold len in *. lia.
      * rewrite decide_False; [by apply Hsp|]. intros [Ed _]. apply Hin in Ed. congruence.
  - done.
  - rewrite len_splice; [done|lia|lia].
  - rewrite len_splice; [done|lia|lia].
Qed.
(** ** Reading *)

Lemma cached_check_spec c b cc limit fuel : forall j,
  index c = MkBR (MkByteRanges cs (nblocks cs bs) bs b) (Some cc) -> ranges_ok (MkByteRanges cs (nblocks cs bs) bs b) ->
  0 <= j -> limit <= cs -> (0 < fuel)%nat -> limit - j * bs < Z.of_nat fuel ->
  (cached_check fuel c (j * bs) limit = Ok None /\ forall k, j <= k -> k * bs < limit -> Bitmap.bit b k = true) \/
  (cached_check fuel c (j * bs) limit = Ok (Some UncachedRange) /\
   exists k, j <= k /\ k * bs < limit /\ Bitmap.bit b k = false).
Proof.
  induction fuel as [|fuel IH]; intros j Ei Hr Hj Hl Hf0 Hf; [lia|]; pose proof Hs as (Hcs & Hbs & Hsum); cbn [cached_check].
  destruct (Z.ltb_spec (j * bs) limit) as [Hlt|Hge].
  - rewrite Ei. cbn [ranges]. destruct (IsSet_spec _ (j * bs) Hr) as [_ ->]. cbn [contentSize blockSize bitmap rbind].
      rewrite (proj2 (Z.leb_le 0 (j * bs))), (proj2 (Z.ltb_lt (j * bs) cs)), Z.div_mul by nia. cbn [andb].
      destruct (Bitmap.bit b j) eqn:Eb; cbn [negb].
    + unfold block_size. rewrite Ei. cbn [ranges blockSize]. rewrite int64_id by (unfold int64_ok; nia).
        replace (j * bs + bs) with ((j + 1) * bs) by lia.
        destruct (IH (j + 1) Ei Hr ltac:(lia) Hl ltac:(lia) ltac:(nia)) as [[-> Hall]|(-> & k & Hk & Hk2 & Hk3)]; [left|right].
      * split; [done|]. intros k Hk Hk2. destruct (decide (k = j)) as [->|]; [done|]. apply Hall; [lia|done].
      * split; [done|]. exists k. split_and!; try done. lia.
    + right. split; [done|]. exists j. split_and!; try done; lia.
  - left. split; [done|]. intros k Hk Hk2. exfalso. nia.
Qed.

Lemma len_slice {A} (l : list A) off size : 0 <= off -> 0 <= size -> off + size <= len l ->
  len (take (Z.to_nat size) (drop (Z.to_nat off) l)) = size.
Proof. intros. unfold len in *. rewrite length_take, length_drop. lia. Qed.

Lemma slice_lookup {A} (l : list A) off size i : (i < Z.to_nat size)%nat -> 0 <= off ->
  take (Z.to_nat size) (drop (Z.to_nat off) l) !! i = l !! Z.to_nat (off + Z.of_nat i).
Proof. intros Hi Ho. rewrite lookup_take_lt, lookup_drop by done. f_equal. lia. Qed.

Lemma read_ok c s size off : cache_ok c s -> op_ok (ORead size off) ->
  cache_op c (ORead size off) = Ok (c, (spec_op s (ORead size off)).2).
Proof.
  intros Hok (Hsz & Hal & Hsum). cbn [cache_op spec_op]. unfold ReadAt, validateOffset, contentLength.
  destruct Hok as [(b & cc & Ei & Hr & _ & _ & _ & _ & Hsp) _ Hf Hlen]. rewrite Ei. cbn [ranges contentSize].
  pose proof Hs as (Hcs & Hbs & Hcb).
  destruct (Z.ltb_spec off 0) as [?|H0]; cbn [orb]; [by rewrite (proj2 (Z.leb_gt 0 off)) by lia|].
  rewrite (proj2 (Z.leb_le 0 off)) by lia. cbn [andb].
  destruct (Z.leb_spec cs off) as [?|H1]; [by rewrite (proj2 (Z.ltb_ge off cs)) by lia|].
  rewrite (proj2 (Z.ltb_lt off cs)) by lia. cbn [negb]. rewrite int64_id by (unfold int64_ok; lia).
  destruct (Z.ltb_spec cs (off + size)) as [?|H2]; [done|].
  pose proof (Z.div_mod off bs ltac:(lia)) as Hdm. rewrite Hal, Z.add_0_r, (Z.mul_comm bs) in Hdm.
  unfold validateCachedLocked. rewrite int64_id by (unfold int64_ok; lia).
  destruct (cached_check_spec c b cc (off + size) (S (Z.to_nat size)) (off / bs) Ei Hr) as [[Ec Hall]|(Ec & k & Hk & Hk2 & Hk3)];
    [apply Z.div_pos; lia|lia|lia|lia|..]; rewrite <- Hdm in Ec; rewrite Ec; cbn [rbind no_failure io_err].
  - unfold file_ReadAt. rewrite (len_slice (file c)) by lia. rewrite Z.ltb_irrefl. cbn [rbind].
    assert (mapM id (take (Z.to_nat size) (drop (Z.to_nat off) s)) =
            Some (take (Z.to_nat size) (drop (Z.to_nat off) (file c)))) as ->; [|done].
    apply mapM_Some. apply Forall2_same_length_lookup_2.
    { rewrite !length_take, !length_drop. unfold len in *. lia. }
    intros i x y Hx Hy. assert (i < Z.to_nat size)%nat as Hi.
    { apply lookup_lt_Some in Hx. rewrite length_take in Hx. lia. }
    rewrite slice_lookup in Hx by done. rewrite slice_lookup in Hy by done. rewrite Hsp in Hx by lia.
    rewrite (Hall ((off + Z.of_nat i) / bs)) in Hx.
    + cbn. congruence.
    + apply Z.div_le_mono; lia.
    + pose proof (Z.div_mod (off + Z.of_nat i) bs). pose proof (Z.mod_pos_bound (off + Z.of_nat i) bs). lia.
  - assert (mapM id (take (Z.to_nat size) (drop (Z.to_nat off) s)) = None) as ->; [|done].
    apply mapM_None, Exists_exists. exists None. split; [|done]. apply list_elem_of_lookup.
    exists (Z.to_nat (k * bs - off)). assert (0 <= k * bs - off) by nia.
    rewrite slice_lookup by lia. replace (off + Z.of_nat (Z.to_nat (k * bs - off))) with (k * bs) by lia.
    rewrite Hsp by lia. rewrite Z.div_mul by lia. by rewrite Hk3.
Qed.

Lemma ops_ok l : forall c s, Forall op_ok l -> cache_ok c s -> cache_ops c l = Ok (spec_ops s l).
Proof.
  induction l as [|o l IH]; intros c s Hl Hok; [done|]. apply Forall_cons in Hl as [Ho Hl]. cbn [cache_ops spec_ops].
  destruct o as [data off|size off].
  - destruct (write_ok c s data off Hok Ho) as (c' & -> & Hok'). cbn [rbind].
    destruct (spec_op s (OWrite data off)) as [s' r]. by rewrite (IH c' s').
  - rewrite (read_ok c s size off Hok Ho). cbn [rbind].
    destruct (spec_op s (ORead size off)) as [s' r] eqn:E. cbn [snd].
    assert (s' = s) as -> by (cbn in E; repeat case_match; congruence). by rewrite (IH c s).
Qed.
End spec.

(** ** Properties *)

(** C9: the local cache refines its specification, a list that holds, for every
    position of the file, the byte last written there or nothing.  For any
    sequence of writes and of reads that start at a block, on files that do not
    fail, every call returns what the specification does: a write is accepted
    exactly when it is one whole block at its own offset, and names the right
    error otherwise, leaving the cache as it was; a read returns the bytes
    written when all of them are there, and an error when one is missing. *)
Theorem cache_refines (cs bs : Z) (f : list byte) (l : list op)
    (Hs : sizes_ok cs bs) (Hf : len f = cs) (Hl : Forall (op_ok bs) l) :
  exists idx c, NewByteRanges cs bs = Ok idx /\ NewLocalDownloadCache f idx (Bitmap.Chans 0 ∅) = Ok c /\
    cache_ops c l = Ok (spec_ops cs bs (replicate (Z.to_nat cs) None) l).
Proof.
  destruct (brruns_spec cs bs Hs) as (idx & E & _).
  destruct (fresh_ok cs bs Hs f idx E Hf) as (c & Ec & Hok).
  exists idx, c. split_and!; try done. by apply (ops_ok cs bs Hs).
Qed.

(** A file of six bytes in blocks of four. *)
Definition six : list byte := [x00; x00; x00; x00; x00; x00].

Lemma cache_refines_witness :
  sizes_ok 6 4 /\ len six = 6 /\
  exists idx c, NewByteRanges 6 4 = Ok idx /\ NewLocalDownloadCache six idx (Bitmap.Chans 0 ∅) = Ok c /\
    cache_ops c [OWrite [x61] 0; OWrite [x65; x66] 4; ORead 2 4; ORead 6 0] =
      Ok [Error InvalidBlockSize; Wrote 2; Bytes [x65; x66]; Error UncachedRange].
Proof.
  assert (Hs : sizes_ok 6 4) by (unfold sizes_ok; lia).
  assert (Hl : Forall (op_ok 4) [OWrite [x61] 0; OWrite [x65; x66] 4; ORead 2 4; ORead 6 0]).
  { repeat constructor; vm_compute; congruence. }
  split; [exact Hs|]. split; [reflexivity|].
  destruct (cache_refines 6 4 six _ Hs eq_refl Hl) as (idx & c & E1 & E2 & E3).
  exists idx, c. split; [exact E1|]. split; [exact E2|]. rewrite E3. vm_compute. reflexivity.
Defined.

(** The alignment matters: a read that starts inside a block and ends in the
    next one checks only the first, and returns bytes that were never cached,
    which the documentation of [ReadAt] excludes. *)
Lemma unaligned_read_uncached :
  (let! idx := NewByteRanges 6 4 in
   let! c := NewLocalDownloadCache six idx (Bitmap.Chans 0 ∅) in
   cache_ops c [OWrite [x61; x62; x63; x64] 0; ORead 2 3]) = Ok [Wrote 4; Bytes [x64; x00]].
Proof. vm_compute. reflexivity. Qed.

(** [Tail] does not report a first block of one byte: it waits although the tail
    has grown, because the last reported tail starts at 0. *)
Lemma tail_waits_on_first_byte :
  (let! idx := NewByteRanges 2 1 in
   let! c := NewLocalDownloadCache [x00; x00] idx (Bitmap.Chans 0 ∅) in
   let! (c, _, _) := WriteAt c [x61] 0 no_failure in
   let! t := Tail (index c) in
   let! (_, r) := tail_start c in
   Ok (t, match r with inl _ => true | inr _ => false end)) = Ok (Some (MkByteRange 0 0), false).
Proof. vm_compute. reflexivity. Qed.

(** Each iteration's statistics contain those of the earlier ones, and [Run] adds
    them up: what the first iteration downloaded is counted twice. *)
Lemma Run_counts_twice :
  let after1 := add_downloaded no_stats 1 10 in        (* one block of 10 bytes, then an error *)
  let after2 := add_downloaded after1 1 10 in          (* the other block *)
  exists st, Run true [MkIter after1 false (Some ErrGet) false; MkIter after2 true None false] = Ok (st, None) /\
    DownloadedBytes after2 = 20 /\ DownloadedBytes (download_stats st) = 30 /\ DownloadedBlocks (download_stats st) = 3.
Proof. eexists. split; [vm_compute; reflexivity|]. split_and!; vm_compute; reflexivity. Qed.

(** With [waitForCompletion] an internal error, which is not resumable, is
    retried like any other, for as long as the context lasts. *)
Lemma Run_retries_internal_errors n st :
  Run true (replicate n (MkIter st false (Some ErrCache) false)) = NoFuel /\
  Resumable (runOnce st false (Some ErrCache)) = false.
Proof.
  split; [|done]. unfold Run. generalize no_stats. induction n as [|n IH]; intros s; [done|]. cbn. apply IH.
Qed.
