(* ===== verification/Syncsort.v ===== *)
(** * The streaming sequencer (sync/syncsort/heap.go)

    Items numbered by [NextItem] arrive over a channel in any order and are
    scanned in the order of their numbers.  The goroutine [order], the channel
    it sends to and the scanner are a step machine.  container/heap is the
    algorithm of [Heap], whose loops are those of the package. *)

From stdpp Require Import base list option numbers gmap sorting.
From Stdlib Require Import ZArith Lia.
From S2P Require Import Prelude.
From S2P Require Heap.

Open Scope list_scope.
Open Scope Z_scope.
Open Scope go_scope.

Section sequencer.
Context {T : Type}.

Record Item := MkItem { V : T; s : Z }.

Inductive nextItem := Next (v : T) | NextErr.

Definition Less (a b : Item) : bool := s a <? s b.

Definition uint64 (z : Z) : Z := z mod 2 ^ 64.

(** [NextItem]: the counter afterwards and the numbered item. *)
Definition NextItem (next : Z) (item : T) : Z * Item :=
  let n := uint64 (next + 1) in (n, MkItem item n).

(** The points of [order]: its select; the drain loop, with whether an item was
    received; sending an item; sending the error of the context; returned. *)
Inductive order_pc :=
| OSelect
| ODrain (ok : bool)
| OSend (v : T) (ok : bool)
| OSendErr
| ODone.

Record Sequencer := MkSeq {
  heap : list Item;
  expected : Z;
  pc : order_pc;
  scanCh : option nextItem;
  scan_closed : bool;
  scan_err : bool;               (* err is not nil *)
  scanned : list (option T);     (* what each Scan that returned true left in v *)
}.

Definition NewSequencer : Sequencer := MkSeq [] 1 OSelect None false false [].

Definition with_pc (q : Sequencer) (p : order_pc) : Sequencer :=
  MkSeq (heap q) (expected q) p (scanCh q) (scan_closed q) (scan_err q) (scanned q).

Inductive action :=
| AItem (i : Item)     (* order receives an item *)
| AClosed              (* order receives from the closed input channel *)
| ACtx                 (* its select takes ctx.Done *)
| AOrder               (* its next step, outside of the select *)
| AScan.               (* the client calls Scan *)

Definition receive (q : Sequencer) (i : Item) : res Sequencer :=
  let! h := Heap.Push Less (heap q) i in
  Ok (MkSeq h (expected q) (ODrain true) (scanCh q) (scan_closed q) (scan_err q) (scanned q)).

Definition drain (q : Sequencer) (ok : bool) : res Sequencer :=
  match heap q with
  | m :: _ =>
      if s m =? expected q then
        let! (h, item) := Heap.Remove Less (heap q) 0 in
        Ok (MkSeq h (uint64 (expected q + 1)) (OSend (V item) ok) (scanCh q) (scan_closed q) (scan_err q) (scanned q))
      else Ok (with_pc q OSelect)
  | [] =>
      if ok then Ok (with_pc q OSelect)
      else Ok (MkSeq (heap q) (expected q) ODone (scanCh q) true (scan_err q) (scanned q))
  end.

(** A send to the channel, whose capacity is one. *)
Definition send (q : Sequencer) (n : nextItem) (p : order_pc) : option (res Sequencer) :=
  match scanCh q with
  | Some _ => None
  | None => Some (Ok (MkSeq (heap q) (expected q) p (Some n) (scan_closed q) (scan_err q) (scanned q)))
  end.

Definition order (q : Sequencer) (a : action) : option (res Sequencer) :=
  match pc q, a with
  | OSelect, AItem i => Some (receive q i)
  | OSelect, AClosed => Some (Ok (with_pc q (ODrain false)))
  | OSelect, ACtx => Some (Ok (with_pc q OSendErr))
  | ODrain ok, AOrder => Some (drain q ok)
  | OSend v ok, AOrder => send q (Next v) (ODrain ok)
  | OSendErr, AOrder => send q NextErr ODone
  | _, _ => None
  end.

(** [Scan]: blocked ([None]), or the scanner afterwards. *)
Definition Scan (q : Sequencer) : option (Sequencer * bool) :=
  if scan_err q then Some (q, false)
  else
    match scanCh q with
    | Some n =>
        let '(e, v) := match n with Next v => (false, Some v) | NextErr => (true, None) end in
        Some (MkSeq (heap q) (expected q) (pc q) None (scan_closed q) e (scanned q ++ [v]), true)
    | None => if scan_closed q then Some (q, false) else None
    end.

Definition step (q : Sequencer) (a : action) : option (res Sequencer) :=
  match a with
  | AScan => '(q, _) ← Scan q; Some (Ok q)
  | _ => order q a
  end.

Fixpoint run (q : Sequencer) (l : list action) : option (res Sequencer) :=
  match l with
  | [] => Some (Ok q)
  | a :: l => match step q a with Some (Ok q) => run q l | r => r end
  end.

(** ** What has been received, and what has been delivered *)

Definition received (l : list action) : list Item := omap (fun a => match a with AItem i => Some i | _ => None end) l.

Definition in_flight (q : Sequencer) : list T :=
  match scanCh q with Some (Next v) => [v] | _ => [] end ++ match pc q with OSend v _ => [v] | _ => [] end.

#[export] Instance Less_weak : Heap.StrictWeak Less := Heap.on_weak s Z.ltb Heap.Z_ltb_weak.

(** The value given to the [k]-th call of [NextItem]. *)
Context (item : Z -> T).

Definition numbered (i : Item) : Prop := V i = item (s i) /\ 1 <= s i.

(** [rs] has been received; [cancelled]: the context's error is on its way. *)
Record seq_ok (rs : list Item) (q : Sequencer) : Prop := {
  sq_heap : Heap.is_heap Less (heap q);
  sq_items : (s <$> heap q) ++ seqZ 1 (expected q - 1) ≡ₚ s <$> rs;
  sq_numbered : Forall numbered (heap q);
  sq_expected : 1 <= expected q;
  sq_out : exists vs, scanned q = (Some <$> vs) ++ (if scan_err q then [None] else []) /\
             vs ++ in_flight q = item <$> seqZ 1 (expected q - 1);
  sq_due : match pc q with ODrain _ | OSend _ _ => True | _ => (expected q ∉ s <$> heap q) end;
  sq_done : scan_closed q = true -> heap q = [] /\ pc q = ODone;
}.

Lemma uint64_id z : uint64_ok z -> uint64 z = z.
Proof. unfold uint64_ok, uint64. intros. by apply Z.mod_small. Qed.

Lemma seqZ_snoc m n : 0 <= n -> seqZ m (n + 1) = seqZ m n ++ [m + n].
Proof. intros Hn. rewrite seqZ_app by lia. done. Qed.

Lemma init_ok : seq_ok [] NewSequencer.
Proof.
  constructor; cbn; try done; try (by constructor).
  - by exists [].
  - by apply not_elem_of_nil.
Qed.

(** The steps that neither receive nor take an item from the heap. *)
Lemma ok_move rs q p : seq_ok rs q -> pc q <> ODone ->
  match pc q with OSend _ _ => False | _ => True end -> match p with OSend _ _ => False | _ => True end ->
  match p with ODrain _ => True | _ => expected q ∉ s <$> heap q end ->
  seq_ok rs (with_pc q p).
Proof.
  intros [Hh Hi Hn He (vs & Ho1 & Ho2) _ Hd] Hp Hq Hp' Hdue. constructor; cbn; try done.
  - exists vs. split; [done|]. unfold in_flight in *. cbn. destruct (pc q), p; try done; by rewrite ?app_nil_r in *.
  - by destruct p.
  - intros Hc. by destruct (Hd Hc).
Qed.

Lemma receive_ok rs q i : seq_ok rs q -> pc q = OSelect -> numbered i ->
  exists q', receive q i = Ok q' /\ seq_ok (rs ++ [i]) q'.
Proof.
  intros [Hh Hi Hn He (vs & Ho1 & Ho2) Hdue Hd] Hp Hnum. unfold receive.
  destruct (Heap.Push_spec Less (heap q) i Hh) as (h & -> & Hperm & Hh'). cbn [rbind].
  eexists. split; [done|]. rewrite Hp in Hdue. constructor; cbn; try done.
  - rewrite Hperm, fmap_cons, fmap_app. cbn. rewrite <- Hi. by rewrite (Permutation_app_comm _ [s i]).
  - rewrite Hperm. by constructor.
  - exists vs. split; [done|]. unfold in_flight in *. cbn. by rewrite Hp in Ho2.
  - intros Hc. destruct (Hd Hc) as [_ ?]. congruence.
Qed.

Lemma min_head (h : list Item) m l e : Heap.is_heap Less h -> h = m :: l -> Forall (fun i => e <= s i) h ->
  s m <> e -> (e ∉ s <$> h).
Proof.
  intros Hh -> Hall Hne (i & Ei & Hin)%list_elem_of_fmap.
  destruct (Heap.Pop_spec Less (m :: l) m Hh eq_refl) as (h' & _ & Hp & _ & Hmin).
  pose proof (Forall_inv Hall) as Hm. cbn in Hm. rewrite <- Hp in Hin. apply elem_of_cons in Hin as [->|Hin]; [congruence|].
  specialize (Hmin i Hin). unfold Less in Hmin. bool_to_prop. lia.
Qed.

(** What is in the heap is not numbered below what is expected. *)
Lemma heap_ge rs q : seq_ok rs q -> NoDup (s <$> rs) -> Forall (fun i => expected q <= s i) (heap q).
Proof.
  intros [Hh Hi Hn He _ _ _] Hnd. rewrite <- Hi in Hnd. apply NoDup_app in Hnd as (_ & Hdis & _).
  apply Forall_forall. intros i Hin. rewrite Forall_forall in Hn. destruct (Hn i Hin) as [_ H1].
  destruct (Z.le_gt_cases (expected q) (s i)) as [?|Hlt]; [done|]. exfalso.
  apply (Hdis (s i)); [apply list_elem_of_fmap; eauto|apply elem_of_seqZ; lia].
Qed.

Lemma drain_ok rs q ok : seq_ok rs q -> NoDup (s <$> rs) -> len rs < 2 ^ 64 - 1 -> pc q = ODrain ok ->
  exists q', drain q ok = Ok q' /\ seq_ok rs q'.
Proof.
  intros Hok Hnd Hlen Hp. pose proof (heap_ge rs q Hok Hnd) as Hge. pose proof Hok as [Hh Hi Hn He (vs & Ho1 & Ho2) Hdue Hd].
  unfold drain. destruct (heap q) as [|m l] eqn:Eh.
  - assert (expected q ∉ s <$> heap q) by (rewrite Eh; cbn; apply not_elem_of_nil).
    destruct ok; eexists; (split; [done|]); [apply ok_move; try done; by rewrite Hp|].
    constructor; cbn; rewrite ?Eh; try done; try (by rewrite Eh in Hi); [|by apply not_elem_of_nil].
    exists vs. split; [done|]. unfold in_flight in *. cbn. by rewrite Hp in Ho2.
  - destruct (Z.eqb_spec (s m) (expected q)) as [Em|Hne].
    + rewrite <- Eh in *. destruct (Heap.Remove_spec Less (heap q) 0 m Hh) as (h' & -> & Hperm & Hh'); [by rewrite Eh|].
      cbn [rbind]. eexists. split; [done|].
      assert (Hm : numbered m /\ Forall numbered h') by (rewrite <- Hperm in Hn; by apply Forall_cons in Hn).
      destruct Hm as [[Hv H1] Hn'].
      assert (expected q - 1 < len rs) as Hb.
      { apply Permutation_length in Hi. rewrite length_app, length_seqZ, !length_fmap in Hi.
        rewrite Eh in Hi. cbn in Hi. unfold len. lia. }
      assert (uint64 (expected q + 1) = expected q + 1) as Eu by (apply uint64_id; unfold uint64_ok; lia).
      constructor; cbn; rewrite ?Eu; try done; try lia.
      * replace (expected q + 1 - 1) with (expected q - 1 + 1) by lia. rewrite seqZ_snoc by lia.
        replace (1 + (expected q - 1)) with (s m) by lia. rewrite <- Hi, <- Hperm. cbn.
        rewrite app_assoc. by rewrite (Permutation_app_comm _ [s m]).
      * exists vs. split; [done|]. unfold in_flight in *. cbn. rewrite Hp, app_nil_r in Ho2.
        replace (expected q + 1 - 1) with (expected q - 1 + 1) by lia. rewrite seqZ_snoc by lia.
        rewrite fmap_app, <- Ho2, <- app_assoc. cbn. do 3 f_equal. rewrite Hv. f_equal. lia.
      * intros Hc. destruct (Hd Hc) as [_ ?]. congruence.
    + eexists. split; [done|]. rewrite <- Eh in *. apply ok_move; try done; try (by rewrite Hp).
      eapply min_head; eauto.
Qed.

Lemma send_ok rs q n p r : seq_ok rs q -> send q n p = Some r ->
  (exists v ok, pc q = OSend v ok /\ n = Next v /\ p = ODrain ok) \/ (pc q = OSendErr /\ n = NextErr /\ p = ODone) ->
  exists q', r = Ok q' /\ seq_ok rs q'.
Proof.
  intros [Hh Hi Hn He (vs & Ho1 & Ho2) Hdue Hd] E Hor. unfold send in E.
  destruct (scanCh q) eqn:Ec; [done|]. injection E as <-. eexists. split; [done|].
  assert (scan_closed q = false) as Hcl.
  { destruct (scan_closed q); [|done]. destruct (Hd eq_refl) as [_ Hpc]. destruct Hor as [(v & ok & E & _)|(E & _)]; congruence. }
  constructor; cbn; rewrite ?Hcl; try done.
  - exists vs. split; [done|]. unfold in_flight in *. cbn. rewrite Ec in Ho2.
    destruct Hor as [(v & ok & Ep & -> & ->)|(Ep & -> & ->)]; by rewrite Ep in Ho2.
  - destruct Hor as [(v & ok & Ep & -> & ->)|(Ep & -> & ->)]; rewrite Ep in Hdue; done.
Qed.

Lemma Scan_ok rs q q' b : seq_ok rs q -> Scan q = Some (q', b) -> seq_ok rs q'.
Proof.
  intros [Hh Hi Hn He (vs & Ho1 & Ho2) Hdue Hd] E. unfold Scan in E. destruct (scan_err q) eqn:Ee; [injection E as <- <-; constructor; try done; exists vs; rewrite Ee; done|].
  destruct (scanCh q) as [[v|]|] eqn:Ec.
  - injection E as <- <-. constructor; cbn; try done. exists (vs ++ [v]). rewrite Ho1, fmap_app, !app_nil_r.
    split; [done|]. unfold in_flight in *. cbn. rewrite Ec in Ho2. by rewrite <- app_assoc.
  - injection E as <- <-. constructor; cbn; try done. exists vs. rewrite Ho1, app_nil_r.
    split; [done|]. unfold in_flight in *. cbn. by rewrite Ec in Ho2.
  - destruct (scan_closed q) eqn:Ecl; [|done]. injection E as <- <-.
    constructor; try done; [exists vs; rewrite Ee; done|by rewrite Ecl].
Qed.

Lemma order_step_ok rs q a r : seq_ok rs q -> step q a = Some r ->
  let rs' := rs ++ received [a] in
  Forall numbered rs' -> NoDup (s <$> rs') -> len rs' < 2 ^ 64 - 1 ->
  exists q', r = Ok q' /\ seq_ok rs' q'.
Proof.
  intros Hok E rs' Hnum Hnd Hlen. destruct a; cbn in E; unfold rs' in *; cbn in *; rewrite ?app_nil_r in *.
  5: { destruct (Scan q) as [[q' b]|] eqn:Es; [|done]. injection E as <-. eexists. split; [done|]. by eapply Scan_ok. }
  all: unfold order in E; destruct (pc q) eqn:Ep; try done.
  - injection E as <-. apply receive_ok; try done. rewrite Forall_app in Hnum. by destruct Hnum as [_ ?%Forall_inv].
  - injection E as <-. eexists. split; [done|]. apply ok_move; try done; by rewrite Ep.
  - injection E as <-. eexists. split; [done|]. pose proof (sq_due _ _ Hok) as Hdue. rewrite Ep in Hdue.
    apply ok_move; try done; by rewrite Ep.
  - injection E as <-. by apply drain_ok.
  - eapply send_ok; eauto 10.
  - eapply send_ok; eauto 10.
Qed.

Lemma received_app l l' : received (l ++ l') = received l ++ received l'.
Proof. apply omap_app. Qed.

Lemma order_run_ok l : forall rs q r, seq_ok rs q -> run q l = Some r ->
  Forall numbered (rs ++ received l) -> NoDup (s <$> rs ++ received l) -> len (rs ++ received l) < 2 ^ 64 - 1 ->
  exists q', r = Ok q' /\ seq_ok (rs ++ received l) q'.
Proof.
  induction l as [|a l IH]; intros rs q r Hok E Hnum Hnd Hlen; cbn [run] in E.
  - injection E as <-. exists q. split; [done|]. cbn. by rewrite app_nil_r.
  - assert (received (a :: l) = received [a] ++ received l) as Er by apply (received_app [a] l).
    rewrite Er, app_assoc in *. destruct (step q a) as [r1|] eqn:Es; [|done].
    destruct (order_step_ok rs q a r1 Hok Es) as (q1 & -> & Hok1).
    + by apply Forall_app in Hnum as [? _].
    + rewrite fmap_app in Hnd. by apply NoDup_app in Hnd as [? _].
    + unfold len in *. rewrite length_app in Hlen. lia.
    + by apply (IH _ _ _ Hok1 E).
Qed.

(** ** Everything sent is eventually scanned *)

Definition phase (p : order_pc) : nat :=
  match p with
  | OSelect => 2 | ODrain true => 3 | ODrain false => 1 | OSend _ true => 5 | OSend _ false => 3
  | OSendErr | ODone => 0
  end%nat.

(** What [order] and the scanner have left to do before they rest. *)
Definition work (q : Sequencer) : nat :=
  (4 * length (heap q) + phase (pc q) + if scanCh q is Some _ then 1 else 0)%nat.

(** The context has not been cancelled. *)
Definition live (q : Sequencer) : Prop :=
  scan_err q = false /\ scanCh q <> Some NextErr /\ pc q <> OSendErr /\ (pc q = ODone -> scan_closed q = true).

Lemma step_live q a q' : live q -> a <> ACtx -> step q a = Some (Ok q') -> live q'.
Proof.
  intros (He & Hc & Hp & Hd) Ha E. unfold live. destruct a; cbn in E; try done.
  4: { unfold Scan in E. rewrite He in E. destruct (scanCh q) as [[v|]|] eqn:Ec; [|done|].
       - by injection E as <-.
       - destruct (scan_closed q) eqn:Es; [|done]. injection E as <-. by rewrite Ec, He, Es. }
  all: unfold order in E; destruct (pc q) eqn:Ep; try done; try (injection E as E).
  - unfold receive in E. destruct (Heap.Push _ _ _); try done. injection E as <-. cbn. by rewrite He.
  - subst q'. cbn. by rewrite He.
  - unfold drain in E. destruct (heap q); [destruct ok; injection E as <-; cbn; by rewrite He|].
    destruct (_ =? _); [|by injection E as <-; cbn; rewrite He].
    destruct (Heap.Remove _ _ _) as [[h j]| |]; try done. injection E as <-. cbn. by rewrite He.
  - unfold send in E. destruct (scanCh q); [done|]. injection E as <-. cbn. by rewrite He.
Qed.

(** What the scanner's client and [order] do next, once everything has been sent. *)
Definition next_action (q : Sequencer) : action :=
  match scanCh q, pc q with
  | Some _, _ => AScan
  | None, OSelect => AClosed
  | None, _ => AOrder
  end.

(** With every item received, the heap is empty or holds the one expected. *)
Lemma expected_first rs q n m l : seq_ok rs q -> s <$> rs ≡ₚ seqZ 1 n -> heap q = m :: l -> s m = expected q.
Proof.
  intros Hok Hall Eh. assert (NoDup (s <$> rs)) as Hnd by (rewrite Hall; apply NoDup_seqZ).
  pose proof (heap_ge _ _ Hok Hnd) as Hge. destruct Hok as [Hh Hi _ He _ _ _].
  destruct (Z.eq_dec (s m) (expected q)) as [?|Hne]; [done|]. exfalso.
  apply (min_head (heap q) m l (expected q)); try done. rewrite Hall in Hi.
  assert (expected q ∈ (s <$> heap q) ++ seqZ 1 (expected q - 1)) as Hin.
  { rewrite Hi. apply elem_of_seqZ. apply Permutation_length in Hi.
    rewrite length_app, !length_seqZ, Eh in Hi. cbn in Hi. lia. }
  apply elem_of_app in Hin as [?|?%elem_of_seqZ]; [done|lia].
Qed.

Lemma next_works rs q n : seq_ok rs q -> live q -> s <$> rs ≡ₚ seqZ 1 n -> n < 2 ^ 64 - 1 ->
  (pc q = ODone -> scanCh q <> None) ->
  exists q', step q (next_action q) = Some (Ok q') /\ (work q' < work q)%nat.
Proof.
  intros Hok (He & Hc & Hp & Hd) Hall Hn Hrest. unfold next_action.
  assert (NoDup (s <$> rs)) as Hnd by (rewrite Hall; apply NoDup_seqZ).
  destruct (scanCh q) as [[v|]|] eqn:Ec; [|done|].
  - cbn. unfold Scan. rewrite He, Ec. cbn. eexists. split; [done|]. unfold work. cbn. rewrite ?Ec. lia.
  - destruct (pc q) eqn:Ep; cbn; unfold order; rewrite Ep; try done.
    + eexists. split; [done|]. unfold work. cbn. rewrite ?Ec, ?Ep. cbn. lia.
    + unfold drain, work. rewrite ?Ep, ?Ec. destruct (heap q) as [|m l] eqn:Eh.
      { destruct ok; eexists; (split; [done|]); cbn; rewrite ?Eh, ?Ec; cbn; lia. }
      rewrite (expected_first _ _ _ _ _ Hok Hall Eh), Z.eqb_refl, <- Eh.
      destruct (Heap.Remove_spec Less (heap q) 0 m) as (h' & -> & Hperm & _); [apply Hok|by rewrite Eh|].
      eexists. split; [done|]. cbn [heap pc scanCh phase]. apply Permutation_length in Hperm. cbn in Hperm.
      rewrite ?Ec. destruct ok; cbn; lia.
    + unfold send, work. rewrite ?Ec, ?Ep. eexists. split; [done|]. cbn. destruct ok; lia.
    + by destruct Hrest.
Qed.

(** The items [NextItem] makes of a list, from a counter on. *)
Fixpoint NextItems (next : Z) (xs : list T) : list Item :=
  match xs with
  | [] => []
  | x :: xs => let (next, i) := NextItem next x in i :: NextItems next xs
  end.
End sequencer.

#[local] Arguments uint64 _ : simpl never.

Lemma NextItems_s {T} (xs : list T) : forall n, 0 <= n -> n + len xs < 2 ^ 64 ->
  s <$> NextItems n xs = seqZ (n + 1) (len xs).
Proof.
  induction xs as [|x xs IH]; intros n Hn Hlen; [done|]. unfold len in *. cbn [length] in *.
  cbn. rewrite uint64_id by (unfold uint64_ok; lia). rewrite (seqZ_cons (n + 1)), IH by lia.
  do 2 f_equal; lia.
Qed.

(** The item with the [k]-th number. *)
Definition nth_item {T} (d : T) (xs : list T) (k : Z) : T := nth (Z.to_nat (k - 1)) xs d.

Lemma NextItems_numbered {T} (d : T) (xs : list T) : forall n pre, len pre = n -> n + len xs < 2 ^ 64 ->
  Forall (numbered (nth_item d (pre ++ xs))) (NextItems n xs).
Proof.
  induction xs as [|x xs IH]; intros n pre Hpre Hlen; [constructor|]. unfold len in *. cbn [length] in *.
  cbn. rewrite uint64_id by (unfold uint64_ok; lia). constructor.
  - split; cbn; [|lia]. unfold nth_item. rewrite app_nth2 by lia.
    by replace (Z.to_nat (n + 1 - 1) - length pre)%nat with 0%nat by lia.
  - specialize (IH (n + 1) (pre ++ [x])). rewrite <- app_assoc in IH. apply IH; [rewrite length_app; cbn|]; lia.
Qed.

Lemma nth_item_take {T} (d : T) xs k : 0 <= k <= len xs -> nth_item d xs <$> seqZ 1 k = take (Z.to_nat k) xs.
Proof.
  intros [Hk Hlen]. revert Hlen. pattern k. apply natlike_ind; [done| |done]. clear k Hk.
  intros k Hk IH Hlen. unfold len in *. rewrite <- Z.add_1_r, seqZ_snoc, fmap_app, IH by lia. cbn.
  rewrite Z.add_1_r, Z2Nat.inj_succ by lia. symmetry.
  rewrite (take_S_r _ _ (nth (Z.to_nat k) xs d)); [|by destruct (nth_lookup_or_length xs (Z.to_nat k) d); [|lia]].
  unfold nth_item. do 3 f_equal. lia.
Qed.

(** What has been received, scanned and forwarded, whatever the interleaving. *)
Lemma run_state {T} (d : T) (xs : list T) l r :
  len xs < 2 ^ 64 - 1 -> received l ⊆+ NextItems 0 xs -> run NewSequencer l = Some r ->
  exists q, r = Ok q /\ seq_ok (nth_item d xs) (received l) q.
Proof.
  intros Hlen Hsub E. pose proof (NextItems_s xs 0) as Hs. pose proof (NextItems_numbered d xs 0 []) as Hnum.
  specialize (Hs ltac:(lia) ltac:(lia)). specialize (Hnum eq_refl ltac:(lia)). cbn [app] in Hnum.
  apply submseteq_Permutation in Hsub as [rest Hp].
  apply (order_run_ok (nth_item d xs) l [] NewSequencer r); [apply init_ok|done|..]; cbn [app].
  - rewrite Hp in Hnum. by apply Forall_app in Hnum as [? _].
  - eapply (fmap_Permutation s) in Hp. rewrite Hs, fmap_app in Hp.
    assert (NoDup ((s <$> received l) ++ (s <$> rest))) as Hnd by (rewrite <- Hp; apply NoDup_seqZ).
    by apply NoDup_app in Hnd as [? _].
  - eapply (fmap_Permutation s), Permutation_length in Hp. rewrite Hs, length_seqZ, length_fmap, length_app in Hp.
    unfold len in *. lia.
Qed.

Lemma order_run_app {T} (q q' : @Sequencer T) l l' : run q l = Some (Ok q') -> run q (l ++ l') = run q' l'.
Proof.
  revert q. induction l as [|a l IH]; intros q; cbn; [by intros [= ->]|].
  destruct (step q a) as [[q1| |]|]; try done. apply IH.
Qed.

Lemma live_run {T} (q q' : @Sequencer T) l : live q -> ACtx ∉ l -> run q l = Some (Ok q') -> live q'.
Proof.
  revert q. induction l as [|a l IH]; intros q Hq Hl E; cbn in E; [by injection E as <-|].
  apply not_elem_of_cons in Hl as [Ha Hl]. destruct (step q a) as [[q1| |]|] eqn:Es; try done.
  eapply IH; [eapply step_live; eauto|done|done].
Qed.

(** A state at rest has delivered everything. *)
Lemma rest_delivered {T} (d : T) xs rs q : seq_ok (nth_item d xs) rs q -> live q -> s <$> rs ≡ₚ seqZ 1 (len xs) ->
  pc q = ODone -> scanCh q = None -> scanned q = Some <$> xs /\ Scan q = Some (q, false).
Proof.
  intros [_ Hi _ He (vs & Hs & Hv) _ Hd] (Herr & _ & _ & Hcl) Hall Ep Ec. specialize (Hcl Ep).
  destruct (Hd Hcl) as [Eh _]. rewrite Eh, Hall in Hi. apply Permutation_length in Hi.
  rewrite length_app, !length_seqZ in Hi. cbn in Hi. unfold len in Hi.
  split; [|unfold Scan; by rewrite Herr, Ec, Hcl].
  rewrite Hs, Herr, app_nil_r. f_equal. unfold in_flight in Hv. rewrite Ec, Ep, app_nil_r in Hv.
  rewrite Hv, nth_item_take by (unfold len; lia). apply take_ge. lia.
Qed.

Lemma completes {T} (d : T) xs rs n : forall q, (work q < n)%nat -> seq_ok (nth_item d xs) rs q -> live q ->
  Forall (numbered (nth_item d xs)) rs -> s <$> rs ≡ₚ seqZ 1 (len xs) -> len xs < 2 ^ 64 - 1 ->
  exists l q', received l = [] /\ run q l = Some (Ok q') /\ scanned q' = Some <$> xs /\ Scan q' = Some (q', false).
Proof.
  induction n as [|n IH]; intros q Hw Hok Hlive Hnum Hall Hlen; [lia|].
  assert ((scanCh q = None /\ pc q = ODone) \/ (pc q = ODone -> scanCh q <> None)) as [[Hc Hp]|Hnot]
    by (destruct (scanCh q), (pc q); auto).
  { exists [], q. by destruct (rest_delivered d xs rs q Hok Hlive Hall Hp Hc). }
  destruct (next_works _ rs q (len xs) Hok Hlive Hall Hlen) as (q1 & Es & Hw1); [done|].
  assert (received [next_action q] = [] /\ next_action q <> ACtx) as [Hr Hctx].
  { unfold next_action. by destruct (scanCh q), (pc q). }
  destruct (order_step_ok _ rs q _ _ Hok Es) as (q2 & [= <-] & Hok1); rewrite Hr, ?app_nil_r in *.
  - done.
  - rewrite Hall. apply NoDup_seqZ.
  - apply Permutation_length in Hall. rewrite length_fmap, length_seqZ in Hall. unfold len in *. lia.
  - destruct (IH q1) as (l & q' & Hrl & E & ? & ?); try done; [lia|by eapply step_live|].
    exists (next_action q :: l), q'. split_and!; try done; [|by cbn; rewrite Es].
    change (received ([next_action q] ++ l) = []). by rewrite received_app, Hr, Hrl.
Qed.

Lemma live_init {T} : live (@NewSequencer T).
Proof. by split_and!. Qed.

(** ** Properties *)

(** C4: Whatever the order in which the items made by [NextItem] are received,
    and however the goroutine, its channel and the scanner interleave, nothing
    panics and the scanner returns exactly the first items in the order of the
    calls to [NextItem], each once, with the zero value only together with the
    context's error; when the goroutine is idle no item that is due is held
    back, and when it has closed its channel everything received was scanned. *)
Theorem Sequencer_in_order {T} `{!Inhabited T} (xs : list T) l r
  (Hlen : len xs < 2 ^ 64 - 1) (Hsub : received l ⊆+ NextItems 0 xs) (E : run NewSequencer l = Some r) :
  exists q k, r = Ok q /\ 0 <= k <= len xs /\
    scanned q = (Some <$> take (Z.to_nat k) xs) ++ (if scan_err q then [None] else []) /\
    (pc q = OSelect -> scanCh q = None -> (k + 1 ∉ s <$> received l)) /\
    (scan_closed q = true -> scanCh q = None -> s <$> received l ≡ₚ seqZ 1 k).
Proof.
  destruct (run_state inhabitant xs l r Hlen Hsub E) as (q & -> & [_ Hi _ He (vs & Hs & Hv) Hdue Hd]).
  assert (len vs <= expected q - 1 <= len xs) as Hb.
  { split; [apply (f_equal length) in Hv; rewrite length_app, length_fmap, length_seqZ in Hv; unfold len; lia|].
    apply (submseteq_length (fmap s)) in Hsub || apply submseteq_length in Hsub.
    apply Permutation_length in Hi. apply (f_equal length) in Hv.
    pose proof (f_equal length (NextItems_s xs 0 ltac:(lia) ltac:(lia))) as Hl.
    rewrite length_app, !length_fmap, length_seqZ in *. unfold len in *. lia. }
  assert (vs = take (Z.to_nat (len vs)) xs) as Evs.
  { rewrite nth_item_take in Hv by lia. apply (f_equal (take (length vs))) in Hv.
    rewrite take_app_length, take_take in Hv. rewrite Hv at 1. f_equal. unfold len in *. lia. }
  exists q, (len vs). split_and!; try done; [unfold len; lia|lia|by rewrite <- Evs| |].
  - intros Ep Ec. rewrite Ep in Hdue. unfold in_flight in Hv. rewrite Ec, Ep, app_nil_r in Hv.
    rewrite Hv. unfold len. rewrite length_fmap, length_seqZ.
    replace (Z.of_nat _ + 1) with (expected q) by lia. rewrite <- Hi, elem_of_app, elem_of_seqZ. intros [?|?]; [done|lia].
  - intros Hc Ec. destruct (Hd Hc) as [Eh Ep]. unfold in_flight in Hv. rewrite Ec, Ep, app_nil_r in Hv.
    rewrite <- Hi, Eh, Hv. unfold len. rewrite length_fmap, length_seqZ. cbn.
    by replace (Z.of_nat (Z.to_nat (expected q - 1))) with (expected q - 1) by lia.
Qed.

Example Sequencer_in_order_witness : exists q k, run NewSequencer [AItem (MkItem 20 2); AOrder; AItem (MkItem 10 1); AOrder] = Some (Ok q) /\
  0 <= k <= 3 /\ scanned q = (Some <$> take (Z.to_nat k) [10; 20; 30]) ++ (if scan_err q then [None] else []).
Proof.
  destruct (Sequencer_in_order [10; 20; 30] [AItem (MkItem 20 2); AOrder; AItem (MkItem 10 1); AOrder]
    (Ok (MkSeq [MkItem 20 2] 2 (OSend 10 true) None false false [])))
    as (q & k & [= <-] & Hk & Hs & _).
  - reflexivity.
  - change (received _) with [MkItem 20 2; MkItem 10 1]. change (NextItems 0 _) with ([MkItem 10 1; MkItem 20 2] ++ [MkItem 30 3]).
    apply submseteq_inserts_r, Permutation_submseteq. constructor.
  - vm_compute. reflexivity.
  - exists (MkSeq [MkItem 20 2] 2 (OSend 10 true) None false false []), k. split; [vm_compute; reflexivity|]. by split.
Defined.

(** C5: Once every item has been sent, without the context being cancelled,
    from every state the sequencer can be in there is a way on: closing the
    input, the goroutine's steps and calls of [Scan] lead to a state in which
    all the items have been scanned, in order, and [Scan] returns false; so the
    goroutine and the scanner never block each other. *)
Theorem Sequencer_completes {T} `{!Inhabited T} (xs : list T) l q
  (Hlen : len xs < 2 ^ 64 - 1) (Hall : received l ≡ₚ NextItems 0 xs) (Hctx : ACtx ∉ l)
  (E : run NewSequencer l = Some (Ok q)) :
  exists l' q', received l' = [] /\ run NewSequencer (l ++ l') = Some (Ok q') /\
    scanned q' = Some <$> xs /\ Scan q' = Some (q', false).
Proof.
  assert (received l ⊆+ NextItems 0 xs) as Hsub by (by rewrite Hall).
  destruct (run_state inhabitant xs l _ Hlen Hsub E) as (q0 & [= <-] & Hok).
  destruct (completes inhabitant xs (received l) (S (work q)) q) as (l' & q' & Hr & E' & H); try done; [lia| | | |].
  - by eapply live_run, E; [apply live_init|].
  - rewrite Hall. by apply (NextItems_numbered inhabitant xs 0 []); [|lia].
  - rewrite Hall. by rewrite NextItems_s by lia.
  - exists l', q'. by rewrite (order_run_app _ _ _ _ E).
Qed.

Example Sequencer_completes_witness : exists l' q', received l' = [] /\
  run NewSequencer ([AItem (MkItem 20 2); AOrder; AItem (MkItem 10 1)] ++ l') = Some (Ok q') /\
  scanned q' = Some <$> [10; 20] /\ Scan q' = Some (q', false).
Proof.
  eapply (Sequencer_completes [10; 20] [AItem (MkItem 20 2); AOrder; AItem (MkItem 10 1)]).
  - reflexivity.
  - constructor.
  - rewrite !not_elem_of_cons. split_and!; try done. apply not_elem_of_nil.
  - reflexivity.
Defined.

(** ** What the loop and the scanner do at the edges *)

(** With the input closed while an item is missing, [order] never waits again:
    its select receives from the closed channel, the drain loop breaks, and it
    is where it was. *)
Lemma order_spins {T} (q : @Sequencer T) m h :
  pc q = OSelect -> heap q = m :: h -> s m <> expected q -> run q [AClosed; AOrder] = Some (Ok q).
Proof.
  destruct q as [hp e p sc cl er scd]; cbn. intros -> -> Hne. unfold order, drain. cbn.
  by destruct (Z.eqb_spec (s m) e).
Qed.

(** The context's error reaches the scanner as an item: the call of [Scan] that
    receives it returns true, with the zero value. *)
Lemma Scan_true_on_error {T} : exists q q' : @Sequencer T,
  run NewSequencer [ACtx; AOrder] = Some (Ok q) /\ Scan q = Some (q', true) /\ scanned q' = [None] /\ scan_err q' = true.
Proof. by do 2 eexists. Qed.

(** With the context cancelled the items already numbered need not be scanned,
    and the channel is never closed. *)
Lemma cancelled_drops {T} (v : T) : exists q,
  run NewSequencer [AItem (MkItem v 2); AOrder; ACtx; AOrder; AScan] = Some (Ok q) /\
  scanned q = [None] /\ length (heap q) = 1%nat /\ scan_closed q = false.
Proof. by eexists. Qed.
