(* ===== verification/Edit.v ===== *)
(** * Edits of a byte slice (text/edit/edit.go)

    [Do] applies insertions, deletions and replacements, given with positions
    in the original content, in one pass over the sorted deltas.  It is compared
    with a reference that looks at each position of the content on its own.
    [sort.SliceStable] is a stable insertion sort: the result of a stable sort
    by a strict weak order does not depend on the algorithm. *)

From stdpp Require Import base list option numbers gmap sorting.
From Stdlib Require Import ZArith Lia Strings.Byte.
From S2P Require Import Prelude.

Open Scope list_scope.
Open Scope Z_scope.
Open Scope go_scope.

(** ** The deltas *)

Inductive editOp := insertOp | deleteOp | replaceOp.

#[export] Instance editOp_eq_dec : EqDecision editOp.
Proof. solve_decision. Defined.

Record Delta := MkDelta { op : editOp; from : Z; to : Z; data : list byte }.

(** The table [comparisons], at the operations of [i] and [j]. *)
Definition comparisons (i j : editOp) : bool :=
  match i, j with
  | insertOp, _ => false
  | deleteOp, insertOp => true | deleteOp, deleteOp => false | deleteOp, replaceOp => true
  | replaceOp, insertOp => true | replaceOp, deleteOp => false | replaceOp, replaceOp => false
  end.

Definition Insert (pos : Z) (data : list byte) : Delta := MkDelta insertOp pos 0 data.
Definition Replace (pos size : Z) (data : list byte) : Delta := MkDelta replaceOp pos (int64 (pos + size)) data.
Definition Delete (pos size : Z) : Delta := MkDelta deleteOp pos (int64 (pos + size)) [].

(** The deltas as the caller's slice holds them afterwards, and those reported
    to be out of range. *)
Fixpoint validate_loop (contents : list byte) (deltas errs : list Delta) : list Delta :=
  match deltas with
  | [] => errs
  | d :: deltas =>
      if from d >? len contents then validate_loop contents deltas (errs ++ [d])
      else if negb (bool_decide (op d = insertOp)) then
        validate_loop contents deltas (if to d >? len contents then errs ++ [d] else errs)
      else errs
  end.

Definition Validate (contents : list byte) (deltas : list Delta) : list Delta * list Delta :=
  let deltas := SliceStable (fun di dj => from dj <? from di) deltas in
  (deltas, validate_loop contents deltas []).

Definition delta_less (di dj : Delta) : bool :=
  if from di =? from dj then comparisons (op di) (op dj) else from di <? from dj.

Definition sortDeltas (deltas : list Delta) : list Delta := SliceStable delta_less deltas.

(** Go's [copy(dst, src)]: [dst] afterwards. *)
Definition copy {A} (dst src : list A) : list A := take (length dst) src ++ drop (length src) dst.

Definition overwrite (a b : list byte) : list byte :=
  let al := length a in let bl := length b in
  if (al <? bl)%nat then b
  else
    let n := replicate al x00 in
    let n := copy n a in
    copy (take bl n) b ++ drop bl n.

(** The variables of the loop of [Do]. *)
Record state := MkState { offset : Z; replacement : list byte; replaceOffset : Z; patched : list byte; prevPos : Z }.

Definition out_of_range (contents : list byte) (d : Delta) : bool :=
  (from d >? len contents) || (negb (bool_decide (op d = insertOp)) && (to d >? len contents)).

Definition flush (d : Delta) (s : state) : state :=
  if negb (bool_decide (op d = replaceOp)) || negb (from d =? prevPos s) then
    MkState (Z.max (offset s) (replaceOffset s)) [] 0 (patched s ++ replacement s) (prevPos s)
  else s.

Definition advance (contents : list byte) (d : Delta) (s : state) : res state :=
  if from d >? offset s then
    let! c := zslice contents (offset s) (from d) in
    Ok (MkState (Z.max (offset s) (from d)) (replacement s) (replaceOffset s) (patched s ++ c) (prevPos s))
  else Ok s.

Definition apply (d : Delta) (s : state) : state :=
  match op d with
  | deleteOp => MkState (Z.max (offset s) (to d)) (replacement s) (replaceOffset s) (patched s) (from d)
  | replaceOp => MkState (offset s) (overwrite (replacement s) (data d)) (Z.max (replaceOffset s) (to d)) (patched s) (from d)
  | insertOp => MkState (offset s) (replacement s) (replaceOffset s) (patched s ++ data d) (from d)
  end.

Definition iteration (contents : list byte) (d : Delta) (s : state) : res state :=
  let! s := advance contents d (flush d s) in Ok (apply d s).

Fixpoint do_loop (contents : list byte) (deltas : list Delta) (s : state) : res state :=
  match deltas with
  | [] => Ok s
  | d :: deltas =>
      if out_of_range contents d then Ok s
      else let! s := iteration contents d s in do_loop contents deltas s
  end.

Definition finish (contents : list byte) (s : state) : res (list byte) :=
  let s := if (0 <? length (replacement s))%nat
           then MkState (Z.max (offset s) (replaceOffset s)) (replacement s) (replaceOffset s) (patched s ++ replacement s) (prevPos s)
           else s in
  if offset s <? len contents then
    let! c := zslice contents (offset s) (len contents) in Ok (patched s ++ c)
  else Ok (patched s).

Definition start : state := MkState 0 [] 0 [] 0.

(** The caller's deltas afterwards, and the patched content. *)
Definition Do (contents : list byte) (deltas : list Delta) : list Delta * res (list byte) :=
  let deltas := sortDeltas deltas in
  (deltas, let! s := do_loop contents deltas start in finish contents s).

(** ** The reference *)

Definition covers (q : Z) (d : Delta) : bool :=
  negb (bool_decide (op d = insertOp)) && (from d <=? q) && (q <? to d).

(** Position [q] is deleted or replaced. *)
Definition covered (ds : list Delta) (q : Z) : bool := existsb (covers q) ds.

Definition at_op (o : editOp) (p : Z) (d : Delta) : Prop := op d = o /\ from d = p.
#[export] Instance at_op_dec o p d : Decision (at_op o p d).
Proof. unfold at_op. apply _. Defined.

(** The replacements at [p], each written over the earlier ones. *)
Definition replaced (ds : list Delta) (p : Z) : list byte :=
  foldl overwrite [] (data <$> filter (at_op replaceOp p) ds).

Definition inserted (ds : list Delta) (p : Z) : list byte :=
  mjoin (data <$> filter (at_op insertOp p) ds).

Definition kept (contents : list byte) (ds : list Delta) (q : Z) : list byte :=
  if covered ds q then [] else option_list (zget contents q).

Definition edited_at (contents : list byte) (ds : list Delta) (p : Z) : list byte :=
  (replaced ds p ++ inserted ds p) ++ kept contents ds p.

Definition edited_upto (contents : list byte) (ds : list Delta) (n : Z) : list byte :=
  mjoin (edited_at contents ds <$> seqZ 0 n).

(** What stands before each position, and then its byte unless it is deleted or
    replaced; the end of the content is a position too. *)
Definition edited (contents : list byte) (ds : list Delta) : list byte :=
  edited_upto contents ds (len contents + 1).

(** ** The loop against the reference *)

Lemma overwrite_eq a b : overwrite a b = b ++ drop (length b) a.
Proof.
  unfold overwrite, copy. destruct (Nat.ltb_spec (length a) (length b)); [by rewrite drop_ge, app_nil_r by lia|].
  rewrite length_replicate, (take_ge a), (drop_ge (replicate _ _)) by (rewrite ?length_replicate; lia).
  rewrite app_nil_r, length_take, (take_ge b), (drop_ge (take _ a)) by (rewrite ?length_take; lia).
  by rewrite app_nil_r.
Qed.

Lemma overwrite_nonempty a b : b <> [] -> overwrite a b <> [].
Proof. rewrite overwrite_eq. by destruct b. Qed.

Lemma covered_app ds d q : covered (ds ++ [d]) q = covered ds q || covers q d.
Proof. unfold covered. rewrite existsb_app. cbn. by rewrite orb_false_r. Qed.

Lemma edited_upto_S contents ds n : 0 <= n ->
  edited_upto contents ds (n + 1) = edited_upto contents ds n ++ edited_at contents ds n.
Proof.
  intros Hn. unfold edited_upto. rewrite seqZ_app, fmap_app, join_app by lia. f_equal.
  change (seqZ (0 + n) 1) with [n]. apply app_nil_r.
Qed.

(** The deltas of another position say nothing about what stands at this one. *)
Lemma filter_at_other o p d : from d <> p -> filter (at_op o p) [d] = [].
Proof. intros Hne. rewrite filter_cons_False, filter_nil; [done|]. unfold at_op. tauto. Qed.

Lemma stuff_beyond ds p : Forall (fun d => from d < p) ds -> replaced ds p = [] /\ inserted ds p = [].
Proof.
  intros Hall. unfold replaced, inserted.
  assert (forall o, filter (at_op o p) ds = []) as E.
  { intros o. induction Hall as [|d ds Hd _ IH]; [done|]. rewrite filter_cons_False; [done|]. unfold at_op. lia. }
  by rewrite !E.
Qed.

Lemma edited_upto_app contents ds d n : n <= from d -> edited_upto contents (ds ++ [d]) n = edited_upto contents ds n.
Proof.
  intros Hn. unfold edited_upto. f_equal. apply list_fmap_ext. intros i q [-> Hi]%lookup_seqZ.
  unfold edited_at, replaced, inserted, kept. rewrite !filter_app, !filter_at_other, !app_nil_r, covered_app by lia.
  replace (covers (0 + Z.of_nat i) d) with false; [by rewrite orb_false_r|].
  symmetry. unfold covers. rewrite (proj2 (Z.leb_gt _ _)) by lia. by rewrite andb_false_r.
Qed.

(** The content of [lo, hi) that starts at [k] or after. *)
Definition slice_from (contents : list byte) (k hi : Z) : list byte :=
  take (Z.to_nat (hi - Z.min hi k)) (drop (Z.to_nat (Z.min hi k)) contents).

Lemma slice_from_nil contents k hi : hi <= k -> slice_from contents k hi = [].
Proof. intros. unfold slice_from. by replace (Z.to_nat (hi - _)) with 0%nat by lia. Qed.

Lemma kept_slice contents ds k q : 0 <= k -> 0 <= q < len contents -> covered ds q = (q <? k) ->
  slice_from contents k q ++ kept contents ds q = slice_from contents k (q + 1).
Proof.
  intros Hk Hq Hc. unfold kept. rewrite Hc. destruct (Z.ltb_spec q k); [by rewrite !slice_from_nil by lia|].
  destruct (zget_is_Some contents q Hq) as [c Ec]. rewrite Ec. apply zget_Some in Ec as [_ Ec].
  unfold slice_from. replace (Z.min q k) with k by lia. replace (Z.min (q + 1) k) with k by lia.
  replace (Z.to_nat (q + 1 - k)) with (S (Z.to_nat (q - k))) by lia.
  symmetry. apply take_S_r. rewrite lookup_drop, <- Ec. f_equal. lia.
Qed.

(** After the last delta, at [p], there is the content that is not covered. *)
Lemma edited_upto_gap contents ds p hi k : 0 <= p < hi -> hi <= len contents -> p <= k ->
  Forall (fun d => from d <= p) ds -> (forall q, p <= q < hi -> covered ds q = (q <? k)) ->
  edited_upto contents ds hi = edited_upto contents ds p ++ (replaced ds p ++ inserted ds p) ++ slice_from contents k hi.
Proof.
  intros Hp Hhi Hk Hds Hcov. replace hi with (p + 1 + (hi - (p + 1))) in Hhi, Hcov |- * by lia.
  assert (0 <= hi - (p + 1)) as Hn by lia. revert Hn Hhi Hcov. generalize (hi - (p + 1)) as n. destruct Hp as [H0 _]. clear hi.
  intros n Hn. pattern n. apply natlike_ind; [..|done]; clear n Hn.
  - intros Hle Hcov. rewrite Z.add_0_r in *. rewrite edited_upto_S by lia. unfold edited_at.
    rewrite <- (kept_slice _ ds) by (try apply Hcov; lia). by rewrite (slice_from_nil _ _ p) by lia.
  - intros n Hn IH Hle Hcov. rewrite <- Z.add_1_r, Z.add_assoc, edited_upto_S by lia.
    rewrite IH by (intros; try apply Hcov; lia). rewrite <- !app_assoc. do 3 f_equal. unfold edited_at.
    destruct (stuff_beyond ds (p + 1 + n)) as [-> ->]; [eapply Forall_impl; [done|]; cbn; lia|].
    apply kept_slice; [lia|lia|apply Hcov; lia].
Qed.

(** ** The invariant of the loop *)

(** After the deltas [ds], the last of them at [P]. *)
Record inv (contents : list byte) (ds : list Delta) (P : Z) (s : state) : Prop := {
  i_pos : 0 <= P <= len contents;
  i_prev : prevPos s = P;
  i_from : Forall (fun d => from d <= P) ds;
  i_offset : P <= offset s <= len contents;
  i_replace : replaceOffset s <= len contents;
  i_covered : forall q, P <= q -> covered ds q = (q <? Z.max (offset s) (replaceOffset s));
  i_patched : patched s ++ replacement s = edited_upto contents ds P ++ replaced ds P ++ inserted ds P;
  (* a run of replacements is pending: nothing was inserted after it *)
  i_pending : Forall (fun d => ~ at_op insertOp P d) ds -> replacement s = replaced ds P;
  i_plain : Forall (fun d => ~ at_op replaceOp P d) ds -> replacement s = [] /\ replaceOffset s <= offset s;
  i_flushed : ~ Forall (fun d => ~ at_op insertOp P d) ds -> replacement s = [] /\ replaceOffset s <= offset s;
}.

Lemma inv_start contents : inv contents [] 0 start.
Proof.
  pose proof (len_nonneg contents). constructor; cbn; try done; try lia.
Qed.

Lemma ltb_max q a b : (q <? Z.max a b) = (q <? a) || (q <? b).
Proof. destruct (Z.ltb_spec q (Z.max a b)), (Z.ltb_spec q a), (Z.ltb_spec q b); (done || lia). Qed.

Lemma covers_from q d : from d <= q -> covers q d = negb (bool_decide (op d = insertOp)) && (q <? to d).
Proof. intros. unfold covers. rewrite (proj2 (Z.leb_le _ _)) by lia. by rewrite andb_true_r. Qed.

(** Decide the comparisons of known operations. *)
Ltac op_cases :=
  repeat match goal with
  | H : context [bool_decide (@eq editOp ?a ?b)] |- _ =>
      let v := eval vm_compute in (bool_decide (a = b)) in change (bool_decide (a = b)) with v in H
  | |- context [bool_decide (@eq editOp ?a ?b)] =>
      let v := eval vm_compute in (bool_decide (a = b)) in change (bool_decide (a = b)) with v
  end; cbn in *.

Definition in_range (contents : list byte) (d : Delta) : Prop :=
  0 <= from d <= len contents /\ (op d <> insertOp -> to d <= len contents).

(** [d] may come after [ds] in the sorted deltas. *)
Definition follows (ds : list Delta) (d : Delta) : Prop := Forall (fun d' => delta_less d d' = false) ds.

Lemma follows_none o ds d : follows ds d -> comparisons (op d) o = true -> Forall (fun d' => ~ at_op o (from d) d') ds.
Proof.
  intros Hf Ho. eapply Forall_impl; [done|]. cbn. intros d' Hd [Eo Ef]. unfold delta_less in Hd.
  rewrite Ef, Z.eqb_refl, Eo in Hd. congruence.
Qed.

Lemma filter_at_none {A} (P : A -> Prop) `{!forall x, Decision (P x)} l : Forall (fun x => ~ P x) l -> filter P l = [].
Proof. induction 1 as [|x l Hx _ IH]; [done|]. by rewrite filter_cons_False. Qed.

Lemma at_op_here o ds d : from d = ds -> at_op o ds d <-> op d = o.
Proof. unfold at_op. tauto. Qed.

Lemma replaced_snoc ds d p : from d = p -> replaced (ds ++ [d]) p =
  match op d with replaceOp => overwrite (replaced ds p) (data d) | _ => replaced ds p end.
Proof.
  intros Hp. unfold replaced. rewrite filter_app, filter_cons, filter_nil.
  destruct (decide (at_op replaceOp p d)) as [E|E]; rewrite at_op_here in E by done.
  - by rewrite fmap_app, foldl_app, E.
  - rewrite app_nil_r. by destruct (op d).
Qed.

Lemma inserted_snoc ds d p : from d = p -> inserted (ds ++ [d]) p =
  match op d with insertOp => inserted ds p ++ data d | _ => inserted ds p end.
Proof.
  intros Hp. unfold inserted. rewrite filter_app, filter_cons, filter_nil.
  destruct (decide (at_op insertOp p d)) as [E|E]; rewrite at_op_here in E by done.
  - rewrite fmap_app, join_app, E. cbn. by rewrite app_nil_r.
  - rewrite app_nil_r. by destruct (op d).
Qed.

Lemma none_snoc o ds d p : from d = p -> Forall (fun d => ~ at_op o p d) (ds ++ [d]) <->
  Forall (fun d => ~ at_op o p d) ds /\ op d <> o.
Proof. intros. by rewrite Forall_app, Forall_singleton, at_op_here. Qed.

(** The covered positions after one delta more. *)
Lemma covered_snoc contents ds P s d q : inv contents ds P s -> from d = P -> P <= q ->
  covered (ds ++ [d]) q =
    (q <? offset s) || (q <? replaceOffset s) || negb (bool_decide (op d = insertOp)) && (q <? to d).
Proof. intros Hi Hd Hq. rewrite covered_app, covers_from, (i_covered _ _ _ _ Hi), ltb_max by lia. done. Qed.

(** The flush that an insertion or a deletion brings. *)
Lemma flush_apply_ok contents ds P s d : inv contents ds P s -> from d = P -> in_range contents d -> follows ds d ->
  inv contents (ds ++ [d]) P (apply d (flush d s)).
Proof.
  intros Hi Hd [_ Hto] Hf. pose proof (fun q => covered_snoc _ _ _ _ d q Hi Hd) as Hcov'.
  destruct Hi as [HP Hpv Hfr Hof Hro Hcov Hpat Hpen Hpl Hfl].
  assert (Forall (fun d => from d <= P) (ds ++ [d])) as Hfr' by (apply Forall_app; split; [done|]; repeat constructor; lia).
  assert (forall q, P <= q -> (q <? 0) = false) as H0 by (intros; apply Z.ltb_ge; lia).
  pose proof (fun o => follows_none o ds d Hf) as Hnone. rewrite Hd in Hnone.
  pose proof (fun o => none_snoc o ds d P Hd) as Hsnoc.
  pose proof (replaced_snoc ds d P Hd) as Er. pose proof (inserted_snoc ds d P Hd) as Ei.
  unfold apply, flush. rewrite Hpv, Hd, Z.eqb_refl. destruct (op d) eqn:Eo; op_cases.
  - constructor; cbn; rewrite ?Er, ?Ei, ?edited_upto_app, ?Hsnoc by lia; try done; try lia.
    + intros q Hq. by rewrite Hcov', !ltb_max, H0 by done.
    + by rewrite app_nil_r, Hpat, <- !app_assoc.
    + by intros [_ ?].
    + intros _. split; [done|lia].
    + intros _. split; [done|lia].
  - destruct (Hpl (Hnone replaceOp eq_refl)) as [Enil Ho]. specialize (Hpen (Hnone insertOp eq_refl)).
    specialize (Hto ltac:(done)). rewrite Enil in *. constructor; cbn; rewrite ?Er, ?Ei, ?edited_upto_app, ?Hsnoc by lia; try done; try lia.
    + intros q Hq. rewrite Hcov', !ltb_max, H0 by done. by rewrite orb_false_r.
    + by rewrite !app_nil_r in *.
    + intros _. split; [done|lia].
    + intros _. split; [done|lia].
  - specialize (Hnone insertOp eq_refl). specialize (Hpen Hnone). specialize (Hto ltac:(done)).
    constructor; cbn; rewrite ?Er, ?Ei, ?edited_upto_app, ?Hsnoc, ?Hpen by lia; try done; try lia.
    + intros q Hq. by rewrite Hcov', !ltb_max, orb_assoc by done.
    + rewrite Hpen in Hpat. unfold inserted in *. rewrite (filter_at_none _ ds Hnone) in *. cbn in *.
      rewrite !app_nil_r in *. f_equal. by apply app_inv_tail in Hpat.
    + naive_solver.
    + intros []. by split.
Qed.

Definition set_prev (P : Z) (s : state) : state :=
  MkState (offset s) (replacement s) (replaceOffset s) (patched s) P.

(** Going on to a later position. *)
Lemma advance_ok contents ds P s d : inv contents ds P s -> P < from d <= len contents ->
  exists s', advance contents d (flush d s) = Ok s' /\ replacement s' = [] /\ replaceOffset s' = 0 /\
    inv contents ds (from d) (set_prev (from d) s').
Proof.
  intros [HP Hpv Hfr Hof Hro Hcov Hpat _ _ _] Hd.
  assert (flush d s = MkState (Z.max (offset s) (replaceOffset s)) [] 0 (patched s ++ replacement s) P) as ->.
  { unfold flush. rewrite Hpv, (proj2 (Z.eqb_neq _ _)) by lia. by rewrite orb_true_r. }
  set (k := Z.max (offset s) (replaceOffset s)) in *.
  destruct (stuff_beyond ds (from d)) as [Er Ei]; [eapply Forall_impl; [done|]; cbn; lia|].
  pose proof (edited_upto_gap contents ds P (from d) k) as Hgap. rewrite app_assoc, <- Hpat in Hgap.
  assert (exists c, advance contents d (MkState k [] 0 (patched s ++ replacement s) P) =
      Ok (MkState (Z.max k (from d)) [] 0 ((patched s ++ replacement s) ++ c) P) /\ c = slice_from contents k (from d))
    as (c & -> & ->).
  { unfold advance. cbn. destruct (from d >? k) eqn:E; [|rewrite Z.gtb_ltb in E; bool_to_prop].
    - apply Z.gtb_lt in E. rewrite zslice_Ok by lia. cbn. eexists. split; [done|]. unfold slice_from.
      by replace (Z.min (from d) k) with k by lia.
    - exists []. rewrite app_nil_r, slice_from_nil by lia. by replace (Z.max k (from d)) with k by lia. }
  eexists. split_and!; [done..|]. constructor; cbn; rewrite ?Er, ?Ei; try done; try lia.
  - eapply Forall_impl; [done|]. cbn. lia.
  - intros q Hq. rewrite Hcov, !ltb_max by lia. fold k.
    destruct (Z.ltb_spec q k), (Z.ltb_spec q (from d)), (Z.ltb_spec q 0); (done || lia).
  - rewrite !app_nil_r. symmetry. apply Hgap; [lia|lia|lia|done|]. intros q Hq. apply Hcov. lia.
  - intros _. split; [done|lia].
  - intros _. split; [done|lia].
Qed.

Lemma iteration_ok contents ds P s d : inv contents ds P s -> P <= from d -> in_range contents d -> follows ds d ->
  exists s', iteration contents d s = Ok s' /\ inv contents (ds ++ [d]) (from d) s'.
Proof.
  intros Hi HP Hr Hf. unfold iteration. destruct (Z.eq_dec (from d) P) as [E|Hne].
  - exists (apply d (flush d s)). split; [|rewrite E; by apply flush_apply_ok].
    unfold advance. replace (from d >? offset (flush d s)) with false; [done|]. symmetry. rewrite Z.gtb_ltb. apply Z.ltb_ge.
    pose proof (i_offset _ _ _ _ Hi). unfold flush. destruct (_ || _); cbn; lia.
  - destruct (advance_ok contents ds P s d Hi) as (s' & -> & Er & Ero & Hi'); [unfold in_range in Hr; lia|]. cbn.
    eexists. split; [done|].
    enough (apply d s' = apply d (flush d (set_prev (from d) s'))) as -> by (by apply flush_apply_ok).
    pose proof (i_offset _ _ _ _ Hi') as Ho. cbn in Ho. pose proof (i_pos _ _ _ _ Hi') as Hpos.
    unfold flush, apply. destruct s' as [o r ro p pp]; cbn in *. subst r ro. rewrite Z.eqb_refl, app_nil_r.
    replace (Z.max o 0) with o by lia. by destruct (op d).
Qed.

(** ** The order of the deltas *)

Definition rank (o : editOp) : Z := match o with deleteOp => 0 | replaceOp => 1 | insertOp => 2 end.

(** The table is the order of the ranks. *)
Lemma comparisons_rank i j : comparisons i j = (rank i <? rank j).
Proof. by destruct i, j. Qed.

Lemma delta_less_spec a b : delta_less a b = true <-> from a < from b \/ (from a = from b /\ rank (op a) < rank (op b)).
Proof.
  unfold delta_less. rewrite comparisons_rank. destruct (Z.eqb_spec (from a) (from b)); rewrite Z.ltb_lt; lia.
Qed.

Lemma delta_less_false a b : delta_less a b = false <-> from b < from a \/ (from a = from b /\ rank (op b) <= rank (op a)).
Proof. rewrite <- not_true_iff_false, delta_less_spec. lia. Qed.

Lemma sortDeltas_sorted ds : StronglySorted (fun x y => delta_less y x = false) (sortDeltas ds).
Proof.
  apply SliceStable_sorted.
  - intros x y. rewrite delta_less_spec, delta_less_false. lia.
  - intros x y z. rewrite !delta_less_false. lia.
Qed.

Lemma covered_perm ds ds' q : ds ≡ₚ ds' -> covered ds q = covered ds' q.
Proof.
  intros Hp. apply eq_true_iff_eq. unfold covered. rewrite !existsb_exists. setoid_rewrite <- list_elem_of_In.
  by setoid_rewrite Hp.
Qed.

Lemma edited_sorted contents ds : edited contents (sortDeltas ds) = edited contents ds.
Proof.
  unfold edited, edited_upto. f_equal. apply list_fmap_ext. intros i q _. unfold edited_at, replaced, inserted, kept.
  assert (forall o, filter (at_op o q) (sortDeltas ds) = filter (at_op o q) ds) as E.
  { intros o. apply SliceStable_filter. intros x y [Ex Fx] [Ey Fy]. rewrite delta_less_false, Ex, Ey. lia. }
  rewrite !E. by rewrite (covered_perm _ ds) by apply SliceStable_perm.
Qed.

(** ** The whole of [Do] *)

Lemma out_of_range_spec contents d : 0 <= from d -> out_of_range contents d = false <-> in_range contents d.
Proof.
  intros H0. unfold out_of_range, in_range. rewrite !Z.gtb_ltb. rewrite orb_false_iff, andb_false_iff, !Z.ltb_ge, negb_false_iff, bool_decide_eq_true.
  destruct (decide (op d = insertOp)); intuition lia.
Qed.

(** The deltas that are applied: those before the first out of range. *)
Fixpoint applied (contents : list byte) (ds : list Delta) : list Delta :=
  match ds with
  | [] => []
  | d :: ds => if out_of_range contents d then [] else d :: applied contents ds
  end.

Lemma applied_all contents ds : Forall (fun d => 0 <= from d) ds -> Forall (in_range contents) ds -> applied contents ds = ds.
Proof.
  intros H0. induction H0 as [|d ds Hd _ IH]; [done|]. intros [Hr Hall]%Forall_cons. cbn.
  rewrite (proj2 (out_of_range_spec _ _ Hd) Hr). by rewrite IH.
Qed.

Lemma do_loop_ok contents rest : forall ds P s, inv contents ds P s ->
  StronglySorted (fun x y => delta_less y x = false) (ds ++ rest) ->
  Forall (fun d => 0 <= from d) rest -> Forall (fun d => P <= from d) rest ->
  exists P' s', do_loop contents rest s = Ok s' /\ inv contents (ds ++ applied contents rest) P' s'.
Proof.
  induction rest as [|d rest IH]; intros ds P s Hi Hs H0 HP; cbn.
  - exists P, s. by rewrite app_nil_r.
  - apply Forall_cons in H0 as [Hd H0]. apply Forall_cons in HP as [HdP _].
    destruct (out_of_range contents d) eqn:E; [exists P, s; by rewrite app_nil_r|].
    apply out_of_range_spec in E; [|done].
    assert (follows ds d /\ Forall (fun d' => from d <= from d') rest) as [Hf Hge].
    { split.
      - apply Forall_forall. intros x Hx. eapply StronglySorted_app_1_elem_of in Hs; [done|done|by left].
      - apply StronglySorted_app_1_r in Hs. apply StronglySorted_inv in Hs as [_ Hall].
        eapply Forall_impl; [exact Hall|]. intros d' ?%delta_less_false. lia. }
    destruct (iteration_ok contents ds P s d Hi HdP E Hf) as (s' & -> & Hi'). cbn.
    destruct (IH (ds ++ [d]) (from d) s' Hi') as (P' & s'' & E' & Hi''); try done.
    + by rewrite <- app_assoc.
    + exists P', s''. rewrite <- app_assoc in Hi''. by split.
Qed.

Lemma replaced_nonempty ds p : Forall (fun d => op d = replaceOp -> data d <> []) ds -> replaced ds p = [] ->
  Forall (fun d => ~ at_op replaceOp p d) ds.
Proof.
  intros Hne. induction ds as [|d ds IH] using rev_ind; [constructor|].
  apply Forall_app in Hne as [Hne Hd%Forall_inv].
  destruct (decide (at_op replaceOp p d)) as [[Eo Ep]|E].
  - rewrite replaced_snoc, Eo by done. intros H. exfalso. by eapply overwrite_nonempty, H; apply Hd.
  - intros H. apply Forall_app. split; [|by repeat constructor]. apply IH; [done|]. revert H. unfold replaced.
    rewrite filter_app, (filter_cons_False _ d), filter_nil, app_nil_r; [done|done].
Qed.

Lemma finish_ok contents ds P s : inv contents ds P s -> Forall (fun d => op d = replaceOp -> data d <> []) ds ->
  finish contents s = Ok (edited contents ds).
Proof.
  intros Hi Hne. pose proof Hi as [HP Hpv Hfr Hof Hro Hcov Hpat Hpen Hpl Hfl].
  set (k := Z.max (offset s) (replaceOffset s)) in *.
  assert (edited contents ds = (patched s ++ replacement s) ++ drop (Z.to_nat k) contents) as ->.
  { unfold edited. rewrite edited_upto_S by lia. rewrite Hpat. destruct (Z.eq_dec P (len contents)) as [->|HPl].
    - unfold edited_at, kept. rewrite <- !app_assoc. do 3 f_equal. rewrite drop_ge by (unfold len in *; lia).
      destruct (covered _ _); [done|]. by rewrite (proj2 (zget_None _ _)) by lia.
    - rewrite (edited_upto_gap _ _ P _ k) by (done || lia || (intros; apply Hcov; lia)).
      destruct (stuff_beyond ds (len contents)) as [Er Ei]; [eapply Forall_impl; [done|]; cbn; lia|].
      unfold edited_at. rewrite Er, Ei. cbn [app]. unfold slice_from.
      replace (Z.min (len contents) k) with k by lia. rewrite take_ge by (rewrite length_drop; unfold len; lia).
      rewrite <- !app_assoc. do 4 f_equal. unfold kept. destruct (covered _ _); [by rewrite app_nil_r|].
      rewrite (proj2 (zget_None _ _)) by lia. apply app_nil_r. }
  assert (finish contents s = let! c := (if k <? len contents then zslice contents k (len contents) else Ok []) in
    Ok ((patched s ++ replacement s) ++ c)) as ->.
  { unfold finish. destruct (Nat.ltb_spec 0 (length (replacement s))) as [|Hz]; cbn.
    - fold k. destruct (_ <? _); [done|]. cbn. by rewrite app_nil_r.
    - assert (replacement s = []) as En by (destruct (replacement s); [done|cbn in Hz; lia]).
      assert (replaceOffset s <= offset s) as Hle.
      { destruct (decide (Forall (fun d => ~ at_op insertOp P d) ds)) as [Hno|Hyes]; [|by apply Hfl].
        apply Hpl, replaced_nonempty; [done|]. by rewrite <- Hpen. }
      replace k with (offset s) by lia. rewrite En, app_nil_r. destruct (_ <? _); [done|]. cbn. by rewrite app_nil_r. }
  destruct (Z.ltb_spec k (len contents)).
  - rewrite zslice_Ok by lia. cbn. rewrite take_ge; [done|]. rewrite length_drop. unfold len. lia.
  - cbn. rewrite drop_ge; [done|]. unfold len in *. lia.
Qed.

(** ** Properties *)

(** C15: For positions that are not negative and replacements that are not empty,
    [Do] never slices out of bounds, leaves the deltas sorted, and its result is
    what a look at each position of the original content on its own gives, for
    the sorted deltas before the first one out of range: the replacements at
    the position, each written over the earlier ones, the insertions there in
    the order given, and the byte itself unless a deletion or a replacement
    covers it; when all deltas are in range, in whatever order they are given,
    all of them are applied. *)
Theorem Do_edits contents ds
  (Hfrom : Forall (fun d => 0 <= from d) ds) (Hdata : Forall (fun d => op d = replaceOp -> data d <> []) ds) :
  Do contents ds = (sortDeltas ds, Ok (edited contents (applied contents (sortDeltas ds)))) /\
  (Forall (in_range contents) ds -> snd (Do contents ds) = Ok (edited contents ds)).
Proof.
  pose proof (SliceStable_perm delta_less ds) as Hp. fold (sortDeltas ds) in Hp.
  assert (Do contents ds = (sortDeltas ds, Ok (edited contents (applied contents (sortDeltas ds))))) as E.
  { unfold Do. f_equal. rewrite <- Hp in Hfrom, Hdata.
    destruct (do_loop_ok contents (sortDeltas ds) [] 0 start) as (P & s & -> & Hi);
      [apply inv_start|apply sortDeltas_sorted|done|done|]. cbn. eapply finish_ok; [done|].
    cbn. clear -Hdata. induction (sortDeltas ds) as [|d l IH]; [done|]. apply Forall_cons in Hdata as [? ?]. cbn.
    destruct (out_of_range _ _); constructor; auto. }
  split; [done|]. intros Hr. rewrite E. cbn. rewrite applied_all, edited_sorted; [done|by rewrite Hp|by rewrite Hp].
Qed.

Example Do_edits_witness :
  snd (Do [x61; x62; x63; x64] [Insert 4 [x7a]; Replace 1 1 [x70; x71]; Delete 3 1; Insert 1 [x6d]; Replace 1 2 [x72]]) =
  Ok [x61; x72; x71; x6d; x7a].
Proof.
  assert (forall ds', edited [x61; x62; x63; x64] ds' = [x61; x72; x71; x6d; x7a] -> Ok (edited [x61; x62; x63; x64] ds') = Ok [x61; x72; x71; x6d; x7a]) as H by (by intros ? ->).
  etrans; [|apply (H [Insert 4 [x7a]; Replace 1 1 [x70; x71]; Delete 3 1; Insert 1 [x6d]; Replace 1 2 [x72]]); reflexivity].
  apply (proj2 (Do_edits [x61; x62; x63; x64] [Insert 4 [x7a]; Replace 1 1 [x70; x71]; Delete 3 1; Insert 1 [x6d]; Replace 1 2 [x72]]
    ltac:(repeat constructor; done) ltac:(repeat constructor; done))).
  repeat constructor; cbn; done.
Defined.

(** ** What the conditions are for *)

(** A replacement by nothing that comes last is not applied. *)
Lemma empty_replacement_last :
  snd (Do [x61; x62; x63] [Replace 1 1 []]) = Ok [x61; x62; x63] /\
  edited [x61; x62; x63] [Replace 1 1 []] = [x61; x63] /\
  snd (Do [x61; x62; x63] [Replace 1 1 []; Insert 3 []]) = Ok [x61; x63].
Proof. split_and!; reflexivity. Qed.

(** Without insertions, what [Validate] reports is what is out of range. *)
Lemma validate_loop_deletions contents ds errs : Forall (fun d => op d <> insertOp) ds ->
  validate_loop contents ds errs = errs ++ filter (fun d => out_of_range contents d = true) ds.
Proof.
  intros Hall. revert errs. induction Hall as [|d ds Hd _ IH]; intros errs; cbn [validate_loop]; [by rewrite app_nil_r|].
  rewrite bool_decide_false by done. cbn [negb]. rewrite !IH, filter_cons.
  assert (out_of_range contents d = (from d >? len contents) || (to d >? len contents)) as E.
  { unfold out_of_range. by rewrite bool_decide_false by done. }
  destruct (from d >? len contents); cbn in E.
  - rewrite decide_True by done. by rewrite <- app_assoc.
  - destruct (to d >? len contents); [rewrite decide_True by done; by rewrite <- app_assoc|].
    by rewrite decide_False by (by rewrite E).
Qed.

Lemma Validate_deletions contents ds : Forall (fun d => op d <> insertOp) ds ->
  snd (Validate contents ds) ≡ₚ filter (fun d => out_of_range contents d = true) ds.
Proof.
  intros Hall. unfold Validate. cbn. pose proof (SliceStable_perm (fun di dj => from dj <? from di) ds) as Hp.
  rewrite validate_loop_deletions by (by rewrite Hp). cbn. by rewrite Hp.
Qed.

(** An insertion in range ends [Validate]: what starts before it is not looked
    at, a deletion past the end of the content among it. *)
Lemma Validate_stops_at_insertion :
  snd (Validate [x61; x62; x63] [Insert 2 [x7a]; Delete 1 100]) = [] /\
  out_of_range [x61; x62; x63] (Delete 1 100) = true /\
  snd (Do [x61; x62; x63] [Insert 2 [x7a]; Delete 1 100]) = Ok [x61; x62; x63].
Proof. split_and!; reflexivity. Qed.
