(* ===== verification/Fifo.v ===== *)
(** * The dropping queue (sync/patterns/bounded.go)

    A [FIFO] is a ring buffer owned by one goroutine; what its select statements
    let happen is a list of events.  It implements a queue that drops its oldest
    element when it is full. *)

From stdpp Require Import base list option numbers gmap sorting.
From Stdlib Require Import ZArith Lia.
From S2P Require Import Prelude.

Open Scope list_scope.
Open Scope Z_scope.
Open Scope go_scope.

(** ** The ring buffer *)

Section fifo.
Context {T : Type} (zero : T).

(** The goroutine: in [run], in the flush of [runBuffered], or returned. *)
Inductive pc := Running | Flushing | Returned.

Record FIFO := MkFIFO {
  size : Z; buf : list T; head : Z; tail : Z; count : Z;
  scans : bool;                 (* a periodic scan is configured *)
  at_ : pc; out_closed : bool;
  delivered : list T;           (* received from [out] so far *)
}.

Definition DefaultFIFOSize : Z := 100.

(** [newFIFO]; [interval] is the scan's, which needs a [remove] to be scheduled. *)
Definition newFIFO (capacity interval : Z) (has_remove : bool) : FIFO :=
  let capacity := if capacity <=? 0 then DefaultFIFOSize else capacity in
  MkFIFO capacity (replicate (Z.to_nat capacity) zero) 0 0 0 ((interval >? 0) && has_remove) Running false [].

Definition with_buf (b : FIFO) (bf : list T) (h t c : Z) : FIFO :=
  MkFIFO (size b) bf h t c (scans b) (at_ b) (out_closed b) (delivered b).

Definition with_at (b : FIFO) (p : pc) (closed : bool) : FIFO :=
  MkFIFO (size b) (buf b) (head b) (tail b) (count b) (scans b) p closed (delivered b).

Definition push (b : FIFO) (v : T) : res FIFO :=
  let! bf := zput (buf b) (tail b) v in
  let! t := go_rem (tail b + 1) (size b) in
  Ok (with_buf b bf (head b) t (count b + 1)).

Definition front (b : FIFO) : res T := checked (zget (buf b) (head b)).

Definition pop (b : FIFO) : res FIFO :=
  let! bf := zput (buf b) (head b) zero in
  let! h := go_rem (head b + 1) (size b) in
  Ok (with_buf b bf h (tail b) (count b - 1)).

(** The first loop of [scan], over [n] items: the buffer, [write] and [kept]. *)
Fixpoint scan_loop (remove : T -> bool) (sz : Z) (n : nat) (bf : list T) (read write kept : Z) : res (list T * Z * Z) :=
  match n with
  | O => Ok (bf, write, kept)
  | S n =>
      let! v := checked (zget bf read) in
      let! (bf, write, kept) :=
        (if negb (remove v) then
           let! bf := zput bf write v in
           let! w := go_rem (write + 1) sz in Ok (bf, w, kept + 1)
         else Ok (bf, write, kept)) in
      let! read := go_rem (read + 1) sz in
      scan_loop remove sz n bf read write kept
  end.

(** The second: [n] slots are cleared. *)
Fixpoint clear_loop (sz : Z) (n : nat) (bf : list T) (write : Z) : res (list T) :=
  match n with
  | O => Ok bf
  | S n =>
      let! bf := zput bf write zero in
      let! w := go_rem (write + 1) sz in
      clear_loop sz n bf w
  end.

Definition scan (b : FIFO) (remove : T -> bool) : res FIFO :=
  if count b =? 0 then Ok b
  else
    let! (bf, write, kept) := scan_loop remove (size b) (Z.to_nat (count b)) (buf b) (head b) (head b) 0 in
    let! bf := clear_loop (size b) (Z.to_nat (count b - kept)) bf write in
    let! t := go_rem (head b + kept) (size b) in
    Ok (with_buf b bf (head b) t kept).

(** ** The goroutine *)

Inductive event :=
| EIn (v : T)       (* a value is received from [in] *)
| EInClosed         (* [in] is closed *)
| EOut              (* [out] is received from *)
| EScan (remove : T -> bool)   (* the ticker, and what [scanRemove] says of the items then *)
| EStop.            (* [doneCh], or the context is done *)

(** Sending the front, and removing it. *)
Definition deliver (b : FIFO) : res FIFO :=
  let! v := front b in
  let! b := pop b in
  Ok (MkFIFO (size b) (buf b) (head b) (tail b) (count b) (scans b) (at_ b) (out_closed b) (delivered b ++ [v])).

Definition runBuffered (b : FIFO) (e : event) : option (res FIFO) :=
  match e with
  | EOut => Some (deliver b)
  | EScan remove => if scans b then Some (scan b remove) else None
  | EInClosed => Some (Ok (with_at b Flushing (out_closed b)))
  | EIn v => Some (let! b := (if count b =? size b then pop b else Ok b) in push b v)
  | EStop => Some (Ok (with_at b Returned (out_closed b)))
  end.

(** The flush of [runBuffered]: the loop ends when nothing is buffered. *)
Definition flush (b : FIFO) (e : event) : option (res FIFO) :=
  match e with
  | EOut => Some (let! b := deliver b in Ok (if count b >? 0 then b else with_at b Returned true))
  | EStop => Some (Ok (with_at b Returned (out_closed b)))
  | _ => None
  end.

(** One round of [run]; [None]: the event cannot happen in this state. *)
Definition run_step (b : FIFO) (e : event) : option (res FIFO) :=
  match at_ b with
  | Running =>
      if count b =? 0 then
        match e with
        | EIn v => Some (push b v)
        | EInClosed => Some (Ok (with_at b Returned true))
        | EScan _ => if scans b then Some (Ok b) else None
        | EStop => Some (Ok (with_at b Returned (out_closed b)))
        | EOut => None
        end
      else runBuffered b e
  | Flushing => flush b e
  | Returned => None
  end.

Fixpoint run (b : FIFO) (es : list event) : option (res FIFO) :=
  match es with
  | [] => Some (Ok b)
  | e :: es => match run_step b e with Some (Ok b) => run b es | r => r end
  end.

(** ** The queue it implements *)

Record queue := MkQueue { q_size : Z; q_items : list T; q_scans : bool; q_at : pc; q_closed : bool; q_out : list T }.

Definition new_queue (capacity interval : Z) (has_remove : bool) : queue :=
  MkQueue (if capacity <=? 0 then DefaultFIFOSize else capacity) [] ((interval >? 0) && has_remove) Running false [].

Definition with_items (q : queue) (l : list T) : queue :=
  MkQueue (q_size q) l (q_scans q) (q_at q) (q_closed q) (q_out q).

Definition q_return (q : queue) (closed : bool) : queue :=
  MkQueue (q_size q) (q_items q) (q_scans q) Returned closed (q_out q).

(** Adding to a full queue drops the oldest. *)
Definition enqueue (q : queue) (v : T) : queue :=
  with_items q ((if len (q_items q) =? q_size q then list.tail (q_items q) else q_items q) ++ [v]).

Definition queue_step (q : queue) (e : event) : option queue :=
  match q_at q, e, q_items q with
  | Running, EIn v, _ => Some (enqueue q v)
  | Running, EInClosed, [] => Some (q_return q true)
  | Running, EInClosed, _ => Some (MkQueue (q_size q) (q_items q) (q_scans q) Flushing (q_closed q) (q_out q))
  | Running, EOut, x :: l => Some (MkQueue (q_size q) l (q_scans q) Running (q_closed q) (q_out q ++ [x]))
  | Flushing, EOut, x :: l =>
      Some (MkQueue (q_size q) l (q_scans q) (match l with [] => Returned | _ => Flushing end)
              (match l with [] => true | _ => q_closed q end) (q_out q ++ [x]))
  | Running, EScan remove, l => if q_scans q then Some (with_items q (filter (fun x => remove x = false) l)) else None
  | Running, EStop, _ | Flushing, EStop, _ => Some (q_return q (q_closed q))
  | _, _, _ => None
  end.

Fixpoint queue_run (q : queue) (es : list event) : option queue :=
  match es with
  | [] => Some q
  | e :: es => q ← queue_step q e; queue_run q es
  end.

(** ** The slots of the ring *)

Definition slot (sz h k : Z) : Z := (h + k) mod sz.

Lemma slot_range sz h k : 0 < sz -> 0 <= slot sz h k < sz.
Proof. intros. apply Z.mod_pos_bound. lia. Qed.

Lemma slot_inj sz h j k : 0 < sz -> 0 <= j < sz -> 0 <= k < sz -> slot sz h j = slot sz h k -> j = k.
Proof.
  unfold slot. intros Hs Hj Hk E. rewrite (Z.mod_eq (h + j)), (Z.mod_eq (h + k)) in E by lia.
  set (x := (h + j) / sz) in *. set (y := (h + k) / sz) in *. clearbody x y. assert (j - k = sz * (x - y)) by (rewrite Z.mul_sub_distr_l; lia).
  destruct (Z.lt_trichotomy (x - y) 0) as [Hd|[Hd|Hd]]; [|nia|]; exfalso; clear -Hs Hj Hk Hd H; nia.
Qed.

Lemma slot_next sz h k : 0 < sz -> slot sz (slot sz h 1) k = slot sz h (k + 1).
Proof. intros. unfold slot. rewrite Zplus_mod_idemp_l. f_equal. lia. Qed.

Lemma slot_succ sz h k : 0 < sz -> (slot sz h k + 1) mod sz = slot sz h (k + 1).
Proof. intros. unfold slot. rewrite Zplus_mod_idemp_l. f_equal. lia. Qed.

Lemma slot_0 sz h : 0 <= h < sz -> slot sz h 0 = h.
Proof. intros. unfold slot. rewrite Z.add_0_r. by apply Z.mod_small. Qed.

Lemma slot_wrap sz h : 0 <= h < sz -> slot sz h sz = h.
Proof. intros. unfold slot. replace (h + sz) with (h + 1 * sz) by lia. rewrite Z_mod_plus_full. by apply Z.mod_small. Qed.

(** The buffer as seen from slot [h] on. *)
Definition seen (sz h : Z) (bf : list T) (k : Z) : option T := zget bf (slot sz h k).

(** Reading, writing and moving on, as the loops do. *)
Lemma seen_get sz h bf k : 0 < sz -> len bf = sz -> exists v, seen sz h bf k = Some v.
Proof. intros Hs Hl. apply zget_is_Some. rewrite Hl. by apply slot_range. Qed.

Lemma put_slot sz h bf k v : 0 < sz -> len bf = sz -> 0 <= k < sz ->
  exists bf', zput bf (slot sz h k) v = Ok bf' /\ len bf' = sz /\
    forall j, 0 <= j < sz -> seen sz h bf' j = if decide (j = k) then Some v else seen sz h bf j.
Proof.
  intros Hs Hl Hk. pose proof (slot_range sz h k Hs) as Hr.
  exists (zset bf (slot sz h k) v). rewrite zput_Ok by lia. split_and!; [done|by rewrite len_zset|].
  intros j Hj. unfold seen. destruct (decide (j = k)) as [->|Hne]; [apply zget_zset_eq; lia|].
  apply zget_zset_ne. intros E. apply Hne. symmetry. by eapply slot_inj.
Qed.

Lemma next_slot sz h k : 0 < sz -> go_rem (slot sz h k + 1) sz = Ok (slot sz h (k + 1)).
Proof. intros Hs. pose proof (slot_range sz h k Hs). rewrite go_rem_pos by lia. by rewrite slot_succ. Qed.

(** The element at [k] of the queue, the zero value past its end. *)
Definition item (l : list T) (k : Z) : T := default zero (zget l k).

(** The buffer holds [l], and zero in the other slots. *)
Record rep (sz h : Z) (bf : list T) (l : list T) : Prop := {
  r_size : 0 < sz; r_len : len bf = sz; r_head : 0 <= h < sz; r_cap : len l <= sz;
  r_seen : forall k, 0 <= k < sz -> seen sz h bf k = Some (item l k);
}.

Lemma item_app_l l v k : 0 <= k < len l -> item (l ++ [v]) k = item l k.
Proof. intros Hk. unfold item. by rewrite zget_app_l by lia. Qed.

Lemma item_end l v : item (l ++ [v]) (len l) = v.
Proof.
  unfold item, zget, len. rewrite (proj2 (Z.leb_le _ _)), Nat2Z.id by lia. by rewrite list_lookup_middle.
Qed.

Lemma item_ge l k : len l <= k -> item l k = zero.
Proof. intros. unfold item. by rewrite (proj2 (zget_None _ _)) by lia. Qed.

Lemma item_cons x l k : 0 <= k -> item (x :: l) (k + 1) = item l k.
Proof.
  intros. unfold item, zget. rewrite !(proj2 (Z.leb_le _ _)) by lia.
  by replace (Z.to_nat (k + 1)) with (S (Z.to_nat k)) by lia.
Qed.

Lemma rep_new sz : 0 < sz -> rep sz 0 (replicate (Z.to_nat sz) zero) [].
Proof.
  intros Hs. constructor; try lia; [unfold len; rewrite length_replicate; lia|rewrite len_nil; lia|].
  intros k Hk. unfold seen. rewrite item_ge by (rewrite len_nil; lia). apply zget_replicate.
  pose proof (slot_range sz 0 k Hs). lia.
Qed.

Lemma push_rep sz h bf l v : rep sz h bf l -> len l < sz ->
  exists bf', zput bf (slot sz h (len l)) v = Ok bf' /\ rep sz h bf' (l ++ [v]).
Proof.
  intros [Hs Hl Hh Hc Hseen] Hlt. pose proof (len_nonneg l).
  destruct (put_slot sz h bf (len l) v) as (bf' & -> & Hl' & Hs'); [lia..|].
  exists bf'. split; [done|]. constructor; try done; [rewrite len_app, len_cons, len_nil; lia|].
  intros k Hk. rewrite Hs' by done. destruct (decide (k = len l)) as [->|Hne]; [by rewrite item_end|].
  rewrite Hseen by done. f_equal. destruct (Z.lt_ge_cases k (len l)); [by rewrite item_app_l by lia|].
  by rewrite !item_ge by (rewrite ?len_app, ?len_cons, ?len_nil; lia).
Qed.

Lemma pop_rep sz h bf x l : rep sz h bf (x :: l) ->
  zget bf h = Some x /\ exists bf', zput bf h zero = Ok bf' /\ rep sz (slot sz h 1) bf' l.
Proof.
  intros [Hs Hl Hh Hc Hseen]. pose proof (len_nonneg l) as Hll. rewrite len_cons in Hc. split.
  - specialize (Hseen 0 ltac:(lia)). unfold seen in Hseen. by rewrite slot_0 in Hseen.
  - destruct (put_slot sz h bf 0 zero) as (bf' & E & Hl' & Hs'); [lia..|]. rewrite slot_0 in E by done.
    exists bf'. split; [done|]. constructor; try done; [by apply slot_range|lia|].
    intros k Hk. unfold seen. rewrite slot_next by done. destruct (Z.eq_dec k (sz - 1)) as [->|Hne].
    + replace (sz - 1 + 1) with sz by lia. rewrite slot_wrap, <- (slot_0 sz h) by done.
      change (seen sz h bf' 0 = Some (item l (sz - 1))). rewrite Hs' by lia. rewrite decide_True by done.
      by rewrite item_ge by lia.
    + change (seen sz h bf' (k + 1) = Some (item l k)). rewrite Hs' by lia. rewrite decide_False by lia.
      rewrite Hseen by lia. by rewrite item_cons by lia.
Qed.

(** ** The scan compacts in place *)

(** [l] from position [i] on. *)
Definition holds (sz h i : Z) (bf l : list T) : Prop := forall j, 0 <= j < len l -> seen sz h bf (i + j) = Some (item l j).

Lemma holds_cons sz h i bf x l : holds sz h i bf (x :: l) <-> seen sz h bf i = Some x /\ holds sz h (i + 1) bf l.
Proof.
  unfold holds. rewrite len_cons. pose proof (len_nonneg l). split.
  - intros H0. split; [specialize (H0 0 ltac:(lia)); by rewrite Z.add_0_r in H0|].
    intros j Hj. rewrite <- item_cons with (x := x) by lia. rewrite <- H0 by lia. f_equal. lia.
  - intros [Hx Hl] j Hj. destruct (Z.eq_dec j 0) as [->|Hne]; [by rewrite Z.add_0_r|].
    replace j with (j - 1 + 1) by lia. rewrite item_cons by lia. rewrite <- Hl by lia. f_equal. lia.
Qed.

Lemma holds_snoc sz h bf l v : holds sz h 0 bf l -> seen sz h bf (len l) = Some v -> holds sz h 0 bf (l ++ [v]).
Proof.
  intros Hl Hv j Hj. rewrite len_app in Hj; change (len [v]) with 1 in Hj. cbn. destruct (Z.eq_dec j (len l)) as [->|Hne].
  - by rewrite item_end.
  - rewrite item_app_l by lia. apply Hl. lia.
Qed.

Lemma holds_ext sz h i bf bf' l : holds sz h i bf l ->
  (forall j, i <= j < i + len l -> seen sz h bf' j = seen sz h bf j) -> holds sz h i bf' l.
Proof. intros Hl He j Hj. rewrite He by lia. by apply Hl. Qed.

Section scan.
Context (remove : T -> bool).

Definition kept_of (l : list T) : list T := filter (fun x => remove x = false) l.

Lemma scan_loop_ok sz h r : 0 < sz -> forall i bf ks, len bf = sz -> len ks <= i -> i + len r <= sz ->
  holds sz h i bf r -> holds sz h 0 bf ks ->
  exists bf', let ks' := ks ++ kept_of r in
    scan_loop remove sz (length r) bf (slot sz h i) (slot sz h (len ks)) (len ks) = Ok (bf', slot sz h (len ks'), len ks') /\
    len bf' = sz /\ holds sz h 0 bf' ks' /\ forall j, i + len r <= j < sz -> seen sz h bf' j = seen sz h bf j.
Proof.
  intros Hs. induction r as [|x r IH]; intros i bf ks Hl Hk Hi Hr Hks.
  - exists bf. cbn. rewrite app_nil_r. by split_and!.
  - rewrite holds_cons in Hr. destruct Hr as [Hx Hr]. rewrite len_cons in *. pose proof (len_nonneg ks). pose proof (len_nonneg r).
    cbn [length scan_loop]. unfold seen in Hx. rewrite Hx. cbn [checked rbind]. unfold kept_of. rewrite filter_cons. fold (kept_of r).
    destruct (remove x) eqn:Ex; cbn [negb].
    + cbn [rbind]. rewrite next_slot by done. cbn [rbind]. rewrite decide_False by done.
      destruct (IH (i + 1) bf ks) as (bf' & E & Hl' & Hk' & Hz); try done; try lia.
      exists bf'. split_and!; try done. intros j Hj. apply Hz. lia.
    + destruct (put_slot sz h bf (len ks) x) as (bf1 & E1 & Hl1 & Hs1); [lia..|]. rewrite E1. cbn [rbind].
      rewrite next_slot by done. cbn [rbind]. rewrite next_slot by done. cbn [rbind]. rewrite decide_True by done.
      destruct (IH (i + 1) bf1 (ks ++ [x])) as (bf' & E & Hl' & Hk' & Hz); try done; try (rewrite ?len_app, ?len_cons, ?len_nil; lia).
      * eapply holds_ext; [done|]. intros j Hj. rewrite Hs1, decide_False by lia. done.
      * apply holds_snoc; [|by rewrite Hs1, decide_True by lia].
        eapply holds_ext; [done|]. intros j Hj. rewrite Hs1, decide_False by lia. done.
      * assert (len (ks ++ [x]) = len ks + 1) as El by apply len_app. rewrite El, <- !app_assoc in E. rewrite <- !app_assoc in Hk'.
        exists bf'. split_and!; try done.
        intros j Hj. rewrite Hz by lia. rewrite Hs1, decide_False by lia. done.
Qed.

Lemma clear_loop_ok sz h n : 0 < sz -> forall k bf, len bf = sz -> 0 <= k -> k + Z.of_nat n <= sz ->
  exists bf', clear_loop sz n bf (slot sz h k) = Ok bf' /\ len bf' = sz /\
    forall j, 0 <= j < sz -> seen sz h bf' j = if decide (k <= j < k + Z.of_nat n) then Some zero else seen sz h bf j.
Proof.
  intros Hs. induction n as [|n IH]; intros k bf Hl Hk Hn; cbn [clear_loop].
  - exists bf. split_and!; try done. intros j Hj. by rewrite decide_False by lia.
  - destruct (put_slot sz h bf k zero) as (bf1 & -> & Hl1 & Hs1); [lia..|]. cbn [rbind]. rewrite next_slot by done. cbn [rbind].
    destruct (IH (k + 1) bf1) as (bf' & -> & Hl' & Hs'); [lia..|]. exists bf'. split_and!; try done.
    intros j Hj. rewrite Hs', Hs1 by lia.
    destruct (decide (k + 1 <= j < _)), (decide (j = k)), (decide (k <= j < _)); (done || lia).
Qed.

Lemma kept_len l : len (kept_of l) <= len l.
Proof. unfold len. pose proof (length_filter (fun x => remove x = false) l). unfold kept_of. lia. Qed.

Lemma scan_rep sz h bf l : rep sz h bf l ->
  exists bf1 bf2, scan_loop remove sz (length l) bf h h 0 = Ok (bf1, slot sz h (len (kept_of l)), len (kept_of l)) /\
    clear_loop sz (Z.to_nat (len l - len (kept_of l))) bf1 (slot sz h (len (kept_of l))) = Ok bf2 /\
    rep sz h bf2 (kept_of l).
Proof.
  intros [Hs Hl Hh Hc Hseen]. pose proof (kept_len l). pose proof (len_nonneg (kept_of l)).
  destruct (scan_loop_ok sz h l Hs 0 bf []) as (bf1 & E1 & Hl1 & Hk1 & Hz1); try (rewrite ?len_nil; lia); try done.
  { intros j Hj. cbn. apply Hseen. lia. }
  { intros j Hj. unfold len in Hj. cbn in Hj. lia. }
  change (len []) with 0 in E1; rewrite slot_0 in E1 by done.
  destruct (clear_loop_ok sz h (Z.to_nat (len l - len (kept_of l))) Hs (len (kept_of l)) bf1) as (bf2 & E2 & Hl2 & Hs2); [lia..|].
  exists bf1, bf2. split_and!; try done. constructor; try done; [lia|].
  intros k Hk. rewrite Hs2 by done. destruct (decide _) as [Hd|Hd]; [by rewrite item_ge by lia|].
  destruct (Z.lt_ge_cases k (len (kept_of l))) as [Hlt|Hge]; [apply (Hk1 k); cbn [app]; lia|].
  rewrite Hz1 by lia. rewrite Hseen by lia. by rewrite !item_ge by lia.
Qed.
End scan.

(** ** The refinement *)

Record refines (b : FIFO) (q : queue) : Prop := {
  f_size : size b = q_size q;
  f_rep : rep (size b) (head b) (buf b) (q_items q);
  f_tail : tail b = slot (size b) (head b) (count b);
  f_count : count b = len (q_items q);
  f_scans : scans b = q_scans q;
  f_at : at_ b = q_at q;
  f_closed : out_closed b = q_closed q;
  f_out : delivered b = q_out q;
  f_flush : q_at q = Flushing -> q_items q <> [];
}.

Lemma new_refines capacity interval has_remove : refines (newFIFO capacity interval has_remove) (new_queue capacity interval has_remove).
Proof.
  assert (0 < if capacity <=? 0 then DefaultFIFOSize else capacity) as Hs.
  { unfold DefaultFIFOSize. destruct (Z.leb_spec capacity 0); lia. }
  constructor; try done; cbn. by apply rep_new.
Qed.

Lemma push_ok b q v : refines b q -> q_at q = Running -> len (q_items q) < size b ->
  exists b', push b v = Ok b' /\ refines b' (with_items q (q_items q ++ [v])).
Proof.
  intros [Es Hr Ht Hc Esc Ea Ecl Eo _] Hrun Hlt. unfold push. rewrite Ht, Hc.
  destruct (push_rep _ _ _ _ v Hr Hlt) as (bf' & -> & Hr'). cbn [rbind].
  rewrite next_slot by apply Hr. cbn [rbind]. eexists. split; [done|]. constructor; cbn; try done; rewrite ?len_app; try congruence. done.
Qed.

Lemma pop_ok b q x l : refines b q -> q_items q = x :: l ->
  front b = Ok x /\ exists b', pop b = Ok b' /\ at_ b' = at_ b /\
    (q_at q <> Flushing -> refines b' (with_items q l)) /\
    forall p c o, (p = Flushing -> l <> []) ->
      refines (MkFIFO (size b') (buf b') (head b') (tail b') (count b') (scans b') p c o) (MkQueue (q_size q) l (q_scans q) p c o).
Proof.
  intros [Es Hr Ht Hc Esc Ea Ecl Eo _] Hl. rewrite Hl in *. pose proof Hr as [Hs Hlen Hh Hcap _].
  destruct (pop_rep _ _ _ _ _ Hr) as (Hx & bf' & E & Hr'). unfold front, pop. rewrite Hx, E. cbn. split; [done|].
  pose proof (next_slot (size b) (head b) 0 Hs) as En. rewrite slot_0 in En by done. rewrite En. cbn. eexists. split; [done|]. split; [done|].
  match goal with |- (_ -> refines ?b' _) /\ ?R => enough R as H end.
  { split; [|done]. intros Hq. unfold with_items. rewrite <- Ea, <- Ecl, <- Eo. apply H. by rewrite Ea. }
  intros p c o Hp. constructor; cbn; try done.
  - rewrite slot_next by done. rewrite Ht. f_equal. lia.
  - rewrite Hc, len_cons. lia.
Qed.

Lemma deliver_ok b q x l : refines b q -> q_items q = x :: l ->
  exists b', deliver b = Ok b' /\ count b' = len l /\ (q_at q <> Flushing \/ l <> [] ->
    refines b' (MkQueue (q_size q) l (q_scans q) (q_at q) (q_closed q) (q_out q ++ [x]))) /\
  refines (with_at b' Returned true) (MkQueue (q_size q) l (q_scans q) Returned true (q_out q ++ [x])).
Proof.
  intros Hb Hl. destruct (pop_ok b q x l Hb Hl) as (Hf & b' & Hp & Hat & _ & Hr). unfold deliver. rewrite Hf, Hp. cbn [rbind].
  pose proof (Hr Returned true (q_out q ++ [x]) ltac:(done)) as Hret.
  assert (delivered b' = q_out q /\ out_closed b' = q_closed q) as [Ed Ec].
  { unfold pop in Hp. res_inv. cbn. split; apply Hb. }
  eexists. split; [done|]. rewrite Hat, (f_at _ _ Hb), Ed, Ec. split_and!.
  - apply (f_count _ _ Hret).
  - intros Hor. apply Hr. intros E. by destruct Hor.
  - exact Hret.
Qed.

Lemma scan_ok remove b q : refines b q -> q_at q = Running ->
  exists b', scan b remove = Ok b' /\ refines b' (with_items q (filter (fun x => remove x = false) (q_items q))).
Proof.
  intros [Es Hr Ht Hc Esc Ea Ecl Eo _] Hrun. unfold scan. rewrite Hc. destruct (Z.eqb_spec (len (q_items q)) 0) as [E0|Hne].
  - exists b. split; [done|]. assert (q_items q = []) as El by (destruct (q_items q); [done|rewrite len_cons in E0; pose proof (len_nonneg l); lia]).
    rewrite El in *. constructor; cbn; try done; congruence.
  - destruct (scan_rep remove _ _ _ _ Hr) as (bf1 & bf2 & E1 & E2 & Hr2).
    unfold len at 1. rewrite Nat2Z.id, E1. cbn [rbind]. rewrite E2. cbn [rbind].
    pose proof Hr as [Hs _ Hh _ _]. pose proof (len_nonneg (kept_of remove (q_items q))).
    rewrite go_rem_pos by lia. cbn [rbind]. eexists. split; [done|]. constructor; cbn; try done; congruence.
Qed.

Lemma fifo_step_refines b q e : refines b q ->
  match queue_step q e with
  | Some q' => exists b', run_step b e = Some (Ok b') /\ refines b' q'
  | None => run_step b e = None
  end.
Proof.
  intros Hb. pose proof Hb as [Es Hr Ht Hc Esc Ea Ecl Eo Hfl]. pose proof (r_cap _ _ _ _ Hr) as Hcap.
  unfold queue_step, run_step. rewrite Ea.
  assert (forall p c, (p = Flushing -> q_items q <> []) -> refines (with_at b p c) (MkQueue (q_size q) (q_items q) (q_scans q) p c (q_out q))) as Hwith.
  { intros p c Hp. by constructor. }
  destruct (q_at q) eqn:Eat; [|specialize (Hfl eq_refl)|by destruct e].
  - rewrite Hc. destruct (Z.eqb_spec (len (q_items q)) 0) as [E0|Hne].
    + assert (q_items q = []) as El by (destruct (q_items q); [done|rewrite len_cons in E0; pose proof (len_nonneg l); lia]).
      destruct e; cbn; rewrite ?El.
      * unfold enqueue. rewrite El. replace (len [] =? q_size q) with false by (symmetry; apply Z.eqb_neq; pose proof (r_size _ _ _ _ Hr); unfold len; cbn; lia).
        destruct (push_ok b q v Hb Eat) as (b' & -> & Hb'); [rewrite E0; apply Hr|]. rewrite El in Hb'. eauto.
      * eexists. split; [done|]. unfold q_return. apply Hwith. done.
      * done.
      * rewrite Esc. destruct (q_scans q) eqn:E; [|done]. eexists. split; [done|]. cbn. constructor; cbn; rewrite <- ?El; try done; congruence.
      * eexists. split; [done|]. unfold q_return. rewrite <- Ecl. by apply Hwith.
    + destruct (q_items q) as [|x l] eqn:El; [done|]. destruct e; cbn [runBuffered].
      * unfold enqueue. rewrite Hc, <- Es, El. destruct (Z.eqb_spec (len (x :: l)) (size b)) as [Ef|Hnf].
        -- destruct (pop_ok b q x l Hb El) as (_ & b' & -> & _ & Hr' & _). cbn [rbind list.tail].
           specialize (Hr' ltac:(by rewrite Eat)).
           destruct (push_ok b' (with_items q l) v Hr' Eat) as (b'' & -> & Hb''); [cbn; rewrite len_cons in Ef; rewrite (f_size _ _ Hr'); cbn; lia|].
           eauto.
        -- cbn [rbind]. destruct (push_ok b q v Hb Eat) as (b' & -> & Hb'); [rewrite El; lia|]. rewrite El in Hb'. eauto.
      * eexists. split; [done|]. rewrite Ecl. by apply Hwith.
      * destruct (deliver_ok b q x l Hb El) as (b' & -> & _ & Hb' & _). eexists. split; [done|]. rewrite Eat in Hb'. apply Hb'. by left.
      * rewrite Esc. destruct (q_scans q) eqn:E; [|done]. destruct (scan_ok remove b q Hb Eat) as (b' & -> & Hb'). rewrite El in Hb'. eauto.
      * eexists. split; [done|]. unfold q_return. rewrite <- Ecl, El. by apply Hwith.
  - destruct (q_items q) as [|x l] eqn:El; [done|]. destruct e; cbn [flush]; try done.
    + destruct (deliver_ok b q x l Hb El) as (b' & -> & Hc' & Hb' & Hret). cbn [rbind]. rewrite Hc'.
      eexists. split; [done|]. destruct l as [|y l].
      * exact Hret.
      * rewrite len_cons. pose proof (len_nonneg l). replace (len l + 1 >? 0) with true by (symmetry; apply Z.gtb_lt; lia).
        rewrite <- Eat. apply Hb'. by right.
    + eexists. split; [done|]. unfold q_return. rewrite <- Ecl, El. by apply Hwith.
Qed.

Lemma fifo_run_refines es : forall b q, refines b q ->
  match queue_run q es with
  | Some q' => exists b', run b es = Some (Ok b') /\ refines b' q'
  | None => run b es = None
  end.
Proof.
  induction es as [|e es IH]; intros b q Hb; cbn [run queue_run]; [by exists b|].
  pose proof (fifo_step_refines b q e Hb) as H. destruct (queue_step q e) as [q'|]; cbn.
  - destruct H as (b' & -> & Hb'). by apply IH.
  - by rewrite H.
Qed.

(** ** What the queue promises *)

Definition received (es : list event) : list T := omap (fun e => match e with EIn v => Some v | _ => None end) es.

Definition not_scan (e : event) : Prop := match e with EScan _ => False | _ => True end.

(** [n]: what has been received so far is [rs]; [s]: there was no scan. *)
Record queue_ok (rs : list T) (noscan : Prop) (q : queue) : Prop := {
  o_order : sublist (q_out q ++ q_items q) rs;
  o_cap : len (q_items q) <= q_size q /\ 0 < q_size q;
  o_newest : noscan -> q_items q `suffix_of` rs;
  o_all : noscan -> len rs <= q_size q -> q_out q ++ q_items q = rs;
  o_closed : q_closed q = true -> q_items q = [];
}.

(** Moving the oldest item from the queue to the output. *)
Lemma out_ok rs s q x l c a : queue_ok rs s q -> q_items q = x :: l -> (c = true -> l = []) ->
  queue_ok rs s (MkQueue (q_size q) l (q_scans q) a c (q_out q ++ [x])).
Proof.
  intros [Ho [Hcap Hp] Hn Ha Hc] El Hcl. rewrite El in *. rewrite len_cons in Hcap.
  constructor; cbn; rewrite <- ?app_assoc; try done; [lia|].
  intros Hs. destruct (Hn Hs) as [k ->]. exists (k ++ [x]). by rewrite <- app_assoc.
Qed.

Lemma enqueue_ok rs s q v : queue_ok rs s q -> q_closed q = false -> queue_ok (rs ++ [v]) s (enqueue q v).
Proof.
  intros [Ho [Hcap Hp] Hn Ha Hc] Hcl. unfold enqueue. constructor; cbn.
  - rewrite app_assoc. apply sublist_app; [|done]. destruct (_ =? _); [|done].
    etrans; [|exact Ho]. apply sublist_app; [done|]. destruct (q_items q); [done|]. by constructor.
  - split; [|done]. rewrite len_app. change (len [v]) with 1.
    destruct (Z.eqb_spec (len (q_items q)) (q_size q)); [|lia].
    destruct (q_items q) as [|x l]; [change (len (list.tail [])) with 0; lia|]. cbn. rewrite len_cons in *. lia.
  - intros Hs. apply suffix_app. destruct (_ =? _); [|by apply Hn]. destruct (Hn Hs) as [k ->].
    destruct (q_items q) as [|x l]; [by apply suffix_nil|]. exists (k ++ [x]). by rewrite <- app_assoc.
  - intros Hs Hlen. rewrite len_app in Hlen. change (len [v]) with 1 in Hlen. specialize (Ha Hs ltac:(lia)).
    replace (len (q_items q) =? q_size q) with false; [by rewrite app_assoc, Ha|].
    symmetry. apply Z.eqb_neq. rewrite <- Ha, len_app in Hlen. pose proof (len_nonneg (q_out q)). lia.
  - by rewrite Hcl.
Qed.

Lemma queue_ok_weaken rs (s s' : Prop) q : queue_ok rs s q -> (s' -> s) -> queue_ok rs s' q.
Proof. intros [Ho Hcap Hn Ha Hc] H. constructor; auto. Qed.

Lemma queue_step_ok rs s q e q' : queue_ok rs s q -> queue_step q e = Some q' ->
  (q_closed q = true -> q_at q = Returned) ->
  queue_ok (rs ++ received [e]) (s /\ not_scan e) q' /\ (q_closed q' = true -> q_at q' = Returned).
Proof.
  intros Hok E Hcl. apply (queue_ok_weaken _ _ (s /\ not_scan e)) in Hok; [|tauto]. pose proof Hok as [Ho Hcap Hn Ha Hc].
  assert (q_at q <> Returned -> q_closed q = false) as Hopen by (destruct (q_closed q); naive_solver).
  unfold queue_step in E. destruct (q_at q) eqn:Eat; [| |done]; specialize (Hopen ltac:(done)).
  - destruct e; unfold received; cbn [omap list_omap]; rewrite ?app_nil_r.
    + injection E as <-. split; [by apply enqueue_ok|cbn; congruence].
    + destruct (q_items q) eqn:El; injection E as <-; cbn; rewrite ?El; (split; [|try done; congruence]);
        constructor; cbn; rewrite ?El; try done; by rewrite Hopen.
    + destruct (q_items q) as [|x l] eqn:El; [done|]. injection E as <-. split; [apply out_ok; try done|]; cbn; congruence.
    + destruct (q_scans q); [|done]. injection E as <-. split; [|cbn; congruence].
      constructor; cbn; try done; try (by intros [_ []]); try (by rewrite Hopen).
      * etrans; [|exact Ho]. apply sublist_app; [done|apply sublist_filter].
      * pose proof (kept_len remove (q_items q)) as Hk. unfold kept_of in Hk. lia.
    + injection E as <-. split; [|done]. by constructor.
  - destruct e; try done; unfold received; cbn [omap list_omap]; rewrite ?app_nil_r; destruct (q_items q) as [|x l] eqn:El; try done; injection E as <-.
    + split; [apply out_ok; try done; destruct l; done||congruence|destruct l; cbn; done||congruence].
    + split; [|done]. constructor; cbn; rewrite ?El; done.
    + split; [|done]. constructor; cbn; rewrite ?El; done.
Qed.

Lemma queue_run_ok es : forall rs s q q', queue_ok rs s q -> queue_run q es = Some q' ->
  (q_closed q = true -> q_at q = Returned) -> queue_ok (rs ++ received es) (s /\ Forall not_scan es) q'.
Proof.
  induction es as [|e es IH]; intros rs s q q' Hok E Hcl; cbn in E.
  - injection E as <-. unfold received. cbn. rewrite app_nil_r. eapply queue_ok_weaken; [done|tauto].
  - destruct (queue_step q e) as [q1|] eqn:E1; [|done]. cbn in E.
    destruct (queue_step_ok _ _ _ _ _ Hok E1 Hcl) as [Hok1 Hcl1]. specialize (IH _ _ _ _ Hok1 E Hcl1).
    assert (received (e :: es) = received [e] ++ received es) as Er by apply (omap_app _ [e] es).
    rewrite Er, app_assoc. eapply queue_ok_weaken; [done|]. rewrite Forall_cons. naive_solver.
Qed.
End fifo.

(** ** Properties *)

(** C14: Whatever its capacity, the order of the events its select statements see
    and what the function of its scan says at each of them, the ring buffer never
    panics and is the queue that drops its oldest element when full: the same
    events are possible, the same values are delivered, as many are buffered, and
    the output is closed in the same states. *)
Theorem FIFO_refines {T} (zero : T) capacity interval has_remove es :
  match queue_run (new_queue capacity interval has_remove) es with
  | Some q => exists b, run zero (newFIFO zero capacity interval has_remove) es = Some (Ok b) /\
      delivered b = q_out q /\ count b = len (q_items q) /\ out_closed b = q_closed q /\
      (forall k, 0 <= k < len (q_items q) -> zget (buf b) ((head b + k) mod size b) = Some (item zero (q_items q) k)) /\
      (forall k, len (q_items q) <= k < size b -> zget (buf b) ((head b + k) mod size b) = Some zero)
  | None => run zero (newFIFO zero capacity interval has_remove) es = None
  end.
Proof.
  pose proof (fifo_run_refines zero es _ _ (new_refines zero capacity interval has_remove)) as H.
  destruct (queue_run _ _) as [q|]; [|done]. destruct H as (b & E & [Es Hr _ Hc _ _ Hcl Ho _]).
  exists b. split_and!; try done.
  - intros k Hk. pose proof (r_cap _ _ _ _ _ Hr). apply (r_seen _ _ _ _ _ Hr). lia.
  - intros k Hk. pose proof (len_nonneg (q_items q)). rewrite <- (item_ge zero (q_items q) k) by lia.
    apply (r_seen _ _ _ _ _ Hr). lia.
Qed.

(** What a FIFO delivers and still holds comes from what it received, in
    that order; it never holds more than its capacity; without a scan what it
    holds are the newest values, and nothing at all is lost as long as no more
    than its capacity was received; and when it has closed its output it holds
    nothing. *)
Theorem FIFO_order {T} (zero : T) capacity interval has_remove es r
  (E : run zero (newFIFO zero capacity interval has_remove) es = Some r) :
  exists b items, r = Ok b /\ count b = len items /\ count b <= size b /\
    sublist (delivered b ++ items) (received es) /\
    (Forall not_scan es -> items `suffix_of` received es /\
      (len (received es) <= size b -> delivered b ++ items = received es)) /\
    (out_closed b = true -> items = []).
Proof.
  pose proof (fifo_run_refines zero es _ _ (new_refines zero capacity interval has_remove)) as H.
  destruct (queue_run _ _) as [q|] eqn:Eq; [|congruence]. destruct H as (b & E' & [Es Hr _ Hc _ _ Hcl Ho _]).
  rewrite E in E'. injection E' as ->.
  assert (queue_ok [] True (new_queue (T:=T) capacity interval has_remove)) as H0.
  { constructor; cbn; try done. unfold DefaultFIFOSize, len. cbn. destruct (Z.leb_spec capacity 0); lia. }
  destruct (queue_run_ok es [] True _ q H0 Eq ltac:(done)) as [H1 H2 H3 H4 H5].
  cbn in *. exists b, (q_items q). rewrite Ho, Es, Hcl, Hc. split_and!; try done; [lia|].
  intros Hns. split; [by apply H3|]. intros Hlen. by apply H4.
Qed.

Example FIFO_order_witness : exists b, run 0 (newFIFO 0 2 0 false) [EIn 1; EIn 2; EIn 3; EOut; EInClosed; EOut] = Some (Ok b) /\
  sublist (delivered b) [1; 2; 3] /\ count b = 0.
Proof.
  destruct (FIFO_order 0 2 0 false [EIn 1; EIn 2; EIn 3; EOut; EInClosed; EOut]
    (Ok (MkFIFO 2 [0; 0] 1 1 0 false Returned true [2; 3])) eq_refl) as (b & items & [= <-] & Hc & _ & Hs & _ & He).
  exists (MkFIFO 2 [0; 0] 1 1 0 false Returned true [2; 3]). split; [vm_compute; reflexivity|]. rewrite (He eq_refl), app_nil_r in Hs. by split.
Defined.
