(* ===== verification/Pubsub.v ===== *)
(** * Publish/subscribe (sync/patterns/pubsub.go)

    Publishers, subscribers and the goroutines of the subscribers' queues
    ([Fifo]) interleave.  The state of the read-write lock is who reads:
    publishers hold it while they send, every other operation excludes them and
    is one step. *)

From stdpp Require Import base list option numbers gmap sets.
From Stdlib Require Import ZArith Lia.
From S2P Require Import Prelude Fifo.

Open Scope list_scope.
Open Scope Z_scope.
Open Scope go_scope.

Section pubsub.
Context {T : Type} (zero : T).

Definition DefaultPubSubCapacity : Z := 100.

(** What [Publish] is doing: in its range over the subscribers, holding the read
    lock, or about to prune the dead ones. *)
Inductive publisher :=
| Sending (item : T) (todo : gset nat) (dead : gset nat)
| Pruning (dead : gset nat).

(** A [Subscriber] is known by a number; [in_closed]: whose [in] is closed. *)
Record PubSub := MkPubSub {
  subscribers : gset nat; closed : bool;
  fifos : gmap nat (FIFO (T:=T)); in_closed : gset nat;
  publishers : gmap nat publisher;
}.

Definition New : PubSub := MkPubSub ∅ false ∅ ∅ ∅.

(** No publisher holds the read lock. *)
Definition unlocked (ps : PubSub) : bool :=
  bool_decide (map_Forall (fun _ p => match p with Sending _ _ _ => false | Pruning _ => true end = true) (publishers ps)).

(** [close(sub.ch.In())]: a panic on a channel that is closed. *)
Definition close_in (cl : gset nat) (sub : nat) : res (gset nat) :=
  if bool_decide (sub ∈ cl) then Panic else Ok ({[sub]} ∪ cl).

Fixpoint close_all (cl : gset nat) (subs : list nat) : res (gset nat) :=
  match subs with
  | [] => Ok cl
  | sub :: subs => let! cl := close_in cl sub in close_all cl subs
  end.

Inductive action :=
| ASubscribe (sub : nat) (capacity : Z)
| AUnsubscribe (sub : nat)
| AClose
| APublish (p : nat) (item : T)     (* [Publish] takes the read lock *)
| ASend (p sub : nat)               (* its select sends to [sub] *)
| ADead (p sub : nat)               (* its select sees that [sub] is not alive *)
| AUnlock (p : nat)                 (* it releases the read lock *)
| APrune (p : nat)
| AFifo (sub : nat) (e : event (T:=T)).  (* the queue of [sub], other than by receiving a value *)

Definition Subscribe (ps : PubSub) (sub : nat) (capacity : Z) : res PubSub :=
  let capacity := if capacity <=? 0 then DefaultPubSubCapacity else capacity in
  let fs := <[sub := newFIFO zero capacity 0 false]> (fifos ps) in
  if closed ps then
    let! cl := close_in (in_closed ps) sub in
    Ok (MkPubSub (subscribers ps) (closed ps) fs cl (publishers ps))
  else Ok (MkPubSub ({[sub]} ∪ subscribers ps) (closed ps) fs (in_closed ps) (publishers ps)).

Definition Unsubscribe (ps : PubSub) (sub : nat) : res PubSub :=
  if bool_decide (sub ∈ subscribers ps) then
    let! cl := close_in (in_closed ps) sub in
    Ok (MkPubSub (subscribers ps ∖ {[sub]}) (closed ps) (fifos ps) cl (publishers ps))
  else Ok ps.

Definition Close (ps : PubSub) : res PubSub :=
  if closed ps then Ok ps
  else
    let! cl := close_all (in_closed ps) (elements (subscribers ps)) in
    Ok (MkPubSub ∅ true (fifos ps) cl (publishers ps)).

Definition with_publisher (ps : PubSub) (p : nat) (s : option publisher) : PubSub :=
  MkPubSub (subscribers ps) (closed ps) (fifos ps) (in_closed ps) (partial_alter (fun _ => s) p (publishers ps)).

Definition with_fifo (ps : PubSub) (sub : nat) (b : FIFO) : PubSub :=
  MkPubSub (subscribers ps) (closed ps) (<[sub := b]> (fifos ps)) (in_closed ps) (publishers ps).

(** [Publish] up to the range over the subscribers. *)
Definition publish (ps : PubSub) (p : nat) (item : T) : PubSub :=
  if closed ps then ps else with_publisher ps p (Some (Sending item (subscribers ps) ∅)).

Definition fifo_step (ps : PubSub) (sub : nat) (e : event) : option (res PubSub) :=
  b ← fifos ps !! sub;
  r ← run_step zero b e;
  Some (let! b := r in Ok (with_fifo ps sub b)).

(** The case of the select that sends: it panics on a closed channel, and waits
    for a goroutine that does not receive. *)
Definition send (ps : PubSub) (p sub : nat) : option (res PubSub) :=
  match publishers ps !! p with
  | Some (Sending item todo dead) =>
      if bool_decide (sub ∈ todo) then
        if bool_decide (sub ∈ in_closed ps) then Some Panic
        else
          r ← fifo_step ps sub (EIn item);
          Some (let! ps := r in Ok (with_publisher ps p (Some (Sending item (todo ∖ {[sub]}) dead))))
      else None
  | _ => None
  end.

(** The other: [alive] is closed when the queue's goroutine has returned. *)
Definition see_dead (ps : PubSub) (p sub : nat) : option (res PubSub) :=
  match publishers ps !! p, fifos ps !! sub with
  | Some (Sending item todo dead), Some b =>
      match at_ b with
      | Returned =>
          if bool_decide (sub ∈ todo)
          then Some (Ok (with_publisher ps p (Some (Sending item (todo ∖ {[sub]}) ({[sub]} ∪ dead)))))
          else None
      | _ => None
      end
  | _, _ => None
  end.

Definition unlock (ps : PubSub) (p : nat) : option (res PubSub) :=
  match publishers ps !! p with
  | Some (Sending _ todo dead) =>
      if bool_decide (todo = ∅)
      then Some (Ok (with_publisher ps p (if bool_decide (dead = ∅) then None else Some (Pruning dead))))
      else None
  | _ => None
  end.

Definition prune (ps : PubSub) (p : nat) : option (res PubSub) :=
  match publishers ps !! p with
  | Some (Pruning dead) =>
      Some (Ok (with_publisher (MkPubSub (subscribers ps ∖ dead) (closed ps) (fifos ps) (in_closed ps) (publishers ps)) p None))
  | _ => None
  end.

(** [None]: the step has to wait, or makes no sense: a subscriber that exists, or
    a publisher that is busy. *)
Definition step (ps : PubSub) (a : action) : option (res PubSub) :=
  match a with
  | ASubscribe sub capacity =>
      if unlocked ps && bool_decide (fifos ps !! sub = None) then Some (Subscribe ps sub capacity) else None
  | AUnsubscribe sub => if unlocked ps then Some (Unsubscribe ps sub) else None
  | AClose => if unlocked ps then Some (Close ps) else None
  | APublish p item => match publishers ps !! p with None => Some (Ok (publish ps p item)) | _ => None end
  | ASend p sub => send ps p sub
  | ADead p sub => see_dead ps p sub
  | AUnlock p => unlock ps p
  | APrune p => if unlocked ps then prune ps p else None
  | AFifo sub e =>
      match e with
      | EIn _ => None
      | EInClosed => if bool_decide (sub ∈ in_closed ps) then fifo_step ps sub e else None
      | _ => fifo_step ps sub e
      end
  end.

Fixpoint run (ps : PubSub) (l : list action) : option (res PubSub) :=
  match l with
  | [] => Some (Ok ps)
  | a :: l => match step ps a with Some (Ok ps) => run ps l | r => r end
  end.

(** ** The invariant *)

Record inv (ps : PubSub) : Prop := {
  v_sub : subscribers ps ⊆ dom (fifos ps);
  v_in : in_closed ps ⊆ dom (fifos ps);
  v_open : forall sub, sub ∈ subscribers ps -> sub ∉ in_closed ps;
  v_todo : forall p item todo dead, publishers ps !! p = Some (Sending item todo dead) -> todo ⊆ subscribers ps;
  v_fifo : forall sub b, fifos ps !! sub = Some b ->
    (exists q, refines zero b q) /\ (at_ b = Flushing -> sub ∈ in_closed ps);
}.

Lemma inv_New : inv New.
Proof. constructor; cbn; try set_solver; intros *; by rewrite lookup_empty. Qed.

Lemma queue_step_flushing (q q' : queue (T:=T)) e : queue_step q e = Some q' -> q_at q' = Flushing ->
  q_at q = Flushing \/ e = EInClosed.
Proof.
  unfold queue_step. destruct (q_at q) eqn:E, e, (q_items q); try done; try tauto;
    try (destruct (q_scans q)); intros [= <-]; cbn; congruence.
Qed.

(** A step of one queue. *)
Lemma fifo_step_inv ps sub e r : inv ps -> fifo_step ps sub e = Some r -> (e = EInClosed -> sub ∈ in_closed ps) ->
  exists b, r = Ok (with_fifo ps sub b) /\ inv (with_fifo ps sub b).
Proof.
  intros [Hs Hi Ho Ht Hf] E He. unfold fifo_step in E. destruct (fifos ps !! sub) as [b|] eqn:Eb; [|done]. cbn in E.
  destruct (Hf _ _ Eb) as [[q Hq] Hfl]. pose proof (fifo_step_refines zero b q e Hq) as Hstep.
  destruct (queue_step q e) as [q'|] eqn:Eq; [|by rewrite Hstep in E]. destruct Hstep as (b' & Eb' & Hb').
  rewrite Eb' in E. injection E as <-. exists b'. split; [done|].
  assert (dom (<[sub:=b']> (fifos ps)) = dom (fifos ps)) as Ed.
  { rewrite dom_insert_L. assert (sub ∈ dom (fifos ps)) by (by eapply elem_of_dom_2). set_solver. }
  constructor; cbn; rewrite ?Ed; try done.
  intros s2 b2. destruct (decide (s2 = sub)) as [->|Hne]; [|rewrite lookup_insert_ne by done; apply Hf].
  rewrite lookup_insert_eq. intros [= <-]. split; [by exists q'|]. rewrite (f_at _ _ _ Hb'). intros Efl.
  destruct (queue_step_flushing _ _ _ Eq Efl) as [Hold| ->]; [|by apply He].
  apply Hfl. by rewrite (f_at _ _ _ Hq).
Qed.

(** Closing the inputs of distinct subscribers that are open. *)
Lemma close_all_ok subs : forall cl, NoDup subs -> (forall s, s ∈ subs -> s ∉ cl) ->
  close_all cl subs = Ok (list_to_set subs ∪ cl).
Proof.
  induction subs as [|s subs IH]; intros cl Hnd Hcl; cbn; [f_equal; set_solver|].
  apply NoDup_cons in Hnd as [Hs Hnd]. unfold close_in.
  rewrite bool_decide_false by (apply Hcl; by left). cbn. rewrite IH; [f_equal; set_solver|done|].
  intros x Hx. specialize (Hcl x). set_solver.
Qed.

Lemma unlocked_no_sending ps p item todo dead : unlocked ps = true -> publishers ps !! p <> Some (Sending item todo dead).
Proof. unfold unlocked. rewrite bool_decide_eq_true. intros H E. by specialize (H _ _ E). Qed.

Lemma with_publisher_inv ps p s : inv ps ->
  (forall item todo dead, s = Some (Sending item todo dead) -> todo ⊆ subscribers ps) -> inv (with_publisher ps p s).
Proof.
  intros [Hs Hi Ho Ht Hf] Hp. constructor; cbn; try done. intros p2 item todo dead.
  destruct (decide (p2 = p)) as [->|Hne]; [rewrite lookup_partial_alter_eq; apply Hp|].
  rewrite lookup_partial_alter_ne by done. apply Ht.
Qed.

Lemma Subscribe_inv ps sub capacity : inv ps -> unlocked ps = true -> fifos ps !! sub = None ->
  exists ps', Subscribe ps sub capacity = Ok ps' /\ inv ps'.
Proof.
  intros [Hs Hi Ho Ht Hf] Hu Hnew. unfold Subscribe. apply not_elem_of_dom in Hnew.
  set (b := newFIFO _ _ _ _).
  assert (forall cl, in_closed ps ⊆ cl -> forall s2 b2, <[sub:=b]> (fifos ps) !! s2 = Some b2 ->
    (exists q, refines zero b2 q) /\ (at_ b2 = Flushing -> s2 ∈ cl)) as Hf'.
  { intros cl Hcl s2 b2. destruct (decide (s2 = sub)) as [->|Hne].
    - rewrite lookup_insert_eq. intros [= <-]. split; [|done]. eexists. apply new_refines.
    - rewrite lookup_insert_ne by done. intros E. destruct (Hf _ _ E). split; [done|]. set_solver. }
  destruct (closed ps).
  - unfold close_in. rewrite bool_decide_false by set_solver. cbn. eexists. split; [done|].
    constructor; cbn; rewrite ?dom_insert_L; try done; try set_solver.
  - eexists. split; [done|]. constructor; cbn; rewrite ?dom_insert_L; try done; try set_solver.
Qed.

(** With no publisher at work the input channels of some subscribers are closed
    and these are removed. *)
Lemma inv_removed ps subs closed' cl : inv ps -> unlocked ps = true ->
  subs ⊆ subscribers ps -> in_closed ps ⊆ cl -> cl ⊆ in_closed ps ∪ subscribers ps -> (forall s, s ∈ subs -> s ∉ cl) ->
  inv (MkPubSub subs closed' (fifos ps) cl (publishers ps)).
Proof.
  intros [Hs Hi Ho Ht Hf] Hu Hsub Hcl1 Hcl2 Hdis. constructor; cbn.
  - by etrans.
  - clear -Hcl2 Hi Hs. set_solver.
  - done.
  - intros p item todo dead E. by apply unlocked_no_sending in E.
  - intros s b E. destruct (Hf _ _ E) as [? Hfl]. split; [done|]. intros Hat. by apply Hcl1, Hfl.
Qed.

Lemma Unsubscribe_inv ps sub : inv ps -> unlocked ps = true -> exists ps', Unsubscribe ps sub = Ok ps' /\ inv ps'.
Proof.
  intros Hi Hu. unfold Unsubscribe. destruct (bool_decide_reflect (sub ∈ subscribers ps)) as [Hin|]; [|by eauto].
  pose proof (v_open _ Hi) as Ho. unfold close_in. rewrite bool_decide_false by (by apply Ho). cbn. eexists. split; [done|].
  apply inv_removed; try done; clear -Hin Ho; set_solver.
Qed.

Lemma Close_inv ps : inv ps -> unlocked ps = true -> exists ps', Close ps = Ok ps' /\ inv ps'.
Proof.
  intros Hi Hu. unfold Close. destruct (closed ps); [by eauto|]. pose proof (v_open _ Hi) as Ho.
  rewrite close_all_ok; [|apply NoDup_elements|intros s; rewrite elem_of_elements; apply Ho]. cbn. eexists. split; [done|].
  rewrite list_to_set_elements_L. apply inv_removed; try done; clear; set_solver.
Qed.

Lemma step_inv ps a r : inv ps -> step ps a = Some r -> exists ps', r = Ok ps' /\ inv ps'.
Proof.
  intros Hinv E. destruct a; cbn [step] in E.
  - destruct (unlocked ps) eqn:Hu, (bool_decide_reflect (fifos ps !! sub = None)); try done. injection E as <-. by apply Subscribe_inv.
  - destruct (unlocked ps) eqn:Hu; [|done]. injection E as <-. by apply Unsubscribe_inv.
  - destruct (unlocked ps) eqn:Hu; [|done]. injection E as <-. by apply Close_inv.
  - destruct (publishers ps !! p); [done|]. injection E as <-. eexists. split; [done|]. unfold publish.
    destruct (closed ps); [done|]. apply with_publisher_inv; [done|]. by intros ? ? ? [= _ <- _].
  - unfold send in E. destruct (publishers ps !! p) as [[item todo dead|]|] eqn:Ep; try done.
    pose proof (v_todo _ Hinv _ _ _ _ Ep) as Ht. destruct (bool_decide_reflect (sub ∈ todo)) as [Hin|]; [|done].
    rewrite bool_decide_false in E by (apply (v_open _ Hinv); set_solver).
    destruct (fifo_step ps sub (EIn item)) as [r'|] eqn:Ef; [|done]. cbn in E.
    destruct (fifo_step_inv _ _ _ _ Hinv Ef) as (b & -> & Hb); [done|]. injection E as <-. cbn. eexists. split; [done|].
    apply with_publisher_inv; [done|]. intros ? ? ? [= _ <- _]. cbn. set_solver.
  - unfold see_dead in E. destruct (publishers ps !! p) as [[item todo dead|]|] eqn:Ep; try done.
    destruct (fifos ps !! sub) as [b|]; [|done]. destruct (at_ b); try done. case_bool_decide; [|done]. injection E as <-.
    eexists. split; [done|]. apply with_publisher_inv; [done|]. intros ? ? ? [= _ <- _].
    pose proof (v_todo _ Hinv _ _ _ _ Ep). set_solver.
  - unfold unlock in E. destruct (publishers ps !! p) as [[item todo dead|]|] eqn:Ep; try done.
    case_bool_decide; [|done]. injection E as <-. eexists. split; [done|]. apply with_publisher_inv; [done|]. by case_bool_decide.
  - destruct (unlocked ps) eqn:Hu; [|done]. unfold prune in E. destruct (publishers ps !! p) as [[|dead]|] eqn:Ep; try done.
    injection E as <-. eexists. split; [done|]. apply with_publisher_inv; [|done]. pose proof (v_open _ Hinv) as Ho.
    apply inv_removed; try done; clear -Ho; set_solver.
  - assert (exists e', fifo_step ps sub e' = Some r /\ (e' = EInClosed -> sub ∈ in_closed ps)) as (e' & Ef & He).
    { destruct e; try done; try (by eexists; split). case_bool_decide; [|done]. by eexists; split. }
    destruct (fifo_step_inv _ _ _ _ Hinv Ef He) as (b & -> & Hb). eauto.
Qed.

Lemma run_inv l : forall ps r, inv ps -> run ps l = Some r -> exists ps', r = Ok ps' /\ inv ps'.
Proof.
  induction l as [|a l IH]; intros ps r Hi E; cbn in E; [injection E as <-; by exists ps|].
  destruct (step ps a) as [r1|] eqn:Es; [|done]. destruct (step_inv _ _ _ Hi Es) as (ps1 & -> & Hi1). by eapply IH.
Qed.

(** ** A publisher is never held up by a subscriber *)

(** The newest value of a queue that holds one. *)
Definition newest (b : FIFO (T:=T)) : option T := if count b =? 0 then None else zget (buf b) ((head b + (count b - 1)) mod size b).

(** The subscriber has [item] as its newest value, or its queue is gone. *)
Definition has (ps : PubSub) (item : T) (sub : nat) : Prop :=
  exists b, fifos ps !! sub = Some b /\ (at_ b = Returned \/ newest b = Some item).

Definition own (p : nat) (a : action) : Prop :=
  match a with ASend p' _ | ADead p' _ | AUnlock p' => p' = p | _ => False end.

Lemma newest_enqueue b q q' v : refines zero b q' -> q' = enqueue q v -> newest b = Some v.
Proof.
  intros Hb ->. pose proof (f_rep _ _ _ Hb) as Hr. pose proof (f_count _ _ _ Hb) as Hc.
  unfold newest. cbn in *.
  unfold enqueue in *; cbn in *. set (l := if _ =? _ then _ else _) in *. pose proof (len_nonneg l). rewrite len_app in Hc. change (len [v]) with 1 in Hc. rewrite (proj2 (Z.eqb_neq _ _)) by lia.
  replace (count b - 1) with (len l) by lia. pose proof (r_cap _ _ _ _ _ Hr) as Hcap.
  rewrite len_app in Hcap. change (len [v]) with 1 in Hcap.
  pose proof (r_seen _ _ _ _ _ Hr (len l) ltac:(lia)) as Hs. rewrite item_end in Hs. exact Hs.
Qed.

(** The select of a publisher always has a case that can proceed. *)
Lemma publisher_step ps p item todo dead sub : inv ps -> publishers ps !! p = Some (Sending item todo dead) -> sub ∈ todo ->
  exists a ps', own p a /\ step ps a = Some (Ok ps') /\ has ps' item sub /\
    (exists dead', publishers ps' !! p = Some (Sending item (todo ∖ {[sub]}) dead')) /\
    forall s, s <> sub -> fifos ps' !! s = fifos ps !! s.
Proof.
  intros Hi Ep Hin. pose proof (v_todo _ Hi _ _ _ _ Ep) as Ht. pose proof (v_open _ Hi sub ltac:(set_solver)) as Hop.
  assert (sub ∈ dom (fifos ps)) as [b Eb]%elem_of_dom by (pose proof (v_sub _ Hi); set_solver).
  destruct (v_fifo _ Hi _ _ Eb) as [[q Hq] Hfl]. destruct (at_ b) eqn:Eat; [|by specialize (Hfl eq_refl)|].
  - pose proof (fifo_step_refines zero b q (EIn item) Hq) as Hs. unfold queue_step in Hs.
    rewrite <- (f_at _ _ _ Hq), Eat in Hs. destruct Hs as (b' & Eb' & Hb').
    exists (ASend p sub). cbn [step own]. unfold send. rewrite Ep, bool_decide_true, bool_decide_false by done.
    unfold fifo_step. rewrite Eb. cbn. rewrite Eb'. cbn. eexists. split_and!; [done|done|..].
    + exists b'. cbn. rewrite lookup_insert_eq. split; [done|]. right. by eapply newest_enqueue.
    + exists dead. cbn. by rewrite lookup_partial_alter_eq.
    + intros s Hne. cbn. by rewrite lookup_insert_ne.
  - exists (ADead p sub). cbn [step own]. unfold see_dead. rewrite Ep, Eb, Eat, bool_decide_true by done.
    eexists. split_and!; [done|done|..].
    + exists b. cbn. split; [done|by left].
    + eexists. cbn. by rewrite lookup_partial_alter_eq.
    + done.
Qed.

Lemma publisher_finishes (n : nat) : forall ps p item todo dead, base.size todo = n -> inv ps ->
  publishers ps !! p = Some (Sending item todo dead) ->
  exists l ps', Forall (own p) l /\ run ps l = Some (Ok ps') /\
    (forall i t d, publishers ps' !! p <> Some (Sending i t d)) /\ (forall s, s ∈ todo -> has ps' item s) /\
    forall s, s ∉ todo -> fifos ps' !! s = fifos ps !! s.
Proof.
  induction n as [|n IH]; intros ps p item todo dead Hn Hi Ep.
  - apply size_empty_inv in Hn. apply leibniz_equiv in Hn as ->. exists [AUnlock p]. cbn. unfold unlock. rewrite Ep, bool_decide_true by done.
    eexists. split_and!; [by repeat constructor|done|..]; cbn; try done; try set_solver.
    intros i t d. rewrite lookup_partial_alter_eq. by case_bool_decide.
  - destruct (size_pos_elem_of todo) as [sub Hin]; [lia|].
    destruct (publisher_step _ _ _ _ _ _ Hi Ep Hin) as (a & ps1 & Ha & Es & Hhas & (d1 & Ep1) & Ho).
    destruct (step_inv _ _ _ Hi Es) as (? & [= <-] & Hi1).
    destruct (IH ps1 p item (todo ∖ {[sub]}) d1) as (l & ps' & Hl & E & Hns & Hall & Hoth); try done.
    { rewrite size_difference, size_singleton by set_solver. lia. }
    exists (a :: l), ps'. split_and!; [by constructor|cbn; by rewrite Es|done|..].
    + intros s Hs. destruct (decide (s = sub)) as [->|Hne]; [|apply Hall; set_solver].
      destruct Hhas as (b & Eb & Hb). exists b. split; [|done]. rewrite Hoth by set_solver. done.
    + intros s Hs. rewrite Hoth by set_solver. apply Ho. set_solver.
Qed.
End pubsub.

(** ** Properties *)

(** C6: However publishers, subscriptions, the closing and the queues'
    goroutines interleave, nothing panics: no channel is closed twice and
    nothing is sent on a closed one; and a publisher that is sending can always
    finish with its own steps alone, without any subscriber receiving, after
    which every subscriber it had left to serve has the item as its newest
    value or has a goroutine that returned, and no other queue has changed. *)
Theorem PubSub_never_blocks {T} (zero : T) l r (E : run zero (New (T:=T)) l = Some r) :
  exists ps, r = Ok ps /\
    (forall sub, sub ∈ subscribers ps -> sub ∉ in_closed ps) /\
    forall p item todo dead, publishers ps !! p = Some (Sending item todo dead) ->
      exists l' ps', Forall (own p) l' /\ run zero ps l' = Some (Ok ps') /\
        (forall i t d, publishers ps' !! p <> Some (Sending i t d)) /\
        (forall s, s ∈ todo -> has ps' item s) /\
        (forall s, s ∉ todo -> fifos ps' !! s = fifos ps !! s).
Proof.
  destruct (run_inv zero l New r (inv_New zero) E) as (ps & -> & Hi). exists ps. split_and!; [done|apply Hi|].
  intros p item todo dead Ep. by eapply publisher_finishes.
Qed.

Example PubSub_never_blocks_witness : exists ps, run 0 New [ASubscribe 1 1; APublish 7 5; ASend 7 1; AUnlock 7; APublish 7 6] = Some (Ok ps) /\
  exists l' ps', Forall (own 7) l' /\ run 0 ps l' = Some (Ok ps') /\ has ps' 6 1.
Proof.
  destruct (run 0 New [ASubscribe 1 1; APublish 7 5; ASend 7 1; AUnlock 7; APublish 7 6]) as [r|] eqn:E; [|by vm_compute in E].
  destruct (PubSub_never_blocks 0 _ _ E) as (ps & -> & _ & H). exists ps. split; [done|].
  destruct (H 7%nat 6 {[1%nat]} ∅) as (l' & ps' & ? & ? & _ & Hall & _).
  { vm_compute in E. injection E as <-. reflexivity. }
  exists l', ps'. split_and!; try done. apply Hall. set_solver.
Defined.
