(* ===== verification/Groups.v ===== *)
(** * Waiting for goroutines (sync/ctxsync and sync/errgroup)

    [WaitGroup] of ctxsync: its counter, the channels it makes, one for each time
    the counter leaves zero, and the calls of [Wait] that are blocked on one.
    [SingleFlight]'s loops.  [T] of errgroup: the goroutines that [Go] starts,
    each with a program counter, the tokens that limit them, the errors they
    append and the calls of [Wait]; theorems quantify over all interleavings. *)

From stdpp Require Import base list option numbers gmap sets.
From Stdlib Require Import ZArith Lia.
From S2P Require Import Prelude.

Open Scope list_scope.
Open Scope Z_scope.
Open Scope go_scope.

(** ** sync/ctxsync: WaitGroup *)

(** Channels are numbered in the order they are made. *)
Record WaitGroup := MkWaitGroup { count : Z; done_ch : option nat; made : nat; closed_chs : gset nat }.

Definition zero_WaitGroup : WaitGroup := MkWaitGroup 0 None 0 ∅.

(** [close(wg.done)] *)
Definition close_done (wg : WaitGroup) : res WaitGroup :=
  match done_ch wg with
  | None => Panic
  | Some ch => if bool_decide (ch ∈ closed_chs wg) then Panic
               else Ok (MkWaitGroup (count wg) (done_ch wg) (made wg) ({[ch]} ∪ closed_chs wg))
  end.

Definition Add (wg : WaitGroup) (delta : Z) : res WaitGroup :=
  let prev := count wg in
  let c := int64 (prev + delta) in
  let wg := MkWaitGroup c (done_ch wg) (made wg) (closed_chs wg) in
  if c <? 0 then Panic
  else if (prev =? 0) && (0 <? c) then Ok (MkWaitGroup c (Some (made wg)) (S (made wg)) (closed_chs wg))
  else if (c =? 0) && (0 <? prev) then close_done wg
  else Ok wg.

Definition Done (wg : WaitGroup) : res WaitGroup := Add wg (-1).

(** A call of [Wait]: returned, or in its select on the channel it read. *)
Inductive wait_state := WaitReturned | WaitBlocked (ch : option nat).

(** The first part of [Wait], under the lock. *)
Definition Wait_start (wg : WaitGroup) : wait_state :=
  if count wg =? 0 then WaitReturned else WaitBlocked (done_ch wg).

Record wg_state := MkWgState { wg : WaitGroup; waits : list wait_state }.

(** [Add] (also by [Done], and by [Go] before and after the function it runs),
    a call of [Wait], and its return from the select: by the channel or by its
    context. *)
Inductive wg_event := WAdd (delta : Z) | WWait | WWake (i : nat) | WCanceled (i : nat).

Definition wg_step (s : wg_state) (e : wg_event) : option (res wg_state) :=
  match e with
  | WAdd d => Some (let! w := Add (wg s) d in Ok (MkWgState w (waits s)))
  | WWait => Some (Ok (MkWgState (wg s) (waits s ++ [Wait_start (wg s)])))
  | WWake i =>
      match waits s !! i with
      | Some (WaitBlocked (Some ch)) =>
          if bool_decide (ch ∈ closed_chs (wg s)) then Some (Ok (MkWgState (wg s) (<[i := WaitReturned]> (waits s)))) else None
      | _ => None
      end
  | WCanceled i =>
      match waits s !! i with
      | Some (WaitBlocked _) => Some (Ok (MkWgState (wg s) (<[i := WaitReturned]> (waits s))))
      | _ => None
      end
  end.

Fixpoint wg_run (s : wg_state) (es : list wg_event) : option wg_state :=
  match es with
  | [] => Some s
  | e :: es => match wg_step s e with Some (Ok s) => wg_run s es | _ => None end
  end.

Definition wg_init : wg_state := MkWgState zero_WaitGroup [].

(** The channels made so far but the last are closed, and the last one too when
    the counter is zero. *)
Record wg_inv (w : WaitGroup) : Prop := {
  wi_count : 0 <= count w;
  wi_done : done_ch w = match made w with O => None | S n => Some n end;
  wi_made : 0 < count w -> (0 < made w)%nat;
  wi_closed : forall ch, ch ∈ closed_chs w <-> (ch < made w)%nat /\ (0 < count w -> S ch <> made w);
}.

Lemma wg_inv_zero : wg_inv zero_WaitGroup.
Proof. constructor; cbn; [done|done|lia|]. intros ch. split; [set_solver|lia]. Qed.

(** [Add] panics exactly when the counter gets negative, and otherwise keeps the
    invariant. *)
Lemma Add_spec w d : wg_inv w ->
  (int64 (count w + d) < 0 /\ Add w d = Panic) \/
  exists w', Add w d = Ok w' /\ wg_inv w' /\ count w' = int64 (count w + d) /\ 0 <= count w' /\ closed_chs w ⊆ closed_chs w' /\
    (made w <= made w')%nat /\ (count w' <> 0 -> forall ch, (ch < made w)%nat -> ch ∈ closed_chs w' -> ch ∈ closed_chs w).
Proof.
  intros [Hc Hd Hm Hcl]. unfold Add. set (c := int64 (count w + d)). destruct (Z.ltb_spec c 0) as [Hn|Hn]; [by left|right].
  destruct (Z.eqb_spec (count w) 0) as [Ez|Ez], (Z.ltb_spec 0 c) as [Hp|Hp]; cbn [andb].
  - eexists. split; [done|]. cbn. split_and!; [|done|done|done|lia|].
    + constructor; cbn; [done|done|lia|]. intros ch. rewrite Hcl. split; [intros [? _]; split; lia|]. intros [H1 H2]. specialize (H2 Hp). split; [lia|]. lia.
    + intros _ ch _ H. exact H.
  - assert (c = 0) as E0 by lia. rewrite (proj2 (Z.eqb_eq c 0) E0), Ez. change (0 <? 0) with false. cbn [andb]. eexists. split; [done|]. cbn.
    split_and!; [|done|done|done|done|by intros]. constructor; cbn; [done|done|lia|]. intros ch. rewrite Hcl. rewrite E0, Ez. done.
  - rewrite (proj2 (Z.eqb_neq c 0)) by lia. cbn [andb]. eexists. split; [done|]. cbn. split_and!; [|done|done|done|done|by intros].
    constructor; cbn; [done|done|intros _; apply Hm; lia|]. intros ch. rewrite Hcl. split; intros [H1 H2]; (split; [done|]); intros _; apply H2; lia.
  - assert (c = 0) as E0 by lia. rewrite (proj2 (Z.eqb_eq c 0) E0). assert (0 < count w) as Hpos by lia.
    rewrite (proj2 (Z.ltb_lt 0 (count w))) by done. cbn [andb]. unfold close_done. cbn [done_ch closed_chs count made]. rewrite Hd.
    specialize (Hm Hpos). destruct (made w) as [|n] eqn:En; [lia|]. rewrite bool_decide_false by (rewrite Hcl, ?En; intros [_ H]; by apply H).
    eexists. split; [done|]. cbn. split_and!; [|done|done|set_solver|done|lia]. constructor; cbn; [lia|by rewrite ?Hd, ?En|lia|].
    intros ch. rewrite elem_of_union, elem_of_singleton, Hcl, ?En. split; [intros [->|[? _]]; split; lia|]. intros [H1 _].
    destruct (decide (ch = n)); [by left|right]. split; [lia|]. lia.
Qed.

Lemma wg_run_app s es es' : wg_run s (es ++ es') = match wg_run s es with Some s => wg_run s es' | None => None end.
Proof. revert s. induction es as [|e es IH]; intros s; [done|]. cbn. destruct (wg_step s e) as [[]|]; [apply IH|done..]. Qed.

Lemma wg_step_inv s e s' : wg_inv (wg s) -> wg_step s e = Some (Ok s') ->
  wg_inv (wg s') /\ closed_chs (wg s) ⊆ closed_chs (wg s') /\ (made (wg s) <= made (wg s'))%nat /\
  (count (wg s') <> 0 -> forall ch, (ch < made (wg s))%nat -> ch ∈ closed_chs (wg s') -> ch ∈ closed_chs (wg s)).
Proof.
  intros Hi. destruct e as [d| |i|i]; cbn [wg_step].
  - destruct (Add_spec (wg s) d Hi) as [[_ ->]|(w & -> & H1 & _ & _ & H2 & H3 & H4)]; [done|]. intros [= <-]. done.
  - intros [= <-]. done.
  - destruct (waits s !! i) as [[|[ch|]]|]; try done. case_bool_decide; [|done]. intros [= <-]. done.
  - destruct (waits s !! i) as [[|ch]|]; try done. intros [= <-]. done.
Qed.

Lemma wg_run_inv s es s' : wg_inv (wg s) -> wg_run s es = Some s' -> wg_inv (wg s') /\ (made (wg s) <= made (wg s'))%nat.
Proof.
  revert s. induction es as [|e es IH]; intros s Hi E; cbn in E; [by injection E as <-|]. destruct (wg_step s e) as [[s1| |]|] eqn:E1; try done.
  destruct (wg_step_inv _ _ _ Hi E1) as (Hi1 & _ & Hm & _). destruct (IH s1 Hi1 E) as [? ?]. split; [done|lia].
Qed.

(** A channel that is open now is closed after more events iff the counter was
    zero after some of them. *)
Lemma closed_iff_zero s es s' ch : wg_inv (wg s) -> ch ∉ closed_chs (wg s) -> (ch < made (wg s))%nat -> wg_run s es = Some s' ->
  ch ∈ closed_chs (wg s') <-> exists es1 es2 s1, es = es1 ++ es2 /\ wg_run s es1 = Some s1 /\ count (wg s1) = 0.
Proof.
  intros Hi Ho Hm. revert s'. induction es as [|e es IH] using rev_ind; intros s' E.
  - injection E as <-. split; [done|]. intros (es1 & es2 & s1 & E & E1 & E2). symmetry in E. apply app_nil in E as [-> ->]. injection E1 as <-.
    apply (wi_closed _ Hi). split; [done|]. lia.
  - pose proof E as Erun. rewrite wg_run_app in E. destruct (wg_run s es) as [s0|] eqn:E0; [|done]. cbn in E. destruct (wg_step s0 e) as [[s2| |]|] eqn:E1; try done.
    injection E as ->. destruct (wg_run_inv _ _ _ Hi E0) as [Hi0 Hm0]. destruct (wg_step_inv _ _ _ Hi0 E1) as (Hi2 & Hsub & Hm2 & Hnew).
    specialize (IH s0 eq_refl). split.
    + intros Hch. destruct (decide (count (wg s') = 0)) as [Ez|Ez]; [by exists (es ++ [e]), [], s'; rewrite app_nil_r|].
      apply Hnew in Hch; [|done|lia]. apply IH in Hch as (es1 & es2 & s1 & -> & E2 & E3). exists es1, (es2 ++ [e]), s1. by rewrite app_assoc.
    + intros (es1 & es2 & s1 & E2 & E3 & E4). destruct es2 as [|x es2 _] using rev_ind.
      * rewrite app_nil_r in E2. subst es1. rewrite Erun in E3. injection E3 as ->. apply (wi_closed _ Hi2). split; [lia|]. lia.
      * rewrite app_assoc in E2. apply app_inj_tail in E2 as [-> ->]. apply Hsub, IH. eauto 6.
Qed.

(** The calls that are blocked stay so until they return. *)
Lemma waits_kept s es s' i w : wg_run s es = Some s' -> waits s !! i = Some w -> ~ In (WWake i) es -> ~ In (WCanceled i) es -> waits s' !! i = Some w.
Proof.
  revert s. induction es as [|e es IH]; intros s E Hw H1 H2; cbn in E; [by injection E as <-|]. destruct (wg_step s e) as [[s1| |]|] eqn:E1; try done.
  apply (IH s1 E); [|intros ?; apply H1; by right|intros ?; apply H2; by right]. clear IH E. destruct e as [d| |j|j]; cbn in E1.
  - destruct (Add (wg s) d); try done. by injection E1 as <-.
  - injection E1 as <-. cbn. by apply lookup_app_l_Some.
  - destruct (waits s !! j) as [[|[ch|]]|]; try done. case_bool_decide; [|done]. injection E1 as <-. cbn. rewrite list_lookup_insert_ne; [done|].
    intros ->. apply H1. by left.
  - destruct (waits s !! j) as [[|ch]|]; try done. injection E1 as <-. cbn. rewrite list_lookup_insert_ne; [done|]. intros ->. apply H2. by left.
Qed.

(** A call of [Wait] that starts while the counter is positive, and whose
    context is not canceled, can return by its channel exactly when the counter
    has been zero at some moment since, however the counter moved before and
    after; and [Add] panics exactly when the counter would become negative, so
    no channel is closed twice. *)
Theorem WaitGroup_waits (es es' : list wg_event) (s s' : wg_state) :
  wg_run wg_init es = Some s ->
  wg_run wg_init (es ++ WWait :: es') = Some s' ->
  let i := length (waits s) in
  (0 < count (wg s) -> ~ In (WWake i) es' -> ~ In (WCanceled i) es' ->
     (is_Some (wg_step s' (WWake i)) <->
      exists es1 es2 s1, es' = es1 ++ es2 /\ wg_run wg_init (es ++ WWait :: es1) = Some s1 /\ count (wg s1) = 0)) /\
  (forall d, wg_step s' (WAdd d) = Some Panic <-> int64 (count (wg s') + d) < 0).
Proof.
  intros E E'. cbn zeta. pose proof (wg_inv_zero : wg_inv (wg wg_init)) as H0.
  destruct (wg_run_inv _ _ _ H0 E) as [Hi _]. destruct (wg_run_inv _ _ _ H0 E') as [Hi' _]. split.
  - intros Hc H1 H2. rewrite wg_run_app, E in E'. cbn in E'. set (s1 := MkWgState (wg s) (waits s ++ [Wait_start (wg s)])) in *.
    assert (exists n, done_ch (wg s) = Some n /\ S n = made (wg s)) as (n & Hn & Hm).
    { rewrite (wi_done _ Hi). pose proof (wi_made _ Hi Hc). destruct (made (wg s)) as [|n]; [lia|]. by exists n. }
    assert (waits s1 !! length (waits s) = Some (WaitBlocked (Some n))) as Hw.
    { cbn. rewrite lookup_app_r, Nat.sub_diag by lia. cbn. unfold Wait_start. rewrite (proj2 (Z.eqb_neq _ 0)) by lia. by rewrite Hn. }
    pose proof (waits_kept _ _ _ _ _ E' Hw H1 H2) as Hw'.
    assert (is_Some (wg_step s' (WWake (length (waits s)))) <-> n ∈ closed_chs (wg s')) as ->.
    { cbn. rewrite Hw'. case_bool_decide; split; [done|by eexists|by intros []|done]. }
    assert (n ∉ closed_chs (wg s1)) as Ho.
    { intros Hin. apply (wi_closed _ Hi) in Hin as [_ Hin]. by apply Hin. }
    rewrite (closed_iff_zero s1 es' s' n) by (done || cbn; lia). split; intros (es1 & es2 & s2 & -> & E2 & E3); exists es1, es2, s2; (split; [done|]);
      (split; [|done]); rewrite wg_run_app, E in *; exact E2.
  - intros d. cbn. destruct (Add_spec (wg s') d Hi') as [[Hn ->]|(w & -> & _ & Ec & Hp & _)]; [by split|]. split; [done|lia].
Qed.

Lemma WaitGroup_waits_witness :
  let i := 0%nat in
  exists s s', wg_run wg_init [WAdd 2] = Some s /\ wg_run wg_init ([WAdd 2] ++ WWait :: [WAdd (-2); WAdd 1]) = Some s' /\ is_Some (wg_step s' (WWake 0)).
Proof.
  cbn zeta. destruct (wg_run wg_init [WAdd 2]) as [s|] eqn:E; [|vm_compute in E; discriminate].
  destruct (wg_run wg_init ([WAdd 2] ++ WWait :: [WAdd (-2); WAdd 1])) as [s'|] eqn:E'; [|vm_compute in E'; discriminate].
  exists s, s'. split_and!; [done|done|]. pose proof (WaitGroup_waits _ _ s s' E E') as [H _]. revert H. vm_compute in E. injection E as <-. cbn.
  intros H. apply H; [done|intros [?|[?|[]]]; discriminate|intros [?|[?|[]]]; discriminate|]. exists [WAdd (-2)], [WAdd 1].
  destruct (wg_run wg_init ([WAdd 2] ++ WWait :: [WAdd (-2)])) as [s1|] eqn:E1; [|vm_compute in E1; discriminate]. exists s1. split_and!; [done|done|].
  vm_compute in E1. by injection E1 as <-.
Defined.

(** ** sync/ctxsync: SingleFlight

    What each call of the shared group returns, and whether the caller's context
    is alive when it does, are given. *)

Inductive sf_error := Canceled | DeadlineExceeded | OtherError.
Record sf_result {V : Type} := MkSf { sf_value : V; sf_err : option sf_error; sf_shared : bool }.
Arguments sf_result V : clear implicits.
Arguments MkSf {V} _ _ _.

Definition sf_again {V} (r : sf_result V) (alive : bool) : bool :=
  sf_shared r && match sf_err r with Some Canceled | Some DeadlineExceeded => true | _ => false end && alive.

(** [Do]: [None] when the given calls are used up. *)
Fixpoint sf_Do {V} (calls : list (sf_result V * bool)) : option (sf_result V) :=
  match calls with
  | [] => None
  | (r, alive) :: calls => if sf_again r alive then sf_Do calls else Some r
  end.

(** [DoChan]: a round of its select sees a result, or the context done. *)
Fixpoint sf_DoChan {V} (zero : V) (rounds : list (sf_result V * bool + sf_error)) : option (sf_result V) :=
  match rounds with
  | [] => None
  | inl (r, alive) :: rounds => if sf_again r alive then sf_DoChan zero rounds else Some r
  | inr err :: _ => Some (MkSf zero (Some err) false)
  end.

(** A result is returned that the caller has a use for: its own call's, one that
    is no cancellation, or any once its context is done. *)
Lemma sf_Do_first {V} (calls : list (sf_result V * bool)) r :
  sf_Do calls = Some r <-> exists before alive after, calls = before ++ (r, alive) :: after /\
    Forall (fun c => sf_again c.1 c.2 = true) before /\ sf_again r alive = false.
Proof.
  induction calls as [|[q alive] calls IH]; cbn [sf_Do].
  - split; [done|]. by intros ([] & a & k & E & _).
  - destruct (sf_again q alive) eqn:E.
    + rewrite IH. split.
      * intros (b & a & k & -> & Hb & Hr). exists ((q, alive) :: b), a, k. split_and!; [done|by constructor|done].
      * intros ([|[q' a'] b] & a & k & El & Hb & Hr); cbn in El; [congruence|]. injection El as -> -> ->. inversion Hb. eauto 6.
    + split.
      * intros [= ->]. exists [], alive, calls. by split_and!.
      * intros ([|[q' a'] b] & a & k & El & Hb & Hr); cbn in El; [congruence|]. injection El as -> -> ->. inversion Hb as [|? ? Hq _]. cbn in Hq. congruence.
Qed.

(** ** sync/errgroup

    A call of [Go] is a thread: it has added to the wait group, waits for a token,
    and continues as the goroutine that it starts.  A call of [GoContext] whose
    context is done is one that appends and cancels. *)

Section errgroup.
Context {E : Type}.

Inductive go_pc :=
| GTake                 (* [<-g.ch] in [Go] *)
| GRun                  (* [f()] *)
| GAppend (err : E)     (* [g.errors.Append(err)] *)
| GCancel               (* [g.possiblyCancel()] *)
| GPut                  (* [g.ch <- struct{}{}] *)
| GDone                 (* [g.wg.Done()] *)
| GEnd
| XAppend (err : E)     (* [GoContext]: append, *)
| XCancel               (* and cancel *)
| XEnd.

(** [caller]: the goroutine of the group that the call was made in. *)
Record go_thread := MkGo { at_ : go_pc; caller : option nat; failure : option E }.

Inductive wait_pc := WWg | WClose | WCancel | WErr | WRet (errs : list E).

Record T := MkT {
  hasCancel : bool; canceled : nat; cancelOnce : bool; closeOnce : bool;
  errors_ : list E;
  tokens : option Z; capacity : Z; chClosed : bool;   (* [g.ch] *)
  wgc : Z;
  gos : list go_thread; waiters : list wait_pc;
}.

(** [WithContext] and [WithCancel] (with a cancel function), the zero value
    (without), and [WithConcurrency] of them. *)
Definition newT (cancel : bool) (n : Z) : T :=
  MkT cancel 0 false false [] (if 0 <? n then Some n else None) n false 0 [] [].

Definition possiblyCancel (g : T) : T :=
  if cancelOnce g then g
  else MkT (hasCancel g) (if hasCancel g then S (canceled g) else canceled g) true (closeOnce g) (errors_ g) (tokens g) (capacity g) (chClosed g)
         (wgc g) (gos g) (waiters g).

Definition with_errors (g : T) (errs : list E) : T :=
  MkT (hasCancel g) (canceled g) (cancelOnce g) (closeOnce g) errs (tokens g) (capacity g) (chClosed g) (wgc g) (gos g) (waiters g).
Definition with_tokens (g : T) (t : option Z) : T :=
  MkT (hasCancel g) (canceled g) (cancelOnce g) (closeOnce g) (errors_ g) t (capacity g) (chClosed g) (wgc g) (gos g) (waiters g).
Definition with_wg (g : T) (c : Z) : T :=
  MkT (hasCancel g) (canceled g) (cancelOnce g) (closeOnce g) (errors_ g) (tokens g) (capacity g) (chClosed g) c (gos g) (waiters g).
Definition with_gos (g : T) (l : list go_thread) : T :=
  MkT (hasCancel g) (canceled g) (cancelOnce g) (closeOnce g) (errors_ g) (tokens g) (capacity g) (chClosed g) (wgc g) l (waiters g).
Definition with_waiters (g : T) (l : list wait_pc) : T :=
  MkT (hasCancel g) (canceled g) (cancelOnce g) (closeOnce g) (errors_ g) (tokens g) (capacity g) (chClosed g) (wgc g) (gos g) l.

Definition move (g : T) (i : nat) (t : go_thread) (p : go_pc) : T := with_gos g (<[i := MkGo p (caller t) (failure t)]> (gos g)).

(** [close(g.ch); g.ch = nil], once. *)
Definition closeCh (g : T) : res T :=
  if closeOnce g then Ok g
  else
    match tokens g with
    | None => Ok (MkT (hasCancel g) (canceled g) (cancelOnce g) true (errors_ g) None (capacity g) (chClosed g) (wgc g) (gos g) (waiters g))
    | Some _ =>
        if chClosed g then Panic
        else Ok (MkT (hasCancel g) (canceled g) (cancelOnce g) true (errors_ g) None (capacity g) true (wgc g) (gos g) (waiters g))
    end.

(** [g.wg.Add(delta)] *)
Definition wgAdd (g : T) (delta : Z) : res T := if wgc g + delta <? 0 then Panic else Ok (with_wg g (wgc g + delta)).

(** A call that has not returned to its caller. *)
Definition in_call (t : go_thread) : bool := match at_ t with GTake | XAppend _ | XCancel => true | _ => false end.

(** Whether thread [i] is inside a call of [Go] or [GoContext] that it made. *)
Definition calling (g : T) (i : option nat) : bool :=
  existsb (fun t => bool_decide (caller t = i) && in_call t) (gos g).

(** Who may call: the goroutines of the program until it waits, and a goroutine of
    the group while it runs its function and has no call to wait for.  That is
    stricter than the rules of [sync.WaitGroup], which only forbid a call beside
    [Wait] while the counter is zero. *)
Definition may_call (g : T) (i : option nat) : bool :=
  match i with
  | None => bool_decide (waiters g = [])
  | Some k => negb (calling g i) && match gos g !! k with Some (MkGo GRun _ _) => true | _ => false end
  end.

Inductive action :=
| AGo (i : option nat)              (* [Go], up to [g.wg.Add(1)] *)
| AGoContext (i : option nat) (err : E)   (* [GoContext] with a context that is done *)
| ARun (i : nat) (result : option E)      (* [f] returns *)
| AStep (i : nat)                   (* the next step of thread [i] *)
| AWait                             (* a call of [Wait] *)
| AWaitStep (i : nat).

Definition go_step (g : T) (i : nat) (t : go_thread) : option (res T) :=
  match at_ t with
  | GTake =>
      match tokens g with
      | None => Some (Ok (move g i t GRun))
      | Some n => if 0 <? n then Some (Ok (move (with_tokens g (Some (n - 1))) i t GRun))
                  else if chClosed g then Some (Ok (move g i t GRun)) else None
      end
  | GRun => None
  | GAppend err => Some (Ok (move (with_errors g (errors_ g ++ [err])) i t GCancel))
  | GCancel => Some (Ok (move (possiblyCancel g) i t GPut))
  | GPut =>
      match tokens g with
      | None => Some (Ok (move g i t GDone))
      | Some n => if chClosed g then Some Panic
                  else if n <? capacity g then Some (Ok (move (with_tokens g (Some (n + 1))) i t GDone)) else None
      end
  | GDone => Some (let! g := wgAdd g (-1) in Ok (move g i t GEnd))
  | XAppend err => Some (Ok (move (with_errors g (errors_ g ++ [err])) i t XCancel))
  | XCancel => Some (Ok (move (possiblyCancel g) i t XEnd))
  | GEnd | XEnd => None
  end.

Definition wait_step (g : T) (i : nat) (w : wait_pc) : option (res T) :=
  let go g w := with_waiters g (<[i := w]> (waiters g)) in
  match w with
  | WWg => if wgc g =? 0 then Some (Ok (go g WClose)) else None
  | WClose => Some (let! g := closeCh g in Ok (go g WCancel))
  | WCancel => Some (Ok (go (possiblyCancel g) WErr))
  | WErr => Some (Ok (go g (WRet (errors_ g))))
  | WRet _ => None
  end.

Definition step (g : T) (a : action) : option (res T) :=
  match a with
  | AGo i => if may_call g i then Some (let! g := wgAdd g 1 in Ok (with_gos g (gos g ++ [MkGo GTake i None]))) else None
  | AGoContext i err => if may_call g i then Some (Ok (with_gos g (gos g ++ [MkGo (XAppend err) i (Some err)]))) else None
  | ARun i result =>
      match gos g !! i with
      | Some t =>
          match at_ t with
          | GRun =>
              if calling g (Some i) then None
              else Some (Ok (with_gos g (<[i := MkGo (match result with Some err => GAppend err | None => GPut end) (caller t) result]> (gos g))))
          | _ => None
          end
      | None => None
      end
  | AStep i => t ← gos g !! i; go_step g i t
  | AWait => if calling g None then None else Some (Ok (with_waiters g (waiters g ++ [WWg])))
  | AWaitStep i => w ← waiters g !! i; wait_step g i w
  end.

Inductive reachable (cancel : bool) (n : Z) : T -> Prop :=
| reach_init : reachable cancel n (newT cancel n)
| reach_step g a g' : reachable cancel n g -> step g a = Some (Ok g') -> reachable cancel n g'.

(** ** What is counted *)

(** Goroutines the wait group counts, those that hold a token, and failures that
    are appended. *)
Definition counted (t : go_thread) : nat :=
  match at_ t with GTake | GRun | GAppend _ | GCancel | GPut | GDone => 1 | _ => 0 end.
Definition holding (t : go_thread) : nat :=
  match at_ t with GRun | GAppend _ | GCancel | GPut => 1 | _ => 0 end.
Definition appended (t : go_thread) : list E :=
  match at_ t with GAppend _ | XAppend _ | GTake | GRun => [] | _ => option_list (failure t) end.
Definition running (g : T) : nat := sum_list_with holding (gos g).
Definition finished (t : go_thread) : bool := match at_ t with GEnd | XEnd => true | _ => false end.
Definition over (g : T) : Prop := Forall (fun t => finished t = true) (gos g).
Definition past_wait (w : wait_pc) : bool := match w with WWg => false | _ => true end.

Lemma calling_false g i : calling g i = false <-> forall j t, gos g !! j = Some t -> caller t = i -> in_call t = false.
Proof.
  unfold calling. rewrite <- not_true_iff_false, existsb_exists. split.
  - intros H j t Hj Hc. destruct (in_call t) eqn:E1; [|done]. destruct H. exists t. rewrite <- list_elem_of_In. split; [by eapply list_elem_of_lookup_2|].
    by rewrite bool_decide_true.
  - intros H (t & Hin & Ht). apply list_elem_of_In, list_elem_of_lookup in Hin as [j Hj]. apply andb_true_iff in Ht as [Hc Ht].
    apply bool_decide_eq_true in Hc. by rewrite (H j t Hj Hc) in Ht.
Qed.

(** What every step of a thread does to its own record. *)
Record moved (g g' : T) (i : nat) (t t' : go_thread) : Prop := {
  m_at : gos g !! i = Some t;
  m_gos : gos g' = <[i := t']> (gos g);
  m_live : finished t = false;
  m_caller : caller t' = caller t;
  m_call : in_call t' = true -> in_call t = true;
  m_wgc : wgc g' + Z.of_nat (counted t) = wgc g + Z.of_nat (counted t');
  m_waiters : waiters g' = waiters g;
  m_close : closeOnce g' = closeOnce g;
  m_closed : chClosed g' = chClosed g;
  m_cap : capacity g' = capacity g;
  m_tok : match tokens g with None => tokens g' = None
          | Some k => chClosed g = false -> exists k', tokens g' = Some k' /\ k' + Z.of_nat (holding t') = k + Z.of_nat (holding t) /\ (0 <= k -> 0 <= k') end;
}.

Ltac by_moves :=
  constructor; cbn; try done; unfold finished, in_call, counted, holding;
  repeat match goal with
  | H : at_ ?t = _ |- context [at_ ?t] => rewrite H
  | H : tokens ?g = _ |- context [tokens ?g] => rewrite H
  end; cbn; try done; try lia;
  try match goal with |- match tokens ?g with _ => _ end => destruct (tokens g) eqn:? end; intros; try congruence; try done;
  try (eexists; split_and!; [reflexivity|lia|lia]).

Lemma possiblyCancel_same g :
  gos (possiblyCancel g) = gos g /\ wgc (possiblyCancel g) = wgc g /\ waiters (possiblyCancel g) = waiters g /\ closeOnce (possiblyCancel g) = closeOnce g /\
  chClosed (possiblyCancel g) = chClosed g /\ capacity (possiblyCancel g) = capacity g /\ tokens (possiblyCancel g) = tokens g /\
  errors_ (possiblyCancel g) = errors_ g /\ hasCancel (possiblyCancel g) = hasCancel g.
Proof. unfold possiblyCancel. by destruct (cancelOnce g). Qed.

Lemma go_step_moved g i t g' : gos g !! i = Some t -> go_step g i t = Some (Ok g') ->
  exists p, moved g g' i t (MkGo p (caller t) (failure t)) /\ at_ t <> GRun.
Proof.
  intros Hi Hs. unfold go_step in Hs. destruct (at_ t) eqn:Ep; try done.
  - destruct (tokens g) as [k|] eqn:Et.
    + destruct (Z.ltb_spec 0 k) as [Hk|Hk]; [|destruct (chClosed g) eqn:Ec; [|done]]; injection Hs as <-; exists GRun; (split; [|done]); by_moves.
    + injection Hs as <-. exists GRun. split; [|done]. by_moves.
  - injection Hs as <-. exists GCancel. split; [|done]. by_moves.
  - injection Hs as <-. exists GPut. split; [|done]. destruct (possiblyCancel_same g) as (? & ? & ? & ? & ? & ? & ? & _). by_moves.
  - destruct (tokens g) as [k|] eqn:Et.
    + destruct (chClosed g) eqn:Ec; [done|]. destruct (Z.ltb_spec k (capacity g)); [|done]. injection Hs as <-. exists GDone. split; [|done]. by_moves.
    + injection Hs as <-. exists GDone. split; [|done]. by_moves.
  - unfold wgAdd in Hs. destruct (Z.ltb_spec (wgc g + -1) 0); [done|]. injection Hs as <-. exists GEnd. split; [|done]. by_moves.
  - injection Hs as <-. exists XCancel. split; [|done]. by_moves.
  - injection Hs as <-. exists XEnd. split; [|done]. destruct (possiblyCancel_same g) as (? & ? & ? & ? & ? & ? & ? & _). by_moves.
Qed.

Lemma run_moved g i r g' : step g (ARun i r) = Some (Ok g') ->
  exists t p, moved g g' i t (MkGo p (caller t) r) /\ at_ t = GRun /\ calling g (Some i) = false /\
    p = match r with Some err => GAppend err | None => GPut end /\
    g' = with_gos g (<[i := MkGo p (caller t) r]> (gos g)).
Proof.
  cbn [step]. destruct (gos g !! i) as [t|] eqn:Hi; [|done]. destruct (at_ t) eqn:Ep; try done. destruct (calling g (Some i)) eqn:Ec; [done|].
  intros [= <-]. exists t, (match r with Some err => GAppend err | None => GPut end). split_and!; try done. destruct r; by_moves.
Qed.

(** ** Who calls, and when all is over *)

Record shape (g : T) : Prop := {
  s_caller : forall j t i, gos g !! j = Some t -> caller t = Some i -> in_call t = true -> exists t', gos g !! i = Some t' /\ at_ t' = GRun;
  s_calls : waiters g <> [] -> calling g None = false;
  s_over : closeOnce g = true \/ Exists (fun w => past_wait w = true) (waiters g) -> over g /\ waiters g <> [];
  s_wg : wgc g = Z.of_nat (sum_list_with counted (gos g));
}.

Lemma over_lookup g i t : over g -> gos g !! i = Some t -> finished t = true.
Proof. intros Ho Hi. unfold over in Ho. rewrite Forall_lookup in Ho. by eapply Ho. Qed.

Lemma running_not_in_call t : at_ t = GRun -> in_call t = false.
Proof. unfold in_call. by intros ->. Qed.

Lemma moved_shape g g' i t t' : moved g g' i t t' -> (at_ t = GRun -> calling g (Some i) = false) -> shape g -> shape g'.
Proof.
  intros Hm Hrun Hs. pose proof (m_at _ _ _ _ _ Hm) as Hi. pose proof (lookup_lt_Some _ _ _ Hi) as Hlt. pose proof (m_gos _ _ _ _ _ Hm) as Eg.
  assert (~ over g) as Hno by (intros Ho; pose proof (over_lookup _ _ _ Ho Hi) as E1; by rewrite (m_live _ _ _ _ _ Hm) in E1).
  assert (forall j u k, gos g !! j = Some u -> caller u = Some k -> in_call u = true -> exists v, gos g' !! k = Some v /\ at_ v = GRun) as Hk.
  { intros j u k Hj Hc Hu. destruct (s_caller _ Hs j u k Hj Hc Hu) as (v & Hv & Ev). exists v. split; [|done]. rewrite Eg.
    rewrite list_lookup_insert_ne; [done|]. intros ->. rewrite Hi in Hv. injection Hv as ->. specialize (Hrun Ev).
    rewrite (proj1 (calling_false g (Some k)) Hrun j u Hj Hc) in Hu. done. }
  constructor.
  - intros j u k Hj Hc Hu. rewrite Eg in Hj. apply list_lookup_insert_Some in Hj as [(<- & <- & _)|[_ Hj]]; [|by eapply Hk].
    rewrite (m_caller _ _ _ _ _ Hm) in Hc. apply (m_call _ _ _ _ _ Hm) in Hu. by eapply Hk.
  - rewrite (m_waiters _ _ _ _ _ Hm). intros Hw. apply (s_calls _ Hs) in Hw. rewrite calling_false in *. intros j u Hj Hc. rewrite Eg in Hj.
    apply list_lookup_insert_Some in Hj as [(<- & <- & _)|[_ Hj]]; [|by eapply Hw]. destruct (in_call t') eqn:Eu; [|done].
    apply (m_call _ _ _ _ _ Hm) in Eu. rewrite (m_caller _ _ _ _ _ Hm) in Hc. by rewrite (Hw i t Hi Hc) in Eu.
  - rewrite (m_close _ _ _ _ _ Hm), (m_waiters _ _ _ _ _ Hm). intros H. by destruct (s_over _ Hs H).
  - pose proof (m_wgc _ _ _ _ _ Hm). pose proof (s_wg _ Hs). rewrite Eg. pose proof (sum_insert counted (gos g) i t t' Hi). lia.
Qed.

(** A new thread of a call that may be made. *)
Lemma called_shape g p i fl c : may_call g i = true -> in_call (MkGo p i fl) = true -> c = wgc g + Z.of_nat (counted (MkGo p i fl)) -> shape g ->
  shape (with_gos (with_wg g c) (gos g ++ [MkGo p i fl])).
Proof.
  intros Hm Hp -> Hs. assert (match i with None => waiters g = [] | Some k => match gos g !! k with Some (MkGo GRun _ _) => true | _ => false end = true end) as Hm'.
  { unfold may_call in Hm. destruct i; [by apply andb_true_iff in Hm as [_ Hm]|by apply bool_decide_eq_true in Hm]. }
  clear Hm. rename Hm' into Hm. constructor.
  - cbn. intros j u k Hj Hcu Hu. apply lookup_app_Some in Hj as [Hj|[Hge Hj]].
    + destruct (s_caller _ Hs j u k Hj Hcu Hu) as (v & Hv & Ev). exists v. split; [|done]. by apply lookup_app_l_Some.
    + apply list_lookup_singleton_Some in Hj as [_ <-]. cbn in Hcu. subst i. destruct (gos g !! k) as [[[] ? ?]|] eqn:Ek; try done.
      eexists. split; [by apply lookup_app_l_Some|done].
  - change (waiters (with_gos (with_wg g (wgc g + Z.of_nat (counted (MkGo p i fl)))) (gos g ++ [MkGo p i fl]))) with (waiters g).
    intros Hw. destruct i as [i|]; [|done]. pose proof (s_calls _ Hs Hw) as Hn. rewrite calling_false in *.
    cbn. intros j u Hj Hcu. apply lookup_app_Some in Hj as [Hj|[_ Hj]]; [by eapply Hn|]. apply list_lookup_singleton_Some in Hj as [_ <-]. done.
  - cbn. intros H. destruct (s_over _ Hs H) as [Ho Hw]. exfalso. destruct i as [i|]; [|done].
    destruct (gos g !! i) as [t|] eqn:Ei; [|done]. pose proof (over_lookup _ _ _ Ho Ei). destruct t as [[] ? ?]; done.
  - cbn [with_gos with_wg gos wgc]. rewrite sum_list_with_app, (s_wg _ Hs). cbn [sum_list_with]. lia.
Qed.

(** When the wait group is at zero and a caller waits, nothing is left to do. *)
Lemma zero_over g : shape g -> waiters g <> [] -> wgc g = 0 -> over g.
Proof.
  intros Hs Hw Hz. rewrite (s_wg _ Hs) in Hz. unfold over. apply Forall_lookup. intros i t Hi.
  assert (forall j u, gos g !! j = Some u -> counted u = 0%nat) as H0.
  { intros j u Hj. pose proof (sum_lookup counted _ _ _ Hj). lia. }
  pose proof (H0 i t Hi) as Hc. destruct (in_call t) eqn:Ec.
  - destruct (caller t) as [k|] eqn:Ek.
    + destruct (s_caller _ Hs i t k Hi Ek Ec) as (v & Hv & Ev). specialize (H0 _ _ Hv). unfold counted in H0. by rewrite Ev in H0.
    + rewrite (proj1 (calling_false g None) (s_calls _ Hs Hw) i t Hi Ek) in Ec. done.
  - unfold counted, in_call, finished in *. by destruct (at_ t).
Qed.

Lemma closeCh_same g g' : closeCh g = Ok g' ->
  gos g' = gos g /\ wgc g' = wgc g /\ waiters g' = waiters g /\ closeOnce g' = true /\ capacity g' = capacity g /\
  errors_ g' = errors_ g /\ hasCancel g' = hasCancel g /\ cancelOnce g' = cancelOnce g /\ canceled g' = canceled g /\
  (closeOnce g = true /\ tokens g' = tokens g /\ chClosed g' = chClosed g \/ tokens g' = None).
Proof.
  unfold closeCh. destruct (closeOnce g) eqn:Ec; [intros [= <-]; split_and!; try done; by left|]. destruct (tokens g); [destruct (chClosed g); [done|]|]; intros [= <-]; split_and!; try done; by right.
Qed.

(** What the wait step does to everything else. *)
Lemma wait_step_inv g i w g' : waiters g !! i = Some w -> wait_step g i w = Some (Ok g') ->
  exists w', waiters g' = <[i := w']> (waiters g) /\ gos g' = gos g /\ wgc g' = wgc g /\ capacity g' = capacity g /\ errors_ g' = errors_ g /\ hasCancel g' = hasCancel g /\
    past_wait w' = true /\
    match w, w' with
    | WWg, WClose => wgc g = 0 /\ tokens g' = tokens g /\ chClosed g' = chClosed g /\ closeOnce g' = closeOnce g /\ cancelOnce g' = cancelOnce g /\ canceled g' = canceled g
    | WClose, WCancel => closeOnce g' = true /\ cancelOnce g' = cancelOnce g /\ canceled g' = canceled g /\
        (closeOnce g = true /\ tokens g' = tokens g /\ chClosed g' = chClosed g \/ tokens g' = None)
    | WCancel, WErr => tokens g' = tokens g /\ chClosed g' = chClosed g /\ closeOnce g' = closeOnce g /\
        cancelOnce g' = cancelOnce (possiblyCancel g) /\ canceled g' = canceled (possiblyCancel g)
    | WErr, WRet errs => errs = errors_ g /\ tokens g' = tokens g /\ chClosed g' = chClosed g /\ closeOnce g' = closeOnce g /\ cancelOnce g' = cancelOnce g /\ canceled g' = canceled g
    | _, _ => False
    end.
Proof.
  intros Hi Hs. destruct w; cbn in Hs.
  - destruct (Z.eqb_spec (wgc g) 0); [|done]. injection Hs as <-. exists WClose. by split_and!.
  - destruct (closeCh g) as [h| |] eqn:E1; try done. injection Hs as <-. apply closeCh_same in E1 as (E1 & E2 & E3 & E4 & E5 & E6 & E7 & E8 & E9 & E10).
    exists WCancel. cbn. rewrite E3. by split_and!.
  - injection Hs as <-. exists WErr. destruct (possiblyCancel_same g) as (E1 & E2 & E3 & E4 & E5 & E6 & E7 & E8 & E9).
    cbn [with_waiters gos wgc waiters capacity errors_ hasCancel tokens chClosed closeOnce cancelOnce canceled]. rewrite E3. by split_and!.
  - injection Hs as <-. exists (WRet (errors_ g)). by split_and!.
  - done.
Qed.

(** A new thread: of [Go], or of [GoContext]. *)
Definition fresh (p : go_pc) (fl : option E) : Prop := p = GTake /\ fl = None \/ exists err, p = XAppend err /\ fl = Some err.

Inductive step_kind (g g' : T) : Prop :=
| k_call p i fl : may_call g i = true -> fresh p fl -> 
    g' = with_gos (with_wg g (wgc g + Z.of_nat (counted (MkGo p i fl)))) (gos g ++ [MkGo p i fl]) -> step_kind g g'
| k_run i t r : moved g g' i t (MkGo (match r with Some err => GAppend err | None => GPut end) (caller t) r) -> at_ t = GRun -> calling g (Some i) = false ->
    g' = with_gos g (gos g') -> step_kind g g'
| k_go i t : gos g !! i = Some t -> go_step g i t = Some (Ok g') -> step_kind g g'
| k_wait : calling g None = false -> g' = with_waiters g (waiters g ++ [WWg]) -> step_kind g g'
| k_waiter i w : waiters g !! i = Some w -> wait_step g i w = Some (Ok g') -> step_kind g g'.

Lemma step_cases g a g' : step g a = Some (Ok g') -> step_kind g g'.
Proof.
  destruct a as [i|i err|i r|i| |i]; cbn [step].
  - destruct (may_call g i) eqn:Hm; [|done]. unfold wgAdd. destruct (wgc g + 1 <? 0); [done|]. intros [= <-].
    eapply k_call; [exact Hm|by left|done].
  - destruct (may_call g i) eqn:Hm; [|done]. intros [= <-]. eapply (k_call _ _ (XAppend err)); [exact Hm|right; by exists err|].
    cbn [counted at_]. unfold with_gos, with_wg. cbn. by rewrite Z.add_0_r.
  - intros Hs. destruct (run_moved g i r g' Hs) as (t & p & Hm & Hr & Hc & -> & ->). by eapply k_run.
  - destruct (gos g !! i) as [t|] eqn:Hi; [|done]. intros Hs. by eapply k_go.
  - destruct (calling g None) eqn:Hc; [done|]. intros [= <-]. by apply k_wait.
  - destruct (waiters g !! i) as [w|] eqn:Hi; [|done]. intros Hs. by eapply k_waiter.
Qed.

Lemma fresh_in_call p i fl : fresh p fl -> in_call (MkGo p i fl) = true.
Proof. by intros [[-> ->]|(err & -> & ->)]. Qed.

Lemma shape_step g a g' : step g a = Some (Ok g') -> shape g -> shape g'.
Proof.
  intros Hst Hs. destruct (step_cases _ _ _ Hst) as [p i fl Hm Hf ->|i t r Hm Hr Hc _|i t Hi Hg|Hc ->|i w Hi Hw].
  - eapply called_shape; [done|by apply fresh_in_call|done|done].
  - by eapply moved_shape.
  - destruct (go_step_moved g i t g' Hi Hg) as (p & Hm & Hr). by eapply moved_shape.
  - constructor; [apply Hs|intros _; exact Hc| |apply Hs]. cbn. intros [H|H]; [split; [|by destruct (waiters g)]; apply Hs; by left|].
    apply Exists_app in H as [H|H]; [split; [|by destruct (waiters g)]; apply Hs; by right|]. by inversion H as [? ? H'|? ? H']; subst; [|inversion H'].
  - destruct (wait_step_inv g i w g' Hi Hw) as (w' & Ew & Eg & Ec & _ & _ & _ & _ & Hk).
    assert (waiters g <> []) as Hne by (intros E1; by rewrite E1 in Hi). assert (waiters g' <> []) as Hne'.
    { rewrite Ew. intros E1%(f_equal length). rewrite length_insert in E1. by destruct (waiters g). }
    assert (over g) as Ho.
    { destruct (past_wait w) eqn:Ep; [|destruct w; [|done..]; destruct w'; try done; by apply zero_over; [..|apply Hk]].
      apply (s_over _ Hs). right. apply Exists_exists. exists w. split; [by eapply list_elem_of_lookup_2|done]. }
    constructor.
    + rewrite Eg. apply (s_caller _ Hs).
    + intros _. pose proof (s_calls _ Hs Hne) as H. rewrite calling_false in *. by rewrite Eg.
    + intros _. unfold over. by rewrite Eg.
    + rewrite Eg, Ec. apply (s_wg _ Hs).
Qed.

(** ** Tokens *)

Record token_inv (n : Z) (g : T) : Prop := {
  t_cap : capacity g = n;
  t_tokens : match tokens g with
             | Some k => 0 < n /\ 0 <= k /\ k + Z.of_nat (running g) = n /\ chClosed g = false
             | None => 0 < n -> closeOnce g = true
             end;
}.

Lemma moved_tokens n g g' i t t' : moved g g' i t t' -> token_inv n g -> token_inv n g'.
Proof.
  intros Hm [Hc Ht]. constructor; [by rewrite (m_cap _ _ _ _ _ Hm)|]. pose proof (m_tok _ _ _ _ _ Hm) as Htok. destruct (tokens g) as [k|].
  - destruct Ht as (Hn & Hk & Hr & Hcl). destruct (Htok Hcl) as (k' & -> & Ek & Hk'). rewrite (m_closed _ _ _ _ _ Hm). split_and!; [done|auto| |done].
    unfold running in *. rewrite (m_gos _ _ _ _ _ Hm). pose proof (sum_insert holding (gos g) i t t' (m_at _ _ _ _ _ Hm)). lia.
  - rewrite Htok. by rewrite (m_close _ _ _ _ _ Hm).
Qed.

Lemma fresh_holds p i fl : fresh p fl -> holding (MkGo p i fl) = 0%nat.
Proof. by intros [[-> ->]|(err & -> & ->)]. Qed.

Lemma token_step n g a g' : step g a = Some (Ok g') -> token_inv n g -> token_inv n g'.
Proof.
  intros Hst Hs. destruct (step_cases _ _ _ Hst) as [p i fl Hm Hf ->|i t r Hm Hr Hc _|i t Hi Hg|Hc ->|i w Hi Hw].
  - constructor; [apply Hs|]. unfold running. cbn [with_gos with_wg tokens chClosed closeOnce gos]. rewrite sum_list_with_app. cbn [sum_list_with]. rewrite fresh_holds by done.
    rewrite !Nat.add_0_r. apply (t_tokens _ _ Hs).
  - by eapply moved_tokens.
  - destruct (go_step_moved g i t g' Hi Hg) as (p & Hm & Hr). by eapply moved_tokens.
  - constructor; apply Hs.
  - destruct (wait_step_inv g i w g' Hi Hw) as (w' & _ & Eg & _ & Ec & _ & _ & _ & Hk). destruct Hs as [Hc Ht]. constructor; [congruence|].
    unfold running in *. rewrite Eg. destruct w, w'; try done.
    + destruct Hk as (_ & -> & -> & -> & _). done.
    + destruct Hk as (E1 & _ & _ & [(E2 & -> & ->)| ->]); [|done]. destruct (tokens g); [done|auto].
    + destruct Hk as (-> & -> & -> & _). done.
    + destruct Hk as (_ & -> & -> & -> & _). done.
Qed.

(** ** Errors *)

Definition failure_ok (t : go_thread) : Prop :=
  match at_ t with
  | GAppend err | XAppend err => failure t = Some err
  | GTake | GRun => failure t = None
  | GCancel | XCancel => is_Some (failure t)
  | _ => True
  end.

Record error_inv (g : T) : Prop := {
  e_errors : errors_ g ≡ₚ concat (map appended (gos g));
  e_failure : Forall failure_ok (gos g);
}.

Lemma concat_insert {A B} (f : A -> list B) l i t t' : l !! i = Some t ->
  concat (map f (<[i:=t']> l)) ++ f t ≡ₚ concat (map f l) ++ f t'.
Proof.
  revert i. induction l as [|x l IH]; intros [|i] Hi; try done; cbn in *.
  - injection Hi as ->. rewrite <- !app_assoc, (Permutation_app_comm (concat _) (f t)), (Permutation_app_comm (concat _) (f t')).
    rewrite !app_assoc. by rewrite (Permutation_app_comm (f t') (f t)).
  - rewrite <- !app_assoc. by rewrite IH.
Qed.

Lemma go_step_errors g i t g' : gos g !! i = Some t -> go_step g i t = Some (Ok g') -> failure_ok t ->
  exists p, let t' := MkGo p (caller t) (failure t) in gos g' = <[i := t']> (gos g) /\ failure_ok t' /\ errors_ g' ++ appended t ≡ₚ errors_ g ++ appended t'.
Proof.
  intros Hi Hs Hf. unfold go_step in Hs. unfold failure_ok in Hf. destruct (possiblyCancel_same g) as (Pg & _ & _ & _ & _ & _ & _ & Pe & _).
  assert (forall h p, gos h = gos g -> errors_ h = errors_ g -> g' = move h i t p -> failure_ok (MkGo p (caller t) (failure t)) ->
    appended t = appended (MkGo p (caller t) (failure t)) ->
    exists p, let t' := MkGo p (caller t) (failure t) in gos g' = <[i := t']> (gos g) /\ failure_ok t' /\ errors_ g' ++ appended t ≡ₚ errors_ g ++ appended t') as K.
  { intros h p Eg Ee -> Ho Ea. exists p. cbn zeta. cbn [move with_gos gos errors_]. rewrite Eg, Ee, <- Ea. by split_and!. }
  unfold failure_ok, appended in K |- *. destruct (at_ t) eqn:Ep; try done.
  - destruct (tokens g) as [k|]; [destruct (0 <? k); [|destruct (chClosed g); [|done]]|]; injection Hs as Hs; symmetry in Hs; by refine (K _ GRun _ _ Hs _ _).
  - injection Hs as <-. exists GCancel. cbn. rewrite Hf. by split_and!; [|eexists|rewrite app_nil_r].
  - injection Hs as Hs. symmetry in Hs. by refine (K _ GPut _ _ Hs _ _).
  - destruct (tokens g) as [k|]; [destruct (chClosed g); [done|]; destruct (k <? capacity g); [|done]|]; injection Hs as Hs; symmetry in Hs; by refine (K _ GDone _ _ Hs _ _).
  - unfold wgAdd in Hs. destruct (wgc g + -1 <? 0); [done|]. injection Hs as Hs. symmetry in Hs. by refine (K _ GEnd _ _ Hs _ _).
  - injection Hs as <-. exists XCancel. cbn. rewrite Hf. by split_and!; [|eexists|rewrite app_nil_r].
  - injection Hs as Hs. symmetry in Hs. by refine (K _ XEnd _ _ Hs _ _).
Qed.

Lemma insert_errors g g' i t t' : gos g !! i = Some t -> gos g' = <[i := t']> (gos g) -> failure_ok t' -> errors_ g' ++ appended t ≡ₚ errors_ g ++ appended t' ->
  error_inv g -> error_inv g'.
Proof.
  intros Hi Eg Hf He [H1 H2]. constructor; rewrite Eg; [|by apply Forall_insert].
  apply (Permutation_app_inv_r (appended t)). rewrite He, H1. symmetry. by apply concat_insert.
Qed.

Lemma error_step g a g' : step g a = Some (Ok g') -> error_inv g -> error_inv g'.
Proof.
  intros Hst Hs. destruct (step_cases _ _ _ Hst) as [p i fl Hm Hf ->|i t r Hm Hr Hc Eg|i t Hi Hg|Hc ->|i w Hi Hw].
  - destruct Hs as [H1 H2]. constructor; cbn [with_gos with_wg gos errors_].
    + rewrite map_app, concat_app, H1. by destruct Hf as [[-> ->]|(err & -> & ->)]; rewrite app_nil_r.
    + apply Forall_app. split; [done|]. by destruct Hf as [[-> ->]|(err & -> & ->)]; repeat constructor.
  - eapply insert_errors; [apply Hm|apply Hm| | |done]; [by destruct r|]. rewrite Eg. unfold appended. rewrite Hr. by destruct r.
  - pose proof (e_failure _ Hs) as Hf. rewrite Forall_lookup in Hf. destruct (go_step_errors g i t g' Hi Hg (Hf _ _ Hi)) as (p & E1 & E2 & E3). by eapply insert_errors.
  - constructor; apply Hs.
  - destruct (wait_step_inv g i w g' Hi Hw) as (w' & _ & Eg & _ & _ & Ee & _). destruct Hs. constructor; by rewrite Eg, ?Ee.
Qed.

(** ** Canceling, once *)

Record once_inv (cancel : bool) (g : T) : Prop := {
  o_has : hasCancel g = cancel;
  o_canceled : canceled g = if cancelOnce g && cancel then 1%nat else 0%nat;
  o_failed : Forall (fun t => match at_ t with GPut | GDone | GEnd | XEnd => is_Some (failure t) -> cancelOnce g = true | _ => True end) (gos g);
  o_late : Forall (fun w => match w with WErr | WRet _ => cancelOnce g = true | _ => True end) (waiters g);
  o_ret : Forall (fun w => match w with WRet errs => errs = errors_ g | _ => True end) (waiters g);
}.

Lemma possiblyCancel_once g cancel : hasCancel g = cancel -> canceled g = (if cancelOnce g && cancel then 1%nat else 0%nat) ->
  cancelOnce (possiblyCancel g) = true /\ canceled (possiblyCancel g) = if cancel then 1%nat else 0%nat.
Proof. unfold possiblyCancel. intros <- H. destruct (cancelOnce g) eqn:E1; cbn in *; [by split|]. rewrite H. by destruct (hasCancel g). Qed.

(** What a thread's step does to the cancellation. *)
Lemma go_step_once cancel g i t g' : hasCancel g = cancel -> canceled g = (if cancelOnce g && cancel then 1%nat else 0%nat) ->
  gos g !! i = Some t -> go_step g i t = Some (Ok g') ->
  hasCancel g' = cancel /\ canceled g' = (if cancelOnce g' && cancel then 1%nat else 0%nat) /\ (cancelOnce g = true -> cancelOnce g' = true) /\
  exists p, gos g' = <[i := MkGo p (caller t) (failure t)]> (gos g) /\
    match p with GPut | XEnd => cancelOnce g' = true | GDone => at_ t = GPut | GEnd => at_ t = GDone | _ => True end.
Proof.
  intros Hh Hc Hi Hs. unfold go_step in Hs. destruct (possiblyCancel_once g cancel Hh Hc) as [P1 P2]. destruct (possiblyCancel_same g) as (Pg & _ & _ & _ & _ & _ & _ & _ & Ph).
  destruct (at_ t) eqn:Ep; try done.
  - destruct (tokens g) as [k|]; [destruct (0 <? k); [|destruct (chClosed g); [|done]]|]; injection Hs as <-; split_and!; try done; by eexists.
  - injection Hs as <-. split_and!; try done. by eexists.
  - injection Hs as <-. unfold move. cbn [with_gos hasCancel canceled cancelOnce gos]. rewrite P1, P2, Ph, Pg. split_and!; try done. exists GPut. by split.
  - destruct (tokens g) as [k|]; [destruct (chClosed g); [done|]; destruct (k <? capacity g); [|done]|]; injection Hs as <-; split_and!; try done; by eexists.
  - unfold wgAdd in Hs. destruct (wgc g + -1 <? 0); [done|]. injection Hs as <-. split_and!; try done. by eexists.
  - injection Hs as <-. split_and!; try done. by eexists.
  - injection Hs as <-. unfold move. cbn [with_gos hasCancel canceled cancelOnce gos]. rewrite P1, P2, Ph, Pg. split_and!; try done. exists XEnd. by split.
Qed.

Lemma once_step cancel g a g' : step g a = Some (Ok g') -> shape g -> once_inv cancel g -> once_inv cancel g'.
Proof.
  intros Hst Hsh Hs. destruct (step_cases _ _ _ Hst) as [p i fl Hm Hf ->|i t r Hm Hr Hc Eg|i t Hi Hg|Hc ->|i w Hi Hw].
  - constructor; try apply Hs. cbn. apply Forall_app. split; [apply Hs|]. by destruct Hf as [[-> ->]|(err & -> & ->)]; repeat constructor.
  - rewrite Eg. constructor; try apply Hs. cbn. rewrite (m_gos _ _ _ _ _ Hm). apply Forall_insert; [apply Hs|]. destruct r; cbn; [done|by intros []].
  - destruct (go_step_moved g i t g' Hi Hg) as (p' & Hm & _). pose proof (m_waiters _ _ _ _ _ Hm) as Ew.
    destruct (go_step_once cancel g i t g' (o_has _ _ Hs) (o_canceled _ _ Hs) Hi Hg) as (H1 & H2 & H3 & p & Eg & Hp).
    pose proof (o_failed _ _ Hs) as Hfl. constructor; [done|done| | |].
    + rewrite Eg. apply Forall_insert.
      * eapply Forall_impl; [exact Hfl|]. intros u. cbn. destruct (at_ u); auto.
      * rewrite Forall_lookup in Hfl. specialize (Hfl i t Hi). cbn. destruct p; try done; rewrite Hp in Hfl; auto.
    + rewrite Ew. eapply Forall_impl; [apply (o_late _ _ Hs)|]. intros []; cbn; auto.
    + rewrite Ew. apply Forall_lookup. intros j w Hj. destruct w as [| | | |errs]; try done. exfalso.
      destruct (s_over _ Hsh) as [Ho _]; [right; apply Exists_exists; exists (WRet errs); split; [by eapply list_elem_of_lookup_2|done]|].
      pose proof (over_lookup _ _ _ Ho Hi) as Hfin. by rewrite (m_live _ _ _ _ _ Hm) in Hfin.
  - constructor; try apply Hs; cbn; (apply Forall_app; split; [apply Hs|by repeat constructor]).
  - destruct (wait_step_inv g i w g' Hi Hw) as (w' & Ew & Eg & _ & _ & Ee & Eh & _ & Hk).
    destruct (possiblyCancel_once g cancel (o_has _ _ Hs) (o_canceled _ _ Hs)) as [P1 P2].
    assert (canceled g' = (if cancelOnce g' && cancel then 1%nat else 0%nat) /\ (cancelOnce g = true -> cancelOnce g' = true) /\
      match w' with WErr | WRet _ => cancelOnce g' = true | _ => True end /\ match w' with WRet errs => errs = errors_ g' | _ => True end) as (K1 & K2 & K3 & K4).
    { pose proof (o_canceled _ _ Hs) as Hcc. pose proof (o_late _ _ Hs) as Hl. rewrite Forall_lookup in Hl. specialize (Hl i w Hi). destruct w, w'; try done.
      - destruct Hk as (_ & _ & _ & _ & -> & ->). by split_and!.
      - destruct Hk as (_ & -> & -> & _). by split_and!.
      - destruct Hk as (_ & _ & _ & -> & ->). by rewrite P1, P2.
      - destruct Hk as (-> & _ & _ & _ & -> & ->). rewrite Ee. by split_and!. }
    constructor; [rewrite Eh; apply Hs|done| | |].
    + rewrite Eg. eapply Forall_impl; [apply (o_failed _ _ Hs)|]. intros u. cbn. destruct (at_ u); auto.
    + rewrite Ew. apply Forall_insert; [|done]. eapply Forall_impl; [apply (o_late _ _ Hs)|]. intros []; cbn; auto.
    + rewrite Ew. apply Forall_insert; [|done]. eapply Forall_impl; [apply (o_ret _ _ Hs)|]. intros []; cbn; try done. by rewrite Ee.
Qed.

Lemma reachable_inv cancel n g : reachable cancel n g -> shape g /\ token_inv n g /\ error_inv g /\ once_inv cancel g.
Proof.
  induction 1 as [|g a g' _ (H1 & H2 & H3 & H4) Hst].
  - split_and!.
    + constructor; cbn; [done|done|intros [?|H]; [done|by inversion H]|done].
    + constructor; cbn; [done|]. destruct (Z.ltb_spec 0 n); [split_and!; [done|lia|cbn; lia|done]|lia].
    + by repeat constructor.
    + by repeat constructor.
  - split_and!; [by eapply shape_step|by eapply token_step|by eapply error_step|by eapply once_step].
Qed.

Lemma counted_pos g i t : shape g -> gos g !! i = Some t -> Z.of_nat (counted t) <= wgc g.
Proof. intros Hs Hi. rewrite (s_wg _ Hs). pose proof (sum_lookup counted _ _ _ Hi). lia. Qed.

Lemma no_panic n g a : shape g -> token_inv n g -> step g a <> Some Panic.
Proof.
  intros Hs Ht. pose proof (t_tokens _ _ Ht) as Htok. destruct a as [i|i err|i r|i| |i]; cbn [step].
  - destruct (may_call g i); [|done]. unfold wgAdd. rewrite (s_wg _ Hs). destruct (Z.ltb_spec (Z.of_nat (sum_list_with counted (gos g)) + 1) 0); [lia|done].
  - by destruct (may_call g i).
  - destruct (gos g !! i) as [t|]; [|done]. destruct (at_ t); try done. by destruct (calling g (Some i)).
  - destruct (gos g !! i) as [t|] eqn:Hi; [|done]. cbn. unfold go_step. destruct (at_ t) eqn:Ep; try done.
    + repeat case_match; done.
    + destruct (tokens g) as [k|]; [|done]. destruct Htok as (_ & _ & _ & ->). by destruct (k <? capacity g).
    + pose proof (counted_pos g i t Hs Hi) as Hc. unfold counted in Hc. rewrite Ep in Hc. unfold wgAdd. destruct (Z.ltb_spec (wgc g + -1) 0); [lia|done].
  - by destruct (calling g None).
  - destruct (waiters g !! i) as [w|]; [|done]. cbn. destruct w; cbn; try done; [by destruct (wgc g =? 0)|]. unfold closeCh. destruct (closeOnce g); [done|].
    destruct (tokens g); [|done]. by destruct Htok as (_ & _ & _ & ->).
Qed.

Lemma over_failures g : over g -> map appended (gos g) = map (fun t => option_list (failure t)) (gos g).
Proof.
  intros Ho. apply map_ext_in. intros t Hin%list_elem_of_In. unfold over in Ho. rewrite Forall_forall in Ho. specialize (Ho t Hin).
  unfold finished in Ho. unfold appended. by destruct (at_ t).
Qed.

(** ** Completion *)

Fixpoint run (g : T) (l : list action) : option T :=
  match l with
  | [] => Some g
  | a :: l => match step g a with Some (Ok g) => run g l | _ => None end
  end.

Lemma run_reachable cancel n g l g' : reachable cancel n g -> run g l = Some g' -> reachable cancel n g'.
Proof.
  revert g. induction l as [|a l IH]; intros g Hr E1; cbn in E1; [by injection E1 as <-|]. destruct (step g a) as [[h| |]|] eqn:Es; try done.
  eapply IH; [|exact E1]. by eapply reach_step.
Qed.

Lemma group_run_app g l k : run g (l ++ k) = match run g l with Some g => run g k | None => None end.
Proof. revert g. induction l as [|a l IH]; intros g; [done|]. cbn. destruct (step g a) as [[]|]; [apply IH|done..]. Qed.

Definition work (t : go_thread) : nat :=
  match at_ t with GTake => 6 | GRun => 5 | GAppend _ => 4 | GCancel => 3 | GPut => 2 | GDone => 1 | GEnd => 0 | XAppend _ => 2 | XCancel => 1 | XEnd => 0 end.

(** An action that starts nothing new: a function returns, or a step is made. *)
Definition goes_on (a : action) : bool := match a with ARun _ _ | AStep _ | AWaitStep _ => true | _ => false end.

Definition top_calls (g : T) : Prop := Forall (fun t => caller t = None) (gos g).

Definition progress (g g' : T) (a : action) : Prop :=
  goes_on a = true /\ step g a = Some (Ok g') /\ (sum_list_with work (gos g') < sum_list_with work (gos g))%nat /\ top_calls g' /\ waiters g' = waiters g.

Lemma progress_moved g g' i t t' a : moved g g' i t t' -> (work t' < work t)%nat -> top_calls g -> goes_on a = true -> step g a = Some (Ok g') -> progress g g' a.
Proof.
  intros Hm Hw Ht Hg Hs. unfold progress. split_and!; [done|done| | |apply Hm].
  - rewrite (m_gos _ _ _ _ _ Hm). pose proof (sum_insert work (gos g) i t t' (m_at _ _ _ _ _ Hm)). lia.
  - unfold top_calls. rewrite (m_gos _ _ _ _ _ Hm). apply Forall_insert; [done|]. rewrite (m_caller _ _ _ _ _ Hm).
    unfold top_calls in Ht. rewrite Forall_lookup in Ht. eapply Ht. apply Hm.
Qed.

(** A step lowers the work of its thread. *)
Lemma go_step_work g i t g' p : go_step g i t = Some (Ok g') -> gos g !! i = Some t -> gos g' = <[i := MkGo p (caller t) (failure t)]> (gos g) ->
  (work (MkGo p (caller t) (failure t)) < work t)%nat.
Proof.
  intros Hs Hi Eg. pose proof (lookup_lt_Some _ _ _ Hi) as Hl. destruct (possiblyCancel_same g) as (Pg & _).
  assert (forall h q, gos h = gos g -> g' = move h i t q -> p = q) as K.
  { intros h q Eh ->. cbn in Eg. rewrite Eh in Eg. apply (f_equal (fun l => l !! i)) in Eg. rewrite !list_lookup_insert_eq in Eg by done. by injection Eg. }
  unfold go_step in Hs. unfold work. destruct (at_ t) eqn:Ep; try done.
  - assert (p = GRun) as ->; [|cbn; lia].
    destruct (tokens g) as [k|]; [destruct (0 <? k); [|destruct (chClosed g); [|done]]|]; injection Hs as Hs; symmetry in Hs; by refine (K _ _ _ Hs).
  - injection Hs as Hs. symmetry in Hs. assert (p = GCancel) as -> by (by refine (K _ _ _ Hs)). cbn; lia.
  - injection Hs as Hs. symmetry in Hs. assert (p = GPut) as -> by (by refine (K _ _ _ Hs)). cbn; lia.
  - assert (p = GDone) as ->; [|cbn; lia].
    destruct (tokens g) as [k|]; [destruct (chClosed g); [done|]; destruct (k <? capacity g); [|done]|]; injection Hs as Hs; symmetry in Hs; by refine (K _ _ _ Hs).
  - unfold wgAdd in Hs. destruct (wgc g + -1 <? 0); [done|]. injection Hs as Hs. symmetry in Hs. assert (p = GEnd) as -> by (by refine (K _ _ _ Hs)). cbn; lia.
  - injection Hs as Hs. symmetry in Hs. assert (p = XCancel) as -> by (by refine (K _ _ _ Hs)). cbn; lia.
  - injection Hs as Hs. symmetry in Hs. assert (p = XEnd) as -> by (by refine (K _ _ _ Hs)). cbn; lia.
Qed.

Lemma progress_go g i t : gos g !! i = Some t -> top_calls g -> is_Some (go_step g i t) -> go_step g i t <> Some Panic -> go_step g i t <> Some NoFuel ->
  exists a g', progress g g' a.
Proof.
  intros Hi Ht [[g'| |] Hs] H1 H2; try done. exists (AStep i), g'. destruct (go_step_moved g i t g' Hi Hs) as (p & Hm & _).
  eapply progress_moved; [exact Hm| |done|done|by cbn; rewrite Hi]. eapply go_step_work; [done|done|apply Hm].
Qed.

Lemma step_no_fuel g a : step g a <> Some NoFuel.
Proof.
  destruct a as [i|i err|i r|i| |i]; cbn [step]; unfold wgAdd.
  - destruct (may_call g i); [|done]. by destruct (wgc g + 1 <? 0).
  - by destruct (may_call g i).
  - destruct (gos g !! i) as [t|]; [|done]. destruct (at_ t); try done. by destruct (calling g (Some i)).
  - destruct (gos g !! i) as [t|]; [|done]. cbn. unfold go_step, wgAdd. destruct (at_ t); try done; [destruct (tokens g) as [k|]; [destruct (0 <? k); [|destruct (chClosed g)]|]; done|
      destruct (tokens g) as [k|]; [destruct (chClosed g); [|destruct (k <? capacity g)]|]; done|by destruct (wgc g + -1 <? 0)].
  - by destruct (calling g None).
  - destruct (waiters g !! i) as [w|]; [|done]. cbn. destruct w; cbn; unfold closeCh; try done; [by destruct (wgc g =? 0)|]. destruct (closeOnce g); [done|].
    destruct (tokens g); [|done]. by destruct (chClosed g).
Qed.

Lemma progress_step n g i t : shape g -> token_inv n g -> top_calls g -> gos g !! i = Some t -> at_ t <> GTake -> finished t = false ->
  exists a g', progress g g' a.
Proof.
  intros Hs Htk Ht Hi Hne Hf. assert (at_ t = GRun \/ at_ t <> GRun) as [Er|Er] by (destruct (at_ t); (by left) || (by right)).
  - assert (calling g (Some i) = false) as Hc.
    { apply calling_false. intros j u Hj Hcu. unfold top_calls in Ht. rewrite Forall_lookup in Ht. specialize (Ht j u Hj). cbn in Ht. congruence. }
    destruct (step g (ARun i None)) as [[g'| |]|] eqn:Es; [|by apply (no_panic n) in Es|by apply step_no_fuel in Es|cbn in Es; by rewrite Hi, Er, Hc in Es].
    destruct (run_moved g i None g' Es) as (u & p & Hm & Hr & _ & -> & _). exists (ARun i None), g'. eapply progress_moved; [exact Hm| |done|done|done].
    unfold work. rewrite Hr. cbn. lia.
  - apply (progress_go g i t Hi Ht).
    + unfold go_step. unfold finished in Hf. destruct (at_ t) eqn:Ep; try done; try by eexists.
      destruct (tokens g) as [k|] eqn:Et; [|by eexists]. pose proof (t_tokens _ _ Htk) as H. rewrite Et in H. destruct H as (_ & _ & Hr & ->).
      rewrite (t_cap _ _ Htk). assert (1 <= running g)%nat as Hr1.
      { pose proof (sum_lookup holding _ _ _ Hi) as H. unfold holding at 1 in H. rewrite Ep in H. exact H. }
      destruct (Z.ltb_spec k n); [by eexists|lia].
    + intros Hp. apply (no_panic n g (AStep i) Hs Htk). cbn. by rewrite Hi.
    + intros Hp. apply (step_no_fuel g (AStep i)). cbn. by rewrite Hi.
Qed.

Lemma progress_any n g : shape g -> token_inv n g -> top_calls g -> ~ over g -> exists a g', progress g g' a.
Proof.
  intros Hs Htk Ht Ho. unfold over in Ho. apply not_Forall_Exists in Ho; [|intros ?; apply _]. apply Exists_exists in Ho as (t & Hin & Hf).
  apply list_elem_of_lookup in Hin as [i Hi]. assert (finished t = false) as Hf' by (by apply not_true_is_false).
  assert (at_ t = GTake \/ at_ t <> GTake) as [Ep|Ep] by (destruct (at_ t); (by left) || (by right)); [|by eapply progress_step].
  destruct (tokens g) as [k|] eqn:Et; [pose proof (t_tokens _ _ Htk) as H; rewrite Et in H; destruct H as (Hn & Hk & Hr & _); destruct (decide (k = 0)) as [->|]|].
  - assert (exists j u, gos g !! j = Some u /\ (0 < holding u)%nat) as (j & u & Hj & Hu).
    { destruct (Forall_Exists_dec (fun u => holding u = 0%nat) (fun u => 0 < holding u)%nat (fun u => match holding u as x return {x = 0%nat} + {(0 < x)%nat} with O => left eq_refl | S m => right (Nat.lt_0_succ m) end) (gos g)) as [Ha|He].
      - exfalso. assert (running g = 0%nat); [|lia]. unfold running. clear -Ha. induction Ha as [|u l Hu _ IH]; [done|]. cbn. lia.
      - apply Exists_exists in He as (u & Hin & Hu). apply list_elem_of_lookup in Hin as [j Hj]. eauto. }
    eapply (progress_step n g j u); try done; unfold holding, finished in *; destruct (at_ u); (done || lia).
  - apply (progress_go g i t Hi Ht); unfold go_step; rewrite Ep, Et; destruct (Z.ltb_spec 0 k); try lia; [by eexists|done|done].
  - apply (progress_go g i t Hi Ht); unfold go_step; rewrite Ep, Et; [by eexists|done|done].
Qed.

Lemma all_finish cancel n g : reachable cancel n g -> top_calls g ->
  exists l g', run g l = Some g' /\ forallb goes_on l = true /\ over g' /\ waiters g' = waiters g.
Proof.
  remember (sum_list_with work (gos g)) as m eqn:Em. revert g Em. induction (lt_wf m) as [m _ IH]. intros g -> Hr Ht.
  destruct (reachable_inv _ _ _ Hr) as (Hs & Htk & _). destruct (decide (over g)) as [Ho|Ho].
  - exists [], g. by split_and!.
  - destruct (progress_any n g Hs Htk Ht Ho) as (a & g' & Hg & Hst & Hw & Ht' & Ew). destruct (IH _ Hw g' eq_refl) as (l & h & E1 & E2 & E3 & E4); [by eapply reach_step|done|].
    exists (a :: l), h. cbn. rewrite Hst, Hg, E2, E4. by split_and!.
Qed.

Lemma over_zero g : shape g -> over g -> wgc g = 0.
Proof.
  intros Hs Ho. rewrite (s_wg _ Hs). unfold over in Ho. assert (sum_list_with counted (gos g) = 0%nat) as ->; [|done].
  induction Ho as [|t l Ht _ IH]; [done|]. cbn. rewrite IH. unfold finished, counted in *. by destruct (at_ t).
Qed.

(** A call of [Wait] does its next step when nothing is left to do. *)
Lemma wait_one cancel n g i w : reachable cancel n g -> over g -> waiters g !! i = Some w ->
  (exists errs, w = WRet errs) \/
  exists g' w', step g (AWaitStep i) = Some (Ok g') /\ over g' /\ waiters g' !! i = Some w' /\
    match w with WWg => w' = WClose | WClose => w' = WCancel | WCancel => w' = WErr | WErr => exists errs, w' = WRet errs | WRet _ => False end.
Proof.
  intros Hr Ho Hi. destruct (reachable_inv _ _ _ Hr) as (Hs & Htk & _). destruct w as [| | | |errs]; [..|left; by eexists]; right.
  all: destruct (step g (AWaitStep i)) as [[g'| |]|] eqn:Es; [|by apply (no_panic n) in Es|by apply step_no_fuel in Es|cbn in Es; rewrite Hi in Es; cbn in Es].
  all: try done.
  all: try (by rewrite (over_zero g Hs Ho) in Es).
  all: pose proof Es as Es'; cbn in Es'; rewrite Hi in Es'; destruct (wait_step_inv g i _ g' Hi Es') as (w' & Ew & Eg & _ & _ & _ & _ & _ & Hk).
  all: exists g', w'; split_and!; [done|unfold over; by rewrite Eg|rewrite Ew; apply list_lookup_insert_eq; by eapply lookup_lt_Some|].
  all: destruct w'; try done; by eexists.
Qed.

Lemma wait_finish cancel n g i w : reachable cancel n g -> over g -> waiters g !! i = Some w ->
  exists l g' errs, run g l = Some g' /\ forallb goes_on l = true /\ waiters g' !! i = Some (WRet errs).
Proof.
  pose (left_ := fun w : wait_pc => match w with WWg => 4%nat | WClose => 3%nat | WCancel => 2%nat | WErr => 1%nat | WRet _ => 0%nat end).
  remember (left_ w) as m eqn:Em. revert g w Em. induction m as [|m IH]; intros g w Em Hr Ho Hi.
  - destruct w as [| | | |errs]; try done. by exists [], g, errs.
  - destruct (wait_one _ _ _ _ _ Hr Ho Hi) as [[errs ->]|(g' & w' & Es & Ho' & Hi' & Hw)]; [done|].
    destruct (IH g' w') as (l & h & errs & E1 & E2 & E3); [|by eapply reach_step|done|done|].
    + destruct w; try done; [by subst w'; injection Em|by subst w'; injection Em|by subst w'; injection Em|destruct Hw as [errs ->]; by injection Em].
    + exists (AWaitStep i :: l), h, errs. cbn [run forallb goes_on]. rewrite Es, E2. by split_and!.
Qed.
End errgroup.

(** C7: Under every interleaving of calls of [Go], [GoContext] and [Wait], of the
    goroutines and of what their functions return, nothing panics (the channel
    of tokens is neither closed twice nor sent on after it is closed, the wait
    group stays non-negative), a group with concurrency [n] never runs more than
    [n] functions, and the cancel function is called at most once, and has been
    when [Wait] returns or a failed call is over.  When [Wait] has returned every
    call is over, and its errors are exactly those that the functions returned
    and [GoContext] recorded. *)
Theorem errgroup_safe {E : Type} (cancel : bool) (n : Z) (g : T (E:=E)) : reachable cancel n g ->
  (forall a, step g a <> Some Panic) /\ (0 < n -> Z.of_nat (running g) <= n) /\ (canceled g <= 1)%nat /\
  (forall t, t ∈ gos g -> finished t = true -> is_Some (failure t) -> cancel = true -> canceled g = 1%nat) /\
  (forall i errs, waiters g !! i = Some (WRet errs) ->
     over g /\ errs ≡ₚ concat (map (fun t => option_list (failure t)) (gos g)) /\ (cancel = true -> canceled g = 1%nat)).
Proof.
  intros Hr. destruct (reachable_inv _ _ _ Hr) as (Hs & Htk & He & Ho). pose proof (o_canceled _ _ Ho) as Hc. split_and!.
  - intros a. by apply (no_panic n).
  - intros Hn. pose proof (t_tokens _ _ Htk) as Ht. destruct (tokens g) as [k|]; [lia|]. destruct (s_over _ Hs) as [Hov _]; [left; auto|].
    assert (running g = 0%nat); [|lia]. unfold running, over in *. clear -Hov. induction Hov as [|t l Ht _ IH]; [done|]. cbn. rewrite IH.
    unfold finished, holding in *. by destruct (at_ t).
  - rewrite Hc. by destruct (cancelOnce g && cancel); lia.
  - intros t Hin Hf Hfl ->. pose proof (o_failed _ _ Ho) as H. rewrite Forall_forall in H. specialize (H t Hin). unfold finished in Hf.
    rewrite Hc. destruct (at_ t); try done; by rewrite H.
  - intros i errs Hi. destruct (s_over _ Hs) as [Hov _]; [right; apply Exists_exists; exists (WRet errs); split; [by eapply list_elem_of_lookup_2|done]|].
    pose proof (o_ret _ _ Ho) as H1. pose proof (o_late _ _ Ho) as H2. rewrite Forall_lookup in H1, H2. specialize (H1 i _ Hi). specialize (H2 i _ Hi). cbn in H1, H2.
    split_and!; [done| |by intros ->; rewrite Hc, H2]. by rewrite H1, (e_errors _ He), over_failures.
Qed.

(** C8: A call of [Wait] can always complete: from every reachable state in
    which no goroutine of the group has called [Go] or [GoContext] itself, the
    functions returning and the steps that are due, without any new call, lead
    to the return of [Wait]. *)
Theorem errgroup_completes {E : Type} (cancel : bool) (n : Z) (g : T (E:=E)) (i : nat) : reachable cancel n g -> top_calls g ->
  (i < length (waiters g))%nat ->
  exists l g' errs, run g l = Some g' /\ forallb goes_on l = true /\ waiters g' !! i = Some (WRet errs).
Proof.
  intros Hr Ht Hi. destruct (all_finish _ _ _ Hr Ht) as (l & g1 & E1 & E2 & Ho & Ew). pose proof (run_reachable _ _ _ _ _ Hr E1) as Hr1.
  destruct (lookup_lt_is_Some_2 (waiters g1) i) as [w Hw]; [by rewrite Ew|].
  destruct (wait_finish _ _ _ _ _ Hr1 Ho Hw) as (k & g2 & errs & E3 & E4 & E5). exists (l ++ k), g2, errs. split_and!; [|by rewrite forallb_app, E2|done].
  by rewrite group_run_app, E1.
Qed.

(** ** Examples *)

(** Two calls with a limit of one, the first of which fails. *)
Definition example_run : list (action (E:=Z)) := 
  [AGo None; AStep 0; ARun 0 (Some 7); AStep 0; AStep 0; AStep 0; AGo None; AStep 1; AWait].

Lemma errgroup_safe_witness : exists g : T (E:=Z), reachable true 1 g /\ Z.of_nat (running g) <= 1 /\ canceled g = 1%nat.
Proof.
  destruct (run (newT true 1) example_run) as [g|] eqn:Er; [|vm_compute in Er; discriminate]. exists g.
  pose proof (run_reachable true 1 _ _ _ (reach_init true 1) Er) as Hr. destruct (errgroup_safe true 1 g Hr) as (_ & H & _). split_and!; [done|by apply H|].
  vm_compute in Er. by injection Er as <-.
Defined.

Lemma errgroup_completes_witness : exists (g : T (E:=Z)) l g' errs, run g l = Some g' /\ waiters g' !! 0%nat = Some (WRet errs).
Proof.
  destruct (run (newT true 1) example_run) as [g|] eqn:Er; [|vm_compute in Er; discriminate]. exists g.
  pose proof (run_reachable true 1 _ _ _ (reach_init true 1) Er) as Hr.
  assert (top_calls g /\ (0 < length (waiters g))%nat) as [H1 H2] by (vm_compute in Er; injection Er as <-; split; [by repeat constructor|cbn; lia]).
  destruct (errgroup_completes true 1 g 0 Hr H1 H2) as (l & g' & errs & E1 & _ & E2). by exists l, g', errs.
Defined.

(** A function that calls [Go] on its own group waits for a token that it holds
    itself when the limit is one: from there on nothing can happen but the
    start of more calls. *)
Lemma nested_go_stuck :
  exists g : T (E:=Z), run (newT true 1) [AGo None; AStep 0; AGo (Some 0%nat); AWait] = Some g /\
    forall a, goes_on a = true -> step g a = None.
Proof.
  eexists. split; [reflexivity|]. intros a Ha. destruct a as [| |i r|i| |i]; try done.
  - destruct i as [|[|i]]; [vm_compute; done|done|done].
  - destruct i as [|[|i]]; [done|done|done].
  - destruct i as [|i]; done.
Qed.
