(* ===== verification/Errors.v ===== *)
(** * Trees of errors (errors/multi.go, errors/caller.go)

    An error is the tree that can be reached from it: [*M] values hold lists of
    errors, [annotated] ones wrap another, and the rest are leaves.  [Nil] is the
    nil interface, [NilM] a nil [*M] in an interface, which is not equal to nil
    and whose methods panic.  What the standard library makes of a leaf is a
    parameter: [isL] is [errors.Is] of a leaf and a target (targets are leaves),
    [msg] its message, [verb] and [verbf] what fmt prints for it. *)

From stdpp Require Import base list option numbers strings.
From Stdlib Require Import ZArith Lia Ascii String.
From S2P Require Import Prelude Strconv.

Open Scope string_scope.
Open Scope list_scope.
Open Scope Z_scope.
Open Scope go_scope.

Inductive err (E : Type) : Type :=
| Nil
| Leaf (e : E)
| Annotated (annotation : string) (e : err E)
| NilM
| Multi (errs : list (err E)) (numSquashed : Z).
Arguments Nil {E}.
Arguments Leaf {E} e.
Arguments Annotated {E} annotation e.
Arguments NilM {E}.
Arguments Multi {E} errs numSquashed.

(** ** Loops over a list of errors *)

(** A loop that returns true at the first element [f] is true of. *)
Definition any {A} (f : A -> res bool) : list A -> res bool :=
  fix any l := match l with [] => Ok false | x :: l => let! b := f x in if b then Ok true else any l end.

Definition res_map {A B} (f : A -> res B) : list A -> res (list B) :=
  fix res_map l := match l with [] => Ok [] | x :: l => let! y := f x in let! ys := res_map l in Ok (y :: ys) end.

Definition NL : string := String "010" EmptyString.

(** [strings.TrimSuffix(s, "\n")]. *)
Fixpoint trimNL (s : string) : string :=
  match s with
  | EmptyString => EmptyString
  | String c s' => if String.eqb s NL then EmptyString else String c (trimNL s')
  end.

Definition itoa (z : Z) : string := FormatInt z 10.

Section errors.
Context {E : Type} (isL : E -> E -> bool) (msg verb : E -> string) (verbf : bool -> E -> string).
(** What fmt prints for a value whose Format method panics. *)
Context (panicked : err E -> string).
Implicit Types e : err E.

(** A method of [*M]: the receiver must not be nil. *)
Definition method {A} (m : err E) (f : list (err E) -> Z -> res A) : res A :=
  match m with Multi errs n => f errs n | _ => Panic end.

(** Whether the value in the interface is an [*M]. *)
Definition asM e : bool := match e with Multi _ _ | NilM => true | _ => false end.

Definition isNil e : bool := match e with Nil => true | _ => false end.

Definition Append (m : err E) (new : list (err E)) : res (err E) :=
  method m (fun errs n => Ok (Multi (foldl (fun es e => if isNil e then es else es ++ [e]) errs new) n)).

Definition Err (m : err E) : res (err E) :=
  method m (fun errs n => if Nat.eqb (List.length errs) 0 then Ok Nil else Ok m).

Definition NewM (new : list (err E)) : res (err E) := let! m := Append (Multi [] 0) new in Err m.

Definition Unwrap (m : err E) : res (list (err E)) := method m (fun errs _ => Ok errs).

Definition Clone (m : err E) : res (err E) := method m (fun errs _ => Ok (Multi errs 0)).

(** [errors.Is], with the [Is] methods of [*M] and [annotated]. *)
Fixpoint Is (e : err E) (target : E) : res bool :=
  match e with
  | Nil => Ok false
  | Leaf e => Ok (isL e target)
  | Annotated _ e => Is e target
  | NilM => Panic
  | Multi errs _ => any (fun e => Is e target) errs
  end.

(** ** Text *)

(** The loop of [error] over the errors from the [i]th on; [f indent] is what the
    method [error] returns for an [*M], and [Error] for another error. *)
Definition error_loop (f : string -> err E -> res string) (indent : string) (l : Z) : Z -> list (err E) -> res string :=
  fix loop i errs :=
    match errs with
    | [] => Ok ""
    | e :: errs =>
        let! s :=
          match e with
          | Multi es _ => let! s := f (indent +:+ "  ") e in Ok ((if len es <? 2 then indent else "") +:+ s)
          | NilM => Panic
          | _ => let! s := f indent e in Ok (indent +:+ s)
          end in
        let! rest := loop (i + 1) errs in
        Ok (indent +:+ "--- " +:+ itoa (i + 1) +:+ " of " +:+ itoa l +:+ " errors" +:+ NL +:+ s +:+ NL +:+ rest)
    end.

(** What "%v" prints, given what [Error] returns. *)
Definition vtext (f : string -> err E -> res string) e : res string :=
  match e with
  | Nil | NilM => Ok "<nil>"
  | Leaf x => Ok (verb x)
  | _ => match f "  " e with Panic => Ok (panicked e) | r => r end
  end.

(** [M.error] with its indent; for errors that are not an [*M], [Error]. *)
Fixpoint error (indent : string) (e : err E) : res string :=
  match e with
  | Nil | NilM => Panic
  | Leaf x => Ok (msg x)
  | Annotated a e => let! s := vtext error e in Ok (a +:+ ": " +:+ s)
  | Multi errs n =>
      match errs with
      | [] => Ok ""
      | [e] =>
          if n <=? 1 then error "  " e
          else let! s := vtext error e in Ok (s +:+ " (repeated " +:+ itoa n +:+ " times)")
      | _ => let! out := error_loop error indent (len errs) 0 errs in Ok (trimNL out)
      end
  end.

Definition Error (e : err E) : res string := error "  " e.

(** [Format] with the flag for "%+v", or for "%#v" when [sharp]; fmt itself
    handles the values without a [Format] method. *)
Fixpoint Format (sharp : bool) (e : err E) : string :=
  match e with
  | Nil | NilM => "<nil>"
  | Leaf x => verbf sharp x
  | Annotated a e => a +:+ ": " +:+ Format sharp e
  | Multi errs _ =>
      match errs with
      | [e] => Format sharp e
      | _ =>
          (fix loop (i : Z) (es : list (err E)) : string :=
             match es with
             | [] => ""
             | e :: es =>
                 "  --- " +:+ itoa (i + 1) +:+ " of " +:+ itoa (len errs) +:+ " errors" +:+ NL +:+ "  " +:+
                 Format sharp e +:+ NL +:+ loop (i + 1) es
             end) 0 errs
      end
  end.

(** The value [MarshalJSON] gives to the JSON encoder. *)
Inductive json := JString (s : string) | JArray (l : list json).

Fixpoint marshalRecurse (e : err E) : res json :=
  match e with
  | Multi errs _ => let! l := res_map marshalRecurse errs in Ok (JArray l)
  | NilM => Panic
  | _ => let! s := Error e in Ok (JString s)
  end.

(** ** Squash *)

(** The list being built and the index in it of the [*M] that stands for the
    target. *)
Definition squash_state : Type := list (err E) * option nat.

Definition bump (e : err E) : err E := match e with Multi errs n => Multi errs (n + 1) | _ => e end.

Definition squash_step (target : E) (st : squash_state) (child : err E) : res squash_state :=
  let '(serr, squashed) := st in
  let! hit := (if asM child then Ok false else Is child target) in
  if hit then
    match squashed with
    | None => Ok (serr ++ [Multi [child] 1], Some (List.length serr))
    | Some p => Ok (alter bump p serr, squashed)
    end
  else Ok (serr ++ [child], squashed).

Definition squashLevel (errs : list (err E)) (target : E) : res (err E) :=
  let! (serr, _) := foldl (fun m child => let! st := m in squash_step target st child) (Ok ([], None)) errs in
  Ok (Multi serr 0).

(** [M.squash]; other errors stay as they are. *)
Fixpoint squash (target : E) (m : err E) : res (err E) :=
  match m with
  | NilM => Panic
  | Multi errs _ =>
      match errs with
      | [] => Ok NilM
      | [_] => Ok m
      | _ => let! c := res_map (squash target) errs in squashLevel c target
      end
  | _ => Ok m
  end.

Definition M_Squash (m : err E) (targets : list E) : res (err E) :=
  let! s := Clone m in
  foldl (fun r target => let! s := r in squash target s) (Ok s) targets.

Definition Squash (e : err E) (targets : list E) : res (err E) :=
  if isNil e then Ok Nil else if asM e then M_Squash e targets else Ok e.

(** ** caller.go *)

Definition Annotate (annotation : string) (e : err E) : err E := Annotated annotation e.

Definition AnnotateAll (annotation : string) (errs : list (err E)) : list (err E) := map (Annotate annotation) errs.
End errors.

(** ** Induction on trees *)

Section induction.
Context {E : Type} (P : err E -> Prop) (HNil : P Nil) (HLeaf : forall x, P (Leaf x)) (HAnn : forall a e, P e -> P (Annotated a e))
  (HNilM : P NilM) (HMulti : forall errs n, Forall P errs -> P (Multi errs n)).

Fixpoint err_tree_ind (e : err E) : P e :=
  match e with
  | Nil => HNil
  | Leaf x => HLeaf x
  | Annotated a e => HAnn a e (err_tree_ind e)
  | NilM => HNilM
  | Multi errs n =>
      HMulti errs n ((fix all (l : list (err E)) : Forall P l :=
        match l with [] => Forall_nil_2 P | e :: l => Forall_cons_2 P e l (err_tree_ind e) (all l) end) errs)
  end.
End induction.

(** ** What Squash promises *)

Section squash_spec.
Context {E : Type} (isL : E -> E -> bool).
Implicit Types e c : err E.
Implicit Types l : list (err E).

(** No nil errors, nil [*M]s or [*M]s without errors (an annotated nil is
    harmless). *)
Inductive wf : err E -> Prop :=
| wf_leaf x : wf (Leaf x)
| wf_annotated_nil a : wf (Annotated a Nil)
| wf_annotated a e : wf e -> wf (Annotated a e)
| wf_multi errs n : errs <> [] -> Forall wf errs -> wf (Multi errs n).

(** [errors.Is] where it does not panic. *)
Fixpoint matches (t : E) (e : err E) : bool :=
  match e with
  | Nil | NilM => false
  | Leaf x => isL x t
  | Annotated _ e => matches t e
  | Multi errs _ => existsb (matches t) errs
  end.

(** An error that [squashLevel] merges. *)
Definition bare (t : E) (e : err E) : bool := negb (asM e) && matches t e.

(** An [*M] that stands for errors that matched. *)
Definition wraps (t : E) (e : err E) : bool := match e with Multi [x] _ => bare t x | _ => false end.

Definition shows (t : E) (e : err E) : bool := bare t e || wraps t e.

Definition count (p : err E -> bool) (l : list (err E)) : Z := len (filter (fun c => p c = true) l).

(** The lists of errors of all the [*M]s of a tree. *)
Fixpoint levels (e : err E) : list (list (err E)) :=
  match e with Multi errs _ => errs :: List.concat (map levels errs) | _ => [] end.

(** The errors of a tree that are not [*M]s. *)
Definition members (e : err E) : list (err E) := filter (fun c => asM c = false) (List.concat (levels e)).

Definition sum_Z (l : list Z) : Z := foldr Z.add 0 l.

(** How many errors that match [t] the text of the error accounts for, those it
    says are repeated with their number. *)
Fixpoint reported (t : E) (e : err E) : Z :=
  match e with
  | Multi [c] n => Z.max 1 n * reported t c
  | Multi errs _ => sum_Z (map (reported t) errs)
  | _ => if matches t e then 1 else 0
  end.

(** A level after the first error that matches has been replaced by an [*M]
    with the number of those that match. *)
Fixpoint merge (t : E) (l : list (err E)) : list (err E) :=
  match l with
  | [] => []
  | c :: l =>
      if bare t c then Multi [c] (1 + count (bare t) l) :: filter (fun c => bare t c = false) l
      else c :: merge t l
  end.

(** [squash] where it does not panic. *)
Fixpoint squashed (t : E) (e : err E) : err E :=
  match e with
  | Multi [_] _ => e
  | Multi errs _ => Multi (merge t (map (squashed t) errs)) 0
  | _ => e
  end.

Lemma any_existsb {A} (f : A -> res bool) g (l : list A) : Forall (fun x => f x = Ok (g x)) l -> any f l = Ok (existsb g l).
Proof. induction 1 as [|x l Hx _ IH]; [done|]. cbn. rewrite Hx. cbn. by destruct (g x). Qed.

Lemma res_map_Ok {A B} (f : A -> res B) g (l : list A) : Forall (fun x => f x = Ok (g x)) l -> res_map f l = Ok (map g l).
Proof. induction 1 as [|x l Hx _ IH]; [done|]. cbn. by rewrite Hx, IH. Qed.

Lemma Is_matches t e : e = Nil \/ wf e -> Is isL e t = Ok (matches t e).
Proof.
  induction e as [|x|a e IH| |errs n IH] using err_tree_ind; intros [Hn|H]; try done; try (by inversion H).
  - cbn. apply IH. inversion H; auto.
  - cbn. apply any_existsb. inversion H as [| | |errs' n' _ Hw]; subst. rewrite Forall_forall in *. intros x Hx. by apply IH; auto.
Qed.

Lemma bare_Is t c : wf c -> (if asM c then Ok false else Is isL c t) = Ok (bare t c).
Proof. intros Hw. unfold bare. rewrite Is_matches by auto. by destruct (asM c). Qed.

Lemma tally_nil p : count p [] = 0.
Proof. done. Qed.

Lemma tally_cons p c l : count p (c :: l) = (if p c then 1 else 0) + count p l.
Proof. unfold count. rewrite filter_cons. destruct (p c); [rewrite decide_True, len_cons by done; lia|by rewrite decide_False]. Qed.

Lemma count_nonneg p l : 0 <= count p l.
Proof. apply len_nonneg. Qed.

(** *** The loop of [squashLevel] *)

Definition steps t st l := foldl (fun m child => let! st := m in squash_step isL t st child) (Ok st) l.

Lemma alter_middle {A} f (l k : list A) x : alter f (List.length l) (l ++ x :: k) = l ++ f x :: k.
Proof. induction l as [|y l IH]; [done|]. cbn. by f_equal. Qed.

Lemma steps_some t l : forall pre x n mid, Forall wf l ->
  steps t (pre ++ Multi [x] n :: mid, Some (List.length pre)) l =
  Ok (pre ++ Multi [x] (n + count (bare t) l) :: mid ++ filter (fun c => bare t c = false) l, Some (List.length pre)).
Proof.
  induction l as [|c l IH]; intros pre x n mid Hw; unfold steps; cbn [foldl].
  - by rewrite app_nil_r, Z.add_0_r.
  - apply Forall_cons in Hw as [Hc Hw]. cbn [rbind squash_step]. rewrite bare_Is by done. cbn [rbind].
    rewrite tally_cons, filter_cons. destruct (bare t c); [rewrite decide_False by done|rewrite decide_True by done].
    + rewrite alter_middle. etrans; [apply (IH pre x (n + 1) mid Hw)|]. by rewrite Z.add_assoc.
    + rewrite <- app_assoc. etrans; [apply (IH pre x n (mid ++ [c]) Hw)|]. by rewrite <- app_assoc.
Qed.

Lemma steps_none t l : forall pre, Forall wf l -> exists p, steps t (pre, None) l = Ok (pre ++ merge t l, p).
Proof.
  induction l as [|c l IH]; intros pre Hw; unfold steps; cbn [foldl merge].
  - exists None. by rewrite app_nil_r.
  - apply Forall_cons in Hw as [Hc Hw]. cbn [rbind squash_step]. rewrite bare_Is by done. cbn [rbind]. destruct (bare t c).
    + exists (Some (List.length pre)). apply (steps_some t l pre c 1 [] Hw).
    + destruct (IH (pre ++ [c]) Hw) as [p Hp]. exists p. etrans; [exact Hp|]. by rewrite <- app_assoc.
Qed.

Lemma squashLevel_merge t l : Forall wf l -> squashLevel isL l t = Ok (Multi (merge t l) 0).
Proof. intros Hw. unfold squashLevel. destruct (steps_none t l [] Hw) as [p Hp].
  change (rbind (steps t ([], None) l) (fun '(serr, _) => Ok (Multi serr 0)) = Ok (Multi (merge t l) 0)). by rewrite Hp. Qed.

(** *** What is in a merged level *)

Lemma merge_elem t l c : c ∈ merge t l -> c ∈ l \/ exists x k, c = Multi [x] k /\ x ∈ l /\ bare t x = true.
Proof.
  induction l as [|x l IH]; cbn; [by intros ?%elem_of_nil|]. destruct (bare t x) eqn:Ex.
  - intros [->|Hc]%elem_of_cons; [right; eauto using list_elem_of_here|]. apply list_elem_of_filter in Hc as [_ Hc]. left. by constructor.
  - intros [->|Hc]%elem_of_cons; [left; by constructor|]. destruct (IH Hc) as [?|(y & k & ? & ? & ?)]; [left; by constructor|].
    right. exists y, k. split_and!; try done. by constructor.
Qed.

Lemma merge_nonempty t l : l <> [] -> merge t l <> [].
Proof. destruct l as [|c l]; [done|]. cbn. by destruct (bare t c). Qed.

Lemma merge_single t l c : (2 <= List.length l)%nat -> merge t l = [c] -> exists x k, c = Multi [x] k /\ bare t x = true.
Proof.
  destruct l as [|x [|y l]]; cbn; [lia|lia|]. intros _. destruct (bare t x) eqn:Ex; [intros [= <- _]; eauto|].
  destruct (bare t y); done.
Qed.

Lemma squash_squashed t e : wf e -> squash isL t e = Ok (squashed t e) /\ wf (squashed t e).
Proof.
  induction e as [|x|a e IH| |errs n IH] using err_tree_ind; intros H; try (by inversion H); try (by split; [|inversion H; constructor]).
  - inversion H as [| | |errs' n' Hne Hw]; subst. destruct errs as [|c [|c2 errs]]; [done|by split|].
    set (l := c :: c2 :: errs) in *. assert (Forall wf (map (squashed t) l)) as Hwm.
    { rewrite Forall_forall in *. intros x Hx. apply list_elem_of_fmap in Hx as (y & -> & Hy). by apply IH; auto. }
    split.
    + change (squash isL t (Multi l n)) with (let! cs := res_map (squash isL t) l in squashLevel isL cs t).
      rewrite (res_map_Ok _ (squashed t)); [cbn [rbind]; by rewrite squashLevel_merge|].
      rewrite Forall_forall in *. intros x Hx. by apply IH; auto.
    + change (squashed t (Multi l n)) with (Multi (merge t (map (squashed t) l)) 0). constructor; [by apply merge_nonempty|].
      rewrite Forall_forall in *. intros x Hx. apply merge_elem in Hx as [Hx|(y & k & -> & Hy & _)]; [by apply Hwm|].
      constructor; [done|]. constructor; [by apply Hwm|done].
Qed.

Lemma squashed_asM t e : asM (squashed t e) = asM e.
Proof. by destruct e as [| | | |[|? [|]]]. Qed.

Lemma squashed_bare t u e : bare u (squashed t e) = bare u e.
Proof. by destruct e as [| | | |[|? [|]]]. Qed.

Lemma squashed_wraps t u e : wraps u (squashed t e) = wraps u e.
Proof.
  destruct e as [| | | |[|c [|c2 errs]] n]; try done.
  change (wraps u (Multi (merge t (map (squashed t) (c :: c2 :: errs))) 0) = false).
  destruct (merge t (map (squashed t) (c :: c2 :: errs))) as [|w [|]] eqn:Em; [done| |done].
  apply merge_single in Em as (x & k & -> & _); [done|cbn; lia].
Qed.

Lemma squashed_shows t u e : shows u (squashed t e) = shows u e.
Proof. unfold shows. by rewrite squashed_bare, squashed_wraps. Qed.

(** *** Properties of all levels *)

Lemma levels_Multi (P : list (err E) -> Prop) l n :
  Forall P (levels (Multi l n)) <-> P l /\ Forall (fun c => Forall P (levels c)) l.
Proof. cbn. by rewrite Forall_cons, Forall_concat, Forall_map. Qed.

Lemma levels_other e : asM e = false -> levels e = [].
Proof. by destruct e. Qed.

Lemma bare_other t c : bare t c = true -> asM c = false /\ matches t c = true.
Proof. unfold bare. destruct (asM c); [done|]. by destruct (matches t c). Qed.

Lemma squashed_other t c : asM c = false -> squashed t c = c.
Proof. by destruct c. Qed.

(** A level [squash] leaves alone or can merge. *)
Definition single_ok l : Prop :=
  l <> [] /\ ((2 <= List.length l)%nat \/ Forall (fun c => asM c = false \/ exists x k, c = Multi [x] k /\ asM x = false) l).

Lemma squashed_levels (P Q : list (err E) -> Prop) t e :
  (forall l, P l -> single_ok l) ->
  (forall l, P l -> (2 <= List.length l)%nat -> Q (merge t (map (squashed t) l))) ->
  (forall l x, P l -> x ∈ l -> bare t x = true -> Q [x]) ->
  (forall c, P [c] -> Q [c]) ->
  Forall P (levels e) -> Forall Q (levels (squashed t e)).
Proof.
  intros H1 H2 H3 H4. induction e as [|x|a e IH| |errs n IH] using err_tree_ind; intros HP; try by apply Forall_nil.
  apply levels_Multi in HP as [HP Hsub]. pose proof (H1 _ HP) as [Hne Hs].
  destruct errs as [|c [|c2 errs]]; [done|..].
  - apply levels_Multi. split; [by apply H4|]. apply Forall_singleton. destruct Hs as [Hs|Hs]; [cbn in Hs; lia|].
    apply Forall_singleton in Hs as [Hc|(x & k & -> & Hx)]; [by rewrite levels_other|]. apply Forall_singleton, levels_Multi in Hsub as [Hx1 _].
    apply levels_Multi. split; [by apply H4|]. apply Forall_singleton. by rewrite levels_other.
  - set (l := c :: c2 :: errs) in *. change (squashed t (Multi l n)) with (Multi (merge t (map (squashed t) l)) 0).
    apply levels_Multi. split; [apply H2; [done|cbn; lia]|]. apply Forall_forall. intros d Hd.
    rewrite Forall_forall in IH, Hsub. apply merge_elem in Hd as [Hd|(x & k & -> & Hd & Hb)]; apply list_elem_of_fmap in Hd as (y & -> & Hy).
    + by apply IH; [|apply Hsub].
    + rewrite squashed_bare in Hb. destruct (bare_other _ _ Hb) as [Hy1 _]. rewrite squashed_other by done. apply levels_Multi. split.
      * by eapply H3.
      * apply Forall_singleton. by rewrite levels_other.
Qed.

Lemma count_le1 p c : count p [c] <= 1.
Proof. rewrite tally_cons, tally_nil. destruct (p c); lia. Qed.

Lemma count_map p (f : err E -> err E) l : (forall c, p (f c) = p c) -> count p (map f l) = count p l.
Proof. intros Hf. induction l as [|c l IH]; [done|]. cbn [map]. by rewrite !tally_cons, Hf, IH. Qed.

Lemma count_filter p q l : count p (filter (fun c => q c = false) l) <= count p l.
Proof.
  induction l as [|c l IH]; [done|]. rewrite filter_cons, tally_cons. destruct (q c); [rewrite decide_False by done|rewrite decide_True, tally_cons by done];
    destruct (p c); lia.
Qed.

Lemma count_merge_other t p l : (forall c, c ∈ l -> bare t c = true -> p c = false /\ forall k, p (Multi [c] k) = false) ->
  count p (merge t l) <= count p l.
Proof.
  induction l as [|c l IH]; intros Hp; [done|]. cbn [merge]. destruct (bare t c) eqn:Ec; rewrite !tally_cons.
  - destruct (Hp c) as [-> Hw]; [by constructor|done|]. rewrite Hw. pose proof (count_filter p (bare t) l). lia.
  - specialize (IH (fun x Hx => Hp x (list_elem_of_further _ _ _ Hx))). lia.
Qed.

Lemma count_zero p l : (forall c, c ∈ l -> p c = false) -> count p l = 0.
Proof.
  induction l as [|c l IH]; intros Hp; [done|]. rewrite tally_cons, Hp by constructor. rewrite IH; [done|]. intros. apply Hp. by constructor.
Qed.

Lemma count_merge_same t l : (forall c, c ∈ l -> wraps t c = false) -> count (shows t) (merge t l) <= 1.
Proof.
  induction l as [|c l IH]; intros Hw; [done|]. cbn [merge]. destruct (bare t c) eqn:Ec; rewrite tally_cons.
  - rewrite (count_zero _ (filter _ l)); [destruct (shows t _); lia|]. intros d [Hd Hin]%list_elem_of_filter. unfold shows. rewrite Hd, Hw by (by constructor). done.
  - unfold shows at 1. rewrite Ec, Hw by constructor. specialize (IH (fun x Hx => Hw x (list_elem_of_further _ _ _ Hx))). cbn. lia.
Qed.

Section several_targets.
Context (R : E -> E -> Prop).

(** [R] relates targets that no error matches both of; those [todo] have not been
    squashed yet, those [fin] have. *)
Record level_ok (todo fin : list E) (l : list (err E)) : Prop := {
  lo_single : single_ok l;
  lo_apart : forall c t u, c ∈ l -> R t u -> bare t c = true -> bare u c = true -> t = u;
  lo_fresh : forall c u, c ∈ l -> u ∈ todo -> wraps u c = false;
  lo_once : forall u, u ∈ fin -> count (shows u) l <= 1;
}.

Lemma bare_from t u m c : c ∈ merge t (map (squashed t) m) -> bare u c = true -> exists y, y ∈ m /\ bare u y = true /\ c = y.
Proof.
  intros Hc Hb. apply merge_elem in Hc as [Hc|(x & k & -> & _)]; [|done]. apply list_elem_of_fmap in Hc as (y & -> & Hy).
  rewrite squashed_bare in Hb. exists y. split_and!; [done|done|]. apply squashed_other. by apply (bare_other u).
Qed.

Lemma merge_level todo fin t l : (forall u, u ∈ todo \/ u ∈ fin -> R t u /\ t <> u) ->
  level_ok (t :: todo) fin l -> (2 <= List.length l)%nat -> level_ok todo (t :: fin) (merge t (map (squashed t) l)).
Proof.
  intros HR [Hs Ha Hf Ho] H2. assert (forall c u, c ∈ l -> u ∈ todo \/ u ∈ fin -> bare t c = true -> bare u c = false) as Hex.
  { intros c u Hc Hu Ht. destruct (HR u Hu) as [HRu Hne]. destruct (bare u c) eqn:Ebu; [|done]. by destruct Hne; eapply Ha. }
  constructor.
  - destruct Hs as [Hne _]. split; [apply merge_nonempty; by destruct l|].
    destruct (merge t (map (squashed t) l)) as [|w [|w2 r]] eqn:Em; [by right| |left; cbn; lia].
    apply merge_single in Em as (x & k & -> & Hb); [|by rewrite length_map]. right. apply Forall_singleton. right. exists x, k. by apply bare_other in Hb as [? _].
  - intros c t' u Hc HRt Ht Hu. destruct (bare_from _ _ _ _ Hc Hu) as (y & Hy & Hbu & ->). by eapply Ha.
  - intros c u Hc Hu. apply merge_elem in Hc as [Hc|(x & k & -> & Hx & Hb)].
    + apply list_elem_of_fmap in Hc as (y & -> & Hy). rewrite squashed_wraps. apply Hf; [done|by constructor].
    + apply list_elem_of_fmap in Hx as (y & -> & Hy). cbn. rewrite squashed_bare in *. apply Hex; auto.
  - intros u [->|Hu]%elem_of_cons.
    + apply count_merge_same. intros c Hc. apply list_elem_of_fmap in Hc as (y & -> & Hy). rewrite squashed_wraps. apply Hf; [done|by constructor].
    + rewrite (count_merge_other t), count_map; [by apply Ho|apply squashed_shows|].
      intros c Hc Hb. apply list_elem_of_fmap in Hc as (y & -> & Hy). rewrite squashed_bare in Hb. rewrite squashed_shows.
      assert (bare u y = false) as Hu2 by (apply Hex; auto). destruct (bare_other _ _ Hb) as [Hy1 _]. rewrite squashed_other by done. unfold shows. cbn.
      rewrite Hu2. split; [by destruct y|done].
Qed.

Lemma squash_level todo fin t m : (forall u, u ∈ todo \/ u ∈ fin -> R t u /\ t <> u) ->
  Forall (level_ok (t :: todo) fin) (levels m) -> Forall (level_ok todo (t :: fin)) (levels (squashed t m)).
Proof.
  intros HR. apply squashed_levels.
  - intros l H. apply H.
  - intros l. by apply merge_level.
  - intros l x [Hs Ha Hf Ho] Hx Hb. destruct (bare_other _ _ Hb) as [Hx1 _]. constructor.
    + split; [done|]. right. apply Forall_singleton. by left.
    + intros c t' u ->%list_elem_of_singleton. by apply Ha.
    + intros c u ->%list_elem_of_singleton _. by destruct x.
    + intros u _. apply count_le1.
  - intros c [Hs Ha Hf Ho]. constructor; [done|done| |intros; apply count_le1]. intros d u Hd Hu. apply Hf; [done|by constructor].
Qed.

(** *** What is reported *)

Lemma reported_other u c : asM c = false -> reported u c = if bare u c then 1 else 0.
Proof. unfold bare. by destruct c. Qed.

Lemma reported_Multi u l : reported u (Multi l 0) = sum_Z (map (reported u) l).
Proof.
  destruct l as [|c [|c2 l]]; [done| |done]. change (Z.max 1 0 * reported u c = reported u c + 0). lia.
Qed.

Lemma sum_Z_filter t u l : (forall c, c ∈ l -> bare t c = true -> bare u c = true -> t = u) ->
  forall c, bare t c = true -> (bare u c = true -> t = u) ->
  sum_Z (map (reported u) l) = sum_Z (map (reported u) (filter (fun c => bare t c = false) l)) + count (bare t) l * reported u c.
Proof.
  intros Ha c Hc Hcu. induction l as [|d l IH]; [done|]. rewrite filter_cons, tally_cons. cbn [map sum_Z foldr].
  specialize (IH (fun x Hx => Ha x (list_elem_of_further _ _ _ Hx))). fold (sum_Z (map (reported u) l)).
  destruct (bare t d) eqn:Ed; [rewrite decide_False by done|rewrite decide_True by done; cbn [map sum_Z foldr]; fold (sum_Z (map (reported u) (filter (fun c => bare t c = false) l))); lia].
  assert (reported u d = reported u c) as ->; [|lia].
  rewrite !reported_other by (by eapply bare_other). destruct (bare u c) eqn:Eu.
  - rewrite <- (Hcu eq_refl) in *. by rewrite Ed.
  - destruct (bare u d) eqn:Eud; [|done]. rewrite (Ha d) in Hc by (done || by constructor). congruence.
Qed.

Lemma reported_merge t u l : (forall c, c ∈ l -> bare t c = true -> bare u c = true -> t = u) ->
  sum_Z (map (reported u) (merge t l)) = sum_Z (map (reported u) l).
Proof.
  induction l as [|c l IH]; intros Ha; [done|]. pose proof (fun x Hx => Ha x (list_elem_of_further _ _ _ Hx)) as Ha'. specialize (IH Ha').
  cbn [merge]. destruct (bare t c) eqn:Ec; cbn [map sum_Z foldr]; fold (sum_Z (map (reported u) l)); [|fold (sum_Z (map (reported u) (merge t l))); lia].
  fold (sum_Z (map (reported u) (filter (fun c => bare t c = false) l))).
  rewrite (sum_Z_filter t u l Ha' c Ec) by (intros; apply (Ha c); [by constructor|done|done]).
  change (reported u (Multi [c] (1 + count (bare t) l))) with (Z.max 1 (1 + count (bare t) l) * reported u c).
  pose proof (count_nonneg (bare t) l). rewrite Z.max_r by lia. lia.
Qed.

Lemma reported_squashed t u e : Forall (fun l => forall c, c ∈ l -> bare t c = true -> bare u c = true -> t = u) (levels e) ->
  reported u (squashed t e) = reported u e.
Proof.
  induction e as [|x|a e IH| |errs n IH] using err_tree_ind; intros Ha; try done. apply levels_Multi in Ha as [Ha Hsub].
  destruct errs as [|c [|c2 errs]]; [done|done|]. set (l := c :: c2 :: errs) in *.
  change (squashed t (Multi l n)) with (Multi (merge t (map (squashed t) l)) 0).
  change (reported u (Multi l n)) with (sum_Z (map (reported u) l)). rewrite reported_Multi, reported_merge.
  - rewrite map_map. f_equal. apply map_ext_in. intros d Hd%list_elem_of_In. rewrite Forall_forall in IH, Hsub. by apply IH; [|apply Hsub].
  - intros d Hd. apply list_elem_of_fmap in Hd as (y & -> & Hy). rewrite !squashed_bare. by apply Ha.
Qed.

Lemma matches_reported u e : 0 <= reported u e /\ matches u e = (0 <? reported u e).
Proof.
  induction e as [|x|a e IH| |errs n IH] using err_tree_ind; try (cbn; by destruct (isL x u)); try (cbn; by destruct (matches u e)); try done.
  assert (0 <= sum_Z (map (reported u) errs) /\ existsb (matches u) errs = (0 <? sum_Z (map (reported u) errs))) as [Hs1 Hs2].
  { induction IH as [|c l [Hc1 Hc2] _ [IH1 IH2]]; [done|]. cbn [map sum_Z foldr existsb]. fold (sum_Z (map (reported u) l)). rewrite Hc2, IH2.
    split; [lia|]. destruct (Z.ltb_spec 0 (reported u c)), (Z.ltb_spec 0 (sum_Z (map (reported u) l))); cbn; symmetry; (apply Z.ltb_lt || apply Z.ltb_ge); lia. }
  change (matches u (Multi errs n)) with (existsb (matches u) errs). rewrite Hs2.
  destruct errs as [|c [|c2 errs]]; [done| |done]. change (reported u (Multi [c] n)) with (Z.max 1 n * reported u c).
  cbn [map sum_Z foldr] in *. rewrite Z.add_0_r in *. split; [nia|]. destruct (Z.ltb_spec 0 (reported u c)); symmetry; [apply Z.ltb_lt|apply Z.ltb_ge]; nia.
Qed.

Lemma tally_app p l k : count p (l ++ k) = count p l + count p k.
Proof. unfold count. by rewrite filter_app, len_app. Qed.

Lemma reported_members u e : Forall (fun l => (2 <= List.length l)%nat) (levels e) ->
  reported u e = (if bare u e then 1 else 0) + count (bare u) (List.concat (levels e)).
Proof.
  induction e as [|x|a e IH| |errs n IH] using err_tree_ind; intros Hl; try done; try (cbn; rewrite Z.add_0_r; by destruct (isL x u) || by destruct (matches u e)).
  apply levels_Multi in Hl as [H2 Hsub]. cbn [levels List.concat]. rewrite tally_app.
  assert (reported u (Multi errs n) = sum_Z (map (reported u) errs)) as -> by (destruct errs as [|c [|c2 errs]]; cbn in H2; [lia|lia|done]).
  clear H2. change (bare u (Multi errs n)) with false. induction IH as [|c l Hc _ IHl]; [done|].
  apply Forall_cons in Hsub as [Hs1 Hs2]. specialize (IHl Hs2). cbn [map sum_Z foldr List.concat]. fold (sum_Z (map (reported u) l)).
  rewrite tally_cons, concat_app, tally_app, Hc by done. lia.
Qed.

Lemma members_count u e : count (matches u) (members e) = count (bare u) (List.concat (levels e)).
Proof.
  unfold members. induction (List.concat (levels e)) as [|c l IH]; [done|]. rewrite filter_cons, tally_cons. unfold bare.
  destruct (asM c) eqn:Ec; [by rewrite decide_False|]. rewrite decide_True, tally_cons, IH by done. done.
Qed.
End several_targets.
End squash_spec.

Section squash_all.
Context {E : Type} (isL : E -> E -> bool).
Implicit Types m c : err E.

Definition squashed_all (m : err E) (ts : list E) : err E := foldl (fun e t => squashed isL t e) m ts.

Lemma squash_all_Ok ts : forall m, wf m ->
  foldl (fun r target => let! s := r in squash isL target s) (Ok m) ts = Ok (squashed_all m ts) /\ wf (squashed_all m ts).
Proof.
  induction ts as [|t ts IH]; intros m Hw; [done|]. cbn [foldl rbind squashed_all].
  destruct (squash_squashed isL t m Hw) as [-> Hw']. apply (IH _ Hw').
Qed.

Lemma squash_all_levels (R : E -> E -> Prop) todo : forall fin m, NoDup (todo ++ fin) -> (forall t u, t ∈ todo -> u ∈ todo ++ fin -> R t u) ->
  Forall (level_ok isL R todo fin) (levels m) ->
  exists fin', Forall (level_ok isL R [] fin') (levels (squashed_all m todo)) /\ (forall t, t ∈ todo -> t ∈ fin') /\ (forall t, t ∈ fin -> t ∈ fin').
Proof.
  induction todo as [|t todo IH]; intros fin m Hnd HR Hl; [exists fin; split_and!; [done|by intros ? ?%elem_of_nil|done]|].
  cbn in Hnd. apply NoDup_cons in Hnd as [Ht Hnd]. destruct (IH (t :: fin) (squashed isL t m)) as (fin' & H1 & H2 & H3).
  - rewrite <- Permutation_middle. by constructor.
  - intros t' u Ht' Hu. apply HR; [by constructor|]. rewrite <- Permutation_middle in Hu. done.
  - apply squash_level; [|done]. intros u Hu. assert (u ∈ todo ++ fin) as Hu' by (by apply elem_of_app). split.
    + apply HR; [by constructor|]. cbn. by constructor.
    + by intros ->.
  - exists fin'. split_and!; [done| |].
    + intros u [->|Hu]%elem_of_cons; [apply H3; by constructor|by apply H2].
    + intros u Hu. apply H3. by constructor.
Qed.

Lemma squash_all_reported (R : E -> E -> Prop) u todo : forall fin m, NoDup (todo ++ fin) -> (forall t v, t ∈ todo -> v ∈ todo ++ fin -> R t v) ->
  (forall t, t ∈ todo -> R t u) -> Forall (level_ok isL R todo fin) (levels m) -> reported isL u (squashed_all m todo) = reported isL u m.
Proof.
  induction todo as [|t todo IH]; intros fin m Hnd HR Hu Hl; [done|]. cbn [squashed_all foldl].
  assert (reported isL u (squashed isL t m) = reported isL u m) as <-.
  { apply reported_squashed. eapply Forall_impl; [exact Hl|]. intros l Hlo c Hc. apply (lo_apart _ _ _ _ _ Hlo); [done|]. apply Hu. by constructor. }
  cbn in Hnd. apply NoDup_cons in Hnd as [Ht Hnd]. apply (IH (t :: fin)).
  - rewrite <- Permutation_middle. by constructor.
  - intros t' v Ht' Hv. apply HR; [by constructor|]. rewrite <- Permutation_middle in Hv. done.
  - intros t' Ht'. apply Hu. by constructor.
  - apply squash_level; [|done]. intros v Hv. assert (v ∈ todo ++ fin) as Hv' by (by apply elem_of_app). split.
    + apply HR; [by constructor|]. cbn. by constructor.
    + by intros ->.
Qed.

Lemma levels_elem (m : err E) l c : l ∈ levels m -> c ∈ l -> asM c = false -> c ∈ members m.
Proof.
  intros Hl Hc Hm. apply list_elem_of_filter. split; [done|]. apply list_elem_of_In, in_concat. exists l. split; by apply list_elem_of_In.
Qed.

Lemma full_level_ok (R : E -> E -> Prop) m ts : Forall (fun l => (2 <= List.length l)%nat) (levels m) ->
  (forall c t u, c ∈ members m -> R t u -> matches isL t c = true -> matches isL u c = true -> t = u) ->
  Forall (level_ok isL R ts []) (levels m).
Proof.
  intros H2 Ha. apply Forall_forall. intros l Hl. rewrite Forall_forall in H2. constructor.
  - pose proof (H2 l Hl). split; [by intros ->; cbn in *; lia|by left].
  - intros c t u Hc HR Ht Hu. destruct (bare_other _ _ _ Ht) as [Hm Hmt], (bare_other _ _ _ Hu) as [_ Hmu].
    apply (Ha c); try done. by eapply levels_elem.
  - intros c u Hc _. destruct c as [| | | |[|x [|y es]] n]; try done.
    assert ([x] ∈ levels m) as Hx; [|specialize (H2 _ Hx); cbn in H2; lia].
    clear -Hl Hc. revert Hl. induction m as [|y|a e IH| |errs k IH] using err_tree_ind; intros Hl; try by apply elem_of_nil in Hl.
    cbn in *. apply elem_of_cons in Hl as [->|Hl]; constructor; apply list_elem_of_In, in_concat.
    + exists (levels (Multi [x] n)). split; [apply in_map; by apply list_elem_of_In|by left].
    + apply list_elem_of_In, in_concat in Hl as (ls & Hls & Hin). apply in_map_iff in Hls as (d & <- & Hd).
      exists (levels d). split; [by apply in_map|]. rewrite Forall_forall in IH. apply list_elem_of_In, IH; [by apply list_elem_of_In|by apply list_elem_of_In].
  - intros u Hu. by apply elem_of_nil in Hu.
Qed.
End squash_all.

(** Squash.  On a tree whose [*M]s all hold two errors or more (and no nil
    errors), with targets no error of the tree matches two of, Squash does not
    panic; at every level at most one error is left for each target, either
    itself or as an [*M] with the number of its repeats; no occurrence is lost:
    the tree reports as many errors for each target as there were, and as many
    for any other error that no removed one also matched; and [errors.Is]
    answers as before. *)
Theorem Squash_once_per_level {E} (isL : E -> E -> bool) (m : err E) (ts : list E) :
  wf m -> asM m = true -> Forall (fun l => (2 <= List.length l)%nat) (levels m) -> NoDup ts ->
  (forall c t u, c ∈ members m -> t ∈ ts -> u ∈ ts -> matches isL t c = true -> matches isL u c = true -> t = u) ->
  exists m', Squash isL m ts = Ok m' /\ wf m' /\
    (forall t l, t ∈ ts -> l ∈ levels m' -> count (shows isL t) l <= 1) /\
    forall u, (forall c t, c ∈ members m -> t ∈ ts -> matches isL t c = true -> matches isL u c = true -> t = u) ->
      reported isL u m' = count (matches isL u) (members m) /\ Is isL m' u = Is isL m u.
Proof.
  intros Hw Hm H2 Hnd Ha. destruct m as [| | | |errs n]; [done|done|done|by inversion Hw|].
  assert (wf (Multi errs 0)) as Hw0 by (inversion Hw; by constructor).
  destruct (squash_all_Ok isL ts (Multi errs 0) Hw0) as [E1 Hw']. exists (squashed_all isL (Multi errs 0) ts). split; [exact E1|]. split; [done|].
  assert (NoDup (ts ++ [])) as Hnd' by (by rewrite app_nil_r). split.
  - destruct (squash_all_levels isL (fun t u => t ∈ ts /\ u ∈ ts) ts [] (Multi errs 0) Hnd') as (fin & Hl & Hfin & _).
    + intros t u. by rewrite app_nil_r.
    + apply full_level_ok; [done|]. intros c t u Hc [Ht Hu]. by apply Ha.
    + intros t l Ht Hin. rewrite Forall_forall in Hl. by apply (lo_once _ _ _ _ _ (Hl l Hin)), Hfin.
  - intros u Hu. assert (reported isL u (squashed_all isL (Multi errs 0) ts) = reported isL u (Multi errs 0)) as Hr.
    { apply (squash_all_reported isL (fun t v => t ∈ ts /\ (v ∈ ts \/ v = u)) u ts [] (Multi errs 0) Hnd').
      - intros t v. rewrite app_nil_r. auto.
      - auto.
      - apply full_level_ok; [done|]. intros c t v Hc [Ht [Hv| ->]]; [by apply Ha|by apply Hu]. }
    split.
    + rewrite Hr, reported_members by done. by rewrite members_count.
    + rewrite !Is_matches by auto. f_equal. destruct (matches_reported isL u (squashed_all isL (Multi errs 0) ts)) as [_ ->].
      destruct (matches_reported isL u (Multi errs 0)) as [_ E2]. by rewrite Hr, <- E2.
Qed.

Lemma Squash_once_per_level_witness :
  let m := Multi [Leaf 1; Leaf 2; Leaf 1; Multi [Leaf 1; Leaf 3; Leaf 1] 0] 0 in
  wf m /\ exists m', Squash Z.eqb m [1; 3] = Ok m' /\ wf m' /\ (forall t l, t ∈ [1; 3] -> l ∈ levels m' -> count (shows Z.eqb t) l <= 1) /\
    forall u, (forall c t, c ∈ members m -> t ∈ [1; 3] -> matches Z.eqb t c = true -> matches Z.eqb u c = true -> t = u) ->
      reported Z.eqb u m' = count (matches Z.eqb u) (members m) /\ Is Z.eqb m' u = Is Z.eqb m u.
Proof.
  intros m. assert (wf m) as Hw by (repeat constructor; done). split; [done|].
  apply (Squash_once_per_level Z.eqb m [1; 3]); [done|done|repeat constructor| |].
  - apply NoDup_cons. split; [by intros ?%list_elem_of_singleton|apply NoDup_singleton].
  - intros c t u Hc _ _. change (members m) with [Leaf 1; Leaf 2; Leaf 1; Leaf 1; Leaf 3; Leaf 1] in Hc.
    repeat (apply elem_of_cons in Hc as [->|Hc]; [intros H1 H2; cbn [matches] in H1, H2; apply Z.eqb_eq in H1, H2; congruence|]). by apply elem_of_nil in Hc.
Defined.

(** ** The text of a tree *)

Section text.
Context {E : Type} (msg verb : E -> string) (panicked : err E -> string).

Definition value_text (f : string -> err E -> string) (e : err E) : string :=
  match e with Nil | NilM => "<nil>" | Leaf x => verb x | _ => f "  " e end.

(** One block for each error of a level, joined by newlines. *)
Definition blocks (f : string -> err E -> string) (indent : string) (l : Z) : Z -> list (err E) -> list string :=
  fix blocks i errs :=
    match errs with
    | [] => []
    | e :: errs =>
        (indent +:+ "--- " +:+ itoa i +:+ " of " +:+ itoa l +:+ " errors" +:+ NL +:+
         match e with
         | Multi es _ => (if len es <? 2 then indent else "") +:+ f (indent +:+ "  ") e
         | _ => indent +:+ f indent e
         end) :: blocks (i + 1) errs
    end.

Fixpoint text (indent : string) (e : err E) : string :=
  match e with
  | Nil | NilM => ""
  | Leaf x => msg x
  | Annotated a e => a +:+ ": " +:+ value_text text e
  | Multi errs n =>
      match errs with
      | [] => ""
      | [e] => if n <=? 1 then text "  " e else value_text text e +:+ " (repeated " +:+ itoa n +:+ " times)"
      | _ => String.concat NL (blocks text indent (len errs) 1 errs)
      end
  end.

Lemma append_assoc (s t u : string) : (s +:+ t) +:+ u = s +:+ (t +:+ u).
Proof. induction s as [|c s IH]; [done|]. exact (f_equal (String c) IH). Qed.

Lemma trimNL_app s : trimNL (s +:+ NL) = s.
Proof.
  induction s as [|c s IH]; [done|]. change (trimNL (String c s +:+ NL)) with (if String.eqb (String c (s +:+ NL)) NL then "" else String c (trimNL (s +:+ NL))). rewrite IH.
  destruct (String.eqb_spec (String c (s +:+ NL)) NL) as [Eq|]; [|done]. exfalso. unfold NL in Eq. injection Eq as _ Eq. by destruct s.
Qed.

Definition ended (l : list string) : string := foldr (fun b s => b +:+ NL +:+ s) "" l.

Lemma trimNL_ended l : l <> [] -> trimNL (ended l) = String.concat NL l.
Proof.
  intros Hne. assert (ended l = String.concat NL l +:+ NL) as ->; [|apply trimNL_app]. induction l as [|b [|b2 l] IH]; [done|..].
  - done.
  - change (ended (b :: b2 :: l)) with (b +:+ NL +:+ ended (b2 :: l)). rewrite IH by done.
    change (String.concat NL (b :: b2 :: l)) with (b +:+ NL +:+ String.concat NL (b2 :: l)). by rewrite !append_assoc.
Qed.

Lemma error_loop_blocks indent l errs : forall i, Forall wf errs ->
  Forall (fun e => forall indent, wf e -> error msg verb panicked indent e = Ok (text indent e)) errs ->
  error_loop (error msg verb panicked) indent l i errs = Ok (ended (blocks text indent l (i + 1) errs)).
Proof.
  induction errs as [|e errs IH]; intros i Hw He; [done|]. apply Forall_cons in Hw as [Hw1 Hw], He as [He1 He].
  change (error_loop (error msg verb panicked) indent l i (e :: errs)) with (
    let! s := match e with
              | Multi es _ => let! s := error msg verb panicked (indent +:+ "  ") e in Ok ((if len es <? 2 then indent else "") +:+ s)
              | NilM => Panic
              | _ => let! s := error msg verb panicked indent e in Ok (indent +:+ s)
              end in
    let! rest := error_loop (error msg verb panicked) indent l (i + 1) errs in
    Ok (indent +:+ "--- " +:+ itoa (i + 1) +:+ " of " +:+ itoa l +:+ " errors" +:+ NL +:+ s +:+ NL +:+ rest)).
  rewrite IH by done. change (ended (blocks text indent l (i + 1) (e :: errs))) with (
    (indent +:+ "--- " +:+ itoa (i + 1) +:+ " of " +:+ itoa l +:+ " errors" +:+ NL +:+
         match e with
         | Multi es _ => (if len es <? 2 then indent else "") +:+ text (indent +:+ "  ") e
         | _ => indent +:+ text indent e
         end) +:+ NL +:+ ended (blocks text indent l (i + 1 + 1) errs)).
  destruct e; try (by inversion Hw1); rewrite He1 by done; cbn [rbind]; by rewrite !append_assoc.
Qed.

Lemma vtext_value e : e = Nil \/ wf e -> (wf e -> forall indent, error msg verb panicked indent e = Ok (text indent e)) ->
  vtext verb panicked (error msg verb panicked) e = Ok (value_text text e).
Proof. intros [->|Hw] He; [done|]. destruct e; try done; unfold vtext; rewrite He by done; done. Qed.

Lemma error_text e : wf e -> forall indent, error msg verb panicked indent e = Ok (text indent e).
Proof.
  induction e as [|x|a e IH| |errs n IH] using err_tree_ind; intros Hw indent; try done; try (by inversion Hw).
  - change (error msg verb panicked indent (Annotated a e)) with (let! s := vtext verb panicked (error msg verb panicked) e in Ok (a +:+ ": " +:+ s)).
    rewrite vtext_value; [done|inversion Hw; auto|done].
  - inversion Hw as [| | |errs' n' Hne Hw']; subst. destruct errs as [|c [|c2 errs]]; [done|..].
    + apply (proj1 (Forall_singleton _ _)) in Hw'. apply (proj1 (Forall_singleton _ _)) in IH. change (error msg verb panicked indent (Multi [c] n)) with (
        if n <=? 1 then error msg verb panicked "  " c
        else let! s := vtext verb panicked (error msg verb panicked) c in Ok (s +:+ " (repeated " +:+ itoa n +:+ " times)")).
      change (text indent (Multi [c] n)) with (if n <=? 1 then text "  " c else value_text text c +:+ " (repeated " +:+ itoa n +:+ " times)").
      rewrite vtext_value, IH by auto. by destruct (n <=? 1).
    + set (l := c :: c2 :: errs) in *. change (error msg verb panicked indent (Multi l n)) with (
        let! out := error_loop (error msg verb panicked) indent (len l) 0 l in Ok (trimNL out)).
      rewrite error_loop_blocks; [|done|eapply Forall_impl; [exact IH|]; intros d Hd ind Hwd; by apply Hd].
      cbn [rbind]. by rewrite trimNL_ended.
Qed.
End text.

(** The text of a tree without nil errors: [Error] does not panic; a level of
    two errors or more prints as one numbered and indented block for each,
    joined by newlines, a single error as itself, with the number of its repeats
    when it stands for several. *)
Theorem Error_text {E} (msg verb : E -> string) (panicked : err E -> string) (e : err E) :
  wf e -> Error msg verb panicked e = Ok (text msg verb "  " e).
Proof. intros Hw. by apply error_text. Qed.

Lemma Error_text_witness :
  let e := Multi [Leaf "a"; Multi [Leaf "b"] 3] 0 in
  wf e /\ Error (fun s => s) (fun s => s) (fun _ => "") e = Ok (text (fun s => s) (fun s => s) "  " e).
Proof.
  intros e. assert (wf e) as Hw by (repeat constructor; done). split; [done|]. exact (Error_text (fun s => s) (fun s => s) (fun _ => "") e Hw).
Defined.

(** ** Where the conditions are needed *)

(** An [*M] without errors is squashed to a nil pointer: the next target, or the
    text of a tree that holds it, panics. *)
Lemma Squash_empty_panics {E} (isL : E -> E -> bool) (msg verb : E -> string) panicked t1 t2 x : isL x t1 = false -> 
  Squash isL (Multi [] 0) [t1] = Ok NilM /\ Squash isL (Multi [] 0) [t1; t2] = Panic /\
  exists m', Squash isL (Multi [Leaf x; Multi [] 0] 0) [t1] = Ok m' /\ Error msg verb panicked m' = Panic /\
    Squash isL (Multi [Leaf x; Multi [] 0] 0) [t1; t2] = Panic.
Proof.
  intros Hx. split_and!; [done|done|]. exists (Multi [Leaf x; NilM] 0). unfold Squash, M_Squash. cbn. unfold squashLevel. cbn. by rewrite Hx.
Qed.

(** An [*M] with a single error is not descended into. *)
Lemma Squash_single_not_descended :
  Squash Z.eqb (Multi [Multi [Leaf 1; Leaf 1] 0] 0) [1] = Ok (Multi [Multi [Leaf 1; Leaf 1] 0] 0).
Proof. reflexivity. Qed.

(** Targets that overlap leave two errors for one of them at a level. *)
Lemma Squash_overlapping_targets :
  let is_ (x t : Z) := (x =? t) || (x =? 3) in
  exists m', Squash is_ (Multi [Leaf 3; Leaf 2] 0) [1; 2] = Ok m' /\ count (shows is_ 2) [Leaf 3; Leaf 2] = 2 /\
    exists l, levels m' = l :: [[Leaf 3]; [Leaf 2]] /\ count (shows is_ 2) l = 2.
Proof. eexists. split; [vm_compute; reflexivity|]. split; [reflexivity|]. eexists. split; reflexivity. Qed.
