(* ===== verification/Text.v ===== *)
(** * Texts: what package strings does, over lists of runes

    A valid UTF-8 string is the list of its runes.  The functions of package
    strings that the components use, their specifications, and slices of a text
    at an index that was searched for. *)

From Stdlib Require Ascii String.
From stdpp Require Import base list option numbers gmap.
From Stdlib Require Import ZArith Lia.
From stdpp Require Import list.
From S2P Require Import Prelude Strconv.

Open Scope Z_scope.
Open Scope go_scope.

Abbreviation rune := Z.
Abbreviation str := (list Z).

(** A literal. *)
Definition Str (s : String.string) : str :=
  map (fun a => Z.of_N (Ascii.N_of_ascii a)) (String.list_ascii_of_string s).
Arguments Str s%_string_scope.

(** [len(s) >= len(pre) && s[:len(pre)] == pre], also [strings.HasPrefix]. *)
Fixpoint prefixed (pre s : str) : bool :=
  match pre, s with
  | [], _ => true
  | _ :: _, [] => false
  | x :: pre, y :: s => (x =? y) && prefixed pre s
  end.

Fixpoint index_from (i : Z) (s sub : str) : Z :=
  if prefixed sub s then i else match s with [] => -1 | _ :: s => index_from (i + 1) s sub end.

(** [strings.Index]. *)
Definition Index (s sub : str) : Z := index_from 0 s sub.

Fixpoint last_index_from (i : Z) (s : str) (c : rune) (found : Z) : Z :=
  match s with [] => found | r :: s => last_index_from (i + 1) s c (if r =? c then i else found) end.

(** [strings.LastIndexByte]. *)
Definition LastIndexByte (s : str) (c : rune) : Z := last_index_from 0 s c (-1).

Definition strings_TrimPrefix (s pre : str) : str := if prefixed pre s then drop (length pre) s else s.

(** [strings.TrimSuffix] of one rune. *)
Definition strings_TrimSuffix (s : str) (c : rune) : str := if bool_decide (last s = Some c) then removelast s else s.

(** [strings.Split] at one rune. *)
Fixpoint split_on (c : rune) (piece s : str) : list str :=
  match s with
  | [] => [piece]
  | r :: s => if r =? c then piece :: split_on c [] s else split_on c (piece ++ [r]) s
  end.
Definition strings_Split (s : str) (c : rune) : list str := split_on c [] s.

(** [strings.Join]. *)
Fixpoint strings_Join (elems : list str) (sep : str) : str :=
  match elems with
  | [] => []
  | [c] => c
  | c :: elems => c ++ sep ++ strings_Join elems sep
  end.

(** The white space of Unicode. *)
Definition IsSpace (r : rune) : bool :=
  (9 <=? r) && (r <=? 13) || (r =? 32) || (r =? 133) || (r =? 160) || (r =? 5760) ||
  (8192 <=? r) && (r <=? 8202) || (r =? 8232) || (r =? 8233) || (r =? 8239) || (r =? 8287) || (r =? 12288).

Fixpoint trim_left (s : str) : str :=
  match s with r :: s' => if IsSpace r then trim_left s' else s | [] => [] end.

(** [strings.TrimSpace], also [TrimFunc] with [unicode.IsSpace]. *)
Definition strings_TrimSpace (s : str) : str := rev (trim_left (rev (trim_left s))).

(** [strings.Cut] at one rune. *)
Fixpoint strings_Cut (s : str) (c : rune) : option (str * str) :=
  match s with
  | [] => None
  | r :: s =>
      if r =? c then Some ([], s)
      else match strings_Cut s c with Some (a, b) => Some (r :: a, b) | None => None end
  end.

(** [len(s) == 0] *)
Definition is_empty (s : str) : bool := match s with [] => true | _ :: _ => false end.

Definition ends_with (sep : rune) (path : str) : bool := bool_decide (last path = Some sep).

(** ** Emptiness and lengths *)

Lemma is_empty_spec (c : str) : is_empty c = bool_decide (c = []).
Proof. by destruct c. Qed.

Lemma len_zero {A} (l : list A) : (len l =? 0) = bool_decide (l = []).
Proof. destruct l; [done|]. rewrite len_cons, bool_decide_false by done. pose proof (len_nonneg l). lia. Qed.

Lemma len_pos {A} (l : list A) : (0 <? len l) = bool_decide (l <> []).
Proof. destruct l; [done|]. rewrite len_cons, bool_decide_true by done. pose proof (len_nonneg l). lia. Qed.

Lemma removelast_snoc {A} (l : list A) x : removelast (l ++ [x]) = l.
Proof. apply removelast_last. Qed.

(** ** Joining *)

Lemma strings_Join_cons c p s : p <> [] -> strings_Join (c :: p) s = c ++ s ++ strings_Join p s.
Proof. by destruct p. Qed.

Lemma strings_Join_app p q s : p <> [] -> q <> [] -> strings_Join (p ++ q) s = strings_Join p s ++ s ++ strings_Join q s.
Proof.
  intros Hp Hq. induction p as [|c p IH]; [done|]. destruct p as [|d p]; [by cbn [app]; rewrite strings_Join_cons|].
  rewrite <- app_comm_cons, !strings_Join_cons by done. rewrite IH by done. by rewrite <- !app_assoc.
Qed.

(** ** Searching *)

Lemma prefixed_iff pre s : prefixed pre s = true <-> pre `prefix_of` s.
Proof.
  revert s. induction pre as [|x pre IH]; intros s; cbn; [split; [intros; apply prefix_nil|done]|]. destruct s as [|y s].
  - split; [done|]. by intros ?%prefix_nil_inv.
  - rewrite andb_true_iff, Z.eqb_eq, IH. split; [intros [-> ?]; by apply prefix_cons|].
    intros H. split; [by apply prefix_cons_inv_1 in H|by apply prefix_cons_inv_2 in H].
Qed.

Lemma prefixed_app pre s : prefixed pre (pre ++ s) = true.
Proof. apply prefixed_iff. by apply prefix_app_r. Qed.

Lemma prefixed_len pre s : prefixed pre s = true -> len pre <= len s.
Proof. intros H%prefixed_iff%prefix_length. unfold len. lia. Qed.

Lemma prefixed_drop (pre s : str) : prefixed pre s = true -> exists r, s = pre ++ r.
Proof. intros H%prefixed_iff. exact H. Qed.

(** The first occurrence, or none. *)
Lemma index_from_spec i s sub :
  (index_from i s sub = -1 /\ forall j, prefixed sub (drop j s) = false) \/
  exists j, index_from i s sub = i + Z.of_nat j /\ (j <= length s)%nat /\ prefixed sub (drop j s) = true /\
    forall k, (k < j)%nat -> prefixed sub (drop k s) = false.
Proof.
  revert i. induction s as [|r s IH]; intros i; cbn [index_from].
  - destruct (prefixed sub []) eqn:E; [right; exists 0%nat|left].
    + split_and!; [lia|done|done|lia].
    + split; [done|]. intros j. by rewrite drop_nil.
  - destruct (prefixed sub (r :: s)) eqn:E; [right; exists 0%nat; split_and!; [lia|lia|done|lia]|].
    destruct (IH (i + 1)) as [[E1 H]|(j & E1 & Hj & E2 & H)]; [left|right].
    + split; [done|]. intros [|j]; [done|apply H].
    + exists (S j). split_and!; [lia|cbn; lia|done|]. intros [|k] Hk; [done|]. apply H. lia.
Qed.

Lemma Index_spec s sub :
  (Index s sub = -1 /\ forall j, prefixed sub (drop j s) = false) \/
  exists j, Index s sub = Z.of_nat j /\ (j <= length s)%nat /\ prefixed sub (drop j s) = true /\
    forall k, (k < j)%nat -> prefixed sub (drop k s) = false.
Proof. unfold Index. destruct (index_from_spec 0 s sub) as [?|(j & E & H)]; [by left|right]. exists j. by rewrite E. Qed.

Lemma Index_at s sub j : prefixed sub (drop j s) = true -> (forall k, (k < j)%nat -> prefixed sub (drop k s) = false) ->
  (j <= length s)%nat -> Index s sub = Z.of_nat j.
Proof.
  intros H Hk Hj. destruct (Index_spec s sub) as [[_ Hn]|(i & -> & _ & E & Hi)]; [by rewrite Hn in H|]. f_equal.
  destruct (Nat.lt_trichotomy i j) as [Hl|[->|Hl]]; [by rewrite Hk in E|done|by rewrite Hi in H].
Qed.

Lemma Index_bounds s sub : 0 <= Index s sub -> Index s sub + len sub <= len s.
Proof.
  intros H. destruct (Index_spec s sub) as [[E _]|(j & E & Hj & Hp & _)]; [lia|]. apply prefixed_len in Hp.
  unfold len in *. rewrite length_drop in Hp. lia.
Qed.

Lemma prefixed_one c s : prefixed [c] s = bool_decide (hd_error s = Some c).
Proof.
  destruct s as [|r s]; [done|]. cbn. rewrite andb_true_r. case_bool_decide as E; [injection E as ->; apply Z.eqb_refl|].
  apply Z.eqb_neq. congruence.
Qed.

Lemma Index_rune b c k : c ∉ b -> Index (b ++ c :: k) [c] = len b.
Proof.
  intros Hc. apply Index_at.
  - rewrite drop_app_length. apply (prefixed_app [c] k).
  - intros i Hi. rewrite prefixed_one. apply bool_decide_false. rewrite drop_app_le by lia. intros E.
    destruct (drop i b) as [|r d] eqn:Ed; [apply (f_equal length) in Ed; rewrite length_drop in Ed; cbn in Ed; lia|].
    cbn in E. injection E as ->. apply Hc.
    rewrite <- (take_drop i b), Ed. apply elem_of_app. right. by left.
  - rewrite length_app. lia.
Qed.

Lemma zslice_0 {A} (l : list A) i : (i <= length l)%nat -> zslice l 0 (Z.of_nat i) = Ok (take i l).
Proof. intros Hi. rewrite zslice_Ok by (unfold len; lia). rewrite Z.sub_0_r, Nat2Z.id. done. Qed.

Lemma zslice_end {A} (l : list A) i : (i <= length l)%nat -> zslice l (Z.of_nat i) (len l) = Ok (drop i l).
Proof. intros Hi. rewrite zslice_Ok by (unfold len; lia). rewrite Nat2Z.id, take_ge; [done|]. rewrite length_drop. unfold len. lia. Qed.

(** A text and what follows it. *)
Lemma zslice_after {A} (pre l : list A) : zslice (pre ++ l) (len pre) (len (pre ++ l)) = Ok l.
Proof. unfold len at 1. rewrite zslice_end by (rewrite length_app; lia). by rewrite drop_app_length. Qed.

Lemma zslice_before {A} (pre l : list A) : zslice (pre ++ l) 0 (len pre) = Ok pre.
Proof. unfold len. rewrite zslice_0 by (rewrite length_app; lia). by rewrite take_app_length. Qed.

Lemma split_on_cons c piece s : exists x l, split_on c piece s = x :: l.
Proof. revert piece. induction s as [|r s IH]; intros piece; cbn; [by eexists _, _|]. destruct (r =? c); [by eexists _, _|apply IH]. Qed.

Lemma last_index_from_spec i s c found :
  (last_index_from i s c found = found /\ (c ∉ s)) \/
  exists a b, s = a ++ c :: b /\ (c ∉ b) /\ last_index_from i s c found = i + len a.
Proof.
  revert i found. induction s as [|r s IH]; intros i found; [left; split; [done|apply not_elem_of_nil]|]. cbn [last_index_from].
  destruct (IH (i + 1) (if r =? c then i else found)) as [[-> Hc]|(a & b & -> & Hb & ->)].
  - destruct (Z.eqb_spec r c) as [->|Hr]; [right; exists [], s|left]; [split_and!; [done|done|rewrite len_nil; lia]|].
    split; [done|]. by apply not_elem_of_cons.
  - right. exists (r :: a), b. split_and!; [done|done|rewrite len_cons; lia].
Qed.

Lemma LastIndexByte_app a c b : c ∉ b -> LastIndexByte (a ++ c :: b) c = len a.
Proof.
  intros Hb. unfold LastIndexByte. destruct (last_index_from_spec 0 (a ++ c :: b) c (-1)) as [[_ H]|(a' & b' & E & Hb' & ->)].
  - destruct H. apply elem_of_app. right. by left.
  - cut (a = a'); [intros ->; lia|]. revert a' E. induction a as [|x a IH]; intros [|y a'] E; cbn in E.
    + done.
    + injection E as <- ->. destruct Hb. apply elem_of_app. right. by left.
    + injection E as -> <-. destruct Hb'. apply elem_of_app. right. by left.
    + injection E as -> E. f_equal. by apply IH.
Qed.


(** ** Splitting and counting at one rune *)

(** [strings.Count] of one rune. *)
Definition Count (s : str) (c : rune) : Z := len (filter (fun r => r = c) s).

Lemma Count_app s t c : Count (s ++ t) c = Count s c + Count t c.
Proof. unfold Count. by rewrite filter_app, len_app. Qed.

Lemma Count_notin s c : c ∉ s -> Count s c = 0.
Proof.
  intros Hc. unfold Count. induction s as [|r s IH]; [done|]. apply not_elem_of_cons in Hc as [Hr Hs]. rewrite filter_cons, decide_False by congruence. by apply IH.
Qed.

Lemma Count_cons s c : Count (c :: s) c = 1 + Count s c.
Proof. unfold Count. rewrite filter_cons, decide_True, len_cons by done. lia. Qed.

Lemma Count_nonneg s c : 0 <= Count s c.
Proof. apply len_nonneg. Qed.

(** The first occurrence of a rune. *)
Lemma first_occurrence (s : str) c : c ∉ s \/ exists a b, s = a ++ c :: b /\ (c ∉ a).
Proof.
  destruct (decide (c ∈ s)) as [Hc|]; [right|by left]. apply list_elem_of_split_l in Hc as (a & b & -> & Ha). by exists a, b.
Qed.

Lemma Index_rune_none s c : c ∉ s -> Index s [c] = -1.
Proof.
  intros Hc. destruct (Index_spec s [c]) as [[E _]|(j & _ & _ & Hp & _)]; [done|]. exfalso. apply prefixed_drop in Hp as [r Hr].
  apply Hc. rewrite <- (take_drop j s), Hr. apply elem_of_app. right. by left.
Qed.

Lemma split_on_app c piece a b : c ∉ a -> split_on c piece (a ++ c :: b) = (piece ++ a) :: split_on c [] b.
Proof.
  revert piece. induction a as [|r a IH]; intros piece Ha; cbn; [by rewrite Z.eqb_refl, app_nil_r|]. apply not_elem_of_cons in Ha as [Hr Ha].
  rewrite (proj2 (Z.eqb_neq r c)) by congruence. rewrite IH by done. by rewrite <- app_assoc.
Qed.

Lemma split_on_none c piece a : c ∉ a -> split_on c piece a = [piece ++ a].
Proof.
  revert piece. induction a as [|r a IH]; intros piece Ha; cbn; [by rewrite app_nil_r|]. apply not_elem_of_cons in Ha as [Hr Ha].
  rewrite (proj2 (Z.eqb_neq r c)) by congruence. rewrite IH by done. by rewrite <- app_assoc.
Qed.

(** Splitting undoes joining. *)
Lemma strings_Split_Join l c : l <> [] -> Forall (fun p => c ∉ p) l -> strings_Split (strings_Join l [c]) c = l.
Proof.
  intros Hl Hf. unfold strings_Split. induction Hf as [|p l Hp _ IH]; [done|]. destruct l as [|q l]; [by rewrite split_on_none|].
  rewrite strings_Join_cons by done. cbn [app]. rewrite split_on_app by done. by rewrite IH.
Qed.

(** And joining splitting. *)
Lemma strings_Join_Split s c : strings_Join (strings_Split s c) [c] = s.
Proof.
  unfold strings_Split. cut (forall piece, strings_Join (split_on c piece s) [c] = piece ++ s); [intros H; apply (H [])|].
  induction s as [|r s IH]; intros piece; cbn; [by rewrite app_nil_r|]. destruct (Z.eqb_spec r c) as [->|].
  - destruct (split_on_cons c [] s) as (x & l & E). specialize (IH []). rewrite E in *. cbn [app] in *. rewrite <- IH. by destruct l.
  - rewrite IH. by rewrite <- app_assoc.
Qed.

Lemma strings_Split_free s c : Forall (fun p => c ∉ p) (strings_Split s c).
Proof.
  unfold strings_Split. cut (forall piece, c ∉ piece -> Forall (fun p => c ∉ p) (split_on c piece s)); [intros H; apply H, not_elem_of_nil|].
  induction s as [|r s IH]; intros piece Hp; cbn; [by repeat constructor|]. destruct (Z.eqb_spec r c) as [->|].
  - constructor; [done|]. apply IH, not_elem_of_nil.
  - apply IH. rewrite elem_of_app, list_elem_of_singleton. intros [?|?]; [done|congruence].
Qed.

(** ** Numbers

    A text of runes is a number if all of them are ASCII. *)

(** [strconv.Atoi], [strconv.ParseUint] of a given width, in base 10, and [strconv.Itoa]. *)
Definition text_of (s : str) : String.string := String.string_of_list_ascii (map (fun r => Ascii.ascii_of_N (Z.to_N r)) s).
Definition is_ascii (s : str) : bool := forallb (fun r => (0 <=? r) && (r <? 128)) s.
Definition Atoi (s : str) : option Z := if is_ascii s then match ParseInt (text_of s) 10 with inl v => Some v | inr _ => None end else None.
Definition parse_uint (bits : Z) (s : str) : option Z :=
  if is_ascii s then match ParseUint (text_of s) 10 with inl v => if v <? 2 ^ bits then Some v else None | inr _ => None end else None.
Definition Itoa (z : Z) : str := Str (FormatInt z 10).


(** [%0wd] of a number that is not negative. *)
Definition pad (w : nat) (n : Z) : str := replicate (w - length (Itoa n)) 48 ++ Itoa n.

Definition digit_rune (r : rune) : Prop := 48 <= r <= 57.

Lemma Str_app (s t : String.string) : Str (String.append s t) = Str s ++ Str t.
Proof. induction s as [|a s IH]; [done|]. unfold Str in *. cbn. apply (f_equal2 cons); [done|exact IH]. Qed.

Lemma digits_runes fuel v : 0 <= v -> Forall digit_rune (Str (digits fuel 10 v)).
Proof.
  assert (forall d, 0 <= d < 10 -> Forall digit_rune (Str (String.String (digit d) String.EmptyString))) as Hd.
  { intros d Hd. unfold Str, digit, digit_rune. cbn. rewrite (proj2 (Z.ltb_lt d 10)) by lia. constructor; [|done].
    rewrite Ascii.N_ascii_embedding by lia. lia. }
  revert v. induction fuel as [|fuel IH]; intros v Hv; [by constructor|]. cbn [digits]. destruct (Z.ltb_spec v 10); [apply Hd; lia|].
  rewrite Str_app. apply Forall_app. split; [apply IH; div_lia|apply Hd; div_lia].
Qed.

Lemma Str_nonempty s : s <> String.EmptyString -> Str s <> [].
Proof. by destruct s. Qed.

Lemma Itoa_digits z : 0 <= z -> Forall digit_rune (Itoa z) /\ Itoa z <> [].
Proof.
  intros Hz. unfold Itoa, FormatInt. rewrite (proj2 (Z.ltb_ge z 0)) by lia. split; [by apply digits_runes|].
  apply Str_nonempty, digits_nonempty.
Qed.

Lemma digits_not_in c l : Forall digit_rune l -> c < 48 \/ 57 < c -> c ∉ l.
Proof. intros Hl Hc Hin. rewrite Forall_forall in Hl. specialize (Hl _ Hin). unfold digit_rune in Hl. lia. Qed.

Lemma text_of_Str s : text_of (Str s) = s.
Proof.
  unfold text_of, Str. rewrite map_map. induction s as [|a s IH]; [done|]. cbn. rewrite N2Z.id, Ascii.ascii_N_embedding. cbn in IH. by rewrite IH.
Qed.

Lemma Atoi_Itoa z : 0 <= z < 2 ^ 63 -> Atoi (Itoa z) = Some z.
Proof.
  intros Hz. destruct (Itoa_digits z) as [Hd _]; [lia|]. unfold Atoi.
  assert (is_ascii (Itoa z) = true) as ->.
  { unfold is_ascii. clear -Hd. induction Hd as [|r l Hr _ IH]; [done|]. cbn. rewrite IH. unfold digit_rune in Hr.
    by rewrite (proj2 (Z.leb_le 0 r)), (proj2 (Z.ltb_lt r 128)) by lia. }
  unfold Itoa. rewrite text_of_Str, ParseInt_FormatInt; [done|lia|unfold int64_ok; lia].
Qed.


Lemma is_ascii_digits s : Forall digit_rune s -> is_ascii s = true.
Proof.
  induction 1 as [|r l Hr _ IH]; [done|]. unfold is_ascii in *. cbn. rewrite IH. unfold digit_rune in Hr.
  by rewrite (proj2 (Z.leb_le 0 r)), (proj2 (Z.ltb_lt r 128)) by lia.
Qed.

Lemma pad_digits w n : 0 <= n -> Forall digit_rune (pad w n) /\ pad w n <> [].
Proof.
  intros Hn. destruct (Itoa_digits n Hn) as [Hd Hne]. unfold pad. split.
  - apply Forall_app. split; [|done]. apply Forall_replicate. unfold digit_rune. lia.
  - intros [_ E]%app_eq_nil. done.
Qed.

Lemma text_of_app s t : text_of (s ++ t) = String.append (text_of s) (text_of t).
Proof. unfold text_of. rewrite map_app. induction s as [|x s IH]; [done|]. cbn in *. by rewrite IH. Qed.

(** Leading zeros do not matter. *)
Lemma parse_digits_zeros k s : parse_digits 10 0 (String.append (text_of (replicate k 48)) s) = parse_digits 10 0 s.
Proof. induction k as [|k IH]; [done|]. exact IH. Qed.

Lemma ParseUint_pad w n : 0 <= n < 2 ^ 64 -> ParseUint (text_of (pad w n)) 10 = inl n.
Proof.
  intros Hn. unfold pad. rewrite text_of_app. pose proof (ParseUint_FormatUint 10 n ltac:(lia) Hn) as E.
  unfold Itoa, FormatInt. rewrite (proj2 (Z.ltb_ge n 0)) by lia. rewrite text_of_Str.
  assert (forall s, s <> String.EmptyString -> ParseUint s 10 = parse_digits 10 0 s) as Hp by (by intros [|]).
  assert (FormatUint n 10 <> String.EmptyString) as Hne by apply digits_nonempty.
  rewrite Hp in E by done. rewrite Hp, parse_digits_zeros; [done|].
  destruct (replicate _ _); [done|by cbn].
Qed.

Lemma parse_uint_pad bits w n : 0 <= n < 2 ^ 64 -> n < 2 ^ bits -> parse_uint bits (pad w n) = Some n.
Proof.
  intros Hn Hb. unfold parse_uint. rewrite is_ascii_digits by (apply pad_digits; lia). rewrite ParseUint_pad by done.
  by rewrite (proj2 (Z.ltb_lt _ _)).
Qed.

Lemma parse_uint_range bits s n : parse_uint bits s = Some n -> n < 2 ^ bits.
Proof. unfold parse_uint. case_match; [|done]. case_match; [|done]. case_match eqn:E; [|done]. intros [= <-]. lia. Qed.

Lemma Atoi_pad w n : 0 <= n < 2 ^ 63 -> Atoi (pad w n) = Some n.
Proof.
  intros Hn. unfold Atoi. destruct (pad_digits w n) as [Hd Hne]; [lia|]. rewrite is_ascii_digits by done. rewrite ParseInt_unsigned.
  - rewrite ParseUint_pad by lia. by rewrite (proj2 (Z.leb_gt _ _)) by lia.
  - intros c r E. destruct (pad w n) as [|x l]; [done|]. inversion Hd as [|? ? Hx _]; subst. cbn in E. injection E as <- _.
    unfold digit_rune in Hx. split; intros E; apply (f_equal Ascii.N_of_ascii) in E; rewrite Ascii.N_ascii_embedding in E by lia; cbn in E; lia.
Qed.

Lemma digit_value_nonneg c d : digit_value 10 c = Some d -> 0 <= d.
Proof. unfold digit_value. intros E. repeat case_match; try done; injection E as <-; bool_to_prop; lia. Qed.

Lemma parse_digits_nonneg acc s n : 0 <= acc -> parse_digits 10 acc s = inl n -> 0 <= n.
Proof.
  revert acc. induction s as [|c s IH]; intros acc Ha; cbn [parse_digits]; [by intros [= <-]|]. case_match eqn:E; [|done].
  apply digit_value_nonneg in E. case_match; [done|]. apply IH. lia.
Qed.

Lemma parse_uint_bounds bits s n : parse_uint bits s = Some n -> 0 <= n < 2 ^ bits.
Proof.
  intros E. split; [|by eapply parse_uint_range]. unfold parse_uint in E. case_match; [|done]. destruct (ParseUint _ _) as [v|] eqn:Ep; [|done].
  case_match; [|done]. injection E as <-. unfold ParseUint in Ep. case_match; [done|]. by eapply parse_digits_nonneg in Ep.
Qed.

(** ** Cutting and trimming *)

Lemma strings_Cut_at a b c : c ∉ a -> strings_Cut (a ++ c :: b) c = Some (a, b).
Proof.
  induction a as [|r a IH]; cbn; [by rewrite Z.eqb_refl|]. intros [Hr Ha]%not_elem_of_cons. rewrite (proj2 (Z.eqb_neq r c)) by done. by rewrite IH.
Qed.

Lemma strings_Cut_none s c : c ∉ s -> strings_Cut s c = None.
Proof. induction s as [|r s IH]; cbn; [done|]. intros [Hr Hs]%not_elem_of_cons. rewrite (proj2 (Z.eqb_neq r c)) by done. by rewrite IH. Qed.

Lemma strings_Cut_Some s c a b : strings_Cut s c = Some (a, b) -> s = a ++ c :: b /\ (c ∉ a).
Proof.
  revert a. induction s as [|r s IH]; intros a; cbn; [done|]. destruct (Z.eqb_spec r c) as [->|Hr]; [intros [= <- <-]; split; [done|apply not_elem_of_nil]|].
  destruct (strings_Cut s c) as [[a' b']|]; [|done]. intros [= <- <-]. destruct (IH a' eq_refl) as [-> Hn]. split; [done|]. apply not_elem_of_cons. by split.
Qed.

Lemma trim_left_keep r s : IsSpace r = false -> trim_left (r :: s) = r :: s.
Proof. intros H. cbn. by rewrite H. Qed.

(** ** The order of strings *)

(** The order of strings: UTF-8 keeps that of runes. *)
Fixpoint str_ltb (s t : str) : bool :=
  match s, t with
  | _, [] => false
  | [], _ :: _ => true
  | x :: s, y :: t => (x <? y) || (x =? y) && str_ltb s t
  end.

Lemma str_ltb_irrefl s : str_ltb s s = false.
Proof. induction s as [|x s IH]; [done|]. cbn. by rewrite Z.ltb_irrefl, IH, andb_false_r. Qed.

Lemma str_ltb_trans s t u : str_ltb s t = true -> str_ltb t u = true -> str_ltb s u = true.
Proof.
  revert t u. induction s as [|x s IH]; intros [|y t] [|z u] H1 H2; cbn in *; try done.
  apply orb_true_iff in H1, H2. apply orb_true_iff. destruct H1 as [H1|H1], H2 as [H2|H2]; bool_to_prop; try (left; lia).
  right. apply andb_true_iff. split; [lia|by eapply IH].
Qed.

Lemma str_ltb_total s t : str_ltb s t = false -> str_ltb t s = false -> s = t.
Proof.
  revert t. induction s as [|x s IH]; intros [|y t] H1 H2; cbn in *; try done. apply orb_false_iff in H1 as [H1 H3], H2 as [H2 H4].
  apply Z.ltb_ge in H1, H2. assert (x = y) as -> by lia. rewrite Z.eqb_refl in *. by rewrite (IH t).
Qed.

Lemma str_ltb_asym s t : str_ltb s t = true -> str_ltb t s = false.
Proof. intros H. destruct (str_ltb t s) eqn:E; [|done]. pose proof (str_ltb_trans _ _ _ H E) as E'. by rewrite str_ltb_irrefl in E'. Qed.

Lemma str_ltb_negtrans s t u : str_ltb t s = false -> str_ltb u t = false -> str_ltb u s = false.
Proof.
  intros H1 H2. destruct (str_ltb u s) eqn:E; [|done]. destruct (str_ltb s t) eqn:E1.
  - by rewrite (str_ltb_trans _ _ _ E E1) in H2.
  - rewrite (str_ltb_total _ _ E1 H1) in E. congruence.
Qed.
