(* ===== verification/Cloudpath.v ===== *)
(** * Paths as lists of components (path/cloudpath/cloudpath.go)

    [T] and all its operations, over strings that are lists of runes: [range]
    over a valid UTF-8 string yields them, and the code looks into a string only
    for separators.  [Split] and [Join] convert; a path is [canonical] when it
    has the shape that the documentation of [T] gives the results of [Split],
    and then [Join] is the plain join of its components, so that comparisons of
    components become comparisons of texts. *)

From stdpp Require Import base list option numbers gmap.
From Stdlib Require Import ZArith Lia.
From stdpp Require Import list.
From S2P Require Import Prelude Text.

Open Scope Z_scope.
Open Scope go_scope.

(** The path of the package: its components. *)
Abbreviation T := (list (list Z)).

(** [utf8.RuneError]. *)
Definition RuneError : rune := 65533.

(** The first rune, as [utf8.DecodeRuneInString] returns it. *)
Definition first_rune (s : str) : rune := match s with [] => RuneError | r :: _ => r end.

(** ** Split and Join *)

Definition split_step (separator : rune) (st : T * str * bool) (r : rune) : T * str * bool :=
  let '(slice, component, sep) := st in
  if r =? separator then
    if negb sep && (0 <? len component) then (slice ++ [component], [], true) else (slice, component, true)
  else (slice, component ++ [r], false).

Definition Split (path : str) (separator : rune) : T :=
  let slice := if first_rune path =? separator then [[]] else [] in
  let '(slice, component, sep) := foldl (split_step separator) (slice, [], false) path in
  let slice := if 0 <? len component then slice ++ [component] else slice in
  if sep : bool then slice ++ [[]] else slice.

Definition Join (path : T) (separator : rune) : str :=
  match path with
  | [] => []
  | [c] => c
  | c :: rest =>
      let leading := is_empty c in
      let '(path, result) := if leading then (rest, [separator]) else (path, []) in
      let trailing := is_empty (default [] (last path)) in
      let path := if trailing then removelast path else path in
      if 0 <? len path then
        result ++ strings_Join path [separator] ++ (if trailing then [separator] else [])
      else result
  end.

Definition slash : rune := 47.
Definition String_ (path : T) : str := Join path slash.

(** ** Editing *)

Definition IsAbsolute (path : T) : bool :=
  match path with [] => false | c :: _ => is_empty c end.

(** Whether the last component exists and is empty: [len(path[l-1]) == 0]. *)
Definition last_empty (path : T) : bool :=
  match last path with Some c => is_empty c | None => false end.

Definition IsFilepath (path : T) : bool := (0 <? len path) && negb (last_empty path).

Definition IsRoot (path : T) : bool :=
  match path with [a; b] => is_empty a && is_empty b | _ => false end.

(** [cpy := path.clone(); cpy[l-1] = c] *)
Definition set_last (path : T) (c : str) : T := removelast path ++ [c].

Definition Prefix (path : T) : T :=
  if (len path =? 0) || last_empty path then path
  else if 0 <? len (removelast path) then set_last path [] else [].

Definition Base (path : T) : str :=
  if (len path =? 0) || last_empty path then [] else default [] (last path).

Definition AsPrefix (path : T) : T :=
  if (len path =? 0) || last_empty path then path else path ++ [[]].

Definition AsFilepath (path : T) : T :=
  if IsRoot path then path
  else match path with
       | [] => []
       | _ => if negb (last_empty path) then path else removelast path
       end.

Definition Pop (path : T) : T * str :=
  if IsRoot path then ([[]; []], [])
  else match path with
       | [] => ([], [])
       | [c] => ([], c)
       | _ =>
           if (len path =? 2) && last_empty path then ([], hd [] path)
           else if last_empty path then (set_last (removelast path) [], default [] (last (removelast path)))
           else (set_last path [], default [] (last path))
       end.

Definition Push (path : T) (p : str) : T :=
  if len p =? 0 then AsFilepath path
  else if len path =? 0 then [p]
  else if last_empty path then set_last path p
  else path ++ [p].

(** ** Prefixes and suffixes *)

Definition trimPrefixPath (path : T) : bool * T :=
  if (1 <? len path) && last_empty path then (true, removelast path) else (false, path).

(** [for i, c := range prefix { if c != path[i] ... }] *)
Fixpoint prefix_loop (path : T) (i : Z) (prefix : T) : res bool :=
  match prefix with
  | [] => Ok true
  | c :: prefix =>
      let! p := checked (zget path i) in
      if bool_decide (c = p) then prefix_loop path (i + 1) prefix else Ok false
  end.

Definition hasPrefix (path prefix : T) : res bool :=
  if (len path =? 0) && (len prefix =? 0) then Ok true
  else if len prefix =? 0 then Ok true
  else if len path =? 0 then Ok false
  else prefix_loop path 0 prefix.

Definition HasPrefix (path prefix : T) : res bool :=
  let '(isPrefixPath, trimmed) := trimPrefixPath prefix in
  if isPrefixPath && (len path =? len trimmed) then Ok false else hasPrefix path trimmed.

Definition TrimPrefix (path prefix : T) : res T :=
  if len prefix =? 0 then Ok path
  else
    let '(isPrefixPath, trimmed) := trimPrefixPath prefix in
    let! unrelated := (if isPrefixPath && (len path =? len trimmed) then Ok true
                       else let! b := hasPrefix path trimmed in Ok (negb b)) in
    if unrelated then Ok path
    else if isPrefixPath then zslice path (len trimmed) (len path)
    else let! p := zslice path (len prefix) (len path) in
         if 0 <? len p then Ok ([] :: p) else Ok [].

(** [for i := len(suffix) - 1; i >= 0; i--], with [j] running down in [path];
    the suffix comes reversed. *)
Fixpoint suffix_loop (path : T) (j : Z) (suffix : T) : res bool :=
  match suffix with
  | [] => Ok true
  | c :: suffix =>
      let! p := checked (zget path j) in
      if bool_decide (c = p) then suffix_loop path (j - 1) suffix else Ok false
  end.

Definition HasSuffix (path suffix : T) : res bool :=
  if (len path =? 0) && (len suffix =? 0) then Ok true
  else if len suffix =? 0 then Ok true
  else if len path =? 0 then Ok false
  else suffix_loop path (len path - 1) (reverse suffix).

Definition TrimSuffix (path suffix : T) : res T :=
  let! b := HasSuffix path suffix in
  if negb b then Ok path
  else
    let! p := zslice path 0 (len path - len suffix) in
    match p with
    | [] => Ok []
    | [c] =>
        let! first := checked (zget path 0) in
        if is_empty c && is_empty first then Ok [[]; []] else Ok p
    | _ => Ok p
    end.

(** ** Longest common prefixes and suffixes *)

(** The loop over the other paths: [(matched, remaining)]. *)
Fixpoint leading_loop (val : str) (offset : Z) (paths : list T) : bool * bool :=
  match paths with
  | [] => (true, false)
  | path :: paths =>
      match zget path offset with
      | None => (false, false)
      | Some c => if negb (bool_decide (val = c)) then (false, true) else leading_loop val offset paths
      end
  end.

Definition sameAtLeadingOffset (first : T) (rest : list T) (offset : Z) : res (bool * bool) :=
  let! val := checked (zget first offset) in Ok (leading_loop val offset rest).

Fixpoint lcp_loop (fuel : nat) (first : T) (rest : list T) (prefix : T) (offset : Z) : res T :=
  match fuel with
  | O => NoFuel
  | S fuel =>
      let! (matched, remaining) := sameAtLeadingOffset first rest offset in
      if negb matched then
        Ok (if remaining && (0 <? len prefix) then prefix ++ [[]] else prefix)
      else
        let! c := checked (zget first offset) in
        lcp_loop fuel first rest (prefix ++ [c]) (offset + 1)
  end.

Definition LongestCommonPrefix (paths : list T) : res T :=
  match paths with
  | [] => Ok []
  | [p] => Ok p
  | first :: rest => if len first =? 0 then Ok [] else lcp_loop (S (length first)) first rest [] 0
  end.

Fixpoint reverse_loop (val : str) (offset : Z) (paths : list T) : res bool :=
  match paths with
  | [] => Ok true
  | path :: paths =>
      if len path <? offset then Ok false
      else
        let! c := checked (zget path (len path - offset)) in
        if negb (bool_decide (val = c)) then Ok false else reverse_loop val offset paths
  end.

Definition sameAtReverseOffset (first : T) (rest : list T) (offset : Z) : res bool :=
  if len first <? offset then Ok false
  else let! val := checked (zget first (len first - offset)) in reverse_loop val offset rest.

Fixpoint lcs_loop (fuel : nat) (first : T) (rest : list T) (suffix : T) (offset : Z) : res T :=
  match fuel with
  | O => NoFuel
  | S fuel =>
      let! same := sameAtReverseOffset first rest offset in
      if same then
        let! c := checked (zget first (len first - offset)) in
        lcs_loop fuel first rest (c :: suffix) (offset + 1)
      else Ok suffix
  end.

Definition LongestCommonSuffix (paths : list T) : res T :=
  match paths with
  | [] => Ok []
  | [p] => Ok p
  | first :: rest =>
      let! suffix := lcs_loop (S (length first)) first rest [] 1 in
      match suffix with [c] => if is_empty c then Ok [] else Ok suffix | _ => Ok suffix end
  end.

(** ** The shape of paths *)

(** Every component between the first and the last has a name; a path of one
    component has one too. *)
Definition canonical (p : T) : bool :=
  match p with
  | [] => true
  | [c] => negb (is_empty c)
  | _ :: q => forallb (fun c => negb (is_empty c)) (removelast q)
  end.

Definition sep_free (sep : rune) (p : T) : Prop := Forall (fun c => sep ∉ c) p.

(** A path from its names and whether it begins and ends with a separator. *)
Definition parts (lead : bool) (cs : T) (trail : bool) : T :=
  (if lead then [[]] else []) ++ cs ++ (if trail then [[]] else []).

Definition named (c : str) : Prop := c <> [].

Lemma canonical_parts p : canonical p = true ->
  exists lead cs trail, p = parts lead cs trail /\ Forall named cs /\ (cs = [] -> lead = trail).
Proof.
  destruct p as [|c [|d q]]; intros Hc.
  - by exists false, [], false.
  - exists false, [c], false. cbn in Hc. rewrite is_empty_spec in Hc. split_and!; [done| |done].
    constructor; [|done]. by apply negb_true_iff, bool_decide_eq_false in Hc.
  - destruct (exists_last (l := d :: q)) as (m & e & E); [done|]. rewrite E in *. cbn in Hc.
    assert (Forall named m) as Hm.
    { destruct (m ++ [e]) eqn:E'; [by destruct m|]. rewrite <- E' in Hc. rewrite removelast_snoc in Hc.
      apply Is_true_eq_left, forallb_True in Hc.
      eapply Forall_impl; [exact Hc|]. intros x Hx ->. done. }
    exists (is_empty c), ((if is_empty c then [] else [c]) ++ m ++ (if is_empty e then [] else [e])), (is_empty e).
    rewrite !is_empty_spec. split_and!.
    + unfold parts. repeat case_bool_decide; subst; cbn; by rewrite ?app_nil_r, <- ?app_assoc.
    + apply Forall_app; split; [case_bool_decide; by repeat constructor|].
      apply Forall_app; split; [done|case_bool_decide; by repeat constructor].
    + repeat case_bool_decide; cbn; try done. by destruct m.
Qed.

(** The view of a canonical path that the proofs work with. *)
Record view (lead : bool) (cs : T) (trail : bool) : Prop := {
  v_named : Forall named cs;
  v_root : cs = [] -> lead = trail;
}.

Lemma canonical_view p : canonical p = true -> exists lead cs trail, p = parts lead cs trail /\ view lead cs trail.
Proof. intros (l & cs & t & E & H1 & H2)%canonical_parts. by exists l, cs, t. Qed.

Lemma named_nonempty c : named c -> is_empty c = false.
Proof. intros Hc. rewrite is_empty_spec. by apply bool_decide_false. Qed.

Lemma named_all m : Forall named m -> forallb (fun c => negb (is_empty c)) m = true.
Proof. induction 1 as [|c m Hc _ IH]; [done|]. cbn. by rewrite named_nonempty, IH. Qed.

Lemma view_canonical lead cs trail : view lead cs trail -> canonical (parts lead cs trail) = true.
Proof.
  intros [Hn Hr]. unfold parts. destruct cs as [|c cs].
  { specialize (Hr eq_refl) as ->. by destruct trail. }
  inversion Hn as [|? ? Hc Hcs]; subst. destruct lead; cbn [app].
  - destruct trail; cbn [canonical].
    + rewrite app_comm_cons, removelast_snoc. by apply named_all.
    + rewrite app_nil_r. destruct (exists_last (l := c :: cs)) as (m & e & E); [done|]. rewrite E, removelast_snoc in *.
      apply Forall_app in Hn as [Hm _]. by apply named_all.
  - destruct trail; cbn [app].
    + unfold canonical. destruct (cs ++ [[]]) eqn:E; [by destruct cs|]. rewrite <- E, removelast_snoc. by apply named_all.
    + rewrite app_nil_r. destruct cs as [|d cs]; cbn [canonical]; [by rewrite named_nonempty|].
      destruct (exists_last (l := d :: cs)) as (m & e & E); [done|]. rewrite E, removelast_snoc in *.
      apply Forall_app in Hcs as [Hm _]. by apply named_all.
Qed.

Lemma named_last cs : Forall named cs -> cs <> [] -> exists m e, cs = m ++ [e] /\ named e.
Proof.
  intros Hn Hc. destruct (exists_last Hc) as (m & e & E). exists m, e. split; [done|]. subst. apply Forall_app in Hn as [_ He].
  by inversion He.
Qed.

Lemma last_empty_snoc p c : last_empty (p ++ [c]) = is_empty c.
Proof. unfold last_empty. by rewrite last_snoc. Qed.

Lemma last_empty_parts lead cs trail : view lead cs trail -> last_empty (parts lead cs trail) = trail.
Proof.
  intros [Hn Hr]. unfold parts. destruct trail; [by rewrite app_assoc, last_empty_snoc|]. rewrite app_nil_r.
  destruct (decide (cs = [])) as [->|Hne]; [by rewrite Hr|]. destruct (named_last cs Hn Hne) as (m & e & -> & He).
  rewrite app_assoc, last_empty_snoc. by apply named_nonempty.
Qed.

(** Joining a canonical path is the plain join of all its components, the empty
    ones at its ends included. *)
Lemma Join_canonical p sep : canonical p = true -> Join p sep = strings_Join p [sep].
Proof.
  intros Hc. destruct p as [|c [|d q]]; [done..|]. destruct (exists_last (l := d :: q)) as (m & e & E); [done|].
  unfold Join. rewrite E. destruct (m ++ [e]) eqn:E'; [by destruct m|]. rewrite <- E'. clear E'.
  rewrite !is_empty_spec. case_bool_decide as Ec.
  - subst c. rewrite last_snoc. cbn [default from_option id]. rewrite is_empty_spec. rewrite strings_Join_cons by (by destruct m).
    cbn [app]. case_bool_decide as Ee.
    + subst e. rewrite removelast_snoc, len_pos. case_bool_decide as Em.
      * by rewrite strings_Join_app.
      * by subst m.
    + rewrite len_pos, bool_decide_true by (by destruct m). by rewrite app_nil_r.
  - change (c :: m ++ [e]) with ((c :: m) ++ [e]). rewrite last_snoc. cbn [default from_option id]. rewrite is_empty_spec.
    case_bool_decide as Ee.
    + subst e. rewrite removelast_snoc, len_pos, bool_decide_true by done. by rewrite strings_Join_app.
    + rewrite len_pos, bool_decide_true by done. by rewrite app_nil_r.
Qed.

(** ** Splitting against its reference

    The names in a path: the maximal runs of other runes, given the part of one
    that has been read. *)
Fixpoint names (sep : rune) (component : str) (path : str) : T :=
  match path with
  | [] => if is_empty component then [] else [component]
  | r :: path =>
      if r =? sep then (if is_empty component then [] else [component]) ++ names sep [] path
      else names sep (component ++ [r]) path
  end.

(** A path with every run of separators cut to one. *)
Fixpoint squeeze (sep : rune) (path : str) : str :=
  match path with
  | [] => []
  | r :: path => if (r =? sep) && (first_rune path =? sep) && negb (is_empty path) then squeeze sep path else r :: squeeze sep path
  end.

Lemma split_foldl sep path slice component flag : (flag = true -> component = []) ->
  exists slice' component' flag',
    foldl (split_step sep) (slice, component, flag) path = (slice', component', flag') /\
    slice' ++ (if is_empty component' then [] else [component']) = slice ++ names sep component path /\
    flag' = match path with [] => flag | _ => ends_with sep path end.
Proof.
  revert slice component flag. induction path as [|r path IH]; intros slice component flag Hf.
  { by exists slice, component, flag. }
  cbn [foldl names]. unfold split_step at 2. rewrite len_pos.
  assert (forall slice2 component2 flag2, (flag2 = true -> component2 = []) -> flag2 = (r =? sep) ->
    slice2 ++ names sep component2 path =
      slice ++ (if r =? sep then (if is_empty component then [] else [component]) ++ names sep [] path else names sep (component ++ [r]) path) ->
    exists slice' component' flag', foldl (split_step sep) (slice2, component2, flag2) path = (slice', component', flag') /\
    slice' ++ (if is_empty component' then [] else [component']) =
      slice ++ (if r =? sep then (if is_empty component then [] else [component]) ++ names sep [] path else names sep (component ++ [r]) path) /\
    flag' = ends_with sep (r :: path)) as K.
  { intros slice2 component2 flag2 H2 H3 Hs. destruct (IH slice2 component2 flag2 H2) as (s' & c' & f' & E1 & E2 & E3).
    exists s', c', f'. rewrite <- Hs. split_and!; [done|done|]. rewrite E3. destruct path as [|x path]; [|done].
    rewrite H3. unfold ends_with. cbn. case_bool_decide; simplify_eq; [by rewrite Z.eqb_refl|]. apply Z.eqb_neq. congruence. }
  destruct (r =? sep) eqn:Er.
  - destruct flag; cbn [negb andb].
    + specialize (Hf eq_refl). subst component. by apply K.
    + destruct component as [|x component]; [by apply K|]. apply K; [done|done|]. by rewrite <- app_assoc.
  - by apply K.
Qed.

Lemma Split_parts sep path : (path = [] -> sep <> RuneError) ->
  Split path sep = parts (first_rune path =? sep) (names sep [] path) (ends_with sep path).
Proof.
  intros H0. unfold Split, parts. set (s0 := if first_rune path =? sep then [[]] else []).
  destruct (split_foldl sep path s0 [] false) as (s' & c' & f' & -> & E2 & E3); [done|].
  rewrite len_pos. rewrite is_empty_spec in E2.
  assert (f' = ends_with sep path) as -> by (rewrite E3; by destruct path).
  rewrite app_assoc, <- E2. rewrite !bool_decide_not. destruct (bool_decide (c' = [])), (ends_with sep path); cbn [negb]; by rewrite ?app_nil_r.
Qed.

Lemma names_named sep component path : Forall named (names sep component path).
Proof.
  revert component. induction path as [|r path IH]; intros component; cbn [names].
  - rewrite is_empty_spec. case_bool_decide; by repeat constructor.
  - destruct (r =? sep); [|apply IH]. apply Forall_app. split; [|apply IH]. rewrite is_empty_spec. case_bool_decide; by repeat constructor.
Qed.

Lemma names_sep_free sep component path : sep ∉ component -> sep_free sep (names sep component path).
Proof.
  unfold sep_free. revert component. induction path as [|r path IH]; intros component Hc; cbn [names].
  - destruct (is_empty component); by repeat constructor.
  - destruct (Z.eqb_spec r sep).
    + apply Forall_app. split; [destruct (is_empty component); by repeat constructor|]. apply IH. by apply not_elem_of_nil.
    + apply IH. rewrite elem_of_app, list_elem_of_singleton. intros [?|?]; [done|congruence].
Qed.

(** What has been read of a name is the beginning of the first one. *)
Lemma names_begun sep c path : c <> [] ->
  names sep c path =
    match path with
    | [] => [c]
    | r :: _ => if r =? sep then c :: names sep [] path
                else (c ++ hd [] (names sep [] path)) :: tl (names sep [] path)
    end.
Proof.
  assert (forall c : str, c <> [] -> is_empty c = false) as E by (intros; by apply named_nonempty).
  revert c. induction path as [|r path IH]; intros c Hc; cbn [names]; rewrite (E c) by done; [done|].
  destruct (r =? sep); [done|]. cbn [app]. rewrite (IH (c ++ [r])) by (by destruct c). rewrite (IH [r]) by done.
  destruct path as [|x path]; [done|]. destruct (x =? sep); cbn [hd tl]; by rewrite <- ?app_assoc.
Qed.

(** Without a name a path is empty or made of separators. *)
Lemma names_nil sep path : names sep [] path = [] -> path <> [] -> first_rune path = sep /\ ends_with sep path = true.
Proof.
  induction path as [|r path IH]; [done|]. cbn [names]. intros Hn _. destruct (Z.eqb_spec r sep) as [->|].
  - split; [done|]. cbn in Hn. destruct path as [|x path]; [unfold ends_with; by apply bool_decide_eq_true|].
    unfold ends_with in *. cbn. by apply IH.
  - exfalso. rewrite names_begun in Hn by done. destruct path as [|x path]; [done|]. by destruct (x =? sep).
Qed.

Lemma names_sep sep path : names sep [] (sep :: path) = names sep [] path.
Proof. cbn [names]. by rewrite Z.eqb_refl. Qed.

Lemma names_ne sep c r path : r <> sep -> names sep c (r :: path) = names sep (c ++ [r]) path.
Proof. intros Hr. cbn [names]. by rewrite (proj2 (Z.eqb_neq r sep) Hr). Qed.

(** What follows the leading separator of a squeezed path. *)
Definition body (sep : rune) (path : str) : str :=
  strings_Join (names sep [] path) [sep] ++
  (if ends_with sep path && negb (len (names sep [] path) =? 0) then [sep] else []).

Lemma squeeze_body sep path : (path = [] -> sep <> RuneError) ->
  squeeze sep path = (if first_rune path =? sep then [sep] else []) ++ body sep path.
Proof.
  induction path as [|r path IH]; intros H0.
  { cbn [first_rune]. rewrite (proj2 (Z.eqb_neq RuneError sep)) by (symmetry; by apply H0). unfold body. cbn. by rewrite andb_false_r. }
  cbn [squeeze first_rune]. destruct path as [|x path].
  { unfold body, ends_with. cbn. destruct (Z.eqb_spec r sep) as [->|]; cbn; [by rewrite !andb_false_r|].
    by rewrite bool_decide_false by congruence. }
  assert (x :: path = [] -> sep <> RuneError) as H1 by done. specialize (IH H1). cbn [first_rune] in *.
  assert (ends_with sep (r :: x :: path) = ends_with sep (x :: path)) as Ee by done.
  cbn [is_empty negb]. rewrite andb_true_r.
  unfold body in *. rewrite Ee. destruct (Z.eqb_spec r sep) as [->|Hr]; cbn [andb].
  { rewrite (names_sep sep (x :: path)). destruct (Z.eqb_spec x sep) as [->|Hx]; cbn [andb]; by rewrite IH. }
  rewrite IH, (names_ne sep [] r) by done. cbn [app]. rewrite !len_zero in *. rewrite (names_begun sep [r]) by done. destruct (Z.eqb_spec x sep) as [->|Hx].
  - rewrite (bool_decide_false ([r] :: names sep [] (sep :: path) = [])) by done. cbn [negb]. rewrite andb_true_r.
    destruct (decide (names sep [] (sep :: path) = [])) as [En|En].
    + rewrite En, bool_decide_true by done. destruct (names_nil sep (sep :: path) En) as [_ ->]; done.
    + rewrite (bool_decide_false (names sep [] (sep :: path) = [])) by done. by rewrite andb_true_r, strings_Join_cons, <- !app_assoc by done.
  - assert (exists h t, names sep [] (x :: path) = h :: t) as (h & t & En).
    { rewrite names_ne, names_begun by done. destruct path as [|y path]; [eauto|]. destruct (y =? sep); eauto. }
    rewrite En. cbn [hd tl]. rewrite !bool_decide_false by done. destruct t; done.
Qed.

Lemma strings_Join_parts sep lead cs trail : view lead cs trail ->
  strings_Join (parts lead cs trail) [sep] =
    (if lead then [sep] else []) ++ strings_Join cs [sep] ++ (if trail && negb (len cs =? 0) then [sep] else []).
Proof.
  intros [_ Hr]. unfold parts. rewrite len_zero. destruct (decide (cs = [])) as [->|Hc].
  { rewrite (Hr eq_refl), bool_decide_true by done. rewrite andb_false_r. by destruct trail. }
  rewrite bool_decide_false by done. cbn [negb]. rewrite andb_true_r. destruct lead, trail; cbn [app];
    rewrite ?strings_Join_cons by (by destruct cs); rewrite ?app_nil_r, ?strings_Join_app by done; cbn; by rewrite ?app_nil_r.
Qed.

Lemma Split_view sep path : sep <> RuneError -> view (first_rune path =? sep) (names sep [] path) (ends_with sep path).
Proof.
  intros Hs. constructor; [apply names_named|]. intros En. destruct path as [|x path].
  - cbn [first_rune]. by rewrite (proj2 (Z.eqb_neq RuneError sep)).
  - destruct (names_nil sep (x :: path) En) as [-> ->]; [done|]. apply Z.eqb_refl.
Qed.

Lemma names_name sep c d path : sep ∉ d -> names sep c (d ++ path) = names sep (c ++ d) path.
Proof.
  revert c. induction d as [|r d IH]; intros c Hd; [by rewrite app_nil_r|]. apply not_elem_of_cons in Hd as [Hr Hd].
  cbn [app]. rewrite names_ne, IH by done. by rewrite <- app_assoc.
Qed.

Lemma names_strings_Join sep p : sep_free sep p -> names sep [] (strings_Join p [sep]) = filter (fun c => c <> []) p.
Proof.
  unfold sep_free. induction 1 as [|c p Hc _ IH]; [done|]. rewrite filter_cons. destruct p as [|d p].
  - cbn [strings_Join]. rewrite <- (app_nil_r c) at 1. rewrite names_name by done. cbn [app names]. rewrite is_empty_spec.
    destruct (decide (c <> [])) as [Hn|Hn]; [by rewrite bool_decide_false|]. by rewrite bool_decide_true by (by apply dec_stable).
  - rewrite strings_Join_cons, names_name by done. cbn [app names]. rewrite Z.eqb_refl, IH, is_empty_spec.
    destruct (decide (c <> [])) as [Hn|Hn]; [by rewrite bool_decide_false|]. by rewrite bool_decide_true by (by apply dec_stable).
Qed.

Lemma filter_parts lead cs trail : Forall named cs -> filter (fun c => c <> []) (parts lead cs trail) = cs.
Proof.
  intros Hn. unfold parts. rewrite !filter_app.
  assert (forall b : bool, filter (fun c : str => c <> []) (if b then [[]] else []) = []) as Hb.
  { intros []; [|done]. rewrite filter_cons, decide_False by auto. done. }
  rewrite !Hb, app_nil_r. cbn [app]. induction Hn as [|c cs Hc _ IH]; [done|]. rewrite filter_cons, decide_True by done. by rewrite IH.
Qed.

(** The ends of a joined path tell whether it was absolute and a prefix. *)
Lemma joined_ends sep lead cs trail : sep <> RuneError -> view lead cs trail -> sep_free sep cs ->
  let s := strings_Join (parts lead cs trail) [sep] in (first_rune s =? sep) = lead /\ ends_with sep s = trail.
Proof.
  intros Hs Hv Hf. cbn zeta. rewrite strings_Join_parts by done. destruct Hv as [Hn Hr]. rewrite len_zero.
  destruct (decide (cs = [])) as [->|Hc].
  { rewrite (Hr eq_refl), bool_decide_true by done. rewrite andb_false_r. destruct trail; cbn [app strings_Join first_rune].
    - split; [apply Z.eqb_refl|]. by apply bool_decide_eq_true.
    - split; [apply Z.eqb_neq; congruence|done]. }
  rewrite bool_decide_false by done. cbn [negb]. rewrite andb_true_r. split.
  - destruct lead; [apply Z.eqb_refl|]. destruct cs as [|c cs]; [done|]. inversion Hn as [|? ? Hc1 _]; subst.
    inversion Hf as [|? ? Hc2 _]; subst. destruct c as [|r c]; [done|]. apply Z.eqb_neq.
    destruct cs; cbn; intros ->; apply Hc2; by left.
  - unfold ends_with. destruct trail; [rewrite !app_assoc, last_snoc; by apply bool_decide_eq_true|].
    destruct (named_last cs Hn Hc) as (m & e & -> & He). apply Forall_app in Hf as [_ Hf].
    inversion Hf as [|? ? Hc2 _]; subst. destruct (exists_last He) as (e' & x & ->). rewrite app_nil_r.
    assert (last (strings_Join (m ++ [e' ++ [x]]) [sep]) = Some x) as Hl.
    { destruct m as [|d m]; [cbn [app strings_Join]; by rewrite last_snoc|]. rewrite strings_Join_app by done. cbn [strings_Join]. by rewrite !app_assoc, last_snoc. }
    rewrite last_app, Hl. apply bool_decide_eq_false. intros [= ->]. apply Hc2. apply elem_of_app. right. by left.
Qed.

(** C18: [Split] yields canonical paths whose components hold no separator, and
    [Join] of them is the original text with every run of separators cut to one,
    so it is the text itself when no separator is repeated; and on canonical
    paths [Split] undoes [Join]. *)
Theorem Split_Join (sep : rune) : sep <> RuneError ->
  (forall s, canonical (Split s sep) = true /\ sep_free sep (Split s sep) /\ Join (Split s sep) sep = squeeze sep s) /\
  (forall p, canonical p = true -> sep_free sep p -> Split (Join p sep) sep = p).
Proof.
  intros Hs. split.
  - intros s. pose proof (Split_view sep s Hs) as Hv. rewrite Split_parts by done. pose proof (view_canonical _ _ _ Hv) as Hc.
    split_and!; [done| |].
    + unfold sep_free, parts. rewrite !Forall_app. split_and!; [| |]; try (case_match; repeat constructor; apply not_elem_of_nil).
      apply names_sep_free, not_elem_of_nil.
    + rewrite Join_canonical, strings_Join_parts by done. by rewrite squeeze_body.
  - intros p (lead & cs & trail & -> & Hv)%canonical_view Hf. rewrite Join_canonical by (by apply view_canonical).
    assert (sep_free sep cs) as Hfc by (unfold sep_free, parts in *; rewrite !Forall_app in Hf; tauto).
    destruct (joined_ends sep lead cs trail Hs Hv Hfc) as [E1 E2]. rewrite Split_parts by done.
    rewrite E1, E2, names_strings_Join, filter_parts by (done || apply Hv). done.
Qed.

(** ** Editing, on the view *)

Lemma IsRoot_parts lead cs trail : view lead cs trail -> IsRoot (parts lead cs trail) = lead && bool_decide (cs = []).
Proof.
  intros [Hn Hr]. unfold parts. destruct cs as [|c cs]; [specialize (Hr eq_refl) as ->; by destruct trail|].
  rewrite bool_decide_false, andb_false_r by done. inversion Hn as [|? ? Hc Hcs]; subst. destruct c as [|r c]; [done|].
  destruct lead; cbn [app IsRoot].
  - by destruct cs, trail.
  - by destruct cs as [|d [|]], trail.
Qed.

Lemma set_last_snoc p x c : set_last (p ++ [x]) c = p ++ [c].
Proof. unfold set_last. by rewrite removelast_snoc. Qed.

Lemma len_snoc_zero {A} (p : list A) x : (len (p ++ [x]) =? 0) = false.
Proof. rewrite len_zero. apply bool_decide_false. by destruct p. Qed.

(** What contains a path with these names before its last one. *)
Definition parent (lead : bool) (cs : T) : T := parts lead cs (lead || negb (len cs =? 0)).

Lemma parent_view lead cs : Forall named cs -> view lead cs (lead || negb (len cs =? 0)).
Proof. intros Hn. constructor; [done|]. intros ->. cbn. by rewrite orb_false_r. Qed.

Lemma parts_named lead cs c : parts lead (cs ++ [c]) false = ((if lead then [[]] else []) ++ cs) ++ [c].
Proof. unfold parts. by rewrite app_nil_r, app_assoc. Qed.

Lemma parts_named_prefix lead cs c : parts lead (cs ++ [c]) true = (((if lead then [[]] else []) ++ cs) ++ [c]) ++ [[]].
Proof. unfold parts. by rewrite !app_assoc. Qed.

Lemma Push_parts lead cs trail c : view lead cs trail -> named c -> Push (parts lead cs trail) c = parts lead (cs ++ [c]) false.
Proof.
  intros Hv Hc. unfold Push. rewrite !len_zero, (bool_decide_false (c = [])), last_empty_parts by done. rewrite parts_named.
  destruct trail.
  - unfold parts. rewrite app_assoc. rewrite bool_decide_false by (by destruct lead, cs). by rewrite set_last_snoc.
  - unfold parts. rewrite app_nil_r. case_bool_decide as E; [|done]. by rewrite E.
Qed.

Lemma AsPrefix_parts lead cs trail : view lead cs trail -> AsPrefix (parts lead cs trail) = parent lead cs.
Proof.
  intros Hv. unfold AsPrefix. rewrite last_empty_parts by done. unfold parent. rewrite !len_zero. destruct Hv as [_ Hr]. destruct trail.
  - rewrite orb_true_r. destruct (decide (cs = [])) as [->|Hc]; [by rewrite Hr|]. by rewrite (bool_decide_false (cs = [])), orb_true_r by done.
  - rewrite orb_false_r. destruct (decide (cs = [])) as [->|Hc]; [by rewrite Hr|]. rewrite (bool_decide_false (cs = [])), orb_true_r by done.
    rewrite bool_decide_false by (by unfold parts; destruct lead, cs). unfold parts. by rewrite app_nil_r, <- app_assoc.
Qed.

Lemma AsFilepath_parts lead cs trail : view lead cs trail ->
  AsFilepath (parts lead cs trail) = if len cs =? 0 then parts lead cs trail else parts lead cs false.
Proof.
  intros Hv. unfold AsFilepath. rewrite IsRoot_parts, last_empty_parts, len_zero by done. destruct Hv as [_ Hr].
  case_bool_decide as E.
  - subst cs. specialize (Hr eq_refl) as ->. by destruct trail.
  - rewrite andb_false_r. destruct trail; cbn [negb].
    + unfold parts. rewrite app_assoc. destruct (((if lead then [[]] else []) ++ cs) ++ [[]]) eqn:Ep; [by destruct lead, cs|].
      rewrite <- Ep, removelast_snoc. by rewrite app_nil_r.
    + by destruct (parts lead cs false) eqn:Ep.
Qed.

Lemma Prefix_parts lead cs c : named c -> Forall named cs -> Prefix (parts lead (cs ++ [c]) false) = parent lead cs.
Proof.
  intros Hc Hn. unfold Prefix. rewrite parts_named, len_snoc_zero, last_empty_snoc, named_nonempty by done. cbn [orb].
  rewrite removelast_snoc, set_last_snoc. unfold parent, parts. rewrite len_pos, !len_zero.
  destruct lead, cs; cbn; by rewrite <- ?app_assoc.
Qed.

Lemma Pop_filepath x q (c : str) : named c -> Pop ((x :: q) ++ [c]) = ((x :: q) ++ [[]], c).
Proof.
  intros Hc. unfold Pop. assert (IsRoot ((x :: q) ++ [c]) = false) as ->.
  { destruct q as [|y [|]]; [|done..]. cbn. by rewrite (named_nonempty c), andb_false_r. }
  rewrite last_empty_snoc, named_nonempty, andb_false_r, set_last_snoc, last_snoc by done.
  cbn [app]. destruct (q ++ [c]) eqn:E; [by destruct q|]. done.
Qed.

Lemma Pop_prefix x q (c : str) : named c -> Pop (((x :: q) ++ [c]) ++ [[]]) = ((x :: q) ++ [[]], c).
Proof.
  intros Hc. unfold Pop. assert (IsRoot (((x :: q) ++ [c]) ++ [[]]) = false) as -> by (by destruct q as [|y [|]]).
  rewrite last_empty_snoc, removelast_snoc, set_last_snoc, last_snoc. assert ((len (((x :: q) ++ [c]) ++ [[]]) =? 2) = false) as ->.
  { rewrite !len_app, !len_cons, !len_nil. pose proof (len_nonneg q). apply Z.eqb_neq. lia. }
  cbn [app andb is_empty]. destruct ((q ++ [c]) ++ [[]]) eqn:E; [by destruct (q ++ [c])|]. done.
Qed.

Lemma Pop_parts lead cs c trail : view lead (cs ++ [c]) trail -> Pop (parts lead (cs ++ [c]) trail) = (parent lead cs, c).
Proof.
  intros [Hn _]. apply Forall_app in Hn as [_ Hc]. apply Forall_inv in Hc. unfold parent. rewrite len_zero. destruct trail.
  - rewrite parts_named_prefix. unfold parts. destruct lead as [|], cs as [|d cs]; cbn [app].
    + by apply (Pop_prefix [] []).
    + apply (Pop_prefix [] (d :: cs) c Hc).
    + by destruct c.
    + apply (Pop_prefix d cs c Hc).
  - rewrite parts_named. unfold parts. destruct lead as [|], cs as [|d cs]; cbn [app].
    + by apply (Pop_filepath [] []).
    + apply (Pop_filepath [] (d :: cs) c Hc).
    + done.
    + apply (Pop_filepath d cs c Hc).
Qed.

Lemma view_snoc lead cs c b : Forall named cs -> named c -> view lead (cs ++ [c]) b.
Proof. intros Hn Hc. constructor; [by apply Forall_app; repeat constructor|]. by destruct cs. Qed.

Lemma view_inv lead cs trail : view lead cs trail ->
  (cs = [] /\ lead = trail) \/ exists m c, cs = m ++ [c] /\ named c /\ Forall named m.
Proof.
  intros [Hn Hr]. destruct (decide (cs = [])) as [->|Hc]; [left; auto|]. right.
  destruct (named_last cs Hn Hc) as (m & e & -> & He). apply Forall_app in Hn as [Hm _]. eauto.
Qed.

Lemma parent_canonical lead cs : Forall named cs -> canonical (parent lead cs) = true.
Proof. intros Hn. by apply view_canonical, parent_view. Qed.

Lemma IsFilepath_parts lead cs trail : view lead cs trail -> IsFilepath (parts lead cs trail) = negb trail && negb (len cs =? 0).
Proof.
  intros Hv. unfold IsFilepath. rewrite last_empty_parts, len_pos, len_zero by done. destruct Hv as [_ Hr].
  rewrite bool_decide_not. destruct (decide (cs = [])) as [->|Hc]; [rewrite (Hr eq_refl); by destruct trail|].
  rewrite !bool_decide_false by (done || (unfold parts; by destruct lead, cs)). by rewrite andb_comm.
Qed.

Lemma IsFilepath_parent lead cs : Forall named cs -> IsFilepath (parent lead cs) = false.
Proof. intros Hn. unfold parent. rewrite IsFilepath_parts by (by apply parent_view). by destruct lead, (len cs =? 0). Qed.

Lemma IsAbsolute_parts lead cs trail : view lead cs trail -> IsAbsolute (parts lead cs trail) = lead.
Proof.
  intros [Hn Hr]. destruct lead; [done|]. destruct cs as [|c cs]; [by rewrite <- Hr|]. apply Forall_inv in Hn. cbn. by apply named_nonempty.
Qed.

Lemma Join_parent sep lead cs c : Forall named cs -> named c ->
  Join (parts lead (cs ++ [c]) false) sep = Join (parent lead cs) sep ++ c.
Proof.
  intros Hn Hc. rewrite !Join_canonical by (by apply parent_canonical || (apply view_canonical; by apply view_snoc)).
  unfold parent. rewrite !strings_Join_parts by (by apply parent_view || by apply view_snoc). cbn [andb]. rewrite app_nil_r, <- !app_assoc, len_zero.
  f_equal. destruct (decide (cs = [])) as [->|Hne].
  - by rewrite bool_decide_true, andb_false_r.
  - rewrite bool_decide_false by done. cbn [negb]. rewrite orb_true_r. cbn [andb]. rewrite strings_Join_app by done. done.
Qed.

(** C19: Every operation that edits a canonical path gives a canonical one:
    [AsPrefix] and [Pop] one that is not a file path, [Push] of a component one
    that is; [AsFilepath] undoes [AsPrefix] on a file path, [Pop] undoes [Push]
    up to the mark of a prefix, and whether the path is absolute is kept. *)
Theorem Editing_canonical (p : T) : canonical p = true ->
  canonical (Prefix p) = true /\ canonical (AsPrefix p) = true /\ canonical (AsFilepath p) = true /\ canonical (Pop p).1 = true /\
  IsFilepath (AsPrefix p) = false /\ IsFilepath (Pop p).1 = false /\ IsFilepath (AsFilepath p) = negb (IsRoot p) && (0 <? len p) /\
  (IsFilepath p = true -> AsFilepath (AsPrefix p) = p) /\
  IsAbsolute (AsPrefix p) = IsAbsolute p /\ IsAbsolute (AsFilepath p) = IsAbsolute p /\ IsAbsolute (Pop p).1 = IsAbsolute p /\
  (IsRoot p = true -> Pop p = (p, [])) /\
  forall c, c <> [] ->
    canonical (Push p c) = true /\ IsFilepath (Push p c) = true /\ Pop (Push p c) = (AsPrefix p, c) /\
    (p <> [] -> IsAbsolute (Push p c) = IsAbsolute p).
Proof.
  intros (lead & cs & trail & -> & Hv)%canonical_view. pose proof (v_named _ _ _ Hv) as Hn.
  pose proof (parent_view lead cs Hn) as Hp.
  assert (forall c, c <> [] -> canonical (Push (parts lead cs trail) c) = true /\ IsFilepath (Push (parts lead cs trail) c) = true /\
    Pop (Push (parts lead cs trail) c) = (AsPrefix (parts lead cs trail), c) /\
    (parts lead cs trail <> [] -> IsAbsolute (Push (parts lead cs trail) c) = IsAbsolute (parts lead cs trail))) as HP.
  { intros c Hc. pose proof (view_snoc lead cs c false Hn Hc) as Hs. rewrite Push_parts by done. split_and!.
    - by apply view_canonical.
    - rewrite IsFilepath_parts by done. by rewrite len_snoc_zero.
    - by rewrite Pop_parts, AsPrefix_parts.
    - intros _. by rewrite !IsAbsolute_parts. }
  split_and!; [..|exact HP]; clear HP; rewrite ?AsPrefix_parts, ?AsFilepath_parts by done.
  all: destruct (view_inv _ _ _ Hv) as [[-> ->]|(m & c & -> & Hc & Hm)]; [by destruct trail|].
  all: rewrite ?Pop_parts, ?len_snoc_zero by done; cbn [fst].
  - destruct trail; [|by rewrite Prefix_parts; [apply parent_canonical|..]]. unfold Prefix. rewrite last_empty_parts, orb_true_r by done. by apply view_canonical.
  - by apply view_canonical.
  - apply view_canonical. by apply view_snoc.
  - by apply parent_canonical.
  - by apply IsFilepath_parent.
  - by apply IsFilepath_parent.
  - rewrite IsFilepath_parts by (by apply view_snoc). rewrite IsRoot_parts, len_snoc_zero, len_pos by done.
    rewrite (bool_decide_false (m ++ [c] = [])), andb_false_r by (by destruct m). rewrite bool_decide_true; [done|]. unfold parts. by destruct lead, m.
  - rewrite IsFilepath_parts by done. destruct trail; [done|]. intros _. unfold parent. rewrite AsFilepath_parts by done. by rewrite len_snoc_zero.
  - unfold parent. by rewrite !IsAbsolute_parts.
  - by rewrite !IsAbsolute_parts by (by apply view_snoc).
  - unfold parent. by rewrite !IsAbsolute_parts by (done || by apply parent_view).
  - rewrite IsRoot_parts by done. by rewrite (bool_decide_false (m ++ [c] = [])), andb_false_r by (by destruct m).
Qed.

(** On a canonical path the operations cut its text where they say: a path
    is its [Prefix] followed by its [Base], a file path below the root is what
    [Pop] leaves followed by what it returns, and [Push] appends to the text of
    the path as a prefix. *)
Theorem Editing_text (sep : rune) (p : T) : canonical p = true ->
  Join p sep = Join (Prefix p) sep ++ Base p /\
  (IsRoot p = false -> Join (AsFilepath p) sep = Join (Pop p).1 sep ++ (Pop p).2) /\
  forall c, c <> [] -> Join (Push p c) sep = Join (AsPrefix p) sep ++ c.
Proof.
  intros (lead & cs & trail & -> & Hv)%canonical_view. pose proof (v_named _ _ _ Hv) as Hn. split_and!.
  - destruct trail.
    { unfold Prefix, Base. rewrite last_empty_parts, orb_true_r by done. by rewrite app_nil_r. }
    destruct (view_inv _ _ _ Hv) as [[-> ->]|(m & c & -> & Hc & Hm)]; [done|]. rewrite Prefix_parts, Join_parent by done. f_equal.
    unfold Base. rewrite last_empty_parts by done. rewrite parts_named, len_snoc_zero, last_snoc. done.
  - rewrite IsRoot_parts by done. destruct (view_inv _ _ _ Hv) as [[-> ->]|(m & c & -> & Hc & Hm)]; [by destruct trail|]. intros _.
    rewrite AsFilepath_parts, Pop_parts, len_snoc_zero by done. by apply Join_parent.
  - intros c Hc. rewrite Push_parts, AsPrefix_parts by done. by apply Join_parent.
Qed.

(** ** Prefixes: components against text *)

(** The loop of [hasPrefix]: it runs off the end of a path that the prefix
    extends. *)
Definition prefix_test (path prefix : T) : res bool :=
  if decide (prefix `prefix_of` path) then Ok true
  else if decide (path `prefix_of` prefix) then Panic else Ok false.

Lemma prefix_loop_spec path i prefix : 0 <= i -> prefix_loop path i prefix = prefix_test (drop (Z.to_nat i) path) prefix.
Proof.
  unfold prefix_test. revert i. induction prefix as [|c prefix IH]; intros i Hi.
  { cbn. by rewrite decide_True by apply prefix_nil. }
  cbn [prefix_loop]. unfold zget. rewrite (proj2 (Z.leb_le 0 i)) by done.
  destruct (path !! Z.to_nat i) as [p|] eqn:Ep; cbn [checked rbind].
  - rewrite (drop_S _ _ _ Ep). case_bool_decide as E.
    + subst p. rewrite IH by lia. replace (Z.to_nat (i + 1)) with (S (Z.to_nat i)) by lia.
      assert (forall a b : T, c :: a `prefix_of` c :: b <-> a `prefix_of` b) as Hc by (split; [apply prefix_cons_inv_2|apply prefix_cons]).
      repeat case_decide; rewrite ?Hc in *; done.
    + rewrite decide_False, decide_False; [done| |]; intros H%prefix_cons_inv_1; congruence.
  - apply lookup_ge_None in Ep. rewrite drop_ge by done. rewrite decide_False, decide_True; [done|apply prefix_nil|].
    intros H%prefix_nil_inv. done.
Qed.

Lemma hasPrefix_test path prefix : prefix <> [] ->
  hasPrefix path prefix = if decide (path = []) then Ok false else prefix_test path prefix.
Proof.
  intros Hp. unfold hasPrefix. rewrite !len_zero. rewrite (bool_decide_false (prefix = [])), andb_false_r by done.
  destruct (decide (path = [])) as [->|Hn]; [done|]. rewrite bool_decide_false by done. by rewrite prefix_loop_spec.
Qed.

Lemma sep_prefix sep (c d a b : str) : sep ∉ c -> sep ∉ d -> c ++ sep :: a `prefix_of` d ++ sep :: b <-> c = d /\ a `prefix_of` b.
Proof.
  revert d. induction c as [|x c IH]; intros [|y d] Hc Hd; cbn.
  - split; [intros H%prefix_cons_inv_2; done|intros [_ H]; by apply prefix_cons].
  - split; [|by intros [? _]]. intros H%prefix_cons_inv_1. apply not_elem_of_cons in Hd. tauto.
  - split; [|by intros [? _]]. intros H%prefix_cons_inv_1. apply not_elem_of_cons in Hc. firstorder congruence.
  - apply not_elem_of_cons in Hc as [_ Hc]. apply not_elem_of_cons in Hd as [_ Hd]. split.
    + intros H. pose proof (prefix_cons_inv_1 _ _ _ _ H) as ->. apply prefix_cons_inv_2 in H. apply IH in H as [-> ?]; done.
    + intros [[= -> ->] H]. apply prefix_cons. by apply IH.
Qed.

(** A path as a prefix is a prefix of a text when its components are the first
    of more. *)
Lemma text_prefix sep k p : sep_free sep k -> sep_free sep p -> p <> [] ->
  strings_Join (k ++ [[]]) [sep] `prefix_of` strings_Join p [sep] <-> k `prefix_of` p /\ (length k < length p)%nat.
Proof.
  unfold sep_free. intros Hk. revert p. induction Hk as [|c k Hc _ IH]; intros p Hp Hne.
  { cbn. split; [|intros; apply prefix_nil]. split; [apply prefix_nil|]. destruct p; [done|cbn; lia]. }
  cbn [app]. rewrite strings_Join_cons by (by destruct k). inversion Hp as [|d p' Hd Hp']; subst; [done|]. cbn [length].
  destruct p' as [|e p']; cbn [length].
  - cbn [strings_Join app]. split; [|lia]. intros [z E]. exfalso. apply Hd. rewrite E, <- app_assoc. cbn. apply elem_of_app. right. by left.
  - rewrite (strings_Join_cons d) by done. cbn [app]. rewrite sep_prefix, IH by done. cbn [length]. split.
    + intros [-> [H ?]]. split; [by apply prefix_cons|lia].
    + intros [H ?]. pose proof (prefix_cons_inv_1 _ _ _ _ H) as ->. apply prefix_cons_inv_2 in H. split_and!; [done..|lia].
Qed.

Lemma trimPrefixPath_spec q : canonical q = true -> q <> [] ->
  exists b k, trimPrefixPath q = (b, k) /\ AsPrefix q = k ++ [[]] /\ k <> [] /\ q = (if b : bool then k ++ [[]] else k) /\ (b = false -> IsFilepath q = true).
Proof.
  intros (lead & cs & trail & -> & Hv)%canonical_view Hne. unfold trimPrefixPath, AsPrefix. rewrite last_empty_parts, len_zero by done.
  rewrite (bool_decide_false (_ = [])) by done. unfold parts in *. destruct trail.
  - exists true, ((if lead then [[]] else []) ++ cs). rewrite app_assoc, removelast_snoc.
    assert ((if lead then [[]] else []) ++ cs <> []) as Hk.
    { destruct lead; [done|]. destruct cs; [|done]. by specialize (v_root _ _ _ Hv eq_refl). }
    assert ((1 <? len (((if lead then [[]] else []) ++ cs) ++ [[]])) = true) as ->.
    { rewrite len_app, len_cons, len_nil. apply Z.ltb_lt. destruct ((if lead then [[]] else []) ++ cs) as [|x y]; [done|]. rewrite len_cons.
      pose proof (len_nonneg y). lia. }
    by split_and!.
  - exists false, ((if lead then [[]] else []) ++ cs). rewrite app_nil_r in *. rewrite andb_false_r. split_and!; try done.
    intros _. unfold IsFilepath. rewrite len_pos, bool_decide_true by done. pose proof (last_empty_parts _ _ _ Hv) as E. unfold parts in E.
    rewrite app_nil_r in E. by rewrite E.
Qed.

Lemma canonical_tail x q : canonical (x :: q) = true -> Forall named (removelast q).
Proof.
  destruct q as [|y q]; [done|]. cbn [canonical]. intros H%Is_true_eq_left%forallb_True. eapply Forall_impl; [exact H|]. by intros z Hz ->.
Qed.

Lemma prefix_removelast {A} (p q : list A) : p `prefix_of` q -> (length p < length q)%nat -> p `prefix_of` removelast q.
Proof.
  intros [r ->] Hl. rewrite length_app in Hl. destruct (exists_last (l := r)) as (r' & x & ->); [intros ->; cbn in Hl; lia|].
  rewrite app_assoc, removelast_snoc. by apply prefix_app_r.
Qed.

(** What lies strictly above a path ends in a name. *)
Lemma strict_prefix_filepath p q : canonical p = true -> p <> [] -> canonical q = true -> p `prefix_of` q -> (length p < length q)%nat ->
  IsFilepath p = true.
Proof.
  intros Hp Hne Hq Hpq Hl. unfold IsFilepath. rewrite len_pos, bool_decide_true by done. cbn [andb].
  destruct p as [|x p]; [done|]. destruct q as [|y q]; [cbn in Hl; lia|]. apply canonical_tail in Hq.
  pose proof (prefix_cons_inv_1 _ _ _ _ Hpq) as ->. apply prefix_cons_inv_2 in Hpq. cbn in Hl.
  destruct (decide (p = [])) as [->|Hn].
  { cbn in Hp. cbn. by destruct y. }
  destruct (exists_last Hn) as (m & e & ->). rewrite app_comm_cons, last_empty_snoc. apply prefix_removelast in Hpq; [|lia].
  destruct Hpq as [r E]. rewrite E in Hq. rewrite !Forall_app in Hq. destruct Hq as [[_ He] _]. apply Forall_inv in He.
  by rewrite named_nonempty.
Qed.

Lemma strings_Join_last k sep : k <> [] -> strings_Join (k ++ [[]]) [sep] = strings_Join k [sep] ++ [sep].
Proof. intros Hk. by rewrite strings_Join_app by done. Qed.

(** What follows a beginning of a canonical path joins as it is. *)
Lemma Join_rest sep k r : canonical (k ++ r) = true -> k <> [] -> r <> [] ->
  Join r sep = strings_Join r [sep] /\ Join ([] :: r) sep = sep :: strings_Join r [sep].
Proof.
  intros Hc Hk Hr. destruct k as [|x k]; [done|]. cbn [app] in Hc. apply canonical_tail in Hc. destruct (exists_last Hr) as (m & e & ->).
  rewrite app_assoc, removelast_snoc in Hc. apply Forall_app in Hc as [_ Hm]. split.
  - destruct m as [|y m]; [done|]. apply Join_canonical. cbn [app canonical]. destruct (m ++ [e]) eqn:E; [by destruct m|].
    rewrite <- E, removelast_snoc. apply named_all. by inversion Hm.
  - rewrite Join_canonical; [by rewrite strings_Join_cons by done|]. unfold canonical. cbn. destruct (m ++ [e]) eqn:E; [by destruct m|].
    rewrite <- E, removelast_snoc. by apply named_all.
Qed.


(** The trimmed form decides what [HasPrefix] answers. *)
Lemma HasPrefix_trimmed p q b k : trimPrefixPath q = (b, k) -> k <> [] ->
  HasPrefix p q = if decide (p = [] \/ b = true /\ len p = len k) then Ok false else prefix_test p k.
Proof.
  intros Et Hk. unfold HasPrefix. rewrite Et, hasPrefix_test by done. destruct b; cbn [andb].
  - destruct (Z.eqb_spec (len p) (len k)) as [E|E]; [by rewrite decide_True by auto|].
    destruct (decide (p = [])) as [->|Hp]; [by rewrite decide_True by auto|]. rewrite decide_False; [done|]. tauto.
  - destruct (decide (p = [])) as [->|Hp]; [by rewrite decide_True by auto|]. rewrite decide_False; [done|]. intros [?|[? _]]; done.
Qed.

(** [TrimPrefix] when [q] is a prefix. *)
Lemma TrimPrefix_trimmed p q b k : trimPrefixPath q = (b, k) -> q <> [] -> k <> [] -> q = (if b then k ++ [[]] else k) ->
  TrimPrefix p q =
    let! h := HasPrefix p q in
    if h then Ok (let r := drop (length k) p in if b then r else match r with [] => [] | _ => [] :: r end) else Ok p.
Proof.
  intros Et Hq Hk Eq. unfold TrimPrefix, HasPrefix. rewrite len_zero, bool_decide_false, Et by done.
  destruct (b && (len p =? len k)) eqn:Eb; [done|]. rewrite hasPrefix_test by done. destruct (decide (p = [])) as [->|Hp]; [done|].
  unfold prefix_test. case_decide as H; [|by case_decide]. cbn [rbind negb]. destruct H as [r ->].
  assert (zslice (k ++ r) (len k) (len (k ++ r)) = Ok r) as E.
  { rewrite zslice_Ok; [|pose proof (len_nonneg k); rewrite len_app; pose proof (len_nonneg r); lia|lia].
    unfold len. rewrite Nat2Z.id, drop_app_length, length_app. rewrite take_ge; [done|]. lia. }
  rewrite drop_app_length. destruct b; [done|]. subst q. rewrite E. cbn [rbind]. rewrite len_pos. by destruct r.
Qed.

Lemma HasPrefix_nil p : HasPrefix p [] = Ok true.
Proof. unfold HasPrefix, hasPrefix. cbn. by destruct (len p =? 0). Qed.

Section prefix_text.
Context (sep : rune) (p q : T) (Cp : canonical p = true) (Cq : canonical q = true) (Fp : sep_free sep p) (Fq : sep_free sep q).

Lemma TrimPrefix_text :
  match HasPrefix p q with
  | Ok true => exists t, TrimPrefix p q = Ok t /\ Join p sep = Join q sep ++ Join t sep
  | Ok false => TrimPrefix p q = Ok p
  | _ => TrimPrefix p q = Panic
  end.
Proof.
  destruct (decide (q = [])) as [->|Hq]; [rewrite HasPrefix_nil; by exists p|].
  destruct (trimPrefixPath_spec q Cq Hq) as (b & k & Et & _ & Hk & Eq & _). rewrite (TrimPrefix_trimmed p q b k) by done.
  rewrite (HasPrefix_trimmed p q b k) by done. case_decide as Hd; [done|]. unfold prefix_test. case_decide as H; [|by case_decide].
  cbn [rbind]. destruct H as [r ->]. rewrite drop_app_length. eexists. split; [done|].
  rewrite !(Join_canonical _ sep) by done. assert (r <> [] -> Join r sep = strings_Join r [sep] /\ Join ([] :: r) sep = sep :: strings_Join r [sep]) as Hj
    by (intros; by apply (Join_rest sep k)).
  destruct (decide (r = [])) as [->|Hr].
  - destruct b; [exfalso; apply Hd; right; by rewrite app_nil_r|]. subst q. cbn. by rewrite !app_nil_r.
  - destruct Hj as [J1 J2]; [done|]. rewrite strings_Join_app by done. subst q. destruct b.
    + rewrite strings_Join_last, J1, <- !app_assoc by done. done.
    + assert ((match r with [] => [] | _ => [] :: r end) = [] :: r) as -> by (by destruct r). by rewrite J2.
Qed.

Lemma HasPrefix_text :
  HasPrefix p q =
    if decide (p = q \/ Join (AsPrefix q) sep `prefix_of` Join p sep) then Ok true
    else if decide (IsFilepath p = true /\ q <> AsPrefix p /\ Join (AsPrefix p) sep `prefix_of` Join q sep) then Panic
    else Ok false.
Proof.
  destruct (decide (q = [])) as [->|Hq]; [rewrite HasPrefix_nil, decide_True; [done|right; apply prefix_nil]|].
  destruct (trimPrefixPath_spec q Cq Hq) as (b & k & Et & Ea & Hk & Eq & Hf). rewrite (HasPrefix_trimmed p q b k) by done.
  rewrite Ea. assert (canonical (k ++ [[]]) = true) as Ck.
  { rewrite <- Ea. by apply Editing_canonical. }
  rewrite (Join_canonical (k ++ [[]])), (Join_canonical p), (Join_canonical q) by done.
  destruct (decide (p = [])) as [->|Hp].
  { rewrite decide_True by auto. rewrite decide_False, decide_False; [done|by intros [? _]|]. intros [?|H]; [done|].
    rewrite strings_Join_last in H by done. apply prefix_nil_inv in H. by destruct (strings_Join k [sep]). }
  assert (sep_free sep k) as Fk by (unfold sep_free in *; destruct b; subst q; [by apply Forall_app in Fq as [? _]|done]).
  assert (strings_Join (k ++ [[]]) [sep] `prefix_of` strings_Join p [sep] <-> k `prefix_of` p /\ (length k < length p)%nat) as T1
    by (by apply text_prefix).
  assert (IsFilepath p = true -> AsPrefix p = p ++ [[]] /\ (Join (AsPrefix p) sep `prefix_of` strings_Join q [sep] <-> p `prefix_of` q /\ (length p < length q)%nat)) as T2.
  { intros Hfp. assert (AsPrefix p = p ++ [[]]) as E.
    { unfold AsPrefix. unfold IsFilepath in Hfp. apply andb_true_iff in Hfp as [_ Hfp]. apply negb_true_iff in Hfp. rewrite Hfp, len_zero.
      by rewrite bool_decide_false. }
    split; [done|]. rewrite Join_canonical by (by apply Editing_canonical). rewrite E. by apply text_prefix. }
  assert (length q = if b then S (length k) else length k) as Lq by (subst q; destruct b; rewrite ?length_app; cbn; lia).
  unfold len, prefix_test. destruct (decide (k `prefix_of` p)) as [Hkp|Hkp].
  - pose proof (prefix_length _ _ Hkp) as Hle. destruct (decide (length k < length p)%nat) as [Hlt|Hge].
    { rewrite decide_False by (intros [?|[_ ?]]; [done|lia]). by rewrite decide_True by tauto. }
    assert (p = k) as -> by (symmetry; apply prefix_length_eq; [done|lia]). destruct b.
    + rewrite decide_True by auto. rewrite decide_False, decide_False; [done| |].
      * intros (H1 & H2 & _). destruct (T2 H1) as [E _]. congruence.
      * intros [H|H]; [subst q; apply (f_equal length) in H; rewrite length_app in H; cbn in H; lia|]. apply T1 in H. lia.
    + rewrite decide_False by (intros [?|[? _]]; done). by rewrite decide_True by auto.
  - assert (~ (p = q \/ strings_Join (k ++ [[]]) [sep] `prefix_of` strings_Join p [sep])) as Hn.
    { intros [->|H]; [|tauto]. apply Hkp. subst q. destruct b; [by apply prefix_app_r|done]. }
    rewrite (decide_False (P := p = q \/ _)) by done. destruct (decide (p `prefix_of` k)) as [Hpk|Hpk].
    + assert (length p < length k)%nat as Hlt.
      { pose proof (prefix_length _ _ Hpk). destruct (decide (length p = length k)) as [E|]; [|lia].
        destruct Hkp. rewrite (prefix_length_eq p k) by (done || lia). done. }
      assert (p `prefix_of` q) as Hpq by (subst q; destruct b; [by apply prefix_app_r|done]).
      assert (length p < length q)%nat as Hlq by (rewrite Lq; destruct b; lia).
      assert (IsFilepath p = true) as Hfp by (by apply (strict_prefix_filepath p q)).
      rewrite decide_False by (intros [?|[_ ?]]; [done|lia]). destruct (T2 Hfp) as [E HT]. rewrite decide_True; [done|]. split_and!; [done| |by apply HT].
      rewrite E. intros ->. rewrite length_app in Lq. cbn in Lq. destruct b; [lia|]. specialize (Hf eq_refl). unfold IsFilepath in Hf.
      by rewrite last_empty_snoc, andb_false_r in Hf.
    + rewrite (decide_False (P := IsFilepath p = true /\ _)); [by case_decide|]. intros (H1 & H2 & H3). destruct (T2 H1) as [E HT]. apply HT in H3 as [H3 H4].
      apply Hpk. destruct b; [|by subst q]. subst q. apply prefix_removelast in H3; [|done]. by rewrite removelast_snoc in H3.
Qed.
End prefix_text.

(** On canonical paths the comparison of components is one of texts:
    [HasPrefix] is true when the paths are equal or the text of the one as a
    prefix begins the text of the other, and otherwise it panics when the
    supposed prefix lies below the path (unless it is the path itself marked as
    a prefix), and is false in every other case.  [TrimPrefix] follows it: it
    removes the text of the prefix, returns the path, or panics. *)
Theorem Prefix_text (sep : rune) (p q : T) : canonical p = true -> canonical q = true -> sep_free sep p -> sep_free sep q ->
  HasPrefix p q =
    (if decide (p = q \/ Join (AsPrefix q) sep `prefix_of` Join p sep) then Ok true
     else if decide (IsFilepath p = true /\ q <> AsPrefix p /\ Join (AsPrefix p) sep `prefix_of` Join q sep) then Panic
     else Ok false) /\
  match HasPrefix p q with
  | Ok true => exists t, TrimPrefix p q = Ok t /\ Join p sep = Join q sep ++ Join t sep
  | Ok false => TrimPrefix p q = Ok p
  | _ => TrimPrefix p q = Panic
  end.
Proof. intros Cp Cq Fp Fq. split; [by apply HasPrefix_text|by apply TrimPrefix_text]. Qed.

(** ** Suffixes *)

Lemma zget_reverse {A} (l : list A) i : 0 <= i -> zget l (len l - 1 - i) = zget (reverse l) i.
Proof.
  intros Hi. unfold zget, len. rewrite (proj2 (Z.leb_le 0 i)) by done. destruct (Z.leb_spec 0 (Z.of_nat (length l) - 1 - i)).
  - rewrite reverse_lookup by lia. f_equal. lia.
  - symmetry. apply lookup_ge_None. rewrite length_reverse. lia.
Qed.

Lemma suffix_prefix_loop path i s : 0 <= i -> suffix_loop path (len path - 1 - i) s = prefix_loop (reverse path) i s.
Proof.
  revert i. induction s as [|c s IH]; intros i Hi; [done|]. cbn [suffix_loop prefix_loop]. rewrite zget_reverse by done.
  destruct (checked (zget (reverse path) i)) as [x| |]; cbn [rbind]; [|done..]. case_bool_decide; [|done].
  replace (len path - 1 - i - 1) with (len path - 1 - (i + 1)) by lia. apply IH. lia.
Qed.

(** [HasSuffix] compares components from the end and runs off the front of a
    path that is a proper suffix of the suffix; [TrimSuffix] cuts the suffix off
    and keeps a root. *)
Lemma HasSuffix_spec path suffix :
  HasSuffix path suffix =
    (if decide (suffix `suffix_of` path) then Ok true
     else if decide (path <> [] /\ path `suffix_of` suffix) then Panic else Ok false).
Proof.
  unfold HasSuffix. rewrite !len_zero. destruct (decide (suffix = [])) as [->|Hs].
  { rewrite decide_True by apply suffix_nil. by destruct (bool_decide (path = [])). }
  rewrite (bool_decide_false (suffix = [])), andb_false_r by done. destruct (decide (path = [])) as [->|Hp].
  { rewrite decide_False, decide_False; [done|by intros []|]. intros H%suffix_nil_inv. done. }
  rewrite bool_decide_false by done. pose proof (suffix_prefix_loop path 0 (reverse suffix)) as E. rewrite Z.sub_0_r in E.
  rewrite E, prefix_loop_spec by lia. unfold prefix_test. change (drop (Z.to_nat 0) (reverse path)) with (reverse path).
  rewrite (decide_ext _ (suffix `suffix_of` path)) by (by rewrite suffix_prefix_reverse). case_decide; [done|].
  apply decide_ext. rewrite suffix_prefix_reverse. tauto.
Qed.

Lemma TrimSuffix_spec path suffix : suffix `suffix_of` path ->
  exists r, path = r ++ suffix /\ TrimSuffix path suffix = Ok (if decide (r = [[]]) then [[]; []] else r).
Proof.
  intros Hs. pose proof (HasSuffix_spec path suffix) as E. rewrite decide_True in E by done. destruct Hs as [r ->]. exists r. split; [done|].
  unfold TrimSuffix. rewrite E. cbn [rbind negb]. pose proof (len_nonneg r). pose proof (len_nonneg suffix).
  rewrite zslice_Ok by (rewrite len_app; lia). change (drop (Z.to_nat 0) (r ++ suffix)) with (r ++ suffix). cbn [rbind]. rewrite len_app.
  replace (Z.to_nat (len r + len suffix - len suffix - 0)) with (length r) by (unfold len; lia). rewrite take_app_length.
  destruct r as [|c [|d r]]; [by rewrite decide_False| |by rewrite decide_False]. cbn. destruct c; [done|]. by rewrite decide_False.
Qed.

(** ** Longest common prefixes and suffixes *)

Lemma leading_loop_spec val o paths :
  match leading_loop val o paths with
  | (true, _) => Forall (fun p => zget p o = Some val) paths
  | (false, _) => exists p, p ∈ paths /\ zget p o <> Some val
  end.
Proof.
  induction paths as [|p paths IH]; [by constructor|]. cbn [leading_loop]. destruct (zget p o) as [c|] eqn:E.
  - case_bool_decide as Ec; cbn [negb].
    + subst c. destruct (leading_loop val o paths) as [[] r].
      * by constructor.
      * destruct IH as (q & Hq & H). exists q. split; [by right|done].
    + exists p. split; [by left|congruence].
  - exists p. split; [by left|congruence].
Qed.

Lemma prefix_take_S (first p : T) (j : nat) val : first !! j = Some val -> take j first `prefix_of` p ->
  (p !! j = Some val <-> take (S j) first `prefix_of` p).
Proof.
  intros Hv [r ->]. rewrite (take_S_r _ _ _ Hv). pose proof (lookup_lt_Some _ _ _ Hv). assert (length (take j first) = j) as Hl by (rewrite length_take; lia).
  rewrite lookup_app_r by lia. rewrite Hl, Nat.sub_diag. split.
  - destruct r as [|x r]; [done|]. intros [= ->]. exists r. by rewrite <- app_assoc.
  - intros [r' E]. rewrite <- app_assoc in E. apply app_inv_head in E. by rewrite E.
Qed.

Lemma lcp_loop_spec first rest fuel (j : nat) : (length first - j < fuel)%nat -> (j <= length first)%nat ->
  Forall (fun p => take j first `prefix_of` p) rest ->
  exists r, lcp_loop fuel first rest (take j first) (Z.of_nat j) = r /\
  ((Forall (fun p => first `prefix_of` p) rest /\ r = Panic) \/
   exists k m, r = Ok (take k first ++ m) /\ (k < length first)%nat /\
    Forall (fun p => take k first `prefix_of` p) rest /\ (exists p, p ∈ rest /\ ~ take (S k) first `prefix_of` p) /\
    (m = [] \/ m = [[]] /\ (0 < k)%nat)).
Proof.
  revert j. induction fuel as [|fuel IH]; intros j Hf Hj Ha; [lia|]. cbn [lcp_loop]. unfold sameAtLeadingOffset, zget at 1.
  rewrite (proj2 (Z.leb_le 0 (Z.of_nat j))), Nat2Z.id by lia. destruct (first !! j) as [val|] eqn:Ev; cbn [checked rbind].
  - pose proof (leading_loop_spec val (Z.of_nat j) rest) as Hl. destruct (leading_loop val (Z.of_nat j) rest) as [[] remaining]; cbn [negb].
    + unfold zget. rewrite (proj2 (Z.leb_le 0 (Z.of_nat j))), Nat2Z.id, Ev by lia. cbn [checked rbind]. rewrite <- (take_S_r _ _ _ Ev).
      replace (Z.of_nat j + 1) with (Z.of_nat (S j)) by lia. pose proof (lookup_lt_Some _ _ _ Ev). apply IH; [lia|lia|].
      rewrite Forall_forall in *. intros p Hp. apply (prefix_take_S first p j val Ev); [by apply Ha|]. specialize (Hl p Hp).
      apply zget_Some in Hl as [_ Hl]. by rewrite Nat2Z.id in Hl.
    + eexists. split; [reflexivity|]. right. pose proof (lookup_lt_Some _ _ _ Ev) as Hlt. destruct Hl as (p & Hp & Hne).
      exists j, (if remaining && (0 <? len (take j first)) then [[]] else []). split_and!; [|done|done| |].
      * destruct (remaining && (0 <? len (take j first))); [done|by rewrite app_nil_r].
      * exists p. split; [done|]. rewrite Forall_forall in Ha. rewrite <- (prefix_take_S first p j val Ev) by (by apply Ha).
        intros E. apply Hne. apply zget_Some. split; [lia|by rewrite Nat2Z.id].
      * destruct remaining; [|by left]. cbn [andb]. destruct (Z.ltb_spec 0 (len (take j first))); [right|by left]. split; [done|].
        unfold len in *. rewrite length_take in *. lia.
  - eexists. split; [reflexivity|]. left. apply lookup_ge_None in Ev. rewrite take_ge in Ha by lia. done.
Qed.

Lemma reverse_match_spec val o paths : 1 <= o ->
  exists b, reverse_loop val o paths = Ok b /\ (b = true <-> Forall (fun p => zget (reverse p) (o - 1) = Some val) paths).
Proof.
  intros Ho. induction paths as [|p paths IH]; [exists true; cbn; split; [done|by split]|]. cbn [reverse_loop].
  setoid_rewrite Forall_cons. assert (zget (reverse p) (o - 1) = zget p (len p - o)) as -> by (rewrite <- zget_reverse by lia; f_equal; lia).
  destruct (Z.ltb_spec (len p) o).
  - exists false. split; [done|]. split; [done|]. intros [E _]. apply zget_lt in E. lia.
  - destruct (zget_is_Some p (len p - o)) as [c Ec]; [lia|]. rewrite Ec. cbn [checked rbind]. case_bool_decide as E; cbn [negb].
    + subst c. destruct IH as (b & -> & Hb). exists b. split; [done|]. naive_solver.
    + exists false. split; [done|]. split; [done|]. intros [[= ->] _]. done.
Qed.

Lemma lcs_loop_spec first rest fuel (j : nat) : (length first - j < fuel)%nat -> (j <= length first)%nat ->
  Forall (fun p => take j (reverse first) `prefix_of` reverse p) rest ->
  exists k, lcs_loop fuel first rest (reverse (take j (reverse first))) (Z.of_nat j + 1) = Ok (reverse (take k (reverse first))) /\ (k <= length first)%nat /\
    Forall (fun p => take k (reverse first) `prefix_of` reverse p) rest /\
    ((k < length first)%nat -> exists p, p ∈ rest /\ ~ take (S k) (reverse first) `prefix_of` reverse p).
Proof.
  revert j. induction fuel as [|fuel IH]; intros j Hf Hj Ha; [lia|]. cbn [lcs_loop]. unfold sameAtReverseOffset.
  destruct (Z.ltb_spec (len first) (Z.of_nat j + 1)) as [Hlt|Hge].
  { exists j. cbn [rbind]. unfold len in *. split_and!; [done|done|done|lia]. }
  replace (len first - (Z.of_nat j + 1)) with (len first - 1 - Z.of_nat j) by lia. rewrite zget_reverse by lia.
  destruct (zget_is_Some (reverse first) (Z.of_nat j)) as [val Ev]; [unfold len in *; rewrite length_reverse; lia|]. rewrite Ev. cbn [checked rbind].
  apply zget_Some in Ev as [_ Ev]. rewrite Nat2Z.id in Ev.
  destruct (reverse_match_spec val (Z.of_nat j + 1) rest) as (b & -> & Hb); [lia|]. cbn [rbind]. replace (Z.of_nat j + 1 - 1) with (Z.of_nat j) in Hb by lia.
  rewrite Forall_forall in Ha. destruct b.
  - rewrite <- reverse_snoc, <- (take_S_r _ _ _ Ev). replace (Z.of_nat j + 1 + 1) with (Z.of_nat (S j) + 1) by lia.
    unfold len in *. apply IH; [lia|lia|]. pose proof (proj1 Hb eq_refl) as Hb'. rewrite Forall_forall in *. intros p Hp. apply (prefix_take_S (reverse first) (reverse p) j val Ev); [by apply Ha|].
    specialize (Hb' p Hp). apply zget_Some in Hb' as [_ E]. by rewrite Nat2Z.id in E.
  - exists j. split_and!; [done|done|by apply Forall_forall|]. intros _.
    assert (~ Forall (fun p => zget (reverse p) (Z.of_nat j) = Some val) rest) as Hn by (intros E; by apply Hb in E).
    apply not_Forall_Exists in Hn; [|apply _]. apply Exists_exists in Hn as (p & Hp & Hne). exists p. split; [done|].
    rewrite <- (prefix_take_S (reverse first) (reverse p) j val Ev) by (by apply Ha). intros E. apply Hne. apply zget_Some.
    split; [lia|by rewrite Nat2Z.id].
Qed.

(** Of two or more paths, [LongestCommonPrefix] panics when the first one
    is not empty and begins all the others, and otherwise returns the longest
    list of components that begins all of them, with or without the mark of a
    prefix (none when the list is empty); [LongestCommonSuffix] always returns
    the longest list of components that ends all of them, save that a lone mark
    of a prefix counts as nothing. *)
Theorem LongestCommon (first second : T) (rest : list T) :
  let paths := first :: second :: rest in
  (if decide (first <> [] /\ Forall (fun p => first `prefix_of` p) paths) then LongestCommonPrefix paths = Panic
   else exists c m, LongestCommonPrefix paths = Ok (c ++ m) /\ Forall (fun p => c `prefix_of` p) paths /\
     (forall d, Forall (fun p => d `prefix_of` p) paths -> (length d <= length c)%nat) /\ (m = [] \/ m = [[]] /\ c <> [])) /\
  exists c, LongestCommonSuffix paths = Ok (if decide (c = [[]]) then [] else c) /\ Forall (fun p => c `suffix_of` p) paths /\
     (forall d, Forall (fun p => d `suffix_of` p) paths -> (length d <= length c)%nat).
Proof.
  cbn zeta. split.
  - unfold LongestCommonPrefix. rewrite len_zero. destruct (decide (first = [])) as [->|Hf].
    { rewrite decide_False by (by intros []). rewrite bool_decide_true by done. exists [], []. split_and!; [done| | |by left].
      - repeat constructor; [apply prefix_nil..|]. apply Forall_true. intros; apply prefix_nil.
      - intros d Hd. apply Forall_inv, prefix_nil_inv in Hd. by subst d. }
    rewrite bool_decide_false by done.
    destruct (lcp_loop_spec first (second :: rest) (S (length first)) 0) as (r & Er & [[Ha ->]|(k & m & -> & Hk & Ha & (p & Hp & Hn) & Hm)]);
      [lia|lia|apply Forall_true; intros; apply prefix_nil| |].
    + rewrite decide_True; [exact Er|]. split; [done|]. by constructor.
    + rewrite decide_False.
      2: { intros [_ H]. apply Hn. rewrite Forall_forall in H. etrans; [apply prefix_take|]. apply H. by right. }
      exists (take k first), m. split_and!; [exact Er|by constructor; [apply prefix_take|]| |].
      * intros d Hd. rewrite length_take_le by lia. apply Nat.nlt_ge. intros Hlt. apply Hn.
        apply Forall_cons in Hd as [[r Ed] Hd]. rewrite Forall_forall in Hd. etrans; [|by apply Hd].
        rewrite Ed, take_app_le by lia. apply prefix_take.
      * destruct Hm as [->|[-> Hm]]; [by left|right]. split; [done|]. destruct k, first; done || lia.
  - unfold LongestCommonSuffix. destruct (lcs_loop_spec first (second :: rest) (S (length first)) 0) as (k & E & Hk & Ha & Hn);
      [lia|lia|apply Forall_true; intros; apply prefix_nil|].
    change (Z.of_nat 0 + 1) with 1 in E. change (reverse (take 0 (reverse first))) with (@nil str) in E. rewrite E. cbn [rbind].
    exists (reverse (take k (reverse first))). split_and!.
    + destruct (reverse (take k (reverse first))) as [|c [|d l]]; [by rewrite decide_False| |by rewrite decide_False].
      destruct c; [by rewrite decide_True|by rewrite decide_False].
    + constructor; [|eapply Forall_impl; [exact Ha|]; intros p; cbn]; rewrite suffix_prefix_reverse, reverse_involutive; [apply prefix_take|done].
    + intros d Hd. rewrite length_reverse. apply Forall_cons in Hd as [Hd1 Hd]. pose proof (suffix_length _ _ Hd1).
      rewrite length_take_le by (rewrite length_reverse; lia). apply Nat.nlt_ge. intros Hlt. destruct Hn as (p & Hp & Hne); [lia|]. apply Hne.
      rewrite Forall_forall in Hd. specialize (Hd p Hp). rewrite suffix_prefix_reverse in Hd, Hd1. etrans; [|exact Hd].
      destruct Hd1 as [r ->]. rewrite take_app_le by (rewrite length_reverse; lia). apply prefix_take.
Qed.

(** ** Examples *)

(** "a", "b" and "c". *)
#[local] Abbreviation na := [97].
#[local] Abbreviation nb := [98].
#[local] Abbreviation nc := [99].

(** A prefix that lies below the path, the longest common prefix of a path and
    itself or what is below it, and a suffix longer than the path are out of
    range. *)
Lemma HasPrefix_below_panics : HasPrefix [[]; na] [[]; na; nb] = Panic.
Proof. reflexivity. Qed.

Lemma LongestCommonPrefix_same_panics : LongestCommonPrefix [[na; nb]; [na; nb]] = Panic /\ LongestCommonPrefix [[na]; [na; nb]] = Panic.
Proof. by split. Qed.

Lemma HasSuffix_longer_panics : HasSuffix [nb] [na; nb] = Panic.
Proof. reflexivity. Qed.

(** A path that is a prefix is not nothing after itself is removed, and whether
    a common prefix is marked as one depends on the order of the paths. *)
Lemma TrimPrefix_self : TrimPrefix [[]; na; []] [[]; na; []] = Ok [[]].
Proof. reflexivity. Qed.

Lemma LongestCommonPrefix_order :
  LongestCommonPrefix [[na; nb]; [na; nc]; [na]] = Ok [na; []] /\ LongestCommonPrefix [[na; nb]; [na]; [na; nc]] = Ok [na].
Proof. by split. Qed.

Lemma sep_free_check sep p : forallb (forallb (fun r => negb (r =? sep))) p = true -> sep_free sep p.
Proof.
  intros H. apply Is_true_eq_left, forallb_True in H. eapply Forall_impl; [exact H|]. intros c Hc Hin. apply forallb_True in Hc.
  rewrite Forall_forall in Hc. specialize (Hc _ Hin). cbn in Hc. by rewrite Z.eqb_refl in Hc.
Qed.

Lemma Split_Join_witness : slash <> RuneError /\ Split (Join [[]; na; nb; []] slash) slash = [[]; na; nb; []].
Proof. split; [done|]. apply (proj2 (Split_Join slash ltac:(discriminate))); [done|]. by apply sep_free_check. Defined.

Lemma Editing_canonical_witness : canonical [[]; na; nb] = true /\ canonical (Prefix [[]; na; nb]) = true.
Proof. split; [done|]. by apply Editing_canonical. Defined.

Lemma Editing_text_witness : canonical [[]; na; nb] = true /\
  Join [[]; na; nb] slash = Join (Prefix [[]; na; nb]) slash ++ Base [[]; na; nb].
Proof. split; [done|]. by apply Editing_text. Defined.

Lemma Prefix_text_witness : HasPrefix [[]; na; nb] [[]; na; []] = Ok true /\
  exists t, TrimPrefix [[]; na; nb] [[]; na; []] = Ok t /\ Join [[]; na; nb] slash = Join [[]; na; []] slash ++ Join t slash.
Proof.
  split; [done|]. apply (proj2 (Prefix_text slash [[]; na; nb] [[]; na; []] eq_refl eq_refl
    (sep_free_check slash [[]; na; nb] eq_refl) (sep_free_check slash [[]; na; []] eq_refl))).
Defined.
