(* ===== verification/Cloudmatch.v ===== *)
(** * Matching the names of paths (path/cloudpath: the matchers and cloud_join.go)

    The matchers for S3, Google Cloud Storage, URLs, Windows and Unix, the loop
    over them and the functions that return one part of a match; and [Join],
    [Base] and [Prefix] of cloud_join.go.  [url.Parse] is a parameter; of its
    result the code reads the scheme, host, path and query.  A slice that could
    be out of range is checked.  Strings are lists of runes as in Cloudpath: the
    code's byte offsets all fall on the ASCII texts it looks for. *)

From stdpp Require Import base list option numbers gmap.
From Stdlib Require Import ZArith Lia.
From stdpp Require Import list.
From S2P Require Import Prelude Text Cloudpath.
Import Stdlib.Strings.String.StringSyntax.

Open Scope Z_scope.
Open Scope go_scope.

(** ** Matches *)

Record Match := MkMatch {
  Matched : str;
  m_Scheme : str;
  Local_ : bool;
  m_Host : str;
  m_Volume : str;
  m_Path : str;
  m_Key : str;
  m_Region : str;
  Separator : rune;
  m_Parameters : option (gmap str (list str));
}.

(** [Match{}]. *)
Definition no_match : Match := MkMatch [] [] false [] [] [] [] [] 0 None.

(** What the code reads of a [url.URL]; the query as [Query] returns it. *)
Record URL := MkURL { u_Scheme : str; u_Host : str; u_Path : str; u_Query : gmap str (list str) }.

Definition backslash : rune := 92.
Definition colon : rune := 58.

Definition AWSS3 : str := Str "s3".
Definition GoogleCloudStorage : str := Str "gs".
Definition UnixFileSystem : str := Str "unix".
Definition WindowsFileSystem : str := Str "windows".
Definition HTTP : str := Str "http".
Definition HTTPS : str := Str "https".

(** A nil map when there are no parameters. *)
Definition parametersFromQuery (u : URL) : option (gmap str (list str)) :=
  if bool_decide (u_Query u = ∅) then None else Some (u_Query u).

(** ** File URIs and buckets *)

Definition isWindowsDrive (p : str) : str * bool :=
  match p with
  | [] => ([], false)
  | drive :: rest =>
      if (65 <=? drive) && (drive <=? 90) || (97 <=? drive) && (drive <=? 122) then
        match rest with
        | c :: _ => if c =? colon then ([drive], true) else ([], false)
        | [] => ([], false)
        end
      else ([], false)
  end.

(** [(host, rest, drive)] *)
Definition parseFileURI (p : str) : res (str * str * str) :=
  let idx := Index p [slash] in
  if idx <? 0 then Ok ([], [], [])
  else
    let! host := zslice p 0 idx in
    let! rest := zslice p idx (len p) in
    let! after := zslice p (idx + 1) (len p) in
    let '(d, ok) := isWindowsDrive after in
    if ok : bool then let! rest := zslice rest 1 (len rest) in Ok (host, rest, d)
    else Ok (host, rest, []).

(** [p] is [bucket/key...]. *)
Definition bucket_key (p : str) (sep : rune) : res (str * str) :=
  let idx := Index p [sep] in
  if idx <? 0 then Ok (p, [])
  else
    let! bucket := zslice p 0 idx in
    let! key := zslice p (idx + 1) (len p) in
    Ok (bucket, key).

Definition bucketAndKey (path : str) (sep : rune) : res (str * str) :=
  match path with
  | [] => Ok ([], [])
  | [c] => if c =? sep then Ok ([], []) else bucket_key path sep
  | c :: rest => bucket_key (if c =? sep then rest else path) sep
  end.

Section matchers.
Context (Parse : str -> option URL).

Definition is_http (u : URL) : bool := bool_decide (u_Scheme u = HTTP) || bool_decide (u_Scheme u = HTTPS).

(** ** S3 *)

Definition s3Region (host : str) : res str :=
  if negb (prefixed (Str "s3.") host) then Ok []
  else
    let eidx := Index host (Str ".amazonaws.com") in
    if eidx <? 0 then Ok [] else zslice host 3 eidx.

Definition AWSS3MatcherSep (p : str) (sep : rune) : res Match :=
  if prefixed (Str "s3://") p then
    let! path := zslice p 5 (len p) in
    let! (volume, key) := bucketAndKey path sep in
    Ok (MkMatch p AWSS3 false [] volume path key [] sep None)
  else
    match Parse p with
    | None => Ok no_match
    | Some u =>
        let pars := parametersFromQuery u in
        if negb (is_http u) then Ok no_match
        else
          let host := u_Host u in
          let s3idx := Index host (Str "s3.") in
          if s3idx <? 0 then Ok no_match
          else
            let! from := zslice host s3idx (len host) in
            let! region := s3Region from in
            if s3idx =? 0 then
              let! (volume, key) := bucketAndKey (u_Path u) sep in
              Ok (MkMatch p AWSS3 false host volume (u_Path u) key region sep pars)
            else
              let! volume := zslice host 0 (s3idx - 1) in
              let key := u_Path u in
              let key := match key with c :: rest => if c =? sep then rest else key | [] => key end in
              Ok (MkMatch p AWSS3 false host volume (u_Path u) key region sep pars)
    end.

Definition AWSS3Matcher (p : str) : res Match := AWSS3MatcherSep p slash.

(** ** Google Cloud Storage *)

Definition endpoint : str := Str "storage/v1/b".

(** [u.Query().Get(name)] *)
Definition query_get (u : URL) (name : str) : str :=
  match u_Query u !! name with Some (v :: _) => v | _ => [] end.

(** The switch on the operation before the endpoint of the JSON API; [m] takes
    the volume and the key. *)
Definition api_object (u : URL) (m : str -> str -> Match) (path op : str) : res Match :=
  if bool_decide (op = Str "/") then
    let! (volume, key) := bucketAndKey path slash in Ok (m volume key)
  else if bool_decide (op = Str "/download/") then
    let oidx := Index path (Str "/o/") in
    if oidx <? 0 then Ok no_match
    else
      let! volume := zslice path 1 oidx in
      let! key := zslice path (oidx + 2) (len path) in
      Ok (m volume key)
  else if bool_decide (op = Str "/upload/") then
    let oidx := Index path (Str "/o") in
    if oidx <? 0 then Ok no_match
    else
      let! volume := zslice path 1 oidx in
      Ok (m volume (query_get u (Str "name")))
  else if bool_decide (op = Str "/batch/") then Ok (m [] [])
  else Ok no_match.

Definition GoogleCloudStorageMatcher (p : str) : res Match :=
  if prefixed (Str "gs://") p then
    let! path := zslice p 5 (len p) in
    let! (volume, key) := bucketAndKey path slash in
    Ok (MkMatch p GoogleCloudStorage false [] volume path key [] slash None)
  else
    match Parse p with
    | None => Ok no_match
    | Some u =>
        let pars := parametersFromQuery u in
        if negb (is_http u) then Ok no_match
        else
          let m path volume key := MkMatch p GoogleCloudStorage false (u_Host u) volume path key [] slash pars in
          if bool_decide (u_Host u = Str "storage.cloud.google.com") then
            let! (volume, key) := bucketAndKey (u_Path u) slash in Ok (m (u_Path u) volume key)
          else if bool_decide (u_Host u = Str "storage.googleapis.com") then
            let idx := Index (u_Path u) endpoint in
            if idx <? 0 then Ok no_match
            else
              let! path := zslice (u_Path u) (idx + len endpoint) (len (u_Path u)) in
              let! op := zslice (u_Path u) 0 idx in
              api_object u (m path) path op
          else Ok no_match
    end.

(** ** URLs and local file systems *)

Definition URLMatcher (p : str) : res Match :=
  match Parse p with
  | None => Ok no_match
  | Some url =>
      if negb (bool_decide (u_Scheme url = HTTP)) && negb (bool_decide (u_Scheme url = HTTPS)) then Ok no_match
      else Ok (MkMatch p (u_Scheme url) false (u_Host url) [] (u_Path url) (u_Path url) [] slash (parametersFromQuery url))
  end.

Definition fileURIWindows (o p : str) : res Match :=
  if len p =? 0 then Ok no_match
  else
    let! (host, rest, drive) := parseFileURI p in
    if (len drive =? 0) || (len rest =? 0) then Ok no_match
    else
      let! key := zslice rest 2 (len rest) in
      Ok (MkMatch o WindowsFileSystem true host drive rest key [] slash None).

(** The rest of [WindowsMatcher] after the prefix of extended names. *)
Definition windowsName (o p : str) : res Match :=
  let m host volume path key := MkMatch o WindowsFileSystem true host volume path key [] backslash None in
  let '(drive, ok) := isWindowsDrive p in
  if ok : bool then let! key := zslice p 2 (len p) in Ok (m [] drive p key)
  else if (len p <? 2) || (Index p [backslash] <? -1) then Ok no_match
  else if negb (prefixed [backslash; backslash] p) then Ok no_match
  else
    let! unc := zslice p 2 (len p) in
    match strings_Split (strings_TrimSuffix unc backslash) backslash with
    | [] => Panic
    | [host] => Ok (m host [] [] [])
    | [host; volume] => Ok (m host volume [] [])
    | host :: volume :: rest =>
        let path := backslash :: strings_Join rest [backslash] in Ok (m host volume path path)
    end.

Definition WindowsMatcher (p : str) : res Match :=
  if len p =? 0 then Ok no_match
  else if prefixed (Str "file://") p then
    let! after := zslice p 7 (len p) in fileURIWindows p after
  else windowsName p (strings_TrimPrefix p (Str "\\?")).

Definition fileURIUnix (o p : str) : res Match :=
  if len p =? 0 then Ok no_match
  else
    let! (host, rest, win) := parseFileURI p in
    if (0 <? len win) || (len rest =? 0) then Ok no_match
    else Ok (MkMatch o UnixFileSystem true host [] rest rest [] slash None).

Definition UnixMatcher (p : str) : res Match :=
  if prefixed (Str "file://") p then
    let! after := zslice p 7 (len p) in fileURIUnix p after
  else Ok (MkMatch p UnixFileSystem true [] [] p p [] slash None).

(** ** Sequences of matchers *)

Abbreviation Matcher := (str -> res Match).
Abbreviation MatcherSpec := (list (str -> res Match)).

Definition DefaultMatchers : MatcherSpec :=
  [AWSS3Matcher; GoogleCloudStorageMatcher; URLMatcher; WindowsMatcher; UnixMatcher].

Fixpoint ms_Match (ms : MatcherSpec) (p : str) : res Match :=
  match ms with
  | [] => Ok no_match
  | fn :: ms => let! m := fn p in if 0 <? len (Matched m) then Ok m else ms_Match ms p
  end.

(** [if m := ms.Match(path); len(m.Matched) > 0 { return get(m) }; return none] *)
Definition ms_get {A} (get : Match -> A) (none : A) (ms : MatcherSpec) (path : str) : res A :=
  let! m := ms_Match ms path in Ok (if 0 <? len (Matched m) then get m else none).

Definition ms_Scheme : MatcherSpec -> str -> res str := ms_get m_Scheme [].
Definition ms_Host : MatcherSpec -> str -> res str := ms_get m_Host [].
Definition ms_Volume : MatcherSpec -> str -> res str := ms_get m_Volume [].
Definition ms_Path : MatcherSpec -> str -> res (str * rune) := ms_get (fun m => (m_Path m, Separator m)) ([], RuneError).
Definition ms_Key : MatcherSpec -> str -> res (str * rune) := ms_get (fun m => (m_Key m, Separator m)) ([], RuneError).
Definition ms_Region : MatcherSpec -> str -> res str := ms_get m_Region [].
Definition ms_Parameters : MatcherSpec -> str -> res (gmap str (list str)) := ms_get (fun m => default ∅ (m_Parameters m)) ∅.
Definition ms_IsLocal : MatcherSpec -> str -> res bool := ms_get Local_ false.

Definition Scheme (path : str) : res str := ms_Scheme DefaultMatchers path.
Definition Host (path : str) : res str := ms_Host DefaultMatchers path.
Definition Volume (path : str) : res str := ms_Volume DefaultMatchers path.
Definition Path (path : str) : res (str * rune) := ms_Path DefaultMatchers path.
Definition Key (path : str) : res (str * rune) := ms_Key DefaultMatchers path.
Definition Region (url : str) : res str := ms_Region DefaultMatchers url.
Definition Parameters_ (path : str) : res (gmap str (list str)) := ms_Parameters DefaultMatchers path.
Definition IsLocal (path : str) : res bool := ms_IsLocal DefaultMatchers path.

Definition SplitPath (path : str) : res T := let! (p, s) := Path path in Ok (Split p s).
End matchers.

(** ** Joining cloud paths (cloud_join.go) *)

Definition join_step (sep : rune) (joined c : str) : str :=
  if len c =? 0 then joined
  else if 0 <? len joined then
    let ts := bool_decide (last joined = Some sep) in
    let ls := bool_decide (hd_error c = Some sep) in
    let joined := if negb ts && negb ls then joined ++ [sep] else joined in
    let c := if ls && ts then tail c else c in
    joined ++ c
  else joined ++ c.

Definition cloud_Join (sep : rune) (components : list str) : str :=
  let size := foldl (fun size c => size + len c) 0 components in
  if size =? 0 then [] else foldl (join_step sep) [] components.

Definition cloud_Base (scheme : str) (separator : rune) (path : str) : res str :=
  let p := strings_TrimPrefix path scheme in
  let idx := LastIndexByte p separator in
  if idx <? 0 then Ok path else zslice p (idx + 1) (len p).

Definition cloud_Prefix (scheme : str) (separator : rune) (path : str) : res str :=
  let p := strings_TrimPrefix path scheme in
  let idx := LastIndexByte p separator in
  if bool_decide (last p = Some separator) then zslice p 0 (len p - 1)
  else if 0 <=? idx then zslice p 0 idx
  else Ok [].

(** ** Buckets *)

Lemma bucket_key_spec b c k : c ∉ b -> bucket_key (b ++ c :: k) c = Ok (b, k).
Proof.
  intros Hc. unfold bucket_key. rewrite Index_rune by done. destruct (Z.ltb_spec (len b) 0); [pose proof (len_nonneg b); lia|].
  rewrite zslice_before. cbn [rbind]. change (c :: k) with ([c] ++ k). rewrite app_assoc.
  replace (len b + 1) with (len (b ++ [c])) by (rewrite len_app; done). by rewrite zslice_after.
Qed.

(** A bucket and a key, with or without a leading separator. *)
Lemma bucketAndKey_spec b c k : b <> [] -> c ∉ b ->
  bucketAndKey (b ++ c :: k) c = Ok (b, k) /\ bucketAndKey (c :: b ++ c :: k) c = Ok (b, k).
Proof.
  intros Hb Hc. split.
  - rewrite <- (bucket_key_spec b c k Hc). destruct b as [|x b]; [done|]. apply not_elem_of_cons in Hc as [Hx _]. cbn [app]. unfold bucketAndKey.
    rewrite (proj2 (Z.eqb_neq x c)) by congruence. by destruct (b ++ c :: k).
  - rewrite <- (bucket_key_spec b c k Hc). unfold bucketAndKey. rewrite Z.eqb_refl. destruct (b ++ c :: k) eqn:E; [by destruct b|]. done.
Qed.

Lemma bucket_key_ok p c : exists b k, bucket_key p c = Ok (b, k).
Proof.
  unfold bucket_key. destruct (Z.ltb_spec (Index p [c]) 0); [by eexists _, _|]. pose proof (Index_bounds p [c]) as Hb.
  change (len [c]) with 1 in Hb. rewrite zslice_Ok by lia. cbn [rbind]. rewrite zslice_Ok by lia. by eexists _, _.
Qed.

Lemma bucketAndKey_ok p c : exists b k, bucketAndKey p c = Ok (b, k).
Proof.
  unfold bucketAndKey. destruct p as [|x [|y p]]; [by eexists _, _| |]; destruct (x =? c); try apply bucket_key_ok. by eexists _, _.
Qed.

(** ** What a matcher returns *)

(** No match, or one of the path it was given. *)
Definition sound (p : str) (r : res Match) : Prop := match r with Ok m => m = no_match \/ Matched m = p | Panic => True | NoFuel => False end.

Lemma s3Region_Ok host : prefixed (Str "s3.amazonaws.com") host = false -> exists region, s3Region host = Ok region.
Proof.
  intros Hn. unfold s3Region. destruct (prefixed (Str "s3.") host) eqn:E; cbn [negb]; [|by eexists].
  apply prefixed_drop in E as [r ->]. cbn [app Str] in *.
  destruct (Index_spec (Str "s3." ++ r) (Str ".amazonaws.com")) as [[-> _]|(j & E & Hj & Hp & _)]; [by eexists|].
  rewrite E. destruct (Z.ltb_spec (Z.of_nat j) 0); [lia|]. destruct j as [|[|[|j]]]; [discriminate Hp|discriminate Hp| |].
  - exfalso. change (prefixed (Str "s3.amazonaws.com") (Str "s3." ++ r) = true) in Hp. congruence.
  - rewrite zslice_Ok; [by eexists|lia|unfold len; lia].
Qed.

Lemma s3Region_Panic host : prefixed (Str "s3.amazonaws.com") host = true -> s3Region host = Panic.
Proof. intros H. apply prefixed_drop in H as [r ->]. reflexivity. Qed.

Section panics.
Context (Parse : str -> option URL).

(** The parsed URL of a path that is one of http or https. *)
Definition http_url (p : str) (u : URL) : Prop := Parse p = Some u /\ is_http u = true.

(** S3's global endpoint: no region between [s3.] and [amazonaws.com]. *)
Definition s3_without_region (p : str) : Prop :=
  prefixed (Str "s3://") p = false /\ exists u j, http_url p u /\ Index (u_Host u) (Str "s3.") = Z.of_nat j /\
    prefixed (Str "s3.amazonaws.com") (drop j (u_Host u)) = true.

(** An object of the API without a bucket. *)
Definition no_bucket (path op : str) : Prop :=
  op = Str "/download/" /\ Index path (Str "/o/") = 0 \/ op = Str "/upload/" /\ Index path (Str "/o") = 0.

(** A download or upload without the name of a bucket. *)
Definition gs_without_bucket (p : str) : Prop :=
  prefixed (Str "gs://") p = false /\ exists u j, http_url p u /\ u_Host u = Str "storage.googleapis.com" /\
    Index (u_Path u) endpoint = Z.of_nat j /\
    no_bucket (drop (j + 12) (u_Path u)) (take j (u_Path u)).

Lemma is_http_scheme u : is_http u = true -> u_Scheme u <> [].
Proof. unfold is_http. intros H E. rewrite E in H. done. Qed.

Lemma AWSS3_sound p sep : sound p (AWSS3MatcherSep Parse p sep) /\ (AWSS3MatcherSep Parse p sep = Panic <-> s3_without_region p).
Proof.
  unfold AWSS3MatcherSep, s3_without_region, http_url. destruct (prefixed (Str "s3://") p) eqn:Es.
  { pose proof (prefixed_len _ _ Es) as Hl. change (len (Str "s3://")) with 5 in Hl. rewrite zslice_Ok by lia. cbn [rbind].
    destruct (bucketAndKey_ok (take (Z.to_nat (len p - 5)) (drop (Z.to_nat 5) p)) sep) as (b & k & ->). cbn [rbind]. split; [by right|].
    split; [done|]. by intros []. }
  destruct (Parse p) as [u|] eqn:Ep; [|split; [by left|]; split; [done|by intros (_ & u & _ & [[=] _] & _)]].
  assert (forall u', Some u = Some u' /\ is_http u' = true -> u' = u) as Hu by (intros ? [[= ->] _]; done).
  destruct (is_http u) eqn:Eh; cbn [negb].
  2: { split; [by left|]. split; [done|]. intros (_ & u' & _ & H & _). pose proof (Hu _ H). subst. destruct H; congruence. }
  destruct (Index_spec (u_Host u) (Str "s3.")) as [[E _]|(j & E & Hj & Hp & _)]; rewrite E.
  { split; [by left|]. split; [done|]. intros (_ & u' & j & H & Ej & _). rewrite (Hu _ H), E in Ej. lia. }
  destruct (Z.ltb_spec (Z.of_nat j) 0); [lia|]. rewrite zslice_end by done. cbn [rbind].
  destruct (prefixed (Str "s3.amazonaws.com") (drop j (u_Host u))) eqn:Er.
  { rewrite s3Region_Panic by done. split; [done|]. split; [|done]. intros _. split; [done|]. by exists u, j. }
  destruct (s3Region_Ok _ Er) as [region ->]. cbn [rbind].
  assert (~ (false = false /\ exists u' j', (Some u = Some u' /\ is_http u' = true) /\ Index (u_Host u') (Str "s3.") = Z.of_nat j' /\
    prefixed (Str "s3.amazonaws.com") (drop j' (u_Host u')) = true)) as Hno.
  { intros (_ & u' & j' & H' & Ej & Hpr). rewrite (Hu _ H') in *. assert (j' = j) as -> by lia. congruence. }
  destruct (Z.eqb_spec (Z.of_nat j) 0) as [Ez|Ez].
  - destruct (bucketAndKey_ok (u_Path u) sep) as (b & k & ->). cbn [rbind]. split; [by right|]. by split.
  - replace (Z.of_nat j - 1) with (Z.of_nat (j - 1)) by lia. rewrite zslice_0 by lia. cbn [rbind]. split; [by right|]. by split.
Qed.

Lemma api_object_spec u m path op :
  no_bucket path op /\ api_object u m path op = Panic \/
  ~ no_bucket path op /\ exists r, api_object u m path op = Ok r /\ (r = no_match \/ exists volume key, r = m volume key).
Proof.
  assert (forall x, 0 <= Index path x -> Index path x + len x <= len path) as Hbx by (intros; by apply Index_bounds).
  unfold api_object, no_bucket. case_bool_decide as O1.
  { right. subst op. split; [by intros [[? _]|[? _]]|]. destruct (bucketAndKey_ok path slash) as (b & k & ->). cbn [rbind]. eauto 10. }
  case_bool_decide as O2.
  { subst op. destruct (Z.ltb_spec (Index path (Str "/o/")) 0) as [Hn|Hn].
    { right. split; [intros [[_ ?]|[? _]]; [lia|done]|eauto 10]. }
    specialize (Hbx _ Hn). change (len (Str "/o/")) with 3 in Hbx. destruct (Z.eqb_spec (Index path (Str "/o/")) 0) as [Hz|Hz].
    - left. rewrite Hz. auto.
    - right. rewrite zslice_Ok by lia. cbn [rbind]. rewrite zslice_Ok by lia. cbn [rbind].
      split; [intros [[_ ?]|[? _]]; [lia|done]|eauto 10]. }
  case_bool_decide as O3.
  { subst op. destruct (Z.ltb_spec (Index path (Str "/o")) 0) as [Hn|Hn].
    { right. split; [intros [[? _]|[_ ?]]; [done|lia]|eauto 10]. }
    specialize (Hbx _ Hn). change (len (Str "/o")) with 2 in Hbx. destruct (Z.eqb_spec (Index path (Str "/o")) 0) as [Hz|Hz].
    - left. rewrite Hz. auto.
    - right. rewrite zslice_Ok by lia. cbn [rbind]. split; [intros [[? _]|[_ ?]]; [done|lia]|eauto 10]. }
  right. split; [tauto|]. case_bool_decide; eauto 10.
Qed.

Lemma Google_sound p : sound p (GoogleCloudStorageMatcher Parse p) /\ (GoogleCloudStorageMatcher Parse p = Panic <-> gs_without_bucket p).
Proof.
  unfold GoogleCloudStorageMatcher, gs_without_bucket, http_url. destruct (prefixed (Str "gs://") p) eqn:Es.
  { pose proof (prefixed_len _ _ Es) as Hl. change (len (Str "gs://")) with 5 in Hl. rewrite zslice_Ok by lia. cbn [rbind].
    destruct (bucketAndKey_ok (take (Z.to_nat (len p - 5)) (drop (Z.to_nat 5) p)) slash) as (b & k & ->). cbn [rbind]. split; [by right|].
    split; [done|]. by intros []. }
  destruct (Parse p) as [u|] eqn:Ep; [|split; [by left|]; split; [done|by intros (_ & u & _ & [[=] _] & _)]].
  assert (forall u', Some u = Some u' /\ is_http u' = true -> u' = u) as Hu by (intros ? [[= ->] _]; done).
  destruct (is_http u) eqn:Eh; cbn [negb].
  2: { split; [by left|]. split; [done|]. intros (_ & u' & _ & H & _). pose proof (Hu _ H). subst. destruct H; congruence. }
  assert (forall (P : Prop) (r : res Match), (exists m, r = Ok m /\ (m = no_match \/ Matched m = p)) -> ~ P -> sound p r /\ (r = Panic <-> P)) as Hok.
  { intros P r (m & -> & Hm) HP. split; [done|]. split; [done|tauto]. }
  case_bool_decide as E1.
  { apply Hok; [|intros (_ & u' & j & H & E2 & _); rewrite (Hu _ H), E1 in E2; discriminate].
    destruct (bucketAndKey_ok (u_Path u) slash) as (b & k & ->). cbn [rbind]. eexists. split; [done|by right]. }
  case_bool_decide as E2.
  2: { apply Hok; [eexists; split; [done|by left]|]. intros (_ & u' & j & H & E3 & _). by rewrite (Hu _ H) in E3. }
  destruct (Index_spec (u_Path u) endpoint) as [[E _]|(j & E & Hj & Hp & _)]; rewrite E.
  { apply Hok; [eexists; split; [done|by left]|]. intros (_ & u' & j & H & _ & Ej & _). rewrite (Hu _ H), E in Ej. lia. }
  assert (j + 12 <= length (u_Path u))%nat as Hb.
  { pose proof (Index_bounds (u_Path u) endpoint) as H. rewrite E in H. change (len endpoint) with 12 in H. unfold len in H. lia. }
  destruct (Z.ltb_spec (Z.of_nat j) 0); [lia|]. change (len endpoint) with 12. replace (Z.of_nat j + 12) with (Z.of_nat (j + 12)) by lia.
  rewrite zslice_end, zslice_0 by lia. cbn [rbind]. set (path := drop (j + 12) (u_Path u)). set (op := take j (u_Path u)).
  match goal with |- context [api_object u ?m path op] => destruct (api_object_spec u m path op) as [[HQ ->]|(HQ & r & -> & Hr)] end.
  - split; [done|]. split; [|done]. intros _. split; [done|]. by exists u, j.
  - apply Hok; [eexists; split; [done|destruct Hr as [->|(v & k & ->)]; [by left|by right]]|].
    intros (_ & u' & j' & H' & _ & Ej & HQ'). rewrite (Hu _ H') in *. assert (j' = j) as -> by lia. by apply HQ.
Qed.
(** The other matchers never panic. *)
Definition quiet (p : str) (r : res Match) : Prop := exists m, r = Ok m /\ (m = no_match \/ Matched m = p).

Lemma URL_quiet p : quiet p (URLMatcher Parse p).
Proof. unfold URLMatcher, quiet. destruct (Parse p) as [u|]; [|eauto 10]. case_match; eauto 10. Qed.

Lemma parseFileURI_ok p : exists host rest drive, parseFileURI p = Ok (host, rest, drive) /\ (drive <> [] -> 2 <= len rest).
Proof.
  unfold parseFileURI. destruct (Z.ltb_spec (Index p [slash]) 0) as [Hn|Hn]; [by eexists _, _, _|].
  pose proof (Index_bounds p [slash] Hn) as Hb. change (len [slash]) with 1 in Hb.
  rewrite !(zslice_Ok p) by lia. cbn [rbind]. set (i := Index p [slash]) in *.
  rewrite (take_ge (drop (Z.to_nat (i + 1)) p)) by (rewrite length_drop; unfold len; lia).
  rewrite (take_ge (drop (Z.to_nat i) p)) by (rewrite length_drop; unfold len; lia).
  destruct (isWindowsDrive (drop (Z.to_nat (i + 1)) p)) as [d ok] eqn:Ed. destruct ok; [|by eexists _, _, _].
  rewrite zslice_Ok by (unfold len in *; rewrite length_drop; lia). cbn [rbind]. eexists _, _, _. split; [done|]. intros _.
  rewrite take_ge by (rewrite length_drop; unfold len; rewrite length_drop; lia). rewrite drop_drop.
  replace (Z.to_nat i + Z.to_nat 1)%nat with (Z.to_nat (i + 1)) by lia.
  unfold isWindowsDrive in Ed. destruct (drop (Z.to_nat (i + 1)) p) as [|x [|y r]]; [done|by case_match|].
  rewrite !len_cons. pose proof (len_nonneg r). lia.
Qed.

Lemma windowsName_quiet o p : quiet o (windowsName o p).
Proof.
  unfold windowsName, quiet. destruct (isWindowsDrive p) as [d ok] eqn:Ed. destruct ok.
  { assert (2 <= len p) as Hl.
    { unfold isWindowsDrive in Ed. destruct p as [|x [|y r]]; [done|by case_match|]. rewrite !len_cons. pose proof (len_nonneg r). lia. }
    rewrite zslice_Ok by lia. cbn [rbind]. eauto 10. }
  destruct (Z.ltb_spec (len p) 2); cbn [orb]; [eauto 10|]. destruct (Index p [backslash] <? -1); [eauto 10|].
  destruct (prefixed [backslash; backslash] p); cbn [negb]; [|eauto 10]. rewrite zslice_Ok by lia. cbn [rbind]. unfold strings_Split.
  match goal with |- context [split_on ?c ?x ?s] => destruct (split_on_cons c x s) as (h & [|v rest] & ->) end; [eauto 10|].
  destruct rest; eauto 10.
Qed.

Lemma file_prefix p : prefixed (Str "file://") p = true -> 7 <= len p.
Proof. intros H%prefixed_len. exact H. Qed.

Lemma Windows_quiet p : quiet p (WindowsMatcher p).
Proof.
  unfold WindowsMatcher. case_match; [by eexists; eauto|]. destruct (prefixed (Str "file://") p) eqn:E; [|apply windowsName_quiet].
  apply file_prefix in E. rewrite zslice_Ok by lia. cbn [rbind]. unfold fileURIWindows, quiet. case_match; [eauto 10|].
  match goal with |- context [parseFileURI ?x] => destruct (parseFileURI_ok x) as (h & r & d & -> & Hd) end. cbn [rbind].
  destruct ((len d =? 0) || (len r =? 0)) eqn:Eb; [eauto 10|]. apply orb_false_iff in Eb as [Eb _]. apply Z.eqb_neq in Eb.
  rewrite zslice_Ok; [cbn [rbind]; eauto 10| |lia]. split; [lia|]. apply Hd. by intros ->.
Qed.

Lemma Unix_quiet p : quiet p (UnixMatcher p) /\ (p <> [] -> prefixed (Str "file://") p = false -> exists m, UnixMatcher p = Ok m /\ Matched m = p).
Proof.
  unfold UnixMatcher, quiet. destruct (prefixed (Str "file://") p) eqn:E; [|split; eauto 10]. split; [|done].
  apply file_prefix in E. rewrite zslice_Ok by lia. cbn [rbind]. unfold fileURIUnix. case_match; [eauto 10|].
  match goal with |- context [parseFileURI ?x] => destruct (parseFileURI_ok x) as (h & r & d & -> & _) end. cbn [rbind].
  case_match; eauto 10.
Qed.

(** A path the Google matcher would panic on is none of S3's. *)
Lemma gs_not_s3 p : prefixed (Str "s3://") p = false -> gs_without_bucket p -> AWSS3Matcher Parse p = Ok no_match.
Proof.
  intros Hs (_ & u & j & [Hu Hh] & Eh & _). unfold AWSS3Matcher, AWSS3MatcherSep. rewrite Hs, Hu, Hh, Eh. reflexivity.
Qed.

Lemma match_rest p ms m : Matched m = p -> p <> [] -> ms_Match ((fun _ => Ok m) :: ms) p = Ok m.
Proof. intros Hm Hp. cbn. rewrite Hm, len_pos. by rewrite bool_decide_true. Qed.

(** The matchers after S3's and Google's. *)
Lemma rest_matched p : let ms := [URLMatcher Parse; WindowsMatcher; UnixMatcher] in
  exists m, ms_Match ms p = Ok m /\ (Matched m = p \/ m = no_match) /\ (p <> [] -> prefixed (Str "file://") p = false -> Matched m = p).
Proof.
  cbn [ms_Match]. destruct (URL_quiet p) as (m1 & -> & H1). cbn [rbind]. rewrite len_pos. case_bool_decide as E1.
  { exists m1. destruct H1 as [->|H1]; [done|]. auto. }
  destruct (Windows_quiet p) as (m2 & -> & H2). cbn [rbind]. rewrite len_pos. case_bool_decide as E2.
  { exists m2. destruct H2 as [->|H2]; [done|]. auto. }
  destruct (Unix_quiet p) as [(m3 & E & H3) Hu]. rewrite E. cbn [rbind]. rewrite len_pos. case_bool_decide as E3.
  { exists m3. destruct H3 as [->|H3]; [done|]. auto. }
  exists no_match. split_and!; [done|by right|]. intros Hp Hf. destruct (Hu Hp Hf) as (m & Em & Hm). rewrite E in Em. injection Em as ->.
  exfalso. by rewrite Hm in E3.
Qed.
End panics.

(** C20: Matching with the default matchers panics exactly on an http or https
    URL of S3 whose host names no region ([s3.amazonaws.com], or a bucket in
    front of it) and on a Google download or upload URL without a bucket.
    Otherwise it returns a match of the whole path, except that the empty path
    and some file URIs have none. *)
Theorem Match_default (Parse : str -> option URL) (p : str) :
  (ms_Match (DefaultMatchers Parse) p = Panic <->
     s3_without_region Parse p \/ prefixed (Str "s3://") p = false /\ gs_without_bucket Parse p) /\
  (ms_Match (DefaultMatchers Parse) p <> Panic ->
     exists m, ms_Match (DefaultMatchers Parse) p = Ok m /\ (Matched m = p \/ m = no_match) /\
       (p <> [] -> prefixed (Str "file://") p = false -> Matched m = p)).
Proof.
  destruct (rest_matched Parse p) as (m & Em & Hm & Hf). unfold DefaultMatchers. cbn [ms_Match] in *. rewrite Em. clear Em.
  destruct (AWSS3_sound Parse p slash) as [S1 P1]. unfold AWSS3Matcher in *. destruct (AWSS3MatcherSep Parse p slash) as [m1| |] eqn:E1; cbn [rbind] in *; [|split; [tauto|done]|done].
  assert (~ s3_without_region Parse p) as N1 by (rewrite <- P1; done). rewrite len_pos. case_bool_decide as L1.
  { destruct S1 as [->|S1]; [done|]. split; [|intros _; exists m1; auto]. split; [done|]. intros [?|[Hs Hg]]; [done|].
    apply gs_not_s3 in Hg; [|done]. unfold AWSS3Matcher in Hg. rewrite E1 in Hg. by injection Hg as ->. }
  destruct (Google_sound Parse p) as [S2 P2]. destruct (GoogleCloudStorageMatcher Parse p) as [m2| |] eqn:E2; cbn [rbind] in *; [| |done].
  - assert (~ gs_without_bucket Parse p) as N2 by (rewrite <- P2; done). rewrite len_pos. case_bool_decide as L2.
    { destruct S2 as [->|S2]; [done|]. split; [split; [done|tauto]|]. intros _. exists m2. auto. }
    split; [split; [done|tauto]|]. intros _. exists m. auto.
  - split; [|done]. split; [|done]. intros _. right. split; [|by apply P2]. destruct (prefixed (Str "s3://") p) eqn:Es; [|done]. exfalso.
    destruct S1 as [->|S1].
    + unfold AWSS3MatcherSep in E1. rewrite Es in E1. pose proof (prefixed_len _ _ Es) as Hl. change (len (Str "s3://")) with 5 in Hl.
      rewrite zslice_Ok in E1 by lia. cbn [rbind] in E1. match type of E1 with context [bucketAndKey ?x ?c] => destruct (bucketAndKey_ok x c) as (b & k & Eb) end.
      rewrite Eb in E1. cbn [rbind] in E1. injection E1 as E1. subst p. done.
    + rewrite S1 in L1. by destruct p.
Qed.

(** ** The notations of S3 and Google *)

(** A host of S3's in a region, which has no dot. *)
Definition s3_host (region : str) : str := Str "s3." ++ region ++ Str ".amazonaws.com".

Lemma dot_first (a b r s : str) : 46 ∉ a -> 46 ∉ b -> a ++ 46 :: r = b ++ 46 :: s -> a = b /\ r = s.
Proof.
  revert b. induction a as [|x a IH]; intros [|y b] Ha Hb E; cbn in E.
  - by injection E.
  - injection E as ? _. apply not_elem_of_cons in Hb. tauto.
  - injection E as ? _. apply not_elem_of_cons in Ha as [Ha _]. congruence.
  - injection E as -> E. apply not_elem_of_cons in Ha as [_ Ha]. apply not_elem_of_cons in Hb as [_ Hb].
    by destruct (IH b Ha Hb E) as [-> ->].
Qed.

Lemma s3Region_host region : region <> [] -> 46 ∉ region -> s3Region (s3_host region) = Ok region.
Proof.
  intros Hr Hd. unfold s3Region, s3_host. rewrite prefixed_app. cbn [negb].
  assert (Index (Str "s3." ++ region ++ Str ".amazonaws.com") (Str ".amazonaws.com") = Z.of_nat (3 + length region)) as ->.
  { apply Index_at.
    - change (3 + length region)%nat with (length (Str "s3.") + length region)%nat. rewrite <- drop_drop, !drop_app_length. reflexivity.
    - intros [|[|[|k]]] Hk; [done|done| |].
      + change (prefixed (Str "amazonaws.com") (region ++ Str ".amazonaws.com") = false). apply not_true_iff_false. intros H.
        apply prefixed_drop in H as [r E]. change (region ++ 46 :: Str "amazonaws.com" = Str "amazonaws" ++ 46 :: Str "com" ++ r) in E.
        apply dot_first in E as [_ E]; [discriminate|done|]. rewrite list_elem_of_In. cbn. intuition discriminate.
      + change (prefixed (Str ".amazonaws.com") (drop k (region ++ Str ".amazonaws.com")) = false). rewrite drop_app_le by lia.
        destruct (drop k region) as [|x d] eqn:Ed; [apply (f_equal length) in Ed; rewrite length_drop in Ed; cbn in Ed; lia|].
        cbn [app prefixed Str]. change (46 =? x) with (46 =? x). apply not_true_iff_false. intros H. apply andb_true_iff in H as [H _].
        apply Z.eqb_eq in H. subst x. apply Hd. rewrite <- (take_drop k region), Ed. apply elem_of_app. right. by left.
    - rewrite !length_app. cbn. lia. }
  destruct (Z.ltb_spec (Z.of_nat (3 + length region)) 0); [lia|]. rewrite zslice_Ok by (rewrite ?len_app; unfold len; cbn; lia).
  change (drop (Z.to_nat 3) (Str "s3." ++ region ++ Str ".amazonaws.com")) with (region ++ Str ".amazonaws.com").
  replace (Z.to_nat (Z.of_nat (3 + length region) - 3)) with (length region) by lia. by rewrite take_app_length.
Qed.

(** The host of a bucket: the first [s3.] is S3's own. *)
Lemma Index_bucket_host bucket rest : Index (bucket ++ Str ".") (Str "s3.") = -1 ->
  Index ((bucket ++ Str ".") ++ Str "s3." ++ rest) (Str "s3.") = len (bucket ++ Str ".").
Proof.
  intros Hi. destruct (Index_spec (bucket ++ Str ".") (Str "s3.")) as [[_ Hn]|(j & E & _)]; [|lia]. apply Index_at.
  - rewrite drop_app_length. apply prefixed_app.
  - intros k Hk. specialize (Hn k). rewrite drop_app_le by lia. rewrite length_app in Hk. cbn in Hk.
    rewrite drop_app_le in Hn |- * by lia. destruct (drop k bucket) as [|x [|y [|z d]]]; [done| | |].
    + cbn. by rewrite andb_false_r.
    + cbn in *. destruct (115 =? x), (51 =? y); done.
    + cbn in *. exact Hn.
  - rewrite (length_app (bucket ++ Str ".")). lia.
Qed.

(** What is said of an object by a match. *)
Definition names_object (r : res Match) (scheme bucket key region : str) : Prop :=
  exists m, r = Ok m /\ m_Scheme m = scheme /\ m_Volume m = bucket /\ m_Key m = key /\ m_Region m = region /\ Separator m = slash /\ Local_ m = false.

(** The notations of one object of S3 agree: [s3://bucket/key], the URL with
    the bucket in its path and the one with the bucket in its host have the
    bucket as volume and the same key, the latter two with the region of the
    host; and so do [gs://bucket/key] and its URL at storage.cloud.google.com. *)
Theorem Matchers_agree (Parse : str -> option URL) (bucket key region p : str) (u : URL) :
  bucket <> [] -> slash ∉ bucket -> region <> [] -> 46 ∉ region ->
  names_object (AWSS3Matcher Parse (Str "s3://" ++ bucket ++ slash :: key)) (Str "s3") bucket key [] /\
  names_object (GoogleCloudStorageMatcher Parse (Str "gs://" ++ bucket ++ slash :: key)) (Str "gs") bucket key [] /\
  (http_url Parse p u -> prefixed (Str "s3://") p = false ->
   (u_Host u = s3_host region -> u_Path u = slash :: bucket ++ slash :: key ->
      names_object (AWSS3Matcher Parse p) (Str "s3") bucket key region) /\
   (Index (bucket ++ Str ".") (Str "s3.") = -1 -> u_Host u = (bucket ++ Str ".") ++ s3_host region -> u_Path u = slash :: key ->
      names_object (AWSS3Matcher Parse p) (Str "s3") bucket key region)) /\
  (http_url Parse p u -> prefixed (Str "gs://") p = false ->
     u_Host u = Str "storage.cloud.google.com" -> u_Path u = slash :: bucket ++ slash :: key ->
     names_object (GoogleCloudStorageMatcher Parse p) (Str "gs") bucket key []).
Proof.
  intros Hb Hs Hr Hd. destruct (bucketAndKey_spec bucket slash key Hb Hs) as [B1 B2]. unfold names_object. split_and!.
  - unfold AWSS3Matcher, AWSS3MatcherSep. rewrite prefixed_app. change 5 with (len (Str "s3://")). rewrite zslice_after. cbn [rbind].
    rewrite B1. cbn [rbind]. by eexists.
  - unfold GoogleCloudStorageMatcher. rewrite prefixed_app. change 5 with (len (Str "gs://")). rewrite zslice_after. cbn [rbind].
    rewrite B1. cbn [rbind]. by eexists.
  - intros [Hu Hh] Hp. unfold AWSS3Matcher, AWSS3MatcherSep. rewrite Hp, Hu, Hh. cbn [negb]. split; intros Eh.
    + intros Ek. rewrite Eh. change (Index (s3_host region) (Str "s3.")) with 0. change (0 <? 0) with false. cbv iota.
      rewrite (zslice_after [] (s3_host region) : zslice (s3_host region) 0 (len (s3_host region)) = _). cbn [rbind]. rewrite s3Region_host by done. cbn [rbind].
      rewrite Ek, B2. cbn [rbind Z.eqb]. by eexists.
    + rename Eh into Ei. intros Ek Epath. rewrite Ek, (Index_bucket_host bucket (region ++ Str ".amazonaws.com") Ei : Index ((bucket ++ Str ".") ++ s3_host region) _ = _).
      destruct (Z.ltb_spec (len (bucket ++ Str ".")) 0); [pose proof (len_nonneg (bucket ++ Str ".")); lia|].
      rewrite zslice_after. cbn [rbind]. rewrite s3Region_host by done. cbn [rbind]. rewrite len_app. change (len (Str ".")) with 1.
      destruct (Z.eqb_spec (len bucket + 1) 0); [pose proof (len_nonneg bucket); lia|]. replace (len bucket + 1 - 1) with (len bucket) by lia.
      rewrite <- app_assoc, zslice_before. cbn [rbind]. rewrite Epath. change (slash =? slash) with true. by eexists.
  - intros [Hu Hh] Hp Eh Ek. unfold GoogleCloudStorageMatcher. rewrite Hp, Hu, Hh, Eh. cbn [negb]. rewrite bool_decide_true by done.
    rewrite Ek, B2. cbn [rbind]. by eexists.
Qed.

(** ** Joining cloud paths *)

Definition starts_with (sep : rune) (s : str) : bool := bool_decide (hd_error s = Some sep).

(** The second of two texts as it follows the first: between them is one
    separator more than either brings, or one less when both bring one. *)
Definition joint (sep : rune) (ends starts : bool) (c : str) : str :=
  if ends && starts then tail c else if ends || starts then c else sep :: c.

Definition glue (sep : rune) (a b : str) : str :=
  match a, b with
  | [], _ => b
  | _, [] => a
  | _, _ => a ++ joint sep (ends_with sep a) (starts_with sep b) b
  end.

Lemma join_step_glue sep a c : join_step sep a c = glue sep a c.
Proof.
  unfold join_step. rewrite len_zero, len_pos. destruct c as [|r c]; [by destruct a|]. destruct a as [|x a]; [done|].
  rewrite bool_decide_false, bool_decide_true by done. unfold glue, joint, ends_with, starts_with.
  destruct (bool_decide (last (x :: a) = Some sep)), (bool_decide (hd_error (r :: c) = Some sep)); cbn [negb andb orb]; try done.
  by rewrite <- app_assoc.
Qed.

Lemma ends_with_app sep a b : b <> [] -> ends_with sep (a ++ b) = ends_with sep b.
Proof. intros Hb. unfold ends_with. rewrite last_app. destruct (exists_last Hb) as (m & e & ->). by rewrite last_snoc. Qed.

Lemma ends_with_glue sep a b : a <> [] -> b <> [] -> ends_with sep (glue sep a b) = ends_with sep b.
Proof.
  intros Ha Hb. destruct a as [|x a], b as [|y b]; try done. unfold glue. set (a' := x :: a). unfold joint, starts_with.
  destruct (ends_with sep a') eqn:Ea; cbn [andb orb].
  - case_bool_decide as Es; [|by apply ends_with_app]. injection Es as ->. cbn [tail]. destruct b as [|z b].
    + rewrite app_nil_r, Ea. symmetry. by apply bool_decide_true.
    + by rewrite ends_with_app.
  - case_bool_decide as Es; [by apply ends_with_app|]. rewrite ends_with_app by done. done.
Qed.

Lemma glue_assoc sep a b c : glue sep (glue sep a b) c = glue sep a (glue sep b c).
Proof.
  destruct a as [|x a]; [done|]. destruct b as [|y b]; [by destruct c|]. destruct c as [|z c]; [by destruct (glue sep (x :: a) (y :: b)) eqn:E|].
  assert (forall u v : str, u <> [] -> v <> [] -> glue sep u v = u ++ joint sep (ends_with sep u) (starts_with sep v) v) as Hg
    by (intros [] []; done).
  assert (glue sep (x :: a) (y :: b) <> []) as N1 by done.
  rewrite (Hg (glue sep (x :: a) (y :: b))) by done. rewrite ends_with_glue by done. rewrite (Hg (y :: b) (z :: c)) by done. rewrite !Hg by done.
  rewrite <- app_assoc. f_equal. unfold joint at 1 3. change (starts_with sep ((y :: b) ++ joint sep (ends_with sep (y :: b)) (starts_with sep (z :: c)) (z :: c)))
    with (starts_with sep (y :: b)).
  by destruct (ends_with sep (x :: a)), (starts_with sep (y :: b)).
Qed.

Lemma glue_nil_r sep a : glue sep a [] = a.
Proof. by destruct a. Qed.

Lemma cloud_Join_fold sep l : cloud_Join sep l = foldl (glue sep) [] l.
Proof.
  unfold cloud_Join. assert (forall a, foldl (join_step sep) a l = foldl (glue sep) a l) as E.
  { induction l as [|c l IH]; intros a; [done|]. cbn [foldl]. by rewrite join_step_glue, IH. }
  rewrite E. clear E. destruct (Z.eqb_spec (foldl (fun size c => size + len c) 0 l) 0) as [Ez|]; [|done].
  assert (forall l n, 0 <= n -> n <= foldl (fun size (c : str) => size + len c) n l) as Hm.
  { clear. intros l. induction l as [|c l IH]; intros n Hn; [done|]. cbn [foldl]. pose proof (len_nonneg c). etrans; [|apply IH]; lia. }
  revert Ez. induction l as [|c l IH]; intros Ez; [done|]. cbn [foldl] in Ez |- *. pose proof (len_nonneg c) as Hc.
  pose proof (Hm l (0 + len c) ltac:(lia)). assert (len c = 0) as Hz by lia.
  destruct c as [|x c]; [by apply IH|]. rewrite len_cons in Hz. pose proof (len_nonneg c). lia.
Qed.

Lemma foldl_glue sep a l : foldl (glue sep) a l = glue sep a (foldl (glue sep) [] l).
Proof.
  revert a. induction l as [|c l IH]; intros a; [by rewrite glue_nil_r|]. cbn [foldl]. rewrite IH, (IH (glue sep [] c)). apply glue_assoc.
Qed.

(** No two separators next to each other. *)
Fixpoint single (sep : rune) (s : str) : bool :=
  match s with
  | [] => true
  | r :: s => negb ((r =? sep) && starts_with sep s) && single sep s
  end.

Lemma single_app sep a b : single sep (a ++ b) = single sep a && single sep b && negb (ends_with sep a && starts_with sep b).
Proof.
  induction a as [|r a IH]; [by rewrite andb_true_r|]. cbn [app single]. rewrite IH. destruct a as [|x a].
  - cbn [app single starts_with]. unfold ends_with. cbn [last]. change (starts_with sep []) with false. rewrite andb_false_r. cbn [negb andb].
    destruct (Z.eqb_spec r sep) as [->|Hr].
    + rewrite (bool_decide_true (Some sep = Some sep)) by done. cbn [andb]. by destruct (negb (starts_with sep b)), (single sep b).
    + rewrite (bool_decide_false (Some r = Some sep)) by congruence. cbn. by rewrite !andb_true_r.
  - change (starts_with sep ((x :: a) ++ b)) with (starts_with sep (x :: a)). change (ends_with sep (r :: x :: a)) with (ends_with sep (x :: a)).
    by rewrite <- !andb_assoc.
Qed.

Lemma glue_single sep a b : single sep a = true -> single sep b = true -> single sep (glue sep a b) = true.
Proof.
  intros Ha Hb. destruct a as [|x a]; [done|]. destruct b as [|y b]; [done|]. unfold glue. set (a' := x :: a) in *. rewrite single_app, Ha. unfold joint.
  destruct (ends_with sep a') eqn:Ea; cbn [andb orb].
  - destruct (starts_with sep (y :: b)) eqn:Es.
    + cbn [tail]. apply bool_decide_eq_true in Es. injection Es as ->. cbn [single] in Hb. rewrite Z.eqb_refl in Hb. cbn [andb] in Hb.
      by rewrite andb_comm in Hb.
    + by rewrite Hb, Es.
  - destruct (starts_with sep (y :: b)) eqn:Es; [by rewrite Hb|].
    change (single sep (sep :: y :: b)) with (negb ((sep =? sep) && starts_with sep (y :: b)) && single sep (y :: b)).
    by rewrite Hb, Es, andb_false_r.
Qed.

Lemma glue_plain sep a b : a <> [] -> b <> [] -> ends_with sep a = false -> starts_with sep b = false -> glue sep a b = a ++ sep :: b.
Proof. intros Ha Hb Ea Es. destruct a, b; try done. unfold glue, joint. by rewrite Ea, Es. Qed.

(** [Join] of cloud paths composes: the join of two lists of components is
    that of their joins glued together, where one separator is put between two
    texts if neither brings one and one is dropped if both do; empty components
    do not count, a single one is returned as it is, no separator is doubled
    that was not within a component, and names without separators are joined as
    by [strings.Join]. *)
Theorem cloud_Join_composes (sep : rune) :
  (forall l k, cloud_Join sep (l ++ k) = glue sep (cloud_Join sep l) (cloud_Join sep k)) /\
  (forall l, cloud_Join sep l = cloud_Join sep (filter (fun c => c <> []) l)) /\
  (forall c, cloud_Join sep [c] = c) /\
  (forall l, Forall (fun c => single sep c = true) l -> single sep (cloud_Join sep l) = true) /\
  (forall l, Forall (fun c => c <> [] /\ sep ∉ c) l -> cloud_Join sep l = strings_Join l [sep]).
Proof.
  split_and!.
  - intros l k. by rewrite !cloud_Join_fold, foldl_app, foldl_glue.
  - intros l. rewrite !cloud_Join_fold.
    assert (forall a, foldl (glue sep) a l = foldl (glue sep) a (filter (fun c => c <> []) l)) as E; [|apply E].
    induction l as [|c l IH]; intros a; [done|]. rewrite filter_cons. cbn [foldl].
    case_decide as Hc; [apply IH|]. destruct c as [|z c]; [rewrite (glue_nil_r sep a); apply IH|discriminate].
  - intros c. by rewrite cloud_Join_fold.
  - intros l Hl. rewrite cloud_Join_fold. assert (single sep [] = true) as H0 by done. revert H0. generalize (@nil rune).
    induction Hl as [|c l Hc _ IH]; intros a Ha; [done|]. cbn [foldl]. apply IH. by apply glue_single.
  - intros l Hl. rewrite cloud_Join_fold. induction Hl as [|c l [Hc Hs] Hl IH]; [done|]. cbn [foldl]. rewrite foldl_glue, IH.
    destruct l as [|d l]; [by rewrite glue_nil_r|]. rewrite (strings_Join_cons c (d :: l)) by done. inversion Hl as [|? ? [Hd Hd'] _]; subst.
    destruct d as [|y d]; [done|]. apply not_elem_of_cons in Hd' as [Hy _].
    assert (exists z, strings_Join ((y :: d) :: l) [sep] = y :: z) as [z ->] by (destruct l; cbn; eauto).
    apply glue_plain; [done|done| |apply bool_decide_false; cbn; congruence].
    destruct (exists_last Hc) as (m & e & ->). unfold ends_with. rewrite last_snoc. apply bool_decide_false. intros [= ->]. apply Hs, elem_of_app. right. by left.
Qed.

(** [Base] and [Prefix] cut a path at its last separator. *)
Lemma cloud_cut scheme sep dir base : sep ∉ base -> base <> [] ->
  cloud_Base scheme sep (scheme ++ dir ++ sep :: base) = Ok base /\ cloud_Prefix scheme sep (scheme ++ dir ++ sep :: base) = Ok dir.
Proof.
  intros Hb Hn. unfold cloud_Base, cloud_Prefix, strings_TrimPrefix. rewrite prefixed_app, drop_app_length, LastIndexByte_app by done.
  pose proof (len_nonneg dir). destruct (Z.ltb_spec (len dir) 0); [lia|]. rewrite (proj2 (Z.leb_le 0 (len dir))) by lia.
  rewrite zslice_before. split.
  - change (sep :: base) with ([sep] ++ base). rewrite app_assoc. replace (len dir + 1) with (len (dir ++ [sep])) by (rewrite len_app; done). apply zslice_after.
  - rewrite bool_decide_false; [done|]. destruct (exists_last Hn) as (m & e & ->). rewrite app_comm_cons, app_assoc, last_snoc.
    intros [= ->]. apply Hb, elem_of_app. right. by left.
Qed.

(** ** Examples *)

(** Without a separator [Base] returns the scheme too, and a prefix of doubled
    separators ends in one. *)
Lemma cloud_Base_scheme : cloud_Base (Str "s3://") slash (Str "s3://bucket") = Ok (Str "s3://bucket").
Proof. reflexivity. Qed.

Lemma cloud_Prefix_separator : cloud_Prefix [] slash (Str "a//") = Ok (Str "a/").
Proof. reflexivity. Qed.

(** The path of an [s3://] name is relative, that of its URL absolute, so the
    one is no prefix of the other. *)
Definition example_parse (p : str) : option URL :=
  if bool_decide (p = Str "https://s3.us-west-2.amazonaws.com/bucket/a/b/c")
  then Some (MkURL (Str "https") (Str "s3.us-west-2.amazonaws.com") (Str "/bucket/a/b/c") ∅)
  else if bool_decide (p = Str "https://s3.amazonaws.com/bucket/a")
  then Some (MkURL (Str "https") (Str "s3.amazonaws.com") (Str "/bucket/a") ∅)
  else Some (MkURL [] [] p ∅).

Lemma s3_not_prefix_of_url :
  (let! p := SplitPath example_parse (Str "https://s3.us-west-2.amazonaws.com/bucket/a/b/c") in
   let! q := SplitPath example_parse (Str "s3://bucket/a/b") in HasPrefix p q) = Ok false.
Proof. vm_compute. reflexivity. Qed.

(** The global endpoint of S3. *)
Lemma s3_global_endpoint_panics : ms_Match (DefaultMatchers example_parse) (Str "https://s3.amazonaws.com/bucket/a") = Panic.
Proof. vm_compute. reflexivity. Qed.

(** The empty path has no match, so that [SplitPath] splits at [utf8.RuneError],
    which an empty string begins with: an absolute path that is not canonical. *)
Lemma SplitPath_empty : SplitPath example_parse [] = Ok [[]] /\ IsAbsolute [[]] = true /\ canonical [[]] = false.
Proof. vm_compute. done. Qed.

Lemma Windows_extended : (let! m := WindowsMatcher (Str "\\?c:\a") in Ok (m_Path m)) = Ok (Str "c:\a") /\
  WindowsMatcher (Str "\\?\c:\a") = Ok no_match.
Proof. by vm_compute. Qed.

Lemma Matchers_agree_witness :
  names_object (AWSS3Matcher example_parse (Str "https://s3.us-west-2.amazonaws.com/bucket/a/b/c")) (Str "s3") (Str "bucket") (Str "a/b/c") (Str "us-west-2").
Proof.
  pose (u := MkURL (Str "https") (Str "s3.us-west-2.amazonaws.com") (Str "/bucket/a/b/c") ∅).
  assert (slash ∉ Str "bucket") as H1 by (rewrite list_elem_of_In; cbn; intuition discriminate).
  assert (46 ∉ Str "us-west-2") as H2 by (rewrite list_elem_of_In; cbn; intuition discriminate).
  pose proof (Matchers_agree example_parse (Str "bucket") (Str "a/b/c") (Str "us-west-2") (Str "https://s3.us-west-2.amazonaws.com/bucket/a/b/c") u
    ltac:(discriminate) H1 ltac:(discriminate) H2) as (_ & _ & H & _).
  refine (proj1 (H _ _) _ _); [split; vm_compute; reflexivity|reflexivity..].
Defined.
