(* ===== verification/Flags.v ===== *)
(** * Values of flags (cmdutil/flags)

    range.go: ranges of strings and integers, their parsers and printers, and
    comma-separated lists of them; multi.go, oneof.go, enum.go and validate.go.
    An error is the fact that there is one: all parsers of ranges return
    [ErrInvalidRange].  What is assigned before an error is kept, as in the
    code. *)

From Stdlib Require Ascii String.
From stdpp Require Import base list option numbers gmap sorting.
From Stdlib Require Import ZArith Lia.
From stdpp Require Import list.
From S2P Require Import Prelude Strconv Text.
Import Stdlib.Strings.String.StringSyntax.

Open Scope Z_scope.
Open Scope go_scope.

Definition dash : rune := 45.
Definition comma : rune := 44.
Definition colon : rune := 58.

(** ** range.go *)

Record RangeSpec := MkRangeSpec { From : str; To : str; RelativeToEnd : bool; ExtendsToEnd : bool }.

Definition no_range : RangeSpec := MkRangeSpec [] [] false false.

Definition writeString (rs : RangeSpec) (sep : str) : str :=
  (if RelativeToEnd rs then sep else []) ++ From rs ++
  (if 0 <? len (To rs) then sep ++ To rs else []) ++
  (if ExtendsToEnd rs then sep else []).

Definition RangeSpec_String (rs : RangeSpec) : str := writeString rs [dash].

(** [None]: an [ErrInvalidRange]. *)
Definition parseSingleDash (sep : rune) (val : str) : res (option RangeSpec) :=
  if len val =? 1 then Ok None
  else
    let idx := Index val [sep] in
    if idx =? 0 then let! from := zslice val 1 (len val) in Ok (Some (MkRangeSpec from [] true false))
    else if idx =? len val - 1 then let! from := zslice val 0 (len val - 1) in Ok (Some (MkRangeSpec from [] false true))
    else
      let! from := zslice val 0 idx in
      let! to := zslice val (idx + 1) (len val) in
      Ok (Some (MkRangeSpec from to false false)).

Definition parseDoubleDash (sep : rune) (val : str) : res (option RangeSpec) :=
  let idx := Index val [sep] in
  let ridx := LastIndexByte val sep in
  if idx + 1 =? ridx then Ok None
  else if (idx =? 0) && (ridx =? len val - 1) then
    let! from := zslice val 1 (len val - 1) in Ok (Some (MkRangeSpec from [] true true))
  else if idx =? 0 then
    let! from := zslice val 1 ridx in
    let! to := zslice val (ridx + 1) (len val) in
    Ok (Some (MkRangeSpec from to true false))
  else Ok None.

Definition parseRangeSpec (sep : rune) (val : str) : res (option RangeSpec) :=
  if len val =? 0 then Ok None
  else
    let dashes := Count val sep in
    if dashes =? 0 then Ok (Some (MkRangeSpec val [] false false))
    else if dashes =? 1 then parseSingleDash sep val
    else if dashes =? 2 then parseDoubleDash sep val
    else Ok None.

(** [rs.set]: the new value and whether there was no error. *)
Definition set_range (sep : rune) (rs : RangeSpec) (v : str) : res (RangeSpec * bool) :=
  if 0 <? Count v comma then Ok (rs, false)
  else
    let! spec := parseRangeSpec sep v in
    Ok (match spec with Some spec => (spec, true) | None => (rs, false) end).

Definition RangeSpec_Set : RangeSpec -> str -> res (RangeSpec * bool) := set_range dash.

(** Lists: the specs before the first that is invalid have been appended. *)
Fixpoint set_ranges (sep : rune) (rs : list RangeSpec) (pieces : list str) : res (list RangeSpec * bool) :=
  match pieces with
  | [] => Ok (rs, true)
  | p :: pieces =>
      let! rg := parseRangeSpec sep p in
      match rg with None => Ok (rs, false) | Some rg => set_ranges sep (rs ++ [rg]) pieces end
  end.

Definition RangeSpecs_Set (rs : list RangeSpec) (val : str) : res (list RangeSpec * bool) := set_ranges dash rs (strings_Split val comma).

(** [for i, s := range *rs { ...; if i < rl { out.WriteString(",") } }] *)
Fixpoint write_list {A} (write : A -> str) (l : list A) : str :=
  match l with
  | [] => []
  | s :: l => write s ++ (if 0 <? len l then [comma] else []) ++ write_list write l
  end.

Definition RangeSpecs_String (rs : list RangeSpec) : str := write_list (fun s => writeString s [dash]) rs.

Definition ColonRangeSpec_String (crs : RangeSpec) : str := writeString crs [colon].
Definition ColonRangeSpec_Set : RangeSpec -> str -> res (RangeSpec * bool) := set_range colon.
Definition ColonRangeSpecs_Set (rs : list RangeSpec) (val : str) : res (list RangeSpec * bool) := set_ranges colon rs (strings_Split val comma).
Definition ColonRangeSpecs_String (rs : list RangeSpec) : str := write_list (fun s => writeString s [colon]) rs.

(** *** Integers *)

Record IntRangeSpec := MkIntRangeSpec { iFrom : Z; iTo : Z; iRelativeToEnd : bool; iExtendsToEnd : bool }.
Definition no_int_range : IntRangeSpec := MkIntRangeSpec 0 0 false false.

Definition IntRangeSpec_Set (ir : IntRangeSpec) (val : str) : res (IntRangeSpec * bool) :=
  let! (r, ok) := RangeSpec_Set no_range val in
  if negb ok then Ok (ir, false)
  else
    match Atoi (From r) with
    | None => Ok (ir, false)
    | Some from =>
        let ir := MkIntRangeSpec from (iTo ir) (iRelativeToEnd ir) (iExtendsToEnd ir) in
        if 0 <? len (To r) then
          match Atoi (To r) with
          | None => Ok (ir, false)
          | Some to => Ok (MkIntRangeSpec (iFrom ir) to (RelativeToEnd r) (ExtendsToEnd r), true)
          end
        else Ok (MkIntRangeSpec (iFrom ir) (iTo ir) (RelativeToEnd r) (ExtendsToEnd r), true)
    end.

Definition int_writeString (ir : IntRangeSpec) (sep : str) : str :=
  (if iRelativeToEnd ir then sep else []) ++ Itoa (iFrom ir) ++
  (if negb (iTo ir =? 0) then sep ++ Itoa (iTo ir) else []) ++
  (if iExtendsToEnd ir then sep else []).

Definition IntRangeSpec_String (ir : IntRangeSpec) : str := int_writeString ir [dash].

Fixpoint set_ints (irs : list IntRangeSpec) (pieces : list str) : res (list IntRangeSpec * bool) :=
  match pieces with
  | [] => Ok (irs, true)
  | p :: pieces =>
      let! (rs, ok) := IntRangeSpec_Set no_int_range p in
      if negb ok then Ok (irs, false) else set_ints (irs ++ [rs]) pieces
  end.

Definition IntRangeSpecs_Set (irs : list IntRangeSpec) (val : str) : res (list IntRangeSpec * bool) := set_ints irs (strings_Split val comma).
Definition IntRangeSpecs_String (irs : list IntRangeSpec) : str := write_list IntRangeSpec_String irs.

(** ** multi.go and oneof.go; [validate] is true of what the function accepts,
    or absent *)

Definition valid (validate : option (str -> bool)) (v : str) : bool := match validate with None => true | Some fn => fn v end.

Definition Repeating_String (values : list str) : str := strings_Join values (Str ", ").
Definition Repeating_Set (validate : option (str -> bool)) (values : list str) (v : str) : list str * bool :=
  if valid validate v then (values ++ [v], true) else (values, false).

Definition Commas_Set (validate : option (str -> bool)) (values : list str) (v : str) : list str * bool :=
  let vals := strings_Split v comma in
  if forallb (valid validate) vals then (values ++ vals, true) else (values, false).
Definition Commas_String (values : list str) : str := strings_Join values (Str ", ").

Definition OneOf_Validate (ef value : str) (values : list str) : bool := existsb (fun v => bool_decide (v = ef)) (values ++ [value]).

(** ** enum.go *)

Section enum.
Context {V : Type} `{!EqDecision V} (print : V -> str).

(** The body of the loop over the map: [(found, best)]. *)
Definition enum_step (value : V) (st : bool * str) (entry : str * V) : bool * str :=
  let '(found, best) := st in
  let '(s, val) := entry in
  if negb (bool_decide (val = value)) then st
  else if negb found || str_ltb s best then (true, s) else st.

(** [opts] is the map in the order it is ranged over. *)
Definition Enum_String (opts : list (str * V)) (value : V) : str :=
  let '(found, best) := foldl (enum_step value) (false, []) opts in
  if found : bool then best else print value.

Definition AllowedValues (opts : list (str * V)) : str := strings_Join (SliceStable str_ltb (map fst opts)) (Str ", ").

Definition Enum_Set (opts : gmap str V) (value : V) (val : str) : V * bool :=
  match opts !! val with None => (value, false) | Some parsed => (parsed, true) end.
End enum.

(** ** validate.go

    An argument is a value with a length, or of another kind. *)

Definition setMask (args : list (option Z)) : list Z :=
  map (fun a => match a with Some l => if 0 <? l then 1 else 0 | None => -1 end) args.

Definition validate_mask (mask : list Z) : res unit := if existsb (fun v => v <? 0) mask then Panic else Ok ().

Definition count_mask (mask : list Z) : Z := len (filter (fun v => 0 < v) mask).

Definition ExactlyOneSet (args : list (option Z)) : res bool :=
  let mask := setMask args in validate_mask mask ;; Ok (count_mask mask =? 1).
Definition AtMostOneSet (args : list (option Z)) : res bool :=
  let mask := setMask args in validate_mask mask ;; Ok ((count_mask mask =? 1) || (count_mask mask =? 0)).
Definition AllSet (args : list (option Z)) : res bool :=
  let mask := setMask args in validate_mask mask ;; Ok (count_mask mask =? len args).

(** ** Ranges: parsing and printing *)

(** The ranges that have a form: something to begin with, and not both an end
    and the end. *)
Record range_ok (sep : rune) (rs : RangeSpec) : Prop := {
  r_from : From rs <> [];
  r_from_sep : sep ∉ From rs;
  r_to_sep : sep ∉ To rs;
  r_end : To rs = [] \/ ExtendsToEnd rs = false;
}.

Definition one_dash (a b : str) : option RangeSpec :=
  match a, b with
  | [], [] => None
  | [], _ => Some (MkRangeSpec b [] true false)
  | _, [] => Some (MkRangeSpec a [] false true)
  | _, _ => Some (MkRangeSpec a b false false)
  end.

Definition two_dashes (a b c : str) : option RangeSpec :=
  match a, b, c with
  | [], _ :: _, [] => Some (MkRangeSpec b [] true true)
  | [], _ :: _, _ => Some (MkRangeSpec b c true false)
  | _, _, _ => None
  end.

Lemma parse_none sep v : sep ∉ v -> parseRangeSpec sep v = Ok (match v with [] => None | _ => Some (MkRangeSpec v [] false false) end).
Proof. intros Hv. unfold parseRangeSpec. rewrite Count_notin, len_zero by done. by destruct v. Qed.

Lemma len_app_cons {A} (a : list A) x b : len (a ++ x :: b) = len a + 1 + len b.
Proof. rewrite len_app, len_cons. lia. Qed.

Lemma parse_one sep a b : sep ∉ a -> sep ∉ b -> parseRangeSpec sep (a ++ sep :: b) = Ok (one_dash a b).
Proof.
  intros Ha Hb. unfold parseRangeSpec, parseSingleDash. rewrite Count_app, Count_cons, !Count_notin, Index_rune, len_app_cons by done.
  pose proof (len_nonneg a). pose proof (len_nonneg b). rewrite (proj2 (Z.eqb_neq _ 0)) by lia. change (0 + (1 + 0) =? 0) with false. change (0 + (1 + 0) =? 1) with true.
  cbv iota. destruct a as [|x a].
  - destruct b as [|y b]; [done|]. rewrite len_nil. rewrite (proj2 (Z.eqb_neq (0 + 1 + len (y :: b)) 1)) by (rewrite len_cons; pose proof (len_nonneg b); lia).
    change (0 =? 0) with true. cbv iota. change (0 + 1 + len (y :: b)) with (1 + len (y :: b)). replace (1 + len (y :: b)) with (len ([sep] ++ y :: b)) by (rewrite len_app; done).
    change 1 with (len [sep]) at 1. change ([] ++ sep :: y :: b) with ([sep] ++ y :: b). by rewrite zslice_after.
  - rewrite (proj2 (Z.eqb_neq (len (x :: a)) 0)), (proj2 (Z.eqb_neq _ 1)) by (rewrite len_cons; pose proof (len_nonneg a); lia). destruct b as [|y b].
    + rewrite len_nil. rewrite (proj2 (Z.eqb_eq _ _)) by lia. replace (len (x :: a) + 1 + 0 - 1) with (len (x :: a)) by lia. by rewrite zslice_before.
    + rewrite (proj2 (Z.eqb_neq _ _)) by (rewrite (len_cons y); pose proof (len_nonneg b); lia). rewrite zslice_before. cbn [rbind].
      change (sep :: y :: b) with ([sep] ++ y :: b). rewrite app_assoc. replace (len (x :: a) + 1) with (len ((x :: a) ++ [sep])) by (rewrite len_app; done).
      rewrite <- len_app. by rewrite zslice_after.
Qed.

Lemma parse_two sep a b c : sep ∉ a -> sep ∉ b -> sep ∉ c -> parseRangeSpec sep (a ++ sep :: b ++ sep :: c) = Ok (two_dashes a b c).
Proof.
  intros Ha Hb Hc. unfold parseRangeSpec, parseDoubleDash. rewrite Index_rune by done.
  assert (LastIndexByte (a ++ sep :: b ++ sep :: c) sep = len a + 1 + len b) as ->.
  { change (sep :: b ++ sep :: c) with ([sep] ++ b ++ sep :: c). rewrite !app_assoc, LastIndexByte_app by done. rewrite !len_app, len_cons, len_nil. lia. }
  rewrite Count_app, Count_cons, Count_app, Count_cons, !Count_notin by done. change (0 + (1 + (0 + (1 + 0)))) with 2.
  change (2 =? 0) with false. change (2 =? 1) with false. change (2 =? 2) with true. cbv iota.
  rewrite !len_app_cons. pose proof (len_nonneg a). pose proof (len_nonneg b). pose proof (len_nonneg c).
  rewrite (proj2 (Z.eqb_neq _ 0)) by lia. destruct b as [|y b].
  { rewrite len_nil, (proj2 (Z.eqb_eq (len a + 1) (len a + 1 + 0))) by lia. by destruct a. }
  rewrite (proj2 (Z.eqb_neq (len a + 1) _)) by (rewrite len_cons; pose proof (len_nonneg b); lia). destruct a as [|x a].
  2: { rewrite (proj2 (Z.eqb_neq (len (x :: a)) 0)) by (rewrite len_cons; pose proof (len_nonneg a); lia). by destruct c. }
  change (len [] =? 0) with true. cbn [andb app]. rewrite len_nil.
  assert (forall t, zslice (sep :: (y :: b) ++ t) 1 (0 + 1 + len (y :: b)) = Ok (y :: b)) as Hfrom.
  { intros t. change (sep :: (y :: b) ++ t) with ([sep] ++ (y :: b) ++ t). rewrite app_assoc. pose proof (len_nonneg t).
    rewrite zslice_Ok by (rewrite ?len_app, ?len_cons, ?len_nil in *; lia). rewrite <- app_assoc.
    change (drop (Z.to_nat 1) ([sep] ++ (y :: b) ++ t)) with ((y :: b) ++ t). replace (Z.to_nat (0 + 1 + len (y :: b) - 1)) with (length (y :: b)) by (unfold len; lia).
    by rewrite take_app_length. }
  destruct c as [|z c].
  - change (len []) with 0. rewrite (proj2 (Z.eqb_eq (0 + 1 + len (y :: b)) (0 + 1 + (len (y :: b) + 1 + 0) - 1))) by lia. replace (0 + 1 + (len (y :: b) + 1 + 0) - 1) with (0 + 1 + len (y :: b)) by lia.
    change (sep :: y :: b ++ [sep]) with (sep :: (y :: b) ++ [sep]). by rewrite Hfrom.
  - rewrite (proj2 (Z.eqb_neq (0 + 1 + len (y :: b)) _)) by (rewrite (len_cons z); pose proof (len_nonneg c); lia).
    change (sep :: y :: b ++ sep :: z :: c) with (sep :: (y :: b) ++ sep :: z :: c). rewrite Hfrom. cbn [rbind].
    assert (zslice (sep :: (y :: b) ++ sep :: z :: c) (0 + 1 + len (y :: b) + 1) (0 + 1 + (len (y :: b) + 1 + len (z :: c))) = Ok (z :: c)) as ->; [|done].
    replace (sep :: (y :: b) ++ sep :: z :: c) with ((sep :: (y :: b) ++ [sep]) ++ z :: c) by (cbn; by rewrite <- app_assoc).
    rewrite <- (zslice_after (sep :: (y :: b) ++ [sep]) (z :: c)). f_equal; unfold len; cbn [app length]; rewrite ?length_app; cbn [length]; rewrite ?length_app; cbn [length]; lia.
Qed.

Lemma parse_many sep v : 2 < Count v sep -> parseRangeSpec sep v = Ok None.
Proof.
  intros Hc. unfold parseRangeSpec. destruct (len v =? 0); [done|]. by rewrite (proj2 (Z.eqb_neq _ 0)), (proj2 (Z.eqb_neq _ 1)), (proj2 (Z.eqb_neq _ 2)) by lia.
Qed.

(** A text by its separators. *)
Lemma separators sep v :
  (sep ∉ v) \/ (exists a b, v = a ++ sep :: b /\ (sep ∉ a) /\ (sep ∉ b)) \/
  (exists a b c, v = a ++ sep :: b ++ sep :: c /\ (sep ∉ a) /\ (sep ∉ b) /\ (sep ∉ c)) \/ 2 < Count v sep.
Proof.
  destruct (first_occurrence v sep) as [?|(a & v1 & -> & Ha)]; [by left|right].
  destruct (first_occurrence v1 sep) as [?|(b & v2 & -> & Hb)]; [left; by exists a, v1|right].
  destruct (first_occurrence v2 sep) as [?|(c & v3 & -> & Hc)]; [left; by exists a, b, v2|right].
  rewrite !Count_app, Count_cons, !Count_app, Count_cons, !Count_app, Count_cons. pose proof (Count_nonneg a sep). pose proof (Count_nonneg b sep).
  pose proof (Count_nonneg c sep). pose proof (Count_nonneg v3 sep). lia.
Qed.

(** The forms that are printed. *)
Lemma parse_printed sep rs : range_ok sep rs -> parseRangeSpec sep (writeString rs [sep]) = Ok (Some rs).
Proof.
  intros [Hf Hfs Hts He]. destruct rs as [f t r e]. cbn in *. unfold writeString. cbn. destruct f as [|x f]; [done|]. rewrite len_pos.
  destruct t as [|y t].
  - rewrite bool_decide_false by (by intros H). destruct r, e; cbn [app].
    + change (sep :: x :: f ++ [sep]) with ([] ++ sep :: (x :: f) ++ sep :: []). rewrite parse_two by (done || apply not_elem_of_nil). done.
    + rewrite app_nil_r. change (sep :: x :: f) with ([] ++ sep :: x :: f). rewrite parse_one by (done || apply not_elem_of_nil). done.
    + change (x :: f ++ [sep]) with ((x :: f) ++ sep :: []). rewrite parse_one by (done || apply not_elem_of_nil). done.
    + rewrite app_nil_r. by rewrite parse_none.
  - rewrite bool_decide_true by done. destruct He as [?| ->]; [done|]. rewrite app_nil_r. destruct r; cbn [app].
    + change (sep :: x :: f ++ sep :: y :: t) with ([] ++ sep :: (x :: f) ++ sep :: y :: t). rewrite parse_two by (done || apply not_elem_of_nil). done.
    + change (x :: f ++ sep :: y :: t) with ((x :: f) ++ sep :: y :: t). by rewrite parse_one.
Qed.

Lemma parse_ok sep v rs : parseRangeSpec sep v = Ok (Some rs) -> range_ok sep rs /\ writeString rs [sep] = v.
Proof.
  destruct (separators sep v) as [Hv|[(a & b & -> & Ha & Hb)|[(a & b & c & -> & Ha & Hb & Hc)|Hm]]].
  - rewrite parse_none by done. destruct v as [|x v]; [done|]. intros [= <-]. split; [constructor; cbn; [done|done|apply not_elem_of_nil|by left]|].
    unfold writeString. cbn. by rewrite app_nil_r.
  - rewrite parse_one by done. destruct a as [|x a], b as [|y b]; cbn [one_dash]; intros [= <-]; (split; [constructor; cbn; try done; try apply not_elem_of_nil; auto|]);
      unfold writeString; cbn; rewrite ?app_nil_r, ?len_pos, ?bool_decide_true by done; done.
  - rewrite parse_two by done. destruct a as [|x a], b as [|y b], c as [|z c]; cbn [two_dashes]; intros [= <-];
      (split; [constructor; cbn; try done; try apply not_elem_of_nil; auto|]); unfold writeString; cbn; rewrite ?app_nil_r, ?len_pos, ?bool_decide_true by done; done.
  - rewrite parse_many by done. done.
Qed.

Lemma parse_total sep v : exists o, parseRangeSpec sep v = Ok o.
Proof.
  destruct (separators sep v) as [Hv|[(a & b & -> & Ha & Hb)|[(a & b & c & -> & Ha & Hb & Hc)|Hm]]].
  - rewrite parse_none by done. by eexists.
  - rewrite parse_one by done. by eexists.
  - rewrite parse_two by done. by eexists.
  - rewrite parse_many by done. by eexists.
Qed.

(** ** Lists of ranges *)

Lemma write_list_Join {A} (write : A -> str) l : write_list write l = strings_Join (map write l) [comma].
Proof.
  induction l as [|x l IH]; [done|]. cbn [write_list map]. rewrite IH, len_pos. destruct l as [|y l]; [cbn; by rewrite !app_nil_r|].
  rewrite bool_decide_true by done. by rewrite strings_Join_cons by done.
Qed.

Lemma set_ranges_ok sep rs pieces rs' : set_ranges sep rs pieces = Ok (rs', true) <->
  exists specs, rs' = rs ++ specs /\ Forall2 (fun p spec => range_ok sep spec /\ p = writeString spec [sep]) pieces specs.
Proof.
  revert rs. induction pieces as [|p pieces IH]; intros rs; cbn [set_ranges].
  - split; [intros [= ->]; exists []; by rewrite app_nil_r|]. intros (specs & -> & H). inversion H. by rewrite app_nil_r.
  - destruct (parse_total sep p) as [[spec|] E]; rewrite E; cbn [rbind].
    + rewrite IH. apply parse_ok in E as [Ho E]. split.
      * intros (specs & -> & H). exists (spec :: specs). split; [by rewrite <- app_assoc|]. by constructor.
      * intros (specs & -> & H). inversion H as [|? spec' ? specs' [Ho' E'] H']; subst. exists specs'. split; [|done].
        assert (spec' = spec) as ->; [|by rewrite <- app_assoc]. pose proof (parse_printed sep spec' Ho') as P1. rewrite <- E', (parse_printed sep spec Ho) in P1. by injection P1.
    + split; [done|]. intros (specs & -> & H). inversion H as [|? spec' ? specs' [Ho' E'] H']; subst. rewrite parse_printed in E by done. done.
Qed.

(** C26: [parseRangeSpec] never panics and accepts exactly the texts that
    [String] prints for ranges with something to begin with, no separator
    within and not both an end and the extension to the end: what is parsed
    prints as the text, and what is printed parses to the range.  The same
    holds of comma-separated lists, which [Set] appends. *)
Theorem Range_bijection (sep : rune) : sep <> comma ->
  (forall v, exists o, parseRangeSpec sep v = Ok o) /\
  (forall v rs, parseRangeSpec sep v = Ok (Some rs) <-> range_ok sep rs /\ writeString rs [sep] = v) /\
  (forall val old rs, set_ranges sep old (strings_Split val comma) = Ok (rs, true) <->
     exists specs, rs = old ++ specs /\ specs <> [] /\ Forall (fun spec => range_ok sep spec /\ comma ∉ writeString spec [sep]) specs /\
       write_list (fun s => writeString s [sep]) specs = val).
Proof.
  intros Hsep. split_and!.
  - apply parse_total.
  - intros v rs. split; [apply parse_ok|]. intros [Ho <-]. by apply parse_printed.
  - intros val old rs. rewrite set_ranges_ok. split.
    + intros (specs & -> & H). exists specs. pose proof (strings_Join_Split val comma) as Ej. pose proof (strings_Split_free val comma) as Hfree.
      assert (strings_Split val comma = map (fun s => writeString s [sep]) specs) as Em.
      { clear -H. induction H as [|p spec l specs [_ ->] _ IH]; [done|]. cbn. by rewrite IH. }
      split_and!; [done| | |by rewrite write_list_Join, <- Em].
      * intros ->. unfold strings_Split in Em. by destruct (split_on_cons comma [] val) as (x & l & E); rewrite E in Em.
      * rewrite Em in H, Hfree. clear -H Hfree. induction specs as [|s specs IH]; [done|]. cbn in *. inversion H as [|? ? ? ? [Ho _] H']; subst. inversion Hfree; subst.
        constructor; [done|]. by apply IH.
    + intros (specs & -> & Hne & Hf & <-). exists specs. split; [done|]. rewrite write_list_Join, strings_Split_Join.
      * clear Hne. induction Hf as [|s specs [Ho _] _ IH]; [constructor|]. by constructor.
      * by destruct specs.
      * clear Hne. induction Hf as [|s specs [_ Hc] _ IH]; [constructor|]. by constructor.
Qed.

(** ** Integers *)

(** The integer ranges that have a form: not both an end and the end, and an end
    other than 0. *)
Record int_range_ok (ir : IntRangeSpec) : Prop := {
  ir_from : 0 <= iFrom ir < 2 ^ 63;
  ir_to : 0 <= iTo ir < 2 ^ 63;
  ir_end : iTo ir = 0 \/ iExtendsToEnd ir = false;
}.

Definition as_range (ir : IntRangeSpec) : RangeSpec :=
  MkRangeSpec (Itoa (iFrom ir)) (if (iTo ir =? 0) then [] else Itoa (iTo ir)) (iRelativeToEnd ir) (iExtendsToEnd ir).

Lemma as_range_ok ir : int_range_ok ir -> range_ok dash (as_range ir) /\ (comma ∉ writeString (as_range ir) [dash]) /\
  IntRangeSpec_String ir = writeString (as_range ir) [dash].
Proof.
  intros [Hf Ht He]. destruct (Itoa_digits (iFrom ir)) as [Df Nf]; [lia|]. destruct (Itoa_digits (iTo ir)) as [Dt Nt]; [lia|].
  assert (Forall digit_rune (To (as_range ir))) as Dto by (cbn; by case_match).
  assert (IntRangeSpec_String ir = writeString (as_range ir) [dash]) as E.
  { unfold IntRangeSpec_String, int_writeString, writeString, as_range. cbn. destruct (iTo ir =? 0); cbn [negb]; [done|]. by rewrite len_pos, bool_decide_true. }
  split_and!; [|clear E|exact E].
  - constructor; cbn; [done| | |].
    + apply digits_not_in; [done|by left].
    + apply digits_not_in; [exact Dto|by left].
    + destruct He as [->|He]; [by left|by right].
  - unfold writeString. rewrite !elem_of_app. intros [H|[H|[H|H]]].
    + destruct (RelativeToEnd (as_range ir)); [apply list_elem_of_singleton in H; done|by apply not_elem_of_nil in H].
    + revert H. apply digits_not_in; [exact Df|by left].
    + case_match; [|by apply not_elem_of_nil in H]. apply elem_of_app in H as [H|H]; [apply list_elem_of_singleton in H; done|].
      revert H. apply digits_not_in; [exact Dto|by left].
    + destruct (ExtendsToEnd (as_range ir)); [apply list_elem_of_singleton in H; done|by apply not_elem_of_nil in H].
Qed.

Lemma int_roundtrip ir : int_range_ok ir -> IntRangeSpec_Set no_int_range (IntRangeSpec_String ir) = Ok (ir, true).
Proof.
  intros Hi. destruct (as_range_ok ir Hi) as (Ho & Hc & ->). unfold IntRangeSpec_Set, RangeSpec_Set, set_range.
  rewrite Count_notin by done. change (0 <? 0) with false. cbv iota. rewrite parse_printed by done. cbn [rbind negb].
  destruct Hi as [Hf Ht He]. unfold as_range. cbn [From To RelativeToEnd ExtendsToEnd]. rewrite Atoi_Itoa by done.
  destruct (Z.eqb_spec (iTo ir) 0) as [E|E].
  - change (0 <? len []) with false. cbv iota. cbn. rewrite <- E. by destruct ir.
  - destruct (Itoa_digits (iTo ir)) as [_ Nt]; [lia|]. rewrite len_pos, bool_decide_true, Atoi_Itoa by done. by destruct ir.
Qed.

(** What [String] prints for a list of integer ranges, [Set] appends to any
    list as the same ranges, as long as their bounds are not negative, an end is
    not 0 and no range has both an end and the extension to the end. *)
Theorem IntRange_roundtrip (old l : list IntRangeSpec) : Forall int_range_ok l -> l <> [] ->
  IntRangeSpecs_Set old (IntRangeSpecs_String l) = Ok (old ++ l, true).
Proof.
  intros Hl Hne. unfold IntRangeSpecs_Set, IntRangeSpecs_String. rewrite write_list_Join, strings_Split_Join.
  - clear Hne. revert old. induction Hl as [|ir l Hi _ IH]; intros old; cbn [map set_ints]; [by rewrite app_nil_r|].
    rewrite int_roundtrip by done. cbn [rbind negb]. rewrite IH. by rewrite <- app_assoc.
  - by destruct l.
  - clear Hne. induction Hl as [|ir l Hi _ IH]; cbn; [constructor|]. constructor; [|done]. destruct (as_range_ok ir Hi) as (_ & Hc & ->). exact Hc.
Qed.

(** ** Enumerations *)

Section enum_spec.
Context {V : Type} `{!EqDecision V} (print : V -> str) (value : V).

(** The least of the names seen, if any. *)
Definition least (seen : list (str * V)) (st : bool * str) : Prop :=
  match st with
  | (false, _) => forall s, (s, value) ∉ seen
  | (true, best) => (best, value) ∈ seen /\ forall s, (s, value) ∈ seen -> str_ltb s best = false
  end.

Lemma enum_step_least seen st e : least seen st -> least (seen ++ [e]) (enum_step value st e).
Proof.
  destruct st as [found best], e as [s v]. unfold enum_step. intros Hl. case_bool_decide as Ev; cbn [negb].
  - subst v. destruct found; cbn [negb orb].
    + destruct Hl as [Hb Hm]. destruct (str_ltb s best) eqn:El.
      * split; [apply elem_of_app; right; by left|]. intros s' [Hs|Hs]%elem_of_app; [|apply list_elem_of_singleton in Hs; injection Hs as ->; apply str_ltb_irrefl].
        destruct (str_ltb s' s) eqn:E; [|done]. exfalso. pose proof (str_ltb_trans _ _ _ E El) as H. by rewrite Hm in H.
      * split; [apply elem_of_app; by left|]. intros s' [Hs|Hs]%elem_of_app; [by apply Hm|]. apply list_elem_of_singleton in Hs. by injection Hs as ->.
    + split; [apply elem_of_app; right; by left|]. intros s' [Hs|Hs]%elem_of_app; [by apply Hl in Hs|]. apply list_elem_of_singleton in Hs. injection Hs as ->. apply str_ltb_irrefl.
  - assert (forall s', (s', value) ∈ seen ++ [(s, v)] <-> (s', value) ∈ seen) as Hiff.
    { intros s'. rewrite elem_of_app, list_elem_of_singleton. split; [intros [?|[= _ ->]]; done|by left]. }
    destruct found; cbn; [|intros s'; rewrite Hiff; apply Hl]. rewrite Hiff. split; [apply Hl|]. intros s'. rewrite Hiff. apply Hl.
Qed.

Lemma enum_fold_least opts seen st : least seen st -> least (seen ++ opts) (foldl (enum_step value) st opts).
Proof.
  revert seen st. induction opts as [|e opts IH]; intros seen st Hl; [by rewrite app_nil_r|]. cbn [foldl]. change (e :: opts) with ([e] ++ opts).
  rewrite app_assoc. apply IH. by apply enum_step_least.
Qed.

Lemma Enum_String_least opts : (exists s, (s, value) ∈ opts /\ Enum_String print opts value = s /\ forall s', (s', value) ∈ opts -> str_ltb s' s = false) \/
  (forall s, (s, value) ∉ opts) /\ Enum_String print opts value = print value.
Proof.
  unfold Enum_String. pose proof (enum_fold_least opts [] (false, []) (fun s => not_elem_of_nil _)) as Hl. cbn [app] in Hl.
  destruct (foldl (enum_step value) (false, []) opts) as [[] best]; [left; exists best|right]; naive_solver.
Qed.
End enum_spec.

(** [Enum.String] does not depend on the order in which the map is ranged
    over: it is the least of the names of the value, and [Set] of it restores
    the value; [Set] of anything that is not a name changes nothing. *)
Theorem Enum_stable {V : Type} `{!EqDecision V} (print : V -> str) (opts : list (str * V)) (value old : V) : NoDup (map fst opts) ->
  (forall opts', opts ≡ₚ opts' -> Enum_String print opts' value = Enum_String print opts value) /\
  ((exists s, (s, value) ∈ opts) -> Enum_Set (list_to_map opts) old (Enum_String print opts value) = (value, true)) /\
  (forall s, s ∉ map fst opts -> Enum_Set (list_to_map opts) old s = (old, false)).
Proof.
  intros Hnd. split_and!.
  - intros opts' Hp. destruct (Enum_String_least print value opts) as [(s & Hs & -> & Hm)|[Hn ->]], (Enum_String_least print value opts') as [(s' & Hs' & -> & Hm')|[Hn' ->]].
    + apply str_ltb_total; [apply Hm; by rewrite Hp|apply Hm'; by rewrite <- Hp].
    + exfalso. apply (Hn' s). by rewrite <- Hp.
    + exfalso. apply (Hn s'). by rewrite Hp.
    + done.
  - intros [s0 Hs0]. destruct (Enum_String_least print value opts) as [(s & Hs & -> & _)|[Hn _]]; [|by apply Hn in Hs0].
    unfold Enum_Set. by rewrite (elem_of_list_to_map_1 opts s value).
  - intros s Hs. unfold Enum_Set. by rewrite (not_elem_of_list_to_map_1 opts s).
Qed.

(** ** validate.go *)

(** The masks tell the arguments that are set from those that are not. *)
Lemma count_mask_set (lens : list Z) : count_mask (setMask (map Some lens)) = len (filter (fun l => 0 < l) lens).
Proof.
  unfold count_mask, setMask. induction lens as [|l lens IH]; [done|]. cbn [map]. destruct (Z.ltb_spec 0 l).
  - rewrite !filter_cons_True by done. rewrite !len_cons. by rewrite IH.
  - rewrite !filter_cons_False by lia. exact IH.
Qed.

Lemma validate_mask_some (lens : list Z) : validate_mask (setMask (map Some lens)) = Ok ().
Proof.
  unfold validate_mask. assert (existsb (fun v : Z => v <? 0) (setMask (map Some lens)) = false) as E; [|by rewrite E].
  induction lens as [|l lens IH]; [done|]. unfold setMask in *. cbn [map existsb]. rewrite IH. by destruct (0 <? l).
Qed.

Lemma validate_mask_none args : None ∈ args -> validate_mask (setMask args) = Panic.
Proof.
  intros Hin. unfold validate_mask. assert (existsb (fun v : Z => v <? 0) (setMask args) = true) as E; [|by rewrite E].
  apply existsb_exists. exists (-1). split; [|done]. apply in_map_iff. exists None. split; [done|]. by apply list_elem_of_In.
Qed.

(** Without arguments of another kind the three functions count those with a
    length; an argument of another kind panics. *)
Lemma Set_counts (lens : list Z) : let n := len (filter (fun l => 0 < l) lens) in
  ExactlyOneSet (map Some lens) = Ok (n =? 1) /\ AtMostOneSet (map Some lens) = Ok ((n =? 1) || (n =? 0)) /\
  AllSet (map Some lens) = Ok (n =? len lens) /\
  (forall args, None ∈ args -> ExactlyOneSet args = Panic /\ AtMostOneSet args = Panic /\ AllSet args = Panic).
Proof.
  cbn zeta. unfold ExactlyOneSet, AtMostOneSet, AllSet. cbn zeta. rewrite validate_mask_some, count_mask_set. cbn [rbind]. split_and!; try done.
  - unfold len. by rewrite length_map.
  - intros args H. by rewrite validate_mask_none.
Qed.

(** ** Examples *)

(** [Set] of a range without an end keeps the end of the one before, and an end
    of 0 is not printed. *)
Lemma IntRange_keeps_end : IntRangeSpec_Set (MkIntRangeSpec 2 4 false false) (Str "7") = Ok (MkIntRangeSpec 7 4 false false, true).
Proof. reflexivity. Qed.

Lemma IntRange_end_zero : IntRangeSpec_Set no_int_range (Str "3-0") = Ok (MkIntRangeSpec 3 0 false false, true) /\
  IntRangeSpec_String (MkIntRangeSpec 3 0 false false) = Str "3".
Proof. by split. Qed.

(** A list with an invalid range is appended up to it. *)
Lemma Ranges_partial : RangeSpecs_Set [] (Str "1,--,2") = Ok ([MkRangeSpec (Str "1") [] false false], false).
Proof. reflexivity. Qed.

Lemma Range_bijection_witness : dash <> comma /\
  (parseRangeSpec dash (Str "-4-2") = Ok (Some (MkRangeSpec (Str "4") (Str "2") true false)) <->
   range_ok dash (MkRangeSpec (Str "4") (Str "2") true false) /\ writeString (MkRangeSpec (Str "4") (Str "2") true false) [dash] = Str "-4-2").
Proof. split; [done|]. apply (Range_bijection dash). done. Defined.

Lemma IntRange_roundtrip_witness :
  IntRangeSpecs_Set [] (IntRangeSpecs_String [MkIntRangeSpec 2 4 true false; MkIntRangeSpec 7 0 false true]) =
    Ok ([] ++ [MkIntRangeSpec 2 4 true false; MkIntRangeSpec 7 0 false true], true).
Proof. apply IntRange_roundtrip; [|done]. constructor; [constructor; cbn; auto; lia|]. constructor; [constructor; cbn; auto; lia|constructor]. Defined.

Lemma Enum_stable_witness : Enum_Set (list_to_map [(Str "b", 1); (Str "a", 1); (Str "c", 2)]) 0
  (Enum_String Itoa [(Str "b", 1); (Str "a", 1); (Str "c", 2)] 1) = (1, true).
Proof.
  apply (Enum_stable Itoa [(Str "b", 1); (Str "a", 1); (Str "c", 2)] 1 0).
  - cbn [map fst]. repeat constructor; rewrite ?list_elem_of_In; cbn; intuition discriminate.
  - exists (Str "b"). left.
Defined.
