(* ===== verification/DateText.v ===== *)
(** * Dates and times as text (datetime)

    The parsers and printers of months, dates, calendar dates, ranges and times
    of day in dates.go, calendar.go, timeofday.go, date_range.go and
    calendar_range.go, on the packed integers of [Dates] and [DateRanges], and
    the addition of a duration to a time of day.  [None] is an error.
    [ToLower] and [IsNumber] are the functions of package unicode on a rune. *)

From Stdlib Require Ascii String.
From stdpp Require Import base list option numbers gmap sorting.
From Stdlib Require Import ZArith Lia.
From stdpp Require Import list.
From S2P Require Import Prelude Strconv Text Dates DateRanges.
Import Stdlib.Strings.String.StringSyntax.

Open Scope Z_scope.
Open Scope go_scope.

Definition slash : rune := 47.
Definition dash : rune := 45.
Definition comma : rune := 44.
Definition colon : rune := 58.

(** *** Package strings *)

Definition strings_Contains (s : str) (c : rune) : bool := 0 <=? Index s [c].
Definition strings_HasSuffix (s suffix : str) : bool := prefixed (rev suffix) (rev s).

(** ** Months *)

Definition months : list str := [Str "january"; Str "february"; Str "march"; Str "april"; Str "may"; Str "june"; Str "july";
  Str "august"; Str "september"; Str "october"; Str "november"; Str "december"].

(** [time.Month.String]. *)
Definition longMonthNames : list str := [Str "January"; Str "February"; Str "March"; Str "April"; Str "May"; Str "June"; Str "July";
  Str "August"; Str "September"; Str "October"; Str "November"; Str "December"].

Definition Month_String (m : Z) : str :=
  if (1 <=? m) && (m <=? 12) then default [] (zget longMonthNames (m - 1)) else Str "%!Month(" ++ Itoa m ++ Str ")".

Definition ParseNumericMonth (val : str) : option Z :=
  match parse_uint 8 val with
  | None => None
  | Some n => if (n <? 1) || (12 <? n) then None else Some n
  end.

(** [for i := range months { ... }] from index [i]. *)
Fixpoint month_from (i : Z) (months : list str) (lc : str) : option Z :=
  match months with
  | [] => None
  | m :: months => if prefixed lc m then Some (i + 1) else month_from (i + 1) months lc
  end.

Section text.
Context (ToLower : rune -> rune) (IsNumber : rune -> bool).

Definition strings_ToLower (s : str) : str := map ToLower s.

Definition ParseMonth (val : str) : option Z := month_from 0 months (strings_ToLower val).

Definition Month_Parse (val : str) : option Z :=
  match ParseNumericMonth val with Some n => Some n | None => ParseMonth val end.

(** ** dates.go *)

Definition Date_String (d : Z) : str := Month_String (Date_Month d) ++ Str " " ++ pad 2 (Date_Day d).

(** [day < 1 || day > daysInMonthLeap[month-1]], which may panic. *)
Definition bad_day (month day : Z) : res bool :=
  if day <? 1 then Ok true
  else let! dm := checked (zget daysInMonthLeap (u8 (month - 1))) in Ok (dm <? day).

Definition ParseNumericDate (val : str) : res (option Z) :=
  match strings_Split val slash with
  | [p0; p1] =>
      match parse_uint 8 p0 with
      | None => Ok None
      | Some month =>
          match parse_uint 8 p1 with
          | None => Ok None
          | Some day => let! bad := bad_day month day in Ok (if bad : bool then None else Some (newDate8 month day))
          end
      end
  | _ => Ok None
  end.

Definition ParseDate (val : str) : res (option Z) :=
  match strings_Split val dash with
  | [p0; p1] =>
      match ParseMonth p0 with
      | None => Ok None
      | Some month =>
          match parse_uint 8 p1 with
          | None => Ok None
          | Some day => let! bad := bad_day month day in Ok (if bad : bool then None else Some (newDate8 month day))
          end
      end
  | _ => Ok None
  end.

Definition Date_Parse (val : str) : res (option Z) :=
  if len val =? 0 then Ok None
  else if strings_Contains val slash then ParseNumericDate val
  else if strings_Contains val dash then ParseDate val
  else Ok (match Month_Parse val with None => None | Some month => Some (NewDate month 0) end).

(** [for _, part := range parts { ... d = append(d, date) }] *)
Fixpoint parse_dates (parts : list str) (d : list Z) : res (option (list Z)) :=
  match parts with
  | [] => Ok (Some d)
  | part :: parts =>
      let! date := Date_Parse (strings_TrimSpace part) in
      match date with None => Ok None | Some date => parse_dates parts (d ++ [date]) end
  end.

(** [None]: an error, and the list is kept. *)
Definition DateList_Parse (dl : list Z) (val : str) : res (option (list Z)) :=
  if len val =? 0 then Ok (Some dl) else parse_dates (strings_Split val comma) [].

(** The separators of the lists: after the first and before the last. *)
Fixpoint dates_from (show : Z -> str) (n i : Z) (dl : list Z) : str :=
  match dl with
  | [] => []
  | d :: dl => (if (0 <? i) && (i <? n - 1) then Str ", " else []) ++ show d ++ dates_from show n (i + 1) dl
  end.

Definition DateList_String (dl : list Z) : str :=
  dates_from (fun d => pad 2 (Date_Month d) ++ Str "-" ++ pad 2 (Date_Day d)) (len dl) 0 dl.

(** [strings.ReplaceAll(val, " ", "")]. *)
Definition no_blanks (val : str) : str := filter (fun r => r <> 32) val.

(** [seen] is a set that contains what was appended to [drs]. *)
Fixpoint parse_months (parts : list str) (drs : list Z) (seen : gset Z) : option (list Z) :=
  match parts with
  | [] => Some drs
  | p :: parts =>
      match Month_Parse p with
      | None => None
      | Some m => if bool_decide (m ∈ seen) then parse_months parts drs seen else parse_months parts (drs ++ [m]) ({[m]} ∪ seen)
      end
  end.

Definition MonthList_Parse (val : str) : option (list Z) :=
  if len val =? 0 then None
  else
    match parse_months (strings_Split (no_blanks val) comma) [] ∅ with
    | None => None
    | Some drs => Some (SliceStable Z.ltb drs)
    end.

Definition MonthList_String (ml : list Z) : str :=
  strings_Join (map Month_String ml) (Str ", ").

(** ** calendar.go *)

Definition parseYearAndMonth (y m : str) (numeric : bool) : option (Z * Z) :=
  match parse_uint 16 y with
  | None => None
  | Some year =>
      match (if numeric then ParseNumericMonth m else ParseMonth m) with
      | None => None
      | Some month => Some (year, month)
      end
  end.

Definition parseDay (y m : Z) (d : str) : res (option Z) :=
  match parse_uint 8 d with
  | None => Ok None
  | Some day =>
      if day <? 1 then Ok None
      else let! dm := DaysInMonth y m in Ok (if dm <? day then None else Some day)
  end.

Definition parse_calendar (sep : rune) (numeric : bool) (val : str) : res (option Z) :=
  match strings_Split val sep with
  | [p0; p1; p2] =>
      match parseYearAndMonth p2 p0 numeric with
      | None => Ok None
      | Some (year, month) =>
          let! day := parseDay year month p1 in
          Ok (match day with None => None | Some day => Some (newCalendarDate8 year month day) end)
      end
  | _ => Ok None
  end.

Definition ParseNumericCalendarDate : str -> res (option Z) := parse_calendar slash true.
Definition ParseCalendarDate : str -> res (option Z) := parse_calendar dash false.

Definition CalendarDate_Parse (val : str) : res (option Z) :=
  if len val =? 0 then Ok None
  else
    match strings_Split val slash with
    | [p0; p1] => Ok (match parseYearAndMonth p1 p0 true with None => None | Some (year, month) => Some (newCalendarDate8 year month 0) end)
    | [_; _; _] => ParseNumericCalendarDate val
    | _ =>
        match strings_Split val dash with
        | [p0; p1] => Ok (match parseYearAndMonth p1 p0 false with None => None | Some (year, month) => Some (newCalendarDate8 year month 0) end)
        | [_; _; _] => ParseCalendarDate val
        | _ => Ok None
        end
    end.

Definition in_year (year : Z) (d : res (option Z)) : res (option Z) :=
  let! d := d in Ok (match d with None => None | Some d => Some (NewCalendarDate year (Date_Month d) (Date_Day d)) end).

Definition ParseAnyDate (year : Z) (val : str) : res (option Z) :=
  let slashes := Count val slash in
  if slashes =? 1 then in_year year (ParseNumericDate val)
  else if slashes =? 2 then ParseNumericCalendarDate val
  else if negb (slashes =? 0) then Ok None
  else
    let dashes := Count val dash in
    if dashes =? 1 then in_year year (ParseDate val)
    else if dashes =? 2 then ParseCalendarDate val
    else if negb (dashes =? 0) then Ok None
    else Ok (match Month_Parse val with None => None | Some m => Some (NewCalendarDate year m 0) end).

Definition CalendarDate_String (cd : Z) : str :=
  let day := Day cd in
  if day =? 0 then pad 2 (Month cd) ++ Str "/" ++ pad 4 (Year cd)
  else pad 2 (Month cd) ++ Str "/" ++ pad 2 day ++ Str "/" ++ pad 4 (Year cd).

Definition CalendarDateList_String (cdl : list Z) : str :=
  dates_from (fun d => pad 4 (Year d) ++ Str "-" ++ pad 2 (Month d) ++ Str "-" ++ pad 2 (Day d)) (len cdl) 0 cdl.

(** ** date_range.go and calendar_range.go *)

Definition DateRange_String (dr : Z) : str := Date_String (dr_fromDate dr) ++ Str " - " ++ Date_String (dr_toDate dr).

Definition DateRange_Parse (val : str) : res (option Z) :=
  match strings_Split val colon with
  | [p0; p1] =>
      let! from := Date_Parse p0 in
      match from with
      | None => Ok None
      | Some from =>
          let! to := Date_Parse p1 in
          Ok (match to with None => None | Some to => Some (newDateRange from to) end)
      end
  | _ => Ok None
  end.

Definition CalendarDateRange_String (cdr : Z) : str :=
  CalendarDate_String (cdr_fromDate cdr) ++ Str " - " ++ CalendarDate_String (cdr_toDate cdr).

Definition CalendarDateRange_Parse (val : str) : res (option Z) :=
  match strings_Split val colon with
  | [p0; p1] =>
      let! from := CalendarDate_Parse p0 in
      match from with
      | None => Ok None
      | Some from =>
          let! to := CalendarDate_Parse p1 in
          match to with
          | None => Ok None
          | Some to =>
              let! from := Normalize from true in
              let! to := Normalize to false in
              Ok (if to <? from then None else Some (newCalendarDateRange from to))
          end
      end
  | _ => Ok None
  end.

(** The lists of ranges: without duplicates, sorted. *)
Fixpoint parse_ranges (parse : str -> res (option Z)) (ranges : list str) (drs : list Z) (seen : gset Z) : res (option (list Z)) :=
  match ranges with
  | [] => Ok (Some drs)
  | rg :: ranges =>
      let! dr := parse rg in
      match dr with
      | None => Ok None
      | Some dr => if bool_decide (dr ∈ seen) then parse_ranges parse ranges drs seen
                   else parse_ranges parse ranges (drs ++ [dr]) ({[dr]} ∪ seen)
      end
  end.

Definition list_Parse (parse : str -> res (option Z)) (old : list Z) (ranges : list str) : res (option (list Z)) :=
  if len ranges =? 0 then Ok (Some old)
  else
    let! drs := parse_ranges parse ranges [] ∅ in
    Ok (match drs with None => None | Some drs => Some (SliceStable Z.ltb drs) end).

Definition DateRangeList_Parse : list Z -> list str -> res (option (list Z)) := list_Parse DateRange_Parse.
Definition CalendarDateRangeList_Parse : list Z -> list str -> res (option (list Z)) := list_Parse CalendarDateRange_Parse.

(** ** timeofday.go *)

Definition TimeOfDay_String (t : Z) : str := pad 2 (Hour t) ++ Str ":" ++ pad 2 (Minute t) ++ Str ":" ++ pad 2 (Second t).

Definition isDigits (s : str) : bool := forallb IsNumber s.

Definition parseHour (h : str) (ampmState : Z) : option Z :=
  match Atoi h with
  | None => None
  | Some hour =>
      if (hour <? 0) || (23 <? hour) then None
      else if negb (ampmState =? 0) && (12 <? hour) then None
      else Some (if ampmState =? 2 then hour + 12 else hour)
  end.

Definition parseHourMinuteSec (h m s : str) (ampmState : Z) : option Z :=
  if negb (isDigits s) || negb (isDigits h) || negb (isDigits m) then None
  else
    match parseHour h ampmState with
    | None => None
    | Some hour =>
        match Atoi m with
        | None => None
        | Some minute =>
            if (minute <? 0) || (59 <? minute) then None
            else
              match Atoi s with
              | None => None
              | Some sec => if (sec <? 0) || (59 <? sec) then None else Some (NewTimeOfDay hour minute sec)
              end
        end
    end.

Definition TimeOfDay_Parse (val : str) : res (option Z) :=
  if len val =? 0 then Ok None
  else
    let tl := strings_TrimSpace (strings_ToLower val) in
    let! am := (if strings_HasSuffix tl (Str "am") then let! v := zslice tl 0 (len tl - 2) in Ok (strings_TrimSpace v, 1) else Ok (val, 0)) in
    let! (val, ampmState) := (if strings_HasSuffix tl (Str "pm") then let! v := zslice tl 0 (len tl - 2) in Ok (strings_TrimSpace v, 2) else Ok am) in
    Ok (match strings_Split val colon with
        | [p0] => parseHourMinuteSec p0 (Str "0") (Str "0") ampmState
        | [p0; p1] => parseHourMinuteSec p0 p1 (Str "0") ampmState
        | [p0; p1; p2] => parseHourMinuteSec p0 p1 p2 ampmState
        | _ => None
        end).

(** The times before one that is invalid have been appended, unsorted. *)
Fixpoint parse_times (tl : list Z) (parts : list str) : res (list Z * bool) :=
  match parts with
  | [] => Ok (SliceStable Z.ltb tl, true)
  | p :: parts =>
      let! tod := TimeOfDay_Parse p in
      match tod with None => Ok (tl, false) | Some tod => parse_times (tl ++ [tod]) parts end
  end.

Definition TimeOfDayList_Parse (tl : list Z) (val : str) : res (list Z * bool) := parse_times tl (strings_Split val comma).
End text.

Definition YearDay_String (yd : Z) : str := pad 4 (YearDay_Year yd) ++ Str "(" ++ pad 3 (YearDay_Day yd) ++ Str ")".

(** Durations are nanoseconds; the instants of a day of [time.Date(0, 1, 1, ...)]
    are counted from its beginning. *)
Definition second_ns : Z := 10 ^ 9.
Definition day_ns : Z := 86400 * second_ns.

Definition Duration (t : Z) : Z := Hour t * (3600 * second_ns) + Minute t * (60 * second_ns) + Second t * second_ns.

Definition TimeOfDay_Add (t delta : Z) : Z :=
  if delta =? 0 then t
  else
    let dt := Duration t in
    let nt := dt + delta in
    if negb (dt / day_ns =? nt / day_ns) then
      if 0 <? delta then NewTimeOfDay 23 59 59 else NewTimeOfDay 0 0 0
    else
      let s := (nt mod day_ns) / second_ns in
      NewTimeOfDay (s / 3600) (s / 60 mod 60) (s mod 60).

(** ** Texts of numbers *)

Lemma pad_free w n c : 0 <= n -> c < 48 \/ 57 < c -> c ∉ pad w n.
Proof. intros Hn Hc. apply digits_not_in; [by apply pad_digits|done]. Qed.

Lemma split_joined c l : l <> [] -> Forall (fun p => c ∉ p) l -> strings_Split (strings_Join l [c]) c = l.
Proof. apply strings_Split_Join. Qed.

Lemma split_pieces val c l : strings_Split val c = l -> val = strings_Join l [c].
Proof. intros <-. by rewrite strings_Join_Split. Qed.

Lemma parse_uint_pad' bits w n : 0 <= n < 2 ^ bits -> 0 <= bits <= 64 -> parse_uint bits (pad w n) = Some n.
Proof. intros Hn Hb. apply parse_uint_pad; [|lia]. split; [lia|]. apply Z.lt_le_trans with (2 ^ bits); [lia|]. apply Z.pow_le_mono_r; lia. Qed.

(** ** Months *)

Lemma ParseNumericMonth_pad w m : 1 <= m <= 12 -> ParseNumericMonth (pad w m) = Some m.
Proof.
  intros Hm. unfold ParseNumericMonth. rewrite parse_uint_pad' by lia.
  by rewrite (proj2 (Z.ltb_ge m 1)), (proj2 (Z.ltb_ge 12 m)) by lia.
Qed.



(** A month: its number is between 1 and 12. *)
Lemma month_cases (P : Z -> Prop) : Forall P [1; 2; 3; 4; 5; 6; 7; 8; 9; 10; 11; 12] -> forall m, 1 <= m <= 12 -> P m.
Proof.
  intros H m Hm. rewrite Forall_forall in H. apply H. rewrite list_elem_of_In. cbn. lia.
Qed.

(** One goal for each month. *)
Ltac twelve := apply month_cases; repeat (apply Forall_cons; split; [cbv beta|]); try (by apply Forall_nil).

Section names.
Context (ToLower : rune -> rune) (Hlower : forall r, 0 <= r < 128 -> ToLower r = if (65 <=? r) && (r <=? 90) then r + 32 else r).

Lemma lower_ascii s : is_ascii s = true -> strings_ToLower ToLower s = map (fun r => if (65 <=? r) && (r <=? 90) then r + 32 else r) s.
Proof.
  induction s as [|r s IH]; [done|]. unfold is_ascii, strings_ToLower in *. cbn. intros [Hr Hs]%andb_true_iff.
  rewrite IH by done. f_equal. apply Hlower. bool_to_prop. lia.
Qed.


Lemma ParseMonth_String m : 1 <= m <= 12 -> ParseMonth ToLower (Month_String m) = Some m.
Proof.
  revert m. twelve. all: unfold ParseMonth; rewrite lower_ascii by (vm_compute; reflexivity);
    vm_compute; reflexivity.
Qed.

Lemma Month_Parse_String m : 1 <= m <= 12 -> Month_Parse ToLower (Month_String m) = Some m.
Proof.
  intros Hm. unfold Month_Parse. assert (ParseNumericMonth (Month_String m) = None) as ->; [|by apply ParseMonth_String].
  revert m Hm. twelve. all: vm_compute; reflexivity.
Qed.


Lemma Month_String_plain m : 1 <= m <= 12 -> (comma ∉ Month_String m) /\ no_blanks (Month_String m) = Month_String m.
Proof.
  revert m. twelve. all: split; try (vm_compute; reflexivity);
    apply (bool_decide_eq_true_1 _); vm_compute; reflexivity.
Qed.
Lemma Month_String_nonempty m : 1 <= m <= 12 -> Month_String m <> [].
Proof. revert m. twelve. all: vm_compute; discriminate. Qed.
End names.

(** ** Calendar dates *)

(** A calendar date, or a month of a year if its day is 0. *)
Definition valid_cd (cd : Z) : Prop :=
  exists y m d, 0 <= y < 65536 /\ 1 <= m <= 12 /\ 0 <= d <= dim (IsLeap y) m /\ cd = 65536 * y + 256 * m + d.

Lemma valid_cd_fields y m d : 0 <= y < 65536 -> 1 <= m <= 12 -> 0 <= d <= dim (IsLeap y) m ->
  newCalendarDate8 y m d = 65536 * y + 256 * m + d /\ 0 <= d < 256.
Proof. intros Hy Hm Hd. pose proof (dim_bounds (IsLeap y) m Hm). split; [apply newCalendarDate8_val|]; lia. Qed.

Section calendar.
Context (ToLower : rune -> rune).

Lemma parseYearAndMonth_pad y m : 0 <= y < 65536 -> 1 <= m <= 12 -> parseYearAndMonth ToLower (pad 4 y) (pad 2 m) true = Some (y, m).
Proof. intros Hy Hm. unfold parseYearAndMonth. rewrite parse_uint_pad' by lia. by rewrite ParseNumericMonth_pad. Qed.


Lemma parseDay_spec y m s : 1 <= m <= 12 ->
  parseDay y m s = Ok (match parse_uint 8 s with Some d => if (1 <=? d) && (d <=? dim (IsLeap y) m) then Some d else None | None => None end).
Proof.
  intros Hm. unfold parseDay. destruct (parse_uint 8 s) as [d|]; [|done]. destruct (Z.ltb_spec d 1).
  - by rewrite (proj2 (Z.leb_gt 1 d)) by lia.
  - rewrite DaysInMonth_spec by done. cbn [rbind]. rewrite (proj2 (Z.leb_le 1 d)) by lia. cbn [andb].
    destruct (Z.ltb_spec (dim (IsLeap y) m) d); [by rewrite (proj2 (Z.leb_gt _ _))|by rewrite (proj2 (Z.leb_le _ _))].
Qed.




Lemma CalendarDate_text cd y m d : 0 <= y < 65536 -> 1 <= m <= 12 -> 0 <= d <= dim (IsLeap y) m -> cd = 65536 * y + 256 * m + d ->
  CalendarDate_String cd = strings_Join (if d =? 0 then [pad 2 m; pad 4 y] else [pad 2 m; pad 2 d; pad 4 y]) [slash].
Proof.
  intros Hy Hm Hd ->. pose proof (valid_cd_fields y m d Hy Hm Hd) as [_ Hd']. destruct (cd_fields y m d) as (E1 & _ & E2 & E3 & _); [lia..|].
  unfold CalendarDate_String. rewrite E1, E2, E3. by destruct (d =? 0).
Qed.

Lemma CalendarDate_roundtrip cd : valid_cd cd -> CalendarDate_Parse ToLower (CalendarDate_String cd) = Ok (Some cd).
Proof.
  intros (y & m & d & Hy & Hm & Hd & E). rewrite (CalendarDate_text cd y m d) by done.
  destruct (valid_cd_fields y m d Hy Hm Hd) as [Ecd Hd']. rewrite <- E in Ecd.
  assert ((slash ∉ pad 2 m) /\ (slash ∉ pad 2 d) /\ (slash ∉ pad 4 y)) as (F1 & F2 & F3) by (split_and!; apply pad_free; unfold slash; lia).
  unfold CalendarDate_Parse. rewrite len_zero, bool_decide_false.
  2:{ destruct (pad_digits 2 m) as [_ H]; [lia|]. destruct (d =? 0); cbn [strings_Join]; by intros [? _]%app_eq_nil. }
  destruct (Z.eqb_spec d 0) as [->|Hn].
  - rewrite split_joined; [|done|by repeat constructor]. rewrite parseYearAndMonth_pad by done. by rewrite Ecd.
  - rewrite split_joined; [|done|by repeat constructor]. unfold ParseNumericCalendarDate, parse_calendar.
    rewrite split_joined; [|done|by repeat constructor]. rewrite parseYearAndMonth_pad by done. rewrite parseDay_spec by done.
    rewrite parse_uint_pad' by lia. rewrite (proj2 (Z.leb_le 1 d)), (proj2 (Z.leb_le d _)) by lia. cbn. by rewrite Ecd.
Qed.
End calendar.

(** ** Dates *)








Section date.
Context (ToLower : rune -> rune).


End date.

(** ** Lists of months *)

Section month_list.
Context (ToLower : rune -> rune) (Hlower : forall r, 0 <= r < 128 -> ToLower r = if (65 <=? r) && (r <=? 90) then r + 32 else r).

Lemma parse_months_new ml drs seen : Forall (fun m => 1 <= m <= 12) ml -> NoDup ml -> (forall m, m ∈ ml -> m ∉ seen) ->
  parse_months ToLower (map Month_String ml) drs seen = Some (drs ++ ml).
Proof.
  intros Hml. revert drs seen. induction Hml as [|m ml Hm _ IH]; intros drs seen Hnd Hs; cbn [map parse_months]; [by rewrite app_nil_r|].
  inversion Hnd as [|? ? Hnin Hnd']; subst. rewrite Month_Parse_String by done. rewrite bool_decide_false by (apply Hs; left).
  rewrite IH; [by rewrite <- app_assoc|done|]. intros m' Hm'. rewrite not_elem_of_union, not_elem_of_singleton. split; [by intros ->|]. apply Hs. by right.
Qed.

Lemma sorted_stable (l : list Z) : StronglySorted Z.lt l -> SliceStable Z.ltb l = l /\ NoDup l.
Proof.
  induction 1 as [|x l _ [IH Hnd] Hx]; [by split; [|constructor]|]. split.
  - cbn. fold (SliceStable Z.ltb l). rewrite IH. destruct l as [|y l]; [done|]. inversion Hx; subst. cbn.
    by rewrite (proj2 (Z.ltb_ge y x)) by lia.
  - constructor; [|done]. rewrite Forall_forall in Hx. intros H%Hx. lia.
Qed.

Lemma no_blanks_join ml : Forall (fun m => 1 <= m <= 12) ml -> no_blanks (MonthList_String ml) = strings_Join (map Month_String ml) [comma].
Proof.
  unfold MonthList_String. induction 1 as [|m ml Hm _ IH]; [done|]. destruct ml as [|m' ml]; [by apply Month_String_plain|].
  cbn [map] in *. rewrite !strings_Join_cons by done. unfold no_blanks in *. rewrite !filter_app, IH.
  destruct (Month_String_plain m Hm) as [_ E]. unfold no_blanks in E. by rewrite E.
Qed.

Lemma MonthList_roundtrip ml : StronglySorted Z.lt ml -> Forall (fun m => 1 <= m <= 12) ml -> ml <> [] ->
  MonthList_Parse ToLower (MonthList_String ml) = Some ml.
Proof.
  intros Hs Hml Hne. destruct (sorted_stable ml Hs) as [Est Hnd]. unfold MonthList_Parse. rewrite len_zero, bool_decide_false.
  - rewrite no_blanks_join by done. rewrite split_joined.
    + rewrite parse_months_new by (done || intros; apply not_elem_of_empty). cbn [app]. by rewrite Est.
    + by destruct ml.
    + clear -Hml. induction Hml as [|m ml Hm _ IH]; [constructor|]. constructor; [by apply Month_String_plain|done].
  - intros E. destruct Hml as [|m ml Hm _]; [done|]. apply (Month_String_nonempty m Hm). unfold MonthList_String in E.
    destruct ml as [|m' ml]; [done|]. cbn [map] in E. rewrite strings_Join_cons in E by done. by apply app_eq_nil in E as [E _].
Qed.
End month_list.

(** ** Times of day *)

Lemma tod_val h m s : 0 <= h < 65536 -> 0 <= m < 256 -> 0 <= s < 256 -> NewTimeOfDay h m s = 65536 * h + 256 * m + s.
Proof.
  intros Hh Hm Hs. unfold NewTimeOfDay, u32. rewrite <- Z.lor_assoc, (lor_shiftl m s 8), (lor_shiftl h (m * 2 ^ 8 + s) 16) by lia.
  rewrite Z.mod_small by lia. lia.
Qed.

Lemma tod_fields h m s : 0 <= h < 65536 -> 0 <= m < 256 -> 0 <= s < 256 ->
  Hour (NewTimeOfDay h m s) = h /\ Minute (NewTimeOfDay h m s) = m /\ Second (NewTimeOfDay h m s) = s.
Proof.
  intros Hh Hm Hs. rewrite tod_val by done. unfold Hour, Minute, Second. autorewrite with go_bits.
  set (t := 65536 * h + 256 * m + s). assert (t / 65536 = h) as -> by (subst t; div_lia).
  assert (t / 256 = 256 * h + m) as -> by (subst t; div_lia). split_and!; [done|div_lia|subst t; div_lia].
Qed.

(** A time of day, up to the hour [hmax]. *)
Definition valid_tod (hmax t : Z) : Prop := exists h m s, 0 <= h <= hmax /\ 0 <= m < 60 /\ 0 <= s < 60 /\ t = NewTimeOfDay h m s.

Section tod.
Context (ToLower : rune -> rune) (IsNumber : rune -> bool).










End tod.

Section tod_text.
Context (ToLower : rune -> rune) (IsNumber : rune -> bool)
  (Hlower : forall r, 0 <= r < 128 -> ToLower r = if (65 <=? r) && (r <=? 90) then r + 32 else r)
  (Hnumber : forall r, digit_rune r -> IsNumber r = true).

(** The runes of a printed time. *)
Definition tod_rune (r : rune) : Prop := 48 <= r <= 58.

Lemma tod_runes h m s : 0 <= h -> 0 <= m -> 0 <= s -> Forall tod_rune (strings_Join [pad 2 h; pad 2 m; pad 2 s] [colon]).
Proof.
  assert (forall n, 0 <= n -> Forall tod_rune (pad 2 n)) as Hp.
  { intros n Hn. eapply Forall_impl; [by apply pad_digits|]. unfold digit_rune, tod_rune. intros r H. cbn in H. lia. }
  assert (tod_rune colon) by (unfold tod_rune, colon; lia).
  intros Hh Hm Hs. cbn [strings_Join]. rewrite !Forall_app, Forall_singleton. split_and!; auto.
Qed.

Lemma lower_id s : Forall tod_rune s -> strings_ToLower ToLower s = s.
Proof.
  induction 1 as [|r s Hr _ IH]; [done|]. unfold strings_ToLower, tod_rune in *. cbn. rewrite IH, Hlower by lia.
  destruct (Z.leb_spec 65 r); [lia|done].
Qed.

Lemma trim_left_id s : Forall tod_rune s -> trim_left s = s.
Proof.
  destruct 1 as [|r s Hr _]; [done|]. cbn. unfold tod_rune in Hr. unfold IsSpace.
  repeat (match goal with |- context [?a <=? ?b] => destruct (Z.leb_spec a b); try lia
                        | |- context [?a =? ?b] => destruct (Z.eqb_spec a b); try lia end; cbn [andb orb]); done.
Qed.

Lemma TrimSpace_id s : Forall tod_rune s -> strings_TrimSpace s = s.
Proof. intros H. unfold strings_TrimSpace. rewrite (trim_left_id s) by done. rewrite trim_left_id by (by apply Forall_rev). apply rev_involutive. Qed.

Lemma no_suffix s suffix : Forall tod_rune s -> suffix <> [] -> Forall (fun r => 58 < r) suffix -> strings_HasSuffix s suffix = false.
Proof.
  intros Hs Hne Hsuf. unfold strings_HasSuffix. apply Forall_rev in Hs, Hsuf. destruct (rev suffix) as [|x l] eqn:E.
  { destruct suffix; [done|]. apply (f_equal length) in E. rewrite length_rev in E. done. }
  destruct (rev s) as [|y k]; [done|]. inversion Hs; inversion Hsuf; subst. unfold tod_rune in *. cbn. rewrite (proj2 (Z.eqb_neq x y)) by lia. done.
Qed.

Lemma isDigits_pad w n : 0 <= n -> isDigits IsNumber (pad w n) = true.
Proof.
  intros Hn. destruct (pad_digits w n Hn) as [H _]. unfold isDigits. induction H as [|r s Hr _ IH]; [done|]. cbn. by rewrite IH, Hnumber.
Qed.

Lemma TimeOfDay_roundtrip t : valid_tod 23 t -> TimeOfDay_Parse ToLower IsNumber (TimeOfDay_String t) = Ok (Some t).
Proof.
  intros (h & m & s & Hh & Hm & Hs & ->). destruct (tod_fields h m s) as (E1 & E2 & E3); [lia..|].
  assert (TimeOfDay_String (NewTimeOfDay h m s) = strings_Join [pad 2 h; pad 2 m; pad 2 s] [colon]) as ->.
  { unfold TimeOfDay_String. by rewrite E1, E2, E3. }
  pose proof (tod_runes h m s ltac:(lia) ltac:(lia) ltac:(lia)) as Hr. unfold TimeOfDay_Parse. rewrite len_zero, bool_decide_false.
  2:{ cbn [strings_Join]. intros [E _]%app_eq_nil. by destruct (pad_digits 2 h) as [_ ?]; [lia|]. }
  rewrite lower_id, TrimSpace_id by done. rewrite !no_suffix by (done || (repeat constructor; cbn; lia)). cbn [rbind].
  rewrite split_joined; [|done|repeat constructor; apply pad_free; unfold colon; lia].
  unfold parseHourMinuteSec. rewrite !isDigits_pad by lia. cbn [negb orb]. unfold parseHour. rewrite !Atoi_pad by lia.
  rewrite (proj2 (Z.ltb_ge h 0)), (proj2 (Z.ltb_ge 23 h)), (proj2 (Z.ltb_ge m 0)), (proj2 (Z.ltb_ge 59 m)), (proj2 (Z.ltb_ge s 0)), (proj2 (Z.ltb_ge 59 s)) by lia.
  done.
Qed.
End tod_text.

(** ** Adding durations *)

Lemma Duration_val h m s : 0 <= h < 65536 -> 0 <= m < 256 -> 0 <= s < 256 -> Duration (NewTimeOfDay h m s) = (3600 * h + 60 * m + s) * second_ns.
Proof. intros Hh Hm Hs. unfold Duration. destruct (tod_fields h m s Hh Hm Hs) as (-> & -> & ->). lia. Qed.

Lemma seconds_split n : 0 <= n < 86400 -> exists h m s, 0 <= h <= 23 /\ 0 <= m < 60 /\ 0 <= s < 60 /\ n = 3600 * h + 60 * m + s /\
  n / 3600 = h /\ n / 60 mod 60 = m /\ n mod 60 = s.
Proof. intros Hn. exists (n / 3600), (n / 60 mod 60), (n mod 60). split_and!; div_lia. Qed.

(** C36: Adding a duration to a time of day gives a time of day: the sum, cut to
    the second, if it falls on the day, otherwise the first or the last second
    of it. *)
Theorem TimeOfDay_Add_clamps (t delta : Z) : valid_tod 23 t ->
  valid_tod 23 (TimeOfDay_Add t delta) /\
  Duration (TimeOfDay_Add t delta) =
    let sum := Duration t + delta in
    if sum <? 0 then 0 else if day_ns <=? sum then day_ns - second_ns else sum / second_ns * second_ns.
Proof.
  intros (h & m & s & Hh & Hm & Hs & ->). cbv zeta. unfold TimeOfDay_Add. rewrite Duration_val by lia. set (n := 3600 * h + 60 * m + s).
  assert (0 <= n < 86400) as Hn by (subst n; lia). assert (second_ns = 1000000000) as Es by reflexivity. assert (day_ns = 86400 * second_ns) as Ed by reflexivity.
  destruct (Z.eqb_spec delta 0) as [->|Hd].
  { split; [by exists h, m, s|]. rewrite Duration_val by lia. fold n. rewrite Z.add_0_r, Z.div_mul by lia.
    rewrite (proj2 (Z.ltb_ge _ 0)), (proj2 (Z.leb_gt day_ns _)) by lia. done. }
  assert (n * second_ns / day_ns = 0) as -> by (apply Z.div_small; lia).
  destruct (Z.eqb_spec 0 ((n * second_ns + delta) / day_ns)) as [E|E]; cbn [negb].
  - assert (0 <= n * second_ns + delta < day_ns) as Hsum by div_lia. rewrite (Z.mod_small _ day_ns) by lia.
    destruct (seconds_split ((n * second_ns + delta) / second_ns)) as (h' & m' & s' & Hh' & Hm' & Hs' & En & -> & -> & ->); [div_lia|].
    split; [by exists h', m', s'|]. rewrite Duration_val, <- En by lia.
    by rewrite (proj2 (Z.ltb_ge _ 0)), (proj2 (Z.leb_gt day_ns _)) by lia.
  - destruct (Z.ltb_spec 0 delta).
    + split; [exists 23, 59, 59; split_and!; lia || done|]. rewrite Duration_val by lia.
      assert (day_ns <= n * second_ns + delta) by (apply Z.nlt_ge; intros H1; apply E; rewrite Z.div_small by lia; done).
      rewrite (proj2 (Z.ltb_ge _ 0)), (proj2 (Z.leb_le day_ns _)) by lia. lia.
    + split; [exists 0, 0, 0; split_and!; lia || done|]. rewrite Duration_val by lia.
      assert (n * second_ns + delta < 0) by (apply Z.nle_gt; intros H1; apply E; rewrite Z.div_small by lia; done).
      by rewrite (proj2 (Z.ltb_lt _ 0)) by lia.
Qed.

(** ** Properties *)

(** What is printed is read back: every calendar date, also a month of a
    year, every list of months in order without duplicates, and every time of
    day. *)
Theorem Printed_read_back (ToLower : rune -> rune) (IsNumber : rune -> bool)
  (Hlower : forall r, 0 <= r < 128 -> ToLower r = if (65 <=? r) && (r <=? 90) then r + 32 else r)
  (Hnumber : forall r, digit_rune r -> IsNumber r = true) :
  (forall cd, valid_cd cd -> CalendarDate_Parse ToLower (CalendarDate_String cd) = Ok (Some cd)) /\
  (forall ml, StronglySorted Z.lt ml -> Forall (fun m => 1 <= m <= 12) ml -> ml <> [] -> MonthList_Parse ToLower (MonthList_String ml) = Some ml) /\
  (forall t, valid_tod 23 t -> TimeOfDay_Parse ToLower IsNumber (TimeOfDay_String t) = Ok (Some t)).
Proof.
  split_and!.
  - intros cd. apply CalendarDate_roundtrip.
  - intros ml. by apply MonthList_roundtrip.
  - intros t. by apply TimeOfDay_roundtrip.
Qed.



(** ** Examples *)

Definition lower_rune (r : rune) : rune := if (65 <=? r) && (r <=? 90) then r + 32 else r.
Definition is_digit (r : rune) : bool := (48 <=? r) && (r <=? 57).

(** A quarter past noon and midnight. *)
Lemma noon_pm : TimeOfDay_Parse lower_rune is_digit (Str "12:15 PM") = Ok (Some (NewTimeOfDay 24 15 0)) /\
  TimeOfDay_Parse lower_rune is_digit (Str "12:15am") = Ok (Some (NewTimeOfDay 12 15 0)).
Proof. by vm_compute. Qed.

(** Months that do not exist; with the day 0 they are an error. *)
Lemma numeric_month_panics : Date_Parse lower_rune (Str "13/01") = Panic /\ Date_Parse lower_rune (Str "00/31") = Panic /\
  Date_Parse lower_rune (Str "13/0") = Ok None.
Proof. by vm_compute. Qed.

(** An empty month is January. *)
Lemma empty_month : ParseMonth lower_rune [] = Some 1 /\ Date_Parse lower_rune (Str "-02") = Ok (Some (NewDate 1 2)).
Proof. by vm_compute. Qed.

(** Dates with a numeric month and a dash are not accepted. *)
Lemma dashed_numeric_date : DateRange_Parse lower_rune (Str "01/02:03-04") = Ok None.
Proof. by vm_compute. Qed.

(** The last two dates of a list are not separated. *)
Lemma DateList_String_last : DateList_String [NewDate 1 2; NewDate 2 3; NewDate 3 4] = Str "01-02, 02-0303-04".
Proof. by vm_compute. Qed.

(** The times before an error have been appended, as they came. *)
Lemma TimeOfDayList_partial : TimeOfDayList_Parse lower_rune is_digit [] (Str "09:00,08:00,x") = Ok ([NewTimeOfDay 9 0 0; NewTimeOfDay 8 0 0], false).
Proof. by vm_compute. Qed.

Lemma lower_rune_ascii r : 0 <= r < 128 -> lower_rune r = if (65 <=? r) && (r <=? 90) then r + 32 else r.
Proof. done. Qed.

Lemma is_digit_rune r : digit_rune r -> is_digit r = true.
Proof. unfold digit_rune, is_digit. intros H. apply andb_true_iff. lia. Qed.

Lemma TimeOfDay_Add_clamps_witness : valid_tod 23 (TimeOfDay_Add (NewTimeOfDay 23 59 30) (-1500000000)) /\
  Duration (TimeOfDay_Add (NewTimeOfDay 23 59 30) (-1500000000)) = 86368 * second_ns.
Proof. apply (TimeOfDay_Add_clamps (NewTimeOfDay 23 59 30) (-1500000000)). exists 23, 59, 30. split_and!; lia || done. Defined.

Lemma Printed_read_back_witness :
  CalendarDate_Parse lower_rune (CalendarDate_String (NewCalendarDate 2024 2 29)) = Ok (Some (NewCalendarDate 2024 2 29)).
Proof.
  refine (proj1 (Printed_read_back lower_rune is_digit lower_rune_ascii is_digit_rune) _ _).
  exists 2024, 2, 29. split_and!; try lia; vm_compute; (reflexivity || discriminate).
Defined.
