(* ===== verification/Iso8601.v ===== *)
(** * ISO 8601 periods (datetime/iso8601.go)

    A duration is a number of nanoseconds of 64 bits.  The numbers of a text are
    floating-point numbers, whose type, parser and products are parameters:
    [scale u n] is [time.Duration(u * n)] and [scale12 u n] is
    [time.Duration(u * n / 12)] for a constant [u] that is exact in float64.  Of
    them only what is exact and below [2^63] is assumed. *)

From Stdlib Require Ascii String.
From stdpp Require Import base list option numbers gmap.
From Stdlib Require Import ZArith Lia.
From stdpp Require Import list.
From S2P Require Import Prelude Strconv Text.
Import Stdlib.Strings.String.StringSyntax.

Open Scope Z_scope.
Open Scope go_scope.

Definition Second : Z := 10 ^ 9.
Definition Minute : Z := 60 * Second.
Definition Hour : Z := 60 * Minute.

Section period.
Context {F : Type} (ParseFloat : str -> option F) (scale scale12 : Z -> F -> Z).

(** [for i := range dur { ... }] from index [i], with [dur[:i]] in [num]. *)
Fixpoint consume_from (i : Z) (num dur : str) : option (F * rune * Z) :=
  match dur with
  | [] => None
  | c :: dur =>
      if (48 <=? c) && (c <=? 57) || (c =? 46) then consume_from (i + 1) (num ++ [c]) dur
      else if bool_decide (c ∈ Str "YMWDHS") then
        match ParseFloat num with None => None | Some n => Some (n, c, i + 1) end
      else None
  end.

Definition consumeN (dur : str) : option (F * rune * Z) := consume_from 0 [] dur.

(** The designators: Y is 89, M 77, W 87, D 68, H 72 and S 83. *)
Definition state0 (designator : rune) (n : F) : option Z :=
  if designator =? 89 then Some (scale (Hour * 24 * 365) n)
  else if designator =? 77 then Some (scale12 (Hour * 24 * 365) n)
  else if designator =? 87 then Some (scale (Hour * 24 * 7) n)
  else if designator =? 68 then Some (scale (Hour * 24) n)
  else None.

Definition state1 (designator : rune) (n : F) : option Z :=
  if designator =? 72 then Some (scale Hour n)
  else if designator =? 77 then Some (scale Minute n)
  else if designator =? 83 then Some (scale Second n)
  else None.

(** [for len(dur) > 0 { ... }]; T is 84. *)
Fixpoint parse_loop (fuel : nat) (time : bool) (dur : str) (result : Z) : res (option Z) :=
  match fuel with
  | O => NoFuel
  | S fuel =>
      match dur with
      | [] => Ok (Some result)
      | c :: rest =>
          if c =? 84 then parse_loop fuel true rest result
          else
            match consumeN dur with
            | None => Ok None
            | Some (n, designator, idx) =>
                let! dur := zslice dur idx (len dur) in
                match (if time : bool then state1 designator n else state0 designator n) with
                | None => Ok None
                | Some d => parse_loop fuel time dur (int64 (result + d))
                end
            end
      end
  end.

(** P is 80. *)
Definition ParseISO8601Period (dur : str) : res (option Z) :=
  let hasP := bool_decide (hd_error dur = Some 80) in
  let hasNP := prefixed (Str "-P") dur in
  if negb hasP && negb hasNP then Ok None
  else
    let! dur := zslice dur 1 (len dur) in
    let! dur := (if hasNP then zslice dur 1 (len dur) else Ok dur) in
    let! result := parse_loop (S (length dur)) false dur 0 in
    Ok (match result with None => None | Some r => Some (if hasNP then int64 (- r) else r) end).
End period.

(** [if n := dur / unit; n > 0 { ...; dur -= n * unit }]: what is written, and
    what is left. *)
Definition take_unit (dur unit : Z) (designator : rune) : str * Z :=
  let n := Z.quot dur unit in
  if 0 <? n then (Itoa n ++ [designator], dur - n * unit) else ([], dur).

Definition AsISO8601Period (dur : Z) : str :=
  let '(sign, dur) := if dur <? 0 then (Str "-", int64 (- dur)) else ([], dur) in
  let '(years, dur) := take_unit dur (Hour * 24 * 365) 89 in
  let out := sign ++ Str "P" ++ years in
  if dur =? 0 then out
  else
    let '(months, dur) := take_unit dur (Hour * 24 * 365 / 12) 77 in
    let out := out ++ months in
    if dur =? 0 then out
    else
      let '(weeks, dur) := take_unit dur (Hour * 24 * 7) 87 in
      let out := out ++ weeks in
      if dur =? 0 then out
      else
        let '(days, dur) := take_unit dur (Hour * 24) 68 in
        let out := out ++ days in
        if dur =? 0 then out
        else
          let out := out ++ Str "T" in
          let '(hours, dur) := take_unit dur Hour 72 in
          let out := out ++ hours in
          if dur =? 0 then out
          else
            let '(minutes, dur) := take_unit dur Minute 77 in
            let out := out ++ minutes in
            if dur =? 0 then out
            else
              let '(seconds, _) := take_unit dur Second 83 in
              out ++ seconds.

(** ** Reading *)

Definition designator (c : rune) : Prop := c ∈ Str "YMWDHS".

Lemma designator_cases c : designator c -> c = 89 \/ c = 77 \/ c = 87 \/ c = 68 \/ c = 72 \/ c = 83.
Proof. unfold designator. rewrite list_elem_of_In. cbn. intuition. Qed.

Section reading.
Context {F : Type} (ParseFloat : str -> option F) (scale scale12 : Z -> F -> Z).

Lemma consume_digits ds i num c rest : Forall digit_rune ds -> designator c ->
  consume_from ParseFloat i num (ds ++ c :: rest) =
    match ParseFloat (num ++ ds) with None => None | Some n => Some (n, c, i + len ds + 1) end.
Proof.
  intros Hds Hc. revert i num. induction Hds as [|x ds Hx _ IH]; intros i num; cbn [app consume_from].
  - rewrite bool_decide_true by done. destruct (designator_cases c Hc) as [->|[->|[->|[->|[->| ->]]]]]; cbn; rewrite app_nil_r, Z.add_0_r; done.
  - unfold digit_rune in Hx. rewrite (proj2 (Z.leb_le 48 x)), (proj2 (Z.leb_le x 57)) by lia. cbn [andb orb]. rewrite IH, <- app_assoc, len_cons. cbn [app].
    by replace (i + 1 + len ds + 1) with (i + (len ds + 1) + 1) by lia.
Qed.

Lemma consume_idx i num dur n c idx : consume_from ParseFloat i num dur = Some (n, c, idx) -> i < idx <= i + len dur.
Proof.
  revert i num. induction dur as [|x dur IH]; intros i num; cbn [consume_from]; [done|]. rewrite len_cons. pose proof (len_nonneg dur).
  case_match; [intros H1%IH; lia|]. case_match; [|done]. destruct (ParseFloat num); [|done]. intros [= <- <- <-]. lia.
Qed.

(** The loop ends: every turn shortens the text. *)
Lemma parse_loop_total fuel time dur r : (length dur < fuel)%nat -> exists o, parse_loop ParseFloat scale scale12 fuel time dur r = Ok o.
Proof.
  revert time dur r. induction fuel as [|fuel IH]; intros time dur r Hf; [lia|]. cbn [parse_loop]. destruct dur as [|c rest]; [by eexists|].
  destruct (c =? 84); [apply IH; cbn in Hf; lia|]. destruct (consumeN ParseFloat (c :: rest)) as [[[n d] idx]|] eqn:E; [|by eexists].
  apply consume_idx in E. rewrite <- (Z2Nat.id idx) by lia. rewrite zslice_end by (unfold len in E; lia). cbn [rbind].
  destruct (if time then state1 scale d n else state0 scale scale12 d n); [|by eexists]. apply IH. rewrite length_drop. unfold len in E. cbn in *. lia.
Qed.

(** Reading [text] in the state [t1] leads to the state [t2] and consumes a
    whole number of seconds, from [a] down to [b]. *)
Definition reads (t1 t2 : bool) (text : str) (a b : Z) : Prop :=
  0 <= b <= a /\ (exists k, a - b = Second * k) /\
  forall rest r fuel, 0 <= r -> r + a < 2 ^ 63 -> (length (text ++ rest) < fuel)%nat ->
    exists fuel', (length rest < fuel')%nat /\
      parse_loop ParseFloat scale scale12 fuel t1 (text ++ rest) r = parse_loop ParseFloat scale scale12 fuel' t2 rest (r + (a - b)).

Lemma reads_nil t a : 0 <= a -> reads t t [] a a.
Proof.
  intros Ha. split; [lia|]. split; [exists 0; lia|]. intros rest r fuel _ _ Hf. exists fuel. split; [done|]. by rewrite Z.sub_diag, Z.add_0_r.
Qed.

Lemma reads_app t1 t2 t3 x y a b c : reads t1 t2 x a b -> reads t2 t3 y b c -> reads t1 t3 (x ++ y) a c.
Proof.
  intros (H1 & (k1 & E1) & R1) (H2 & (k2 & E2) & R2). split; [lia|]. split; [exists (k1 + k2); lia|]. intros rest r fuel Hr Hb Hf.
  rewrite <- app_assoc in *. destruct (R1 (y ++ rest) r fuel) as (f1 & Hf1 & ->); [done..|].
  destruct (R2 rest (r + (a - b)) f1) as (f2 & Hf2 & ->); [lia|lia|done|]. exists f2. split; [done|]. f_equal. lia.
Qed.

Lemma reads_T a : 0 <= a -> reads false true (Str "T") a a.
Proof.
  intros Ha. split; [lia|]. split; [exists 0; lia|]. intros rest r [|fuel] _ _ Hf; [lia|]. exists fuel. cbn in Hf. split; [lia|].
  rewrite Z.sub_diag, Z.add_0_r. done.
Qed.

(** A unit of [u] nanoseconds, a whole number of seconds, is read exactly below
    a limit. *)
Definition unit_ok (time : bool) (lim u : Z) (c : rune) : Prop :=
  designator c /\ 0 < u /\ (exists k, u = Second * k) /\
  forall n, 0 <= n -> u * n < lim ->
    exists f, ParseFloat (Itoa n) = Some f /\ (if time then state1 scale c f else state0 scale scale12 c f) = Some (u * n).

Lemma take_unit_reads time lim u c dur text dur' : unit_ok time lim u c -> 0 <= dur < lim -> take_unit dur u c = (text, dur') ->
  reads time time text dur dur' /\ 0 <= dur' < u.
Proof.
  intros (Hc & Hu & (k & Ek) & Hok) Hd. unfold take_unit. rewrite Z.quot_div_nonneg by lia.
  pose proof (Z.div_mod dur u ltac:(lia)) as Ed. pose proof (Z.mod_pos_bound dur u Hu) as Hm.
  destruct (Z.ltb_spec 0 (dur / u)) as [Hn|Hn].
  2:{ assert (0 <= dur / u) by (apply Z.div_pos; lia). intros [= <- <-]. split; [apply reads_nil; lia|]. nia. }
  set (n := dur / u) in *. intros [= <- <-]. split; [|lia]. split; [lia|]. split; [exists (k * n); nia|]. intros rest r [|fuel] Hr Hb Hf; [lia|].
  destruct (Hok n) as (f & Ef & Es); [lia..|]. destruct (Itoa_digits n) as [Dn Nn]; [lia|].
  exists fuel. split; [rewrite !length_app in Hf; cbn in Hf; lia|]. rewrite <- app_assoc. cbn [app].
  destruct (Itoa n) as [|x ds] eqn:Ei; [done|]. cbn [app parse_loop]. inversion Dn as [|? ? Hx _]; subst x0 l. unfold digit_rune in Hx.
  rewrite (proj2 (Z.eqb_neq x 84)) by lia. change (x :: ds ++ c :: rest) with ((x :: ds) ++ c :: rest).
  unfold consumeN. rewrite consume_digits by done. cbn [app]. rewrite Ef.
  assert (zslice ((x :: ds) ++ c :: rest) (0 + len (x :: ds) + 1) (len ((x :: ds) ++ c :: rest)) = Ok rest) as E1.
  { replace (0 + len (x :: ds) + 1) with (len ((x :: ds) ++ [c])) by (rewrite len_app; change (len [c]) with 1; lia).
    replace ((x :: ds) ++ c :: rest) with (((x :: ds) ++ [c]) ++ rest) by (by rewrite <- app_assoc). apply zslice_after. }
  cbn [app] in E1. rewrite E1. cbn [rbind]. rewrite Es. f_equal. rewrite int64_id by (unfold int64_ok; lia). lia.
Qed.
End reading.

(** ** Properties *)

(** A designator, by computation. *)
Lemma designator_dec c : bool_decide (c ∈ Str "YMWDHS") = true -> designator c.
Proof. apply bool_decide_eq_true. Qed.

Section periods.
Context {F : Type} (ParseFloat : str -> option F) (scale scale12 : Z -> F -> Z).

(** What IEEE 754 says of whole numbers below [2^53]: they are parsed exactly,
    and a product with a constant is exact that has 53 bits before its trailing
    zeros; so is the twelfth of it that is a whole number; and the conversion to 64
    bits is exact for what is below [2^63]. *)
Definition constant (k v : Z) : Prop := 0 <= k /\ 0 <= v < 2 ^ 53 /\ 2 ^ k * v < 2 ^ 63.
Definition exact_floats : Prop := forall n, 0 <= n < 2 ^ 53 -> exists f, ParseFloat (Itoa n) = Some f /\
  forall k v, constant k v -> v * n < 2 ^ 53 -> 2 ^ k * (v * n) < 2 ^ 63 ->
    scale (2 ^ k * v) f = 2 ^ k * (v * n).
Definition exact_twelfths : Prop := forall n f, 0 <= n < 2 ^ 53 -> ParseFloat (Itoa n) = Some f ->
  forall k v w, constant k v -> v * n < 2 ^ 53 -> 2 ^ k * v = 12 * w -> w * n < 2 ^ 63 -> scale12 (2 ^ k * v) f = w * n.

Lemma unit_exact (time : bool) lim k v c : exact_floats -> designator c -> constant k v -> 0 < v -> lim <= 2 ^ 53 * 2 ^ k -> lim <= 2 ^ 63 ->
  (exists j, 2 ^ k * v = Second * j) ->
  (forall f : F, (if time then state1 scale c f else state0 scale scale12 c f) = Some (scale (2 ^ k * v) f)) ->
  unit_ok ParseFloat scale scale12 time lim (2 ^ k * v) c.
Proof.
  intros Hexact Hc Hcon Hv Hb Hb' Hj Hs. pose proof Hcon as (Hk & _). assert (0 < 2 ^ k) by (apply Z.pow_pos_nonneg; lia). split; [done|]. split; [nia|]. split; [done|]. intros n Hn Hlt.
  assert (v * n < 2 ^ 53) by nia. destruct (Hexact n) as (f & Ef & Es); [nia|]. exists f. split; [done|]. rewrite Hs, Es by (done || lia). f_equal. lia.
Qed.

Context (Hexact : exact_floats) (Htwelfth : exact_twelfths).
Abbreviation uok := (unit_ok ParseFloat scale scale12).
Abbreviation rd := (reads ParseFloat scale scale12).

Lemma years_ok : uok false (2 ^ 63) (Hour * 24 * 365) 89.
Proof. apply (unit_exact false _ 16 481201171875); try done; [by apply designator_dec|by exists 31536000]. Qed.
Lemma weeks_ok : uok false (Hour * 24 * 365 / 12) (Hour * 24 * 7) 87.
Proof. apply (unit_exact false _ 16 9228515625); try done; [by apply designator_dec|by exists 604800]. Qed.
Lemma days_ok : uok false (Hour * 24 * 7) (Hour * 24) 68.
Proof. apply (unit_exact false _ 16 1318359375); try done; [by apply designator_dec|by exists 86400]. Qed.
Lemma hours_ok : uok true (Hour * 24) Hour 72.
Proof. apply (unit_exact true _ 13 439453125); try done; [by apply designator_dec|by exists 3600]. Qed.
Lemma minutes_ok : uok true Hour Minute 77.
Proof. apply (unit_exact true _ 11 29296875); try done; [by apply designator_dec|by exists 60]. Qed.
Lemma seconds_ok : uok true Minute Second 83.
Proof. apply (unit_exact true _ 9 1953125); try done; [by apply designator_dec|by exists 1]. Qed.

Lemma months_ok : uok false (Hour * 24 * 365) (Hour * 24 * 365 / 12) 77.
Proof.
  assert (Hour * 24 * 365 = 2 ^ 16 * 481201171875) as E by reflexivity. assert (Hour * 24 * 365 / 12 = 2628000000000000) as E' by reflexivity.
  split; [by apply designator_dec|]. split; [done|]. split; [by exists 2628000|]. intros n Hn Hlt. assert (n < 12) by lia. destruct (Hexact n) as (f & Ef & _); [lia|]. exists f.
  split; [done|]. unfold state0. change (77 =? 89) with false. change (77 =? 77) with true. cbv iota. f_equal. rewrite E' , E.
  apply (Htwelfth n f); (done || lia).
Qed.

(** The units in a list, until nothing is left; then [k]. *)
Fixpoint units (us : list (Z * rune)) (k : Z -> str) (dur : Z) : str :=
  match us with
  | [] => k dur
  | (u, c) :: us => let '(s, d) := take_unit dur u c in s ++ (if d =? 0 then [] else units us k d)
  end.

Definition date_units : list (Z * rune) := [(Hour * 24 * 365, 89); (Hour * 24 * 365 / 12, 77); (Hour * 24 * 7, 87); (Hour * 24, 68)].
Definition time_units : list (Z * rune) := [(Hour, 72); (Minute, 77); (Second, 83)].

Lemma AsISO_units dur : AsISO8601Period dur =
  (if dur <? 0 then Str "-" else []) ++ Str "P" ++ units date_units (fun d => Str "T" ++ units time_units (fun _ => []) d) (if dur <? 0 then int64 (- dur) else dur).
Proof.
  unfold AsISO8601Period. destruct (dur <? 0); cbn [units date_units time_units];
    repeat (match goal with |- context [take_unit ?d ?u ?c] => destruct (take_unit d u c) end; try destruct (_ =? 0));
    by rewrite ?app_nil_r, <- ?app_assoc.
Qed.

(** Every unit is read exactly below the one before it. *)
Fixpoint units_ok (time : bool) (lim : Z) (us : list (Z * rune)) : Prop :=
  match us with [] => True | (u, c) :: us => uok time lim u c /\ units_ok time u us end.

Fixpoint least_unit (lim : Z) (us : list (Z * rune)) : Z := match us with [] => lim | (u, _) :: us => least_unit u us end.

Lemma units_reads time lim us k dur : units_ok time lim us -> 0 <= dur < lim ->
  (forall d, 0 <= d < least_unit lim us -> exists time' left, rd time time' (k d) d left /\ left < Second) ->
  exists time' left, rd time time' (units us k dur) dur left /\ left < Second.
Proof.
  revert lim dur. induction us as [|[u c] us IH]; intros lim dur Hus Hd Hk; [by apply Hk|]. destruct Hus as [Hu Hus]. cbn [units].
  destruct (take_unit dur u c) as [s d] eqn:E. eapply take_unit_reads in E as [R B]; [|done|done].
  destruct (Z.eqb_spec d 0) as [->|Hn].
  - exists time, 0. rewrite app_nil_r. by split.
  - destruct (IH u d) as (time' & left & R' & Hl); [done|done|..].
    + exact Hk.
    + exists time', left. split; [|done]. by eapply reads_app.
Qed.

Lemma AsISO_reads dur : 0 <= dur < 2 ^ 63 -> exists time left,
  rd false time (units date_units (fun d => Str "T" ++ units time_units (fun _ => []) d) dur) dur left /\ left < Second.
Proof.
  intros Hd. apply (units_reads false (2 ^ 63)); [|done|].
  - split; [apply years_ok|]. split; [apply months_ok|]. split; [apply weeks_ok|]. split; [apply days_ok|done].
  - cbn [date_units least_unit]. intros d Hd'. destruct (units_reads true (Hour * 24) time_units (fun _ => []) d) as (time & left & R & Hl); [|done|..].
    + split; [apply hours_ok|]. split; [apply minutes_ok|]. split; [apply seconds_ok|done].
    + intros d' Hd2. exists true, d'. split; [apply reads_nil, Hd2|apply Hd2].
    + exists time, left. split; [|done]. eapply reads_app; [|exact R]. apply reads_T, Hd'.
Qed.
End periods.

(** [ParseISO8601Period] returns for every text: each turn of its loop
    consumes some of it. *)
Theorem Period_total {F : Type} (ParseFloat : str -> option F) (scale scale12 : Z -> F -> Z) (dur : str) :
  exists o, ParseISO8601Period ParseFloat scale scale12 dur = Ok o.
Proof.
  unfold ParseISO8601Period. destruct (bool_decide (hd_error dur = Some 80)) eqn:Eh; destruct (prefixed (Str "-P") dur) eqn:Ep; cbn [negb andb]; try (by exists None).
  - destruct dur as [|x dur]; [done|]. apply bool_decide_eq_true in Eh. cbn in Eh. injection Eh as ->. done.
  - destruct dur as [|x dur]; [done|]. change (zslice (x :: dur) 1 (len (x :: dur))) with (zslice ([x] ++ dur) (len [x]) (len ([x] ++ dur))).
    rewrite zslice_after. cbn [rbind]. destruct (parse_loop_total ParseFloat scale scale12 (S (length dur)) false dur 0) as [o ->]; [lia|]. by eexists.
  - apply prefixed_drop in Ep as [r ->]. change (Str "-P" ++ r) with ([45] ++ [80] ++ r). change 1 with (len [45]) at 1. rewrite zslice_after. cbn [rbind].
    change 1 with (len [80]). rewrite zslice_after. cbn [rbind]. destruct (parse_loop_total ParseFloat scale scale12 (S (length r)) false r 0) as [o ->]; [lia|]. by eexists.
Qed.

(** C37: A duration that is printed is read back, cut to the second towards
    zero. *)
Theorem Period_roundtrip {F : Type} (ParseFloat : str -> option F) (scale scale12 : Z -> F -> Z) (dur : Z) :
  exact_floats ParseFloat scale -> exact_twelfths ParseFloat scale12 -> - 2 ^ 63 < dur < 2 ^ 63 ->
  ParseISO8601Period ParseFloat scale scale12 (AsISO8601Period dur) = Ok (Some (Z.quot dur Second * Second)).
Proof.
  intros Hf Ht Hd. rewrite AsISO_units.
  assert (forall abs, 0 <= abs < 2 ^ 63 -> forall text, text = units date_units (fun d => Str "T" ++ units time_units (fun _ => []) d) abs ->
    parse_loop ParseFloat scale scale12 (S (length text)) false text 0 = Ok (Some (abs / Second * Second))) as Hp.
  { intros abs Ha text ->. destruct (AsISO_reads ParseFloat scale scale12 Hf Ht abs Ha) as (time & left & (B & (k & Ek) & R) & Hl).
    set (text := units _ _ _) in *. destruct (R [] 0 (S (length text))) as (fuel & Hfu & E); [lia|lia|rewrite app_nil_r; lia|]. rewrite app_nil_r in E. rewrite E.
    destruct fuel; [cbn in Hfu; lia|]. cbn [parse_loop]. assert (abs / Second = k) as -> by (symmetry; apply Z.div_unique with left; lia). do 2 f_equal. lia. }
  unfold ParseISO8601Period. destruct (Z.ltb_spec dur 0) as [Hn|Hn].
  - rewrite int64_id by (unfold int64_ok; lia). specialize (Hp (- dur) ltac:(lia) _ eq_refl). set (text := units _ _ _) in *.
    change (Str "-" ++ Str "P" ++ text) with ([45] ++ [80] ++ text). rewrite bool_decide_false by done. cbn [app]. change (prefixed (Str "-P") (45 :: 80 :: text)) with true.
    cbn [negb andb]. change (45 :: 80 :: text) with ([45] ++ [80] ++ text). change 1 with (len [45]) at 1. rewrite zslice_after. cbn [rbind].
    change 1 with (len [80]). rewrite zslice_after. cbn [rbind]. rewrite Hp. cbn [rbind]. do 2 f_equal.
    assert (Z.quot dur Second = - (- dur / Second)) as -> by (rewrite <- Z.quot_div_nonneg, Z.quot_opp_l by (done || lia); lia).
    pose proof (Z.mul_div_le (- dur) Second ltac:(done)). pose proof (Z.div_pos (- dur) Second ltac:(lia) ltac:(done)).
    assert (Second = 1000000000) as Es by done. rewrite int64_id; [lia|]. unfold int64_ok. lia.
  - specialize (Hp dur ltac:(lia) _ eq_refl). set (text := units _ _ _) in *. change ([] ++ Str "P" ++ text) with ([80] ++ text).
    rewrite bool_decide_true by done. assert (prefixed (Str "-P") ([80] ++ text) = false) as -> by done. cbn [negb andb].
    change 1 with (len [80]). rewrite zslice_after. cbn [rbind]. rewrite Hp. cbn [rbind]. by rewrite Z.quot_div_nonneg by (done || lia).
Qed.

(** ** Examples *)

(** Whole numbers of 64 bits instead of floating-point ones. *)
Definition whole (s : str) : option Z := Atoi s.
Definition scaled (u n : Z) : Z := int64 (u * n).
Definition twelfth (u n : Z) : Z := int64 (u * n / 12).

Lemma whole_exact : exact_floats whole scaled.
Proof.
  intros n Hn. exists n. split; [unfold whole; apply Atoi_Itoa; lia|]. intros k v (Hk & Hv & _) _ Hlt. unfold scaled.
  assert (0 < 2 ^ k) by (apply Z.pow_pos_nonneg; lia). rewrite <- Z.mul_assoc. apply int64_id. unfold int64_ok. nia.
Qed.

Lemma whole_twelfths : exact_twelfths whole twelfth.
Proof.
  intros n f Hn E. unfold whole in E. rewrite Atoi_Itoa in E by lia. injection E as <-. intros k v w (Hk & Hv & _) _ E Hlt. unfold twelfth.
  assert (0 < 2 ^ k) by (apply Z.pow_pos_nonneg; lia). rewrite E. replace (12 * w * n) with (w * n * 12) by lia. rewrite Z.div_mul by done.
  apply int64_id. unfold int64_ok. nia.
Qed.

(** Parts of a second are lost, the smallest duration is printed as nothing, and
    a text may repeat its units in any order. *)
Lemma period_examples :
  AsISO8601Period (- (Second / 2)) = Str "-PT" /\
  AsISO8601Period (- 2 ^ 63) = Str "-PT" /\
  ParseISO8601Period whole scaled twelfth (Str "P1D2DTT3ST4M") = Ok (Some (Hour * 72 + 3 * Second + 4 * Minute)).
Proof. by vm_compute. Qed.

Lemma Period_roundtrip_witness :
  ParseISO8601Period whole scaled twelfth (AsISO8601Period (- (Hour * 9000 + 1))) = Ok (Some (- (Hour * 9000))).
Proof. refine (Period_roundtrip whole scaled twelfth (- (Hour * 9000 + 1)) whole_exact whole_twelfths _). split; done. Defined.
