(* ===== verification/Schedule.v ===== *)
(** * Annual schedules (datetime/schedule: annual.go, scheduler.go)

    The dates of a schedule, from months, ranges, dynamic ranges and constraints,
    and the iterator over the days on which there are actions.  The reference is
    the increasing list of the days that one of the ranges holds and that the
    constraints and the bounds allow. *)

From stdpp Require Import base list option numbers gmap sorting.
From Stdlib Require Import ZArith Lia.
From stdpp Require Import list.
From S2P Require Import Prelude Dates DateRanges Text DateText.

Open Scope Z_scope.
Open Scope go_scope.

(** ** Dates (annual.go) *)

(** [schedule.Dates]; a dynamic range is its [Evaluate]. *)
Record ScheduleDates := MkDates {
  Months : list Z;
  MirrorMonths : bool;
  Ranges : list Z;
  DynamicRanges : list (Z -> Z);
  DateConstraints : Constraints;
}.

(** [for _, m := range d.Months] with the append to [months]. *)
Fixpoint mirrored (ms months : list Z) : res (list Z) :=
  match ms with
  | [] => Ok months
  | m :: ms => let! m' := MirrorMonth m in mirrored ms (months ++ [m'])
  end.

Definition truncateCalendarDates (year : Z) (cdrl : list Z) : list Z := map (fun cdr => cdr_Truncate cdr year) cdrl.

(** [DynamicDateRangeList.Evaluate]. *)
Definition Dynamic_Evaluate (dl : list (Z -> Z)) (year : Z) : list Z := map (fun f => f year) dl.

(** The two nested loops over [merged] and the ranges that meet the constraints. *)
Fixpoint constrained_ranges (merged : list Z) (year : Z) (dc : Constraints) (drl : list Z) : res (list Z) :=
  match merged with
  | [] => Ok drl
  | r :: merged =>
      let! drl := dr_RangesConstrained r year dc (fun dr drl => Ok (true, drl ++ [cdr_DateRange dr year])) drl in
      constrained_ranges merged year dc drl
  end.

Definition EvaluateDateRanges (d : ScheduleDates) (year bounds : Z) : res (list Z) :=
  let! months := (if MirrorMonths d then mirrored (Months d) (Months d) else Ok (Months d)) in
  let months := slices_Sort months in
  let! merged := DateRangeList_MergeMonths (Ranges d) year months in
  let merged := merged ++ truncateCalendarDates year (Dynamic_Evaluate (DynamicRanges d) year) in
  let merged := slices_Sort merged in
  let! merged := DateRangeList_Merge merged year in
  let! drl := constrained_ranges merged year (DateConstraints d) [] in
  DateRangeList_Bound drl year bounds.

(** ** Actions (daily.go)

    [L] is a [time.Location] and [C] the coordinates of a place, which are only
    passed on to the functions of the user. *)
Section actions.
Context {L C A : Type}.

Record Place := MkPlace { TimeLocation : L; Coordinates : C }.

Record RepeatSpec := MkRepeat { Interval : Z; Repeats : Z }.

(** The zero [DynamicTimeOfDaySpec] has no [Due]. *)
Record DynamicTimeOfDaySpec := MkDynamic { DDue : option (Z -> Place -> Z); Offset : Z }.

Record ActionSpec := MkAction {
  Name : str;
  Due : Z;
  Dynamic : DynamicTimeOfDaySpec;
  Repeat : RepeatSpec;
  Value : A;
}.

Definition Evaluate (a : ActionSpec) (cd : Z) (place : Place) : ActionSpec :=
  match DDue (Dynamic a) with
  | Some dyn =>
      MkAction (Name a) (TimeOfDay_Add (dyn cd place) (Offset (Dynamic a))) (MkDynamic None 0) (Repeat a) (Value a)
  | None => a
  end.

Definition EvaluateAll (a : list ActionSpec) (cd : Z) (place : Place) : list ActionSpec :=
  map (fun as_ => Evaluate as_ cd place) a.

(** The order of [Sort], and that of [SortStable]. *)
Definition by_due_and_name (a b : ActionSpec) : bool :=
  if Due a =? Due b then str_ltb (Name a) (Name b) else Due a <? Due b.
Definition by_due (a b : ActionSpec) : bool := Due a <? Due b.

Context (sort_Slice : (ActionSpec -> ActionSpec -> bool) -> list ActionSpec -> list ActionSpec).

Definition Sort (a : list ActionSpec) : list ActionSpec := sort_Slice by_due_and_name a.
Definition SortStable (a : list ActionSpec) : list ActionSpec := SliceStable by_due a.

(** ** The annual scheduler (scheduler.go) *)

Record Scheduled_ := MkScheduled { SDate : Z; Specs : list ActionSpec }.

Record AnnualScheduler := MkAnnual { actions : list ActionSpec }.
Definition NewAnnualScheduler (a : list ActionSpec) : AnnualScheduler := MkAnnual a.

(** What is yielded for a day. *)
Definition day_schedule (s : AnnualScheduler) (place : Place) (day : Z) : Scheduled_ :=
  MkScheduled day (Sort (EvaluateAll (actions s) day place)).

(** The loops over [drl] and over the days of each range; the boolean says that
    the consumer returned. *)
Fixpoint scheduled_ranges (sch : AnnualScheduler) (year : Z) (place : Place) (drl : list Z)
    {S} (yield : Scheduled_ -> S -> res (bool * S)) (s : S) : res S :=
  match drl with
  | [] => Ok s
  | dr :: drl =>
      let! (s, returned) := dr_Dates dr year (fun day '(s, _) =>
        let! (more, s) := yield (day_schedule sch place day) s in Ok (more, (s, negb more))) (s, false) in
      if (returned : bool) then Ok s else scheduled_ranges sch year place drl yield s
  end.

(** The ranges are evaluated when the iterator is made. *)
Definition Scheduled (sch : AnnualScheduler) (year : Z) (place : Place) (dates : ScheduleDates) (bounds : Z) :
    res (seq_iter Scheduled_) :=
  let! drl := EvaluateDateRanges dates year bounds in
  Ok (fun S yield s => scheduled_ranges sch year place drl yield s).
End actions.
Arguments Place : clear implicits.
Arguments ActionSpec : clear implicits.
Arguments Scheduled_ : clear implicits.
Arguments AnnualScheduler : clear implicits.
Arguments DynamicTimeOfDaySpec : clear implicits.

(** ** The days of a year *)

Section year.
Context (year : Z) (Hyear : 0 <= year < 65535).
Let leap := IsLeap year.

(** The calendar date of a date of the year. *)
Definition on (x : Z) : Z := 65536 * year + x.

Lemma on_fields x : d_ok leap x -> day_ok (on x) /\ Date_CalendarDate x year = on x /\ Year (on x) = year /\ Date (on x) = x /\ 0 < x.
Proof.
  intros (m & d & H & ->). destruct (date_ok_bytes _ _ _ H). unfold on.
  assert (NewCalendarDate year m d = 65536 * year + (256 * m + d)) as E by (rewrite NewCalendarDate_val by lia; lia).
  destruct (cd_fields year m d) as (Ey & _ & _ & _ & _ & Ed & _); [lia..|]. cbv zeta in *.
  replace (65536 * year + 256 * m + d) with (65536 * year + (256 * m + d)) in * by lia.
  split_and!; [|unfold Date_CalendarDate, Date_Month, Date_Day|done|done|lia].
  - exists year, m, d. rewrite <- E. apply NewCalendarDate_ok; [lia|done].
  - destruct (date_fields m d) as (-> & -> & _); [lia..|]. exact E.
Qed.

Lemma on_date cd : day_ok cd -> Year cd = year -> exists x, d_ok leap x /\ cd = on x.
Proof.
  intros (y & m & d & H) Ey. destruct (cd_ok_fields _ _ _ _ H) as (Ey' & _). rewrite Ey in Ey'. subst y.
  destruct H as (Hy & Hd & E). exists (256 * m + d). split; [by exists m, d|]. unfold on. lia.
Qed.

(** Between two days of the year there are only days of the year. *)
Lemma on_between cd f t : d_ok leap f -> d_ok leap t -> day_ok cd -> on f <= cd <= on t -> exists x, d_ok leap x /\ cd = on x /\ f <= x <= t.
Proof.
  intros (m & d & Hf & ->) (m' & d' & Ht & ->) (y & m0 & d0 & H) Hcd. destruct (date_ok_bytes _ _ _ Hf), (date_ok_bytes _ _ _ Ht).
  destruct (cd_ok_fields _ _ _ _ H) as (Ey & _). pose proof H as (Hy & Hd & E). destruct (date_ok_bytes _ _ _ Hd). unfold on in *.
  assert (y = year) as -> by lia. exists (256 * m0 + d0). split; [by exists m0, d0|]. lia.
Qed.

Lemma Normalize_pack r : range_ok leap r -> dr_Normalize (pack r) year = Ok (pack r).
Proof.
  intros (Hf & Ht & _). unfold dr_Normalize, pack. destruct (dr_From_To year r.1 r.2 Hf Ht) as [-> ->].
  by rewrite !Date_Normalize_ok by done.
Qed.

Lemma CalendarDateRange_pack r : range_ok leap r -> dr_CalendarDateRange (pack r) year = Ok (newCalendarDateRange (on r.1) (on r.2)).
Proof.
  intros Hr. pose proof Hr as (Hf & Ht & Hle). unfold dr_CalendarDateRange. rewrite Normalize_pack by done. cbn [rbind].
  unfold pack. destruct (dr_From_To year r.1 r.2 Hf Ht) as [-> ->]. destruct (on_fields _ Hf) as (H1 & -> & _), (on_fields _ Ht) as (H2 & -> & _).
  unfold NewCalendarDateRange. rewrite (proj2 (Z.ltb_ge _ _)) by (unfold on; lia). by rewrite !Normalize_day.
Qed.

Lemma on_last x : d_ok leap x -> on x < last_day.
Proof.
  intros (m & d & H & ->). destruct (date_ok_bytes _ _ _ H). unfold on, last_day. rewrite NewCalendarDate_val by lia. lia.
Qed.

(** Lists of consecutive days, wherever they begin. *)
Definition contiguous (l : list Z) : Prop := exists n, Forall2 (fun cd k => day_ok cd /\ day_no cd = k) l (seqZ n (len l)).

Lemma consecutive_contiguous from to l : consecutive from to l -> contiguous l.
Proof.
  intros H. exists (day_no from). pose proof (Forall2_length _ _ _ H) as E. rewrite length_seqZ in E. unfold consecutive in H.
  destruct (Z.le_gt_cases 0 (day_no to - day_no from + 1)).
  - replace (len l) with (day_no to - day_no from + 1) by (unfold len; lia). done.
  - rewrite seqZ_nil in H by lia. inversion H. constructor.
Qed.

Lemma contiguous_app l k : contiguous (l ++ k) -> contiguous l /\ contiguous k.
Proof.
  intros [n H]. rewrite len_app, seqZ_app in H by apply len_nonneg. apply Forall2_app_inv in H as [H1 H2]; [|rewrite length_seqZ; unfold len; lia].
  split; [by exists n|by exists (n + len l)].
Qed.

Lemma contiguous_ok l : contiguous l -> Forall day_ok l.
Proof. intros [n H]. eapply Forall2_Forall_l; [exact H|]. apply Forall_true. by intros ? ? []. Qed.

Lemma contiguous_sorted l : contiguous l -> StronglySorted Z.lt l.
Proof.
  intros [n H]. revert n H. induction l as [|x l IH]; intros n H; [constructor|]. rewrite len_cons, seqZ_cons in H by (pose proof (len_nonneg l); lia).
  replace (Z.pred (len l + 1)) with (len l) in H by lia. inversion H as [|? ? ? ? [Hx En] H']; subst. constructor; [by eapply IH|].
  apply Forall_forall. intros y Hy. apply list_elem_of_lookup in Hy as [i Hi]. destruct (Forall2_lookup_l _ _ _ _ _ H' Hi) as (k & Hk & Hyo & <-).
  apply lookup_seqZ in Hk as [Hk _]. apply (day_no_lt x y); [done|done|]. lia.
Qed.

(** A contiguous list holds the days between its first and its last. *)
Lemma contiguous_between l cd : contiguous l -> l <> [] -> cd ∈ l <-> day_ok cd /\ hd 0 l <= cd <= List.last l 0.
Proof.
  intros Hl Hne. pose proof (contiguous_sorted l Hl) as Hs. pose proof (contiguous_ok l Hl) as Hok. destruct Hl as [n H].
  assert (exists l', l = l' ++ [List.last l 0]) as [l1 E1] by (exists (removelast l); by apply app_removelast_last).
  assert (exists l', l = hd 0 l :: l') as [l2 E2] by (destruct l as [|x l']; [done|by exists l']).
  set (a := hd 0 l) in *. set (z := List.last l 0) in *. rewrite Forall_forall in Hok.
  assert (a ∈ l) as Ha by (rewrite E2; left). assert (z ∈ l) as Hz by (rewrite E1; apply elem_of_app; right; by apply list_elem_of_singleton).
  split.
  - intros Hcd. split; [auto|]. split.
    + rewrite E2 in Hs, Hcd. apply StronglySorted_inv in Hs as [_ Hs]. apply elem_of_cons in Hcd as [->|Hcd]; [lia|].
      rewrite Forall_forall in Hs. specialize (Hs cd Hcd). lia.
    + rewrite E1 in Hs, Hcd. apply elem_of_app in Hcd as [Hcd|Hcd%list_elem_of_singleton]; [|lia].
      assert (cd < z); [|lia]. eapply StronglySorted_app_1_elem_of; [exact Hs|done|by apply list_elem_of_singleton].
  - intros [Hcd [Hlo Hhi]].
    assert (day_no a = n) as Ea.
    { rewrite E2 in H. rewrite len_cons, seqZ_cons in H by (pose proof (len_nonneg l2); lia). inversion H as [|? ? ? ? [_ ?] _]. done. }
    assert (day_no z = n + len l - 1) as Ez.
    { rewrite E1 in H. rewrite len_app, seqZ_app in H by apply len_nonneg. apply Forall2_app_inv in H as [_ H]; [|rewrite length_seqZ; unfold len; lia].
      change (len [z]) with 1 in H. rewrite seqZ_cons in H by lia. inversion H as [|? ? ? ? [_ Hz'] _]. rewrite E1, len_app. change (len [z]) with 1. lia. }
    pose proof (day_no_lt cd a Hcd (Hok a Ha)). pose proof (day_no_lt z cd (Hok z Hz) Hcd).
    assert (seqZ n (len l) !! Z.to_nat (day_no cd - n) = Some (day_no cd)) as Hk by (apply lookup_seqZ; lia).
    destruct (Forall2_lookup_r _ _ _ _ _ H Hk) as (cd' & Hcd' & Hok' & En). pose proof (day_no_lt cd cd' Hcd Hok'). pose proof (day_no_lt cd' cd Hok' Hcd).
    replace cd with cd' by lia. by eapply list_elem_of_lookup_2.
Qed.

Lemma consecutive_ends from to l : day_ok from -> day_ok to -> from <= to -> consecutive from to l ->
  l <> [] /\ hd 0 l = from /\ List.last l 0 = to.
Proof.
  intros Hf Ht Hle H. pose proof (day_no_lt to from Ht Hf). assert (0 <= day_no to - day_no from) as Hn by lia.
  assert (forall x y, day_ok x -> day_ok y -> day_no x = day_no y -> x = y) as Hinj.
  { intros x y Hx Hy E. pose proof (day_no_lt x y Hx Hy). pose proof (day_no_lt y x Hy Hx). lia. }
  pose proof (Forall2_length _ _ _ H) as El. rewrite length_seqZ in El.
  assert (l <> []) as Hne by (intros ->; cbn in El; lia). split; [done|]. split.
  - unfold consecutive in H. rewrite seqZ_cons in H by lia. inversion H as [|x ? l' ? [Hx Ex] _]; subst. cbn. by apply Hinj.
  - rewrite (app_removelast_last 0 Hne) in H, El. rewrite length_app in El. cbn [length] in El. unfold consecutive in H.
    rewrite seqZ_app in H by lia. apply Forall2_app_inv in H as [_ H]; [|rewrite length_seqZ; lia].
    rewrite seqZ_cons in H by lia. inversion H as [|x ? l' ? [Hx Ex] _]; subst. apply Hinj; [done..|]. lia.
Qed.

(** Ranges in order, with nothing shared. *)
Definition apart (rs : list (Z * Z)) : Prop := StronglySorted (fun r r' => r.2 < r'.1) rs.

Lemma spaced_apart rs : Forall (range_ok leap) rs -> spaced leap rs -> apart rs.
Proof.
  induction rs as [|r rs IH]; intros Hok Hs; [constructor|]. apply Forall_cons in Hok as [Hr Hok]. destruct rs as [|r' rs]; [by repeat constructor|].
  destruct Hs as [Hgap Hs]. specialize (IH Hok Hs). apply Forall_cons in Hok as [Hr' Hok].
  assert (r.2 < r'.1) as Hlt by (apply (d_ord_lt leap); [apply Hr|apply Hr'|lia]).
  constructor; [done|]. constructor; [done|]. apply StronglySorted_inv in IH as [_ IH]. eapply Forall_impl; [exact IH|]. cbn. intros q Hq.
  destruct Hr' as (_ & _ & Hle). lia.
Qed.

Lemma runs_contiguous p l segs : runs p l segs -> contiguous l -> Forall (fun seg => contiguous seg /\ seg <> []) segs.
Proof.
  induction 1 as [|x l segs Hx _ IH|seg l segs Hne Hseg Hl _ IH]; intros Hc; [constructor|..].
  - apply IH. by apply (contiguous_app [x] l).
  - apply contiguous_app in Hc as [H1 H2]. constructor; [done|]. by apply IH.
Qed.

Lemma runs_sorted p l segs : runs p l segs -> StronglySorted Z.lt l -> StronglySorted Z.lt (concat segs).
Proof.
  intros Hr Hs. rewrite (runs_filter _ _ _ Hr). clear Hr. induction Hs as [|x l Hs IH Hx]; [constructor|]. rewrite filter_cons.
  destruct (decide _); [|done]. constructor; [done|]. by apply Forall_filter_keep.
Qed.

Definition of_seg (seg : list Z) : Z * Z := (hd 0 seg - 65536 * year, List.last seg 0 - 65536 * year).

Lemma of_seg_on seg : on (of_seg seg).1 = hd 0 seg /\ on (of_seg seg).2 = List.last seg 0.
Proof. unfold on, of_seg. cbn [fst snd]. lia. Qed.

Lemma run_range_of_seg seg : run_range seg = newCalendarDateRange (on (of_seg seg).1) (on (of_seg seg).2).
Proof. by destruct (of_seg_on seg) as [-> ->]. Qed.

Lemma ends_in (seg : list Z) : seg <> [] -> hd 0 seg ∈ seg /\ List.last seg 0 ∈ seg.
Proof.
  intros Hne. split; [destruct seg; [done|left]|]. rewrite (app_removelast_last 0 Hne) at 2. apply elem_of_app. right. by apply list_elem_of_singleton.
Qed.

Lemma segs_apart segs : Forall (fun seg : list Z => seg <> []) segs -> StronglySorted Z.lt (concat segs) -> apart (map of_seg segs).
Proof.
  induction 1 as [|seg segs Hne Hall IH]; intros Hs; [constructor|]. cbn [concat] in Hs. constructor; [apply IH; by apply StronglySorted_app_1_r in Hs|].
  apply Forall_forall. intros q Hq. apply list_elem_of_fmap in Hq as (seg' & -> & Hseg').
  rewrite Forall_forall in Hall. specialize (Hall seg' Hseg').
  assert (List.last seg 0 < hd 0 seg') as Hlt; [|cbn; lia].
  eapply StronglySorted_app_1_elem_of; [exact Hs|by apply ends_in|]. apply list_elem_of_In, in_concat. exists seg'.
  split; apply list_elem_of_In; [done|by apply ends_in].
Qed.

(** One range and the constraints. *)
Lemma constrained_one r dc : range_ok leap r ->
  exists R, (forall S (yield : Z -> S -> res (bool * S)) s, dr_RangesConstrained (pack r) year dc yield s =
      range_list (map (fun q => newCalendarDateRange (on q.1) (on q.2)) R) yield s) /\
    Forall (range_ok leap) R /\ apart R /\ forall x, d_ok leap x -> covers R x <-> r.1 <= x <= r.2 /\ includes dc (on x) = true.
Proof.
  intros Hr. pose proof Hr as (Hf & Ht & Hle). destruct (on_fields _ Hf) as (Hf' & _), (on_fields _ Ht) as (Ht' & _).
  destruct (RangesConstrained_runs (on r.1) (on r.2) dc Hf' Ht') as (l & segs & Hl & Hruns & Hrun); [unfold on; lia|by apply on_last|].
  pose proof (consecutive_contiguous _ _ _ Hl) as Hc. pose proof (runs_contiguous _ _ _ Hruns Hc) as Hsegs.
  assert (l <> [] /\ hd 0 l = on r.1 /\ List.last l 0 = on r.2) as (Hne & Ehd & Elast) by (apply consecutive_ends; [done..|unfold on; lia|done]).
  assert (forall seg cd, seg ∈ segs -> cd ∈ seg -> cd ∈ l /\ includes dc cd = true) as Hin.
  { intros seg cd Hseg Hcd. assert (cd ∈ concat segs) as H; [|rewrite (runs_filter _ _ _ Hruns) in H; apply list_elem_of_filter in H; tauto].
    apply list_elem_of_In, in_concat. exists seg. by split; apply list_elem_of_In. }
  assert (forall cd, cd ∈ l -> exists x, d_ok leap x /\ cd = on x /\ r.1 <= x <= r.2) as Hlx.
  { intros cd Hcd. apply (contiguous_between l cd Hc Hne) in Hcd as [Hok Hb]. rewrite Ehd, Elast in Hb. by apply on_between. }
  assert (forall seg, seg ∈ segs -> range_ok leap (of_seg seg)) as Hrok.
  { intros seg Hseg. rewrite Forall_forall in Hsegs. destruct (Hsegs seg Hseg) as [Hcs Hns]. destruct (ends_in seg Hns) as [Ha Hz].
    destruct (Hlx _ (proj1 (Hin _ _ Hseg Ha))) as (a & Ha' & Ea & _), (Hlx _ (proj1 (Hin _ _ Hseg Hz))) as (z & Hz' & Ez & _).
    pose proof (proj1 (contiguous_between seg _ Hcs Hns) Hz) as [_ [Hlo _]].
    unfold of_seg. rewrite Ea, Ez in *. unfold on in *. split_and!; cbn [fst snd]; [by replace (_ - _) with a by lia|by replace (_ - _) with z by lia|lia]. }
  exists (map of_seg segs). split_and!.
  - intros S yield s. unfold dr_RangesConstrained. rewrite CalendarDateRange_pack by done. cbn [rbind]. rewrite Hrun, map_map. f_equal.
    apply map_ext. apply run_range_of_seg.
  - apply Forall_forall. intros q Hq. apply list_elem_of_fmap in Hq as (seg & -> & Hseg). auto.
  - apply segs_apart; [by eapply Forall_impl; [exact Hsegs|intros ? []]|]. apply (runs_sorted _ _ _ Hruns). by apply contiguous_sorted.
  - intros x Hx. destruct (on_fields x Hx) as (Hx' & _). split.
    + intros (q & Hq & Hxq). apply list_elem_of_fmap in Hq as (seg & -> & Hseg). rewrite Forall_forall in Hsegs. destruct (Hsegs seg Hseg) as [Hcs Hns].
      assert (on x ∈ seg) as Hxs by (apply contiguous_between; [done..|]; split; [done|]; unfold of_seg in Hxq; cbn [fst snd] in Hxq; unfold on; lia).
      destruct (Hin _ _ Hseg Hxs) as [Hxl Hi]. destruct (Hlx _ Hxl) as (x' & _ & Ex & Hb). unfold on in Ex. split; [lia|done].
    + intros [Hb Hi]. assert (on x ∈ concat segs) as Hxc.
      { rewrite (runs_filter _ _ _ Hruns). apply list_elem_of_filter. split; [done|]. apply contiguous_between; [done..|]. rewrite Ehd, Elast. unfold on in *. split; [done|lia]. }
      apply list_elem_of_In, in_concat in Hxc as (seg & Hseg & Hxs). apply list_elem_of_In in Hseg, Hxs. rewrite Forall_forall in Hsegs. destruct (Hsegs seg Hseg) as [Hcs Hns].
      apply (contiguous_between seg _ Hcs Hns) in Hxs as [_ Hbx]. exists (of_seg seg). split; [by apply list_elem_of_fmap_2|]. unfold of_seg, on in *. cbn [fst snd]. lia.
Qed.

Lemma DateRange_on r : range_ok leap r -> cdr_DateRange (newCalendarDateRange (on r.1) (on r.2)) year = pack r.
Proof.
  intros (Hf & Ht & Hle). destruct (on_fields _ Hf) as (Hf' & _ & Ef & Df & _), (on_fields _ Ht) as (Ht' & _ & Et & Dt & _).
  unfold cdr_DateRange. destruct (cdr_From_To _ _ Hf' Ht') as [-> ->]. rewrite Ef, Et, Df, Dt, Z.eqb_refl. cbn [negb orb].
  unfold NewDateRange. by rewrite (proj2 (Z.ltb_ge _ _)) by lia.
Qed.

Lemma range_append R drl : Forall (range_ok leap) R ->
  range_list (map (fun q => newCalendarDateRange (on q.1) (on q.2)) R) (fun dr drl => Ok (true, drl ++ [cdr_DateRange dr year])) drl = Ok (drl ++ map pack R).
Proof.
  intros H. revert drl. induction H as [|r R Hr _ IH]; intros drl; cbn [map range_list rbind]; [by rewrite app_nil_r|].
  rewrite IH, DateRange_on by done. by rewrite <- app_assoc.
Qed.

(** The end points of a range are dates it covers. *)
Lemma covers_ends R r : Forall (range_ok leap) R -> r ∈ R -> d_ok leap r.1 /\ d_ok leap r.2 /\ r.1 <= r.2 /\ covers R r.1 /\ covers R r.2.
Proof.
  intros HR Hr. rewrite Forall_forall in HR. destruct (HR r Hr) as (H1 & H2 & H3). split_and!; [done..| |]; exists r; (split; [done|lia]).
Qed.

Lemma apart_app R1 R2 : apart R1 -> apart R2 -> (forall r1 r2, r1 ∈ R1 -> r2 ∈ R2 -> r1.2 < r2.1) -> apart (R1 ++ R2).
Proof. intros H1 H2 H. by apply StronglySorted_app_2. Qed.

Lemma constrained_ranges_spec dc M : Forall (range_ok leap) M -> apart M ->
  exists R, (forall drl, constrained_ranges (map pack M) year dc drl = Ok (drl ++ map pack R)) /\
    Forall (range_ok leap) R /\ apart R /\ forall x, d_ok leap x -> covers R x <-> covers M x /\ includes dc (on x) = true.
Proof.
  induction M as [|m M IH]; intros Hok Hap.
  - exists []. split; [intros drl; cbn; by rewrite app_nil_r|]. split; [done|]. split; [constructor|]. intros x _. unfold covers. setoid_rewrite elem_of_nil. naive_solver.
  - apply Forall_cons in Hok as [Hm Hok]. apply StronglySorted_inv in Hap as [Hap Hbefore]. destruct (IH Hok Hap) as (R & Erun & HR & HaR & Hcov).
    destruct (constrained_one m dc Hm) as (R0 & E0 & HR0 & Ha0 & Hcov0). exists (R0 ++ R). split_and!.
    + intros drl. cbn [map constrained_ranges]. rewrite E0, range_append by done. cbn [rbind]. rewrite Erun, map_app. by rewrite <- app_assoc.
    + by apply Forall_app.
    + apply apart_app; [done..|]. intros r1 r2 H1 H2. destruct (covers_ends R0 r1 HR0 H1) as (_ & Hd1 & _ & _ & Hc1).
      destruct (covers_ends R r2 HR H2) as (Hd2 & _ & _ & Hc2 & _). apply Hcov0 in Hc1 as [Hc1 _]; [|done]. apply Hcov in Hc2 as [(q & Hq & Hq2) _]; [|done].
      rewrite Forall_forall in Hbefore. specialize (Hbefore q Hq). cbn in Hbefore. lia.
    + intros x Hx. rewrite covers_app, covers_cons, Hcov0, Hcov by done. tauto.
Qed.

(** Bounding a range. *)
Definition clip (b r : Z * Z) : Z * Z := (Z.max r.1 b.1, Z.min r.2 b.2).

Lemma dr_Bound_pack r b : range_ok leap r -> range_ok leap b ->
  dr_Bound (pack r) year (pack b) = Ok (if (clip b r).2 <? (clip b r).1 then 0 else pack (clip b r)).
Proof.
  intros Hr Hb. unfold dr_Bound. rewrite !Normalize_pack by done. cbn [rbind]. destruct Hr as (Hf & Ht & _), Hb as (Hbf & Hbt & _).
  destruct (dr_From_To year r.1 r.2 Hf Ht) as [E1 E2], (dr_From_To year b.1 b.2 Hbf Hbt) as [E3 E4]. fold (pack r) in E1, E2. fold (pack b) in E3, E4.
  rewrite E1, E2, E3, E4. unfold clip. cbn [fst snd]. by destruct (_ <? _).
Qed.

Lemma clip_ok r b : range_ok leap r -> range_ok leap b -> (clip b r).1 <= (clip b r).2 -> range_ok leap (clip b r).
Proof.
  intros (Hf & Ht & _) (Hbf & Hbt & _) Hle. unfold clip, range_ok in *. cbn [fst snd] in *. split_and!; [| |done].
  - destruct (Z.max_spec r.1 b.1) as [[_ ->]|[_ ->]]; done.
  - destruct (Z.min_spec r.2 b.2) as [[_ ->]|[_ ->]]; done.
Qed.

Lemma pack_nonzero r : range_ok leap r -> pack r <> 0.
Proof.
  intros ((m & d & H & Ef) & (m' & d' & H' & Et) & _). destruct (date_ok_bytes _ _ _ H), (date_ok_bytes _ _ _ H'). unfold pack. rewrite Ef, Et, newDateRange_val by lia. lia.
Qed.

Lemma Bound_spec b R : range_ok leap b -> Forall (range_ok leap) R -> apart R ->
  exists R', DateRangeList_Bound (map pack R) year (pack b) = Ok (map pack R') /\
    Forall (range_ok leap) R' /\ apart R' /\ forall x, covers R' x <-> covers R x /\ b.1 <= x <= b.2.
Proof.
  intros Hb. induction R as [|r R IH]; intros Hok Hap.
  - exists []. split; [done|]. split; [done|]. split; [constructor|]. intros x. unfold covers. setoid_rewrite elem_of_nil. naive_solver.
  - apply Forall_cons in Hok as [Hr Hok]. apply StronglySorted_inv in Hap as [Hap Hbefore]. destruct (IH Hok Hap) as (R' & E & HR' & Ha' & Hcov).
    cbn [map DateRangeList_Bound]. rewrite dr_Bound_pack by done. cbn [rbind]. rewrite E. cbn [rbind].
    assert (forall x, r.1 <= x <= r.2 /\ b.1 <= x <= b.2 <-> (clip b r).1 <= x <= (clip b r).2) as Hclip by (intros x; unfold clip; cbn [fst snd]; lia).
    destruct (Z.ltb_spec (clip b r).2 (clip b r).1) as [Hlt|Hge].
    + rewrite Z.eqb_refl. exists R'. split; [done|]. split; [done|]. split; [done|]. intros x. rewrite Hcov, covers_cons. specialize (Hclip x). lia || (split; [tauto|]; intros [[?|?] ?]; [lia|tauto]).
    + pose proof (clip_ok r b Hr Hb Hge) as Hc. rewrite (proj2 (Z.eqb_neq _ _)) by (by apply pack_nonzero). exists (clip b r :: R'). split; [done|].
      split; [by constructor|]. split.
      * constructor; [done|]. apply Forall_forall. intros q Hq. destruct (covers_ends R' q HR' Hq) as (_ & _ & _ & Hq1 & _). apply Hcov in Hq1 as [(p & Hp & Hpq) _].
        rewrite Forall_forall in Hbefore. specialize (Hbefore p Hp). cbn in Hbefore. unfold clip. cbn [snd]. lia.
      * intros x. rewrite !covers_cons, Hcov, <- Hclip. tauto.
Qed.

(** The days of the ranges, in order. *)
Lemma dr_Dates_pack r : range_ok leap r -> exists l, StronglySorted Z.lt l /\ (forall cd, cd ∈ l <-> exists x, d_ok leap x /\ cd = on x /\ r.1 <= x <= r.2) /\
  forall S (yield : Z -> S -> res (bool * S)) s, dr_Dates (pack r) year yield s = range_list l yield s.
Proof.
  intros Hr. pose proof Hr as (Hf & Ht & Hle). destruct (on_fields _ Hf) as (Hf' & _), (on_fields _ Ht) as (Ht' & _).
  assert (on r.1 <= on r.2) as Hle' by (unfold on; lia). destruct (range_walk _ _ Hf' Ht' Hle' (on_last _ Ht)) as (l & Hl & Hrun). exists l.
  pose proof (consecutive_contiguous _ _ _ Hl) as Hc. destruct (consecutive_ends _ _ _ Hf' Ht' Hle' Hl) as (Hne & E1 & E2). split_and!.
  - by apply contiguous_sorted.
  - intros cd. rewrite contiguous_between, E1, E2 by done. split.
    + intros [Hok Hb]. by apply on_between.
    + intros (x & Hx & -> & Hb). destruct (on_fields x Hx) as (Hx' & _). unfold on in *. split; [done|lia].
  - intros S yield s. unfold dr_Dates. rewrite CalendarDateRange_pack by done. cbn [rbind]. unfold DateRanges.Dates.
    destruct (cdr_From_To _ _ Hf' Ht') as [-> ->]. apply Hrun.
Qed.

(** *** Sorting and merging *)

Lemma sort_insert_spec x l : sort_insert x l ≡ₚ x :: l /\ (StronglySorted Z.le l -> StronglySorted Z.le (sort_insert x l)).
Proof.
  induction l as [|y l [IHp IHs]]; [split; [done|by repeat constructor]|]. cbn [sort_insert]. destruct (Z.leb_spec x y).
  - split; [done|]. intros Hs. constructor; [done|]. apply StronglySorted_inv in Hs as [_ Hall]. constructor; [done|].
    eapply Forall_impl; [exact Hall|]. cbn. lia.
  - split; [by rewrite IHp; constructor|]. intros Hs. apply StronglySorted_inv in Hs as [Hs Hall]. constructor; [by apply IHs|].
    rewrite IHp. constructor; [lia|done].
Qed.

Lemma slices_Sort_spec l : slices_Sort l ≡ₚ l /\ StronglySorted Z.le (slices_Sort l).
Proof.
  induction l as [|x l [IHp IHs]]; [by split; constructor|]. cbn. fold (slices_Sort l). destruct (sort_insert_spec x (slices_Sort l)) as [Hp Hs].
  split; [by rewrite Hp, IHp|auto].
Qed.

Lemma pack_val r : range_ok leap r ->
  pack r = 16777216 * (r.1 / 256) + 65536 * (r.2 / 256) + 256 * (r.1 mod 256) + r.2 mod 256 /\ 0 <= r.1 < 65536 /\ 0 <= r.2 < 65536.
Proof.
  intros ((m & d & H & Ef) & (m' & d' & H' & Et) & _). destruct (date_ok_bytes _ _ _ H), (date_ok_bytes _ _ _ H'). unfold pack. rewrite Ef, Et, newDateRange_val by lia.
  split; [|lia]. assert ((256 * m + d) / 256 = m) as -> by div_lia. assert ((256 * m' + d') / 256 = m') as -> by div_lia.
  assert ((256 * m + d) mod 256 = d) as -> by div_lia. assert ((256 * m' + d') mod 256 = d') as -> by div_lia. lia.
Qed.

(** The order of packed ranges extends the one that moves neither end back. *)
Definition before (r r' : Z * Z) : Prop := r.1 <= r'.1 /\ r.2 <= r'.2.

Lemma pack_before r r' : range_ok leap r -> range_ok leap r' -> before r r' -> pack r <= pack r'.
Proof.
  intros Hr Hr' [H1 H2]. destruct (pack_val r Hr) as (-> & ? & ?), (pack_val r' Hr') as (-> & ? & ?).
  pose proof (Z.div_mod r.1 256). pose proof (Z.div_mod r.2 256). pose proof (Z.div_mod r'.1 256). pose proof (Z.div_mod r'.2 256).
  pose proof (Z.mod_pos_bound r.1 256). pose proof (Z.mod_pos_bound r.2 256). pose proof (Z.mod_pos_bound r'.1 256). pose proof (Z.mod_pos_bound r'.2 256).
  assert (0 <= r.1 / 256 < 256 /\ 0 <= r.2 / 256 < 256 /\ 0 <= r'.1 / 256 < 256 /\ 0 <= r'.2 / 256 < 256) as Hb by (split_and!; div_lia). lia.
Qed.

Lemma pack_inj r r' : range_ok leap r -> range_ok leap r' -> pack r = pack r' -> r = r'.
Proof.
  intros (Hf & Ht & _) (Hf' & Ht' & _) E. destruct (dr_From_To year r.1 r.2 Hf Ht) as [E1 E2], (dr_From_To year r'.1 r'.2 Hf' Ht') as [E3 E4].
  fold (pack r) in E1, E2. fold (pack r') in E3, E4. rewrite E in E1, E2. destruct r, r'; cbn in *; congruence.
Qed.

(** No range lies inside another, unless they share an end. *)
Definition abreast (rs : list (Z * Z)) : Prop := forall r r', r ∈ rs -> r' ∈ rs -> before r r' \/ before r' r.

Lemma covers_perm rs rs' x : rs ≡ₚ rs' -> covers rs x <-> covers rs' x.
Proof. intros H. unfold covers. by setoid_rewrite H. Qed.

Lemma sorted_ranges rs : Forall (range_ok leap) rs -> abreast rs ->
  exists rs', slices_Sort (map pack rs) = map pack rs' /\ rs' ≡ₚ rs /\ StronglySorted Z.le (map fst rs') /\ StronglySorted Z.le (map snd rs').
Proof.
  intros Hok Hab. destruct (slices_Sort_spec (map pack rs)) as [Hp Hs]. apply Permutation_map_inv in Hp as (rs' & E & Hp). exists rs'.
  split; [done|]. split; [by symmetry|]. rewrite E in Hs. assert (StronglySorted before rs') as Hb.
  { assert (forall r, r ∈ rs' -> r ∈ rs) as Hin by (intros r Hr; by rewrite Hp). rewrite Forall_forall in Hok. clear E Hp. revert Hs Hin. induction rs' as [|r rs' IH]; intros Hs Hin; [constructor|].
    cbn in Hs. apply StronglySorted_inv in Hs as [Hs Hall]. constructor; [apply IH; [done|intros q Hq; apply Hin; by right]|].
    apply Forall_forall. intros q Hq. rewrite Forall_forall in Hall. assert (pack r <= pack q) as Hle by (apply Hall; by apply list_elem_of_fmap_2).
    assert (r ∈ rs) as Hr by (apply Hin; left). assert (q ∈ rs) as Hq' by (apply Hin; by right). destruct (Hab r q Hr Hq') as [Hb|Hb]; [done|].
    pose proof (pack_before q r (Hok _ Hq') (Hok _ Hr) Hb). rewrite (pack_inj r q); [by split|auto|auto|lia]. }
  split; (eapply StronglySorted_fmap; [|exact Hb]); intros r q [H1 H2]; done.
Qed.

Lemma sort_merge rs : Forall (range_ok leap) rs -> abreast rs ->
  exists R, DateRangeList_Merge (slices_Sort (map pack rs)) year = Ok (map pack R) /\ Forall (range_ok leap) R /\ apart R /\
    forall x, d_ok leap x -> covers R x <-> covers rs x.
Proof.
  intros Hok Hab. destruct (sorted_ranges rs Hok Hab) as (rs' & -> & Hp & Hf & Ht).
  assert (Forall (range_ok leap) rs') as Hok' by (by rewrite Hp). destruct (proj1 (DateRangeList_Merge_exact year rs' Hok' Hf Ht)) as (R & E & HR & Hsp & Hcov).
  exists R. split; [done|]. split; [done|]. split; [by apply spaced_apart|]. intros x Hx. rewrite Hcov by done. by apply covers_perm.
Qed.

(** *** Months *)

Definition month_range (m : Z) : Z * Z := (NewDate m 1, NewDate m (dim leap m)).

Lemma dim_pos m : 1 <= m <= 12 -> 1 <= dim leap m <= 31.
Proof.
  intros Hm. assert (date_ok leap m (dim leap m)) as H; [|destruct (date_ok_bytes _ _ _ H); lia].
  split; [done|]. split; [|lia]. assert (m ∈ seqZ 1 12) as Hin by (apply elem_of_seqZ; lia). clear -Hin. revert m Hin. apply Forall_forall.
  destruct leap; repeat constructor; vm_compute; congruence.
Qed.

Lemma month_range_ok m : 1 <= m <= 12 -> range_ok leap (month_range m).
Proof.
  intros Hm. pose proof (dim_pos m Hm). unfold month_range. split_and!; cbn [fst snd]; [apply d_ok_check; lia..|]. rewrite !NewDate_val by lia. lia.
Qed.

Lemma month_ranges_spec ms : Forall (fun m => 1 <= m <= 12) ms -> month_ranges year ms = Ok (map pack (map month_range ms)).
Proof.
  induction 1 as [|m ms Hm _ IH]; [done|]. cbn [month_ranges map]. rewrite DaysInMonth_spec by done. cbn [rbind]. rewrite IH. cbn [rbind]. f_equal. f_equal.
  pose proof (dim_pos m Hm). unfold month_range, pack. cbn [fst snd]. rewrite !NewDate_val, !newDate8_val by (fold leap; lia). done.
Qed.

Definition mirror (m : Z) : Z := (11 - m) mod 12 + 1.

Lemma mirrored_spec ms acc : Forall (fun m => 1 <= m <= 12) ms -> mirrored ms acc = Ok (acc ++ map mirror ms).
Proof.
  intros H. revert acc. induction H as [|m ms Hm _ IH]; intros acc; cbn [mirrored map]; [by rewrite app_nil_r|].
  assert (MirrorMonth m = Ok (mirror m)) as ->.
  { assert (m ∈ seqZ 1 12) as Hin by (apply elem_of_seqZ; lia). clear -Hin. revert m Hin. apply Forall_forall. repeat constructor. }
  cbn [rbind]. rewrite IH. by rewrite <- app_assoc.
Qed.

(** The months of a schedule, with those of its mirror. *)
Definition all_months (d : ScheduleDates) : list Z := Months d ++ if MirrorMonths d then map mirror (Months d) else [].

(** The ranges of a schedule: its months, its ranges and its dynamic ranges. *)
Definition all_ranges (d : ScheduleDates) (rs dyn : list (Z * Z)) : list (Z * Z) := map month_range (all_months d) ++ rs ++ dyn.

(** Schedules whose ranges exist in the year and do not lie inside each other;
    [dyn] are the dynamic ranges of the year. *)
Record schedule_ok (d : ScheduleDates) (rs dyn : list (Z * Z)) : Prop := {
  so_months : Forall (fun m => 1 <= m <= 12) (Months d);
  so_ranges : Ranges d = map pack rs;
  so_dynamic : truncateCalendarDates year (Dynamic_Evaluate (DynamicRanges d) year) = map pack dyn;
  so_ok : Forall (range_ok leap) rs /\ Forall (range_ok leap) dyn;
  so_abreast : abreast (map month_range (all_months d) ++ rs);
  so_merged : forall M, Forall (range_ok leap) M -> DateRangeList_MergeMonths (Ranges d) year (slices_Sort (all_months d)) = Ok (map pack M) -> abreast (M ++ dyn);
}.

Lemma all_months_ok d : Forall (fun m => 1 <= m <= 12) (Months d) -> Forall (fun m => 1 <= m <= 12) (all_months d).
Proof.
  intros H. apply Forall_app. split; [done|]. destruct (MirrorMonths d); [|constructor]. apply Forall_forall. intros m Hm. apply list_elem_of_fmap in Hm as (m' & -> & Hm').
  rewrite Forall_forall in H. specialize (H m' Hm'). unfold mirror. pose proof (Z.mod_pos_bound (11 - m') 12). lia.
Qed.

Lemma MergeMonths_spec rs ms : Forall (fun m => 1 <= m <= 12) ms -> Forall (range_ok leap) rs -> abreast (map month_range ms ++ rs) ->
  exists M, DateRangeList_MergeMonths (map pack rs) year (slices_Sort ms) = Ok (map pack M) /\ Forall (range_ok leap) M /\ apart M /\
    forall x, d_ok leap x -> covers M x <-> covers (map month_range ms ++ rs) x.
Proof.
  intros Hms Hrs Hab. destruct (slices_Sort_spec ms) as [Hp _]. assert (Forall (fun m => 1 <= m <= 12) (slices_Sort ms)) as Hms' by (by rewrite Hp).
  unfold DateRangeList_MergeMonths. rewrite month_ranges_spec by done. cbn [rbind]. rewrite <- map_app.
  assert (map month_range (slices_Sort ms) ++ rs ≡ₚ map month_range ms ++ rs) as Hperm.
  { apply Permutation_app_tail. exact (Permutation_map month_range Hp). }
  destruct (sort_merge (map month_range (slices_Sort ms) ++ rs)) as (M & E & HM & Ha & Hcov).
  - apply Forall_app. split; [|done]. apply Forall_forall. intros q Hq. apply list_elem_of_fmap in Hq as (m & -> & Hm). apply month_range_ok.
    rewrite Forall_forall in Hms'. auto.
  - intros r r' Hr Hr'. rewrite Hperm in Hr, Hr'. by apply Hab.
  - exists M. split; [done|]. split; [done|]. split; [done|]. intros x Hx. rewrite Hcov by done. by apply covers_perm.
Qed.

Lemma EvaluateDateRanges_spec d rs dyn b : schedule_ok d rs dyn -> range_ok leap b ->
  exists R, EvaluateDateRanges d year (pack b) = Ok (map pack R) /\ Forall (range_ok leap) R /\ apart R /\
    forall x, d_ok leap x -> covers R x <-> covers (all_ranges d rs dyn) x /\ includes (DateConstraints d) (on x) = true /\ b.1 <= x <= b.2.
Proof.
  intros [Hms Ers Edyn [Hrs Hdyn] Hab Hmerged] Hb. destruct (MergeMonths_spec rs (all_months d) (all_months_ok d Hms) Hrs Hab) as (M & EM & HM & _ & HcovM).
  rewrite <- Ers in EM. destruct (sort_merge (M ++ dyn)) as (M2 & E2 & HM2 & Ha2 & Hcov2); [by apply Forall_app|by apply (Hmerged M HM)|].
  destruct (constrained_ranges_spec (DateConstraints d) M2 HM2 Ha2) as (R & ER & HR & HaR & HcovR).
  destruct (Bound_spec b R Hb HR HaR) as (R' & ER' & HR' & HaR' & HcovR'). exists R'. split; [|split; [done|split; [done|]]].
  - unfold EvaluateDateRanges. assert ((if MirrorMonths d then mirrored (Months d) (Months d) else Ok (Months d)) = Ok (all_months d)) as ->.
    { unfold all_months. destruct (MirrorMonths d); [by apply mirrored_spec|by rewrite app_nil_r]. }
    cbn [rbind]. rewrite EM. cbn [rbind]. rewrite Edyn, <- map_app, E2. cbn [rbind]. rewrite ER. cbn [rbind app]. exact ER'.
  - intros x Hx. rewrite HcovR', HcovR, Hcov2, covers_app, HcovM by done. unfold all_ranges. rewrite !covers_app. tauto.
Qed.

Lemma apart_abreast R : Forall (range_ok leap) R -> apart R -> abreast R.
Proof.
  induction R as [|r R IH]; intros Hok Ha; [intros ? ? []%not_elem_of_nil|]. apply Forall_cons in Hok as [Hr Hok]. apply StronglySorted_inv in Ha as [Ha Hbefore].
  rewrite Forall_forall in Hbefore, Hok. specialize (IH ltac:(by apply Forall_forall) Ha). assert (forall q, q ∈ R -> before r q) as Hrq.
  { intros q Hq. specialize (Hbefore q Hq). cbn in Hbefore. destruct Hr as (_ & _ & H1), (Hok q Hq) as (_ & _ & H2). unfold before. lia. }
  intros p q Hp Hq. apply elem_of_cons in Hp as [->|Hp], Hq as [->|Hq]; [left; by split|left; auto|right; auto|auto].
Qed.

Lemma map_pack_inj M M' : Forall (range_ok leap) M -> Forall (range_ok leap) M' -> map pack M = map pack M' -> M = M'.
Proof.
  intros HM. revert M'. induction HM as [|m M Hm _ IH]; intros M' HM' E; destruct M' as [|m' M']; try discriminate; [done|].
  apply Forall_cons in HM' as [Hm' HM']. injection E as E1 E2. f_equal; [by apply pack_inj|by apply IH].
Qed.

(** Without dynamic ranges only months and ranges must not lie inside each other. *)
Lemma static_schedule_ok d rs : Forall (fun m => 1 <= m <= 12) (Months d) -> Ranges d = map pack rs -> DynamicRanges d = [] ->
  Forall (range_ok leap) rs -> abreast (map month_range (all_months d) ++ rs) -> schedule_ok d rs [].
Proof.
  intros Hms Ers Edyn Hrs Hab. constructor; [done|done|by rewrite Edyn|done|done|]. intros M HM EM. rewrite app_nil_r.
  destruct (MergeMonths_spec rs (all_months d) (all_months_ok d Hms) Hrs Hab) as (M' & EM' & HM' & Ha & _). rewrite Ers, EM' in EM. injection EM as EM.
  rewrite <- (map_pack_inj M' M HM' HM EM). by apply apart_abreast.
Qed.

Section scheduled.
Context {L C A : Type}.
Context (sort_Slice : (ActionSpec L C A -> ActionSpec L C A -> bool) -> list (ActionSpec L C A) -> list (ActionSpec L C A)).
Context (sch : AnnualScheduler L C A) (place : Place L C).

(** Stopping at a day ends the outer loop as well. *)
Lemma returned_flag l {S} (yield : Scheduled_ L C A -> S -> res (bool * S)) (s : S) (k : S -> res S) :
  (let! (s, returned) := range_list l (fun day '(s, _) =>
     let! (more, s) := yield (day_schedule sort_Slice sch place day) s in Ok (more, (s, negb more))) (s, false) in
   if (returned : bool) then Ok s else k s) =
  (let! (more, s) := range_list (map (day_schedule sort_Slice sch place) l) (fun a '(_, s) => let! (more, s) := yield a s in Ok (more, (more, s))) (true, s) in
   if (more : bool) then k s else Ok s).
Proof.
  revert s. induction l as [|day l IH]; intros s; [done|]. cbn [range_list map]. destruct (yield _ s) as [[[] s']| |]; cbn [rbind negb]; [apply IH|done..].
Qed.

Lemma range_more {B S} (l k : list B) (yield : B -> S -> res (bool * S)) (s : S) :
  (let! (more, s) := range_list l (fun a '(_, s) => let! (more, s) := yield a s in Ok (more, (more, s))) (true, s) in
   if (more : bool) then range_list k yield s else Ok s) = range_list (l ++ k) yield s.
Proof.
  revert s. induction l as [|a l IH]; intros s; [done|]. cbn [range_list app]. destruct (yield a s) as [[[] s']| |]; cbn [rbind]; [apply IH|done..].
Qed.

Lemma scheduled_ranges_spec R : Forall (range_ok leap) R -> apart R ->
  exists l, StronglySorted Z.lt l /\ (forall cd, cd ∈ l <-> exists x, d_ok leap x /\ cd = on x /\ covers R x) /\
    forall S (yield : Scheduled_ L C A -> S -> res (bool * S)) s, scheduled_ranges sort_Slice sch year place (map pack R) yield s =
      range_list (map (day_schedule sort_Slice sch place) l) yield s.
Proof.
  induction R as [|r R IH]; intros HR Ha.
  - exists []. split; [constructor|]. split; [|done]. intros cd. unfold covers. setoid_rewrite elem_of_nil. naive_solver.
  - apply Forall_cons in HR as [Hr HR]. apply StronglySorted_inv in Ha as [Ha Hbefore]. destruct (IH HR Ha) as (l & Hs & Hin & Hrun).
    destruct (dr_Dates_pack r Hr) as (l0 & Hs0 & Hin0 & Hrun0). exists (l0 ++ l). split_and!.
    + apply StronglySorted_app_2; [|done..]. intros c1 c2 H1 H2. apply Hin0 in H1 as (x1 & _ & -> & Hx1). apply Hin in H2 as (x2 & _ & -> & q & Hq & Hxq).
      rewrite Forall_forall in Hbefore. specialize (Hbefore q Hq). cbn in Hbefore. unfold on. lia.
    + intros cd. rewrite elem_of_app, Hin0, Hin. setoid_rewrite covers_cons. split; [intros [(x & ? & ? & ?)|(x & ? & ? & ?)]; exists x; auto|].
      intros (x & Hx & -> & [H|H]); [left|right]; by exists x.
    + intros S yield s. cbn [map scheduled_ranges]. rewrite Hrun0. rewrite (returned_flag l0 yield s (fun s => scheduled_ranges sort_Slice sch year place (map pack R) yield s)).
      rewrite map_app, <- (range_more _ _ yield s). destruct (range_list _ _ _) as [[[] s']| |]; cbn [rbind]; [by rewrite Hrun|done..].
Qed.
End scheduled.
End year.

(** *** The order of actions *)

Lemma by_due_and_name_order {L C A} : (forall x y : ActionSpec L C A, by_due_and_name x y = true -> by_due_and_name y x = false) /\
  (forall x y z : ActionSpec L C A, by_due_and_name y x = false -> by_due_and_name z y = false -> by_due_and_name z x = false).
Proof.
  unfold by_due_and_name. split.
  - intros x y. rewrite (Z.eqb_sym (Due y)). destruct (Z.eqb_spec (Due x) (Due y)); [apply str_ltb_asym|]. rewrite Z.ltb_lt, Z.ltb_ge. lia.
  - intros x y z. destruct (Z.eqb_spec (Due y) (Due x)), (Z.eqb_spec (Due z) (Due y)), (Z.eqb_spec (Due z) (Due x)); try lia; rewrite ?Z.ltb_ge; try lia. apply str_ltb_negtrans.
Qed.

(** ** Properties *)

(** C11: A schedule visits, in order and once each, the days of the year that one
    of its months, mirrored months, ranges or dynamic ranges holds, that the
    constraints include and that lie within the bounds; each comes with its
    actions evaluated for the day and sorted by due time and name, and the
    consumer may stop at any day.  No range may lie inside another, and the ranges and
    the dynamic ranges exist in the year. *)
Theorem Scheduled_days {L C A : Type} (sort_Slice : (ActionSpec L C A -> ActionSpec L C A -> bool) -> list (ActionSpec L C A) -> list (ActionSpec L C A))
  (Hsort : SortSlice sort_Slice) (sch : AnnualScheduler L C A) (place : Place L C) (year : Z) (Hyear : 0 <= year < 65535)
  (d : ScheduleDates) (rs dyn : list (Z * Z)) (b : Z * Z) (Hd : schedule_ok year d rs dyn) (Hb : range_ok (IsLeap year) b) :
  exists it days, Scheduled sort_Slice sch year place d (pack b) = Ok it /\
    StronglySorted Z.lt days /\
    (forall cd, cd ∈ days <-> exists x, d_ok (IsLeap year) x /\ cd = on year x /\ covers (all_ranges year d rs dyn) x /\
       includes (DateConstraints d) cd = true /\ b.1 <= x <= b.2) /\
    (forall S (yield : Scheduled_ L C A -> S -> res (bool * S)) s, it S yield s = range_list (map (day_schedule sort_Slice sch place) days) yield s) /\
    forall day, let specs := Specs (day_schedule sort_Slice sch place day) in
      specs ≡ₚ map (fun a => Evaluate a day place) (actions sch) /\ StronglySorted (fun x y => by_due_and_name y x = false) specs.
Proof.
  destruct (EvaluateDateRanges_spec year Hyear d rs dyn b Hd Hb) as (R & E & HR & HaR & Hcov).
  destruct (scheduled_ranges_spec year Hyear sort_Slice sch place R HR HaR) as (l & Hs & Hin & Hrun).
  unfold Scheduled. rewrite E. cbn [rbind]. eexists _, l. split; [done|]. split; [done|]. split; [|split; [exact Hrun|]].
  - intros cd. rewrite Hin. split; intros (x & Hx & -> & H); exists x; rewrite Hcov in * by done; tauto.
  - intros day. split; [apply (sort_perm (sort := sort_Slice))|]. apply (sort_ordered (sort := sort_Slice)); apply by_due_and_name_order.
Qed.

(** January, its mirror November and a range, on weekends, within ten months. *)
Definition weekends : ScheduleDates := MkDates [1] true [newDateRange (NewDate 2 28) (NewDate 3 3)] [] (MkConstraints false true [] [] []).


Lemma weekends_ok : schedule_ok 2024 weekends [(NewDate 2 28, NewDate 3 3)] [].
Proof.
  apply static_schedule_ok; [lia|by repeat constructor|done|done| |].
  - apply Forall_singleton. split_and!; cbn [fst snd]; [apply d_ok_check; vm_compute; (split; congruence)..|vm_compute; congruence].
  - assert (map (month_range 2024) (all_months weekends) ++ [(NewDate 2 28, NewDate 3 3)] = [(257, 287); (2817, 2846); (540, 771)]) as -> by (vm_compute; reflexivity).
    intros r r' Hr Hr'. rewrite !elem_of_cons, elem_of_nil in Hr, Hr'. destruct Hr as [->|[->|[->|[]]]], Hr' as [->|[->|[->|[]]]]; unfold before; cbn [fst snd]; lia.
Qed.

(** What a schedule yields, as the days. *)
Definition days_of {L C A} (it : res (seq_iter (Scheduled_ L C A))) : res (list Z) :=
  let! it := it in it (list Z) (fun s days => Ok (true, days ++ [SDate s])) [].

Example weekend_days : days_of (Scheduled (L := unit) (C := unit) (A := unit) (fun less => SliceStable less) (NewAnnualScheduler []) 2024 (MkPlace tt tt) weekends
    (newDateRange (NewDate 1 14) (NewDate 11 5))) =
  Ok (map (fun '(m, d) => NewCalendarDate 2024 m d) [(1, 14); (1, 20); (1, 21); (1, 27); (1, 28); (3, 2); (3, 3); (11, 2); (11, 3)]).
Proof. vm_compute. reflexivity. Qed.

Lemma Scheduled_days_witness : exists it days,
  Scheduled (L := unit) (C := unit) (A := unit) (fun less => SliceStable less) (NewAnnualScheduler []) 2024 (MkPlace tt tt) weekends
    (pack (NewDate 1 14, NewDate 11 5)) = Ok it /\ StronglySorted Z.lt days.
Proof.
  destruct (Scheduled_days (L := unit) (C := unit) (A := unit) (fun less => SliceStable less) SliceStable_sorts (NewAnnualScheduler []) (MkPlace tt tt) 2024 ltac:(lia)
    weekends _ _ (NewDate 1 14, NewDate 11 5) weekends_ok) as (it & days & E & Hs & _).
  - split_and!; cbn [fst snd]; [apply d_ok_check; vm_compute; (split; congruence)..|vm_compute; congruence].
  - exists it, days. split; [exact E|exact Hs].
Defined.

(** A dynamic range outside the year is truncated to the zero range: alone it
    schedules the whole of January, and with other ranges its month is looked up
    below the table of days. *)
Definition next_year (others : list Z) : ScheduleDates :=
  MkDates [] false others [fun year => newCalendarDateRange (NewCalendarDate (year + 1) 6 1) (NewCalendarDate (year + 1) 6 2)] (MkConstraints false false [] [] []).

Lemma dynamic_outside_year :
  EvaluateDateRanges (next_year []) 2024 DateRangeYear = Ok [newDateRange (NewDate 1 1) (NewDate 1 31)] /\
  EvaluateDateRanges (next_year [newDateRange (NewDate 5 1) (NewDate 5 2)]) 2024 DateRangeYear = Panic.
Proof. vm_compute. done. Qed.

(** A range inside another that begins in the same month and ends later is
    sorted before it, and the days before the inner one are lost. *)
Lemma inner_range_first :
  EvaluateDateRanges (MkDates [] false [newDateRange (NewDate 1 5) (NewDate 2 3); newDateRange (NewDate 1 20) (NewDate 1 25)] [] (MkConstraints false false [] [] [])) 2024 DateRangeYear =
    Ok [newDateRange (NewDate 1 20) (NewDate 2 3)].
Proof. vm_compute. reflexivity. Qed.
