(* ===== verification/Repeats.v ===== *)
(** * The actions of a day (datetime/schedule: daily.go, repeats.go)

    The actions of a day and their repetitions come out of a heap of the instants
    at which they are due next.  The reference gives each action its own list of
    instants: as many as are asked for and fit into the day.

    An instant is a number of seconds since 1970; a location is the offset of its
    time zone from UTC, in seconds, at each instant, which is what the zone data
    of the operating system hold. *)

From stdpp Require Import base list option numbers gmap sorting.
From Stdlib Require Import ZArith Lia.
From stdpp Require Import list.
From S2P Require Import Prelude Heap Dates Text DateText Schedule.

Open Scope Z_scope.
Open Scope go_scope.

(** ** Instants *)

Record Location := MkLocation { zone : Z -> Z }.
Definition UTC : Location := MkLocation (fun _ => 0).

(** The number of a day of the proleptic Gregorian calendar; like [time.Date] it
    takes months before January and after December to other years. *)
Definition civil_day (y m d : Z) : Z :=
  let y' := y + (m - 1) / 12 in
  let m' := (m - 1) mod 12 + 1 in
  before_year y' + before_month (IsLeap y') m' + d.
Definition epoch : Z := civil_day 1970 1 1.

(** [time.Date(y, m, d, h, mi, s, 0, loc).Unix()]: the offset is looked up at the
    fields read as UTC, and once more at the instant this gives. *)
Definition time_Date (y m d h mi s : Z) (loc : Location) : Z :=
  let unix := 86400 * (civil_day y m d - epoch) + 3600 * h + 60 * mi + s in
  let offset := zone loc unix in
  if offset =? 0 then unix else unix - zone loc (unix - offset).

(** [CalendarDate.Time] (calendar.go). *)
Definition CalendarDate_Time (cd tod : Z) (loc : Location) : Z :=
  time_Date (Year cd) (Month cd) (Day cd) (Hour tod) (Minute tod) (Second tod) loc.

(** The day of an instant: two instants have the same [Year], [Month] and [Day]
    when it is the same. *)
Definition local_day (loc : Location) (secs : Z) : Z := (secs + zone loc secs) / 86400.

(** ** The heap of repetitions (repeats.go) *)

Section repeats.
Context {C A : Type}.

Record heapEntry := MkEntry {
  hname : str;
  hrepeat : Z;          (** nanoseconds *)
  hbounded : bool;
  numRepeats : Z;
  ht : A;
}.

#[export] Instance heapEntry_eq `{EqDecision A} : EqDecision heapEntry.
Proof. solve_decision. Defined.

Definition repeatManager : Type := T Z heapEntry.

(** The body of the loop over the evaluated actions. *)
Definition entry_of (a : ActionSpec Location C A) : heapEntry :=
  MkEntry (Name a) (Interval (Repeat a))
    (negb (Interval (Repeat a) =? 0) && negb (Repeats (Repeat a) =? 0)) (Repeats (Repeat a)) (Value a).

Fixpoint push_actions (h : repeatManager) (cd : Z) (loc : Location) (evaluated : list (ActionSpec Location C A)) : res repeatManager :=
  match evaluated with
  | [] => Ok h
  | a :: evaluated =>
      let! h := t_Push Z.ltb h (CalendarDate_Time cd (Due a) loc) (entry_of a) in
      push_actions h cd loc evaluated
  end.

Definition newRepeatManager (acts : list (ActionSpec Location C A)) (cd : Z) (place : Place Location C) : res repeatManager :=
  let evaluated := EvaluateAll acts cd place in
  let! h := NewMin Z.ltb [WithSliceCap (length acts)] in
  push_actions h cd (TimeLocation place) evaluated.

Definition hasActions (rm : repeatManager) : bool := (0 <? length (Keys rm))%nat.

(** [when.Add(he.repeat).Unix()]: the instants of the heap are whole seconds. *)
Definition nextTime (secs repeat : Z) : Z := (secs * second_ns + repeat) / second_ns.

Definition manage (rm : repeatManager) (loc : Location) : res (repeatManager * (Z * heapEntry)) :=
  let! (h, (secs, he)) := t_Pop Z.ltb rm in
  if (hrepeat he =? 0) || (hbounded he && (numRepeats he =? 0)) then Ok (h, (secs, he))
  else
    let next := nextTime secs (hrepeat he) in
    if negb (local_day loc next =? local_day loc secs) then Ok (h, (secs, he))
    else
      let he := if hbounded he then MkEntry (hname he) (hrepeat he) (hbounded he) (int64 (numRepeats he - 1)) (ht he) else he in
      let! h := t_Push Z.ltb h next he in
      Ok (h, (secs, he)).

(** ** The iterator over the actions of a day (daily.go) *)

Record Active_ := MkActive { AName : str; When : Z; AValue : A }.

(** The manager belongs to the iterator, not to one loop over it. *)
Fixpoint active_loop (fuel : nat) (loc : Location) (rm : repeatManager) {S} (yield : Active_ -> S -> res (bool * S)) (s : S) :
    res (repeatManager * S) :=
  match fuel with
  | O => NoFuel
  | Datatypes.S fuel =>
      if hasActions rm then
        let! (rm, (when, he)) := manage rm loc in
        let! (more, s) := yield (MkActive (hname he) when (ht he)) s in
        if more then active_loop fuel loc rm yield s else Ok (rm, s)
      else Ok (rm, s)
  end.

(** One loop over the iterator of [Active]. *)
Definition Active (fuel : nat) (sch : Scheduled_ Location C A) (place : Place Location C) {S} (yield : Active_ -> S -> res (bool * S)) (s : S) : res S :=
  let! rm := newRepeatManager (Specs sch) (SDate sch) place in
  let! (_, s) := active_loop fuel (TimeLocation place) rm yield s in Ok s.

(** ** The instants of one action *)

(** How often an action may be repeated. *)
Definition limit_of (he : heapEntry) : option Z :=
  if hrepeat he =? 0 then Some 0 else if hbounded he then Some (numRepeats he) else None.

(** [n] instants from [s] on, a step apart: they are all of one day and there
    are no more than the limit allows, and either the limit is reached or the next
    instant is of another day. *)
Record occurrences (loc : Location) (s step : Z) (limit : option Z) (n : nat) : Prop := {
  oc_one : (1 <= n)%nat;
  oc_limit : forall r, limit = Some r -> Z.of_nat n <= r + 1;
  oc_day : forall k, 0 <= k < Z.of_nat n - 1 -> local_day loc (s + k * step) = local_day loc (s + (k + 1) * step);
  oc_last : limit = Some (Z.of_nat n - 1) \/ local_day loc (s + (Z.of_nat n - 1) * step) <> local_day loc (s + Z.of_nat n * step);
}.

Definition instants (he : heapEntry) (s step : Z) (n : nat) : list Active_ :=
  (fun k => MkActive (hname he) (s + k * step) (ht he)) <$> seqZ 0 (Z.of_nat n).

Definition step_of (he : heapEntry) : Z := hrepeat he / second_ns.

(** Repetitions that make progress: none, or at least a second apart. *)
Definition entry_ok (he : heapEntry) : Prop :=
  (hrepeat he = 0 \/ second_ns <= hrepeat he) /\ 0 <= numRepeats he < 2 ^ 63.

(** Offsets of less than a day. *)
Class ZoneLaw (loc : Location) : Prop := zone_bounded : forall t, -86400 < zone loc t < 86400.

(** What is still to come from the entries of a heap. *)
Inductive pending (loc : Location) : list (Z * heapEntry) -> list Active_ -> Prop :=
| pending_nil : pending loc [] []
| pending_cons s he n h out : entry_ok he -> occurrences loc s (step_of he) (limit_of he) n -> pending loc h out ->
    pending loc ((s, he) :: h) (instants he s (step_of he) n ++ out).

Lemma pending_perm loc h h' out : h ≡ₚ h' -> pending loc h out -> exists out', pending loc h' out' /\ out' ≡ₚ out.
Proof.
  intros Hp. revert out. induction Hp as [|[s he] h h' _ IH|[s he] [s' he'] h|h1 h2 h3 _ IH1 _ IH2]; intros out Ho.
  - by exists out.
  - inversion Ho as [|? ? n ? out0 He Hn Ho']; subst. destruct (IH _ Ho') as (out' & Ho1 & Hp1). eexists. split; [by apply pending_cons|by rewrite Hp1].
  - inversion Ho as [|? ? n ? out0 He Hn Ho']; subst. inversion Ho' as [|? ? n' ? out1 He' Hn' Ho1]; subst.
    eexists. split; [apply pending_cons; [done..|]; by apply pending_cons|]. rewrite !app_assoc. f_equiv. apply Permutation_app_comm.
  - destruct (IH1 _ Ho) as (o1 & H1 & P1). destruct (IH2 _ H1) as (o2 & H2 & P2). exists o2. split; [done|]. by rewrite P2.
Qed.

Lemma step_nonneg he : entry_ok he -> 0 <= step_of he /\ (hrepeat he <> 0 -> 1 <= step_of he).
Proof.
  intros [H _]. unfold step_of, second_ns in *. destruct H as [H|H]; [rewrite H; split; [done|lia]|].
  split; [|intros _]; apply Z.div_le_lower_bound; lia.
Qed.

Lemma nextTime_step s he : nextTime s (hrepeat he) = s + step_of he.
Proof. unfold nextTime, step_of. by rewrite Z.add_comm, Z.div_add, Z.add_comm by done. Qed.

Lemma instants_S he s step n : instants he s step (S n) = MkActive (hname he) s (ht he) :: instants he (s + step) step n.
Proof.
  unfold instants. rewrite seqZ_cons by lia. rewrite fmap_cons. f_equal; [f_equal; lia|]. replace (Z.pred (Z.of_nat (S n))) with (Z.of_nat n) by lia.
  change (Z.succ 0) with (1 + 0). rewrite <- fmap_add_seqZ, <- list_fmap_compose. apply list_fmap_ext. intros i k _. unfold compose. f_equal. lia.
Qed.

(** Every action has a number of instants. *)
Lemma occurrences_exist loc `{!ZoneLaw loc} he s : entry_ok he -> exists n, occurrences loc s (step_of he) (limit_of he) n.
Proof.
  intros He. destruct (step_nonneg he He) as [Hstep Hpos]. set (step := step_of he) in *.
  assert (forall (fuel : nat) s limit, (forall r, limit = Some r -> 0 <= r) -> (limit = Some 0 \/ 1 <= step) ->
    86400 * (local_day loc s + 1) + 86400 - s < Z.of_nat fuel -> exists n, occurrences loc s step limit n) as H.
  { induction fuel as [|fuel IH]; intros t limit Hlim Hor Hf.
    - exists 1%nat. exfalso. unfold local_day in Hf. pose proof (zone_bounded t). pose proof (Z.mod_pos_bound (t + zone loc t) 86400). pose proof (Z.div_mod (t + zone loc t) 86400). lia.
    - destruct (decide (limit = Some 0)) as [->|Hl].
      { exists 1%nat. constructor; [lia|intros r [= <-]; lia|intros k Hk; lia|by left]. }
      destruct Hor as [|Hs]; [done|].
      destruct (decide (local_day loc t = local_day loc (t + step))) as [Hd|Hd].
      + destruct (IH (t + step) (option_map (fun r => r - 1) limit)) as [n [H1 H2 H3 H4]]; [|by right| |].
        * intros r Hr. destruct limit as [r'|]; [|done]. injection Hr as <-. specialize (Hlim r' eq_refl). assert (r' <> 0) by congruence. lia.
        * rewrite <- Hd. lia.
        * exists (S n). constructor; [lia| | |].
          -- intros r ->. specialize (H2 _ eq_refl). lia.
          -- intros k Hk. destruct (decide (k = 0)) as [->|Hk0]; [replace (t + 0 * step) with t by lia; replace (t + (0 + 1) * step) with (t + step) by lia; done|].
             replace (t + k * step) with (t + step + (k - 1) * step) by lia. replace (t + (k + 1) * step) with (t + step + (k - 1 + 1) * step) by lia. apply H3. lia.
          -- destruct H4 as [H4|H4]; [left; destruct limit as [r|]; [|done]; injection H4 as H4; f_equal; lia|right].
             replace (t + (Z.of_nat (S n) - 1) * step) with (t + step + (Z.of_nat n - 1) * step) by lia.
             by replace (t + Z.of_nat (S n) * step) with (t + step + Z.of_nat n * step) by lia.
      + exists 1%nat. constructor; [lia|intros r ->; specialize (Hlim r eq_refl); lia|intros k Hk; lia|right].
        change (Z.of_nat 1) with 1. replace (t + (1 - 1) * step) with t by lia. by replace (t + 1 * step) with (t + step) by lia. }
  eapply (H (Z.to_nat (86400 * (local_day loc s + 1) + 86400 - s + 1))); [| |lia].
  - intros r. unfold limit_of. destruct He as [_ Hn]. destruct (hrepeat he =? 0), (hbounded he); intros [= <-]; lia.
  - unfold limit_of. destruct (Z.eqb_spec (hrepeat he) 0); [by left|right; auto].
Qed.
End repeats.
Arguments heapEntry : clear implicits.
Arguments repeatManager : clear implicits.
Arguments Active_ : clear implicits.

(** ** The heap and what is to come *)

Section refine.
Context {C A : Type} `{EqDecision A} (loc : Location).

Lemma instants_ge he (s step k : Z) n : k <= s -> 0 <= step -> Forall (fun a : Active_ A => k <= When a) (instants he s step n).
Proof.
  intros Hk Hstep. apply Forall_fmap, Forall_seqZ. intros j Hj. cbn. nia.
Qed.

Lemma pending_ge k h (out : list (Active_ A)) : pending loc h out -> Forall (fun y => k <= y.1) h -> Forall (fun a => k <= When a) out.
Proof.
  induction 1 as [|s he n h out He Hn _ IH]; intros Hh; [constructor|]. apply Forall_cons in Hh as [Hs Hh]. apply Forall_app. split; [|auto].
  apply instants_ge; [done|]. by apply step_nonneg.
Qed.

(** The instants after the first. *)
Lemma occurrences_next s step limit n : occurrences loc s step limit (S (S n)) ->
  occurrences loc (s + step) step (option_map (fun r => r - 1) limit) (S n) /\ local_day loc (s + step) = local_day loc s.
Proof.
  intros [H1 H2 H3 H4]. split.
  - constructor; [lia| | |].
    + intros r Hr. destruct limit as [r'|]; [|done]. injection Hr as <-. specialize (H2 r' eq_refl). lia.
    + intros k Hk. replace (s + step + k * step) with (s + (k + 1) * step) by lia. replace (s + step + (k + 1) * step) with (s + (k + 1 + 1) * step) by lia. apply H3. lia.
    + destruct H4 as [->|H4]; [left; cbn; f_equal; lia|right].
      replace (s + step + (Z.of_nat (S n) - 1) * step) with (s + (Z.of_nat (S (S n)) - 1) * step) by lia.
      by replace (s + step + Z.of_nat (S n) * step) with (s + Z.of_nat (S (S n)) * step) by lia.
  - specialize (H3 0 ltac:(lia)). replace (s + 0 * step) with s in H3 by lia. by replace (s + (0 + 1) * step) with (s + step) in H3 by lia.
Qed.

Lemma occurrences_single s step limit n : occurrences loc s step limit n -> limit = Some 0 \/ local_day loc (s + step) <> local_day loc s -> n = 1%nat.
Proof.
  intros Ho Hor. pose proof (oc_one _ _ _ _ _ Ho). destruct n as [|[|n]]; [lia|done|]. destruct Hor as [->|Hd].
  - pose proof (oc_limit _ _ _ _ _ Ho 0 eq_refl). lia.
  - by destruct (occurrences_next _ _ _ _ Ho).
Qed.

Lemma occurrences_more s step limit n : occurrences loc s step limit n -> limit <> Some 0 -> local_day loc (s + step) = local_day loc s ->
  exists n', n = S (S n').
Proof.
  intros Ho Hl Hd. pose proof (oc_one _ _ _ _ _ Ho). destruct n as [|[|n]]; [lia| |by exists n]. destruct (oc_last _ _ _ _ _ Ho) as [->|H4]; [done|].
  change (Z.of_nat 1) with 1 in H4. replace (s + (1 - 1) * step) with s in H4 by lia. replace (s + 1 * step) with (s + step) in H4 by lia. by rewrite Hd in H4.
Qed.

(** The entry that is pushed again. *)
Definition again (he : heapEntry A) : heapEntry A :=
  if hbounded he then MkEntry (hname he) (hrepeat he) (hbounded he) (int64 (numRepeats he - 1)) (ht he) else he.

Lemma again_ok he : entry_ok he -> limit_of he <> Some 0 -> entry_ok (again he) /\ limit_of (again he) = option_map (fun r => r - 1) (limit_of he).
Proof.
  intros [Hr Hn] Hl. unfold again, limit_of, entry_ok in *. destruct (Z.eqb_spec (hrepeat he) 0) as [E|E]; [done|].
  destruct (hbounded he) eqn:Eb; cbn [hrepeat hbounded numRepeats]; rewrite ?(proj2 (Z.eqb_neq _ _) E), ?Eb; [|done].
  assert (numRepeats he <> 0) by congruence. rewrite int64_id by (unfold int64_ok; lia). split; [split; [done|lia]|done].
Qed.

Lemma again_same he s n : instants (again he) s (step_of (again he)) n = instants he s (step_of he) n.
Proof. unfold again, instants, step_of. by destruct (hbounded he). Qed.

(** [manage] takes out the earliest of the instants that are to come. *)
Lemma manage_spec (rm : repeatManager A) out : T_wf Z.ltb rm -> max rm = false -> pending loc (view rm) out -> hasActions rm = true ->
  exists rm' when he out', manage rm loc = Ok (rm', (when, he)) /\ T_wf Z.ltb rm' /\ max rm' = false /\ pending loc (view rm') out' /\
    MkActive (hname he) when (ht he) :: out' ≡ₚ out /\ Forall (fun a => when <= When a) out'.
Proof.
  intros Hwf Hmax Hp Hne. unfold hasActions in Hne. apply Nat.ltb_lt in Hne. pose proof Hwf as [Hok _].
  destruct (Keys rm !! 0%nat) as [k|] eqn:Ek; [|apply lookup_ge_None in Ek; lia]. destruct (Vals rm !! 0%nat) as [he|] eqn:Ev; [|apply lookup_ge_None in Ev; unfold t_ok in Hok; lia].
  destruct (t_Pop_spec Z.ltb rm k he Hwf Ek Ev) as (h & Epop & Hwf' & Hview & Hm & Hmin).
  symmetry in Hview. destruct (pending_perm _ _ _ _ Hview Hp) as (out1 & Hp1 & Eout1). inversion Hp1 as [|? ? n ? out0 He Hn Hp0]; subst. clear Hp1.
  assert (Forall (fun y => k <= y.1) (view h)) as Hge.
  { apply Forall_forall. intros y Hy. specialize (Hmin y Hy). rewrite Hmax in Hmin. unfold kless in Hmin. cbn in Hmin. by apply Z.ltb_ge in Hmin. }
  pose proof (pending_ge k _ _ Hp0 Hge) as Hge0. assert (max h = false) as Hmaxh by (by rewrite (mt_max _ _ Hm)). unfold manage. rewrite Epop. cbn [rbind].
  assert ((hrepeat he =? 0) || (hbounded he && (numRepeats he =? 0)) = true <-> limit_of he = Some 0) as Hstop.
  { unfold limit_of. destruct (Z.eqb_spec (hrepeat he) 0); [done|]. destruct (hbounded he); [|done]. cbn. rewrite Z.eqb_eq. split; [by intros ->|by intros [= ->]]. }
  assert (n = 1%nat -> MkActive (hname he) k (ht he) :: out0 ≡ₚ out) as H1 by (intros ->; rewrite <- Eout1, instants_S; done).
  destruct (_ || _) eqn:Es; [exists h, k, he, out0; split_and!; try done; apply H1; by apply (occurrences_single _ _ _ _ Hn); left; apply Hstop|].
  assert (limit_of he <> Some 0) as Hl by (intros Hl; apply Hstop in Hl; congruence). clear Hstop. rewrite nextTime_step. cbv zeta.
  destruct (Z.eqb_spec (local_day loc (k + step_of he)) (local_day loc k)) as [Hd|Hd]; cbn [negb];
    [|exists h, k, he, out0; split_and!; try done; apply H1; by apply (occurrences_single _ _ _ _ Hn); right].
  destruct (occurrences_more _ _ _ _ Hn Hl Hd) as [n' ->]. destruct (occurrences_next _ _ _ _ Hn) as [Hn' _]. destruct (again_ok he He Hl) as [He' Hl'].
  fold (again he). destruct (t_Push_spec Z.ltb h (k + step_of he) (again he) Hwf') as (h' & Epush & Hwf2 & Hview2 & Hm2). rewrite Epush. cbn [rbind].
  assert (step_of (again he) = step_of he) as Estep by (unfold again, step_of; by destruct (hbounded he)).
  assert (pending loc ((k + step_of he, again he) :: view h) (instants (again he) (k + step_of he) (step_of (again he)) (S n') ++ out0)) as Hp2.
  { apply pending_cons; [done| |done]. by rewrite Estep, Hl'. }
  symmetry in Hview2. destruct (pending_perm _ _ _ _ Hview2 Hp2) as (out2 & Hp3 & Eout2). exists h', k, (again he), out2.
  assert (MkActive (hname (again he)) k (ht (again he)) = MkActive (hname he) k (ht he)) as -> by (unfold again; by destruct (hbounded he)).
  split_and!; [done|done|rewrite (mt_max _ _ Hm2); exact Hmaxh|done| |].
  - rewrite Eout2, <- Eout1, again_same, (instants_S he k). done.
  - rewrite Eout2. apply Forall_app. split; [|done]. rewrite Estep. pose proof (step_nonneg he He). apply instants_ge; lia.
Qed.
End refine.

Section loop.
Context {C A : Type} `{EqDecision A} (loc : Location).

Definition no_later (a b : Active_ A) : Prop := When a <= When b.

Lemma active_loop_spec N : forall (rm : repeatManager A) out, T_wf Z.ltb rm -> max rm = false -> pending loc (view rm) out -> length out = N ->
  exists out', out' ≡ₚ out /\ StronglySorted no_later out' /\
    forall (fuel : nat) S (yield : Active_ A -> S -> res (bool * S)) s, (N < fuel)%nat ->
      (let! (_, s) := active_loop fuel loc rm yield s in Ok s) = range_list out' yield s.
Proof.
  induction N as [|N IH]; intros rm out Hwf Hmax Hp Hlen.
  - apply nil_length_inv in Hlen as ->. exists []. split; [done|]. split; [constructor|]. intros [|fuel] S yield s Hf; [lia|]. cbn [active_loop].
    destruct (hasActions rm) eqn:Eh; [|done]. exfalso. destruct (manage_spec loc rm [] Hwf Hmax Hp Eh) as (rm' & w & he & out' & _ & _ & _ & _ & Hperm & _).
    symmetry in Hperm. by apply Permutation_nil_cons in Hperm.
  - destruct (hasActions rm) eqn:Eh.
    + destruct (manage_spec loc rm out Hwf Hmax Hp Eh) as (rm' & w & he & out1 & Em & Hwf' & Hmax' & Hp' & Hperm & Hge).
      destruct (IH rm' out1 Hwf' Hmax' Hp') as (out' & Eout & Hs & Hrun); [apply Permutation_length in Hperm; cbn in Hperm; lia|].
      exists (MkActive (hname he) w (ht he) :: out'). split; [by rewrite Eout|]. split; [constructor; [done|by rewrite Eout]|].
      intros [|fuel] S yield s Hf; [lia|]. cbn [active_loop range_list]. rewrite Eh, Em. cbn [rbind].
      destruct (yield _ s) as [[[] s']| |]; cbn [rbind]; [apply Hrun; lia|done..].
    + exfalso. unfold hasActions in Eh. apply Nat.ltb_ge in Eh. assert (view rm = []) as Ev by (apply nil_length_inv; rewrite length_view by apply Hwf; lia).
      rewrite Ev in Hp. inversion Hp; subst. done.
Qed.

(** The actions pushed: each of them is in the heap. *)
Lemma push_actions_spec (h : repeatManager A) cd (evaluated : list (ActionSpec Location C A)) : T_wf Z.ltb h -> max h = false ->
  exists rm, push_actions h cd loc evaluated = Ok rm /\ T_wf Z.ltb rm /\ max rm = false /\
    view rm ≡ₚ map (fun a => (CalendarDate_Time cd (Due a) loc, entry_of a)) evaluated ++ view h.
Proof.
  revert h. induction evaluated as [|a evaluated IH]; intros h Hwf Hmax; [by exists h|]. cbn [push_actions map].
  destruct (t_Push_spec Z.ltb h (CalendarDate_Time cd (Due a) loc) (entry_of a) Hwf) as (h' & E & Hwf' & Hview & Hm). rewrite E. cbn [rbind].
  destruct (IH h' Hwf') as (rm & Erm & H1 & H2 & H3); [by rewrite (mt_max _ _ Hm)|]. exists rm. split_and!; [done..|]. rewrite H3, Hview. cbn [app]. by rewrite Permutation_middle.
Qed.

(** The instants of an action from when it is due. *)
Definition action_instants (cd : Z) (a : ActionSpec Location C A) (n : nat) : list (Active_ A) :=
  instants (entry_of a) (CalendarDate_Time cd (Due a) loc) (Interval (Repeat a) / second_ns) n.

Definition action_count (cd : Z) (a : ActionSpec Location C A) (n : nat) : Prop :=
  occurrences loc (CalendarDate_Time cd (Due a) loc) (Interval (Repeat a) / second_ns) (limit_of (entry_of a)) n.

Definition action_ok (a : ActionSpec Location C A) : Prop :=
  (Interval (Repeat a) = 0 \/ second_ns <= Interval (Repeat a)) /\ 0 <= Repeats (Repeat a) < 2 ^ 63.

Lemma pending_actions `{!ZoneLaw loc} cd (evaluated : list (ActionSpec Location C A)) : Forall action_ok evaluated ->
  exists ns, Forall2 (action_count cd) evaluated ns /\
    pending loc (map (fun a => (CalendarDate_Time cd (Due a) loc, entry_of a)) evaluated) (concat (zip_with (action_instants cd) evaluated ns)).
Proof.
  induction 1 as [|a evaluated Ha _ (ns & Hns & Hp)]; [exists []; split; constructor|].
  assert (entry_ok (entry_of a)) as He by exact Ha. destruct (occurrences_exist loc (entry_of a) (CalendarDate_Time cd (Due a) loc) He) as [n Hn].
  exists (n :: ns). split; [by constructor|]. cbn [map zip_with concat]. by apply (pending_cons loc (CalendarDate_Time cd (Due a) loc) (entry_of a) n).
Qed.
End loop.

(** ** Properties *)

(** C12: The iterator over the actions of a day yields, by increasing instant,
    every action when it is due and then at its interval, cut to whole seconds, as
    often as it asks for and as long as the next instant is of the same local day,
    whatever the zone of the place does on that day; the consumer may stop at any of
    them.  Intervals must be zero or at least a second. *)
Theorem Active_sequence {C A : Type} (Heq : EqDecision A) (sch : Scheduled_ Location C A) (place : Place Location C)
  (Hzone : ZoneLaw (TimeLocation place)) (Hok : Forall action_ok (Specs sch)) :
  let evaluated := EvaluateAll (Specs sch) (SDate sch) place in
  exists ns out, Forall2 (action_count (TimeLocation place) (SDate sch)) evaluated ns /\
    out ≡ₚ concat (zip_with (action_instants (TimeLocation place) (SDate sch)) evaluated ns) /\
    StronglySorted no_later out /\
    forall (fuel : nat) S (yield : Active_ A -> S -> res (bool * S)) s, (length out < fuel)%nat ->
      Active fuel sch place yield s = range_list out yield s.
Proof.
  intros evaluated. assert (Forall action_ok evaluated) as He.
  { apply Forall_fmap. eapply Forall_impl; [exact Hok|]. intros a Ha. unfold compose, Evaluate. by destruct (DDue _). }
  destruct (pending_actions (TimeLocation place) (SDate sch) evaluated He) as (ns & Hns & Hp).
  assert (NewMin Z.ltb [WithSliceCap (length (Specs sch))] = Ok (@MkT Z (heapEntry A) [] [] false false [])) as Enew by done.
  assert (T_wf Z.ltb (@MkT Z (heapEntry A) [] [] false false [])) as Hwf0 by (split; [done|intros i Hi; cbn in Hi; lia]).
  destruct (push_actions_spec (TimeLocation place) _ (SDate sch) evaluated Hwf0 eq_refl) as (rm & Epush & Hwf & Hmax & Hview).
  change (view _) with (@nil (Z * heapEntry A)) in Hview at 2. rewrite app_nil_r in Hview. symmetry in Hview.
  destruct (pending_perm _ _ _ _ Hview Hp) as (out1 & Hp1 & Eout1). destruct (active_loop_spec (TimeLocation place) _ rm out1 Hwf Hmax Hp1 eq_refl) as (out & Eout & Hs & Hrun).
  exists ns, out. split; [done|]. split; [by rewrite Eout, Eout1|]. split; [done|]. intros fuel S yield s Hf. unfold Active, newRepeatManager. rewrite Enew. cbn [rbind].
  fold evaluated. rewrite Epush. cbn [rbind]. apply Hrun. by rewrite <- (Permutation_length Eout).
Qed.

#[export] Instance UTC_law : ZoneLaw UTC.
Proof. intros t. cbn. lia. Qed.

Definition at_time (name h mi : Z) (interval repeats : Z) : ActionSpec Location unit unit :=
  MkAction [name] (NewTimeOfDay h mi 0) (MkDynamic None 0) (MkRepeat interval repeats) tt.

Definition hour : Z := 3600 * second_ns.

(** A day on which the clocks go back from two to one: 01:30 comes twice. *)
Definition autumn : Location := MkLocation (fun t => if t <? 1729987200 + 3600 then 7200 else 3600).

#[export] Instance autumn_law : ZoneLaw autumn.
Proof. intros t. cbn. destruct (_ <? _); lia. Qed.

Definition two_actions : Scheduled_ Location unit unit :=
  MkScheduled (NewCalendarDate 2024 10 27) [at_time 97 22 0 hour 5; at_time 98 0 30 (10 * hour) 0].

(** The instants of a day, as the seconds since its beginning. *)
Definition day_of (fuel : nat) (sch : Scheduled_ Location unit unit) (loc : Location) : res (list (str * Z)) :=
  let start := time_Date (Year (SDate sch)) (Month (SDate sch)) (Day (SDate sch)) 0 0 0 loc in
  Active fuel sch (MkPlace loc tt) (fun a l => Ok (true, l ++ [(AName a, When a - start)])) [].

(** A day with 25 hours has room for more. *)
Example autumn_day : day_of 10 two_actions autumn =
    Ok [([98], 1800); ([98], 37800); ([98], 73800); ([97], 82800); ([97], 86400)] /\
  day_of 10 two_actions UTC = Ok [([98], 1800); ([98], 37800); ([98], 73800); ([97], 79200); ([97], 82800)].
Proof. vm_compute. done. Qed.

Lemma Active_sequence_witness : exists ns out,
  Forall2 (action_count autumn (SDate two_actions)) (EvaluateAll (Specs two_actions) (SDate two_actions) (MkPlace autumn tt)) ns /\
  StronglySorted no_later (A := Active_ unit) out.
Proof.
  destruct (Active_sequence _ two_actions (MkPlace autumn tt) autumn_law) as (ns & out & H1 & _ & H2 & _).
  - constructor; [|constructor; [|constructor]]; (split; [right; vm_compute; congruence|vm_compute; split; congruence]).
  - exists ns, out. exact (conj H1 H2).
Defined.

(** Intervals below a second do not make progress: the instants of the heap are
    whole seconds, and the same one is yielded without end. *)
Definition half_second : Scheduled_ Location unit unit := MkScheduled (NewCalendarDate 2024 1 1) [at_time 97 8 0 (second_ns / 2) 0].

Lemma half_second_never_ends (fuel : nat) {S} (s : S) : Active fuel half_second (MkPlace UTC tt) (fun _ s => Ok (true, s)) s = NoFuel.
Proof.
  unfold Active. set (rm := MkT [1704096000] [MkEntry [97] (second_ns / 2) false 0 tt] false false [] : repeatManager unit).
  assert (newRepeatManager (Specs half_second) (SDate half_second) (MkPlace UTC tt) = Ok rm) as -> by (vm_compute; reflexivity). cbn [rbind TimeLocation].
  assert (manage rm UTC = Ok (rm, (1704096000, MkEntry [97] (second_ns / 2) false 0 tt))) as Em by (vm_compute; reflexivity).
  induction fuel as [|fuel IH]; [done|]. cbn [active_loop]. change (hasActions rm) with true. cbv iota. rewrite Em. cbn [rbind]. exact IH.
Qed.

(** An interval of a second and a half is one of a second. *)
Lemma fractions_are_lost : nextTime 100 (3 * second_ns / 2) = 101 /\ nextTime 101 (3 * second_ns / 2) = 102.
Proof. vm_compute. done. Qed.

(** The heap belongs to the iterator: a second loop over it finds nothing left. *)
Lemma second_loop_empty : (let! rm := newRepeatManager (Specs two_actions) (SDate two_actions) (MkPlace UTC tt) in
    let! (rm, n) := active_loop 10 UTC rm (fun _ n => Ok (true, n + 1)) 0 in
    let! (_, m) := active_loop 10 UTC rm (fun _ n => Ok (true, n + 1)) 0 in Ok (n, m)) = Ok (5, 0).
Proof. vm_compute. reflexivity. Qed.
