(* ===== verification/Subcmd.v ===== *)
(** * Command trees (cmdutil/subcmd)

    The dispatch of a command line to a command of a tree of command sets, with
    its flags, checks of arguments, wrappers and hooks (subcmd.go, hooks.go).
    Command sets and commands are pointers: they live in a store, since a set
    takes over the wrapper of the set above it.  The functions of the user and
    the parsers of flags act on a world [W] and return errors of a type [E]; a
    context is a value of [C] unless it is nil.  Of what is printed the model
    keeps which usage message it is; the texts of errors are constructors. *)

From stdpp Require Import base list option numbers gmap strings.
From Stdlib Require Import ZArith Lia.
From stdpp Require Import list.
From S2P Require Import Prelude.

Open Scope Z_scope.
Open Scope go_scope.

Section subcmd.
Context {W E C V : Type}.

(** [M] is an [errors.M] with what was appended. *)
Inductive error :=
  | ErrHelp
  | NoCommand
  | NoVersion
  | NotSupported (name : string)
  | NoRunner (name : string)
  | NoFlags (name : string)
  | ParseFailed (name : string) (e : E)
  | FlagError (e : E)
  | NoArguments (name : string)
  | AtMostOne (name : string)
  | Exactly (name : string) (n : Z)
  | AtLeast (name : string) (n : Z)
  | NilContext (name id : string)
  | NilContextFailed (name id : string) (e : E)
  | PreHookFailed (name id : string) (e : E)
  | PostHookFailed (name id : string) (e : E)
  | User (e : E)
  | M (errs : list error).

(** ** hooks.go *)

Definition PostHook : Type := C -> W -> res ((string * option E) * W).
Definition PreHook : Type := C -> W -> res ((option C * string * option PostHook * option E) * W).

(** ** subcmd.go *)

Definition Runner : Type := C -> V -> list string -> W -> res (option E * W).
Definition cmdRunner : Type := C -> W -> res (option error * W).
Definition Main : Type := cmdRunner -> cmdRunner.

(** [flag.FlagSet] is a pointer, which may be nil. *)
Record FlagSet := MkFlagSet { flagSet : option nat; flagValues : V }.

Record options := MkOptions {
  withoutArgs : bool; optionalSingleArg : bool; exactArgs : bool; atLeastArgs : bool;
  numArgs : Z; subcmds : option nat; preHooks : list PreHook;
}.

Record Command := MkCommand { name : string; runner : option Runner; flags : option FlagSet; opts : options }.

Record CommandSet := MkCommandSet { global : option FlagSet; globalMain : option Main; cmd : option nat; cmds : list nat }.

(** The standard library's [Parse]: the arguments that are left. *)
Inductive parsed := Parsed (rest : list string) | ParseHelp | ParseError (e : E).

Context (parse : nat -> list string -> W -> parsed * W) (WithFlagSet : C -> option FlagSet -> C) (VCSInfo : bool).

(** What is printed. *)
Inductive output := SetUsage (s : nat) | GlobalDefaults (s : nat) | CommandUsage (c : nat) | Version.

Record state := MkState { sets : gmap nat CommandSet; commands : gmap nat Command; out : list output; world : W }.

Definition print (o : output) (st : state) : state := MkState (sets st) (commands st) (out st ++ [o]) (world st).
Definition with_world (w : W) (st : state) : state := MkState (sets st) (commands st) (out st) w.

(** A pointer that is nil panics. *)
Definition deref {A} (m : gmap nat A) (p : nat) : res A := match m !! p with Some x => Ok x | None => Panic end.

Definition Parse (fs : option nat) (args : list string) (st : state) : res (parsed * state) :=
  match fs with
  | None => Panic
  | Some fs => let '(r, w) := parse fs args (world st) in Ok (r, with_world w st)
  end.

(** [cmd.Usage()] visits the flags of a flag set that is there. *)
Definition Command_Usage (c : nat) (st : state) : res state :=
  let! command := deref (commands st) c in
  match flags command with
  | Some (MkFlagSet None _) => Panic
  | _ => Ok (print (CommandUsage c) st)
  end.

(** ** Hooks *)

Fixpoint runPreHooks_loop (cmdName : string) (preHooks : list PreHook) (ctx : C) (postHooks : list PostHook) (w : W)
  : res ((C * list PostHook * option error) * W) :=
  match preHooks with
  | [] => Ok ((ctx, postHooks, None), w)
  | pre :: preHooks =>
      let! (r, w) := pre ctx w in
      let '(nctx, id, post, err) := r in
      match nctx, err with
      | None, None => Ok ((ctx, postHooks, Some (NilContext cmdName id)), w)
      | None, Some e => Ok ((ctx, postHooks, Some (NilContextFailed cmdName id e)), w)
      | Some ctx, Some e => Ok ((ctx, postHooks, Some (PreHookFailed cmdName id e)), w)
      | Some ctx, None =>
          runPreHooks_loop cmdName preHooks ctx (match post with Some p => postHooks ++ [p] | None => postHooks end) w
      end
  end.

Definition runPreHooks (ctx : C) (cmdName : string) (preHooks : list PreHook) : W -> res ((C * list PostHook * option error) * W) :=
  runPreHooks_loop cmdName preHooks ctx [].

(** [errs.Err()] *)
Definition Err (errs : list error) : option error := match errs with [] => None | _ => Some (M errs) end.

(** The loop from the last hook down, over the reversed list. *)
Fixpoint runPostHooks_loop (ctx : C) (cmdName : string) (postHooks : list PostHook) (errs : list error) (w : W) : res (list error * W) :=
  match postHooks with
  | [] => Ok (errs, w)
  | post :: postHooks =>
      let! (r, w) := post ctx w in
      let '(id, err) := r in
      runPostHooks_loop ctx cmdName postHooks (match err with Some e => errs ++ [PostHookFailed cmdName id e] | None => errs end) w
  end.

Definition runPostHooks (ctx : C) (cmdName : string) (postHooks : list PostHook) (errs : list error) (w : W) : res (option error * W) :=
  let! (errs, w) := runPostHooks_loop ctx cmdName (rev postHooks) errs w in
  Ok (Err errs, w).

(** The function that is passed to the wrapper. *)
Definition runCommand (command : Command) (args : list string) : cmdRunner := fun ctx w =>
  let! (r, w) := runPreHooks ctx (name command) (preHooks (opts command)) w in
  let '(ctx, postHooks, err) := r in
  match err with
  | Some e => runPostHooks ctx (name command) postHooks [e] w
  | None =>
      match flags command, runner command with
      | Some fs, Some run =>
          let! (err, w) := run (WithFlagSet ctx (Some fs)) (flagValues fs) args w in
          runPostHooks (WithFlagSet ctx (Some fs)) (name command) postHooks (match err with Some e => [User e] | None => [] end) w
      | _, _ => Panic
      end
  end.

(** ** Dispatch *)

Definition mainWrapper (cs : CommandSet) : Main := match globalMain cs with Some m => m | None => fun runner => runner end.

Definition is_help (arg : string) : bool := bool_decide (arg ∈ ["-help"; "--help"; "-h"; "--h"]).

Fixpoint help_for (cmds : list nat) (arg : string) (st : state) : res (option error * state) :=
  match cmds with
  | [] => Ok (None, st)
  | c :: cmds =>
      let! command := deref (commands st) c in
      if bool_decide (arg = name command) then let! st := Command_Usage c st in Ok (Some ErrHelp, st)
      else help_for cmds arg st
  end.

Definition processHelp (s : nat) (cs : CommandSet) (args : list string) (st : state) : res (option error * state) :=
  match args with
  | [] => Ok (None, st)
  | arg :: args =>
      if is_help arg then Ok (Some ErrHelp, print (SetUsage s) st)
      else if bool_decide (arg = "vcsinfo") then
        if negb VCSInfo then Ok (Some NoVersion, st) else Ok (Some ErrHelp, print Version st)
      else if bool_decide (arg = "help") then
        match cmd cs with
        | Some c =>
            let! command := deref (commands st) c in
            match args with
            | [] => let! st := Command_Usage c st in Ok (Some ErrHelp, st)
            | a :: _ =>
                if bool_decide (a = name command) then let! st := Command_Usage c st in Ok (Some ErrHelp, st)
                else Ok (Some (NotSupported a), st)
            end
        | None =>
            match args with
            | [] => Ok (Some ErrHelp, print (SetUsage s) st)
            | a :: _ => help_for (cmds cs) a st
            end
        end
      else Ok (None, st)
  end.

(** The switch of [processChosenCmd]. *)
Inductive choice := Reject (e : error) | Descend (s : nat) | Run.

Definition choose (command : Command) (args : list string) : choice :=
  let o := opts command in
  let n := len args in
  if withoutArgs o then if 0 <? n then Reject (NoArguments (name command)) else Run
  else if optionalSingleArg o then if 1 <? n then Reject (AtMostOne (name command)) else Run
  else if exactArgs o then if negb (n =? numArgs o) then Reject (Exactly (name command) (numArgs o)) else Run
  else if atLeastArgs o then if n <? numArgs o then Reject (AtLeast (name command) (numArgs o)) else Run
  else match subcmds o with Some s => Descend s | None => Run end.

(** [cmd.opts.subcmds.globalMain] is set if it is nil. *)
Definition inherit (m : option Main) (sub : CommandSet) : CommandSet :=
  match globalMain sub with
  | None => MkCommandSet (global sub) m (cmd sub) (cmds sub)
  | Some _ => sub
  end.

Definition with_set (s : nat) (cs : CommandSet) (st : state) : state := MkState (<[s := cs]> (sets st)) (commands st) (out st) (world st).

(** The first command of that name. *)
Fixpoint find_command (cmds : list nat) (requested : string) (st : state) : res (option (nat * Command)) :=
  match cmds with
  | [] => Ok None
  | c :: cmds =>
      let! command := deref (commands st) c in
      if bool_decide (requested = name command) then Ok (Some (c, command)) else find_command cmds requested st
  end.

(** [parseArgs]. *)
Definition parseArgs (fs : option nat) (c : nat) (command : Command) (args : list string) (st : state) : res ((list string + error) * state) :=
  let! (r, st) := Parse fs args st in
  match r with
  | Parsed rest => Ok (inl rest, st)
  | ParseHelp => let! st := Command_Usage c st in Ok (inr ErrHelp, st)
  | ParseError e => Ok (inr (ParseFailed (name command) e), st)
  end.

Section chosen.
Context (dispatch : nat -> list string -> C -> state -> res (option error * state)).

Definition processChosenCmd (s : nat) (command : Command) (args : list string) (ctx : C) (st : state) : res (option error * state) :=
  let! cs := deref (sets st) s in
  match choose command args with
  | Reject e => Ok (Some e, st)
  | Descend s' =>
      let! sub := deref (sets st) s' in
      dispatch s' args ctx (with_set s' (inherit (globalMain cs) sub) st)
  | Run =>
      let! (err, w) := mainWrapper cs (runCommand command args) ctx (world st) in
      Ok (err, with_world w st)
  end.
End chosen.

Fixpoint dispatchWithArgs (fuel : nat) (s : nat) (args : list string) (ctx : C) (st : state) : res (option error * state) :=
  match fuel with
  | O => NoFuel
  | S fuel =>
      let! cs := deref (sets st) s in
      if (len args =? 0) && negb (bool_decide (is_Some (cmd cs))) then Ok (Some NoCommand, print (SetUsage s) st)
      else
        let! (err, st) := processHelp s cs args st in
        match err with
        | Some e => Ok (Some e, st)
        | None =>
            match cmd cs with
            | Some c =>
                let! command := deref (commands st) c in
                let! fs := (match flags command with Some fs => Ok (flagSet fs) | None => Panic end) in
                let! (r, st) := Parse fs args st in
                match r with
                | Parsed rest => processChosenCmd (dispatchWithArgs fuel) s command rest ctx st
                | ParseHelp => Ok (Some ErrHelp, st)
                | ParseError e => Ok (Some (FlagError e), st)
                end
            | None =>
                match args with
                | [] => Ok (Some NoCommand, print (SetUsage s) st)
                | requested :: args =>
                    let! found := find_command (cmds cs) requested st in
                    match found with
                    | None => Ok (Some (NotSupported requested), st)
                    | Some (c, command) =>
                        if negb (bool_decide (is_Some (runner command))) && negb (bool_decide (is_Some (subcmds (opts command)))) then
                          Ok (Some (NoRunner requested), st)
                        else
                          match flags command with
                          | Some (MkFlagSet (Some fs) _) =>
                              let! (r, st) := parseArgs (Some fs) c command args st in
                              match r with
                              | inr e => Ok (Some e, st)
                              | inl rest => processChosenCmd (dispatchWithArgs fuel) s command rest ctx st
                              end
                          | _ => Ok (Some (NoFlags (name command)), st)
                          end
                    end
                end
            end
        end
  end.

Definition DispatchWithArgs (fuel : nat) (s : nat) (args : list string) (ctx : C) (st : state) : res (option error * state) :=
  let! cs := deref (sets st) s in
  match global cs with
  | None => dispatchWithArgs fuel s args ctx st
  | Some fs =>
      let! (r, st) := Parse (flagSet fs) args st in
      match r with
      | Parsed rest => dispatchWithArgs fuel s rest ctx st
      | ParseHelp => Ok (Some ErrHelp, print (GlobalDefaults s) (print (SetUsage s) st))
      | ParseError e => Ok (Some (FlagError e), st)
      end
  end.

(** ** Hooks for all commands of a tree *)

Definition with_hooks (hooks : list PreHook) (command : Command) : Command :=
  let o := opts command in
  MkCommand (name command) (runner command) (flags command)
    (MkOptions (withoutArgs o) (optionalSingleArg o) (exactArgs o) (atLeastArgs o) (numArgs o) (subcmds o) hooks).

Definition Command_AppendPreHooks (hooks : list PreHook) (c : nat) (commands : gmap nat Command) : res (gmap nat Command) :=
  let! command := deref commands c in
  Ok (<[c := with_hooks (preHooks (opts command) ++ hooks) command]> commands).

Definition Command_SetPreHooks (hooks : list PreHook) (c : nat) (commands : gmap nat Command) : res (gmap nat Command) :=
  let! command := deref commands c in
  Ok (<[c := with_hooks hooks command]> commands).

(** The walk of [AppendPreHooks] and [SetPreHooks]: [f] on the top-level command
    and on the others, with the sets below these. *)
Section walk.
Context (sets : gmap nat CommandSet) (f : nat -> gmap nat Command -> res (gmap nat Command)).

Section cmds_loop.
Context (walk : nat -> gmap nat Command -> res (gmap nat Command)).

Fixpoint walk_cmds (cmds : list nat) (commands : gmap nat Command) : res (gmap nat Command) :=
  match cmds with
  | [] => Ok commands
  | c :: cmds =>
      let! commands := f c commands in
      let! command := deref commands c in
      let! commands := (match subcmds (opts command) with Some s => walk s commands | None => Ok commands end) in
      walk_cmds cmds commands
  end.
End cmds_loop.

Fixpoint walk_sets (fuel : nat) (s : nat) (commands : gmap nat Command) : res (gmap nat Command) :=
  match fuel with
  | O => NoFuel
  | S fuel =>
      let! cs := deref sets s in
      let! commands := (match cmd cs with Some c => f c commands | None => Ok commands end) in
      walk_cmds (walk_sets fuel) (cmds cs) commands
  end.
End walk.

Definition AppendPreHooks (fuel : nat) (hooks : list PreHook) (s : nat) (st : state) : res state :=
  let! cmds := walk_sets (sets st) (Command_AppendPreHooks hooks) fuel s (commands st) in
  Ok (MkState (sets st) cmds (out st) (world st)).
Definition SetPreHooks (fuel : nat) (hooks : list PreHook) (s : nat) (st : state) : res state :=
  let! cmds := walk_sets (sets st) (Command_SetPreHooks hooks) fuel s (commands st) in
  Ok (MkState (sets st) cmds (out st) (world st)).
End subcmd.

Arguments error : clear implicits.
Arguments FlagSet : clear implicits.
Arguments Command : clear implicits.
Arguments CommandSet : clear implicits.
Arguments state : clear implicits.

(** ** What a dispatch calls *)

Section calls.
Context {W X C V : Type} (parse : nat -> list string -> W -> parsed (E:=X) * W) (WithFlagSet : C -> option (FlagSet V) -> C) (VCSInfo : bool).
Abbreviation Cmd := (Command W X C V).
Abbreviation St := (state W X C V).

(** The worlds that parsing leads to. *)
Inductive parses : W -> W -> Prop :=
  | parses_refl w : parses w w
  | parses_step w fs args w' : parses (parse fs args w).2 w' -> parses w w'.

Lemma parses_trans w1 w2 w3 : parses w1 w2 -> parses w2 w3 -> parses w1 w3.
Proof. induction 1; [done|]. intros H1. econstructor. by apply IHparses. Qed.

(** The numbers of arguments a command takes. *)
Definition accepts (command : Cmd) (n : Z) : Prop :=
  let o := opts command in
  if withoutArgs o then n = 0 else if optionalSingleArg o then n <= 1 else if exactArgs o then n = numArgs o
  else if atLeastArgs o then numArgs o <= n else subcmds o = None.

Lemma choose_spec (command : Cmd) args :
  match choose command args with
  | Reject _ => ~ accepts command (len args)
  | Descend s => subcmds (opts command) = Some s
  | Run => accepts command (len args)
  end.
Proof.
  unfold choose, accepts. pose proof (len_nonneg args). repeat case_match; bool_to_prop; simplify_eq; try lia; done.
Qed.

(** Steps that only print and parse. *)
Definition quiet (st st' : St) : Prop := sets st' = sets st /\ commands st' = commands st /\ parses (world st) (world st').

Lemma quiet_trans a b c : quiet a b -> quiet b c -> quiet a c.
Proof. intros (H1 & H2 & H3) (H4 & H5 & H6). split_and!; [congruence..|by eapply parses_trans]. Qed.

Lemma print_quiet o st : quiet st (print o st).
Proof. split_and!; [done..|constructor]. Qed.

Lemma Command_Usage_quiet c (st st' : St) : Command_Usage c st = Ok st' -> quiet st st'.
Proof.
  unfold Command_Usage. destruct (deref (commands st) c) as [command| |]; [|done..]. cbn.
  destruct (flags command) as [[[fs|] v]|]; [|done|]; intros [= <-]; apply print_quiet.
Qed.

Lemma Parse_quiet fs args (st : St) r st' : Parse parse fs args st = Ok (r, st') -> quiet st st'.
Proof.
  unfold Parse. destruct fs as [fs|]; [|done]. pose proof (parses_step (world st) fs args _ (parses_refl _)) as H.
  destruct (parse fs args (world st)) as [r0 w]. intros [= <- <-]. split_and!; done.
Qed.

Lemma help_for_quiet cs arg (st : St) e st' : help_for cs arg st = Ok (e, st') -> quiet st st'.
Proof.
  induction cs as [|c cs IH]; cbn [help_for]; [intros [= <- <-]; by split_and!; [..|constructor]|].
  destruct (deref (commands st) c) as [command| |]; [|done..]. cbn [rbind]. case_bool_decide; [|done].
  destruct (Command_Usage c st) eqn:Eu; cbn; [|done..]. intros [= <- <-]. by eapply Command_Usage_quiet.
Qed.

Lemma processHelp_quiet s cs args (st : St) e st' : processHelp VCSInfo s cs args st = Ok (e, st') -> quiet st st'.
Proof.
  assert (quiet st st) as Hr by (split_and!; [done..|constructor]).
  unfold processHelp. destruct args as [|arg args]; [by intros [= <- <-]|]. destruct (is_help arg); [intros [= <- <-]; apply print_quiet|].
  case_bool_decide; [destruct VCSInfo; intros [= <- <-]; [apply print_quiet|done]|]. case_bool_decide; [|by intros [= <- <-]].
  destruct (cmd cs) as [c|].
  - destruct (deref (commands st) c) as [command| |]; [|done..]. cbn [rbind].
    assert (forall e0 : option (error X), (let! st := Command_Usage c st in Ok (Some (ErrHelp (E:=X)), st)) = Ok (e0, st') -> quiet st st') as Hu.
    { intros e0. destruct (Command_Usage c st) eqn:Eu; cbn; [|done..]. intros [= <- <-]. by eapply Command_Usage_quiet. }
    destruct args as [|a args]; [apply Hu|]. case_bool_decide; [apply Hu|by intros [= <- <-]].
  - destruct args as [|a args]; [intros [= <- <-]; apply print_quiet|]. apply help_for_quiet.
Qed.

Lemma parseArgs_quiet fs c command args (st : St) r st' : parseArgs parse fs c command args st = Ok (r, st') -> quiet st st'.
Proof.
  unfold parseArgs. destruct (Parse parse fs args st) as [[r0 st0]| |] eqn:Ep; [|done..]. apply Parse_quiet in Ep. cbn [rbind].
  destruct r0; [by intros [= <- <-]| |by intros [= <- <-]]. destruct (Command_Usage c st0) eqn:Eu; cbn; [|done..]. intros [= <- <-].
  eapply quiet_trans; [done|]. by eapply Command_Usage_quiet.
Qed.

Lemma find_command_in cs requested (st : St) c command : find_command cs requested st = Ok (Some (c, command)) ->
  c ∈ cs /\ commands st !! c = Some command /\ name command = requested.
Proof.
  induction cs as [|c0 cs IH]; cbn [find_command]; [done|]. unfold deref. destruct (commands st !! c0) as [command0|] eqn:Ec; [|done]. cbn [rbind].
  case_bool_decide; [intros [= -> ->]; split_and!; [left|done..]|]. intros (H1 & H2 & H3)%IH. split_and!; [by right|done..].
Qed.

(** ** What a command line selects

    The command that the arguments name in a set: its only one, or the first of the
    name that comes first, if that is not a request for help; its flags are parsed
    from the arguments that follow. *)
Definition not_help (st : St) (cs : CommandSet W X C V) (args : list string) : Prop :=
  match args with
  | [] => True
  | a :: more => is_help a = false /\ a <> "vcsinfo" /\
      (a = "help" -> cmd cs = None /\ exists b rest, more = b :: rest /\ forall c command, c ∈ cmds cs -> commands st !! c = Some command -> name command <> b)
  end.

Inductive picks (st : St) (s : nat) : list string -> nat -> Cmd -> list string -> W -> Prop :=
  | picks_only cs args c command fs v rest w : sets st !! s = Some cs -> cmd cs = Some c -> not_help st cs args ->
      commands st !! c = Some command -> flags command = Some (MkFlagSet (Some fs) v) -> parse fs args (world st) = (Parsed rest, w) ->
      picks st s args c command rest w
  | picks_named cs requested args before c after command fs v rest w : sets st !! s = Some cs -> cmd cs = None -> not_help st cs (requested :: args) ->
      cmds cs = before ++ c :: after -> (forall b other, b ∈ before -> commands st !! b = Some other -> name other <> requested) ->
      commands st !! c = Some command -> name command = requested -> is_Some (runner command) \/ is_Some (subcmds (opts command)) ->
      flags command = Some (MkFlagSet (Some fs) v) -> parse fs args (world st) = (Parsed rest, w) ->
      picks st s (requested :: args) c command rest w.

(** Nothing is said of the number of arguments. *)
Definition unlimited (command : Cmd) : Prop :=
  let o := opts command in withoutArgs o = false /\ optionalSingleArg o = false /\ exactArgs o = false /\ atLeastArgs o = false.

(** The command that runs, with its arguments, the world after the parsing of flags,
    and its wrapper: a command that takes the arguments that are left, or what they
    select in the set below a command, which takes over the wrapper of the set above
    it unless it has one. *)
Inductive resolves : St -> nat -> list string -> nat -> Cmd -> list string -> W -> Main -> Prop :=
  | resolves_here st s cs args c command rest w : picks st s args c command rest w -> sets st !! s = Some cs -> accepts command (len rest) ->
      resolves st s args c command rest w (mainWrapper cs)
  | resolves_below st s cs args c command rest w s' sub c2 command2 rest2 w2 main : picks st s args c command rest w -> sets st !! s = Some cs ->
      unlimited command -> subcmds (opts command) = Some s' -> sets st !! s' = Some sub ->
      resolves (with_set s' (inherit (globalMain cs) sub) (with_world w st)) s' rest c2 command2 rest2 w2 main ->
      resolves st s args c2 command2 rest2 w2 main.

(** What is left of the arguments after the global flags. *)
Inductive starts (st : St) (s : nat) (args : list string) : list string -> W -> Prop :=
  | starts_plain cs : sets st !! s = Some cs -> global cs = None -> starts st s args args (world st)
  | starts_flags cs fs v rest w : sets st !! s = Some cs -> global cs = Some (MkFlagSet (Some fs) v) -> parse fs args (world st) = (Parsed rest, w) ->
      starts st s args rest w.

Definition selects (st : St) (s : nat) (args : list string) (c : nat) (command : Cmd) (rest : list string) (w : W) (main : Main) : Prop :=
  exists args1 w1, starts st s args args1 w1 /\ resolves (with_world w1 st) s args1 c command rest w main.

(** *** Lemmas *)

Lemma first_unique {A} (P : A -> Prop) (b1 : list A) x1 a1 b2 x2 a2 : b1 ++ x1 :: a1 = b2 ++ x2 :: a2 ->
  (forall b, b ∈ b1 -> ~ P b) -> (forall b, b ∈ b2 -> ~ P b) -> P x1 -> P x2 -> x1 = x2.
Proof.
  revert b2. induction b1 as [|y b1 IH]; intros [|z b2] E H1 H2 P1 P2; cbn in E; injection E as E0 E.
  - done.
  - subst. destruct (H2 z); [left|done].
  - subst. destruct (H1 x2); [left|done].
  - apply (IH b2 E); try done; intros b Hb; [apply H1|apply H2]; by right.
Qed.

Lemma picks_named_inv st s cs requested args before c after command c1 command1 rest1 w1 : sets st !! s = Some cs -> cmd cs = None ->
  cmds cs = before ++ c :: after -> (forall b other, b ∈ before -> commands st !! b = Some other -> name other <> requested) ->
  commands st !! c = Some command -> name command = requested -> picks st s (requested :: args) c1 command1 rest1 w1 ->
  c1 = c /\ command1 = command /\ (is_Some (runner command) \/ is_Some (subcmds (opts command))) /\
  exists fs v, flags command = Some (MkFlagSet (Some fs) v) /\ parse fs args (world st) = (Parsed rest1, w1).
Proof.
  intros Es Ec Ecs Hb Ecc En H.
  inversion H as [|cs1 requested1 args1 before1 c0 after1 command0 fs1 v1 rest0 w0 Es1 Ec1 Hn1 Ecs1 Hb1 Ecc1 En1 Hr1 Ef1 Ep1]; [congruence|].
  assert (cs = cs1) as <- by congruence. assert (c = c1) as ->.
  { eapply (first_unique (fun x => exists k, commands st !! x = Some k /\ name k = requested)); [rewrite <- Ecs; exact Ecs1|..].
    - intros b Hin (k & Hk & Hkn). by eapply Hb.
    - intros b Hin (k & Hk & Hkn). by eapply Hb1.
    - by exists command.
    - by exists command1. }
  assert (command1 = command) as -> by congruence. split_and!; [done..|]. by exists fs1, v1.
Qed.

Lemma picks_det st s args c command rest w c' command' rest' w' : picks st s args c command rest w -> picks st s args c' command' rest' w' ->
  c = c' /\ command = command' /\ rest = rest' /\ w = w'.
Proof.
  intros H1 H2. destruct H1 as [cs args c command fs v rest w Es Ec Hn Ecc Ef Ep|cs requested args before c after command fs v rest w Es Ec Hn Ecs Hb Ecc En Hr Ef Ep].
  - inversion H2; simplify_eq; split_and!; congruence.
  - destruct (picks_named_inv _ _ _ _ _ _ _ _ _ _ _ _ _ Es Ec Ecs Hb Ecc En H2) as (-> & -> & _ & fs1 & v1 & Ef1 & Ep1). split_and!; congruence.
Qed.

Lemma help_for_cases cs arg (st : St) e st' : help_for cs arg st = Ok (e, st') ->
  (e = None /\ st' = st /\ forall c command, c ∈ cs -> commands st !! c = Some command -> name command <> arg) \/
  (is_Some e /\ quiet st st' /\ exists c command, c ∈ cs /\ commands st !! c = Some command /\ name command = arg).
Proof.
  intros H. pose proof (help_for_quiet _ _ _ _ _ H) as Hq. induction cs as [|c cs IH]; cbn [help_for] in H.
  - injection H as <- <-. left. split_and!; [done..|]. by intros c command Hc%elem_of_nil.
  - unfold deref in H. destruct (commands st !! c) as [command|] eqn:Ec; [|done]. cbn [rbind] in H. case_bool_decide as Ea.
    + destruct (Command_Usage c st); [|done..]. cbn in H. injection H as <- <-. right. split_and!; [by eexists|done|]. exists c, command. split_and!; [left|done..].
    + destruct (IH H) as [(-> & -> & Hn)|(He & _ & c1 & command1 & Hin & E1 & E2)].
      * left. split_and!; [done..|]. intros c1 command1 [->|Hin]%elem_of_cons E1; [congruence|by eapply Hn].
      * right. split_and!; [done..|]. exists c1, command1. split_and!; [by right|done..].
Qed.

Lemma processHelp_cases s cs args (st : St) e st' : processHelp VCSInfo s cs args st = Ok (e, st') ->
  (e = None /\ st' = st /\ not_help st cs args) \/ (is_Some e /\ quiet st st' /\ ~ not_help st cs args).
Proof.
  intros H. pose proof (processHelp_quiet _ _ _ _ _ _ H) as Hq. unfold processHelp in H. destruct args as [|arg args]; [injection H as <- <-; by left|].
  unfold not_help. destruct (is_help arg) eqn:Eh; [injection H as <- <-; right; split_and!; [by eexists|done|by intros (? & _)]|].
  case_bool_decide as Ev; [right; split_and!; [destruct VCSInfo; injection H as <- <-; by eexists|done|by intros (_ & ? & _)]|].
  case_bool_decide as Ea; [|injection H as <- <-; left; split_and!; done].
  destruct (cmd cs) as [c|] eqn:Ec.
  - right. split_and!; [|done|intros (_ & _ & [? _]); done].
    destruct (deref (commands st) c) as [command| |]; [|done..]. cbn [rbind] in H. destruct (Command_Usage c st); cbn in H;
      destruct args; [|case_bool_decide|..|case_bool_decide| |case_bool_decide]; simplify_eq; by eexists.
  - destruct args as [|a args]; [injection H as <- <-; right; split_and!; [by eexists|done|by intros (_ & _ & [_ (? & ? & ? & _)])]|].
    apply help_for_cases in H as [(-> & -> & Hn)|(He & _ & c & command & Hin & E1 & E2)].
    + left. split_and!; [done..|]. intros _. split; [done|]. by exists a, args.
    + right. split_and!; [done..|]. intros (_ & _ & Hh). destruct (Hh Ea) as (_ & b & rest & [= <- <-] & Hn). by eapply Hn.
Qed.

Lemma find_command_cases cs requested (st : St) o : find_command cs requested st = Ok o ->
  match o with
  | Some (c, command) => exists before after, cs = before ++ c :: after /\ commands st !! c = Some command /\ name command = requested /\
      forall b other, b ∈ before -> commands st !! b = Some other -> name other <> requested
  | None => forall b other, b ∈ cs -> commands st !! b = Some other -> name other <> requested
  end.
Proof.
  induction cs as [|c cs IH]; cbn [find_command]; [intros [= <-]; by intros b other H%elem_of_nil|].
  unfold deref. destruct (commands st !! c) as [command|] eqn:Ec; [|done]. cbn [rbind]. case_bool_decide as En.
  - intros [= <-]. exists [], cs. split_and!; [done..|]. by intros b other H%elem_of_nil.
  - intros H%IH. destruct o as [[c1 command1]|].
    + destruct H as (before & after & -> & E1 & E2 & Hb). exists (c :: before), after. split_and!; [done..|].
      intros b other [->|Hin]%elem_of_cons E3; [congruence|by eapply Hb].
    + intros b other [->|Hin]%elem_of_cons E3; [congruence|by eapply H].
Qed.

Lemma choose_cases (command : Cmd) args :
  match choose command args with
  | Reject _ => ~ accepts command (len args) /\ ~ unlimited command
  | Descend s => ~ accepts command (len args) /\ unlimited command /\ subcmds (opts command) = Some s
  | Run => accepts command (len args) /\ (unlimited command -> subcmds (opts command) = None)
  end.
Proof.
  pose proof (choose_spec command args) as Hs. unfold unlimited. destruct (choose command args) as [e|s|] eqn:Ec.
  - split; [done|]. intros (E1 & E2 & E3 & E4). unfold choose in Ec. rewrite E1, E2, E3, E4 in Ec. by destruct (subcmds (opts command)).
  - unfold choose, accepts in *. repeat case_match; simplify_eq; split_and!; congruence.
  - split; [done|]. intros (E1 & E2 & E3 & E4). unfold choose in Ec. rewrite E1, E2, E3, E4 in Ec. by destruct (subcmds (opts command)).
Qed.

(** A level of the dispatch either ends with an error, and picks no command, or goes
    on with the one it picks. *)
Lemma dispatch_cases fuel s args ctx (st : St) e st' :
  dispatchWithArgs parse WithFlagSet VCSInfo (S fuel) s args ctx st = Ok (e, st') ->
  (is_Some e /\ parses (world st) (world st') /\ forall c command rest w, ~ picks st s args c command rest w) \/
  exists c command rest w, picks st s args c command rest w /\
    processChosenCmd WithFlagSet (dispatchWithArgs parse WithFlagSet VCSInfo fuel) s command rest ctx (with_world w st) = Ok (e, st').
Proof.
  cbn [dispatchWithArgs]. unfold deref at 1. destruct (sets st !! s) as [cs|] eqn:Es; [|done]. cbn [rbind].
  destruct ((len args =? 0) && negb (bool_decide (is_Some (cmd cs)))) eqn:E0.
  { intros [= <- <-]. left. split_and!; [by eexists|constructor|]. apply andb_prop in E0 as [E0 Ec]. apply Z.eqb_eq in E0. apply negb_true_iff, bool_decide_eq_false in Ec.
    intros c command rest w H. inversion H; subst; [apply Ec; exists c; congruence|]. unfold len in E0. cbn [length] in E0. lia. }
  clear E0. destruct (processHelp VCSInfo s cs args st) as [[err st1]| |] eqn:Eh; [|done..]. cbn [rbind].
  apply processHelp_cases in Eh as [(-> & -> & Hn)|([err' ->] & (_ & _ & Hq) & Hn)]; cycle 1.
  { intros [= <- <-]. left. split_and!; [by eexists|done|]. intros c command rest w H. destruct H; simplify_eq; done. }
  destruct (cmd cs) as [c|] eqn:Ec.
  - unfold deref. destruct (commands st !! c) as [command|] eqn:Ecc; [|done]. cbn [rbind].
    destruct (flags command) as [[fs v]|] eqn:Ef; [|done]. cbn [rbind flagSet]. unfold Parse. destruct fs as [fs|]; [|done].
    destruct (parse fs args (world st)) as [r w] eqn:Ep. cbn [rbind].
    destruct r as [rest| |err]; [intros H; right; exists c, command, rest, w; split; [by eapply picks_only|done]|..];
      intros [= <- <-]; left; (split_and!; [by eexists|eapply parses_step; rewrite Ep; constructor|]);
      intros c1 command1 rest1 w1 H; inversion H; simplify_eq; congruence.
  - destruct args as [|requested args].
    { intros [= <- <-]. left. split_and!; [by eexists|constructor|]. intros c command rest w H. inversion H; simplify_eq. }
    destruct (find_command (cmds cs) requested st) as [found| |] eqn:Efc; [|done..]. apply find_command_cases in Efc. cbn [rbind].
    destruct found as [[c command]|]; cycle 1.
    { intros [= <- <-]. left. split_and!; [by eexists|constructor|]. intros c command rest w H. inversion H; simplify_eq.
      eapply Efc; [|done|done]. match goal with H : cmds _ = _ |- _ => rewrite H end. apply elem_of_app. right. left. }
    destruct Efc as (before & after & Ecs & Ecc & En & Hb).
    assert (forall c1 command1 rest1 w1, picks st s (requested :: args) c1 command1 rest1 w1 -> (is_Some (runner command) \/ is_Some (subcmds (opts command))) /\
      exists fs v, flags command = Some (MkFlagSet (Some fs) v) /\ parse fs args (world st) = (Parsed rest1, w1)) as Hp.
    { intros c1 command1 rest1 w1 H. by eapply picks_named_inv. }
    destruct (negb (bool_decide (is_Some (runner command))) && negb (bool_decide (is_Some (subcmds (opts command))))) eqn:Er.
    { intros [= <- <-]. left. split_and!; [by eexists|constructor|]. apply andb_prop in Er as [E1%negb_true_iff%bool_decide_eq_false E2%negb_true_iff%bool_decide_eq_false].
      by intros c1 command1 rest1 w1 [[?|?] _]%Hp. }
    assert (is_Some (runner command) \/ is_Some (subcmds (opts command))) as Hr.
    { destruct (runner command), (subcmds (opts command)); cbn in Er; try done; [left|left|right]; by eexists. }
    destruct (flags command) as [[[fs|] v]|] eqn:Ef;
      [|intros [= <- <-]; left; (split_and!; [by eexists|constructor|]); intros c1 command1 rest1 w1 (_ & ? & ? & ? & _)%Hp; congruence..].
    unfold parseArgs, Parse. destruct (parse fs args (world st)) as [r w] eqn:Ep. cbn [rbind].
    assert (parses (world st) w) as Hw by (eapply parses_step; rewrite Ep; constructor).
    destruct r as [rest| |err]; cbn [rbind].
    + intros H. right. exists c, command, rest, w. split; [by eapply picks_named|done].
    + destruct (Command_Usage c (with_world w st)) as [st2| |] eqn:Eu; [|done..]. cbn [rbind]. intros [= <- <-].
      apply Command_Usage_quiet in Eu as (_ & _ & Hq). left. split_and!; [by eexists|by eapply parses_trans|].
      intros c1 command1 rest1 w1 (_ & ? & ? & ? & ?)%Hp. congruence.
    + intros [= <- <-]. left. split_and!; [by eexists|done|]. intros c1 command1 rest1 w1 (_ & ? & ? & ? & ?)%Hp. congruence.
Qed.

(** What resolves starts with the command that is picked. *)
Lemma resolves_picks st s args c command rest w main : resolves st s args c command rest w main ->
  exists cs c0 command0 rest0 w0, picks st s args c0 command0 rest0 w0 /\ sets st !! s = Some cs /\
    ((c = c0 /\ command = command0 /\ rest = rest0 /\ w = w0 /\ main = mainWrapper cs /\ accepts command (len rest)) \/
     exists s' sub, unlimited command0 /\ subcmds (opts command0) = Some s' /\ sets st !! s' = Some sub /\
       resolves (with_set s' (inherit (globalMain cs) sub) (with_world w0 st)) s' rest0 c command rest w main).
Proof.
  destruct 1 as [st s cs args c command rest w Hp Es Ha|st s cs args c command rest w s' sub c2 command2 rest2 w2 main Hp Es Hu Hs Es' H].
  - exists cs, c, command, rest, w. split_and!; [done..|]. by left.
  - exists cs, c, command, rest, w. split_and!; [done..|]. right. by exists s', sub.
Qed.

Lemma dispatch_outcome fuel s args ctx (st : St) e st' : dispatchWithArgs parse WithFlagSet VCSInfo fuel s args ctx st = Ok (e, st') ->
  (is_Some e /\ parses (world st) (world st') /\ forall c command rest w main, ~ resolves st s args c command rest w main) \/
  exists c command rest w main, resolves st s args c command rest w main /\ main (runCommand WithFlagSet command rest) ctx w = Ok (e, world st').
Proof.
  revert s args st. induction fuel as [|fuel IH]; intros s args st; [done|]. intros [(He & Hq & Hno)|(c & command & rest & w & Hp & H)]%dispatch_cases.
  { left. split_and!; [done..|]. intros c command rest w main (cs & c0 & command0 & rest0 & w0 & Hp & _)%resolves_picks. by eapply Hno. }
  assert (parses (world st) w) as Hw.
  { destruct Hp; (eapply parses_step; match goal with H : parse _ _ _ = _ |- _ => rewrite H end; constructor). }
  unfold processChosenCmd in H. cbn [sets with_world] in H. unfold deref in H at 1. destruct (sets st !! s) as [cs|] eqn:Es; [|done]. cbn [rbind] in H.
  pose proof (choose_cases command rest) as Hch. destruct (choose command rest) as [err|s'|].
  - injection H as <- <-. left. split_and!; [by eexists|done|].
    intros c2 command2 rest2 w2 main (cs1 & c0 & command0 & rest0 & w0 & Hp1 & Es1 & Hc)%resolves_picks.
    destruct (picks_det _ _ _ _ _ _ _ _ _ _ _ Hp Hp1) as (<- & <- & <- & <-). naive_solver.
  - unfold deref in H. destruct (sets st !! s') as [sub|] eqn:Es'; [|done]. cbn [rbind] in H. destruct Hch as (Hna & Hu & Hsub).
    apply IH in H as [(He & Hq & Hno)|(c2 & command2 & rest2 & w2 & main & Hr & H)].
    + left. split_and!; [done|by eapply parses_trans|].
      intros c2 command2 rest2 w2 main (cs1 & c0 & command0 & rest0 & w0 & Hp1 & Es1 & Hc)%resolves_picks.
      destruct (picks_det _ _ _ _ _ _ _ _ _ _ _ Hp Hp1) as (<- & <- & <- & <-).
      destruct Hc as [(-> & -> & -> & -> & _ & ?)|(s1 & sub1 & _ & ? & ? & Hr)]; [done|]. simplify_eq. by apply (Hno c2 command2 rest2 w2 main).
    + right. exists c2, command2, rest2, w2, main. split; [|done]. by eapply resolves_below.
  - destruct (mainWrapper cs (runCommand WithFlagSet command rest) ctx w) as [[err w']| |] eqn:Em; cbn [world with_world] in H; rewrite Em in H; [|done..]. injection H as <- <-.
    right. exists c, command, rest, w, (mainWrapper cs). split; [|done]. destruct Hch as [Ha _]. by eapply resolves_here.
Qed.
End calls.

(** ** Hooks that are watched *)

Section bracket.
Context {C V : Type} (WithFlagSet : C -> option (FlagSet V) -> C).

(** The world is what has been called. *)
Inductive event := EPre (i : nat) | ERun | EPost (i : nat).
Abbreviation log := (list event).

(** What the hook of an index does: its context, its post-hook with the error of
    that, and its error. *)
Record hook := MkHook { h_id : string; h_ctx : bool; h_post : option (option string); h_err : option string }.

Definition post_hook (i : nat) (h : hook) (e : option string) : PostHook (W:=log) (E:=string) (C:=C) :=
  fun _ w => Ok ((h_id h, e), w ++ [EPost i]).
Definition pre_hook (i : nat) (h : hook) : PreHook (W:=log) (E:=string) (C:=C) :=
  fun c w => Ok ((if h_ctx h then Some c else None, h_id h, option_map (post_hook i h) (h_post h), h_err h), w ++ [EPre i]).
Definition watched (e : option string) : Runner (W:=log) (E:=string) (C:=C) (V:=V) := fun _ _ _ w => Ok (e, w ++ [ERun]).

(** The hooks up to the first that fails, with their indices, and that one. *)
Fixpoint succeeding (i : nat) (hs : list hook) : list (nat * hook) * option hook :=
  match hs with
  | [] => ([], None)
  | h :: hs =>
      if h_ctx h && bool_decide (h_err h = None) then let '(l, f) := succeeding (S i) hs in ((i, h) :: l, f)
      else ([], Some h)
  end.

Definition pre_error (cmdName : string) (h : hook) : error string :=
  match h_err h with
  | None => NilContext cmdName (h_id h)
  | Some e => if h_ctx h then PreHookFailed cmdName (h_id h) e else NilContextFailed cmdName (h_id h) e
  end.
Definition post_error (cmdName : string) (ih : nat * hook) : option (error string) :=
  match h_post ih.2 with Some (Some e) => Some (PostHookFailed cmdName (h_id ih.2) e) | _ => None end.
Definition has_post (ih : nat * hook) : option event := match h_post ih.2 with Some _ => Some (EPost ih.1) | None => None end.
Definition post_of (ih : nat * hook) : option (PostHook (W:=log) (E:=string) (C:=C)) := option_map (post_hook ih.1 ih.2) (h_post ih.2).

Lemma runPreHooks_watched cmdName i hs ctx posts w :
  let '(l, f) := succeeding i hs in
  runPreHooks_loop cmdName (imap (fun j => pre_hook (i + j)) hs) ctx posts w =
    Ok ((ctx, posts ++ omap post_of l, option_map (pre_error cmdName) f),
        w ++ map EPre (seq i (length l + match f with Some _ => 1 | None => 0 end))).
Proof.
  revert i posts w. induction hs as [|h hs IH]; intros i posts w; cbn [succeeding imap runPreHooks_loop]; [by rewrite !app_nil_r|].
  unfold pre_hook at 1. rewrite Nat.add_0_r. destruct (h_ctx h) eqn:Ec; cbn [andb].
  - destruct (h_err h) as [e|] eqn:Ee; cbn.
    + rewrite app_nil_r. unfold pre_error. by rewrite Ec, Ee.
    + specialize (IH (S i) (match option_map (post_hook i h) (h_post h) with Some p => posts ++ [p] | None => posts end) (w ++ [EPre i])).
      destruct (succeeding (S i) hs) as [l f]. erewrite (imap_ext _ (fun j => pre_hook (S i + j))) by (intros; cbn; by rewrite Nat.add_succ_r). rewrite IH.
      cbn [length Nat.add seq map omap list_omap]. rewrite <- app_assoc. cbn [app]. do 3 f_equal. unfold post_of at 2. cbn [fst snd].
      destruct (h_post h); cbn; [by rewrite <- app_assoc|done].
  - destruct (h_err h) as [e|] eqn:Ee; cbn; rewrite app_nil_r; unfold pre_error; by rewrite ?Ec, Ee.
Qed.

Lemma runPostHooks_watched cmdName ctx (l : list (nat * hook)) errs w :
  runPostHooks_loop ctx cmdName (omap post_of l) errs w = Ok (errs ++ omap (post_error cmdName) l, w ++ omap has_post l).
Proof.
  revert errs w. induction l as [|[i h] l IH]; intros errs w; cbn; [by rewrite !app_nil_r|]. unfold post_of, post_error, has_post; cbn [fst snd].
  destruct (h_post h) as [[e|]|]; cbn; rewrite ?IH, <- ?app_assoc; done.
Qed.

Lemma omap_rev {A B} (f : A -> option B) l : omap f (rev l) = rev (omap f l).
Proof.
  induction l as [|x l IH]; [done|]. cbn [rev]. rewrite omap_app, IH. cbn. destruct (f x); cbn; [done|by rewrite app_nil_r].
Qed.

(** The hooks bracket the command.  The pre-hooks are called in order up to
    the first that fails; the command runs if none does; then, whatever failed,
    the post-hooks of those that succeeded are called in the reverse order, once
    each; all the errors are returned, in the order in which they arose. *)
Theorem hooks_bracket (command : Command log string C V) (fs : FlagSet V) (hs : list hook) (run_err : option string) (args : list string) (ctx : C) :
  flags command = Some fs -> runner command = Some (watched run_err) -> preHooks (opts command) = imap pre_hook hs ->
  let '(l, f) := succeeding 0 hs in
  runCommand WithFlagSet command args ctx [] =
    Ok (Err (match f with Some h => [pre_error (name command) h] | None => match run_err with Some e => [User e] | None => [] end end ++
             omap (post_error (name command)) (rev l)),
        map EPre (seq 0 (length l + match f with Some _ => 1 | None => 0 end)) ++
        match f with Some _ => [] | None => [ERun] end ++ omap has_post (rev l)).
Proof.
  intros Hf Hr Hp. pose proof (runPreHooks_watched (name command) 0 hs ctx [] []) as Hpre. destruct (succeeding 0 hs) as [l f].
  unfold runCommand, runPreHooks. rewrite Hp. change (imap pre_hook hs) with (imap (fun j => pre_hook (0 + j)) hs). rewrite Hpre. cbn [rbind app].
  unfold runPostHooks. destruct f as [h|]; cbn [option_map].
  - rewrite <- omap_rev, runPostHooks_watched. cbn [rbind app]. done.
  - rewrite Hf, Hr. unfold watched. cbn [rbind]. rewrite <- omap_rev, runPostHooks_watched. cbn [rbind]. rewrite Nat.add_0_r, <- app_assoc. done.
Qed.
End bracket.

(** ** Termination *)

Section returns.
Context {W X C V : Type} (parse : nat -> list string -> W -> parsed (E:=X) * W) (WithFlagSet : C -> option (FlagSet V) -> C) (VCSInfo : bool).
Abbreviation Cmd := (Command W X C V).
Abbreviation St := (state W X C V).

(** The functions of the user return. *)
Definition returns {A} (f : C -> W -> res (A * W)) : Prop := forall ctx w, exists r w', f ctx w = Ok (r, w').
Definition pre_returns (pre : PreHook (W:=W) (E:=X) (C:=C)) : Prop :=
  forall ctx w, exists nctx id post err w', pre ctx w = Ok ((nctx, id, post, err), w') /\ forall p, post = Some p -> returns p.
Definition runner_returns (r : Runner (W:=W) (E:=X) (C:=C) (V:=V)) : Prop := forall ctx v args w, exists e w', r ctx v args w = Ok (e, w').
Definition main_returns (m : Main (W:=W) (E:=X) (C:=C)) : Prop := forall f, returns f -> returns (m f).

(** A command as the constructors make it, with flags: it has a runner, or only
    a set of commands below it. *)
Record command_ok (command : Cmd) : Prop := {
  k_flags : exists fs v, flags command = Some (MkFlagSet (Some fs) v);
  k_runner : match runner command with
             | Some r => runner_returns r
             | None => is_Some (subcmds (opts command)) /\ withoutArgs (opts command) = false /\ optionalSingleArg (opts command) = false /\
                       exactArgs (opts command) = false /\ atLeastArgs (opts command) = false
             end;
  k_hooks : Forall pre_returns (preHooks (opts command));
}.

(** A tree: sets are below sets of a higher rank. *)
Record tree_ok (rank : nat -> nat) (st : St) : Prop := {
  k_cmd : forall s cs c, sets st !! s = Some cs -> cmd cs = Some c \/ c ∈ cmds cs ->
    exists command, commands st !! c = Some command /\ command_ok command /\
      forall s', subcmds (opts command) = Some s' -> is_Some (sets st !! s') /\ (rank s' < rank s)%nat;
  k_main : forall s cs m, sets st !! s = Some cs -> globalMain cs = Some m -> main_returns m;
}.

Lemma runPreHooks_returns cmdName hooks ctx (posts : list (PostHook (W:=W) (E:=X) (C:=C))) w : Forall pre_returns hooks -> Forall returns posts ->
  exists ctx' posts' err w', runPreHooks_loop (E:=X) cmdName hooks ctx posts w = Ok ((ctx', posts', err), w') /\ Forall returns posts'.
Proof.
  intros Hh. revert ctx posts w. induction Hh as [|pre hooks Hpre _ IH]; intros ctx posts w Hp; cbn [runPreHooks_loop]; [by eexists _, _, _, _|].
  destruct (Hpre ctx w) as (nctx & id & post & err & w' & -> & Hpost). cbn [rbind].
  destruct nctx as [nctx|], err as [err|]; try by eexists _, _, _, _. apply IH. destruct post as [p|]; [|done].
  apply Forall_app. split; [done|]. apply Forall_singleton. by apply Hpost.
Qed.

Lemma runPostHooks_loop_returns cmdName ctx (l : list (PostHook (W:=W) (E:=X) (C:=C))) errs w : Forall returns l ->
  exists errs' w', runPostHooks_loop ctx cmdName l errs w = Ok (errs', w').
Proof.
  intros Hp. revert errs w. induction Hp as [|post l Hpost _ IH]; intros errs w; cbn [runPostHooks_loop]; [by eexists _, _|].
  destruct (Hpost ctx w) as ([id err] & w' & ->). cbn [rbind]. apply IH.
Qed.

Lemma runPostHooks_returns cmdName ctx (posts : list (PostHook (W:=W) (E:=X) (C:=C))) errs w : Forall returns posts -> exists errs' w', runPostHooks (E:=X) ctx cmdName posts errs w = Ok (Err errs', w').
Proof.
  intros Hp. unfold runPostHooks. destruct (runPostHooks_loop_returns cmdName ctx (rev posts) errs w) as (errs' & w' & E); [by apply Forall_rev|].
  rewrite E. by eexists _, _.
Qed.

Lemma runCommand_returns (command : Cmd) args : command_ok command -> is_Some (runner command) -> returns (runCommand WithFlagSet command args).
Proof.
  intros [(fs & v & Hf) Hr Hh] [r Er] ctx w. unfold runCommand, runPreHooks. rewrite Er in Hr.
  destruct (runPreHooks_returns (name command) (preHooks (opts command)) ctx [] w Hh) as (ctx' & posts & err & w1 & -> & Hp); [constructor|]. cbn [rbind].
  destruct err as [err|].
  - destruct (runPostHooks_returns (name command) ctx' posts [err] w1 Hp) as (errs & w2 & ->). by eexists _, _.
  - rewrite Hf, Er. destruct (Hr (WithFlagSet ctx' (Some (MkFlagSet (Some fs) v))) v args w1) as (e & w2 & E). cbn [flagValues]. rewrite E. cbn [rbind].
    match goal with |- context [runPostHooks ?c ?n ?p ?e ?w] => destruct (runPostHooks_returns n c p e w Hp) as (errs & w3 & ->) end. by eexists _, _.
Qed.

Lemma Parse_returns fs args (st : St) : exists r w, Parse parse (Some fs) args st = Ok (r, with_world w st).
Proof. unfold Parse. destruct (parse fs args (world st)) as [r w]. by eexists _, _. Qed.

Lemma Command_Usage_returns c (st : St) command : commands st !! c = Some command -> command_ok command -> Command_Usage c st = Ok (print (CommandUsage c) st).
Proof. intros Hc [(fs & v & Hf) _ _]. unfold Command_Usage, deref. rewrite Hc. cbn [rbind]. by rewrite Hf. Qed.

Section tree.
Context (rank : nat -> nat).

Lemma tree_quiet (st st' : St) : sets st' = sets st -> commands st' = commands st -> tree_ok rank st -> tree_ok rank st'.
Proof. intros H1 H2 [Hc Hm]. split; rewrite ?H1, ?H2; done. Qed.

Lemma tree_inherit (st : St) s cs s' sub : tree_ok rank st -> sets st !! s = Some cs -> sets st !! s' = Some sub ->
  tree_ok rank (with_set s' (inherit (globalMain cs) sub) st).
Proof.
  intros [Hc Hm] Es Es'. assert (cmd (inherit (globalMain cs) sub) = cmd sub /\ cmds (inherit (globalMain cs) sub) = cmds sub) as [E1 E2].
  { unfold inherit. by destruct (globalMain sub). }
  assert (forall s2 cs2, <[s' := inherit (globalMain cs) sub]> (sets st) !! s2 = Some cs2 ->
    exists cs3, sets st !! s2 = Some cs3 /\ cmd cs2 = cmd cs3 /\ cmds cs2 = cmds cs3 /\ forall m, globalMain cs2 = Some m -> main_returns m) as Hs.
  { intros s2 cs2 H. destruct (decide (s2 = s')) as [->|Hn].
    - rewrite lookup_insert, decide_True in H by done. injection H as <-. exists sub. split_and!; [done..|]. intros m Em. unfold inherit in Em.
      destruct (globalMain sub) eqn:Eg; [apply (Hm s' sub m Es'); congruence|]. by apply (Hm s cs m).
    - rewrite lookup_insert_ne in H by done. exists cs2. split_and!; [done..|]. intros m Em. by apply (Hm s2 cs2 m). }
  split.
  - intros s2 cs2 c H Hin. cbn in H. destruct (Hs s2 cs2 H) as (cs3 & E3 & Ea & Eb & _). rewrite Ea, Eb in Hin.
    destruct (Hc s2 cs3 c E3 Hin) as (command & Ecc & Hok & Hsub). exists command. split_and!; [done..|]. intros s3 H3%Hsub. cbn.
    split; [|apply H3]. destruct (decide (s3 = s')) as [->|Hn]; [rewrite lookup_insert, decide_True by done; by eexists|]. rewrite lookup_insert_ne by done. apply H3.
  - intros s2 cs2 m H Em. cbn in H. destruct (Hs s2 cs2 H) as (_ & _ & _ & _ & Hmm). by apply Hmm.
Qed.

Lemma help_for_returns cs arg (st : St) : (forall c, c ∈ cs -> exists command, commands st !! c = Some command /\ command_ok command) ->
  exists e st', help_for cs arg st = Ok (e, st').
Proof.
  induction cs as [|c cs IH]; intros Hc; cbn [help_for]; [by eexists _, _|]. destruct (Hc c) as (command & Ec & Hok); [left|].
  unfold deref. rewrite Ec. cbn [rbind]. case_bool_decide; [|apply IH; intros; apply Hc; by right].
  rewrite (Command_Usage_returns c st command) by done. by eexists _, _.
Qed.

Lemma processHelp_returns s cs args (st : St) : tree_ok rank st -> sets st !! s = Some cs -> exists e st', processHelp VCSInfo s cs args st = Ok (e, st').
Proof.
  intros Ht Es. unfold processHelp. destruct args as [|arg args]; [by eexists _, _|]. destruct (is_help arg); [by eexists _, _|].
  case_bool_decide; [destruct VCSInfo; by eexists _, _|]. case_bool_decide; [|by eexists _, _]. destruct (cmd cs) as [c|] eqn:Ec.
  - destruct (k_cmd rank st Ht s cs c Es) as (command & Ecc & Hok & _); [by left|]. unfold deref. rewrite Ecc. cbn [rbind].
    rewrite (Command_Usage_returns c st command) by done. destruct args; [by eexists _, _|]. case_bool_decide; by eexists _, _.
  - destruct args; [by eexists _, _|]. apply help_for_returns. intros c Hin. destruct (k_cmd rank st Ht s cs c Es) as (command & Ecc & Hok & _); [by right|]. by exists command.
Qed.

Lemma find_command_returns cs requested (st : St) : (forall c, c ∈ cs -> is_Some (commands st !! c)) -> exists o, find_command cs requested st = Ok o.
Proof.
  induction cs as [|c cs IH]; intros Hc; cbn [find_command]; [by eexists|]. destruct (Hc c) as [command Ec]; [left|]. unfold deref. rewrite Ec. cbn [rbind].
  case_bool_decide; [by eexists|]. apply IH. intros. apply Hc. by right.
Qed.

Lemma processChosenCmd_returns dispatch s cs c command args ctx (st : St) : tree_ok rank st -> sets st !! s = Some cs -> cmd cs = Some c \/ c ∈ cmds cs ->
  commands st !! c = Some command ->
  (forall s' args st, tree_ok rank st -> is_Some (sets st !! s') -> (rank s' < rank s)%nat -> exists e st', dispatch s' args ctx st = Ok (e, st')) ->
  exists e st', processChosenCmd WithFlagSet dispatch s command args ctx st = Ok (e, st').
Proof.
  intros Ht Es Hc Ecc Hd. destruct (k_cmd rank st Ht s cs c Es Hc) as (command' & Ecc' & Hok & Hsub). rewrite Ecc in Ecc'. injection Ecc' as <-.
  unfold processChosenCmd, deref. rewrite Es. cbn [rbind]. pose proof (choose_spec command args) as Hch.
  destruct (choose command args) as [e|s'|] eqn:Ech; [by eexists _, _| |].
  - destruct (Hsub s' Hch) as [[sub Esub] Hr]. rewrite Esub. cbn [rbind]. apply Hd; [by apply (tree_inherit st s)| |done].
    cbn. rewrite lookup_insert, decide_True by done. by eexists.
  - assert (is_Some (runner command)) as Hrun.
    { destruct (runner command) eqn:Er; [by eexists|]. pose proof (k_runner command Hok) as H. rewrite Er in H. destruct H as ([s' E'] & E1 & E2 & E3 & E4).
      unfold choose in Ech. rewrite E1, E2, E3, E4, E' in Ech. done. }
    assert (returns (mainWrapper cs (runCommand WithFlagSet command args))) as Hm.
    { unfold mainWrapper. destruct (globalMain cs) as [m|] eqn:Em; [apply (k_main rank st Ht s cs m); [done..|]|]; by apply runCommand_returns. }
    destruct (Hm ctx (world st)) as (e & w & ->). by eexists _, _.
Qed.
End tree.

(** C30: On a tree of commands with flags, whose functions return, every dispatch
    returns: as much fuel as there are levels is enough, and no nil pointer is
    used. *)
Theorem Dispatch_returns (rank : nat -> nat) (fuel s : nat) (args : list string) (ctx : C) (st : St) :
  tree_ok rank st -> is_Some (sets st !! s) -> (rank s < fuel)%nat ->
  (forall cs fs, sets st !! s = Some cs -> global cs = Some fs -> is_Some (flagSet fs)) ->
  exists e st', DispatchWithArgs parse WithFlagSet VCSInfo fuel s args ctx st = Ok (e, st').
Proof.
  intros Ht [cs Es] Hf Hg.
  assert (forall s args st, tree_ok rank st -> is_Some (sets st !! s) -> (rank s < fuel)%nat ->
    exists e st', dispatchWithArgs parse WithFlagSet VCSInfo fuel s args ctx st = Ok (e, st')) as Hd.
  { clear. induction fuel as [|fuel IH]; intros s args st Ht [cs Es] Hf; [lia|]. cbn [dispatchWithArgs]. unfold deref at 1. rewrite Es. cbn [rbind].
    destruct ((len args =? 0) && negb (bool_decide (is_Some (cmd cs)))); [by eexists _, _|].
    destruct (processHelp_returns rank s cs args st Ht Es) as (err & st1 & Eh). rewrite Eh. apply (processHelp_quiet parse) in Eh as (Hs1 & Hc1 & _). cbn [rbind].
    destruct err as [err|]; [by eexists _, _|]. apply (tree_quiet rank st st1) in Ht; [|done..]. rewrite <- Hs1 in Es.
    assert (forall command c args w, cmd cs = Some c \/ c ∈ cmds cs -> commands st1 !! c = Some command ->
      exists e st', processChosenCmd WithFlagSet (dispatchWithArgs parse WithFlagSet VCSInfo fuel) s command args ctx (with_world w st1) = Ok (e, st')) as Hp.
    { intros command c args' w Hin Ecc. eapply (processChosenCmd_returns rank); [by apply (tree_quiet rank st1)|exact Es|exact Hin|done|]. intros. apply IH; [done..|lia]. }
    destruct (cmd cs) as [c|] eqn:Ec.
    - destruct (k_cmd rank st1 Ht s cs c Es) as (command & Ecc & Hok & _); [by left|]. unfold deref at 1. rewrite Ecc. cbn [rbind].
      destruct (k_flags command Hok) as (fs & v & ->). cbn [rbind flagSet]. destruct (Parse_returns fs args st1) as (r & w & ->). cbn [rbind].
      destruct r; [|by eexists _, _..]. apply (Hp command c); [by left|done].
    - destruct args as [|requested args]; [by eexists _, _|].
      destruct (find_command_returns (cmds cs) requested st1) as [found Ef].
      { intros c Hin. destruct (k_cmd rank st1 Ht s cs c Es) as (command & Ecc & _); [by right|]. by exists command. }
      rewrite Ef. cbn [rbind]. destruct found as [[c command]|]; [|by eexists _, _]. apply find_command_in in Ef as (Hin & Ecc & _).
      destruct (k_cmd rank st1 Ht s cs c Es) as (command' & Ecc' & Hok & _); [by right|]. rewrite Ecc in Ecc'. injection Ecc' as <-.
      case_match; [by eexists _, _|]. pose proof Hok as [(fs & v & Efl) _ _]. rewrite Efl. unfold parseArgs.
      destruct (Parse_returns fs args st1) as (r & w & ->). cbn [rbind]. destruct r; cbn [rbind].
      + apply (Hp command c); [by right|done].
      + rewrite (Command_Usage_returns c _ command) by done. by eexists _, _.
      + by eexists _, _. }
  unfold DispatchWithArgs, deref. rewrite Es. cbn [rbind]. destruct (global cs) as [fs|] eqn:Eg; [|apply Hd; [done|by eexists|done]].
  destruct (Hg cs fs Es Eg) as [p ->]. destruct (Parse_returns p args st) as (r & w & ->). cbn [rbind]. destruct r; [|by eexists _, _..].
  apply Hd; [by apply (tree_quiet rank st)|by eexists|done].
Qed.
End returns.

(** C29: A dispatch that returns runs what its command line selects, or nothing.  If
    the arguments select a command (by the global flags, then, set by set, by the
    command that is first of the name that comes first, whose flags are parsed from
    what follows, down to a command that takes what is left), the wrapper of its
    set, or the one this takes over from the sets above, is called once, around the
    function of that command and the arguments that are left, and the dispatch
    returns what it returns.  If they select none, it returns an error, having only
    printed and parsed flags. *)
Theorem Dispatch_runs_one {W X C V : Type} (parse : nat -> list string -> W -> parsed (E:=X) * W) (WithFlagSet : C -> option (FlagSet V) -> C) (VCSInfo : bool)
  (fuel s : nat) (args : list string) (ctx : C) (st : state W X C V) e st' :
  DispatchWithArgs parse WithFlagSet VCSInfo fuel s args ctx st = Ok (e, st') ->
  (is_Some e /\ parses parse (world st) (world st') /\ forall c command rest w main, ~ selects parse st s args c command rest w main) \/
  exists c command rest w main, selects parse st s args c command rest w main /\
    main (runCommand WithFlagSet command rest) ctx w = Ok (e, world st').
Proof.
  unfold DispatchWithArgs, deref. destruct (sets st !! s) as [cs|] eqn:Es; [|done]. cbn [rbind]. destruct (global cs) as [[fs v]|] eqn:Eg; cycle 1.
  { intros [(He & Hq & Hno)|(c & command & rest & w & main & Hr & H)]%(dispatch_outcome parse WithFlagSet).
    - left. split_and!; [done..|]. intros c command rest w main (args1 & w1 & Hs & Hr). destruct Hs; simplify_eq. destruct st. by eapply Hno.
    - right. exists c, command, rest, w, main. split; [|done]. exists args, (world st). split; [by eapply starts_plain|]. by destruct st. }
  unfold Parse. destruct fs as [fs|]; [|done]. cbn [flagSet]. destruct (parse fs args (world st)) as [r w1] eqn:Ep. cbn [rbind].
  assert (parses parse (world st) w1) as Hw by (eapply parses_step; rewrite Ep; constructor).
  assert (forall args1 w2, starts parse st s args args1 w2 -> r = Parsed args1 /\ w1 = w2) as Hs.
  { intros args1 w2 H. destruct H as [cs1 Es1 Eg1|cs1 fs1 v1 rest1 w1' Es1 Eg1 Ep1]; simplify_eq; split; congruence. }
  destruct r as [rest1| |err]; [|intros [= <- <-]; left; (split_and!; [by eexists|done|]); by intros c command rest w main (args1 & w2 & [? _]%Hs & _)..].
  intros [(He & Hq & Hno)|(c & command & rest & w & main & Hr & H)]%(dispatch_outcome parse WithFlagSet).
  - left. split_and!; [done|by eapply parses_trans|]. intros c command rest w main (args1 & w2 & [[= <-] <-]%Hs & Hr). by eapply Hno.
  - right. exists c, command, rest, w, main. split; [|done]. exists rest1, w1. split; [by eapply starts_flags|done].
Qed.

(** ** Examples *)

Section examples.
Abbreviation log := (list event).

(** Flags are dropped; nothing is an error. *)
Definition no_flags (fs : nat) (args : list string) (w : log) : parsed (E:=string) * log := (Parsed args, w).
Definition keep (ctx : unit) (fs : option (FlagSet unit)) : unit := ctx.

Definition plain (subs : option nat) (n : Z) : options (W:=log) (E:=string) (C:=unit) :=
  MkOptions false false (bool_decide (subs = None)) false n subs [].
Definition with_fs (fs : option nat) : option (FlagSet unit) := Some (MkFlagSet fs ()).

(** A set with one command above a set with one that takes one argument. *)
Definition two_levels : state log string unit unit := MkState
  {[0%nat := MkCommandSet None None None [0%nat]; 1%nat := MkCommandSet None None None [1%nat]]}
  {[0%nat := MkCommand "a" None (with_fs (Some 0%nat)) (plain (Some 1%nat) 0);
    1%nat := MkCommand "b" (Some (watched None)) (with_fs (Some 1%nat)) (plain None 1)]} [] [].

(** A top-level command without flags, as [NewCommand] makes it. *)
Definition top_level : state log string unit unit := MkState
  {[0%nat := MkCommandSet None None (Some 0%nat) []; 1%nat := MkCommandSet None None None [0%nat]]}
  {[0%nat := MkCommand "a" (Some (watched None)) (with_fs None) (plain None 0)]} [] [].

Lemma two_levels_dispatch :
  (let! (e, st) := DispatchWithArgs no_flags keep false 2 0 ["a"; "b"; "x"] () two_levels in Ok (e, world st)) = Ok (None, [ERun]) /\
  (let! (e, st) := DispatchWithArgs no_flags keep false 2 0 ["a"; "b"] () two_levels in Ok (e, world st)) = Ok (Some (Exactly "b" 1), []).
Proof. by vm_compute. Qed.

Lemma without_flags_panics : DispatchWithArgs no_flags keep false 1 0 ["x"] () top_level = Panic /\
  DispatchWithArgs no_flags keep false 1 1 ["help"; "a"] () top_level = Panic.
Proof. by vm_compute. Qed.

Lemma two_levels_ok : tree_ok (fun s => 1 - s)%nat two_levels.
Proof.
  split.
  - intros s cs c Es Hc. cbn [sets two_levels] in Es.
    apply lookup_insert_Some in Es as [[<- <-]|[_ Es]]; [|apply lookup_singleton_Some in Es as [<- <-]];
      (destruct Hc as [?|Hc]; [done|]); apply list_elem_of_singleton in Hc as ->.
    + eexists. split; [reflexivity|]. split; [split; [by eexists _, _|cbn; split_and!; [by eexists|done..]|constructor]|].
      intros s' [= <-]. split; [by eexists|]. cbn. lia.
    + eexists. split; [reflexivity|]. split; [split; [by eexists _, _|by intros ? ? ? ?; eexists _, _|constructor]|]. done.
  - intros s cs m Es Em. cbn [sets two_levels] in Es.
    apply lookup_insert_Some in Es as [[<- <-]|[_ Es]]; [done|]. by apply lookup_singleton_Some in Es as [<- <-].
Qed.

Lemma Dispatch_returns_witness : exists e st', DispatchWithArgs no_flags keep false 2 0 ["a"; "b"; "x"] () two_levels = Ok (e, st').
Proof. apply (Dispatch_returns no_flags keep false (fun s => 1 - s)%nat); [exact two_levels_ok|by eexists|cbn; lia|by intros cs fs [= <-]]. Defined.

Lemma Dispatch_runs_one_witness : exists c command rest w main, selects no_flags two_levels 0%nat ["a"; "b"; "x"] c command rest w main /\
  main (runCommand keep command rest) () w = Ok (None, [ERun]).
Proof.
  destruct (DispatchWithArgs no_flags keep false 2 0 ["a"; "b"; "x"] () two_levels) as [[e st']| |] eqn:Ed; [|vm_compute in Ed; discriminate..].
  assert (e = None /\ world st' = [ERun]) as [Ee Ew] by (vm_compute in Ed; injection Ed as <- <-; done).
  destruct (Dispatch_runs_one no_flags keep false 2 0 ["a"; "b"; "x"] () two_levels e st' Ed) as [([? He] & _)|H]; [congruence|]. by rewrite Ee, Ew in H.
Defined.

Lemma hooks_bracket_witness :
  let c := MkCommand (W:=log) (C:=unit) "c" (Some (watched (Some "run"))) (with_fs (Some 0%nat))
    (MkOptions false false false false 0 None (imap pre_hook [MkHook "p" true (Some (Some "post")) None; MkHook "q" true (Some None) None])) in
  runCommand keep c [] () [] =
    Ok (Some (M [User "run"; PostHookFailed "c" "p" "post"]), [EPre 0; EPre 1; ERun; EPost 1; EPost 0]).
Proof.
  intros c. apply (hooks_bracket keep c (MkFlagSet (Some 0%nat) ())
    [MkHook "p" true (Some (Some "post")) None; MkHook "q" true (Some None) None] (Some "run") [] ()); reflexivity.
Defined.
End examples.
