(* ===== verification/Envfile.v ===== *)
(** * Environment files (cmdutil/envfile/parse_envfile.go)

    The parser of NAME=VALUE lines with its three kinds of values, and the split
    of a reference to a variable of a file (env.go).  A text is a list of runes;
    where the code looks at a byte, it is the first or the last of the encoding
    of a rune.  [IsLetter] and [IsDigit] are those of package unicode. *)

From Stdlib Require Ascii String.
From stdpp Require Import base list option numbers gmap.
From Stdlib Require Import ZArith Lia.
From stdpp Require Import list.
From S2P Require Import Prelude Text.
Import Stdlib.Strings.String.StringSyntax.

Open Scope Z_scope.
Open Scope go_scope.

(** The runes the syntax uses. *)
Definition newline : rune := 10.
Definition carriage : rune := 13.
Definition dquote : rune := 34.
Definition hash : rune := 35.
Definition dollar : rune := 36.
Definition squote : rune := 39.
Definition equals : rune := 61.
Definition backslash : rune := 92.

(** The first and the last byte of the UTF-8 encoding of a rune. *)
Definition first_byte (r : rune) : Z :=
  if r <? 128 then r else if r <? 2048 then 192 + r / 64 else if r <? 65536 then 224 + r / 4096 else 240 + r / 262144.
Definition last_byte (r : rune) : Z := if r <? 128 then r else 128 + r mod 64.

(** [strings.TrimRight(line, "\r\n")]. *)
Fixpoint trim_eol (s : str) : str :=
  match s with r :: s' => if (r =? carriage) || (r =? newline) then trim_eol s' else s | [] => [] end.
Definition TrimRight_eol (s : str) : str := rev (trim_eol (rev s)).

Section envfile.
Context (IsLetter IsDigit : rune -> bool).

(** [None]: there is no export to strip. *)
Definition stripExport (s : str) : option str :=
  if negb (prefixed (Str "export") s) then None
  else
    match drop 6 s with
    | [] => None
    | r :: _ as rest => if IsSpace (first_byte r) then Some (trim_left rest) else None
    end.

Definition isValidName (s : str) : bool :=
  match s with
  | [] => false
  | r :: s => ((r =? 95) || IsLetter r) && forallb (fun r => (r =? 95) || IsLetter r || IsDigit r) s
  end.

(** [None]: the value is not terminated. *)
Definition parseSingleQuoted (s : str) : option str :=
  match strings_Cut s squote with Some (value, _) => Some value | None => None end.

(** What an escape stands for. *)
Definition unescape (c : rune) : str :=
  if c =? 110 then [10] else if c =? 116 then [9] else if c =? 114 then [13]
  else if c =? dquote then [dquote] else if c =? backslash then [backslash] else if c =? dollar then [dollar]
  else [backslash; c].

Fixpoint parseDoubleQuoted (b s : str) : option str :=
  match s with
  | [] => None
  | c :: s =>
      if c =? dquote then Some b
      else if c =? backslash then
        match s with
        | [] => parseDoubleQuoted (b ++ [c]) s
        | d :: s => parseDoubleQuoted (b ++ unescape d) s
        end
      else parseDoubleQuoted (b ++ [c]) s
  end.

(** [s[:end]]: up to the first # after white space; [prev] is the rune before. *)
Fixpoint before_comment (prev : option rune) (s : str) : str :=
  match s with
  | [] => []
  | c :: s =>
      if (c =? hash) && (match prev with Some p => IsSpace (last_byte p) | None => false end) then []
      else c :: before_comment (Some c) s
  end.

Definition parseUnquoted (s : str) : str := strings_TrimSpace (before_comment None s).

Definition parseValue (s : str) : option str :=
  match s with
  | [] => Some []
  | c :: rest =>
      if c =? squote then parseSingleQuoted rest
      else if c =? dquote then parseDoubleQuoted [] rest
      else Some (parseUnquoted s)
  end.

(** [None]: an error; [Some None]: not ok. *)
Definition parseLine (line : str) : option (option (str * str)) :=
  let line := trim_left line in
  if (len line =? 0) || bool_decide (hd_error line = Some hash) then Some None
  else
    let line := match stripExport line with Some rest => rest | None => line end in
    match strings_Cut line equals with
    | None => Some None
    | Some (name, rest) =>
        if negb (isValidName name) then None
        else match parseValue rest with None => None | Some value => Some (Some (name, value)) end
    end.

(** The reads up to a newline; the last piece has none. *)
Fixpoint parse_pieces (pieces : list str) (result : gmap str str) : option (gmap str str) :=
  match pieces with
  | [] => Some result
  | piece :: pieces =>
      let line := match pieces with [] => piece | _ => piece ++ [newline] end in
      if 0 <? len line then
        match parseLine (TrimRight_eol line) with
        | None => None
        | Some (Some (name, value)) => parse_pieces pieces (<[name := value]> result)
        | Some None => parse_pieces pieces result
        end
      else parse_pieces pieces result
  end.

(** A reader of the text, which may fail at its end. *)
Definition Parse (text : str) (fails : bool) : option (gmap str str) :=
  match parse_pieces (strings_Split text newline) ∅ with
  | None => None
  | Some result => if fails then None else Some result
  end.
End envfile.

(** ** env.go: [for i := range len(s) - 1 { ... }] *)

Fixpoint last_ref (i : Z) (s : str) (last : Z) : Z :=
  match s with
  | x :: (y :: _) as s' => last_ref (i + 1) s' (if (x =? 58) && (y =? dollar) then i else last)
  | _ => last
  end.

Definition splitFilenameRef (s : str) : res (option (str * str)) :=
  let last := last_ref 0 s (-1) in
  if last <? 0 then Ok None
  else
    let! filename := zslice s 0 last in
    let! ref := zslice s (last + 1) (len s) in
    Ok (Some (filename, ref)).

(** ** Values *)

(** A value as the text between double quotes. *)
Definition escape_rune (c : rune) : str :=
  if c =? 10 then [backslash; 110] else if c =? 13 then [backslash; 114]
  else if c =? dquote then [backslash; dquote] else if c =? backslash then [backslash; backslash] else [c].
Definition escape (v : str) : str := flat_map escape_rune v.

Lemma parseDoubleQuoted_escape b v rest : parseDoubleQuoted b (escape v ++ dquote :: rest) = Some (b ++ v).
Proof.
  revert b. induction v as [|c v IH]; intros b; cbn [escape flat_map app]; [cbn; by rewrite app_nil_r|]. fold (escape v). unfold escape_rune.
  destruct (Z.eqb_spec c 10) as [->|H1]; [cbn; rewrite IH; by rewrite <- app_assoc|].
  destruct (Z.eqb_spec c 13) as [->|H2]; [cbn; rewrite IH; by rewrite <- app_assoc|].
  destruct (Z.eqb_spec c dquote) as [->|H3]; [cbn; rewrite IH; by rewrite <- app_assoc|].
  destruct (Z.eqb_spec c backslash) as [->|H4]; [cbn; rewrite IH; by rewrite <- app_assoc|].
  cbn [app parseDoubleQuoted]. rewrite (proj2 (Z.eqb_neq c dquote)), (proj2 (Z.eqb_neq c backslash)) by done. rewrite IH. by rewrite <- app_assoc.
Qed.

Lemma escape_free v : newline ∉ escape v.
Proof.
  induction v as [|c v IH]; [apply not_elem_of_nil|]. cbn [escape flat_map]. rewrite not_elem_of_app. split; [|exact IH].
  unfold escape_rune, newline, backslash, dquote. repeat (case_match; bool_to_prop); rewrite list_elem_of_In; cbn; lia.
Qed.

(** The texts of a value: between double or single quotes, or as it is. *)
Inductive writes : str -> str -> Prop :=
  | w_double v : writes v (dquote :: escape v ++ [dquote])
  | w_single v : squote ∉ v -> newline ∉ v -> writes v (squote :: v ++ [squote])
  | w_plain v : strings_TrimSpace v = v -> before_comment None v = v -> newline ∉ v ->
      hd_error v <> Some squote -> hd_error v <> Some dquote -> writes v v.

Lemma parseValue_writes v text : writes v text -> parseValue text = Some v.
Proof.
  destruct 1 as [v|v Hs Hn|v Ht Hc Hn H1 H2]; cbn [parseValue].
  - change (dquote =? squote) with false. change (dquote =? dquote) with true. cbv iota. by rewrite parseDoubleQuoted_escape.
  - change (squote =? squote) with true. cbv iota. unfold parseSingleQuoted. by rewrite strings_Cut_at.
  - destruct v as [|c v]; [done|]. cbn in H1, H2. cbn [parseValue]. rewrite (proj2 (Z.eqb_neq c squote)), (proj2 (Z.eqb_neq c dquote)) by congruence.
    unfold parseUnquoted. by rewrite Hc, Ht.
Qed.

(** A text ends with a rune that is kept, if it is not empty. *)
Lemma TrimRight_eol_keep l r : r <> carriage -> r <> newline -> TrimRight_eol (l ++ [r]) = l ++ [r].
Proof.
  intros H1 H2. unfold TrimRight_eol. rewrite rev_app_distr. cbn. rewrite (proj2 (Z.eqb_neq r carriage)), (proj2 (Z.eqb_neq r newline)) by done. cbn.
  by rewrite rev_involutive.
Qed.

Lemma TrimRight_eol_newline l : TrimRight_eol (l ++ [newline]) = TrimRight_eol l.
Proof. unfold TrimRight_eol. by rewrite rev_app_distr. Qed.

Lemma TrimSpace_last v : strings_TrimSpace v = v -> v = [] \/ exists u r, v = u ++ [r] /\ IsSpace r = false.
Proof.
  intros H. destruct v as [|r u] using rev_ind; [by left|]. right. exists u, r. split; [done|].
  destruct (IsSpace r) eqn:Er; [|done]. exfalso. unfold strings_TrimSpace in H.
  assert (forall s, (length (trim_left s) <= length s)%nat) as Hl by (induction s as [|x s IHs]; cbn; [done|case_match; cbn; lia]).
  assert (forall s t, trim_left (s ++ t) = (if forallb IsSpace s then trim_left t else trim_left s ++ t)) as Happ.
  { induction s as [|x s IHs]; intros t; [done|]. cbn. by destruct (IsSpace x). }
  rewrite Happ in H. cbn in H. rewrite Er in H. destruct (forallb IsSpace u); [by destruct u|]. rewrite rev_app_distr in H. cbn in H. rewrite Er in H.
  apply (f_equal length) in H. rewrite length_rev, length_app in H. pose proof (Hl (rev (trim_left u))) as H1. rewrite length_rev in H1. pose proof (Hl u). cbn in H. lia.
Qed.

Lemma writes_line v text pre : writes v text -> (newline ∉ text) /\ TrimRight_eol (pre ++ equals :: text) = pre ++ equals :: text.
Proof.
  assert (forall u r, r <> carriage -> r <> newline -> TrimRight_eol (pre ++ equals :: u ++ [r]) = pre ++ equals :: u ++ [r]) as Hk.
  { intros u r H1 H2. change (pre ++ equals :: u ++ [r]) with (pre ++ (equals :: u) ++ [r]). rewrite app_assoc. by apply TrimRight_eol_keep. }
  destruct 1 as [v|v Hs Hn|v Ht _ Hn _ _].
  - split; [|by apply (Hk (dquote :: escape v))]. rewrite not_elem_of_cons, not_elem_of_app. split_and!; [done|apply escape_free|by rewrite not_elem_of_cons; split; [|apply not_elem_of_nil]].
  - split; [|by apply (Hk (squote :: v))]. rewrite not_elem_of_cons, not_elem_of_app. split_and!; [done..|by rewrite not_elem_of_cons; split; [|apply not_elem_of_nil]].
  - split; [done|]. destruct (TrimSpace_last v Ht) as [->|(u & r & -> & Hr)]; [by apply TrimRight_eol_keep|]. apply Hk; intros ->; done.
Qed.

(** ** Lines *)

Section lines.
Context (IsLetter IsDigit : rune -> bool).

(** What package unicode says of letters and digits. *)
Definition letters_ok : Prop := forall r, IsLetter r = true \/ IsDigit r = true ->
  0 <= r < 1114112 /\ IsSpace r = false /\ r <> equals /\ r <> hash.

Context (Hletters : letters_ok).

(** A rune of a name. *)
Definition name_rune (r : rune) : Prop := 0 <= r < 1114112 /\ IsSpace r = false /\ r <> equals /\ r <> hash.

Lemma valid_runes n : isValidName IsLetter IsDigit n = true -> n <> [] /\ Forall name_rune n.
Proof.
  assert (forall r, (r =? 95) || IsLetter r || IsDigit r = true -> name_rune r) as Hr.
  { intros r [[H|H]%orb_true_iff|H]%orb_true_iff; [|apply Hletters; by left|apply Hletters; by right]. apply Z.eqb_eq in H as ->. split_and!; done. }
  unfold isValidName. destruct n as [|r n]; [done|]. intros [H1 H2]%andb_true_iff. split; [done|]. constructor.
  - apply Hr. by rewrite H1.
  - rewrite forallb_forall in H2. rewrite Forall_forall. intros x Hx. apply Hr, H2. by apply list_elem_of_In.
Qed.

Lemma first_byte_space r : name_rune r -> IsSpace (first_byte r) = false.
Proof.
  intros (H1 & H2 & _). unfold first_byte. destruct (Z.ltb_spec r 128); [done|].
  set (b := if r <? 2048 then _ else _). assert (192 <= b < 256) as Hb.
  { subst b. destruct (Z.ltb_spec r 2048); [div_lia|]. destruct (Z.ltb_spec r 65536); div_lia. }
  clearbody b. unfold IsSpace. repeat (match goal with |- context [?x <=? ?y] => destruct (Z.leb_spec x y); try lia
    | |- context [?x =? ?y] => destruct (Z.eqb_spec x y); try lia end; cbn [andb orb]); done.
Qed.

Lemma name_free n : Forall name_rune n -> (equals ∉ n) /\ (newline ∉ n).
Proof. intros H. rewrite Forall_forall in H. split; intros Hin%H; unfold name_rune in Hin; [by destruct Hin as (_ & _ & ? & _)|by destruct Hin as (_ & E & _)]. Qed.

(** No name with what follows it looks like an export. *)
Lemma no_export n text : Forall name_rune n -> stripExport (n ++ equals :: text) = None.
Proof.
  intros Hn. unfold stripExport. destruct (prefixed _ _) eqn:Ep; [|done]. cbn [negb].
  destruct (drop 6 (n ++ equals :: text)) as [|r rest] eqn:Ed; [done|].
  destruct (decide (6 <= length n)%nat) as [Hl|Hl].
  - destruct (decide (length n = 6)%nat) as [H6|H6].
    + rewrite <- H6, drop_app_length in Ed. injection Ed as <- _. done.
    + rewrite drop_app_le in Ed by lia. destruct (drop 6 n) as [|x m] eqn:Em; [apply (f_equal length) in Em; rewrite length_drop in Em; cbn in Em; lia|].
      cbn in Ed. injection Ed as <- _. rewrite first_byte_space; [done|]. apply (Forall_drop _ 6) in Hn. rewrite Em in Hn. by inversion Hn.
  - exfalso. apply prefixed_drop in Ep as [k Ek]. apply (f_equal (fun l => l !! length n)) in Ek. rewrite list_lookup_middle in Ek by done.
    destruct (length n) as [|[|[|[|[|[|]]]]]]; cbn in Ek; try lia; done.
Qed.

(** A line and what it defines. *)
Inductive line_of : option (str * str) -> str -> Prop :=
  | l_blank : line_of None []
  | l_comment c : newline ∉ c -> line_of None (hash :: c)
  | l_define (export : bool) n v text : isValidName IsLetter IsDigit n = true -> writes v text ->
      line_of (Some (n, v)) ((if export then Str "export " else []) ++ n ++ equals :: text).

Lemma trim_name n text : n <> [] -> Forall name_rune n -> trim_left (n ++ text) = n ++ text.
Proof. intros Hne Hn. destruct Hn as [|r n (_ & Hr & _) _]; [done|]. cbn [app]. by apply trim_left_keep. Qed.

Lemma parseLine_define (export : bool) n v text : isValidName IsLetter IsDigit n = true -> writes v text ->
  parseLine IsLetter IsDigit ((if export then Str "export " else []) ++ n ++ equals :: text) = Some (Some (n, v)).
Proof.
  intros Hn Hw. destruct (valid_runes n Hn) as [Hne Hr]. destruct (name_free n Hr) as [He _]. unfold parseLine.
  assert (trim_left ((if export then Str "export " else []) ++ n ++ equals :: text) = (if export then Str "export " else []) ++ n ++ equals :: text) as ->.
  { destruct export; [done|]. by apply (trim_name n). }
  assert ((len ((if export then Str "export " else []) ++ n ++ equals :: text) =? 0) || bool_decide (hd_error ((if export then Str "export " else []) ++ n ++ equals :: text) = Some hash) = false) as ->.
  { apply orb_false_iff. split; [rewrite len_zero; apply bool_decide_false; by destruct export, n|]. apply bool_decide_false. destruct export; [done|].
    destruct Hr as [|r n' (_ & _ & _ & Hh) _]; [done|]. cbn. congruence. }
  assert (match stripExport ((if export then Str "export " else []) ++ n ++ equals :: text) with Some rest => rest | None => (if export then Str "export " else []) ++ n ++ equals :: text end
    = n ++ equals :: text) as ->.
  { destruct export; [|by cbn [app]; rewrite no_export]. change (Str "export " ++ n ++ equals :: text) with (Str "export" ++ 32 :: n ++ equals :: text). unfold stripExport.
    rewrite prefixed_app. cbn [negb]. change (drop 6 (Str "export" ++ 32 :: n ++ equals :: text)) with (32 :: n ++ equals :: text).
    change (IsSpace (first_byte 32)) with true. cbv iota. change (trim_left (32 :: n ++ equals :: text)) with (trim_left (n ++ equals :: text)). by rewrite trim_name. }
  rewrite strings_Cut_at by done. rewrite Hn. cbn [negb]. by rewrite (parseValue_writes v).
Qed.

Lemma trim_eol_hash s : exists k, trim_eol (s ++ [hash]) = k ++ [hash].
Proof. induction s as [|r s IH]; [by exists []|]. cbn. case_match; [done|]. by exists (r :: s). Qed.

Lemma line_of_parse o line : line_of o line -> (newline ∉ line) /\ parseLine IsLetter IsDigit (TrimRight_eol line) = Some o.
Proof.
  destruct 1 as [|c Hc|export n v text Hn Hw].
  - split; [apply not_elem_of_nil|done].
  - split; [by apply not_elem_of_cons|]. unfold TrimRight_eol. change (rev (hash :: c)) with (rev c ++ [hash]). destruct (trim_eol_hash (rev c)) as [k ->].
    rewrite rev_app_distr. cbn [rev app]. unfold parseLine. rewrite trim_left_keep by done. rewrite bool_decide_true by done. by rewrite orb_true_r.
  - destruct (valid_runes n Hn) as [Hne Hr]. destruct (name_free n Hr) as [_ Hnl].
    destruct (writes_line v text ((if export then Str "export " else []) ++ n) Hw) as [Ht E]. rewrite <- app_assoc in E. rewrite E. split; [|by apply parseLine_define].
    rewrite !not_elem_of_app, not_elem_of_cons. split_and!; [|done|done|done]. destruct export; [|apply not_elem_of_nil].
    apply (bool_decide_eq_true_1 _). vm_compute. reflexivity.
Qed.

(** The definitions, the later ones over the earlier. *)
Definition defines (m : gmap str str) (os : list (option (str * str))) : gmap str str :=
  foldl (fun m o => match o with Some (n, v) => <[n := v]> m | None => m end) m os.

Lemma parse_pieces_lines os lines m : Forall2 line_of os lines ->
  parse_pieces IsLetter IsDigit (lines ++ [[]]) m = Some (defines m os).
Proof.
  intros H. revert m. induction H as [|o line os lines Hl _ IH]; intros m; [done|]. destruct (line_of_parse o line Hl) as [_ Hp].
  cbn [app parse_pieces]. destruct (lines ++ [[]]) as [|p ps] eqn:E; [by destruct lines|].
  rewrite len_pos, bool_decide_true by (by destruct line). rewrite TrimRight_eol_newline, Hp. unfold defines. cbn [foldl]. destruct o as [[n v]|]; apply IH.
Qed.
End lines.

(** C28: A file of lines that are blank, comments or definitions, exported or not,
    whose values are between double quotes with the escapes, between single
    quotes or plain, is read as the map of its definitions, a later one over an
    earlier of the same name.  Names are of letters and digits of Unicode and
    underscores. *)
Theorem Parse_lines (IsLetter IsDigit : rune -> bool) (os : list (option (str * str))) (lines : list str) :
  letters_ok IsLetter IsDigit -> Forall2 (line_of IsLetter IsDigit) os lines ->
  Parse IsLetter IsDigit (flat_map (fun line => line ++ [newline]) lines) false = Some (defines ∅ os).
Proof.
  intros Hl H. unfold Parse.
  assert (flat_map (fun line => line ++ [newline]) lines = strings_Join (lines ++ [[]]) [newline]) as ->.
  { clear. induction lines as [|l lines IH]; [done|]. cbn [flat_map app]. rewrite strings_Join_cons by (by destruct lines). by rewrite IH, <- app_assoc. }
  rewrite strings_Split_Join.
  - by rewrite (parse_pieces_lines IsLetter IsDigit Hl os).
  - by destruct lines.
  - apply Forall_app. split; [|constructor; [apply not_elem_of_nil|constructor]]. clear -Hl H. induction H as [|o line os lines H1 _ IH]; [constructor|].
    constructor; [|done]. by apply (line_of_parse IsLetter IsDigit Hl o).
Qed.

(** ** References to variables of files *)

(** Where a reference begins. *)
Definition ref_at (s : str) (j : nat) : Prop := s !! j = Some 58 /\ s !! S j = Some dollar.

Lemma last_ref_spec i s last :
  (last_ref i s last = last /\ forall j, ~ ref_at s j) \/
  exists j, last_ref i s last = i + Z.of_nat j /\ ref_at s j /\ forall k, (j < k)%nat -> ~ ref_at s k.
Proof.
  revert i last. induction s as [|x s IH]; intros i last; [left; by split; [|intros j [? _]]|]. destruct s as [|y s].
  { left. split; [done|]. by intros [|j] [? ?]. }
  cbn [last_ref]. destruct (IH (i + 1) (if (x =? 58) && (y =? dollar) then i else last)) as [[E Hn]|(j & E & Hj & Hk)].
  - cbn [last_ref] in E. rewrite E. destruct ((x =? 58) && (y =? dollar)) eqn:Exy; [right; exists 0%nat|left].
    + apply andb_true_iff in Exy as [->%Z.eqb_eq ->%Z.eqb_eq]. split_and!; [lia|done|]. intros [|k] Hk [H1 H2]; [lia|]. by apply (Hn k).
    + split; [done|]. intros [|j] [H1 H2]; [|by apply (Hn j)]. cbn in H1, H2. injection H1 as ->. injection H2 as ->. done.
  - right. exists (S j). cbn [last_ref] in E. rewrite E. split_and!; [lia|done|]. intros [|k] Hlt [H1 H2]; [lia|]. apply (Hk k); [lia|done].
Qed.

(** A reference is cut at the last colon that a dollar follows. *)
Lemma splitFilenameRef_spec s : exists o, splitFilenameRef s = Ok o /\
  match o with
  | Some (filename, ref) => s = filename ++ 58 :: ref /\ hd_error ref = Some dollar /\ forall k, (length filename < k)%nat -> ~ ref_at s k
  | None => forall j, ~ ref_at s j
  end.
Proof.
  unfold splitFilenameRef. destruct (last_ref_spec 0 s (-1)) as [[-> Hn]|(j & -> & Hj & Hk)]; [by exists None|].
  rewrite (proj2 (Z.ltb_ge _ 0)) by lia. destruct Hj as [H1 H2]. pose proof (lookup_lt_Some _ _ _ H1). pose proof (lookup_lt_Some _ _ _ H2).
  rewrite Z.add_0_l, zslice_0 by lia. cbn [rbind]. replace (Z.of_nat j + 1) with (Z.of_nat (S j)) by lia. rewrite zslice_end by lia. cbn [rbind].
  eexists. split; [done|]. cbn. split_and!.
  - rewrite <- (drop_S s 58 j) by done. by rewrite take_drop.
  - rewrite (drop_S s dollar (S j)) by done. done.
  - rewrite length_take. intros k Hlt. apply Hk. lia.
Qed.

(** ** Examples *)

Definition letter (r : rune) : bool := (65 <=? r) && (r <=? 90) || (97 <=? r) && (r <=? 122).
Definition digit (r : rune) : bool := (48 <=? r) && (r <=? 57).

Lemma letters_ok_ascii : letters_ok letter digit.
Proof.
  intros r Hr. assert (48 <= r <= 122 /\ r <> equals) as [Hb He].
  { unfold letter, digit, equals in *. rewrite orb_true_iff, !andb_true_iff, !Z.leb_le in Hr. lia. }
  split_and!; [lia|lia| |done|unfold hash; lia]. unfold IsSpace.
  repeat (match goal with |- context [?x <=? ?y] => destruct (Z.leb_spec x y); try lia
    | |- context [?x =? ?y] => destruct (Z.eqb_spec x y); try lia end; cbn [andb orb]); done.
Qed.

(** A # after a rune whose last byte looks like white space begins a comment:
    224 is encoded as the bytes 195 and 160. *)
Lemma comment_inside_word : parseUnquoted [224; hash; 98] = [224] /\ parseUnquoted [225; hash; 98] = [225; hash; 98].
Proof. by vm_compute. Qed.

(** Names are made of the letters and digits of Unicode: e with an acute accent is
    one, although the comment of [isValidName] says [A-Za-z_][A-Za-z0-9_]*. *)
Lemma accented_name (IsLetter IsDigit : rune -> bool) : IsLetter 233 = true -> parseLine IsLetter IsDigit [233; equals; 49] = Some (Some ([233], [49])).
Proof. intros H. unfold parseLine. change (strings_Cut _ equals) with (Some ([233], [49])). cbn [isValidName]. unfold isValidName. rewrite H, orb_true_r. done. Qed.

(** What follows a closing quote is dropped. *)
Lemma rest_after_quote : parseValue (squote :: Str "a" ++ squote :: Str "b") = Some (Str "a").
Proof. by vm_compute. Qed.

Lemma Parse_lines_witness :
  Parse letter digit (flat_map (fun line => line ++ [newline]) [hash :: Str " x"; Str "A=1"; Str "export " ++ Str "A" ++ equals :: (dquote :: escape [dquote; 10] ++ [dquote])]) false
    = Some (defines ∅ [None; Some (Str "A", Str "1"); Some (Str "A", [dquote; 10])]).
Proof.
  apply (Parse_lines letter digit _ _ letters_ok_ascii). constructor; [|constructor; [|constructor; [|constructor]]].
  - constructor. apply (bool_decide_eq_true_1 _). vm_compute. reflexivity.
  - apply (l_define letter digit false (Str "A") (Str "1") (Str "1")); [done|].
    constructor; try done. apply (bool_decide_eq_true_1 _). vm_compute. reflexivity.
  - apply (l_define letter digit true (Str "A")); [done|]. constructor.
Defined.
