(* ===== verification/Textutil.v ===== *)
(** * Text utilities (text/textutil)

    The iterator over the components of a text and the first and last lines of
    one (split.go), rewrite rules (rewrite.go), the removal of curly quotes
    (curly_quotes.go) and the reversal of a string that may hold bytes that are
    not UTF-8 (reverse.go).  Regular expressions are a parameter. *)

From Stdlib Require Ascii String.
From stdpp Require Import base list option numbers gmap.
From Stdlib Require Import ZArith Lia.
From stdpp Require Import list.
From S2P Require Import Prelude Text.
Import Stdlib.Strings.String.StringSyntax.

Open Scope Z_scope.
Open Scope go_scope.

(** ** split.go *)

Section split.
Context {S : Type} (yield : Z -> str -> S -> bool * S).

(** The loop of an iteration.  [remaining] is a variable outside the iterator:
    what is left of it is returned. *)
Fixpoint split_loop (fuel : nat) (sep : rune) (remaining : str) (i : Z) (st : S) : res (str * S) :=
  match fuel with
  | O => NoFuel
  | Datatypes.S fuel =>
      let idx := Index remaining [sep] in
      if idx =? -1 then let '(_, st) := yield i remaining st in Ok (remaining, st)
      else
        let! component := zslice remaining 0 idx in
        let! remaining := zslice remaining (idx + 1) (len remaining) in
        let '(more, st) := yield i component st in
        if negb more then Ok (remaining, st) else split_loop fuel sep remaining (i + 1) st
  end.

(** One iteration over the value of [SplitString(s, sep)]. *)
Definition SplitString (sep : rune) (remaining : str) (st : S) : res (str * S) :=
  split_loop (Datatypes.S (length remaining)) sep remaining 0 st.

(** The components one after the other, until the consumer stops: how many were
    taken, and the state. *)
Fixpoint feed (i : Z) (comps : list str) (st : S) : nat * S :=
  match comps with
  | [] => (O, st)
  | c :: comps =>
      let '(more, st) := yield i c st in
      if negb more then (1%nat, st) else let '(n, st) := feed (i + 1) comps st in (Datatypes.S n, st)
  end.
End split.

Fixpoint head_loop (n : nat) (b : str) (sep : rune) (idx : Z) : res str :=
  match n with
  | O => zslice b 0 idx
  | Datatypes.S n =>
      let! rest := zslice b idx (len b) in
      let next := Index rest [sep] in
      if next =? -1 then Ok b else head_loop n b sep (idx + (next + 1))
  end.

Definition Head (b : str) (sep : rune) (n : Z) : res str :=
  if n <=? 0 then Ok [] else head_loop (Z.to_nat n) b sep 0.

Fixpoint tail_loop (n : nat) (b : str) (sep : rune) (idx : Z) : res str :=
  match n with
  | O => zslice b (idx + 1) (len b)
  | Datatypes.S n =>
      let! front := zslice b 0 idx in
      let prev := LastIndexByte front sep in
      if prev =? -1 then Ok b else tail_loop n b sep prev
  end.

Definition Tail (b : str) (sep : rune) (n : Z) : res str :=
  if n <=? 0 then Ok []
  else
    let end_ := len b in
    let! end_ := (if 0 <? end_ then let! c := checked (zget b (end_ - 1)) in Ok (if c =? sep then end_ - 1 else end_) else Ok end_) in
    tail_loop (Z.to_nat n) b sep end_.

(** ** rewrite.go *)

Section rewrite.
Context {RE : Type} (Compile : str -> option RE) (MatchString : RE -> str -> bool) (ReplaceAll : RE -> str -> str -> str).

Definition backslash : rune := 92.

(** The loop of [toSep]: what is before the separator and after it. *)
Fixpoint toSep_from (out : str) (prev : rune) (input : str) (sep : rune) : option (str * str) :=
  match input with
  | [] => None
  | c :: input =>
      if (c =? sep) && negb (prev =? backslash) then Some (out, input)
      else toSep_from (if negb (c =? backslash) then out ++ [c] else out) c input sep
  end.

Definition toSep (input : str) (sep : rune) : option (str * str) := toSep_from [] 0 input sep.

Record RewriteRule := MkRule { Match : RE; Replacement : str }.

Definition NewRewriteRule (rule : str) : res (option RewriteRule) :=
  if len rule <=? 2 then Ok None
  else
    let! r0 := checked (zget rule 0) in
    if negb (r0 =? 115) then Ok None
    else
      let! sep := checked (zget rule 1) in
      if negb ((sep =? 37) || (sep =? 47)) then Ok None
      else
        let! input := zslice rule 2 (len rule) in
        Ok (match toSep input sep with
            | None => None
            | Some (mtch, rem) =>
                match toSep rem sep with
                | None => None
                | Some (repl, rem) =>
                    if negb (len rem =? 0) then None
                    else match Compile mtch with None => None | Some re => Some (MkRule re repl) end
                end
            end).

Fixpoint new_rules (rw : list RewriteRule) (rules : list str) : res (option (list RewriteRule)) :=
  match rules with
  | [] => Ok (Some rw)
  | rule :: rules =>
      let! rr := NewRewriteRule rule in
      match rr with None => Ok None | Some rr => new_rules (rw ++ [rr]) rules end
  end.
Definition NewRewriteRules : list str -> res (option (list RewriteRule)) := new_rules [].

Definition ReplaceAllString (rr : RewriteRule) (input : str) : str := ReplaceAll (Match rr) input (Replacement rr).

Fixpoint ReplaceAllStringFirst (rw : list RewriteRule) (input : str) : str :=
  match rw with
  | [] => input
  | r :: rw => if MatchString (Match r) input then ReplaceAllString r input else ReplaceAllStringFirst rw input
  end.
End rewrite.

(** ** curly_quotes.go, with the classes Pi and Pf of package unicode *)

Section quotes.
Context (Pi Pf : rune -> bool).

Fixpoint trim_open (text : str) : str := match text with r :: text' => if Pi r then trim_open text' else text | [] => [] end.
Fixpoint trim_close (text : str) : str := match text with r :: text' => if Pf r then trim_close text' else text | [] => [] end.

(** The runes are decoded from the end. *)
Definition TrimUnicodeQuotes (text : str) : str := rev (trim_close (rev (trim_open text))).
End quotes.

(** ** reverse.go *)

(** What ranging over a string finds: a rune, or a byte that is not part of one,
    for which it gives the replacement character. *)
Inductive chunk := Rune (r : rune) | Bad (b : Z).

(** [utf8.EncodeRune]. *)
Definition encode (r : rune) : list Z :=
  if r <? 128 then [r]
  else if r <? 2048 then [192 + r / 64; 128 + r mod 64]
  else if r <? 65536 then [224 + r / 4096; 128 + r / 64 mod 64; 128 + r mod 64]
  else [240 + r / 262144; 128 + r / 4096 mod 64; 128 + r / 64 mod 64; 128 + r mod 64].

Definition RuneError : rune := 65533.
Definition ranged (c : chunk) : rune := match c with Rune r => r | Bad _ => RuneError end.
Definition chunk_bytes (c : chunk) : list Z := match c with Rune r => encode r | Bad b => [b] end.

(** [reversed[lp+i] = runeBytes[i]], each index checked. *)
Fixpoint put (reversed : list Z) (lp : Z) (bytes : list Z) : res (list Z) :=
  match bytes with
  | [] => Ok reversed
  | b :: bytes =>
      if (0 <=? lp) && (lp <? len reversed) then put (zset reversed lp b) (lp + 1) bytes else Panic
  end.

Fixpoint reverse_loop (input : list chunk) (lp : Z) (reversed : list Z) : res (list Z) :=
  match input with
  | [] => Ok reversed
  | c :: input =>
      let runeBytes := encode (ranged c) in
      let lp := lp - len runeBytes in
      let! reversed := put reversed lp runeBytes in
      reverse_loop input lp reversed
  end.

Definition ReverseBytes (input : list chunk) : res (list Z) :=
  let lp := len (flat_map chunk_bytes input) in
  reverse_loop input lp (replicate (Z.to_nat lp) 0).

(** ** Iteration *)

Lemma split_on_length c piece s : (1 <= length (split_on c piece s))%nat.
Proof. destruct (split_on_cons c piece s) as (x & l & ->). cbn. lia. Qed.

Section iteration.
Context {S : Type} (yield : Z -> str -> S -> bool * S).

Lemma feed_length i comps st : ((feed yield i comps st).1 <= length comps)%nat.
Proof.
  revert i st. induction comps as [|c comps IH]; intros i st; cbn; [done|]. destruct (yield i c st) as [more st']. destruct more; cbn; [|lia].
  specialize (IH (i + 1) st'). destruct (feed yield (i + 1) comps st'). cbn in *. lia.
Qed.

Lemma split_loop_feed fuel sep remaining i st : (length remaining < fuel)%nat ->
  let comps := strings_Split remaining sep in
  let '(n, st') := feed yield i comps st in
  split_loop yield fuel sep remaining i st = Ok (strings_Join (drop (Nat.min n (length comps - 1)) comps) [sep], st').
Proof.
  revert remaining i st. induction fuel as [|fuel IH]; intros remaining i st Hf; [lia|]. cbv zeta. cbn [split_loop]. unfold strings_Split.
  destruct (first_occurrence remaining sep) as [Hn|(a & b & -> & Ha)].
  - rewrite split_on_none, Index_rune_none by done. change (-1 =? -1) with true. cbv iota. cbn [app feed length Nat.sub]. destruct (yield i remaining st) as [more st'].
    destruct more; cbn [negb]; rewrite ?Nat.min_0_r; done.
  - rewrite split_on_app, Index_rune by done. cbn [app]. pose proof (len_nonneg a). rewrite (proj2 (Z.eqb_neq (len a) (-1))) by lia.
    rewrite zslice_before. cbn [rbind]. replace (len a + 1) with (len (a ++ [sep])) by (rewrite len_app; done).
    replace (a ++ sep :: b) with ((a ++ [sep]) ++ b) by (by rewrite <- app_assoc). rewrite zslice_after. cbn [rbind feed].
    destruct (yield i a st) as [more st']. pose proof (split_on_length sep [] b) as Hl. destruct more; cbn [negb].
    + specialize (IH b (i + 1) st'). cbv zeta in IH. unfold strings_Split in IH. destruct (feed yield (i + 1) (split_on sep [] b) st') as [n st2].
      rewrite IH by (rewrite length_app in Hf; cbn in Hf; lia). cbn [length]. do 2 f_equal. cbn [Nat.sub]. rewrite Nat.sub_0_r.
      replace (Nat.min (Datatypes.S n) (length (split_on sep [] b))) with (Datatypes.S (Nat.min n (length (split_on sep [] b) - 1))) by lia. done.
    + cbn [length]. replace (Nat.min 1 _) with 1%nat by lia. cbn [drop]. f_equal. f_equal. symmetry. apply (strings_Join_Split b sep).
Qed.
End iteration.

(** An iteration over [SplitString] hands the components of [strings.Split]
    to its consumer, in order and with their indices, until the consumer stops;
    what it leaves for the next iteration is the text after the components that
    were taken, but at least the last one. *)
Theorem SplitString_splits {S : Type} (yield : Z -> str -> S -> bool * S) (sep : rune) (s : str) (st : S) :
  let comps := strings_Split s sep in
  let '(n, st') := feed yield 0 comps st in
  (n <= length comps)%nat /\
  SplitString yield sep s st = Ok (strings_Join (drop (Nat.min n (length comps - 1)) comps) [sep], st').
Proof.
  cbv zeta. unfold SplitString. pose proof (split_loop_feed yield (Datatypes.S (length s)) sep s 0 st ltac:(lia)) as H. cbv zeta in H.
  pose proof (feed_length yield 0 (strings_Split s sep) st) as Hn. destruct (feed yield 0 (strings_Split s sep) st) as [n st']. by split.
Qed.

(** ** First and last lines *)

Lemma head_loop_spec n pre b sep : exists h, head_loop n (pre ++ b) sep (len pre) = Ok h /\
  ((Count b sep < Z.of_nat n /\ h = pre ++ b) \/
   exists a r, h = pre ++ a /\ b = a ++ r /\ Count a sep = Z.of_nat n /\ (if decide (n = O) then a = [] else last a = Some sep)).
Proof.
  revert pre b. induction n as [|n IH]; intros pre b; cbn [head_loop].
  - rewrite zslice_before. exists pre. split; [done|]. right. exists [], b. by rewrite app_nil_r.
  - rewrite zslice_after. cbn [rbind]. destruct (first_occurrence b sep) as [Hn|(a & b' & -> & Ha)].
    + rewrite Index_rune_none by done. change (-1 =? -1) with true. cbv iota. exists (pre ++ b). split; [done|]. left. rewrite Count_notin by done. split; [lia|done].
    + rewrite Index_rune by done. pose proof (len_nonneg a). rewrite (proj2 (Z.eqb_neq (len a) (-1))) by lia.
      replace (len pre + (len a + 1)) with (len (pre ++ a ++ [sep])) by (rewrite !len_app; done).
      replace (pre ++ a ++ sep :: b') with ((pre ++ a ++ [sep]) ++ b') by (by rewrite <- !app_assoc).
      destruct (IH (pre ++ a ++ [sep]) b') as (h & -> & [[Hc ->]|(a2 & r & -> & -> & Hc & Hl)]); eexists; (split; [done|]).
      * left. rewrite Count_app, Count_cons, (Count_notin a) by done. split; [lia|]. by rewrite <- !app_assoc.
      * right. exists (a ++ sep :: a2), r. split_and!.
        -- by rewrite <- !app_assoc.
        -- by rewrite <- app_assoc.
        -- rewrite Count_app, Count_cons, (Count_notin a) by done. lia.
        -- rewrite decide_False by done. destruct n as [|n]; [rewrite decide_True in Hl by done; subst a2; by rewrite last_snoc|].
           rewrite decide_False in Hl by done. by rewrite last_app, last_cons, Hl.
Qed.

(** A text without its last separator. *)
Definition unended (b : str) (sep : rune) : str := if bool_decide (last b = Some sep) then removelast b else b.

Lemma LastIndexByte_none s c : c ∉ s -> LastIndexByte s c = -1.
Proof.
  unfold LastIndexByte. assert (forall i f, c ∉ s -> last_index_from i s c f = f) as H; [|by apply H].
  induction s as [|x s IH]; intros i f Hn; [done|]. apply not_elem_of_cons in Hn as [Hx Hn]. cbn. rewrite (proj2 (Z.eqb_neq x c)) by done. by apply IH.
Qed.

Lemma last_occurrence (s : str) c : c ∉ s \/ exists a b, s = a ++ c :: b /\ (c ∉ b).
Proof.
  induction s as [|x s IH]; [left; apply not_elem_of_nil|]. destruct IH as [Hn|(a & b & -> & Hb)]; [|right; by exists (x :: a), b].
  destruct (decide (x = c)) as [->|Hx]; [right; by exists [], s|left]. apply not_elem_of_cons. by split.
Qed.

Lemma tail_loop_spec n front back sep : exists t, tail_loop (Datatypes.S n) (front ++ back) sep (len front) = Ok t /\
  ((Count front sep < Z.of_nat (Datatypes.S n) /\ t = front ++ back) \/
   exists pre body, front = pre ++ sep :: body /\ t = body ++ back /\ Count body sep = Z.of_nat n).
Proof.
  revert front back. induction n as [|n IH]; intros front back; cbn [tail_loop]; rewrite zslice_before; cbn [rbind].
  all: destruct (last_occurrence front sep) as [Hn|(pre & body & -> & Hb)];
    [rewrite LastIndexByte_none by done; exists (front ++ back); split; [done|]; left; rewrite Count_notin by done; split; [lia|done]|].
  all: rewrite LastIndexByte_app by done; pose proof (len_nonneg pre); rewrite (proj2 (Z.eqb_neq (len pre) (-1))) by lia.
  - replace (len pre + 1) with (len (pre ++ [sep])) by (rewrite len_app; done).
    replace ((pre ++ sep :: body) ++ back) with ((pre ++ [sep]) ++ body ++ back) by (by rewrite <- !app_assoc). rewrite zslice_after.
    eexists. split; [done|]. right. exists pre, body. by rewrite Count_notin.
  - specialize (IH pre (sep :: body ++ back)). cbn [tail_loop] in IH. rewrite <- app_assoc. cbn [app]. destruct IH as (t & Et & Ht). exists t. split; [exact Et|].
    destruct Ht as [[Hc ->]|(pre2 & body2 & -> & -> & Hc)].
    + left. rewrite Count_app, Count_cons, (Count_notin body) by done. split; [lia|done].
    + right. exists pre2, (body2 ++ sep :: body). rewrite <- !app_assoc, Count_app, Count_cons, (Count_notin body), Hc by done. split_and!; [done..|lia].
Qed.

(** [Head]: the text up to its n-th separator, or all of it; [Tail]: the text
    after the n-th separator from the end, where a last one does not count, or
    all of it. *)
Lemma Head_lines b sep n : 0 < n -> exists h, Head b sep n = Ok h /\
  ((Count b sep < n /\ h = b) \/ exists r, b = h ++ r /\ Count h sep = n /\ last h = Some sep).
Proof.
  intros Hn. unfold Head. rewrite (proj2 (Z.leb_gt n 0)) by lia. destruct (head_loop_spec (Z.to_nat n) [] b sep) as (h & E & H). exists h. split; [exact E|].
  rewrite Z2Nat.id in H by lia. destruct H as [H|(a & r & -> & -> & Hc & Hl)]; [by left|]. right. exists r. rewrite decide_False in Hl by lia. by split_and!.
Qed.

Lemma Tail_lines b sep n : 0 < n -> exists t, Tail b sep n = Ok t /\
  ((Count (unended b sep) sep < n /\ t = b) \/ exists pre, b = pre ++ sep :: t /\ Count (unended t sep) sep = n - 1).
Proof.
  intros Hn. unfold Tail. rewrite (proj2 (Z.leb_gt n 0)) by lia. replace (Z.to_nat n) with (Datatypes.S (Z.to_nat (n - 1))) by lia.
  assert (exists front back, b = front ++ back /\ (back = [] /\ (last front <> Some sep) \/ back = [sep]) /\
    (if 0 <? len b then let! c := checked (zget b (len b - 1)) in Ok (if c =? sep then len b - 1 else len b) else Ok (len b)) = Ok (len front)) as (front & back & -> & Hb & ->).
  { destruct b as [|x u] using rev_ind; [exists [], []; split_and!; [done|left; done|done]|]. rewrite len_pos, bool_decide_true by (by destruct u).
    assert (zget (u ++ [x]) (len (u ++ [x]) - 1) = Some x) as ->.
    { apply zget_Some. rewrite len_app. change (len [x]) with 1. unfold len. split; [lia|]. replace (Z.to_nat _) with (length u) by lia. by rewrite list_lookup_middle. }
    cbn [checked rbind]. rewrite len_app. change (len [x]) with 1. destruct (Z.eqb_spec x sep) as [->|Hx].
    - exists u, [sep]. split_and!; [done|by right|f_equal; lia].
    - exists (u ++ [x]), []. rewrite app_nil_r, len_app, last_snoc. split_and!; [done|left; split; congruence|done]. }
  cbn [rbind]. destruct (tail_loop_spec (Z.to_nat (n - 1)) front back sep) as (t & -> & H). exists t. split; [done|].
  assert (unended (front ++ back) sep = front) as Eu.
  { unfold unended. destruct Hb as [[-> Hl]| ->]; [rewrite app_nil_r; by rewrite bool_decide_false|]. by rewrite last_snoc, bool_decide_true, removelast_snoc. }
  destruct H as [[Hc ->]|(pre & body & -> & -> & Hc)].
  - left. rewrite Eu. split; [lia|done].
  - right. exists pre. rewrite <- app_assoc. split; [done|].
    assert (unended (body ++ back) sep = body) as ->; [|lia]. unfold unended. destruct Hb as [[-> Hl]| ->].
    + rewrite app_nil_r. rewrite bool_decide_false; [done|]. intros El. apply Hl. by rewrite last_app, last_cons, El.
    + by rewrite last_snoc, bool_decide_true, removelast_snoc.
Qed.

(** ** Rewrite rules *)

(** A text with its separators escaped. *)
Definition escaped (sep : rune) (s : str) : str := flat_map (fun c => if c =? sep then [backslash; c] else [c]) s.

Lemma toSep_escaped sep s out prev rest : sep <> backslash -> backslash ∉ s -> prev <> backslash ->
  toSep_from out prev (escaped sep s ++ sep :: rest) sep = Some (out ++ s, rest).
Proof.
  intros Hsep. revert out prev. induction s as [|c s IH]; intros out prev Hs Hp; cbn [escaped flat_map app toSep_from].
  - rewrite Z.eqb_refl, (proj2 (Z.eqb_neq prev backslash)) by done. cbn. by rewrite app_nil_r.
  - apply not_elem_of_cons in Hs as [Hc Hs]. fold (escaped sep s). destruct (Z.eqb_spec c sep) as [->|Hn]; cbn [app toSep_from].
    + rewrite (proj2 (Z.eqb_neq backslash sep)) by done. cbn [andb]. rewrite !Z.eqb_refl. cbn [negb andb].
      rewrite (proj2 (Z.eqb_neq sep backslash)) by done. cbn [negb]. rewrite IH by done. by rewrite <- app_assoc.
    + rewrite (proj2 (Z.eqb_neq c sep)) by done. cbn [andb]. rewrite (proj2 (Z.eqb_neq c backslash)) by done. cbn [negb]. rewrite IH by done. by rewrite <- app_assoc.
Qed.

(** The rule that is written for a match and a replacement without
    backslashes, with their separators escaped, is read as them; the constructor
    of rules never panics. *)
Theorem RewriteRule_reads {RE : Type} (Compile : str -> option RE) (sep : rune) (mtch repl : str) : sep = 37 \/ sep = 47 ->
  (forall rule, exists o, NewRewriteRule Compile rule = Ok o) /\
  (backslash ∉ mtch -> backslash ∉ repl ->
   NewRewriteRule Compile (115 :: sep :: escaped sep mtch ++ sep :: escaped sep repl ++ [sep]) =
     Ok (option_map (fun re => MkRule re repl) (Compile mtch))).
Proof.
  intros Hsep. assert (forall (a b : rune) rest, zslice (a :: b :: rest) 2 (len (a :: b :: rest)) = Ok rest) as Hz.
  { intros a b rest. exact (zslice_after [a; b] rest). }
  split.
  - intros rule. unfold NewRewriteRule. destruct (Z.leb_spec (len rule) 2); [by eexists|]. destruct rule as [|a [|b rest]]; [unfold len in *; cbn in *; lia|unfold len in *; cbn in *; lia|].
    change (zget (a :: b :: rest) 0) with (Some a). change (zget (a :: b :: rest) 1) with (Some b). cbn [checked rbind]. rewrite Hz. cbn [rbind].
    destruct (negb (a =? 115)); [by eexists|]. destruct (negb ((b =? 37) || (b =? 47))); by eexists.
  - intros Hm Hr. assert (sep <> backslash) as Hs by (unfold backslash; lia). unfold NewRewriteRule. rewrite Hz.
    set (rest := escaped sep mtch ++ sep :: escaped sep repl ++ [sep]). assert (1 <= len rest) as Hl.
    { subst rest. rewrite len_app, len_cons. pose proof (len_nonneg (escaped sep mtch)). pose proof (len_nonneg (escaped sep repl ++ [sep])). lia. }
    rewrite (proj2 (Z.leb_gt _ 2)) by (rewrite !len_cons; lia).
    change (zget (115 :: sep :: rest) 0) with (Some 115). change (zget (115 :: sep :: rest) 1) with (Some sep). cbn [checked rbind].
    change (negb (115 =? 115)) with false. cbv iota. assert (negb ((sep =? 37) || (sep =? 47)) = false) as -> by (destruct Hsep as [-> | ->]; done).
    unfold toSep. subst rest. rewrite toSep_escaped by done. cbn [app]. rewrite toSep_escaped by done. cbn. by destruct (Compile mtch).
Qed.

(** ** Reversal *)

Lemma encode_len r : 1 <= len (encode r) <= 4.
Proof. unfold encode. repeat case_match; unfold len; cbn [length]; lia. Qed.

Lemma put_spec pre old bytes post : length old = length bytes ->
  put (pre ++ old ++ post) (len pre) bytes = Ok (pre ++ bytes ++ post).
Proof.
  revert pre old. induction bytes as [|b bytes IH]; intros pre old Hl; [by destruct old|]. destruct old as [|o old]; [done|]. injection Hl as Hl.
  cbn [put app]. pose proof (len_nonneg pre). pose proof (len_nonneg (old ++ post)). rewrite (proj2 (Z.leb_le 0 (len pre))) by done.
  rewrite (proj2 (Z.ltb_lt (len pre) _)) by (rewrite len_app, len_cons; lia). cbn [andb].
  assert (zset (pre ++ o :: old ++ post) (len pre) b = (pre ++ [b]) ++ old ++ post) as ->.
  { unfold zset, len. rewrite Nat2Z.id. rewrite <- app_assoc. cbn [app].
    rewrite (proj2 (Z.leb_le 0 _)) by lia. rewrite insert_app_r_alt by lia. by rewrite Nat.sub_diag. }
  replace (len pre + 1) with (len (pre ++ [b])) by (rewrite len_app; done). rewrite IH by done. by rewrite <- app_assoc.
Qed.

Lemma put_panic reversed lp bytes : lp < 0 -> bytes <> [] -> put reversed lp bytes = Panic.
Proof. intros Hl Hb. destruct bytes as [|b bytes]; [done|]. cbn. by rewrite (proj2 (Z.leb_gt 0 lp)) by lia. Qed.

Definition is_rune (c : chunk) : bool := match c with Rune _ => true | Bad _ => false end.
Definition written (input : list chunk) : list Z := flat_map (fun c => encode (ranged c)) (rev input).

Lemma written_cons c input : written (c :: input) = written input ++ encode (ranged c).
Proof. unfold written. cbn [rev]. rewrite flat_map_app. cbn. by rewrite app_nil_r. Qed.

(** The loop fills the front from its end, as long as it fits. *)
Lemma reverse_fits input front post : length front = length (written input) ->
  reverse_loop input (len front) (front ++ post) = Ok (written input ++ post).
Proof.
  revert front post. induction input as [|c input IH]; intros front post Hl; [by destruct front|]. cbn [reverse_loop]. rewrite written_cons in Hl |- *.
  rewrite length_app in Hl. set (e := encode (ranged c)) in *. set (k := (length (written input))) in *.
  rewrite <- (take_drop k front). set (f1 := take k front). set (f2 := drop k front).
  assert (length f1 = k) as L1 by (subst f1; rewrite length_take; lia). assert (length f2 = length e) as L2 by (subst f2; rewrite length_drop; lia).
  assert (len (f1 ++ f2) - len e = len f1) as -> by (rewrite len_app; unfold len; lia). rewrite <- app_assoc. rewrite (put_spec f1 f2 e post) by done. cbn [rbind].
  rewrite IH by done. by rewrite <- app_assoc.
Qed.

Lemma reverse_overflows input lp reversed : 0 <= lp < len (written input) -> lp <= len reversed -> reverse_loop input lp reversed = Panic.
Proof.
  revert lp reversed. induction input as [|c input IH]; intros lp reversed Hlp Hr; [change (len (written [])) with 0 in Hlp; lia|]. cbn [reverse_loop]. rewrite written_cons, len_app in Hlp.
  pose proof (encode_len (ranged c)) as He. destruct (Z.lt_ge_cases (lp - len (encode (ranged c))) 0) as [Hn|Hn].
  - rewrite put_panic; [done|done|]. intros E. rewrite E in He. change (len []) with 0 in He. lia.
  - set (e := encode (ranged c)) in *. set (k := Z.to_nat (lp - len e)).
    assert (reversed = take k reversed ++ take (length e) (drop k reversed) ++ drop (length e) (drop k reversed)) as Es.
    { rewrite (take_drop (length e)). by rewrite take_drop. }
    assert (length (take k reversed) = k) as L1 by (rewrite length_take; unfold len in *; lia).
    assert (length (take (length e) (drop k reversed)) = length e) as L2 by (rewrite length_take, length_drop; unfold len in *; lia).
    assert (len (take k reversed) = lp - len e) as Lk by (unfold len at 1; rewrite L1; unfold k; lia).
    assert (put reversed (lp - len e) e = Ok (take k reversed ++ e ++ drop (length e) (drop k reversed))) as ->.
    { rewrite <- (put_spec (take k reversed) (take (length e) (drop k reversed)) e) by done. by rewrite <- Es, Lk. }
    cbn [rbind].
    apply IH; [lia|]. rewrite len_app, Lk. pose proof (len_nonneg (e ++ drop (length e) (drop k reversed))). lia.
Qed.

(** [ReverseBytes] of a valid string is its runes in the reverse order; a
    byte that is not part of a rune makes it panic, since the replacement
    character takes three bytes. *)
Theorem ReverseBytes_spec (input : list chunk) :
  (forallb is_rune input = true -> ReverseBytes input = Ok (flat_map chunk_bytes (rev input))) /\
  (forallb is_rune input = false -> ReverseBytes input = Panic).
Proof.
  unfold ReverseBytes. cbv zeta. set (n := len (flat_map chunk_bytes input)).
  assert (len (replicate (Z.to_nat n) 0) = n) as Hn by (unfold n, len; rewrite length_replicate; lia).
  assert (forallb is_rune input = true -> written input = flat_map chunk_bytes (rev input) /\ len (written input) = n) as Ht.
  { unfold n. clear. induction input as [|c input IH]; [done|]. cbn [forallb]. intros [Hc H]%andb_true_iff. destruct (IH H) as [E1 E2]. rewrite written_cons. cbn [rev flat_map].
    rewrite flat_map_app, !len_app, E1. destruct c as [r|b]; [|done]. cbn. rewrite app_nil_r. split; [done|]. rewrite E1 in E2. lia. }
  assert (forallb is_rune input = false -> n < len (written input)) as Hf.
  { unfold n. assert (len (flat_map chunk_bytes input) <= len (written input) /\ (forallb is_rune input = false -> len (flat_map chunk_bytes input) < len (written input))) as [_ H]; [|exact H].
    clear. induction input as [|c input [IH1 IH2]]; [by split|]. rewrite written_cons. cbn [flat_map forallb]. rewrite !len_app. destruct c as [r|b]; cbn [is_rune ranged chunk_bytes andb].
    - split; [lia|]. intros H. specialize (IH2 H). lia.
    - change (len (encode RuneError)) with 3. change (len [b]) with 1. split; lia. }
  split; intros H.
  - destruct (Ht H) as [E1 E2]. rewrite <- E1. replace n with (len (replicate (Z.to_nat n) 0)) at 1 by exact Hn.
    pose proof (reverse_fits input (replicate (Z.to_nat n) 0) []) as R. rewrite !app_nil_r in R. apply R. unfold len in *. lia.
  - apply reverse_overflows; [|lia]. specialize (Hf H). pose proof (len_nonneg (flat_map chunk_bytes input)). lia.
Qed.

(** ** Examples *)

(** A consumer that takes everything. *)
Definition collect (i : Z) (s : str) (st : list (Z * str)) : bool * list (Z * str) := (true, st ++ [(i, s)]).

(** A second iteration over the same iterator begins where the first ended. *)
Lemma SplitString_again : SplitString collect 44 (Str "a,b,c") [] = Ok (Str "c", [(0, Str "a"); (1, Str "b"); (2, Str "c")]) /\
  SplitString collect 44 (Str "c") [] = Ok (Str "c", [(0, Str "c")]).
Proof. by vm_compute. Qed.

(** Every backslash is dropped, also in front of other runes. *)
Lemma backslash_dropped : NewRewriteRule Some (Str "s/\d/x/") = Ok (Some (MkRule (Str "d") (Str "x"))).
Proof. by vm_compute. Qed.

Lemma RewriteRule_reads_witness :
  NewRewriteRule Some (115 :: 47 :: escaped 47 (Str "a/b") ++ 47 :: escaped 47 (Str "c") ++ [47]) = Ok (Some (MkRule (Str "a/b") (Str "c"))).
Proof. apply (proj2 (RewriteRule_reads Some 47 (Str "a/b") (Str "c") (or_intror eq_refl))); apply (bool_decide_eq_true_1 _); vm_compute; reflexivity. Defined.

Lemma ReverseBytes_spec_witness : ReverseBytes [Rune 97; Rune 8364; Bad 255] = Panic /\ ReverseBytes [Rune 97; Rune 8364] = Ok [226; 130; 172; 97].
Proof. split; [apply ReverseBytes_spec|apply (ReverseBytes_spec [Rune 97; Rune 8364])]; reflexivity. Defined.
