(* ===== verification/Scanner.v ===== *)
(** * Lines of a scanner (package bufio)

    [bufio.NewScanner] over a text, as text/linewrap and debug/goroutines use it: the
    lines that it gives, and whether it then stops with [bufio.ErrTooLong] because
    the next line does not fit into its buffer of 64 KiB. *)

From stdpp Require Import base list option numbers.
From Stdlib Require Import ZArith Lia.
From stdpp Require Import list.
From S2P Require Import Prelude Text Textutil.

Open Scope Z_scope.
Open Scope go_scope.

Definition MaxScanTokenSize : Z := 64 * 1024.

(** The length of a text in bytes. *)
Definition size (s : str) : Z := len (flat_map encode s).

(** The lines of a text, as [bufio.ScanLines] cuts them: none after the last newline. *)
Definition raw_lines (text : str) : list str :=
  let pieces := strings_Split text 10 in
  if bool_decide (last pieces = Some []) then removelast pieces else pieces.

(** One carriage return at the end is dropped. *)
Definition dropCR (line : str) : str := strings_TrimSuffix line 13.

(** A line that fills the buffer, without its newline, ends the scan. *)
Definition fits (line : str) : bool := size line <? MaxScanTokenSize.

Fixpoint scan_from (lines : list str) : list str * bool :=
  match lines with
  | [] => ([], false)
  | l :: lines => if fits l then let (ls, tooLong) := scan_from lines in (dropCR l :: ls, tooLong) else ([], true)
  end.

(** What successive calls of [Scan] and [Text] give, and whether [Err] is then
    [ErrTooLong]. *)
Definition scan_lines (text : str) : list str * bool := scan_from (raw_lines text).

(** The lines before the first that is too long. *)
Fixpoint before_long (lines : list str) : list str :=
  match lines with [] => [] | l :: lines => if fits l then l :: before_long lines else [] end.

(** ** Lemmas *)

Lemma scan_from_spec lines : scan_from lines = (map dropCR (before_long lines), negb (forallb fits lines)).
Proof. induction lines as [|l lines IH]; cbn; [done|]. destruct (fits l); [|done]. by rewrite IH. Qed.

Lemma before_long_all lines : Forall (fun l => fits l = true) lines -> before_long lines = lines.
Proof. induction 1 as [|l lines Hl _ IH]; cbn; [done|]. by rewrite Hl, IH. Qed.

Lemma forallb_fits lines : Forall (fun l => fits l = true) lines -> forallb fits lines = true.
Proof. induction 1 as [|l lines Hl _ IH]; cbn; [done|]. by rewrite Hl, IH. Qed.

(** The lines before a long one are an initial part of the lines. *)
Lemma before_long_prefix lines : exists rest, lines = before_long lines ++ rest /\ (rest <> [] -> exists l r, rest = l :: r /\ fits l = false).
Proof.
  induction lines as [|l lines (rest & E & H)]; cbn; [by exists []|]. destruct (fits l) eqn:F.
  - exists rest. split; [by rewrite E at 1|exact H].
  - exists (l :: lines). split; [done|]. intros _. by exists l, lines.
Qed.

(** Lines that are written each with a newline. *)
Definition unlines (ls : list str) : str := flat_map (fun l => l ++ [10]) ls.

Lemma unlines_app a b : unlines (a ++ b) = unlines a ++ unlines b.
Proof. apply flat_map_app. Qed.

Lemma raw_unlines ls : Forall (fun l => 10 ∉ l) ls -> raw_lines (unlines ls) = ls.
Proof.
  intros H. unfold raw_lines, strings_Split.
  assert (split_on 10 [] (unlines ls) = ls ++ [[]]) as ->.
  { induction H as [|l ls Hl _ IH]; [done|]. cbn [unlines flat_map]. rewrite <- app_assoc. cbn [app].
    rewrite split_on_app by done. cbn [app]. f_equal. exact IH. }
  by rewrite last_snoc, bool_decide_eq_true_2, removelast_snoc.
Qed.

(** A line that comes back as it is. *)
Definition line_ok (l : str) : Prop := (10 ∉ l) /\ last l <> Some 13 /\ size l < MaxScanTokenSize.

Lemma scan_unlines ls : Forall line_ok ls -> scan_lines (unlines ls) = (ls, false).
Proof.
  intros H. unfold scan_lines. rewrite raw_unlines by (eapply Forall_impl; [exact H|intros l; by intros [? _]]).
  induction H as [|l ls (_ & Hc & Hs) _ IH]; cbn; [done|]. unfold fits. rewrite (proj2 (Z.ltb_lt _ _)), IH by done.
  unfold dropCR, strings_TrimSuffix. by rewrite bool_decide_eq_false_2.
Qed.

Lemma size_app a b : size (a ++ b) = size a + size b.
Proof. unfold size. by rewrite flat_map_app, len_app. Qed.

Lemma size_cons r s : size (r :: s) = len (encode r) + size s.
Proof. unfold size. cbn [flat_map]. by rewrite len_app. Qed.

Lemma size_nonneg s : 0 <= size s.
Proof. apply len_nonneg. Qed.

(** The text up to its first line that is too long. *)
Definition scanned (text : str) : str := strings_Join (before_long (raw_lines text)) [10].

Lemma scanned_prefix text : scanned text `prefix_of` text.
Proof.
  assert (exists k, strings_Split text 10 = before_long (raw_lines text) ++ k) as [k Ek].
  { destruct (before_long_prefix (raw_lines text)) as (rest & E & _). unfold raw_lines in E at 1. case_bool_decide as Hl; [|by exists rest].
    apply last_Some in Hl as [l El]. rewrite El, removelast_snoc in E. exists (rest ++ [[]]). rewrite El, E at 1. by rewrite <- app_assoc. }
  pose proof (strings_Join_Split text 10) as J. rewrite Ek in J. unfold scanned. set (p := before_long _) in *. clearbody p.
  rewrite <- J. destruct (decide (p = [])) as [->|Hp]; [apply prefix_nil|].
  destruct (decide (k = [])) as [->|Hk]; [by rewrite app_nil_r|]. rewrite strings_Join_app by done. by eexists.
Qed.

(** Without such a line it is the text, or the text without its last newline. *)
Lemma scanned_all text : Forall (fun l => fits l = true) (raw_lines text) -> scanned text = text \/ scanned text ++ [10] = text.
Proof.
  intros H. unfold scanned. rewrite before_long_all by done. pose proof (strings_Join_Split text 10) as J. unfold raw_lines.
  case_bool_decide as Hl; [|by left]. apply last_Some in Hl as [l El]. rewrite El in J |- *. rewrite removelast_snoc.
  destruct (decide (l = [])) as [->|Hne]; [by left|]. right. by rewrite strings_Join_app in J.
Qed.
