(* ===== verification/Linewrap.v ===== *)
(** * Wrapping of text (text/linewrap)

    Paragraphs, blocks and comments of words up to a width, and the prefixing of
    lines.  Lines are those of [Scanner], which stops at a line that is too long;
    words are those of a scanner over one of its lines, whose buffer they fit. *)

From Stdlib Require Ascii String.
From stdpp Require Import base list option numbers gmap.
From Stdlib Require Import ZArith Lia.
From stdpp Require Import list.
From S2P Require Import Prelude Text Textutil Scanner.

Open Scope Z_scope.
Open Scope go_scope.

(** [bufio.ScanWords], with the word that has been read so far. *)
Fixpoint words_from (word s : str) : list str :=
  match s with
  | [] => if is_empty word then [] else [word]
  | r :: s =>
      if IsSpace r then (if is_empty word then [] else [word]) ++ words_from [] s
      else words_from (word ++ [r]) s
  end.
Definition scan_words (s : str) : list str := words_from [] s.

Definition newline : str := [10].

(** What is sent on the channel: the words of each line that the scanner gives, or a
    newline.  The scanner's error is not looked at. *)
Definition generateWordsAndNewLines (text : str) : list str :=
  flat_map (fun line => match scan_words line with [] => [newline] | ws => ws end) (fst (scan_lines text)).

(** [strings.Repeat(" ", n)]. *)
Definition blanks (n : Z) : res str := if n <? 0 then Panic else Ok (replicate (Z.to_nat n) 32).

(** [strings.TrimRightFunc(pad, unicode.IsSpace)]. *)
Definition TrimRight (s : str) : str := rev (trim_left (rev s)).

Record wrap := MkWrap { out : str; offset : Z; newLine : bool; nBlankLines : Z }.

(** The body of the loop over the channel. *)
Definition wrap_word (width : Z) (prefix pad blankPad : str) (w : wrap) (word : str) : wrap :=
  if bool_decide (word = newline) then
    let n := nBlankLines w + 1 in
    if n =? 1 then
      MkWrap (out w ++ newline ++ (if 0 <? len prefix then blankPad else []) ++ newline ++ pad) (size pad) true n
    else MkWrap (out w) (offset w) (newLine w) n
  else
    let displayWidth := len word + 1 in
    let remaining := width - offset w in
    let overage := offset w + displayWidth - width in
    let w :=
      if (width <? offset w + displayWidth) && (remaining <? overage) then MkWrap (out w ++ newline ++ pad) (size pad) true 0
      else MkWrap (out w) (offset w) (newLine w) 0 in
    MkWrap (out w ++ (if negb (newLine w) then [32] else []) ++ word) (offset w + displayWidth) false 0.

Definition prefixedParagraph (initial indent width : Z) (prefix text : str) : res str :=
  let! b := blanks initial in
  let initialPad := b ++ prefix in
  let! b := blanks indent in
  let pad := b ++ prefix in
  let blankPad := TrimRight pad in
  Ok (out (foldl (wrap_word width prefix pad blankPad) (MkWrap initialPad (size pad) true 0) (generateWordsAndNewLines text))).

Definition Paragraph (initial indent width : Z) (text : str) : res str := prefixedParagraph initial indent width [] text.
Definition Block (indent width : Z) (text : str) : res str := prefixedParagraph indent indent width [] text.
Definition Comment (indent width : Z) (comment text : str) : res str := prefixedParagraph indent indent width comment text.

(** The loop of [Prefix]. *)
Fixpoint prefix_lines (pad : str) (lines : list str) : str :=
  match lines with
  | [] => []
  | l :: lines => (if 0 <? len l then pad ++ l else []) ++ newline ++ prefix_lines pad lines
  end.

Definition Prefix (indent : Z) (prefix text : str) : res str :=
  let! b := blanks indent in Ok (prefix_lines (b ++ prefix) (fst (scan_lines text))).
Definition Verbatim (indent : Z) (text : str) : res str := Prefix indent [] text.

(** ** Words *)

Definition flush (word : str) : list str := if is_empty word then [] else [word].

Lemma words_from_space word a r b : IsSpace r = true -> words_from word (a ++ r :: b) = words_from word a ++ scan_words b.
Proof.
  intros Hr. revert word. induction a as [|x a IH]; intros word; cbn [app words_from]; [by rewrite Hr|].
  destruct (IsSpace x); [|apply IH]. by rewrite IH, <- app_assoc.
Qed.

Lemma scan_words_space a r b : IsSpace r = true -> scan_words (a ++ r :: b) = scan_words a ++ scan_words b.
Proof. apply words_from_space. Qed.

(** A word: not empty, without white space. *)
Definition word_ok (w : str) : Prop := w <> [] /\ Forall (fun r => IsSpace r = false) w.

Lemma words_from_word word w : Forall (fun r => IsSpace r = false) w -> words_from word w = flush (word ++ w).
Proof.
  intros H. revert word. induction H as [|r w Hr _ IH]; intros word; cbn; [by rewrite app_nil_r|]. rewrite Hr, IH. by rewrite <- app_assoc.
Qed.

Lemma scan_words_word w : word_ok w -> scan_words w = [w].
Proof. intros [Hne H]. unfold scan_words. rewrite words_from_word by done. by destruct w. Qed.

Lemma words_from_ok word s : Forall (fun r => IsSpace r = false) word -> Forall word_ok (words_from word s).
Proof.
  revert word. induction s as [|r s IH]; intros word Hw; cbn.
  - destruct word; constructor; [done|constructor].
  - destruct (IsSpace r) eqn:Er; [|apply IH, Forall_app; split; [done|by constructor]]. apply Forall_app. split; [destruct word; constructor; [done|constructor]|].
    by apply IH.
Qed.

(** Only white space. *)
Definition blank (s : str) : Prop := Forall (fun r => IsSpace r = true) s.

Lemma scan_words_blank s : blank s -> scan_words s = [].
Proof. induction 1 as [|r s Hr _ IH]; [done|]. unfold scan_words. cbn. rewrite Hr. exact IH. Qed.

Lemma scan_words_app_blank a s b : blank s -> s <> [] -> scan_words (a ++ s ++ b) = scan_words a ++ scan_words b.
Proof.
  intros H Hne. destruct H as [|r s Hr Hs]; [done|]. cbn [app]. rewrite scan_words_space by done. f_equal. clear Hne. induction Hs as [|x s Hx _ IH]; [done|].
  unfold scan_words. cbn. rewrite Hx. exact IH.
Qed.

Lemma scan_words_trail a s : blank s -> scan_words (a ++ s) = scan_words a.
Proof.
  intros H. destruct (decide (s = [])) as [->|Hne]; [by rewrite app_nil_r|]. pose proof (scan_words_app_blank a s [] H Hne) as E0.
  rewrite (app_nil_r s) in E0. rewrite E0. apply app_nil_r.
Qed.

(** The words of a text are those of its lines. *)
Lemma words_dropCR line : scan_words (dropCR line) = scan_words line.
Proof.
  unfold dropCR, strings_TrimSuffix. case_bool_decide as Hl; [|done]. apply last_Some in Hl as [l ->]. rewrite removelast_snoc.
  change (l ++ [13]) with (l ++ 13 :: []). rewrite scan_words_space by done. cbn. by rewrite app_nil_r.
Qed.

Lemma words_join pieces : scan_words (strings_Join pieces newline) = flat_map scan_words pieces.
Proof.
  induction pieces as [|p pieces IH]; [done|]. destruct pieces as [|q pieces]; [cbn; by rewrite app_nil_r|].
  rewrite strings_Join_cons by done. unfold newline in *. cbn [app]. rewrite scan_words_space by done. by rewrite IH.
Qed.

Lemma words_of_lines text : flat_map scan_words (fst (scan_lines text)) = scan_words (scanned text).
Proof.
  unfold scan_lines, scanned. rewrite scan_from_spec. cbn [fst]. change [10] with newline. rewrite words_join.
  induction (before_long (raw_lines text)) as [|p l IH]; [done|]. cbn. by rewrite words_dropCR, IH.
Qed.

Lemma words_all_scanned text : Forall (fun l => fits l = true) (raw_lines text) -> scan_words (scanned text) = scan_words text.
Proof.
  intros [->|E]%scanned_all; [done|]. rewrite <- E at 2. rewrite scan_words_trail; [done|]. by repeat constructor.
Qed.

(** The channel: words and newlines. *)
Lemma generated text : Forall (fun w => w = newline \/ word_ok w) (generateWordsAndNewLines text) /\
  filter (fun w => w <> newline) (generateWordsAndNewLines text) = scan_words (scanned text).
Proof.
  rewrite <- words_of_lines. unfold generateWordsAndNewLines. induction (fst (scan_lines text)) as [|l ls [IH1 IH2]]; [by split|]. cbn [flat_map].
  assert (Forall word_ok (scan_words l)) as Hok by (apply words_from_ok; constructor).
  assert (filter (fun w => w <> newline) (scan_words l) = scan_words l) as Ef.
  { clear -Hok. induction Hok as [|w ws [_ Hw] _ IH]; [done|]. rewrite filter_cons_True; [by rewrite IH|]. intros ->. by inversion Hw. }
  destruct (scan_words l) as [|w ws] eqn:Ew.
  - split; [constructor; [by left|done]|]. cbn [app]. by rewrite filter_cons_False by (intros H; by apply H).
  - split.
    + apply Forall_app. split; [|done]. eapply Forall_impl; [exact Hok|]. intros x Hx. by right.
    + rewrite filter_app, Ef, IH2. done.
Qed.

(** A text that a word can follow without joining it. *)
Definition open_end (s : str) : Prop := s = [] \/ exists u r, s = u ++ [r] /\ IsSpace r = true.

Lemma open_end_app a s : blank s -> s <> [] -> open_end (a ++ s).
Proof.
  intros H Hne. right. destruct s as [|r u _] using rev_ind; [done|]. apply Forall_app in H as [_ H]. inversion H; subst. exists (a ++ u), r. by rewrite <- app_assoc.
Qed.

Lemma scan_words_open s w : open_end s -> word_ok w -> scan_words (s ++ w) = scan_words s ++ [w].
Proof.
  intros [->|(u & r & -> & Hr)] Hw; [by apply scan_words_word|]. rewrite <- app_assoc. cbn [app]. rewrite !scan_words_space by done. rewrite (scan_words_word w Hw). cbn. by rewrite app_nil_r.
Qed.

Section block.
Context (width : Z) (pad : str) (Hpad : blank pad).

(** After each word: the words that were written, and whether another may follow
    at once. *)
Lemma wrap_word_words w word : word = newline \/ word_ok word -> (newLine w = true -> open_end (out w)) ->
  let w' := wrap_word width [] pad (TrimRight pad) w word in
  scan_words (out w') = scan_words (out w) ++ (if decide (word = newline) then [] else [word]) /\ (newLine w' = true -> open_end (out w')).
Proof.
  intros Hword Ho. cbv zeta. unfold wrap_word. case_bool_decide as En.
  - rewrite decide_True by done. destruct (nBlankLines w + 1 =? 1); cbn [out newLine]; [|by rewrite app_nil_r].
    assert (blank (newline ++ [] ++ newline ++ pad)) as Hb by (repeat constructor; done). change (0 <? len (@nil Z)) with false. cbv iota.
    split; [by rewrite scan_words_trail, app_nil_r|intros _; by apply open_end_app].
  - rewrite decide_False by done. destruct Hword as [?|Hword]; [done|]. set (brk := _ && _).
    destruct brk; cbn [out newLine negb]; (split; [|done]).
    + assert (blank (newline ++ pad)) as Hb by (constructor; done). cbn [app]. rewrite scan_words_open; [|by apply (open_end_app (out w) (newline ++ pad))|done].
      by rewrite (scan_words_trail (out w) (newline ++ pad)).
    + destruct (newLine w) eqn:El; cbn [negb app].
      * by rewrite scan_words_open by auto.
      * rewrite scan_words_space by done. by rewrite (scan_words_word word Hword).
Qed.

Lemma wrap_words w words : Forall (fun x => x = newline \/ word_ok x) words -> (newLine w = true -> open_end (out w)) ->
  scan_words (out (foldl (wrap_word width [] pad (TrimRight pad)) w words)) = scan_words (out w) ++ filter (fun x => x <> newline) words.
Proof.
  intros H. revert w. induction H as [|x words Hx _ IH]; intros w Ho; [cbn; by rewrite app_nil_r|]. cbn [foldl].
  destruct (wrap_word_words w x Hx Ho) as [E Ho']. rewrite IH by done. rewrite E. rewrite <- app_assoc. f_equal. rewrite filter_cons.
  destruct (decide (x = newline)) as [Hn|Hn]; [by rewrite decide_False by (intros H1; by apply H1)|by rewrite decide_True].
Qed.
End block.

(** C38: Wrapping keeps the words up to the scanner's limit: those of a paragraph or
    block are, in order and whatever the width, those of the text before its first
    line of 64 KiB or more, and so those of the whole text when it has no such line;
    the rest is lost without an error.  Only a negative indentation panics. *)
Theorem Paragraph_words (initial indent width : Z) (text : str) :
  (0 <= initial -> 0 <= indent -> exists out, Paragraph initial indent width text = Ok out /\ scan_words out = scan_words (scanned text)) /\
  (scanned text `prefix_of` text /\ (Forall (fun l => size l < 64 * 1024) (raw_lines text) -> scan_words (scanned text) = scan_words text)) /\
  (initial < 0 \/ indent < 0 -> Paragraph initial indent width text = Panic) /\
  (Block indent width text = Paragraph indent indent width text).
Proof.
  unfold Paragraph, Block, prefixedParagraph, blanks. split_and!; [| | | |done].
  - intros H1 H2. rewrite (proj2 (Z.ltb_ge initial 0)), (proj2 (Z.ltb_ge indent 0)) by done. cbn [rbind]. eexists. split; [done|]. rewrite !app_nil_r.
    assert (forall n, blank (replicate n 32)) as Hb by (intros n; by apply Forall_replicate).
    destruct (generated text) as [Hg Ef]. rewrite wrap_words; [|done..|].
    + cbn [out]. by rewrite scan_words_blank, Ef.
    + intros _. cbn [out]. destruct (Z.to_nat initial) as [|n]; [by left|]. apply (open_end_app [] (32 :: replicate n 32)); [apply (Hb (S n))|done].
  - apply scanned_prefix.
  - intros H. apply words_all_scanned. eapply Forall_impl; [exact H|]. intros l Hl. by apply Z.ltb_lt.
  - intros [H|H]; [by rewrite (proj2 (Z.ltb_lt initial 0))|]. destruct (Z.ltb_spec initial 0); [done|]. cbn [rbind]. by rewrite (proj2 (Z.ltb_lt indent 0)).
Qed.

(** The width at which a line is broken depends on what remains on it. *)
Example wrapped : Paragraph 2 1 8 [97; 98; 32; 99; 100; 101; 102; 10; 103; 104] =
  Ok ([32; 32; 97; 98; 32; 99; 100; 101; 102] ++ [10; 32; 103; 104]).
Proof. reflexivity. Qed.

(** The words of a line that is too long, and of the lines after it, are lost. *)
Lemma long_line_lost a b : (10 ∉ a) -> 64 * 1024 <= size a -> Paragraph 0 0 80 (a ++ 10 :: b) = Ok [].
Proof.
  intros Ha Hl. unfold Paragraph, prefixedParagraph, blanks. cbn [Z.ltb Z.compare Z.to_nat rbind replicate app]. unfold generateWordsAndNewLines, scan_lines.
  assert (exists rest, raw_lines (a ++ 10 :: b) = a :: rest) as [rest ->].
  { unfold raw_lines, strings_Split. rewrite split_on_app by done. cbn [app]. destruct (split_on_cons 10 [] b) as (x & l & E). rewrite E.
    case_bool_decide; [|by eexists]. cbn [removelast]. by eexists. }
  cbn [scan_from]. unfold fits, MaxScanTokenSize. by rewrite (proj2 (Z.ltb_ge _ _)).
Qed.

Lemma Paragraph_words_witness :
  (exists out, Paragraph 2 1 8 [97; 32; 32; 98; 10; 10; 99] = Ok out /\ scan_words out = scan_words (scanned [97; 32; 32; 98; 10; 10; 99])) /\
  scan_words (scanned [97; 32; 32; 98; 10; 10; 99]) = [[97]; [98]; [99]].
Proof.
  destruct (Paragraph_words 2 1 8 [97; 32; 32; 98; 10; 10; 99]) as (H1 & [_ H2] & _). split; [apply H1; lia|].
  rewrite H2; [reflexivity|]. repeat constructor.
Defined.
