(* ===== verification/Keys.v ===== *)
(** * The key store (cmdutil/keys: key_info.go, inmemory_keystore.go, redact.go)

    Keys with their tokens.  A token is a slice of bytes, so the arrays behind
    slices are modelled: a store of arrays, in which a slice is the address of its
    array.  The clients of the key store may write to every array they have been
    given.  The decoders of JSON and YAML and the reading of files are parameters. *)

From Stdlib Require Ascii String.
From stdpp Require Import base list option numbers gmap sorting.
From Stdlib Require Import ZArith Lia.
From stdpp Require Import list.
From S2P Require Import Prelude Text Textutil.

Open Scope Z_scope.
Open Scope go_scope.

Import Stdlib.Strings.String.StringSyntax.

(** ** Arrays *)

(** Whole arrays, as the code never cuts a token; a nil slice is [None]. *)
Abbreviation arrays := (list (list Z)).
Definition slice : Type := option nat.

Definition contents (h : arrays) (s : slice) : list Z := match s with Some a => default [] (h !! a) | None => [] end.
Definition alloc (h : arrays) (v : list Z) : arrays * slice := (h ++ [v], Some (length h)).

(** [slices.Clone] keeps nil. *)
Definition Clone (h : arrays) (s : slice) : arrays * slice :=
  match s with Some _ => alloc h (contents h s) | None => (h, None) end.

(** [clear], and the loop that sets every element to zero. *)
Definition clear_slice (h : arrays) (s : slice) : arrays :=
  match s with Some a => <[a := replicate (length (contents h s)) 0]> h | None => h end.

(** ** Keys (key_info.go) *)

Record KeySpec := MkSpec { ID : str; User : str }.

#[export] Instance KeySpec_eq : EqDecision KeySpec.
Proof. solve_decision. Defined.
#[export] Instance KeySpec_countable : Countable KeySpec.
Proof. refine (inj_countable' (fun k => (ID k, User k)) (fun p => MkSpec p.1 p.2) _). by intros []. Defined.

Definition open_bracket : rune := 91.
Definition close_bracket : rune := 93.

Definition KeySpec_String (ko : KeySpec) : str :=
  if negb (bool_decide (User ko = [])) then ID ko ++ [open_bracket] ++ User ko ++ [close_bracket] else ID ko.

Definition ParseKeySpecValue (s : str) : res KeySpec :=
  let openBracket := Index s [open_bracket] in
  let closeBracket := LastIndexByte s close_bracket in
  if (0 <=? openBracket) && (openBracket <? closeBracket) then
    let! id := zslice s 0 openBracket in
    let! user := zslice s (openBracket + 1) closeBracket in
    Ok (MkSpec id user)
  else Ok (MkSpec s []).

Record Token := MkToken { tspec : KeySpec; token : slice }.

Definition Token_Value (t : Token) : slice := token t.
Definition Token_Clear (h : arrays) (t : Token) : arrays := clear_slice h (token t).
Definition Token_String (t : Token) : str := KeySpec_String (tspec t) ++ Str ":****".

Definition NewToken (h : arrays) (id user : str) (value : slice) : arrays * Token :=
  let '(h, c) := Clone h value in (clear_slice h value, MkToken (MkSpec id user) c).

(** [J], [Y] and [V] are the raw JSON, the YAML node and the value of the extra
    information; the zero node is [None]. *)
Section extra.
Context {J Y V : Type}.

Record Info := MkInfo {
  iID : str;
  iUser : str;
  itoken : slice;
  extraJSON : option J;
  extraYAML : option Y;
  extraAny : option V;
}.

Definition NewInfo (h : arrays) (id user : str) (tok : slice) : arrays * Info :=
  let '(h, c) := Clone h tok in (clear_slice h tok, MkInfo id user c None None None).

Definition WithExtra (k : Info) (v : V) : Info := MkInfo (iID k) (iUser k) (itoken k) None None (Some v).

Record keyInfo := MkKeyInfo { kID : str; kUser : str; kToken : str; kExtraJSON : option J; kExtraYAML : option Y }.

Definition Info_String (k : Info) : str := iID k ++ [open_bracket] ++ iUser k ++ [close_bracket].

Definition Info_Token (h : arrays) (k : Info) : arrays * Token :=
  let '(h, c) := Clone h (itoken k) in (h, MkToken (MkSpec (iID k) (iUser k)) c).

Definition Info_KeySpec (k : Info) : KeySpec := MkSpec (iID k) (iUser k).

(** Where [UnmarshalExtra] takes the extra information from. *)
Inductive extra_source := FromAny (v : option V) | FromJSON (j : J) | FromYAML (y : option Y).

Definition UnmarshalExtra (k : Info) : extra_source :=
  match extraJSON k, extraYAML k with
  | None, None => FromAny (extraAny k)
  | Some j, _ => FromJSON j
  | None, y => FromYAML y
  end.

(** The classes of quotes of package unicode. *)
Context (Pi Pf : rune -> bool).

Definition bytes_of (s : str) : list Z := flat_map encode s.

Definition copyInfo (h : arrays) (src : keyInfo) : arrays * Info :=
  let '(h, t) := alloc h (bytes_of (TrimUnicodeQuotes Pi Pf (kToken src))) in
  (h, MkInfo (TrimUnicodeQuotes Pi Pf (kID src)) (TrimUnicodeQuotes Pi Pf (kUser src)) t (kExtraJSON src) (kExtraYAML src) None).

(** ** The store (inmemory_keystore.go)

    A nil map is [None]: reading it is fine, writing to it panics. *)
Definition InMemoryKeyStore : Type := option (gmap KeySpec Info).

Definition NewInMemoryKeyStore : InMemoryKeyStore := Some ∅.

(** [if ims.keys == nil { ims.keys = make(...) }]. *)
Definition made (ims : InMemoryKeyStore) : gmap KeySpec Info := default ∅ ims.

Definition put_key (m : gmap KeySpec Info) (info : Info) : gmap KeySpec Info := <[Info_KeySpec info := info]> m.

Fixpoint load_list (h : arrays) (m : gmap KeySpec Info) (asList : list keyInfo) : arrays * gmap KeySpec Info :=
  match asList with
  | [] => (h, m)
  | ki :: asList => let '(h, info) := copyInfo h ki in load_list h (put_key m info) asList
  end.

Definition unmarshalList (h : arrays) (ims : InMemoryKeyStore) (asList : list keyInfo) : arrays * InMemoryKeyStore :=
  let '(h, m) := load_list h (made ims) asList in (h, Some m).

(** [asMap] is the map in the order it is ranged over. *)
Definition with_id (e : str * keyInfo) : keyInfo := MkKeyInfo e.1 (kUser e.2) (kToken e.2) (kExtraJSON e.2) (kExtraYAML e.2).
Definition unmarshalMap (h : arrays) (ims : InMemoryKeyStore) (asMap : list (str * keyInfo)) : arrays * InMemoryKeyStore :=
  let '(h, m) := load_list h (made ims) (map with_id asMap) in (h, Some m).

(** [UnmarshalJSON] and [UnmarshalYAML] differ in their decoders. *)
Definition unmarshal {D} (decode_list : D -> option (list keyInfo)) (decode_map : D -> option (list (str * keyInfo)))
    (h : arrays) (ims : InMemoryKeyStore) (data : D) : arrays * InMemoryKeyStore * bool :=
  match decode_list data with
  | Some asList => (unmarshalList h ims asList, true)
  | None => match decode_map data with Some asMap => (unmarshalMap h ims asMap, true) | None => (h, ims, false) end
  end.

(** [ReadJSON] and [ReadYAML]; [read] is [fs.ReadFileCtx]. *)
Definition Read {D} decode_list decode_map (read : str -> option D) (h : arrays) (ims : InMemoryKeyStore) (name : str) :
    arrays * InMemoryKeyStore * bool :=
  if len name =? 0 then (h, ims, false)
  else match read name with None => (h, ims, false) | Some data => unmarshal decode_list decode_map h ims data end.

(** [KeyStoreUpdater.refresh] (updater.go): the files that could not be read. *)
Fixpoint refresh {D} decode_list decode_map (read : str -> option D) (h : arrays) (ims : InMemoryKeyStore) (files : list str) :
    arrays * InMemoryKeyStore * list str :=
  match files with
  | [] => (h, ims, [])
  | f :: files =>
      let '(h, ims, ok) := Read decode_list decode_map read h ims f in
      let '(h, ims, errs) := refresh decode_list decode_map read h ims files in
      (h, ims, if (ok : bool) then errs else f :: errs)
  end.

Definition Add (ims : InMemoryKeyStore) (key : Info) : InMemoryKeyStore := Some (put_key (made ims) key).

Definition Get (ims : InMemoryKeyStore) (user id : str) : option Info := made ims !! MkSpec id user.

Definition Delete (ims : InMemoryKeyStore) (user id : str) : InMemoryKeyStore :=
  match ims with Some m => Some (delete (MkSpec id user) m) | None => None end.

Definition Len (ims : InMemoryKeyStore) : Z := Z.of_nat (size (made ims)).

Definition by_id_and_user (a b : Info) : bool :=
  if bool_decide (iID a = iID b) then str_ltb (iUser a) (iUser b) else str_ltb (iID a) (iID b).

(** [vals] are the values of the map in the order they are ranged over. *)
Definition getSortedKeys (sort_Slice : (Info -> Info -> bool) -> list Info -> list Info) (vals : list Info) : list Info := sort_Slice by_id_and_user vals.

Definition KeySpecs (sort_Slice : (Info -> Info -> bool) -> list Info -> list Info) (vals : list Info) : list KeySpec := map Info_KeySpec (getSortedKeys sort_Slice vals).
End extra.
Arguments Info : clear implicits.
Arguments keyInfo : clear implicits.
Arguments InMemoryKeyStore : clear implicits.

(** ** Redaction (redact.go), on bytes *)

Definition star : Z := 42.
Definition RedactStringTail (s : list Z) (keep : Z) : res (list Z) :=
  if (keep <=? 0) || (len s <=? keep) then Ok (replicate (length s) star)
  else let! tail := zslice s (len s - keep) (len s) in Ok (replicate 6 star ++ tail).
Definition RedactStringHead (s : list Z) (keep : Z) : res (list Z) :=
  if (keep <=? 0) || (len s <=? keep) then Ok (replicate (length s) star)
  else let! head := zslice s 0 keep in Ok (head ++ replicate 6 star).
Definition RedactKeyString (s : list Z) (keep : Z) : res (list Z) :=
  if keep <? 0 then RedactStringTail s (int64 (- keep)) else RedactStringHead s keep.

(** [copy] into an array that has been made. *)
Definition copy_at (out : list Z) (pos : nat) (b : list Z) : list Z := take pos out ++ take (length out - pos) b ++ drop (pos + length b) out.
Definition RedactBytesHead (b : list Z) (keep : Z) : res (list Z) :=
  if (keep <=? 0) || (len b <=? keep) then Ok (replicate (length b) star)
  else
    let! head := zslice b 0 keep in
    let out := copy_at (replicate (Z.to_nat (keep + 6)) 0) 0 head in
    Ok (copy_at out (Z.to_nat keep) (replicate 6 star)).
Definition RedactBytesTail (b : list Z) (keep : Z) : res (list Z) :=
  if (keep <=? 0) || (len b <=? keep) then Ok (replicate (length b) star)
  else
    let out := copy_at (replicate (Z.to_nat (6 + keep)) 0) 0 (replicate 6 star) in
    let! tail := zslice b (len b - keep) (len b) in
    Ok (copy_at out 6 tail).
Definition RedactKeyBytes (b : list Z) (keep : Z) : res (list Z) :=
  if keep <? 0 then RedactBytesTail b (int64 (- keep)) else RedactBytesHead b keep.

Definition DefaultRedactionLimit : Z := 6.
Definition LastN (h : arrays) (t : Token) (keep : Z) : res (list Z) := RedactBytesTail (contents h (token t)) (Z.min keep DefaultRedactionLimit).
Definition FirstN (h : arrays) (t : Token) (keep : Z) : res (list Z) := RedactStringHead (contents h (token t)) (Z.min keep DefaultRedactionLimit).

(** ** Key specifications *)

Lemma Index_no_bracket s c : c ∉ s -> Index s [c] = -1.
Proof.
  intros H. unfold Index. generalize 0 as i. induction s as [|r s IH]; intros i; [done|]. apply not_elem_of_cons in H as [Hr H]. cbn [index_from prefixed].
  rewrite (proj2 (Z.eqb_neq _ _)) by congruence. cbn [andb]. by apply IH.
Qed.

Lemma Index_bracket a c b : c ∉ a -> Index (a ++ c :: b) [c] = len a.
Proof.
  intros H. unfold Index. assert (forall i, index_from i (a ++ c :: b) [c] = i + len a) as E; [|by rewrite E].
  induction a as [|r a IH]; intros i.
  - cbn [app index_from prefixed]. rewrite Z.eqb_refl. cbn [andb]. destruct b; change (len (@nil Z)) with 0; lia.
  - apply not_elem_of_cons in H as [Hr H]. cbn [app index_from prefixed]. rewrite (proj2 (Z.eqb_neq _ _)) by congruence. cbn [andb]. rewrite IH, len_cons by done. lia.
Qed.

(** A specification is read back from its text if its id has no bracket; no text
    makes the parser panic. *)
Lemma KeySpec_roundtrip ko : open_bracket ∉ ID ko -> ParseKeySpecValue (KeySpec_String ko) = Ok ko.
Proof.
  intros H. destruct ko as [id user]. unfold KeySpec_String, ParseKeySpecValue. cbn [ID User] in *. case_bool_decide as Eu; cbn [negb].
  - subst user. rewrite Index_no_bracket by done. done.
  - change (id ++ [open_bracket] ++ user ++ [close_bracket]) with (id ++ open_bracket :: (user ++ [close_bracket])). rewrite Index_bracket by done.
    assert (LastIndexByte (id ++ open_bracket :: user ++ [close_bracket]) close_bracket = len id + 1 + len user) as ->.
    { change (id ++ open_bracket :: user ++ [close_bracket]) with (id ++ (open_bracket :: user) ++ close_bracket :: []). rewrite app_assoc, LastIndexByte_app by apply not_elem_of_nil.
      rewrite len_app, len_cons. lia. }
    pose proof (len_nonneg id). pose proof (len_nonneg user). rewrite (proj2 (Z.leb_le _ _)), (proj2 (Z.ltb_lt _ _)) by lia. cbn [andb].
    assert (len (id ++ open_bracket :: user ++ [close_bracket]) = len id + len user + 2) as El by (rewrite len_app, len_cons, len_app; change (len [close_bracket]) with 1; lia).
    rewrite !zslice_Ok by lia. cbn [rbind]. unfold len. f_equal. f_equal.
    + rewrite drop_0. rewrite take_app_length' by lia. done.
    + replace (Z.to_nat (Z.of_nat (length id) + 1)) with (length id + 1)%nat by lia. rewrite drop_app_add. cbn [drop]. rewrite drop_0, take_app_length' by lia. done.
Qed.

Lemma ParseKeySpecValue_total s : exists ko, ParseKeySpecValue s = Ok ko.
Proof.
  unfold ParseKeySpecValue. destruct (Z.leb_spec 0 (Index s [open_bracket])); [|by eexists]. destruct (Z.ltb_spec (Index s [open_bracket]) (LastIndexByte s close_bracket)); [|by eexists].
  cbn [andb]. assert (LastIndexByte s close_bracket <= len s).
  { unfold LastIndexByte in *. destruct (last_index_from_spec 0 s close_bracket (-1)) as [[E _]|(a & b & Es & _ & E)]; rewrite E; [pose proof (len_nonneg s); lia|].
    rewrite Es, len_app, len_cons. pose proof (len_nonneg b). lia. }
  rewrite !zslice_Ok by lia. by eexists.
Qed.

(** ** Tokens and their arrays *)

Section isolation.
Context {J Y V : Type} (Pi Pf : rune -> bool).

(** What the clients of a store do.  They reach the arrays they made and those of
    the tokens they were given, and may write to all of them. *)
Inductive op :=
| Make (bytes : list Z)
| Write (a pos : nat) (b : Z)
| ClearArray (a : nat)
| AddNew (id user : str) (tok : slice)
| TakeNewToken (id user : str) (tok : slice)
| TakeToken (user id : str)
| Rename (user id user' id' : str)
| Remove (user id : str)
| Load (l : list (keyInfo J Y)).

Record world := MkWorld { hp : arrays; store : InMemoryKeyStore J Y V; known : list nat }.

Definition empty_world : world := MkWorld [] None [].

Definition reachable (w : world) (s : slice) : bool := match s with Some a => bool_decide (a ∈ known w) | None => true end.

Definition addr (s : slice) : list nat := match s with Some a => [a] | None => [] end.

Definition run_op (w : world) (o : op) : world :=
  match o with
  | Make bytes => let '(h, s) := alloc (hp w) bytes in MkWorld h (store w) (addr s ++ known w)
  | Write a pos b => if reachable w (Some a) then MkWorld (<[a := <[pos := b]> (contents (hp w) (Some a))]> (hp w)) (store w) (known w) else w
  | ClearArray a => if reachable w (Some a) then MkWorld (Token_Clear (hp w) (MkToken (MkSpec [] []) (Some a))) (store w) (known w) else w
  | AddNew id user tok =>
      if reachable w tok then let '(h, info) := NewInfo (hp w) id user tok in MkWorld h (Add (store w) info) (known w) else w
  | TakeNewToken id user tok =>
      if reachable w tok then let '(h, t) := NewToken (hp w) id user tok in MkWorld h (store w) (addr (Token_Value t) ++ known w) else w
  | TakeToken user id =>
      match Get (store w) user id with
      | Some info => let '(h, t) := Info_Token (hp w) info in MkWorld h (store w) (addr (Token_Value t) ++ known w)
      | None => w
      end
  | Rename user id user' id' =>
      match Get (store w) user id with
      | Some info => MkWorld (hp w) (Add (store w) (MkInfo id' user' (itoken info) (extraJSON info) (extraYAML info) (extraAny info))) (known w)
      | None => w
      end
  | Remove user id => MkWorld (hp w) (Delete (store w) user id) (known w)
  | Load l => let '(h, ims) := unmarshalList Pi Pf (hp w) (store w) l in MkWorld h ims (known w)
  end.

Definition run (ops : list op) : world := foldl run_op empty_world ops.

(** The abstract store: the bytes of each token. *)
Definition tokens_of (h : arrays) (m : gmap KeySpec (Info J Y V)) : gmap KeySpec (list Z) := (fun info => contents h (itoken info)) <$> m.
Definition tokens (w : world) : gmap KeySpec (list Z) := tokens_of (hp w) (made (store w)).

Definition load_spec (m : gmap KeySpec (list Z)) (ki : keyInfo J Y) : gmap KeySpec (list Z) :=
  <[MkSpec (TrimUnicodeQuotes Pi Pf (kID ki)) (TrimUnicodeQuotes Pi Pf (kUser ki)) := bytes_of (TrimUnicodeQuotes Pi Pf (kToken ki))]> m.

Definition spec_op (w : world) (m : gmap KeySpec (list Z)) (o : op) : gmap KeySpec (list Z) :=
  match o with
  | AddNew id user tok => if reachable w tok then <[MkSpec id user := contents (hp w) tok]> m else m
  | Rename user id user' id' => match m !! MkSpec id user with Some v => <[MkSpec id' user' := v]> m | None => m end
  | Remove user id => delete (MkSpec id user) m
  | Load l => foldl load_spec m l
  | _ => m
  end.

(** The arrays of the store are its own. *)
Definition owned (h : arrays) (m : gmap KeySpec (Info J Y V)) (kn : list nat) : Prop :=
  (forall ks info a, m !! ks = Some info -> itoken info = Some a -> (a < length h)%nat /\ a ∉ kn) /\ Forall (fun a => (a < length h)%nat) kn.

Lemma contents_alloc h v s : (forall a, s = Some a -> (a < length h)%nat) -> contents (h ++ [v]) s = contents h s.
Proof. destruct s as [a|]; [|done]. intros H. specialize (H a eq_refl). unfold contents. by rewrite lookup_app_l. Qed.

Lemma contents_new h v : contents (h ++ [v]) (Some (length h)) = v.
Proof. unfold contents. by rewrite list_lookup_middle. Qed.

Lemma contents_insert h a v s : s <> Some a -> contents (<[a := v]> h) s = contents h s.
Proof. destruct s as [b|]; [|done]. intros H. unfold contents. rewrite list_lookup_insert_ne by congruence. done. Qed.

(** Allocating and writing to arrays of clients leaves the tokens alone. *)
Lemma tokens_alloc h m kn v : owned h m kn -> tokens_of (h ++ [v]) m = tokens_of h m /\ owned (h ++ [v]) m kn.
Proof.
  intros [Hm Hk]. split.
  - apply map_fmap_ext. intros ks info E. apply contents_alloc. intros a Ea. by eapply Hm.
  - split; [|eapply Forall_impl; [exact Hk|]; intros a Ha; cbv beta in Ha; rewrite length_app; cbn [length]; lia].
    intros ks info a E Ea. destruct (Hm ks info a E Ea). split; [rewrite length_app; lia|done].
Qed.

Lemma tokens_insert h m kn a v : owned h m kn -> a ∈ kn -> tokens_of (<[a := v]> h) m = tokens_of h m /\ owned (<[a := v]> h) m kn.
Proof.
  intros [Hm Hk] Ha. split.
  - apply map_fmap_ext. intros ks info E. apply contents_insert. intros Ea. by destruct (Hm ks info a E Ea).
  - split; [intros ks info b; rewrite length_insert; apply Hm|eapply Forall_impl; [exact Hk|]; intros b; by rewrite length_insert].
Qed.

Lemma owned_cons h m kn v : owned h m kn -> owned (h ++ [v]) m (length h :: kn).
Proof.
  intros Ho. destruct (tokens_alloc h m kn v Ho) as [_ [Hm Hk]]. destruct Ho as [Hm0 _]. split; [|constructor; [rewrite length_app; cbn [length]; lia|done]].
  intros ks info a E Ea. destruct (Hm ks info a E Ea). destruct (Hm0 ks info a E Ea). split; [done|]. apply not_elem_of_cons. split; [lia|done].
Qed.

(** Storing a key whose token is new, none, or that of another key. *)
Lemma owned_put h m kn info : owned h m kn -> (forall a, itoken info = Some a -> (a < length h)%nat /\ a ∉ kn) ->
  tokens_of h (put_key m info) = <[Info_KeySpec info := contents h (itoken info)]> (tokens_of h m) /\ owned h (put_key m info) kn.
Proof.
  intros [Hm Hk] Hi. split; [unfold tokens_of, put_key; by rewrite fmap_insert|]. split; [|done]. intros ks i a E Ea. unfold put_key in E.
  apply lookup_insert_Some in E as [[_ <-]|[_ E]]; [by apply Hi|by eapply Hm].
Qed.

Lemma load_list_spec h m kn l : owned h m kn ->
  let '(h', m') := load_list Pi Pf h m l in tokens_of h' m' = foldl load_spec (tokens_of h m) l /\ owned h' m' kn.
Proof.
  revert h m. induction l as [|ki l IH]; intros h m Ho; [by split|]. cbn [load_list foldl]. unfold copyInfo, alloc. set (info := MkInfo _ _ _ _ _ _).
  destruct (tokens_alloc h m kn (bytes_of (TrimUnicodeQuotes Pi Pf (kToken ki))) Ho) as [Et Ho'].
  destruct (owned_put _ _ _ info Ho') as [Ep Hop].
  { intros a [= <-]. split; [rewrite length_app; cbn [length]; lia|]. intros Hin. destruct Ho as [_ Hk]. rewrite Forall_forall in Hk. specialize (Hk _ Hin). lia. }
  specialize (IH _ _ Hop). destruct (load_list _ _ _ _) as [h' m']. destruct IH as [E Ho2]. split; [|done]. rewrite E, Ep, Et. cbn [info itoken]. by rewrite contents_new.
Qed.

(** Cloning and clearing a slice that a client gave. *)
Lemma clone_clear (w : world) tok h c : owned (hp w) (made (store w)) (known w) -> reachable w tok = true -> Clone (hp w) tok = (h, c) ->
  tokens_of (clear_slice h tok) (made (store w)) = tokens w /\ contents (clear_slice h tok) c = contents (hp w) tok /\
  (forall a, tok = Some a -> contents (clear_slice h tok) tok = replicate (length (contents (hp w) tok)) 0) /\
  ((c = None /\ owned (clear_slice h tok) (made (store w)) (known w)) \/
   exists a, c = Some a /\ owned (clear_slice h tok) (made (store w)) (a :: known w)).
Proof.
  intros Ho Hr E. destruct tok as [a|]; cbn in E; injection E as <- <-; [|split_and!; [done|done|done|by left]]. cbn in Hr. apply bool_decide_eq_true in Hr.
  pose proof Ho as [_ Hk]. rewrite Forall_forall in Hk. pose proof (Hk a Hr) as Ha. set (v := contents (hp w) (Some a)).
  assert (contents (hp w ++ [v]) (Some a) = v) as Ev by (apply contents_alloc; by intros ? [= <-]).
  destruct (tokens_alloc _ _ _ v Ho) as [Et _]. pose proof (owned_cons _ _ _ v Ho) as Ho1.
  assert (a ∈ length (hp w) :: known w) as Hin by (by right).
  assert (clear_slice (hp w ++ [v]) (Some a) = <[a := replicate (length v) 0]> (hp w ++ [v])) as Ec by (unfold clear_slice; by rewrite Ev). change (default [] (hp w !! a)) with v. rewrite Ec.
  destruct (tokens_insert _ _ _ a (replicate (length v) 0) Ho1 Hin) as [Ei Hi]. split_and!.
  - by rewrite Ei.
  - rewrite contents_insert by (intros [= E1]; lia). apply contents_new.
  - intros _ _. unfold contents at 1. rewrite list_lookup_insert_eq by (rewrite length_app; lia). done.
  - right. by exists (length (hp w)).
Qed.

Lemma owned_weaken h m a kn : owned h m (a :: kn) -> owned h m kn.
Proof. intros [Hm Hk]. apply Forall_cons in Hk as [_ Hk]. split; [|done]. intros ks i b E Eb. destruct (Hm ks i b E Eb) as [? Hn]. apply not_elem_of_cons in Hn. tauto. Qed.

Lemma owned_out h m a kn : owned h m (a :: kn) -> (forall ks info, m !! ks = Some info -> itoken info <> Some a) /\ (a < length h)%nat.
Proof. intros [Hm Hk]. apply Forall_cons in Hk as [Ha _]. split; [|done]. intros ks i E Ei. destruct (Hm ks i a E Ei) as [_ Hn]. apply not_elem_of_cons in Hn. tauto. Qed.

Definition world_ok (w : world) : Prop := owned (hp w) (made (store w)) (known w).

Lemma tokens_Get (w : world) user id : tokens w !! MkSpec id user = (fun info => contents (hp w) (itoken info)) <$> Get (store w) user id.
Proof. unfold tokens, tokens_of, Get. by rewrite lookup_fmap. Qed.

Lemma made_Delete (ims : InMemoryKeyStore J Y V) user id : made (Delete ims user id) = delete (MkSpec id user) (made ims).
Proof. destruct ims as [m|]; [done|]. cbn. by rewrite delete_empty. Qed.

Lemma AddNew_step w id user tok : world_ok w -> let w' := run_op w (AddNew id user tok) in world_ok w' /\ tokens w' = spec_op w (tokens w) (AddNew id user tok).
Proof.
  intros Ho. cbn [run_op spec_op]. destruct (reachable w tok) eqn:Er; [|done]. unfold NewInfo. destruct (Clone (hp w) tok) as [h c] eqn:Ec.
  destruct (clone_clear w tok h c Ho Er Ec) as (Et & Ev & _ & Hc). unfold world_ok, tokens, Add in *. cbn [hp store known] in *. change (made (Some (put_key (made (store w)) ?i))) with (put_key (made (store w)) i).
  set (info := MkInfo id user c None None None). destruct (owned_put (clear_slice h tok) (made (store w)) (known w) info) as [Ep Hp].
  - destruct Hc as [[_ Hc]|(a & _ & Hc)]; [done|by apply owned_weaken in Hc].
  - intros a Ea. change (itoken info) with c in Ea. destruct Hc as [[-> _]|(a' & -> & Hc)]; [done|]. injection Ea as ->. destruct Hc as [Hm Hk]. split; [by apply Forall_cons in Hk as [? _]|].
    intros Hin. cbn in Ec. destruct tok as [b|]; cbn in Ec; [|done]. injection Ec as _ <-. destruct Ho as [_ Hk0]. rewrite Forall_forall in Hk0. specialize (Hk0 _ Hin). lia.
  - split; [exact Hp|]. change (Info_KeySpec info) with (MkSpec id user) in Ep. change (itoken info) with c in Ep. rewrite Ep, Et, Ev. done.
Qed.

Lemma TakeToken_step w user id : world_ok w -> let w' := run_op w (TakeToken user id) in world_ok w' /\ tokens w' = tokens w /\
  forall info, Get (store w) user id = Some info -> itoken info <> None ->
    exists a, known w' = a :: known w /\ contents (hp w') (Some a) = contents (hp w) (itoken info).
Proof.
  intros Ho. cbn [run_op]. destruct (Get (store w) user id) as [info|] eqn:Eg; [|done]. unfold Info_Token. destruct (itoken info) as [a|] eqn:Ea; cbn [Clone].
  - unfold alloc. cbn [Token_Value token addr app]. unfold world_ok, tokens in *. cbn [hp store known]. destruct (tokens_alloc _ _ _ (contents (hp w) (Some a)) Ho) as [Et _].
    split; [by apply owned_cons|]. split; [exact Et|]. intros info' [= <-] _. exists (length (hp w)). split; [done|]. rewrite Ea. apply contents_new.
  - split; [done|]. split; [done|]. by intros info' [= <-].
Qed.

Lemma run_op_step w o : world_ok w -> world_ok (run_op w o) /\ tokens (run_op w o) = spec_op w (tokens w) o.
Proof.
  intros Ho. destruct o as [v|a pos b|a|id user tok|id user tok|user id|user id user' id'|user id|l].
  - cbn. destruct (tokens_alloc _ _ _ v Ho) as [Et _]. split; [by apply owned_cons|exact Et].
  - cbn. case_bool_decide as Ha; [|done]. destruct (tokens_insert _ _ _ a (<[pos := b]> (default [] (hp w !! a))) Ho Ha) as [Et Hi]. by split.
  - cbn. case_bool_decide as Ha; [|done]. destruct (tokens_insert _ _ _ a (replicate (length (default [] (hp w !! a))) 0) Ho Ha) as [Et Hi]. by split.
  - by apply AddNew_step.
  - cbn [run_op spec_op]. destruct (reachable w tok) eqn:Er; [|done]. unfold NewToken. destruct (Clone (hp w) tok) as [h c] eqn:Ec.
    destruct (clone_clear w tok h c Ho Er Ec) as (Et & _ & _ & Hc). unfold world_ok, tokens in *. cbn [hp store known Token_Value token]. split; [|exact Et].
    by destruct Hc as [[-> Hc]|(a & -> & Hc)].
  - destruct (TakeToken_step w user id Ho) as (H1 & H2 & _). by split.
  - cbn [run_op spec_op]. rewrite tokens_Get. destruct (Get (store w) user id) as [info|] eqn:Eg; [|done]. cbn [fmap option_fmap option_map].
    set (info' := MkInfo id' user' (itoken info) _ _ _). destruct (owned_put (hp w) (made (store w)) (known w) info' Ho) as [Ep Hp]; [|by split].
    intros a Ea. destruct Ho as [Hm _]. by apply (Hm _ _ a Eg).
  - cbn [run_op spec_op]. unfold world_ok, tokens, tokens_of in *. cbn [hp store known]. rewrite made_Delete. split; [|by rewrite fmap_delete].
    destruct Ho as [Hm Hk]. split; [|done]. intros ks info a E. apply lookup_delete_Some in E as [_ E]. by apply (Hm ks).
  - cbn [run_op spec_op]. unfold unmarshalList. pose proof (load_list_spec (hp w) (made (store w)) (known w) l Ho) as H. destruct (load_list _ _ _ _) as [h m].
    destruct H as [E Ho']. by split.
Qed.

Lemma world_run_ok ops : world_ok (run ops).
Proof.
  unfold run. assert (world_ok empty_world) as H0 by (split; [intros ks info a E; exact (False_ind _ (lookup_empty_Some ks info E))|constructor]). revert H0. generalize empty_world.
  induction ops as [|o ops IH]; intros w Hw; [done|]. cbn. apply IH. by apply run_op_step.
Qed.
End isolation.
Arguments op : clear implicits.
Arguments world : clear implicits.

(** ** Sorted keys *)

Section sorted.
Context {J Y V : Type}.
Implicit Types m : gmap KeySpec (Info J Y V).

(** Every key is stored under its specification. *)
Definition store_keyed (m : gmap KeySpec (Info J Y V)) : Prop := forall ks info, m !! ks = Some info -> ks = Info_KeySpec info.

Lemma put_key_keyed m info : store_keyed m -> store_keyed (put_key m info).
Proof. intros Hm ks i E. unfold put_key in E. apply lookup_insert_Some in E as [[<- <-]|[_ E]]; [done|by apply Hm]. Qed.

Lemma load_list_keyed Pi Pf h m l : store_keyed m -> store_keyed (load_list Pi Pf h m l).2.
Proof.
  revert h m. induction l as [|ki l IH]; intros h m Hm; [done|]. cbn [load_list]. destruct (copyInfo Pi Pf h ki) as [h' info]. apply IH. by apply put_key_keyed.
Qed.

Definition spec_ltb (a b : KeySpec) : bool := if bool_decide (ID a = ID b) then str_ltb (User a) (User b) else str_ltb (ID a) (ID b).

Lemma spec_ltb_asym a b : spec_ltb a b = true -> spec_ltb b a = false.
Proof.
  unfold spec_ltb. rewrite (bool_decide_ext (ID b = ID a) (ID a = ID b)) by (split; congruence). case_bool_decide; apply str_ltb_asym.
Qed.

Lemma spec_ltb_total a b : spec_ltb a b = false -> spec_ltb b a = false -> a = b.
Proof.
  unfold spec_ltb. rewrite (bool_decide_ext (ID b = ID a) (ID a = ID b)) by (split; congruence). destruct a as [i u], b as [i' u']. cbn.
  case_bool_decide as E; intros H1 H2; [rewrite (str_ltb_total _ _ H1 H2); by rewrite E|]. by destruct E; apply str_ltb_total.
Qed.

Lemma spec_ltb_negtrans a b c : spec_ltb b a = false -> spec_ltb c b = false -> spec_ltb c a = false.
Proof.
  unfold spec_ltb. destruct a as [i u], b as [i' u'], c as [i'' u'']. cbn. repeat case_bool_decide; subst; try done; try apply str_ltb_negtrans; intros H1 H2.
  - destruct (str_ltb u'' u) eqn:Eu; [|done]. assert (i' = i) as ->; [|done]. by apply str_ltb_total.
Qed.

Lemma KeySpecs_perm m sort_Slice (Hs : SortSlice sort_Slice) vals : store_keyed m -> vals ≡ₚ map snd (map_to_list m) ->
  KeySpecs sort_Slice vals ≡ₚ map fst (map_to_list m) /\ StronglySorted (fun a b => spec_ltb b a = false) (KeySpecs sort_Slice vals).
Proof.
  intros Hm Hv. unfold KeySpecs, getSortedKeys. split.
  - rewrite sort_perm, Hv, map_map. apply Permutation_refl'. apply map_ext_in. intros [k i] Hp. apply list_elem_of_In, elem_of_map_to_list in Hp. cbn. symmetry. by apply Hm.
  - eapply (StronglySorted_fmap _ (fun x y : Info J Y V => by_id_and_user y x = false)); [|apply sort_ordered].
    + intros x y H. exact H.
    + intros x y. apply (spec_ltb_asym (Info_KeySpec x) (Info_KeySpec y)).
    + intros x y z. apply (spec_ltb_negtrans (Info_KeySpec x) (Info_KeySpec y) (Info_KeySpec z)).
Qed.

(** Without repetitions the order is strict. *)
Lemma sorted_strict ks : NoDup ks -> StronglySorted (fun a b => spec_ltb b a = false) ks -> StronglySorted (fun a b => spec_ltb a b = true) ks.
Proof.
  intros Hnd Hs. induction Hs as [|a ks Hs IH Ha]; [constructor|]. apply NoDup_cons in Hnd as [Hn Hnd]. constructor; [auto|].
  apply Forall_forall. intros b Hb. rewrite Forall_forall in Ha. specialize (Ha b Hb). destruct (spec_ltb a b) eqn:E; [done|]. by rewrite (spec_ltb_total a b E Ha) in Hn.
Qed.
End sorted.

(** ** Redaction *)

Lemma copy_at_all b n : length b = n -> copy_at (replicate n 0) 0 b = b.
Proof.
  intros <-. unfold copy_at. rewrite length_replicate, Nat.sub_0_r, firstn_all, Nat.add_0_l, drop_ge by (rewrite length_replicate; lia). by rewrite app_nil_r.
Qed.

(** A redacted token shows at most the bytes asked for, six at most, at one end,
    and never all of them. *)
Lemma redacted_token (h : arrays) (t : Token) (keep : Z) :
  let v := contents h (token t) in
  (FirstN h t keep = Ok (replicate (length v) star) \/ exists n, (0 < n < length v)%nat /\ Z.of_nat n <= Z.min keep 6 /\ FirstN h t keep = Ok (take n v ++ replicate 6 star)).
Proof.
  cbv zeta. unfold FirstN, RedactStringHead. set (v := contents h (token t)). set (k := Z.min keep DefaultRedactionLimit).
  destruct (Z.leb_spec k 0); [by left|]. destruct (Z.leb_spec (len v) k); [by left|]. cbn [orb]. right. exists (Z.to_nat k). unfold len, DefaultRedactionLimit in *.
  rewrite zslice_Ok by (unfold len; lia). cbn [rbind]. rewrite Z.sub_0_r, drop_0. split_and!; [lia..|done].
Qed.

Lemma run_keyed {J Y V} Pi Pf (ops : list (op J Y)) : store_keyed (made (store (run (V := V) Pi Pf ops))).
Proof.
  unfold run. assert (store_keyed (made (store (@empty_world J Y V)))) as H0 by (intros ks info E; exact (False_ind _ (lookup_empty_Some ks info E))). revert H0.
  generalize (@empty_world J Y V). induction ops as [|o ops IH]; intros w Hw; [done|]. cbn [foldl]. apply IH.
  destruct o as [v|a pos b|a|id user tok|id user tok|user id|user id user' id'|user id|l]; cbn [run_op].
  - exact Hw.
  - by destruct (reachable w _).
  - by destruct (reachable w _).
  - destruct (reachable w tok); [|done]. unfold NewInfo. destruct (Clone _ _). by apply put_key_keyed.
  - destruct (reachable w tok); [|done]. unfold NewToken. by destruct (Clone _ _).
  - destruct (Get _ _ _) as [info|]; [|done]. unfold Info_Token. by destruct (Clone _ _).
  - destruct (Get _ _ _) as [info|]; [|done]. by apply put_key_keyed.
  - cbn [store]. rewrite made_Delete. intros ks info E. apply lookup_delete_Some in E as [_ E]. by apply Hw.
  - unfold unmarshalList. pose proof (load_list_keyed Pi Pf (hp w) _ l Hw) as H. by destruct (load_list _ _ _ _).
Qed.

(** ** Properties *)

(** C23: The tokens of a store belong to it alone: whatever its clients do with the
    slices they passed in and with those of the tokens they were given, every
    token keeps the bytes it was added or loaded with, until its key is replaced
    or removed.  Adding a key zeroes the slice it was made from, and a token taken
    from the store has the bytes of its key. *)
Theorem Tokens_isolated {J Y V : Type} (Pi Pf : rune -> bool) (ops : list (op J Y)) (o : op J Y) :
  let w := run (V := V) Pi Pf ops in
  let w' := run_op Pi Pf w o in
  tokens w' = spec_op Pi Pf w (tokens w) o /\
  (forall id user a, o = AddNew id user (Some a) -> a ∈ known w -> contents (hp w') (Some a) = replicate (length (contents (hp w) (Some a))) 0) /\
  (forall user id info, o = TakeToken user id -> Get (store w) user id = Some info -> itoken info <> None ->
     exists a, known w' = a :: known w /\ tokens w !! MkSpec id user = Some (contents (hp w') (Some a))).
Proof.
  cbv zeta. pose proof (world_run_ok (V := V) Pi Pf ops) as Ho. set (w := run Pi Pf ops) in *. split; [by apply run_op_step|]. split.
  - intros id user a -> Ha. cbn [run_op reachable]. rewrite bool_decide_true by done. unfold NewInfo. destruct (Clone (hp w) (Some a)) as [h c] eqn:Ec.
    destruct (clone_clear w (Some a) h c Ho) as (_ & _ & Ez & _); [cbn; by rewrite bool_decide_true|done|]. exact (Ez a eq_refl).
  - intros user id info -> Eg Hne. destruct (TakeToken_step Pi Pf w user id Ho) as (_ & _ & H). destruct (H info Eg Hne) as (a & Ek & Ev). exists a. split; [done|].
    rewrite tokens_Get, Eg. cbn [fmap option_fmap option_map]. by rewrite Ev.
Qed.

(** [KeySpecs] lists the keys that are present, once each and in strictly
    increasing order of id and user, whatever the order in which the map is ranged
    over and whatever sort is used. *)
Theorem KeySpecs_sorted {J Y V : Type} (Pi Pf : rune -> bool) (ops : list (op J Y)) (sort_Slice : (Info J Y V -> Info J Y V -> bool) -> list (Info J Y V) -> list (Info J Y V))
  (Hsort : SortSlice sort_Slice) (vals : list (Info J Y V)) :
  let w := run (V := V) Pi Pf ops in
  vals ≡ₚ map snd (map_to_list (made (store w))) ->
  StronglySorted (fun a b => spec_ltb a b = true) (KeySpecs sort_Slice vals) /\
  (forall ks, ks ∈ KeySpecs sort_Slice vals <-> is_Some (tokens w !! ks)) /\
  len (KeySpecs sort_Slice vals) = Len (store w) /\
  KeySpecs sort_Slice vals = KeySpecs (fun less => SliceStable less) (map snd (map_to_list (made (store w)))).
Proof.
  cbv zeta. intros Hv. set (w := run Pi Pf ops) in *. pose proof (run_keyed Pi Pf ops : store_keyed (made (store w))) as Hk.
  destruct (KeySpecs_perm _ sort_Slice Hsort vals Hk Hv) as [Hp Hs]. split_and!.
  - apply sorted_strict; [|done]. rewrite Hp. apply NoDup_fst_map_to_list.
  - intros ks. rewrite Hp. unfold tokens, tokens_of. rewrite lookup_fmap, fmap_is_Some. split.
    + intros H. apply list_elem_of_fmap in H as ([k i] & -> & H). apply elem_of_map_to_list in H. by eexists.
    + intros [i H]. apply list_elem_of_fmap. exists (ks, i). split; [done|]. by apply elem_of_map_to_list.
  - unfold len, Len. rewrite Hp, length_map. by rewrite length_map_to_list.
  - destruct (KeySpecs_perm _ _ SliceStable_sorts _ Hk (Permutation_refl _)) as [Hp' Hs']. apply (StronglySorted_unique_strong (fun a b => spec_ltb b a = false)); [|done|done|by rewrite Hp, Hp'].
    intros a b _ _ H1 H2. by apply spec_ltb_total.
Qed.

(** A client that clears its slice and its token. *)
Definition no_quotes : rune -> bool := fun _ => false.
Definition sample_ops : list (op unit unit) :=
  [Make [1; 2]; AddNew [98] [] (Some 0%nat); Load [MkKeyInfo [97] [117] [104; 105] None None]; TakeToken [] [98]; ClearArray 3; Write 0 0 9].

Example sample_tokens : let w := run (V := unit) no_quotes no_quotes sample_ops in
  tokens w !! MkSpec [98] [] = Some [1; 2] /\ tokens w !! MkSpec [97] [117] = Some [104; 105] /\ hp w = [[9; 0]; [1; 2]; [104; 105]; [0; 0]].
Proof. vm_compute. done. Qed.

Lemma Tokens_isolated_witness : exists a, known (run_op no_quotes no_quotes (run (V := unit) no_quotes no_quotes sample_ops) (TakeToken [] [98])) = a :: [3%nat; 0%nat].
Proof.
  destruct (Tokens_isolated (V := unit) no_quotes no_quotes sample_ops (TakeToken [] [98])) as (_ & _ & H).
  destruct (H [] [98] (MkInfo [98] [] (Some 1%nat) None None None) eq_refl) as (a & E & _); [vm_compute; reflexivity|done|]. exists a. exact E.
Defined.

Lemma KeySpecs_sorted_witness : let w := run (V := unit) no_quotes no_quotes sample_ops in
  StronglySorted (fun a b => spec_ltb a b = true) (KeySpecs (fun less => SliceStable less) (map snd (map_to_list (made (store w))))) /\
  KeySpecs (fun less => SliceStable less) (map snd (map_to_list (made (store w)))) = [MkSpec [97] [117]; MkSpec [98] []].
Proof.
  split; [|vm_compute; reflexivity].
  apply (KeySpecs_sorted (V := unit) no_quotes no_quotes sample_ops (fun less => SliceStable less) SliceStable_sorts _ (Permutation_refl _)).
Defined.

(** Two keys of a map whose ids differ in their quotes only: which of them is
    kept depends on the order in which the map is ranged over. *)
Definition quote (r : rune) : bool := r =? 8220.
Lemma map_order_matters :
  let k1 := ([97], MkKeyInfo [] [] [49] None None) : str * keyInfo unit unit in
  let k2 := ([8220; 97], MkKeyInfo [] [] [50] None None) in
  let loaded l := let '(h, ims) := unmarshalMap (V := unit) quote quote [] None l in tokens_of h (made ims) !! MkSpec [97] [] in
  loaded [k1; k2] = Some [50] /\ loaded [k2; k1] = Some [49].
Proof. vm_compute. done. Qed.

(** The user of an id with a bracket, and what follows the last bracket, are not
    read back. *)
Lemma bracket_in_id : ParseKeySpecValue (KeySpec_String (MkSpec [97; 91; 98] [117])) = Ok (MkSpec [97] [98; 91; 117]) /\
  ParseKeySpecValue (Str "a[u]x") = Ok (MkSpec (Str "a") (Str "u")).
Proof. vm_compute. done. Qed.
