(* ===== verification/Checkpoint.v ===== *)
(** * Checkpoints in a directory (file/checkpoint: checkpoint.go)

    The operations of a checkpointed operation on a directory, which is a map from
    names (of bytes) to files and directories.  A label or an id with a path
    separator names a file elsewhere, whose reading and writing are parameters.
    The reference is the list of the checkpoints, oldest first. *)

From Stdlib Require Ascii String.
From stdpp Require Import base list option numbers gmap sorting.
From Stdlib Require Import ZArith Lia.
From stdpp Require Import list.
From S2P Require Import Prelude Strconv Text.

Open Scope Z_scope.
Open Scope go_scope.

Import Stdlib.Strings.String.StringSyntax.

(** ** The directory *)

Inductive entry := File (data : list Z) | Subdirectory.
Abbreviation directory := (gmap str entry).

(** Names of the directory itself: [filepath.Join] makes paths of those with a
    separator, and no file has a name with a zero byte. *)
Definition plain (name : str) : bool := forallb (fun c => negb ((c =? 47) || (c =? 0))) name.

Definition Remove (d : directory) (name : str) : option directory := match d !! name with Some _ => Some (delete name d) | None => None end.

(** What [ReadDir] returns: some entries, and an error. *)
Inductive read_error := NoError | EOF | OtherError.

Section checkpoint.
(** The order of the entries of a directory, and [sort.Slice]. *)
Context (listing : directory -> list (str * entry)) (sort_Slice : (str -> str -> bool) -> list str -> list str).

(** What [os.ReadFile] and [os.WriteFile] do for other names than plain ones: they
    may fail, or read and write below the directory, above it or in it. *)
Context (path_read : directory -> str -> option (list Z)) (path_write : directory -> str -> list Z -> option directory).

Definition ReadFile (d : directory) (name : str) : option (list Z) :=
  if plain name then match d !! name with Some (File v) => Some v | _ => None end else path_read d name.
Definition WriteFile (d : directory) (name : str) (data : list Z) : option directory :=
  if plain name then match d !! name with Some Subdirectory => None | _ => Some (<[name := File data]> d) end else path_write d name data.

(** [ReadDir(n)] from the [i]th call on: [n] entries at most, and [io.EOF] when
    there are none left. *)
Definition scanSize : nat := 50.
Definition directory_stream (d : directory) (i : nat) : list (str * entry) * read_error :=
  let infos := take scanSize (drop (scanSize * i) (listing d)) in (infos, match infos with [] => EOF | _ => NoError end).

(** ** Names *)

Definition checkpointNumFormatSize : nat := 8.
Definition checkpointSuffix : str := Str ".chk".
Definition lockfileName : str := Str "lock".

Definition strings_HasSuffix (s suffix : str) : bool :=
  (length suffix <=? length s)%nat && bool_decide (drop (length s - length suffix) s = suffix).

Definition formatFilename (n : Z) (label : str) : str := pad 8 n ++ label ++ checkpointSuffix.

(** The condition on the entries that [readDirSorted] keeps. *)
Definition is_checkpoint (n : str) : bool :=
  strings_HasSuffix n checkpointSuffix && (checkpointNumFormatSize + length checkpointSuffix <=? length n)%nat.
Definition wanted (info : str * entry) : bool := match info.2 with Subdirectory => false | File _ => true end && is_checkpoint info.1.

(** The names are long enough for their slices. *)
Definition by_number (a b : str) : bool := str_ltb (take checkpointNumFormatSize a) (take checkpointNumFormatSize b).
Definition sortByNumberOnly (files : list str) : list str := sort_Slice by_number files.

(** The loop of [readDirSorted]; [cancelled i] says that the context is done at
    the [i]th call of [ReadDir]. *)
Fixpoint readDir_loop (fuel : nat) (stream : nat -> list (str * entry) * read_error) (cancelled : nat -> bool) (i : nat) (files : list str) :
    res (option (list str)) :=
  match fuel with
  | O => NoFuel
  | S fuel =>
      if cancelled i then Ok None
      else
        let '(infos, err) := stream i in
        let files := files ++ map fst (filter (fun info => wanted info = true) infos) in
        match err with EOF => Ok (Some (sortByNumberOnly files)) | _ => readDir_loop fuel stream cancelled (S i) files end
  end.

(** A listing of [n] entries is read by [n] calls at most, and one for the end. *)
Definition readDirSorted (cancelled : nat -> bool) (d : directory) : res (option (list str)) :=
  readDir_loop (S (length (listing d))) (directory_stream d) cancelled 0 [].

(** ** The operations

    The result is the directory, changed or not, and [None] for an error. *)

(** [d.dir] and [d.mu] are set by [Init]. *)
Definition Init (initialized : bool) : bool * option unit := if initialized then (true, None) else (true, Some tt).

(** [lockedfile.Mutex.Lock] creates the file; other processes wait for it. *)
Definition Lock (d : directory) : option directory :=
  match d !! lockfileName with
  | Some Subdirectory => None
  | Some (File _) => Some d
  | None => Some (<[lockfileName := File []]> d)
  end.

(** The lock, and then what is in the directory; the mutex is nil before [Init]. *)
Definition with_existing {A : Type} (initialized : bool) (cancelled : nat -> bool) (d : directory) (k : directory -> list str -> directory * option A) :
    res (directory * option A) :=
  if negb initialized then Panic
  else
    match Lock d with
    | None => Ok (d, None)
    | Some d => let! existing := readDirSorted cancelled d in Ok (match existing with Some l => k d l | None => (d, None) end)
    end.

Fixpoint remove_all (d : directory) (existing : list str) : directory * option unit :=
  match existing with
  | [] => (d, Some tt)
  | f :: existing => match Remove d f with Some d => remove_all d existing | None => (d, None) end
  end.

Definition Complete (initialized : bool) (cancelled : nat -> bool) (d : directory) : res (directory * option unit) :=
  with_existing initialized cancelled d remove_all.

Definition Clear (initialized : bool) (cancelled : nat -> bool) (d : directory) : res (directory * option unit) :=
  if negb initialized then Ok (d, None) else with_existing initialized cancelled d remove_all.

(** The name of the next checkpoint. *)
Definition next_name (existing : list str) (label : str) : option str :=
  match last existing with
  | None => Some (formatFilename 0 label)
  | Some prev => match Atoi (take checkpointNumFormatSize prev) with Some n => Some (formatFilename (n + 1) label) | None => None end
  end.

Definition Checkpoint (initialized : bool) (cancelled : nat -> bool) (d : directory) (label : str) (data : list Z) : res (directory * option str) :=
  with_existing initialized cancelled d (fun d existing =>
    match next_name existing label with
    | None => (d, None)
    | Some next => match WriteFile d next data with Some d => (d, Some next) | None => (d, None) end
    end).


(** No checkpoint gives nil. *)
Definition Latest (initialized : bool) (cancelled : nat -> bool) (d : directory) : res (directory * option (option (list Z))) :=
  with_existing initialized cancelled d (fun d existing =>
    match last existing with
    | None => (d, Some None)
    | Some prev => match ReadFile d prev with Some v => (d, Some (Some v)) | None => (d, None) end
    end).

Definition Compact (initialized : bool) (cancelled : nat -> bool) (d : directory) (label : str) : res (directory * option unit) :=
  with_existing initialized cancelled d (fun d existing =>
    match last existing with
    | None => (d, Some tt)
    | Some prev =>
        match ReadFile d prev with
        | None => (d, None)
        | Some data =>
            match remove_all d existing with
            | (d, None) => (d, None)
            | (d, Some _) => match WriteFile d (formatFilename 0 label) data with Some d => (d, Some tt) | None => (d, None) end
            end
        end
    end).
End checkpoint.

(** ** Numbers of eight digits *)









(** ** Names *)



Lemma lock_no_checkpoint : is_checkpoint lockfileName = false.
Proof. done. Qed.


(** ** Directories and checkpoints *)

(** A checkpoint: its id and data. *)
Definition checkpoints : Type := list (str * list Z).








Section refinement.
Context (listing : directory -> list (str * entry)) (Hlisting : forall d, listing d ≡ₚ map_to_list d).
Context (sort_Slice : (str -> str -> bool) -> list str -> list str) `{!SortSlice sort_Slice}.
Context (path_read : directory -> str -> option (list Z)) (path_write : directory -> str -> list Z -> option directory).

Definition never : nat -> bool := fun _ => false.








(** ** Runs of operations *)

Inductive operation :=
| OpCheckpoint (label : str) (data : list Z)
| OpLatest
| OpLoad (id : str)
| OpCompact (label : str)
| OpComplete
| OpClear.

Inductive result := RId (id : option str) | RData (data : option (list Z)) | RLatest (data : option (option (list Z))) | RDone (ok : option unit).


(** The reference: a list of checkpoints. *)
Definition spec_operation (log : checkpoints) (o : operation) : checkpoints * result :=
  match o with
  | OpCheckpoint label data =>
      let id := formatFilename (Z.of_nat (length log)) label in (log ++ [(id, data)], RId (Some id))
  | OpLatest => (log, RLatest (Some (snd <$> last log)))
  | OpLoad id => (log, RData ((fun p => p.2.2) <$> list_find (fun c => c.1 = id) log))
  | OpCompact label => (match last log with Some (_, data) => [(formatFilename 0 label, data)] | None => [] end, RDone (Some tt))
  | OpComplete | OpClear => ([], RDone (Some tt))
  end.










Fixpoint spec_operations (log : checkpoints) (ops : list operation) : checkpoints * list result :=
  match ops with
  | [] => (log, [])
  | o :: ops => let '(log, r) := spec_operation log o in let '(log, rs) := spec_operations log ops in (log, r :: rs)
  end.
End refinement.


(** ** Properties *)


Definition sample : list operation :=
  [OpCheckpoint (Str "-a") [1]; OpCheckpoint (Str "-b") [2]; OpLatest; OpLoad (Str "00000000-a.chk"); OpCompact (Str "-c"); OpLatest; OpCheckpoint [] [3]; OpComplete; OpLatest].

Example sample_results : (spec_operations [] sample).2 =
  [RId (Some (Str "00000000-a.chk")); RId (Some (Str "00000001-b.chk")); RLatest (Some (Some [2])); RData (Some [1]); RDone (Some tt);
   RLatest (Some (Some [2])); RId (Some (Str "00000001.chk")); RDone (Some tt); RLatest (Some None)].
Proof. vm_compute. reflexivity. Qed.


(** Beyond eight digits the order breaks: the hundred-millionth checkpoint is
    sorted before its predecessor. *)
Lemma nine_digits_sort_first : formatFilename 100000000 [] = Str "100000000.chk" /\ by_number (formatFilename 100000000 []) (formatFilename 99999999 []) = true.
Proof. vm_compute. done. Qed.

(** A label with a separator names a file below the directory, which cannot be
    written: Checkpoint returns an error, and Compact removes every checkpoint
    before it does. *)
Lemma separator_loses : let d := {[Str "00000000.chk" := File [7]]} in
  let lock := {[lockfileName := File []]} in
  Checkpoint map_to_list (fun less => SliceStable less) (fun _ _ _ => None) true never d (Str "a/b") [8] = Ok (d ∪ lock, None) /\
  Compact map_to_list (fun less => SliceStable less) (fun _ _ => None) (fun _ _ _ => None) true never d (Str "a/b") = Ok (lock, None).
Proof. split; vm_compute; reflexivity. Qed.

(** An error of [ReadDir] other than the end of the directory is not looked at:
    the loop goes on for as long as it is returned. *)
Lemma read_error_loops sort_Slice fuel i files : readDir_loop sort_Slice fuel (fun _ => ([], OtherError)) never i files = NoFuel.
Proof. revert i files. induction fuel as [|fuel IH]; intros i files; [done|]. apply IH. Qed.

(** Before [Init], [Clear] returns an error and the others dereference nil. *)
Lemma uninitialized listing sort_Slice path_read path_write d label data :
  Clear listing sort_Slice false never d = Ok (d, None) /\ Complete listing sort_Slice false never d = Panic /\
  Checkpoint listing sort_Slice path_write false never d label data = Panic /\ Latest listing sort_Slice path_read false never d = Panic.
Proof. done. Qed.
