(* ===== verification/Filewalk.v ===== *)
(** * The concurrent walk of a file system (file/filewalk: walker.go)

    A walk calls a handler for each prefix: once for the prefix, for each scanned
    part of its contents, and when it and everything below it is done.  Children
    are walked in goroutines of their own while there are tokens, and otherwise by
    the goroutine of their parent.  The handler and the file system may return
    anything at each call; the reference says which sequences of calls are walks. *)

From stdpp Require Import base list option numbers.
From Stdlib Require Import ZArith Lia.
From stdpp Require Import list.
From S2P Require Import Prelude.

Open Scope Z_scope.

(** ** Options *)

Record options := MkOptions { concurrentScans : Z; scanSize : Z; depth : Z }.

Definition Option_ := options -> options.

Definition WithConcurrentScans (n : Z) : Option_ := fun o => if 0 <? n then MkOptions n (scanSize o) (depth o) else o.
Definition WithScanSize (n : Z) : Option_ := fun o => if 0 <? n then MkOptions (concurrentScans o) n (depth o) else o.
Definition WithDepth (d : Z) : Option_ := fun o => MkOptions (concurrentScans o) (scanSize o) d.

Definition DefaultScanSize : Z := 1000.
Definition DefaultConcurrentScans : Z := 100.

(** The options of [New]. *)
Definition New (opts : list Option_) : options :=
  fold_left (fun o fn => fn o) opts (MkOptions DefaultScanSize DefaultScanSize (-1)).

(** [Configuration]. *)
Definition Configuration (o : options) : Z * Z := (concurrentScans o, scanSize o).

(** The options keep the limits positive, whatever numbers are given. *)
Definition positive (o : options) : Prop := 0 < concurrentScans o /\ 0 < scanSize o.

Lemma New_positive opts : Forall (fun fn => exists n, fn = WithConcurrentScans n \/ fn = WithScanSize n \/ fn = WithDepth n) opts -> positive (New opts).
Proof.
  unfold New; assert (H0 : positive (MkOptions DefaultScanSize DefaultScanSize (-1))) by (split; reflexivity).
  revert H0; generalize (MkOptions DefaultScanSize DefaultScanSize (-1)).
  induction opts as [|fn opts IH]; intros o Ho H; [exact Ho|].
  inversion H as [|? ? (n & Hn) Hr]; subst; apply IH; [|exact Hr].
  destruct Hn as [->|[->| ->]]; unfold positive, WithConcurrentScans, WithScanSize, WithDepth in *; simpl; try exact Ho;
    destruct (0 <? n) eqn:Q; simpl; lia.
Qed.

(** [New] takes the default of [WithConcurrentScans] from [DefaultScanSize]. *)
Lemma New_defaults : Configuration (New []) = (1000, 1000) /\ DefaultConcurrentScans = 100.
Proof. split; reflexivity. Qed.

(** ** Interleavings *)

Inductive shuffle {A} : list (list A) -> list A -> Prop :=
| shuffle_nil ts : Forall (fun t => t = []) ts -> shuffle ts []
| shuffle_cons l1 l2 x t r : shuffle (l1 ++ t :: l2) r -> shuffle (l1 ++ (x :: t) :: l2) (x :: r).

(** ** The walker *)

Section walker.
(** Paths, file infos and entries; [join] is [w.fs.Join(path, child.Name())], and
    [maxdepth] is [w.opts.depth]. *)
Context {P I E : Type} (join : P -> I -> P) (maxdepth : Z).

(** The calls of the handler and of the scanner, with what they return.  An error is
    [true]; one of [Contents] or of the scanner says whether it is
    [context.Canceled]. *)
Inductive event :=
| EvPrefix (p : P) (i : I) (err : bool) (stop : bool) (children : list I) (failed : bool)
| EvContents (p : P) (chunk : list E) (result : list I + bool)
| EvScanned (p : P) (error : option bool)
| EvDone (p : P) (err : bool) (failed : bool).

(** Where a goroutine is in [walkPrefix]: about to begin; in the loop of
    [processLevel] with the children so far; in [walkChildren] with the children
    left, the one it walks itself, and the goroutines it has started; about to
    call [handleDone]; returned, without or with an error. *)
Inductive task :=
| Ready (p : P) (depth : Z) (i : I) (err : bool)
| Level (p : P) (depth : Z) (nextLevel : list I)
| Children (p : P) (depth : Z) (todo : list I) (cur : option task) (started : list task)
| Ending (p : P) (err : bool)
| Over (ok : bool).

(** [tokens] are in [limitCh] and [returning] goroutines are about to put theirs
    back; [orphans] are goroutines that nobody waits for any more. *)
Record pool := MkPool { tokens : nat; returning : nat; cancelled : bool; orphans : list task }.

Definition set_tokens (g : pool) (n : nat) : pool := MkPool n (returning g) (cancelled g) (orphans g).
Definition set_returning (g : pool) (n : nat) : pool := MkPool (tokens g) n (cancelled g) (orphans g).
Definition abandon (g : pool) (l : list task) : pool := MkPool (tokens g) (returning g) (cancelled g) (orphans g ++ l).

Definition too_deep (depth : Z) : bool := (0 <=? maxdepth) && (maxdepth <? depth).

(** After the call of [Prefix]. *)
Definition after_prefix (p : P) (depth : Z) (stop : bool) (children : list I) (failed : bool) : task :=
  if stop then Over true
  else if failed then Ending p true
  else match children with [] => Level p depth [] | _ => Children p depth children None [] end.

(** The goroutine, or the call, that walks a child. *)
Definition child_task (p : P) (depth : Z) (c : I) : task := Ready (join p c) (depth + 1) c false.

(** After an error of [processLevel]. *)
Definition level_failed (p : P) (canceled : bool) : task := if canceled then Over false else Ending p true.

Inductive tstep : pool -> task -> option event -> pool -> task -> Prop :=
(** walkPrefix *)
| ts_deep g p d i err : too_deep d = true -> tstep g (Ready p d i err) None g (Over true)
| ts_start_cancelled g p d i err : too_deep d = false -> cancelled g = true -> tstep g (Ready p d i err) None g (Over false)
| ts_prefix g p d i err stop children failed : too_deep d = false -> cancelled g = false ->
    tstep g (Ready p d i err) (Some (EvPrefix p i err stop children failed)) g (after_prefix p d stop children failed)
| ts_done g p err failed : tstep g (Ending p err) (Some (EvDone p err failed)) g (Over true)
(** processLevel *)
| ts_contents g p d acc chunk children :
    tstep g (Level p d acc) (Some (EvContents p chunk (inl children))) g (if cancelled g then Over false else Level p d (acc ++ children))
| ts_contents_failed g p d acc chunk canceled :
    tstep g (Level p d acc) (Some (EvContents p chunk (inr canceled))) g (level_failed p canceled)
| ts_scanned g p d acc : tstep g (Level p d acc) (Some (EvScanned p None)) g (Children p d acc None [])
| ts_scan_failed g p d acc canceled :
    tstep g (Level p d acc) (Some (EvScanned p (Some canceled))) g (level_failed p canceled)
(** walkChildren *)
| ts_async g n p d c todo started : tokens g = S n -> cancelled g = false ->
    tstep g (Children p d (c :: todo) None started) None (set_tokens g n) (Children p d todo None (started ++ [child_task p d c]))
| ts_sync g p d c todo started : tokens g = 0%nat -> cancelled g = false ->
    tstep g (Children p d (c :: todo) None started) None g (Children p d todo (Some (child_task p d c)) started)
| ts_cancelled g p d c todo started : cancelled g = true ->
    tstep g (Children p d (c :: todo) None started) None (abandon g started) (Over false)
| ts_cancelled_token g n p d c todo started : tokens g = S n -> cancelled g = true ->
    tstep g (Children p d (c :: todo) None started) None (abandon (set_tokens g n) started) (Over false)
| ts_cur g p d todo t e g' t' started : tstep g t e g' t' ->
    tstep g (Children p d todo (Some t) started) e g' (Children p d todo (Some t') started)
| ts_cur_ok g p d todo started : tstep g (Children p d todo (Some (Over true)) started) None g (Children p d todo None started)
| ts_cur_error g p d todo started : tstep g (Children p d todo (Some (Over false)) started) None (abandon g started) (Over false)
| ts_started g p d todo cur l1 t l2 e g' t' : tstep g t e g' t' ->
    tstep g (Children p d todo cur (l1 ++ t :: l2)) e g' (Children p d todo cur (l1 ++ t' :: l2))
| ts_started_over g p d todo cur l1 ok l2 :
    tstep g (Children p d todo cur (l1 ++ Over ok :: l2)) None (set_returning g (S (returning g))) (Children p d todo cur (l1 ++ l2))
| ts_wait g p d : tstep g (Children p d [] None []) None g (Ending p false).

(** [Walk]: the roots to be started, with what [Lstat] returned, and the goroutines
    of the error group, at most [limit] of them. *)
Record walk := MkWalk { roots : list (P * I * bool); running : list task; shared : pool }.

Definition root_task (r : P * I * bool) : task := Ready r.1.1 0 r.1.2 r.2.

Context (limit : nat).

Inductive wstep : walk -> option event -> walk -> Prop :=
| ws_start r rs run g : (length run < limit)%nat -> wstep (MkWalk (r :: rs) run g) None (MkWalk rs (run ++ [root_task r]) g)
| ws_run rs l1 t l2 g e g' t' : tstep g t e g' t' -> wstep (MkWalk rs (l1 ++ t :: l2) g) e (MkWalk rs (l1 ++ t' :: l2) g')
| ws_over rs l1 ok l2 g : wstep (MkWalk rs (l1 ++ Over ok :: l2) g) None (MkWalk rs (l1 ++ l2) g)
| ws_orphan rs run n m c l1 t l2 e g' t' : tstep (MkPool n m c (l1 ++ l2)) t e g' t' ->
    wstep (MkWalk rs run (MkPool n m c (l1 ++ t :: l2))) e (MkWalk rs run (MkPool (tokens g') (returning g') (cancelled g') (t' :: orphans g')))
| ws_orphan_over rs run n m c l1 ok l2 :
    wstep (MkWalk rs run (MkPool n m c (l1 ++ Over ok :: l2))) None (MkWalk rs run (MkPool n (S m) c (l1 ++ l2)))
| ws_return rs run n m c o : (n < limit * 2)%nat -> wstep (MkWalk rs run (MkPool n (S m) c o)) None (MkWalk rs run (MkPool (S n) m c o))
| ws_cancel rs run n m o : wstep (MkWalk rs run (MkPool n m false o)) None (MkWalk rs run (MkPool n m true o)).

(** [Walk] returns when the error group has no goroutine left. *)
Definition returned (w : walk) : Prop := roots w = [] /\ running w = [].

Definition initial (rs : list (P * I * bool)) : walk := MkWalk rs [] (MkPool (limit * 2) 0 false []).

Inductive wsteps : walk -> list event -> walk -> Prop :=
| wsteps_nil w : wsteps w [] w
| wsteps_silent w w1 tr w2 : wstep w None w1 -> wsteps w1 tr w2 -> wsteps w tr w2
| wsteps_event w e w1 tr w2 : wstep w (Some e) w1 -> wsteps w1 tr w2 -> wsteps w (e :: tr) w2.

(** The prefixes whose [Done] returned an error, in the order in which [handleDone]
    records them. *)
Definition errors_of (tr : list event) : list P := omap (fun e => match e with EvDone p _ true => Some p | _ => None end) tr.

(** No call returned [context.Canceled]. *)
Definition canceled_event (e : event) : bool :=
  match e with EvContents _ _ (inr true) | EvScanned _ (Some true) => true | _ => false end.

(** ** The reference *)

(** The scan of a level: the children found, or none if it failed. *)
Inductive level_of (p : P) : list I -> list event -> option (list I) -> Prop :=
| level_chunk acc chunk children evs r : level_of p (acc ++ children) evs r -> level_of p acc (EvContents p chunk (inl children) :: evs) r
| level_contents_failed acc chunk : level_of p acc [EvContents p chunk (inr false)] None
| level_scan_failed acc : level_of p acc [EvScanned p (Some false)] None
| level_scanned acc : level_of p acc [EvScanned p None] (Some acc).

(** The calls of the walk of a prefix. *)
Inductive walk_of : P -> Z -> I -> bool -> list event -> Prop :=
| walk_deep p d i err : too_deep d = true -> walk_of p d i err []
| walk_stop p d i err children failed : too_deep d = false -> walk_of p d i err [EvPrefix p i err true children failed]
| walk_failed p d i err children failed : too_deep d = false -> walk_of p d i err [EvPrefix p i err false children true; EvDone p true failed]
| walk_level_failed p d i err evs failed : too_deep d = false -> level_of p [] evs None ->
    walk_of p d i err (EvPrefix p i err false [] false :: evs ++ [EvDone p true failed])
| walk_children p d i err given evs children ts t failed : too_deep d = false ->
    (given = [] /\ level_of p [] evs (Some children) \/ given <> [] /\ evs = [] /\ children = given) ->
    Forall2 (fun c t => walk_of (join p c) (d + 1) c false t) children ts -> shuffle ts t ->
    walk_of p d i err (EvPrefix p i err false given false :: evs ++ t ++ [EvDone p false failed]).

(** ** Lemmas *)

Lemma shuffle_perm {A} (ts ts' : list (list A)) (r : list A) : shuffle ts r -> ts ≡ₚ ts' -> shuffle ts' r.
Proof.
  intros H; revert ts'; induction H as [ts Hts|l1 l2 x t r _ IH]; intros ts' P0.
  - constructor; by rewrite <- P0.
  - destruct (list_elem_of_split ts' (x :: t)) as (k1 & k2 & ->).
    { rewrite <- P0; apply elem_of_app; right; left. }
    constructor; apply IH.
    rewrite <- !Permutation_middle in P0 |- *; apply Permutation_cons_inv in P0; by rewrite P0.
Qed.

Lemma shuffle_empty {A} (ts : list (list A)) (r : list A) : shuffle ts r <-> shuffle ([] :: ts) r.
Proof.
  split.
  - induction 1 as [ts Hts|l1 l2 x t r _ IH]; [constructor; by constructor|].
    exact (shuffle_cons ([] :: l1) l2 x t r IH).
  - remember ([] :: ts) as us eqn:U; intros H; revert ts U; induction H as [us Hus|l1 l2 x t r _ IH]; intros ts U; subst.
    + constructor; by inversion Hus.
    + destruct l1 as [|a l1]; simpl in U; [discriminate|injection U as -> <-].
      constructor; by apply IH.
Qed.

(** The events of a goroutine from where it is, when nothing is cancelled. *)
Inductive rest_of : task -> list event -> Prop :=
| rest_ready p d i err r : walk_of p d i err r -> rest_of (Ready p d i err) r
| rest_level_failed p d acc evs failed : level_of p acc evs None -> rest_of (Level p d acc) (evs ++ [EvDone p true failed])
| rest_level p d acc evs children ts t failed : level_of p acc evs (Some children) ->
    Forall2 (fun c t => walk_of (join p c) (d + 1) c false t) children ts -> shuffle ts t ->
    rest_of (Level p d acc) (evs ++ t ++ [EvDone p false failed])
| rest_children p d todo started ts tss t failed :
    Forall2 (fun c t => walk_of (join p c) (d + 1) c false t) todo ts -> Forall2 rest_of started tss ->
    shuffle (tss ++ ts) t -> rest_of (Children p d todo None started) (t ++ [EvDone p false failed])
| rest_current p d todo cur started ts tc tss t failed :
    Forall2 (fun c t => walk_of (join p c) (d + 1) c false t) todo ts -> rest_of cur tc -> Forall2 rest_of started tss ->
    shuffle (tc :: tss ++ ts) t -> rest_of (Children p d todo (Some cur) started) (t ++ [EvDone p false failed])
| rest_ending p err failed : rest_of (Ending p err) [EvDone p err failed]
| rest_over : rest_of (Over true) [].

Definition emit (e : option event) (r : list event) : list event := match e with Some x => x :: r | None => r end.
Definition quiet (e : option event) : bool := match e with Some x => negb (canceled_event x) | None => true end.

Hint Constructors rest_of walk_of level_of : core.

(** A step is undone: what follows it, with its event before. *)
Lemma after_prefix_back p d i err stop children failed r :
  too_deep d = false -> rest_of (after_prefix p d stop children failed) r ->
  walk_of p d i err (EvPrefix p i err stop children failed :: r).
Proof.
  intros Hd; unfold after_prefix; destruct stop; [inversion 1; subst; auto|].
  destruct failed; [inversion 1; subst; auto|].
  destruct children as [|c l]; inversion 1; subst.
  - by apply walk_level_failed.
  - eapply walk_children; eauto.
  - match goal with H1 : Forall2 rest_of [] _ |- _ => inversion H1; subst end.
    eapply (walk_children _ _ _ _ (c :: l) [] (c :: l)); eauto.
Qed.

Lemma level_back p d acc children chunk r :
  rest_of (Level p d (acc ++ children)) r -> rest_of (Level p d acc) (EvContents p chunk (inl children) :: r).
Proof.
  inversion 1; subst.
  - apply (rest_level_failed p d acc (EvContents p chunk (inl children) :: evs)); auto.
  - eapply (rest_level p d acc (EvContents p chunk (inl children) :: evs)); eauto.
Qed.

Lemma Forall2_middle {A B} (R : A -> B -> Prop) l1 x l2 ys :
  Forall2 R (l1 ++ x :: l2) ys <-> exists k1 y k2, ys = k1 ++ y :: k2 /\ Forall2 R l1 k1 /\ R x y /\ Forall2 R l2 k2.
Proof.
  split.
  - intros (k1 & k & H1 & H2 & ->)%Forall2_app_inv_l.
    inversion H2 as [|? y ? k2 Hy Hk]; subst; eauto 10.
  - intros (k1 & y & k2 & -> & H1 & Hy & H2); apply Forall2_app; [exact H1|by constructor].
Qed.

Lemma shuffle_emit (e : option event) l1 t l2 r : shuffle (l1 ++ t :: l2) r -> shuffle (l1 ++ emit e t :: l2) (emit e r).
Proof. destruct e; [apply shuffle_cons|done]. Qed.

(** No goroutine has returned an error. *)
Inductive sound : task -> Prop :=
| sound_ready p d i err : sound (Ready p d i err)
| sound_level p d acc : sound (Level p d acc)
| sound_children p d todo started : Forall sound started -> sound (Children p d todo None started)
| sound_current p d todo cur started : sound cur -> Forall sound started -> sound (Children p d todo (Some cur) started)
| sound_ending p err : sound (Ending p err)
| sound_over : sound (Over true).
Hint Constructors sound : core.

Lemma sound_inv p d todo cur started : sound (Children p d todo cur started) <-> from_option sound True cur /\ Forall sound started.
Proof. split; [inversion 1; subst; simpl; auto|destruct cur; intros [? ?]; auto]. Qed.

Lemma sound_step g t e g' t' : tstep g t e g' t' -> cancelled g = false -> quiet e = true -> sound t ->
  sound t' /\ cancelled g' = false /\ orphans g' = orphans g.
Proof.
  induction 1; intros Hc Q S; simpl in *; try congruence; try (rewrite Hc); auto;
    repeat match goal with H : sound (Children _ _ _ _ _) |- _ => apply sound_inv in H as [? ?] | |- sound (Children _ _ _ _ _) /\ _ => rewrite sound_inv end;
    simpl in *; auto.
  - unfold after_prefix; destruct stop, failed, children; auto.
  - destruct canceled; [discriminate|unfold level_failed; auto].
  - destruct canceled; [discriminate|unfold level_failed; auto].
  - rewrite Forall_app; unfold child_task; auto.
  - unfold child_task; auto.
  - destruct IHtstep as (? & ? & ?); auto.
  - match goal with H : sound (Over false) |- _ => inversion H end.
  - rewrite !Forall_app, !Forall_cons in *; destruct IHtstep as (? & ? & ?); tauto.
  - rewrite !Forall_app, !Forall_cons in *; tauto.
Qed.

Lemma Forall_app_middle {A} (Q : A -> Prop) l1 x l2 : Forall Q (l1 ++ x :: l2) -> Forall Q l1 /\ Q x /\ Forall Q l2.
Proof. by intros [? [? ?]%Forall_cons]%Forall_app. Qed.

Lemma rest_back g t e g' t' : tstep g t e g' t' -> forall r, cancelled g = false -> quiet e = true -> sound t -> rest_of t' r -> rest_of t (emit e r).
Proof.
  induction 1 as [| | | |g p d acc chunk children| | | | | | | |g p d todo t e g' t' started _ IH|
    g p d todo started| |g p d todo cur l1 t l2 e g' t' _ IH|g p d todo cur l1 ok l2|];
    intros r Hc Q S R; simpl; try congruence.
  - inversion R; subst; auto.
  - constructor; by apply after_prefix_back.
  - inversion R; subst; auto.
  - rewrite Hc in R; by apply level_back.
  - destruct canceled; [discriminate|]; inversion R; subst.
    apply (rest_level_failed p d acc [EvContents p chunk (inr false)]); auto.
  - inversion R; subst.
    match goal with H1 : Forall2 rest_of [] _ |- _ => inversion H1; subst end.
    apply (rest_level p d acc [EvScanned p None] acc ts); auto.
  - destruct canceled; [discriminate|]; inversion R; subst.
    apply (rest_level_failed p d acc [EvScanned p (Some false)]); auto.
  - (* async *)
    inversion R as [| | |? ? ? ? ts tss t failed Ht Hs Hr| | |]; subst.
    apply Forall2_middle in Hs as (k1 & y & k2 & -> & H1 & Hy & H2); inversion H2; subst; inversion Hy; subst.
    apply (rest_children _ _ _ _ (y :: ts) k1); [by constructor|done|].
    by rewrite <- app_assoc in Hr.
  - (* sync *)
    inversion R as [| | | |? ? ? ? ? ts tc tss t failed Ht Hcur Hs Hr| |]; subst; inversion Hcur; subst.
    apply (rest_children _ _ _ _ (tc :: ts) tss); [by constructor|done|].
    eapply shuffle_perm; [exact Hr|]; by rewrite Permutation_middle.
  - apply sound_inv in S as [S _].
    inversion R as [| | | |? ? ? ? ? ts tc tss t0 failed Ht Hcur Hs Hr| |]; subst.
    replace (emit e (t0 ++ _)) with (emit e t0 ++ [EvDone p false failed]) by by destruct e.
    apply (rest_current _ _ _ _ _ ts (emit e tc) tss); [done|by apply IH|done|].
    by apply (shuffle_emit e []).
  - inversion R as [| | |? ? ? ? ts tss t failed Ht Hs Hr| | |]; subst.
    apply (rest_current _ _ _ _ _ ts [] tss); [done|constructor|done|by apply shuffle_empty in Hr].
  - inversion R.
  - (* a started goroutine runs *)
    apply sound_inv in S as [_ (_ & S & _)%Forall_app_middle].
    inversion R as [| | |? ? ? ? ts tss t0 failed Ht Hs Hr|? ? ? ? ? ts tc tss t0 failed Ht Hcur Hs Hr| |]; subst;
      apply Forall2_middle in Hs as (k1 & y & k2 & -> & H1 & Hy & H2);
      (replace (emit e (t0 ++ _)) with (emit e t0 ++ [EvDone p false failed]) by by destruct e);
      rewrite <- app_assoc, <- app_comm_cons in Hr.
    + apply (rest_children _ _ _ _ ts (k1 ++ emit e y :: k2)); [done| |].
      * apply Forall2_middle; eauto 10.
      * rewrite <- app_assoc, <- app_comm_cons; by apply shuffle_emit.
    + apply (rest_current _ _ _ _ _ ts tc (k1 ++ emit e y :: k2)); [done|done| |].
      * apply Forall2_middle; eauto 10.
      * rewrite <- app_assoc, <- app_comm_cons; by apply (shuffle_emit e (tc :: k1)).
  - apply sound_inv in S as [_ (_ & S & _)%Forall_app_middle]; inversion S; subst.
    inversion R as [| | |? ? ? ? ts tss t0 failed Ht Hs Hr|? ? ? ? ? ts tc tss t0 failed Ht Hcur Hs Hr| |]; subst;
      apply Forall2_app_inv_l in Hs as (k1 & k2 & H1 & H2 & ->).
    + apply (rest_children _ _ _ _ ts (k1 ++ [] :: k2)); [done|apply Forall2_middle; eauto 10|].
      apply shuffle_empty in Hr; eapply shuffle_perm; [exact Hr|].
      by rewrite <- !app_assoc, <- app_comm_cons, Permutation_middle.
    + apply (rest_current _ _ _ _ _ ts tc (k1 ++ [] :: k2)); [done|done|apply Forall2_middle; eauto 10|].
      apply shuffle_empty in Hr; eapply shuffle_perm; [exact Hr|].
      rewrite <- !app_assoc, <- app_comm_cons, <- (Permutation_middle k1); apply Permutation_swap.
  - inversion R; subst.
    apply (rest_children _ _ _ _ [] [] []); auto; by constructor.
Qed.

(** Cancellation is never undone. *)
Lemma tstep_cancelled g t e g' t' : tstep g t e g' t' -> cancelled g' = cancelled g.
Proof. by induction 1. Qed.

Lemma wstep_cancelled w e w' : wstep w e w' -> cancelled (shared w') = false -> cancelled (shared w) = false.
Proof. destruct 1; simpl; try done; match goal with H : tstep _ _ _ _ _ |- _ => apply tstep_cancelled in H; simpl in H; congruence end. Qed.

Lemma wsteps_cancelled w tr w' : wsteps w tr w' -> cancelled (shared w') = false -> cancelled (shared w) = false.
Proof. induction 1; eauto using wstep_cancelled. Qed.

(** What holds while nothing is cancelled, and the events that are left. *)
Definition calm (w : walk) : Prop := Forall sound (running w) /\ cancelled (shared w) = false /\ orphans (shared w) = [].

Definition rest_of_walk (w : walk) (r : list event) : Prop :=
  exists ts tss, Forall2 (fun r t => walk_of r.1.1 0 r.1.2 r.2 t) (roots w) ts /\ Forall2 rest_of (running w) tss /\ shuffle (tss ++ ts) r.

Lemma wstep_calm w e w' : wstep w e w' -> cancelled (shared w') = false -> quiet e = true -> calm w -> calm w'.
Proof.
  intros H Hc Q (S & Hc0 & O); destruct H; unfold calm; simpl in *; subst; try done;
    try (by destruct l1).
  - rewrite Forall_app; repeat constructor; auto.
  - apply Forall_app_middle in S as (S1 & S & S2).
    match goal with H : tstep _ _ _ _ _ |- _ => destruct (sound_step _ _ _ _ _ H Hc0 Q S) as (? & ? & ?) end.
    rewrite Forall_app, Forall_cons; repeat split; auto; congruence.
  - apply Forall_app_middle in S as (S1 & S & S2); rewrite Forall_app; auto.
Qed.

Lemma wstep_back w e w' : wstep w e w' -> cancelled (shared w') = false -> quiet e = true -> calm w ->
  forall r, rest_of_walk w' r -> rest_of_walk w (emit e r).
Proof.
  intros H Hc Q (S & Hc0 & O) r (ts & tss & H1 & H2 & Hr); destruct H; unfold rest_of_walk; simpl in *; subst;
    try (by destruct l1); try (by exists ts, tss); try done.
  - apply Forall2_middle in H2 as (k1 & y & k2 & -> & H2 & Hy & H3); inversion H3; inversion Hy; subst.
    exists (y :: ts), k1; repeat split; [by constructor|done|by rewrite <- app_assoc in Hr].
  - apply Forall2_middle in H2 as (k1 & y & k2 & -> & H2 & Hy & H3).
    apply Forall_app_middle in S as (_ & S & _).
    exists ts, (k1 ++ emit e y :: k2); repeat split; [done|apply Forall2_middle; eauto 10 using rest_back|].
    rewrite <- app_assoc, <- app_comm_cons in Hr |- *; by apply shuffle_emit.
  - apply Forall_app_middle in S as (_ & S & _); inversion S; subst.
    apply Forall2_app_inv_l in H2 as (k1 & k2 & H2 & H3 & ->).
    exists ts, (k1 ++ [] :: k2); repeat split; [done|apply Forall2_middle; eauto 10|].
    apply shuffle_empty in Hr; eapply shuffle_perm; [exact Hr|].
    by rewrite <- !app_assoc, <- app_comm_cons, Permutation_middle.
Qed.

Lemma wsteps_back w tr w' : wsteps w tr w' -> cancelled (shared w') = false -> forallb (fun e => negb (canceled_event e)) tr = true ->
  calm w -> forall r, rest_of_walk w' r -> rest_of_walk w (tr ++ r).
Proof.
  induction 1 as [w|w w1 tr w2 S Ss IH|w e w1 tr w2 S Ss IH]; intros Hc Q C r R; simpl in Q.
  - exact R.
  - pose proof (wsteps_cancelled _ _ _ Ss Hc) as Hc1.
    apply (wstep_back w None w1); eauto using wstep_calm.
  - apply andb_prop in Q as [Qe Q]; pose proof (wsteps_cancelled _ _ _ Ss Hc) as Hc1.
    apply (wstep_back w (Some e) w1); eauto using wstep_calm.
Qed.

(** A goroutine that has not returned is never stuck. *)
Lemma task_steps t : forall g, (exists ok, t = Over ok) \/ exists e g' t', tstep g t e g' t'.
Proof.
  revert t; fix IH 1; intros t g; destruct t as [p d i err|p d acc|p d todo cur started|p err|ok].
  - right; destruct (too_deep d) eqn:Hd; [eauto 10 using tstep|].
    destruct (cancelled g) eqn:Hc; [eauto 10 using tstep|].
    exists (Some (EvPrefix p i err true [] false)); eauto using tstep.
  - right; exists (Some (EvScanned p None)); eauto using tstep.
  - right; destruct started as [|t started].
    + destruct cur as [t|].
      * destruct (IH t g) as [[[] ->]|(e & g' & t' & H)]; eauto 10 using tstep.
      * destruct todo as [|c todo]; [eauto 10 using tstep|].
        destruct (cancelled g) eqn:Hc, (tokens g) eqn:Ht; eauto 10 using tstep.
    + destruct (IH t g) as [[ok ->]|(e & g' & t' & H)].
      * exists None; do 2 eexists; exact (ts_started_over g p d todo cur [] ok started).
      * exists e, g', (Children p d todo cur (t' :: started)); exact (ts_started g p d todo cur [] t started e g' t' H).
  - right; exists (Some (EvDone p err false)); eauto using tstep.
  - left; eauto.
Qed.

(** C22: A walk that is not cancelled, when it has returned, has made exactly the calls
    of the reference: for every root an interleaving of the walks of its children
    between the scan of its level and its [Done], whatever the number of goroutines,
    the file system and the handler. *)
Theorem Walk_traces rs tr w' : wsteps (initial rs) tr w' -> returned w' -> cancelled (shared w') = false ->
  forallb (fun e => negb (canceled_event e)) tr = true ->
  exists ts, Forall2 (fun r t => walk_of r.1.1 0 r.1.2 r.2 t) rs ts /\ shuffle ts tr.
Proof.
  intros H [R1 R2] Hc Q.
  destruct (wsteps_back _ _ _ H Hc Q) with (r := @nil event) as (ts & tss & H1 & H2 & Hs).
  - repeat split; constructor.
  - exists [], []; rewrite R1, R2; repeat split; constructor; constructor.
  - rewrite app_nil_r in Hs; inversion H2; subst; by exists ts.
Qed.

(** As long as [Walk] has not returned, some goroutine that it waits for can take a
    step, whether the walk is cancelled or not and whether there are tokens or not. *)
Theorem Walk_never_stuck (w : walk) : (0 < limit)%nat -> ~ returned w -> exists e w', wstep w e w'.
Proof.
  intros Hl Hn; destruct w as [rs [|t run] g].
  - destruct rs as [|r rs]; [by destruct Hn|].
    exists None; eexists; by constructor.
  - destruct (task_steps t g) as [[ok ->]|(e & g' & t' & H)].
    + exists None; eexists; exact (ws_over rs [] ok run g).
    + exists e; eexists; exact (ws_run rs [] t run g e g' t' H).
Qed.
End walker.
Arguments event : clear implicits.
Arguments task : clear implicits.
Arguments pool : clear implicits.
Arguments walk : clear implicits.

(** ** ContentsOnly *)

(** The errors that [Done] distinguishes.  The package's [SkipAll] is declared as
    [fs.SkipDir]. *)
Inductive failure := FsSkipDir | FsSkipAll | Other (n : Z).
Definition SkipAll : failure := FsSkipDir.
Definition SkipDir : failure := FsSkipDir.

Section contents_only.
(** Entries and infos, [IsDir] of an entry, [fs.Lstat(fs.Join(prefix, name))], and
    the handler, which sees the calls made before. *)
Context {P I E : Type} (IsDir : E -> bool) (Lstat : P -> E -> I + failure).

(** [stop], and the calls of the handler. *)
Record contentsOnly := MkContentsOnly { stop_ : bool; calls : list (P * list E * option failure) }.

Context (handler : contentsOnly -> P -> list E -> option failure -> option failure).

Definition setStop (l : contentsOnly) : contentsOnly := MkContentsOnly true (calls l).

Definition call (l : contentsOnly) (p : P) (es : list E) (err : option failure) : contentsOnly * option failure :=
  (MkContentsOnly (stop_ l) (calls l ++ [(p, es, err)]), handler l p es err).

(** [Prefix]: stop, no children, and the error of [Lstat]. *)
Definition Prefix (l : contentsOnly) (err : option failure) : bool * list I * option failure := (stop_ l, [], err).

(** The loop of [Contents]. *)
Fixpoint divide (p : P) (contents : list E) (children : list I) (files : list E) : (list I * list E) + failure :=
  match contents with
  | [] => inl (children, files)
  | c :: contents =>
    if IsDir c then
      match Lstat p c with
      | inr err => inr err
      | inl info => divide p contents (children ++ [info]) files
      end
    else divide p contents children (files ++ [c])
  end.

Definition Contents (l : contentsOnly) (p : P) (contents : list E) : contentsOnly * (list I + failure) :=
  match divide p contents [] [] with
  | inr err => (l, inr err)
  | inl (children, files) =>
    match call l p files None with
    | (l', Some err) => (l', inr err)
    | (l', None) => (l', inl children)
    end
  end.

Definition Done (l : contentsOnly) (p : P) (err : option failure) : contentsOnly * option failure :=
  match err with
  | Some FsSkipDir => (l, None)
  | Some FsSkipAll => (setStop l, None)
  | Some (Other n) => call l p [] (Some (Other n))
  | None => (l, None)
  end.

(** Directories are walked and the rest is given to the handler, both in order. *)
Lemma divide_spec p (info : E -> I) contents : (forall c, In c contents -> IsDir c = true -> Lstat p c = inl (info c)) -> forall children files,
  divide p contents children files =
  inl (children ++ map info (List.filter IsDir contents), files ++ List.filter (fun c => negb (IsDir c)) contents).
Proof.
  induction contents as [|c contents IH]; intros H children files; simpl; [by rewrite !app_nil_r|].
  assert (H' : forall c, In c contents -> IsDir c = true -> Lstat p c = inl (info c)) by (intros; apply H; simpl; auto).
  destruct (IsDir c) eqn:D; simpl.
  - rewrite (H c (or_introl eq_refl) D), (IH H'); by rewrite <- app_assoc.
  - rewrite (IH H'); by rewrite <- app_assoc.
Qed.

(** A handler that returns the package's own [SkipAll] does not stop the walk. *)
Lemma SkipAll_does_not_stop (l : contentsOnly) (p : P) : stop_ (Done l p (Some SkipAll)).1 = stop_ l.
Proof. reflexivity. Qed.

End contents_only.

(** ** Examples *)

(** A root 1 whose child 2 is walked by a goroutine of its own. *)
Definition number_join (p i : Z) : Z := 10 * p + i.

Definition small_walk : list (event Z Z unit) :=
  [EvPrefix 1 7 false false [2] false; EvPrefix 12 2 false true [] false; EvDone 1 false false].

Lemma small_walk_steps : exists w, wsteps number_join 5 1 (initial 1 [(1, 7, false)]) small_walk w /\ returned w /\ cancelled (shared w) = false.
Proof.
  exists (MkWalk [] [] (MkPool 1 1 false [])); split; [|by split].
  eapply wsteps_silent; [apply ws_start; simpl; lia|].
  eapply wsteps_event; [apply (ws_run _ _ _ _ [] _ []), ts_prefix; done|]; simpl.
  eapply wsteps_silent; [apply (ws_run _ _ _ _ [] _ []), (ts_async _ _ _ 1); done|].
  eapply wsteps_event; [apply (ws_run _ _ _ _ [] _ []), (ts_started _ _ _ _ _ _ _ [] _ []), ts_prefix; done|].
  eapply wsteps_silent; [apply (ws_run _ _ _ _ [] _ []), (ts_started_over _ _ _ _ _ _ _ [] _ [])|].
  eapply wsteps_silent; [apply (ws_run _ _ _ _ [] _ []), ts_wait|].
  eapply wsteps_event; [apply (ws_run _ _ _ _ [] _ []), ts_done|].
  eapply wsteps_silent; [apply (ws_over _ _ _ _ [] _ [])|].
  apply wsteps_nil.
Qed.

(** A cancelled walk returns while a goroutine that it has started goes on calling
    the handler: [walkChildren] returns without waiting for it. *)
Lemma Walk_leaves_goroutines : exists tr w e w', wsteps (E := unit) number_join 5 1 (initial 1 [(1, 7, false)]) tr w /\ returned w /\
  wstep (E := unit) number_join 5 1 w (Some e) w'.
Proof.
  exists [EvPrefix 1 7 false false [2; 3] false; EvPrefix 12 2 false false [] false]; exists (MkWalk [] [] (MkPool 1 0 true [Level 12 1 []])); do 2 eexists; split; [|split].
  - eapply wsteps_silent; [apply ws_start; simpl; lia|].
    eapply wsteps_event; [apply (ws_run _ _ _ _ [] _ []), ts_prefix; done|]; simpl.
    eapply wsteps_silent; [apply (ws_run _ _ _ _ [] _ []), (ts_async _ _ _ 1); done|].
    eapply wsteps_event; [apply (ws_run _ _ _ _ [] _ []), (ts_started _ _ _ _ _ _ _ [] _ []), ts_prefix; done|]; simpl.
    eapply wsteps_silent; [apply ws_cancel|].
    eapply wsteps_silent; [apply (ws_run _ _ _ _ [] _ []), ts_cancelled; done|].
    eapply wsteps_silent; [apply (ws_over _ _ _ _ [] _ [])|].
    apply wsteps_nil.
  - by split.
  - eapply (ws_orphan _ _ _ _ _ _ _ _ [] _ []), (ts_contents _ _ _ _ _ _ [tt] []).
Qed.

Lemma Walk_traces_witness : exists w, wsteps number_join 5 1 (initial 1 [(1, 7, false)]) small_walk w /\
  exists ts, Forall2 (fun r t => walk_of number_join 5 r.1.1 0 r.1.2 r.2 t) [(1, 7, false)] ts /\ shuffle ts small_walk.
Proof.
  destruct small_walk_steps as (w & H & R & C); exists w; split; [exact H|].
  apply (Walk_traces number_join 5 1 _ _ w H R C); reflexivity.
Defined.

Lemma Walk_never_stuck_witness : exists e w', wstep (E := unit) number_join 5 1 (initial 1 [(1, 7, false)]) e w'.
Proof. apply Walk_never_stuck; [lia|intros [H _]; discriminate]. Defined.
