(* ===== verification/Codec.v ===== *)
(** * Binary encodings (algo/codec; file: Info, InfoList, XAttr; file/filewalk: EntryList)

    Strings and counts are preceded by varints, whose functions are those of
    encoding/binary.  Decoding takes the value and gives the bytes that are left;
    what is out of range panics, as the slices do, whose capacity is taken to be
    their length. *)

From stdpp Require Import base list option numbers.
From Stdlib Require Import ZArith Lia.
From stdpp Require Import list.
From S2P Require Import Prelude.

Open Scope Z_scope.

Abbreviation bytes := (list Z).

(** ** Varints (encoding/binary) *)

Definition MaxVarintLen64 : Z := 10.

Fixpoint AppendUvarint_loop (fuel : nat) (buf : bytes) (x : Z) : bytes :=
  match fuel with
  | O => buf ++ [x]
  | S fuel => if 128 <=? x then AppendUvarint_loop fuel (buf ++ [Z.lor (x mod 256) 128]) (Z.shiftr x 7) else buf ++ [x]
  end.

(** A uint64 has ten groups of seven bits. *)
Definition AppendUvarint (buf : bytes) (x : Z) : bytes := AppendUvarint_loop 9 buf x.

Definition shl64 (x s : Z) : Z := Z.shiftl x s mod 2 ^ 64.
Definition not64 (x : Z) : Z := 2 ^ 64 - 1 - x.

Definition AppendVarint (buf : bytes) (x : Z) : bytes :=
  let ux := shl64 (x mod 2 ^ 64) 1 in AppendUvarint buf (if x <? 0 then not64 ux else ux).

(** The value and the number of bytes read: 0 if there are too few of them, and
    negative on overflow. *)
Fixpoint Uvarint_loop (buf : bytes) (i x s : Z) : Z * Z :=
  match buf with
  | [] => (0, 0)
  | b :: buf =>
    if i =? MaxVarintLen64 then (0, - (i + 1))
    else if b <? 128 then
      if (i =? MaxVarintLen64 - 1) && (1 <? b) then (0, - (i + 1)) else (Z.lor x (shl64 b s), i + 1)
    else Uvarint_loop buf (i + 1) (Z.lor x (shl64 (Z.land b 127) s)) (s + 7)
  end.

Definition Uvarint (buf : bytes) : Z * Z := Uvarint_loop buf 0 0 0.

Definition Varint (buf : bytes) : Z * Z :=
  let (ux, n) := Uvarint buf in
  let x := Z.shiftr ux 1 in
  (if Z.land ux 1 =? 0 then x else - x - 1, n).

(** [PutVarint] into an array: it panics if the array is too short. *)
Definition PutVarint (size : Z) (x : Z) : res bytes :=
  let b := AppendVarint [] x in if len b <=? size then Ok b else Panic.

Fixpoint le_bytes (n : nat) (x : Z) : bytes := match n with O => [] | S n => x mod 256 :: le_bytes n (x / 256) end.

(** [LittleEndian.AppendUint32] and [Uint32]. *)
Definition AppendUint32 (buf : bytes) (x : Z) : bytes := buf ++ le_bytes 4 x.

Definition Uint32 (b : bytes) : res Z :=
  match b with b0 :: b1 :: b2 :: b3 :: _ => Ok (b0 + 256 * b1 + 65536 * b2 + 16777216 * b3) | _ => Panic end.

(** [data[n:]] *)
Definition from (data : bytes) (n : Z) : res bytes := zslice data n (len data).

(** ** Lemmas on varints *)

Lemma AppendUvarint_loop_app fuel : forall buf x, AppendUvarint_loop fuel buf x = buf ++ AppendUvarint_loop fuel [] x.
Proof.
  induction fuel as [|fuel IH]; intros buf x; simpl; [done|].
  destruct (128 <=? x); [|done].
  rewrite (IH (buf ++ _)), (IH [_]); by rewrite <- app_assoc.
Qed.

Lemma lor_128 b : Z.lor (b mod 256) 128 = 128 + b mod 128.
Proof.
  assert (H : forall n : nat, (n < 256)%nat -> (Z.lor (Z.of_nat n) 128 =? 128 + Z.of_nat n mod 128) = true).
  { intros n Hn; assert (B : forallb (fun n => (Z.lor (Z.of_nat n) 128 =? 128 + Z.of_nat n mod 128)) (seq 0 256) = true) by (vm_compute; reflexivity).
    rewrite forallb_forall in B; apply B, in_seq; lia. }
  specialize (H (Z.to_nat (b mod 256))); rewrite Z2Nat.id in H by (apply Z.mod_pos_bound; lia).
  apply Z.eqb_eq in H; [|pose proof (Z.mod_pos_bound b 256); lia].
  rewrite H; f_equal; symmetry; symmetry; apply Z.mod_mod_divide; exists 2; lia.
Qed.

Lemma lor_shift x y s : 0 <= s -> 0 <= x < 2 ^ s -> 0 <= y -> y * 2 ^ s < 2 ^ 64 -> Z.lor x (shl64 y s) = x + y * 2 ^ s.
Proof.
  intros Hs Hx Hy Hb; unfold shl64; rewrite Z.shiftl_mul_pow2 by lia.
  rewrite Z.mod_small by (split; [apply Z.mul_nonneg_nonneg; lia|exact Hb]).
  pose proof (Z.add_lor_land x (y * 2 ^ s)) as H.
  assert (L : Z.land x (y * 2 ^ s) = 0); [|lia].
  apply Z.bits_inj'; intros n Hn; rewrite Z.land_spec, Z.bits_0.
  destruct (Z.ltb_spec n s).
  - rewrite Z.mul_pow2_bits_low by lia; apply andb_false_r.
  - destruct (decide (x = 0)) as [->|]; [by rewrite Z.bits_0|].
    rewrite (Z.bits_above_log2 x n); [done|lia|].
    apply Z.log2_lt_pow2; [lia|].
    apply Z.lt_le_trans with (2 ^ s); [lia|apply Z.pow_le_mono_r; lia].
Qed.

Lemma Uvarint_loop_append fuel : forall i x y rest, Z.of_nat fuel = 9 - i -> 0 <= i -> 0 <= x < 2 ^ (7 * i) -> 0 <= y -> y * 2 ^ (7 * i) < 2 ^ 64 ->
  Uvarint_loop (AppendUvarint_loop fuel [] y ++ rest) i x (7 * i) = (x + y * 2 ^ (7 * i), i + len (AppendUvarint_loop fuel [] y)).
Proof.
  induction fuel as [|fuel IH]; intros i x y rest Hf Hi Hx Hy Hb.
  - assert (i = 9) as -> by lia; cbn in Hb.
    cbn -[Z.lor shl64 Z.pow Z.mul]; destruct (y <? 128) eqn:Q; [|lia].
    destruct (1 <? y) eqn:Q1; [lia|]; rewrite lor_shift by lia; done.
  - cbn [AppendUvarint_loop]; destruct (128 <=? y) eqn:Q.
    + rewrite AppendUvarint_loop_app, <- app_assoc; cbn [app Uvarint_loop].
      pose proof (Z.mod_pos_bound y 128) as M.
      destruct (i =? MaxVarintLen64) eqn:Q1; [unfold MaxVarintLen64 in Q1; lia|].
      rewrite lor_128; destruct (128 + y mod 128 <? 128) eqn:Q2; [lia|].
      assert (L : Z.land (128 + y mod 128) 127 = y mod 128).
      { change 127 with (Z.ones 7); rewrite Z.land_ones by lia; change (2 ^ 7) with 128.
        rewrite <- Zplus_mod_idemp_l; change (128 mod 128) with 0; apply Z.mod_small; lia. }
      assert (P : 2 ^ (7 * (i + 1)) = 128 * 2 ^ (7 * i)).
      { replace (7 * (i + 1)) with (7 + 7 * i) by lia; rewrite Z.pow_add_r by lia; reflexivity. }
      assert (D : y = 128 * Z.shiftr y 7 + y mod 128) by (rewrite Z.shiftr_div_pow2 by lia; change (2 ^ 7) with 128; apply Z.div_mod; lia).
      assert (S0 : 0 <= Z.shiftr y 7) by (apply Z.shiftr_nonneg; lia).
      assert (0 < 2 ^ (7 * i)) by (apply Z.pow_pos_nonneg; lia).
      rewrite L, lor_shift by nia.
      replace (7 * i + 7) with (7 * (i + 1)) by lia.
      rewrite IH; [|lia|lia|nia|lia|nia].
      rewrite len_cons, P; f_equal; [nia|lia].
    + cbn [app Uvarint_loop]; destruct (i =? MaxVarintLen64) eqn:Q1; [unfold MaxVarintLen64 in Q1; lia|].
      destruct (y <? 128) eqn:Q2; [|lia].
      destruct ((i =? MaxVarintLen64 - 1) && (1 <? y)) eqn:Q3; [unfold MaxVarintLen64 in Q3; lia|].
      rewrite lor_shift by lia; done.
Qed.

Lemma Uvarint_append x rest : uint64_ok x -> Uvarint (AppendUvarint [] x ++ rest) = (x, len (AppendUvarint [] x)).
Proof.
  intros H; unfold uint64_ok in H; unfold Uvarint, AppendUvarint.
  pose proof (Uvarint_loop_append 9 0 0 x rest) as L; change (7 * 0) with 0 in L; rewrite L; [f_equal; lia|..]; lia.
Qed.

Lemma zigzag_value x : int64_ok x ->
  (if x <? 0 then not64 (shl64 (x mod 2 ^ 64) 1) else shl64 (x mod 2 ^ 64) 1) = if x <? 0 then - 2 * x - 1 else 2 * x.
Proof.
  unfold int64_ok, not64, shl64; intros H; rewrite Z.shiftl_mul_pow2 by lia.
  destruct (x <? 0) eqn:Q.
  - rewrite <- (Z.mod_unique x (2 ^ 64) (-1) (x + 2 ^ 64)) by lia.
    rewrite <- (Z.mod_unique ((x + 2 ^ 64) * 2 ^ 1) (2 ^ 64) 1 (2 * x + 2 ^ 64)) by lia; lia.
  - rewrite (Z.mod_small x) by lia; rewrite Z.mod_small by lia; lia.
Qed.

Lemma Varint_append x rest : int64_ok x -> Varint (AppendVarint [] x ++ rest) = (x, len (AppendVarint [] x)).
Proof.
  intros H; unfold Varint, AppendVarint; rewrite (zigzag_value x H).
  unfold int64_ok in H; rewrite Uvarint_append by (unfold uint64_ok; destruct (x <? 0) eqn:Q; lia).
  f_equal; assert (L : forall z, Z.land z 1 = z mod 2) by (intros z; exact (Z.land_ones z 1 ltac:(lia))).
  rewrite L, Z.shiftr_div_pow2 by lia; change (2 ^ 1) with 2.
  destruct (x <? 0) eqn:Q; (case Z.eqb_spec; intros; div_lia).
Qed.

Lemma le_bytes_Uint32 x rest : 0 <= x < 2 ^ 32 -> Uint32 (le_bytes 4 x ++ rest) = Ok x.
Proof. intros H; cbn [le_bytes app Uint32]; f_equal; div_lia. Qed.

Lemma from_app (a b : bytes) n : n = len a -> from (a ++ b) n = Ok b.
Proof.
  intros ->; unfold from, zslice; rewrite len_app; pose proof (len_nonneg a); pose proof (len_nonneg b).
  replace ((0 <=? len a) && (len a <=? len a + len b) && (len a + len b <=? len a + len b)) with true by lia.
  f_equal; rewrite drop_app_length'; [|unfold len; lia].
  apply firstn_all2; unfold len; lia.
Qed.

(** ** Strings *)

Definition decodeString (data : bytes) : res (Z * bytes) :=
  let (l, n) := Varint data in
  let! s := zslice data n (n + l) in
  Ok (n + l, s).

Lemma decodeString_app s rest : len s < 2 ^ 63 ->
  decodeString (AppendVarint [] (len s) ++ s ++ rest) = Ok (len (AppendVarint [] (len s) ++ s), s).
Proof.
  intros H; unfold decodeString; pose proof (len_nonneg s); pose proof (len_nonneg rest).
  rewrite Varint_append by (unfold int64_ok; lia).
  pose proof (len_nonneg (AppendVarint [] (len s))); rewrite zslice_Ok, !len_app; [|lia|rewrite !len_app; lia].
  cbn [rbind]; do 2 f_equal.
  rewrite drop_app_length' by (unfold len; lia).
  apply take_app_length'; unfold len; lia.
Qed.

Lemma AppendUvarint_loop_len fuel : forall k y, (k <= fuel)%nat -> 0 <= y < 2 ^ (7 * (Z.of_nat k + 1)) -> len (AppendUvarint_loop fuel [] y) <= Z.of_nat k + 1.
Proof.
  induction fuel as [|fuel IH]; intros k y Hk Hy; cbn [AppendUvarint_loop]; [unfold len; cbn [app length]; lia|].
  destruct (128 <=? y) eqn:Q; [|unfold len; cbn [app length]; lia].
  destruct k as [|k]; [cbn in Hy; lia|].
  rewrite AppendUvarint_loop_app; cbn [app]; rewrite len_cons.
  assert (P : 2 ^ (7 * (Z.of_nat (S k) + 1)) = 2 ^ (7 * (Z.of_nat k + 1)) * 2 ^ 7) by (rewrite <- Z.pow_add_r by lia; f_equal; lia).
  pose proof (IH k (Z.shiftr y 7) ltac:(lia)) as L.
  rewrite Z.shiftr_div_pow2 in L |- * by lia; rewrite P in Hy; change (2 ^ 7) with 128 in *.
  assert (0 <= y / 128 < 2 ^ (7 * (Z.of_nat k + 1))) by (split; [apply Z.div_pos; lia|apply Z.div_lt_upper_bound; lia]).
  specialize (L ltac:(assumption)); lia.
Qed.

(** Five bytes are enough below 2^34. *)
Lemma PutVarint_5 x : 0 <= x < 2 ^ 34 -> PutVarint 5 x = Ok (AppendVarint [] x).
Proof.
  intros H; unfold PutVarint.
  assert (L : len (AppendVarint [] x) <= 5).
  { unfold AppendVarint; rewrite zigzag_value by (unfold int64_ok; lia).
    destruct (x <? 0) eqn:Q; [lia|]; apply (AppendUvarint_loop_len 9 4); [lia|]; change (7 * (Z.of_nat 4 + 1)) with 35; lia. }
  destruct (len (AppendVarint [] x) <=? 5) eqn:Q; [done|lia].
Qed.

(** ** EntryList (file/filewalk) *)

Module EntryList.

Record Entry := MkEntry { Name : bytes; Type_ : Z }.

Definition appendString (buf s : bytes) : bytes := AppendVarint buf (len s) ++ s.

Definition append_entry (data : bytes) (c : Entry) : bytes := AppendUint32 (appendString data (Name c)) (Type_ c).

Definition AppendBinary (el : list Entry) (data : bytes) : bytes := fold_left append_entry el (AppendVarint data (len el)).

Definition MarshalBinary (el : list Entry) : bytes := AppendBinary el [].

Fixpoint decode_entries (n : nat) (data : bytes) : res (list Entry * bytes) :=
  match n with
  | O => Ok ([], data)
  | S n =>
    let! (k, name) := decodeString data in
    let! data := from data k in
    let! mode := Uint32 data in
    let! data := from data 4 in
    let! (el, data) := decode_entries n data in
    Ok (MkEntry name mode :: el, data)
  end.

(** [DecodeBinary]: it never returns an error. *)
Definition DecodeBinary (data : bytes) : res (list Entry * bytes) :=
  let (l, n) := Varint data in
  let! data := from data n in
  if l <? 0 then Panic else decode_entries (Z.to_nat l) data.

Definition UnmarshalBinary (data : bytes) : res (list Entry) :=
  let! (el, _) := DecodeBinary data in Ok el.

Definition entry_ok (c : Entry) : Prop := len (Name c) < 2 ^ 63 /\ 0 <= Type_ c < 2 ^ 32.

Lemma AppendVarint_app buf x : AppendVarint buf x = buf ++ AppendVarint [] x.
Proof. apply AppendUvarint_loop_app. Qed.

Lemma append_entry_app data c : append_entry data c = data ++ append_entry [] c.
Proof. unfold append_entry, appendString, AppendUint32; rewrite AppendVarint_app; by rewrite <- !app_assoc. Qed.

Lemma append_entries_app el : forall data, fold_left append_entry el data = data ++ fold_left append_entry el [].
Proof.
  induction el as [|c el IH]; intros data; simpl; [by rewrite app_nil_r|].
  rewrite IH, (IH (append_entry [] c)), (append_entry_app data); by rewrite <- app_assoc.
Qed.

Lemma decode_entries_append el rest : Forall entry_ok el -> decode_entries (length el) (fold_left append_entry el [] ++ rest) = Ok (el, rest).
Proof.
  induction 1 as [|c el [H1 H2] _ IH]; [done|].
  cbn [fold_left decode_entries length]; rewrite append_entries_app.
  change (append_entry [] c) with ((AppendVarint [] (len (Name c)) ++ Name c) ++ le_bytes 4 (Type_ c)).
  rewrite <- !app_assoc, decodeString_app by done; cbn [rbind].
  rewrite app_assoc, from_app by done; cbn [rbind].
  rewrite le_bytes_Uint32 by done; cbn [rbind].
  rewrite from_app by done; cbn [rbind]; rewrite IH; by destruct c.
Qed.

(** What [AppendBinary] appends, [DecodeBinary] decodes, with the bytes that follow. *)
Theorem EntryList_roundtrip el data rest : Forall entry_ok el -> len el < 2 ^ 63 ->
  exists enc, AppendBinary el data = data ++ enc /\ DecodeBinary (enc ++ rest) = Ok (el, rest).
Proof.
  intros H L; pose proof (len_nonneg el); exists (AppendVarint [] (len el) ++ fold_left append_entry el []); split.
  - unfold AppendBinary; rewrite append_entries_app, AppendVarint_app; by rewrite <- app_assoc.
  - unfold DecodeBinary; rewrite <- app_assoc, Varint_append by (unfold int64_ok; lia).
    rewrite from_app by done; cbn [rbind].
    destruct (len el <? 0) eqn:Q; [lia|]; unfold len; rewrite Nat2Z.id; by apply decode_entries_append.
Qed.

(** Truncated data: no data is an empty list, as is the first byte of a longer
    count, and the rest panics. *)
Lemma truncated_lists : DecodeBinary [] = Ok ([], []) /\ DecodeBinary [128] = Ok ([], [128]) /\ DecodeBinary [2; 6; 97; 98] = Panic.
Proof. repeat split; reflexivity. Qed.

End EntryList.

(** ** Info and InfoList (file) *)

Section infos.
(** Times, what [Sys] returns, the errors of [modTime.MarshalBinary] and
    [UnmarshalBinary], and these functions. *)
Context {T S E : Type} (zero : T) (marshal : T -> bytes + E) (unmarshal : bytes -> T + E).

Record Info := MkInfo { name : bytes; size : Z; mode : Z; modTime : T; sysInfo : option S }.

Inductive decode_error := Insufficient | BadVersion (got : Z) | TimeError (e : E).

(** [appendString], whose array has five bytes. *)
Definition appendString (buf s : bytes) : res bytes := let! b := PutVarint 5 (len s) in Ok (buf ++ b ++ s).

(** [Info.AppendBinary]: the buffer, and an error. *)
Definition AppendBinary (fi : Info) (buf : bytes) : res (bytes * option E) :=
  let! buf := appendString (buf ++ [1]) (name fi) in
  let data := AppendUint32 (AppendVarint [] (size fi)) (mode fi) in
  match marshal (modTime fi) with
  | inr e => Ok (buf, Some e)
  | inl out => Ok (buf ++ AppendVarint data (len out) ++ out, None)
  end.

Definition MarshalBinary (fi : Info) : res (bytes + E) :=
  let! (buf, err) := AppendBinary fi [] in
  Ok match err with Some e => inr e | None => inl buf end.

(** [Info.DecodeBinary] into [fi], whose [sysInfo] stays. *)
Definition DecodeBinary (fi : Info) (data : bytes) : res ((Info * bytes) + decode_error) :=
  match data with
  | [] => Ok (inr Insufficient)
  | v :: data =>
    if negb (v =? 1) then Ok (inr (BadVersion v)) else
    let! (n, name') := decodeString data in
    let! data := from data n in
    let (size', n) := Varint data in
    let! data := from data n in
    let! mode' := Uint32 data in
    let! data := from data 4 in
    let (ts, n) := Varint data in
    let! data := from data n in
    let! time := zslice data 0 ts in
    match unmarshal time with
    | inr e => Ok (inr (TimeError e))
    | inl t => let! data := from data ts in Ok (inl (MkInfo name' size' mode' t (sysInfo fi), data))
    end
  end.

Definition UnmarshalBinary (fi : Info) (data : bytes) : res (Info + decode_error) :=
  let! r := DecodeBinary fi data in
  Ok match r with inl (fi', _) => inl fi' | inr e => inr e end.

Fixpoint append_infos (il : list Info) (buf : bytes) : res (bytes * option E) :=
  match il with
  | [] => Ok (buf, None)
  | c :: il =>
    let! (buf, err) := AppendBinary c buf in
    match err with Some e => Ok (buf, Some e) | None => append_infos il buf end
  end.

(** [InfoList.AppendBinary] *)
Definition InfoList_AppendBinary (il : list Info) (buf : bytes) : res (bytes * option E) :=
  let! b := PutVarint 5 (len il) in append_infos il (buf ++ b).

Definition InfoList_MarshalBinary (il : list Info) : res (bytes + E) :=
  let! (buf, err) := InfoList_AppendBinary il [] in
  Ok match err with Some e => inr e | None => inl buf end.

Definition zero_info : Info := MkInfo [] 0 0 zero None.

Fixpoint decode_infos (n : nat) (data : bytes) : res ((list Info * bytes) + decode_error) :=
  match n with
  | O => Ok (inl ([], data))
  | Datatypes.S n =>
    let! r := DecodeBinary zero_info data in
    match r with
    | inr e => Ok (inr e)
    | inl (fi, data) =>
      let! r := decode_infos n data in
      Ok match r with inl (il, data) => inl (fi :: il, data) | inr e => inr e end
    end
  end.

Definition DecodeBinaryInfoList (data : bytes) : res ((list Info * bytes) + decode_error) :=
  let (l, n) := Varint data in
  let! data := from data n in
  if l <? 0 then Panic else decode_infos (Z.to_nat l) data.

(** [InfoList.UnmarshalBinary]: with an error the list becomes nil. *)
Definition InfoList_UnmarshalBinary (data : bytes) : res (list Info * option decode_error) :=
  let! r := DecodeBinaryInfoList data in
  Ok match r with inl (il, _) => (il, None) | inr e => ([], Some e) end.

(** ** Round trips *)

(** What package time promises of a time that it has encoded: it is decoded into the
    same instant with the same offset from UTC.  Its monotonic clock reading and the
    name of its location are lost. *)
Context (same_time : T -> T -> Prop).
Hypothesis unmarshal_marshal : forall t b, marshal t = inl b -> len b < 2 ^ 63 /\ exists t', unmarshal b = inl t' /\ same_time t t'.

(** What is encoded: all but what [Sys] returns, and of the time what [same_time]
    looks at. *)
Definition decoded_from (sys : option S) (fi fi' : Info) : Prop :=
  name fi' = name fi /\ size fi' = size fi /\ mode fi' = mode fi /\ same_time (modTime fi) (modTime fi') /\ sysInfo fi' = sys.

Definition info_ok (fi : Info) : Prop :=
  len (name fi) < 2 ^ 34 /\ int64_ok (size fi) /\ 0 <= mode fi < 2 ^ 32 /\ exists b, marshal (modTime fi) = inl b.

Lemma Info_roundtrip fi buf : info_ok fi ->
  exists enc, AppendBinary fi buf = Ok (buf ++ enc, None) /\
    forall into rest, exists fi', DecodeBinary into (enc ++ rest) = Ok (inl (fi', rest)) /\ decoded_from (sysInfo into) fi fi'.
Proof.
  intros (H1 & H2 & H3 & b & Hb); pose proof (len_nonneg (name fi)); pose proof (len_nonneg b).
  destruct (unmarshal_marshal _ _ Hb) as (Hl & t' & Hu & Ht).
  exists ([1] ++ (AppendVarint [] (len (name fi)) ++ name fi) ++ AppendVarint [] (size fi) ++ le_bytes 4 (mode fi) ++ AppendVarint [] (len b) ++ b); split.
  - unfold AppendBinary, appendString; rewrite PutVarint_5 by lia; cbn [rbind]; rewrite Hb.
    rewrite (EntryList.AppendVarint_app (AppendUint32 _ _)); unfold AppendUint32; by rewrite <- !app_assoc.
  - intros into rest; exists (MkInfo (name fi) (size fi) (mode fi) t' (sysInfo into)); split; [|by repeat split].
    cbn [app DecodeBinary]; rewrite <- !app_assoc; cbn [Z.eqb Pos.eqb negb].
    rewrite decodeString_app by lia; cbn [rbind]; rewrite app_assoc, from_app by done; cbn [rbind].
    rewrite Varint_append by done; rewrite from_app by done; cbn [rbind].
    rewrite le_bytes_Uint32 by done; cbn [rbind]; rewrite from_app by done; cbn [rbind].
    rewrite Varint_append by (unfold int64_ok; lia); rewrite from_app by done; cbn [rbind].
    rewrite zslice_Ok by (rewrite ?len_app; pose proof (len_nonneg rest); lia); cbn [rbind].
    rewrite Z.sub_0_r; change (Z.to_nat 0) with 0%nat; rewrite drop_0, take_app_length' by (unfold len; lia); rewrite Hu.
    by rewrite from_app by done.
Qed.

Lemma append_infos_roundtrip il : Forall info_ok il -> forall buf, exists enc, append_infos il buf = Ok (buf ++ enc, None) /\
  forall rest, exists il', decode_infos (length il) (enc ++ rest) = Ok (inl (il', rest)) /\ Forall2 (decoded_from None) il il'.
Proof.
  induction 1 as [|fi il H _ IH]; intros buf; [exists []; rewrite app_nil_r; split; [done|intros rest; by exists []]|].
  destruct (Info_roundtrip fi buf H) as (e1 & A1 & D1); destruct (IH (buf ++ e1)) as (e2 & A2 & D2).
  exists (e1 ++ e2); split.
  - cbn [append_infos]; rewrite A1; cbn [rbind]; by rewrite A2, <- app_assoc.
  - intros rest; destruct (D1 zero_info (e2 ++ rest)) as (fi' & E1 & R1), (D2 rest) as (il' & E2 & R2).
    exists (fi' :: il'); split; [|by constructor]; cbn [length decode_infos]; rewrite <- app_assoc, E1; cbn [rbind]; by rewrite E2.
Qed.

(** C27: What [InfoList.AppendBinary] appends to a buffer, [DecodeBinaryInfoList] decodes:
    as many infos with the same names, sizes and modes, with times that package time
    takes for the same, without what [Sys] returns; and the bytes that follow are
    left. *)
Theorem InfoList_roundtrip il buf rest : Forall info_ok il -> len il < 2 ^ 34 ->
  exists enc il', InfoList_AppendBinary il buf = Ok (buf ++ enc, None) /\
    DecodeBinaryInfoList (enc ++ rest) = Ok (inl (il', rest)) /\ Forall2 (decoded_from None) il il'.
Proof.
  intros H L; pose proof (len_nonneg il).
  destruct (append_infos_roundtrip il H (buf ++ AppendVarint [] (len il))) as (enc & A & D).
  destruct (D rest) as (il' & E' & R); exists (AppendVarint [] (len il) ++ enc), il'; split; [|split; [|exact R]].
  - unfold InfoList_AppendBinary; rewrite PutVarint_5 by lia; cbn [rbind]; by rewrite A, <- app_assoc.
  - unfold DecodeBinaryInfoList; rewrite <- app_assoc, Varint_append by (unfold int64_ok; lia).
    rewrite from_app by done; cbn [rbind]; destruct (len il <? 0) eqn:Q; [lia|].
    unfold len; rewrite Nat2Z.id; exact E'.
Qed.
End infos.

(** ** Decoders of items (algo/codec) *)

Module Decoder.

Record options := MkOptions { resizePercent : Z; sizePercent : Z }.

Definition ResizePercent (percent : Z) (o : options) : options := MkOptions percent (sizePercent o).
Definition SizePercent (percent : Z) (o : options) : options := MkOptions (resizePercent o) percent.

(** The options of [NewDecoder]. *)
Definition NewDecoder (opts : list (options -> options)) : options :=
  let o := fold_left (fun o fn => fn o) opts (MkOptions 100 0) in
  if sizePercent o =? 0 then SizePercent 100 o else o.

(** [len(input)/(100/d.sizePercent)], the capacity of the first slice. *)
Definition initial_capacity (o : options) (n : Z) : res Z :=
  let! d := go_quot 100 (sizePercent o) in
  let! c := go_quot n d in
  if c <? 0 then Panic else Ok c.

(** Whether [resize] copies. *)
Definition resizedNeeded (used available percent : Z) : bool :=
  let wasted := available - used in
  let used := if used =? 0 then 1 else used in
  percent <? Z.quot (wasted * 100) used.

Section decode.
Context {T : Type} (fn : bytes -> T * Z).

(** The loop of [Decode]; the slice it gives has the items of [out], resized or not. *)
Fixpoint Decode_loop (fuel : nat) (input : bytes) (cursor : Z) (out : list T) : res (list T) :=
  match fuel with
  | O => NoFuel
  | S fuel =>
    let! rest := from input cursor in
    let (item, n) := fn rest in
    if n =? 0 then Ok out else
    if len input <=? cursor + n then Ok (out ++ [item]) else Decode_loop fuel input (cursor + n) (out ++ [item])
  end.

Definition Decode (o : options) (input : bytes) : res (list T) :=
  if len input =? 0 then Ok [] else
  let! _ := initial_capacity o (len input) in
  Decode_loop (S (length input)) input 0 [].

(** Items that are encoded one after the other are decoded. *)
Lemma Decode_loop_items (enc : T -> bytes) xs : (forall x rest, fn (enc x ++ rest) = (x, len (enc x)) /\ 0 < len (enc x)) -> xs <> [] ->
  forall fuel pre out, (length (concat (map enc xs)) < fuel)%nat ->
  Decode_loop fuel (pre ++ concat (map enc xs)) (len pre) out = Ok (out ++ xs).
Proof.
  intros H; induction xs as [|x xs IH]; intros Hne fuel pre out Hf; [done|].
  cbn [map concat] in *; destruct fuel as [|fuel]; [lia|]; cbn [Decode_loop].
  rewrite from_app by done; cbn [rbind]; destruct (H x (concat (map enc xs))) as [-> Hl].
  destruct (_ =? 0) eqn:Q; [lia|]; rewrite length_app in Hf; rewrite !len_app.
  destruct xs as [|y xs].
  - cbn [map concat]; rewrite len_nil; destruct (_ <=? _) eqn:Q2; [done|lia].
  - pose proof (H y (concat (map enc xs))) as [_ Hy].
    destruct (_ <=? _) eqn:Q2; [cbn [map concat] in Q2; rewrite len_app in Q2; pose proof (len_nonneg (concat (map enc xs))); lia|].
    rewrite app_assoc, <- len_app, IH; [by rewrite <- app_assoc|done|unfold len in Hl; lia].
Qed.

Lemma Decode_items o (enc : T -> bytes) xs : 0 < sizePercent o <= 100 -> len (concat (map enc xs)) < 2 ^ 63 -> (forall x rest, fn (enc x ++ rest) = (x, len (enc x)) /\ 0 < len (enc x)) ->
  Decode o (concat (map enc xs)) = Ok xs.
Proof.
  intros Hp Hl H; destruct xs as [|x xs]; [done|]; unfold Decode.
  destruct (len (concat (map enc (x :: xs))) =? 0) eqn:Q.
  { destruct (H x []) as [_ Hx]; cbn [map concat] in Q; rewrite len_app in Q; pose proof (len_nonneg (concat (map enc xs))); lia. }
  unfold initial_capacity; rewrite go_quot_pos by lia; cbn [rbind].
  pose proof (len_nonneg (concat (map enc (x :: xs)))) as L0.
  assert (1 <= 100 / sizePercent o) by (apply Z.div_le_lower_bound; lia).
  rewrite go_quot_pos by lia; cbn [rbind].
  destruct (_ <? 0) eqn:Q2; [pose proof (Z.div_pos (len (concat (map enc (x :: xs)))) (100 / sizePercent o)); lia|]; cbn [rbind].
  by rewrite (Decode_loop_items enc (x :: xs) H ltac:(done) _ [] []) by lia.
Qed.
End decode.

(** A size of more than 100 percent divides by zero. *)
Lemma SizePercent_200_panics : Decode (fun b => (tt, len b)) (NewDecoder [SizePercent 200]) [1] = Panic.
Proof. reflexivity. Qed.
End Decoder.

(** ** XAttr (file) *)

(** The owners of [XAttr]: the other fields are not compared. *)
Record XAttr := MkXAttr { UID : Z; GID : Z; User : bytes; Group : bytes }.

Definition CompareUser (x o : XAttr) : bool :=
  if negb (UID x =? -1) && negb (UID o =? -1) then UID x =? UID o else bool_decide (User x = User o).

Definition CompareGroup (x o : XAttr) : bool :=
  if negb (GID x =? -1) && negb (GID o =? -1) then GID x =? GID o else bool_decide (Group x = Group o).

(** The comparison is symmetric but not transitive when some ids are missing. *)
Lemma CompareUser_symmetric x o : CompareUser x o = CompareUser o x.
Proof.
  unfold CompareUser; rewrite andb_comm, (Z.eqb_sym (UID x) (UID o)).
  destruct (negb (UID o =? -1) && negb (UID x =? -1)); [done|]; apply bool_decide_ext; split; congruence.
Qed.

Lemma CompareUser_not_transitive : exists x y z, CompareUser x y = true /\ CompareUser y z = true /\ CompareUser x z = false.
Proof. exists (MkXAttr 1 0 [97] []), (MkXAttr (-1) 0 [97] []), (MkXAttr 2 0 [97] []); repeat split; reflexivity. Qed.

(** Negative ids other than -1 are compared as ids. *)
Lemma CompareUser_negative : CompareUser (MkXAttr (-2) 0 [97] []) (MkXAttr (-3) 0 [97] []) = false.
Proof. reflexivity. Qed.

(** ** Examples *)

(** A time: its instant, its offset from UTC, the name of its location and its
    monotonic clock reading; the first two are encoded, in a byte each. *)
Record stamp := MkStamp { instant : Z; zone_offset : Z; location : bytes; monotonic : option Z }.

Definition same_stamp (t u : stamp) : Prop := instant t = instant u /\ zone_offset t = zone_offset u.

Definition stamp_bytes (t : stamp) : bytes + unit :=
  if (0 <=? instant t) && (instant t <? 256) && (0 <=? zone_offset t) && (zone_offset t <? 256) then inl [instant t; zone_offset t] else inr tt.
Definition bytes_stamp (b : bytes) : stamp + unit := match b with [i; o] => inl (MkStamp i o [] None) | _ => inr tt end.

Definition two_infos : list (Info (T := stamp) (S := Z)) :=
  [MkInfo [97; 98] 1000 420 (MkStamp 7 60 [67; 69; 84] (Some 12)) (Some 1); MkInfo [] (-1) 4294967295 (MkStamp 255 0 [] None) None].

Example two_infos_bytes : InfoList_AppendBinary stamp_bytes two_infos [] =
  Ok ([4; 1; 4; 97; 98; 208; 15; 164; 1; 0; 0; 4; 7; 60; 1; 0; 1; 255; 255; 255; 255; 4; 255; 0], None).
Proof. reflexivity. Qed.

(** Only empty data is an error: what is cut off elsewhere panics. *)
Lemma truncated_infos : DecodeBinary bytes_stamp (zero_info (S := Z) (MkStamp 0 0 [] None)) [] = Ok (inr Insufficient) /\
  DecodeBinary bytes_stamp (zero_info (S := Z) (MkStamp 0 0 [] None)) [1] = Panic /\
  DecodeBinary bytes_stamp (zero_info (S := Z) (MkStamp 0 0 [] None)) [1; 4; 97] = Panic /\
  DecodeBinaryInfoList (S := Z) (MkStamp 0 0 [] None) bytes_stamp [1] = Panic.
Proof. repeat split; reflexivity. Qed.

Lemma InfoList_roundtrip_witness : exists enc il', InfoList_AppendBinary stamp_bytes two_infos [9] = Ok ([9] ++ enc, None) /\
  DecodeBinaryInfoList (MkStamp 0 0 [] None) bytes_stamp (enc ++ [5]) = Ok (inl (il', [5])) /\ Forall2 (decoded_from same_stamp None) two_infos il'.
Proof.
  apply (InfoList_roundtrip (MkStamp 0 0 [] None) stamp_bytes bytes_stamp same_stamp).
  - intros t b H; unfold stamp_bytes in H; destruct (_ && _); [|discriminate].
    injection H as <-; split; [reflexivity|]; eexists; split; [reflexivity|split; reflexivity].
  - repeat constructor; try (vm_compute; discriminate); eexists; reflexivity.
  - reflexivity.
Defined.
