(* ===== verification/Diskusage.v ===== *)
(** * Sizes on disk and shards (file/diskusage; path: sharding.go)

    The units of sizes, the calculators of the space that a file takes, with the
    arithmetic of [int64], and the division of hashed names into shards.  The
    float64 values that are printed are not modelled. *)

From stdpp Require Import base list option numbers.
From Stdlib Require Import ZArith Lia.
From stdpp Require Import list.
From S2P Require Import Prelude Strconv Text.
Import Stdlib.Strings.String.StringSyntax.

Open Scope Z_scope.
Open Scope go_scope.

(** ** Units *)

Definition SizeUnit := Z.

Definition Byte : SizeUnit := 1.
Definition KB : SizeUnit := Byte * 1000.
Definition MB : SizeUnit := KB * 1000.
Definition GB : SizeUnit := MB * 1000.
Definition TB : SizeUnit := GB * 1000.
Definition PB : SizeUnit := TB * 1000.
Definition EB : SizeUnit := PB * 1000.
Definition KiB : SizeUnit := Z.shiftl Byte 10.
Definition MiB : SizeUnit := Z.shiftl KiB 10.
Definition GiB : SizeUnit := Z.shiftl MiB 10.
Definition TiB : SizeUnit := Z.shiftl GiB 10.
Definition PiB : SizeUnit := Z.shiftl TiB 10.
Definition EiB : SizeUnit := Z.shiftl PiB 10.

Definition SizeUnit_String (s : SizeUnit) : str :=
  if s =? Byte then Str "B" else if s =? KB then Str "KB" else if s =? KiB then Str "KiB"
  else if s =? MB then Str "MB" else if s =? MiB then Str "MiB" else if s =? GB then Str "GB" else if s =? GiB then Str "GiB"
  else if s =? TB then Str "TB" else if s =? TiB then Str "TiB" else if s =? PB then Str "PB" else if s =? PiB then Str "PiB"
  else if s =? EB then Str "EB" else if s =? EiB then Str "EiB" else [].

Definition DecimalUnitForSize (size : Z) : SizeUnit :=
  if size <? KB then Byte else if size <? MB then KB else if size <? GB then MB
  else if size <? TB then GB else if size <? PB then TB else if size <? EB then PB else EB.

Definition BinaryUnitForSize (size : Z) : SizeUnit :=
  if size <? KiB then Byte else if size <? MiB then KiB else if size <? GiB then MiB
  else if size <? TiB then GiB else if size <? PiB then TiB else if size <? EiB then PiB else EiB.

Definition decimal_units : list SizeUnit := [Byte; KB; MB; GB; TB; PB; EB].
Definition binary_units : list SizeUnit := [Byte; KiB; MiB; GiB; TiB; PiB; EiB].

Ltac in_units := cbn [In]; repeat first [left; reflexivity | right].

(** The unit is the largest that is not larger than the size, so that the number
    printed has at least one and, below the largest unit, at most three or four
    digits before the point. *)
Lemma DecimalUnitForSize_largest size : 1 <= size ->
  In (DecimalUnitForSize size) decimal_units /\ DecimalUnitForSize size <= size /\
  Forall (fun u => u <= size -> u <= DecimalUnitForSize size) decimal_units.
Proof.
  intros H; unfold DecimalUnitForSize, decimal_units, EB, PB, TB, GB, MB, KB, Byte.
  repeat match goal with |- context [if ?b then _ else _] => destruct b eqn:?; [split; [in_units|split; [lia|repeat constructor; lia]]|] end.
  split; [in_units|split; [lia|repeat constructor; lia]].
Qed.

Lemma BinaryUnitForSize_largest size : 1 <= size ->
  In (BinaryUnitForSize size) binary_units /\ BinaryUnitForSize size <= size /\
  Forall (fun u => u <= size -> u <= BinaryUnitForSize size) binary_units.
Proof.
  intros H; unfold BinaryUnitForSize, binary_units.
  change KiB with (2 ^ 10); change MiB with (2 ^ 20); change GiB with (2 ^ 30); change TiB with (2 ^ 40);
    change PiB with (2 ^ 50); change EiB with (2 ^ 60); unfold Byte.
  repeat match goal with |- context [if ?b then _ else _] => destruct b eqn:?; [split; [in_units|split; [lia|repeat constructor; lia]]|] end.
  split; [in_units|split; [lia|repeat constructor; lia]].
Qed.

(** The names of the units differ. *)
Lemma unit_names_differ : NoDup (map SizeUnit_String (decimal_units ++ tl binary_units)).
Proof. refine (bool_decide_eq_true_1 (NoDup _) _); vm_compute; reflexivity. Qed.

(** ** Calculators *)

(** [x / y] of [int64], which panics for 0, and [x * y]. *)
Definition mul64 (a b : Z) : Z := int64 (a * b).
Definition add64 (a b : Z) : Z := int64 (a + b).

Inductive Calculator :=
| RAID0 (stripeSize numStripes : Z)
| Roundup (blockSize : Z)
| Block (blockSize : Z)
| Identity.

(** The next multiple: [((size + block) / block) * block]. *)
Definition next_multiple (size block : Z) : res Z :=
  let! q := go_quot (add64 size block) block in Ok (mul64 q block).

Definition Calculate (c : Calculator) (bytes blocks : Z) : res Z :=
  match c with
  | RAID0 stripeSize numStripes =>
    let! raw := next_multiple bytes stripeSize in
    let striped := mul64 numStripes stripeSize in
    Ok (if raw <? striped then striped else raw)
  | Roundup blockSize => next_multiple bytes blockSize
  | Block blockSize => Ok (mul64 blocks blockSize)
  | Identity => Ok bytes
  end.

Lemma next_multiple_spec size block : 0 <= size -> 0 < block -> size + block < 2 ^ 63 ->
  next_multiple size block = Ok ((size / block + 1) * block).
Proof.
  intros Hs Hb Ho; unfold next_multiple, add64, mul64.
  rewrite int64_id by (unfold int64_ok; lia); rewrite go_quot_pos by lia; cbn [rbind].
  replace (size + block) with (size + 1 * block) by lia; rewrite Z.div_add by lia.
  rewrite int64_id; [done|]; pose proof (Z.mul_div_le size block Hb); pose proof (Z.div_pos size block Hs Hb).
  unfold int64_ok; nia.
Qed.

(** Without overflow [Roundup] gives the least multiple of its block that is larger
    than the size. *)
Theorem Roundup_next size blocks block : 0 <= size -> 0 < block -> size + block < 2 ^ 63 ->
  exists n, Calculate (Roundup block) size blocks = Ok (n * block) /\ size < n * block /\ (forall m, size < m * block -> n <= m).
Proof.
  intros Hs Hb Ho; exists (size / block + 1); cbn [Calculate]; rewrite next_multiple_spec by done.
  pose proof (Z.div_mod size block); pose proof (Z.mod_pos_bound size block Hb).
  split; [done|split; [nia|]]; intros m Hm; assert (size / block < m); [|lia].
  apply Z.div_lt_upper_bound; lia.
Qed.

Lemma RAID0_at_least_a_stripe size blocks stripe n : 0 <= size -> 0 < stripe -> size + stripe < 2 ^ 63 -> 0 <= n -> n * stripe < 2 ^ 63 ->
  Calculate (RAID0 stripe n) size blocks = Ok (Z.max ((size / stripe + 1) * stripe) (n * stripe)).
Proof.
  intros Hs Hb Ho Hn Hm; cbn [Calculate]; rewrite next_multiple_spec by done; cbn [rbind].
  unfold mul64; rewrite int64_id by (unfold int64_ok; nia).
  destruct (_ <? _) eqn:Q; f_equal; lia.
Qed.

(** A file whose size is a multiple is rounded up by a block too many, and an empty
    file takes a block; a block size of 0 panics, and the sum may overflow. *)
Lemma exact_multiples : Calculate (Roundup 4096) 4096 0 = Ok 8192 /\ Calculate (Roundup 4096) 0 0 = Ok 4096 /\
  Calculate (RAID0 1000 2) 2000 0 = Ok 3000 /\ Calculate (Roundup 0) 1 0 = Panic /\
  Calculate (Roundup 4096) (2 ^ 63 - 1) 0 = Ok (- 2 ^ 63 + 4096).
Proof. repeat split; reflexivity. Qed.

(** ** Shards *)

Section sharding.
(** The hexadecimal text of [sha1.Sum]: forty digits. *)
Context {P C : Type} (hexsum : P -> list C).
Hypothesis hexsum_length : forall p, length (hexsum p) = 40%nat.

(** The option's prefix length, 0 when there is none. *)
Definition ShardingOption := Z -> Z.
Definition WithSHA1PrefixLength (v : Z) : ShardingOption := fun _ => v.

Definition NewSharder (opts : list ShardingOption) : Z :=
  let o := fold_left (fun o fn => fn o) opts 0 in if 0 <? o then o else 1.

Definition Assign (prefix : Z) (p : P) : res (list C * list C) :=
  let! a := zslice (hexsum p) 0 prefix in
  let! b := zslice (hexsum p) prefix (len (hexsum p)) in
  Ok (a, b).

(** Every path has a shard, and the two parts are its hash; prefixes of more than
    forty digits panic. *)
Lemma Assign_spec v p : 0 < v ->
  let s := NewSharder [WithSHA1PrefixLength v] in
  if v <=? 40 then exists a b, Assign s p = Ok (a, b) /\ a ++ b = hexsum p /\ len a = v else Assign s p = Panic.
Proof.
  intros H; cbv zeta; unfold NewSharder, WithSHA1PrefixLength, Assign; cbn [fold_left].
  destruct (0 <? v) eqn:Q; [|lia]; pose proof (hexsum_length p) as L.
  destruct (v <=? 40) eqn:Q2.
  - rewrite !zslice_Ok by (unfold len; lia); cbn [rbind]; change (Z.to_nat 0) with 0%nat; rewrite drop_0, Z.sub_0_r.
    eexists _, _; split; [done|]; split.
    + rewrite (firstn_all2 (n := Z.to_nat (len (hexsum p) - v))) by (rewrite length_drop; unfold len; lia).
      apply take_drop.
    + unfold len; rewrite length_take; lia.
  - unfold zslice at 1; unfold len; destruct (_ && _) eqn:Q3; [lia|done].
Qed.

(** Without options the prefix has one digit. *)
Lemma NewSharder_default : NewSharder [] = 1.
Proof. reflexivity. Qed.
End sharding.
