(* ===== verification/Cachefs.v ===== *)
(** * A cache of small files with an expiry (file/cachefs: cache.go)

    Readers look a name up, read the file if there is no fresh entry, and store what
    they have read; with single flight the reads go through ctxsync's
    [SingleFlight.Do], which lets one caller read for all and reissues a shared call
    that was cancelled for a caller whose context is alive; a cleaner and [Forget]
    remove entries.  The steps are those between two acquisitions of the cache's
    mutex, two looks at the clock or two calls of the group, in any order. *)

From stdpp Require Import base list option numbers gmap.
From Stdlib Require Import ZArith Lia.
From stdpp Require Import list.
From S2P Require Import Prelude Groups.

Open Scope Z_scope.

(** ** The shared group

    [singleflight.Group] of golang.org/x/sync: what its documentation says of the
    calls of [Do] with a key.  [enter] is the beginning of a call, with whether it
    executes the function itself or waits for the call that does; [leave] is the end
    of the execution. *)
Class Flights (K G : Type) := { empty_group : G; in_flight : G -> K -> bool; enter : G -> K -> G * bool; leave : G -> K -> G }.

Class FlightLaws (K G : Type) `{EqDecision K} `{!Flights K G} : Prop := {
  no_flight k : in_flight empty_group k = false;
  enter_executes g k g' : enter g k = (g', true) -> in_flight g k = false /\ forall j, in_flight g' j = if decide (j = k) then true else in_flight g j;
  enter_waits g k g' : enter g k = (g', false) -> in_flight g k = true /\ forall j, in_flight g' j = in_flight g j;
  leave_flight g k j : in_flight (leave g k) j = if decide (j = k) then false else in_flight g j }.

(** A group as the set of the keys in flight. *)
#[export] Instance gset_flights {K} `{Countable K} : Flights K (gset K) := {
  empty_group := ∅;
  in_flight g k := bool_decide (k ∈ g);
  enter g k := if decide (k ∈ g) then (g, false) else ({[k]} ∪ g, true);
  leave g k := g ∖ {[k]} }.

#[export] Instance gset_flight_laws {K} `{Countable K} : FlightLaws K (gset K).
Proof.
  split.
  - intros k; by apply bool_decide_eq_false_2.
  - intros g k g'; simpl; destruct (decide (k ∈ g)) as [Hk|Hk]; [done|intros [= <-]].
    split; [by apply bool_decide_eq_false_2|intros j; destruct (decide (j = k)) as [->|Hj]].
    + apply bool_decide_eq_true_2; set_solver.
    + apply bool_decide_ext; set_solver.
  - intros g k g'; simpl; destruct (decide (k ∈ g)) as [Hk|Hk]; [intros [= <-]|done]; split; [by apply bool_decide_eq_true_2|done].
  - intros g k j; simpl; destruct (decide (j = k)) as [->|Hj]; [apply bool_decide_eq_false_2; set_solver|apply bool_decide_ext; set_solver].
Qed.

Section cachefs.
(** Names and contents; [ttl] and [singleFlight] of the options. *)
Context {K D G : Type} `{Countable K} `{!Flights K G} (ttl : Z) (singleFlight : bool).

(** [cacheEntry]: the data and [expires]. *)
Abbreviation cacheEntry := (D * Z)%type.

(** A call of [ReadFileCtx]: after the lookup; before the read or the call of the
    group; in [fs.ReadFileCtx] since a time; with its data; with its error; after
    storing the data; waiting for the call that executes; with the result of the
    group's call and whether it was shared. *)
Inductive pc :=
| Looked (entry : option cacheEntry)
| Start
| Reading (since : Z)
| Have (d : D) (since : Z)
| Failed (e : sf_error)
| Stored (d : D)
| Joined
| Result (r : D + sf_error) (shared : bool).

(** [alive]: the context of the call is not done. *)
Record reader := MkReader { name : K; alive : bool; at_pc : pc }.

(** The cleaner has found the expired names at a time and does not hold the lock. *)
Record state := MkState {
  clock : Z;
  cache : gmap K cacheEntry;
  readers : list reader;
  group : G;
  cleaner : option (list K * Z);
  stored : list (K * D * Z * Z);        (* what was stored: name, data, start of the read, time of the store *)
  returned : list (K * D * Z * bool);   (* what was returned, when, and whether from the cache *)
  failed : list (K * sf_error * bool * bool) }.   (* the errors returned, whether they were shared, and [alive] then *)

Definition initial : state := MkState 0 ∅ [] empty_group None [] [] [].

(** [time.Now().Before(entry.expires)] *)
Definition fresh (now : Z) (entry : option cacheEntry) : option D :=
  match entry with Some (d, expires) => if now <? expires then Some d else None | None => None end.

(** The result of a call of the group, for [SingleFlight.Do]. *)
Definition sf_of (r : D + sf_error) (shared : bool) : sf_result (option D) :=
  match r with inl d => MkSf (Some d) None shared | inr e => MkSf None (Some e) shared end.

(** The outcome of [readFileAndUpdateCache]. *)
Definition outcome (p : pc) : option (D + sf_error) :=
  match p with Stored d => Some (inl d) | Failed e => Some (inr e) | _ => None end.

Definition joined (k : K) (r : reader) : bool := match at_pc r with Joined => bool_decide (k = name r) | _ => false end.

(** Those who wait for the call of a name get its result, which is then shared. *)
Definition deliver (k : K) (res : D + sf_error) (r : reader) : reader :=
  if joined k r then MkReader (name r) (alive r) (Result res true) else r.

(** The names that the cleaner finds, and the second check before it deletes them. *)
Definition expired_at (now : Z) (c : gmap K cacheEntry) : list K :=
  omap (fun kv => if snd (snd kv) <? now then Some (fst kv) else None) (map_to_list c).

Definition clean (now : Z) (c : gmap K cacheEntry) (ks : list K) : gmap K cacheEntry :=
  foldl (fun c k => match c !! k with Some (_, expires) => if expires <? now then delete k c else c | None => c end) c ks.

(** [return] of a result: data, or an error. *)
Definition return_result (k : K) (a : bool) (res : D + sf_error) (shared : bool) (t : Z)
    (re : list (K * D * Z * bool)) (fa : list (K * sf_error * bool * bool)) : list (K * D * Z * bool) * list (K * sf_error * bool * bool) :=
  match res with inl d => (re ++ [(k, d, t, false)], fa) | inr e => (re, fa ++ [(k, e, shared, a)]) end.

Inductive step : state -> state -> Prop :=
| step_tick t c rs g cl st re fa n : 0 <= n -> step (MkState t c rs g cl st re fa) (MkState (t + n) c rs g cl st re fa)
| step_cancel t c l1 k a p l2 g cl st re fa :
    step (MkState t c (l1 ++ MkReader k a p :: l2) g cl st re fa) (MkState t c (l1 ++ MkReader k false p :: l2) g cl st re fa)
(** ReadFileCtx *)
| step_look t c rs g cl st re fa k :
    step (MkState t c rs g cl st re fa) (MkState t c (rs ++ [MkReader k true (Looked (c !! k))]) g cl st re fa)
| step_hit t c l1 k a e l2 g cl st re fa d : fresh t e = Some d ->
    step (MkState t c (l1 ++ MkReader k a (Looked e) :: l2) g cl st re fa) (MkState t c (l1 ++ l2) g cl st (re ++ [(k, d, t, true)]) fa)
| step_miss t c l1 k a e l2 g cl st re fa : fresh t e = None ->
    step (MkState t c (l1 ++ MkReader k a (Looked e) :: l2) g cl st re fa) (MkState t c (l1 ++ MkReader k a Start :: l2) g cl st re fa)
| step_direct t c l1 k a l2 g cl st re fa : singleFlight = false ->
    step (MkState t c (l1 ++ MkReader k a Start :: l2) g cl st re fa) (MkState t c (l1 ++ MkReader k a (Reading t) :: l2) g cl st re fa)
| step_direct_return t c l1 k a p res l2 g cl st re fa : singleFlight = false -> outcome p = Some res ->
    step (MkState t c (l1 ++ MkReader k a p :: l2) g cl st re fa)
      (MkState t c (l1 ++ l2) g cl st (fst (return_result k a res false t re fa)) (snd (return_result k a res false t re fa)))
(** readFileAndUpdateCache *)
| step_read t c l1 k a s d l2 g cl st re fa :
    step (MkState t c (l1 ++ MkReader k a (Reading s) :: l2) g cl st re fa) (MkState t c (l1 ++ MkReader k a (Have d s) :: l2) g cl st re fa)
| step_read_error t c l1 k a s e l2 g cl st re fa :
    step (MkState t c (l1 ++ MkReader k a (Reading s) :: l2) g cl st re fa) (MkState t c (l1 ++ MkReader k a (Failed e) :: l2) g cl st re fa)
| step_store t c l1 k a d s l2 g cl st re fa :
    step (MkState t c (l1 ++ MkReader k a (Have d s) :: l2) g cl st re fa)
      (MkState t (<[k := (d, t + ttl)]> c) (l1 ++ MkReader k a (Stored d) :: l2) g cl (st ++ [(k, d, s, t)]) re fa)
(** SingleFlight.Do *)
| step_enter t c l1 k a l2 g g' executes cl st re fa : singleFlight = true -> enter g k = (g', executes) ->
    step (MkState t c (l1 ++ MkReader k a Start :: l2) g cl st re fa)
      (MkState t c (l1 ++ MkReader k a (if executes then Reading t else Joined) :: l2) g' cl st re fa)
| step_leave t c l1 k a p res l2 g cl st re fa : singleFlight = true -> outcome p = Some res ->
    step (MkState t c (l1 ++ MkReader k a p :: l2) g cl st re fa)
      (MkState t c (map (deliver k res) l1 ++ MkReader k a (Result res (existsb (joined k) (l1 ++ l2))) :: map (deliver k res) l2) (leave g k) cl st re fa)
| step_again t c l1 k a res shared l2 g cl st re fa : sf_again (sf_of res shared) a = true ->
    step (MkState t c (l1 ++ MkReader k a (Result res shared) :: l2) g cl st re fa) (MkState t c (l1 ++ MkReader k a Start :: l2) g cl st re fa)
| step_return t c l1 k a res shared l2 g cl st re fa : sf_again (sf_of res shared) a = false ->
    step (MkState t c (l1 ++ MkReader k a (Result res shared) :: l2) g cl st re fa)
      (MkState t c (l1 ++ l2) g cl st (fst (return_result k a res shared t re fa)) (snd (return_result k a res shared t re fa)))
(** cleanupLoop and Forget *)
| step_collect t c rs g st re fa : step (MkState t c rs g None st re fa) (MkState t c rs g (Some (expired_at t c, t)) st re fa)
| step_clean t c rs g ks now st re fa : step (MkState t c rs g (Some (ks, now)) st re fa) (MkState t (clean now c ks) rs g None st re fa)
| step_forget t c rs g cl st re fa k : step (MkState t c rs g cl st re fa) (MkState t (delete k c) rs g cl st re fa).

Definition reachable (s : state) : Prop := rtc step initial s.

(** ** The invariant *)

Definition stored_as (st : list (K * D * Z * Z)) (k : K) (e : cacheEntry) : Prop :=
  exists s u, In (k, e.1, s, u) st /\ e.2 = u + ttl.

Definition reader_ok (t : Z) (st : list (K * D * Z * Z)) (r : reader) : Prop :=
  match at_pc r with
  | Looked (Some e) => stored_as st (name r) e
  | Reading s | Have _ s => s <= t
  | Stored d | Result (inl d) _ => exists s u, In (name r, d, s, u) st
  | _ => True
  end.

(** A result was stored before, and if it is from the cache not longer ago than the
    time to live. *)
Definition result_ok (st : list (K * D * Z * Z)) (r : K * D * Z * bool) : Prop :=
  exists s u, In (r.1.1.1, r.1.1.2, s, u) st /\ u <= r.1.2 /\ (r.2 = true -> r.1.2 < u + ttl).

(** A cancellation that was another caller's is not returned to one whose context is
    alive. *)
Definition failure_ok (f : K * sf_error * bool * bool) : Prop := f.1.2 = true -> f.2 = true -> f.1.1.2 = OtherError.

Record inv (x : state) : Prop := {
  inv_cache : map_Forall (stored_as (stored x)) (cache x);
  inv_readers : Forall (reader_ok (clock x) (stored x)) (readers x);
  inv_stored : Forall (fun e => e.1.2 <= e.2 /\ e.2 <= clock x) (stored x);
  inv_returned : Forall (result_ok (stored x)) (returned x);
  inv_failed : Forall failure_ok (failed x) }.

Lemma stored_as_mono st st' k e : (forall x, In x st -> In x st') -> stored_as st k e -> stored_as st' k e.
Proof. unfold stored_as; naive_solver. Qed.

Lemma reader_ok_mono t t' st st' r : t <= t' -> (forall e, In e st -> In e st') -> reader_ok t st r -> reader_ok t' st' r.
Proof.
  intros Ht Hs; unfold reader_ok; destruct (at_pc r) as [[e|]| |s|d s|e|d| |[d|e] b]; simpl; try lia; unfold stored_as; naive_solver.
Qed.

Lemma clean_subset now ks : forall c : gmap K cacheEntry, clean now c ks ⊆ c.
Proof.
  induction ks as [|k ks IH]; intros c; simpl; [done|].
  destruct (c !! k) as [[d expires]|]; [destruct (expires <? now)|]; try apply IH.
  etrans; [apply IH|apply delete_subseteq].
Qed.

Lemma Forall_middle {A} (P : A -> Prop) l1 x l2 : Forall P (l1 ++ x :: l2) <-> P x /\ Forall P (l1 ++ l2).
Proof. rewrite !Forall_app, Forall_cons; tauto. Qed.

Lemma result_ok_mono st st' r : (forall x, In x st -> In x st') -> result_ok st r -> result_ok st' r.
Proof. unfold result_ok; naive_solver. Qed.

Lemma stored_bound st t k d s u : Forall (fun e : K * D * Z * Z => e.1.2 <= e.2 /\ e.2 <= t) st -> In (k, d, s, u) st -> s <= u <= t.
Proof. rewrite List.Forall_forall; intros H1 H2; exact (H1 _ H2). Qed.

Lemma fresh_Some t e d : fresh t e = Some d -> exists x, e = Some (d, x) /\ t < x.
Proof. destruct e as [[d' x]|]; simpl; [|done]; destruct (t <? x) eqn:Q; [|done]; intros [= ->]; exists x; split; [done|lia]. Qed.

(** The result of a call of the group is right for all who get it. *)
Lemma outcome_ok t st k a p res : outcome p = Some res -> reader_ok t st (MkReader k a p) ->
  forall b, reader_ok t st (MkReader k a (Result res b)).
Proof. destruct p; try done; intros [= <-]; auto. Qed.

Lemma deliver_reader_ok t st k a res b l : reader_ok t st (MkReader k a (Result res b)) -> Forall (reader_ok t st) l -> Forall (reader_ok t st) (map (deliver k res) l).
Proof.
  intros Hr; induction 1 as [|r l H0 _ IH]; [constructor|]; simpl; constructor; [|exact IH].
  unfold deliver, joined; destruct (at_pc r) eqn:E; try exact H0.
  case_bool_decide as Hk; [subst; exact Hr|exact H0].
Qed.

Lemma return_ok t st k a res b re fa : Forall (fun e : K * D * Z * Z => e.1.2 <= e.2 /\ e.2 <= t) st -> reader_ok t st (MkReader k a (Result res b)) ->
  sf_again (sf_of res b) a = false -> Forall (result_ok st) re -> Forall failure_ok fa ->
  Forall (result_ok st) (return_result k a res b t re fa).1 /\ Forall failure_ok (return_result k a res b t re fa).2.
Proof.
  intros S R Hn O F; destruct res as [d|e]; simpl in *; (split; [|try done]); try done.
  - apply Forall_app; split; [done|constructor; [|done]]; destruct R as (s & u & Hi); pose proof (stored_bound _ _ _ _ _ _ S Hi).
    exists s, u; simpl; repeat split; [exact Hi|lia|done].
  - apply Forall_app; split; [done|constructor; [|done]]; intros Hs Ha; simpl in *; subst; by destruct e.
Qed.

Lemma sf_again_unshared (res : D + sf_error) a : sf_again (sf_of res false) a = false.
Proof. by destruct res. Qed.

Lemma inv_step x y : inv x -> step x y -> inv y.
Proof.
  intros [C R S O F] Hs; destruct Hs as [t c rs g cl st re fa n Hn|t c l1 k a p l2 g cl st re fa|t c rs g cl st re fa k|
    t c l1 k a e l2 g cl st re fa d E|t c l1 k a e l2 g cl st re fa E|t c l1 k a l2 g cl st re fa _|t c l1 k a p res l2 g cl st re fa _ E|
    t c l1 k a s d l2 g cl st re fa|t c l1 k a s e l2 g cl st re fa|t c l1 k a d s l2 g cl st re fa|t c l1 k a l2 g g' executes cl st re fa _ E|
    t c l1 k a p res l2 g cl st re fa _ E|t c l1 k a res b l2 g cl st re fa E|t c l1 k a res b l2 g cl st re fa E|
    t c rs g st re fa|t c rs g ks now st re fa|t c rs g cl st re fa k]; simpl in *; split; simpl; auto;
    try (apply Forall_middle in R as [R1 R]); try exact R; try (apply Forall_middle; split; [|exact R]); try exact R1; try exact I.
  - eapply Forall_impl; [exact R|]; intros r; apply reader_ok_mono; [lia|done].
  - eapply Forall_impl; [exact S|]; simpl; lia.
  - apply Forall_app; split; [exact R|constructor; [|done]]; unfold reader_ok; simpl; destruct (c !! k) eqn:L; [exact (C k _ L)|done].
  - apply Forall_app; split; [exact O|constructor; [|done]]; apply fresh_Some in E as (x & -> & Hx); destruct R1 as (s & u & Hi & He); simpl in *.
    pose proof (stored_bound _ _ _ _ _ _ S Hi); exists s, u; simpl; repeat split; [exact Hi|lia|lia].
  - unfold reader_ok; simpl; lia.
  - exact (proj1 (return_ok _ _ _ _ _ _ _ _ S (outcome_ok _ _ _ _ _ _ E R1 _) (sf_again_unshared _ _) O F)).
  - exact (proj2 (return_ok _ _ _ _ _ _ _ _ S (outcome_ok _ _ _ _ _ _ E R1 _) (sf_again_unshared _ _) O F)).
  - apply map_Forall_insert_2; [|intros j e L; eapply stored_as_mono, C, L; intros; apply in_or_app; auto].
    exists s, t; split; [apply in_or_app; simpl; auto|done].
  - apply Forall_middle; split; [exists s, t; apply in_or_app; simpl; auto|].
    eapply Forall_impl; [exact R|]; intros r; apply reader_ok_mono; [lia|intros; apply in_or_app; auto].
  - apply Forall_app; split; [exact S|constructor; [|done]]; unfold reader_ok in R1; simpl in *; lia.
  - eapply Forall_impl; [exact O|]; intros r; apply result_ok_mono; intros; apply in_or_app; auto.
  - destruct executes; unfold reader_ok; simpl; [lia|done].
  - pose proof (outcome_ok _ _ _ _ _ _ E R1) as H1; apply Forall_app in R as [Ra Rb].
    apply Forall_app; split; [by eapply deliver_reader_ok|constructor; [apply H1|by eapply deliver_reader_ok]].
  - exact (proj1 (return_ok _ _ _ _ _ _ _ _ S R1 E O F)).
  - exact (proj2 (return_ok _ _ _ _ _ _ _ _ S R1 E O F)).
  - intros j e L; apply (C j); eapply lookup_weaken; [exact L|apply clean_subset].
  - intros j e [_ L]%lookup_delete_Some; exact (C j e L).
  Unshelve. all: exact true.
Qed.

Lemma inv_reachable x : reachable x -> inv x.
Proof.
  intros H0; unfold reachable in H0; remember initial as y eqn:Y.
  assert (I : inv y) by (subst; split; simpl; try constructor; apply map_Forall_empty).
  clear Y; induction H0; eauto using inv_step.
Qed.

(** ** Single flight *)

(** The calls that execute the read of a name. *)
Definition executing (k : K) (r : reader) : bool :=
  match at_pc r with Reading _ | Have _ _ | Failed _ | Stored _ => bool_decide (k = name r) | _ => false end.

Definition count {A} (f : A -> bool) (l : list A) : nat := length (List.filter f l).

(** The group has a flight for exactly the names that are read, once each, and nobody
    waits for another. *)
Definition shared_reads (rs : list reader) (g : G) : Prop :=
  forall k, count (executing k) rs = Nat.b2n (in_flight g k) /\ (in_flight g k = true \/ count (joined k) rs = 0%nat).

Lemma count_middle {A} (f : A -> bool) l1 x l2 : count f (l1 ++ x :: l2) = (count f (l1 ++ l2) + Nat.b2n (f x))%nat.
Proof. unfold count; rewrite !List.filter_app; simpl; destruct (f x); rewrite !length_app; simpl; lia. Qed.

Lemma count_readers_app {A} (f : A -> bool) a b : count f (a ++ b) = (count f a + count f b)%nat.
Proof. unfold count; by rewrite List.filter_app, length_app. Qed.

Lemma count_existsb {A} (f : A -> bool) l : existsb f l = true <-> (0 < count f l)%nat.
Proof. unfold count; induction l as [|x l IH]; simpl; [split; [done|lia]|]; destruct (f x); simpl; [split; [lia|done]|exact IH]. Qed.

(** Those who waited no longer do, and the others stay where they are. *)
Lemma count_deliver k res k' rs :
  count (executing k') (map (deliver k res) rs) = count (executing k') rs /\
  count (joined k') (map (deliver k res) rs) = if decide (k' = k) then 0%nat else count (joined k') rs.
Proof.
  unfold count; induction rs as [|r rs [IH1 IH2]]; simpl; [by destruct (decide _)|].
  assert (E : executing k' (deliver k res r) = executing k' r).
  { unfold deliver; destruct (joined k r) eqn:J; [|done]; unfold joined, executing in *; simpl; by destruct (at_pc r). }
  assert (J : joined k' (deliver k res r) = if decide (k' = k) then false else joined k' r).
  { unfold deliver; destruct (joined k r) eqn:J; unfold joined in *; simpl; destruct (at_pc r) eqn:P; try (by destruct (decide (k' = k))); try done.
    - apply bool_decide_eq_true in J as ->; destruct (decide (k' = name r)); [done|by rewrite bool_decide_eq_false_2].
    - apply bool_decide_eq_false in J; destruct (decide (k' = k)) as [->|]; [by rewrite bool_decide_eq_false_2|done]. }
  rewrite E, J; destruct (executing k' r); simpl; rewrite IH1; (split; [done|]); destruct (decide (k' = k)); simpl; try exact IH2;
    destruct (joined k' r); simpl; by rewrite IH2.
Qed.

(** A step that neither begins nor ends a read. *)
Lemma shared_replace r r' l1 l2 g : (forall k, executing k r = executing k r') -> (forall k, joined k r = joined k r') ->
  shared_reads (l1 ++ r :: l2) g -> shared_reads (l1 ++ r' :: l2) g.
Proof. intros F J H0 k; specialize (H0 k); rewrite !count_middle, F, J in H0; by rewrite !count_middle. Qed.

Lemma shared_remove r l1 l2 g : (forall k, executing k r = false) -> (forall k, joined k r = false) ->
  shared_reads (l1 ++ r :: l2) g -> shared_reads (l1 ++ l2) g.
Proof. intros F J H0 k; specialize (H0 k); rewrite !count_middle, F, J in H0; simpl in H0; rewrite !Nat.add_0_r in H0; exact H0. Qed.

Lemma bool_decide_name (k j : K) : bool_decide (j = k) = if decide (j = k) then true else false.
Proof. destruct (decide (j = k)); [by apply bool_decide_eq_true_2|by apply bool_decide_eq_false_2]. Qed.

Context `{!FlightLaws K G}.

Lemma shared_enter k a t l1 l2 g g' executes : enter g k = (g', executes) ->
  shared_reads (l1 ++ MkReader k a Start :: l2) g -> shared_reads (l1 ++ MkReader k a (if executes then Reading t else Joined) :: l2) g'.
Proof.
  intros E H0 j; specialize (H0 j); rewrite !count_middle in H0 |- *; simpl in H0; rewrite !Nat.add_0_r in H0; destruct executes.
  - destruct (enter_executes _ _ _ E) as [E1 E2]; rewrite E2; unfold executing at 2, joined at 2; simpl; rewrite bool_decide_name.
    destruct (decide (j = k)) as [->|]; [|by rewrite !Nat.add_0_r].
    rewrite E1 in H0; destruct H0 as [-> _]; split; [done|by left].
  - destruct (enter_waits _ _ _ E) as [E1 E2]; rewrite E2; unfold executing at 2, joined at 2; simpl; rewrite bool_decide_name.
    destruct (decide (j = k)) as [->|]; [|by rewrite !Nat.add_0_r].
    rewrite E1 in *; destruct H0 as [-> _]; split; [done|by left].
Qed.

Lemma shared_leave k a p res b l1 l2 g : outcome p = Some res ->
  shared_reads (l1 ++ MkReader k a p :: l2) g ->
  shared_reads (map (deliver k res) l1 ++ MkReader k a (Result res b) :: map (deliver k res) l2) (leave g k).
Proof.
  intros E H0 j; specialize (H0 j); rewrite count_middle in H0 |- *; rewrite count_middle, count_readers_app in H0; rewrite count_middle, leave_flight.
  rewrite !count_readers_app in *; destruct (count_deliver k res j l1) as [-> ->], (count_deliver k res j l2) as [-> ->].
  assert (P : executing j (MkReader k a p) = bool_decide (j = k) /\ joined j (MkReader k a p) = false) by (unfold executing, joined; destruct p; done).
  destruct P as [P1 P2]; rewrite P1, P2, bool_decide_name in H0; simpl in *.
  destruct (decide (j = k)) as [->|]; simpl in *; [|exact H0].
  split; [destruct (in_flight g k); simpl in H0; lia|by right].
Qed.

Lemma shared_step x y : singleFlight = true -> shared_reads (readers x) (group x) -> step x y -> shared_reads (readers y) (group y).
Proof.
  intros SF H0 Hs; destruct Hs; simpl in *; try congruence; auto;
    try (by eapply shared_replace, H0); try (by eapply shared_remove, H0); try (by eapply shared_enter); try (by eapply shared_leave).
  intros j; specialize (H0 j); rewrite !count_readers_app; unfold count at 2 4; simpl; rewrite !Nat.add_0_r; exact H0.
Qed.

Lemma shared_reachable x : singleFlight = true -> reachable x -> shared_reads (readers x) (group x).
Proof.
  intros SF H0; unfold reachable in H0; remember initial as y eqn:Y.
  assert (I : shared_reads (readers y) (group y)) by (subst; intros k; simpl; rewrite no_flight; split; [done|by right]).
  clear Y; induction H0; eauto using shared_step.
Qed.

(** C21: Whatever the order of lookups, reads, stores, cancellations, cleaning and
    forgetting, a result from the cache was stored less than the time to live ago and
    any other was stored by a read of that file; a caller whose context is alive is
    not given another caller's cancellation; and with single flight a file is never
    read twice at once and no caller waits for a read that is not executed. *)
Theorem ReadFileCtx_fresh x : reachable x ->
  Forall (result_ok (stored x)) (returned x) /\ Forall failure_ok (failed x) /\
  (singleFlight = true -> forall k, (count (executing k) (readers x) <= 1)%nat /\
    (forall a, In (MkReader k a Joined) (readers x) -> count (executing k) (readers x) = 1%nat)).
Proof.
  intros H0; split; [apply inv_reachable, H0|split; [apply inv_reachable, H0|intros SF k]].
  destruct (shared_reachable x SF H0 k) as [H1 H2]; split; [rewrite H1; destruct (in_flight _ _); simpl; lia|intros a Hj].
  destruct H2 as [H2|H2]; [by rewrite H1, H2|].
  assert (0 < count (joined k) (readers x))%nat; [|lia].
  apply count_existsb, existsb_exists; exists (MkReader k a Joined); split; [exact Hj|by apply bool_decide_eq_true_2].
Qed.
End cachefs.

(** ** Examples *)

Abbreviation zstate := (state (K := Z) (D := Z) (G := gset Z)).

Tactic Notation "one_step" uconstr(c) := eapply rtc_l; [eapply c|].

(** A read that is in flight when its file is forgotten puts what it has read back
    into the cache: a later call gets what was read before [Forget]. *)
Lemma forgotten : exists x : zstate, reachable 10 false x /\ cache x !! 1 = Some (7, 12) /\ returned x = [(1, 7, 2, false); (1, 7, 2, true)].
Proof.
  eexists; split; [unfold reachable, initial|].
  - one_step (step_look (D := Z) 10 false 0 ∅ [] ∅ None [] [] [] 1).
    one_step (step_miss (D := Z) 10 false 0 ∅ [] 1); [done|].
    one_step (step_direct (D := Z) 10 false 0 ∅ [] 1); [done|].
    one_step (step_read (D := Z) 10 false 0 ∅ [] 1 true 0 7).
    one_step (step_forget (D := Z) 10 false 0 ∅ _ _ _ _ _ _ 1).
    one_step (step_tick (D := Z) 10 false 0 _ _ _ _ _ _ _ 2); [done|].
    one_step (step_store (D := Z) 10 false 2 _ [] 1).
    one_step (step_direct_return (D := Z) 10 false 2 _ [] 1); [done|done|].
    one_step (step_look (D := Z) 10 false 2 _ [] _ _ _ _ _ 1).
    one_step (step_hit (D := Z) 10 false 2 _ [] 1); [reflexivity|].
    apply rtc_refl.
  - split; reflexivity.
Qed.

(** A caller whose read is cancelled gets that error; another that waited for it reads
    the file again. *)
Lemma reissued : exists x : zstate, reachable 10 true x /\ readers x = [] /\
  failed x = [(1, Canceled, true, false)] /\ returned x = [(1, 7, 0, false)].
Proof.
  eexists; split; [unfold reachable, initial|].
  - one_step (step_look (D := Z) 10 true 0 ∅ [] ∅ None [] [] [] 1).
    one_step (step_look (D := Z) 10 true 0 ∅ [_] ∅ None [] [] [] 1).
    one_step (step_miss (D := Z) 10 true 0 ∅ [] 1); [done|].
    one_step (step_miss (D := Z) 10 true 0 ∅ [_] 1); [done|].
    one_step (step_enter (D := Z) 10 true 0 ∅ [] 1 true _ ∅ ({[1]} ∪ ∅) true); [done|reflexivity|].
    one_step (step_enter (D := Z) 10 true 0 ∅ [_] 1 true _ ({[1]} ∪ ∅) ({[1]} ∪ ∅) false); [done|reflexivity|].
    one_step (step_cancel (D := Z) 10 true 0 ∅ [] 1).
    one_step (step_read_error (D := Z) 10 true 0 ∅ [] 1 false 0 Canceled).
    one_step (step_leave (D := Z) 10 true 0 ∅ [] 1); [done|done|].
    one_step (step_return (D := Z) 10 true 0 ∅ [] 1); [done|].
    one_step (step_again (D := Z) 10 true 0 ∅ [] 1); [done|].
    one_step (step_enter (D := Z) 10 true 0 ∅ [] 1 true _ (({[1]} ∪ ∅) ∖ {[1]}) ({[1]} ∪ (({[1]} ∪ ∅) ∖ {[1]})) true); [done|reflexivity|].
    one_step (step_read (D := Z) 10 true 0 ∅ [] 1 true 0 7).
    one_step (step_store (D := Z) 10 true 0 ∅ [] 1).
    one_step (step_leave (D := Z) 10 true 0 _ [] 1); [done|done|].
    one_step (step_return (D := Z) 10 true 0 _ [] 1); [done|].
    apply rtc_refl.
  - repeat split; reflexivity.
Qed.

Lemma ReadFileCtx_fresh_witness : exists x : zstate, failed x = [(1, Canceled, true, false)] /\
  Forall (result_ok 10 (stored x)) (returned x) /\ Forall failure_ok (failed x) /\
  (true = true -> forall k, (count (executing k) (readers x) <= 1)%nat /\
    (forall a, In (MkReader k a Joined) (readers x) -> count (executing k) (readers x) = 1%nat)).
Proof.
  destruct reissued as (x & H & _ & F & _); exists x; split; [exact F|].
  apply (ReadFileCtx_fresh 10 true x H).
Defined.
