(* ===== verification/Goroutines.v ===== *)
(** * Goroutine stacks (debug/goroutines: stack.go, stack_unix.go)

    The parsing of the text of [runtime.Stack] into goroutines and their printing.
    The regular expressions of the two kinds of lines are functions; the lines are
    those of [Scanner], which gives up on a long one. *)

From stdpp Require Import base list option numbers.
From Stdlib Require Import ZArith Lia.
From stdpp Require Import list.
From S2P Require Import Prelude Strconv Text Textutil Scanner.
Import Stdlib.Strings.String.StringSyntax.

Open Scope Z_scope.
Open Scope go_scope.

(** ** Data *)

Record Frame := MkFrame { Call : str; File : str; Line : Z; Offset : Z }.

Record Goroutine := MkGoroutine { ID : Z; State : str; Stack : list Frame; Creator : option Frame }.

Inductive parse_error := BadHeader (line : str) | LackedSecondLine (call : str) | BadFile (line : str) | BadNumber.

(** ** The lines *)

(** The longest prefix of runes with a property, and the rest. *)
Fixpoint span (f : rune -> bool) (s : str) : str * str :=
  match s with
  | r :: s' => if f r then let (a, b) := span f s' in (r :: a, b) else ([], s)
  | [] => ([], [])
  end.

(** The classes [\s], [\d] and [[0-9A-Fa-f]] of the regular expressions. *)
Definition re_space (r : rune) : bool := (r =? 9) || (r =? 10) || (r =? 12) || (r =? 13) || (r =? 32).
Definition re_digit (r : rune) : bool := (48 <=? r) && (r <=? 57).
Definition re_hex (r : rune) : bool := re_digit r || ((65 <=? r) && (r <=? 70)) || ((97 <=? r) && (r <=? 102)).

(** [goroutineHeaderRE]: the digits and the state. *)
Definition goroutineHeaderRE (s : str) : option (str * str) :=
  if negb (prefixed (Str "goroutine ") s) then None else
  let (ds, r) := span re_digit (drop 10 s) in
  if is_empty ds || negb (prefixed (Str " [") r) then None else
  match strings_Cut (drop 2 r) 93 with
  | Some (state, [58]) => if is_empty state then None else Some (ds, state)
  | _ => None
  end.

(** The file of [stackFileRE], in what comes before the first colon: if there are only
    spaces the last of them is the file. *)
Definition file_part (a : str) : option str :=
  match span re_space a with
  | ([], _) => None
  | (ws, []) => match ws with [_] => None | _ => match last ws with Some r => Some [r] | None => None end end
  | (_, f) => Some f
  end.

(** The line and the offset of [stackFileRE], after the colon. *)
Definition number_part (b : str) : option (str * str) :=
  let (ds, r) := span re_digit b in
  if is_empty ds then None else
  match r with
  | [] => Some (ds, [])
  | _ => if prefixed (Str " +0x") r && negb (is_empty (drop 4 r)) && forallb re_hex (drop 4 r) then Some (ds, drop 4 r) else None
  end.

(** [strconv.ParseInt(s, base, 64)] *)
Definition parse_int (s : str) (base : Z) : option Z :=
  match ParseInt (text_of s) base with inl v => Some v | inr _ => None end.

Definition parseFileLine (input : str) : (str * Z * Z) + parse_error :=
  match strings_Cut input 58 with
  | None => inr (BadFile input)
  | Some (a, b) =>
    match file_part a, number_part b with
    | Some file, Some (ds, hex) =>
      match parse_int ds 10 with
      | None => inr BadNumber
      | Some line =>
        if is_empty hex then inl (file, line, 0) else
        match parse_int hex 16 with None => inr BadNumber | Some offset => inl (file, line, offset) end
      end
    | _, _ => inr (BadFile input)
    end
  end.

(** ** Parsing

    The scanner is the list of the lines that are left; [tooLong] says that it stops
    with an error after them. *)

Definition created_by : str := Str "created by ".

(** The loop of [parseGoroutine], with [parseFrame]. *)
Fixpoint parse_frames (lines : list str) (stack : list Frame) : (list Frame * option Frame * list str) + parse_error :=
  match lines with
  | [] => inl (stack, None, [])
  | call :: lines =>
    if is_empty call then inl (stack, None, lines) else
    match lines with
    | [] => inr (LackedSecondLine call)
    | second :: lines =>
      match parseFileLine second with
      | inr e => inr e
      | inl (file, line, offset) =>
        if prefixed created_by call then inl (stack, Some (MkFrame (drop (length created_by) call) file line offset), lines)
        else parse_frames lines (stack ++ [MkFrame call file line offset])
      end
    end
  end.

Definition parseGoroutine (header : str) (lines : list str) : (Goroutine * list str) + parse_error :=
  match goroutineHeaderRE header with
  | None => inr (BadHeader header)
  | Some (ds, state) =>
    match parse_int ds 10 with
    | None => inr BadNumber
    | Some id =>
      match parse_frames lines [] with
      | inr e => inr e
      | inl (stack, creator, lines) => inl (MkGoroutine id state stack creator, lines)
      end
    end
  end.

Definition strings_Contains (s sub : str) : bool := 0 <=? Index s sub.

Definition shouldIgnore (g : Goroutine) (ignoredGoroutines : list str) : bool :=
  existsb (fun ignored =>
    match Creator g with Some c => strings_Contains (Call c) ignored | None => false end ||
    existsb (fun f => strings_Contains (Call f) ignored) (Stack g)) ignoredGoroutines.

(** [Parse]: what was parsed, and an error, [None] in it being the scanner's. *)
Fixpoint Parse_loop (fuel : nat) (lines : list str) (tooLong : bool) (ignore : list str) (out : list Goroutine) :
  res (list Goroutine * option (option parse_error)) :=
  match fuel with
  | O => NoFuel
  | S fuel =>
    match lines with
    | [] => Ok (out, if tooLong then Some None else None)
    | l :: lines =>
      if is_empty l then Parse_loop fuel lines tooLong ignore out else
      match parseGoroutine l lines with
      | inr e => Ok (out, Some (Some e))
      | inl (g, lines) => Parse_loop fuel lines tooLong ignore (if shouldIgnore g ignore then out else out ++ [g])
      end
    end
  end.

Definition Parse (buf : str) (ignore : list str) : res (list Goroutine * option (option parse_error)) :=
  let (lines, tooLong) := scan_lines buf in Parse_loop (S (length lines)) lines tooLong ignore [].

(** ** Printing *)

(** [Frame.writeTo] *)
Definition Frame_writeTo (f : Frame) : str :=
  Call f ++ [10; 9] ++ File f ++ [58] ++ Itoa (Line f) ++
  (if Offset f =? 0 then [] else Str " +0x" ++ Str (FormatInt (Offset f) 16)) ++ [10].

(** [Goroutine.writeTo] *)
Definition Goroutine_writeTo (g : Goroutine) : str :=
  Str "goroutine " ++ Itoa (ID g) ++ Str " [" ++ State g ++ Str "]:" ++ [10] ++
  concat (map Frame_writeTo (Stack g)) ++
  match Creator g with Some c => created_by ++ Frame_writeTo c | None => [] end.

Fixpoint Format_rest (gs : list Goroutine) : str :=
  match gs with [] => [] | g :: gs => 10 :: Goroutine_writeTo g ++ Format_rest gs end.

Definition Format (gs : list Goroutine) : str :=
  match gs with [] => [] | g :: gs => Goroutine_writeTo g ++ Format_rest gs end.

Example small_stack : Parse (Str "goroutine 1 [running]:
main.f(...)
	/a/b.go:12 +0x1f
created by main
	c.go:3

goroutine 22 [chan receive]:
x.y()
	z.go:4
") [] = Ok ([MkGoroutine 1 (Str "running") [MkFrame (Str "main.f(...)") (Str "/a/b.go") 12 31] (Some (MkFrame (Str "main") (Str "c.go") 3 0));
  MkGoroutine 22 (Str "chan receive") [MkFrame (Str "x.y()") (Str "z.go") 4 0] None], None).
Proof. vm_compute. reflexivity. Qed.

(** ** Lemmas *)

Lemma span_app f a b : forallb f a = true -> (forall r, hd_error b = Some r -> f r = false) -> span f (a ++ b) = (a, b).
Proof.
  intros Ha Hb; induction a as [|r a IH]; simpl in *.
  - destruct b as [|r b]; [done|]; simpl; by rewrite (Hb r).
  - apply andb_prop in Ha as [Hr Ha]; by rewrite Hr, IH.
Qed.

Lemma hex_runes fuel v : 0 <= v -> forallb re_hex (Str (digits fuel 16 v)) = true.
Proof.
  assert (Hd : forall d, 0 <= d < 16 -> forallb re_hex (Str (String.String (digit d) String.EmptyString)) = true).
  { intros d Hd; assert (B : forallb (fun n => forallb re_hex (Str (String.String (digit (Z.of_nat n)) String.EmptyString))) (seq 0 16) = true) by reflexivity.
    rewrite forallb_forall in B; specialize (B (Z.to_nat d)); rewrite Z2Nat.id in B by lia; apply B, in_seq; lia. }
  revert v; induction fuel as [|fuel IH]; intros v Hv; [done|]; cbn [digits]; destruct (Z.ltb_spec v 16); [apply Hd; lia|].
  rewrite Str_app, forallb_app, IH, Hd; [done|div_lia|div_lia].
Qed.

Lemma re_digit_runes l : Forall digit_rune l -> forallb re_digit l = true.
Proof. intros H; apply forallb_forall; intros r Hr; rewrite List.Forall_forall in H; specialize (H r Hr); unfold digit_rune, re_digit in *; lia. Qed.

Lemma parse_int_Format z base : 2 <= base <= 36 -> 0 <= z < 2 ^ 63 -> parse_int (Str (FormatInt z base)) base = Some z.
Proof. intros Hb Hz; unfold parse_int; rewrite text_of_Str, ParseInt_FormatInt; [done|done|unfold int64_ok; lia]. Qed.

Lemma parse_int_Itoa z : 0 <= z < 2 ^ 63 -> parse_int (Itoa z) 10 = Some z.
Proof. apply parse_int_Format; lia. Qed.

(** The text of the second line of a frame. *)
Definition second_line (f : Frame) : str :=
  9 :: File f ++ [58] ++ Itoa (Line f) ++ (if Offset f =? 0 then [] else Str " +0x" ++ Str (FormatInt (Offset f) 16)).

Definition file_ok (f : str) : Prop := (58 ∉ f) /\ (10 ∉ f) /\ exists r f', f = r :: f' /\ re_space r = false.

Definition position_ok (f : Frame) : Prop := file_ok (File f) /\ 0 <= Line f < 2 ^ 63 /\ 0 <= Offset f < 2 ^ 63.

Lemma number_part_second f : position_ok f ->
  number_part (Itoa (Line f) ++ (if Offset f =? 0 then [] else Str " +0x" ++ Str (FormatInt (Offset f) 16))) =
  Some (Itoa (Line f), if Offset f =? 0 then [] else Str (FormatInt (Offset f) 16)).
Proof.
  intros (_ & HL & HO); destruct (Itoa_digits (Line f)) as [Hd Hn]; [lia|]; unfold number_part.
  rewrite span_app; [|by apply re_digit_runes|by destruct (Offset f =? 0); intros r [= <-]].
  rewrite is_empty_spec, bool_decide_eq_false_2 by done.
  destruct (Offset f =? 0); [done|].
  set (h := Str (FormatInt (Offset f) 16)); change (Str " +0x") with [32; 43; 48; 120]; cbn [app skipn prefixed Z.eqb Pos.eqb andb].
  assert (Hh : is_empty h = false).
  { rewrite is_empty_spec; apply bool_decide_eq_false_2; unfold h, FormatInt; rewrite (proj2 (Z.ltb_ge _ _)) by lia.
    apply Str_nonempty, digits_nonempty. }
  assert (Hx : forallb re_hex h = true) by (unfold h, FormatInt; rewrite (proj2 (Z.ltb_ge _ _)) by lia; apply hex_runes; lia).
  by rewrite drop_0, Hh, Hx.
Qed.

Lemma parseFileLine_second f : position_ok f -> parseFileLine (second_line f) = inl (File f, Line f, Offset f).
Proof.
  intros H; pose proof H as ((Hc & _ & r & f' & Hf & Hr) & HL & HO); unfold parseFileLine, second_line.
  set (b := Itoa (Line f) ++ _); change (9 :: File f ++ [58] ++ b) with ((9 :: File f) ++ 58 :: b).
  rewrite strings_Cut_at by (rewrite not_elem_of_cons; split; [lia|done]); unfold b.
  rewrite number_part_second by done.
  assert (F : file_part (9 :: File f) = Some (File f)).
  { unfold file_part; change (9 :: File f) with ([9] ++ File f); rewrite span_app; [by rewrite Hf|done|].
    rewrite Hf; by intros ? [= <-]. }
  rewrite F, parse_int_Itoa by done.
  destruct (Offset f =? 0) eqn:Q; [cbn; do 2 f_equal; lia|].
  destruct (is_empty _) eqn:E; [|by rewrite parse_int_Format by lia].
  rewrite is_empty_spec in E; apply bool_decide_eq_true in E; unfold FormatInt in E.
  rewrite (proj2 (Z.ltb_ge _ _)) in E by lia; by apply Str_nonempty in E; [|apply digits_nonempty].
Qed.

(** ** The round trip *)

(** A call: a line without a newline and without a carriage return at its end. *)
Definition call_ok (l : str) : Prop := (10 ∉ l) /\ last l <> Some 13.

Definition frame_ok (f : Frame) : Prop := Call f <> [] /\ call_ok (Call f) /\ prefixed created_by (Call f) = false /\ position_ok f.

Definition goroutine_ok (g : Goroutine) : Prop :=
  0 <= ID g < 2 ^ 63 /\ State g <> [] /\ (93 ∉ State g) /\ (10 ∉ State g) /\ Forall frame_ok (Stack g) /\
  match Creator g with Some c => call_ok (Call c) /\ position_ok c | None => True end.

Definition frame_lines (fs : list Frame) : list str := flat_map (fun f => [Call f; second_line f]) fs.
Definition creator_lines (c : option Frame) : list str := match c with Some c => [created_by ++ Call c; second_line c] | None => [] end.
Definition header_line (g : Goroutine) : str := Str "goroutine " ++ Itoa (ID g) ++ Str " [" ++ State g ++ Str "]:".

(** The lines of a goroutine after its header, and of further goroutines. *)
Definition body_lines (g : Goroutine) : list str := frame_lines (Stack g) ++ creator_lines (Creator g).
Definition goroutine_lines (g : Goroutine) : list str := header_line g :: body_lines g.

Fixpoint rest_lines (gs : list Goroutine) : list str :=
  match gs with [] => [] | g :: gs => [] :: header_line g :: body_lines g ++ rest_lines gs end.

(** What is left after a goroutine: without a creator the blank line is read. *)
Definition left_after (g : Goroutine) (gs : list Goroutine) : list str :=
  match Creator g with Some _ => rest_lines gs | None => tl (rest_lines gs) end.

Lemma parse_frames_app fs tail : Forall frame_ok fs -> forall acc, parse_frames (frame_lines fs ++ tail) acc = parse_frames tail (acc ++ fs).
Proof.
  induction 1 as [|f fs (Hc & _ & Hp & Hf) _ IH]; intros acc; [by rewrite app_nil_r|].
  cbn [frame_lines flat_map app parse_frames]; rewrite is_empty_spec, bool_decide_eq_false_2 by done.
  rewrite parseFileLine_second, Hp by done.
  change (flat_map _ fs) with (frame_lines fs); rewrite IH, <- app_assoc; by destruct f.
Qed.

Lemma parse_body g gs : goroutine_ok g -> parse_frames (body_lines g ++ rest_lines gs) [] = inl (Stack g, Creator g, left_after g gs).
Proof.
  intros (_ & _ & _ & _ & Hs & Hc); unfold body_lines, left_after; rewrite <- app_assoc, parse_frames_app by done.
  destruct (Creator g) as [c|]; cbn [creator_lines app].
  - cbn [parse_frames]; rewrite parseFileLine_second by apply Hc.
    rewrite prefixed_app, drop_app_length; by destruct c.
  - by destruct gs.
Qed.

Lemma header_parsed g : goroutine_ok g -> goroutineHeaderRE (header_line g) = Some (Itoa (ID g), State g).
Proof.
  intros (Hi & Hn & H93 & _); unfold goroutineHeaderRE, header_line.
  rewrite prefixed_app; cbn [negb]; change (drop 10 (Str "goroutine " ++ ?s)) with s.
  destruct (Itoa_digits (ID g)) as [Hd He]; [lia|].
  rewrite span_app; [|by apply re_digit_runes|by intros ? [= <-]].
  rewrite is_empty_spec, bool_decide_eq_false_2, prefixed_app by done; cbn [negb orb].
  change (drop 2 (Str " [" ++ ?s)) with s; change (Str "]:") with [93; 58]; rewrite strings_Cut_at by done.
  rewrite is_empty_spec; by rewrite bool_decide_eq_false_2.
Qed.

Lemma parseGoroutine_lines g gs : goroutine_ok g ->
  parseGoroutine (header_line g) (body_lines g ++ rest_lines gs) = inl (g, left_after g gs).
Proof.
  intros H; unfold parseGoroutine; rewrite header_parsed, parse_int_Itoa by (done || apply H).
  rewrite parse_body by done; by destruct g.
Qed.

Lemma header_nonempty g : is_empty (header_line g) = false.
Proof. reflexivity. Qed.

Lemma Parse_loop_lines ignore gs : forall g fuel out, goroutine_ok g -> Forall goroutine_ok gs ->
  (length (header_line g :: body_lines g ++ rest_lines gs) < fuel)%nat ->
  Parse_loop fuel (header_line g :: body_lines g ++ rest_lines gs) false ignore out =
  Ok (out ++ List.filter (fun g => negb (shouldIgnore g ignore)) (g :: gs), None).
Proof.
  induction gs as [|g' gs IH]; intros g fuel out Hg Hgs Hf; (destruct fuel as [|fuel]; [cbn in Hf; lia|]);
    cbn [Parse_loop]; rewrite header_nonempty, parseGoroutine_lines by done; cbn [length] in Hf; rewrite length_app in Hf;
    (set (out' := if shouldIgnore g ignore then out else out ++ [g]));
    (assert (O : forall l, out' ++ l = out ++ (if negb (shouldIgnore g ignore) then g :: l else l))
      by (intros l; unfold out'; destruct (shouldIgnore g ignore); cbn [negb]; by rewrite <- ?app_assoc)).
  - cbn [List.filter]; rewrite <- O, app_nil_r.
    destruct fuel; [lia|]; unfold left_after; by destruct (Creator g).
  - inversion Hgs as [|? ? Hg' Hgs']; subst.
    change (List.filter ?f (g :: ?l)) with (if f g then g :: List.filter f l else List.filter f l); cbv beta; rewrite <- O.
    unfold left_after; destruct (Creator g); cbn [rest_lines tl length] in *.
    + destruct fuel as [|fuel]; [lia|]; cbn [Parse_loop is_empty]; apply IH; [done|done|cbn [length]; lia].
    + apply IH; [done|done|cbn [length]; lia].
Qed.

(** *** The text *)

Lemma Frame_writeTo_lines f : Frame_writeTo f = unlines [Call f; second_line f].
Proof. unfold Frame_writeTo, unlines, second_line; cbn [flat_map]; rewrite app_nil_r; repeat (rewrite <- ?app_assoc; cbn [app]). done. Qed.

Lemma Goroutine_writeTo_lines g : Goroutine_writeTo g = unlines (header_line g :: body_lines g).
Proof.
  unfold Goroutine_writeTo, body_lines, header_line; change (?h :: ?a ++ ?b) with ([h] ++ a ++ b) at 1.
  rewrite !unlines_app.
  assert (F : concat (map Frame_writeTo (Stack g)) = unlines (frame_lines (Stack g))).
  { induction (Stack g) as [|f fs IH]; [done|]; cbn [map concat frame_lines flat_map]; change (flat_map _ fs) with (frame_lines fs).
    by rewrite unlines_app, IH, Frame_writeTo_lines. }
  rewrite F; unfold unlines at 2; cbn [flat_map]; rewrite app_nil_r, <- !app_assoc; do 6 f_equal.
  destruct (Creator g) as [c|]; [|done]; rewrite Frame_writeTo_lines; unfold unlines, creator_lines; cbn [flat_map]; by rewrite <- !app_assoc.
Qed.

Lemma Format_rest_lines gs : Format_rest gs = unlines (rest_lines gs).
Proof.
  induction gs as [|g gs IH]; [done|]; cbn [Format_rest rest_lines].
  rewrite IH, Goroutine_writeTo_lines, <- unlines_app; done.
Qed.

Lemma notin_app (c : rune) (a b : str) : c ∉ a -> c ∉ b -> c ∉ a ++ b.
Proof. rewrite elem_of_app; tauto. Qed.

Lemma hex_not_newline l : forallb re_hex l = true -> 10 ∉ l.
Proof. intros H Hin; rewrite forallb_forall in H; apply list_elem_of_In in Hin; by apply H in Hin. Qed.

Lemma last_app_ne {A} (a b : list A) : b <> [] -> last (a ++ b) = last b.
Proof. intros H; rewrite last_app; destruct (last b) eqn:E; [done|by apply last_None in E]. Qed.

Lemma last_in {A} (l : list A) x : last l = Some x -> x ∈ l.
Proof. intros H; apply last_Some in H as [l' ->]; apply elem_of_app; right; by apply list_elem_of_singleton. Qed.

Lemma second_line_ok f : position_ok f -> call_ok (second_line f).
Proof.
  intros ((_ & Hf & _) & HL & HO); destruct (Itoa_digits (Line f)) as [Hd Hn]; [lia|].
  assert (Hx : forallb re_hex (Str (FormatInt (Offset f) 16)) = true).
  { unfold FormatInt; rewrite (proj2 (Z.ltb_ge _ _)) by lia; apply hex_runes; lia. }
  assert (Hne : Str (FormatInt (Offset f) 16) <> []).
  { unfold FormatInt; rewrite (proj2 (Z.ltb_ge _ _)) by lia; apply Str_nonempty, digits_nonempty. }
  unfold second_line, call_ok; change (9 :: ?a) with ([9] ++ a); split.
  - repeat apply notin_app; [by rewrite list_elem_of_singleton|done|by rewrite list_elem_of_singleton|apply digits_not_in; [done|lia]|].
    destruct (_ =? _); [apply not_elem_of_nil|apply notin_app; [|by apply hex_not_newline]].
    change (Str " +0x") with [32; 43; 48; 120]; rewrite !elem_of_cons, elem_of_nil; lia.
  - rewrite !app_assoc; destruct (_ =? _).
    + rewrite app_nil_r, last_app_ne by done; intros ?%last_in; by apply (digits_not_in 13) in H; [|done|lia].
    + rewrite app_assoc, last_app_ne by done; intros H%last_in; rewrite forallb_forall in Hx; apply list_elem_of_In in H; by apply Hx in H.
Qed.

Lemma header_line_ok g : goroutine_ok g -> call_ok (header_line g).
Proof.
  intros (Hi & _ & _ & Hs & _); destruct (Itoa_digits (ID g)) as [Hd _]; [lia|]; split; unfold header_line.
  - repeat apply notin_app; [|apply digits_not_in; [done|lia]|..|done|];
      change (Str "goroutine ") with [103; 111; 114; 111; 117; 116; 105; 110; 101; 32]; change (Str " [") with [32; 91]; change (Str "]:") with [93; 58];
      rewrite !elem_of_cons, elem_of_nil; lia.
  - rewrite !app_assoc, last_app_ne by done; by intros [= ?].
Qed.

Lemma lines_ok_goroutine g : goroutine_ok g -> Forall call_ok (goroutine_lines g).
Proof.
  intros H; constructor; [by apply header_line_ok|]; destruct H as (_ & _ & _ & _ & Hs & Hc).
  unfold body_lines; apply Forall_app; split.
  - induction Hs as [|f fs (_ & Hl & _ & Hp) _ IH]; [constructor|]; cbn [frame_lines flat_map app].
    constructor; [done|constructor; [by apply second_line_ok|exact IH]].
  - destruct (Creator g) as [c|]; [|constructor]; destruct Hc as [[H1 H2] H3].
    constructor; [|constructor; [by apply second_line_ok|constructor]]; split.
    + apply notin_app; [|done]; change created_by with [99; 114; 101; 97; 116; 101; 100; 32; 98; 121; 32]; rewrite !elem_of_cons, elem_of_nil; lia.
    + rewrite last_app; destruct (last (Call c)) eqn:Q; [congruence|by intros [= ?]].
Qed.

Lemma lines_ok_rest gs : Forall goroutine_ok gs -> Forall call_ok (rest_lines gs).
Proof.
  induction 1 as [|g gs H _ IH]; [constructor|]; cbn [rest_lines].
  constructor; [split; [apply not_elem_of_nil|done]|]; rewrite app_comm_cons; apply Forall_app; split; [by apply lines_ok_goroutine|exact IH].
Qed.

Lemma lines_fit_rest gs : Forall (fun l => size l < 64 * 1024) (flat_map goroutine_lines gs) -> Forall (fun l => size l < 64 * 1024) (rest_lines gs).
Proof.
  induction gs as [|g gs IH]; [done|]; cbn [flat_map rest_lines]; rewrite app_comm_cons, !Forall_cons, !Forall_app.
  intros [H1 H2]; split; [done|split; [exact H1|by apply IH]].
Qed.

(** C24: The text that [Format] prints for goroutines is parsed into them, those to be
    ignored left out and the others in order, whatever the number of goroutines and
    frames, with creators and offsets or without.  The names of files have no
    colon, and every line is shorter than the scanner's limit of 64 KiB. *)
Theorem Parse_Format gs ignore : Forall goroutine_ok gs -> Forall (fun l => size l < 64 * 1024) (flat_map goroutine_lines gs) ->
  Parse (Format gs) ignore = Ok (List.filter (fun g => negb (shouldIgnore g ignore)) gs, None).
Proof.
  intros H Hf; destruct H as [|g gs Hg Hgs]; [reflexivity|]; cbn [flat_map] in Hf; apply Forall_app in Hf as [Hf1 Hf2].
  unfold Parse, Format; rewrite Goroutine_writeTo_lines, Format_rest_lines, <- unlines_app, scan_unlines.
  - rewrite <- app_comm_cons; by apply (Parse_loop_lines ignore gs g _ []); [done|done|lia].
  - assert (C : Forall call_ok (goroutine_lines g ++ rest_lines gs)) by (apply Forall_app; split; [by apply lines_ok_goroutine|by apply lines_ok_rest]).
    assert (F : Forall (fun l => size l < 64 * 1024) (goroutine_lines g ++ rest_lines gs)) by (apply Forall_app; split; [done|by apply lines_fit_rest]).
    apply List.Forall_forall; intros l Hl; rewrite List.Forall_forall in C, F; destruct (C l Hl); split; [done|split; [done|by apply F]].
Qed.

(** A scan that stops at a line that is too long is an error, whatever was parsed. *)
Lemma Parse_loop_too_long fuel : forall lines ignore out out' err, Parse_loop fuel lines true ignore out = Ok (out', err) -> err <> None.
Proof.
  induction fuel as [|fuel IH]; intros lines ignore out out' err; [done|]; cbn [Parse_loop].
  destruct lines as [|l lines]; [by intros [= _ <-]|]; destruct (is_empty l); [apply IH|].
  destruct (parseGoroutine l lines) as [[g rest]|]; [apply IH|by intros [= _ <-]].
Qed.

Lemma Parse_too_long buf ignore out err : Exists (fun l => 64 * 1024 <= size l) (raw_lines buf) -> Parse buf ignore = Ok (out, err) -> err <> None.
Proof.
  intros H; unfold Parse, scan_lines; rewrite scan_from_spec.
  assert (forallb fits (raw_lines buf) = false) as ->; [|apply Parse_loop_too_long].
  induction H as [l ls H|l ls _ IH]; cbn [forallb]; [|by rewrite IH, andb_false_r].
  unfold fits; by rewrite (proj2 (Z.ltb_ge _ _)).
Qed.

(** [Parse] always has a result: a goroutine takes at least its header. *)
Lemma parse_frames_shorter lines : forall acc r, parse_frames lines acc = inl r -> (length (snd r) <= length lines)%nat.
Proof.
  assert (H : forall n lines, (length lines <= n)%nat -> forall acc r, parse_frames lines acc = inl r -> (length (snd r) <= length lines)%nat); [|eauto].
  induction n as [|n IH]; intros l Hn acc r; (destruct l as [|call [|second l]]; cbn [parse_frames length] in *; [intros [= <-]; done|..]); try lia.
  - destruct (is_empty call); intros [= <-]; simpl; lia.
  - destruct (is_empty call); [intros [= <-]; simpl; lia|].
    destruct (parseFileLine second) as [[[file line] offset]|]; [|done].
    destruct (prefixed created_by call); [intros [= <-]; simpl; lia|]; intros E; apply IH in E; lia.
Qed.

Lemma parseGoroutine_shorter h lines g rest : parseGoroutine h lines = inl (g, rest) -> (length rest <= length lines)%nat.
Proof.
  unfold parseGoroutine; destruct (goroutineHeaderRE h) as [[ds state]|]; [|done]; destruct (parse_int ds 10); [|done].
  destruct (parse_frames lines []) as [[[stack creator] r]|] eqn:E; [|done]; intros [= <- <-]; by apply parse_frames_shorter in E.
Qed.

Lemma Parse_total buf ignore : exists out err, Parse buf ignore = Ok (out, err).
Proof.
  unfold Parse; destruct (scan_lines buf) as [lines tooLong].
  cut (forall fuel lines out, (length lines < fuel)%nat -> exists out' err, Parse_loop fuel lines tooLong ignore out = Ok (out', err)); [eauto|].
  clear lines.
  induction fuel as [|fuel IH]; intros lines out Hf; [lia|]; cbn [Parse_loop]; destruct lines as [|l lines]; [eauto|]; cbn [length] in Hf.
  destruct (is_empty l); [apply IH; lia|]; destruct (parseGoroutine l lines) as [[g rest]|] eqn:E; [|eauto].
  apply parseGoroutine_shorter in E; apply IH; lia.
Qed.

(** A colon in the name of a file, as in one with a volume, is not read back here. *)
Lemma colon_in_file : exists e, Parse (Format [MkGoroutine 1 (Str "running") [MkFrame (Str "f()") (Str "C:/a.go") 3 0] None]) [] = Ok ([], Some (Some e)).
Proof. eexists; vm_compute; reflexivity. Qed.

Definition two_goroutines : list Goroutine :=
  [MkGoroutine 1 (Str "running") [MkFrame (Str "main.f(...)") (Str "/a/b.go") 12 31] None;
   MkGoroutine 22 (Str "chan receive") [MkFrame (Str "x.y()") (Str "z.go") 4 0] (Some (MkFrame (Str "main") (Str "c.go") 3 0))].

Lemma Parse_Format_witness : Parse (Format two_goroutines) [Str "y("] = Ok (List.filter (fun g => negb (shouldIgnore g [Str "y("])) two_goroutines, None).
Proof.
  apply (Parse_Format two_goroutines [Str "y("]); [unfold two_goroutines|repeat constructor].
  repeat constructor; cbn; try lia; try done; try (eexists _, _; split; reflexivity); try (rewrite ?not_elem_of_cons; repeat split; try lia; apply not_elem_of_nil);
    try discriminate.
Defined.
