(* ===== verification/Expect.v ===== *)
(** * Expectations on lines of input (cmdutil/expect: expect.go)

    A goroutine reads lines into a channel; each expectation takes one event from it,
    or as many as it needs, or gives up when its context is done.  Regular
    expressions are predicates.  The printing of errors is not modelled. *)

From stdpp Require Import base list option numbers.
From Stdlib Require Import ZArith Lia.
From stdpp Require Import list.
From S2P Require Import Prelude Strconv Text.
Import Stdlib.Strings.String.StringSyntax.

Open Scope Z_scope.
Open Scope go_scope.

Section expect.
(** Errors of the reader and of contexts. *)
Context {E : Type}.

Abbreviation regexp := (str -> bool).

Record UnexpectedInputError := MkError {
  Err : option E; Line : Z; Input : str; EOF : bool; Eventually : bool; EOFExpected : bool;
  Literals : list str; Expressions : list regexp }.

Definition Expectation (e : UnexpectedInputError) : str :=
  if EOFExpected e then Str "ExpectEOF" else
  let lit := 0 <? len (Literals e) in
  if Eventually e then (if lit then Str "ExpectEventually" else Str "ExpectEventuallyRE")
  else if lit then Str "ExpectNext" else Str "ExpectNextRE".

(** ** The stream *)

(** [inputEvent]: a line, or an error. *)
Inductive inputEvent := InputLine (input : str) | InputError (e : E).

(** [Lines]: the events that the channel will deliver before it is closed; [errs] are
    the errors recorded. *)
Record Lines := MkLines {
  ch : list inputEvent; eof : bool; input : str; line : Z; lastMatch : str; lastLine : Z; errs : list UnexpectedInputError }.

(** [readLines] of a text after which the reader returns [io.EOF], or another error:
    what follows the last newline is not sent. *)
Definition readLines (text : str) (err : option E) : list inputEvent :=
  map InputLine (removelast (strings_Split text 10)) ++ match err with Some e => [InputError e] | None => [] end.

Definition NewLineStream (text : str) (err : option E) : Lines := MkLines (readLines text err) false [] 0 [] 0 [].

Definition record (s : Lines) (e : UnexpectedInputError) : Lines :=
  MkLines (ch s) (eof s) (input s) (line s) (lastMatch s) (lastLine s) (errs s ++ [e]).
Definition match_here (s : Lines) : Lines := MkLines (ch s) (eof s) (input s) (line s) (input s) (line s) (errs s).
Definition at_eof (s : Lines) : Lines := MkLines (ch s) true (input s) (line s) (lastMatch s) (lastLine s) (errs s).
Definition take_line (s : Lines) (l : str) (ch' : list inputEvent) : Lines :=
  MkLines ch' (eof s) l (line s + 1) (lastMatch s) (lastLine s) (errs s).
Definition drop_event (s : Lines) (ch' : list inputEvent) : Lines :=
  MkLines ch' (eof s) (input s) (line s) (lastMatch s) (lastLine s) (errs s).

(** [nextLine]; [done] is the context's error if that case of the select is taken. *)
Definition nextLine (done : option E) (s : Lines) : Lines * option UnexpectedInputError :=
  match done with
  | Some e => (s, Some (MkError (Some e) (line s) (input s) (eof s) false false [] []))
  | None =>
    match ch s with
    | [] => (at_eof s, None)
    | InputError e :: ch' => (drop_event s ch', Some (MkError (Some e) (line s) (input s) (eof s) false false [] []))
    | InputLine l :: ch' => (take_line s l ch', None)
    end
  end.

Definition with_expected (lits : list str) (exprs : list regexp) (eof_expected : bool) (e : UnexpectedInputError) : UnexpectedInputError :=
  MkError (Err e) (Line e) (Input e) (EOF e) (Eventually e) eof_expected lits exprs.

(** [slices.Contains], or one of the expressions matches. *)
Definition matches (lits : list str) (exprs : list regexp) (l : str) : bool :=
  existsb (fun x => bool_decide (l = x)) lits || existsb (fun re => re l) exprs.

(** [ExpectNext] and [ExpectNextRE] *)
Definition expect_next (done : option E) (lits : list str) (exprs : list regexp) (s : Lines) : Lines * option UnexpectedInputError :=
  match nextLine done s with
  | (s, Some err) => let err := with_expected lits exprs false err in (record s err, Some err)
  | (s, None) =>
    if negb (eof s) && matches lits exprs (input s) then (match_here s, None)
    else let err := MkError None (line s) (input s) (eof s) false false lits exprs in (record s err, Some err)
  end.

Definition ExpectNext (done : option E) (lines : list str) : Lines -> Lines * option UnexpectedInputError := expect_next done lines [].
Definition ExpectNextRE (done : option E) (exprs : list regexp) : Lines -> Lines * option UnexpectedInputError := expect_next done [] exprs.

Definition ExpectEOF (done : option E) (s : Lines) : Lines * option UnexpectedInputError :=
  match nextLine done s with
  | (s, Some err) => let err := with_expected [] [] true err in (record s err, Some err)
  | (s, None) =>
    if eof s then (s, None)
    else let err := MkError None (line s) (input s) false false true [] [] in (record s err, Some err)
  end.

(** The loop of [eventually] over the events; the context is done after [patience] of
    them.  It ends with a match, or with the error to be reported. *)
Fixpoint eventually_loop (patience : nat) (done : E) (lits : list str) (exprs : list regexp) (events : list inputEvent) (s : Lines) : Lines * option (option E) :=
  match patience with
  | O => (s, Some (Some done))
  | S patience =>
    match events with
    | [] => (at_eof s, Some None)
    | InputError e :: events => (drop_event s events, Some (Some e))
    | InputLine l :: events =>
      let s := take_line s l events in
      if matches lits exprs l then (match_here s, None) else eventually_loop patience done lits exprs events s
    end
  end.

Definition eventually (patience : nat) (done : E) (lits : list str) (exprs : list regexp) (s : Lines) : Lines * option UnexpectedInputError :=
  match eventually_loop patience done lits exprs (ch s) s with
  | (s, None) => (s, None)
  | (s, Some err) =>
    let err := MkError err (line s) (input s) (eof s) true false lits exprs in (record s err, Some err)
  end.

Definition LastMatch (s : Lines) : Z * str := (lastLine s, lastMatch s).

(** ** Operations and the reference

    Operations whose contexts are not done, on a list of lines with a position. *)

Inductive op := OpNext (lits : list str) (exprs : list regexp) | OpEventually (lits : list str) (exprs : list regexp) | OpEOF.

(** The context of an operation is not done before it has seen all events. *)
Definition run_op (done : E) (s : Lines) (o : op) : Lines * bool :=
  match o with
  | OpNext lits exprs => let (s, e) := expect_next None lits exprs s in (s, match e with None => true | _ => false end)
  | OpEventually lits exprs => let (s, e) := eventually (S (length (ch s))) done lits exprs s in (s, match e with None => true | _ => false end)
  | OpEOF => let (s, e) := ExpectEOF None s in (s, match e with None => true | _ => false end)
  end.

Fixpoint run_ops (done : E) (s : Lines) (os : list op) : Lines * list bool :=
  match os with [] => (s, []) | o :: os => let (s, r) := run_op done s o in let (s, rs) := run_ops done s os in (s, r :: rs) end.

(** The lines that are left, their position, and the last match. *)
Record cursor := MkCursor { todo : list str; pos : Z; found : Z * str }.

Fixpoint skip_to (p : str -> bool) (ls : list str) (n : Z) : option (list str * Z * str) :=
  match ls with [] => None | l :: ls => if p l then Some (ls, n + 1, l) else skip_to p ls (n + 1) end.

Definition ref_op (c : cursor) (o : op) : cursor * bool :=
  match o, todo c with
  | OpNext lits exprs, l :: ls => if matches lits exprs l then (MkCursor ls (pos c + 1) (pos c + 1, l), true) else (MkCursor ls (pos c + 1) (found c), false)
  | OpNext _ _, [] => (c, false)
  | OpEventually lits exprs, ls =>
    match skip_to (matches lits exprs) ls (pos c) with
    | Some (ls, n, l) => (MkCursor ls n (n, l), true)
    | None => (MkCursor [] (pos c + len ls) (found c), false)
    end
  | OpEOF, [] => (c, true)
  | OpEOF, _ :: ls => (MkCursor ls (pos c + 1) (found c), false)
  end.

Fixpoint ref_ops (c : cursor) (os : list op) : cursor * list bool :=
  match os with [] => (c, []) | o :: os => let (c, r) := ref_op c o in let (c, rs) := ref_ops c os in (c, r :: rs) end.

(** The stream is at the cursor, which has lines left until [eof] is set. *)
Definition related (s : Lines) (c : cursor) : Prop :=
  ch s = map InputLine (todo c) /\ line s = pos c /\ LastMatch s = found c /\ (eof s = true -> todo c = []).

Lemma eventually_loop_ref done lits exprs ls : forall n s c, (length ls < n)%nat -> ch s = map InputLine ls -> todo c = ls -> related s c ->
  let (s', e) := eventually_loop n done lits exprs (map InputLine ls) s in
  let (c', r) := ref_op c (OpEventually lits exprs) in
  related s' c' /\ r = match e with None => true | _ => false end.
Proof.
  induction ls as [|l ls IH]; intros n s c Hn Hs Hc (R1 & R2 & R3 & R4); unfold ref_op; rewrite Hc;
    (destruct n as [|n]; [lia|]); cbn [map skip_to length eventually_loop] in *.
  - split; [|done]; repeat split; simpl; [by rewrite Hs|unfold len; simpl; lia|exact R3].
  - assert (eof s = false) as Hf by (destruct (eof s); [rewrite Hc in R4; by specialize (R4 eq_refl)|done]).
    destruct (matches lits exprs l) eqn:M.
    + split; [|done]; repeat split; simpl; [lia|unfold LastMatch; simpl; by rewrite R2|by rewrite Hf].
    + specialize (IH n (take_line s l (map InputLine ls)) (MkCursor ls (pos c + 1) (found c)) ltac:(lia) eq_refl eq_refl).
      cbn [ref_op todo pos found] in IH; destruct (eventually_loop _ _ _ _ _ _) as [s' e].
      rewrite len_cons; replace (pos c + (len ls + 1)) with (pos c + 1 + len ls) by lia.
      destruct (skip_to _ ls (pos c + 1)) as [[[ls' m] l']|]; apply IH; repeat split; simpl; (lia || exact R3 || by rewrite Hf).
Qed.

Lemma related_record s c e : related s c -> related (record s e) c.
Proof. done. Qed.

Lemma run_op_ref done s c o : related s c ->
  let (s', r) := run_op done s o in let (c', r') := ref_op c o in related s' c' /\ r = r'.
Proof.
  intros R; pose proof R as (R1 & R2 & R3 & R4); destruct o as [lits exprs|lits exprs|]; cbn [run_op].
  - unfold expect_next, nextLine, ref_op; rewrite R1; destruct (todo c) as [|l ls] eqn:T; cbn [map].
    + cbn [eof at_eof negb andb]; split; [|done]; repeat split; simpl; (exact R1 || exact R2 || exact R3 || by rewrite ?T).
    + assert (eof s = false) as Hf by (destruct (eof s); [by specialize (R4 eq_refl)|done]).
      cbn [eof take_line input]; rewrite Hf; cbn [negb andb].
      destruct (matches lits exprs l); (split; [|done]); repeat split; simpl; try lia; try done; try (unfold LastMatch; simpl; by rewrite R2); by rewrite Hf.
  - unfold eventually.
    pose proof (eventually_loop_ref done lits exprs (todo c) (S (length (ch s))) s c ltac:(rewrite R1, length_map; lia) R1 eq_refl R) as L.
    rewrite <- R1 in L.
    destruct (eventually_loop _ _ _ _ _ _) as [s' [e|]]; destruct (ref_op c _) as [c' r']; destruct L as [L ->]; by split.
  - unfold ExpectEOF, nextLine, ref_op; rewrite R1; destruct (todo c) as [|l ls] eqn:T; cbn [map].
    + split; [|done]; repeat split; simpl; (exact R1 || exact R2 || exact R3 || by rewrite ?T).
    + assert (eof s = false) as Hf by (destruct (eof s); [by specialize (R4 eq_refl)|done]).
      cbn [eof take_line]; rewrite Hf; split; [|done]; repeat split; simpl; [lia|done|by rewrite Hf].
Qed.

(** Expectations on a text that ends in a newline, whatever their sequence, have the
    results that they have on its list of lines, and [LastMatch] is the number and the
    text of the line last matched. *)
Theorem Lines_refine_cursor done (ls : list str) os : Forall (fun l => 10 ∉ l) ls ->
  let s := NewLineStream (flat_map (fun l => l ++ [10]) ls) None in
  let c := MkCursor ls 0 (0, []) in
  snd (run_ops done s os) = snd (ref_ops c os) /\ LastMatch (fst (run_ops done s os)) = found (fst (ref_ops c os)).
Proof.
  intros H s c.
  assert (R : related s c).
  { unfold s, c, NewLineStream, related, readLines; simpl; rewrite app_nil_r; split; [|done]; f_equal; unfold strings_Split.
    assert (S : split_on 10 [] (flat_map (fun l => l ++ [10]) ls) = ls ++ [[]]); [|by rewrite S, removelast_snoc].
    clear s c; induction H as [|l ls Hl _ IH]; [done|]; cbn [flat_map]; rewrite <- app_assoc; cbn [app].
    rewrite split_on_app by exact Hl; cbn [app]; f_equal; exact IH. }
  revert R; generalize s c; clear; induction os as [|o os IH]; intros s c R; [split; [done|apply R]|].
  cbn [run_ops ref_ops]; pose proof (run_op_ref done s c o R) as S.
  destruct (run_op done s o) as [s' r], (ref_op c o) as [c' r'], S as [R' ->]; specialize (IH s' c' R').
  destruct (run_ops done s' os), (ref_ops c' os); simpl in *; destruct IH as [-> ->]; done.
Qed.
End expect.

(** ** Examples *)

(** What follows the last newline is lost. *)
Lemma unterminated_line_lost :
  snd (run_ops (E := unit) tt (NewLineStream (Str "a
b") None) [OpNext [Str "a"] []; OpNext [Str "b"] []]) = [true; false].
Proof. reflexivity. Qed.

Lemma Lines_refine_cursor_witness :
  snd (run_ops (E := unit) tt (NewLineStream (Str "a
b
c
") None) [OpNext [Str "a"] []; OpEventually [] [fun l => bool_decide (l = Str "c")]; OpEOF]) =
  snd (ref_ops (MkCursor [Str "a"; Str "b"; Str "c"] 0 (0, [])) [OpNext [Str "a"] []; OpEventually [] [fun l => bool_decide (l = Str "c")]; OpEOF]).
Proof.
  apply (proj1 (Lines_refine_cursor (E := unit) tt [Str "a"; Str "b"; Str "c"] _ ltac:(repeat constructor; cbn; rewrite ?not_elem_of_cons; repeat split; try lia; apply not_elem_of_nil))).
Defined.
